(* ===== verification/_CoqProject ===== *)
-Q . S2P
Prelude.v
Json.v
RulesSyntax.v
RulesLexer.v
RulesParser.v
RulesDecimal.v
RulesTime.v
RulesInstant.v
RulesValue.v
RulesCheck.v
RulesEval.v
RulesCanonical.v
RulesDigest.v
RulesDecision.v
RulesCatalog.v
RulesPostgres.v
KritiSyntax.v
KritiFunctions.v
KritiEval.v
KritiParser.v
KritiTemplate.v
ValueContract.v
ContractValidity.v
ContractSize.v
KeyedMap.v
AbiIds.v
ConnectorAbi.v
ConnectorAbiSpec.v
ProcessSyntax.v
ProcessGraph.v
ProcessGraphOrder.v
ProcessGraphPaths.v
ProcessGraphSpec.v
ProcessTypes.v
ProcessTypesSpec.v
ProcessActivity.v
ProcessActivitySpec.v
ProcessInfer.v
ProcessEvaluate.v
ProcessShapes.v
ProcessInferSpec.v
ProcessEvaluateSpec.v
ProcessProgress.v
ProcessDependencies.v
ProcessFingerprint.v
ProcessDefinition.v
ProcessStates.v
ProcessCompile.v
ProcessSession.v
ProcessPinned.v
ProcessStatesSpec.v
ProcessCompileSpec.v
ProcessCompiled.v
ProcessArguments.v
ProcessTyped.v
ProcessTypedSpec.v
ProcessTables.v
ProcessTransition.v
ProcessPrepare.v
ProcessCommit.v
ProcessConsume.v
ActivityClaim.v
ActivityWork.v
ProcessStart.v
ProcessSignal.v
ProcessJournal.v
ProcessEffect.v
ProcessSample.v
ProcessConsumeSpec.v
ProcessMoves.v
ProcessRuns.v
ProcessLive.v
ProcessStartSpec.v
ProcessSignalSpec.v
ProcessWorker.v
ActivitySpec.v
ActivitySample.v
ActivityFloor.v
ActivityOutcome.v
