(* ===== verification/Prelude.v ===== *)
(** * Donat: a verification library of its rules, templates, contracts and processes

    Donat serves GraphQL over PostgreSQL from declarative metadata.  Its
    business rules and decision tables are written in a small expression
    language, its request templates in the language Kriti, and its durable
    processes as graphs of states whose commands, connector requests, decisions
    and waits are checked when metadata is loaded and evaluated when a process
    runs.  This library models these parts, from the bytes of a source text to
    the decision, the SQL, the JSON or the arguments of an activity it ends in,
    and proves what makes each stage correct.

    ** The program and its model

    Shared:

    - [Prelude]: results, machine integers by range, Rust's [char]s and [str]
      functions over byte strings, decimal printing and reading, ordered maps,
      worklists.  A [BTreeMap] is a [btree]: its entries in the byte order of the
      keys.  [KeyedMap] has the maps whose keys are tuples.
    - [Json]: [serde_json::Value]; the classes [Serde] and [Digest] are the
      functions of [serde_json] and [sha2] the code calls, arguments of every
      definition that uses them.

    Rules ([src/crates/rules]).  Metadata gives rules (a name, typed bindings, a
    result type, an expression) and decision tables (typed inputs and outputs,
    rows of conditions, a hit policy, test cases).  [compile_catalog] lexes,
    parses and type checks every expression, checks the tables, encodes each
    record canonically, hashes the encoding, and evaluates the declared test
    cases.  At run time JSON bindings are decoded at their declared types and the
    checked expressions are evaluated; or they are lowered to a closed SQL text.

    - [RulesSyntax]: [lib.rs] and [types.rs], the grammar, the rule types, the
      declarations and compiled records, the errors with their texts, and the
      iterative bounds walk over opaque JSON.
    - [RulesLexer], [RulesParser]: [lexer.rs] and [parser.rs], with every error
      offset and expectation.
    - [RulesDecimal], [RulesTime], [RulesValue]: the 128-bit decimal, dates and
      timestamps and the move to UTC, the runtime values with their decoding
      from and printing to JSON ([eval.rs]).  [RulesInstant] holds the theorem on
      the order of timestamps.
    - [RulesCheck], [RulesEval]: [check_expression] and [evaluate_expression].
    - [RulesCanonical]: the canonical byte encoding.  [RulesDigest]
      holds its theorems.
    - [RulesDecision], [RulesCatalog]: decision tables and the catalog.
    - [RulesPostgres]: [postgres.rs], the lowering to SQL.

    Templates ([src/crates/kriti]).  [KritiSyntax] and [KritiParser] are
    [parser.rs], [KritiFunctions] and [KritiEval] the evaluator, and
    [KritiTemplate] puts them together.  The classes of Unicode case mapping and
    of JSON numbers are parameters.

    Contracts ([src/crates/value-contract]).  [ValueContract] is the type
    language of values: reading a type, validating a value, canonical sizes and
    assignability of contracts.  [ContractValidity] and
    [ContractSize] hold their theorems.  The connector boundary
    ([src/crates/connector-abi]) is [AbiIds] and [ConnectorAbi], its theorems
    [ConnectorAbiSpec].

    Processes ([src/crates/processes], [src/crates/server/src/processes]):

    - [ProcessSyntax]: the definitions of processes in metadata.
    - [ProcessGraph]: [validate_graph], the transitions between states, their
      topological order, and the outputs every path to a state guarantees;
      [ProcessGraphOrder], [ProcessGraphPaths] and [ProcessGraphSpec] prove it
      against the runs of the process.
    - [ProcessTypes], [ProcessInfer]: types, their resolution and joins, the
      types of values and the check of bindings; [ProcessTypesSpec] and
      [ProcessInferSpec].
    - [ProcessActivity]: error routes, durations and retry horizons;
      [ProcessActivitySpec].
    - [ProcessEvaluate]: [value.rs], values at run time; [ProcessShapes],
      [ProcessEvaluateSpec] and [ProcessProgress] relate it to inference.
    - [ProcessDependencies], [ProcessFingerprint], [ProcessDefinition],
      [ProcessStates], [ProcessCompile]: the catalogs a process depends on and
      the closure of what it pins, fingerprints, the checks of a definition, the
      compilers of the kinds of state, and [compile_process] with its catalogs.
      [ProcessSession], [ProcessPinned], [ProcessStatesSpec],
      [ProcessCompileSpec], [ProcessCompiled] and [ProcessArguments] prove what a
      compiled process promises, up to the arguments on a run.
    - [ProcessTyped]: from [start.rs] and the crate [processes], the check of a
      value against a type at run time and the decimals it normalises JSON
      numbers to; [ProcessTypedSpec].
    - [ProcessTables]: the rows of the tables of [src/migrations] with their
      constraints, and the transactions over them.
    - [ProcessTransition], [ProcessPrepare], [ProcessCommit], [ProcessConsume]:
      [transition.rs].  A due event with the row of its instance is a snapshot;
      [prepare_one_snapshot] computes from it, outside any transaction, what the
      current state asks for; [lock_prepared_snapshot] checks that the instance
      is still where the snapshot found it; [apply_prepared] runs the statements
      of the kind of state; [settle] defers or fails a transition that an error
      stopped; [consume_one_transition_kind] puts them together.
    - [ProcessJournal], [ProcessEffect], [ProcessConsumeSpec] prove them against
      an invariant of the tables, the step a transition takes, and the contract
      of consumption; [ProcessSample] runs an example from the compiler to the
      rows; [ProcessMoves] relates the moves of a running instance to the
      transitions of the compiled graph.
    - [ProcessStart], [ProcessSignal], [ProcessWorker]: [start.rs], [signal.rs]
      and the rounds of [runtime.rs] up to the activities.  A start request
      becomes an instance with its start event, a signal request an event of the
      instance that waits for it; [ProcessStartSpec], [ProcessSignalSpec].
    - [ActivityClaim], [ActivityWork]: [activity.rs].  [claim_transaction] leases
      the first due job, with a token of the rate and a reservation of the
      capacity of its operation, or expires, resolves or defers it;
      [authorize_provider_send] records the send before the executor is
      entered; [complete] records what came of it, under the lease alone.  Each
      is a transaction at a time of its own, and [consume_one_activity] is the
      three of them with the executor as a parameter.  [ActivitySpec] has what
      each leaves of the leases, [ActivityFloor] the floor on which any number
      of workers take their turns, [ActivityOutcome] what becomes of a failed
      and of a lost activity, and [ActivitySample] an example.
    - [ProcessRuns], [ProcessLive]: a world is the tables with the transitions
      in flight; a turn prepares or consumes one, or is another transaction,
      which is anything within [elsewhere] ([start_elsewhere] shows that starting
      is).  An invariant of worlds puts the instances of a running server under
      the theorems on compiled processes.

    Fallible code returns [result] with the source's error values.  Where the
    code may panic (an [expect], an index, an unreachable arm), an encoder
    returns [None] and the code above it an [outcome] with [Panicked], and the
    compiler of processes a [fault].  Integers are [Z] with the range test of the
    checked operation written out; [usize] arithmetic on lengths is [nat].  A
    shared closure that the code mutates is passed and returned; an [Arc] carries
    its allocation, which [ptr_eq] compares.

    ** What the theorems show

    - Syntax: a token is exactly the source slice of its span; a quoted text
      reads back; parsing never exhausts the bounds of the model and what it
      accepts is within the language's limits.
    - Types: evaluating a checked expression over typed bindings gives a value
      of its type or one of two arithmetic errors, so no internal error of the
      evaluator can be reached from a compiled rule; the SQL lowering infers the
      types the checker gave.
    - Numbers and times: decimal comparison is that of the rationals, addition,
      subtraction and multiplication are exact, division truncates with an error
      below [10^-18], printing is canonical and reads back; the move to UTC
      keeps the instant, and timestamps compare chronologically.
    - Decisions: compilation establishes [table_wf], and evaluation of such a
      table implements the verdict of its hit policy, with the trace of every
      row; a first-hit table never lacks a matching row, so over decoded inputs
      only an arithmetic error or an input without an encoding keeps it from
      deciding; a compiled catalog holds exactly its definitions, under distinct
      names, and satisfies its own test cases.
    - Digests: the encoding of a rule determines the rule, that of a decoded
      input its values, and an input has an encoding unless a list or an object
      is directly under a nullable type or a count exceeds [u32].
    - SQL: every lowered text is closed under quoting and parentheses, whatever
      the names, symbols, strings and JSON values in it.
    - Templates: parsing always ends and in bounds, evaluation reads only the
      names free in a template, and a JSON text is a template of itself.
    - Contracts: validation always answers and decides an inductive validity,
      assignability is
      sound for it, canonical sizes are those of the canonical text, and the
      values that cross the connector boundary are within their limits.
    - Graphs: validation accepts exactly the acyclic graphs whose states are all
      reached, and what it says is available at a state is what every run to it
      left there.
    - Processes: compilation does not panic; what it pins is what the catalogs
      give; a command runs in roles it allows and a request within the retention
      of its keys; the session variables are exactly those needed; and on any
      run the bindings of a state evaluate to the contract they are bound to, or
      stop at a limit that they declare.  The last is for strict types, with
      nothing nullable and no optional field in scope, and for bindings that cast
      no json value to a string: the findings say what becomes of the others.
    - Transitions: a transition that is applied happens once, with one log row,
      its event settled and the instance where the outcome says, and leaves what
      the instance goes on from: an event, a job or a timer that is due, and for
      a fan-out the turn of the next item that waits; the tables only move
      forward; the transaction refines a contract ([consumed]) with a case for
      every answer, in which a signal accepted or requested in time precedes the
      timeout, a transient error changes nothing but the retry of the event, at
      most eleven times, and any other ends the instance alone; and a consumed
      event leaves the head of the queue.
    - Servers: from empty tables on, every instance is on a run of its process
      with checked outputs in its journal, never returns to a state it left, and
      has bindings that evaluate; a start key starts one instance; a signal
      reaches the only instance that receives it, and the timeout leaves it be
      unless the signal is rescheduled to a later instant than the timer's.
    - Activities: whatever the workers do, a send that may be made at most once
      is authorized once, a lease is completed once, and the capacity of an
      operation is not exceeded; a failed attempt is tried again exactly when
      its policy allows it, after a delay within its bounds.
    - Where the code does not do what it means to, a theorem states what it
      does: [name_before_colon_is_rejected], [mixed_conditional_overflows_at_32_bits],
      [mixed_conditional_is_not_lowered], [nullable_list_input_panics],
      [large_index_panics], [year_ten_thousand_sorts_first],
      [wider_object_is_rejected_at_run_time],
      [refused_request_stops_the_source],
      [lost_activity_without_reservation_fails_every_claim],
      [deferred_signal_is_overtaken].

    ** Bounds and fuel

    The parser of rules recurses through [enter_nesting], at most
    [MAX_AST_DEPTH] deep, and each turn of a loop consumes a token, so depth
    [S MAX_AST_DEPTH] and [length source + 2] turns suffice
    ([parse_expression_total]); that of templates likewise ([parse_total]).  The
    two loops of the move to UTC turn at most twice, since an offset is below a
    day ([to_utc_spec]).  A worklist over JSON or types is bounded by the nodes
    it can hold; the resolution of references by the number of named objects
    ([normalize_contract_refines]); the topological loop by the states
    ([validate_graph_accepts]); normalising a decimal by its scale; printing a
    number by its binary logarithm.  All other recursion is structural.

    ** What is not modelled

    SHA-256, the JSON reader and writer, Unicode case mapping, the text of a
    uuid, the JSON that [serde] derives for a process, the hash of a connector
    contract and the catalogs of connectors are parameters.  [Debug] output,
    derived [Clone]s and the [Default] catalog are not separate definitions.
    A [Vec] or a text has no upper bound on its length other than where the code
    tests one.  The semantics of SQL is not modelled: the results on lowering
    are about its text and its types.

    Of the transitions, the connectors' registry, the planner of commands, the
    parsers of [chrono] and [uuid], the functions of PostgreSQL the statements
    call, [run_command] (the plan executed in a savepoint) and
    [gen_random_uuid] are parameters; a transaction sees one [now]; a [Weather]
    says which statements the database or the driver lets fail.
    [updated_at], the foreign key to definition versions and the overflow of
    the attempts column of events are left out, and so are the locks that only
    delay other transactions, the inbound webhooks and the loop of the
    transitions' consumer; what these do to instances and items is within
    [elsewhere], and what they do to jobs within [other_work].  Of the
    activities, the executor (the connectors), the division of [numeric] values
    ([numeric_quotient]) and the addition of [chrono] are parameters, and the
    provider's status and correlation identifiers, which the worker does not
    read, are no fields of a failure.

    The rest of the repository (the GraphQL schema and its planning, SQL
    generation, the connector catalog and runtimes, the server and its storage)
    is outside this library. *)
From Stdlib Require Export ZArith Lia String Ascii Sorted.
From stdpp Require Export base option strings numbers list list_relations.

#[global] Open Scope Z_scope.

(** ** Results: Rust's [Result<A, E>] *)

Inductive result (E A : Type) : Type :=
| Ok (a : A)
| Err (e : E).
Arguments Ok {E A} a.
Arguments Err {E A} e.

#[export] Instance result_ret E : MRet (result E) := fun A a => Ok a.
#[export] Instance result_bind E : MBind (result E) :=
  fun A B f m => match m with Ok a => f a | Err e => Err e end.
#[export] Instance result_fmap E : FMap (result E) :=
  fun A B f m => match m with Ok a => Ok (f a) | Err e => Err e end.

(** [Option::ok_or] and [Result::map_err]. *)
Definition ok_or {E A} (e : E) (o : option A) : result E A :=
  match o with Some a => Ok a | None => Err e end.

Definition map_err {E F A} (f : E -> F) (m : result E A) : result F A :=
  match m with Ok a => Ok a | Err e => Err (f e) end.

Definition is_ok {E A} (m : result E A) : bool :=
  match m with Ok _ => true | Err _ => false end.

(** [iter().map(f).collect::<Result<Vec<_>, _>>()]: left to right, stopping at
    the first error. *)
Definition map_result {E A B} (f : A -> result E B) : list A -> result E (list B) :=
  fix go l :=
    match l with
    | [] => Ok []
    | x :: l => match f x with
                | Ok y => match go l with Ok ys => Ok (y :: ys) | Err e => Err e end
                | Err e => Err e
                end
    end.

(** [collect::<Option<Vec<_>>>()]. *)
Definition map_option {A B} (f : A -> option B) : list A -> option (list B) :=
  fix go l :=
    match l with
    | [] => Some []
    | x :: l => match f x with
                | Some y => match go l with Some ys => Some (y :: ys) | None => None end
                | None => None
                end
    end.

(** A [for] loop whose body may fail, threading an accumulator. *)
Definition fold_result {E A S} (f : S -> A -> result E S) : S -> list A -> result E S :=
  fix go s l :=
    match l with
    | [] => Ok s
    | x :: l => match f s x with Ok s' => go s' l | Err e => Err e end
    end.

(** [try_for_each]. *)
Definition each_result {E A} (f : A -> result E unit) : list A -> result E unit :=
  fix go l :=
    match l with
    | [] => Ok tt
    | x :: l => match f x with Ok _ => go l | Err e => Err e end
    end.

(** ** Worklists

    [while let Some(x) = pending.pop() { .. }] over a vector used as a stack, the
    top first: the body may fail, update a state and push.  [None] is exhausted
    fuel. *)
Section PopLoop.
Context {S A E : Type}.
Variable body : S -> A -> result E (S * list A).

Fixpoint pop_loop (fuel : nat) (s : S) (pending : list A) : option (result E S) :=
  match fuel with
  | O => None
  | Datatypes.S fuel =>
      match pending with
      | [] => Some (Ok s)
      | x :: pending =>
          match body s x with
          | Ok (s, pushed) => pop_loop fuel s (rev_append pushed pending)
          | Err e => Some (Err e)
          end
      end
  end.
End PopLoop.

(** [Option::is_some]. *)
Definition is_some {A} (o : option A) : bool := match o with Some _ => true | None => false end.

(** ** Machine integers

    A Rust integer of a given width is a [Z] inside the width's interval; the
    [checked_*] operations return [None] outside it. *)

Definition i32_min : Z := -2147483648.
Definition i32_max : Z := 2147483647.
Definition i64_min : Z := -9223372036854775808.
Definition i64_max : Z := 9223372036854775807.
Definition i128_min : Z := -170141183460469231731687303715884105728.
Definition i128_max : Z := 170141183460469231731687303715884105727.
Definition u32_max : Z := 4294967295.
Definition usize_max : Z := 18446744073709551615.

Definition in_range (lo hi z : Z) : bool := (lo <=? z) && (z <=? hi).
Definition checked (lo hi z : Z) : option Z := if in_range lo hi z then Some z else None.

Definition in_i32 (z : Z) : bool := in_range i32_min i32_max z.
Definition in_i64 (z : Z) : bool := in_range i64_min i64_max z.
Definition in_i128 (z : Z) : bool := in_range i128_min i128_max z.
Definition in_u32 (z : Z) : bool := in_range 0 u32_max z.

(** ** Text

    A Rust [str] is its UTF-8 bytes, a Rocq [string]; a [char] is the byte
    sequence that encodes it.  [chars] splits a string before every byte that
    is not a UTF-8 continuation byte, which on valid UTF-8 (every Rust [str])
    is the character boundary, and never loses a byte. *)

Definition char := string.

Definition byte_val (a : ascii) : Z := Z.of_N (N_of_ascii a).

Definition is_continuation_byte (a : ascii) : bool :=
  (128 <=? byte_val a) && (byte_val a <? 192).

Fixpoint chars (s : string) : list char :=
  match s with
  | EmptyString => []
  | String a s' =>
      match s' with
      | String b _ =>
          if is_continuation_byte b then
            match chars s' with
            | c :: cs => String a c :: cs
            | [] => [String a EmptyString]
            end
          else String a EmptyString :: chars s'
      | EmptyString => [String a EmptyString]
      end
  end.

Fixpoint concat_chars (cs : list char) : string :=
  match cs with [] => EmptyString | c :: cs => c +:+ concat_chars cs end.

(** [[String]::join]. *)
Fixpoint join (sep : string) (l : list string) : string :=
  match l with
  | [] => ""
  | [x] => x
  | x :: l => x +:+ sep +:+ join sep l
  end.

Fixpoint bytes_forallb (f : ascii -> bool) (s : string) : bool :=
  match s with EmptyString => true | String a s => f a && bytes_forallb f s end.

Definition is_ascii_digit_byte (a : ascii) : bool :=
  (48 <=? byte_val a) && (byte_val a <=? 57).
Definition is_ascii_upper_byte (a : ascii) : bool :=
  (65 <=? byte_val a) && (byte_val a <=? 90).
Definition is_ascii_lower_byte (a : ascii) : bool :=
  (97 <=? byte_val a) && (byte_val a <=? 122).
Definition is_ascii_hexdigit_byte (a : ascii) : bool :=
  is_ascii_digit_byte a
  || ((65 <=? byte_val a) && (byte_val a <=? 70))
  || ((97 <=? byte_val a) && (byte_val a <=? 102)).
Definition is_ascii_byte (a : ascii) : bool := byte_val a <? 128.

Definition to_ascii_lowercase_byte (a : ascii) : ascii :=
  if is_ascii_upper_byte a then ascii_of_N (N_of_ascii a + 32) else a.

Fixpoint to_ascii_lowercase (s : string) : string :=
  match s with
  | EmptyString => EmptyString
  | String a s => String (to_ascii_lowercase_byte a) (to_ascii_lowercase s)
  end.

(** [str::from_utf8] succeeds: a Rust [str] is cut between two characters only,
    that is, not before a continuation byte. *)
Definition starts_char (s : string) : bool :=
  match s with EmptyString => true | String a _ => negb (is_continuation_byte a) end.

(** Every byte of a character after its first is a continuation byte, and an
    ASCII byte is a character of its own: what
    [from_utf8] checks, as far as the models rely on it. *)
Fixpoint utf8_shape (s : string) : bool :=
  match s with
  | EmptyString => true
  | String a s => (negb (is_ascii_byte a) || starts_char s) && utf8_shape s
  end.

(** [char] predicates used by the lexer: a predicate on a one-byte character. *)
Definition char_test (f : ascii -> bool) (c : char) : bool :=
  match c with String a EmptyString => f a | _ => false end.

(** [char::is_whitespace], the Unicode [White_Space] property, on the UTF-8
    encodings of its members. *)
Definition utf8 (l : list Z) : string :=
  fold_right (fun b s => String (ascii_of_N (Z.to_N b)) s) "" l.

Definition unicode_whitespace : list string :=
  map utf8
    ([[9]; [10]; [11]; [12]; [13]; [32]; [194; 133]; [194; 160]; [225; 154; 128];
      [226; 128; 168]; [226; 128; 169]; [226; 128; 175]; [226; 129; 159]; [227; 128; 128]]
     ++ map (fun b => [226; 128; b]) [128; 129; 130; 131; 132; 133; 134; 135; 136; 137; 138]).

Definition is_whitespace (c : char) : bool := existsb (String.eqb c) unicode_whitespace.

(** [str::trim]. *)
Fixpoint drop_whitespace (cs : list char) : list char :=
  match cs with
  | [] => []
  | c :: cs' => if is_whitespace c then drop_whitespace cs' else cs
  end.

Definition trim (s : string) : string :=
  concat_chars (rev (drop_whitespace (rev (drop_whitespace (chars s))))).

(** [char::from_u32]: no surrogate, at most [U+10FFFF]. *)
Definition char_from_u32 (code : Z) : option char :=
  if in_range 55296 57343 code || negb (in_range 0 1114111 code) then None
  else Some (utf8
    (if code <? 128 then [code]
     else if code <? 2048 then [192 + code / 64; 128 + code mod 64]
     else if code <? 65536 then [224 + code / 4096; 128 + code / 64 mod 64; 128 + code mod 64]
     else [240 + code / 262144; 128 + code / 4096 mod 64; 128 + code / 64 mod 64; 128 + code mod 64])).

(** [str::strip_prefix] for a one-byte pattern, and [str::split_once('.')]. *)
Definition strip_prefix_byte (a : ascii) (s : string) : option string :=
  match s with
  | String b s' => if Ascii.eqb a b then Some s' else None
  | EmptyString => None
  end.

Fixpoint split_once (sep : ascii) (s : string) : option (string * string) :=
  match s with
  | EmptyString => None
  | String a s' =>
      if Ascii.eqb a sep then Some (EmptyString, s')
      else match split_once sep s' with
           | Some (l, r) => Some (String a l, r)
           | None => None
           end
  end.

Fixpoint starts_with (p s : string) : bool :=
  match p, s with
  | EmptyString, _ => true
  | String a p, String b s => Ascii.eqb a b && starts_with p s
  | _, EmptyString => false
  end.

(** The bytes from a position on. *)
Fixpoint str_drop (n : nat) (s : string) : string :=
  match n, s with
  | O, _ => s
  | S n, String _ s => str_drop n s
  | S _, EmptyString => EmptyString
  end.

Fixpoint str_take (n : nat) (s : string) : string :=
  match n, s with
  | S n, String a s => String a (str_take n s)
  | _, _ => EmptyString
  end.

Definition ends_with (p s : string) : bool :=
  (String.length p <=? String.length s)%nat
  && String.eqb p (substring (String.length s - String.length p) (String.length p) s).

Fixpoint repeat_string (n : nat) (s : string) : string :=
  match n with O => "" | S n => s +:+ repeat_string n s end.

(** [{text:?}] of a text of printable ASCII. *)
Fixpoint debug_escape (s : string) : string :=
  match s with
  | EmptyString => EmptyString
  | String a s =>
      if Ascii.eqb a "034" || Ascii.eqb a "\" then String "\" (String a (debug_escape s))
      else String a (debug_escape s)
  end.
Definition debug_text (s : string) : string := String "034" (debug_escape s +:+ String "034" "").

(** ** Decimal integers: [parse::<iN>()], [to_string()] *)

Definition digit_val (a : ascii) : Z := byte_val a - 48.
Definition digit_byte (d : Z) : ascii := ascii_of_N (Z.to_N (d + 48)).

(** Value of a digit string read left to right after the value [acc]. *)
Fixpoint digits_value (acc : Z) (s : string) : Z :=
  match s with
  | EmptyString => acc
  | String a s => digits_value (acc * 10 + digit_val a) s
  end.

Definition parse_digits (s : string) : option Z :=
  if negb (String.eqb s "") && bytes_forallb is_ascii_digit_byte s
  then Some (digits_value 0 s) else None.

(** [str::parse] at a signed type: an optional sign, then at least one digit. *)
Definition parse_signed (lo hi : Z) (s : string) : option Z :=
  match s with
  | String "-" s' => z ← parse_digits s'; checked lo hi (- z)
  | String "+" s' => z ← parse_digits s'; checked lo hi z
  | _ => z ← parse_digits s; checked lo hi z
  end.

(** [str::parse] at an unsigned type: a leading [-] is not a digit. *)
Definition parse_unsigned (hi : Z) (s : string) : option Z :=
  match s with
  | String "+" s' => z ← parse_digits s'; checked 0 hi z
  | _ => z ← parse_digits s; checked 0 hi z
  end.

Definition parse_i32 := parse_signed i32_min i32_max.
Definition parse_i64 := parse_signed i64_min i64_max.
Definition parse_i128 := parse_signed i128_min i128_max.
Definition parse_u32 := parse_unsigned u32_max.
Definition parse_usize := parse_unsigned usize_max.

(** Decimal digits of a non-negative integer, most significant first. *)
Fixpoint show_digits (fuel : nat) (n : Z) (acc : string) : string :=
  match fuel with
  | O => acc
  | S fuel =>
      let acc := String (digit_byte (n mod 10)) acc in
      if n <? 10 then acc else show_digits fuel (n / 10) acc
  end.

Definition show_nat (n : Z) : string := show_digits (S (Z.to_nat (Z.log2 n))) n "".

Definition show_Z (z : Z) : string :=
  if z <? 0 then "-" +:+ show_nat (- z) else show_nat z.

(** [format!("{n:0w$}")] for a non-negative [n]. *)
Definition show_padded (w : nat) (n : Z) : string :=
  repeat_string (w - String.length (show_nat n)) "0" +:+ show_nat n.

(** ** Ordered maps: [BTreeMap<String, A>]

    The entries in ascending byte order of their keys, which is the order the
    map iterates in. *)

Definition btree (A : Type) := list (string * A).

Fixpoint bt_get {A} (m : btree A) (k : string) : option A :=
  match m with
  | [] => None
  | (k', v) :: m => if String.eqb k k' then Some v else bt_get m k
  end.

Definition bt_contains {A} (m : btree A) (k : string) : bool :=
  match bt_get m k with Some _ => true | None => false end.

Fixpoint bt_insert {A} (m : btree A) (k : string) (v : A) : btree A :=
  match m with
  | [] => [(k, v)]
  | (k', v') :: m' =>
      match String.compare k k' with
      | Lt => (k, v) :: m
      | Eq => (k, v) :: m'
      | Gt => (k', v') :: bt_insert m' k v
      end
  end.

(** [into_iter().collect::<BTreeMap<_, _>>()]. *)
Definition bt_collect {A} (l : list (string * A)) : btree A :=
  fold_left (fun m kv => bt_insert m kv.1 kv.2) l [].

Definition str_lt (a b : string) : Prop := String.compare a b = Lt.
Definition bt_wf {A} (m : btree A) : Prop := StronglySorted str_lt (map fst m).

(** [slice::sort_by] with the byte order of the keys: a stable sort. *)
Fixpoint insert_sorted {A} (kv : string * A) (l : list (string * A)) : list (string * A) :=
  match l with
  | [] => [kv]
  | kv' :: l' =>
      match String.compare kv.1 kv'.1 with
      | Gt => kv' :: insert_sorted kv l'
      | _ => kv :: l
      end
  end.

Definition sort_entries {A} (l : list (string * A)) : list (string * A) :=
  fold_right insert_sorted [] l.

(** ** Automation *)

Create HintDb donat discriminated.
Create Rewrite HintDb donat.

(** ** Results *)

Lemma bind_Ok {E A B} (m : result E A) (f : A -> result E B) (b : B) :
  (m ≫= f) = Ok b -> exists a, m = Ok a /\ f a = Ok b.
Proof. destruct m; [eauto | discriminate]. Qed.

Lemma map_err_Ok {E F A} (f : E -> F) (m : result E A) a : map_err f m = Ok a <-> m = Ok a.
Proof. destruct m; cbn; split; congruence. Qed.

Lemma bind_assoc {E A B C} (r : result E A) (f : A -> result E B) (g : B -> result E C) :
  (r ≫= f) ≫= g = r ≫= fun x => f x ≫= g.
Proof. by destruct r. Qed.

Lemma bind_ret {E A B} (x : A) (f : A -> result E B) : (Ok x ≫= f) = f x.
Proof. reflexivity. Qed.

Lemma bind_Err {E A B} (m : result E A) (f : A -> result E B) (e : E) :
  (m ≫= f) = Err e -> m = Err e \/ exists a, m = Ok a /\ f a = Err e.
Proof. destruct m; cbn; [eauto | intros [= ->]; auto]. Qed.

Lemma ok_or_Ok {E A} (e : E) (o : option A) a : ok_or e o = Ok a -> o = Some a.
Proof. destruct o; cbn; congruence. Qed.

Lemma ok_or_Err {E A} (e e' : E) (o : option A) : ok_or e o = Err e' -> o = None /\ e' = e.
Proof. destruct o; cbn; [discriminate|]. intros [= <-]; auto. Qed.

Lemma mret_Ok {E A} (a b : A) : mret a = (Ok b : result E A) -> b = a.
Proof. by intros [= ->]. Qed.

(** Split a successful monadic computation into its successful steps. *)
Ltac inv_ok :=
  repeat match goal with
  | H : Ok _ = Ok _ |- _ => injection H as H; subst
  | H : Err _ = Err _ |- _ => injection H as H; subst
  | H : Ok _ = Err _ |- _ => discriminate H
  | H : Err _ = Ok _ |- _ => discriminate H
  | H : Some _ = None |- _ => discriminate H
  | H : None = Some _ |- _ => discriminate H
  | H : Some _ = Some _ |- _ => injection H as H; subst
  | H : (_ ≫= _) = Ok _ |- _ => apply bind_Ok in H as (? & ? & H)
  | H : ok_or _ _ = Ok _ |- _ => apply ok_or_Ok in H
  | H : mret _ = Ok _ |- _ => apply mret_Ok in H; subst
  end.

(** Case analysis on the scrutinee of a match in a hypothesis. *)
Ltac case_in H :=
  match type of H with
  | context [ match ?x with _ => _ end ] => destruct x eqn:?
  end.

Lemma map_result_ext {E A B} (f g : A -> result E B) l :
  (forall x, In x l -> f x = g x) -> map_result f l = map_result g l.
Proof.
  induction l as [|x l IH]; intros H; [done|]. cbn. rewrite (H x) by by left. rewrite IH; [done|]. intros y Hy. apply H. by right.
Qed.

Lemma map_result_Ok {E A B} (f : A -> result E B) l l' :
  map_result f l = Ok l' <-> Forall2 (fun x y => f x = Ok y) l l'.
Proof.
  revert l'; induction l as [|x l IH]; intros l'; cbn.
  - split; [intros [= <-]; constructor | inversion 1; done].
  - destruct (f x) eqn:Hx; [|split; [done | inversion 1; congruence]].
    destruct (map_result f l) eqn:Hl.
    + split; [intros [= <-]; constructor; [done | by apply IH]|].
      inversion 1 as [|? y ? l2 Hy Hl2]; subst. apply IH in Hl2; congruence.
    + split; [done|]. inversion 1 as [|? y ? l2 Hy Hl2]; subst. apply IH in Hl2; congruence.
Qed.

Lemma map_result_Err {E A B} (f : A -> result E B) l e :
  map_result f l = Err e -> exists x, In x l /\ f x = Err e.
Proof.
  induction l as [|x l IH]; cbn; [done|].
  destruct (f x) eqn:Hx; [|intros [= <-]; eauto].
  destruct (map_result f l); [done|]. intros [= <-].
  destruct IH as (z & Hin & Hz); [done|]. eauto.
Qed.

Lemma map_option_Some {A B} (f : A -> option B) l l' :
  map_option f l = Some l' <-> Forall2 (fun x y => f x = Some y) l l'.
Proof.
  revert l'; induction l as [|x l IH]; intros l'; cbn.
  - split; [intros [= <-]; constructor | inversion 1; done].
  - destruct (f x) eqn:Hx; [|split; [done | inversion 1; congruence]].
    destruct (map_option f l) eqn:Hl.
    + split; [intros [= <-]; constructor; [done | by apply IH]|].
      inversion 1 as [|? y ? l2 Hy Hl2]; subst. apply IH in Hl2; congruence.
    + split; [done|]. inversion 1 as [|? y ? l2 Hy Hl2]; subst. apply IH in Hl2; congruence.
Qed.

Lemma each_result_Ok {E A} (f : A -> result E unit) l :
  each_result f l = Ok tt <-> Forall (fun x => f x = Ok tt) l.
Proof.
  induction l as [|x l IH]; cbn; [by split; [constructor|]|].
  destruct (f x) as [[]|] eqn:Hx.
  - rewrite IH. split; [by constructor | by inversion 1].
  - split; [done | inversion 1; congruence].
Qed.

(** ** Worklists *)

Lemma fold_result_inv {E A S} (P : S -> Prop) (f : S -> A -> result E S) l :
  (forall s a s', In a l -> P s -> f s a = Ok s' -> P s') ->
  forall s s', P s -> fold_result f s l = Ok s' -> P s'.
Proof.
  induction l as [|a l IH]; intros Hf s s' Hs; cbn; [by intros [= <-]|]. destruct (f s a) as [s1|] eqn:E1; [|done].
  apply IH; [intros; eapply Hf; [by right|done..]|]. by apply (Hf s a); [left|..].
Qed.

Lemma list_sum_cons n l : list_sum (n :: l) = (n + list_sum l)%nat.
Proof. done. Qed.

Lemma list_sum_rev_append {A} (f : A -> nat) l l' :
  list_sum (map f (rev_append l l')) = (list_sum (map f l) + list_sum (map f l'))%nat.
Proof.
  revert l'; induction l as [|x l IH]; intros l'; cbn [rev_append map]; [done|].
  rewrite IH, map_cons, !list_sum_cons. lia.
Qed.

Lemma Forall_rev_append {A} (P : A -> Prop) l l' :
  Forall P (rev_append l l') <-> Forall P l /\ Forall P l'.
Proof.
  revert l'; induction l as [|x l IH]; intros l'; cbn.
  - split; [auto using List.Forall_nil | tauto].
  - rewrite IH. split.
    + intros [H1 H2]. inversion H2; subst. split; [by constructor|done].
    + intros [H1 H2]. inversion H1; subst. split; [done|by constructor].
Qed.

Section PopLoopLemmas.
Context {S A E : Type}.
Variable body : S -> A -> result E (S * list A).

(** Fuel above a measure that every turn decreases is enough. *)
Lemma pop_loop_total (inv : S -> list A -> Prop) (m : S -> list A -> nat) fuel s pending :
  (forall s x rest s' l, inv s (x :: rest) -> body s x = Ok (s', l) ->
     inv s' (rev_append l rest) /\ (m s' (rev_append l rest) < m s (x :: rest))%nat) ->
  inv s pending -> (m s pending < fuel)%nat -> exists r, pop_loop body fuel s pending = Some r.
Proof.
  intros Hstep. revert s pending. induction fuel as [|fuel IH]; intros s pending Hi Hf; [lia|]. cbn [pop_loop].
  destruct pending as [|x rest]; [eauto|]. destruct (body s x) as [[s' l]|e] eqn:Es; [|eauto].
  destruct (Hstep _ _ _ _ _ Hi Es). apply IH; [done|lia].
Qed.

(** What holds of the state and the stack at the start holds at the end. *)
Lemma pop_loop_Ok (P : S -> list A -> Prop) fuel s pending s' :
  (forall s x rest s' l, P s (x :: rest) -> body s x = Ok (s', l) -> P s' (rev_append l rest)) ->
  P s pending -> pop_loop body fuel s pending = Some (Ok s') -> P s' [].
Proof.
  intros Hstep. revert s pending. induction fuel as [|fuel IH]; intros s pending Hp; cbn [pop_loop]; [done|].
  destruct pending as [|x rest]; [by intros [= <-]|]. destruct (body s x) as [[s1 l]|e] eqn:Es; [|done].
  apply IH. by eapply Hstep.
Qed.
End PopLoopLemmas.

Section CheckLoop.
Context {A E : Type}.
Variable step : A -> result E (list A).

(** A worklist without a state. *)
Definition check_loop (fuel : nat) (pending : list A) : option (result E unit) :=
  pop_loop (fun _ x => match step x with Ok l => Ok (tt, l) | Err e => Err e end) fuel tt pending.

(** Each turn replaces an element by smaller ones. *)
Lemma check_loop_total (good : A -> Prop) (size : A -> nat) fuel pending :
  (forall x l, good x -> step x = Ok l -> Forall good l /\ (list_sum (map size l) < size x)%nat) ->
  Forall good pending -> (list_sum (map size pending) < fuel)%nat ->
  exists r, check_loop fuel pending = Some r.
Proof.
  intros Hstep Hg Hf. eapply (pop_loop_total _ (fun _ => Forall good) (fun _ p => list_sum (map size p))); [|done..].
  intros s x rest s' l Hi. destruct (step x) as [l'|e] eqn:Es; [|done]. intros [= <- <-].
  apply List.Forall_cons_iff in Hi as [Hx Hr]. destruct (Hstep x l' Hx Es) as [Hl Hs]. split.
  - by apply Forall_rev_append.
  - rewrite list_sum_rev_append, map_cons, list_sum_cons. lia.
Qed.

(** The loop accepts exactly when [P] holds of everything on the stack, for a
    [P] that the step unfolds. *)
Lemma check_loop_Ok (good P : A -> Prop) fuel pending :
  (forall x l, good x -> step x = Ok l -> Forall good l) ->
  (forall x, good x -> P x <-> exists l, step x = Ok l /\ Forall P l) ->
  Forall good pending -> forall r, check_loop fuel pending = Some r ->
  r = Ok tt <-> Forall P pending.
Proof.
  intros Hgood HP. revert pending. unfold check_loop. induction fuel as [|fuel IH]; intros pending Hg r; cbn [pop_loop]; [done|].
  destruct pending as [|x rest]; [intros [= <-]; by split|]. apply List.Forall_cons_iff in Hg as [Hx Hr].
  rewrite List.Forall_cons_iff, (HP x Hx).
  destruct (step x) as [l|e] eqn:Es.
  - intros Hl. rewrite (IH (rev_append l rest)); [|by apply Forall_rev_append; eauto|done].
    rewrite Forall_rev_append. split.
    + intros [H1 H2]. split; [by exists l|done].
    + by intros [(l' & [= <-] & Hl') H2].
  - intros [= <-]. split; [done|]. intros [(l & [=] & _) _].
Qed.
End CheckLoop.

(** ** Bytes *)

Definition all_bytes : list ascii := map ascii_of_nat (seq 0 256).

Lemma all_bytes_in a : In a all_bytes.
Proof.
  apply in_map_iff. exists (nat_of_ascii a). split; [apply ascii_nat_embedding|].
  apply in_seq. pose proof (nat_ascii_bounded a). lia.
Qed.

(** A property of bytes is checked on all of them. *)
Lemma byte_check (f : ascii -> bool) : forallb f all_bytes = true -> forall a, f a = true.
Proof. rewrite forallb_forall. intros H a. apply H, all_bytes_in. Qed.

(** ** Integer ranges *)

Lemma in_range_spec lo hi z : in_range lo hi z = true <-> lo <= z <= hi.
Proof. unfold in_range. lia. Qed.

Lemma checked_Some lo hi z r : checked lo hi z = Some r <-> r = z /\ lo <= z <= hi.
Proof.
  unfold checked. destruct (in_range lo hi z) eqn:H.
  - apply in_range_spec in H. split; [intros [= <-]; auto | intros [-> _]; auto].
  - split; [done|]. intros [_ Hr]. apply in_range_spec in Hr. congruence.
Qed.

Lemma checked_None lo hi z : checked lo hi z = None <-> ~ (lo <= z <= hi).
Proof.
  unfold checked. rewrite <-in_range_spec. destruct (in_range lo hi z); split; congruence.
Qed.

(** ** Text *)

Lemma str_app_nil_r s : s +:+ "" = s.
Proof. induction s as [|a s IH]; [done|]. change (String a (s +:+ "") = String a s). by rewrite IH. Qed.

Lemma str_app_cons a s t : String a s +:+ t = String a (s +:+ t).
Proof. done. Qed.

Lemma str_app_nil_l s : "" +:+ s = s.
Proof. done. Qed.

Lemma str_app_assoc a b c : (a +:+ b) +:+ c = a +:+ b +:+ c.
Proof. induction a as [|x a IH]; [done|]. rewrite !str_app_cons. by rewrite IH. Qed.

Lemma str_length_app a b :
  String.length (a +:+ b) = (String.length a + String.length b)%nat.
Proof. induction a as [|x a IH]; [done|]. rewrite str_app_cons. cbn. by rewrite IH. Qed.

Lemma str_app_inv_head a b c : a +:+ b = a +:+ c -> b = c.
Proof. induction a as [|x a IH]; [done|]. rewrite !str_app_cons. intros [= H]. auto. Qed.

(** Two concatenations of equally long prefixes agree piecewise. *)
Lemma str_app_inj_length a b c d :
  String.length a = String.length b -> a +:+ c = b +:+ d -> a = b /\ c = d.
Proof.
  revert b; induction a as [|x a IH]; intros [|y b] Hl H; try done.
  rewrite !str_app_cons in H. injection H as -> H.
  destruct (IH b) as [-> ->]; auto.
Qed.

#[export] Hint Rewrite str_app_nil_l str_app_cons str_app_assoc str_length_app : donat.

Lemma starts_with_length p s : starts_with p s = true -> (String.length p <= String.length s)%nat.
Proof.
  revert s. induction p as [|a p IH]; intros [|b s]; cbn; try done; [lia|].
  intros [_ H%IH]%andb_true_iff. lia.
Qed.

Lemma drop_length k s : String.length (str_drop k s) = (String.length s - k)%nat.
Proof. revert s. induction k as [|k IH]; intros [|a s]; cbn; auto. Qed.

Lemma starts_with_app t r : starts_with t (t +:+ r) = true.
Proof.
  induction t as [|a t IH]; [by destruct r|]. rewrite str_app_cons. cbn. by rewrite Ascii.eqb_refl.
Qed.

Lemma drop_app t r : str_drop (String.length t) (t +:+ r) = r.
Proof. induction t as [|a t IH]; [by destruct r|]. by rewrite str_app_cons. Qed.

Lemma take_drop n s : str_take n s +:+ str_drop n s = s.
Proof. revert s. induction n as [|n IH]; intros [|a s]; try done. cbn [str_take str_drop]. by rewrite str_app_cons, IH. Qed.

Lemma take_app t r : str_take (String.length t) (t +:+ r) = t.
Proof. induction t as [|a t IH]; [by destruct r|]. rewrite str_app_cons. cbn. by rewrite IH. Qed.

Lemma drop_drop a b s : str_drop b (str_drop a s) = str_drop (a + b) s.
Proof. revert s. induction a as [|a IH]; intros [|c s]; cbn; auto. by destruct b. Qed.

Lemma concat_chars_app l l' : concat_chars (l ++ l') = concat_chars l +:+ concat_chars l'.
Proof. induction l as [|c l IH]; cbn; [done|]. by rewrite IH, str_app_assoc. Qed.

(** [chars] loses no byte and yields no empty character. *)
Lemma concat_chars_of s : concat_chars (chars s) = s.
Proof.
  induction s as [|a s IH]; [done|]. cbn. destruct s as [|b s]; [done|].
  destruct (is_continuation_byte b) eqn:Hb.
  - destruct (chars (String b s)) as [|c cs]; [cbn in IH; discriminate|].
    cbn in *. rewrite str_app_cons. by rewrite IH.
  - cbn [concat_chars]. rewrite IH. done.
Qed.

Lemma chars_nonempty s : Forall (fun c => c <> "") (chars s).
Proof.
  induction s as [|a s IH]; [constructor|]. cbn. destruct s as [|b s]; [by repeat constructor|].
  destruct (is_continuation_byte b).
  - destruct (chars (String b s)) as [|c cs]; [by repeat constructor|].
    inversion IH; subst. by constructor.
  - by constructor.
Qed.

Lemma length_concat_chars cs :
  Forall (fun c => c <> "") cs -> (List.length cs <= String.length (concat_chars cs))%nat.
Proof.
  induction 1 as [|c cs Hc _ IH]; cbn; [lia|]. rewrite str_length_app. destruct c; [done|]. cbn. lia.
Qed.

(** There are at most as many characters as bytes. *)
Lemma chars_length s : (List.length (chars s) <= String.length s)%nat.
Proof.
  pose proof (length_concat_chars (chars s) (chars_nonempty s)) as H. by rewrite concat_chars_of in H.
Qed.

Lemma bytes_forallb_app f a b :
  bytes_forallb f (a +:+ b) = bytes_forallb f a && bytes_forallb f b.
Proof.
  induction a as [|x a IH]; [done|]. rewrite str_app_cons. cbn. by rewrite IH, andb_assoc.
Qed.

Lemma byte_val_range a : 0 <= byte_val a < 256.
Proof. unfold byte_val. pose proof (N_ascii_bounded a). lia. Qed.

Lemma byte_val_inj a b : byte_val a = byte_val b -> a = b.
Proof.
  unfold byte_val. intros H. apply N2Z.inj in H.
  by rewrite <-(ascii_N_embedding a), <-(ascii_N_embedding b), H.
Qed.

(** ** Decimal integers *)

Lemma is_ascii_digit_byte_spec a : is_ascii_digit_byte a = true <-> 0 <= digit_val a <= 9.
Proof. unfold is_ascii_digit_byte, digit_val. lia. Qed.

Lemma byte_val_of z : 0 <= z < 256 -> byte_val (ascii_of_N (Z.to_N z)) = z.
Proof. intros. unfold byte_val. rewrite N_ascii_embedding; lia. Qed.

Lemma digit_val_byte d : 0 <= d <= 9 -> digit_val (digit_byte d) = d.
Proof. intros. unfold digit_val, digit_byte. rewrite byte_val_of; lia. Qed.

Lemma digits_value_app acc s t :
  digits_value acc (s +:+ t) = digits_value (digits_value acc s) t.
Proof. revert acc; induction s as [|a s IH]; intros acc; [done|]. rewrite str_app_cons. apply IH. Qed.

Lemma digits_value_acc acc s :
  digits_value acc s = acc * 10 ^ Z.of_nat (String.length s) + digits_value 0 s.
Proof.
  revert acc; induction s as [|a s IH]; intros acc; cbn [digits_value String.length].
  - rewrite Z.pow_0_r. lia.
  - rewrite IH, (IH (0 * 10 + _)), Nat2Z.inj_succ, Z.pow_succ_r by lia. ring.
Qed.

Lemma digits_value_bound s :
  bytes_forallb is_ascii_digit_byte s = true ->
  0 <= digits_value 0 s < 10 ^ Z.of_nat (String.length s).
Proof.
  induction s as [|a s IH]; cbn [bytes_forallb digits_value String.length]; [intros _; cbn; lia|].
  rewrite andb_true_iff, is_ascii_digit_byte_spec. intros [Ha Hs]. specialize (IH Hs).
  rewrite digits_value_acc, Nat2Z.inj_succ, Z.pow_succ_r by lia. nia.
Qed.

Lemma show_digits_acc fuel n acc : show_digits fuel n acc = show_digits fuel n "" +:+ acc.
Proof.
  revert n acc; induction fuel as [|fuel IH]; intros n acc; cbn; [done|].
  destruct (n <? 10); [done|]. rewrite IH, (IH _ (String _ "")), str_app_assoc. done.
Qed.

(** The properties of the digit string of [n]: digits only, value [n], and no
    leading zero. *)
Record digits_of (n : Z) (s : string) : Prop := {
  digits_of_all : bytes_forallb is_ascii_digit_byte s = true;
  digits_of_value : digits_value 0 s = n;
  digits_of_length : (0 < String.length s)%nat;
  digits_of_lead : 0 < n -> 10 ^ (Z.of_nat (String.length s) - 1) <= n;
}.

Lemma show_digits_spec fuel n :
  0 <= n < 2 ^ Z.of_nat fuel -> (0 < fuel)%nat -> digits_of n (show_digits fuel n "").
Proof.
  revert n; induction fuel as [|fuel IH]; intros n Hn Hf; [lia|]. cbn [show_digits].
  destruct (Z.ltb_spec n 10) as [Hlt|Hge].
  - assert (Hd : digit_val (digit_byte (n mod 10)) = n)
      by (rewrite digit_val_byte; rewrite ?Z.mod_small; lia).
    split; cbn [bytes_forallb digits_value String.length]; rewrite ?Hd; [|lia|lia|cbn; lia].
    rewrite andb_true_iff, is_ascii_digit_byte_spec. lia.
  - rewrite Nat2Z.inj_succ, Z.pow_succ_r in Hn by lia.
    pose proof (Z.mod_pos_bound n 10 ltac:(lia)). pose proof (Z.div_mod n 10 ltac:(lia)).
    assert (Hf' : (0 < fuel)%nat) by (destruct fuel; [cbn in Hn; lia|lia]).
    destruct (IH (n / 10)) as [H1 H2 H3 H4]; [split; [apply Z.div_pos; lia|]|done|].
    { apply Z.div_lt_upper_bound; lia. }
    rewrite show_digits_acc. split.
    + rewrite bytes_forallb_app, H1. cbn.
      rewrite andb_true_r, is_ascii_digit_byte_spec, digit_val_byte; lia.
    + rewrite digits_value_app, H2. cbn. rewrite digit_val_byte; lia.
    + rewrite str_length_app. cbn. lia.
    + intros _. rewrite str_length_app. cbn [String.length].
      specialize (H4 ltac:(nia)).
      replace (Z.of_nat _ - 1) with (Z.succ (Z.of_nat (String.length (show_digits fuel (n / 10) "")) - 1)) by lia.
      rewrite Z.pow_succ_r by lia. lia.
Qed.

Lemma show_nat_spec n : 0 <= n -> digits_of n (show_nat n).
Proof.
  intros Hn. unfold show_nat. apply show_digits_spec; [|lia]. split; [done|].
  rewrite Nat2Z.inj_succ, Z2Nat.id by apply Z.log2_nonneg.
  destruct (Z.eq_dec n 0) as [->|]; [cbn; lia|]. apply Z.log2_spec; lia.
Qed.

(** Zeros that pad a number. *)
Lemma repeat_zeros_value acc n : digits_value acc (repeat_string n "0") = acc * 10 ^ Z.of_nat n.
Proof.
  revert acc. induction n as [|n IH]; intros acc; cbn [repeat_string]; [cbn; lia|].
  rewrite digits_value_app, IH, Nat2Z.inj_succ, Z.pow_succ_r by lia.
  change (digits_value acc "0") with (acc * 10 + 0). ring.
Qed.

Lemma repeat_zeros_digits n : bytes_forallb is_ascii_digit_byte (repeat_string n "0") = true.
Proof. induction n as [|n IH]; [done|]. cbn [repeat_string]. by rewrite bytes_forallb_app, IH. Qed.

Lemma repeat_zeros_length n : String.length (repeat_string n "0") = n.
Proof. induction n as [|n IH]; [done|]. cbn [repeat_string]. by rewrite str_length_app, IH. Qed.

Lemma show_padded_digits w n : 0 <= n -> bytes_forallb is_ascii_digit_byte (show_padded w n) = true.
Proof.
  intros Hn. unfold show_padded. destruct (show_nat_spec n Hn) as [Hd _ _ _].
  by rewrite bytes_forallb_app, repeat_zeros_digits.
Qed.

Lemma show_padded_length w n : 0 <= n -> (w <= String.length (show_padded w n))%nat.
Proof. intros Hn. unfold show_padded. rewrite str_length_app, repeat_zeros_length. lia. Qed.

Lemma show_padded_value w n : 0 <= n -> digits_value 0 (show_padded w n) = n.
Proof.
  intros Hn. unfold show_padded. rewrite digits_value_app, repeat_zeros_value.
  by destruct (show_nat_spec n Hn).
Qed.

(** A number that fits is padded to exactly the width. *)
Lemma show_padded_exact w n :
  0 <= n < 10 ^ Z.of_nat w -> (0 < w)%nat -> String.length (show_padded w n) = w.
Proof.
  intros Hn Hw. unfold show_padded. destruct (show_nat_spec n ltac:(lia)) as [_ _ Hpos Hlead].
  enough (String.length (show_nat n) <= w)%nat by (rewrite str_length_app, repeat_zeros_length; lia).
  destruct (Z.eq_dec n 0) as [->|]; [cbn; lia|]. specialize (Hlead ltac:(lia)).
  destruct (le_gt_dec (String.length (show_nat n)) w) as [|Hgt]; [done|].
  pose proof (Z.pow_le_mono_r 10 (Z.of_nat w) (Z.of_nat (String.length (show_nat n)) - 1) ltac:(lia) ltac:(lia)). lia.
Qed.

Lemma parse_digits_of n s : digits_of n s -> parse_digits s = Some n.
Proof.
  intros [H1 H2 H3 _]. unfold parse_digits. rewrite H1, H2.
  destruct s; [cbn in H3; lia|done].
Qed.

Lemma parse_digits_Some s n :
  parse_digits s = Some n ->
  s <> "" /\ bytes_forallb is_ascii_digit_byte s = true /\ n = digits_value 0 s.
Proof.
  unfold parse_digits. destruct (String.eqb_spec s ""); [done|]. cbn.
  destruct (bytes_forallb _ s) eqn:H; [|done]. intros [= <-]. auto.
Qed.

Lemma digits_first s :
  bytes_forallb is_ascii_digit_byte s = true ->
  match s with String a _ => is_ascii_digit_byte a = true | "" => True end.
Proof. destruct s; cbn; [done|]. by rewrite andb_true_iff; intros []. Qed.

(** A digit string carries no sign: the sign cases of [parse] do not fire. *)
Lemma parse_signed_digits lo hi s n :
  parse_digits s = Some n -> parse_signed lo hi s = checked lo hi n.
Proof.
  intros H. pose proof H as (Hne & Hd%digits_first & _)%parse_digits_Some.
  destruct s as [|a s]; [done|]. unfold parse_signed. rewrite H.
  destruct a as [[] [] [] [] [] [] [] []]; try done; vm_compute in Hd; discriminate.
Qed.

Lemma parse_signed_neg_digits lo hi s n :
  parse_digits s = Some n -> parse_signed lo hi ("-" +:+ s) = checked lo hi (- n).
Proof. intros H. change ("-" +:+ s) with (String "-" s). cbn. by rewrite H. Qed.

Lemma parse_unsigned_digits hi s n :
  parse_digits s = Some n -> parse_unsigned hi s = checked 0 hi n.
Proof.
  intros H. pose proof H as (Hne & Hd%digits_first & _)%parse_digits_Some.
  destruct s as [|a s]; [done|]. unfold parse_unsigned. rewrite H.
  destruct a as [[] [] [] [] [] [] [] []]; try done; vm_compute in Hd; discriminate.
Qed.

Lemma parse_unsigned_range hi s i : parse_unsigned hi s = Some i -> 0 <= i <= hi.
Proof.
  unfold parse_unsigned. intros H.
  repeat case_match; apply bind_Some in H as (z & _ & [-> ?]%checked_Some); done.
Qed.

(** A number is below the power of ten of its length. *)
Lemma parse_unsigned_length hi s i :
  parse_unsigned hi s = Some i -> 0 <= i < 10 ^ Z.of_nat (String.length s).
Proof.
  assert (Hd : forall t z, parse_digits t = Some z -> 0 <= z < 10 ^ Z.of_nat (String.length t)).
  { intros t z (_ & Ht & ->)%parse_digits_Some. by apply digits_value_bound. }
  unfold parse_unsigned. intros H. destruct s as [|a s]; [done|].
  assert (Hm : 10 ^ Z.of_nat (String.length s) <= 10 ^ Z.of_nat (String.length (String a s)))
    by (apply Z.pow_le_mono_r; cbn [String.length]; lia).
  repeat case_match; apply bind_Some in H as (z & Hz%Hd & [-> ?]%checked_Some); lia.
Qed.

Lemma parse_signed_range lo hi s i : parse_signed lo hi s = Some i -> lo <= i <= hi.
Proof.
  unfold parse_signed. intros H.
  repeat case_match; apply bind_Some in H as (z & _ & [-> ?]%checked_Some); done.
Qed.

(** [parse] reads back what [to_string] printed, within the type's range. *)
Lemma parse_signed_show lo hi z : parse_signed lo hi (show_Z z) = checked lo hi z.
Proof.
  unfold show_Z. destruct (Z.ltb_spec z 0).
  - rewrite (parse_signed_neg_digits _ _ _ (- z)) by (apply parse_digits_of, show_nat_spec; lia).
    f_equal; lia.
  - apply parse_signed_digits, parse_digits_of, show_nat_spec; lia.
Qed.

Lemma show_nat_inj a b : 0 <= a -> 0 <= b -> show_nat a = show_nat b -> a = b.
Proof.
  intros Ha Hb H. destruct (show_nat_spec a Ha) as [_ <- _ _].
  destruct (show_nat_spec b Hb) as [_ <- _ _]. by rewrite H.
Qed.

Lemma digits_value_inj s : forall t,
  bytes_forallb is_ascii_digit_byte s = true -> bytes_forallb is_ascii_digit_byte t = true ->
  String.length s = String.length t -> digits_value 0 s = digits_value 0 t -> s = t.
Proof.
  induction s as [|a s IH]; intros [|b t] Hs Ht Hl Hv; try done. cbn [bytes_forallb digits_value String.length] in *.
  apply andb_true_iff in Hs as [Ha Hs], Ht as [Hb Ht]. injection Hl as Hl.
  rewrite (digits_value_acc _ s), (digits_value_acc _ t), Hl in Hv.
  pose proof (digits_value_bound s Hs) as Bs. pose proof (digits_value_bound t Ht) as Bt. rewrite Hl in Bs.
  set (p := 10 ^ Z.of_nat (String.length t)) in *.
  assert (Hab : digit_val a = digit_val b) by nia.
  f_equal; [|apply IH; [done|done|done|nia]].
  unfold digit_val in Hab. apply byte_val_inj. lia.
Qed.

(** The digits of a positive number without a leading zero are unique. *)
Lemma digits_of_unique n s t : 0 < n -> digits_of n s -> digits_of n t -> s = t.
Proof.
  intros Hn [Hs Vs Ls Ps] [Ht Vt Lt Pt]. specialize (Ps Hn). specialize (Pt Hn).
  pose proof (digits_value_bound s Hs) as Bs. pose proof (digits_value_bound t Ht) as Bt. rewrite Vs in Bs. rewrite Vt in Bt.
  apply digits_value_inj; [done|done| |congruence].
  assert (Z.of_nat (String.length s) - 1 < Z.of_nat (String.length t)) by (apply (Z.pow_lt_mono_r_iff 10); lia).
  assert (Z.of_nat (String.length t) - 1 < Z.of_nat (String.length s)) by (apply (Z.pow_lt_mono_r_iff 10); lia). lia.
Qed.

(** Digits that start with no zero are those of their value. *)
Lemma no_leading_zero a s :
  bytes_forallb is_ascii_digit_byte (String a s) = true -> a <> "0"%char ->
  0 < digits_value 0 (String a s) /\ digits_of (digits_value 0 (String a s)) (String a s).
Proof.
  intros Hd Ha. pose proof Hd as Hd'. cbn [bytes_forallb] in Hd'. apply andb_true_iff in Hd' as [Hda Hds].
  apply is_ascii_digit_byte_spec in Hda. assert (Hpos : 1 <= digit_val a).
  { unfold digit_val in *. assert (byte_val a <> 48) by (intros H; apply Ha; by apply byte_val_inj). lia. }
  pose proof (digits_value_bound s Hds) as Hb. assert (Hv : 10 ^ Z.of_nat (String.length s) <= digits_value 0 (String a s)).
  { cbn [digits_value]. rewrite digits_value_acc. nia. }
  pose proof (Z.pow_pos_nonneg 10 (Z.of_nat (String.length s)) ltac:(lia) ltac:(lia)).
  split; [lia|]. split; [done|done|cbn; lia|]. intros _. cbn [String.length].
  replace (Z.of_nat (S (String.length s)) - 1) with (Z.of_nat (String.length s)) by lia. done.
Qed.

Lemma show_Z_inj a b : show_Z a = show_Z b -> a = b.
Proof.
  intros H. set (lo := Z.min a b). set (hi := Z.max a b).
  pose proof (parse_signed_show lo hi a) as Ha. rewrite H, parse_signed_show in Ha.
  unfold checked in Ha. rewrite (proj2 (in_range_spec _ _ _)) in Ha by lia.
  rewrite (proj2 (in_range_spec _ _ _)) in Ha by lia. congruence.
Qed.

(** ** Ordered maps *)

Lemma str_compare_refl s : String.compare s s = Eq.
Proof. induction s as [|a s IH]; [done|]. cbn. unfold Ascii.compare. by rewrite N.compare_refl. Qed.

#[export] Instance str_lt_trans : Transitive str_lt.
Proof.
  unfold str_lt. intros a b c. revert b c.
  induction a as [|x a IH]; intros [|y b] [|z c]; cbn; try done.
  destruct (Ascii.compare x y) eqn:Hxy; destruct (Ascii.compare y z) eqn:Hyz; try done;
    unfold Ascii.compare in *;
    rewrite ?N.compare_eq_iff, ?N.compare_lt_iff in *.
  - rewrite Hxy, Hyz, N.compare_refl. apply IH.
  - intros _ _. by rewrite Hxy, (proj2 (N.compare_lt_iff _ _) Hyz).
  - intros _ _. by rewrite <-Hyz, (proj2 (N.compare_lt_iff _ _) Hxy).
  - intros _ _. by rewrite (proj2 (N.compare_lt_iff _ _) (N.lt_trans _ _ _ Hxy Hyz)).
Qed.

Lemma str_lt_irrefl s : ~ str_lt s s.
Proof. unfold str_lt. by rewrite str_compare_refl. Qed.

Lemma str_compare_antisym a b : String.compare b a = CompOpp (String.compare a b).
Proof. apply String.compare_antisym. Qed.

Section BTree.
Context {A : Type}.
Implicit Types m : btree A.

Lemma bt_get_In m k v : bt_get m k = Some v -> In (k, v) m.
Proof.
  induction m as [|[k' v'] m IH]; cbn; [done|].
  destruct (String.eqb_spec k k') as [->|]; [intros [= ->]; auto | auto].
Qed.

Lemma bt_get_None m k : bt_get m k = None <-> ~ In k (map fst m).
Proof.
  induction m as [|[k' v'] m IH]; cbn; [tauto|].
  destruct (String.eqb_spec k k') as [->|Hne].
  - split; [done | intros H; exfalso; auto].
  - rewrite IH. split; [intros H [->|Hin]; auto | auto].
Qed.

Lemma bt_get_is_Some m k : In k (map fst m) -> exists v, bt_get m k = Some v.
Proof.
  intros H. destruct (bt_get m k) eqn:E; [eauto|]. by apply bt_get_None in E.
Qed.

Lemma bt_In_get m k v : NoDup (map fst m) -> In (k, v) m -> bt_get m k = Some v.
Proof.
  induction m as [|[k' v'] m IH]; cbn; [done|].
  rewrite NoDup_cons, list_elem_of_In. intros [Hk Hnd] [[= -> ->]|Hin].
  - by rewrite String.eqb_refl.
  - destruct (String.eqb_spec k k') as [->|]; [|auto].
    exfalso. apply Hk. apply in_map_iff. by exists (k', v).
Qed.

Lemma bt_wf_NoDup m : bt_wf m -> NoDup (map fst m).
Proof.
  unfold bt_wf. induction 1 as [|k l Hs IH Hall]; constructor; [|done].
  rewrite list_elem_of_In. intros Hin. rewrite List.Forall_forall in Hall.
  by apply (str_lt_irrefl k), Hall.
Qed.

Lemma bt_insert_keys m k v x :
  In x (map fst (bt_insert m k v)) <-> x = k \/ In x (map fst m).
Proof.
  induction m as [|[k' v'] m IH]; cbn; [intuition (subst; auto)|].
  destruct (String.compare k k') eqn:E; cbn; [|intuition (subst; auto)|intuition (subst; auto)].
  apply String.compare_eq_iff in E as ->. intuition (subst; auto).
Qed.

Lemma bt_insert_wf m k v : bt_wf m -> bt_wf (bt_insert m k v).
Proof.
  unfold bt_wf. induction m as [|[k' v'] m IH]; cbn; intros H; [by repeat constructor|].
  inversion H as [|? ? Hs Hall]; subst.
  destruct (String.compare k k') eqn:E; cbn.
  - apply String.compare_eq_iff in E as ->. by constructor.
  - constructor; [done|]. constructor; [done|].
    eapply List.Forall_impl; [|done]. intros a Ha. by transitivity k'.
  - constructor; [auto|]. rewrite List.Forall_forall in Hall |- *. intros x Hx.
    apply bt_insert_keys in Hx as [->|Hx]; [|auto].
    unfold str_lt. by rewrite str_compare_antisym, E.
Qed.

Lemma bt_get_insert m k v k' :
  bt_wf m -> bt_get (bt_insert m k v) k' = if String.eqb k' k then Some v else bt_get m k'.
Proof.
  unfold bt_wf. induction m as [|[k0 v0] m IH]; cbn; intros H; [done|].
  inversion H as [|? ? Hs Hall]; subst.
  destruct (String.compare k k0) eqn:E; cbn.
  - apply String.compare_eq_iff in E as ->. by destruct (String.eqb_spec k' k0).
  - done.
  - rewrite IH by done. destruct (String.eqb_spec k' k0) as [->|]; [|done].
    destruct (String.eqb_spec k0 k) as [->|]; [|done].
    by rewrite str_compare_refl in E.
Qed.

(** Inserting in ascending order appends. *)
Lemma bt_insert_snoc m k v :
  (forall x, In x (map fst m) -> str_lt x k) -> bt_insert m k v = m ++ [(k, v)].
Proof.
  unfold str_lt. induction m as [|[k' v'] m IH]; cbn; intros Hk; [done|].
  rewrite str_compare_antisym, (Hk k') by auto. cbn. rewrite IH by auto. done.
Qed.

Lemma bt_collect_acc_wf (l : list (string * A)) m :
  bt_wf m -> bt_wf (fold_left (fun m kv => bt_insert m kv.1 kv.2) l m).
Proof. revert m; induction l as [|kv l IH]; cbn; auto using bt_insert_wf. Qed.

Lemma bt_collect_wf (l : list (string * A)) : bt_wf (bt_collect l).
Proof. apply bt_collect_acc_wf. constructor. Qed.

Lemma bt_collect_acc_keys (l : list (string * A)) m x :
  In x (map fst (fold_left (fun m kv => bt_insert m kv.1 kv.2) l m))
  <-> In x (map fst l) \/ In x (map fst m).
Proof.
  revert m; induction l as [|kv l IH]; intros m; cbn; [intuition (subst; auto)|].
  rewrite IH, bt_insert_keys. intuition (subst; auto).
Qed.

Lemma bt_collect_keys (l : list (string * A)) x :
  In x (map fst (bt_collect l)) <-> In x (map fst l).
Proof. unfold bt_collect. rewrite bt_collect_acc_keys. cbn. intuition (subst; auto). Qed.

Lemma bt_collect_acc_get (l : list (string * A)) m k :
  bt_wf m -> ~ In k (map fst l) ->
  bt_get (fold_left (fun m kv => bt_insert m kv.1 kv.2) l m) k = bt_get m k.
Proof.
  revert m; induction l as [|[k' v'] l IH]; intros m Hm Hk; [done|]. cbn in *.
  rewrite IH by auto using bt_insert_wf. rewrite bt_get_insert by done.
  destruct (String.eqb_spec k k') as [->|]; [tauto|done].
Qed.

Lemma bt_get_collect (l : list (string * A)) k v :
  NoDup (map fst l) -> In (k, v) l -> bt_get (bt_collect l) k = Some v.
Proof.
  unfold bt_collect. assert (Hm : bt_wf (@nil (string * A))) by constructor. revert Hm.
  generalize (@nil (string * A)). induction l as [|[k' v'] l IH]; [done|]. cbn.
  intros m Hm. rewrite NoDup_cons, list_elem_of_In. intros [Hk Hnd] [[= -> ->]|Hin].
  - rewrite bt_collect_acc_get by auto using bt_insert_wf.
    by rewrite bt_get_insert, String.eqb_refl.
  - by apply IH; [apply bt_insert_wf| |].
Qed.

Lemma bt_get_Forall (P : string * A -> Prop) m k v : Forall P m -> bt_get m k = Some v -> P (k, v).
Proof. rewrite List.Forall_forall. intros H ?%bt_get_In. auto. Qed.

Lemma bt_insert_Forall (P : string * A -> Prop) m k v : Forall P m -> P (k, v) -> Forall P (bt_insert m k v).
Proof.
  intros Hm Hv. induction Hm as [|[k' v'] m Hx Hm IH]; cbn; [by repeat constructor|].
  destruct (String.compare k k'); repeat constructor; done.
Qed.

Lemma bt_collect_Forall (P : string * A -> Prop) l : Forall P l -> Forall P (bt_collect l).
Proof.
  unfold bt_collect. assert (Hm : Forall P (@nil (string * A))) by constructor. revert Hm.
  generalize (@nil (string * A)). intros m Hm Hl. revert m Hm.
  induction Hl as [|[k v] l Hx _ IH]; intros m Hm; [done|]. by apply IH, bt_insert_Forall.
Qed.

(** Sorting the entries of an ordered map changes nothing. *)
Lemma sort_entries_wf m : bt_wf m -> sort_entries m = m.
Proof.
  unfold bt_wf. induction m as [|[k v] m IH]; intros H; [done|]. cbn.
  inversion H as [|? ? Hs Hall]; subst. fold (sort_entries m). rewrite IH by done.
  destruct m as [|[k' v'] m]; [done|]. cbn in *. inversion Hall as [|? ? Hlt]; subst.
  by rewrite Hlt.
Qed.

Lemma insert_sorted_perm kv (l : list (string * A)) : Permutation (insert_sorted kv l) (kv :: l).
Proof.
  induction l as [|kv' l IH]; cbn; [done|].
  destruct (String.compare kv.1 kv'.1); [done|done|]. rewrite IH. constructor.
Qed.

Lemma sort_entries_perm (l : list (string * A)) : Permutation (sort_entries l) l.
Proof.
  induction l as [|kv l IH]; cbn; [done|]. fold (sort_entries l).
  by rewrite insert_sorted_perm, IH.
Qed.
End BTree.

#[export] Hint Resolve bt_wf_NoDup bt_insert_wf bt_collect_wf : donat.

Lemma Forall2_In_r {A B} (P : A -> B -> Prop) l k y : Forall2 P l k -> In y k -> exists x, In x l /\ P x y.
Proof.
  induction 1 as [|a b l k Hab Hlk IH]; cbn; [done|]. intros [<-|Hy]; [eauto|]. destruct (IH Hy) as (x & ? & ?). eauto.
Qed.
