(* ===== verification/Json.v ===== *)
(** * JSON values and the third-party code the library calls

    [serde_json::Value] as the code uses it: a number is carried as the text
    its [Display] prints, the only view the code takes of it; an object keeps
    its insertion order.  [Serde] and [Digest] are the functions of [serde_json]
    and [sha2] that the code calls; every definition that needs them takes
    them as an argument. *)
From S2P Require Import Prelude.
Set Warnings "-register-all".

Inductive Value : Type :=
| JNull
| JBool (b : bool)
| JNumber (text : string)
| JString (s : string)
| JArray (items : list Value)
| JObject (fields : list (string * Value)).

(** [serde_json::to_vec], [serde_json::to_string], [serde_json::from_str]
    and [Value]'s [==], whose treatment of numbers and of member order is the
    library's. *)
Class Serde := {
  to_vec : Value -> option string;
  to_string : Value -> option string;
  from_str : string -> option Value;
  value_eqb : Value -> Value -> bool;
}.

(** [Sha256::digest]. *)
Class Digest := { sha256 : string -> string }.

Definition is_null (v : Value) : bool := match v with JNull => true | _ => false end.
Definition as_bool (v : Value) : option bool := match v with JBool b => Some b | _ => None end.
Definition as_str (v : Value) : option string := match v with JString s => Some s | _ => None end.
Definition as_number (v : Value) : option string := match v with JNumber n => Some n | _ => None end.
Definition as_array (v : Value) : option (list Value) :=
  match v with JArray l => Some l | _ => None end.
Definition as_object (v : Value) : option (list (string * Value)) :=
  match v with JObject o => Some o | _ => None end.

(** [Map::get]: the members of an object have distinct names. *)
Definition obj_get (o : list (string * Value)) (k : string) : option Value := bt_get o k.

(** [Map::insert] with the [preserve_order] feature: a known key keeps its
    place, a new one goes last. *)
Fixpoint obj_insert (o : list (string * Value)) (k : string) (v : Value) : list (string * Value) :=
  match o with
  | [] => [(k, v)]
  | (k', v') :: o => if String.eqb k k' then (k', v) :: o else (k', v') :: obj_insert o k v
  end.

(** [collect] into a [Map]: a repeated key keeps its place and its last value. *)
Definition obj_collect (members : list (string * Value)) : list (string * Value) :=
  fold_left (fun out kv => obj_insert out kv.1 kv.2) members [].

(** ** JSON string literals *)

Definition hex_lower (d : Z) : ascii :=
  if d <? 10 then ascii_of_N (Z.to_N (48 + d)) else ascii_of_N (Z.to_N (87 + d)).

Definition json_escape (a : ascii) : string :=
  if Ascii.eqb a "034" then String "\" (String "034" "")
  else if Ascii.eqb a "\" then "\\"
  else if Ascii.eqb a "008" then "\b"
  else if Ascii.eqb a "012" then "\f"
  else if Ascii.eqb a "010" then "\n"
  else if Ascii.eqb a "013" then "\r"
  else if Ascii.eqb a "009" then "\t"
  else if byte_val a <? 32 then
    "\u00" +:+ String (hex_lower (byte_val a / 16)) (String (hex_lower (byte_val a mod 16)) "")
  else String a "".

Fixpoint json_chars (s : string) : string :=
  match s with EmptyString => EmptyString | String a s => json_escape a +:+ json_chars s end.

Definition json_string (s : string) : string := String "034" (json_chars s +:+ String "034" "").

Section ValueInd.
Variable P : Value -> Prop.
Hypothesis Pnull : P JNull.
Hypothesis Pbool : forall b, P (JBool b).
Hypothesis Pnumber : forall n, P (JNumber n).
Hypothesis Pstring : forall s, P (JString s).
Hypothesis Parray : forall l, Forall P l -> P (JArray l).
Hypothesis Pobject : forall o, Forall (fun kv => P kv.2) o -> P (JObject o).

Fixpoint Value_ind' (v : Value) : P v :=
  match v with
  | JNull => Pnull
  | JBool b => Pbool b
  | JNumber n => Pnumber n
  | JString s => Pstring s
  | JArray l =>
      Parray l ((fix go l := match l return Forall P l with
                             | [] => @List.Forall_nil _ P
                             | v :: l => @List.Forall_cons _ P v l (Value_ind' v) (go l)
                             end) l)
  | JObject o =>
      Pobject o ((fix go o := match o return Forall (fun kv => P kv.2) o with
                              | [] => @List.Forall_nil _ _
                              | kv :: o => @List.Forall_cons _ _ kv o (Value_ind' kv.2) (go o)
                              end) o)
  end.
End ValueInd.

Definition list_eqb {A} (eqb : A -> A -> bool) : list A -> list A -> bool :=
  fix go l l' :=
    match l, l' with
    | [], [] => true
    | x :: l, y :: l' => eqb x y && go l l'
    | _, _ => false
    end.

(** A serialiser for witnesses: it writes [null], booleans and the empty array,
    reads [null] and digits, and compares members in order. *)
Fixpoint json_eqb (v w : Value) : bool :=
  match v, w with
  | JNull, JNull => true
  | JBool b, JBool c => Bool.eqb b c
  | JNumber m, JNumber n => String.eqb m n
  | JString s, JString t => String.eqb s t
  | JArray l, JArray l' => list_eqb json_eqb l l'
  | JObject o, JObject o' =>
      list_eqb (fun a b : string * Value => String.eqb a.1 b.1 && json_eqb a.2 b.2) o o'
  | _, _ => false
  end.

Definition small_serde : Serde := {|
  to_vec := fun v => match v with JNull => Some "null" | JBool true => Some "true"
              | JBool false => Some "false" | JArray [] => Some "[]" | _ => None end;
  to_string := fun v => match v with JNull => Some "null" | _ => None end;
  from_str := fun s => if String.eqb s "null" then Some JNull
                       else match parse_digits s with Some _ => Some (JNumber s) | None => None end;
  value_eqb := json_eqb;
|}.

Lemma obj_insert_new o k v : ~ In k (map fst o) -> obj_insert o k v = o ++ [(k, v)].
Proof.
  induction o as [|[k' v'] o IH]; [done|]. cbn. intros Hk. destruct (String.eqb_spec k k') as [->|]; [tauto|].
  rewrite IH; tauto.
Qed.

(** Members with distinct new keys are appended in their order. *)
Lemma obj_insert_all acc o :
  NoDup (map fst (acc ++ o)) -> fold_left (fun out kv => obj_insert out kv.1 kv.2) o acc = acc ++ o.
Proof.
  revert acc. induction o as [|[k v] o IH]; intros acc Hd; cbn [fold_left]; [by rewrite app_nil_r|].
  rewrite obj_insert_new.
  - rewrite IH; rewrite <-app_assoc; done.
  - rewrite map_app in Hd. apply NoDup_app in Hd as (_ & Hd & _). intros Hin.
    apply (Hd k); [by apply list_elem_of_In|]. cbn. left.
Qed.

Lemma list_eqb_spec {A} (eqb : A -> A -> bool) l :
  Forall (fun x => forall y, eqb x y = true <-> x = y) l ->
  forall l', list_eqb eqb l l' = true <-> l = l'.
Proof.
  induction 1 as [|x l Hx _ IH]; intros [|y l']; cbn; try (split; congruence).
  rewrite andb_true_iff, Hx, IH. split; [intros [-> ->]; done | by intros [= -> ->]].
Qed.

Lemma string_list_eqb_spec (l l' : list string) : list_eqb String.eqb l l' = true <-> l = l'.
Proof.
  apply list_eqb_spec, List.Forall_forall. intros x _ y. apply String.eqb_eq.
Qed.
