(* ===== verification/RulesSyntax.v ===== *)
(** * Expressions, types and errors of the rules crate

    [crates/rules/src/lib.rs] and [crates/rules/src/types.rs]: the closed
    expression grammar, the rule types, the declarations compiled from
    metadata, and the error type.  A [BTreeMap] is a [btree], its entries in key
    order. *)
From S2P Require Import Prelude Json.
Set Warnings "-register-all".

(** ** lib.rs *)

Definition PROFILE_VERSION : Z := 1.
Definition MAX_EXPRESSION_BYTES : nat := 4096.
Definition MAX_AST_DEPTH : nat := 64.
Definition MAX_LIST_ITEMS : nat := 256.

(** [MAGIC]: the text [DONAT-RULES-CANONICAL] and a zero byte. *)
Definition MAGIC : string := "DONAT-RULES-CANONICAL" +:+ String "000" "".

Record Span := Span_new { start : nat; end_ : nat }.

Inductive Literal : Type :=
| Literal_Null
| Literal_Bool (b : bool)
| Literal_Int (text : string)
| Literal_Decimal (text : string)
| Literal_String (s : string).

Inductive Function_ : Type := Size | IsNull | StartsWith | EndsWith.

Definition Function_parse (name : string) : option Function_ :=
  if String.eqb name "size" then Some Size
  else if String.eqb name "is_null" then Some IsNull
  else if String.eqb name "startsWith" then Some StartsWith
  else if String.eqb name "endsWith" then Some EndsWith
  else None.

Inductive UnaryOp : Type := Not | Negate.

Inductive BinaryOp : Type :=
| Or | And | Equal | NotEqual | LessThan | LessThanOrEqual | GreaterThan
| GreaterThanOrEqual | Add | Subtract | Multiply | Divide.

Inductive Expr : Type :=
| Expr_new (span : Span) (kind : ExprKind)
with ExprKind : Type :=
| ELiteral (l : Literal)
| EName (name : string)
| EEnumSymbol (enum_name symbol : string)
| EList (items : list Expr)
| EMember (target : Expr) (field : string)
| EIndex (target : Expr) (index : Z)
| ECall (function : Function_) (arguments : list Expr)
| EUnary (op : UnaryOp) (operand : Expr)
| EBinary (op : BinaryOp) (left right : Expr)
| EConditional (condition when_true when_false : Expr).

Definition espan (e : Expr) : Span := let (s, _) := e in s.
Definition ekind (e : Expr) : ExprKind := let (_, k) := e in k.

Record ParseError := ParseError_new { rule_name : string; offset : nat; expectation : string }.

(** ** types.rs *)

Inductive ExpressionOwner : Type :=
| Owner_Rule (name : string)
| Owner_DecisionCondition (table_name row_id input_name : string).

Record ExpressionContext := {
  metadata_path : string;
  expression_owner : ExpressionOwner;
}.

Definition parser_name (c : ExpressionContext) : string :=
  match expression_owner c with
  | Owner_Rule name => name
  | Owner_DecisionCondition table_name _ _ => table_name
  end.

Record RuleDiagnostic := {
  diag_context : ExpressionContext;
  diag_span : Span;
  diag_message : string;
}.

Inductive RuleType : Type :=
| TBool | TString | TInt | TInt64 | TDecimal | TUuid | TDate | TTimestamp
| TEnum (name : string) (symbols : list string)
| TList (item : RuleType)
| TObject (name : string) (fields : btree RuleType)
| TOpaqueJson (name : string) (maximum_bytes maximum_depth maximum_nodes : Z)
| TNullable (inner : RuleType).

(** [RuleType::nullable]: a nullable type is not wrapped twice. *)
Definition nullable (t : RuleType) : RuleType :=
  match t with TNullable _ => t | _ => TNullable t end.

Definition accepts_null (t : RuleType) : bool :=
  match t with TNullable _ => true | _ => false end.

Fixpoint display_name (t : RuleType) : string :=
  match t with
  | TBool => "bool"
  | TString => "string"
  | TInt => "int"
  | TInt64 => "bigint"
  | TDecimal => "decimal"
  | TUuid => "uuid"
  | TDate => "date"
  | TTimestamp => "timestamp"
  | TEnum name _ => "enum " +:+ name
  | TList inner => "list<" +:+ display_name inner +:+ ">"
  | TObject name _ => "object " +:+ name
  | TOpaqueJson name _ _ _ => "opaque JSON " +:+ name
  | TNullable inner => "nullable<" +:+ display_name inner +:+ ">"
  end.

Definition access_result_type (member_or_item : RuleType) : RuleType := nullable member_or_item.

Record RuleDefinition := {
  rd_name : string;
  rd_bindings : btree RuleType;
  rd_result : RuleType;
  rd_expression : string;
}.

Record RuleArtifact := {
  profile_version : Z;
  original_source : string;
  canonical_ast_sha256 : string;
  source_sha256 : string;
}.

Inductive CanonicalRoot : Type := TypedRuleAst | DecisionDefinition | DecodedTypedInput.

Inductive HitPolicy : Type := First | Unique | Unsupported (policy : string).

Definition HitPolicy_from_metadata (value : string) : HitPolicy :=
  if String.eqb value "first" then First
  else if String.eqb value "unique" then Unique
  else Unsupported value.

Record DecisionRow := {
  row_id : string;
  row_description : option string;
  row_when : btree string;
  row_output : Value;
}.

Record DecisionTestExpectation := { expect_output : Value; expect_matched_row_id : string }.

Record DecisionTableTestCase := {
  case_name : string;
  case_input : Value;
  case_expect : DecisionTestExpectation;
}.

Record DecisionTableDefinition := {
  dt_name : string;
  dt_revision : string;
  dt_inputs : btree RuleType;
  dt_output : btree RuleType;
  dt_hit_policy : HitPolicy;
  dt_rows : list DecisionRow;
  dt_test_cases : list DecisionTableTestCase;
}.

Inductive CheckedType : Type := Concrete (t : RuleType) | CheckedNull.

Record CheckedExpr := { expression : Expr; type_ : CheckedType }.

Record CompiledRule := {
  cr_name : string;
  cr_bindings : btree RuleType;
  cr_result : RuleType;
  cr_artifact : RuleArtifact;
  cr_expression : CheckedExpr;
  cr_declared_types : list RuleType;
}.

Inductive DecisionRejection : Type := NoMatch | MultipleMatches.

Record DecisionConditionTrace := { ct_row_id : string; ct_conditions : btree bool }.

Record DecisionTrace := {
  tr_table_name : string;
  tr_table_revision : string;
  tr_matched_row_id : option string;
  tr_rejection : option DecisionRejection;
  tr_condition_results : list DecisionConditionTrace;
  tr_input_digest : string;
}.

Record DecisionResult := {
  res_output : Value;
  res_matched_row_id : string;
  res_trace : DecisionTrace;
}.

Record DecisionOutputField := { of_name : string; of_type : RuleType }.

Record CompiledDecisionRow := {
  cdr_id : string;
  cdr_description : option string;
  cdr_conditions : btree CheckedExpr;
  cdr_output : Value;
}.

Record CompiledDecisionTestCase := {
  cdc_name : string;
  cdc_input : btree Value;
  cdc_output : btree Value;
  cdc_matched_row_id : string;
}.

Record CompiledDecisionTable := {
  cdt_name : string;
  cdt_revision : string;
  cdt_inputs : btree RuleType;
  cdt_output : btree RuleType;
  cdt_output_fields : btree DecisionOutputField;
  cdt_hit_policy : HitPolicy;
  cdt_rows : list CompiledDecisionRow;
  cdt_test_cases : list CompiledDecisionTestCase;
  cdt_declared_types : list RuleType;
}.

Record RuleCatalog := {
  cat_declared_types : btree RuleType;
  cat_rules : btree CompiledRule;
  cat_decision_tables : btree CompiledDecisionTable;
}.

Inductive RuleError : Type :=
| Diagnostic (diagnostic : RuleDiagnostic) (message : string) (source : RuleError)
| Parse (e : ParseError)
| DuplicateName (kind name : string)
| UndeclaredName (rule name : string)
| UnknownEnumType (rule enum_name : string)
| UnknownEnumSymbol (rule enum_name symbol : string)
| UnknownField (rule field : string)
| TypeMismatch (rule expected actual : string)
| NullableOperation (rule : string)
| InvalidLiteral (rule expected : string)
| InvalidRuleResult (rule expected actual : string)
| IncompatibleBranches (rule : string)
| MissingBinding (name : string)
| UnexpectedBinding (name : string)
| InvalidBinding (name expected : string)
| DivisionByZero (rule : string)
| UnsupportedHitPolicy (table policy : string)
| EmptyDecisionTable (table : string)
| InvalidDecisionColumn (table column : string)
| MissingDefaultRow (table : string)
| InvalidDecisionRow (table row_id : string)
| DecisionNoMatch (table : string) (trace : DecisionTrace)
| DecisionMultipleMatches (table : string) (row_ids : list string) (trace : DecisionTrace)
| DecisionTestCaseMismatch (table case_name : string)
| UnknownDecisionTable (table : string)
| UnknownRule (rule : string)
| InternalInvariant (rule : string).

Definition tick (s : string) : string := "`" +:+ s +:+ "`".

Definition ParseError_to_string (e : ParseError) : string :=
  "rule " +:+ tick (rule_name e) +:+ " at byte " +:+ show_nat (Z.of_nat (offset e))
  +:+ ": expected " +:+ expectation e.

(** The [#[error]] attributes of [RuleError]. *)
Definition RuleError_to_string (e : RuleError) : string :=
  match e with
  | Diagnostic _ message _ => message
  | Parse e => ParseError_to_string e
  | DuplicateName kind name => "duplicate " +:+ kind +:+ " name " +:+ tick name
  | UndeclaredName rule name => "rule " +:+ tick rule +:+ " uses undeclared binding " +:+ tick name
  | UnknownEnumType rule enum_name =>
      "rule " +:+ tick rule +:+ " references undeclared enum type " +:+ tick enum_name
  | UnknownEnumSymbol rule enum_name symbol =>
      "rule " +:+ tick rule +:+ " references unknown enum symbol "
      +:+ tick (enum_name +:+ "::" +:+ symbol)
  | UnknownField rule field =>
      "rule " +:+ tick rule +:+ " cannot access undeclared field " +:+ tick field
  | TypeMismatch rule expected actual =>
      "rule " +:+ tick rule +:+ " has incompatible types: expected " +:+ expected
      +:+ ", got " +:+ actual
  | NullableOperation rule => "rule " +:+ tick rule +:+ " applies an operation to a nullable value"
  | InvalidLiteral rule expected =>
      "rule " +:+ tick rule +:+ " uses an invalid literal for " +:+ expected
  | InvalidRuleResult rule expected actual =>
      "rule " +:+ tick rule +:+ " produces " +:+ actual +:+ ", not declared result " +:+ expected
  | IncompatibleBranches rule =>
      "rule " +:+ tick rule +:+ " has an incompatible conditional branch"
  | MissingBinding name => "binding " +:+ tick name +:+ " is required"
  | UnexpectedBinding name => "binding " +:+ tick name +:+ " is not declared"
  | InvalidBinding name expected =>
      "binding " +:+ tick name +:+ " is not valid for its declared type " +:+ expected
  | DivisionByZero rule => "evaluation of rule " +:+ tick rule +:+ " attempted division by zero"
  | UnsupportedHitPolicy table policy =>
      "decision table " +:+ tick table +:+ " has unsupported hit policy " +:+ tick policy
  | EmptyDecisionTable table => "decision table " +:+ tick table +:+ " has no rows"
  | InvalidDecisionColumn table column =>
      "decision table " +:+ tick table +:+ " has an invalid condition or output column "
      +:+ tick column
  | MissingDefaultRow table =>
      "decision table " +:+ tick table +:+ " is missing its final all-true default row"
  | InvalidDecisionRow table row_id =>
      "decision table " +:+ tick table +:+ " has an invalid row " +:+ tick row_id
  | DecisionNoMatch table _ => "decision table " +:+ tick table +:+ " had no matching row"
  | DecisionMultipleMatches table _ _ =>
      "decision table " +:+ tick table +:+ " had multiple matching rows"
  | DecisionTestCaseMismatch table case_name =>
      "decision table " +:+ tick table +:+ " test case " +:+ tick case_name +:+ " did not match"
  | UnknownDecisionTable table => "decision table " +:+ tick table +:+ " was not found"
  | UnknownRule rule => "rule " +:+ tick rule +:+ " was not found"
  | InternalInvariant rule =>
      "rule " +:+ tick rule +:+ " reached an invalid validated expression state"
  end.

Definition RuleError_diagnostic (e : RuleError) : option RuleDiagnostic :=
  match e with Diagnostic d _ _ => Some d | _ => None end.

(** [RuleError::with_diagnostic]: the innermost location is kept. *)
Definition with_diagnostic (e : RuleError) (context : ExpressionContext) (span : Span) : RuleError :=
  match RuleError_diagnostic e with
  | Some _ => e
  | None =>
      let message := RuleError_to_string e in
      Diagnostic {| diag_context := context; diag_span := span; diag_message := message |}
        message e
  end.

(** The pending values of a depth-first walk: the children of a value, the last
    one on top of the stack, each one level deeper. *)
Definition children (v : Value) : list Value :=
  match v with JArray items => items | JObject fields => map snd fields | _ => [] end.

(** One turn of the [while let Some(..) = pending.pop()] loop per unit of
    fuel; [None] when the fuel runs out. The depth [u32] saturates. *)
Fixpoint opaque_walk (fuel : nat) (maximum_depth maximum_nodes nodes : Z)
    (pending : list (Value * Z)) : option bool :=
  match fuel with
  | O => None
  | S fuel =>
      match pending with
      | [] => Some true
      | (value, depth) :: pending =>
          match checked 0 u32_max (nodes + 1) with
          | Some nodes =>
              if nodes <=? maximum_nodes then
                if maximum_depth <? depth then Some false
                else
                  opaque_walk fuel maximum_depth maximum_nodes nodes
                    (rev_append (map (fun v => (v, Z.min u32_max (depth + 1))) (children value))
                       pending)
              else Some false
          | None => Some false
          end
      end
  end.

Fixpoint value_nodes (v : Value) : nat :=
  match v with
  | JArray items => S (list_sum (map value_nodes items))
  | JObject fields => S (list_sum (map (fun kv => value_nodes kv.2) fields))
  | _ => 1
  end.

Definition opaque_json_within_bounds `{Serde} (value : Value)
    (maximum_bytes maximum_depth maximum_nodes : Z) : bool :=
  match to_vec value with
  | None => false
  | Some bytes =>
      if maximum_bytes <? Z.of_nat (String.length bytes) then false
      else
        match opaque_walk (S (value_nodes value)) maximum_depth maximum_nodes 0 [(value, 1)] with
        | Some b => b
        | None => false
        end
  end.

Fixpoint value_depth (v : Value) : Z :=
  match v with
  | JArray items => 1 + fold_right Z.max 0 (map value_depth items)
  | JObject fields => 1 + fold_right Z.max 0 (map (fun kv => value_depth kv.2) fields)
  | _ => 1
  end.

(** ** Equality of types: the derived [PartialEq] *)

Fixpoint ruletype_eqb (a b : RuleType) : bool :=
  match a, b with
  | TBool, TBool | TString, TString | TInt, TInt | TInt64, TInt64 | TDecimal, TDecimal
  | TUuid, TUuid | TDate, TDate | TTimestamp, TTimestamp => true
  | TEnum n s, TEnum n' s' => String.eqb n n' && list_eqb String.eqb s s'
  | TList t, TList t' => ruletype_eqb t t'
  | TObject n f, TObject n' f' =>
      String.eqb n n'
      && list_eqb (fun kt kt' => String.eqb kt.1 kt'.1 && ruletype_eqb kt.2 kt'.2) f f'
  | TOpaqueJson n b d m, TOpaqueJson n' b' d' m' =>
      String.eqb n n' && (b =? b') && (d =? d') && (m =? m')
  | TNullable t, TNullable t' => ruletype_eqb t t'
  | _, _ => false
  end.

Definition checked_type_eqb (a b : CheckedType) : bool :=
  match a, b with
  | Concrete t, Concrete t' => ruletype_eqb t t'
  | CheckedNull, CheckedNull => true
  | _, _ => false
  end.

(** ** Induction over the nested data *)

Section RuleTypeInd.
Variable P : RuleType -> Prop.
Hypothesis Pscalar : forall t,
  In t [TBool; TString; TInt; TInt64; TDecimal; TUuid; TDate; TTimestamp] -> P t.
Hypothesis Penum : forall n s, P (TEnum n s).
Hypothesis Plist : forall t, P t -> P (TList t).
Hypothesis Pobject : forall n f, Forall (fun kt => P kt.2) f -> P (TObject n f).
Hypothesis Popaque : forall n b d m, P (TOpaqueJson n b d m).
Hypothesis Pnullable : forall t, P t -> P (TNullable t).

Lemma RuleType_ind' : forall t, P t.
Proof.
  fix IH 1. intros [| | | | | | | | n s | t | n f | n b d m | t]; try (apply Pscalar; cbn; tauto).
  - apply Penum.
  - apply Plist, IH.
  - apply Pobject. induction f as [|[k t] f IHf]; constructor; [apply IH | apply IHf].
  - apply Popaque.
  - apply Pnullable, IH.
Qed.
End RuleTypeInd.

Section ExprInd.
Variable P : Expr -> Prop.
Hypothesis Plit : forall sp l, P (Expr_new sp (ELiteral l)).
Hypothesis Pname : forall sp n, P (Expr_new sp (EName n)).
Hypothesis Penum : forall sp n s, P (Expr_new sp (EEnumSymbol n s)).
Hypothesis Plist : forall sp l, Forall P l -> P (Expr_new sp (EList l)).
Hypothesis Pmember : forall sp t f, P t -> P (Expr_new sp (EMember t f)).
Hypothesis Pindex : forall sp t i, P t -> P (Expr_new sp (EIndex t i)).
Hypothesis Pcall : forall sp f l, Forall P l -> P (Expr_new sp (ECall f l)).
Hypothesis Punary : forall sp o e, P e -> P (Expr_new sp (EUnary o e)).
Hypothesis Pbinary : forall sp o l r, P l -> P r -> P (Expr_new sp (EBinary o l r)).
Hypothesis Pcond : forall sp c t f, P c -> P t -> P f -> P (Expr_new sp (EConditional c t f)).

Lemma Expr_ind' : forall e, P e.
Proof.
  fix IH 1. intros [sp [l | n | n s | l | t f | t i | f l | o e | o l r | c t f]].
  - apply Plit.
  - apply Pname.
  - apply Penum.
  - apply Plist. induction l as [|e l IHl]; constructor; [apply IH | apply IHl].
  - apply Pmember, IH.
  - apply Pindex, IH.
  - apply Pcall. induction l as [|e l IHl]; constructor; [apply IH | apply IHl].
  - apply Punary, IH.
  - apply Pbinary; apply IH.
  - apply Pcond; apply IH.
Qed.
End ExprInd.

(** ** Equality decides *)

Lemma ruletype_eqb_eq a : forall b, ruletype_eqb a b = true <-> a = b.
Proof.
  induction a as [t Ht|n s|t IH|n f IH|n b d m|t IH] using RuleType_ind'; intros b'.
  - cbn in Ht. repeat (destruct Ht as [<-|Ht]); [..|done];
      destruct b'; cbn; split; congruence.
  - destruct b'; cbn; try (split; congruence).
    rewrite andb_true_iff, String.eqb_eq, string_list_eqb_spec. split; [intros [-> ->]|intros [= -> ->]]; done.
  - destruct b'; cbn; try (split; congruence). rewrite IH. split; congruence.
  - destruct b' as [| | | | | | | | | |n' f'| |]; cbn; try (split; congruence).
    rewrite andb_true_iff, String.eqb_eq, list_eqb_spec; [split; [intros [-> ->]|intros [= -> ->]]; done|].
    eapply List.Forall_impl; [|exact IH]. intros [k t] Ht [k' t']. cbn in *.
    rewrite andb_true_iff, String.eqb_eq, Ht. split; [intros [-> ->]|intros [= -> ->]]; done.
  - destruct b'; cbn; try (split; congruence).
    rewrite !andb_true_iff, String.eqb_eq, !Z.eqb_eq. split; [intros [[[-> ->] ->] ->]|intros [= -> -> -> ->]]; done.
  - destruct b'; cbn; try (split; congruence). rewrite IH. split; congruence.
Qed.

Lemma ruletype_eqb_refl t : ruletype_eqb t t = true.
Proof. by apply ruletype_eqb_eq. Qed.

#[export] Instance RuleType_eq_dec : EqDecision RuleType.
Proof.
  intros a b. destruct (ruletype_eqb a b) eqn:E; [left; by apply ruletype_eqb_eq|].
  right. intros H. apply ruletype_eqb_eq in H. congruence.
Defined.

Lemma checked_type_eqb_eq a b : checked_type_eqb a b = true <-> a = b.
Proof.
  destruct a, b; cbn; rewrite ?ruletype_eqb_eq; split; congruence.
Qed.

#[export] Instance Literal_eq_dec : EqDecision Literal.
Proof. solve_decision. Defined.

#[export] Instance Function_eq_dec : EqDecision Function_.
Proof. solve_decision. Defined.

#[export] Instance UnaryOp_eq_dec : EqDecision UnaryOp.
Proof. solve_decision. Defined.

#[export] Instance BinaryOp_eq_dec : EqDecision BinaryOp.
Proof. solve_decision. Defined.

(** ** The bounded walk over an opaque JSON value *)

Definition pending_nodes (pending : list (Value * Z)) : Z :=
  Z.of_nat (list_sum (map (fun vd => value_nodes vd.1) pending)).

Lemma value_nodes_children v : value_nodes v = S (list_sum (map value_nodes (children v))).
Proof.
  destruct v as [| | | |l|o]; try done. cbn [value_nodes children]. by rewrite map_map.
Qed.

Lemma value_depth_children v :
  value_depth v = 1 + fold_right Z.max 0 (map value_depth (children v)).
Proof.
  destruct v as [| | | |l|o]; try done. cbn [value_depth children]. by rewrite map_map.
Qed.

Lemma value_depth_pos v : 1 <= value_depth v.
Proof.
  rewrite value_depth_children.
  enough (0 <= fold_right Z.max 0 (map value_depth (children v))) by lia.
  induction (children v); cbn -[Z.max]; lia.
Qed.

Lemma pending_nodes_cons v d p :
  pending_nodes ((v, d) :: p) = Z.of_nat (value_nodes v) + pending_nodes p.
Proof. unfold pending_nodes. rewrite map_cons, list_sum_cons. cbn [fst]. lia. Qed.

(** Popping a value and pushing its children removes exactly one node. *)
Lemma pending_nodes_step v d k p :
  pending_nodes ((v, d) :: p)
  = 1 + pending_nodes (rev_append (map (fun v => (v, k)) (children v)) p).
Proof.
  rewrite pending_nodes_cons. unfold pending_nodes. rewrite list_sum_rev_append, map_map.
  rewrite (map_ext _ value_nodes) by done. rewrite (value_nodes_children v). lia.
Qed.

Lemma opaque_walk_too_many fuel md mn nodes p :
  mn <= u32_max -> 0 <= nodes <= mn -> pending_nodes p < Z.of_nat fuel ->
  mn < nodes + pending_nodes p -> opaque_walk fuel md mn nodes p = Some false.
Proof.
  revert nodes p. induction fuel as [|fuel IH]; intros nodes p Hmn Hn Hf Hover; [unfold pending_nodes in *; lia|].
  destruct p as [|[v d] p]; cbn [opaque_walk]; [unfold pending_nodes in Hover; cbn in Hover; lia|].
  destruct (checked 0 u32_max (nodes + 1)) as [n'|] eqn:Hc; [|done].
  apply checked_Some in Hc as [-> Hc].
  destruct (Z.leb_spec (nodes + 1) mn); [|done]. destruct (md <? d); [done|].
  rewrite (pending_nodes_step v d (Z.min u32_max (d + 1))) in Hf, Hover.
  apply IH; lia.
Qed.

Definition within_depth (md : Z) (vd : Value * Z) : Prop := vd.2 + value_depth vd.1 - 1 <= md.

Lemma within_depth_step md v d :
  d <= md ->
  (Forall (within_depth md) (map (fun v => (v, d + 1)) (children v)) <-> within_depth md (v, d)).
Proof.
  intros Hd. unfold within_depth. cbn [fst snd]. rewrite value_depth_children, List.Forall_map.
  induction (children v) as [|c l IH]; cbn -[Z.max]; [split; [lia|constructor]|].
  split.
  - inversion 1 as [|? ? Hc Hl]; subst. apply IH in Hl. cbn in Hc. lia.
  - intros H. constructor; [cbn; lia|]. apply IH. lia.
Qed.

Lemma opaque_walk_fits fuel md mn nodes p :
  mn <= u32_max -> 0 <= nodes -> pending_nodes p < Z.of_nat fuel ->
  nodes + pending_nodes p <= mn -> Forall (fun vd => vd.2 <= nodes + 1) p ->
  exists b, opaque_walk fuel md mn nodes p = Some b /\ (b = true <-> Forall (within_depth md) p).
Proof.
  revert nodes p. induction fuel as [|fuel IH]; intros nodes p Hmn Hn Hf Hfit Hd; [unfold pending_nodes in *; lia|].
  destruct p as [|[v d] p]; cbn [opaque_walk].
  { exists true. split; [done|]. split; [constructor|done]. }
  inversion Hd as [|? ? Hd1 Hd2]; subst. cbn in Hd1.
  pose proof (pending_nodes_step v d (Z.min u32_max (d + 1)) p) as Hstep.
  set (p' := rev_append (map (fun v => (v, Z.min u32_max (d + 1))) (children v)) p) in *.
  assert (0 <= pending_nodes p') by (unfold pending_nodes; lia).
  rewrite Hstep in Hf, Hfit.
  unfold checked. rewrite (proj2 (in_range_spec _ _ _)) by lia.
  destruct (Z.leb_spec (nodes + 1) mn); [|lia].
  destruct (Z.ltb_spec md d).
  { exists false. split; [done|]. split; [done|]. intros Hw. inversion Hw as [|? ? Hw1]; subst.
    unfold within_depth in Hw1. cbn [fst snd] in Hw1. pose proof (value_depth_pos v). lia. }
  destruct (IH (nodes + 1) p') as (b & Hb & Hiff); [done|lia|lia|lia| |].
  { unfold p'. apply Forall_rev_append. split.
    - apply List.Forall_map, List.Forall_forall. cbn. lia.
    - eapply List.Forall_impl; [|exact Hd2]. cbn. lia. }
  exists b. split; [done|]. rewrite Hiff. unfold p'. rewrite Forall_rev_append, List.Forall_cons_iff.
  rewrite <-(within_depth_step md v d) by lia.
  destruct (children v) as [|c cs] eqn:Hcs; [done|].
  replace (Z.min u32_max (d + 1)) with (d + 1); [done|].
  assert (1 <= pending_nodes p'); [|lia].
  unfold p', pending_nodes. rewrite list_sum_rev_append, map_map, map_cons, list_sum_cons.
  cbn [fst]. rewrite (value_nodes_children c). lia.
Qed.

(** the iterative walk accepts exactly the values within the bounds. *)
Theorem opaque_json_within_bounds_spec `{Serde} v mb md mn :
  0 <= mn <= u32_max ->
  opaque_json_within_bounds v mb md mn = true
  <-> exists bytes, to_vec v = Some bytes /\ Z.of_nat (String.length bytes) <= mb
      /\ Z.of_nat (value_nodes v) <= mn /\ value_depth v <= md.
Proof.
  intros Hmn. unfold opaque_json_within_bounds.
  destruct (to_vec v) as [bytes|]; [|split; [done | by intros (? & [=] & _)]].
  destruct (Z.ltb_spec mb (Z.of_nat (String.length bytes))).
  { split; [done|]. intros (? & [= ->] & ? & _). lia. }
  assert (Hp : pending_nodes [(v, 1)] = Z.of_nat (value_nodes v))
    by (rewrite pending_nodes_cons; unfold pending_nodes; cbn; lia).
  destruct (Z.leb_spec (Z.of_nat (value_nodes v)) mn).
  - destruct (opaque_walk_fits (S (value_nodes v)) md mn 0 [(v, 1)]) as (b & -> & Hb);
      [lia..|by repeat constructor|].
    rewrite Hb, List.Forall_cons_iff. unfold within_depth. cbn [fst snd]. split.
    + intros [? _]. exists bytes. repeat split; try done; lia.
    + intros (? & [= <-] & ? & ? & ?). split; [lia|constructor].
  - rewrite opaque_walk_too_many by lia. split; [done|].
    intros (? & [= <-] & ? & ? & ?). lia.
Qed.

Lemma opaque_json_within_bounds_witness :
  @opaque_json_within_bounds small_serde (JArray []) 2 1 1 = true.
Proof.
  apply (@opaque_json_within_bounds_spec small_serde (JArray []) 2 1 1); [unfold u32_max; lia|].
  exists "[]". cbn. repeat split; lia.
Defined.
