(* ===== verification/RulesLexer.v ===== *)
(** * The lexer of rule expressions ([crates/rules/src/lexer.rs])

    The source text is its UTF-8 bytes.  The lexer keeps a byte cursor into it;
    [rest] is what [source[cursor..].chars()] would yield, so the source never
    has to be sliced again: [lexer_wf] states that the consumed bytes and
    [rest] make up the source. *)
From S2P Require Import Prelude Json RulesSyntax.

Inductive TokenKind : Type :=
| End
| Name (s : string)
| TString_ (s : string)
| Integer (s : string)
| Decimal_ (s : string)
| Null | True_ | False_
| LeftParen | RightParen | LeftBracket | RightBracket | Comma | Dot | Question | Colon
| Plus | Minus | Star | Slash | Bang | AndAnd | OrOr | EqualEqual | BangEqual
| Less | LessEqual | Greater | GreaterEqual.

Record Token := { kind : TokenKind; span : Span }.

Record Lexer := {
  source : string;
  lx_rule_name : string;
  cursor : nat;
  rest : list char;
}.

Definition Lexer_new (rule_name source : string) : Lexer :=
  {| source := source; lx_rule_name := rule_name; cursor := 0; rest := chars source |}.

Definition peek_char (lx : Lexer) : option char := head (rest lx).

(** [consume_char]: the cursor moves by the UTF-8 length of the character. *)
Definition consume_char (lx : Lexer) : option char * Lexer :=
  match rest lx with
  | [] => (None, lx)
  | c :: cs =>
      (Some c, {| source := source lx; lx_rule_name := lx_rule_name lx;
                  cursor := cursor lx + String.length c; rest := cs |})
  end.

Definition advance_char (lx : Lexer) : Lexer := snd (consume_char lx).

Definition error (lx : Lexer) (offset : nat) (expectation : string) : ParseError :=
  ParseError_new (lx_rule_name lx) offset expectation.

Definition is_name_start (c : char) : bool :=
  char_test (fun a => is_ascii_upper_byte a || is_ascii_lower_byte a) c || String.eqb c "_".

Definition is_name_continue (c : char) : bool :=
  char_test (fun a => is_ascii_upper_byte a || is_ascii_lower_byte a || is_ascii_digit_byte a) c
  || String.eqb c "_".

Definition is_digit_char (c : char) : bool := char_test is_ascii_digit_byte c.

(** [while self.peek_char().is_some_and(p) { self.consume_char(); }]: the
    consumed text and the lexer after it. *)
Fixpoint consume_while_rest (p : char -> bool) (cs : list char) : string * list char :=
  match cs with
  | [] => ("", [])
  | c :: cs' =>
      if p c then let (text, cs'') := consume_while_rest p cs' in (c +:+ text, cs'')
      else ("", cs)
  end.

Definition consume_while (p : char -> bool) (lx : Lexer) : string * Lexer :=
  let (text, cs) := consume_while_rest p (rest lx) in
  (text, {| source := source lx; lx_rule_name := lx_rule_name lx;
            cursor := cursor lx + String.length text; rest := cs |}).

Definition skip_whitespace (lx : Lexer) : Lexer := snd (consume_while is_whitespace lx).

Definition consume_if (lx : Lexer) (expected : char) : bool * Lexer :=
  match peek_char lx with
  | Some c => if String.eqb c expected then (true, advance_char lx) else (false, lx)
  | None => (false, lx)
  end.

Definition lex_name (lx : Lexer) : Token * Lexer :=
  match consume_char lx with
  | (first, lx1) =>
      let (text, lx2) := consume_while is_name_continue lx1 in
      let name := default "" first +:+ text in
      let kind :=
        if String.eqb name "null" then Null
        else if String.eqb name "true" then True_
        else if String.eqb name "false" then False_
        else Name name in
      ({| kind := kind; span := Span_new (cursor lx) (cursor lx2) |}, lx2)
  end.

Definition lex_number (lx : Lexer) : result ParseError (Token * Lexer) :=
  let start := cursor lx in
  let (whole, lx1) := consume_while is_digit_char lx in
  match peek_char lx1 with
  | Some "." =>
      let lx2 := advance_char lx1 in
      match peek_char lx2 with
      | Some c =>
          if is_digit_char c then
            let (fraction, lx3) := consume_while is_digit_char lx2 in
            Ok ({| kind := Decimal_ (whole +:+ "." +:+ fraction);
                   span := Span_new start (cursor lx3) |}, lx3)
          else Err (error lx2 (cursor lx2) "a base-10 decimal literal")
      | None => Err (error lx2 (cursor lx2) "a base-10 decimal literal")
      end
  | _ => Ok ({| kind := Integer whole; span := Span_new start (cursor lx1) |}, lx1)
  end.

Definition newline_char : char := String "010" "".
Definition return_char : char := String "013" "".
Definition tab_char : char := String "009" "".
Definition quote_char : char := String "034" "".
Definition apostrophe_char : char := "'".
Definition backslash_char : char := "\".

Definition decode_escape (escaped : char) : option char :=
  if String.eqb escaped backslash_char then Some backslash_char
  else if String.eqb escaped apostrophe_char then Some apostrophe_char
  else if String.eqb escaped quote_char then Some quote_char
  else if String.eqb escaped "n" then Some newline_char
  else if String.eqb escaped "r" then Some return_char
  else if String.eqb escaped "t" then Some tab_char
  else None.

(** The [loop] of [lex_string], on the remaining characters. *)
Fixpoint lex_string_loop (lx : Lexer) (quote : char) (value : string) (at_ : nat)
    (cs : list char) : result ParseError (string * nat * list char) :=
  match cs with
  | [] => Err (error lx (String.length (source lx)) "a closing string quote")
  | c :: cs =>
      if String.eqb c quote then Ok (value, (at_ + String.length c)%nat, cs)
      else if negb (String.eqb c backslash_char) then
        lex_string_loop lx quote (value +:+ c) (at_ + String.length c) cs
      else
        match cs with
        | [] => Err (error lx (String.length (source lx)) "a supported string escape")
        | escaped :: cs =>
            match decode_escape escaped with
            | Some decoded =>
                lex_string_loop lx quote (value +:+ decoded)
                  (at_ + String.length c + String.length escaped) cs
            | None => Err (error lx at_ "a supported string escape")
            end
        end
  end.

Definition lex_string (lx : Lexer) (quote : char) : result ParseError (Token * Lexer) :=
  let start := cursor lx in
  let lx1 := advance_char lx in
  '(value, at_, cs) ← lex_string_loop lx1 quote "" (cursor lx1) (rest lx1);
  let lx2 := {| source := source lx; lx_rule_name := lx_rule_name lx; cursor := at_; rest := cs |} in
  Ok ({| kind := TString_ value; span := Span_new start at_ |}, lx2).

Definition single (lx : Lexer) (k : TokenKind) : result ParseError (TokenKind * Lexer) :=
  Ok (k, advance_char lx).

(** An operator of one character, or of two when [expected] follows. *)
Definition one_or_two (lx : Lexer) (expected : char) (two : TokenKind)
    (one : TokenKind) : result ParseError (TokenKind * Lexer) :=
  let (found, lx2) := consume_if (advance_char lx) expected in
  Ok (if found then two else one, lx2).

(** An operator that must be doubled: [==], [&&], [||]. *)
Definition must_double (lx : Lexer) (expected : char) (two : TokenKind)
    (message : string) : result ParseError (TokenKind * Lexer) :=
  let (found, lx2) := consume_if (advance_char lx) expected in
  if found then Ok (two, lx2) else Err (error lx (cursor lx) message).

Definition lex_operator (lx : Lexer) (c : char) : result ParseError (TokenKind * Lexer) :=
  match c with
  | "(" => single lx LeftParen
  | ")" => single lx RightParen
  | "[" => single lx LeftBracket
  | "]" => single lx RightBracket
  | "," => single lx Comma
  | "." => single lx Dot
  | "?" => single lx Question
  | ":" => single lx Colon
  | "+" => single lx Plus
  | "-" => single lx Minus
  | "*" => single lx Star
  | "/" => single lx Slash
  | "!" => one_or_two lx "=" BangEqual Bang
  | "=" => must_double lx "=" EqualEqual "=="
  | "&" => must_double lx "&" AndAnd "&&"
  | "|" => must_double lx "|" OrOr "||"
  | "<" => one_or_two lx "=" LessEqual Less
  | ">" => one_or_two lx "=" GreaterEqual Greater
  | _ => Err (error lx (cursor lx) "a supported expression token")
  end.

(** [Lexer::next]. *)
Definition next (lx0 : Lexer) : result ParseError (Token * Lexer) :=
  let lx := skip_whitespace lx0 in
  let start := cursor lx in
  match peek_char lx with
  | None => Ok ({| kind := End; span := Span_new start start |}, lx)
  | Some c =>
      if is_name_start c then Ok (lex_name lx)
      else if is_digit_char c then lex_number lx
      else if String.eqb c apostrophe_char || String.eqb c quote_char then lex_string lx c
      else
        '(k, lx') ← lex_operator lx c;
        Ok ({| kind := k; span := Span_new start (cursor lx') |}, lx')
  end.

(** ** Well-formed lexers and what one step consumes *)

Definition lexer_wf (lx : Lexer) : Prop :=
  Forall (fun c => c <> "") (rest lx) /\
  exists consumed, source lx = consumed +:+ concat_chars (rest lx)
                   /\ cursor lx = String.length consumed.

(** [lx'] is [lx] after the characters [cs]. *)
Record advances (lx : Lexer) (cs : list char) (lx' : Lexer) : Prop := {
  adv_source : source lx' = source lx;
  adv_rule : lx_rule_name lx' = lx_rule_name lx;
  adv_rest : rest lx = cs ++ rest lx';
  adv_cursor : cursor lx' = (cursor lx + String.length (concat_chars cs))%nat;
}.

(** What a token's kind says about the text [s] it was read from. *)
Definition token_text (k : TokenKind) (s : string) : Prop :=
  match k with
  | End => s = ""
  | Name n => s = n /\ s <> ""
  | Integer n => s = n /\ s <> "" /\ bytes_forallb is_ascii_digit_byte s = true
  | Decimal_ n =>
      s = n /\ exists whole fraction, s = whole +:+ "." +:+ fraction
        /\ whole <> "" /\ fraction <> ""
        /\ bytes_forallb is_ascii_digit_byte whole = true
        /\ bytes_forallb is_ascii_digit_byte fraction = true
  | TString_ _ => s <> ""
  | Null => s = "null"
  | True_ => s = "true"
  | False_ => s = "false"
  | LeftParen => s = "(" | RightParen => s = ")" | LeftBracket => s = "[" | RightBracket => s = "]"
  | Comma => s = "," | Dot => s = "." | Question => s = "?" | Colon => s = ":"
  | Plus => s = "+" | Minus => s = "-" | Star => s = "*" | Slash => s = "/"
  | Bang => s = "!" | AndAnd => s = "&&" | OrOr => s = "||"
  | EqualEqual => s = "==" | BangEqual => s = "!="
  | Less => s = "<" | LessEqual => s = "<=" | Greater => s = ">" | GreaterEqual => s = ">="
  end.

(** The source spelling of a string value between quotes. *)
Definition escape_text (cs : list char) : list char :=
  flat_map (fun c => if (String.eqb c backslash_char || String.eqb c apostrophe_char
                         || String.eqb c quote_char)%bool
                     then [backslash_char; c] else [c]) cs.

Lemma advances_refl lx : advances lx [] lx.
Proof. split; cbn; auto. Qed.

Lemma advances_trans lx1 cs1 lx2 cs2 lx3 :
  advances lx1 cs1 lx2 -> advances lx2 cs2 lx3 -> advances lx1 (cs1 ++ cs2) lx3.
Proof.
  intros [S1 R1 T1 C1] [S2 R2 T2 C2]. split; [congruence..| |].
  - by rewrite T1, T2, app_assoc.
  - rewrite C2, C1, concat_chars_app, str_length_app. lia.
Qed.

Lemma advances_wf lx cs lx' : advances lx cs lx' -> lexer_wf lx -> lexer_wf lx'.
Proof.
  intros [S1 R1 T1 C1] [Hne (pre & Hs & Hc)]. split.
  - rewrite T1 in Hne. by apply Forall_app in Hne as [_ ?].
  - exists (pre +:+ concat_chars cs). rewrite S1, Hs, T1, concat_chars_app, str_app_assoc, str_length_app.
    split; [done|lia].
Qed.

Lemma Lexer_new_wf rule source : lexer_wf (Lexer_new rule source).
Proof. split; [apply chars_nonempty|]. exists "". cbn. by rewrite concat_chars_of. Qed.

Lemma advances_char lx c cs : rest lx = c :: cs -> advances lx [c] (advance_char lx).
Proof.
  intros H. unfold advance_char, consume_char. rewrite H. split; cbn; [done..|].
  by rewrite str_app_nil_r.
Qed.

Lemma peek_char_Some lx c : peek_char lx = Some c -> exists cs, rest lx = c :: cs.
Proof. unfold peek_char. destruct (rest lx); cbn; [done|]. intros [= ->]. eauto. Qed.

Lemma consume_while_rest_spec p cs text cs' :
  consume_while_rest p cs = (text, cs') ->
  exists l, cs = l ++ cs' /\ text = concat_chars l /\ Forall (fun c => p c = true) l
            /\ match cs' with c :: _ => p c = false | [] => True end.
Proof.
  revert text cs'; induction cs as [|c cs IH]; intros text cs'; cbn.
  - intros [= <- <-]. exists []. repeat split; constructor.
  - destruct (p c) eqn:Hp.
    + destruct (consume_while_rest p cs) as [text0 cs0]. intros [= <- <-].
      destruct (IH _ _ eq_refl) as (l & -> & -> & Hl & Hs). exists (c :: l). repeat split; auto.
    + intros [= <- <-]. exists []. repeat split; auto.
Qed.

Lemma consume_while_spec p lx text lx' :
  consume_while p lx = (text, lx') ->
  exists l, advances lx l lx' /\ text = concat_chars l /\ Forall (fun c => p c = true) l
            /\ match rest lx' with c :: _ => p c = false | [] => True end.
Proof.
  unfold consume_while. destruct (consume_while_rest p (rest lx)) as [t cs] eqn:H. intros [= <- <-].
  apply consume_while_rest_spec in H as (l & Hr & -> & Hl & Hs). exists l. repeat split; auto.
Qed.

Lemma consume_if_spec lx c found lx' :
  consume_if lx c = (found, lx') -> advances lx (if found then [c] else []) lx'.
Proof.
  unfold consume_if. destruct (peek_char lx) as [d|] eqn:Hp; [|intros [= <- <-]; apply advances_refl].
  destruct (String.eqb_spec d c) as [->|]; intros [= <- <-]; [|apply advances_refl].
  apply peek_char_Some in Hp as [cs Hcs]. by eapply advances_char.
Qed.

Lemma digits_of_chars l :
  Forall (fun c => is_digit_char c = true) l -> bytes_forallb is_ascii_digit_byte (concat_chars l) = true.
Proof.
  induction 1 as [|c l Hc _ IH]; [done|]. cbn. rewrite bytes_forallb_app, IH, andb_true_r.
  destruct c as [|a [|b c]]; try done. cbn in *. by rewrite Hc.
Qed.

Lemma concat_chars_cons_ne c l : c <> "" -> concat_chars (c :: l) <> "".
Proof. destruct c; [done|]. cbn. by rewrite str_app_cons. Qed.

Lemma lex_string_loop_spec lx quote value at_ cs value' at' cs' :
  lex_string_loop lx quote value at_ cs = Ok (value', at', cs') ->
  exists l, cs = l ++ cs' /\ at' = (at_ + String.length (concat_chars l))%nat.
Proof.
  remember (List.length cs) as n eqn:Hn. revert value at_ cs Hn.
  induction (Nat.lt_wf_0 n) as [n _ IH]. intros value at_ cs ->.
  destruct cs as [|c cs]; cbn; [done|].
  destruct (String.eqb c quote).
  { intros [= <- <- <-]. exists [c]. cbn. by rewrite str_app_nil_r. }
  destruct (negb (String.eqb c backslash_char)).
  { intros H. eapply (IH (List.length cs)) in H as (l & -> & ->); [|cbn; lia|done].
    exists (c :: l). cbn [concat_chars app]. rewrite str_length_app. split; [done|lia]. }
  destruct cs as [|e cs]; [done|]. destruct (decode_escape e); [|done].
  intros H. eapply (IH (List.length cs)) in H as (l & -> & ->); [|cbn; lia|done].
  exists (c :: e :: l). cbn [concat_chars app]. rewrite !str_length_app. split; [done|lia].
Qed.

Lemma lex_operator_spec lx c cs k lx' :
  rest lx = c :: cs -> lex_operator lx c = Ok (k, lx') ->
  exists l, advances lx (c :: l) lx' /\ token_text k (concat_chars (c :: l)).
Proof.
  intros Hr H. pose proof (advances_char _ _ _ Hr) as Ha.
  unfold lex_operator, single, one_or_two, must_double in H.
  repeat case_in H; try discriminate; injection H as <- <-;
    try (exists []; split; [done | reflexivity]);
    match goal with
    | E : consume_if _ _ = (_, _) |- _ => apply consume_if_spec in E
    end;
    subst; repeat case_match; eexists; split;
      try (eapply (advances_trans _ [_]); eassumption); reflexivity.
Qed.

(** What [next] read: whitespace, then the token's own text. *)
Record next_reads (lx0 : Lexer) (t : Token) (lx' : Lexer) (ws body : list char) : Prop := {
  nr_advances : advances lx0 (ws ++ body) lx';
  nr_ws : Forall (fun c => is_whitespace c = true) ws;
  nr_start : start (span t) = (cursor lx0 + String.length (concat_chars ws))%nat;
  nr_end : end_ (span t) = cursor lx';
  nr_text : token_text (kind t) (concat_chars body);
  nr_rest : kind t = End -> rest lx' = [];
}.

Lemma lex_name_spec lx c cs t lx' :
  rest lx = c :: cs -> c <> "" -> lex_name lx = (t, lx') ->
  exists l, advances lx (c :: l) lx' /\ span t = Span_new (cursor lx) (cursor lx')
    /\ token_text (kind t) (concat_chars (c :: l)) /\ kind t <> End.
Proof.
  intros Hr Hc. pose proof (advances_char _ _ _ Hr) as Ha.
  unfold lex_name, advance_char in *. destruct (consume_char lx) as [first lx1] eqn:Hcc.
  assert (first = Some c) as -> by (unfold consume_char in Hcc; rewrite Hr in Hcc; congruence).
  cbn [snd] in Ha. destruct (consume_while is_name_continue lx1) as [text lx2] eqn:Hw.
  apply consume_while_spec in Hw as (l & Hl & -> & _ & _). intros [= <- <-]. exists l.
  split; [exact (advances_trans _ [_] _ _ _ Ha Hl)|]. split; [done|]. cbn [kind default].
  change (c +:+ concat_chars l) with (concat_chars (c :: l)).
  destruct (String.eqb_spec (concat_chars (c :: l)) "null") as [->|]; [by split|].
  destruct (String.eqb_spec (concat_chars (c :: l)) "true") as [->|]; [by split|].
  destruct (String.eqb_spec (concat_chars (c :: l)) "false") as [->|]; [by split|].
  split; [|done]. cbn. split; [done|]. by apply concat_chars_cons_ne.
Qed.

Lemma lex_number_spec lx c cs t lx' :
  rest lx = c :: cs -> is_digit_char c = true -> lex_number lx = Ok (t, lx') ->
  exists l, advances lx (c :: l) lx' /\ span t = Span_new (cursor lx) (cursor lx')
    /\ token_text (kind t) (concat_chars (c :: l)) /\ kind t <> End.
Proof.
  intros Hr Hc. unfold lex_number.
  destruct (consume_while is_digit_char lx) as [whole lx1] eqn:Hw.
  apply consume_while_spec in Hw as (l1 & Ha1 & -> & Hd1 & Hstop).
  pose proof (adv_rest _ _ _ Ha1) as Hr1. rewrite Hr in Hr1.
  destruct l1 as [|c' l1]; [cbn in Hr1; rewrite <-Hr1 in Hstop; congruence|].
  injection Hr1 as <- Hcs. assert (Hcne : c <> "") by (intros ->; done).
  pose proof (concat_chars_cons_ne c l1 Hcne) as Hne. pose proof (digits_of_chars _ Hd1) as Hdig.
  assert (Hint : forall t lx', Ok ({| kind := Integer (concat_chars (c :: l1));
             span := Span_new (cursor lx) (cursor lx1) |}, lx1) = (Ok (t, lx') : result ParseError _) ->
    exists l, advances lx (c :: l) lx' /\ span t = Span_new (cursor lx) (cursor lx')
    /\ token_text (kind t) (concat_chars (c :: l)) /\ kind t <> End).
  { intros ? ? [= <- <-]. exists l1. split_and!; done. }
  destruct (peek_char lx1) as [d|] eqn:Hp; [|apply Hint].
  destruct (String.eqb_spec d ".") as [->|Hdot].
  2:{ destruct d as [|[[] [] [] [] [] [] [] []] [|]]; solve [apply Hint | congruence]. }
  apply peek_char_Some in Hp as [cs2 Hr2]. pose proof (advances_char _ _ _ Hr2) as Ha2.
  destruct (peek_char (advance_char lx1)) as [e|] eqn:Hp2; [|done].
  destruct (is_digit_char e) eqn:He; [|done].
  destruct (consume_while is_digit_char (advance_char lx1)) as [fraction lx3] eqn:Hw3.
  apply consume_while_spec in Hw3 as (l3 & Ha3 & -> & Hd3 & Hstop3). intros [= <- <-].
  apply peek_char_Some in Hp2 as [cs3 Hr3]. pose proof (adv_rest _ _ _ Ha3) as Hr3'.
  rewrite Hr3 in Hr3'. destruct l3 as [|e' l3]; [cbn in Hr3'; rewrite <-Hr3' in Hstop3; congruence|].
  injection Hr3' as <- _. exists (l1 ++ "." :: e :: l3).
  assert (Htext : concat_chars (c :: l1 ++ "." :: e :: l3)
                  = concat_chars (c :: l1) +:+ "." +:+ concat_chars (e :: l3))
    by (rewrite app_comm_cons, concat_chars_app; done).
  split; [exact (advances_trans _ (c :: l1) _ _ _ Ha1 (advances_trans _ ["."] _ _ _ Ha2 Ha3))|].
  split; [done|]. cbn [kind token_text]. rewrite Htext. split; [|done]. split; [done|].
  exists (concat_chars (c :: l1)), (concat_chars (e :: l3)). repeat split; try done.
  - apply concat_chars_cons_ne. by intros ->.
  - by apply digits_of_chars.
Qed.

Lemma lex_string_spec lx c cs t lx' :
  rest lx = c :: cs -> c <> "" -> lex_string lx c = Ok (t, lx') ->
  exists l, advances lx (c :: l) lx' /\ span t = Span_new (cursor lx) (cursor lx')
    /\ token_text (kind t) (concat_chars (c :: l)) /\ kind t <> End.
Proof.
  intros Hr Hc H. pose proof (advances_char _ _ _ Hr) as Ha. unfold lex_string in H.
  apply bind_Ok in H as ([[value at_] cs'] & Hl & [= <- <-]).
  apply lex_string_loop_spec in Hl as (l & Hrest & ->). exists l. repeat split.
  - by rewrite (adv_rest _ _ _ Ha), Hrest.
  - cbn [cursor]. rewrite (adv_cursor _ _ _ Ha). cbn [concat_chars].
    rewrite !str_length_app. cbn. lia.
  - by apply concat_chars_cons_ne.
  - done.
Qed.

Lemma next_spec lx0 t lx' :
  lexer_wf lx0 -> next lx0 = Ok (t, lx') -> exists ws body, next_reads lx0 t lx' ws body.
Proof.
  intros Hwf. unfold next, skip_whitespace.
  destruct (consume_while is_whitespace lx0) as [text lx] eqn:Hw. cbn [snd].
  apply consume_while_spec in Hw as (ws & Ha & -> & Hws & _).
  pose proof (advances_wf _ _ _ Ha Hwf) as [Hne _].
  assert (Htok : forall c cs l, rest lx = c :: cs -> advances lx (c :: l) lx' ->
    span t = Span_new (cursor lx) (cursor lx') ->
    token_text (kind t) (concat_chars (c :: l)) -> kind t <> End ->
    exists ws body, next_reads lx0 t lx' ws body).
  { intros c cs l Hr Hl Hs Ht Hk. exists ws, (c :: l). split; rewrite ?Hs; cbn; try done.
    - exact (advances_trans _ _ _ _ _ Ha Hl).
    - exact (adv_cursor _ _ _ Ha). }
  destruct (peek_char lx) as [c|] eqn:Hp.
  2:{ intros [= <- <-]. exists ws, []. unfold peek_char in Hp.
      split; cbn [kind span start end_]; rewrite ?app_nil_r; try done.
      - apply Ha.
      - by destruct (rest lx). }
  apply peek_char_Some in Hp as [cs Hr]. rewrite Hr in Hne. inversion Hne as [|? ? Hc _]; subst.
  destruct (is_name_start c).
  { intros [= H]. destruct (lex_name_spec _ _ _ _ _ Hr Hc H) as (l & ? & ? & ? & ?). eauto. }
  destruct (is_digit_char c) eqn:Hd.
  { intros H. destruct (lex_number_spec _ _ _ _ _ Hr Hd H) as (l & ? & ? & ? & ?). eauto. }
  destruct (String.eqb c apostrophe_char || String.eqb c quote_char)%bool.
  { intros H. destruct (lex_string_spec _ _ _ _ _ Hr Hc H) as (l & ? & ? & ? & ?). eauto. }
  intros H. apply bind_Ok in H as ([k lx2] & Hop & [= <- <-]).
  destruct (lex_operator_spec _ _ _ _ _ Hr Hop) as (l & Hl & Ht).
  eapply Htok; eauto. cbn. intros ->. by apply (concat_chars_cons_ne c l Hc).
Qed.

Lemma substring_app_mid a b c :
  substring (String.length a) (String.length b) (a +:+ b +:+ c) = b.
Proof.
  induction a as [|x a IH]; [|rewrite str_app_cons; exact IH].
  cbn [String.length]. rewrite str_app_nil_l. induction b as [|y b IHb]; [by destruct c|].
  rewrite str_app_cons. cbn [substring String.length]. by rewrite IHb.
Qed.

(** A successful step keeps the lexer well formed, and moves past at least one
    character unless it reports the end. *)
Lemma next_progress lx0 t lx' :
  lexer_wf lx0 -> next lx0 = Ok (t, lx') ->
  lexer_wf lx' /\ lx_rule_name lx' = lx_rule_name lx0 /\ source lx' = source lx0
  /\ (List.length (rest lx') <= List.length (rest lx0))%nat
  /\ (kind t <> End -> (List.length (rest lx') < List.length (rest lx0))%nat)
  /\ (kind t = End -> rest lx' = []).
Proof.
  intros Hwf H. destruct (next_spec _ _ _ Hwf H) as (ws & body & [Ha _ _ _ Ht Hr]).
  split; [exact (advances_wf _ _ _ Ha Hwf)|]. destruct Ha as [Hs Hn Hrest _].
  repeat split; try done; rewrite Hrest, !length_app; [lia|].
  intros Hk. destruct body; [|cbn; lia]. cbn in Ht. exfalso.
  destruct (kind t); cbn in Ht; try done;
    repeat match goal with H : _ /\ _ |- _ => destruct H | H : exists _, _ |- _ => destruct H end; try done.
  match goal with H : "" = ?w +:+ _ |- _ => destruct w end; done.
Qed.

(** spans. *)
Theorem next_token_is_source_slice lx0 t lx' :
  lexer_wf lx0 -> next lx0 = Ok (t, lx') ->
  (cursor lx0 <= start (span t) <= end_ (span t))%nat
  /\ end_ (span t) = cursor lx'
  /\ (end_ (span t) <= String.length (source lx0))%nat
  /\ token_text (kind t)
       (substring (start (span t)) (end_ (span t) - start (span t)) (source lx0)).
Proof.
  intros Hwf H. destruct (next_spec _ _ _ Hwf H) as (ws & body & [Ha _ Hst He Ht _]).
  destruct Hwf as [_ (pre & Hs & Hc)]. destruct Ha as [_ _ Hrest Hcur].
  rewrite He, Hcur, Hst, concat_chars_app, str_length_app.
  assert (Hsrc : source lx0 = (pre +:+ concat_chars ws) +:+ concat_chars body +:+ concat_chars (rest lx'))
    by (by rewrite Hs, Hrest, !concat_chars_app, !str_app_assoc).
  split; [lia|]. split; [done|]. split.
  - rewrite Hsrc, !str_length_app. lia.
  - replace (cursor lx0 + (String.length (concat_chars ws) + String.length (concat_chars body))
             - (cursor lx0 + String.length (concat_chars ws)))%nat
      with (String.length (concat_chars body)) by lia.
    rewrite Hc, Hsrc. rewrite <-str_length_app, substring_app_mid. done.
Qed.

Lemma next_token_is_source_slice_witness :
  lexer_wf (Lexer_new "r" " total >= 10")
  /\ (cursor (Lexer_new "r" " total >= 10") <= 1 <= 6)%nat.
Proof.
  split; [apply Lexer_new_wf|].
  pose proof (next_token_is_source_slice (Lexer_new "r" " total >= 10")
    {| kind := Name "total"; span := Span_new 1 6 |} _ (Lexer_new_wf _ _) eq_refl) as (H & _).
  exact H.
Defined.

Lemma decode_escape_special c :
  (String.eqb c backslash_char || String.eqb c apostrophe_char || String.eqb c quote_char)%bool = true ->
  decode_escape c = Some c.
Proof.
  unfold decode_escape. destruct (String.eqb_spec c backslash_char) as [->|]; [done|].
  destruct (String.eqb_spec c apostrophe_char) as [->|]; [done|].
  destruct (String.eqb_spec c quote_char) as [->|]; done.
Qed.

Lemma lex_string_loop_escape lx quote cs value at_ more :
  quote = apostrophe_char \/ quote = quote_char ->
  exists at', lex_string_loop lx quote value at_ (escape_text cs ++ quote :: more)
              = Ok (value +:+ concat_chars cs, at', more).
Proof.
  intros Hq. revert value at_. induction cs as [|c cs IH]; intros value at_; cbn [escape_text flat_map].
  - cbn. rewrite String.eqb_refl, str_app_nil_r. eauto.
  - fold (escape_text cs).
    destruct (_ || _)%bool eqn:Hsp; cbn [app lex_string_loop concat_chars].
    + assert (String.eqb backslash_char quote = false) as -> by (by destruct Hq as [-> | ->]).
      cbn [negb String.eqb]. rewrite String.eqb_refl. cbn [negb].
      rewrite (decode_escape_special _ Hsp).
      destruct (IH (value +:+ c) (at_ + String.length backslash_char + String.length c)%nat) as [at' ->].
      rewrite str_app_assoc. eauto.
    + rewrite !orb_false_iff in Hsp. destruct Hsp as [[Hb Ha] Hd].
      assert (String.eqb c quote = false) as -> by (by destruct Hq as [-> | ->]).
      rewrite Hb. cbn [negb].
      destruct (IH (value +:+ c) (at_ + String.length c)%nat) as [at' ->].
      rewrite str_app_assoc. eauto.
Qed.

(** string literals round trip. *)
Theorem next_reads_escaped_string lx quote s more :
  quote = apostrophe_char \/ quote = quote_char ->
  rest lx = quote :: escape_text (chars s) ++ quote :: more ->
  exists lx', next lx = Ok ({| kind := TString_ s; span := Span_new (cursor lx) (cursor lx') |}, lx')
              /\ rest lx' = more.
Proof.
  intros Hq Hr.
  assert (Hskip : skip_whitespace lx = lx).
  { unfold skip_whitespace, consume_while. rewrite Hr. cbn [consume_while_rest].
    assert (is_whitespace quote = false) as -> by (by destruct Hq as [-> | ->]).
    destruct lx; cbn in *. by rewrite Nat.add_0_r, Hr. }
  unfold next. rewrite Hskip. unfold peek_char. rewrite Hr. cbn [head hd_error].
  assert (is_name_start quote = false) as -> by (by destruct Hq as [-> | ->]).
  assert (is_digit_char quote = false) as -> by (by destruct Hq as [-> | ->]).
  assert ((String.eqb quote apostrophe_char || String.eqb quote quote_char)%bool = true) as ->
    by (by destruct Hq as [-> | ->]).
  unfold lex_string, advance_char, consume_char. rewrite Hr. cbn [snd rest cursor].
  match goal with |- context [lex_string_loop ?l ?q ?v ?a (_ ++ _)] =>
    destruct (lex_string_loop_escape l q (chars s) v a more Hq) as [at' ->] end.
  rewrite str_app_nil_l, concat_chars_of.
  exists {| source := source lx; lx_rule_name := lx_rule_name lx; cursor := at'; rest := more |}.
  done.
Qed.

Lemma next_reads_escaped_string_witness :
  exists lx', next (Lexer_new "r" "'it\'s'")
              = Ok ({| kind := TString_ "it's"; span := Span_new 0 (cursor lx') |}, lx')
              /\ rest lx' = [].
Proof.
  apply (next_reads_escaped_string (Lexer_new "r" "'it\'s'") apostrophe_char "it's" []);
    [by left | reflexivity].
Defined.
