(* ===== verification/RulesParser.v ===== *)
(** * The parser of rule expressions ([crates/rules/src/parser.rs])

    Recursive descent over the lexer's tokens.  A parser function is a state
    and error computation [PM]; [None] is an exhausted bound of the model, not
    an outcome of the code.  There are two bounds: [d] bounds the recursion
    (every recursive entry passes through [enter_nesting]) and [n] bounds the
    turns of a loop (every turn consumes a token).  [parse_expression_total]
    shows that the bounds chosen by [parse_expression] are never exhausted. *)
From S2P Require Import Prelude Json RulesSyntax RulesLexer.
Set Warnings "-register-all".

Record Parser := {
  p_rule_name : string;
  lexer : Lexer;
  current : Token;
  syntactic_nesting : nat;
}.

Definition PM (A : Type) := Parser -> option (result ParseError (A * Parser)).

Definition pret {A} (a : A) : PM A := fun p => Some (Ok (a, p)).
Definition perr {A} (e : ParseError) : PM A := fun p => Some (Err e).
Definition exhausted {A} : PM A := fun p => None.
Definition pbind {A B} (m : PM A) (f : A -> PM B) : PM B :=
  fun p =>
    match m p with
    | Some (Ok (a, p')) => f a p'
    | Some (Err e) => Some (Err e)
    | None => None
    end.

Declare Scope parser_scope.
Delimit Scope parser_scope with parser.
Notation "x <-- m ;; k" := (pbind m (fun x => k))
  (at level 100, m at next level, right associativity) : parser_scope.
Notation "m ;;; k" := (pbind m (fun _ => k))
  (at level 100, right associativity) : parser_scope.
Open Scope parser_scope.

(** Reading the parser's fields. *)
Definition current_kind : PM TokenKind := fun p => Some (Ok (kind (current p), p)).
Definition current_token : PM Token := fun p => Some (Ok (current p, p)).

Definition error_at_current {A} (expectation : string) : PM A :=
  fun p => Some (Err (ParseError_new (p_rule_name p) (start (span (current p))) expectation)).

Definition error_at {A} (offset : nat) (expectation : string) : PM A :=
  fun p => Some (Err (ParseError_new (p_rule_name p) offset expectation)).

Definition advance : PM unit :=
  fun p =>
    match next (lexer p) with
    | Ok (t, lx) =>
        Some (Ok (tt, {| p_rule_name := p_rule_name p; lexer := lx; current := t;
                         syntactic_nesting := syntactic_nesting p |}))
    | Err e => Some (Err e)
    end.

Definition depth_message : string := "an expression nesting depth of at most 64".

Definition enter_nesting (offset : nat) : PM unit :=
  fun p =>
    if (MAX_AST_DEPTH <=? syntactic_nesting p)%nat then
      Some (Err (ParseError_new (p_rule_name p) offset depth_message))
    else
      Some (Ok (tt, {| p_rule_name := p_rule_name p; lexer := lexer p; current := current p;
                       syntactic_nesting := S (syntactic_nesting p) |})).

Definition exit_nesting : PM unit :=
  fun p => Some (Ok (tt, {| p_rule_name := p_rule_name p; lexer := lexer p; current := current p;
                            syntactic_nesting := pred (syntactic_nesting p) |})).

Definition is_colon (k : TokenKind) : bool := match k with Colon => true | _ => false end.
Definition is_left_paren (k : TokenKind) : bool := match k with LeftParen => true | _ => false end.
Definition is_right_paren (k : TokenKind) : bool := match k with RightParen => true | _ => false end.
Definition is_left_bracket (k : TokenKind) : bool := match k with LeftBracket => true | _ => false end.
Definition is_right_bracket (k : TokenKind) : bool := match k with RightBracket => true | _ => false end.
Definition is_comma (k : TokenKind) : bool := match k with Comma => true | _ => false end.
Definition is_question (k : TokenKind) : bool := match k with Question => true | _ => false end.
Definition is_end (k : TokenKind) : bool := match k with End => true | _ => false end.

Definition expect (test : TokenKind -> bool) (message : string) : PM Span :=
  t <-- current_token;;
  if test (kind t) then advance;;; pret (span t) else error_at_current message.

Definition expect_colon : PM Span := expect is_colon ":".
Definition expect_right_paren : PM Span := expect is_right_paren "a closing )".
Definition expect_right_bracket : PM Span := expect is_right_bracket "a closing ]".

Definition or_op (k : TokenKind) : option BinaryOp :=
  match k with OrOr => Some Or | _ => None end.
Definition and_op (k : TokenKind) : option BinaryOp :=
  match k with AndAnd => Some And | _ => None end.
Definition equality_op (k : TokenKind) : option BinaryOp :=
  match k with EqualEqual => Some Equal | BangEqual => Some NotEqual | _ => None end.
Definition comparison_op (k : TokenKind) : option BinaryOp :=
  match k with
  | Less => Some LessThan
  | LessEqual => Some LessThanOrEqual
  | Greater => Some GreaterThan
  | GreaterEqual => Some GreaterThanOrEqual
  | _ => None
  end.
Definition additive_op (k : TokenKind) : option BinaryOp :=
  match k with Plus => Some Add | Minus => Some Subtract | _ => None end.
Definition multiplicative_op (k : TokenKind) : option BinaryOp :=
  match k with Star => Some Multiply | Slash => Some Divide | _ => None end.

(** The [while let Some(op) = operator(&self.current.kind)] loop. *)
Fixpoint left_associative_loop (n : nat) (operand : PM Expr)
    (operator : TokenKind -> option BinaryOp) (left : Expr) : PM Expr :=
  match n with
  | O => exhausted
  | S n =>
      k <-- current_kind;;
      match operator k with
      | None => pret left
      | Some op =>
          advance;;;
          right <-- operand;;
          left_associative_loop n operand operator
            (Expr_new (Span_new (start (espan left)) (end_ (espan right))) (EBinary op left right))
      end
  end.

Definition parse_left_associative (n : nat) (operand : PM Expr)
    (operator : TokenKind -> option BinaryOp) : PM Expr :=
  left <-- operand;; left_associative_loop n operand operator left.

Section Levels.
(** The loop bound, and the two recursive entries at a smaller depth bound. *)
Variable n : nat.
Variable parse_conditional_rec : PM Expr.
Variable parse_unary_rec : PM Expr.

Definition parse_nested_expression (offset : nat) : PM Expr :=
  enter_nesting offset;;;
  e <-- parse_conditional_rec;;
  exit_nesting;;;
  pret e.

Fixpoint call_arguments_loop (n : nat) (arguments : list Expr) : PM (list Expr) :=
  match n with
  | O => exhausted
  | S n =>
      e <-- parse_conditional_rec;;
      let arguments := arguments ++ [e] in
      k <-- current_kind;;
      if negb (is_comma k) then pret arguments
      else
        advance;;;
        k <-- current_kind;;
        if is_right_paren k then error_at_current "an expression after the comma"
        else call_arguments_loop n arguments
  end.

Definition parse_call_arguments : PM (list Expr) :=
  k <-- current_kind;;
  if is_right_paren k then pret [] else call_arguments_loop n [].

Definition list_message : string := "a list literal with at most 256 items".

Fixpoint list_items_loop (n : nat) (items : list Expr) : PM (list Expr) :=
  match n with
  | O => exhausted
  | S n =>
      item <-- parse_conditional_rec;;
      if (List.length items =? MAX_LIST_ITEMS)%nat then
        error_at (start (espan item)) list_message
      else
        let items := items ++ [item] in
        k <-- current_kind;;
        if negb (is_comma k) then pret items
        else
          advance;;;
          k <-- current_kind;;
          if is_right_bracket k then error_at_current "an expression after the comma"
          else list_items_loop n items
  end.

Definition parse_list_contents (start : nat) : PM Expr :=
  t <-- current_token;;
  if is_right_bracket (kind t) then
    advance;;; pret (Expr_new (Span_new start (end_ (span t))) (EList []))
  else
    items <-- list_items_loop n [];;
    s <-- expect_right_bracket;;
    pret (Expr_new (Span_new start (end_ s)) (EList items)).

Definition parse_list : PM Expr :=
  t <-- current_token;;
  let start := start (span t) in
  enter_nesting start;;;
  advance;;;
  e <-- parse_list_contents start;;
  exit_nesting;;;
  pret e.

Definition parse_enum_symbol (name_span : Span) (enum_name : string) : PM Expr :=
  advance;;;
  k <-- current_kind;;
  if negb (is_colon k) then error_at_current "a second ':' in an enum symbol"
  else
    advance;;;
    t <-- current_token;;
    match kind t with
    | Name symbol =>
        advance;;;
        pret (Expr_new (Span_new (start name_span) (end_ (span t))) (EEnumSymbol enum_name symbol))
    | _ => error_at_current "an enum symbol name"
    end.

Definition parse_call (name_span : Span) (function : Function_) : PM Expr :=
  enter_nesting (start name_span);;;
  advance;;;
  arguments <-- parse_call_arguments;;
  exit_nesting;;;
  s <-- expect_right_paren;;
  pret (Expr_new (Span_new (start name_span) (end_ s)) (ECall function arguments)).

Definition parse_primary : PM Expr :=
  t <-- current_token;;
  match kind t with
  | Null => advance;;; pret (Expr_new (span t) (ELiteral Literal_Null))
  | True_ => advance;;; pret (Expr_new (span t) (ELiteral (Literal_Bool true)))
  | False_ => advance;;; pret (Expr_new (span t) (ELiteral (Literal_Bool false)))
  | Integer value => advance;;; pret (Expr_new (span t) (ELiteral (Literal_Int value)))
  | Decimal_ value => advance;;; pret (Expr_new (span t) (ELiteral (Literal_Decimal value)))
  | TString_ value => advance;;; pret (Expr_new (span t) (ELiteral (Literal_String value)))
  | Name name =>
      advance;;;
      k <-- current_kind;;
      if is_colon k then parse_enum_symbol (span t) name
      else if negb (is_left_paren k) then pret (Expr_new (span t) (EName name))
      else
        match Function_parse name with
        | None => error_at (start (span t)) "one of size, is_null, startsWith, endsWith"
        | Some function => parse_call (span t) function
        end
  | LeftParen =>
      enter_nesting (start (span t));;;
      advance;;;
      e <-- parse_conditional_rec;;
      exit_nesting;;;
      s <-- expect_right_paren;;
      pret (Expr_new (Span_new (start (span t)) (end_ s)) (ekind e))
  | LeftBracket => parse_list
  | _ => error_at_current "an expression"
  end.

Definition parse_member (expression : Expr) : PM Expr :=
  advance;;;
  t <-- current_token;;
  match kind t with
  | Name field =>
      advance;;;
      pret (Expr_new (Span_new (start (espan expression)) (end_ (span t)))
              (EMember expression field))
  | _ => error_at_current "a static object field name"
  end.

Definition parse_index (expression : Expr) : PM Expr :=
  advance;;;
  t <-- current_token;;
  match kind t with
  | Integer value =>
      match parse_usize value with
      | None => error_at (start (span t)) "a valid non-negative list index"
      | Some index =>
          advance;;;
          s <-- expect_right_bracket;;
          pret (Expr_new (Span_new (start (espan expression)) (end_ s)) (EIndex expression index))
      end
  | _ => error_at_current "a non-negative integer list index"
  end.

Fixpoint postfix_loop (n : nat) (expression : Expr) : PM Expr :=
  match n with
  | O => exhausted
  | S n =>
      k <-- current_kind;;
      match k with
      | Dot => e <-- parse_member expression;; postfix_loop n e
      | LeftBracket => e <-- parse_index expression;; postfix_loop n e
      | _ => pret expression
      end
  end.

Definition parse_postfix : PM Expr :=
  e <-- parse_primary;; postfix_loop n e.

Definition parse_prefix (op : UnaryOp) : PM Expr :=
  t <-- current_token;;
  let start := start (span t) in
  enter_nesting start;;;
  advance;;;
  operand <-- parse_unary_rec;;
  exit_nesting;;;
  pret (Expr_new (Span_new start (end_ (espan operand))) (EUnary op operand)).

Definition parse_unary_body : PM Expr :=
  k <-- current_kind;;
  match k with
  | Bang => parse_prefix Not
  | Minus => parse_prefix Negate
  | _ => parse_postfix
  end.

Definition parse_multiplicative : PM Expr :=
  parse_left_associative n parse_unary_body multiplicative_op.
Definition parse_additive : PM Expr :=
  parse_left_associative n parse_multiplicative additive_op.
Definition parse_comparison : PM Expr :=
  parse_left_associative n parse_additive comparison_op.
Definition parse_equality : PM Expr :=
  parse_left_associative n parse_comparison equality_op.
Definition parse_and : PM Expr := parse_left_associative n parse_equality and_op.
Definition parse_or : PM Expr := parse_left_associative n parse_and or_op.

Definition parse_conditional_body : PM Expr :=
  condition <-- parse_or;;
  t <-- current_token;;
  if negb (is_question (kind t)) then pret condition
  else
    let question_offset := start (span t) in
    advance;;;
    when_true <-- parse_nested_expression question_offset;;
    expect_colon;;;
    when_false <-- parse_nested_expression question_offset;;
    pret (Expr_new (Span_new (start (espan condition)) (end_ (espan when_false)))
            (EConditional condition when_true when_false)).
End Levels.

(** The recursive knot: [parse_conditional] and [parse_unary] at depth [d]. *)
Fixpoint parse_conditional (n d : nat) : PM Expr :=
  match d with
  | O => exhausted
  | S d => fun p => parse_conditional_body n (parse_conditional n d) (parse_unary n d) p
  end
with parse_unary (n d : nat) : PM Expr :=
  match d with
  | O => exhausted
  | S d => fun p => parse_unary_body n (parse_conditional n d) (parse_unary n d) p
  end.

(** [Parser::new]. *)
Definition Parser_new (rule_name source : string) : result ParseError Parser :=
  '(t, lx) ← next (Lexer_new rule_name source);
  Ok {| p_rule_name := rule_name; lexer := lx; current := t; syntactic_nesting := 0 |}.

(** The worklist of [expression_depth], top of the stack first. *)
Definition expr_children (e : Expr) : list Expr :=
  match ekind e with
  | ELiteral _ | EName _ | EEnumSymbol _ _ => []
  | EList items | ECall _ items => items
  | EMember target _ | EIndex target _ => [target]
  | EUnary _ operand => [operand]
  | EBinary _ lhs rhs => [lhs; rhs]
  | EConditional condition when_true when_false => [condition; when_true; when_false]
  end.

Fixpoint depth_walk (fuel : nat) (maximum : nat) (pending : list (Expr * nat)) : option nat :=
  match fuel with
  | O => None
  | S fuel =>
      match pending with
      | [] => Some maximum
      | (e, depth) :: pending =>
          depth_walk fuel (Nat.max maximum depth)
            (rev_append (map (fun c => (c, S depth)) (expr_children e)) pending)
      end
  end.

Fixpoint expr_nodes (e : Expr) : nat :=
  match ekind e with
  | ELiteral _ | EName _ | EEnumSymbol _ _ => 1
  | EList items | ECall _ items => S (list_sum (map expr_nodes items))
  | EMember target _ | EIndex target _ => S (expr_nodes target)
  | EUnary _ operand => S (expr_nodes operand)
  | EBinary _ lhs rhs => S (expr_nodes lhs + expr_nodes rhs)
  | EConditional c t f => S (expr_nodes c + (expr_nodes t + expr_nodes f))
  end.

Definition expression_depth (e : Expr) : option nat := depth_walk (S (expr_nodes e)) 0 [(e, 1%nat)].

Definition parse_bounded (n d : nat) (rule_name source : string) : option (result ParseError Expr) :=
  if (MAX_EXPRESSION_BYTES <? String.length source)%nat then
    Some (Err (ParseError_new rule_name MAX_EXPRESSION_BYTES "an expression of at most 4096 bytes"))
  else
    match Parser_new rule_name source with
    | Err e => Some (Err e)
    | Ok p =>
        match parse_conditional n d p with
        | None => None
        | Some (Err e) => Some (Err e)
        | Some (Ok (e, p)) =>
            if negb (is_end (kind (current p))) then
              Some (Err (ParseError_new (p_rule_name p) (start (span (current p)))
                           "the end of the expression"))
            else
              match expression_depth e with
              | None => None
              | Some depth =>
                  if (MAX_AST_DEPTH <? depth)%nat then
                    Some (Err (ParseError_new rule_name (start (espan e)) depth_message))
                  else Some (Ok e)
              end
        end
    end.

(** [parse_expression]; the last branch is unreachable by
    [parse_expression_total]. *)
Definition parse_expression (rule_name source : string) : result ParseError Expr :=
  match parse_bounded (String.length source + 2) (S MAX_AST_DEPTH) rule_name source with
  | Some r => r
  | None => Err (ParseError_new rule_name 0 "")
  end.

(** ** What a parse leaves behind *)

(** Tokens are read from a well-formed lexer, and the current token is the last
    one read. *)
Record parser_wf (p : Parser) : Prop := {
  pw_lexer : lexer_wf (lexer p);
  pw_end : end_ (span (current p)) = cursor (lexer p);
  pw_start : (start (span (current p)) <= end_ (span (current p)))%nat;
  pw_text : exists s, token_text (kind (current p)) s;
  pw_done : kind (current p) = End -> rest (lexer p) = [];
  pw_nesting : (syntactic_nesting p <= MAX_AST_DEPTH)%nat;
}.

(** Tokens still to be consumed, bounded from above. *)
Definition remaining (p : Parser) : nat :=
  (List.length (rest (lexer p)) + if is_end (kind (current p)) then 0 else 1)%nat.

Definition span_within (inner outer : Span) : Prop :=
  (start outer <= start inner /\ start inner <= end_ inner /\ end_ inner <= end_ outer)%nat.

(** The literals the lexer produces: unsigned digits, and a decimal with digits
    on both sides of its point. *)
Definition literal_wf (l : Literal) : Prop :=
  match l with
  | Literal_Int s => token_text (Integer s) s
  | Literal_Decimal s => token_text (Decimal_ s) s
  | _ => True
  end.

(** Expressions as the parser builds them: literals in source form, list
    literals within the limit, every node's span inside its parent's. *)
Inductive expr_wf : Expr -> Prop :=
| wf_literal sp l : (start sp <= end_ sp)%nat -> literal_wf l -> expr_wf (Expr_new sp (ELiteral l))
| wf_name sp n : (start sp <= end_ sp)%nat -> expr_wf (Expr_new sp (EName n))
| wf_enum sp n s : (start sp <= end_ sp)%nat -> expr_wf (Expr_new sp (EEnumSymbol n s))
| wf_list sp items :
    (start sp <= end_ sp)%nat -> (List.length items <= MAX_LIST_ITEMS)%nat ->
    Forall (fun e => expr_wf e /\ span_within (espan e) sp) items ->
    expr_wf (Expr_new sp (EList items))
| wf_member sp t f : expr_wf t -> span_within (espan t) sp -> expr_wf (Expr_new sp (EMember t f))
| wf_index sp t i :
    expr_wf t -> span_within (espan t) sp -> 0 <= i <= usize_max -> expr_wf (Expr_new sp (EIndex t i))
| wf_call sp f args :
    (start sp <= end_ sp)%nat -> Forall (fun e => expr_wf e /\ span_within (espan e) sp) args ->
    expr_wf (Expr_new sp (ECall f args))
| wf_unary sp o e : expr_wf e -> span_within (espan e) sp -> expr_wf (Expr_new sp (EUnary o e))
| wf_binary sp o l r :
    expr_wf l -> expr_wf r -> span_within (espan l) sp -> span_within (espan r) sp ->
    (end_ (espan l) <= start (espan r))%nat -> expr_wf (Expr_new sp (EBinary o l r))
| wf_conditional sp c t f :
    expr_wf c -> expr_wf t -> expr_wf f ->
    span_within (espan c) sp -> span_within (espan t) sp -> span_within (espan f) sp ->
    (end_ (espan c) <= start (espan t))%nat -> (end_ (espan t) <= start (espan f))%nat ->
    expr_wf (Expr_new sp (EConditional c t f)).

(** [wp m p Q]: run from [p], [m] does not exhaust its bounds, and a success
    satisfies [Q]. *)
Definition wp {A} (m : PM A) (p : Parser) (Q : A -> Parser -> Prop) : Prop :=
  match m p with
  | None => False
  | Some (Err _) => True
  | Some (Ok (a, p')) => Q a p'
  end.

(** A parser function within the bounds [n] and [d] hands back a well-formed
    parser at the same nesting that has not gone backwards, with [Q] relating
    both ends to the result. *)
Definition runs {A} (n d : nat) (Q : Parser -> A -> Parser -> Prop) (m : PM A) : Prop :=
  forall p, parser_wf p -> (remaining p < n)%nat -> (MAX_AST_DEPTH < syntactic_nesting p + d)%nat ->
  wp m p (fun a p' =>
    parser_wf p' /\ syntactic_nesting p' = syntactic_nesting p /\ (remaining p' <= remaining p)%nat
    /\ Q p a p').

(** A parsed expression starts at the current token and ends before the next. *)
Definition parsed (p : Parser) (e : Expr) (p' : Parser) : Prop :=
  expr_wf e /\ start (espan e) = start (span (current p))
  /\ (start (espan e) <= end_ (espan e))%nat
  /\ (end_ (espan e) <= start (span (current p')))%nat
  /\ (remaining p' < remaining p)%nat.

Lemma expr_wf_span e : expr_wf e -> (start (espan e) <= end_ (espan e))%nat.
Proof.
  destruct 1; cbn; unfold span_within in *; lia.
Qed.

Lemma runs_mono {A} n d n' d' Q (m : PM A) :
  runs n d Q m -> (n' <= n)%nat -> (d' <= d)%nat -> runs n' d' Q m.
Proof. intros H Hn Hd p Hwf Hr Hdep. apply H; [done|lia|lia]. Qed.

Lemma wp_bind {A B} (m : PM A) (f : A -> PM B) p Q :
  wp m p (fun a p' => wp (f a) p' Q) -> wp (pbind m f) p Q.
Proof. unfold wp, pbind. by destruct (m p) as [[[a p']|]|]. Qed.

Lemma wp_ret {A} (a : A) p Q : Q a p -> wp (pret a) p Q.
Proof. done. Qed.

Lemma wp_kind p Q : Q (kind (current p)) p -> wp current_kind p Q.
Proof. done. Qed.

Lemma wp_token p Q : Q (current p) p -> wp current_token p Q.
Proof. done. Qed.

Lemma wp_error {A} (message : string) p Q : wp (error_at_current (A:=A) message) p Q.
Proof. done. Qed.

Lemma wp_error_at {A} offset (message : string) p Q : wp (error_at (A:=A) offset message) p Q.
Proof. done. Qed.

Lemma wp_mono {A} (m : PM A) p (Q Q' : A -> Parser -> Prop) :
  wp m p Q -> (forall a p', Q a p' -> Q' a p') -> wp m p Q'.
Proof. unfold wp. destruct (m p) as [[[a p']|]|]; auto. Qed.

(** [enter_nesting] fails at the limit, so what follows runs one level deeper
    and still within the limit. *)
Lemma wp_enter offset p Q :
  parser_wf p ->
  (forall p', parser_wf p' -> syntactic_nesting p' = S (syntactic_nesting p) ->
     lexer p' = lexer p -> current p' = current p -> remaining p' = remaining p -> Q tt p') ->
  wp (enter_nesting offset) p Q.
Proof.
  intros [] HQ. unfold wp, enter_nesting. destruct (Nat.leb_spec MAX_AST_DEPTH (syntactic_nesting p)); [done|].
  apply HQ; try done; split; try done; cbn; lia.
Qed.

Lemma wp_exit p Q :
  parser_wf p ->
  (forall p', parser_wf p' -> syntactic_nesting p' = pred (syntactic_nesting p) ->
     lexer p' = lexer p -> current p' = current p -> remaining p' = remaining p -> Q tt p') ->
  wp exit_nesting p Q.
Proof.
  intros [] HQ. unfold wp, exit_nesting. apply HQ; try done; split; try done; cbn; lia.
Qed.

(** [advance] from any token but the end consumes it. *)
Lemma wp_advance p Q :
  parser_wf p ->
  (forall p', parser_wf p' -> syntactic_nesting p' = syntactic_nesting p ->
     (end_ (span (current p)) <= start (span (current p')))%nat ->
     (remaining p' <= remaining p)%nat ->
     (kind (current p) <> End -> (remaining p' < remaining p)%nat) -> Q tt p') ->
  wp advance p Q.
Proof.
  intros [Hlx Hend Hst Htxt Hdone Hnest] HQ. unfold wp, advance.
  destruct (next (lexer p)) as [[t lx]|] eqn:Hn; [|done].
  pose proof (next_progress _ _ _ Hlx Hn) as (Hwf & _ & _ & Hle & Hlt & Hrest).
  destruct (next_spec _ _ _ Hlx Hn) as (ws & body & [Ha _ Hs He Ht _]).
  pose proof (adv_cursor _ _ _ Ha) as Hc. rewrite concat_chars_app, str_length_app in Hc.
  enough (Hrem : (List.length (rest lx) + (if is_end (kind t) then 0 else 1) <= remaining p)%nat
    /\ (kind (current p) <> End ->
        (List.length (rest lx) + (if is_end (kind t) then 0 else 1) < remaining p)%nat)).
  { apply HQ; cbn; try done; try tauto; [|lia]. split; cbn; try done; [lia | eauto]. }
  unfold remaining. destruct (is_end (kind t)) eqn:Ek.
  - assert (kind t = End) as Hk by (destruct (kind t); done).
    rewrite (Hrest Hk). cbn. split; [lia|]. intros Hne.
    destruct (is_end (kind (current p))) eqn:E2; [destruct (kind (current p)); done|]. lia.
  - assert (kind t <> End) as Hk by (intros E; rewrite E in Ek; done). specialize (Hlt Hk).
    destruct (is_end (kind (current p))) eqn:E2.
    + assert (kind (current p) = End) as Hk2 by (destruct (kind (current p)); done).
      specialize (Hdone Hk2). rewrite Hdone in Hlt. cbn in Hlt. lia.
    + lia.
Qed.

(** Symbolic execution of a parser function. *)
Ltac wp_step :=
  match goal with
  | |- wp (pbind _ _) _ _ => apply wp_bind
  | |- wp (pret _) _ _ => apply wp_ret
  | |- wp current_kind _ _ => apply wp_kind
  | |- wp current_token _ _ => apply wp_token
  | |- wp (error_at_current _) _ _ => apply wp_error
  | |- wp (error_at _ _) _ _ => apply wp_error_at
  | |- wp (enter_nesting _) _ _ => apply wp_enter; [assumption|intros ? ? ? ? ? ?]
  | |- wp exit_nesting _ _ => apply wp_exit; [assumption|intros ? ? ? ? ? ?]
  | |- wp advance _ _ => apply wp_advance; [assumption|intros ? ? ? ? ? ?]
  | |- wp (if ?b then _ else _) _ _ => destruct b eqn:?
  end.
Ltac wp_steps := repeat wp_step.

Ltac use_runs H :=
  eapply wp_mono;
  [ apply H; [assumption | lia | lia]
  | cbv beta; intros ? ? (? & ? & ? & ?) ].

(** Span arithmetic over the tokens in the context. *)
Ltac token_facts :=
  repeat match goal with
  | H : parser_wf ?p |- _ =>
      lazymatch goal with
      | _ : (start (span (current p)) <= end_ (span (current p)))%nat |- _ => fail
      | _ => pose proof (pw_start _ H)
      end
  end.
Ltac span_lia :=
  token_facts; unfold span_within in *; cbn [espan start end_] in *;
  repeat match goal with |- _ /\ _ => split end; lia.

Lemma is_test_ne (test : TokenKind -> bool) k : test End = false -> test k = true -> k <> End.
Proof. by intros H1 H2 ->; rewrite H1 in H2. Qed.

Lemma expect_runs n d test message :
  test End = false ->
  runs n d (fun p s p' => s = span (current p)
                          /\ (end_ s <= start (span (current p')))%nat
                          /\ (start s <= end_ s)%nat) (expect test message).
Proof.
  intros Ht p Hwf Hr Hd. unfold expect. wp_steps.
  pose proof (is_test_ne _ _ Ht Heqb) as Hne. pose proof (pw_start _ Hwf).
  split_and!; try done; try lia.
Qed.

Section LeftAssociative.
Variables (n d : nat) (operand : PM Expr) (operator : TokenKind -> option BinaryOp).
Hypothesis operator_end : operator End = None.
Hypothesis operand_runs : runs n d parsed operand.

Lemma left_associative_loop_runs m left p0 p :
  parser_wf p -> (remaining p < m <= n)%nat -> (MAX_AST_DEPTH < syntactic_nesting p + d)%nat ->
  parsed p0 left p ->
  wp (left_associative_loop m operand operator left) p (fun e p' =>
    parser_wf p' /\ syntactic_nesting p' = syntactic_nesting p /\ (remaining p' <= remaining p)%nat
    /\ parsed p0 e p').
Proof using operand_runs operator_end.
  revert left p. induction m as [|m IH]; intros left p Hwf Hm Hd Hleft; [lia|].
  cbn [left_associative_loop]. wp_steps.
  destruct (operator (kind (current p))) as [op|] eqn:Hop; wp_steps.
  - assert (kind (current p) <> End) as Hne by congruence.
    match goal with H : kind (current p) <> End -> _ |- _ => specialize (H Hne) end.
    use_runs operand_runs.
    match goal with H : parsed _ ?r ?q |- _ => rename H into Hright, r into right, q into p2 end.
    destruct Hleft as (? & ? & ? & ? & ?), Hright as (? & ? & ? & ? & ?).
    eapply wp_mono; [apply IH; [assumption|lia|lia|]|].
    + unfold parsed. split_and!; try span_lia. apply wf_binary; try done; span_lia.
    + cbv beta. intros e p3 (? & ? & ? & ?). split_and!; try done; lia.
  - split_and!; try done.
Qed.

Lemma parse_left_associative_runs : runs n d parsed (parse_left_associative n operand operator).
Proof using operand_runs operator_end.
  intros p Hwf Hr Hd. unfold parse_left_associative. wp_steps. use_runs operand_runs.
  eapply wp_mono; [eapply left_associative_loop_runs; eauto; lia|].
  cbv beta. intros e pf (? & ? & ? & ?). split_and!; try done; lia.
Qed.
End LeftAssociative.

Lemma token_text_inv k s : token_text k s -> match k with Integer n | Decimal_ n => s = n | _ => True end.
Proof. destruct k; cbn; tauto. Qed.

Lemma literal_of_token p n :
  parser_wf p -> kind (current p) = Integer n -> literal_wf (Literal_Int n).
Proof.
  intros [_ _ _ [s Hs] _ _] Hk. rewrite Hk in Hs. cbn in *. destruct Hs as (-> & ? & ?). auto.
Qed.

Lemma decimal_of_token p n :
  parser_wf p -> kind (current p) = Decimal_ n -> literal_wf (Literal_Decimal n).
Proof.
  intros [_ _ _ [s Hs] _ _] Hk. rewrite Hk in Hs. cbn in *. destruct Hs as (-> & ?). auto.
Qed.

Section Levels.
Variables (n d : nat) (rec rec_unary : PM Expr).
Hypothesis rec_runs : runs n d parsed rec.
Hypothesis rec_unary_runs : runs n d parsed rec_unary.

(** The items of a call or list: each well formed and inside the span that
    starts at [lo] and ends with the current token. *)
Definition items_within (lo hi : nat) (items : list Expr) : Prop :=
  Forall (fun e => expr_wf e /\ (lo <= start (espan e))%nat /\ (end_ (espan e) <= hi)%nat) items.

Lemma items_within_app lo hi items e :
  items_within lo hi items -> expr_wf e -> (lo <= start (espan e))%nat -> (end_ (espan e) <= hi)%nat ->
  items_within lo hi (items ++ [e]).
Proof. intros H ? ? ?. apply Forall_app. split; [done|]. by repeat constructor. Qed.

Lemma items_within_mono lo hi hi' items :
  items_within lo hi items -> (hi <= hi')%nat -> items_within lo hi' items.
Proof. intros H Hle. eapply List.Forall_impl; [|exact H]. cbv beta. intros e (? & ? & ?). split_and!; try done; lia. Qed.

Lemma items_within_span sp items :
  items_within (start sp) (end_ sp) items -> Forall (fun e => expr_wf e /\ span_within (espan e) sp) items.
Proof.
  intros H. eapply List.Forall_impl; [|exact H]. cbv beta. intros e (Hwf & ? & ?).
  pose proof (expr_wf_span _ Hwf). split; [done|]. unfold span_within. lia.
Qed.

Lemma parse_nested_expression_runs offset :
  runs n (S d) parsed (parse_nested_expression rec offset).
Proof using rec_runs.
  intros p Hwf Hr Hd. unfold parse_nested_expression. wp_steps. use_runs rec_runs. wp_steps.
  match goal with H : parsed _ _ _ |- _ => destruct H as (? & ? & ? & ? & ?) end.
  unfold parsed. split_and!; try done; try congruence; lia.
Qed.

Lemma call_arguments_loop_runs m lo args p :
  parser_wf p -> (remaining p < m <= n)%nat -> (MAX_AST_DEPTH < syntactic_nesting p + d)%nat ->
  (lo <= start (span (current p)))%nat -> items_within lo (start (span (current p))) args ->
  wp (call_arguments_loop rec m args) p (fun args p' =>
    parser_wf p' /\ syntactic_nesting p' = syntactic_nesting p /\ (remaining p' <= remaining p)%nat
    /\ (lo <= start (span (current p')))%nat /\ items_within lo (start (span (current p'))) args).
Proof using rec_runs.
  revert args p. induction m as [|m IH]; intros args p Hwf Hm Hd Hlo Hargs; [lia|].
  cbn [call_arguments_loop]. wp_steps. use_runs rec_runs.
  match goal with H : parsed _ _ _ |- _ => destruct H as (? & ? & ? & ? & ?) end.
  match goal with H : parser_wf ?q, _ : (_ <= start (span (current ?q)))%nat |- _ =>
    assert (Hargs' : items_within lo (start (span (current q))) (args ++ [a]))
      by (apply items_within_app; [eapply items_within_mono; [exact Hargs|lia]|done|lia|lia])
  end.
  wp_steps; try done.
  - split_and!; try done; lia.
  - eapply wp_mono; [apply IH; try done; try lia|].
    + token_facts. lia.
    + eapply items_within_mono; [exact Hargs'|token_facts; lia].
    + cbv beta. intros l pf (? & ? & ? & ? & ?). split_and!; try done; lia.
Qed.

Lemma list_items_loop_runs m lo items p :
  parser_wf p -> (remaining p < m <= n)%nat -> (MAX_AST_DEPTH < syntactic_nesting p + d)%nat ->
  (lo <= start (span (current p)))%nat -> items_within lo (start (span (current p))) items ->
  (List.length items <= MAX_LIST_ITEMS)%nat ->
  wp (list_items_loop rec m items) p (fun items p' =>
    parser_wf p' /\ syntactic_nesting p' = syntactic_nesting p /\ (remaining p' <= remaining p)%nat
    /\ (lo <= start (span (current p')))%nat /\ items_within lo (start (span (current p'))) items
    /\ (List.length items <= MAX_LIST_ITEMS)%nat).
Proof using rec_runs.
  revert items p. induction m as [|m IH]; intros items p Hwf Hm Hd Hlo Hitems Hlen; [lia|].
  cbn [list_items_loop]. wp_steps. use_runs rec_runs. wp_step; [wp_steps|].
  match goal with H : parsed _ _ _ |- _ => destruct H as (? & ? & ? & ? & ?) end.
  match goal with H : parser_wf ?q, _ : (_ <= start (span (current ?q)))%nat |- _ =>
    assert (Hitems' : items_within lo (start (span (current q))) (items ++ [a]))
      by (apply items_within_app; [eapply items_within_mono; [exact Hitems|lia]|done|lia|lia])
  end.
  match goal with H : (_ =? _)%nat = false |- _ => apply Nat.eqb_neq in H end.
  assert (Hlen' : (List.length (items ++ [a]) <= MAX_LIST_ITEMS)%nat)
    by (rewrite length_app; cbn [List.length]; lia).
  wp_steps; try done.
  - split_and!; try done; lia.
  - eapply wp_mono; [apply IH; try done; try lia|].
    + token_facts. lia.
    + eapply items_within_mono; [exact Hitems'|token_facts; lia].
    + cbv beta. intros l pf (? & ? & ? & ? & ? & ?). split_and!; try done; lia.
Qed.

(** Inside a bracketed construct: the next token is after [lo]. *)
Definition items_parsed (lo : nat) (p : Parser) (items : list Expr) (p' : Parser) : Prop :=
  (lo <= start (span (current p')))%nat /\ items_within lo (start (span (current p'))) items.

Lemma parse_call_arguments_runs lo p :
  parser_wf p -> (remaining p < n)%nat -> (MAX_AST_DEPTH < syntactic_nesting p + d)%nat ->
  (lo <= start (span (current p)))%nat ->
  wp (parse_call_arguments n rec) p (fun args p' =>
    parser_wf p' /\ syntactic_nesting p' = syntactic_nesting p /\ (remaining p' <= remaining p)%nat
    /\ items_parsed lo p args p').
Proof using rec_runs.
  intros Hwf Hr Hd Hlo. unfold parse_call_arguments, items_parsed. wp_steps.
  - split_and!; try done. constructor.
  - apply call_arguments_loop_runs; try done; try lia. constructor.
Qed.

Lemma parse_list_contents_runs lo p :
  parser_wf p -> (remaining p < n)%nat -> (MAX_AST_DEPTH < syntactic_nesting p + d)%nat ->
  (lo <= start (span (current p)))%nat ->
  wp (parse_list_contents n rec lo) p (fun e p' =>
    parser_wf p' /\ syntactic_nesting p' = syntactic_nesting p /\ (remaining p' <= remaining p)%nat
    /\ expr_wf e /\ start (espan e) = lo /\ (end_ (espan e) <= start (span (current p')))%nat).
Proof using rec_runs.
  intros Hwf Hr Hd Hlo. unfold parse_list_contents. wp_steps.
  - split_and!; try done; try lia. token_facts. constructor; [cbn; lia|cbn; lia|constructor].
  - eapply wp_mono; [apply (list_items_loop_runs n lo [] p); try done; try (cbn; lia); constructor|].
    cbv beta. intros items p1 (? & ? & ? & ? & Hitems & ?). wp_steps.
    use_runs (expect_runs n d is_right_bracket "a closing ]" eq_refl).
    match goal with H : _ = span _ /\ _ |- _ => destruct H as (-> & ? & ?) end.
    wp_steps. token_facts. split_and!; try done; try lia. constructor; [cbn; lia|done|].
    apply items_within_span. cbn. eapply items_within_mono; [exact Hitems|lia].
Qed.

Lemma parse_list_runs : runs n (S d) (fun p e p' => kind (current p) <> End -> parsed p e p') (parse_list n rec).
Proof using rec_runs.
  intros p Hwf Hr Hd. unfold parse_list. wp_steps.
  match goal with H1 : current ?q = current p, H2 : parser_wf ?q' , H3 : (end_ (span (current ?q)) <= _)%nat |- _ =>
    rewrite H1 in * end.
  eapply wp_mono; [apply (parse_list_contents_runs (start (span (current p)))); try done; token_facts; lia|].
  cbv beta. intros e p3 (? & ? & ? & ? & ? & ?). wp_steps.
  split_and!; try done; try lia. intros Hne. 
  match goal with H : kind _ <> End -> _ |- _ => specialize (H Hne) end.
  unfold parsed. split_and!; try done; try congruence; try lia.
  by apply expr_wf_span.
Qed.

(** Discharge the frame of a parse function whose current token was consumed. *)
Ltac not_end :=
  match goal with
  | Hk : kind (current ?p) = _ |- _ =>
      let Hne := fresh in
      assert (Hne : kind (current p) <> End) by (rewrite Hk; discriminate);
      repeat match goal with H : kind (current p) <> End -> _ |- _ => specialize (H Hne) end
  | Hk : negb (?f (kind (current ?p))) = false |- _ =>
      let Hne := fresh in
      assert (Hne : kind (current p) <> End) by (intros E; rewrite E in Hk; discriminate);
      repeat match goal with H : kind (current p) <> End -> _ |- _ => specialize (H Hne) end
  | Hk : ?f (kind (current ?p)) = true |- _ =>
      let Hne := fresh in
      assert (Hne : kind (current p) <> End) by (intros E; rewrite E in Hk; discriminate);
      repeat match goal with H : kind (current p) <> End -> _ |- _ => specialize (H Hne) end
  end.

Ltac same_token :=
  repeat match goal with
  | H : current ?q = current ?p |- _ => rewrite H in *; clear H
  end.

Ltac close_parsed :=
  unfold parsed; token_facts; split_and!; try done; try congruence; try lia.

Lemma parse_enum_symbol_runs lo name p :
  parser_wf p -> (remaining p < n)%nat -> (start lo <= end_ lo)%nat ->
  (end_ lo <= start (span (current p)))%nat -> kind (current p) = Colon ->
  wp (parse_enum_symbol lo name) p (fun e p' =>
    parser_wf p' /\ syntactic_nesting p' = syntactic_nesting p /\ (remaining p' < remaining p)%nat
    /\ expr_wf e /\ start (espan e) = start lo /\ (end_ (espan e) <= start (span (current p')))%nat).
Proof.
  intros Hwf Hr Hlo Hend Hk. unfold parse_enum_symbol. wp_steps.
  match goal with |- wp (match kind ?t with _ => _ end) _ _ => destruct (kind t) eqn:Hkt end;
    wp_steps.
  not_end. token_facts. split_and!; try done; try (cbn; lia). constructor; cbn; lia.
Qed.

Lemma parse_call_runs lo f p :
  parser_wf p -> (remaining p < n)%nat -> (MAX_AST_DEPTH < syntactic_nesting p + S d)%nat ->
  (start lo <= end_ lo)%nat -> (end_ lo <= start (span (current p)))%nat ->
  kind (current p) = LeftParen ->
  wp (parse_call n rec lo f) p (fun e p' =>
    parser_wf p' /\ syntactic_nesting p' = syntactic_nesting p /\ (remaining p' < remaining p)%nat
    /\ expr_wf e /\ start (espan e) = start lo /\ (end_ (espan e) <= start (span (current p')))%nat).
Proof using rec_runs.
  intros Hwf Hr Hd Hlo Hend Hk. unfold parse_call. wp_steps. same_token. not_end.
  eapply wp_mono; [apply (parse_call_arguments_runs (start lo)); try done; token_facts; lia|].
  cbv beta. intros args p3 (? & ? & ? & ? & Hargs). wp_steps. same_token.
  use_runs (expect_runs n (S d) is_right_paren "a closing )" eq_refl). same_token.
  match goal with H : _ = span _ /\ _ |- _ => destruct H as (-> & ? & ?) end.
  wp_steps. token_facts. split_and!; try done; try lia.
  constructor; [cbn; lia|]. apply items_within_span. cbn. eapply items_within_mono; [exact Hargs|lia].
Qed.

Lemma expr_wf_respan sp sp' k :
  (start sp' <= start sp)%nat -> (end_ sp <= end_ sp')%nat ->
  expr_wf (Expr_new sp k) -> expr_wf (Expr_new sp' k).
Proof.
  intros Hs He H. inversion H; subst; constructor; unfold span_within in *; cbn in *; try done; try lia;
    (eapply List.Forall_impl; [|eassumption]); cbv beta; intros e (? & ? & ? & ?); split_and!; try done; lia.
Qed.

Lemma parse_paren_runs p :
  parser_wf p -> (remaining p < n)%nat -> (MAX_AST_DEPTH < syntactic_nesting p + S d)%nat ->
  kind (current p) = LeftParen ->
  wp (enter_nesting (start (span (current p)));;;
      advance;;;
      e <-- rec;;
      exit_nesting;;;
      s <-- expect_right_paren;;
      pret (Expr_new (Span_new (start (span (current p))) (end_ s)) (ekind e))) p
    (fun e p' =>
    parser_wf p' /\ syntactic_nesting p' = syntactic_nesting p /\ (remaining p' <= remaining p)%nat
    /\ parsed p e p').
Proof using rec_runs.
  intros Hwf Hr Hd Hk. wp_steps. same_token. not_end. use_runs rec_runs. wp_steps. same_token.
  match goal with H : parsed _ _ _ |- _ => destruct H as (Hewf & ? & ? & ? & ?) end.
  use_runs (expect_runs n (S d) is_right_paren "a closing )" eq_refl). same_token.
  match goal with H : _ = span _ /\ _ |- _ => destruct H as (-> & ? & ?) end.
  wp_steps. token_facts. split_and!; try done; try lia. unfold parsed. split_and!; try done; try (cbn; lia).
  destruct a as [sp k]. cbn in *. eapply expr_wf_respan; [| |exact Hewf]; cbn; lia.
Qed.

Lemma parse_primary_runs : runs n (S d) parsed (parse_primary n rec).
Proof using rec_runs.
  intros p Hwf Hr Hd. unfold parse_primary. wp_steps.
  destruct (kind (current p)) eqn:Hk; try (by apply parse_paren_runs); wp_steps; try not_end;
    try (close_parsed;
         first [ apply wf_name; lia
               | apply wf_literal; [lia|];
                 first [exact I | apply (literal_of_token p); assumption | apply (decimal_of_token p); assumption] ]).
  - eapply wp_mono; [apply (parse_enum_symbol_runs (span (current p))); try done; try lia|].
    + by apply pw_start.
    + match goal with H : is_colon ?k = true |- _ => by destruct k end.
    + cbv beta. intros e pf (? & ? & ? & ? & ? & ?). pose proof (expr_wf_span e). close_parsed; tauto.
  - destruct (Function_parse s) as [f|]; wp_steps.
    eapply wp_mono; [apply (parse_call_runs (span (current p))); try done; try lia|].
    + by apply pw_start.
    + match goal with H : negb (is_left_paren ?k) = false |- _ => by destruct k end.
    + cbv beta. intros e pf (? & ? & ? & ? & ? & ?). pose proof (expr_wf_span e). close_parsed; tauto.
  - eapply wp_mono; [apply parse_list_runs; try done|].
    cbv beta. intros e pf (? & ? & ? & Hp). split_and!; try done. apply Hp. by rewrite Hk.
Qed.

(** One postfix step extends a parsed expression. *)
Definition extends (p0 : Parser) (p : Parser) (e : Expr) (p' : Parser) : Prop :=
  parser_wf p' /\ syntactic_nesting p' = syntactic_nesting p /\ (remaining p' < remaining p)%nat
  /\ parsed p0 e p'.

Lemma parse_member_runs p0 e p :
  parser_wf p -> (remaining p < n)%nat -> kind (current p) = Dot -> parsed p0 e p ->
  wp (parse_member e) p (fun e' p' => extends p0 p e' p').
Proof.
  intros Hwf Hr Hk (? & ? & ? & ? & ?). unfold parse_member, extends. wp_steps. not_end.
  match goal with |- wp (match kind ?t with _ => _ end) _ _ => destruct (kind t) eqn:Hkt end; wp_steps.
  token_facts. split_and!; try done; try lia. unfold parsed. split_and!; try done; try (cbn; lia).
  apply wf_member; [done|]. unfold span_within; cbn; lia.
Qed.

Lemma parse_index_runs p0 e p :
  parser_wf p -> (remaining p < n)%nat -> kind (current p) = LeftBracket -> parsed p0 e p ->
  wp (parse_index e) p (fun e' p' => extends p0 p e' p').
Proof.
  intros Hwf Hr Hk (? & ? & ? & ? & ?). unfold parse_index, extends. wp_steps. not_end.
  match goal with |- wp (match kind ?t with _ => _ end) _ _ => destruct (kind t) eqn:Hkt end; wp_steps.
  destruct (parse_usize s) as [i|] eqn:Hi; wp_steps.
  eapply wp_mono; [apply (expect_runs n (S MAX_AST_DEPTH) is_right_bracket "a closing ]" eq_refl); try done; lia|].
  cbv beta. intros sp pf (? & ? & ? & -> & ? & ?). wp_steps. token_facts.
  split_and!; try done; try lia. unfold parsed. split_and!; try done; try (cbn; lia).
  apply wf_index; [done| |by eapply parse_unsigned_range]. unfold span_within; cbn; lia.
Qed.

Lemma postfix_loop_runs m p0 e p :
  parser_wf p -> (remaining p < m <= n)%nat -> parsed p0 e p ->
  wp (postfix_loop m e) p (fun e p' =>
    parser_wf p' /\ syntactic_nesting p' = syntactic_nesting p /\ (remaining p' <= remaining p)%nat
    /\ parsed p0 e p').
Proof using.
  revert e p. induction m as [|m IH]; intros e p Hwf Hm He; [lia|]. cbn [postfix_loop]. wp_steps.
  assert (Hstep : forall step, wp step p (fun e' p' => extends p0 p e' p') ->
    wp (e <-- step;; postfix_loop m e) p (fun e p' =>
    parser_wf p' /\ syntactic_nesting p' = syntactic_nesting p /\ (remaining p' <= remaining p)%nat
    /\ parsed p0 e p')).
  { intros step Hs. wp_steps. eapply wp_mono; [exact Hs|]. cbv beta. intros e' p' (? & ? & ? & ?).
    eapply wp_mono; [apply IH; try done; lia|]. cbv beta. intros e2 p2 (? & ? & ? & ?).
    split_and!; try done; lia. }
  destruct (kind (current p)) eqn:Hk; try (wp_steps; split_and!; done); apply Hstep.
  - apply parse_index_runs; try done; lia.
  - apply parse_member_runs; try done; lia.
Qed.

Lemma parse_postfix_runs : runs n (S d) parsed (parse_postfix n rec).
Proof using rec_runs.
  intros p Hwf Hr Hd. unfold parse_postfix. wp_steps. use_runs parse_primary_runs.
  eapply wp_mono; [apply postfix_loop_runs; try done; lia|].
  cbv beta. intros e pf (? & ? & ? & ?). split_and!; try done; lia.
Qed.

Lemma parse_prefix_runs op :
  forall p, parser_wf p -> (remaining p < n)%nat -> (MAX_AST_DEPTH < syntactic_nesting p + S d)%nat ->
  kind (current p) <> End ->
  wp (parse_prefix rec_unary op) p (fun e p' =>
    parser_wf p' /\ syntactic_nesting p' = syntactic_nesting p /\ (remaining p' <= remaining p)%nat
    /\ parsed p e p').
Proof using rec_unary_runs.
  intros p Hwf Hr Hd Hne. unfold parse_prefix. wp_steps. same_token.
  match goal with H : kind _ <> End -> _ |- _ => specialize (H Hne) end.
  use_runs rec_unary_runs. wp_steps. same_token.
  match goal with H : parsed _ _ _ |- _ => destruct H as (? & ? & ? & ? & ?) end.
  token_facts. split_and!; try done; try lia. unfold parsed.
  split_and!; try done; try congruence; try (cbn; lia).
  - apply wf_unary; [done|]. unfold span_within; cbn; lia.
  - match goal with H : current ?q = _ |- (_ <= start (span (current ?q)))%nat => rewrite H end. cbn. lia.
Qed.

Lemma parse_unary_body_runs : runs n (S d) parsed (parse_unary_body n rec rec_unary).
Proof using rec_runs rec_unary_runs.
  intros p Hwf Hr Hd. unfold parse_unary_body. wp_steps.
  destruct (kind (current p)) eqn:Hk; try (apply parse_postfix_runs; done);
    apply parse_prefix_runs; try done; congruence.
Qed.

Lemma parse_or_runs : runs n (S d) parsed (parse_or n rec rec_unary).
Proof using rec_runs rec_unary_runs.
  repeat (apply parse_left_associative_runs; [done|]). apply parse_unary_body_runs.
Qed.

Lemma parse_conditional_body_runs : runs n (S d) parsed (parse_conditional_body n rec rec_unary).
Proof using rec_runs rec_unary_runs.
  intros p Hwf Hr Hd. unfold parse_conditional_body. wp_steps. use_runs parse_or_runs. wp_steps.
  { split_and!; done. }
  not_end.
  match goal with H : parsed p _ _ |- _ => destruct H as (? & ? & ? & ? & ?) end.
  eapply wp_mono; [apply parse_nested_expression_runs; [done|lia|lia]|].
  cbv beta. intros t pt (? & ? & ? & (? & ? & ? & ? & ?)). wp_steps.
  eapply wp_mono; [apply (expect_runs n (S d) is_colon ":" eq_refl); [done|lia|lia]|].
  cbv beta. intros sp pc (? & ? & ? & -> & ? & ?). wp_steps.
  eapply wp_mono; [apply parse_nested_expression_runs; [done|lia|lia]|].
  cbv beta. intros f pf (? & ? & ? & (? & ? & ? & ? & ?)). wp_steps. token_facts.
  split_and!; try done; try lia. unfold parsed. split_and!; try done; try (cbn; lia).
  apply wf_conditional; try done; unfold span_within; cbn; lia.
Qed.
End Levels.

Lemma parse_conditional_unary_runs n d :
  runs n d parsed (parse_conditional n d) /\ runs n d parsed (parse_unary n d).
Proof.
  induction d as [|d [IHc IHu]].
  - split; intros p [] Hr Hd; lia.
  - split; intros p Hwf Hr Hd; cbn [parse_conditional parse_unary].
    + by apply (parse_conditional_body_runs n d).
    + by apply (parse_unary_body_runs n d).
Qed.

(** ** The depth check *)

(** The height the worklist of [expression_depth] computes. *)
Fixpoint expr_height (e : Expr) : nat :=
  match ekind e with
  | ELiteral _ | EName _ | EEnumSymbol _ _ => 1
  | EList items | ECall _ items => S (list_max (map expr_height items))
  | EMember target _ | EIndex target _ => S (expr_height target)
  | EUnary _ operand => S (expr_height operand)
  | EBinary _ lhs rhs => S (Nat.max (expr_height lhs) (expr_height rhs))
  | EConditional c t f => S (Nat.max (expr_height c) (Nat.max (expr_height t) (expr_height f)))
  end.

Lemma list_max_cons n l : list_max (n :: l) = Nat.max n (list_max l).
Proof. done. Qed.

Lemma expr_height_children e : expr_height e = S (list_max (map expr_height (expr_children e))).
Proof. destruct e as [sp []]; cbn -[list_max]; rewrite ?list_max_cons; cbn [list_max fold_right]; lia. Qed.

Lemma expr_nodes_children e : expr_nodes e = S (list_sum (map expr_nodes (expr_children e))).
Proof. destruct e as [sp []]; cbn -[list_sum]; rewrite ?list_sum_cons; cbn [list_sum fold_right]; lia. Qed.

(** The depth reached by a worklist. *)
Definition pending_depth (pending : list (Expr * nat)) : nat :=
  list_max (map (fun ed => pred (expr_height ed.1 + ed.2)) pending).
Definition pending_exprs (pending : list (Expr * nat)) : nat :=
  list_sum (map (fun ed => expr_nodes ed.1) pending).

Lemma list_max_rev_append {A} (f : A -> nat) l l' :
  list_max (map f (rev_append l l')) = Nat.max (list_max (map f l)) (list_max (map f l')).
Proof.
  revert l'. induction l as [|x l IH]; intros l'; cbn [rev_append map]; [done|].
  rewrite IH. cbn [map]. rewrite !list_max_cons. lia.
Qed.

Lemma pending_depth_rev_append l l' :
  pending_depth (rev_append l l') = Nat.max (pending_depth l) (pending_depth l').
Proof. apply list_max_rev_append. Qed.

Lemma pending_depth_cons e depth pending :
  pending_depth ((e, depth) :: pending) = Nat.max (pred (expr_height e + depth)) (pending_depth pending).
Proof. done. Qed.

Lemma pending_depth_children e depth :
  Nat.max depth (pending_depth (map (fun c => (c, S depth)) (expr_children e)))
  = pred (expr_height e + depth).
Proof.
  rewrite expr_height_children. unfold pending_depth. rewrite map_map. cbn [fst snd].
  induction (expr_children e) as [|c l IH]; cbn [map]; [cbn; lia|].
  rewrite !list_max_cons. pose proof (expr_height_children c). lia.
Qed.

Lemma depth_walk_spec fuel maximum pending :
  (pending_exprs pending < fuel)%nat ->
  depth_walk fuel maximum pending = Some (Nat.max maximum (pending_depth pending)).
Proof.
  revert maximum pending. induction fuel as [|fuel IH]; intros maximum pending Hf; [lia|].
  destruct pending as [|[e depth] pending]; cbn [depth_walk].
  { f_equal. unfold pending_depth. cbn. lia. }
  unfold pending_exprs in *. cbn [map fst] in Hf. rewrite list_sum_cons, expr_nodes_children in Hf.
  rewrite IH.
  - f_equal. rewrite pending_depth_rev_append, pending_depth_cons.
    rewrite <- (pending_depth_children e depth). lia.
  - rewrite list_sum_rev_append, map_map. apply Nat.succ_lt_mono. exact Hf.
Qed.

Lemma expression_depth_spec e : expression_depth e = Some (expr_height e).
Proof.
  unfold expression_depth. rewrite depth_walk_spec.
  - unfold pending_depth. cbn. f_equal. lia.
  - unfold pending_exprs. cbn. lia.
Qed.

(** ** Parsing a whole rule *)

Lemma Parser_new_wf rule_name source p :
  Parser_new rule_name source = Ok p ->
  parser_wf p /\ (remaining p <= S (String.length source))%nat /\ syntactic_nesting p = 0%nat.
Proof.
  unfold Parser_new. destruct (next (Lexer_new rule_name source)) as [[t lx]|] eqn:Hn; [|done].
  intros [= <-].
  pose proof (next_progress _ _ _ (Lexer_new_wf rule_name source) Hn) as (Hwf & _ & _ & Hle & _ & Hrest).
  destruct (next_spec _ _ _ (Lexer_new_wf rule_name source) Hn) as (ws & body & [Ha _ Hs He Ht _]).
  pose proof (adv_cursor _ _ _ Ha) as Hc. rewrite concat_chars_app, str_length_app in Hc.
  split_and!; [split; cbn; try done; try lia; eauto | | done].
  unfold remaining. cbn. pose proof (chars_length source) as Hl. cbn in Hle.
  destruct (is_end (kind t)); lia.
Qed.

(** Within [parse_expression]'s bounds the parser never exhausts them. *)
Lemma parse_bounded_wp rule_name source :
  exists r, parse_bounded (String.length source + 2) (S MAX_AST_DEPTH) rule_name source = Some r
  /\ forall e, r = Ok e ->
     expr_wf e /\ (expr_height e <= MAX_AST_DEPTH)%nat
     /\ (String.length source <= MAX_EXPRESSION_BYTES)%nat.
Proof.
  unfold parse_bounded.
  destruct (Nat.ltb_spec MAX_EXPRESSION_BYTES (String.length source)) as [|Hlen]; [by eexists|].
  destruct (Parser_new rule_name source) as [p|] eqn:Hp; [|by eexists].
  destruct (Parser_new_wf _ _ _ Hp) as (Hwf & Hrem & Hnest).
  destruct (parse_conditional_unary_runs (String.length source + 2) (S MAX_AST_DEPTH)) as [Hruns _].
  specialize (Hruns p Hwf ltac:(lia) ltac:(lia)). unfold wp in Hruns.
  destruct (parse_conditional _ _ p) as [[[e p']|]|]; [|by eexists|done].
  destruct Hruns as (Hwf' & _ & _ & He & _).
  destruct (negb _); [by eexists|]. rewrite expression_depth_spec.
  destruct (Nat.ltb_spec MAX_AST_DEPTH (expr_height e)); [by eexists|].
  eexists; split; [done|]. intros ? [= <-]. done.
Qed.

(** C36: the bounds given to the parser suffice. *)
Theorem parse_expression_total rule_name source :
  parse_bounded (String.length source + 2) (S MAX_AST_DEPTH) rule_name source
  = Some (parse_expression rule_name source).
Proof.
  unfold parse_expression.
  by destruct (parse_bounded_wp rule_name source) as (r & -> & _).
Qed.

(** An accepted expression is within the limits. *)
Theorem parse_expression_sound rule_name source e :
  parse_expression rule_name source = Ok e ->
  expr_wf e /\ (expr_height e <= MAX_AST_DEPTH)%nat
  /\ (String.length source <= MAX_EXPRESSION_BYTES)%nat.
Proof.
  unfold parse_expression.
  destruct (parse_bounded_wp rule_name source) as (r & -> & Hr). apply Hr.
Qed.

Lemma parse_expression_sound_witness :
  exists e, parse_expression "r" "size(items) > 2 && kind == Kind::Gold" = Ok e
  /\ (expr_height e <= 64)%nat.
Proof.
  destruct (parse_expression "r" "size(items) > 2 && kind == Kind::Gold") as [e|] eqn:E;
    [|vm_compute in E; discriminate].
  exists e. split; [done|]. exact (proj1 (proj2 (parse_expression_sound "r" _ e E))).
Defined.

(** a name directly before the colon of a conditional is always taken for
    the start of an enum symbol: whatever the fuel, [parse_primary] at a name
    followed by one colon and no second one fails.  So [c ? a : b] is rejected,
    while [c ? (a) : b] is accepted. *)
Theorem name_before_colon_is_rejected n rec p name p1 p2 :
  kind (current p) = Name name ->
  advance p = Some (Ok (tt, p1)) -> kind (current p1) = Colon ->
  advance p1 = Some (Ok (tt, p2)) -> kind (current p2) <> Colon ->
  parse_primary n rec p
  = Some (Err (ParseError_new (p_rule_name p2) (start (span (current p2)))
                 "a second ':' in an enum symbol")).
Proof.
  intros Hk Ha Hk1 Ha1 Hk2. unfold parse_primary, pbind, current_token. rewrite Hk.
  unfold pbind. rewrite Ha. unfold current_kind. rewrite Hk1. cbn [is_colon].
  unfold parse_enum_symbol, pbind, current_kind. rewrite Ha1.
  destruct (kind (current p2)); done.
Qed.

(** The parser at the branch [a] of [c ? a : b], and one and two tokens on. *)
Definition at_branch (skip : nat) : Parser :=
  match Parser_new "r" "a : b" with
  | Ok p => Nat.iter skip (fun p => match advance p with Some (Ok (_, p)) => p | _ => p end) p
  | Err _ => {| p_rule_name := ""; lexer := Lexer_new "" "";
                current := {| kind := End; span := Span_new 0 0 |}; syntactic_nesting := 0 |}
  end.

Lemma name_before_colon_witness :
  parse_primary 1 exhausted (at_branch 0)
  = Some (Err (ParseError_new "r" 4 "a second ':' in an enum symbol"))
  /\ parse_expression "r" "c ? a : b" = Err (ParseError_new "r" 8 "a second ':' in an enum symbol")
  /\ is_ok (parse_expression "r" "c ? (a) : b") = true.
Proof.
  split; [|split; vm_compute; reflexivity].
  apply (name_before_colon_is_rejected 1 exhausted (at_branch 0) "a" (at_branch 1) (at_branch 2));
    try reflexivity. discriminate.
Defined.
