(* ===== verification/RulesDecimal.v ===== *)
(** * The bounded decimal of the evaluator ([Decimal] in [crates/rules/src/eval.rs])

    A decimal is an [i128] coefficient and a [u32] scale; [None] is an overflow.
    [dec_value] is the rational it stands for: comparison decides it, addition,
    subtraction and multiplication are exact on it, division truncates it. *)
From Stdlib Require Import QArith Qabs.
From S2P Require Import Prelude.
Open Scope Z_scope.

Record Decimal := { coefficient : Z; scale : Z }.

Definition MIN_DIVISION_SCALE : Z := 18.

(** [10_i128.checked_pow(exponent)]. *)
Definition power_of_ten (exponent : Z) : option Z := checked i128_min i128_max (10 ^ exponent).

(** The [while] loop of [normalized]: one trailing zero per turn. *)
Fixpoint normalize (c : Z) (scale : nat) : Decimal :=
  match scale with
  | O => {| coefficient := c; scale := 0 |}
  | S scale' =>
      if Z.rem c 10 =? 0 then normalize (Z.quot c 10) scale'
      else {| coefficient := c; scale := Z.of_nat scale |}
  end.

Definition normalized (d : Decimal) : Decimal := normalize (coefficient d) (Z.to_nat (scale d)).

Definition Decimal_parse (source : string) : option Decimal :=
  let (negative, unsigned) :=
    match strip_prefix_byte "-" source with Some u => (true, u) | None => (false, source) end in
  let (whole, fraction) :=
    match split_once "." unsigned with Some p => p | None => (unsigned, "") end in
  if String.eqb whole "" || negb (bytes_forallb is_ascii_digit_byte whole)
     || negb (bytes_forallb is_ascii_digit_byte fraction)
  then None
  else
    scale ← checked 0 u32_max (Z.of_nat (String.length fraction));
    let digits := whole +:+ fraction in
    coefficient ← (if negative then parse_i128 ("-" +:+ digits) else parse_i128 digits);
    Some (normalized {| coefficient := coefficient; scale := scale |}).

Definition checked_neg (d : Decimal) : option Decimal :=
  c ← checked i128_min i128_max (- coefficient d);
  Some {| coefficient := c; scale := scale d |}.

Definition is_zero (d : Decimal) : bool := coefficient d =? 0.

Definition canonical_string (d : Decimal) : string :=
  if scale d =? 0 then show_Z (coefficient d)
  else
    let sign := if coefficient d <? 0 then "-" else "" in
    let digits := show_nat (Z.abs (coefficient d)) in
    let s := Z.to_nat (scale d) in
    if (String.length digits <=? s)%nat then
      sign +:+ "0." +:+ repeat_string (s - String.length digits) "0" +:+ digits
    else
      let split := (String.length digits - s)%nat in
      sign +:+ substring 0 split digits +:+ "." +:+ substring split s digits.

Definition checked_add (a b : Decimal) : option Decimal :=
  let sc := Z.max (scale a) (scale b) in
  p ← power_of_ten (sc - scale a);
  l ← checked i128_min i128_max (coefficient a * p);
  q ← power_of_ten (sc - scale b);
  r ← checked i128_min i128_max (coefficient b * q);
  c ← checked i128_min i128_max (l + r);
  Some (normalized {| coefficient := c; scale := sc |}).

Definition checked_sub (a b : Decimal) : option Decimal :=
  b ← checked_neg b;
  checked_add a b.

Definition checked_mul (a b : Decimal) : option Decimal :=
  c ← checked i128_min i128_max (coefficient a * coefficient b);
  sc ← checked 0 u32_max (scale a + scale b);
  Some (normalized {| coefficient := c; scale := sc |}).

Definition checked_div (a b : Decimal) : option Decimal :=
  if coefficient b =? 0 then None
  else
    let sc := Z.max MIN_DIVISION_SCALE (Z.max 0 (scale a - scale b)) in
    numerator_scale ← checked 0 u32_max (sc + scale b);
    let denominator_scale := scale a in
    e ← checked 0 u32_max (numerator_scale - denominator_scale);
    p ← power_of_ten e;
    numerator ← checked i128_min i128_max (coefficient a * p);
    c ← checked i128_min i128_max (Z.quot numerator (coefficient b));
    Some (normalized {| coefficient := c; scale := sc |}).

(** [u128::ilog10] of a positive number. *)
Definition ilog10 (n : Z) : Z := Z.of_nat (String.length (show_nat n)) - 1.

(** [checked_div(..).unwrap_or_default()]: zero once the divisor has run out. *)
Definition leading_digit (n divisor : Z) : Z :=
  (if divisor =? 0 then 0 else n / divisor) mod 10.

Fixpoint compare_digits (turns : nat) (left left_divisor right right_divisor : Z) : comparison :=
  match turns with
  | O => Eq
  | S turns =>
      match Z.compare (leading_digit left left_divisor) (leading_digit right right_divisor) with
      | Eq => compare_digits turns left (left_divisor / 10) right (right_divisor / 10)
      | ordering => ordering
      end
  end.

Definition compare_decimal_magnitudes (left left_scale right right_scale : Z) : comparison :=
  let left_digits := ilog10 left + 1 in
  let right_digits := ilog10 right + 1 in
  let left_position := left_digits - left_scale in
  let right_position := right_digits - right_scale in
  match Z.compare left_position right_position with
  | Eq =>
      compare_digits (Z.to_nat (Z.max left_digits right_digits))
        left (10 ^ (left_digits - 1)) right (10 ^ (right_digits - 1))
  | ordering => ordering
  end.

(** [Ordering::cmp]: [Less < Equal < Greater]. *)
Definition ordering_rank (c : comparison) : Z := match c with Lt => -1 | Eq => 0 | Gt => 1 end.

Definition Decimal_cmp (a b : Decimal) : comparison :=
  let left_sign := Z.compare (coefficient a) 0 in
  let right_sign := Z.compare (coefficient b) 0 in
  if negb (ordering_rank left_sign =? ordering_rank right_sign) || (ordering_rank left_sign =? 0)
  then Z.compare (ordering_rank left_sign) (ordering_rank right_sign)
  else
    let ordering :=
      compare_decimal_magnitudes (Z.abs (coefficient a)) (scale a)
        (Z.abs (coefficient b)) (scale b) in
    if ordering_rank left_sign =? -1 then CompOpp ordering else ordering.

(** Derived [==]. *)
Definition Decimal_eqb (a b : Decimal) : bool :=
  (coefficient a =? coefficient b) && (scale a =? scale b).

(** ** What a decimal stands for *)

Definition decimal_wf (d : Decimal) : Prop :=
  i128_min <= coefficient d <= i128_max /\ 0 <= scale d <= u32_max.

Definition is_normalized (d : Decimal) : Prop := scale d = 0 \/ Z.rem (coefficient d) 10 <> 0.

Definition dec_value (d : Decimal) : Q := Qmake (coefficient d) (Z.to_pos (10 ^ scale d)).

(** Powers of ten stay symbolic. *)
Lemma pow10_pos n : 0 <= n -> 0 < 10 ^ n.
Proof. intros. apply Z.pow_pos_nonneg; lia. Qed.

Lemma pow10_add a b : 0 <= a -> 0 <= b -> 10 ^ (a + b) = 10 ^ a * 10 ^ b.
Proof. intros. by apply Z.pow_add_r. Qed.

Lemma to_pos_pow10 n : 0 <= n -> Zpos (Z.to_pos (10 ^ n)) = 10 ^ n.
Proof. intros. apply Z2Pos.id. by apply pow10_pos. Qed.

Lemma dec_value_eq a b :
  0 <= scale a -> 0 <= scale b ->
  (dec_value a == dec_value b)%Q <-> coefficient a * 10 ^ scale b = coefficient b * 10 ^ scale a.
Proof. intros. unfold Qeq, dec_value. cbn. by rewrite !to_pos_pow10. Qed.

Lemma dec_value_compare a b :
  0 <= scale a -> 0 <= scale b ->
  Qcompare (dec_value a) (dec_value b)
  = Z.compare (coefficient a * 10 ^ scale b) (coefficient b * 10 ^ scale a).
Proof. intros. unfold Qcompare, dec_value. cbn. by rewrite !to_pos_pow10. Qed.

(** ** Normalisation *)

Lemma normalize_spec c n :
  let d := normalize c n in
  0 <= scale d <= Z.of_nat n /\ c = coefficient d * 10 ^ (Z.of_nat n - scale d)
  /\ is_normalized d.
Proof.
  revert c. induction n as [|n IH]; intros c; cbn [normalize].
  - cbn. split; [lia|]. split; [lia|]. by left.
  - destruct (Z.eqb_spec (Z.rem c 10) 0) as [Hr|Hr].
    + destruct (IH (Z.quot c 10)) as (Hs & Hc & Hn). split; [lia|]. split; [|done].
      pose proof (Z.quot_rem' c 10) as Hq. rewrite Hr in Hq.
      replace (Z.of_nat (S n) - _) with (1 + (Z.of_nat n - scale (normalize (Z.quot c 10) n))) by lia.
      rewrite pow10_add by lia. rewrite Hc in Hq. lia.
    + cbn [scale coefficient]. split; [lia|]. split; [rewrite Z.sub_diag; lia|]. by right.
Qed.

Lemma normalized_spec d :
  0 <= scale d ->
  0 <= scale (normalized d) <= scale d
  /\ coefficient d = coefficient (normalized d) * 10 ^ (scale d - scale (normalized d))
  /\ is_normalized (normalized d).
Proof.
  intros Hs. unfold normalized.
  pose proof (normalize_spec (coefficient d) (Z.to_nat (scale d))) as H. cbv zeta in H.
  by rewrite Z2Nat.id in H.
Qed.

Lemma normalized_wf d : decimal_wf d -> decimal_wf (normalized d).
Proof.
  intros [Hc Hs]. destruct (normalized_spec d) as (Hs' & Hc' & _); [lia|].
  split; [|lia]. pose proof (pow10_pos (scale d - scale (normalized d)) ltac:(lia)).
  unfold i128_min, i128_max in *. nia.
Qed.

Lemma normalized_value d : 0 <= scale d -> (dec_value (normalized d) == dec_value d)%Q.
Proof.
  intros Hs. destruct (normalized_spec d Hs) as (Hs' & Hc & _).
  rewrite dec_value_eq by lia. rewrite Hc.
  rewrite <-Z.mul_assoc, <-pow10_add by lia. do 2 f_equal. lia.
Qed.

(** Two normalised decimals of one value are the same decimal. *)
Lemma is_normalized_le a b :
  0 <= scale a -> 0 <= scale b -> is_normalized a ->
  coefficient a * 10 ^ scale b = coefficient b * 10 ^ scale a -> scale a <= scale b.
Proof.
  intros Ha Hb Hn H. destruct (Z.le_gt_cases (scale a) (scale b)) as [|Hlt]; [done|exfalso].
  destruct Hn as [Hz|Hz]; [lia|]. apply Hz.
  replace (scale a) with (scale b + (1 + (scale a - scale b - 1))) in H by lia.
  rewrite !pow10_add, (Z.mul_comm (10 ^ scale b)), Z.mul_assoc in H by lia.
  apply Z.mul_reg_r in H; [|pose proof (pow10_pos (scale b)); lia].
  rewrite H. change (10 ^ 1) with 10. rewrite (Z.mul_comm 10), Z.mul_assoc. by apply Z.rem_mul.
Qed.

Lemma is_normalized_unique a b :
  0 <= scale a -> 0 <= scale b -> is_normalized a -> is_normalized b ->
  (dec_value a == dec_value b)%Q -> a = b.
Proof.
  intros Ha Hb Hna Hnb H. rewrite dec_value_eq in H by done.
  assert (scale a = scale b) as Hs.
  { apply Z.le_antisymm; [apply is_normalized_le|apply is_normalized_le]; try done. }
  rewrite Hs in H. apply Z.mul_reg_r in H; [|pose proof (pow10_pos (scale b)); lia].
  destruct a, b; cbn in *; congruence.
Qed.

(** ** Comparison *)

Lemma compare_mul_r a b k : 0 < k -> Z.compare (a * k) (b * k) = Z.compare a b.
Proof.
  intros Hk. destruct (Z.compare_spec a b) as [->|H|H].
  - apply Z.compare_refl.
  - apply Z.compare_lt_iff. by apply Z.mul_lt_mono_pos_r.
  - apply Z.compare_gt_iff. by apply Z.mul_lt_mono_pos_r.
Qed.

(** Only the difference of the two exponents matters. *)
Lemma compare_pow10_shift a b p q p' q' :
  0 <= p -> 0 <= q -> 0 <= p' -> 0 <= q' -> p - q = p' - q' ->
  Z.compare (a * 10 ^ p) (b * 10 ^ q) = Z.compare (a * 10 ^ p') (b * 10 ^ q').
Proof.
  intros. rewrite <-(compare_mul_r _ _ (10 ^ p')) by (by apply pow10_pos).
  rewrite <-(compare_mul_r (a * 10 ^ p') _ (10 ^ p)) by (by apply pow10_pos).
  rewrite <-!Z.mul_assoc, <-!pow10_add by done. f_equal; do 2 f_equal; lia.
Qed.

Lemma compare_mod_split x y n :
  0 <= n ->
  Z.compare (x mod 10 ^ (n + 1)) (y mod 10 ^ (n + 1))
  = match Z.compare (x / 10 ^ n mod 10) (y / 10 ^ n mod 10) with
    | Eq => Z.compare (x mod 10 ^ n) (y mod 10 ^ n)
    | c => c
    end.
Proof.
  intros Hn. pose proof (pow10_pos n Hn) as Hp. rewrite pow10_add by lia. change (10 ^ 1) with 10.
  rewrite !Z.rem_mul_r by lia.
  pose proof (Z.mod_pos_bound x (10 ^ n) Hp). pose proof (Z.mod_pos_bound y (10 ^ n) Hp).
  set (u := x / 10 ^ n mod 10) in *. set (v := y / 10 ^ n mod 10) in *.
  destruct (Z.compare_spec u v) as [->|Hlt|Hlt].
  - destruct (Z.compare_spec (x mod 10 ^ n) (y mod 10 ^ n)) as [->| |];
      [apply Z.compare_refl|apply Z.compare_lt_iff; lia|apply Z.compare_gt_iff; lia].
  - apply Z.compare_lt_iff. nia.
  - apply Z.compare_gt_iff. nia.
Qed.

(** With [n] turns left, [divisor] selects the leading one of the [n] lowest
    digits of [x], the number shifted left to the common width. *)
Definition aligned (n : nat) (left divisor x : Z) : Prop :=
  (exists j, 0 <= j < Z.of_nat n /\ divisor = 10 ^ j /\ x = left * 10 ^ (Z.of_nat n - 1 - j))
  \/ (divisor = 0 /\ x mod 10 ^ Z.of_nat n = 0).

Lemma aligned_step n left divisor x :
  aligned (S n) left divisor x ->
  leading_digit left divisor = x / 10 ^ Z.of_nat n mod 10 /\ aligned n left (divisor / 10) x.
Proof.
  unfold leading_digit. intros [(j & Hj & -> & ->)|[-> Hx]].
  - pose proof (pow10_pos j ltac:(lia)). destruct (Z.eqb_spec (10 ^ j) 0) as [|_]; [lia|].
    replace (Z.of_nat (S n) - 1 - j) with (Z.of_nat n - j) by lia. split.
    + f_equal. replace (10 ^ Z.of_nat n) with (10 ^ j * 10 ^ (Z.of_nat n - j))
        by (rewrite <-pow10_add by lia; f_equal; lia).
      rewrite Z.div_mul_cancel_r; [done|lia|pose proof (pow10_pos (Z.of_nat n - j)); lia].
    + destruct (Z.eq_dec j 0) as [->|Hj0].
      * right. split; [done|]. rewrite Z.sub_0_r.
        apply Z.mod_mul. pose proof (pow10_pos (Z.of_nat n)); lia.
      * left. exists (j - 1). split; [lia|]. split.
        -- replace j with (1 + (j - 1)) at 1 by lia. rewrite pow10_add by lia.
           change (10 ^ 1) with 10. rewrite Z.mul_comm. by apply Z.div_mul.
        -- do 2 f_equal. lia.
  - rewrite Z.eqb_refl. rewrite Nat2Z.inj_succ, <-Z.add_1_r in Hx.
    rewrite pow10_add, Z.rem_mul_r in Hx by (pose proof (pow10_pos (Z.of_nat n)); lia).
    change (10 ^ 1) with 10 in Hx. pose proof (pow10_pos (Z.of_nat n) ltac:(lia)) as Hp.
    pose proof (Z.mod_pos_bound x _ Hp). pose proof (Z.mod_pos_bound (x / 10 ^ Z.of_nat n) 10 ltac:(lia)).
    split; [change (0 mod 10) with 0; nia|]. right. split; [done|nia].
Qed.

Lemma compare_digits_spec n left ld right rd x y :
  aligned n left ld x -> aligned n right rd y ->
  compare_digits n left ld right rd = Z.compare (x mod 10 ^ Z.of_nat n) (y mod 10 ^ Z.of_nat n).
Proof.
  revert ld rd. induction n as [|n IH]; intros ld rd Hl Hr.
  - cbn [compare_digits]. rewrite !Z.mod_1_r. done.
  - cbn [compare_digits]. apply aligned_step in Hl as [-> Hl]. apply aligned_step in Hr as [-> Hr].
    rewrite (IH _ _ Hl Hr), Nat2Z.inj_succ, <-Z.add_1_r, compare_mod_split by lia. done.
Qed.

Lemma ilog10_spec n : 0 < n -> 0 <= ilog10 n /\ 10 ^ ilog10 n <= n < 10 ^ (ilog10 n + 1).
Proof.
  intros Hn. unfold ilog10. destruct (show_nat_spec n) as [H1 H2 H3 H4]; [lia|].
  pose proof (digits_value_bound _ H1) as Hb. rewrite H2 in Hb.
  split; [lia|]. split; [by apply H4|]. rewrite Z.sub_add. lia.
Qed.

Lemma compare_decimal_magnitudes_spec left ls right rs :
  0 < left -> 0 < right -> 0 <= ls -> 0 <= rs ->
  compare_decimal_magnitudes left ls right rs = Z.compare (left * 10 ^ rs) (right * 10 ^ ls).
Proof.
  intros Hl Hr Hls Hrs. unfold compare_decimal_magnitudes.
  destruct (ilog10_spec left Hl) as (Ha & Hla & Hlb), (ilog10_spec right Hr) as (Hb & Hra & Hrb).
  set (ld := ilog10 left) in *. set (rd := ilog10 right) in *.
  destruct (Z.compare_spec (ld + 1 - ls) (rd + 1 - rs)) as [He|Hlt|Hlt].
  - set (n := Z.max (ld + 1) (rd + 1)).
    rewrite (compare_digits_spec _ _ _ _ _ (left * 10 ^ (n - 1 - ld)) (right * 10 ^ (n - 1 - rd))).
    + rewrite Z2Nat.id by lia. rewrite !Z.mod_small.
      * rewrite (compare_pow10_shift left right _ _ rs ls); [done|lia..].
      * split; [pose proof (pow10_pos (n - 1 - rd)); nia|].
        replace n with (rd + 1 + (n - 1 - rd)) at 2 by lia. rewrite pow10_add by lia.
        apply Z.mul_lt_mono_pos_r; [apply pow10_pos; lia|done].
      * split; [pose proof (pow10_pos (n - 1 - ld)); nia|].
        replace n with (ld + 1 + (n - 1 - ld)) at 2 by lia. rewrite pow10_add by lia.
        apply Z.mul_lt_mono_pos_r; [apply pow10_pos; lia|done].
    + left. exists ld. rewrite Z2Nat.id by lia. split; [lia|]. split; [f_equal; lia|done].
    + left. exists rd. rewrite Z2Nat.id by lia. split; [lia|]. split; [f_equal; lia|done].
  - symmetry. apply Z.compare_lt_iff.
    apply Z.lt_le_trans with (10 ^ (ld + 1) * 10 ^ rs);
      [apply Z.mul_lt_mono_pos_r; [by apply pow10_pos|done]|].
    apply Z.le_trans with (10 ^ rd * 10 ^ ls);
      [rewrite <-!pow10_add by lia; apply Z.pow_le_mono_r; lia|].
    apply Z.mul_le_mono_nonneg_r; [pose proof (pow10_pos ls); lia|done].
  - symmetry. apply Z.compare_gt_iff.
    apply Z.lt_le_trans with (10 ^ (rd + 1) * 10 ^ ls);
      [apply Z.mul_lt_mono_pos_r; [by apply pow10_pos|done]|].
    apply Z.le_trans with (10 ^ ld * 10 ^ rs);
      [rewrite <-!pow10_add by lia; apply Z.pow_le_mono_r; lia|].
    apply Z.mul_le_mono_nonneg_r; [pose proof (pow10_pos rs); lia|done].
Qed.

(** comparison, with its digit loop over values of different scales, is
    the comparison of the rationals. *)
Theorem Decimal_cmp_spec a b :
  0 <= scale a -> 0 <= scale b -> Decimal_cmp a b = Qcompare (dec_value a) (dec_value b).
Proof.
  intros Ha Hb. rewrite dec_value_compare by done. unfold Decimal_cmp.
  pose proof (pow10_pos _ Ha). pose proof (pow10_pos _ Hb).
  destruct (Z.compare_spec (coefficient a) 0) as [Ea|Ea|Ea];
    destruct (Z.compare_spec (coefficient b) 0) as [Eb|Eb|Eb]; cbn -[Z.compare Z.pow Z.mul];
    symmetry;
    try (apply Z.compare_eq_iff; nia); try (apply Z.compare_lt_iff; nia);
    try (apply Z.compare_gt_iff; nia).
  - rewrite compare_decimal_magnitudes_spec by lia.
    rewrite !Z.abs_neq, !Z.mul_opp_l by lia. by rewrite Z.compare_opp, Z.compare_antisym.
  - rewrite compare_decimal_magnitudes_spec by lia. by rewrite !Z.abs_eq by lia.
Qed.

Lemma Decimal_cmp_witness :
  Decimal_cmp {| coefficient := 15; scale := 1 |} {| coefficient := 150; scale := 2 |} = Eq.
Proof. rewrite Decimal_cmp_spec by (cbn; lia). reflexivity. Defined.

(** ** Exact arithmetic *)

Lemma dec_value_plus a b :
  0 <= scale a -> 0 <= scale b ->
  (dec_value a + dec_value b ==
   Qmake (coefficient a * 10 ^ scale b + coefficient b * 10 ^ scale a)
         (Z.to_pos (10 ^ (scale a + scale b))))%Q.
Proof.
  intros Ha Hb. unfold Qeq, Qplus, dec_value. cbn.
  rewrite Pos2Z.inj_mul, !to_pos_pow10, pow10_add by lia. ring.
Qed.

Lemma dec_value_mult a b :
  0 <= scale a -> 0 <= scale b ->
  (dec_value a * dec_value b ==
   Qmake (coefficient a * coefficient b) (Z.to_pos (10 ^ (scale a + scale b))))%Q.
Proof.
  intros Ha Hb. unfold Qeq, Qmult, dec_value. cbn.
  rewrite Pos2Z.inj_mul, !to_pos_pow10, pow10_add by lia. ring.
Qed.

Lemma normalized_ok c sc :
  i128_min <= c <= i128_max -> 0 <= sc <= u32_max ->
  let r := normalized {| coefficient := c; scale := sc |} in
  decimal_wf r /\ is_normalized r /\ (dec_value r == Qmake c (Z.to_pos (10 ^ sc)))%Q.
Proof.
  intros Hc Hs r. split; [by apply normalized_wf|].
  split; [apply normalized_spec; cbn; lia|].
  unfold r. rewrite normalized_value by (cbn; lia). reflexivity.
Qed.

Lemma power_of_ten_Some e p : power_of_ten e = Some p -> p = 10 ^ e.
Proof. unfold power_of_ten. by intros [-> _]%checked_Some. Qed.

Lemma checked_add_ok a b r :
  decimal_wf a -> decimal_wf b -> checked_add a b = Some r ->
  decimal_wf r /\ is_normalized r /\ (dec_value r == dec_value a + dec_value b)%Q.
Proof.
  intros [_ Ha] [_ Hb] H. unfold checked_add in H. set (k := Z.max (scale a) (scale b)) in *.
  apply bind_Some in H as (p & ->%power_of_ten_Some & H).
  apply bind_Some in H as (l & [-> _]%checked_Some & H).
  apply bind_Some in H as (q & ->%power_of_ten_Some & H).
  apply bind_Some in H as (rr & [-> _]%checked_Some & H).
  apply bind_Some in H as (c & [-> Hc]%checked_Some & [= <-]).
  edestruct normalized_ok as (Hwf & Hn & Hv); [exact Hc| |split_and!; [exact Hwf|exact Hn|]]; [lia|].
  rewrite Hv, dec_value_plus by lia. unfold Qeq. cbn. rewrite !to_pos_pow10 by lia.
  rewrite pow10_add by lia. replace k with (scale a + (k - scale a)) at 3 by lia.
  rewrite pow10_add by lia.
  assert (E : 10 ^ scale a * 10 ^ (k - scale a) = 10 ^ scale b * 10 ^ (k - scale b))
    by (rewrite <-!pow10_add by lia; f_equal; lia).
  transitivity (coefficient a * 10 ^ scale b * (10 ^ scale a * 10 ^ (k - scale a))
    + coefficient b * 10 ^ scale a * (10 ^ scale b * 10 ^ (k - scale b))); [ring|].
  rewrite <-E. ring.
Qed.

Lemma checked_neg_value a b :
  decimal_wf a -> checked_neg a = Some b -> decimal_wf b /\ (dec_value b == - dec_value a)%Q.
Proof.
  intros [Hc Hs] H. apply bind_Some in H as (c & [-> Hc']%checked_Some & [= <-]).
  split; [done|]. reflexivity.
Qed.

Lemma checked_mul_exact a b r :
  decimal_wf a -> decimal_wf b -> checked_mul a b = Some r ->
  decimal_wf r /\ is_normalized r /\ (dec_value r == dec_value a * dec_value b)%Q.
Proof.
  intros [_ Ha] [_ Hb] H. unfold checked_mul in H.
  apply bind_Some in H as (c & [-> Hc]%checked_Some & H).
  apply bind_Some in H as (sc & [-> Hs]%checked_Some & [= <-]).
  edestruct normalized_ok as (Hwf & Hn & Hv); [exact Hc| exact Hs|].
  split_and!; [exact Hwf|exact Hn|]. by rewrite Hv, dec_value_mult by lia.
Qed.

(** Addition, subtraction and multiplication are exact when they return,
    and their results are normalised and in range. *)
Theorem exact_operations a b r :
  decimal_wf a -> decimal_wf b ->
  (checked_add a b = Some r ->
     decimal_wf r /\ is_normalized r /\ (dec_value r == dec_value a + dec_value b)%Q)
  /\ (checked_sub a b = Some r ->
     decimal_wf r /\ is_normalized r /\ (dec_value r == dec_value a - dec_value b)%Q)
  /\ (checked_mul a b = Some r ->
     decimal_wf r /\ is_normalized r /\ (dec_value r == dec_value a * dec_value b)%Q).
Proof.
  intros Ha Hb. split_and!; [by apply checked_add_ok| |by apply checked_mul_exact].
  intros (nb & [Hnb Hv]%checked_neg_value & Hr)%bind_Some; [|done].
  destruct (checked_add_ok _ _ _ Ha Hnb Hr) as (? & ? & Hsum). split_and!; [done..|].
  rewrite Hsum, Hv. reflexivity.
Qed.

Lemma exact_operations_witness :
  checked_sub {| coefficient := 15; scale := 1 |} {| coefficient := 5; scale := 1 |}
  = Some {| coefficient := 1; scale := 0 |}
  /\ (dec_value {| coefficient := 1; scale := 0 |}
      == dec_value {| coefficient := 15; scale := 1 |} - dec_value {| coefficient := 5; scale := 1 |})%Q.
Proof.
  split; [reflexivity|].
  apply (exact_operations {| coefficient := 15; scale := 1 |} {| coefficient := 5; scale := 1 |});
    [unfold decimal_wf, i128_min, i128_max, u32_max; cbn; lia..|reflexivity].
Defined.

(** The quotient's coefficient before it is normalised, and its scale. *)
Lemma checked_div_Some a b r :
  decimal_wf a -> decimal_wf b -> checked_div a b = Some r ->
  exists sc e, 18 <= sc <= u32_max /\ 0 <= e /\ e + scale a = sc + scale b /\ coefficient b <> 0
  /\ decimal_wf r /\ is_normalized r
  /\ (dec_value r == Qmake (Z.quot (coefficient a * 10 ^ e) (coefficient b)) (Z.to_pos (10 ^ sc)))%Q.
Proof.
  intros [_ Ha] [_ Hb] H. unfold checked_div in H.
  destruct (Z.eqb_spec (coefficient b) 0) as [|Hz]; [done|].
  set (sc := Z.max MIN_DIVISION_SCALE _) in *. unfold MIN_DIVISION_SCALE in sc.
  apply bind_Some in H as (ns & [-> Hns]%checked_Some & H).
  apply bind_Some in H as (e & [-> He]%checked_Some & H).
  apply bind_Some in H as (p & ->%power_of_ten_Some & H).
  apply bind_Some in H as (num & [-> Hn]%checked_Some & H).
  apply bind_Some in H as (c & [-> Hc]%checked_Some & [= <-]).
  assert (Hsc : 18 <= sc <= u32_max) by (unfold u32_max in *; lia).
  edestruct (normalized_ok _ sc Hc) as (Hwf & Hnorm & Hv); [lia|].
  exists sc, (sc + scale b - scale a). split_and!; try done; lia.
Qed.

(** The exact quotient over the common denominator [|D| * 10^sc]. *)
Lemma dec_value_div a b sc e :
  0 <= scale a -> 0 <= scale b -> 0 <= sc -> 0 <= e -> e + scale a = sc + scale b ->
  coefficient b <> 0 ->
  (dec_value a / dec_value b ==
   Qmake (coefficient a * 10 ^ e * Z.sgn (coefficient b))
         (Z.to_pos (Z.abs (coefficient b) * 10 ^ sc)))%Q.
Proof.
  intros Ha Hb Hsc He Heq Hz.
  assert (Hy : ~ (dec_value b == 0)%Q) by (unfold Qeq, dec_value; cbn; lia).
  set (z := Qmake _ (Z.to_pos (Z.abs _ * _))).
  rewrite <-(Qdiv_mult_l z (dec_value b) Hy). apply Qdiv_comp; [|reflexivity].
  unfold z, Qeq, Qmult, dec_value. cbn. pose proof (pow10_pos sc Hsc).
  rewrite Pos2Z.inj_mul, !to_pos_pow10, Z2Pos.id by (try lia; nia).
  assert (E : 10 ^ e * 10 ^ scale a = 10 ^ sc * 10 ^ scale b)
    by (rewrite <-!pow10_add by lia; f_equal; lia).
  transitivity (coefficient a * (10 ^ sc * 10 ^ scale b) * Z.abs (coefficient b)); [ring|].
  assert (E2 : Z.abs (coefficient b) = Z.sgn (coefficient b) * coefficient b) by lia.
  rewrite <-E, E2. ring.
Qed.

Lemma quot_error_bound N D : D <> 0 ->
  Z.abs ((N - Z.quot N D * D) * Z.sgn D) < Z.abs D /\ Z.abs (Z.quot N D) * Z.abs D <= Z.abs N.
Proof.
  intros HD. split.
  - rewrite Z.abs_mul, (Z.mul_comm (Z.quot N D)).
    pose proof (Z.quot_rem' N D) as E. pose proof (Z.rem_bound_abs N D HD) as Hr.
    replace (N - D * Z.quot N D) with (Z.rem N D) by lia.
    assert (Z.abs (Z.sgn D) = 1) as -> by lia. lia.
  - rewrite <-Z.abs_mul, Z.mul_comm. rewrite Z.abs_mul, <-Z.quot_abs by done.
    apply Z.mul_quot_le; lia.
Qed.

(** a division that returns is the quotient truncated towards zero at a
    scale of at least 18: it is off by less than [10^-18] and never larger in
    magnitude than the exact quotient. *)
Theorem checked_div_truncates a b r :
  decimal_wf a -> decimal_wf b -> checked_div a b = Some r ->
  ~ (dec_value b == 0)%Q /\ decimal_wf r /\ is_normalized r
  /\ (Qabs (dec_value a / dec_value b - dec_value r) < 1 # 1000000000000000000)%Q
  /\ (Qabs (dec_value r) <= Qabs (dec_value a / dec_value b))%Q.
Proof.
  intros Ha Hb H.
  destruct (checked_div_Some _ _ _ Ha Hb H) as (sc & e & Hsc & He & Heq & Hz & Hwf & Hn & Hv).
  destruct Ha as [_ Ha], Hb as [_ Hb]. set (N := coefficient a * 10 ^ e) in *.
  set (D := coefficient b) in *. destruct (quot_error_bound N D Hz) as [Herr Hle].
  pose proof (pow10_pos sc ltac:(lia)) as Hp.
  pose proof (dec_value_div a b sc e ltac:(lia) ltac:(lia) ltac:(lia) He Heq Hz) as Hdiv. fold D N in Hdiv.
  split_and!; try done; [unfold Qeq, dec_value; cbn; fold D; lia| |].
  - rewrite Hdiv, Hv.
    assert (E : (Qmake (N * Z.sgn D) (Z.to_pos (Z.abs D * 10 ^ sc)) - Qmake (Z.quot N D) (Z.to_pos (10 ^ sc))
      == Qmake ((N - Z.quot N D * D) * Z.sgn D) (Z.to_pos (Z.abs D * 10 ^ sc)))%Q).
    { unfold Qeq, Qminus, Qplus, Qopp. cbn. rewrite Pos2Z.inj_mul, to_pos_pow10, Z2Pos.id by nia.
      assert (E2 : Z.abs D = Z.sgn D * D) by lia. rewrite E2. ring. }
    rewrite E. unfold Qlt. cbn -[Z.mul]. rewrite Z2Pos.id by nia.
    pose proof (Z.pow_le_mono_r 10 18 sc ltac:(lia) ltac:(lia)) as Hm. change (10 ^ 18) with 1000000000000000000 in Hm. nia.
  - rewrite Hdiv, Hv. unfold Qle. cbn -[Z.mul]. rewrite to_pos_pow10, Z2Pos.id by nia.
    rewrite Z.abs_mul. assert (Z.abs (Z.sgn D) = 1) as -> by lia. nia.
Qed.

Lemma checked_div_witness :
  checked_div {| coefficient := 1; scale := 0 |} {| coefficient := 3; scale := 0 |}
  = Some {| coefficient := 333333333333333333; scale := 18 |}
  /\ decimal_wf {| coefficient := 333333333333333333; scale := 18 |}.
Proof.
  split; [reflexivity|].
  apply (checked_div_truncates {| coefficient := 1; scale := 0 |} {| coefficient := 3; scale := 0 |});
    [unfold decimal_wf, i128_min, i128_max, u32_max; cbn; lia..|reflexivity].
Defined.

(** ** Parsing and printing *)

(** The text [-whole.fraction], the sign and the fraction with its point
    optional. *)
Definition decimal_text (negative : bool) (whole : string) (fraction : option string) : string :=
  (if negative then "-" else "") +:+ whole
  +:+ match fraction with Some f => "." +:+ f | None => "" end.

Lemma strip_sign_digits w s :
  w <> "" -> bytes_forallb is_ascii_digit_byte w = true -> strip_prefix_byte "-" (w +:+ s) = None.
Proof.
  destruct w as [|a w]; [done|]. intros _ [Ha _]%andb_true_iff. rewrite str_app_cons.
  unfold strip_prefix_byte. destruct (Ascii.eqb_spec "-" a) as [<-|]; [by vm_compute in Ha|done].
Qed.

Lemma split_once_digits w s :
  bytes_forallb is_ascii_digit_byte w = true ->
  split_once "." (w +:+ s)
  = match split_once "." s with Some (l, r) => Some (w +:+ l, r) | None => None end.
Proof.
  induction w as [|a w IH]; intros H.
  - rewrite str_app_nil_l. by destruct (split_once "." s) as [[]|].
  - apply andb_true_iff in H as [Ha Hw]. rewrite str_app_cons. cbn [split_once].
    destruct (Ascii.eqb_spec a ".") as [->|_]; [by vm_compute in Ha|].
    rewrite IH by done. by destruct (split_once "." s) as [[]|].
Qed.

Lemma Decimal_parse_text (negative : bool) whole (fraction : option string) c :
  let f := match fraction with Some f => f | None => "" end in
  whole <> "" -> bytes_forallb is_ascii_digit_byte (whole +:+ f) = true ->
  Z.of_nat (String.length f) <= u32_max ->
  c = (if negative then - digits_value 0 (whole +:+ f) else digits_value 0 (whole +:+ f)) ->
  i128_min <= c <= i128_max ->
  Decimal_parse (decimal_text negative whole fraction)
  = Some (normalized {| coefficient := c; scale := Z.of_nat (String.length f) |}).
Proof.
  intros f Hne Hd Hlen Hc Hr. pose proof Hd as Hd'. rewrite bytes_forallb_app in Hd'.
  apply andb_true_iff in Hd' as [Hw Hf].
  assert (Hs : match strip_prefix_byte "-" (decimal_text negative whole fraction) with
               | Some u => (true, u) | None => (false, decimal_text negative whole fraction) end
    = (negative, whole +:+ match fraction with Some f => "." +:+ f | None => "" end)).
  { destruct negative; [done|]. unfold decimal_text. rewrite str_app_nil_l.
    by rewrite strip_sign_digits. }
  assert (Hp : forall tail, tail = match fraction with Some f => "." +:+ f | None => "" end ->
    match split_once "." (whole +:+ tail) with Some p => p | None => (whole +:+ tail, "") end = (whole, f)).
  { intros tail ->. rewrite split_once_digits by done. unfold f.
    destruct fraction as [g|]; [change ("." +:+ g) with (String "." g)|]; cbn [split_once Ascii.eqb Bool.eqb];
    by rewrite str_app_nil_r. }
  unfold Decimal_parse. rewrite Hs, (Hp _ eq_refl), Hw, Hf.
  destruct (String.eqb_spec whole "") as [|_]; [done|]. cbn [orb negb].
  unfold checked at 1. rewrite (proj2 (in_range_spec _ _ _)) by (split; [lia|done]). cbn [mbind option_bind].
  assert (Hg : parse_digits (whole +:+ f) = Some (digits_value 0 (whole +:+ f))).
  { unfold parse_digits. rewrite Hd. destruct whole; [done|]. by rewrite str_app_cons. }
  assert (Hi : (if negative then parse_i128 ("-" +:+ whole +:+ f) else parse_i128 (whole +:+ f)) = Some c).
  { unfold parse_i128. destruct negative;
      [erewrite parse_signed_neg_digits by exact Hg | erewrite parse_signed_digits by exact Hg];
      rewrite <-Hc; by apply checked_Some. }
  by rewrite Hi.
Qed.

Lemma substring_all s : substring 0 (String.length s) s = s.
Proof. induction s as [|a s IH]; [done|]. cbn. by rewrite IH. Qed.

Lemma substring_split n m s :
  String.length s = (n + m)%nat -> substring 0 n s +:+ substring n m s = s
  /\ String.length (substring 0 n s) = n /\ String.length (substring n m s) = m.
Proof.
  revert s. induction n as [|n IH]; intros s Hl.
  - rewrite Nat.add_0_l in Hl. subst m. rewrite substring_all. by destruct s.
  - destruct s as [|a s]; [done|]. injection Hl as Hl. destruct (IH s Hl) as (H1 & H2 & H3).
    cbn [substring]. rewrite str_app_cons, H1. cbn. by rewrite H2, H3.
Qed.

(** [canonical_string] prints a [decimal_text]. *)
Lemma canonical_string_text d :
  decimal_wf d ->
  exists whole (fraction : option string),
    let f := match fraction with Some f => f | None => "" end in
    canonical_string d = decimal_text (coefficient d <? 0) whole fraction
    /\ whole <> "" /\ bytes_forallb is_ascii_digit_byte (whole +:+ f) = true
    /\ Z.of_nat (String.length f) = scale d
    /\ digits_value 0 (whole +:+ f) = Z.abs (coefficient d).
Proof.
  intros [_ Hs]. unfold canonical_string, decimal_text.
  destruct (show_nat_spec (Z.abs (coefficient d)) ltac:(lia)) as [H1 H2 H3 _].
  set (digits := show_nat (Z.abs (coefficient d))) in *.
  destruct (Z.eqb_spec (scale d) 0) as [Hz|Hz].
  { exists digits, None. cbv zeta. rewrite !str_app_nil_r. split_and!; try done.
    - unfold show_Z, digits. destruct (Z.ltb_spec (coefficient d) 0);
        [by rewrite Z.abs_neq by lia|by rewrite Z.abs_eq by lia].
    - intros E. rewrite E in H3. cbn in H3. lia. }
  destruct (Nat.leb_spec (String.length digits) (Z.to_nat (scale d))) as [Hle|Hlt].
  - exists "0", (Some (repeat_string (Z.to_nat (scale d) - String.length digits) "0" +:+ digits)).
    cbv zeta. split_and!; try done.
    + rewrite !bytes_forallb_app, repeat_zeros_digits, H1. done.
    + rewrite str_length_app, repeat_zeros_length. lia.
    + rewrite !digits_value_app, repeat_zeros_value. cbn [digits_value]. done.
  - destruct (substring_split (String.length digits - Z.to_nat (scale d)) (Z.to_nat (scale d)) digits)
      as (E1 & E2 & E3); [lia|].
    eexists _, (Some (substring _ (Z.to_nat (scale d)) digits)). cbv zeta.
    split_and!; [reflexivity| | | |].
    + intros E. rewrite E in E2. change (String.length "") with 0%nat in E2. lia.
    + by rewrite E1.
    + rewrite E3. lia.
    + by rewrite E1.
Qed.

Lemma Decimal_parse_canonical_string_of d :
  decimal_wf d -> Decimal_parse (canonical_string d) = Some (normalized d).
Proof.
  intros Hwf. destruct (canonical_string_text d Hwf) as (whole & fraction & Hc & Hne & Hd & Hl & Hv).
  rewrite Hc. destruct Hwf as [Hr Hs].
  rewrite (Decimal_parse_text _ _ _ (coefficient d)); try done; [|lia|].
  - rewrite Hl. by destruct d.
  - rewrite Hv. destruct (Z.ltb_spec (coefficient d) 0); lia.
Qed.

(** reading back a printed decimal gives its normal form, so a
    normalised decimal round trips; whatever is read is in range and
    normalised. *)
Theorem Decimal_parse_canonical_string d :
  decimal_wf d ->
  exists r, Decimal_parse (canonical_string d) = Some r
  /\ decimal_wf r /\ is_normalized r /\ (dec_value r == dec_value d)%Q.
Proof.
  intros Hwf. exists (normalized d). split; [by apply Decimal_parse_canonical_string_of|].
  split; [by apply normalized_wf|]. destruct Hwf as [_ Hs].
  split; [apply normalized_spec; lia|apply normalized_value; lia].
Qed.

Lemma Decimal_parse_canonical_string_witness :
  exists r, Decimal_parse "-0.05" = Some r
  /\ decimal_wf r /\ is_normalized r /\ (dec_value r == -5 # 100)%Q.
Proof.
  apply (Decimal_parse_canonical_string {| coefficient := -5; scale := 2 |}).
  unfold decimal_wf, i128_min, i128_max, u32_max; cbn; lia.
Defined.

Lemma Decimal_parse_wf s d : Decimal_parse s = Some d -> decimal_wf d /\ is_normalized d.
Proof.
  unfold Decimal_parse. intros H. repeat case_match; try done;
    apply bind_Some in H as (sc & [-> Hs]%checked_Some & H);
    apply bind_Some in H as (c & Hc%parse_signed_range & [= <-]);
    (split; [by apply normalized_wf | apply normalized_spec; cbn; lia]).
Qed.

(** Equal values print equally: [canonical_string] of normalised decimals is a
    canonical form. *)
Lemma normalized_unique a b :
  decimal_wf a -> decimal_wf b -> (dec_value a == dec_value b)%Q -> normalized a = normalized b.
Proof.
  intros [_ Ha] [_ Hb] H.
  destruct (normalized_spec a) as (? & _ & ?); [lia|].
  destruct (normalized_spec b) as (? & _ & ?); [lia|].
  apply is_normalized_unique; try done; try lia. by rewrite !normalized_value by lia.
Qed.

(** two decimals stand for one number exactly when their normal forms
    print the same text. *)
Theorem canonical_string_canonical a b :
  decimal_wf a -> decimal_wf b ->
  canonical_string (normalized a) = canonical_string (normalized b)
  <-> (dec_value a == dec_value b)%Q.
Proof.
  intros Ha Hb. split; [|by intros ->%normalized_unique].
  intros H. pose proof (Decimal_parse_canonical_string_of _ (normalized_wf _ Ha)) as Hpa.
  rewrite H, Decimal_parse_canonical_string_of in Hpa by (by apply normalized_wf).
  injection Hpa as E. apply (f_equal dec_value) in E.
  pose proof (normalized_wf _ Ha) as [_ Hna]. pose proof (normalized_wf _ Hb) as [_ Hnb].
  destruct Ha as [_ Ha], Hb as [_ Hb].
  rewrite <-(normalized_value a), <-(normalized_value b) by lia.
  rewrite <-(normalized_value (normalized a)), <-(normalized_value (normalized b)) by lia.
  by rewrite E.
Qed.

Lemma canonical_string_canonical_witness :
  canonical_string (normalized {| coefficient := 150; scale := 2 |})
  = canonical_string (normalized {| coefficient := 15; scale := 1 |}).
Proof.
  apply canonical_string_canonical; [unfold decimal_wf, i128_min, i128_max, u32_max; cbn; lia..|].
  reflexivity.
Defined.
