(* ===== verification/RulesTime.v ===== *)
(** * UUID, date and timestamp literals ([crates/rules/src/eval.rs])

    A value is checked byte by byte, so positions in the text are indices into
    its bytes.  A timestamp is moved to UTC when it is decoded and later
    compared as text. *)
From S2P Require Import Prelude.

(** [bytes.get(i)], [value[from..to]] and a test of one byte. *)
Definition byte_at (s : string) (i : nat) : option ascii := String.get i s.
Definition slice (s : string) (from to : nat) : string := substring from (to - from) s.
Definition byte_is (s : string) (i : nat) (a : ascii) : bool :=
  match byte_at s i with Some b => Ascii.eqb b a | None => false end.
Definition digits_in (s : string) (from to : nat) : bool :=
  bytes_forallb is_ascii_digit_byte (slice s from to).

Definition is_uuid_dash (index : nat) : bool :=
  ((index =? 8) || (index =? 13) || (index =? 18) || (index =? 23))%nat.

(** [bytes().enumerate().all(..)]. *)
Fixpoint bytes_all (f : nat -> ascii -> bool) (index : nat) (s : string) : bool :=
  match s with EmptyString => true | String a s => f index a && bytes_all f (S index) s end.

Definition is_uuid (value : string) : bool :=
  (String.length value =? 36)%nat
  && bytes_all (fun index byte =>
       (is_uuid_dash index && Ascii.eqb byte "-")
       || (negb (is_uuid_dash index) && is_ascii_hexdigit_byte byte)) 0 value.

Definition parse_two_or_four_digits (value : string) : option Z := parse_u32 value.

Definition is_multiple_of (n d : Z) : bool := n mod d =? 0.

Definition is_leap_year (year : Z) : bool :=
  is_multiple_of year 400 || (is_multiple_of year 4 && negb (is_multiple_of year 100)).

Definition days_in_month (year month : Z) : Z :=
  if (month =? 1) || (month =? 3) || (month =? 5) || (month =? 7) || (month =? 8)
     || (month =? 10) || (month =? 12) then 31
  else if (month =? 4) || (month =? 6) || (month =? 9) || (month =? 11) then 30
  else if (month =? 2) && is_leap_year year then 29
  else if month =? 2 then 28
  else 0.

Definition is_canonical_date (value : string) : bool :=
  if negb (bytes_forallb is_ascii_byte value) || negb (String.length value =? 10)%nat then false
  else if negb (byte_is value 4 "-") || negb (byte_is value 7 "-")
          || negb (bytes_all (fun index byte =>
                     (index =? 4)%nat || (index =? 7)%nat || is_ascii_digit_byte byte) 0 value)
  then false
  else
    match parse_two_or_four_digits (slice value 0 4), parse_two_or_four_digits (slice value 5 7),
          parse_two_or_four_digits (slice value 8 10) with
    | Some year, Some month, Some day =>
        (0 <? year) && (0 <? month) && (month <=? 12) && (0 <? day)
        && (day <=? days_in_month year month)
    | _, _, _ => false
    end.

(** The index after the digits that start at [i]: the inner [while] loop. *)
Fixpoint leading_digits (s : string) : nat :=
  match s with
  | String a s => if is_ascii_digit_byte a then S (leading_digits s) else O
  | EmptyString => O
  end.

Definition skip_digits (value : string) (i : nat) : nat :=
  (i + leading_digits (slice value i (String.length value)))%nat.

Definition is_digit_pair_at_most (value : string) (from : nat) (bound : Z) : bool :=
  match parse_two_or_four_digits (slice value from (from + 2)) with
  | Some n => n <=? bound
  | None => false
  end.

Definition is_zone (value : string) (zone_start : nat) : bool :=
  match byte_at value zone_start with
  | Some a =>
      if Ascii.eqb a "Z" then (zone_start + 1 =? String.length value)%nat
      else if (Ascii.eqb a "+" || Ascii.eqb a "-") && (zone_start + 6 =? String.length value)%nat then
        byte_is value (zone_start + 3) ":"
        && digits_in value (zone_start + 1) (zone_start + 3)
        && digits_in value (zone_start + 4) (zone_start + 6)
        && is_digit_pair_at_most value (zone_start + 1) 23
        && is_digit_pair_at_most value (zone_start + 4) 59
      else false
  | None => false
  end.

Definition is_canonical_timestamp (value : string) : bool :=
  if negb (bytes_forallb is_ascii_byte value) || (String.length value <? 20)%nat
     || negb (is_canonical_date (slice value 0 10)) then false
  else if negb (byte_is value 10 "T") || negb (byte_is value 13 ":") || negb (byte_is value 16 ":")
          || negb (digits_in value 11 13) || negb (digits_in value 14 16)
          || negb (digits_in value 17 19) then false
  else
    match parse_two_or_four_digits (slice value 11 13), parse_two_or_four_digits (slice value 14 16),
          parse_two_or_four_digits (slice value 17 19) with
    | Some hour, Some minute, Some second =>
        if (23 <? hour) || (59 <? minute) || (59 <? second) then false
        else if byte_is value 19 "." then
          let zone_start := skip_digits value 20 in
          if (zone_start =? 20)%nat then false else is_zone value zone_start
        else is_zone value 19
    | _, _, _ => false
    end.

(** [str::trim_end_matches] for one byte. *)
Fixpoint trim_end_matches (a : ascii) (s : string) : string :=
  match s with
  | EmptyString => ""
  | String b s =>
      match trim_end_matches a s with
      | EmptyString => if Ascii.eqb b a then "" else String b ""
      | t => String b t
      end
  end.

Record civil := { c_year : Z; c_month : Z; c_day : Z; c_minutes : Z }.

(** [while utc_minutes < 0 { .. }]; [None] also stands for running out of
    fuel, which [to_utc_spec] excludes. *)
Fixpoint retreat_days (fuel : nat) (c : civil) : option civil :=
  match fuel with
  | O => None
  | S fuel =>
      if c_minutes c <? 0 then
        let m := c_minutes c + 24 * 60 in
        if 1 <? c_day c then
          retreat_days fuel {| c_year := c_year c; c_month := c_month c; c_day := c_day c - 1; c_minutes := m |}
        else if 1 <? c_month c then
          let month := c_month c - 1 in
          retreat_days fuel {| c_year := c_year c; c_month := month;
                               c_day := days_in_month (c_year c) month; c_minutes := m |}
        else
          year ← checked 0 u32_max (c_year c - 1);
          if year =? 0 then None
          else retreat_days fuel {| c_year := year; c_month := 12; c_day := 31; c_minutes := m |}
      else Some c
  end.

(** [while utc_minutes >= 24 * 60 { .. }]. *)
Fixpoint advance_days (fuel : nat) (c : civil) : option civil :=
  match fuel with
  | O => None
  | S fuel =>
      if 24 * 60 <=? c_minutes c then
        let m := c_minutes c - 24 * 60 in
        if c_day c <? days_in_month (c_year c) (c_month c) then
          advance_days fuel {| c_year := c_year c; c_month := c_month c; c_day := c_day c + 1; c_minutes := m |}
        else if c_month c <? 12 then
          advance_days fuel {| c_year := c_year c; c_month := c_month c + 1; c_day := 1; c_minutes := m |}
        else
          year ← checked 0 u32_max (c_year c + 1);
          advance_days fuel {| c_year := year; c_month := 1; c_day := 1; c_minutes := m |}
      else Some c
  end.

(** The most turns either loop takes: the offsets are below a day. *)
Definition day_turns : nat := 3.

Definition to_utc (c : civil) : option civil := retreat_days day_turns c ≫= advance_days day_turns.

Definition fraction_end (value : string) : nat :=
  if byte_is value 19 "." then skip_digits value 20 else 19.

Definition zone_sign (value : string) (zone_start : nat) : option Z :=
  if byte_is value zone_start "+" then Some 1
  else if byte_is value zone_start "-" then Some (-1) else None.

Definition canonical_timestamp_utc (value : string) : option string :=
  let zone_start := fraction_end value in
  let fraction := trim_end_matches "." (trim_end_matches "0" (slice value 19 zone_start)) in
  if byte_is value zone_start "Z" then Some (slice value 0 19 +:+ fraction +:+ "Z")
  else
    sign ← zone_sign value zone_start;
    offset_hour ← parse_two_or_four_digits (slice value (zone_start + 1) (zone_start + 3));
    offset_minute ← parse_two_or_four_digits (slice value (zone_start + 4) (zone_start + 6));
    year ← parse_two_or_four_digits (slice value 0 4);
    month ← parse_two_or_four_digits (slice value 5 7);
    day ← parse_two_or_four_digits (slice value 8 10);
    hour ← parse_two_or_four_digits (slice value 11 13);
    minute ← parse_two_or_four_digits (slice value 14 16);
    utc ← to_utc {| c_year := year; c_month := month; c_day := day;
                    c_minutes := hour * 60 + minute - sign * (offset_hour * 60 + offset_minute) |};
    Some (show_padded 4 (c_year utc) +:+ "-" +:+ show_padded 2 (c_month utc) +:+ "-"
          +:+ show_padded 2 (c_day utc) +:+ "T" +:+ show_padded 2 (c_minutes utc / 60) +:+ ":"
          +:+ show_padded 2 (c_minutes utc mod 60) +:+ ":" +:+ slice value 17 19
          +:+ fraction +:+ "Z").

Definition canonical_timestamp_fraction (value : string) : option string :=
  match byte_at value 19 with
  | Some a =>
      if Ascii.eqb a "Z" && (String.length value =? 20)%nat then Some ""
      else if Ascii.eqb a "." && byte_is value (String.length value - 1) "Z" then
        if (20 <=? String.length value - 1)%nat then Some (slice value 20 (String.length value - 1))
        else None
      else None
  | None => None
  end.

(** The loop over the fraction's digits, the shorter one padded with zeros. *)
Definition byte_or_zero (s : string) (index : nat) : Z :=
  match byte_at s index with Some a => byte_val a | None => 48 end.

Fixpoint compare_fractions (turns index : nat) (left right : string) : comparison :=
  match turns with
  | O => Eq
  | S turns =>
      match Z.compare (byte_or_zero left index) (byte_or_zero right index) with
      | Eq => compare_fractions turns (S index) left right
      | ordering => ordering
      end
  end.

Definition compare_canonical_timestamps (left right : string) : option comparison :=
  if (19 <=? String.length left)%nat && (19 <=? String.length right)%nat then
    match String.compare (slice left 0 19) (slice right 0 19) with
    | Eq =>
        l ← canonical_timestamp_fraction left;
        r ← canonical_timestamp_fraction right;
        Some (compare_fractions (Nat.max (String.length l) (String.length r)) 0 l r)
    | ordering => Some ordering
    end
  else None.


(** ** The calendar *)

Definition leap_days (year : Z) : Z := year / 4 - year / 100 + year / 400.

(** Days from the day before 0001-01-01. *)
Definition days_before_month (year month : Z) : Z :=
  fold_right Z.add 0
    (map (fun k => if k <? month then days_in_month year k else 0) [1; 2; 3; 4; 5; 6; 7; 8; 9; 10; 11; 12]).

Definition day_number (year month day : Z) : Z :=
  365 * (year - 1) + leap_days (year - 1) + days_before_month year month + day.

(** Minutes from the start of the day before 0001-01-01. *)
Definition instant (c : civil) : Z :=
  day_number (c_year c) (c_month c) (c_day c) * 1440 + c_minutes c.

Definition civil_wf (c : civil) : Prop :=
  1 <= c_year c /\ 1 <= c_month c <= 12
  /\ 1 <= c_day c <= days_in_month (c_year c) (c_month c).

Lemma month_cases m (P : Z -> Prop) :
  1 <= m <= 12 ->
  P 1 -> P 2 -> P 3 -> P 4 -> P 5 -> P 6 -> P 7 -> P 8 -> P 9 -> P 10 -> P 11 -> P 12 -> P m.
Proof.
  intros Hm. intros.
  assert (m = 1 \/ m = 2 \/ m = 3 \/ m = 4 \/ m = 5 \/ m = 6 \/ m = 7 \/ m = 8 \/ m = 9 \/ m = 10
          \/ m = 11 \/ m = 12) as Hc by lia.
  repeat (destruct Hc as [->|Hc]; [done|]). by subst.
Qed.

Lemma days_in_month_pos y m : 1 <= m <= 12 -> 28 <= days_in_month y m <= 31.
Proof.
  intros Hm. pattern m. apply month_cases; try done; cbv -[is_leap_year Z.le]; destruct (is_leap_year y); lia.
Qed.

(** The day after the last of a month is the first of the next one. *)
Lemma day_number_month y m :
  1 <= m < 12 -> day_number y (m + 1) 1 = day_number y m (days_in_month y m) + 1.
Proof.
  intros Hm. unfold day_number.
  enough (days_before_month y (m + 1) = days_before_month y m + days_in_month y m) by lia.
  assert (Hc : m <> 12) by lia. assert (Hm' : 1 <= m <= 12) by lia. revert Hc. pattern m.
  apply month_cases; try done; intros; cbv -[is_leap_year]; by destruct (is_leap_year y).
Qed.

Lemma leap_days_step y : leap_days y = leap_days (y - 1) + if is_leap_year y then 1 else 0.
Proof.
  unfold leap_days, is_leap_year, is_multiple_of.
  destruct (Z.eqb_spec (y mod 400) 0), (Z.eqb_spec (y mod 4) 0), (Z.eqb_spec (y mod 100) 0); cbn;
    Z.to_euclidean_division_equations; lia.
Qed.

Lemma day_number_year y : day_number (y + 1) 1 1 = day_number y 12 31 + 1.
Proof.
  unfold day_number. replace (y + 1 - 1) with y by lia. rewrite (leap_days_step y).
  replace (days_before_month (y + 1) 1) with 0 by done.
  enough (days_before_month y 12 = 334 + if is_leap_year y then 1 else 0) as -> by lia.
  cbv -[is_leap_year]. by destruct (is_leap_year y).
Qed.

Lemma retreat_days_done n c : 0 <= c_minutes c -> retreat_days (S n) c = Some c.
Proof. intros H. cbn. by destruct (Z.ltb_spec (c_minutes c) 0); [lia|]. Qed.

Lemma advance_days_done n c : c_minutes c < 1440 -> advance_days (S n) c = Some c.
Proof. intros H. cbn -[Z.mul]. by destruct (Z.leb_spec (24 * 60) (c_minutes c)); [lia|]. Qed.

(** What a loop keeps: the date stays valid and the instant the same. *)
Definition same_instant (c u : civil) : Prop := civil_wf u /\ instant u = instant c.

Lemma retreat_days_spec n c :
  civil_wf c -> -1440 <= c_minutes c -> c_year c <= u32_max ->
  match retreat_days (S (S n)) c with
  | Some u => same_instant c u /\ 0 <= c_minutes u <= Z.max (c_minutes c) 1439 /\ c_year u <= c_year c
  | None => instant c < 1440
  end.
Proof.
  intros Hwf Hm Hy. destruct (Z.leb_spec 0 (c_minutes c)) as [Hpos|Hneg].
  { rewrite retreat_days_done by done. unfold same_instant. split_and!; try done; lia. }
  destruct c as [y m d mi], Hwf as (Hy1 & Hm1 & Hd1). unfold same_instant, civil_wf, instant.
  cbn [c_year c_month c_day c_minutes] in *.
  remember (S n) as k eqn:Hk. cbn -[Z.add Z.mul]. destruct (Z.ltb_spec mi 0); [|lia].
  destruct (Z.ltb_spec 1 d) as [Hd|Hd]; [|destruct (Z.ltb_spec 1 m) as [Hmm|Hmm]].
  - subst k. rewrite retreat_days_done by (cbn; lia). cbn [c_year c_month c_day c_minutes].
    unfold day_number. split_and!; lia.
  - subst k. rewrite retreat_days_done by (cbn; lia). cbn [c_year c_month c_day c_minutes].
    pose proof (day_number_month y (m - 1) ltac:(lia)) as Hdn.
    rewrite Z.sub_add in Hdn. replace d with 1 by lia.
    pose proof (days_in_month_pos y (m - 1) ltac:(lia)). split_and!; lia.
  - assert (m = 1) as -> by lia. assert (d = 1) as -> by lia. unfold checked.
    rewrite (proj2 (in_range_spec _ _ _)) by lia. cbn -[Z.add Z.mul Z.sub].
    destruct (Z.eqb_spec (y - 1) 0) as [Hz|Hz].
    + assert (y = 1) as -> by lia. change (day_number 1 1 1) with 1. lia.
    + subst k. rewrite retreat_days_done by (cbn; lia). cbn [c_year c_month c_day c_minutes].
      pose proof (day_number_year (y - 1)) as Hdn. rewrite Z.sub_add in Hdn.
      change (days_in_month (y - 1) 12) with 31. split_and!; lia.
Qed.

Lemma advance_days_spec n c :
  civil_wf c -> c_minutes c < 2880 -> c_year c < u32_max ->
  exists u, advance_days (S (S n)) c = Some u
  /\ same_instant c u /\ Z.min (c_minutes c) 0 <= c_minutes u < 1440 /\ c_year u <= c_year c + 1.
Proof.
  intros Hwf Hm Hy. destruct (Z.ltb_spec (c_minutes c) 1440) as [Hlt|Hge].
  { exists c. rewrite advance_days_done by done. unfold same_instant. split_and!; try done; lia. }
  destruct c as [y m d mi], Hwf as (Hy1 & Hm1 & Hd1). unfold same_instant, civil_wf, instant.
  cbn [c_year c_month c_day c_minutes] in *.
  remember (S n) as k eqn:Hk. cbn -[Z.add Z.mul]. destruct (Z.leb_spec (24 * 60) mi); [|lia].
  destruct (Z.ltb_spec d (days_in_month y m)) as [Hd|Hd]; [|destruct (Z.ltb_spec m 12) as [Hmm|Hmm]].
  - subst k. rewrite advance_days_done by (cbn; lia). eexists; split; [done|].
    cbn [c_year c_month c_day c_minutes]. unfold day_number. split_and!; lia.
  - subst k. rewrite advance_days_done by (cbn; lia). eexists; split; [done|].
    cbn [c_year c_month c_day c_minutes]. rewrite day_number_month by lia.
    replace d with (days_in_month y m) by lia.
    pose proof (days_in_month_pos y (m + 1) ltac:(lia)). split_and!; lia.
  - assert (m = 12) as -> by lia. change (days_in_month y 12) with 31 in *.
    assert (d = 31) as -> by lia. unfold checked.
    rewrite (proj2 (in_range_spec _ _ _)) by lia. cbn -[Z.add Z.mul Z.sub].
    subst k. rewrite advance_days_done by (cbn; lia). eexists; split; [done|].
    cbn [c_year c_month c_day c_minutes]. rewrite day_number_year.
    change (days_in_month (y + 1) 1) with 31. split_and!; lia.
Qed.

(** The calendar starts on day 1. *)
Lemma day_number_pos y m d : 1 <= y -> 1 <= m <= 12 -> 1 <= d -> 1 <= day_number y m d.
Proof.
  intros Hy Hm Hd. unfold day_number.
  assert (0 <= leap_days (y - 1)) by (unfold leap_days; Z.to_euclidean_division_equations; lia).
  enough (0 <= days_before_month y m) by lia.
  pattern m. apply month_cases; try done; cbv -[is_leap_year Z.le]; destruct (is_leap_year y); lia.
Qed.

Lemma instant_from_start c : civil_wf c -> 0 <= c_minutes c -> 1440 <= instant c.
Proof.
  intros (Hy & Hm & Hd) Hmi. unfold instant.
  pose proof (day_number_pos (c_year c) (c_month c) (c_day c)). lia.
Qed.

Lemma to_utc_keeps c :
  civil_wf c -> c_year c <= 9999 -> -1440 < c_minutes c < 2880 ->
  match to_utc c with
  | Some u => civil_wf u /\ c_year u <= 10000 /\ 0 <= c_minutes u < 1440 /\ instant u = instant c
              /\ 1440 <= instant c
  | None => instant c < 1440
  end.
Proof.
  intros Hwf Hy Hm. unfold to_utc, day_turns.
  pose proof (retreat_days_spec 1 c Hwf ltac:(lia) ltac:(unfold u32_max; lia)) as Hr.
  destruct (retreat_days 3 c) as [v|]; [|done]. destruct Hr as ([Hv Hi] & Hmv & Hyv).
  destruct (advance_days_spec 1 v Hv ltac:(lia) ltac:(unfold u32_max; lia))
    as (u & Hu & [Huwf Hui] & Hmu & Hyu). cbn [mbind option_bind]. rewrite Hu.
  split_and!; try done; try lia. rewrite <-Hi, <-Hui. apply instant_from_start; [done|lia].
Qed.

(** The shift to UTC keeps the instant: its loops end within their
    bound, the date stays a calendar date and the time of day is below 24 hours;
    it fails exactly for the instants before 0001-01-01T00:00Z.  The year may
    become 10000. *)
Theorem to_utc_spec c :
  civil_wf c -> c_year c <= 9999 -> -1440 < c_minutes c < 2880 ->
  match to_utc c with
  | Some u => civil_wf u /\ c_year u <= 10000 /\ 0 <= c_minutes u < 1440 /\ instant u = instant c
              /\ 1440 <= instant c
  | None => instant c < 1440
  end.
Proof. apply to_utc_keeps. Qed.

Lemma to_utc_witness :
  to_utc {| c_year := 2024; c_month := 3; c_day := 1; c_minutes := -30 |}
  = Some {| c_year := 2024; c_month := 2; c_day := 29; c_minutes := 1410 |}
  /\ instant {| c_year := 2024; c_month := 2; c_day := 29; c_minutes := 1410 |}
     = instant {| c_year := 2024; c_month := 3; c_day := 1; c_minutes := -30 |}.
Proof.
  split; [reflexivity|].
  refine (proj1 (proj2 (proj2 (proj2
    (to_utc_spec {| c_year := 2024; c_month := 3; c_day := 1; c_minutes := -30 |} _ _ _)))));
    unfold civil_wf; cbn; lia.
Defined.

(** ** The text of a timestamp *)

Lemma slice_length s from to :
  (from <= to <= String.length s)%nat -> String.length (slice s from to) = (to - from)%nat.
Proof.
  unfold slice. revert from to. induction s as [|a s IH]; intros from to H; cbn in *.
  - assert (from = 0 /\ to = 0)%nat as [-> ->] by lia. done.
  - destruct from as [|from]; [destruct to as [|to]; [done|]|destruct to as [|to]; [lia|]].
    + cbn. specialize (IH 0%nat to ltac:(lia)). rewrite Nat.sub_0_r in *. by rewrite IH.
    + cbn [substring Nat.sub]. apply IH. lia.
Qed.

Lemma substring_nil i n : substring i n "" = "".
Proof. by destruct i, n. Qed.

Lemma slice_slice s n from to :
  (from <= to <= n)%nat -> slice (slice s 0 n) from to = slice s from to.
Proof.
  unfold slice. rewrite Nat.sub_0_r. revert n from to.
  induction s as [|a s IH]; intros n from to H.
  - by rewrite !substring_nil.
  - destruct n as [|n]; [assert (from = 0 /\ to = 0)%nat as [-> ->] by lia; done|]. cbn.
    destruct from as [|from]; cbn.
    + destruct to as [|to]; cbn; [done|]. f_equal. specialize (IH n 0%nat to ltac:(lia)).
      by rewrite Nat.sub_0_r in IH.
    + destruct to as [|to]; [lia|]. cbn [Nat.sub]. apply IH. lia.
Qed.

Lemma byte_at_app s t : byte_at (s +:+ t) (String.length s) = byte_at t 0.
Proof. induction s as [|a s IH]; [done|]. rewrite str_app_cons. cbn. apply IH. Qed.

Lemma byte_at_app_l s t i : (i < String.length s)%nat -> byte_at (s +:+ t) i = byte_at s i.
Proof.
  revert i. induction s as [|a s IH]; intros i Hi; [cbn in Hi; lia|]. rewrite str_app_cons.
  destruct i as [|i]; [done|]. cbn in *. apply IH. lia.
Qed.

Lemma byte_at_digit s i a :
  bytes_forallb is_ascii_digit_byte s = true -> byte_at s i = Some a -> is_ascii_digit_byte a = true.
Proof.
  revert i. induction s as [|b s IH]; intros i; [by destruct i|]. cbn.
  intros [Hb Hs]%andb_true_iff. destruct i as [|i]; [by intros [= <-]|apply IH, Hs].
Qed.

(** Trimming keeps a prefix. *)
Lemma trim_end_prefix a s : exists t, s = trim_end_matches a s +:+ t.
Proof.
  induction s as [|b s [t Ht]]; [by exists ""|]. cbn.
  destruct (trim_end_matches a s) as [|c u].
  - destruct (Ascii.eqb b a); [by exists (String b s)|]. exists s. done.
  - exists t. rewrite Ht at 1. done.
Qed.

(** The fraction of the printed timestamp: nothing, or a point and more. *)
Definition is_fraction (f : string) : Prop := f = "" \/ exists x, f = String "." x.

Lemma trim_is_fraction a s : is_fraction s -> is_fraction (trim_end_matches a s).
Proof.
  intros Hs. destruct (trim_end_prefix a s) as [t Ht].
  destruct (trim_end_matches a s) as [|b u] eqn:E; [by left|]. right. exists u. f_equal.
  destruct Hs as [Hs|[x Hs]]; rewrite Hs in Ht; [done|].
  rewrite str_app_cons in Ht. by injection Ht as <- _.
Qed.

Lemma slice_first s i j a :
  byte_is s i a = true -> (i < j)%nat -> exists x, slice s i j = String a x.
Proof.
  unfold byte_is, byte_at, slice. revert i j. induction s as [|b s IH]; intros i j; [done|].
  destruct i as [|i]; cbn.
  - intros ->%Ascii.eqb_eq Hj. destruct j as [|j]; [lia|]. cbn. eauto.
  - intros Hb Hj. destruct j as [|j]; [lia|]. apply (IH i j Hb). lia.
Qed.

Lemma fraction_is_fraction s :
  is_fraction (trim_end_matches "." (trim_end_matches "0" (slice s 19 (fraction_end s)))).
Proof.
  do 2 apply trim_is_fraction. unfold fraction_end.
  destruct (byte_is s 19 ".") eqn:E.
  - right. apply slice_first; [done|]. unfold skip_digits. lia.
  - left. unfold slice. clear E. generalize 19%nat. intros n. rewrite Nat.sub_diag. revert s.
    induction n as [|n IH]; intros [|a s]; cbn; done || apply IH.
Qed.

Definition is_utc_timestamp (s : string) : Prop :=
  (19 <= String.length s)%nat /\ canonical_timestamp_fraction s <> None.

Lemma is_utc_timestamp_intro p f :
  String.length p = 19%nat -> is_fraction f -> is_utc_timestamp (p +:+ f +:+ "Z").
Proof.
  intros Hp Hf. split; [rewrite !str_length_app; lia|].
  unfold canonical_timestamp_fraction. rewrite <-Hp, byte_at_app, Hp.
  destruct Hf as [->|[x ->]].
  - rewrite str_app_nil_l, str_length_app, Hp. done.
  - rewrite str_app_cons. cbn [byte_at String.get Ascii.eqb Bool.eqb andb].
    rewrite !str_length_app, Hp. cbn [String.length]. rewrite str_length_app. cbn [String.length].
    assert (Hb : byte_is (p +:+ String "." (x +:+ "Z")) (19 + S (String.length x + 1) - 1) "Z" = true).
    { unfold byte_is. replace (19 + S (String.length x + 1) - 1)%nat with (String.length (p +:+ String "." x))
        by (rewrite str_length_app; cbn [String.length]; lia).
      change (String "." (x +:+ "Z")) with (String "." x +:+ "Z"). rewrite <-str_app_assoc, byte_at_app. done. }
    rewrite Hb. destruct (Nat.leb_spec 20 (19 + S (String.length x + 1) - 1)); [done|lia].
Qed.
(** The parts of a canonical date and timestamp, as numbers. *)
Lemma is_canonical_date_parts s :
  is_canonical_date s = true ->
  String.length s = 10%nat /\
  exists year month day,
    parse_two_or_four_digits (slice s 0 4) = Some year
    /\ parse_two_or_four_digits (slice s 5 7) = Some month
    /\ parse_two_or_four_digits (slice s 8 10) = Some day
    /\ 1 <= year <= 9999 /\ 1 <= month <= 12 /\ 1 <= day <= days_in_month year month.
Proof.
  unfold is_canonical_date. destruct (_ || _)%bool eqn:Hl; [done|].
  apply orb_false_iff in Hl as [_ Hl%negb_false_iff%Nat.eqb_eq]. split; [done|].
  destruct (_ || _)%bool; [done|].
  destruct (parse_two_or_four_digits (slice s 0 4)) as [y|] eqn:Hy; [|done].
  destruct (parse_two_or_four_digits (slice s 5 7)) as [m|]; [|done].
  destruct (parse_two_or_four_digits (slice s 8 10)) as [d|]; [|done].
  exists y, m, d. apply parse_unsigned_length in Hy.
  rewrite slice_length in Hy by lia. change (10 ^ Z.of_nat (4 - 0)) with 10000 in Hy.
  split_and!; try done; lia.
Qed.

Lemma is_canonical_timestamp_parts s :
  is_canonical_timestamp s = true ->
  (20 <= String.length s)%nat /\ is_canonical_date (slice s 0 10) = true
  /\ is_zone s (fraction_end s) = true
  /\ exists hour minute,
    parse_two_or_four_digits (slice s 11 13) = Some hour
    /\ parse_two_or_four_digits (slice s 14 16) = Some minute
    /\ 0 <= hour <= 23 /\ 0 <= minute <= 59.
Proof.
  unfold is_canonical_timestamp, fraction_end.
  destruct (_ || _)%bool eqn:Hl; [done|].
  apply orb_false_iff in Hl as [[_ Hl%Nat.ltb_ge]%orb_false_iff Hd%negb_false_iff].
  destruct (_ || _)%bool; [done|].
  destruct (parse_two_or_four_digits (slice s 11 13)) as [h|] eqn:Hh; [|done].
  destruct (parse_two_or_four_digits (slice s 14 16)) as [mi|] eqn:Hm; [|done].
  destruct (parse_two_or_four_digits (slice s 17 19)) as [sec|]; [|done].
  destruct (_ || _)%bool eqn:Hb; [done|]. apply parse_unsigned_length in Hh, Hm.
  intros Hz. split_and!; try done; [|exists h, mi; split_and!; done || lia].
  destruct (byte_is s 19 "."); [|done]. by destruct (_ =? 20)%nat.
Qed.

Lemma is_digit_pair_parts s from bound :
  is_digit_pair_at_most s from bound = true ->
  exists n, parse_two_or_four_digits (slice s from (from + 2)) = Some n /\ 0 <= n <= bound.
Proof.
  unfold is_digit_pair_at_most. destruct (parse_two_or_four_digits _) as [n|] eqn:E; [|done].
  apply parse_unsigned_length in E. intros H. exists n. split; [done|lia].
Qed.

(** An offset is below a day. *)
Lemma zone_offset_parts s ze sign oh om :
  is_zone s ze = true -> byte_is s ze "Z" = false -> zone_sign s ze = Some sign ->
  parse_two_or_four_digits (slice s (ze + 1) (ze + 3)) = Some oh ->
  parse_two_or_four_digits (slice s (ze + 4) (ze + 6)) = Some om ->
  0 <= oh <= 23 /\ 0 <= om <= 59 /\ (sign = 1 \/ sign = -1).
Proof.
  unfold is_zone, zone_sign, byte_is. intros Hzone HZ Hsign Hoh Hom.
  destruct (byte_at s ze) as [a|]; [|done]. rewrite HZ in Hzone.
  destruct (_ && _)%bool in Hzone; [|done].
  apply andb_true_iff in Hzone as [Hzone Hp2]. apply andb_true_iff in Hzone as [_ Hp1].
  apply is_digit_pair_parts in Hp1 as (oh' & Hoh' & ?), Hp2 as (om' & Hom' & ?).
  replace (ze + 1 + 2)%nat with (ze + 3)%nat in Hoh' by lia.
  replace (ze + 4 + 2)%nat with (ze + 6)%nat in Hom' by lia.
  rewrite Hoh in Hoh'. rewrite Hom in Hom'. injection Hoh' as ->. injection Hom' as ->.
  split_and!; try lia. destruct (Ascii.eqb a "+"); [|destruct (Ascii.eqb a "-")];
    first [discriminate|injection Hsign as <-; lia].
Qed.

(** A local time of day and an offset below a day leave [to_utc] within its
    bounds. *)
Lemma canonical_timestamp_utc_shape s u :
  is_canonical_timestamp s = true -> canonical_timestamp_utc s = Some u ->
  byte_is u 4 "-" = true -> is_utc_timestamp u.
Proof.
  intros (Hlen & Hdate & Hzone & hour & minute & Hh & Hmi & Hhb & Hmb)%is_canonical_timestamp_parts.
  destruct (is_canonical_date_parts _ Hdate) as (_ & y & m & d & Hy & Hm & Hd & Hyb & Hmob & Hdb).
  rewrite slice_slice in Hy, Hm, Hd by lia.
  unfold canonical_timestamp_utc. pose proof (fraction_is_fraction s) as Hf.
  set (f := trim_end_matches "." _) in *. set (ze := fraction_end s) in *.
  destruct (byte_is s ze "Z") eqn:HZ.
  { intros [= <-] _. apply is_utc_timestamp_intro; [|done]. apply slice_length. lia. }
  rewrite Hy, Hm, Hd, Hh, Hmi. intros H Hdash.
  apply bind_Some in H as (sign & Hsign & H).
  apply bind_Some in H as (oh & Hoh & H). apply bind_Some in H as (om & Hom & H).
  cbn [mbind option_bind] in H. apply bind_Some in H as (utc & Hutc & [= <-]).
  pose proof (zone_offset_parts _ _ _ _ _ Hzone HZ Hsign Hoh Hom) as Hob.
  pose proof (to_utc_keeps {| c_year := y; c_month := m; c_day := d;
    c_minutes := hour * 60 + minute - sign * (oh * 60 + om) |}) as Hspec.
  unfold civil_wf in Hspec. cbn [c_year c_month c_day c_minutes] in Hspec.
  specialize (Hspec ltac:(lia) ltac:(lia) ltac:(lia)). rewrite Hutc in Hspec.
  destruct Hspec as ((Hy1 & Hm1 & Hd1) & Hy2 & Hmin & _ & _).
  pose proof (days_in_month_pos (c_year utc) (c_month utc) Hm1).
  assert (Hyl : String.length (show_padded 4 (c_year utc)) = 4%nat).
  { pose proof (show_padded_length 4 (c_year utc) ltac:(lia)).
    destruct (Nat.eq_dec (String.length (show_padded 4 (c_year utc))) 4%nat) as [|Hne]; [done|exfalso].
    unfold byte_is in Hdash. rewrite byte_at_app_l in Hdash by lia.
    destruct (byte_at (show_padded 4 (c_year utc)) 4) as [a|] eqn:Ea; [|done].
    apply byte_at_digit in Ea; [|apply show_padded_digits; lia].
    apply Ascii.eqb_eq in Hdash as ->. by vm_compute in Ea. }
  rewrite <-!str_app_assoc, str_app_assoc. apply is_utc_timestamp_intro; [|done].
  assert (Htwo : forall n, 0 <= n < 100 -> String.length (show_padded 2 n) = 2%nat)
    by (intros; apply show_padded_exact; [done|lia]).
  rewrite !str_length_app, !Htwo, Hyl, slice_length; [done|lia| | |lia|lia].
  - pose proof (Z.mod_pos_bound (c_minutes utc) 60). lia.
  - split; [apply Z.div_pos; lia|]. apply Z.div_lt_upper_bound; lia.
Qed.

(** a local time in the last hours of year 9999 west of UTC is moved to
    year 10000, whose text has one byte more; compared as text it is then before
    every earlier year. *)
Theorem year_ten_thousand_sorts_first :
  is_canonical_timestamp "9999-12-31T23:30:00-01:00" = true
  /\ canonical_timestamp_utc "9999-12-31T23:30:00-01:00" = Some "10000-01-01T00:30:00Z"
  /\ canonical_timestamp_utc "2024-01-01T00:00:00Z" = Some "2024-01-01T00:00:00Z"
  /\ compare_canonical_timestamps "10000-01-01T00:30:00Z" "2024-01-01T00:00:00Z" = Some Lt
  /\ compare_canonical_timestamps "10000-01-01T00:30:00Z" "10000-01-01T00:30:00Z" = None.
Proof. repeat split; vm_compute; reflexivity. Qed.
