(* ===== verification/RulesInstant.v ===== *)
(** * Timestamps compare chronologically ([compare_canonical_timestamps] in
    [crates/rules/src/eval.rs])

    Two timestamps in UTC are compared as texts: nineteen bytes of fixed width,
    then the digits of their fractions.  The order of the texts is that of the
    moments they stand for, up to the year 9999. *)
From Stdlib Require Import QArith.
From S2P Require Import Prelude RulesTime.
Open Scope Z_scope.

(** ** Texts of digits *)

Lemma string_compare_app a b s t :
  String.length a = String.length b ->
  String.compare (a +:+ s) (b +:+ t)
  = match String.compare a b with Eq => String.compare s t | o => o end.
Proof.
  revert b. induction a as [|x a IH]; intros [|y b] Hl; try done. rewrite !str_app_cons. cbn.
  destruct (Ascii.compare x y); [|done|done]. apply IH. by injection Hl.
Qed.

Lemma ascii_compare_val a b : Ascii.compare a b = Z.compare (byte_val a) (byte_val b).
Proof. unfold Ascii.compare, byte_val. by rewrite N2Z.inj_compare. Qed.

Lemma digits_compare s t :
  bytes_forallb is_ascii_digit_byte s = true -> bytes_forallb is_ascii_digit_byte t = true ->
  String.length s = String.length t ->
  String.compare s t = Z.compare (digits_value 0 s) (digits_value 0 t).
Proof.
  revert t. induction s as [|a s IH]; intros [|b t] Hs Ht Hl; try done.
  cbn [bytes_forallb] in Hs, Ht. apply andb_true_iff in Hs as [Ha Hs], Ht as [Hb Ht].
  injection Hl as Hl. cbn [String.compare digits_value]. rewrite !(digits_value_acc (0 * 10 + _)), <-Hl, IH by done.
  pose proof (digits_value_bound _ Hs). pose proof (digits_value_bound _ Ht) as Hbt. rewrite <-Hl in Hbt.
  rewrite ascii_compare_val. unfold digit_val in *.
  set (p := 10 ^ Z.of_nat (String.length s)) in *. symmetry.
  destruct (Z.compare_spec (byte_val a) (byte_val b)) as [E|E|E].
  - rewrite E. destruct (Z.compare_spec (digits_value 0 s) (digits_value 0 t));
      [apply Z.compare_eq_iff|apply Z.compare_lt_iff|apply Z.compare_gt_iff]; lia.
  - apply Z.compare_lt_iff. nia.
  - apply Z.compare_gt_iff. nia.
Qed.

(** Lexicographic combination of comparisons. *)
Definition then_compare (c d : comparison) : comparison := match c with Eq => d | o => o end.

Lemma compare_digits_then a b s t :
  bytes_forallb is_ascii_digit_byte a = true -> bytes_forallb is_ascii_digit_byte b = true ->
  String.length a = String.length b ->
  String.compare (a +:+ s) (b +:+ t)
  = then_compare (Z.compare (digits_value 0 a) (digits_value 0 b)) (String.compare s t).
Proof. intros Ha Hb Hl. rewrite string_compare_app, digits_compare by done. by destruct (Z.compare _ _). Qed.

Lemma compare_byte_then x s t : String.compare (String x s) (String x t) = String.compare s t.
Proof. cbn. by rewrite ascii_compare_val, Z.compare_refl. Qed.

(** ** The calendar is monotone *)

Lemma days_before_month_step y m m' :
  1 <= m < m' -> m' <= 12 -> days_before_month y m + days_in_month y m <= days_before_month y m'.
Proof.
  intros Hm Hm'. revert Hm. assert (Hr : 1 <= m' <= 12 \/ m' < 1) by lia. destruct Hr as [Hr|]; [|lia].
  intros Hm. assert (Hrm : 1 <= m <= 12) by lia. revert Hm. pattern m'. apply month_cases; [done|..]; clear m' Hm' Hr;
    pattern m; (apply month_cases; [done|..]); intros Hm; try lia; cbv -[is_leap_year Z.le];
    destruct (is_leap_year y); lia.
Qed.

Lemma leap_days_mono y k : 0 <= k -> leap_days y <= leap_days (y + k).
Proof.
  intros Hk. pattern k. apply natlike_ind; [by rewrite Z.add_0_r| |done].
  intros n Hn IH. rewrite (leap_days_step (y + Z.succ n)). replace (y + Z.succ n - 1) with (y + n) by lia.
  destruct (is_leap_year _); lia.
Qed.

Lemma day_number_below y m d :
  1 <= m <= 12 -> 1 <= d <= days_in_month y m -> day_number y 1 1 <= day_number y m d < day_number (y + 1) 1 1.
Proof.
  intros Hm Hd. pose proof (day_number_year y). unfold day_number in *.
  change (days_before_month y 1) with 0 in *.
  assert (0 <= days_before_month y m) by (pose proof (days_in_month_pos y 1 ltac:(lia));
    destruct (Z.eq_dec m 1) as [->|]; [done|]; pose proof (days_before_month_step y 1 m ltac:(lia) ltac:(lia)) as Hs;
    change (days_before_month y 1) with 0 in Hs; lia).
  destruct (Z.eq_dec m 12) as [->|]; [change (days_in_month y 12) with 31 in *; lia|].
  pose proof (days_before_month_step y m 12 ltac:(lia) ltac:(lia)). lia.
Qed.

Lemma day_number_compare y m d y' m' d' :
  1 <= m <= 12 -> 1 <= d <= days_in_month y m -> 1 <= m' <= 12 -> 1 <= d' <= days_in_month y' m' ->
  Z.compare (day_number y m d) (day_number y' m' d')
  = then_compare (Z.compare y y') (then_compare (Z.compare m m') (Z.compare d d')).
Proof.
  assert (Hlt : forall y m d y' m' d', 1 <= m <= 12 -> 1 <= d <= days_in_month y m -> 1 <= m' <= 12 ->
    1 <= d' <= days_in_month y' m' -> y < y' \/ (y = y' /\ m < m') -> day_number y m d < day_number y' m' d').
  { clear. intros y m d y' m' d' Hm Hd Hm' Hd' [Hy|[-> Hmm]].
    - pose proof (day_number_below y m d Hm Hd) as [_ H1]. pose proof (day_number_below y' m' d' Hm' Hd') as [H2 _].
      pose proof (leap_days_mono y (y' - 1 - y) ltac:(lia)) as Hl. unfold day_number in *.
      change (days_before_month y' 1) with 0 in *. change (days_before_month (y + 1) 1) with 0 in *.
      replace (y + (y' - 1 - y)) with (y' - 1) in Hl by lia. replace (y + 1 - 1) with y in * by lia. lia.
    - unfold day_number. pose proof (days_before_month_step y' m m' ltac:(lia) ltac:(lia)). lia. }
  intros Hm Hd Hm' Hd'. destruct (Z.compare_spec y y') as [Ey|Ey|Ey]; cbn [then_compare].
  - subst y'. destruct (Z.compare_spec m m') as [Em|Em|Em]; cbn [then_compare].
    + subst m'. unfold day_number. destruct (Z.compare_spec d d');
        [apply Z.compare_eq_iff|apply Z.compare_lt_iff|apply Z.compare_gt_iff]; lia.
    + apply Z.compare_lt_iff, Hlt; auto.
    + apply Z.compare_gt_iff, Hlt; auto.
  - apply Z.compare_lt_iff, Hlt; auto.
  - apply Z.compare_gt_iff, Hlt; auto.
Qed.

(** ** Fractions *)

Definition fraction_value (f : string) : Q :=
  Qmake (digits_value 0 f) (Z.to_pos (10 ^ Z.of_nat (String.length f))).

(** The first [k] digits of a fraction, padded with zeros, as a number. *)
Fixpoint padded_value (k : nat) (f : string) : Z :=
  match k with
  | O => 0
  | S k =>
      match f with
      | EmptyString => 0
      | String a f => digit_val a * 10 ^ Z.of_nat k + padded_value k f
      end
  end.

Lemma pow10_nat_pos n : 0 < 10 ^ Z.of_nat n.
Proof. apply Z.pow_pos_nonneg; lia. Qed.

Lemma padded_value_nil k : padded_value k "" = 0.
Proof. by destruct k. Qed.

Lemma padded_value_bound k f :
  bytes_forallb is_ascii_digit_byte f = true -> 0 <= padded_value k f < 10 ^ Z.of_nat k.
Proof.
  revert f. induction k as [|k IH]; intros f Hf; [cbn; lia|]. pose proof (pow10_nat_pos (S k)).
  destruct f as [|a f]; [cbn [padded_value]; lia|]. cbn [bytes_forallb padded_value] in *.
  apply andb_true_iff in Hf as [Ha%is_ascii_digit_byte_spec Hf]. specialize (IH f Hf).
  rewrite Nat2Z.inj_succ, Z.pow_succ_r by lia. nia.
Qed.

Lemma padded_value_digits k f :
  (String.length f <= k)%nat ->
  padded_value k f = digits_value 0 f * 10 ^ (Z.of_nat k - Z.of_nat (String.length f)).
Proof.
  revert f. induction k as [|k IH]; intros [|a f] Hl; cbn [String.length padded_value] in *; try (cbn; lia).
  rewrite IH by lia. cbn [digits_value]. rewrite (digits_value_acc (0 * 10 + _)), Nat2Z.inj_succ.
  replace (Z.succ (Z.of_nat k) - Z.of_nat (S (String.length f)))
    with (Z.of_nat k - Z.of_nat (String.length f)) by lia.
  replace (Z.of_nat k) with (Z.of_nat (String.length f) + (Z.of_nat k - Z.of_nat (String.length f))) at 1 by lia.
  rewrite Z.pow_add_r by lia. ring.
Qed.

Lemma byte_or_zero_cons a s i : byte_or_zero (String a s) (S i) = byte_or_zero s i.
Proof. reflexivity. Qed.

Definition tail (s : string) : string := match s with String _ s => s | EmptyString => "" end.

Lemma compare_fractions_tail k i l r :
  compare_fractions k (S i) l r = compare_fractions k i (tail l) (tail r).
Proof.
  assert (Hb : forall s i, byte_or_zero s (S i) = byte_or_zero (tail s) i) by (by intros [|a s] j).
  revert i. induction k as [|k IH]; intros i; [done|]. cbn [compare_fractions]. by rewrite !Hb, IH.
Qed.

Lemma compare_fractions_padded k l r :
  bytes_forallb is_ascii_digit_byte l = true -> bytes_forallb is_ascii_digit_byte r = true ->
  compare_fractions k 0 l r = Z.compare (padded_value k l) (padded_value k r).
Proof.
  assert (Hhead : forall k f, padded_value (S k) f = (byte_or_zero f 0 - 48) * 10 ^ Z.of_nat k + padded_value k (tail f)).
  { intros j [|a f]; cbn [padded_value tail byte_or_zero byte_at String.get]; [rewrite padded_value_nil; lia|done]. }
  assert (Htail : forall f, bytes_forallb is_ascii_digit_byte f = true ->
    bytes_forallb is_ascii_digit_byte (tail f) = true) by (intros [|a f]; cbn; [done|by intros [_ ?]%andb_true_iff]).
  revert l r. induction k as [|k IH]; intros l r Hl Hr; [done|]. cbn [compare_fractions].
  rewrite compare_fractions_tail, IH, !Hhead by auto.
  pose proof (padded_value_bound k (tail l) (Htail _ Hl)). pose proof (padded_value_bound k (tail r) (Htail _ Hr)).
  destruct (Z.compare_spec (byte_or_zero l 0) (byte_or_zero r 0)) as [E|E|E]; symmetry.
  - rewrite E. destruct (Z.compare_spec (padded_value k (tail l)) (padded_value k (tail r)));
      [apply Z.compare_eq_iff|apply Z.compare_lt_iff|apply Z.compare_gt_iff]; lia.
  - apply Z.compare_lt_iff. nia.
  - apply Z.compare_gt_iff. nia.
Qed.

(** A fraction is less than one, and padding does not change its value. *)
Lemma fraction_value_padded k f :
  (String.length f <= k)%nat -> (fraction_value f == Qmake (padded_value k f) (Z.to_pos (10 ^ Z.of_nat k)))%Q.
Proof.
  intros Hl. unfold fraction_value, Qeq. cbn [Qnum Qden]. rewrite !Z2Pos.id by apply pow10_nat_pos.
  rewrite padded_value_digits by done. rewrite <-Z.mul_assoc, <-Z.pow_add_r by lia. do 2 f_equal. lia.
Qed.

(** ** Moments *)

(** Seconds from the start of the day before 0001-01-01. *)
Definition moment (c : civil) (seconds : Z) (f : string) : Q :=
  (inject_Z (instant c * 60 + seconds) + fraction_value f)%Q.

Lemma compare_mixed k a b x y :
  0 <= x < 10 ^ Z.of_nat k -> 0 <= y < 10 ^ Z.of_nat k ->
  Qcompare (inject_Z a + Qmake x (Z.to_pos (10 ^ Z.of_nat k))) (inject_Z b + Qmake y (Z.to_pos (10 ^ Z.of_nat k)))
  = then_compare (Z.compare a b) (Z.compare x y).
Proof.
  intros Hx Hy. pose proof (pow10_nat_pos k). unfold Qcompare, Qplus, inject_Z. cbn [Qnum Qden].
  rewrite !Pos.mul_1_l, !Z.mul_1_r, Z2Pos.id by done. set (p := 10 ^ Z.of_nat k) in *.
  destruct (Z.compare_spec a b) as [E|E|E]; cbn [then_compare].
  - subst b. destruct (Z.compare_spec x y);
      [apply Z.compare_eq_iff|apply Z.compare_lt_iff|apply Z.compare_gt_iff]; nia.
  - apply Z.compare_lt_iff. assert (a * p + x < b * p + y) by nia. nia.
  - apply Z.compare_gt_iff. assert (b * p + y < a * p + x) by nia. nia.
Qed.

Lemma then_compare_assoc a b c : then_compare (then_compare a b) c = then_compare a (then_compare b c).
Proof. by destruct a. Qed.

Lemma compare_scaled n a b x y :
  0 <= x < n -> 0 <= y < n ->
  Z.compare (a * n + x) (b * n + y) = then_compare (Z.compare a b) (Z.compare x y).
Proof.
  intros Hx Hy. destruct (Z.compare_spec a b) as [E|E|E]; cbn [then_compare].
  - subst b. destruct (Z.compare_spec x y);
      [apply Z.compare_eq_iff|apply Z.compare_lt_iff|apply Z.compare_gt_iff]; lia.
  - apply Z.compare_lt_iff. nia.
  - apply Z.compare_gt_iff. nia.
Qed.

(** A printed date and time in UTC: its calendar date, up to the year 9999, its
    time of day and its two digits of seconds. *)
Record printed (c : civil) (seconds : string) : Prop := {
  pr_wf : civil_wf c;
  pr_year : c_year c <= 9999;
  pr_minutes : 0 <= c_minutes c < 1440;
  pr_digits : bytes_forallb is_ascii_digit_byte seconds = true;
  pr_length : String.length seconds = 2%nat;
  pr_seconds : digits_value 0 seconds < 60;
}.

Definition date_time_text (c : civil) (seconds : string) : string :=
  show_padded 4 (c_year c) +:+ "-" +:+ show_padded 2 (c_month c) +:+ "-" +:+ show_padded 2 (c_day c)
  +:+ "T" +:+ show_padded 2 (c_minutes c / 60) +:+ ":" +:+ show_padded 2 (c_minutes c mod 60) +:+ ":" +:+ seconds.

Lemma printed_ranges c s :
  printed c s -> 0 <= c_year c < 10 ^ Z.of_nat 4 /\ 0 <= c_month c < 10 ^ Z.of_nat 2 /\ 0 <= c_day c < 10 ^ Z.of_nat 2
  /\ 0 <= c_minutes c / 60 < 10 ^ Z.of_nat 2 /\ 0 <= c_minutes c mod 60 < 10 ^ Z.of_nat 2.
Proof.
  intros [(? & ? & ?) ? ? _ _ _]. pose proof (days_in_month_pos (c_year c) (c_month c)).
  change (10 ^ Z.of_nat 4) with 10000. change (10 ^ Z.of_nat 2) with 100.
  pose proof (Z.mod_pos_bound (c_minutes c) 60 ltac:(lia)). split_and!; try lia.
  - apply Z.div_pos; lia.
  - apply Z.div_lt_upper_bound; lia.
Qed.

Lemma date_time_length c s : printed c s -> String.length (date_time_text c s) = 19%nat.
Proof.
  intros Hp. destruct (printed_ranges _ _ Hp) as (? & ? & ? & ? & ?), Hp as [_ _ _ _ Hl _].
  unfold date_time_text. rewrite !str_length_app, !show_padded_exact, Hl by (done || lia). done.
Qed.

Lemma compare_padded_then w a b s t :
  0 <= a < 10 ^ Z.of_nat w -> 0 <= b < 10 ^ Z.of_nat w -> (0 < w)%nat ->
  String.compare (show_padded w a +:+ s) (show_padded w b +:+ t)
  = then_compare (Z.compare a b) (String.compare s t).
Proof.
  intros Ha Hb Hw.
  rewrite compare_digits_then by (try (apply show_padded_digits; lia); rewrite !show_padded_exact; done).
  by rewrite !show_padded_value by lia.
Qed.

Lemma date_time_compare c c' s s' :
  printed c s -> printed c' s' ->
  String.compare (date_time_text c s) (date_time_text c' s')
  = Z.compare (instant c * 60 + digits_value 0 s) (instant c' * 60 + digits_value 0 s').
Proof.
  intros Hp Hp'.
  destruct (printed_ranges _ _ Hp) as (Hy & Hm & Hd & Hh & Hi), (printed_ranges _ _ Hp') as (Hy' & Hm' & Hd' & Hh' & Hi').
  destruct Hp as [(? & ? & ?) ? ? Hs Hl ?], Hp' as [(? & ? & ?) ? ? Hs' Hl' ?].
  pose proof (digits_value_bound _ Hs). pose proof (digits_value_bound _ Hs').
  unfold date_time_text. do 5 (rewrite compare_padded_then, ?str_app_cons, ?str_app_nil_l, compare_byte_then by (done || lia)).
  rewrite digits_compare by (done || congruence).
  rewrite compare_scaled by lia. unfold instant. rewrite compare_scaled by lia.
  rewrite day_number_compare by done.
  assert (Hmin : Z.compare (c_minutes c) (c_minutes c')
    = then_compare (Z.compare (c_minutes c / 60) (c_minutes c' / 60))
        (Z.compare (c_minutes c mod 60) (c_minutes c' mod 60))).
  { rewrite <-(compare_scaled 60) by (apply Z.mod_pos_bound; lia).
    f_equal; rewrite (Z.mul_comm _ 60); apply Z.div_mod; lia. }
  by rewrite Hmin, !then_compare_assoc.
Qed.

(** The text after the seconds. *)
Definition fraction_text (f : string) : string := match f with EmptyString => "" | _ => "." +:+ f end.

Definition utc_text (c : civil) (seconds f : string) : string :=
  date_time_text c seconds +:+ fraction_text f +:+ "Z".

Lemma slice_app p s : slice (p +:+ s) 0 (String.length p) = p.
Proof.
  unfold slice. rewrite Nat.sub_0_r. induction p as [|a p IH]; [by destruct s|]. rewrite str_app_cons. cbn. by rewrite IH.
Qed.

Lemma slice_mid p m t : slice (p +:+ m +:+ t) (String.length p) (String.length p + String.length m) = m.
Proof.
  unfold slice. rewrite Nat.add_comm, Nat.add_sub. induction p as [|a p IH].
  - rewrite str_app_nil_l. change (String.length "") with 0%nat.
    induction m as [|b m IH]; [by destruct t|]. rewrite str_app_cons. cbn. by rewrite IH.
  - rewrite str_app_cons. cbn [String.length substring]. exact IH.
Qed.

Lemma utc_text_fraction c s f :
  printed c s -> canonical_timestamp_fraction (utc_text c s f) = Some f.
Proof.
  intros Hl%date_time_length. unfold canonical_timestamp_fraction, utc_text. set (p := date_time_text c s) in *.
  rewrite <-Hl, byte_at_app. destruct f as [|a f].
  - cbn [fraction_text]. rewrite str_app_nil_l, str_length_app, Hl. done.
  - set (g := String a f) in *. change (fraction_text g) with ("." +:+ g). rewrite !str_app_cons, str_app_nil_l.
    cbn [byte_at String.get Ascii.eqb Bool.eqb andb].
    assert (El : (String.length (p +:+ String "." (g +:+ "Z")) - 1 = String.length (p +:+ String "." g))%nat)
      by (rewrite !str_length_app; cbn [String.length]; rewrite str_length_app; cbn [String.length]; lia).
    assert (Eb : byte_is (p +:+ String "." (g +:+ "Z")) (String.length (p +:+ String "." g)) "Z" = true).
    { unfold byte_is. change (String "." (g +:+ "Z")) with (String "." g +:+ "Z").
      by rewrite <-str_app_assoc, byte_at_app. }
    rewrite El, Eb.
    assert (En : String.length (p +:+ String "." g) = (20 + String.length g)%nat)
      by (rewrite str_length_app, Hl; cbn [String.length]; lia).
    rewrite En, Hl. destruct (Nat.leb_spec 20 (20 + String.length g)); [|lia]. f_equal.
    pose proof (slice_mid (p +:+ ".") g "Z") as Hs. rewrite str_app_assoc, str_length_app, Hl in Hs. exact Hs.
Qed.

Lemma utc_text_prefix c s f : printed c s -> slice (utc_text c s f) 0 19 = date_time_text c s.
Proof. intros Hp. rewrite <-(date_time_length _ _ Hp). apply slice_app. Qed.

Lemma utc_text_long c s f : printed c s -> (19 <=? String.length (utc_text c s f))%nat = true.
Proof. intros Hp. apply Nat.leb_le. unfold utc_text. rewrite str_length_app, (date_time_length _ _ Hp). lia. Qed.

Lemma utc_text_compare c c' s s' f f' :
  printed c s -> printed c' s' ->
  bytes_forallb is_ascii_digit_byte f = true -> bytes_forallb is_ascii_digit_byte f' = true ->
  compare_canonical_timestamps (utc_text c s f) (utc_text c' s' f')
  = Some (Qcompare (moment c (digits_value 0 s) f) (moment c' (digits_value 0 s') f')).
Proof.
  intros Hp Hp' Hf Hf'. unfold compare_canonical_timestamps.
  rewrite !utc_text_long, !utc_text_prefix, !utc_text_fraction, date_time_compare by done. cbn [andb mbind option_bind].
  set (k := Nat.max (String.length f) (String.length f')). rewrite compare_fractions_padded by done.
  unfold moment. rewrite (fraction_value_padded k f), (fraction_value_padded k f') by lia.
  rewrite compare_mixed by (apply padded_value_bound; done).
  by destruct (Z.compare _ _).
Qed.

(** ** The text the decoder writes *)

Lemma digits_unique s t :
  bytes_forallb is_ascii_digit_byte s = true -> bytes_forallb is_ascii_digit_byte t = true ->
  String.length s = String.length t -> digits_value 0 s = digits_value 0 t -> s = t.
Proof.
  intros Hs Ht Hl Hv. apply String.compare_eq_iff. rewrite digits_compare by done. by rewrite Hv, Z.compare_refl.
Qed.

Lemma show_padded_digits_value w s :
  bytes_forallb is_ascii_digit_byte s = true -> String.length s = w -> (0 < w)%nat ->
  show_padded w (digits_value 0 s) = s.
Proof.
  intros Hs <- Hw. pose proof (digits_value_bound _ Hs).
  apply digits_unique; [apply show_padded_digits; lia|done|by apply show_padded_exact|apply show_padded_value; lia].
Qed.

Lemma slice_cat s a b c : (a <= b <= c)%nat -> slice s a b +:+ slice s b c = slice s a c.
Proof.
  unfold slice. revert a b c. induction s as [|x s IH]; intros a b c H; [by rewrite !substring_nil|].
  destruct a as [|a].
  - destruct b as [|b]; [by rewrite Nat.sub_diag|]. destruct c as [|c]; [lia|].
    cbn [Nat.sub substring]. rewrite str_app_cons. specialize (IH 0%nat b c ltac:(lia)). rewrite !Nat.sub_0_r in *.
    cbn [Nat.sub substring]. by rewrite IH.
  - destruct b as [|b]; [lia|]. destruct c as [|c]; [lia|]. cbn [Nat.sub substring]. apply IH. lia.
Qed.

Lemma slice_byte s i x : byte_is s i x = true -> slice s i (S i) = String x "".
Proof.
  unfold byte_is, byte_at, slice. rewrite Nat.sub_succ_l, Nat.sub_diag by lia.
  revert i. induction s as [|y s IH]; intros [|i]; cbn; try done; [intros ->%Ascii.eqb_eq; by destruct s|apply IH].
Qed.

(** The fields of a canonical timestamp, as numbers. *)
Definition number_at (s : string) (from to : nat) : Z := digits_value 0 (slice s from to).

Definition zone_offset (s : string) : Z :=
  let z := fraction_end s in
  if byte_is s z "Z" then 0
  else (if byte_is s z "+" then 1 else -1) * (number_at s (z + 1) (z + 3) * 60 + number_at s (z + 4) (z + 6)).

Definition timestamp_civil (s : string) : civil :=
  {| c_year := number_at s 0 4; c_month := number_at s 5 7; c_day := number_at s 8 10;
     c_minutes := number_at s 11 13 * 60 + number_at s 14 16 - zone_offset s |}.

(** The moment a timestamp stands for. *)
Definition timestamp_moment (s : string) : Q :=
  moment (timestamp_civil s) (number_at s 17 19) (slice s 20 (fraction_end s)).

Lemma parse_number s n :
  bytes_forallb is_ascii_digit_byte s = true -> parse_two_or_four_digits s = Some n -> n = digits_value 0 s.
Proof.
  intros Hs Hp. destruct s as [|a s]; [done|].
  unfold parse_two_or_four_digits, parse_u32 in Hp.
  rewrite (parse_unsigned_digits _ _ (digits_value 0 (String a s))) in Hp by (unfold parse_digits; by rewrite Hs).
  by apply checked_Some in Hp as [-> _].
Qed.

Lemma substring_zero a s : substring a 0 s = "".
Proof. revert a. induction s as [|x s IH]; intros [|a]; cbn; done || apply IH. Qed.

Lemma bytes_all_slice (f : nat -> ascii -> bool) (g : ascii -> bool) s : forall k a b,
  bytes_all f k s = true -> (forall i x, (k + a <= i < k + b)%nat -> f i x = true -> g x = true) ->
  bytes_forallb g (slice s a b) = true.
Proof.
  unfold slice. induction s as [|x s IH]; intros k a b Hs Hg; [by rewrite substring_nil|].
  cbn [bytes_all] in Hs. apply andb_true_iff in Hs as [Hx Hs]. destruct a as [|a].
  - destruct b as [|b]; [done|]. cbn [Nat.sub substring bytes_forallb]. rewrite (Hg k x) by (done || lia).
    specialize (IH (S k) 0%nat b Hs). rewrite Nat.sub_0_r in IH. apply IH. intros i y Hi. apply Hg. lia.
  - destruct b as [|b]; [by rewrite substring_zero|]. cbn [Nat.sub substring]. apply (IH (S k) a b Hs).
    intros i y Hi. apply Hg. lia.
Qed.

Lemma byte_is_slice s n i x : (i < n)%nat -> byte_is (slice s 0 n) i x = byte_is s i x.
Proof.
  unfold byte_is, byte_at, slice. rewrite Nat.sub_0_r. revert n i.
  induction s as [|y s IH]; intros [|n] [|i] Hi; try lia; cbn; try done. apply IH. lia.
Qed.

(** What the byte tests of a canonical date say of its text. *)
Lemma is_canonical_date_text s :
  is_canonical_date s = true ->
  byte_is s 4 "-" = true /\ byte_is s 7 "-" = true
  /\ digits_in s 0 4 = true /\ digits_in s 5 7 = true /\ digits_in s 8 10 = true.
Proof.
  unfold is_canonical_date. destruct (_ || _)%bool; [done|]. destruct (_ || _)%bool eqn:Hb; [done|]. intros _.
  apply orb_false_iff in Hb as [[H4%negb_false_iff H7%negb_false_iff]%orb_false_iff Hall%negb_false_iff].
  split_and!; try done; eapply bytes_all_slice; try exact Hall; intros i x Hi; cbn beta;
    destruct (Nat.eqb_spec i 4), (Nat.eqb_spec i 7); (lia || done).
Qed.

Record timestamp_fields (s : string) : Prop := {
  tf_date : is_canonical_date (slice s 0 10) = true;
  tf_separators : byte_is s 10 "T" = true /\ byte_is s 13 ":" = true /\ byte_is s 16 ":" = true;
  tf_digits : digits_in s 11 13 = true /\ digits_in s 14 16 = true /\ digits_in s 17 19 = true;
  tf_ranges : number_at s 11 13 <= 23 /\ number_at s 14 16 <= 59 /\ number_at s 17 19 <= 59;
  tf_zone : is_zone s (fraction_end s) = true;
  tf_length : (20 <= String.length s)%nat;
}.

Lemma is_canonical_timestamp_fields s : is_canonical_timestamp s = true -> timestamp_fields s.
Proof.
  intros Hs. pose proof (is_canonical_timestamp_parts s Hs) as (Hl & Hd & Hz & _).
  unfold is_canonical_timestamp in Hs. destruct (_ || _)%bool; [done|]. destruct (_ || _)%bool eqn:Hb; [done|].
  rewrite !orb_false_iff, !negb_false_iff in Hb. destruct Hb as [[[[[H10 H13] H16] Hh] Hm] Hse].
  destruct (parse_two_or_four_digits (slice s 11 13)) as [h|] eqn:Eh; [|done].
  destruct (parse_two_or_four_digits (slice s 14 16)) as [m|] eqn:Em; [|done].
  destruct (parse_two_or_four_digits (slice s 17 19)) as [sec|] eqn:Es; [|done].
  apply parse_number in Eh, Em, Es; try done. destruct (_ || _)%bool eqn:Hr; [done|].
  rewrite !orb_false_iff, !Z.ltb_ge in Hr. subst. destruct Hr as [[? ?] ?]. split; unfold number_at; tauto.
Qed.

(** *** The fraction *)

Lemma trim_end_repeat s : exists n, s = trim_end_matches "0" s +:+ repeat_string n "0".
Proof.
  induction s as [|b s [n Hn]]; [by exists 0%nat|]. cbn [trim_end_matches].
  destruct (trim_end_matches "0" s) as [|x t] eqn:E.
  - rewrite str_app_nil_l in Hn. destruct (Ascii.eqb_spec b "0") as [->|].
    + exists (S n). rewrite Hn. done.
    + exists n. rewrite Hn. done.
  - exists n. rewrite Hn at 1. done.
Qed.

Lemma trim_end_none a s :
  bytes_forallb (fun b => negb (Ascii.eqb b a)) s = true -> trim_end_matches a s = s.
Proof.
  induction s as [|b s IH]; [done|]. cbn [bytes_forallb trim_end_matches].
  intros [Hb%negb_true_iff Hs]%andb_true_iff. rewrite (IH Hs), Hb. by destruct s.
Qed.

Lemma digits_no_point s : bytes_forallb is_ascii_digit_byte s = true -> bytes_forallb (fun b => negb (Ascii.eqb b ".")) s = true.
Proof.
  induction s as [|b s IH]; [done|]. cbn [bytes_forallb]. intros [Hb Hs]%andb_true_iff. rewrite (IH Hs), andb_true_r.
  destruct (Ascii.eqb_spec b ".") as [->|]; [by vm_compute in Hb|done].
Qed.

Lemma trim_fraction d :
  bytes_forallb is_ascii_digit_byte d = true ->
  trim_end_matches "." (trim_end_matches "0" (String "." d)) = fraction_text (trim_end_matches "0" d)
  /\ bytes_forallb is_ascii_digit_byte (trim_end_matches "0" d) = true
  /\ (fraction_value (trim_end_matches "0" d) == fraction_value d)%Q.
Proof.
  intros Hd. destruct (trim_end_repeat d) as [n Hn]. set (g := trim_end_matches "0" d) in *.
  assert (Hg : bytes_forallb is_ascii_digit_byte g = true)
    by (rewrite Hn, bytes_forallb_app in Hd; by apply andb_true_iff in Hd as [? _]).
  split_and!; [|done|].
  - assert (E : trim_end_matches "0" (String "." d) = String "." g)
      by (cbn [trim_end_matches]; fold g; by destruct g).
    rewrite E. cbn [trim_end_matches]. rewrite (trim_end_none _ _ (digits_no_point _ Hg)). by destruct g.
  - rewrite Hn. unfold fraction_value, Qeq. cbn [Qnum Qden]. rewrite !Z2Pos.id by apply pow10_nat_pos.
    rewrite digits_value_app, repeat_zeros_value, str_length_app, repeat_zeros_length, Nat2Z.inj_add, Z.pow_add_r by lia.
    ring.
Qed.

Lemma leading_digits_all s : bytes_forallb is_ascii_digit_byte (substring 0 (leading_digits s) s) = true.
Proof.
  induction s as [|a s IH]; [done|]. cbn [leading_digits].
  destruct (is_ascii_digit_byte a) eqn:E; [|done]. cbn. by rewrite E.
Qed.

Lemma leading_digits_length s : (leading_digits s <= String.length s)%nat.
Proof. induction s as [|a s IH]; cbn; [done|]. destruct (is_ascii_digit_byte a); lia. Qed.

Lemma slice_from s i k : slice s i (i + k) = substring 0 k (slice s i (String.length s)).
Proof.
  unfold slice. rewrite Nat.add_comm, Nat.add_sub. revert i k. induction s as [|a s IH]; intros i k.
  - by rewrite !substring_nil.
  - destruct i as [|i]; [|cbn [String.length Nat.sub substring]; apply IH].
    rewrite Nat.sub_0_r. destruct k as [|k]; [by rewrite !substring_zero|]. cbn [String.length substring].
    specialize (IH 0%nat k). rewrite Nat.sub_0_r in IH. by rewrite IH.
Qed.

Lemma fraction_spec s :
  exists g, trim_end_matches "." (trim_end_matches "0" (slice s 19 (fraction_end s))) = fraction_text g
  /\ bytes_forallb is_ascii_digit_byte g = true
  /\ (fraction_value g == fraction_value (slice s 20 (fraction_end s)))%Q.
Proof.
  unfold fraction_end. destruct (byte_is s 19 ".") eqn:E.
  - set (d := slice s 20 (skip_digits s 20)).
    assert (Hd : bytes_forallb is_ascii_digit_byte d = true).
    { unfold d, skip_digits. rewrite slice_from. apply leading_digits_all. }
    assert (Hs : slice s 19 (skip_digits s 20) = String "." d).
    { rewrite <-(slice_cat s 19 20) by (unfold skip_digits; lia). rewrite (slice_byte _ _ _ E). done. }
    exists (trim_end_matches "0" d). rewrite Hs. by apply trim_fraction.
  - exists "". unfold slice. rewrite !substring_zero. done.
Qed.

(** *** The text *)

Lemma date_time_text_of s c :
  timestamp_fields s ->
  c_year c = number_at s 0 4 -> c_month c = number_at s 5 7 -> c_day c = number_at s 8 10 ->
  c_minutes c = number_at s 11 13 * 60 + number_at s 14 16 ->
  date_time_text c (slice s 17 19) = slice s 0 19.
Proof.
  intros [Hdate (HT & H13 & H16) (Hh & Hm & Hs) (Rh & Rm & Rs) _ Hl] Ey Em Ed Emin.
  apply is_canonical_date_text in Hdate as (H4 & H7 & D0 & D5 & D8).
  rewrite byte_is_slice in H4, H7 by lia. unfold digits_in in *. rewrite slice_slice in D0, D5, D8 by lia.
  assert (Hmin : c_minutes c / 60 = number_at s 11 13 /\ c_minutes c mod 60 = number_at s 14 16).
  { pose proof (digits_value_bound _ Hm). unfold number_at in *. rewrite Emin. split.
    - rewrite Z.div_add_l, Z.div_small by lia. lia.
    - rewrite Z.add_comm, Z.mod_add, Z.mod_small by lia. done. }
  destruct Hmin as [E1 E2]. unfold date_time_text. rewrite Ey, Em, Ed, E1, E2. unfold number_at.
  rewrite !show_padded_digits_value by (done || (by rewrite slice_length; lia) || lia).
  pose proof (slice_byte _ _ _ H4) as E4. pose proof (slice_byte _ _ _ H7) as E7.
  pose proof (slice_byte _ _ _ HT) as E10. pose proof (slice_byte _ _ _ H13) as E13.
  pose proof (slice_byte _ _ _ H16) as E16.
  rewrite <-(slice_cat s 0 4 19), <-(slice_cat s 4 5 19), E4, <-(slice_cat s 5 7 19), <-(slice_cat s 7 8 19), E7,
    <-(slice_cat s 8 10 19), <-(slice_cat s 10 11 19), E10, <-(slice_cat s 11 13 19), <-(slice_cat s 13 14 19), E13,
    <-(slice_cat s 14 16 19), <-(slice_cat s 16 17 19), E16 by lia.
  done.
Qed.

(** A local timestamp's date is on the calendar, and its offset below a day. *)
Lemma timestamp_civil_wf s :
  timestamp_fields s -> civil_wf (timestamp_civil s) /\ c_year (timestamp_civil s) <= 9999.
Proof.
  intros [Hdate _ _ _ _ Hl].
  destruct (is_canonical_date_text _ Hdate) as (_ & _ & D0 & D5 & D8).
  destruct (is_canonical_date_parts _ Hdate) as (_ & y & m & d & Hy & Hm & Hd & Hyb & Hmb & Hdb).
  unfold digits_in in *. rewrite slice_slice in Hy, Hm, Hd, D0, D5, D8 by lia.
  apply parse_number in Hy, Hm, Hd; try done. unfold civil_wf, timestamp_civil, number_at. cbn.
  subst. lia.
Qed.

Lemma printed_four_digits y : 0 <= y <= 10000 -> forall t, byte_is (show_padded 4 y +:+ t) 4 "-" = true -> y <= 9999.
Proof.
  intros Hy t Hb. destruct (Z.eq_dec y 10000) as [->|]; [|lia]. by vm_compute in Hb.
Qed.

Lemma zone_digits s z :
  is_zone s z = true -> byte_is s z "Z" = false ->
  digits_in s (z + 1) (z + 3) = true /\ digits_in s (z + 4) (z + 6) = true.
Proof.
  unfold is_zone, byte_is. destruct (byte_at s z) as [a|]; [|done]. intros Hz HZ. rewrite HZ in Hz.
  destruct (_ && _)%bool in Hz; [|done]. rewrite !andb_true_iff in Hz. tauto.
Qed.

Lemma timestamp_minutes s : timestamp_fields s -> -1440 < c_minutes (timestamp_civil s) < 2880.
Proof.
  intros [_ _ (Dh & Dm & _) (Rh & Rm & _) Hzone _]. unfold digits_in in *.
  pose proof (digits_value_bound _ Dh). pose proof (digits_value_bound _ Dm).
  unfold timestamp_civil, zone_offset. cbn [c_minutes]. set (ze := fraction_end s) in *.
  destruct (byte_is s ze "Z") eqn:HZ; [unfold number_at in *; lia|].
  destruct (zone_digits _ _ Hzone HZ) as [D1 D2]. unfold digits_in in *.
  assert (Hpair : forall from bound, bytes_forallb is_ascii_digit_byte (slice s from (from + 2)) = true ->
    is_digit_pair_at_most s from bound = true -> 0 <= number_at s from (from + 2) <= bound).
  { intros from bound Hd (n & Hn%parse_number & ?)%is_digit_pair_parts; [|done]. unfold number_at. by subst. }
  unfold is_zone, byte_is in Hzone, HZ. destruct (byte_at s ze) as [a|]; [|done]. rewrite HZ in Hzone.
  destruct (_ && _)%bool in Hzone; [|done]. apply andb_true_iff in Hzone as [[_ P1]%andb_true_iff P2].
  replace (ze + 3)%nat with (ze + 1 + 2)%nat in * by lia. replace (ze + 6)%nat with (ze + 4 + 2)%nat in * by lia.
  apply Hpair in P1, P2; try done. unfold number_at in *. destruct (byte_is s ze "+"); lia.
Qed.

(** The printed text of a timestamp with an offset is that of its date and time
    in UTC. *)
Lemma utc_of_local s g u :
  timestamp_fields s -> byte_is s (fraction_end s) "Z" = false ->
  trim_end_matches "." (trim_end_matches "0" (slice s 19 (fraction_end s))) = fraction_text g ->
  canonical_timestamp_utc s = Some u ->
  exists utc, u = utc_text utc (slice s 17 19) g /\ to_utc (timestamp_civil s) = Some utc.
Proof.
  intros [Hdate _ (Dh & Dm & _) _ Hzone Hl] HZ Eg Hu. unfold digits_in in *.
  destruct (is_canonical_date_text _ Hdate) as (_ & _ & D0 & D5 & D8). unfold digits_in in *.
  rewrite slice_slice in D0, D5, D8 by lia. destruct (zone_digits _ _ Hzone HZ) as [D1 D2]. unfold digits_in in *.
  unfold canonical_timestamp_utc in Hu. rewrite HZ, Eg in Hu. unfold timestamp_civil, zone_offset.
  set (ze := fraction_end s) in *. rewrite HZ.
  apply bind_Some in Hu as (sign & Hsign & Hu).
  assert (Es : sign = if byte_is s ze "+" then 1 else -1)
    by (unfold zone_sign in Hsign; destruct (byte_is s ze "+"); [by injection Hsign|];
        destruct (byte_is s ze "-"); [by injection Hsign|done]).
  apply bind_Some in Hu as (oh & Hoh%parse_number & Hu); [|done].
  apply bind_Some in Hu as (om & Hom%parse_number & Hu); [|done].
  apply bind_Some in Hu as (y & Hy%parse_number & Hu); [|done].
  apply bind_Some in Hu as (m & Hm%parse_number & Hu); [|done].
  apply bind_Some in Hu as (d & Hd%parse_number & Hu); [|done].
  apply bind_Some in Hu as (h & Hh%parse_number & Hu); [|done].
  apply bind_Some in Hu as (mi & Hmi%parse_number & Hu); [|done].
  apply bind_Some in Hu as (utc & Hutc & [= <-]). exists utc. split.
  - unfold utc_text, date_time_text. by rewrite !str_app_assoc.
  - unfold number_at. by rewrite <-Hy, <-Hm, <-Hd, <-Hh, <-Hmi, <-Hoh, <-Hom, <-Es.
Qed.

Lemma canonical_timestamp_utc_text s u :
  timestamp_fields s -> canonical_timestamp_utc s = Some u -> byte_is u 4 "-" = true ->
  exists c g, u = utc_text c (slice s 17 19) g /\ printed c (slice s 17 19)
  /\ bytes_forallb is_ascii_digit_byte g = true
  /\ (moment c (number_at s 17 19) g == timestamp_moment s)%Q.
Proof.
  intros Hf Hu Hdash. pose proof Hu as Hu0. pose proof Hf as [Hdate _ (Dh & Dm & Ds) (Rh & Rm & Rs) Hzone Hl].
  destruct (timestamp_civil_wf _ Hf) as [Hwf Hyear]. unfold digits_in in *.
  assert (Hsec : String.length (slice s 17 19) = 2%nat) by (rewrite slice_length; lia).
  pose proof (digits_value_bound _ Dh) as Bh. pose proof (digits_value_bound _ Dm) as Bm.
  unfold canonical_timestamp_utc in Hu. destruct (fraction_spec s) as (g & Eg & Dg & Vg). rewrite Eg in Hu.
  set (ze := fraction_end s) in *. unfold timestamp_moment. fold ze.
  destruct (byte_is s ze "Z") eqn:HZ.
  - injection Hu as <-. set (c := timestamp_civil s) in *.
    assert (Emin : c_minutes c = number_at s 11 13 * 60 + number_at s 14 16)
      by (unfold c, timestamp_civil, zone_offset; fold ze; rewrite HZ; cbn; lia).
    exists c, g. split_and!; [|split; try done; unfold number_at in *; lia|done|by unfold moment; rewrite Vg].
    unfold utc_text. by rewrite (date_time_text_of s c).
  - destruct (utc_of_local s g u Hf HZ Eg Hu0) as (utc & -> & Hutc).
    pose proof (to_utc_keeps (timestamp_civil s) Hwf Hyear) as Hk. rewrite Hutc in Hk.
    destruct Hk as (Huwf & Huy & Hum & Hui & _); [by apply timestamp_minutes|].
    assert (Hy9 : c_year utc <= 9999)
      by (unfold utc_text, date_time_text in Hdash; rewrite !str_app_assoc in Hdash;
        eapply printed_four_digits; [destruct Huwf; lia|exact Hdash]).
    exists utc, g. split_and!; [done|split; try done; unfold number_at in *; lia|done|].
    unfold moment. by rewrite Vg, Hui.
Qed.

(** C39: timestamps compare chronologically: two canonical timestamps in any
    offsets, decoded to UTC no later than the year 9999, compare as the moments
    they stand for, fractions of a second included. *)
Theorem timestamps_compare_chronologically left right l r :
  is_canonical_timestamp left = true -> is_canonical_timestamp right = true ->
  canonical_timestamp_utc left = Some l -> canonical_timestamp_utc right = Some r ->
  byte_is l 4 "-" = true -> byte_is r 4 "-" = true ->
  compare_canonical_timestamps l r = Some (Qcompare (timestamp_moment left) (timestamp_moment right)).
Proof.
  intros Hl%is_canonical_timestamp_fields Hr%is_canonical_timestamp_fields El Er Dl Dr.
  destruct (canonical_timestamp_utc_text _ _ Hl El Dl) as (c & g & -> & Hp & Hg & <-).
  destruct (canonical_timestamp_utc_text _ _ Hr Er Dr) as (c' & g' & -> & Hp' & Hg' & <-).
  by apply utc_text_compare.
Qed.

Lemma timestamps_compare_chronologically_witness :
  compare_canonical_timestamps "2024-02-29T23:30:00Z" "2024-03-01T00:15:00.5Z" = Some Lt
  /\ Qcompare (timestamp_moment "2024-03-01T00:30:00.0+01:00") (timestamp_moment "2024-02-29T23:15:00.500-01:00") = Lt.
Proof.
  pose proof (timestamps_compare_chronologically "2024-03-01T00:30:00.0+01:00" "2024-02-29T23:15:00.500-01:00"
    "2024-02-29T23:30:00Z" "2024-03-01T00:15:00.5Z" eq_refl eq_refl eq_refl eq_refl eq_refl eq_refl) as H.
  split; [reflexivity|]. symmetry. exact (f_equal (fun o => match o with Some c => c | None => Gt end) H).
Defined.
