(* ===== verification/RulesValue.v ===== *)
(** * Runtime values ([RuntimeValue] in [crates/rules/src/eval.rs])

    Decoding the JSON bindings of a rule to values of its declared types, and
    printing a result back as JSON. *)
From S2P Require Import Prelude Json RulesSyntax RulesDecimal RulesTime.
Set Warnings "-register-all".

Inductive RuntimeValue : Type :=
| VNull
| VBool (b : bool)
| VString (s : string)
| VInt (z : Z)
| VInt64 (z : Z)
| VDecimal (d : Decimal)
| VUuid (s : string)
| VDate (s : string)
| VTimestamp (s : string)
| VEnum (enum_name symbol : string)
| VList (items : list RuntimeValue)
| VObject (fields : btree RuntimeValue)
| VOpaqueJson (v : Value).

Definition type_name (v : RuntimeValue) : string :=
  match v with
  | VNull => "null"
  | VBool _ => "bool"
  | VString _ => "string"
  | VInt _ => "int"
  | VInt64 _ => "bigint"
  | VDecimal _ => "decimal"
  | VUuid _ => "uuid"
  | VDate _ => "date"
  | VTimestamp _ => "timestamp"
  | VEnum _ _ => "enum"
  | VList _ => "list"
  | VObject _ => "object"
  | VOpaqueJson _ => "opaque JSON"
  end.

(** The derived [PartialEq]. *)
Fixpoint runtime_eqb `{Serde} (a b : RuntimeValue) : bool :=
  match a, b with
  | VNull, VNull => true
  | VBool x, VBool y => Bool.eqb x y
  | VString x, VString y | VUuid x, VUuid y | VDate x, VDate y | VTimestamp x, VTimestamp y =>
      String.eqb x y
  | VInt x, VInt y | VInt64 x, VInt64 y => x =? y
  | VDecimal x, VDecimal y => Decimal_eqb x y
  | VEnum n s, VEnum n' s' => String.eqb n n' && String.eqb s s'
  | VList l, VList l' => list_eqb runtime_eqb l l'
  | VObject f, VObject f' =>
      list_eqb (fun kv kv' => String.eqb kv.1 kv'.1 && runtime_eqb kv.2 kv'.2) f f'
  | VOpaqueJson v, VOpaqueJson v' => value_eqb v v'
  | _, _ => false
  end.

Section Codec.
Context `{Serde}.

(** [RuntimeValue::canonical_json], by recursion on the type. *)
Fixpoint canonical_json (rule_name : string) (t : RuleType) (v : RuntimeValue) : result RuleError Value :=
  let invariant := InternalInvariant rule_name in
  match t with
  | TNullable inner =>
      match v with VNull => Ok JNull | _ => canonical_json rule_name inner v end
  | TBool => match v with VBool b => Ok (JBool b) | _ => Err invariant end
  | TString => match v with VString s => Ok (JString s) | _ => Err invariant end
  | TInt => match v with VInt z => Ok (JNumber (show_Z z)) | _ => Err invariant end
  | TInt64 =>
      match v with
      | VInt64 z => Ok (JNumber (show_Z z))
      | VInt z => Ok (JNumber (show_Z z))
      | _ => Err invariant
      end
  | TDecimal =>
      match v with
      | VDecimal d => ok_or invariant (from_str (canonical_string d))
      | _ => Err invariant
      end
  | TUuid => match v with VUuid s => Ok (JString s) | _ => Err invariant end
  | TDate => match v with VDate s => Ok (JString s) | _ => Err invariant end
  | TTimestamp => match v with VTimestamp s => Ok (JString s) | _ => Err invariant end
  | TEnum name symbols =>
      match v with
      | VEnum enum_name symbol =>
          if String.eqb enum_name name && existsb (fun candidate => String.eqb candidate symbol) symbols
          then Ok (JString symbol) else Err invariant
      | _ => Err invariant
      end
  | TList item_type =>
      match v with
      | VList values => l ← map_result (canonical_json rule_name item_type) values; Ok (JArray l)
      | _ => Err invariant
      end
  | TObject _ fields =>
      match v with
      | VObject values =>
          members ← map_result (fun ft : string * RuleType =>
            let (field, type_) := ft in
            value ← ok_or invariant (bt_get values field);
            json ← match value with
                   | VNull =>
                       if accepts_null type_ then canonical_json rule_name type_ value
                       else Err (InvalidRuleResult rule_name (display_name type_) "null")
                   | _ => canonical_json rule_name type_ value
                   end;
            Ok (field, json)) fields;
          Ok (JObject members)
      | _ => Err invariant
      end
  | TOpaqueJson _ _ _ _ => match v with VOpaqueJson v => Ok v | _ => Err invariant end
  end.

Fixpoint decode_value (t : RuleType) (value : Value) : option RuntimeValue :=
  match t with
  | TNullable inner => if is_null value then Some VNull else decode_value inner value
  | TBool => VBool <$> as_bool value
  | TString => VString <$> as_str value
  | TInt => n ← as_number value; VInt <$> parse_i32 n
  | TInt64 => n ← as_number value; VInt64 <$> parse_i64 n
  | TDecimal => n ← as_number value; VDecimal <$> Decimal_parse n
  | TUuid => s ← as_str value; if is_uuid s then Some (VUuid (to_ascii_lowercase s)) else None
  | TDate => s ← as_str value; if is_canonical_date s then Some (VDate s) else None
  | TTimestamp =>
      s ← as_str value;
      if is_canonical_timestamp s then VTimestamp <$> canonical_timestamp_utc s else None
  | TEnum name symbols =>
      s ← as_str value;
      if existsb (fun symbol => String.eqb symbol s) symbols then Some (VEnum name s) else None
  | TList item_type => items ← as_array value; VList <$> map_option (decode_value item_type) items
  | TObject _ fields =>
      object ← as_object value;
      members ← map_option (fun ft : string * RuleType =>
        let (field, type_) := ft in
        v ← match obj_get object field with
            | Some v => decode_value type_ v
            | None => Some VNull
            end;
        Some (field, v)) fields;
      Some (VObject (bt_collect members))
  | TOpaqueJson _ maximum_bytes maximum_depth maximum_nodes =>
      if opaque_json_within_bounds value maximum_bytes maximum_depth maximum_nodes
      then Some (VOpaqueJson value) else None
  end.

(** [RuleBindings] is a [BTreeMap]; the three loops in order. *)
Definition decode_bindings (declared : btree RuleType) (bindings : btree Value)
    : result RuleError (btree RuntimeValue) :=
  _ ← each_result (fun name =>
        if bt_contains bindings name then Ok tt else Err (MissingBinding name)) (map fst declared);
  _ ← each_result (fun name =>
        if bt_contains declared name then Ok tt else Err (UnexpectedBinding name)) (map fst bindings);
  fold_result (fun decoded (nt : string * RuleType) =>
    let (name, type_) := nt in
    value ← ok_or (MissingBinding name) (bt_get bindings name);
    value ← ok_or (InvalidBinding name (display_name type_)) (decode_value type_ value);
    Ok (bt_insert decoded name value)) [] declared.
End Codec.

(** ** Types of values *)

(** The fields of an object type are a [BTreeMap]. *)
Fixpoint type_wf (t : RuleType) : Prop :=
  match t with
  | TList item => type_wf item
  | TNullable inner => type_wf inner
  | TObject _ fields => bt_wf fields /\ fold_right and True (map (fun ft => type_wf ft.2) fields)
  | _ => True
  end.

(** A value of a type.  An object member may be null at any type: decoding
    turns an absent member into null.  An [Int] is a value of [bigint] too. *)
Fixpoint has_type (t : RuleType) (v : RuntimeValue) : Prop :=
  match t with
  | TNullable inner => v = VNull \/ has_type inner v
  | TBool => match v with VBool _ => True | _ => False end
  | TString => match v with VString _ => True | _ => False end
  | TInt => match v with VInt z => i32_min <= z <= i32_max | _ => False end
  | TInt64 =>
      match v with
      | VInt z => i32_min <= z <= i32_max
      | VInt64 z => i64_min <= z <= i64_max
      | _ => False
      end
  | TDecimal => match v with VDecimal d => decimal_wf d /\ is_normalized d | _ => False end
  | TUuid => match v with VUuid _ => True | _ => False end
  | TDate => match v with VDate _ => True | _ => False end
  | TTimestamp => match v with VTimestamp s => is_utc_timestamp s | _ => False end
  | TEnum name symbols =>
      match v with VEnum name' symbol => name' = name /\ In symbol symbols | _ => False end
  | TList item => match v with VList items => Forall (has_type item) items | _ => False end
  | TObject _ fields =>
      match v with
      | VObject values =>
          fold_right and True (map (fun ft =>
            exists w, bt_get values ft.1 = Some w /\ (w = VNull \/ has_type ft.2 w)) fields)
      | _ => False
      end
  | TOpaqueJson _ _ _ _ => match v with VOpaqueJson _ => True | _ => False end
  end.

Lemma fold_and_Forall {A} (P : A -> Prop) l : fold_right and True (map P l) <-> Forall P l.
Proof.
  induction l as [|x l IH]; cbn; [by split|]. rewrite IH, List.Forall_cons_iff. done.
Qed.

(** Each member of a value of an object type. *)
Lemma has_type_member name fields values f t :
  has_type (TObject name fields) (VObject values) -> bt_get fields f = Some t ->
  exists w, bt_get values f = Some w /\ (w = VNull \/ has_type t w).
Proof.
  intros H Hf. cbn in H. rewrite fold_and_Forall in H. exact (bt_get_Forall _ _ _ _ H Hf).
Qed.

Lemma has_type_nullable t v : v = VNull \/ has_type t v -> has_type (nullable t) v.
Proof. destruct t; cbn [nullable]; try done. intros [->|H]; [by left|done]. Qed.

Lemma VNull_type t : has_type t VNull -> accepts_null t = true.
Proof. destruct t; done. Qed.

(** Years that print as four digits: those up to 9999. *)
Fixpoint four_digit_years (v : RuntimeValue) : bool :=
  match v with
  | VTimestamp s => byte_is s 4 "-"
  | VList items => forallb four_digit_years items
  | VObject fields => forallb (fun kv => four_digit_years kv.2) fields
  | _ => true
  end.

Section Decoding.
Context `{Serde}.

Lemma existsb_In x l : existsb (fun y => String.eqb y x) l = true <-> In x l.
Proof.
  rewrite existsb_exists. split; [intros (y & Hy & ->%String.eqb_eq); done|].
  intros Hx. exists x. by rewrite String.eqb_refl.
Qed.

(** The members a decoder collected, by name. *)
Lemma members_get (decode : string * RuleType -> option (string * RuntimeValue)) fields members :
  (forall ft m, decode ft = Some m -> m.1 = ft.1) ->
  NoDup (map fst fields) -> map_option decode fields = Some members ->
  forall f t, In (f, t) fields ->
  exists v, decode (f, t) = Some (f, v) /\ bt_get (bt_collect members) f = Some v.
Proof.
  intros Hname Hnd Hm f t Hin. apply map_option_Some in Hm.
  assert (Hkeys : map fst members = map fst fields).
  { clear Hin Hnd. induction Hm as [|x y l l' Hxy _ IH]; cbn; [done|]. by rewrite IH, (Hname _ _ Hxy). }
  assert (exists v, decode (f, t) = Some (f, v) /\ In (f, v) members) as (v & Hv & Hinv).
  { clear Hnd Hkeys. induction Hm as [|x [k v] l l' Hxy _ IH]; [done|]. destruct Hin as [->|Hin].
    - pose proof (Hname _ _ Hxy) as Hk. cbn in Hk. subst k. exists v. split; [done|by left].
    - destruct (IH Hin) as (v' & ? & ?). exists v'. split; [done|by right]. }
  exists v. split; [done|]. apply bt_get_collect; [by rewrite Hkeys|done].
Qed.

Lemma forallb_members (p : RuntimeValue -> bool) (m : btree RuntimeValue) f v :
  forallb (fun kv => p kv.2) m = true -> bt_get m f = Some v -> p v = true.
Proof. rewrite forallb_forall. intros Hp Hf%bt_get_In. exact (Hp _ Hf). Qed.

(** Decoding yields values of the declared type, but for the timestamps that
    UTC moves past year 9999. *)
Lemma decode_value_typed_ind t : forall v r,
  type_wf t -> decode_value t v = Some r -> four_digit_years r = true -> has_type t r.
Proof.
  induction t as [t Ht|n syms|t IH|n fields IH|n mb md mn|t IH] using RuleType_ind'; intros v r Hwf Hd Hy.
  - cbn in Ht. repeat (destruct Ht as [<-|Ht]); [..|done]; cbn in Hd |- *.
    + apply fmap_Some in Hd as (b & _ & ->). done.
    + apply fmap_Some in Hd as (s & _ & ->). done.
    + apply bind_Some in Hd as (s & _ & (z & Hz & ->)%fmap_Some). by eapply parse_signed_range.
    + apply bind_Some in Hd as (s & _ & (z & Hz & ->)%fmap_Some). by eapply parse_signed_range.
    + apply bind_Some in Hd as (s & _ & (d & Hz & ->)%fmap_Some). by eapply Decimal_parse_wf.
    + apply bind_Some in Hd as (s & _ & Hd). destruct (is_uuid s); [|done]. by injection Hd as <-.
    + apply bind_Some in Hd as (s & _ & Hd). destruct (is_canonical_date s); [|done]. by injection Hd as <-.
    + apply bind_Some in Hd as (s & _ & Hd). destruct (is_canonical_timestamp s) eqn:Hs; [|done].
      apply fmap_Some in Hd as (u & Hu & ->). by eapply canonical_timestamp_utc_shape.
  - cbn in Hd |- *. apply bind_Some in Hd as (s & _ & Hd).
    destruct (existsb _ syms) eqn:He; [|done]. injection Hd as <-. by apply existsb_In in He.
  - cbn in Hd |- *. apply bind_Some in Hd as (items & _ & (l & Hl & ->)%fmap_Some).
    apply map_option_Some in Hl. cbn in Hy, Hwf. rewrite forallb_forall in Hy.
    apply List.Forall_forall. intros r Hr.
    assert (exists x, decode_value t x = Some r) as [x Hx].
    { clear -Hl Hr. induction Hl as [|x y l l' Hxy _ IHl]; [done|]. destruct Hr as [->|Hr]; eauto. }
    by apply (IH x); [| |apply Hy].
  - cbn in Hd |- *. apply bind_Some in Hd as (object & _ & Hd).
    apply bind_Some in Hd as (members & Hm & [= <-]). cbn in Hy, Hwf. destruct Hwf as [Hbt Hwf].
    rewrite fold_and_Forall in Hwf |- *. apply List.Forall_forall. intros [f t] Hin.
    eapply members_get in Hm as (w & Hw & Hget); [|by intros [? ?] m (? & _ & [= <-])%bind_Some|eauto with donat|exact Hin].
    cbn [fst snd]. exists w. split; [done|].
    apply bind_Some in Hw as (w' & Hw & [= ->]).
    rewrite List.Forall_forall in IH, Hwf. destruct (obj_get object f); [|injection Hw as <-; by left].
    right. apply (IH _ Hin v0); [by apply (Hwf (f, t))|done|]. by eapply forallb_members.
  - cbn in Hd |- *. destruct (opaque_json_within_bounds v mb md mn); [|done]. by injection Hd as <-.
  - cbn in Hd |- *. destruct (is_null v); [injection Hd as <-; by left|]. right. by eapply IH.
Qed.

(** Writing a typed value fails only for a null in a member that is not
    nullable, if every decimal text reads as JSON. *)
Definition null_member (rule_name : string) (e : RuleError) : Prop :=
  exists expected, e = InvalidRuleResult rule_name expected "null".

Definition reads_decimals : Prop :=
  forall d, decimal_wf d -> is_normalized d -> is_Some (from_str (canonical_string d)).

Definition ok_or_null_member {A} (rule_name : string) (m : result RuleError A) : Prop :=
  match m with Ok _ => True | Err e => null_member rule_name e end.

Lemma ok_or_null_map {A B} rule_name (f : A -> result RuleError B) l :
  Forall (fun x => ok_or_null_member rule_name (f x)) l -> ok_or_null_member rule_name (map_result f l).
Proof.
  induction 1 as [|x l Hx _ IH]; [done|]. cbn [map_result].
  destruct (f x); [|done]. destruct (map_result f l); done.
Qed.

Lemma canonical_json_safe rule_name t : reads_decimals -> forall v,
  has_type t v -> ok_or_null_member rule_name (canonical_json rule_name t v).
Proof.
  intros Hdec. induction t as [t Ht|n syms|t IH|n fields IH|n mb md mn|t IH] using RuleType_ind'; intros v Hv.
  - cbn in Ht. repeat (destruct Ht as [<-|Ht]); [..|done]; cbn in Hv |- *; try (by destruct v).
    destruct v as [| | | | |d| | | | | | |]; try done. destruct Hv as [Hwf Hn].
    by destruct (Hdec d Hwf Hn) as [j ->].
  - destruct v; try done. cbn in Hv |- *. destruct Hv as [-> Hin].
    rewrite String.eqb_refl. by apply existsb_In in Hin as ->.
  - destruct v as [| | | | | | | | | |items| |]; try done. cbn in Hv |- *.
    assert (Hm : ok_or_null_member rule_name (map_result (canonical_json rule_name t) items)).
    { apply ok_or_null_map. eapply List.Forall_impl; [|exact Hv]. intros v. apply IH. }
    by destruct (map_result _ items).
  - destruct v as [| | | | | | | | | | |values|]; try done. cbn in Hv |- *. rewrite fold_and_Forall in Hv.
    match goal with |- context [map_result ?f fields] =>
      assert (Hm : ok_or_null_member rule_name (map_result f fields)); [|by destruct (map_result f fields)] end.
    apply ok_or_null_map. rewrite List.Forall_forall in Hv, IH |- *. intros [f t] Hin.
    destruct (Hv _ Hin) as (w & Hw & Htw). specialize (IH _ Hin w). cbn [fst snd] in *. rewrite Hw.
    cbn [ok_or mbind result_bind]. destruct w; try (destruct Htw as [|Htw]; [done|];
      specialize (IH Htw); by destruct (canonical_json rule_name t _)).
    destruct (accepts_null t) eqn:Ha; [|by eexists]. by destruct t.
  - by destruct v.
  - cbn in Hv |- *. destruct Hv as [->|Hv]; [done|]. specialize (IH _ Hv). by destruct v.
Qed.

(** A context that binds every declared name to a value of its type. *)
Definition context_typed (declared : btree RuleType) (context : btree RuntimeValue) : Prop :=
  forall f t, bt_get declared f = Some t -> exists v, bt_get context f = Some v /\ has_type t v.

Definition decode_step (bindings : btree Value) (decoded : btree RuntimeValue) (nt : string * RuleType)
    : result RuleError (btree RuntimeValue) :=
  let (name, type_) := nt in
  value ← ok_or (MissingBinding name) (bt_get bindings name);
  value ← ok_or (InvalidBinding name (display_name type_)) (decode_value type_ value);
  Ok (bt_insert decoded name value).

Lemma decode_step_Ok bindings decoded f t decoded' :
  decode_step bindings decoded (f, t) = Ok decoded' ->
  exists j v, bt_get bindings f = Some j /\ decode_value t j = Some v /\ decoded' = bt_insert decoded f v.
Proof. unfold decode_step. intros Hs. inv_ok. eauto. Qed.

Lemma decode_fold bindings l m ctx :
  bt_wf m -> NoDup (map fst l) -> fold_result (decode_step bindings) m l = Ok ctx ->
  (forall f, ~ In f (map fst l) -> bt_get ctx f = bt_get m f)
  /\ (forall f t, In (f, t) l ->
        exists j v, bt_get bindings f = Some j /\ decode_value t j = Some v /\ bt_get ctx f = Some v).
Proof.
  revert m. induction l as [|[f t] l IH]; intros m Hm Hnd Hfold; cbn [fold_result] in Hfold.
  { inv_ok. split; done. }
  destruct (decode_step bindings m (f, t)) as [m'|] eqn:Hs; [|done].
  apply decode_step_Ok in Hs as (j & v & Hj & Hv & ->).
  cbn in Hnd. rewrite NoDup_cons, list_elem_of_In in Hnd. destruct Hnd as [Hf Hnd].
  destruct (IH _ (bt_insert_wf _ _ _ Hm) Hnd Hfold) as [Hout Hin]. split.
  - intros g Hg. cbn in Hg. rewrite Hout by tauto. rewrite bt_get_insert by done.
    destruct (String.eqb_spec g f) as [->|]; [tauto|done].
  - intros g t' [[= -> ->]|Hg]; [|by apply Hin]. exists j, v. split_and!; try done.
    rewrite Hout by done. by rewrite bt_get_insert, String.eqb_refl.
Qed.

(** Decoding succeeds only on exactly the declared names, and binds each
    to the decoded value of its JSON binding. *)
Theorem decode_bindings_spec declared bindings ctx :
  bt_wf declared -> decode_bindings declared bindings = Ok ctx ->
  (forall f, In f (map fst bindings) <-> In f (map fst declared))
  /\ forall f t, bt_get declared f = Some t ->
     exists j v, bt_get bindings f = Some j /\ decode_value t j = Some v /\ bt_get ctx f = Some v
     /\ (type_wf t -> four_digit_years v = true -> has_type t v).
Proof.
  intros Hwf Hd. unfold decode_bindings in Hd.
  apply bind_Ok in Hd as ([] & H1 & Hd). apply bind_Ok in Hd as ([] & H2 & Hd).
  apply each_result_Ok in H1, H2. rewrite List.Forall_forall in H1, H2.
  destruct (decode_fold bindings declared [] ctx) as [_ Hin]; [constructor|by apply bt_wf_NoDup|exact Hd|].
  split.
  - intros f. split; intros Hf.
    + specialize (H2 f Hf). unfold bt_contains in H2. destruct (bt_get declared f) eqn:E; [|done].
      apply bt_get_In in E. apply in_map_iff. by exists (f, r).
    + specialize (H1 f Hf). unfold bt_contains in H1. destruct (bt_get bindings f) eqn:E; [|done].
      apply bt_get_In in E. apply in_map_iff. by exists (f, v).
  - intros f t Hf%bt_get_In. destruct (Hin f t Hf) as (j & v & Hj & Hv & Hget).
    exists j, v. split_and!; try done. intros Ht Hy. by eapply decode_value_typed_ind.
Qed.
End Decoding.

Lemma decode_bindings_witness :
  exists v, bt_get [("total", VInt 12)] "total" = Some v /\ has_type TInt v.
Proof.
  destruct (proj2 (@decode_bindings_spec small_serde [("total", TInt)] [("total", JNumber "12")]
    [("total", VInt 12)] ltac:(repeat constructor) eq_refl) "total" TInt eq_refl)
    as (j & v & _ & Hd & Hv & Ht).
  exists v. split; [done|]. apply Ht; [exact I|]. injection Hv as <-. reflexivity.
Defined.
