(* ===== verification/RulesCheck.v ===== *)
(** * The type checker of rule expressions ([check_expression] in
    [crates/rules/src/eval.rs])

    The checker annotates an expression with its type; [CheckedNull] is the
    type of the literal [null] alone.  An error carries the location of the
    innermost expression that failed. *)
From S2P Require Import Prelude Json RulesSyntax RulesParser RulesDecimal.

Definition type_mismatch (rule_name expected actual : string) : RuleError :=
  TypeMismatch rule_name expected actual.

Definition checked_type_name (t : CheckedType) : string :=
  match t with Concrete t => display_name t | CheckedNull => "null" end.

Definition is_numeric (t : RuleType) : bool :=
  match t with TInt | TInt64 | TDecimal => true | _ => false end.

Definition is_mixed_integer_pair (l r : RuleType) : bool :=
  match l, r with TInt, TInt64 | TInt64, TInt => true | _, _ => false end.

Definition supports_whole_value_equality (t : RuleType) : bool :=
  match t with TList _ | TObject _ _ | TOpaqueJson _ _ _ _ => false | _ => true end.

Definition supports_ordering (t : RuleType) : bool :=
  is_numeric t || match t with TTimestamp => true | _ => false end.

Definition is_assignable (actual : CheckedType) (expected : RuleType) : bool :=
  match actual with
  | CheckedNull => accepts_null expected
  | Concrete actual =>
      ruletype_eqb actual expected
      || match actual, expected with TInt, TInt64 => true | _, _ => false end
  end.

Section Checker.
Variable rule_name : string.

Definition required_concrete (t : CheckedType) : result RuleError RuleType :=
  match t with
  | Concrete t => if accepts_null t then Err (NullableOperation rule_name) else Ok t
  | CheckedNull => Err (type_mismatch rule_name "a non-null value" "null")
  end.

Definition expect_bool (t : CheckedType) : result RuleError unit :=
  t ← required_concrete t;
  match t with
  | TBool => Ok tt
  | _ => Err (type_mismatch rule_name "bool" (display_name t))
  end.

Definition merge_branch_types (when_true when_false : CheckedType) : result RuleError CheckedType :=
  match when_true, when_false with
  | Concrete l, Concrete r =>
      if ruletype_eqb l r then Ok (Concrete l)
      else if is_mixed_integer_pair l r then Ok (Concrete TInt64)
      else Err (IncompatibleBranches rule_name)
  | CheckedNull, Concrete other | Concrete other, CheckedNull =>
      if accepts_null other then Ok (Concrete other) else Err (IncompatibleBranches rule_name)
  | CheckedNull, CheckedNull => Err (IncompatibleBranches rule_name)
  end.

Definition check_equality (l r : CheckedType) : result RuleError unit :=
  match l, r with
  | CheckedNull, Concrete other | Concrete other, CheckedNull =>
      if accepts_null other then Ok tt
      else Err (type_mismatch rule_name "a nullable value" "non-nullable value")
  | CheckedNull, CheckedNull =>
      Err (type_mismatch rule_name "a nullable value" "non-nullable value")
  | Concrete lt, Concrete rt =>
      if accepts_null lt || accepts_null rt then Err (NullableOperation rule_name)
      else if ruletype_eqb lt rt && supports_whole_value_equality lt then Ok tt
      else if is_mixed_integer_pair lt rt then Ok tt
      else Err (type_mismatch rule_name (checked_type_name l) (checked_type_name r))
  end.

Definition check_binary (operation : BinaryOp) (left right : CheckedType)
    : result RuleError CheckedType :=
  match operation with
  | And | Or =>
      _ ← expect_bool left;
      _ ← expect_bool right;
      Ok (Concrete TBool)
  | Equal | NotEqual =>
      _ ← check_equality left right;
      Ok (Concrete TBool)
  | LessThan | LessThanOrEqual | GreaterThan | GreaterThanOrEqual =>
      l ← required_concrete left;
      r ← required_concrete right;
      if (ruletype_eqb l r && supports_ordering l) || is_mixed_integer_pair l r
      then Ok (Concrete TBool)
      else Err (type_mismatch rule_name "matching int, decimal, or timestamp operands"
                  (display_name l +:+ " and " +:+ display_name r))
  | Add | Subtract | Multiply | Divide =>
      l ← required_concrete left;
      r ← required_concrete right;
      if ruletype_eqb l r && is_numeric l then Ok (Concrete l)
      else if is_mixed_integer_pair l r then Ok (Concrete TInt64)
      else Err (type_mismatch rule_name "matching int or decimal operands"
                  (display_name l +:+ " and " +:+ display_name r))
  end.

Definition check_literal (l : Literal) : result RuleError CheckedType :=
  match l with
  | Literal_Null => Ok CheckedNull
  | Literal_Bool _ => Ok (Concrete TBool)
  | Literal_String _ => Ok (Concrete TString)
  | Literal_Int value =>
      match parse_i32 value with
      | Some _ => Ok (Concrete TInt)
      | None =>
          match parse_i64 value with
          | Some _ => Ok (Concrete TInt64)
          | None => Err (InvalidLiteral rule_name "int or bigint")
          end
      end
  | Literal_Decimal value =>
      match Decimal_parse value with
      | Some _ => Ok (Concrete TDecimal)
      | None => Err (InvalidLiteral rule_name "decimal")
      end
  end.

Definition check_unary (op : UnaryOp) (operand : RuleType) : result RuleError CheckedType :=
  match op with
  | Not =>
      match operand with
      | TBool => Ok (Concrete TBool)
      | _ => Err (type_mismatch rule_name "bool" (display_name operand))
      end
  | Negate =>
      if is_numeric operand then Ok (Concrete operand)
      else Err (type_mismatch rule_name "int or decimal" (display_name operand))
  end.

(** The arms of [check_call] once its arguments are checked. *)
Definition check_call_types (function : Function_) (checked : list CheckedExpr)
    : result RuleError CheckedType :=
  match function, checked with
  | Size, [argument] =>
      t ← required_concrete (type_ argument);
      match t with
      | TString | TList _ => Ok (Concrete TInt)
      | other => Err (type_mismatch rule_name "string or list" (display_name other))
      end
  | IsNull, [argument] =>
      match type_ argument with
      | Concrete t =>
          if accepts_null t then Ok (Concrete TBool)
          else Err (type_mismatch rule_name "nullable value" (checked_type_name (type_ argument)))
      | CheckedNull => Err (type_mismatch rule_name "nullable value" "null")
      end
  | (StartsWith | EndsWith), [_; _] =>
      _ ← each_result (fun argument =>
            t ← required_concrete (type_ argument);
            match t with
            | TString => Ok tt
            | _ => Err (type_mismatch rule_name "string" (display_name t))
            end) checked;
      Ok (Concrete TBool)
  | Size, _ | IsNull, _ => Err (type_mismatch rule_name "one function argument" "other")
  | (StartsWith | EndsWith), _ => Err (type_mismatch rule_name "two function arguments" "other")
  end.

Fixpoint literal_normalizes_to_zero (e : Expr) : bool :=
  match ekind e with
  | ELiteral (Literal_Int value) =>
      match parse_i128 value with Some value => value =? 0 | None => false end
  | ELiteral (Literal_Decimal value) =>
      match Decimal_parse value with Some value => is_zero value | None => false end
  | EUnary Negate operand => literal_normalizes_to_zero operand
  | _ => false
  end.

Section Bindings.
Variable context : option ExpressionContext.
Variables bindings declared_types : btree RuleType.

Definition check_enum_symbol (enum_name symbol : string) : result RuleError CheckedType :=
  match bt_get declared_types enum_name with
  | Some (TEnum name symbols as t) =>
      if negb (String.eqb name enum_name)
         || negb (existsb (fun candidate => String.eqb candidate symbol) symbols)
      then Err (UnknownEnumSymbol rule_name enum_name symbol)
      else Ok (Concrete t)
  | _ => Err (UnknownEnumType rule_name enum_name)
  end.

Definition check_list (check : Expr -> result RuleError CheckedExpr) (items : list Expr)
    : result RuleError CheckedType :=
  match items with
  | [] => Err (InvalidLiteral rule_name "a non-empty typed list")
  | first :: rest =>
      first ← check first;
      match type_ first with
      | CheckedNull => Err (InvalidLiteral rule_name "a non-null typed list item")
      | Concrete item_type =>
          _ ← each_result (fun item =>
                item ← check item;
                if checked_type_eqb (type_ item) (Concrete item_type) then Ok tt
                else Err (type_mismatch rule_name (display_name item_type)
                            (checked_type_name (type_ item)))) rest;
          Ok (Concrete (TList item_type))
      end
  end.

Definition check_call (check : Expr -> result RuleError CheckedExpr) (function : Function_)
    (arguments : list Expr) : result RuleError CheckedType :=
  checked ← map_result check arguments;
  check_call_types function checked.

(** The location given to an error by the [map_err] around the body. *)
Definition locate {A} (span : Span) (m : result RuleError A) : result RuleError A :=
  match context with
  | Some context => map_err (fun e => with_diagnostic e context span) m
  | None => m
  end.

Fixpoint check_expression (e : Expr) : result RuleError CheckedExpr :=
  locate (espan e) (
    type_ ← match ekind e with
    | ELiteral l => check_literal l
    | EName name => t ← ok_or (UndeclaredName rule_name name) (bt_get bindings name); Ok (Concrete t)
    | EEnumSymbol enum_name symbol => check_enum_symbol enum_name symbol
    | EList items => check_list check_expression items
    | EMember target field =>
        target ← check_expression target;
        object ← required_concrete (type_ target);
        match object with
        | TObject _ fields =>
            t ← ok_or (UnknownField rule_name field) (bt_get fields field);
            Ok (Concrete (access_result_type t))
        | other => Err (type_mismatch rule_name "object" (display_name other))
        end
    | EIndex target _ =>
        target ← check_expression target;
        l ← required_concrete (type_ target);
        match l with
        | TList item => Ok (Concrete (access_result_type item))
        | other => Err (type_mismatch rule_name "list" (display_name other))
        end
    | ECall function arguments => check_call check_expression function arguments
    | EUnary op operand =>
        operand ← check_expression operand;
        operand ← required_concrete (type_ operand);
        check_unary op operand
    | EBinary op lhs rhs =>
        lhs ← check_expression lhs;
        rhs ← check_expression rhs;
        if match op with Divide => literal_normalizes_to_zero (expression rhs) | _ => false end
        then Err (DivisionByZero rule_name)
        else check_binary op (type_ lhs) (type_ rhs)
    | EConditional condition when_true when_false =>
        condition ← check_expression condition;
        _ ← expect_bool (type_ condition);
        when_true ← check_expression when_true;
        when_false ← check_expression when_false;
        merge_branch_types (type_ when_true) (type_ when_false)
    end;
    Ok {| expression := e; type_ := type_ |}).
End Bindings.
End Checker.
