(* ===== verification/RulesEval.v ===== *)
(** * The evaluator of checked rule expressions ([crates/rules/src/eval.rs])

    [evaluate_expression] and what it calls, then the soundness of the type
    checker: a checked expression evaluated in a context of its bindings' types
    gives a value of its type, or fails with a division by zero or an
    arithmetic overflow. *)
From S2P Require Import Prelude Json RulesSyntax RulesParser RulesDecimal RulesTime RulesValue RulesCheck.

Definition arithmetic_overflow (rule_name : string) : RuleError :=
  InvalidLiteral rule_name "an arithmetic result in range".

Section Evaluator.
Context `{Serde}.
Variable rule_name : string.

Definition evaluate_literal (l : Literal) : result RuleError RuntimeValue :=
  match l with
  | Literal_Null => Ok VNull
  | Literal_Bool b => Ok (VBool b)
  | Literal_String s => Ok (VString s)
  | Literal_Int value =>
      match parse_i32 value with
      | Some z => Ok (VInt z)
      | None =>
          match parse_i64 value with
          | Some z => Ok (VInt64 z)
          | None => Err (InvalidLiteral rule_name "int or bigint")
          end
      end
  | Literal_Decimal value =>
      VDecimal <$> ok_or (InvalidLiteral rule_name "decimal") (Decimal_parse value)
  end.

(** [checked_div] of a signed type truncates towards zero; its only overflow is
    the most negative number by minus one. *)
Definition machine_op (lo hi : Z) (operation : BinaryOp) (l r : Z) : result RuleError Z :=
  match operation with
  | Add => ok_or (arithmetic_overflow rule_name) (checked lo hi (l + r))
  | Subtract => ok_or (arithmetic_overflow rule_name) (checked lo hi (l - r))
  | Multiply => ok_or (arithmetic_overflow rule_name) (checked lo hi (l * r))
  | Divide =>
      if r =? 0 then Err (DivisionByZero rule_name)
      else ok_or (arithmetic_overflow rule_name) (checked lo hi (Z.quot l r))
  | _ => Err (InternalInvariant rule_name)
  end.

Definition checked_i64_arithmetic := machine_op i64_min i64_max.

Definition decimal_op (operation : BinaryOp) (l r : Decimal) : result RuleError RuntimeValue :=
  if match operation with Divide => is_zero r | _ => false end then Err (DivisionByZero rule_name)
  else
    let wrap d := VDecimal <$> ok_or (arithmetic_overflow rule_name) d in
    match operation with
    | Add => wrap (checked_add l r)
    | Subtract => wrap (checked_sub l r)
    | Multiply => wrap (checked_mul l r)
    | Divide => wrap (checked_div l r)
    | _ => Err (InternalInvariant rule_name)
    end.

Definition arithmetic_values (operation : BinaryOp) (left right : RuntimeValue)
    : result RuleError RuntimeValue :=
  match left, right with
  | VInt l, VInt r => VInt <$> machine_op i32_min i32_max operation l r
  | VInt64 l, VInt64 r | VInt l, VInt64 r | VInt64 l, VInt r =>
      VInt64 <$> checked_i64_arithmetic operation l r
  | VDecimal l, VDecimal r => decimal_op operation l r
  | _, _ => Err (type_mismatch rule_name "matching numeric operands"
                   (type_name left +:+ " and " +:+ type_name right))
  end.

Definition compare_values (left right : RuntimeValue) : result RuleError comparison :=
  match left, right with
  | VInt l, VInt r | VInt64 l, VInt64 r | VInt l, VInt64 r | VInt64 l, VInt r => Ok (Z.compare l r)
  | VDecimal l, VDecimal r => Ok (Decimal_cmp l r)
  | VTimestamp l, VTimestamp r =>
      ok_or (InternalInvariant rule_name) (compare_canonical_timestamps l r)
  | _, _ => Err (type_mismatch rule_name "matching numeric or timestamp operands"
                   (type_name left +:+ " and " +:+ type_name right))
  end.

Definition values_equal (left right : RuntimeValue) : bool :=
  match left, right with
  | VInt l, VInt64 r | VInt64 l, VInt r => l =? r
  | _, _ => runtime_eqb left right
  end.

Definition evaluate_binary (operation : BinaryOp) (left right : RuntimeValue)
    : result RuleError RuntimeValue :=
  match operation with
  | Equal => Ok (VBool (values_equal left right))
  | NotEqual => Ok (VBool (negb (values_equal left right)))
  | LessThan | LessThanOrEqual | GreaterThan | GreaterThanOrEqual =>
      ordering ← compare_values left right;
      value ← match operation with
              | LessThan => Ok match ordering with Lt => true | _ => false end
              | LessThanOrEqual => Ok match ordering with Gt => false | _ => true end
              | GreaterThan => Ok match ordering with Gt => true | _ => false end
              | GreaterThanOrEqual => Ok match ordering with Lt => false | _ => true end
              | _ => Err (InternalInvariant rule_name)
              end;
      Ok (VBool value)
  | Add | Subtract | Multiply | Divide => arithmetic_values operation left right
  | And | Or => Err (InternalInvariant rule_name)
  end.

Definition evaluate_unary (op : UnaryOp) (operand : RuntimeValue) : result RuleError RuntimeValue :=
  match op, operand with
  | Not, VBool b => Ok (VBool (negb b))
  | Negate, VInt z => VInt <$> ok_or (arithmetic_overflow rule_name) (checked i32_min i32_max (- z))
  | Negate, VInt64 z => VInt64 <$> ok_or (arithmetic_overflow rule_name) (checked i64_min i64_max (- z))
  | Negate, VDecimal d => VDecimal <$> ok_or (arithmetic_overflow rule_name) (checked_neg d)
  | Not, other => Err (type_mismatch rule_name "bool" (type_name other))
  | Negate, other => Err (type_mismatch rule_name "int or decimal" (type_name other))
  end.

Definition size_of (n : nat) : result RuleError RuntimeValue :=
  VInt <$> ok_or (arithmetic_overflow rule_name) (checked i32_min i32_max (Z.of_nat n)).

Definition evaluate_call (eval : Expr -> result RuleError RuntimeValue) (function : Function_)
    (arguments : list Expr) : result RuleError RuntimeValue :=
  match function with
  | Size =>
      match arguments with
      | [] => Err (InternalInvariant rule_name)
      | first :: _ =>
          v ← eval first;
          match v with
          | VString s => size_of (List.length (chars s))
          | VList items => size_of (List.length items)
          | other => Err (type_mismatch rule_name "string or list" (type_name other))
          end
      end
  | IsNull =>
      match arguments with
      | [] => Err (InternalInvariant rule_name)
      | first :: _ => v ← eval first; Ok (VBool match v with VNull => true | _ => false end)
      end
  | StartsWith | EndsWith =>
      match arguments with
      | [] => Err (InternalInvariant rule_name)
      | first :: rest =>
          left ← eval first;
          match rest with
          | [] => Err (InternalInvariant rule_name)
          | second :: _ =>
              right ← eval second;
              match left, right with
              | VString l, VString r =>
                  match function with
                  | StartsWith => Ok (VBool (starts_with r l))
                  | EndsWith => Ok (VBool (ends_with r l))
                  | _ => Err (InternalInvariant rule_name)
                  end
              | _, _ => Err (type_mismatch rule_name "string" "non-string")
              end
          end
      end
  end.

(** One operand of [&&] and [||]. *)
Definition operand_bool (v : RuntimeValue) : result RuleError bool :=
  match v with VBool b => Ok b | _ => Err (type_mismatch rule_name "bool" "non-bool") end.

Section Context.
Variable context : btree RuntimeValue.

Fixpoint evaluate_expression (e : Expr) : result RuleError RuntimeValue :=
  match ekind e with
  | ELiteral l => evaluate_literal l
  | EName name => ok_or (MissingBinding name) (bt_get context name)
  | EEnumSymbol enum_name symbol => Ok (VEnum enum_name symbol)
  | EList items => VList <$> map_result evaluate_expression items
  | EMember target field =>
      v ← evaluate_expression target;
      match v with
      | VObject fields => Ok (match bt_get fields field with Some v => v | None => VNull end)
      | other => Err (type_mismatch rule_name "object" (type_name other))
      end
  | EIndex target index =>
      v ← evaluate_expression target;
      match v with
      | VList items => Ok (match nth_error items (Z.to_nat index) with Some v => v | None => VNull end)
      | other => Err (type_mismatch rule_name "list" (type_name other))
      end
  | ECall function arguments => evaluate_call evaluate_expression function arguments
  | EUnary op operand => v ← evaluate_expression operand; evaluate_unary op v
  | EBinary And lhs rhs =>
      l ← evaluate_expression lhs;
      l ← operand_bool l;
      if negb (l : bool) then Ok (VBool false)
      else r ← evaluate_expression rhs; r ← operand_bool r; Ok (VBool r)
  | EBinary Or lhs rhs =>
      l ← evaluate_expression lhs;
      l ← operand_bool l;
      if (l : bool) then Ok (VBool true)
      else r ← evaluate_expression rhs; r ← operand_bool r; Ok (VBool r)
  | EBinary op lhs rhs =>
      l ← evaluate_expression lhs;
      r ← evaluate_expression rhs;
      evaluate_binary op l r
  | EConditional condition when_true when_false =>
      v ← evaluate_expression condition;
      match v with
      | VBool true => evaluate_expression when_true
      | VBool false => evaluate_expression when_false
      | other => Err (type_mismatch rule_name "bool" (type_name other))
      end
  end.
End Context.
End Evaluator.

(** ** Evaluating a compiled rule *)

Section Rules.
Context `{Serde}.

Record EvaluatedRuntimeValue := { ev_type : RuleType; ev_value : RuntimeValue }.
Record EvaluatedRuleValue := { erv_type : RuleType; erv_value : Value }.

Definition evaluate_runtime_value (rule : CompiledRule) (bindings : btree Value)
    : result RuleError EvaluatedRuntimeValue :=
  context ← decode_bindings (cr_bindings rule) bindings;
  value ← evaluate_expression (cr_name rule) context (expression (cr_expression rule));
  Ok {| ev_type := cr_result rule; ev_value := value |}.

Definition evaluate_value (rule : CompiledRule) (bindings : btree Value)
    : result RuleError EvaluatedRuleValue :=
  value ← evaluate_runtime_value rule bindings;
  json ← canonical_json (cr_name rule) (ev_type value) (ev_value value);
  Ok {| erv_type := ev_type value; erv_value := json |}.

Definition evaluate_bool (rule : CompiledRule) (bindings : btree Value) : result RuleError bool :=
  value ← evaluate_runtime_value rule bindings;
  if negb (ruletype_eqb (ev_type value) TBool) then
    Err (InvalidRuleResult (cr_name rule) "bool" (type_name (ev_value value)))
  else
    match ev_value value with
    | VBool b => Ok b
    | _ => Err (InternalInvariant (cr_name rule))
    end.
End Rules.

(** ** Soundness of the checker *)

(** The errors a checked expression may still raise. *)
Definition arithmetic_error (rule_name : string) (e : RuleError) : Prop :=
  e = DivisionByZero rule_name \/ e = arithmetic_overflow rule_name.

(** A computation that gives a result in [P] or raises such an error. *)
Definition safe {A} (rule_name : string) (P : A -> Prop) (m : result RuleError A) : Prop :=
  match m with Ok a => P a | Err e => arithmetic_error rule_name e end.

Definition has_checked_type (t : CheckedType) (v : RuntimeValue) : Prop :=
  match t with Concrete t => has_type t v | CheckedNull => v = VNull end.

Section Safety.
(** Checking names a declaration or its place in the metadata, and evaluation
    the rule or the table. *)
Variables check_name rule_name : string.
#[local] Abbreviation safe := (safe rule_name).

Lemma safe_bind {A B} (P : A -> Prop) (Q : B -> Prop) m (f : A -> result RuleError B) :
  safe P m -> (forall a, P a -> safe Q (f a)) -> safe Q (m ≫= f).
Proof. intros Hm Hf. destruct m; cbn in *; auto. Qed.

Lemma safe_fmap {A B} (P : A -> Prop) (Q : B -> Prop) m (f : A -> B) :
  safe P m -> (forall a, P a -> Q (f a)) -> safe Q (f <$> m).
Proof. intros Hm Hf. destruct m; cbn in *; auto. Qed.

Lemma safe_checked lo hi z (P : Z -> Prop) :
  (lo <= z <= hi -> P z) -> safe P (ok_or (arithmetic_overflow rule_name) (checked lo hi z)).
Proof.
  intros HP. destruct (checked lo hi z) eqn:E; cbn; [|by right].
  apply checked_Some in E as [-> Hr]. auto.
Qed.

Lemma safe_ok_or {A} (P : A -> Prop) (o : option A) :
  (forall a, o = Some a -> P a) -> safe P (ok_or (arithmetic_overflow rule_name) o).
Proof. intros HP. destruct o; cbn; [auto|by right]. Qed.

Lemma safe_map_result {A B} (P : B -> Prop) (f : A -> result RuleError B) l :
  Forall (fun x => safe P (f x)) l -> safe (Forall P) (map_result f l).
Proof.
  induction 1 as [|x l Hx _ IH]; cbn; [constructor|].
  destruct (f x) as [y|]; [|done]. destruct (map_result f l); cbn in *; [by constructor|done].
Qed.

(** *** Inversion of the checks *)

Lemma required_concrete_Ok t t' :
  required_concrete check_name t = Ok t' -> t = Concrete t' /\ accepts_null t' = false.
Proof.
  destruct t as [t|]; cbn; [|done]. destruct (accepts_null t) eqn:E; [done|]. by intros [= <-].
Qed.

Lemma expect_bool_Ok t : expect_bool check_name t = Ok tt -> t = Concrete TBool.
Proof.
  unfold expect_bool. intros (t' & [-> _]%required_concrete_Ok & Ht)%bind_Ok. by destruct t'.
Qed.

Lemma locate_Ok {A} cx sp (m : result RuleError A) a : locate cx sp m = Ok a <-> m = Ok a.
Proof. destruct cx, m; cbn; split; congruence. Qed.

Lemma has_bool v : has_type TBool v -> exists b, v = VBool b.
Proof. destruct v; try done; eauto. Qed.

(** *** Operators *)

Lemma machine_op_safe lo hi op l r :
  match op with Add | Subtract | Multiply | Divide => True | _ => False end ->
  safe (fun z => lo <= z <= hi) (machine_op rule_name lo hi op l r).
Proof.
  destruct op; try done; intros _; cbn [machine_op]; try (by apply safe_checked).
  destruct (r =? 0); [by left|]. by apply safe_checked.
Qed.

Lemma decimal_op_safe op l r :
  match op with Add | Subtract | Multiply | Divide => True | _ => False end ->
  decimal_wf l -> decimal_wf r ->
  safe (has_type TDecimal) (decimal_op rule_name op l r).
Proof.
  intros Hop Hl Hr. unfold decimal_op. destruct (match op with Divide => _ | _ => _ end) eqn:Hz; [by left|].
  destruct op; try done; eapply safe_fmap; try (apply safe_ok_or; intros d Hd; exact Hd); cbv beta;
    intros d Hd; cbn.
  - destruct (checked_add_ok _ _ _ Hl Hr Hd) as (? & ? & _). done.
  - apply bind_Some in Hd as (nr & Hn & Hd). apply checked_neg_value in Hn as [Hn _]; [|done].
    destruct (checked_add_ok _ _ _ Hl Hn Hd) as (? & ? & _). done.
  - destruct (checked_mul_exact _ _ _ Hl Hr Hd) as (? & ? & _). done.
  - destruct (checked_div_Some _ _ _ Hl Hr Hd) as (? & ? & _ & _ & _ & _ & ? & ? & _). done.
Qed.

(** A type on which arithmetic is checked, and the values it has. *)
Lemma numeric_values t v :
  is_numeric t = true -> has_type t v ->
  match v with VInt z => t <> TDecimal /\ i32_min <= z <= i32_max
  | VInt64 z => t = TInt64 /\ i64_min <= z <= i64_max
  | VDecimal d => t = TDecimal /\ decimal_wf d | _ => False end.
Proof. destruct t, v; cbn; try done; tauto. Qed.

Lemma arithmetic_values_safe op l r tl tr :
  match op with Add | Subtract | Multiply | Divide => True | _ => False end ->
  has_type tl l -> has_type tr r ->
  (tl = tr /\ is_numeric tl = true) \/ is_mixed_integer_pair tl tr = true ->
  safe (has_type (if is_mixed_integer_pair tl tr then TInt64 else tl))
    (arithmetic_values rule_name op l r).
Proof.
  intros Hop Hl Hr Ht. unfold arithmetic_values, checked_i64_arithmetic.
  assert (Hm : forall lo hi wrap t a b, (forall z, lo <= z <= hi -> has_type t (wrap z)) ->
    safe (has_type t) (wrap <$> machine_op rule_name lo hi op a b)).
  { intros lo hi wrap t a b Hw. eapply safe_fmap; [by apply machine_op_safe|done]. }
  destruct Ht as [[<- Hn]|Hmix].
  - assert (is_mixed_integer_pair tl tl = false) as -> by (by destruct tl).
    apply (numeric_values _ _ Hn) in Hl, Hr.
    destruct tl; try done; destruct l; try tauto; destruct r; try tauto;
      try (by apply Hm); try (by destruct Hl); try (by destruct Hr).
    destruct Hl as [_ Hl], Hr as [_ Hr]. by apply decimal_op_safe.
  - destruct tl, tr; try done; destruct l; try done; destruct r; try done; by apply Hm.
Qed.

Lemma compare_values_safe l r tl tr :
  has_type tl l -> has_type tr r ->
  (tl = tr /\ supports_ordering tl = true) \/ is_mixed_integer_pair tl tr = true ->
  safe (fun _ => True) (compare_values rule_name l r).
Proof.
  intros Hl Hr Ht. destruct Ht as [[<- Hs]|Hmix].
  - destruct tl; try done; destruct l; try done; destruct r; try done.
    cbn in *. destruct Hl as [Hl1 Hl2], Hr as [Hr1 Hr2]. unfold compare_canonical_timestamps.
    destruct (Nat.leb_spec 19 (String.length s)); [|lia].
    destruct (Nat.leb_spec 19 (String.length s0)); [|lia]. cbn [andb].
    destruct (String.compare _ _); [|done|done].
    destruct (canonical_timestamp_fraction s); [|done]. by destruct (canonical_timestamp_fraction s0).
  - destruct tl, tr; try done; destruct l; try done; by destruct r.
Qed.

Lemma evaluate_literal_safe l t :
  check_literal check_name l = Ok t -> safe (has_checked_type t) (evaluate_literal rule_name l).
Proof.
  destruct l as [|b|s|s|s]; cbn; try (by intros [= <-]).
  - destruct (parse_i32 s) as [z|] eqn:E; [intros [= <-]; by eapply parse_signed_range|].
    destruct (parse_i64 s) as [z|] eqn:E'; [intros [= <-]; by eapply parse_signed_range|done].
  - destruct (Decimal_parse s) as [d|] eqn:E; [intros [= <-]; by eapply Decimal_parse_wf|done].
Qed.

Lemma safe_wrap lo hi z (Q : RuntimeValue -> Prop) wrap :
  (forall z, lo <= z <= hi -> Q (wrap z)) ->
  safe Q (wrap <$> ok_or (arithmetic_overflow rule_name) (checked lo hi z)).
Proof. intros HQ. apply safe_fmap with (fun z => lo <= z <= hi); [by apply safe_checked|done]. Qed.

Lemma evaluate_unary_safe op operand t v :
  check_unary check_name op operand = Ok t -> has_type operand v ->
  safe (has_checked_type t) (evaluate_unary rule_name op v).
Proof.
  destruct op; cbn [check_unary].
  - destruct operand; try done. intros [= <-] Hv. by destruct v.
  - destruct (is_numeric operand) eqn:Hn; [|done]. intros [= <-] Hv.
    destruct operand; try done; destruct v; try done; cbn [evaluate_unary has_checked_type];
      try (by apply safe_wrap).
    destruct Hv as [Hwf Hnorm]. eapply safe_fmap; [apply safe_ok_or; intros d' Hd; exact Hd|].
    cbv beta. intros d' Hd. cbn. split; [by eapply checked_neg_value|].
    apply bind_Some in Hd as (c & [-> _]%checked_Some & [= <-]).
    destruct Hnorm as [|Hr]; [by left|right]. cbn. rewrite Z.rem_opp_l by lia. lia.
Qed.

(** *** The induction *)

Section Soundness.
Context `{Serde}.

Definition is_logical (op : BinaryOp) : bool := match op with And | Or => true | _ => false end.
Definition is_ordering (op : BinaryOp) : bool :=
  match op with LessThan | LessThanOrEqual | GreaterThan | GreaterThanOrEqual => true | _ => false end.

Lemma check_ordering_Ok op tl tr t :
  is_ordering op = true -> check_binary check_name op tl tr = Ok t ->
  exists l r, tl = Concrete l /\ tr = Concrete r /\ t = Concrete TBool
  /\ ((l = r /\ supports_ordering l = true) \/ is_mixed_integer_pair l r = true).
Proof.
  intros Hop Hc. destruct op; try done; cbn [check_binary] in Hc;
    apply bind_Ok in Hc as (l & [-> _]%required_concrete_Ok & Hc);
    apply bind_Ok in Hc as (r & [-> _]%required_concrete_Ok & Hc);
    (destruct (_ || _)%bool eqn:Hb; [|done]); injection Hc as <-; exists l, r;
    split_and!; try done; apply orb_true_iff in Hb as [[->%ruletype_eqb_eq ?]%andb_true_iff|?]; auto.
Qed.

Lemma check_arithmetic_Ok op tl tr t :
  match op with Add | Subtract | Multiply | Divide => True | _ => False end ->
  check_binary check_name op tl tr = Ok t ->
  exists l r, tl = Concrete l /\ tr = Concrete r
  /\ t = Concrete (if is_mixed_integer_pair l r then TInt64 else l)
  /\ ((l = r /\ is_numeric l = true) \/ is_mixed_integer_pair l r = true).
Proof.
  intros Hop Hc. destruct op; try done; cbn [check_binary] in Hc;
    apply bind_Ok in Hc as (l & [-> _]%required_concrete_Ok & Hc);
    apply bind_Ok in Hc as (r & [-> _]%required_concrete_Ok & Hc); exists l, r;
    (destruct (_ && _)%bool eqn:Hb;
     [apply andb_true_iff in Hb as [<-%ruletype_eqb_eq Hn]; injection Hc as <-;
      assert (is_mixed_integer_pair l l = false) as -> by (by destruct l); split_and!; auto
     |destruct (is_mixed_integer_pair l r) eqn:Hm; [|done]; injection Hc as <-; split_and!; auto]).
Qed.

Lemma evaluate_binary_safe op tl tr t l r :
  is_logical op = false -> check_binary check_name op tl tr = Ok t ->
  has_checked_type tl l -> has_checked_type tr r ->
  safe (has_checked_type t) (evaluate_binary rule_name op l r).
Proof.
  intros Hop Hc Hl Hr. destruct (is_ordering op) eqn:Hord.
  - destruct (check_ordering_Ok _ _ _ _ Hord Hc) as (tl' & tr' & -> & -> & -> & Ht).
    pose proof (compare_values_safe _ _ _ _ Hl Hr Ht) as Hcmp.
    destruct op; try done; cbn [evaluate_binary];
      (destruct (compare_values rule_name l r) as [o|]; [by destruct o|done]).
  - destruct op; try done.
    1, 2: cbn [check_binary] in Hc; apply bind_Ok in Hc as (_ & _ & [= <-]); done.
    all: apply check_arithmetic_Ok in Hc as (tl' & tr' & -> & -> & -> & Ht); [|done];
      by apply (arithmetic_values_safe _ _ _ tl' tr').
Qed.

Variable cx : option ExpressionContext.
Variables bindings declared_types : btree RuleType.
Variable context : btree RuntimeValue.
Hypothesis context_ok : context_typed bindings context.

#[local] Abbreviation check := (check_expression check_name cx bindings declared_types).
#[local] Abbreviation eval := (evaluate_expression rule_name context).

Definition sound (e : Expr) : Prop :=
  forall ce, check e = Ok ce -> safe (has_checked_type (type_ ce)) (eval e).

Lemma sound_bool e ce :
  sound e -> check e = Ok ce -> type_ ce = Concrete TBool ->
  safe (fun v => exists b, v = VBool b) (eval e).
Proof.
  intros Hs Hc Ht. specialize (Hs _ Hc). rewrite Ht in Hs. destruct (eval e); [|done]. by apply has_bool.
Qed.

Lemma check_list_items items t :
  check_list check_name check items = Ok t ->
  exists item, t = Concrete (TList item)
  /\ Forall (fun e => exists ce, check e = Ok ce /\ type_ ce = Concrete item) items.
Proof.
  destruct items as [|first rest]; [done|]. cbn [check_list].
  intros (fe & Hfe & Ht)%bind_Ok. destruct (type_ fe) as [item|] eqn:Hty; [|done].
  apply bind_Ok in Ht as ([] & Hrest & [= <-]). exists item. split; [done|].
  constructor; [by exists fe|]. apply each_result_Ok in Hrest.
  eapply List.Forall_impl; [|exact Hrest]. cbv beta. intros e (ce & Hce & Hif)%bind_Ok.
  destruct (checked_type_eqb _ _) eqn:E; [|done]. apply checked_type_eqb_eq in E. by exists ce.
Qed.

Lemma sound_items items item :
  Forall sound items ->
  Forall (fun e => exists ce, check e = Ok ce /\ type_ ce = Concrete item) items ->
  safe (Forall (has_type item)) (map_result eval items).
Proof.
  intros Hs Hc. apply safe_map_result. apply List.Forall_forall. intros e He.
  rewrite List.Forall_forall in Hs, Hc. destruct (Hc e He) as (ce & Hce & Ht).
  specialize (Hs e He ce Hce). by rewrite Ht in Hs.
Qed.

Lemma sound_call function arguments t :
  Forall sound arguments -> check_call check_name check function arguments = Ok t ->
  safe (has_checked_type t) (evaluate_call rule_name eval function arguments).
Proof.
  intros Hs (checked & Hargs & Ht)%bind_Ok. apply map_result_Ok in Hargs.
  destruct Hargs as [|e1 c1 es cs Hc1 Hargs]; [by destruct function|].
  inversion Hs as [|? ? Hs1 Hs2]; subst. specialize (Hs1 _ Hc1).
  destruct Hargs as [|e2 c2 es cs Hc2 Hargs];
    [|destruct Hargs; [inversion Hs2 as [|? ? Hs3 _]; subst; specialize (Hs3 _ Hc2)|by destruct function]].
  - destruct function; cbn [check_call_types] in Ht; try done; cbn [evaluate_call].
    + apply bind_Ok in Ht as (t' & [Ht1 _]%required_concrete_Ok & Ht). rewrite Ht1 in Hs1.
      eapply safe_bind; [exact Hs1|]. cbn [has_checked_type]. intros v Hv.
      destruct t'; try done; injection Ht as <-; destruct v; try done; by apply safe_wrap.
    + destruct (type_ c1) as [t'|]; [|done]. destruct (accepts_null t'); [|done].
      injection Ht as <-. eapply safe_bind; [exact Hs1|]. done.
  - assert (Hstr : forall f, function = f -> (f = StartsWith \/ f = EndsWith) ->
      t = Concrete TBool /\ type_ c1 = Concrete TString /\ type_ c2 = Concrete TString).
    { intros f -> Hf. destruct Hf as [-> | ->]; cbn [check_call_types] in Ht;
        apply bind_Ok in Ht as ([] & He & [= <-]); apply each_result_Ok in He;
        inversion He as [|? ? H1 He2]; subst; inversion He2 as [|? ? H2 _]; subst;
        apply bind_Ok in H1 as (t1 & [-> _]%required_concrete_Ok & H1), H2 as (t2 & [-> _]%required_concrete_Ok & H2);
        destruct t1; try done; destruct t2; done. }
    destruct function; try done; destruct (Hstr _ eq_refl ltac:(auto)) as (-> & Ht1 & Ht2);
      rewrite Ht1 in Hs1; rewrite Ht2 in Hs3; cbn [evaluate_call];
      (eapply safe_bind; [exact Hs1|]; intros v1 Hv1; eapply safe_bind; [exact Hs3|]; intros v2 Hv2;
       cbn [has_checked_type] in *; destruct v1; try done; by destruct v2).
Qed.

Lemma sound_logical op lhs rhs t lc rc :
  is_logical op = true -> sound lhs -> sound rhs -> check lhs = Ok lc -> check rhs = Ok rc ->
  check_binary check_name op (type_ lc) (type_ rc) = Ok t ->
  safe (has_checked_type t) (eval (Expr_new (Span_new 0 0) (EBinary op lhs rhs))).
Proof.
  intros Hop Hl Hr Hlc Hrc Hc.
  assert (type_ lc = Concrete TBool /\ type_ rc = Concrete TBool /\ t = Concrete TBool) as (Htl & Htr & ->).
  { destruct op; try done; cbn [check_binary] in Hc; apply bind_Ok in Hc as ([] & ?%expect_bool_Ok & Hc);
      apply bind_Ok in Hc as ([] & ?%expect_bool_Ok & [= <-]); done. }
  pose proof (sound_bool _ _ Hl Hlc Htl) as Hbl. pose proof (sound_bool _ _ Hr Hrc Htr) as Hbr.
  destruct op; try done; cbn [evaluate_expression ekind];
    (eapply safe_bind; [exact Hbl|]; intros v [b ->]; cbn [operand_bool mbind result_bind];
     destruct b; cbn [negb]; try done;
     eapply safe_bind; [exact Hbr|]; intros v [b' ->]; done).
Qed.

Lemma sound_conditional c a b tc ta tb t :
  sound c -> sound a -> sound b -> check c = Ok tc -> check a = Ok ta -> check b = Ok tb ->
  type_ tc = Concrete TBool -> merge_branch_types check_name (type_ ta) (type_ tb) = Ok t ->
  safe (has_checked_type t) (eval (Expr_new (Span_new 0 0) (EConditional c a b))).
Proof.
  intros Hc Ha Hb Hcc Hca Hcb Htc Hm. specialize (Ha _ Hca). specialize (Hb _ Hcb).
  assert (Hsub : forall u, u = type_ ta \/ u = type_ tb ->
    forall v, has_checked_type u v -> has_checked_type t v).
  { intros u Hu v Hv. destruct (type_ ta) as [x|], (type_ tb) as [y|]; cbn [merge_branch_types] in Hm; try done.
    - destruct (ruletype_eqb x y) eqn:E; [apply ruletype_eqb_eq in E as ->; injection Hm as <-; by destruct Hu; subst|].
      destruct (is_mixed_integer_pair x y) eqn:E'; [|done]. injection Hm as <-.
      destruct x, y; try done; destruct Hu; subst; by destruct v.
    - destruct (accepts_null x) eqn:E; [|done]. injection Hm as <-. destruct Hu; subst; [done|].
      cbn in *. subst. destruct x; try done. by left.
    - destruct (accepts_null y) eqn:E; [|done]. injection Hm as <-. destruct Hu; subst; [|done].
      cbn in *. subst. destruct y; try done. by left. }
  cbn [evaluate_expression ekind]. eapply safe_bind; [exact (sound_bool _ _ Hc Hcc Htc)|].
  intros v [bo ->]. destruct bo; [destruct (eval a); [|done]|destruct (eval b); [|done]];
    cbn in *; (eapply Hsub; [|eassumption]); auto.
Qed.

Lemma has_nullable_item (items : list RuntimeValue) t i :
  Forall (has_type t) items ->
  has_type (nullable t) (match nth_error items i with Some v => v | None => VNull end).
Proof.
  intros Hf. apply has_type_nullable. destruct (nth_error items i) as [v|] eqn:E; [right|by left].
  rewrite List.Forall_forall in Hf. by eapply Hf, nth_error_In.
Qed.

Lemma check_sound e : sound e.
Proof.
  induction e as [sp l|sp n|sp n s|sp l IH|sp t f IH|sp t i IH|sp f l IH|sp o e IH|sp o l r IHl IHr
                 |sp c a b IHc IHa IHb] using Expr_ind';
    intros ce (t' & Ht & [= <-])%locate_Ok%bind_Ok; cbn [ekind type_] in *.
  - by apply evaluate_literal_safe.
  - apply bind_Ok in Ht as (tn & Htn%ok_or_Ok & [= <-]). destruct (context_ok _ _ Htn) as (v & Hv & Htv). cbn [evaluate_expression ekind].
    by rewrite Hv.
  - unfold check_enum_symbol in Ht. destruct (bt_get declared_types n) as [[| | | | | | | |name syms| | | |]|]; try done.
    destruct (_ || _)%bool eqn:E; [done|]. injection Ht as <-.
    apply orb_false_iff in E as [<-%negb_false_iff%String.eqb_eq E%negb_false_iff].
    cbn. split; [done|]. by apply existsb_In.
  - destruct (check_list_items _ _ Ht) as (item & -> & Hitems). cbn [evaluate_expression ekind].
    eapply safe_fmap; [by apply sound_items|done].
  - apply bind_Ok in Ht as (tc & Htc & Ht). apply bind_Ok in Ht as (o & [Hto _]%required_concrete_Ok & Ht).
    specialize (IH _ Htc). rewrite Hto in IH. destruct o as [| | | | | | | | | |oname fields| |]; try done.
    apply bind_Ok in Ht as (tf & Htf%ok_or_Ok & [= <-]).
    cbn [evaluate_expression ekind]. eapply safe_bind; [exact IH|]. intros v Hv.
    destruct v as [| | | | | | | | | | |values|]; try done.
    cbn [has_checked_type] in Hv. destruct (has_type_member _ _ _ _ _ Hv Htf) as (w & -> & Hw). by apply has_type_nullable.
  - apply bind_Ok in Ht as (tc & Htc & Ht). apply bind_Ok in Ht as (o & [Hto _]%required_concrete_Ok & Ht).
    specialize (IH _ Htc). rewrite Hto in IH. destruct o; try done. injection Ht as <-.
    cbn [evaluate_expression ekind]. eapply safe_bind; [exact IH|]. intros v Hv.
    destruct v; try done. by apply has_nullable_item.
  - by apply sound_call.
  - apply bind_Ok in Ht as (tc & Htc & Ht). apply bind_Ok in Ht as (o' & [Hto _]%required_concrete_Ok & Ht).
    specialize (IH _ Htc). rewrite Hto in IH. cbn [evaluate_expression ekind].
    eapply safe_bind; [exact IH|]. intros v Hv. by eapply evaluate_unary_safe.
  - apply bind_Ok in Ht as (lc & Hlc & Ht). apply bind_Ok in Ht as (rc & Hrc & Ht).
    destruct (match o with Divide => _ | _ => _ end); [done|].
    destruct (is_logical o) eqn:Hlog; [by eapply sound_logical|].
    specialize (IHl _ Hlc). specialize (IHr _ Hrc).
    enough (safe (has_checked_type t') (x ← eval l; y ← eval r; evaluate_binary rule_name o x y))
      by (by destruct o).
    eapply safe_bind; [exact IHl|]. intros x Hx. eapply safe_bind; [exact IHr|]. intros y Hy.
    by eapply evaluate_binary_safe.
  - apply bind_Ok in Ht as (tc & Htc & Ht). apply bind_Ok in Ht as ([] & Hb%expect_bool_Ok & Ht).
    apply bind_Ok in Ht as (ta & Hta & Ht). apply bind_Ok in Ht as (tb & Htb & Ht).
    by eapply sound_conditional.
Qed.
End Soundness.
End Safety.

(** C1: a checked expression, evaluated in a context that binds every name to
    a value of its type, gives a value of its checked type or fails with a
    division by zero or an arithmetic overflow: no other error, and no
    type confusion, is left at run time. *)
Theorem check_expression_sound `{Serde} check_name rule_name cx bindings declared_types context e ce :
  check_expression check_name cx bindings declared_types e = Ok ce ->
  context_typed bindings context ->
  match evaluate_expression rule_name context e with
  | Ok v => has_checked_type (type_ ce) v
  | Err err => err = DivisionByZero rule_name \/ err = arithmetic_overflow rule_name
  end.
Proof. intros Hc Hctx. exact (check_sound check_name rule_name cx _ _ _ Hctx e ce Hc). Qed.

(** *** Evaluating a compiled rule *)

Section Compiled.
Context `{Serde}.
Variables (check_name : string) (cx : option ExpressionContext) (declared_types : btree RuleType).
Variables (rule : CompiledRule) (bindings : btree Value) (ctx : btree RuntimeValue).
Hypothesis checked_rule :
  check_expression check_name cx (cr_bindings rule) declared_types (expression (cr_expression rule))
  = Ok (cr_expression rule).
Hypothesis assignable : is_assignable (type_ (cr_expression rule)) (cr_result rule) = true.
Hypothesis decoded : decode_bindings (cr_bindings rule) bindings = Ok ctx.
Hypothesis typed : context_typed (cr_bindings rule) ctx.

Lemma assignable_has_type v : has_checked_type (type_ (cr_expression rule)) v -> has_type (cr_result rule) v.
Proof.
  pose proof assignable as Ha. destruct (type_ (cr_expression rule)) as [t|]; cbn in Ha |- *.
  - apply orb_true_iff in Ha as [->%ruletype_eqb_eq|Ha]; [done|].
    destruct t; try done. destruct (cr_result rule); try done. by destruct v.
  - intros ->. destruct (cr_result rule); try done. by left.
Qed.

Lemma evaluate_runtime_value_safe :
  safe (cr_name rule) (fun v => ev_type v = cr_result rule /\ has_type (cr_result rule) (ev_value v))
    (evaluate_runtime_value rule bindings).
Proof.
  unfold evaluate_runtime_value. rewrite decoded. cbn [mbind result_bind].
  pose proof (check_sound check_name (cr_name rule) cx _ _ _ typed _ _ checked_rule) as Hv.
  destruct (evaluate_expression _ ctx _) as [v|]; [|done]. cbn in Hv |- *.
  split; [done|by apply assignable_has_type].
Qed.

(** C28: a compiled rule, evaluated over typed bindings, gives a JSON value at
    its result type, or fails with a division by zero, an arithmetic overflow,
    or a null in an object member that is not nullable; and a boolean rule gives
    a boolean or fails with one of the two arithmetic errors.  No internal error
    is left. *)
Theorem compiled_rule_evaluates :
  reads_decimals ->
  match evaluate_value rule bindings with
  | Ok v => erv_type v = cr_result rule
  | Err e => arithmetic_error (cr_name rule) e \/ null_member (cr_name rule) e
  end
  /\ (cr_result rule = TBool -> safe (cr_name rule) (fun _ => True) (evaluate_bool rule bindings)).
Proof.
  intros Hdec. pose proof evaluate_runtime_value_safe as Hs.
  unfold evaluate_value, evaluate_bool. destruct (evaluate_runtime_value rule bindings) as [v|e]; cbn in Hs |- *.
  - destruct Hs as [Ht Hv]. rewrite Ht. split.
    + pose proof (canonical_json_safe (cr_name rule) _ Hdec _ Hv) as Hj.
      destruct (canonical_json _ _ _); [done|by right].
    + intros Hb. rewrite Hb in Hv |- *. apply has_bool in Hv as [b ->]. done.
  - split; [by left|done].
Qed.
End Compiled.

Definition sum_expression : Expr :=
  Expr_new (Span_new 0 9) (EBinary Add (Expr_new (Span_new 0 5) (EName "total"))
    (Expr_new (Span_new 8 9) (ELiteral (Literal_Int "1")))).

Lemma check_expression_sound_witness :
  has_type TInt (VInt 42).
Proof.
  exact (@check_expression_sound small_serde "r" "r" None [("total", TInt)] [] [("total", VInt 41)]
    sum_expression {| expression := sum_expression; type_ := Concrete TInt |} eq_refl
    ltac:(intros f t; cbn; destruct (String.eqb f "total"); [|done]; intros [= <-];
          exists (VInt 41); split; [done|]; vm_compute; split; discriminate)).
Defined.

(** A rule over the sum, for the witness. *)
Definition sum_rule : CompiledRule :=
  {| cr_name := "r"; cr_bindings := [("total", TInt)]; cr_result := TInt64;
     cr_artifact := {| profile_version := 1; original_source := "total + 1"; canonical_ast_sha256 := "";
                       source_sha256 := "" |};
     cr_expression := {| expression := sum_expression; type_ := Concrete TInt |};
     cr_declared_types := [] |}.

(** A reader of decimals. *)
Definition decimal_serde : Serde := {|
  to_vec := to_vec (Serde := small_serde); to_string := to_string (Serde := small_serde);
  from_str := fun s => match Decimal_parse s with Some _ => Some (JNumber s) | None => None end;
  value_eqb := json_eqb;
|}.

Lemma decimal_serde_reads : @reads_decimals decimal_serde.
Proof. intros d Hwf _. cbn. rewrite Decimal_parse_canonical_string_of by done. eauto. Qed.

Lemma compiled_rule_evaluates_witness :
  exists v, @evaluate_value decimal_serde sum_rule [("total", JNumber "41")] = Ok v
  /\ erv_type v = TInt64.
Proof.
  destruct (@compiled_rule_evaluates decimal_serde "r" None [] sum_rule [("total", JNumber "41")]
    [("total", VInt 41)] eq_refl eq_refl eq_refl
    ltac:(intros f t; cbn; destruct (String.eqb f "total"); [|done]; intros [= <-];
          exists (VInt 41); split; [done|]; vm_compute; split; discriminate)
    decimal_serde_reads) as [Hv _].
  destruct (evaluate_value _ _) as [v|] eqn:E in Hv; [by exists v|vm_compute in E; discriminate E].
Defined.

(** the branches of a conditional may mix [int] and [bigint], and the
    conditional is then a [bigint]; but a branch keeps its own width at run
    time, so a [bigint] sum of two [int] values overflows at 32 bits. *)
Theorem mixed_conditional_overflows_at_32_bits `{Serde} :
  exists e,
    parse_expression "r" "(b ? 2000000000 : 3000000000) + (b ? 2000000000 : 3000000000)" = Ok e
  /\ (exists ce, check_expression "r" None [("b", TBool)] [] e = Ok ce /\ type_ ce = Concrete TInt64)
  /\ evaluate_expression "r" [("b", VBool false)] e = Ok (VInt64 6000000000)
  /\ evaluate_expression "r" [("b", VBool true)] e = Err (arithmetic_overflow "r").
Proof.
  eexists. split; [vm_compute; reflexivity|]. split; [eexists; split; vm_compute; reflexivity|].
  split; vm_compute; reflexivity.
Qed.
