(* ===== verification/RulesCanonical.v ===== *)
(** * The canonical byte encoding ([canonical_bytes] in [crates/rules/src/eval.rs])

    The bytes that are hashed to identify a rule, a decision table or a decoded
    input.  An encoder returns the bytes it appends; [None] is a panic of the
    code, from an [expect], an [assert!] or a [panic!]. *)
From S2P Require Import Prelude Json RulesSyntax RulesParser RulesDecimal RulesTime RulesValue RulesCheck.
Set Warnings "-register-all".

(** ** Bytes *)

Definition byte (b : Z) : option string := Some (String (ascii_of_N (Z.to_N b)) "").

(** [to_be_bytes] of an [n]-byte unsigned integer. *)
Fixpoint be_bytes (n : nat) (z : Z) : string :=
  match n with
  | O => ""
  | S n => String (ascii_of_N (Z.to_N (z / 2 ^ (8 * Z.of_nat n) mod 256))) (be_bytes n z)
  end.

(** Successive appends. *)
Fixpoint cat (parts : list (option string)) : option string :=
  match parts with
  | [] => Some ""
  | part :: parts => s ← part; t ← cat parts; Some (s +:+ t)
  end.

Definition encode_count (count : Z) : option string :=
  count ← checked 0 u32_max count; Some (be_bytes 4 count).

Definition encode_string (value : string) : option string :=
  cat [encode_count (Z.of_nat (String.length value)); Some value].

Definition encode_bool (value : bool) : option string := byte (if value then 1 else 0).

Definition encode_decimal (value : Decimal) : option string :=
  let value := normalized value in
  if coefficient value =? 0 then cat [byte 0; encode_string "0"; Some (be_bytes 4 0)]
  else cat [byte (if coefficient value <? 0 then 1 else 0);
            encode_string (show_nat (Z.abs (coefficient value)));
            Some (be_bytes 4 (scale value))].

(** Named entries in the byte order of their names. *)
Definition encode_entries (entries : list (string * option string)) : option string :=
  cat (map (fun entry => cat [encode_string entry.1; entry.2]) (sort_entries entries)).

Definition encode_map (entries : list (string * option string)) : option string :=
  cat [encode_count (Z.of_nat (List.length entries)); encode_entries entries].

Definition encode_strings (l : list string) : option string :=
  cat (encode_count (Z.of_nat (List.length l)) :: map encode_string l).

(** ** Types *)

(** The types under a nullable one are not nullable in the encoding: the
    [while let] loop of [encode_type]. *)
Fixpoint strip_nullable (t : RuleType) : RuleType :=
  match t with TNullable inner => strip_nullable inner | _ => t end.

Fixpoint encode_type (t : RuleType) : option string :=
  match t with
  | TBool => byte 0x10
  | TString => byte 0x11
  | TInt => byte 0x12
  | TInt64 => byte 0x1c
  | TDecimal => byte 0x13
  | TUuid => byte 0x14
  | TDate => byte 0x15
  | TTimestamp => byte 0x16
  | TEnum name symbols => cat [byte 0x17; encode_string name; encode_strings symbols]
  | TList item => cat [byte 0x18; encode_type item]
  | TObject name fields =>
      cat [byte 0x19; encode_string name; encode_map (map (fun nt => (nt.1, encode_type nt.2)) fields)]
  | TOpaqueJson name maximum_bytes maximum_depth maximum_nodes =>
      cat [byte 0x1b; encode_string name; Some (be_bytes 4 maximum_bytes);
           Some (be_bytes 4 maximum_depth); Some (be_bytes 4 maximum_nodes)]
  | TNullable inner =>
      cat [byte 0x1a;
           (fix strip (t : RuleType) := match t with TNullable t => strip t | _ => encode_type t end) inner]
  end.

Definition encode_type_map (types : btree RuleType) : option string :=
  encode_map (map (fun nt => (nt.1, encode_type nt.2)) types).

Definition encode_declaration (declaration : RuleType) : option string :=
  match declaration with
  | TEnum name symbols => cat [byte 0x40; encode_string name; encode_strings symbols]
  | TObject name fields => cat [byte 0x41; encode_string name; encode_type_map fields]
  | TOpaqueJson name maximum_bytes maximum_depth maximum_nodes =>
      cat [byte 0x42; encode_string name; Some (be_bytes 4 maximum_bytes);
           Some (be_bytes 4 maximum_depth); Some (be_bytes 4 maximum_nodes)]
  | _ => None
  end.

(** ** Values *)

Fixpoint encode_opaque_json (value : Value) : option string :=
  match value with
  | JNull => byte 0
  | JBool b => cat [byte 1; encode_bool b]
  | JNumber n => cat [byte 2; encode_string n]
  | JString s => cat [byte 3; encode_string s]
  | JArray items =>
      cat (byte 4 :: encode_count (Z.of_nat (List.length items)) :: map encode_opaque_json items)
  | JObject fields => cat [byte 5; encode_map (map (fun kv => (kv.1, encode_opaque_json kv.2)) fields)]
  end.

(** One entry of [encode_runtime_map]: an absent object member was decoded to
    null, which is encoded at the nullable type of the member. *)
Definition encode_member (encode : RuleType -> RuntimeValue -> option string)
    (values : btree RuntimeValue) (name : string) (t : RuleType) : option string :=
  value ← bt_get values name;
  match value with
  | VNull => cat [encode_type (nullable t); byte 0x30]
  | _ => encode t value
  end.

Fixpoint encode_typed_value (t : RuleType) (value : RuntimeValue) : option string :=
  cat [encode_type t;
    match value with
    | VNull => if accepts_null t then byte 0x30 else None
    | VBool b => cat [byte 0x31; encode_bool b]
    | VString s => cat [byte 0x32; encode_string s]
    | VInt z => cat [byte 0x33; encode_string (show_Z z)]
    | VInt64 z => cat [byte 0x3c; encode_string (show_Z z)]
    | VDecimal d => cat [byte 0x34; encode_decimal d]
    | VUuid s => cat [byte 0x35; encode_string (to_ascii_lowercase s)]
    | VDate s => cat [byte 0x36; encode_string s]
    | VTimestamp s => cat [byte 0x37; encode_string s]
    | VEnum enum_name symbol => cat [byte 0x38; encode_string enum_name; encode_string symbol]
    | VList values =>
        match t with
        | TList item =>
            cat (byte 0x39 :: encode_count (Z.of_nat (List.length values))
                 :: map (encode_typed_value item) values)
        | _ => None
        end
    | VObject values =>
        match t with
        | TObject _ fields =>
            cat [byte 0x3a;
                 encode_map (map (fun nt : string * RuleType =>
                   let (name, t) := nt in (name, encode_member encode_typed_value values name t)) fields)]
        | _ => None
        end
    | VOpaqueJson v => cat [byte 0x3b; encode_opaque_json v]
    end].

Definition encode_runtime_map (types : btree RuleType) (values : btree RuntimeValue) : option string :=
  encode_map (map (fun nt : string * RuleType =>
    let (name, t) := nt in (name, encode_member encode_typed_value values name t)) types).

Definition encode_json_map `{Serde} (types : btree RuleType) (values : btree Value) : option string :=
  encode_map (map (fun nt : string * RuleType =>
    let (name, t) := nt in
    (name, v ← bt_get values name; v ← decode_value t v; encode_typed_value t v)) types).

(** ** Expressions *)

Record CanonicalExpressionContext := {
  ctx_bindings : btree RuleType;
  ctx_declared_types : list RuleType;
}.

Definition is_null_literal (e : Expr) : bool :=
  match ekind e with ELiteral Literal_Null => true | _ => false end.

Definition is_enum_named (enum_name : string) (t : RuleType) : bool :=
  match t with TEnum name _ => String.eqb name enum_name | _ => false end.

Fixpoint expression_type (context : CanonicalExpressionContext) (expected : option RuleType) (e : Expr)
    : option RuleType :=
  match ekind e with
  | ELiteral Literal_Null => t ← expected; if accepts_null t then Some t else None
  | ELiteral (Literal_Bool _) => Some TBool
  | ELiteral (Literal_String _) => Some TString
  | ELiteral (Literal_Int value) =>
      if match expected with Some TInt64 => true | _ => false end
         || match parse_i32 value with None => true | Some _ => false end
      then Some TInt64 else Some TInt
  | ELiteral (Literal_Decimal _) => Some TDecimal
  | EName name => bt_get (ctx_bindings context) name
  | EEnumSymbol enum_name _ => List.find (is_enum_named enum_name) (ctx_declared_types context)
  | EList items =>
      let item_expected := match expected with Some (TList item) => Some item | _ => None end in
      match items with
      | [] => None
      | item :: _ => TList <$> expression_type context item_expected item
      end
  | EMember target field =>
      t ← expression_type context None target;
      match t with TObject _ fields => nullable <$> bt_get fields field | _ => None end
  | EIndex target _ =>
      t ← expression_type context None target;
      match t with TList item => Some (nullable item) | _ => None end
  | ECall Size _ => Some TInt
  | ECall _ _ => Some TBool
  | EUnary Not _ => Some TBool
  | EUnary Negate operand => expression_type context None operand
  | EBinary (Add | Subtract | Multiply | Divide) lhs rhs =>
      l ← expression_type context None lhs;
      r ← expression_type context None rhs;
      Some (if is_mixed_integer_pair l r then TInt64 else l)
  | EBinary _ _ _ => Some TBool
  | EConditional _ when_true when_false =>
      match expected with
      | Some t => Some t
      | None =>
          if is_null_literal when_true then expression_type context None when_false
          else expression_type context None when_true
      end
  end.

(** The type a [null] operand is compared at. *)
Definition equality_expected_types (context : CanonicalExpressionContext) (lhs rhs : Expr)
    : option (option RuleType) :=
  if negb (is_null_literal lhs) && negb (is_null_literal rhs) then Some None
  else if is_null_literal lhs then Some <$> expression_type context None rhs
  else Some <$> expression_type context None lhs.

Definition function_tag (f : Function_) : Z :=
  match f with Size => 0 | IsNull => 1 | StartsWith => 2 | EndsWith => 3 end.

Definition unary_tag (op : UnaryOp) : Z := match op with Not => 0 | Negate => 1 end.

Definition binary_tag (op : BinaryOp) : Z :=
  match op with
  | Or => 0 | And => 1 | Equal => 2 | NotEqual => 3 | LessThan => 4 | LessThanOrEqual => 5
  | GreaterThan => 6 | GreaterThanOrEqual => 7 | Add => 8 | Subtract => 9 | Multiply => 10
  | Divide => 11
  end.

Definition encode_literal (l : Literal) : option string :=
  match l with
  | Literal_Null => byte 0
  | Literal_Bool b => cat [byte 1; encode_bool b]
  | Literal_Int value => z ← parse_i128 value; cat [byte 2; encode_string (show_Z z)]
  | Literal_Decimal value => d ← Decimal_parse value; cat [byte 3; encode_decimal d]
  | Literal_String s => cat [byte 4; encode_string s]
  end.

Fixpoint encode_expression (context : CanonicalExpressionContext) (expected : option RuleType) (e : Expr)
    : option string :=
  t ← expression_type context expected e;
  cat [match ekind e with
       | ELiteral l => cat [byte 0x20; encode_literal l]
       | EName name => cat [byte 0x21; encode_string name]
       | EEnumSymbol enum_name symbol => cat [byte 0x22; encode_string enum_name; encode_string symbol]
       | EList items =>
           match t with
           | TList item_type =>
               cat (byte 0x23 :: encode_count (Z.of_nat (List.length items))
                    :: map (encode_expression context (Some item_type)) items)
           | _ => None
           end
       | EMember target field =>
           cat [byte 0x24; encode_expression context None target; encode_string field]
       | EIndex target index =>
           cat [byte 0x25; encode_expression context None target; encode_count index]
       | ECall function arguments =>
           cat (byte 0x26 :: byte (function_tag function)
                :: encode_count (Z.of_nat (List.length arguments))
                :: map (encode_expression context None) arguments)
       | EUnary op operand =>
           cat [byte 0x27; byte (unary_tag op); encode_expression context None operand]
       | EBinary op lhs rhs =>
           operand ← equality_expected_types context lhs rhs;
           cat [byte 0x28; byte (binary_tag op); encode_expression context operand lhs;
                encode_expression context operand rhs]
       | EConditional condition when_true when_false =>
           cat [byte 0x29; encode_expression context (Some TBool) condition;
                encode_expression context (Some t) when_true;
                encode_expression context (Some t) when_false]
       end;
       encode_type t].

(** ** Records *)

Definition encode_rule_record (rule : CompiledRule) : option string :=
  cat [encode_string (cr_name rule); encode_type_map (cr_bindings rule); encode_type (cr_result rule);
       encode_expression {| ctx_bindings := cr_bindings rule; ctx_declared_types := cr_declared_types rule |}
         (Some (cr_result rule)) (expression (cr_expression rule))].

Definition hit_policy_byte (p : HitPolicy) : option string :=
  match p with First => byte 0 | Unique => byte 1 | Unsupported _ => None end.

Section Records.
Context `{Serde}.

Definition encode_decision_row (table : CompiledDecisionTable) (row : CompiledDecisionRow) : option string :=
  let context := {| ctx_bindings := cdt_inputs table; ctx_declared_types := cdt_declared_types table |} in
  cat [encode_string (cdr_id row);
       encode_map (map (fun nc : string * CheckedExpr =>
         (nc.1, encode_expression context (Some TBool) (expression nc.2))) (cdr_conditions row));
       output ← as_object (cdr_output row);
       encode_json_map (cdt_output table) (bt_collect output)].

Definition encode_test_case (table : CompiledDecisionTable) (case : CompiledDecisionTestCase) : option string :=
  cat [encode_string (cdc_name case); encode_json_map (cdt_inputs table) (cdc_input case);
       encode_json_map (cdt_output table) (cdc_output case); encode_string (cdc_matched_row_id case)].

Definition encode_decision_record (table : CompiledDecisionTable) : option string :=
  cat (encode_string (cdt_name table)
       :: encode_count (Z.of_nat (List.length (cdt_declared_types table)))
       :: map encode_declaration (cdt_declared_types table)
       ++ [encode_type_map (cdt_inputs table); encode_type_map (cdt_output table);
           hit_policy_byte (cdt_hit_policy table);
           encode_count (Z.of_nat (List.length (cdt_rows table)))]
       ++ map (encode_decision_row table) (cdt_rows table)
       ++ [encode_count (Z.of_nat (List.length (cdt_test_cases table)))]
       ++ map (encode_test_case table) (cdt_test_cases table)).

Inductive CanonicalValue : Type :=
| TypedRule (rule : CompiledRule)
| DecisionDefinitionValue (table : CompiledDecisionTable)
| DecodedTypedInputValue (types : btree RuleType) (bindings : btree Value).

Definition root_byte (root : CanonicalRoot) : Z :=
  match root with TypedRuleAst => 1 | DecisionDefinition => 2 | DecodedTypedInput => 3 end.

Definition frame (root : CanonicalRoot) (body : option string) : option string :=
  cat [Some MAGIC; Some (be_bytes 2 PROFILE_VERSION); byte (root_byte root); body].

Definition canonical_bytes (root : CanonicalRoot) (value : CanonicalValue) : option string :=
  frame root
    match root, value with
    | TypedRuleAst, TypedRule rule => encode_rule_record rule
    | DecisionDefinition, DecisionDefinitionValue table => encode_decision_record table
    | DecodedTypedInput, DecodedTypedInputValue types bindings =>
        match decode_bindings types bindings with
        | Ok decoded => encode_runtime_map types decoded
        | Err _ => None
        end
    | _, _ => None
    end.

Definition canonical_decoded_input_bytes (types : btree RuleType) (decoded : btree RuntimeValue)
    : option string :=
  frame DecodedTypedInput (encode_runtime_map types decoded).
End Records.

(** Two lower-case hexadecimal digits per byte of the digest. *)
Definition hex_digit (z : Z) : ascii := ascii_of_N (Z.to_N (if z <? 10 then z + 48 else z + 87)).

Fixpoint hex (s : string) : string :=
  match s with
  | EmptyString => ""
  | String a s => String (hex_digit (byte_val a / 16)) (String (hex_digit (byte_val a mod 16)) (hex s))
  end.

Definition sha256_hex `{Digest} (bytes : string) : string := hex (sha256 bytes).

(** ** When an encoder panics *)

Lemma cat_Some parts s : cat parts = Some s -> Forall (fun p => is_Some p) parts.
Proof.
  revert s. induction parts as [|p parts IH]; intros s; [constructor|]. cbn.
  intros (x & Hp & (y & Hy & _)%bind_Some)%bind_Some. constructor; [eauto|eauto].
Qed.

Lemma cat_is_Some parts : is_Some (cat parts) <-> Forall (fun p => is_Some p) parts.
Proof.
  split; [intros [s Hs]; by eapply cat_Some|].
  induction 1 as [|p parts [x ->] _ [y Hy]]; cbn; [eauto|]. rewrite Hy. cbn. eauto.
Qed.

Lemma encode_count_is_Some n : is_Some (encode_count n) <-> 0 <= n <= u32_max.
Proof.
  unfold encode_count. split.
  - intros (s & (c & [-> ?]%checked_Some & _)%bind_Some). done.
  - intros Hn. unfold checked. rewrite (proj2 (in_range_spec _ _ _)) by done. cbn. eauto.
Qed.

(** A text or a list short enough to be counted in a [u32]. *)
Definition fits (n : nat) : Prop := Z.of_nat n <= u32_max.

Lemma encode_string_is_Some s : is_Some (encode_string s) <-> fits (String.length s).
Proof.
  unfold encode_string. rewrite cat_is_Some, !List.Forall_cons_iff, encode_count_is_Some.
  unfold fits. split; [lia|]. intros H. split_and!; try lia; eauto.
Qed.

Lemma encode_entries_is_Some entries :
  is_Some (encode_entries entries)
  <-> Forall (fun entry => fits (String.length entry.1) /\ is_Some entry.2) entries.
Proof.
  unfold encode_entries. rewrite cat_is_Some, List.Forall_map.
  rewrite <-(sort_entries_perm entries) at 2.
  split; intros H; (eapply List.Forall_impl; [|exact H]); cbv beta; intros [k v];
    rewrite cat_is_Some, !List.Forall_cons_iff, encode_string_is_Some; cbn [fst snd]; [tauto|].
  intros [? ?]. split_and!; done.
Qed.

Lemma encode_map_is_Some entries :
  is_Some (encode_map entries)
  <-> fits (List.length entries)
      /\ Forall (fun entry => fits (String.length entry.1) /\ is_Some entry.2) entries.
Proof.
  unfold encode_map. rewrite cat_is_Some, !List.Forall_cons_iff, encode_count_is_Some, encode_entries_is_Some.
  unfold fits. split; [|intros [? ?]; split_and!; try done; lia]. intros (? & ? & _). split; [lia|done].
Qed.

(** A list or an object at a nullable type is not encoded: [encode_typed_value]
    takes the type apart without unwrapping it. *)
Lemma encode_nullable_list_panics t values : encode_typed_value (TNullable t) (VList values) = None.
Proof.
  destruct (encode_typed_value _ _) as [s|] eqn:E; [|done]. cbn [encode_typed_value] in E.
  apply cat_Some in E. inversion E as [|? ? _ E2]; subst. inversion E2 as [|? ? [? ?]]; subst. done.
Qed.

Lemma encode_nullable_object_panics t values : encode_typed_value (TNullable t) (VObject values) = None.
Proof.
  destruct (encode_typed_value _ _) as [s|] eqn:E; [|done]. cbn [encode_typed_value] in E.
  apply cat_Some in E. inversion E as [|? ? _ E2]; subst. inversion E2 as [|? ? [? ?]]; subst. done.
Qed.

Lemma encode_runtime_map_panics types values f t v :
  In (f, t) types -> bt_get values f = Some v -> v <> VNull -> encode_typed_value t v = None ->
  encode_runtime_map types values = None.
Proof.
  intros Hin Hv Hnn Hp. destruct (encode_runtime_map types values) eqn:E; [|done].
  assert (Hs : is_Some (encode_runtime_map types values)) by eauto.
  apply encode_map_is_Some in Hs as [_ Hs]. rewrite List.Forall_map, List.Forall_forall in Hs.
  destruct (Hs _ Hin) as [_ He]. cbn [snd] in He. unfold encode_member in He. rewrite Hv in He.
  cbn [mbind option_bind] in He. destruct v; try done; rewrite Hp in He; by destruct He.
Qed.
