(* ===== verification/RulesDigest.v ===== *)
(** * The canonical encoding is unambiguous ([canonical_bytes] in [crates/rules/src/eval.rs])

    Two encodings that agree on some bytes are of the same thing: no encoding is
    a proper prefix of another.  So a digest of a record stands for the record.
    The last part is on the inputs that have an encoding. *)
From S2P Require Import Prelude Json RulesSyntax RulesParser RulesDecimal RulesTime RulesValue RulesCheck RulesCanonical.
Set Warnings "-register-all".

(** ** Unambiguous encodings *)

(** Whatever follows them, two encodings that start one text are of things that
    satisfy [P], and the same text follows. *)
Definition unambiguous (x y : option string) (P : Prop) : Prop :=
  forall s t r q, x = Some s -> y = Some t -> s +:+ r = t +:+ q -> P /\ r = q.

Lemma unambiguous_impl x y (P Q : Prop) : unambiguous x y P -> (P -> Q) -> unambiguous x y Q.
Proof. intros Hu Hpq s t r q Hs Ht E. destruct (Hu s t r q Hs Ht E). auto. Qed.

Lemma unambiguous_nil (P : Prop) : P -> unambiguous (cat []) (cat []) P.
Proof. intros HP s t r q [= <-] [= <-] E. by rewrite !str_app_nil_l in E. Qed.

(** One part after another: what the first parts say is known for the rest. *)
Lemma unambiguous_cons x y xs ys (P Q : Prop) :
  unambiguous x y P -> (P -> unambiguous (cat xs) (cat ys) Q) -> unambiguous (cat (x :: xs)) (cat (y :: ys)) Q.
Proof.
  intros Hx Hxs s t r q Hs Ht E. cbn in Hs, Ht.
  apply bind_Some in Hs as (s1 & Hs1 & (s2 & Hs2 & [= <-])%bind_Some).
  apply bind_Some in Ht as (t1 & Ht1 & (t2 & Ht2 & [= <-])%bind_Some).
  rewrite !str_app_assoc in E. destruct (Hx _ _ _ _ Hs1 Ht1 E) as [HP E2]. by apply (Hxs HP s2 t2).
Qed.

Lemma byte_unambiguous a b : 0 <= a < 256 -> 0 <= b < 256 -> unambiguous (byte a) (byte b) (a = b).
Proof.
  intros Ha Hb s t r q [= <-] [= <-] E. rewrite !str_app_cons, !str_app_nil_l in E. injection E as E ->.
  split; [|done]. apply (f_equal byte_val) in E. by rewrite !byte_val_of in E.
Qed.

Lemma tag_unambiguous a : unambiguous (byte a) (byte a) True.
Proof. intros s t r q [= <-] [= <-] E. rewrite !str_app_cons, !str_app_nil_l in E. by injection E as ->. Qed.

Lemma text_unambiguous a b : String.length a = String.length b -> unambiguous (Some a) (Some b) (a = b).
Proof. intros Hl s t r q [= <-] [= <-] E. by apply str_app_inj_length. Qed.

Lemma be_bytes_length n z : String.length (be_bytes n z) = n.
Proof. induction n; cbn; [done|]. by f_equal. Qed.

Lemma be_bytes_inj n a b :
  0 <= a < 2 ^ (8 * Z.of_nat n) -> 0 <= b < 2 ^ (8 * Z.of_nat n) -> be_bytes n a = be_bytes n b -> a = b.
Proof.
  assert (Hmod : forall n a, be_bytes n (a mod 2 ^ (8 * Z.of_nat n)) = be_bytes n a).
  { clear. assert (Hgen : forall k n a, (n <= k)%nat ->
      be_bytes n (a mod 2 ^ (8 * Z.of_nat k)) = be_bytes n a); [|intros; by apply Hgen].
    intros k n a. induction n as [|n IH]; intros Hn; [done|]. cbn [be_bytes]. rewrite IH by lia. do 3 f_equal.
    replace (8 * Z.of_nat k) with (8 * Z.of_nat n + 8 + 8 * Z.of_nat (k - S n)) by lia.
    rewrite !Z.pow_add_r by lia. change (2 ^ 8) with 256.
    set (p := 2 ^ (8 * Z.of_nat n)). set (q := 2 ^ (8 * Z.of_nat (k - S n))).
    assert (0 < p) by (apply Z.pow_pos_nonneg; lia). assert (0 < q) by (apply Z.pow_pos_nonneg; lia).
    rewrite <-Z.mul_assoc. rewrite Z.rem_mul_r by lia.
    rewrite (Z.mul_comm p ((a / p) mod (256 * q))), Z.div_add by lia.
    rewrite Z.mod_div, Z.add_0_l by lia. rewrite Z.rem_mul_r by lia.
    rewrite Z.mul_comm, Z.mod_add by lia. by rewrite Z.mod_mod by lia. }
  revert a b. induction n as [|n IH]; intros a b Ha Hb E; [cbn in *; lia|].
  cbn [be_bytes] in E. injection E as E1 E2. apply (f_equal byte_val) in E1.
  assert (Hp : 0 < 2 ^ (8 * Z.of_nat n)) by (apply Z.pow_pos_nonneg; lia).
  replace (8 * Z.of_nat (S n)) with (8 * Z.of_nat n + 8) in Ha, Hb by lia.
  rewrite Z.pow_add_r in Ha, Hb by lia. change (2 ^ 8) with 256 in *.
  rewrite !byte_val_of in E1 by (apply Z.mod_pos_bound; lia).
  rewrite !Z.mod_small in E1 by (split; [apply Z.div_pos; lia|apply Z.div_lt_upper_bound; lia]).
  rewrite <-(Hmod n a), <-(Hmod n b) in E2.
  apply IH in E2; try (by apply Z.mod_pos_bound).
  rewrite (Z.div_mod a (2 ^ (8 * Z.of_nat n))), (Z.div_mod b (2 ^ (8 * Z.of_nat n))) by lia. congruence.
Qed.

Lemma u32_unambiguous a b :
  0 <= a <= u32_max -> 0 <= b <= u32_max -> unambiguous (Some (be_bytes 4 a)) (Some (be_bytes 4 b)) (a = b).
Proof.
  unfold u32_max. intros Ha Hb. eapply unambiguous_impl; [by apply text_unambiguous; rewrite !be_bytes_length|].
  apply be_bytes_inj; cbn; lia.
Qed.

Lemma encode_count_unambiguous a b : unambiguous (encode_count a) (encode_count b) (a = b).
Proof.
  intros s t r q Hs Ht. unfold encode_count in *.
  apply bind_Some in Hs as (a' & [-> Ha]%checked_Some & Hs).
  apply bind_Some in Ht as (b' & [-> Hb]%checked_Some & Ht). by eapply u32_unambiguous.
Qed.

Lemma encode_string_unambiguous a b : unambiguous (encode_string a) (encode_string b) (a = b).
Proof.
  unfold encode_string. eapply unambiguous_cons; [apply encode_count_unambiguous|]. intros Hl.
  eapply unambiguous_cons; [apply text_unambiguous; lia|]. intros ->. by apply unambiguous_nil.
Qed.

Lemma encode_bool_unambiguous a b : unambiguous (encode_bool a) (encode_bool b) (a = b).
Proof.
  unfold encode_bool. eapply unambiguous_impl; [apply byte_unambiguous; by destruct a, b|].
  by destruct a, b.
Qed.

(** A counted list of parts. *)
Lemma cat_map_unambiguous {A B} (f : A -> option string) (g : B -> option string) (R : A -> B -> Prop) l l' xs ys Q :
  List.length l = List.length l' -> Forall (fun x => forall y, In y l' -> unambiguous (f x) (g y) (R x y)) l ->
  (Forall2 R l l' -> unambiguous (cat xs) (cat ys) Q) ->
  unambiguous (cat (map f l ++ xs)) (cat (map g l' ++ ys)) Q.
Proof.
  intros Hlen Hf. revert l' Hlen Hf Q. induction l as [|x l IH]; intros [|y l'] Hlen Hf Q Hq; try done.
  { by apply Hq. }
  inversion Hf as [|? ? Hx Hl]; subst. cbn [map app]. eapply unambiguous_cons; [apply Hx; by left|]. intros HR.
  apply IH; [by injection Hlen| |].
  - eapply List.Forall_impl; [|exact Hl]. cbv beta. intros z Hz y' Hy. apply Hz. by right.
  - intros HF. apply Hq. by constructor.
Qed.

Lemma encode_strings_unambiguous l l' : unambiguous (encode_strings l) (encode_strings l') (l = l').
Proof.
  unfold encode_strings. eapply unambiguous_cons; [apply encode_count_unambiguous|]. intros Hl.
  rewrite <-(app_nil_r (map _ l)), <-(app_nil_r (map _ l')).
  apply (cat_map_unambiguous _ _ eq); [lia|apply List.Forall_forall; auto using encode_string_unambiguous|].
  intros HF. apply unambiguous_nil. by apply list_eq_Forall2.
Qed.

(** The leading parts of two [cat]s that are of a basic kind, one at a time. *)
Ltac parts :=
  repeat (eapply unambiguous_cons;
    [first [apply tag_unambiguous | apply encode_string_unambiguous | apply encode_strings_unambiguous
           | apply encode_count_unambiguous | apply encode_bool_unambiguous]|intros ?]);
  try apply unambiguous_nil.

(** A map of entries in the order of their names. *)
Lemma sort_entries_map {A B} (f : A -> B) (m : list (string * A)) :
  sort_entries (map (fun nv => (nv.1, f nv.2)) m) = map (fun nv => (nv.1, f nv.2)) (sort_entries m).
Proof.
  assert (Hins : forall kv (l : list (string * A)),
    insert_sorted (kv.1, f kv.2) (map (fun nv => (nv.1, f nv.2)) l)
    = map (fun nv => (nv.1, f nv.2)) (insert_sorted kv l)).
  { intros kv l. induction l as [|kv' l IH]; [done|]. cbn. destruct (String.compare kv.1 kv'.1); cbn; try done.
    by rewrite IH. }
  induction m as [|kv m IH]; [done|]. cbn [map sort_entries fold_right].
  change (fold_right insert_sorted [] ?x) with (sort_entries x). by rewrite IH, Hins.
Qed.

Lemma encode_entries_unambiguous {A B} (f : A -> option string) (g : B -> option string) (R : A -> B -> Prop)
    (m : list (string * A)) (m' : list (string * B)) :
  Forall (fun x => forall y, In y m' -> x.1 = y.1 -> unambiguous (f x.2) (g y.2) (R x.2 y.2)) m ->
  unambiguous (encode_map (map (fun nv => (nv.1, f nv.2)) m)) (encode_map (map (fun nv => (nv.1, g nv.2)) m'))
    (Forall2 (fun x y => x.1 = y.1 /\ R x.2 y.2) (sort_entries m) (sort_entries m')).
Proof.
  intros Hf. unfold encode_map, encode_entries. rewrite !sort_entries_map, !map_map, !length_map. cbn [fst snd].
  rewrite <-(sort_entries_perm m) in Hf.
  assert (Hl : List.length m = List.length m' -> List.length (sort_entries m) = List.length (sort_entries m'))
    by (by rewrite !sort_entries_perm).
  eapply unambiguous_cons; [apply encode_count_unambiguous|]. intros E.
  eapply unambiguous_cons; [|intros HF; apply unambiguous_nil, HF].
  rewrite <-(app_nil_r (map _ (sort_entries m))), <-(app_nil_r (map _ (sort_entries m'))).
  apply (cat_map_unambiguous _ _ (fun x y => x.1 = y.1 /\ R x.2 y.2)); [apply Hl; lia| |].
  - eapply List.Forall_impl; [|exact Hf]. cbv beta. intros x Hx y Hy.
    assert (Hy' : In y m') by (eapply Permutation_in; [apply sort_entries_perm|exact Hy]).
    eapply unambiguous_cons; [apply encode_string_unambiguous|]. intros Hn.
    eapply unambiguous_cons; [by apply Hx|]. intros HR. by apply unambiguous_nil.
  - intros HF. by apply unambiguous_nil.
Qed.

Lemma encode_map_unambiguous {A B} (f : A -> option string) (g : B -> option string) (R : A -> B -> Prop)
    (m : btree A) (m' : btree B) :
  bt_wf m -> bt_wf m' ->
  Forall (fun x => forall y, In y m' -> x.1 = y.1 -> unambiguous (f x.2) (g y.2) (R x.2 y.2)) m ->
  unambiguous (encode_map (map (fun nv => (nv.1, f nv.2)) m)) (encode_map (map (fun nv => (nv.1, g nv.2)) m'))
    (Forall2 (fun x y => x.1 = y.1 /\ R x.2 y.2) m m').
Proof.
  intros Hm Hm' Hf. eapply unambiguous_impl; [by apply encode_entries_unambiguous, Hf|].
  by rewrite !sort_entries_wf.
Qed.

(** A part whose bytes start with one tag is not confused with one of another. *)
Definition tagged (tag : Z) (x : option string) : Prop :=
  forall s, x = Some s -> exists s', s = String (ascii_of_N (Z.to_N tag)) s'.

Lemma tagged_byte tag : tagged tag (byte tag).
Proof. intros s [= <-]. by exists "". Qed.

Lemma tagged_cat tag xs : tagged tag (cat (byte tag :: xs)).
Proof. intros s (s1 & [= <-] & (s2 & _ & [= <-])%bind_Some)%bind_Some. by exists s2. Qed.

Lemma tagged_differ a b x y P :
  0 <= a < 256 -> 0 <= b < 256 -> a <> b -> tagged a x -> tagged b y -> unambiguous x y P.
Proof.
  intros Ha Hb Hab Hx Hy s t r q Hs Ht E. destruct (Hx _ Hs) as [s' ->], (Hy _ Ht) as [t' ->].
  rewrite !str_app_cons in E. injection E as E _. apply (f_equal byte_val) in E.
  rewrite !byte_val_of in E by done. done.
Qed.

(** ** Types *)

(** A type as it is encoded: a nullable type is not wrapped twice. *)
Fixpoint flatten (t : RuleType) : RuleType :=
  match t with
  | TNullable inner => nullable (flatten inner)
  | TList item => TList (flatten item)
  | TObject name fields => TObject name (map (fun nt => (nt.1, flatten nt.2)) fields)
  | _ => t
  end.

(** The types the code builds: fields in the order of a [BTreeMap], and bounds in
    [u32]. *)
Fixpoint type_repr (t : RuleType) : Prop :=
  match t with
  | TList item => type_repr item
  | TNullable inner => type_repr inner
  | TObject _ fields => bt_wf fields /\ fold_right and True (map (fun nt => type_repr nt.2) fields)
  | TOpaqueJson _ b d n => 0 <= b <= u32_max /\ 0 <= d <= u32_max /\ 0 <= n <= u32_max
  | _ => True
  end.

Definition type_tag (t : RuleType) : Z :=
  match t with
  | TBool => 0x10 | TString => 0x11 | TInt => 0x12 | TInt64 => 0x1c | TDecimal => 0x13 | TUuid => 0x14
  | TDate => 0x15 | TTimestamp => 0x16 | TEnum _ _ => 0x17 | TList _ => 0x18 | TObject _ _ => 0x19
  | TNullable _ => 0x1a | TOpaqueJson _ _ _ _ => 0x1b
  end.

Lemma encode_type_tagged t : tagged (type_tag t) (encode_type t).
Proof. destruct t; try apply tagged_byte; apply tagged_cat. Qed.

Lemma encode_type_nullable inner :
  encode_type (TNullable inner) = cat [byte 0x1a; encode_type (strip_nullable inner)].
Proof.
  cbn [encode_type]. do 2 f_equal. match goal with |- ?f inner :: _ = _ => set (strip := f) end.
  assert (E : strip inner = encode_type (strip_nullable inner)); [|by rewrite E].
  induction inner; try reflexivity. assumption.
Qed.

Lemma flatten_strip t : flatten (TNullable t) = TNullable (flatten (strip_nullable t)).
Proof.
  induction t; try reflexivity. cbn [flatten strip_nullable] in *. rewrite IHt. done.
Qed.

Lemma strip_nullable_repr t : type_repr t -> type_repr (strip_nullable t).
Proof. induction t; auto. Qed.

Lemma type_tag_range t : 0 <= type_tag t < 256.
Proof. destruct t; cbn; lia. Qed.

Lemma encode_type_unambiguous t : forall t', type_repr t -> type_repr t' ->
  unambiguous (encode_type t) (encode_type t') (flatten t = flatten t').
Proof.
  assert (Htag : forall t t' P, type_tag t <> type_tag t' -> unambiguous (encode_type t) (encode_type t') P).
  { intros u u' P Hne. by apply (tagged_differ (type_tag u) (type_tag u'));
      auto using type_tag_range, encode_type_tagged. }
  induction t as [t Ht|n syms|t IH|n fields IH|n mb md mn|t IH] using RuleType_ind'; intros t' Hr Hr'.
  - destruct (decide (type_tag t = type_tag t')) as [E|]; [|by apply Htag].
    cbn in Ht. repeat (destruct Ht as [<-|Ht]); [..|done]; destruct t'; try done;
      (eapply unambiguous_impl; [apply tag_unambiguous|done]).
  - destruct t'; try (by apply Htag). cbn [encode_type flatten]. parts. by subst.
  - destruct t'; try (by apply Htag). cbn [encode_type flatten] in *. parts.
    eapply unambiguous_cons; [by apply IH|]. intros E. apply unambiguous_nil. by rewrite E.
  - destruct t' as [| | | | | | | | | |n' fields'| |]; try (by apply Htag). cbn [encode_type flatten] in *. parts.
    destruct Hr as [Hw Hr], Hr' as [Hw' Hr']. rewrite fold_and_Forall in Hr, Hr'.
    eapply unambiguous_cons.
    { apply (encode_map_unambiguous encode_type encode_type (fun a b => flatten a = flatten b)); [done|done|].
      rewrite List.Forall_forall in IH, Hr, Hr' |- *. intros x Hx y Hy _. apply IH; [done|by apply (Hr x)|by apply (Hr' y)]. }
    intros HF. apply unambiguous_nil. subst. f_equal. clear -HF.
    induction HF as [|[k a] [k' b] l l' [Hk Hab] _ IHl]; cbn in *; [done|]. by subst; rewrite Hab, IHl.
  - destruct t'; try (by apply Htag). cbn [encode_type flatten] in *. parts.
    destruct Hr as (? & ? & ?), Hr' as (? & ? & ?). subst.
    eapply unambiguous_cons; [by apply u32_unambiguous|]. intros ->.
    eapply unambiguous_cons; [by apply u32_unambiguous|]. intros ->.
    eapply unambiguous_cons; [by apply u32_unambiguous|]. intros ->. by apply unambiguous_nil.
  - destruct t' as [| | | | | | | | | | | |t']; try (by apply Htag).
    rewrite !encode_type_nullable, !flatten_strip. parts.
    apply (unambiguous_cons _ _ _ _ (flatten (strip_nullable t) = flatten (strip_nullable t'))); [|intros E; apply unambiguous_nil; by rewrite E].
    cbn [type_repr] in Hr, Hr'. pose proof (strip_nullable_repr _ Hr').
    destruct (accepts_null t) eqn:Hn.
    + (* under a nullable type, the hypothesis is used through its own tag *)
      destruct t; try done. cbn [strip_nullable]. intros s s' r q Hs Hs' E.
      destruct (IH (TNullable t') Hr Hr' (String (ascii_of_N 26) s) (String (ascii_of_N 26) s') r q) as [Hf ->].
      * rewrite encode_type_nullable. cbn. rewrite Hs. cbn. by rewrite str_app_nil_r.
      * rewrite encode_type_nullable. cbn. rewrite Hs'. cbn. by rewrite str_app_nil_r.
      * by rewrite !str_app_cons, E.
      * split; [|done]. rewrite !flatten_strip in Hf. by injection Hf.
    + assert (strip_nullable t = t) as -> by (by destruct t). by apply IH.
Qed.

(** ** Decimals and literals *)

Lemma encode_decimal_eq d :
  decimal_wf d ->
  encode_decimal d
  = cat [byte (if coefficient (normalized d) <? 0 then 1 else 0);
         encode_string (show_nat (Z.abs (coefficient (normalized d))));
         Some (be_bytes 4 (scale (normalized d)))].
Proof.
  intros Hwf. pose proof (normalized_spec d ltac:(destruct Hwf; lia)) as Hs. unfold encode_decimal.
  destruct (Z.eqb_spec (coefficient (normalized d)) 0) as [E|]; [|done].
  assert (scale (normalized d) = 0) as -> by (destruct Hs as (? & ? & [Hz|Hz]); [done|by rewrite E in Hz]).
  by rewrite E.
Qed.

Lemma encode_decimal_unambiguous a b :
  decimal_wf a -> decimal_wf b ->
  unambiguous (encode_decimal a) (encode_decimal b) (normalized a = normalized b).
Proof.
  intros Ha Hb. rewrite !encode_decimal_eq by done.
  eapply unambiguous_cons; [apply byte_unambiguous; repeat case_match; lia|]. intros Hsign. parts.
  match goal with H : show_nat _ = show_nat _ |- _ => apply show_nat_inj in H; [|lia..] end.
  destruct (normalized_wf _ Ha) as [? ?], (normalized_wf _ Hb) as [? ?].
  eapply unambiguous_cons; [apply u32_unambiguous; lia|]. intros Hscale. apply unambiguous_nil.
  destruct (normalized a) as [ca sa], (normalized b) as [cb sb]. cbn in *. f_equal; [|done].
  destruct (Z.ltb_spec ca 0), (Z.ltb_spec cb 0); lia.
Qed.

(** A literal without its spelling: numbers in their canonical text. *)
Definition erase_literal (l : Literal) : Literal :=
  match l with
  | Literal_Int s => match parse_i128 s with Some z => Literal_Int (show_Z z) | None => l end
  | Literal_Decimal s =>
      match Decimal_parse s with Some d => Literal_Decimal (canonical_string (normalized d)) | None => l end
  | _ => l
  end.

Lemma unambiguous_bind {A B} (a : option A) (b : option B) f g P :
  (forall x y, a = Some x -> b = Some y -> unambiguous (f x) (g y) P) ->
  unambiguous (a ≫= f) (b ≫= g) P.
Proof.
  intros Hu s t r q (x & Hx & Hs)%bind_Some (y & Hy & Ht)%bind_Some. by apply (Hu x y Hx Hy).
Qed.

Lemma unambiguous_none_l y P : unambiguous None y P.
Proof. intros s t r q [=]. Qed.

Lemma unambiguous_none_r x P : unambiguous x None P.
Proof. intros s t r q _ [=]. Qed.

Definition literal_tag (l : Literal) : Z :=
  match l with
  | Literal_Null => 0 | Literal_Bool _ => 1 | Literal_Int _ => 2 | Literal_Decimal _ => 3 | Literal_String _ => 4
  end.

Lemma tagged_bind {A} tag (a : option A) f : (forall x, tagged tag (f x)) -> tagged tag (a ≫= f).
Proof. intros Hf s (x & _ & Hs)%bind_Some. by apply (Hf x). Qed.

Lemma encode_literal_tagged l : tagged (literal_tag l) (encode_literal l).
Proof.
  destruct l; try apply tagged_byte; try apply tagged_cat; (apply tagged_bind; intros x; apply tagged_cat).
Qed.

Lemma encode_literal_unambiguous l l' :
  unambiguous (encode_literal l) (encode_literal l') (erase_literal l = erase_literal l').
Proof.
  destruct (decide (literal_tag l = literal_tag l')) as [E|];
    [|by apply (tagged_differ (literal_tag l) (literal_tag l')); auto using encode_literal_tagged;
      [destruct l|destruct l'|..]].
  destruct l, l'; try done; cbn [encode_literal erase_literal].
  - eapply unambiguous_impl; [apply tag_unambiguous|done].
  - parts. by subst.
  - apply unambiguous_bind. intros x y Hx Hy. rewrite Hx, Hy. parts. by f_equal.
  - apply unambiguous_bind. intros x y Hx Hy. rewrite Hx, Hy. parts.
    apply Decimal_parse_wf in Hx as [Hx _], Hy as [Hy _].
    eapply unambiguous_cons; [by apply encode_decimal_unambiguous|]. intros ->. by apply unambiguous_nil.
  - parts. by subst.
Qed.

(** ** Expressions *)

(** An expression without its spans and the spelling of its literals. *)
Fixpoint erase (e : Expr) : Expr :=
  Expr_new (Span_new 0 0)
    match ekind e with
    | ELiteral l => ELiteral (erase_literal l)
    | EName name => EName name
    | EEnumSymbol enum_name symbol => EEnumSymbol enum_name symbol
    | EList items => EList (map erase items)
    | EMember target field => EMember (erase target) field
    | EIndex target index => EIndex (erase target) index
    | ECall function arguments => ECall function (map erase arguments)
    | EUnary op operand => EUnary op (erase operand)
    | EBinary op lhs rhs => EBinary op (erase lhs) (erase rhs)
    | EConditional condition when_true when_false =>
        EConditional (erase condition) (erase when_true) (erase when_false)
    end.

Definition context_repr (c : CanonicalExpressionContext) : Prop :=
  Forall (fun nt => type_repr nt.2) (ctx_bindings c) /\ Forall type_repr (ctx_declared_types c).

Definition expected_repr (t : option RuleType) : Prop := forall t', t = Some t' -> type_repr t'.

Lemma nullable_repr t : type_repr t -> type_repr (nullable t).
Proof. by destruct t. Qed.

Lemma expression_type_repr c e : context_repr c -> forall expected t,
  expected_repr expected -> expression_type c expected e = Some t -> type_repr t.
Proof.
  intros [Hb Hd]. assert (Hnone : expected_repr None) by done.
  induction e as [sp l|sp n|sp n s|sp l IH|sp t f IH|sp t i IH|sp f l IH|sp o e IH|sp o l r IHl IHr
                 |sp cd a b IHc IHa IHb] using Expr_ind'; intros expected t' He Ht; cbn [expression_type ekind] in Ht.
  - destruct l; try (by injection Ht as <-).
    + apply bind_Some in Ht as (u & Hu & Ht). destruct (accepts_null u); [|done]. injection Ht as <-. by apply He.
    + destruct (_ || _)%bool; by injection Ht as <-.
  - by apply (bt_get_Forall (fun nt => type_repr nt.2) _ _ _ Hb) in Ht.
  - apply find_some in Ht as [Hin _]. rewrite List.Forall_forall in Hd. by apply Hd.
  - destruct l as [|item l]; [done|]. apply fmap_Some in Ht as (u & Hu & ->). inversion IH as [|? ? Hi _]; subst.
    cbn [type_repr]. eapply Hi; [|exact Hu]. destruct expected as [[]|]; try done.
    intros u' [= <-]. by apply (He _ eq_refl).
  - apply bind_Some in Ht as (u & Hu & Ht). apply IH in Hu; [|done]. destruct u; try done.
    apply fmap_Some in Ht as (w & Hw & ->). destruct Hu as [_ Hu]. rewrite fold_and_Forall in Hu.
    apply nullable_repr. by apply (bt_get_Forall (fun nt => type_repr nt.2) _ _ _ Hu) in Hw.
  - apply bind_Some in Ht as (u & Hu & Ht). apply IH in Hu; [|done]. destruct u; try done.
    injection Ht as <-. by apply nullable_repr.
  - by destruct f; injection Ht as <-.
  - destruct o; [by injection Ht as <-|exact (IH None _ Hnone Ht)].
  - destruct o; try (by injection Ht as <-);
      (apply bind_Some in Ht as (u & Hu & Ht); apply bind_Some in Ht as (w & Hw & [= <-]);
       destruct (is_mixed_integer_pair u w); [done|exact (IHl None u Hnone Hu)]).
  - destruct expected as [u|]; [injection Ht as <-; by apply He|].
    destruct (is_null_literal a); [exact (IHb None _ Hnone Ht)|exact (IHa None _ Hnone Ht)].
Qed.

(** The part of an expression's encoding before its type. *)
Definition encode_kind (c : CanonicalExpressionContext) (t : RuleType) (e : Expr) : option string :=
  match ekind e with
  | ELiteral l => cat [byte 0x20; encode_literal l]
  | EName name => cat [byte 0x21; encode_string name]
  | EEnumSymbol enum_name symbol => cat [byte 0x22; encode_string enum_name; encode_string symbol]
  | EList items =>
      match t with
      | TList item_type =>
          cat (byte 0x23 :: encode_count (Z.of_nat (List.length items))
               :: map (encode_expression c (Some item_type)) items)
      | _ => None
      end
  | EMember target field => cat [byte 0x24; encode_expression c None target; encode_string field]
  | EIndex target index => cat [byte 0x25; encode_expression c None target; encode_count index]
  | ECall function arguments =>
      cat (byte 0x26 :: byte (function_tag function) :: encode_count (Z.of_nat (List.length arguments))
           :: map (encode_expression c None) arguments)
  | EUnary op operand => cat [byte 0x27; byte (unary_tag op); encode_expression c None operand]
  | EBinary op lhs rhs =>
      operand ← equality_expected_types c lhs rhs;
      cat [byte 0x28; byte (binary_tag op); encode_expression c operand lhs; encode_expression c operand rhs]
  | EConditional condition when_true when_false =>
      cat [byte 0x29; encode_expression c (Some TBool) condition;
           encode_expression c (Some t) when_true; encode_expression c (Some t) when_false]
  end.

Lemma encode_expression_eq c expected e :
  encode_expression c expected e = t ← expression_type c expected e; cat [encode_kind c t e; encode_type t].
Proof. by destruct e. Qed.

Definition kind_tag (k : ExprKind) : Z :=
  match k with
  | ELiteral _ => 0x20 | EName _ => 0x21 | EEnumSymbol _ _ => 0x22 | EList _ => 0x23 | EMember _ _ => 0x24
  | EIndex _ _ => 0x25 | ECall _ _ => 0x26 | EUnary _ _ => 0x27 | EBinary _ _ _ => 0x28
  | EConditional _ _ _ => 0x29
  end.

Lemma encode_kind_tagged c t e : tagged (kind_tag (ekind e)) (encode_kind c t e).
Proof.
  unfold encode_kind. destruct (ekind e); try apply tagged_cat.
  - destruct t; try (by intros ? [=]). apply tagged_cat.
  - apply tagged_bind. intros x. apply tagged_cat.
Qed.

Lemma equality_expected_repr c lhs rhs expected :
  context_repr c -> equality_expected_types c lhs rhs = Some expected -> expected_repr expected.
Proof.
  intros Hc. unfold equality_expected_types.
  assert (Hgen : forall e expected, Some <$> expression_type c None e = Some expected -> expected_repr expected).
  { clear -Hc. intros e expected (t & Ht & ->)%fmap_Some. apply expression_type_repr in Ht; [|done|done].
    by intros t' [= <-]. }
  destruct (_ && _)%bool; [by intros [= <-]|]. destruct (is_null_literal lhs); apply Hgen.
Qed.

Section Expressions.
Variables c c' : CanonicalExpressionContext.
Hypothesis repr : context_repr c.
Hypothesis repr' : context_repr c'.

(** The claim for one expression, whatever types are expected of it. *)
Definition reads (e e' : Expr) : Prop :=
  forall expected expected', expected_repr expected -> expected_repr expected' ->
  unambiguous (encode_expression c expected e) (encode_expression c' expected' e') (erase e = erase e').

Lemma reads_of_kind e e' :
  (forall t t', type_repr t -> type_repr t' ->
     unambiguous (encode_kind c t e) (encode_kind c' t' e') (erase e = erase e')) ->
  reads e e'.
Proof.
  intros Hk expected expected' He He'. rewrite !encode_expression_eq. apply unambiguous_bind.
  intros t t' Ht%expression_type_repr Ht'%expression_type_repr; try done.
  eapply unambiguous_cons; [by apply Hk|]. intros E.
  eapply unambiguous_cons; [by apply encode_type_unambiguous|]. intros _. by apply unambiguous_nil.
Qed.

Lemma reads_list expected expected' l l' :
  expected_repr expected -> expected_repr expected' ->
  Forall (fun e => forall e', reads e e') l -> List.length l = List.length l' ->
  unambiguous (cat (map (encode_expression c expected) l)) (cat (map (encode_expression c' expected') l'))
    (map erase l = map erase l').
Proof.
  intros He He' Hl Hlen. rewrite <-(app_nil_r (map _ l)) at 1. rewrite <-(app_nil_r (map (encode_expression _ _) l')).
  apply (cat_map_unambiguous _ _ (fun e e' => erase e = erase e')); [done| |].
  - eapply List.Forall_impl; [|exact Hl]. cbv beta. intros e Hr e' _. by apply Hr.
  - intros HF. apply unambiguous_nil. clear -HF. induction HF as [|e e' l l' E _ IH]; [done|]. cbn. by rewrite E, IH.
Qed.

Lemma binary_tag_inj a b : binary_tag a = binary_tag b -> a = b.
Proof. destruct a, b; done. Qed.

Lemma encode_expression_reads e : forall e', reads e e'.
Proof.
  assert (Hnone : expected_repr None) by done.
  assert (Hsome : forall t, type_repr t -> expected_repr (Some t)) by (by intros t Ht t' [= <-]).
  induction e as [sp l|sp n|sp n s|sp l IH|sp t f IH|sp t i IH|sp f l IH|sp o e IH|sp o l r IHl IHr
                 |sp cd a b IHc IHa IHb] using Expr_ind'; intros e'; apply reads_of_kind; intros t1 t2 H1 H2;
    (match goal with |- unambiguous (encode_kind _ _ ?e1) _ _ =>
       destruct (decide (kind_tag (ekind e1) = kind_tag (ekind e'))) as [E|E];
         [|apply (tagged_differ (kind_tag (ekind e1)) (kind_tag (ekind e')));
           [done|by destruct (ekind e')|done|apply encode_kind_tagged|apply encode_kind_tagged]] end);
    destruct e' as [sp' k]; destruct k; try done; unfold encode_kind; cbn [ekind erase].
  - parts. eapply unambiguous_cons; [apply encode_literal_unambiguous|]. intros ->. by apply unambiguous_nil.
  - parts. by subst.
  - parts. by subst.
  - destruct t1; try apply unambiguous_none_l. destruct t2; try apply unambiguous_none_r. parts.
    eapply unambiguous_impl; [apply reads_list; auto; lia|]. by intros ->.
  - parts. eapply unambiguous_cons; [by apply IH|]. intros Et. parts. by subst; rewrite Et.
  - parts. eapply unambiguous_cons; [by apply IH|]. intros Et. parts. by subst; rewrite Et.
  - parts. eapply unambiguous_cons; [apply byte_unambiguous; [by destruct f|by destruct function]|]. intros Hf.
    parts. eapply unambiguous_impl; [apply reads_list; auto; lia|]. intros ->. by destruct f, function.
  - parts. eapply unambiguous_cons; [apply byte_unambiguous; [by destruct o|by destruct op]|]. intros Ho.
    eapply unambiguous_cons; [by apply IH|]. intros Ee. apply unambiguous_nil. rewrite Ee. by destruct o, op.
  - apply unambiguous_bind. intros x y Hx%equality_expected_repr Hy%equality_expected_repr; try done. parts.
    eapply unambiguous_cons; [apply byte_unambiguous; [by destruct o|by destruct op]|]. intros ->%binary_tag_inj.
    eapply unambiguous_cons; [by apply IHl|]. intros El.
    eapply unambiguous_cons; [by apply IHr|]. intros Er. apply unambiguous_nil. by rewrite El, Er.
  - parts. eapply unambiguous_cons; [by apply IHc; apply Hsome|]. intros Ec.
    eapply unambiguous_cons; [by apply IHa; apply Hsome|]. intros Ea.
    eapply unambiguous_cons; [by apply IHb; apply Hsome|]. intros Eb. apply unambiguous_nil. by rewrite Ec, Ea, Eb.
Qed.
End Expressions.

(** ** Values *)

(** JSON without the order of members. *)
Fixpoint sort_json (v : Value) : Value :=
  match v with
  | JArray items => JArray (map sort_json items)
  | JObject fields => JObject (sort_entries (map (fun kv => (kv.1, sort_json kv.2)) fields))
  | _ => v
  end.

Definition json_tag (v : Value) : Z :=
  match v with JNull => 0 | JBool _ => 1 | JNumber _ => 2 | JString _ => 3 | JArray _ => 4 | JObject _ => 5 end.

Lemma encode_opaque_json_tagged v : tagged (json_tag v) (encode_opaque_json v).
Proof. destruct v; try apply tagged_byte; apply tagged_cat. Qed.

Lemma encode_opaque_json_unambiguous v : forall w,
  unambiguous (encode_opaque_json v) (encode_opaque_json w) (sort_json v = sort_json w).
Proof.
  induction v as [|b|n|s|l IH|o IH] using Value_ind'; intros w;
    (match goal with |- unambiguous (encode_opaque_json ?v) _ _ =>
      destruct (decide (json_tag v = json_tag w)) as [E|E];
      [|apply (tagged_differ (json_tag v) (json_tag w));
        [done|by destruct w|done|apply encode_opaque_json_tagged|apply encode_opaque_json_tagged]] end);
    destruct w as [| | | |l'|o']; try done; cbn [encode_opaque_json sort_json].
  - eapply unambiguous_impl; [apply tag_unambiguous|done].
  - parts. by subst.
  - parts. by subst.
  - parts. by subst.
  - parts. rewrite <-(app_nil_r (map _ l)) at 1. rewrite <-(app_nil_r (map encode_opaque_json l')).
    apply (cat_map_unambiguous _ _ (fun v w => sort_json v = sort_json w)); [lia| |].
    + eapply List.Forall_impl; [|exact IH]. cbv beta. auto.
    + intros HF. apply unambiguous_nil. f_equal. clear -HF. induction HF as [|x y l l' E _ IHl]; cbn; congruence.
  - parts. eapply unambiguous_cons.
    { apply (encode_entries_unambiguous _ _ (fun v w => sort_json v = sort_json w)).
      eapply List.Forall_impl; [|exact IH]. cbv beta. auto. }
    intros HF. apply unambiguous_nil. f_equal. rewrite !sort_entries_map. clear -HF.
    induction HF as [|[k x] [k' y] l l' [Hk E] _ IHl]; cbn in *; [done|]. by rewrite Hk, E, IHl.
Qed.

(** A value at a type, as it is encoded: uuids in lower case, decimals in
    normal form, exactly the fields of an object, and JSON without the order of
    members. *)
Fixpoint norm_value (t : RuleType) (v : RuntimeValue) : RuntimeValue :=
  match t, v with
  | TNullable inner, _ => norm_value inner v
  | TList item, VList values => VList (map (norm_value item) values)
  | TObject _ fields, VObject values =>
      VObject (map (fun ft => (ft.1, match bt_get values ft.1 with
                                     | Some w => norm_value ft.2 w | None => VNull end)) fields)
  | _, VDecimal d => VDecimal (normalized d)
  | _, VUuid s => VUuid (to_ascii_lowercase s)
  | _, VOpaqueJson j => VOpaqueJson (sort_json j)
  | _, _ => v
  end.

Definition value_tag (v : RuntimeValue) : Z :=
  match v with
  | VNull => 0x30 | VBool _ => 0x31 | VString _ => 0x32 | VInt _ => 0x33 | VInt64 _ => 0x3c | VDecimal _ => 0x34
  | VUuid _ => 0x35 | VDate _ => 0x36 | VTimestamp _ => 0x37 | VEnum _ _ => 0x38 | VList _ => 0x39
  | VObject _ => 0x3a | VOpaqueJson _ => 0x3b
  end.

(** The part of a value's encoding after its type. *)
Definition encode_content (t : RuleType) (value : RuntimeValue) : option string :=
  match value with
  | VNull => if accepts_null t then byte 0x30 else None
  | VBool b => cat [byte 0x31; encode_bool b]
  | VString s => cat [byte 0x32; encode_string s]
  | VInt z => cat [byte 0x33; encode_string (show_Z z)]
  | VInt64 z => cat [byte 0x3c; encode_string (show_Z z)]
  | VDecimal d => cat [byte 0x34; encode_decimal d]
  | VUuid s => cat [byte 0x35; encode_string (to_ascii_lowercase s)]
  | VDate s => cat [byte 0x36; encode_string s]
  | VTimestamp s => cat [byte 0x37; encode_string s]
  | VEnum enum_name symbol => cat [byte 0x38; encode_string enum_name; encode_string symbol]
  | VList values =>
      match t with
      | TList item =>
          cat (byte 0x39 :: encode_count (Z.of_nat (List.length values)) :: map (encode_typed_value item) values)
      | _ => None
      end
  | VObject values =>
      match t with TObject _ fields => cat [byte 0x3a; encode_runtime_map fields values] | _ => None end
  | VOpaqueJson v => cat [byte 0x3b; encode_opaque_json v]
  end.

Lemma encode_typed_value_eq t v : encode_typed_value t v = cat [encode_type t; encode_content t v].
Proof. by destruct t. Qed.

Lemma encode_content_tagged t v : tagged (value_tag v) (encode_content t v).
Proof.
  destruct v; cbn [encode_content]; try apply tagged_cat.
  - destruct (accepts_null t); [apply tagged_byte|by intros ? [=]].
  - destruct t; try (by intros ? [=]). apply tagged_cat.
  - destruct t; try (by intros ? [=]). apply tagged_cat.
Qed.

Lemma has_type_decimal t d : has_type t (VDecimal d) -> decimal_wf d.
Proof. induction t; cbn; try done; [by intros [? _]|]. intros [|]; [done|auto]. Qed.

(** Two typed values, each absent member of an object being null. *)
Definition member_type (t : RuleType) (v : RuntimeValue) : Prop := v = VNull \/ has_type t v.

Lemma norm_scalar t v w :
  match v with VList _ | VObject _ => False | _ => True end -> value_tag v = value_tag w ->
  norm_value TString v = norm_value TString w -> norm_value t v = norm_value t w.
Proof.
  intros Hv Ht E. induction t; try (destruct v, w; try done; cbn in *; congruence).
Qed.

(** Scalars, whatever the type. *)
Lemma encode_scalar_unambiguous t v w :
  match v with VList _ | VObject _ => False | _ => True end -> value_tag v = value_tag w ->
  has_type t v -> has_type t w ->
  unambiguous (encode_content t v) (encode_content t w) (norm_value t v = norm_value t w).
Proof.
  intros Hs Htag Hv Hw.
  apply unambiguous_impl with (norm_value TString v = norm_value TString w); [|by apply norm_scalar].
  destruct v, w; try done; cbn [encode_content norm_value].
  - destruct (accepts_null t); [|apply unambiguous_none_l].
    eapply unambiguous_impl; [apply tag_unambiguous|done].
  - parts. by subst.
  - parts. by subst.
  - parts. f_equal. by apply show_Z_inj.
  - parts. f_equal. by apply show_Z_inj.
  - parts. apply has_type_decimal in Hv, Hw. eapply unambiguous_cons; [by apply encode_decimal_unambiguous|].
    intros ->. by apply unambiguous_nil.
  - parts. by f_equal.
  - parts. by subst.
  - parts. by subst.
  - parts. by subst.
  - parts. eapply unambiguous_cons; [apply encode_opaque_json_unambiguous|]. intros ->. by apply unambiguous_nil.
Qed.

Definition value_reads (t : RuleType) : Prop := forall v w,
  type_repr t -> has_type t v -> has_type t w ->
  unambiguous (encode_typed_value t v) (encode_typed_value t w) (norm_value t v = norm_value t w).

(** A member: its null is encoded at the nullable type. *)
Lemma encode_member_unambiguous values values' f t :
  value_reads t -> type_repr t ->
  (exists v, bt_get values f = Some v /\ member_type t v) ->
  (exists w, bt_get values' f = Some w /\ member_type t w) ->
  unambiguous (encode_member encode_typed_value values f t) (encode_member encode_typed_value values' f t)
    (norm_value t (match bt_get values f with Some w => w | None => VNull end)
     = norm_value t (match bt_get values' f with Some w => w | None => VNull end)).
Proof.
  intros Hr Ht (v & Hv & Hvt) (w & Hw & Hwt). unfold encode_member. rewrite Hv, Hw. cbn [mbind option_bind].
  assert (Hnull : forall x, x <> VNull -> has_type t x ->
    unambiguous (cat [encode_type (nullable t); byte 0x30]) (encode_typed_value t x) (norm_value t VNull = norm_value t x)
    /\ unambiguous (encode_typed_value t x) (cat [encode_type (nullable t); byte 0x30]) (norm_value t x = norm_value t VNull)).
  { intros x Hx _. rewrite encode_typed_value_eq. split.
    all: eapply unambiguous_cons; [apply encode_type_unambiguous; auto using nullable_repr|]; intros _.
    all: eapply unambiguous_cons; [|intros HF; apply unambiguous_nil, HF].
    all: eapply tagged_differ;
      [| | |first [apply tagged_byte|apply encode_content_tagged]|first [apply tagged_byte|apply encode_content_tagged]];
      try done; destruct x; done. }
  destruct (decide (value_tag v = 0x30)) as [Ev|Ev], (decide (value_tag w = 0x30)) as [Ew|Ew].
  - destruct v; try done. destruct w; try done.
    eapply unambiguous_cons; [apply encode_type_unambiguous; auto using nullable_repr|]. intros _. by parts.
  - destruct v; try done. destruct Hwt as [->|Hwt]; [done|].
    assert (w <> VNull) by (by intros ->). destruct (Hnull w) as [Hu _]; [done|done|]. by destruct w.
  - destruct w; try done. destruct Hvt as [->|Hvt]; [done|].
    assert (v <> VNull) by (by intros ->). destruct (Hnull v) as [_ Hu]; [done|done|]. by destruct v.
  - destruct Hvt as [->|Hvt], Hwt as [->|Hwt]; try done. specialize (Hr v w Ht Hvt Hwt).
    destruct v; try done; by destruct w.
Qed.

Lemma encode_runtime_map_unambiguous types values values' :
  bt_wf types -> Forall (fun ft => type_repr ft.2) types -> Forall (fun ft => value_reads ft.2) types ->
  Forall (fun ft => exists v, bt_get values ft.1 = Some v /\ member_type ft.2 v) types ->
  Forall (fun ft => exists v, bt_get values' ft.1 = Some v /\ member_type ft.2 v) types ->
  unambiguous (encode_runtime_map types values) (encode_runtime_map types values')
    (Forall (fun ft => norm_value ft.2 (match bt_get values ft.1 with Some w => w | None => VNull end)
                       = norm_value ft.2 (match bt_get values' ft.1 with Some w => w | None => VNull end)) types).
Proof.
  intros Hw Hrepr Hreads Hv Hv'. unfold encode_runtime_map.
  set (m := map (fun ft : string * RuleType => (ft.1, ft)) types).
  assert (Hm : bt_wf m) by (unfold m, bt_wf; by rewrite map_map).
  assert (Hmap : forall vs, map (fun nt : string * RuleType =>
      let (name, t) := nt in (name, encode_member encode_typed_value vs name t)) types
    = map (fun x => (x.1, encode_member encode_typed_value vs x.2.1 x.2.2)) m).
  { intros vs. unfold m. rewrite map_map. apply List.map_ext. by intros []. }
  set (same := fun ft : string * RuleType =>
    norm_value ft.2 (match bt_get values ft.1 with Some w => w | None => VNull end)
    = norm_value ft.2 (match bt_get values' ft.1 with Some w => w | None => VNull end)).
  rewrite !Hmap. eapply unambiguous_impl.
  { apply (encode_map_unambiguous
      (fun ft => encode_member encode_typed_value values ft.1 ft.2)
      (fun ft => encode_member encode_typed_value values' ft.1 ft.2) (fun ft _ => same ft) m m Hm Hm).
    unfold m. rewrite List.Forall_map. rewrite List.Forall_forall in Hrepr, Hreads, Hv, Hv' |- *.
    intros [f t] Hin y ([f' t'] & <- & Hin')%in_map_iff. cbn [fst snd]. intros <-.
    assert (t' = t) as ->.
    { apply bt_wf_NoDup in Hw. apply (bt_In_get _ _ _ Hw) in Hin, Hin'. congruence. }
    apply encode_member_unambiguous; [by apply (Hreads (f, t))|by apply (Hrepr (f, t))
      |by apply (Hv (f, t))|by apply (Hv' (f, t))]. }
  unfold m. clear. induction types as [|ft types IH]; [constructor|]. cbn. intros HF.
  inversion HF as [|? ? ? ? [_ Hs] HF']; subst. constructor; [exact Hs|by apply IH].
Qed.


Lemma encode_object_unambiguous fields values values' :
  bt_wf fields -> Forall (fun ft => type_repr ft.2) fields -> Forall (fun ft => value_reads ft.2) fields ->
  Forall (fun ft => exists v, bt_get values ft.1 = Some v /\ member_type ft.2 v) fields ->
  Forall (fun ft => exists v, bt_get values' ft.1 = Some v /\ member_type ft.2 v) fields ->
  forall name, unambiguous (encode_runtime_map fields values) (encode_runtime_map fields values')
    (norm_value (TObject name fields) (VObject values) = norm_value (TObject name fields) (VObject values')).
Proof.
  intros Hw Hr Hreads Hv Hv' name.
  eapply unambiguous_impl; [by apply encode_runtime_map_unambiguous|]. cbn [norm_value]. intros HF. f_equal.
  apply List.map_ext_in. intros ft Hin. rewrite List.Forall_forall in HF, Hv, Hv'. specialize (HF _ Hin).
  destruct (Hv _ Hin) as (v & E & _), (Hv' _ Hin) as (v' & E' & _). rewrite E, E' in HF |- *. by rewrite HF.
Qed.

Lemma encode_typed_value_reads t : value_reads t.
Proof.
  induction t as [t Ht|n syms|t IH|n fields IH|n mb md mn|t IH] using RuleType_ind';
    intros v w Hr Hv Hw; rewrite !encode_typed_value_eq;
    (eapply unambiguous_cons; [by apply encode_type_unambiguous|intros _]);
    (eapply unambiguous_cons; [|intros HF; apply unambiguous_nil, HF]);
    (destruct (decide (value_tag v = value_tag w)) as [E|E];
      [|apply (tagged_differ (value_tag v) (value_tag w));
        [by destruct v|by destruct w|done|apply encode_content_tagged|apply encode_content_tagged]]);
    (destruct (match v with VList _ | VObject _ => true | _ => false end) eqn:Hc;
      [|apply encode_scalar_unambiguous; [by destruct v|done..]]);
    destruct v as [| | | | | | | | | |l|o|]; try done; destruct w as [| | | | | | | | | |l'|o'|]; try done;
    try apply unambiguous_none_l.
  - cbn in Ht. repeat (destruct Ht as [<-|Ht]); [..|done]; apply unambiguous_none_l.
  - cbn in Ht. repeat (destruct Ht as [<-|Ht]); [..|done]; apply unambiguous_none_l.
  - cbn [encode_content norm_value] in *. parts.
    rewrite <-(app_nil_r (map _ l)) at 1. rewrite <-(app_nil_r (map (encode_typed_value t) l')).
    apply (cat_map_unambiguous _ _ (fun v w => norm_value t v = norm_value t w)); [lia| |].
    + cbn [has_type] in Hv, Hw. rewrite List.Forall_forall in Hv, Hw |- *. intros x Hx y Hy. apply IH; auto.
    + intros HF. apply unambiguous_nil. f_equal. clear -HF. induction HF as [|x y l l' E _ IHl]; cbn; congruence.
  - cbn [encode_content] in *. parts. destruct Hr as [Hw' Hr].
    cbn [has_type] in Hv, Hw. rewrite fold_and_Forall in Hr, Hv, Hw.
    eapply unambiguous_cons; [by apply encode_object_unambiguous|]. intros HF. apply unambiguous_nil, HF.
Qed.

(** ** Records *)

(** The rules the code builds: bindings in the order of a [BTreeMap]. *)
Record rule_repr (rule : CompiledRule) : Prop := {
  rr_sorted : bt_wf (cr_bindings rule);
  rr_context : context_repr {| ctx_bindings := cr_bindings rule; ctx_declared_types := cr_declared_types rule |};
  rr_result : type_repr (cr_result rule);
}.

Definition flatten_map (types : btree RuleType) : btree RuleType := map (fun nt => (nt.1, flatten nt.2)) types.

Lemma encode_type_map_unambiguous m m' :
  bt_wf m -> bt_wf m' -> Forall (fun nt => type_repr nt.2) m -> Forall (fun nt => type_repr nt.2) m' ->
  unambiguous (encode_type_map m) (encode_type_map m') (flatten_map m = flatten_map m').
Proof.
  intros Hw Hw' Hr Hr'. eapply unambiguous_impl.
  { apply (encode_map_unambiguous encode_type encode_type (fun a b => flatten a = flatten b)); [done|done|].
    rewrite List.Forall_forall in Hr, Hr' |- *. intros x Hx y Hy _. apply encode_type_unambiguous; auto. }
  unfold flatten_map. induction 1 as [|[k a] [k' b] l l' [Hk Hab] _ IHl]; [done|].
  inversion Hw; inversion Hw'; inversion Hr; inversion Hr'; subst. cbn in *. subst. by rewrite Hab, IHl.
Qed.

Lemma encode_rule_record_unambiguous a b :
  rule_repr a -> rule_repr b ->
  unambiguous (encode_rule_record a) (encode_rule_record b)
    (cr_name a = cr_name b /\ flatten_map (cr_bindings a) = flatten_map (cr_bindings b)
     /\ flatten (cr_result a) = flatten (cr_result b)
     /\ erase (expression (cr_expression a)) = erase (expression (cr_expression b))).
Proof.
  intros [Hsa Hca Hra] [Hsb Hcb Hrb]. unfold encode_rule_record. parts.
  destruct Hca as [Hba Hda], Hcb as [Hbb Hdb].
  eapply unambiguous_cons; [by apply encode_type_map_unambiguous|]. intros Hm.
  eapply unambiguous_cons; [by apply encode_type_unambiguous|]. intros Ht.
  eapply unambiguous_cons; [apply encode_expression_reads; [done|done|by intros t [= <-]..]|].
  intros He. by apply unambiguous_nil.
Qed.

(** The records of different roots are different. *)
Lemma frame_root a b x y bytes : frame a x = Some bytes -> frame b y = Some bytes -> a = b.
Proof.
  unfold frame. destruct x as [x|]; [|done]. destruct y as [y|]; [|by destruct b].
  destruct a, b; try done; cbn; intros [= <-] [=].
Qed.

Lemma frame_unambiguous root x y P : unambiguous x y P -> unambiguous (frame root x) (frame root y) P.
Proof.
  intros Hu. unfold frame. eapply unambiguous_cons; [by apply text_unambiguous|]. intros _.
  eapply unambiguous_cons; [by apply text_unambiguous|]. intros _. parts.
  eapply unambiguous_cons; [exact Hu|]. intros HP. by apply unambiguous_nil.
Qed.

(** C27: the bytes hashed for a rule determine the rule: two rules with one
    canonical encoding have the same name, bindings and result, up to repeated
    nullability, and the same expression, up to spans and the spelling of
    numbers; and no decision table or input has the bytes of a rule. *)
Theorem rule_encoding_determines_rule `{Serde} a b bytes :
  rule_repr a -> rule_repr b ->
  canonical_bytes TypedRuleAst (TypedRule a) = Some bytes ->
  (canonical_bytes TypedRuleAst (TypedRule b) = Some bytes ->
     cr_name a = cr_name b /\ flatten_map (cr_bindings a) = flatten_map (cr_bindings b)
     /\ flatten (cr_result a) = flatten (cr_result b)
     /\ erase (expression (cr_expression a)) = erase (expression (cr_expression b)))
  /\ forall root value, canonical_bytes root value = Some bytes -> root = TypedRuleAst.
Proof.
  intros Ha Hb Hbytes. split.
  - intros Hbytes'. pose proof (frame_unambiguous TypedRuleAst _ _ _ (encode_rule_record_unambiguous a b Ha Hb)) as Hu.
    by destruct (Hu bytes bytes "" "" Hbytes Hbytes' eq_refl).
  - intros root value Hv. symmetry. by eapply frame_root.
Qed.

(** The bytes hashed for a decoded input determine its values: two typed
    inputs of one declaration with the same encoding have the same value under
    every name, up to the case of uuids and the order of JSON members. *)
Theorem input_encoding_determines_values types values values' bytes :
  bt_wf types -> Forall (fun ft => type_repr ft.2) types ->
  context_typed types values -> context_typed types values' ->
  canonical_decoded_input_bytes types values = Some bytes ->
  canonical_decoded_input_bytes types values' = Some bytes ->
  forall f t, bt_get types f = Some t ->
  exists v v', bt_get values f = Some v /\ bt_get values' f = Some v' /\ norm_value t v = norm_value t v'.
Proof.
  intros Hw Hr Hv Hv' Hb Hb' f t Hf.
  assert (Hm : forall vs, context_typed types vs ->
    Forall (fun ft => exists v, bt_get vs ft.1 = Some v /\ member_type ft.2 v) types).
  { intros vs Hvs. apply List.Forall_forall. intros [f' t'] Hin.
    destruct (Hvs f' t') as (v & ? & ?); [apply bt_In_get; [by apply bt_wf_NoDup|done]|].
    exists v. split; [done|by right]. }
  assert (Hu : unambiguous _ _ _) by (apply (frame_unambiguous DecodedTypedInput), encode_runtime_map_unambiguous;
    [exact Hw|exact Hr|apply List.Forall_forall; intros; apply encode_typed_value_reads
    |exact (Hm _ Hv)|exact (Hm _ Hv')]).
  destruct (Hu bytes bytes "" "" Hb Hb' eq_refl) as [HF _]. rewrite List.Forall_forall in HF.
  specialize (HF _ (bt_get_In _ _ _ Hf)). cbn [fst snd] in HF.
  destruct (Hv f t Hf) as (v & E & _), (Hv' f t Hf) as (v' & E' & _). rewrite E, E' in HF. eauto.
Qed.

Lemma input_encoding_determines_values_witness :
  exists v v', bt_get [("id", VUuid "A0")] "id" = Some v /\ bt_get [("id", VUuid "a0")] "id" = Some v'
  /\ norm_value TUuid v = norm_value TUuid v'.
Proof.
  assert (Ht : forall s, context_typed [("id", TUuid)] [("id", VUuid s)]).
  { intros s f t. cbn. destruct (String.eqb f "id"); [|done]. intros [= <-]. by exists (VUuid s). }
  destruct (canonical_decoded_input_bytes [("id", TUuid)] [("id", VUuid "A0")]) as [bytes|] eqn:E;
    [|vm_compute in E; discriminate E].
  apply (input_encoding_determines_values [("id", TUuid)] [("id", VUuid "A0")] [("id", VUuid "a0")] bytes
    ltac:(by repeat constructor) ltac:(by repeat constructor) (Ht "A0") (Ht "a0") E); [|reflexivity].
  rewrite <-E. vm_compute. reflexivity.
Defined.

(** Two spellings of one rule, for the witness. *)
Definition spelled (source : string) : CompiledRule :=
  {| cr_name := "r"; cr_bindings := [("total", TDecimal)]; cr_result := TBool;
     cr_artifact := {| profile_version := 1; original_source := source; canonical_ast_sha256 := "";
                       source_sha256 := "" |};
     cr_expression :=
       {| expression := match parse_expression "r" source with
                        | Ok e => e
                        | Err _ => Expr_new (Span_new 0 0) (ELiteral Literal_Null)
                        end;
          type_ := Concrete TBool |};
     cr_declared_types := [] |}.

Lemma spelled_repr source : rule_repr (spelled source).
Proof. split; [by repeat constructor|split; by repeat constructor|done]. Qed.

Lemma rule_encoding_determines_rule_witness :
  erase (expression (cr_expression (spelled "total > 1.0")))
  = erase (expression (cr_expression (spelled "total  >  1.00")))
  /\ original_source (cr_artifact (spelled "total > 1.0")) <> original_source (cr_artifact (spelled "total  >  1.00")).
Proof.
  split; [|discriminate].
  destruct (canonical_bytes (H := small_serde) TypedRuleAst (TypedRule (spelled "total > 1.0"))) as [bytes|] eqn:E;
    [|vm_compute in E; discriminate E].
  apply (@rule_encoding_determines_rule small_serde (spelled "total > 1.0") (spelled "total  >  1.00") bytes
    (spelled_repr _) (spelled_repr _) E).
  rewrite <-E. vm_compute. reflexivity.
Defined.

(** * Inputs that have a canonical encoding

    When the encoder of a decoded input cannot panic: its counts fit, and no
    list or object is directly under a nullable type. *)

(** ** Inputs that have an encoding *)

(** Names and lists short enough to be counted in a [u32]. *)
Fixpoint type_fits (t : RuleType) : Prop :=
  match t with
  | TEnum name symbols =>
      fits (String.length name) /\ fits (List.length symbols) /\ Forall (fun s => fits (String.length s)) symbols
  | TList item => type_fits item
  | TObject name fields =>
      fits (String.length name) /\ fits (List.length fields)
      /\ fold_right and True (map (fun ft => fits (String.length ft.1) /\ type_fits ft.2) fields)
  | TOpaqueJson name _ _ _ => fits (String.length name)
  | TNullable inner => type_fits inner
  | _ => True
  end.

(** No list or object directly under a nullable type. *)
Fixpoint plain_nullables (t : RuleType) : Prop :=
  match t with
  | TList item => plain_nullables item
  | TObject _ fields => fold_right and True (map (fun ft => plain_nullables ft.2) fields)
  | TNullable inner => match strip_nullable inner with TList _ | TObject _ _ => False | _ => True end
  | _ => True
  end.

Fixpoint json_fits (v : Value) : Prop :=
  match v with
  | JNumber n => fits (String.length n)
  | JString s => fits (String.length s)
  | JArray items => fits (List.length items) /\ fold_right and True (map json_fits items)
  | JObject fields =>
      fits (List.length fields)
      /\ fold_right and True (map (fun kv => fits (String.length kv.1) /\ json_fits kv.2) fields)
  | _ => True
  end.

Fixpoint value_fits (v : RuntimeValue) : Prop :=
  match v with
  | VString s | VUuid s | VDate s | VTimestamp s => fits (String.length s)
  | VEnum name symbol => fits (String.length name) /\ fits (String.length symbol)
  | VList values => fits (List.length values) /\ fold_right and True (map value_fits values)
  | VObject values => fold_right and True (map (fun fv => value_fits fv.2) values)
  | VOpaqueJson j => json_fits j
  | _ => True
  end.

Lemma encode_count_total n : fits n -> is_Some (encode_count (Z.of_nat n)).
Proof. unfold fits. intros Hn. apply encode_count_is_Some. lia. Qed.

Lemma encode_type_total t : type_fits t -> is_Some (encode_type t).
Proof.
  induction t as [t Ht|n syms|t IH|n fields IH|n mb md mn|t IH] using RuleType_ind'; intros Hf.
  - cbn in Ht. repeat (destruct Ht as [<-|Ht]); [..|done]; by eexists.
  - destruct Hf as (Hn & Hl & Hs). cbn [encode_type]. rewrite cat_is_Some, !List.Forall_cons_iff.
    split_and!; [by eexists|by apply encode_string_is_Some| |done]. unfold encode_strings.
    rewrite cat_is_Some, List.Forall_cons_iff, List.Forall_map. split; [by apply encode_count_total|].
    eapply List.Forall_impl; [|exact Hs]. intros s. apply encode_string_is_Some.
  - cbn [encode_type]. rewrite cat_is_Some, !List.Forall_cons_iff. split_and!; [by eexists|by apply IH|done].
  - destruct Hf as (Hn & Hl & Hs). rewrite fold_and_Forall in Hs. cbn [encode_type].
    rewrite cat_is_Some, !List.Forall_cons_iff.
    split_and!; [by eexists|by apply encode_string_is_Some| |done]. rewrite encode_map_is_Some, length_map, List.Forall_map.
    split; [done|]. rewrite List.Forall_forall in IH, Hs |- *. intros [f t] Hin. destruct (Hs _ Hin). split; [done|].
    by apply (IH (f, t)).
  - cbn [encode_type]. rewrite cat_is_Some, !List.Forall_cons_iff.
    split_and!; [by eexists|by apply encode_string_is_Some|by eexists..|done].
  - rewrite encode_type_nullable, cat_is_Some, !List.Forall_cons_iff. split_and!; [by eexists| |done].
    specialize (IH Hf). destruct t; try done.
    rewrite encode_type_nullable, cat_is_Some, !List.Forall_cons_iff in IH. by destruct IH as (_ & ? & _).
Qed.

Lemma encode_opaque_json_total v : json_fits v -> is_Some (encode_opaque_json v).
Proof.
  induction v as [|b|n|s|l IH|o IH] using Value_ind'; intros Hf; cbn [encode_opaque_json]; try (by eexists);
    rewrite cat_is_Some, !List.Forall_cons_iff.
  - split_and!; [by eexists|by apply encode_string_is_Some|done].
  - split_and!; [by eexists|by apply encode_string_is_Some|done].
  - destruct Hf as [Hl Hf]. rewrite fold_and_Forall in Hf.
    split_and!; [by eexists|by apply encode_count_total|]. rewrite List.Forall_map.
    rewrite List.Forall_forall in IH, Hf |- *. auto.
  - destruct Hf as [Hl Hf]. rewrite fold_and_Forall in Hf.
    split_and!; [by eexists| |done]. rewrite encode_map_is_Some, length_map, List.Forall_map. split; [done|].
    rewrite List.Forall_forall in IH, Hf |- *. intros kv Hin. destruct (Hf _ Hin). split; [done|]. by apply IH.
Qed.
Lemma show_digits_length fuel n : (String.length (show_digits fuel n "") <= fuel)%nat.
Proof.
  revert n. induction fuel as [|fuel IH]; intros n; [done|]. cbn [show_digits].
  destruct (n <? 10); [cbn; lia|]. rewrite show_digits_acc, str_length_app. cbn [String.length]. specialize (IH (n / 10)). lia.
Qed.

Lemma show_nat_fits n : 0 <= n <= 2 ^ 200 -> fits (String.length (show_nat n)).
Proof.
  intros [_ Hn%Z.log2_le_mono]. unfold show_nat, fits, u32_max.
  change (Z.log2 (2 ^ 200)) with 200 in Hn. pose proof (Z.log2_nonneg n).
  pose proof (show_digits_length (S (Z.to_nat (Z.log2 n))) n). lia.
Qed.

Lemma show_Z_fits z : - 2 ^ 199 <= z <= 2 ^ 199 -> fits (String.length (show_Z z)).
Proof.
  intros Hz. unfold show_Z. destruct (z <? 0) eqn:E; [|apply show_nat_fits; lia].
  assert (Hl : Z.of_nat (String.length (show_nat (- z))) <= 201).
  { unfold show_nat. assert (Hlog : Z.log2 (- z) <= Z.log2 (2 ^ 199)) by (apply Z.log2_le_mono; lia).
    change (Z.log2 (2 ^ 199)) with 199 in Hlog. pose proof (Z.log2_nonneg (- z)).
    pose proof (show_digits_length (S (Z.to_nat (Z.log2 (- z)))) (- z)). lia. }
  rewrite str_length_app. unfold fits, u32_max. cbn [String.length]. lia.
Qed.

Lemma encode_decimal_total d : decimal_wf d -> is_Some (encode_decimal d).
Proof.
  intros Hwf. rewrite encode_decimal_eq, cat_is_Some, !List.Forall_cons_iff by done.
  destruct (normalized_wf _ Hwf) as [Hc _]. unfold i128_min, i128_max in Hc.
  split_and!; [by eexists| |by eexists|done]. apply encode_string_is_Some, show_nat_fits. lia.
Qed.

Lemma to_ascii_lowercase_length s : String.length (to_ascii_lowercase s) = String.length s.
Proof. induction s as [|a s IH]; [done|]. cbn. by rewrite IH. Qed.

Lemma has_type_int t z : has_type t (VInt z) -> i32_min <= z <= i32_max.
Proof. induction t; cbn; try done. intros [|]; [done|auto]. Qed.

Lemma has_type_int64 t z : has_type t (VInt64 z) -> i64_min <= z <= i64_max.
Proof. induction t; cbn; try done. intros [|]; [done|auto]. Qed.

(** The values of a nullable type without containers are no containers. *)
Lemma has_type_strip t v : v <> VNull -> has_type (TNullable t) v -> has_type (strip_nullable t) v.
Proof. intros Hv. induction t; cbn in *; intros H; destruct H as [|H]; try done. by apply IHt. Qed.

Lemma strip_nullable_plain t : accepts_null (strip_nullable t) = false.
Proof. by induction t. Qed.

Lemma encode_scalar_total t v :
  match v with VList _ | VObject _ => False | _ => True end ->
  has_type t v -> value_fits v -> is_Some (encode_content t v).
Proof.
  intros Hs Ht Hf. destruct v; try done; cbn [encode_content value_fits] in *;
    [rewrite VNull_type by done; by eexists|..]; rewrite cat_is_Some, !List.Forall_cons_iff;
    (split; [by eexists|]); rewrite ?encode_string_is_Some, ?to_ascii_lowercase_length, List.Forall_nil_iff; try tauto.
  - apply has_type_int in Ht. split; [apply show_Z_fits; unfold i32_min, i32_max in Ht; lia|done].
  - apply has_type_int64 in Ht. split; [apply show_Z_fits; unfold i64_min, i64_max in Ht; lia|done].
  - apply has_type_decimal in Ht. split; [by apply encode_decimal_total|done].
  - split; [by apply encode_opaque_json_total|done].
Qed.

Definition value_total (t : RuleType) : Prop := forall v,
  type_fits t -> plain_nullables t -> has_type t v -> value_fits v -> is_Some (encode_typed_value t v).

Lemma value_fits_get values f v :
  fold_right and True (map (fun fv => value_fits fv.2) values) -> bt_get values f = Some v -> value_fits v.
Proof. rewrite fold_and_Forall, List.Forall_forall. intros Hf Hg%bt_get_In. exact (Hf _ Hg). Qed.

Lemma encode_runtime_map_total types values :
  fits (List.length types) ->
  Forall (fun ft => fits (String.length ft.1) /\ type_fits ft.2 /\ plain_nullables ft.2 /\ value_total ft.2) types ->
  Forall (fun ft => exists v, bt_get values ft.1 = Some v /\ member_type ft.2 v /\ value_fits v) types ->
  is_Some (encode_runtime_map types values).
Proof.
  intros Hl Ht Hv. unfold encode_runtime_map. rewrite encode_map_is_Some, length_map, List.Forall_map. split; [done|].
  rewrite List.Forall_forall in Ht, Hv |- *. intros [f t] Hin.
  destruct (Ht _ Hin) as (Hf & Htf & Hp & Htot), (Hv _ Hin) as (v & Hg & Hm & Hvf). cbn [fst snd] in *. split; [done|].
  unfold encode_member. rewrite Hg. cbn [mbind option_bind].
  assert (Hnull : is_Some (cat [encode_type (nullable t); byte 48])).
  { rewrite cat_is_Some, !List.Forall_cons_iff. split_and!; [|by eexists|done].
    apply encode_type_total. by destruct t. }
  destruct Hm as [->|Hm]; [done|]. destruct v; try done; by apply Htot.
Qed.

Lemma encode_typed_value_total t : value_total t.
Proof.
  induction t as [t Ht|n syms|t IH|n fields IH|n mb md mn|t IH] using RuleType_ind'; intros v Hf Hp Hv Hvf;
    rewrite encode_typed_value_eq, cat_is_Some, !List.Forall_cons_iff;
    (split_and!; [by apply encode_type_total| |done]);
    (destruct (match v with VList _ | VObject _ => true | _ => false end) eqn:Hc;
      [|apply encode_scalar_total; [by destruct v|done..]]).
  - exfalso. cbn in Ht. repeat (destruct Ht as [<-|Ht]); [..|done]; by destruct v.
  - by destruct v.
  - destruct v as [| | | | | | | | | |l| |]; try done. cbn [encode_content].
    destruct Hvf as [Hl Hvf]. rewrite fold_and_Forall in Hvf. cbn [has_type] in Hv.
    rewrite cat_is_Some, !List.Forall_cons_iff, List.Forall_map.
    split_and!; [by eexists|by apply encode_count_total|].
    rewrite List.Forall_forall in Hv, Hvf |- *. intros x Hx. apply IH; auto.
  - destruct v as [| | | | | | | | | | |o|]; try done. cbn [encode_content].
    destruct Hf as (Hn & Hl & Hf). cbn [has_type plain_nullables value_fits] in *.
    rewrite fold_and_Forall in Hf, Hp, Hv.
    rewrite cat_is_Some, !List.Forall_cons_iff. split_and!; [by eexists| |done].
    apply encode_runtime_map_total; [done| |].
    + rewrite List.Forall_forall in Hf, Hp, IH |- *. intros ft Hin. destruct (Hf _ Hin). split_and!; auto.
    + eapply List.Forall_impl; [|exact Hv]. cbv beta. intros ft (w & Hw & Hm).
      exists w. split_and!; [done|done|by eapply value_fits_get].
  - by destruct v.
  - exfalso. cbn [plain_nullables] in Hp. apply has_type_strip in Hv; [|by intros ->].
    pose proof (strip_nullable_plain t) as Hs. destruct (strip_nullable t); try done; by destruct v.
Qed.

(** A typed input whose names, texts and lists can be counted in a [u32],
    of types with no list or object directly under a nullable type, has a
    canonical encoding: its decision is traced without a panic. *)
Theorem input_has_encoding types values :
  fits (List.length types) ->
  Forall (fun ft => fits (String.length ft.1) /\ type_fits ft.2 /\ plain_nullables ft.2) types ->
  NoDup (map fst types) -> context_typed types values ->
  (forall f v, bt_get values f = Some v -> value_fits v) ->
  is_Some (canonical_decoded_input_bytes types values).
Proof.
  intros Hl Ht Hnd Hctx Hfits. unfold canonical_decoded_input_bytes, frame.
  rewrite cat_is_Some, !List.Forall_cons_iff. split_and!; [by eexists..| |done].
  apply encode_runtime_map_total; [done| |].
  - eapply List.Forall_impl; [|exact Ht]. cbv beta. intros ft (? & ? & ?).
    split_and!; auto using encode_typed_value_total.
  - apply List.Forall_forall. intros [f t] Hin. destruct (Hctx f t) as (v & Hv & Htv); [by apply bt_In_get|].
    exists v. split_and!; [done|by right|by eapply Hfits].
Qed.

Lemma input_has_encoding_witness :
  is_Some (canonical_decoded_input_bytes [("tags", TList (TNullable TString))]
    [("tags", VList [VString "a"; VNull])]).
Proof.
  apply input_has_encoding.
  - done.
  - repeat constructor; done.
  - apply NoDup_singleton.
  - intros f t. cbn. destruct (String.eqb f "tags"); [|done]. intros [= <-].
    eexists. split; [done|]. constructor; [by right|constructor; [by left|constructor]].
  - intros f v. cbn. destruct (String.eqb f "tags"); [|done]. intros [= <-]. repeat split; done.
Defined.
