(* ===== verification/RulesDecision.v ===== *)
(** * Decision tables ([crates/rules/src/eval.rs])

    Compiling and evaluating decision tables.  An [outcome] is a [Result] or a
    panic, which comes from the canonical encoder. *)
From S2P Require Import Prelude Json RulesSyntax RulesParser RulesDecimal RulesTime RulesValue RulesCheck RulesEval RulesCanonical.

Inductive outcome (A : Type) : Type :=
| Panicked
| Failed (e : RuleError)
| Done (a : A).
Arguments Panicked {A}.
Arguments Failed {A} e.
Arguments Done {A} a.

#[export] Instance outcome_ret : MRet outcome := fun A a => Done a.
#[export] Instance outcome_bind : MBind outcome :=
  fun A B f m => match m with Done a => f a | Failed e => Failed e | Panicked => Panicked end.

(** A [Result], and an [expect]. *)
Definition lift {A} (m : result RuleError A) : outcome A :=
  match m with Ok a => Done a | Err e => Failed e end.
Definition expect_some {A} (o : option A) : outcome A :=
  match o with Some a => Done a | None => Panicked end.

Definition fold_outcome {A S} (f : S -> A -> outcome S) : S -> list A -> outcome S :=
  fix go s l :=
    match l with
    | [] => Done s
    | x :: l => match f s x with Done s => go s l | Failed e => Failed e | Panicked => Panicked end
    end.

Section Tables.
Context `{Serde, Digest}.

(** ** Evaluating a table *)

Definition decision_trace (table : CompiledDecisionTable) (matched_row_id : option string)
    (rejection : option DecisionRejection) (condition_results : list DecisionConditionTrace)
    (decoded_bindings : btree RuntimeValue) : outcome DecisionTrace :=
  bytes ← expect_some (canonical_decoded_input_bytes (cdt_inputs table) decoded_bindings);
  Done {| tr_table_name := cdt_name table;
          tr_table_revision := cdt_revision table;
          tr_matched_row_id := matched_row_id;
          tr_rejection := rejection;
          tr_condition_results := condition_results;
          tr_input_digest := sha256_hex bytes |}.

(** The inner loop: the outcome of every condition, and their conjunction. *)
Definition evaluate_row (table : CompiledDecisionTable) (context : btree RuntimeValue)
    (row : CompiledDecisionRow) : result RuleError (btree bool * bool) :=
  fold_result (fun (acc : btree bool * bool) (ic : string * CheckedExpr) =>
    let (conditions, is_match) := acc in
    let (input, condition) := ic in
    value ← evaluate_expression (cdt_name table) context (expression condition);
    match value with
    | VBool value => Ok (bt_insert conditions input value, is_match && value)
    | _ => Err (InvalidDecisionRow (cdt_name table) (cdr_id row))
    end) ([], true) (cdr_conditions row).

(** The loop over the rows: those that match, and the trace of all. *)
Definition evaluate_rows (table : CompiledDecisionTable) (context : btree RuntimeValue)
    : result RuleError (list CompiledDecisionRow * list DecisionConditionTrace) :=
  fold_result (fun (acc : list CompiledDecisionRow * list DecisionConditionTrace) row =>
    let (matched, condition_results) := acc in
    outcome ← evaluate_row table context row;
    let (conditions, is_match) := outcome : btree bool * bool in
    Ok (if is_match then matched ++ [row] else matched,
        condition_results ++ [{| ct_row_id := cdr_id row; ct_conditions := conditions |}]))
    ([], []) (cdt_rows table).

Definition evaluate_decision_table (table : CompiledDecisionTable) (bindings : btree Value)
    : outcome DecisionResult :=
  context ← lift (decode_bindings (cdt_inputs table) bindings);
  evaluated ← lift (evaluate_rows table context);
  let (matched, condition_results) :=
    evaluated : list CompiledDecisionRow * list DecisionConditionTrace in
  let rejected rejection := decision_trace table None (Some rejection) condition_results context in
  selected ←
    match cdt_hit_policy table with
    | First =>
        match matched with
        | row :: _ => Done row
        | [] => trace ← rejected NoMatch; Failed (DecisionNoMatch (cdt_name table) trace)
        end
    | Unique =>
        match matched with
        | [row] => Done row
        | [] => trace ← rejected NoMatch; Failed (DecisionNoMatch (cdt_name table) trace)
        | _ =>
            trace ← rejected MultipleMatches;
            Failed (DecisionMultipleMatches (cdt_name table) (map cdr_id matched) trace)
        end
    | Unsupported policy => Failed (UnsupportedHitPolicy (cdt_name table) policy)
    end;
  trace ← decision_trace table (Some (cdr_id selected)) None condition_results context;
  Done {| res_output := cdr_output selected; res_matched_row_id := cdr_id selected; res_trace := trace |}.

(** ** Compiling expressions *)

Definition compile_expression (rule_name source : string) (bindings declared_types : btree RuleType)
    : result RuleError CheckedExpr :=
  e ← map_err Parse (parse_expression rule_name source);
  check_expression rule_name None bindings declared_types e.

Definition compile_expression_in_context (context : ExpressionContext) (source : string)
    (bindings : btree RuleType) : result RuleError CheckedExpr :=
  e ← map_err Parse (parse_expression (parser_name context) source);
  check_expression (parser_name context) (Some context) bindings [] e.

Definition compile_expression_in_context_with_declared_types (context : ExpressionContext)
    (source : string) (bindings declared_types : btree RuleType) : result RuleError CheckedExpr :=
  match declared_types with
  | [] => compile_expression_in_context context source bindings
  | _ =>
      e ← map_err Parse (parse_expression (parser_name context) source);
      check_expression (parser_name context) (Some context) bindings declared_types e
  end.

(** ** Compiling a table *)

(** The [BTreeSet] of some names, as its ascending members. *)
Definition name_set (names : list string) : list string :=
  map fst (bt_collect (map (fun n => (n, tt)) names)).

Definition name_in (n : string) (l : list string) : bool := existsb (String.eqb n) l.

Definition symmetric_difference (a b : list string) : list string :=
  List.filter (fun n => xorb (name_in n a) (name_in n b)) (name_set (a ++ b)).

Definition validate_exact_columns (table : string) (actual expected : list string) : result RuleError unit :=
  let actual := name_set actual in
  let expected := name_set expected in
  if list_eqb String.eqb actual expected then Ok tt
  else
    Err (InvalidDecisionColumn table
           match symmetric_difference actual expected with column :: _ => column | [] => "unnamed" end).

Definition validate_row_output (definition : DecisionTableDefinition) (row : DecisionRow)
    : result RuleError unit :=
  match row_output row with
  | JObject output =>
      _ ← validate_exact_columns (dt_name definition) (map fst output) (map fst (dt_output definition));
      each_result (fun ft : string * RuleType =>
        let (field, type_) := ft in
        match obj_get output field with
        | None => Err (InvalidDecisionColumn (dt_name definition) field)
        | Some value =>
            match decode_value type_ value with
            | None => Err (InvalidDecisionRow (dt_name definition) (row_id row))
            | Some _ => Ok tt
            end
        end) (dt_output definition)
  | _ => Err (InvalidDecisionRow (dt_name definition) (row_id row))
  end.

(** [contexts.get(row_index).and_then(|row| row.get(input))]. *)
Definition condition_context (contexts : list (btree ExpressionContext)) (row_index : nat) (input : string)
    : option ExpressionContext :=
  row_contexts ← nth_error contexts row_index; bt_get row_contexts input.

Definition is_bool_type (t : CheckedType) : bool :=
  match t with Concrete TBool => true | _ => false end.

Section Compile.
Variable declared_types : btree RuleType.
Variable declared_type_declarations : list RuleType.

Definition compile_condition (definition : DecisionTableDefinition) (row : DecisionRow) (row_index : nat)
    (condition_contexts : option (list (btree ExpressionContext))) (input source : string)
    : result RuleError CheckedExpr :=
  let context := contexts ← condition_contexts; condition_context contexts row_index input in
  checked ←
    match condition_contexts with
    | Some _ =>
        context ← ok_or (InternalInvariant (dt_name definition)) context;
        compile_expression_in_context_with_declared_types context source (dt_inputs definition) declared_types
    | None => compile_expression (dt_name definition) source (dt_inputs definition) declared_types
    end;
  if is_bool_type (type_ checked) then Ok checked
  else
    let error := InvalidDecisionRow (dt_name definition) (row_id row) in
    Err match context with
        | Some context => with_diagnostic error context (espan (expression checked))
        | None => error
        end.

Definition compile_row (definition : DecisionTableDefinition)
    (condition_contexts : option (list (btree ExpressionContext))) (seen_rows : list string)
    (row_index : nat) (row : DecisionRow) : result RuleError CompiledDecisionRow :=
  if String.eqb (row_id row) "" || name_in (row_id row) seen_rows
  then Err (InvalidDecisionRow (dt_name definition) (row_id row))
  else
    _ ← validate_exact_columns (dt_name definition) (map fst (row_when row)) (map fst (dt_inputs definition));
    _ ← validate_row_output definition row;
    conditions ← fold_result (fun conditions (ns : string * string) =>
        let (input, source) := ns in
        checked ← compile_condition definition row row_index condition_contexts input source;
        Ok (bt_insert conditions input checked)) [] (row_when row);
    Ok {| cdr_id := row_id row; cdr_description := row_description row;
          cdr_conditions := conditions; cdr_output := row_output row |}.

(** The loop over the rows, with the identifiers seen so far. *)
Fixpoint compile_rows (definition : DecisionTableDefinition)
    (condition_contexts : option (list (btree ExpressionContext))) (seen_rows : list string)
    (row_index : nat) (rows : list DecisionRow) : result RuleError (list CompiledDecisionRow) :=
  match rows with
  | [] => Ok []
  | row :: rows =>
      compiled ← compile_row definition condition_contexts seen_rows row_index row;
      rest ← compile_rows definition condition_contexts (row_id row :: seen_rows) (S row_index) rows;
      Ok (compiled :: rest)
  end.

Definition is_true_literal (e : Expr) : bool :=
  match ekind e with ELiteral (Literal_Bool true) => true | _ => false end.

Definition is_default_row (inputs : btree RuleType) (row : CompiledDecisionRow) : bool :=
  forallb (fun input =>
    match bt_get (cdr_conditions row) input with
    | Some condition => is_true_literal (expression condition)
    | None => false
    end) (map fst inputs).

Definition compile_test_case (definition : DecisionTableDefinition) (case : DecisionTableTestCase)
    : result RuleError CompiledDecisionTestCase :=
  let mismatch := DecisionTestCaseMismatch (dt_name definition) (case_name case) in
  match case_input case with
  | JObject input =>
      match expect_output (case_expect case) with
      | JObject output =>
          Ok {| cdc_name := case_name case; cdc_input := bt_collect input; cdc_output := bt_collect output;
                cdc_matched_row_id := expect_matched_row_id (case_expect case) |}
      | _ => Err mismatch
      end
  | _ => Err mismatch
  end.

Definition compile_decision_table (definition : DecisionTableDefinition)
    (condition_contexts : option (list (btree ExpressionContext))) : result RuleError CompiledDecisionTable :=
  policy ← match dt_hit_policy definition with
           | First => Ok First
           | Unique => Ok Unique
           | Unsupported value => Err (UnsupportedHitPolicy (dt_name definition) value)
           end;
  match dt_rows definition, dt_output definition with
  | [], _ => Err (EmptyDecisionTable (dt_name definition))
  | _, [] => Err (InvalidDecisionColumn (dt_name definition) "output")
  | _, _ =>
      rows ← compile_rows definition condition_contexts [] 0 (dt_rows definition);
      if match policy with First => true | _ => false end
         && negb match last rows with Some row => is_default_row (dt_inputs definition) row | None => false end
      then Err (MissingDefaultRow (dt_name definition))
      else
        test_cases ← map_result (compile_test_case definition) (dt_test_cases definition);
        Ok {| cdt_name := dt_name definition; cdt_revision := ""; cdt_inputs := dt_inputs definition;
              cdt_output := dt_output definition;
              cdt_output_fields :=
                map (fun nt => (nt.1, {| of_name := nt.1; of_type := nt.2 |})) (dt_output definition);
              cdt_hit_policy := policy; cdt_rows := rows; cdt_test_cases := test_cases;
              cdt_declared_types := declared_type_declarations |}
  end.
End Compile.

End Tables.

(** ** What a table decides *)

Section Semantics.
Context `{Serde, Digest}.

(** Whether a condition holds, and whether all the conditions of a row do. *)
Definition condition_holds (name : string) (ctx : btree RuntimeValue) (c : CheckedExpr) : bool :=
  match evaluate_expression name ctx (expression c) with Ok (VBool b) => b | _ => false end.

Definition row_holds (name : string) (ctx : btree RuntimeValue) (row : CompiledDecisionRow) : bool :=
  forallb (fun ic => condition_holds name ctx ic.2) (cdr_conditions row).

Definition row_trace (name : string) (ctx : btree RuntimeValue) (row : CompiledDecisionRow)
    : DecisionConditionTrace :=
  {| ct_row_id := cdr_id row;
     ct_conditions := map (fun ic => (ic.1, condition_holds name ctx ic.2)) (cdr_conditions row) |}.

(** The specification: which rows a policy selects among those that hold. *)
Inductive verdict :=
| Selects (row : CompiledDecisionRow)
| NoRow
| SeveralRows (rows : list CompiledDecisionRow).

Definition verdict_of (policy : HitPolicy) (holding : list CompiledDecisionRow) : verdict :=
  match holding, policy with
  | [], _ => NoRow
  | [row], _ => Selects row
  | row :: _, First => Selects row
  | rows, _ => SeveralRows rows
  end.

Definition table_verdict (table : CompiledDecisionTable) (ctx : btree RuntimeValue) : verdict :=
  verdict_of (cdt_hit_policy table) (List.filter (row_holds (cdt_name table) ctx) (cdt_rows table)).

(** The trace of a decision, whichever it is. *)
Definition trace_of (table : CompiledDecisionTable) (ctx : btree RuntimeValue) (bytes : string)
    (row : option string) (rejection : option DecisionRejection) : DecisionTrace :=
  {| tr_table_name := cdt_name table; tr_table_revision := cdt_revision table;
     tr_matched_row_id := row; tr_rejection := rejection;
     tr_condition_results := map (row_trace (cdt_name table) ctx) (cdt_rows table);
     tr_input_digest := sha256_hex bytes |}.

(** A condition accepted by the checker as a boolean over the inputs. *)
Definition condition_wf (inputs : btree RuleType) (c : CheckedExpr) : Prop :=
  (exists name cx declared_types, check_expression name cx inputs declared_types (expression c) = Ok c)
  /\ type_ c = Concrete TBool.

Record row_wf (inputs output : btree RuleType) (row : CompiledDecisionRow) : Prop := {
  rw_sorted : bt_wf (cdr_conditions row);
  rw_names : forall n, In n (map fst (cdr_conditions row)) <-> In n (map fst inputs);
  rw_conditions : Forall (fun ic => condition_wf inputs ic.2) (cdr_conditions row);
  rw_output : exists o, cdr_output row = JObject o
    /\ (forall n, In n (map fst o) <-> In n (map fst output))
    /\ Forall (fun ft => exists j v, obj_get o ft.1 = Some j /\ decode_value ft.2 j = Some v) output;
}.

(** What compilation establishes of a table. *)
Record table_wf (table : CompiledDecisionTable) : Prop := {
  tw_rows : cdt_rows table <> [];
  tw_output : cdt_output table <> [];
  tw_policy : cdt_hit_policy table = First \/ cdt_hit_policy table = Unique;
  tw_ids : NoDup (map cdr_id (cdt_rows table)) /\ ~ In "" (map cdr_id (cdt_rows table));
  tw_each : Forall (row_wf (cdt_inputs table) (cdt_output table)) (cdt_rows table);
  tw_default : cdt_hit_policy table = First ->
    exists row, last (cdt_rows table) = Some row /\ is_default_row (cdt_inputs table) row = true;
}.

(** What an evaluation may give: the selected row's output and identifier with
    a trace of every row, a report that no row or which rows hold, an arithmetic
    error of a condition, or a panic when the decoded input has no encoding. *)
Definition implements_verdict (table : CompiledDecisionTable) (ctx : btree RuntimeValue)
    (o : outcome DecisionResult) : Prop :=
  match o with
  | Done r => exists row bytes,
      table_verdict table ctx = Selects row
      /\ canonical_decoded_input_bytes (cdt_inputs table) ctx = Some bytes
      /\ r = {| res_output := cdr_output row; res_matched_row_id := cdr_id row;
                res_trace := trace_of table ctx bytes (Some (cdr_id row)) None |}
  | Failed (DecisionNoMatch name trace) => exists bytes,
      name = cdt_name table /\ table_verdict table ctx = NoRow
      /\ canonical_decoded_input_bytes (cdt_inputs table) ctx = Some bytes
      /\ trace = trace_of table ctx bytes None (Some NoMatch)
  | Failed (DecisionMultipleMatches name ids trace) => exists rows bytes,
      name = cdt_name table /\ table_verdict table ctx = SeveralRows rows /\ ids = map cdr_id rows
      /\ canonical_decoded_input_bytes (cdt_inputs table) ctx = Some bytes
      /\ trace = trace_of table ctx bytes None (Some MultipleMatches)
  | Failed e => arithmetic_error (cdt_name table) e
  | Panicked => canonical_decoded_input_bytes (cdt_inputs table) ctx = None
  end.

Lemma evaluate_row_fold table ctx row l m b :
  StronglySorted str_lt (map fst m ++ map fst l) ->
  Forall (fun ic => condition_wf (cdt_inputs table) ic.2) l -> context_typed (cdt_inputs table) ctx ->
  safe (cdt_name table)
    (fun r => r = (m ++ map (fun ic => (ic.1, condition_holds (cdt_name table) ctx ic.2)) l,
                   b && forallb (fun ic => condition_holds (cdt_name table) ctx ic.2) l))
    (fold_result (fun (acc : btree bool * bool) (ic : string * CheckedExpr) =>
      let (conditions, is_match) := acc in
      let (input, condition) := ic in
      value ← evaluate_expression (cdt_name table) ctx (expression condition);
      match value with
      | VBool value => Ok (bt_insert conditions input value, is_match && value)
      | _ => Err (InvalidDecisionRow (cdt_name table) (cdr_id row))
      end) (m, b) l).
Proof.
  intros Hs Hl Hctx. revert m b Hs. induction Hl as [|[n c] l [Hc Ht] _ IH]; intros m b Hs.
  - cbn. by rewrite app_nil_r, andb_true_r.
  - cbn [fold_result map forallb fst snd]. destruct Hc as (name & cx & dts & Hc). cbn [fst snd] in *.
    pose proof (check_sound name (cdt_name table) cx _ dts _ Hctx _ _ Hc) as Hv.
    rewrite Ht in Hv. unfold condition_holds at 1 3.
    destruct (evaluate_expression _ ctx (expression c)) as [v|]; [|done].
    cbn in Hv. apply has_bool in Hv as [v' ->]. cbn [mbind result_bind].
    rewrite bt_insert_snoc.
    + specialize (IH (m ++ [(n, v')]) (b && v')). rewrite map_app, <-!app_assoc in IH.
      specialize (IH Hs). cbn [app] in IH. by rewrite andb_assoc.
    + intros x Hx. clear -Hs Hx. induction m as [|[k w] m IHm]; [done|]. cbn in Hs.
      apply StronglySorted_inv in Hs as [Hs Hall]. destruct Hx as [<-|Hx]; [|by apply IHm].
      rewrite List.Forall_forall in Hall. apply Hall, in_app_iff. right. by left.
Qed.

Lemma evaluate_row_safe table ctx row :
  row_wf (cdt_inputs table) (cdt_output table) row -> context_typed (cdt_inputs table) ctx ->
  safe (cdt_name table)
    (fun r => r = (ct_conditions (row_trace (cdt_name table) ctx row), row_holds (cdt_name table) ctx row))
    (evaluate_row table ctx row).
Proof. intros Hr Hctx. destruct Hr. by apply evaluate_row_fold. Qed.

Lemma evaluate_rows_safe table ctx :
  Forall (row_wf (cdt_inputs table) (cdt_output table)) (cdt_rows table) ->
  context_typed (cdt_inputs table) ctx ->
  safe (cdt_name table)
    (fun r => r = (List.filter (row_holds (cdt_name table) ctx) (cdt_rows table),
                   map (row_trace (cdt_name table) ctx) (cdt_rows table)))
    (evaluate_rows table ctx).
Proof.
  intros Hrows Hctx. unfold evaluate_rows.
  assert (Hgen : forall l ms rs, Forall (row_wf (cdt_inputs table) (cdt_output table)) l ->
    safe (cdt_name table)
      (fun r => r = (ms ++ List.filter (row_holds (cdt_name table) ctx) l,
                     rs ++ map (row_trace (cdt_name table) ctx) l))
      (fold_result (fun (acc : list CompiledDecisionRow * list DecisionConditionTrace) row =>
         let (matched, condition_results) := acc in
         outcome ← evaluate_row table ctx row;
         let (conditions, is_match) := outcome : btree bool * bool in
         Ok (if is_match then matched ++ [row] else matched,
             condition_results ++ [{| ct_row_id := cdr_id row; ct_conditions := conditions |}]))
         (ms, rs) l)); [|by apply (Hgen _ [] [])].
  intros l. induction l as [|row l IH]; intros ms rs Hl; [cbn; by rewrite !app_nil_r|].
  inversion Hl as [|? ? Hrow Hl']; subst. cbn [fold_result List.filter map].
  pose proof (evaluate_row_safe table ctx row Hrow Hctx) as Hr.
  destruct (evaluate_row table ctx row) as [r|]; [|done]. cbn in Hr. subst r. cbn [mbind result_bind].
  destruct (row_holds _ ctx row).
  - specialize (IH (ms ++ [row]) (rs ++ [row_trace (cdt_name table) ctx row]) Hl').
    by rewrite <-!app_assoc in IH.
  - specialize (IH ms (rs ++ [row_trace (cdt_name table) ctx row]) Hl').
    by rewrite <-!app_assoc in IH.
Qed.

Lemma evaluate_implements table bindings ctx :
  table_wf table -> decode_bindings (cdt_inputs table) bindings = Ok ctx ->
  context_typed (cdt_inputs table) ctx ->
  implements_verdict table ctx (evaluate_decision_table table bindings).
Proof.
  intros Hwf Hd Hctx. unfold implements_verdict, evaluate_decision_table. rewrite Hd. cbn [lift mbind outcome_bind].
  pose proof (evaluate_rows_safe table ctx (tw_each _ Hwf) Hctx) as Hr.
  destruct (evaluate_rows table ctx) as [ev|e]; cbn [lift mbind outcome_bind safe] in *;
    [|by destruct Hr as [-> | ->]; [left|right]].
  subst ev. unfold decision_trace, table_verdict.
  destruct (canonical_decoded_input_bytes (cdt_inputs table) ctx) as [bytes|] eqn:Hb;
    cbn [expect_some mbind outcome_bind].
  - destruct (tw_policy _ Hwf) as [-> | ->];
      destruct (List.filter _ (cdt_rows table)) as [|row [|row' rows]]; cbn; eauto 10.
  - destruct (tw_policy _ Hwf) as [-> | ->];
      destruct (List.filter _ (cdt_rows table)) as [|row [|row' rows]]; cbn; done.
Qed.

(** C2: on a well-formed table over typed inputs, evaluation implements the
    verdict of its policy: it returns the selected row's output and identifier
    with a trace of every row, or reports that no row or which rows hold; the
    only other failures are an arithmetic error of a condition, and a panic when
    the decoded input has no canonical encoding. *)
Theorem decision_refines_verdict table bindings ctx :
  table_wf table -> decode_bindings (cdt_inputs table) bindings = Ok ctx ->
  context_typed (cdt_inputs table) ctx ->
  implements_verdict table ctx (evaluate_decision_table table bindings).
Proof. apply evaluate_implements. Qed.

(** ** What compilation establishes *)

Lemma name_set_keys names x : In x (name_set names) <-> In x names.
Proof. unfold name_set. rewrite bt_collect_keys, map_map, map_id. done. Qed.

Lemma name_in_In x l : name_in x l = true <-> In x l.
Proof.
  unfold name_in. rewrite existsb_exists. setoid_rewrite String.eqb_eq.
  split; [by intros (y & Hy & ->)|eauto].
Qed.

Lemma validate_exact_columns_Ok table actual expected :
  validate_exact_columns table actual expected = Ok tt -> forall n, In n actual <-> In n expected.
Proof.
  unfold validate_exact_columns. destruct (list_eqb _ _ _) eqn:E; [|done]. intros _ n.
  apply string_list_eqb_spec in E. by rewrite <-name_set_keys, E, name_set_keys.
Qed.

Lemma validate_row_output_Ok definition row :
  validate_row_output definition row = Ok tt ->
  exists o, row_output row = JObject o
  /\ (forall n, In n (map fst o) <-> In n (map fst (dt_output definition)))
  /\ Forall (fun ft => exists j v, obj_get o ft.1 = Some j /\ decode_value ft.2 j = Some v)
       (dt_output definition).
Proof.
  unfold validate_row_output. destruct (row_output row) as [| | | | |o]; try done.
  intros ([] & Hc & Hf)%bind_Ok. exists o. split_and!; [done|by eapply validate_exact_columns_Ok|].
  apply each_result_Ok in Hf. eapply List.Forall_impl; [|exact Hf]. intros [f t] Hft. cbn in Hft |- *.
  destruct (obj_get o f) as [j|]; [|done]. destruct (decode_value t j) as [v|] eqn:E; [eauto|done].
Qed.

Lemma check_expression_is name cx inputs dts e c :
  check_expression name cx inputs dts e = Ok c -> expression c = e.
Proof. destruct e. cbn [check_expression]. by intros (t & _ & [= <-])%locate_Ok%bind_Ok. Qed.

Lemma check_is_condition name cx inputs dts e c :
  check_expression name cx inputs dts e = Ok c -> is_bool_type (type_ c) = true -> condition_wf inputs c.
Proof.
  intros Hc Hb. split; [|by destruct (type_ c) as [[]|]].
  exists name, cx, dts. by rewrite (check_expression_is _ _ _ _ _ _ Hc).
Qed.

Lemma compile_condition_Ok dts definition row i contexts input source c :
  compile_condition dts definition row i contexts input source = Ok c -> condition_wf (dt_inputs definition) c.
Proof.
  unfold compile_condition. intros (checked & Hc & Hif)%bind_Ok.
  destruct (is_bool_type (type_ checked)) eqn:Hb; [|done]. injection Hif as <-.
  destruct contexts as [contexts|].
  - apply bind_Ok in Hc as (context & _ & Hc).
    unfold compile_expression_in_context_with_declared_types, compile_expression_in_context in Hc.
    destruct dts; apply bind_Ok in Hc as (e & _ & Hc); by eapply check_is_condition.
  - unfold compile_expression in Hc. apply bind_Ok in Hc as (e & _ & Hc). by eapply check_is_condition.
Qed.

Lemma compile_conditions_Ok dts definition row i contexts l : forall m m',
  bt_wf m -> Forall (fun ic => condition_wf (dt_inputs definition) ic.2) m ->
  fold_result (fun conditions (ns : string * string) =>
      let (input, source) := ns in
      checked ← compile_condition dts definition row i contexts input source;
      Ok (bt_insert conditions input checked)) m l = Ok m' ->
  bt_wf m' /\ Forall (fun ic => condition_wf (dt_inputs definition) ic.2) m'
  /\ forall n, In n (map fst m') <-> In n (map fst l) \/ In n (map fst m).
Proof.
  induction l as [|[input source] l IH]; intros m m' Hm Hall Hf.
  { injection Hf as <-. split_and!; [done|done|]. cbn. tauto. }
  cbn [fold_result] in Hf.
  destruct (compile_condition _ _ _ _ _ input source) as [c|] eqn:Hc; [|done]. cbn [mbind result_bind] in Hf.
  apply compile_condition_Ok in Hc.
  apply IH in Hf as (? & ? & Hk); [|by apply bt_insert_wf|by apply bt_insert_Forall].
  split_and!; try done. intros n. rewrite Hk, bt_insert_keys. cbn. intuition (subst; auto).
Qed.

Lemma compile_row_Ok dts definition contexts seen i row compiled :
  compile_row dts definition contexts seen i row = Ok compiled ->
  row_wf (dt_inputs definition) (dt_output definition) compiled
  /\ cdr_id compiled = row_id row /\ row_id row <> "" /\ ~ In (row_id row) seen.
Proof.
  unfold compile_row. destruct (_ || _)%bool eqn:E; [done|].
  apply orb_false_iff in E as [E1%String.eqb_neq E2].
  intros ([] & Hcols & ([] & Hout & (conditions & Hf & [= <-])%bind_Ok)%bind_Ok)%bind_Ok.
  split; [|split_and!; [done|done|]; rewrite <-name_in_In, E2; done].
  destruct (compile_conditions_Ok _ _ _ _ _ _ [] _ (SSorted_nil _) (List.Forall_nil _) Hf) as (Hm & Hall & Hk).
  split; cbn [cdr_conditions cdr_output]; [done| |done|by apply (validate_row_output_Ok definition row)].
  intros n. rewrite Hk. cbn. rewrite <-(validate_exact_columns_Ok _ _ _ Hcols). tauto.
Qed.

Lemma compile_rows_Ok dts definition contexts rows : forall seen i compiled,
  compile_rows dts definition contexts seen i rows = Ok compiled ->
  Forall (row_wf (dt_inputs definition) (dt_output definition)) compiled
  /\ map cdr_id compiled = map row_id rows
  /\ NoDup (map cdr_id compiled) /\ ~ In "" (map cdr_id compiled)
  /\ (forall x, In x seen -> ~ In x (map cdr_id compiled)).
Proof.
  induction rows as [|row rows IH]; intros seen i compiled Hc.
  { injection Hc as <-. split_and!; try constructor; cbn; tauto. }
  cbn [compile_rows] in Hc. apply bind_Ok in Hc as (c & (Hrow & Hid & Hne & Hseen)%compile_row_Ok & Hc).
  apply bind_Ok in Hc as (rest & (Hall & Hids & Hnd & Hempty & Hout)%IH & [= <-]).
  cbn [map]. rewrite Hid, Hids in *. split_and!.
  - by constructor.
  - done.
  - constructor; [|done]. rewrite list_elem_of_In. apply Hout. by left.
  - intros [|]; [by apply Hne|tauto].
  - intros x Hx [<-|Hin]; [done|]. apply (Hout x); [by right|done].
Qed.

Lemma compile_decision_table_Ok dts decls definition contexts table :
  compile_decision_table dts decls definition contexts = Ok table ->
  table_wf table /\ map cdr_id (cdt_rows table) = map row_id (dt_rows definition)
  /\ cdt_inputs table = dt_inputs definition /\ cdt_output table = dt_output definition
  /\ cdt_hit_policy table = dt_hit_policy definition.
Proof.
  unfold compile_decision_table. intros (policy & Hp & Hc)%bind_Ok.
  destruct (dt_rows definition) as [|r rs] eqn:Hrows; [done|].
  destruct (dt_output definition) as [|o os] eqn:Hout; [done|].
  apply bind_Ok in Hc as (rows & Hr & Hc). apply compile_rows_Ok in Hr as (Hall & Hids & Hnd & Hne & _).
  destruct (_ && _)%bool eqn:Hdef; [done|]. apply bind_Ok in Hc as (cases & _ & [= <-]).
  cbn [cdt_rows cdt_inputs cdt_output cdt_hit_policy].
  assert (policy = dt_hit_policy definition) as -> by (destruct (dt_hit_policy definition); congruence).
  split_and!; try done. rewrite Hout in Hall. split; try done; cbn [cdt_rows cdt_inputs cdt_output cdt_hit_policy].
  - intros ->. done.
  - by destruct (dt_hit_policy definition); [left|right|].
  - intros Hf. rewrite Hf in Hdef. cbn in Hdef. apply negb_false_iff in Hdef.
    destruct (last rows) as [row|]; [eauto|done].
Qed.

(** A compiled table is well formed: it has rows and output columns and a
    supported policy; its row identifiers are distinct and not empty; each row
    has exactly the conditions of the inputs, checked as booleans, and exactly
    the outputs of the columns, each of which decodes at its type; and under the
    first policy the last row is a default row. *)
Theorem compile_decision_table_wf dts decls definition contexts table :
  compile_decision_table dts decls definition contexts = Ok table ->
  table_wf table /\ map cdr_id (cdt_rows table) = map row_id (dt_rows definition)
  /\ cdt_inputs table = dt_inputs definition /\ cdt_output table = dt_output definition
  /\ cdt_hit_policy table = dt_hit_policy definition.
Proof. apply compile_decision_table_Ok. Qed.

Lemma compile_decision_table_name dts decls definition contexts table :
  compile_decision_table dts decls definition contexts = Ok table -> cdt_name table = dt_name definition.
Proof.
  unfold compile_decision_table. intros (policy & _ & Hc)%bind_Ok.
  destruct (dt_rows definition); [done|]. destruct (dt_output definition); [done|].
  apply bind_Ok in Hc as (rows & _ & Hc). destruct (_ && _)%bool; [done|].
  by apply bind_Ok in Hc as (cases & _ & [= <-]).
Qed.

Lemma default_row_holds inputs output row name ctx :
  row_wf inputs output row -> is_default_row inputs row = true -> row_holds name ctx row = true.
Proof.
  intros Hwf Hd. unfold is_default_row in Hd. rewrite forallb_forall in Hd.
  apply forallb_forall. intros [n c] Hin. cbn [snd].
  assert (Hn : In n (map fst (cdr_conditions row))) by (apply in_map_iff; by exists (n, c)).
  specialize (Hd n (proj1 (rw_names _ _ _ Hwf n) Hn)).
  rewrite (bt_In_get _ n c) in Hd by (done || by apply bt_wf_NoDup, (rw_sorted _ _ _ Hwf)).
  unfold is_true_literal in Hd. unfold condition_holds. destruct (expression c) as [sp []]; try done.
  cbn in Hd. destruct l as [|[]| | |]; try done.
Qed.

Lemma filter_first {A} (f : A -> bool) l x rest :
  List.filter f l = x :: rest ->
  exists before after, l = before ++ x :: after /\ Forall (fun y => f y = false) before /\ f x = true.
Proof.
  induction l as [|y l IH]; cbn; [done|]. destruct (f y) eqn:E.
  - intros [= -> _]. exists [], l. split_and!; [done|constructor|done].
  - intros (before & after & -> & ? & ?)%IH. exists (y :: before), after. split_and!; [done|by constructor|done].
Qed.

Lemma first_verdict table ctx :
  table_wf table -> cdt_hit_policy table = First ->
  exists before row after, cdt_rows table = before ++ row :: after
  /\ Forall (fun row => row_holds (cdt_name table) ctx row = false) before
  /\ row_holds (cdt_name table) ctx row = true /\ table_verdict table ctx = Selects row.
Proof.
  intros Hwf Hp. unfold table_verdict. rewrite Hp.
  destruct (List.filter (row_holds (cdt_name table) ctx) (cdt_rows table)) as [|row rest] eqn:Hf.
  - exfalso. destruct (tw_default _ Hwf Hp) as (row & Hl & Hd).
    apply last_Some in Hl as [l Hl]. pose proof (tw_each _ Hwf) as Hall. rewrite Hl in Hall, Hf.
    apply Forall_app in Hall as [_ Hrow]. inversion Hrow as [|? ? Hrow' _]; subst.
    rewrite List.filter_app in Hf. cbn in Hf. rewrite (default_row_holds _ _ _ _ ctx Hrow' Hd) in Hf.
    by destruct (List.filter _ l).
  - destruct (filter_first _ _ _ _ Hf) as (before & after & ? & ? & ?). exists before, row, after.
    split_and!; try done. by destruct rest.
Qed.

(** C32: over inputs that decode to values of their types, a compiled table of
    the first policy never reports that no row matched: its last row is a
    default, so evaluation returns the first row all of whose conditions hold,
    unless a condition fails of an arithmetic error, or the decoded input has no
    canonical encoding, for which the code panics. *)
Theorem first_policy_always_decides dts decls definition contexts table bindings ctx :
  compile_decision_table dts decls definition contexts = Ok table -> dt_hit_policy definition = First ->
  decode_bindings (cdt_inputs table) bindings = Ok ctx -> context_typed (cdt_inputs table) ctx ->
  match evaluate_decision_table table bindings with
  | Done r => exists before row after,
      cdt_rows table = before ++ row :: after
      /\ Forall (fun row => row_holds (cdt_name table) ctx row = false) before
      /\ row_holds (cdt_name table) ctx row = true
      /\ res_output r = cdr_output row /\ res_matched_row_id r = cdr_id row
  | Failed e => arithmetic_error (cdt_name table) e
  | Panicked => canonical_decoded_input_bytes (cdt_inputs table) ctx = None
  end.
Proof.
  intros Hc Hp Hd Hctx. destruct (compile_decision_table_Ok _ _ _ _ _ Hc) as (Hwf & _ & _ & _ & Hpol).
  pose proof (evaluate_implements table bindings ctx Hwf Hd Hctx) as Hev.
  rewrite <-Hpol in Hp. destruct (first_verdict table ctx Hwf Hp) as (before & row & after & Hrows & Hb & Hr & Hv).
  unfold implements_verdict in Hev. rewrite Hv in Hev. destruct (evaluate_decision_table table bindings) as [|e|r].
  - done.
  - destruct e; try exact Hev; [by destruct Hev as (? & _ & ? & _)|by destruct Hev as (? & ? & _ & ? & _)].
  - destruct Hev as (row' & bytes & Heq & _ & ->). injection Heq as <-. by exists before, row, after.
Qed.
End Semantics.

(** ** Panics *)

Section Panics.
Context `{Serde, Digest}.

Lemma decision_trace_panics table id rejection results ctx :
  encode_runtime_map (cdt_inputs table) ctx = None ->
  decision_trace table id rejection results ctx = Panicked.
Proof.
  intros Hp. unfold decision_trace, canonical_decoded_input_bytes, frame. rewrite Hp. done.
Qed.

(** a decision table with a nullable list input cannot be evaluated once
    the input is a list: every path that reaches a decision encodes the decoded
    input for its digest, and that encoder panics on a list at a nullable type. *)
Theorem nullable_list_input_panics table bindings ctx evaluated f item values :
  decode_bindings (cdt_inputs table) bindings = Ok ctx ->
  bt_get (cdt_inputs table) f = Some (TNullable (TList item)) ->
  bt_get ctx f = Some (VList values) ->
  evaluate_rows table ctx = Ok evaluated ->
  (cdt_hit_policy table = First \/ cdt_hit_policy table = Unique) ->
  evaluate_decision_table table bindings = Panicked.
Proof.
  intros Hd Hf Hv Hrows Hp.
  assert (He : encode_runtime_map (cdt_inputs table) ctx = None).
  { eapply encode_runtime_map_panics; [by apply bt_get_In|exact Hv|done|].
    apply encode_nullable_list_panics. }
  unfold implements_verdict, evaluate_decision_table. rewrite Hd. cbn [lift mbind outcome_bind].
  rewrite Hrows. cbn [lift mbind outcome_bind].
  destruct evaluated as [matched results].
  destruct Hp as [-> | ->]; repeat case_match; cbn [mbind outcome_bind];
    rewrite decision_trace_panics by done; done.
Qed.
End Panics.

(** A table over one nullable list input, for the witnesses. *)
Definition small_digest : Digest := {| sha256 := fun s => substring 0 32 s |}.

Definition list_table : CompiledDecisionTable :=
  {| cdt_name := "t"; cdt_revision := ""; cdt_inputs := [("tags", TNullable (TList TString))];
     cdt_output := [("ok", TBool)]; cdt_output_fields := []; cdt_hit_policy := First;
     cdt_rows := [{| cdr_id := "default"; cdr_description := None;
                     cdr_conditions := [("tags", {| expression := Expr_new (Span_new 0 4) (ELiteral (Literal_Bool true));
                                                    type_ := Concrete TBool |})];
                     cdr_output := JObject [("ok", JBool true)] |}];
     cdt_test_cases := []; cdt_declared_types := [] |}.

Lemma nullable_list_input_panics_witness :
  @evaluate_decision_table small_serde small_digest list_table [("tags", JArray [JString "a"])] = Panicked.
Proof.
  eapply (@nullable_list_input_panics small_serde small_digest list_table _ [("tags", VList [VString "a"])] _
    "tags" TString [VString "a"]); try reflexivity. by left.
Defined.

(** A table of two rows, for the witnesses. *)
Definition tier_row (id condition tier : string) : DecisionRow :=
  {| row_id := id; row_when := [("total", condition)]; row_output := JObject [("tier", JString tier)];
     row_description := None |}.

Definition tier_definition : DecisionTableDefinition :=
  {| dt_name := "tiers"; dt_revision := "1"; dt_hit_policy := First; dt_inputs := [("total", TInt)];
     dt_output := [("tier", TString)];
     dt_rows := [tier_row "gold" "total > 100" "gold"; tier_row "default" "true" "basic"];
     dt_test_cases := [] |}.

Definition tier_table : CompiledDecisionTable :=
  match @compile_decision_table small_serde [] [] tier_definition None with
  | Ok table => table
  | Err _ => list_table
  end.

Lemma tier_table_compiles : @compile_decision_table small_serde [] [] tier_definition None = Ok tier_table.
Proof. vm_compute. reflexivity. Qed.

Lemma tier_context_typed n : i32_min <= n <= i32_max -> context_typed (cdt_inputs tier_table) [("total", VInt n)].
Proof.
  intros Hn f t. change (cdt_inputs tier_table) with [("total", TInt)]. cbn.
  destruct (String.eqb f "total"); [|done]. intros [= <-]. by exists (VInt n).
Qed.

Lemma compile_decision_table_wf_witness : @table_wf small_serde tier_table.
Proof.
  apply (@compile_decision_table_wf small_serde [] [] tier_definition None).
  exact tier_table_compiles.
Defined.

Lemma decision_refines_verdict_witness :
  @implements_verdict small_serde small_digest tier_table [("total", VInt 120)]
    (@evaluate_decision_table small_serde small_digest tier_table [("total", JNumber "120")])
  /\ exists row, @table_verdict small_serde tier_table [("total", VInt 120)] = Selects row /\ cdr_id row = "gold".
Proof.
  split.
  - apply (@decision_refines_verdict small_serde small_digest);
      [apply (compile_decision_table_Ok _ _ _ _ _ tier_table_compiles)|reflexivity|by apply tier_context_typed].
  - eexists. split; vm_compute; reflexivity.
Defined.

Lemma first_policy_always_decides_witness :
  exists r, @evaluate_decision_table small_serde small_digest tier_table [("total", JNumber "12")] = Done r
  /\ res_matched_row_id r = "default".
Proof.
  pose proof (@first_policy_always_decides small_serde small_digest [] [] tier_definition None tier_table
    [("total", JNumber "12")] [("total", VInt 12)] tier_table_compiles eq_refl eq_refl
    (tier_context_typed 12 ltac:(done))) as Hd.
  destruct (evaluate_decision_table _ _) as [|e|r] eqn:E in Hd; vm_compute in E; [done|done|].
  exists r. split; [vm_compute; exact E|]. injection E as <-. reflexivity.
Defined.
