(* ===== verification/RulesCatalog.v ===== *)
(** * The rule catalog ([crates/rules/src/eval.rs])

    Compiling the rules and decision tables of a catalog: the declaration list,
    the two loops, the validation of the declared test cases, and the revisions. *)
From S2P Require Import Prelude Json RulesSyntax RulesParser RulesValue RulesCheck RulesEval RulesCanonical RulesDecision.

Section Catalogs.
Context `{Serde, Digest}.

Definition evaluate_decision (catalog : RuleCatalog) (table : string) (bindings : btree Value)
    : outcome DecisionResult :=
  match bt_get (cat_decision_tables catalog) table with
  | None => Failed (UnknownDecisionTable table)
  | Some compiled => evaluate_decision_table compiled bindings
  end.

Definition validate_test_case (catalog : RuleCatalog) (definition : DecisionTableDefinition)
    (case : DecisionTableTestCase) : outcome unit :=
  let mismatch := DecisionTestCaseMismatch (dt_name definition) (case_name case) in
  match case_input case with
  | JObject input =>
      match evaluate_decision catalog (dt_name definition) (bt_collect input) with
      | Panicked => Panicked
      | Failed _ => Failed mismatch
      | Done result =>
          if negb (value_eqb (res_output result) (expect_output (case_expect case)))
             || negb (String.eqb (res_matched_row_id result) (expect_matched_row_id (case_expect case)))
          then Failed mismatch else Done tt
      end
  | _ => Failed mismatch
  end.

Definition validate_decision_test_cases (catalog : RuleCatalog) (definitions : list DecisionTableDefinition)
    : outcome unit :=
  fold_outcome (fun _ definition =>
    fold_outcome (fun _ case => validate_test_case catalog definition case) tt (dt_test_cases definition))
    tt definitions.

(** The closure's [seen] set, threaded from left to right. *)
Fixpoint canonical_declarations_loop (declared_types : btree RuleType) (seen names : list string)
    : result RuleError (list RuleType) :=
  match names with
  | [] => Ok []
  | name :: names =>
      if name_in name seen then Err (InternalInvariant "catalog")
      else
        t ← ok_or (InternalInvariant "catalog") (bt_get declared_types name);
        rest ← canonical_declarations_loop declared_types (name :: seen) names;
        Ok (t :: rest)
  end.

Definition canonical_declarations (declared_types : btree RuleType) (declaration_order : option (list string))
    : result RuleError (list RuleType) :=
  canonical_declarations_loop declared_types []
    match declaration_order with Some names => names | None => map fst declared_types end.

Definition derive_decision_revisions (catalog : RuleCatalog) : outcome RuleCatalog :=
  tables ← fold_outcome (fun tables (nt : string * CompiledDecisionTable) =>
      let (name, table) := nt in
      bytes ← expect_some (canonical_bytes DecisionDefinition (DecisionDefinitionValue table));
      Done (tables ++ [(name,
        {| cdt_name := cdt_name table; cdt_revision := sha256_hex bytes; cdt_inputs := cdt_inputs table;
           cdt_output := cdt_output table; cdt_output_fields := cdt_output_fields table;
           cdt_hit_policy := cdt_hit_policy table; cdt_rows := cdt_rows table;
           cdt_test_cases := cdt_test_cases table; cdt_declared_types := cdt_declared_types table |})]))
    [] (cat_decision_tables catalog);
  Done {| cat_declared_types := cat_declared_types catalog; cat_rules := cat_rules catalog;
          cat_decision_tables := tables |}.

Definition name_taken (catalog : RuleCatalog) (name : string) : bool :=
  bt_contains (cat_rules catalog) name || bt_contains (cat_decision_tables catalog) name.

Definition with_ast_digest (rule : CompiledRule) (digest : string) : CompiledRule :=
  {| cr_name := cr_name rule; cr_bindings := cr_bindings rule; cr_result := cr_result rule;
     cr_artifact := {| profile_version := profile_version (cr_artifact rule);
                       original_source := original_source (cr_artifact rule);
                       canonical_ast_sha256 := digest;
                       source_sha256 := source_sha256 (cr_artifact rule) |};
     cr_expression := cr_expression rule; cr_declared_types := cr_declared_types rule |}.

Section Catalog.
Variable declared_types : btree RuleType.
Variable declared_type_declarations : list RuleType.

(** One turn of the loop over the rules. *)
Definition compile_rule (rule_contexts : option (list ExpressionContext)) (catalog : RuleCatalog)
    (indexed : nat * RuleDefinition) : outcome RuleCatalog :=
  let (rule_index, definition) := indexed in
  let name := rd_name definition in
  let context := contexts ← rule_contexts; nth_error contexts rule_index in
  if name_taken catalog name then Failed (DuplicateName "rule" name)
  else
    checked ← lift match rule_contexts with
      | Some _ =>
          context ← ok_or (InternalInvariant name) context;
          compile_expression_in_context_with_declared_types context (rd_expression definition)
            (rd_bindings definition) declared_types
      | None => compile_expression name (rd_expression definition) (rd_bindings definition) declared_types
      end;
    if negb (is_assignable (type_ checked) (rd_result definition)) then
      let error := InvalidRuleResult name (display_name (rd_result definition))
                     (checked_type_name (type_ checked)) in
      Failed match context with
             | Some context => with_diagnostic error context (espan (expression checked))
             | None => error
             end
    else
      let compiled :=
        {| cr_name := name; cr_bindings := rd_bindings definition; cr_result := rd_result definition;
           cr_artifact := {| profile_version := PROFILE_VERSION;
                             original_source := rd_expression definition;
                             canonical_ast_sha256 := "";
                             source_sha256 := sha256_hex (rd_expression definition) |};
           cr_expression := checked; cr_declared_types := declared_type_declarations |} in
      bytes ← expect_some (canonical_bytes TypedRuleAst (TypedRule compiled));
      Done {| cat_declared_types := cat_declared_types catalog;
              cat_rules := bt_insert (cat_rules catalog) name (with_ast_digest compiled (sha256_hex bytes));
              cat_decision_tables := cat_decision_tables catalog |}.

(** One turn of the loop over the tables. *)
Definition compile_table
    (decision_condition_contexts : option (list (list (btree ExpressionContext)))) (catalog : RuleCatalog)
    (indexed : nat * DecisionTableDefinition) : outcome RuleCatalog :=
  let (table_index, definition) := indexed in
  let name := dt_name definition in
  if name_taken catalog name then Failed (DuplicateName "decision table" name)
  else
    compiled ← lift (compile_decision_table declared_types declared_type_declarations definition
                       (contexts ← decision_condition_contexts; nth_error contexts table_index));
    Done {| cat_declared_types := cat_declared_types catalog;
            cat_rules := cat_rules catalog;
            cat_decision_tables := bt_insert (cat_decision_tables catalog) name compiled |}.
End Catalog.

Definition enumerate {A} (l : list A) : list (nat * A) := combine (seq 0 (List.length l)) l.

Definition compile_catalog_internal (declared_types : btree RuleType) (declaration_order : option (list string))
    (rules : list RuleDefinition) (tables : list DecisionTableDefinition)
    (rule_contexts : option (list ExpressionContext))
    (decision_condition_contexts : option (list (list (btree ExpressionContext)))) : outcome RuleCatalog :=
  declarations ← lift (canonical_declarations declared_types declaration_order);
  let catalog := {| cat_declared_types := declared_types; cat_rules := []; cat_decision_tables := [] |} in
  catalog ← fold_outcome (compile_rule declared_types declarations rule_contexts) catalog (enumerate rules);
  catalog ← fold_outcome (compile_table declared_types declarations decision_condition_contexts) catalog
              (enumerate tables);
  _ ← validate_decision_test_cases catalog tables;
  derive_decision_revisions catalog.

Definition compile_catalog_with_declared_types (declared_types : btree RuleType)
    (rules : list RuleDefinition) (tables : list DecisionTableDefinition) : outcome RuleCatalog :=
  compile_catalog_internal declared_types None rules tables None None.

Definition compile_catalog (rules : list RuleDefinition) (tables : list DecisionTableDefinition)
    : outcome RuleCatalog :=
  compile_catalog_with_declared_types [] rules tables.

Definition compile_catalog_with_declared_types_and_contexts_and_declaration_order
    (declared_types : btree RuleType) (declaration_order : list string)
    (rules : list RuleDefinition) (tables : list DecisionTableDefinition)
    (rule_contexts : list ExpressionContext)
    (decision_condition_contexts : list (list (btree ExpressionContext))) : outcome RuleCatalog :=
  if negb (List.length rule_contexts =? List.length rules)%nat
     || negb (List.length decision_condition_contexts =? List.length tables)%nat
  then Failed (InternalInvariant "catalog")
  else compile_catalog_internal declared_types (Some declaration_order) rules tables
         (Some rule_contexts) (Some decision_condition_contexts).

Definition compile_catalog_with_declared_types_and_contexts (declared_types : btree RuleType)
    (rules : list RuleDefinition) (tables : list DecisionTableDefinition)
    (rule_contexts : list ExpressionContext)
    (decision_condition_contexts : list (list (btree ExpressionContext))) : outcome RuleCatalog :=
  compile_catalog_with_declared_types_and_contexts_and_declaration_order declared_types
    (map fst declared_types) rules tables rule_contexts decision_condition_contexts.
End Catalogs.

(** ** What compilation establishes *)

Section CatalogFacts.
Context `{Serde, Digest}.

(** An expression parsed from its source and checked over its bindings. *)
Definition checked_from (source : string) (bindings : btree RuleType) (c : CheckedExpr) : Prop :=
  (exists name, parse_expression name source = Ok (expression c))
  /\ exists name cx dts, check_expression name cx bindings dts (expression c) = Ok c.

Lemma parse_and_check_Ok name name' cx source bindings dts c :
  (e ← map_err Parse (parse_expression name source); check_expression name' cx bindings dts e) = Ok c ->
  checked_from source bindings c.
Proof.
  intros (e & He%map_err_Ok & Hc)%bind_Ok. unfold checked_from.
  rewrite (check_expression_is _ _ _ _ _ _ Hc). eauto 10.
Qed.

Lemma compile_expression_Ok name source bindings dts c :
  compile_expression name source bindings dts = Ok c -> checked_from source bindings c.
Proof. apply parse_and_check_Ok. Qed.

Lemma compile_in_context_Ok cx source bindings dts c :
  compile_expression_in_context_with_declared_types cx source bindings dts = Ok c ->
  checked_from source bindings c.
Proof. destruct dts; apply parse_and_check_Ok. Qed.

(** A compiled rule: the definition's fields, an expression checked over its
    bindings whose type the result accepts, and the two digests of its artifact,
    the second of which is that of the compiled rule itself. *)
Record rule_compiled (definition : RuleDefinition) (rule : CompiledRule) : Prop := {
  rc_name : cr_name rule = rd_name definition;
  rc_bindings : cr_bindings rule = rd_bindings definition;
  rc_result : cr_result rule = rd_result definition;
  rc_checked : checked_from (rd_expression definition) (rd_bindings definition) (cr_expression rule);
  rc_assignable : is_assignable (type_ (cr_expression rule)) (rd_result definition) = true;
  rc_source : original_source (cr_artifact rule) = rd_expression definition
    /\ source_sha256 (cr_artifact rule) = sha256_hex (rd_expression definition);
  rc_digest : exists bytes, canonical_bytes TypedRuleAst (TypedRule rule) = Some bytes
    /\ canonical_ast_sha256 (cr_artifact rule) = sha256_hex bytes;
}.

(** A compiled table: well formed, with the definition's columns and rows. *)
Record table_compiled (definition : DecisionTableDefinition) (table : CompiledDecisionTable) : Prop := {
  tc_name : cdt_name table = dt_name definition;
  tc_wf : table_wf table;
  tc_inputs : cdt_inputs table = dt_inputs definition;
  tc_output : cdt_output table = dt_output definition;
  tc_ids : map cdr_id (cdt_rows table) = map row_id (dt_rows definition);
}.

(** The names a catalog defines. *)
Definition defines (catalog : RuleCatalog) (name : string) : Prop :=
  name_taken catalog name = true.

Lemma bt_contains_get {A} (m : btree A) k : bt_contains m k = true <-> exists v, bt_get m k = Some v.
Proof. unfold bt_contains. destruct (bt_get m k); split; eauto; [done|by intros []]. Qed.

Lemma compile_rule_Done dts decls contexts catalog i definition catalog' :
  bt_wf (cat_rules catalog) ->
  compile_rule dts decls contexts catalog (i, definition) = Done catalog' ->
  exists rule, rule_compiled definition rule /\ name_taken catalog (rd_name definition) = false
  /\ catalog' = {| cat_declared_types := cat_declared_types catalog;
                   cat_rules := bt_insert (cat_rules catalog) (rd_name definition) rule;
                   cat_decision_tables := cat_decision_tables catalog |}.
Proof.
  intros Hwf. unfold compile_rule. cbv zeta. destruct (name_taken _ _) eqn:Ht; [done|].
  match goal with |- (lift ?m ≫= _) = _ -> _ => destruct m as [checked|] eqn:Hc end; [|done].
  cbn [lift mbind outcome_bind]. destruct (is_assignable _ _) eqn:Ha; cbn [negb]; [|done].
  destruct (canonical_bytes _ _) as [bytes|] eqn:Hb; [|done]. cbn [expect_some mbind outcome_bind].
  intros [= <-]. eexists. split_and!; [|done|reflexivity].
  assert (Hch : checked_from (rd_expression definition) (rd_bindings definition) checked).
  { destruct contexts as [contexts|]; [|by eapply compile_expression_Ok].
    apply bind_Ok in Hc as (cx & _ & Hc). by eapply compile_in_context_Ok. }
  split; cbn [with_ast_digest cr_name cr_bindings cr_result cr_expression cr_artifact original_source
    source_sha256 canonical_ast_sha256]; try done.
  exists bytes. split; [|done]. rewrite <-Hb. reflexivity.
Qed.
(** *** The loops *)

Lemma fold_outcome_inv {A S} (P : list A -> S -> Prop) (f : S -> A -> outcome S) l s s' :
  P [] s -> (forall seen x s s', P seen s -> f s x = Done s' -> P (seen ++ [x]) s') ->
  fold_outcome f s l = Done s' -> P l s'.
Proof.
  intros Hnil Hstep. assert (Hgen : forall l seen s, P seen s -> fold_outcome f s l = Done s' -> P (seen ++ l) s').
  { clear -Hstep. induction l as [|x l IH]; intros seen s Hs Hf; cbn [fold_outcome] in Hf.
    { injection Hf as <-. by rewrite app_nil_r. }
    destruct (f s x) as [| |s1] eqn:E; [done|done|].
    change (x :: l) with ([x] ++ l). rewrite app_assoc. by eapply IH; [eapply Hstep|]. }
  intros Hf. by apply (Hgen l [] s).
Qed.

Lemma snd_enumerate {A} (l : list A) : map snd (enumerate l) = l.
Proof.
  unfold enumerate. generalize 0%nat. induction l as [|x l IH]; intros n; cbn; [done|]. by rewrite IH.
Qed.

(** A map that holds an entry [R d] for each definition [d], under its name. *)
Definition holds_each {D A} (name : D -> string) (R : D -> A -> Prop) (ds : list D) (m : btree A) : Prop :=
  bt_wf m /\ (forall n, In n (map fst m) <-> In n (map name ds))
  /\ forall d, In d ds -> exists a, bt_get m (name d) = Some a /\ R d a.

Lemma holds_each_snoc {D A} (name : D -> string) (R : D -> A -> Prop) ds m d a :
  holds_each name R ds m -> ~ In (name d) (map name ds) -> R d a ->
  holds_each name R (ds ++ [d]) (bt_insert m (name d) a).
Proof.
  intros (Hwf & Hk & Hg) Hn Hr. split_and!; [by apply bt_insert_wf| |].
  - intros n. rewrite bt_insert_keys, map_app, in_app_iff, Hk. cbn. intuition (subst; auto).
  - intros d' [Hd|[<-|[]]]%in_app_iff; rewrite bt_get_insert by done.
    + destruct (String.eqb_spec (name d') (name d)) as [E|]; [|by apply Hg].
      exfalso. apply Hn. rewrite <-E. by apply in_map.
    + rewrite String.eqb_refl. eauto.
Qed.

Lemma holds_each_fresh {D A} (name : D -> string) (R : D -> A -> Prop) ds m n :
  holds_each name R ds m -> bt_contains m n = false -> ~ In n (map name ds).
Proof.
  intros (_ & Hk & _) Hc Hin. apply Hk, bt_get_is_Some in Hin as [a Ha].
  unfold bt_contains in Hc. by rewrite Ha in Hc.
Qed.

(** The catalog after the definitions compiled so far. *)
Record catalog_of (rules : list RuleDefinition) (tables : list DecisionTableDefinition)
    (catalog : RuleCatalog) : Prop := {
  co_rules : holds_each rd_name rule_compiled rules (cat_rules catalog);
  co_tables : holds_each dt_name table_compiled tables (cat_decision_tables catalog);
  co_names : NoDup (map rd_name rules ++ map dt_name tables);
}.

Lemma catalog_of_fresh rules tables catalog n :
  catalog_of rules tables catalog -> name_taken catalog n = false ->
  ~ In n (map rd_name rules) /\ ~ In n (map dt_name tables).
Proof.
  intros [Hr Ht _] [H1 H2]%orb_false_iff.
  split; [by eapply holds_each_fresh|by eapply holds_each_fresh].
Qed.

Lemma rules_loop dts decls contexts rules catalog declared :
  fold_outcome (compile_rule dts decls contexts)
    {| cat_declared_types := declared; cat_rules := []; cat_decision_tables := [] |} (enumerate rules)
  = Done catalog ->
  catalog_of rules [] catalog.
Proof.
  intros Hf. rewrite <-(snd_enumerate rules).
  refine (fold_outcome_inv (fun seen c => catalog_of (map snd seen) [] c) _ _ _ _ _ _ Hf).
  { split; [split_and!|split_and!|]; cbn; try constructor; done. }
  intros seen [i definition] c c' Hc (rule & Hrule & Hfresh & ->)%compile_rule_Done; [|apply (co_rules _ _ _ Hc)].
  destruct (catalog_of_fresh _ _ _ _ Hc Hfresh) as [Hn _]. destruct Hc as [Hr Ht Hnd].
  rewrite map_app. cbn [map snd]. split; cbn [cat_rules cat_decision_tables]; [by apply holds_each_snoc|done|].
  cbn in Hnd |- *. rewrite app_nil_r in *. rewrite map_app. apply NoDup_app. split_and!; [done| |].
  - intros x Hx Hin%list_elem_of_In. cbn in Hin. destruct Hin as [<-|[]]. apply Hn. by apply list_elem_of_In.
  - apply NoDup_singleton.
Qed.

Lemma compile_table_Done dts decls contexts catalog i definition catalog' :
  compile_table dts decls contexts catalog (i, definition) = Done catalog' ->
  exists table, table_compiled definition table /\ name_taken catalog (dt_name definition) = false
  /\ catalog' = {| cat_declared_types := cat_declared_types catalog;
                   cat_rules := cat_rules catalog;
                   cat_decision_tables := bt_insert (cat_decision_tables catalog) (dt_name definition) table |}.
Proof.
  unfold compile_table. cbv zeta. destruct (name_taken _ _) eqn:Ht; [done|].
  destruct (compile_decision_table _ _ _ _) as [table|] eqn:Hc; [|done].
  intros [= <-]. exists table. split_and!; [|done|done].
  destruct (compile_decision_table_Ok _ _ _ _ _ Hc) as (? & ? & ? & ? & _). split; try done.
  by eapply compile_decision_table_name.
Qed.

Lemma tables_loop dts decls contexts rules tables catalog catalog' :
  catalog_of rules [] catalog ->
  fold_outcome (compile_table dts decls contexts) catalog (enumerate tables) = Done catalog' ->
  catalog_of rules tables catalog'.
Proof.
  intros Hc Hf. rewrite <-(snd_enumerate tables).
  refine (fold_outcome_inv (fun seen c => catalog_of rules (map snd seen) c) _ _ _ _ _ _ Hf); [done|].
  clear. intros seen [i definition] c c' Hc (table & Htable & Hfresh & ->)%compile_table_Done.
  destruct (catalog_of_fresh _ _ _ _ Hc Hfresh) as [Hn1 Hn2]. destruct Hc as [Hr Ht Hnd].
  rewrite map_app. cbn [map snd]. split; cbn [cat_rules cat_decision_tables]; [done|by apply holds_each_snoc|].
  rewrite map_app, app_assoc. apply NoDup_app. split_and!; [done| |apply NoDup_singleton].
  intros x Hx%list_elem_of_In [->|[]%elem_of_nil]%elem_of_cons. apply in_app_iff in Hx. tauto.
Qed.

(** *** Revisions *)

Definition with_revision (table : CompiledDecisionTable) (revision : string) : CompiledDecisionTable :=
  {| cdt_name := cdt_name table; cdt_revision := revision; cdt_inputs := cdt_inputs table;
     cdt_output := cdt_output table; cdt_output_fields := cdt_output_fields table;
     cdt_hit_policy := cdt_hit_policy table; cdt_rows := cdt_rows table;
     cdt_test_cases := cdt_test_cases table; cdt_declared_types := cdt_declared_types table |}.

(** A table whose revision is the digest of its own encoding. *)
Definition revised (table : CompiledDecisionTable) : Prop :=
  exists bytes, canonical_bytes DecisionDefinition (DecisionDefinitionValue table) = Some bytes
  /\ cdt_revision table = sha256_hex bytes.

Lemma derive_decision_revisions_Done catalog catalog' :
  derive_decision_revisions catalog = Done catalog' ->
  cat_rules catalog' = cat_rules catalog
  /\ cat_declared_types catalog' = cat_declared_types catalog
  /\ Forall2 (fun nt nt' : string * CompiledDecisionTable =>
       nt'.1 = nt.1 /\ revised nt'.2 /\ exists revision, nt'.2 = with_revision nt.2 revision)
     (cat_decision_tables catalog) (cat_decision_tables catalog').
Proof.
  unfold derive_decision_revisions. destruct (fold_outcome _ _ _) as [| |tables] eqn:Hf; [done|done|].
  intros [= <-]. cbn [cat_rules cat_declared_types cat_decision_tables]. split_and!; [done|done|].
  refine (fold_outcome_inv (fun seen tables => Forall2 _ seen tables) _ _ _ _ _ _ Hf); [constructor|].
  clear. intros seen [n table] s s' Hs Hstep.
  destruct (canonical_bytes _ _) as [bytes|] eqn:Hb; [|done]. injection Hstep as <-.
  apply Forall2_app; [done|]. constructor; [|constructor]. cbn [fst snd]. split_and!; [done| |by eexists].
  exists bytes. split; [|done]. rewrite <-Hb. reflexivity.
Qed.

Lemma revised_get (m m' : btree CompiledDecisionTable) n table :
  Forall2 (fun nt nt' : string * CompiledDecisionTable =>
    nt'.1 = nt.1 /\ revised nt'.2 /\ exists revision, nt'.2 = with_revision nt.2 revision) m m' ->
  bt_get m n = Some table ->
  exists revision, bt_get m' n = Some (with_revision table revision) /\ revised (with_revision table revision).
Proof.
  induction 1 as [|[k t] [k' t'] m m' (Hk & Hr & revision & Ht) _ IH]; [done|]. cbn in *. subst.
  destruct (String.eqb n k); [|done]. intros [= ->]. by exists revision.
Qed.

Lemma revised_keys (m m' : btree CompiledDecisionTable) :
  Forall2 (fun nt nt' : string * CompiledDecisionTable =>
    nt'.1 = nt.1 /\ revised nt'.2 /\ exists revision, nt'.2 = with_revision nt.2 revision) m m' ->
  map fst m' = map fst m.
Proof. induction 1 as [|[k t] [k' t'] m m' (Hk & _) _ IH]; cbn in *; [done|]. by subst; rewrite IH. Qed.

Lemma table_compiled_revision definition table revision :
  table_compiled definition table -> table_compiled definition (with_revision table revision).
Proof. intros [? [] ? ? ?]. split; try done. Qed.

(** A revision is only copied to the trace. *)
Lemma evaluate_with_revision table revision bindings r :
  evaluate_decision_table table bindings = Done r ->
  exists r', evaluate_decision_table (with_revision table revision) bindings = Done r'
  /\ res_output r' = res_output r /\ res_matched_row_id r' = res_matched_row_id r.
Proof.
  unfold evaluate_decision_table, decision_trace.
  change (evaluate_rows (with_revision table revision)) with (evaluate_rows table).
  cbn [with_revision cdt_name cdt_revision cdt_inputs cdt_hit_policy].
  destruct (lift (decode_bindings _ _)) as [| |ctx]; [done|done|]. cbn [mbind outcome_bind].
  destruct (lift (evaluate_rows _ _)) as [| |[matched results]]; [done|done|]. cbn [mbind outcome_bind].
  destruct (expect_some _) as [| |bytes]; cbn [mbind outcome_bind];
    (destruct (cdt_hit_policy table); destruct matched as [|row [|row' rows]]; cbn [mbind outcome_bind]; try done;
     intros [= <-]; eexists; split_and!; reflexivity).
Qed.

(** *** Test cases *)

Lemma fold_outcome_each {A} (f : A -> outcome unit) l :
  fold_outcome (fun _ x => f x) tt l = Done tt -> Forall (fun x => f x = Done tt) l.
Proof.
  induction l as [|x l IH]; cbn [fold_outcome]; [constructor|].
  destruct (f x) as [| |[]] eqn:E; try done. intros Hf. constructor; auto.
Qed.

(** What a test case says of a catalog. *)
Definition test_case_holds (catalog : RuleCatalog) (name : string) (case : DecisionTableTestCase) : Prop :=
  exists input r, case_input case = JObject input
  /\ evaluate_decision catalog name (bt_collect input) = Done r
  /\ value_eqb (res_output r) (expect_output (case_expect case)) = true
  /\ res_matched_row_id r = expect_matched_row_id (case_expect case).

Lemma validate_test_case_Done catalog definition case :
  validate_test_case catalog definition case = Done tt -> test_case_holds catalog (dt_name definition) case.
Proof.
  unfold validate_test_case, test_case_holds. destruct (case_input case) as [| | | | |input]; try done.
  destruct (evaluate_decision _ _ _) as [| |r] eqn:He; try done.
  destruct (_ || _)%bool eqn:E; [done|]. intros _. apply orb_false_iff in E as [E1 E2].
  apply negb_false_iff in E1, E2. apply String.eqb_eq in E2. by exists input, r.
Qed.

Lemma compile_catalog_internal_Done dts order rules tables rcontexts dcontexts catalog :
  compile_catalog_internal dts order rules tables rcontexts dcontexts = Done catalog ->
  exists before, catalog_of rules tables before
  /\ validate_decision_test_cases before tables = Done tt
  /\ derive_decision_revisions before = Done catalog.
Proof.
  unfold compile_catalog_internal. destruct (lift _) as [| |decls]; [done|done|]. cbn [mbind outcome_bind].
  destruct (fold_outcome (compile_rule _ _ _) _ _) as [| |c1] eqn:H1; [done|done|]. cbn [mbind outcome_bind].
  destruct (fold_outcome (compile_table _ _ _) _ _) as [| |c2] eqn:H2; [done|done|]. cbn [mbind outcome_bind].
  destruct (validate_decision_test_cases _ _) as [| |[]] eqn:H3; [done|done|]. cbn [mbind outcome_bind].
  intros H4. exists c2. split_and!; try done. eapply tables_loop; [by eapply rules_loop|done].
Qed.

(** C3: a compiled catalog holds exactly the rules and the decision tables of
    its definitions, whose names are all distinct: each rule is parsed from its
    source, checked over its bindings and assignable to its result, each table
    is well formed, and the recorded digest of either is the digest of its own
    canonical encoding. *)
Theorem compile_catalog_sound dts order rules tables rcontexts dcontexts catalog :
  compile_catalog_internal dts order rules tables rcontexts dcontexts = Done catalog ->
  NoDup (map rd_name rules ++ map dt_name tables)
  /\ holds_each rd_name rule_compiled rules (cat_rules catalog)
  /\ holds_each dt_name (fun definition table => table_compiled definition table /\ revised table)
       tables (cat_decision_tables catalog).
Proof.
  intros (before & [Hr (Hw & Hk & Hg) Hnd] & _ & Hd)%compile_catalog_internal_Done.
  apply derive_decision_revisions_Done in Hd as (Hrules & _ & Hrev). rewrite Hrules.
  split_and!; [done|done|]. unfold holds_each, bt_wf. rewrite (revised_keys _ _ Hrev). split_and!; [done|done|].
  intros d (table & Hget & Hc)%Hg. destruct (revised_get _ _ _ _ Hrev Hget) as (revision & ? & ?).
  exists (with_revision table revision). split_and!; [done|by apply table_compiled_revision|done].
Qed.

(** C33: every test case of a compiled catalog holds of it: evaluating the
    case's table on its input, in the catalog as returned, gives the expected
    output at the expected row. *)
Theorem compiled_test_cases_hold dts order rules tables rcontexts dcontexts catalog definition case :
  compile_catalog_internal dts order rules tables rcontexts dcontexts = Done catalog ->
  In definition tables -> In case (dt_test_cases definition) ->
  test_case_holds catalog (dt_name definition) case.
Proof.
  intros (before & Hc & Hv & Hd)%compile_catalog_internal_Done Hdef Hcase.
  apply fold_outcome_each in Hv. rewrite List.Forall_forall in Hv.
  specialize (Hv _ Hdef). apply fold_outcome_each in Hv. rewrite List.Forall_forall in Hv.
  destruct (validate_test_case_Done _ _ _ (Hv _ Hcase)) as (input & r & Hi & He & Hout & Hid).
  apply derive_decision_revisions_Done in Hd as (_ & _ & Hrev).
  unfold evaluate_decision in He. destruct (bt_get (cat_decision_tables before) _) as [table|] eqn:Hget; [|done].
  destruct (revised_get _ _ _ _ Hrev Hget) as (revision & Hget' & _).
  destruct (evaluate_with_revision _ revision _ _ He) as (r' & He' & Ho & Hm).
  exists input, r'. unfold evaluate_decision. rewrite Hget', Ho, Hm. done.
Qed.
End CatalogFacts.

(** an index beyond [u32] parses and type checks, and then compiling the
    catalog panics when the rule is encoded for its digest. *)
Theorem large_index_panics `{Serde, Digest} :
  (exists e, parse_expression "r" "is_null(xs[4294967296])" = Ok e
     /\ is_ok (check_expression "r" None [("xs", TList TInt)] [] e) = true)
  /\ compile_catalog [{| rd_name := "r"; rd_bindings := [("xs", TList TInt)]; rd_result := TBool;
                         rd_expression := "is_null(xs[4294967296])" |}] [] = Panicked
  /\ is_ok (compile_expression "r" "is_null(xs[4294967295])" [("xs", TList TInt)] []) = true.
Proof.
  split; [eexists; split; [vm_compute; reflexivity|vm_compute; reflexivity]|].
  split; [vm_compute; reflexivity|]. vm_compute; reflexivity.
Qed.

(** A catalog of one rule and one table with a test case, for the witnesses. *)
Definition bonus_rule : RuleDefinition :=
  {| rd_name := "bonus"; rd_bindings := [("total", TInt)]; rd_result := TInt64;
     rd_expression := "total / 10" |}.

Definition tier_case : DecisionTableTestCase :=
  {| case_name := "large"; case_input := JObject [("total", JNumber "150")];
     case_expect := {| expect_output := JObject [("tier", JString "gold")];
                       expect_matched_row_id := "gold" |} |}.

Definition tested_definition : DecisionTableDefinition :=
  {| dt_name := dt_name tier_definition; dt_revision := "1"; dt_hit_policy := First;
     dt_inputs := dt_inputs tier_definition; dt_output := dt_output tier_definition;
     dt_rows := dt_rows tier_definition; dt_test_cases := [tier_case] |}.

Definition small_catalog : RuleCatalog :=
  match @compile_catalog small_serde small_digest [bonus_rule] [tested_definition] with
  | Done catalog => catalog
  | _ => {| cat_declared_types := []; cat_rules := []; cat_decision_tables := [] |}
  end.

Lemma small_catalog_compiles :
  @compile_catalog small_serde small_digest [bonus_rule] [tested_definition] = Done small_catalog.
Proof. vm_compute. reflexivity. Qed.

Lemma compile_catalog_sound_witness :
  exists rule, bt_get (cat_rules small_catalog) "bonus" = Some rule
  /\ @rule_compiled small_serde small_digest bonus_rule rule.
Proof.
  destruct (@compile_catalog_sound small_serde small_digest [] None [bonus_rule] [tested_definition] None None
    small_catalog small_catalog_compiles) as (_ & (_ & _ & Hr) & _).
  apply (Hr bonus_rule). by left.
Defined.

Lemma compiled_test_cases_hold_witness :
  @test_case_holds small_serde small_digest small_catalog "tiers" tier_case.
Proof.
  apply (@compiled_test_cases_hold small_serde small_digest [] None [bonus_rule] [tested_definition] None None
    small_catalog tested_definition tier_case small_catalog_compiles); by left.
Defined.
