(* ===== verification/RulesPostgres.v ===== *)
(** * Lowering rules to SQL ([crates/rules/src/postgres.rs])

    The text the lowerer builds, with the quoting helpers it calls
    ([quote_ident] and [quote_literal] of [crates/backend/src/dialect.rs],
    re-exported by [crates/sqlgen/src/lib.rs]).  The main result is that no
    name, symbol, string or JSON value leaves its quotes: the text is closed
    under SQL's quoting and parentheses. *)
From S2P Require Import Prelude Json RulesSyntax RulesLexer RulesParser RulesDecimal RulesTime RulesValue RulesCheck RulesEval RulesCanonical RulesDecision.

(** ** Quoting *)

Definition double_quote : string := String "034" "".

(** [str::replace] of one byte by two of it. *)
Fixpoint double_byte (a : ascii) (s : string) : string :=
  match s with
  | EmptyString => ""
  | String b s => if Ascii.eqb b a then String b (String b (double_byte a s)) else String b (double_byte a s)
  end.

Definition quote_ident (ident : string) : string :=
  double_quote +:+ double_byte "034" ident +:+ double_quote.

Definition quote_lit (lit : string) : string := "'" +:+ double_byte "039" lit +:+ "'".

Definition rule_qualified_column (alias column : string) : string :=
  quote_ident alias +:+ "." +:+ quote_ident column.

(** ** Bindings *)

Record SqlExpression := { sql : string; sql_type : RuleType }.

Definition SqlExpression_column (alias column : string) (t : RuleType) : SqlExpression :=
  {| sql := rule_qualified_column alias column; sql_type := t |}.

Definition scalar_subquery (cte column : string) (t : RuleType) : SqlExpression :=
  {| sql := "(SELECT " +:+ quote_ident column +:+ " FROM " +:+ quote_ident cte +:+ " LIMIT 1)";
     sql_type := t |}.

Definition database_time (t : RuleType) : SqlExpression :=
  {| sql := "statement_timestamp()"; sql_type := t |}.

Inductive SqlBinding : Type :=
| SqlBinding_Expression (e : SqlExpression)
| SqlBinding_Literal (v : Value).

Definition SqlBindings : Type := btree SqlBinding.

(** [SqlBindings::new]. *)
Definition SqlBindings_new (values : list (string * SqlBinding)) : SqlBindings := bt_collect values.

Inductive PostgresDecisionHitPolicy : Type := PgFirst | PgUnique.

Record PostgresDecisionOutput := { pdo_sql : string; pdo_type : RuleType }.

Record PostgresDecisionRow := {
  pdr_id : string;
  pdr_condition_sql : string;
  pdr_output : btree PostgresDecisionOutput;
}.

Record PostgresDecisionProgram := {
  pdp_name : string;
  pdp_revision : string;
  pdp_hit_policy : PostgresDecisionHitPolicy;
  pdp_rows : list PostgresDecisionRow;
}.

Record LoweredRuleValue := { lrv_sql : string; lrv_type : RuleType }.

(** ** Types and the file's own validators *)

Definition postgres_type (t : RuleType) : string :=
  match strip_nullable t with
  | TBool => "boolean"
  | TString | TEnum _ _ => "text"
  | TInt => "int4"
  | TInt64 => "int8"
  | TDecimal => "numeric"
  | TUuid => "uuid"
  | TDate => "date"
  | TTimestamp => "timestamptz"
  | TList _ | TObject _ _ | TOpaqueJson _ _ _ _ => "jsonb"
  | TNullable _ => ""
  end.

Definition invalid_literal (rule_name : string) (t : RuleType) : RuleError :=
  InvalidLiteral rule_name (display_name t).

Definition invalid_binding (name : string) (t : RuleType) : RuleError :=
  InvalidBinding name (display_name t).

Definition is_decimal (source : string) : bool :=
  let (negative, unsigned) :=
    match strip_prefix_byte "-" source with Some u => (true, u) | None => (false, source) end in
  let (whole, fraction) :=
    match split_once "." unsigned with Some p => p | None => (unsigned, "") end in
  if String.eqb whole "" || negb (bytes_forallb is_ascii_digit_byte whole)
     || negb (bytes_forallb is_ascii_digit_byte fraction)
  then false
  else
    let digits := whole +:+ fraction in
    let signed := if negative : bool then "-" +:+ digits else digits in
    match parse_i128 signed with Some _ => true | None => false end.

(** The same checks as in [eval.rs], written out again in this file. *)
Definition pg_is_uuid (value : string) : bool := is_uuid value.
Definition pg_is_canonical_date (value : string) : bool := is_canonical_date value.
Definition pg_is_canonical_timestamp (value : string) : bool := is_canonical_timestamp value.
Definition pg_days_in_month (year month : Z) : Z := days_in_month year month.

(** ** SQL templates *)

Definition arithmetic_overflow_rejection : string :=
  "((1::numeric) / (0::numeric * current_setting('server_version_num')::numeric))".

Definition i128_range_condition (value : string) : string :=
  "((" +:+ value +:+ ") BETWEEN (-170141183460469231731687303715884105728)::numeric AND "
  +:+ "(170141183460469231731687303715884105727)::numeric)".

(** Nested so that each condition guards the next: the last one is innermost. *)
Definition all_conditions (conditions : list string) : string :=
  fold_right (fun condition next =>
    "(CASE WHEN (" +:+ condition +:+ ") THEN (" +:+ next +:+ ") ELSE FALSE END)") "TRUE" conditions.

Definition checked_decimal_value (value scale : string) (conditions : list string) : string :=
  let scale_factor := "(('1e-' || ((" +:+ scale +:+ ")::text))::numeric)" in
  let normalized := "trim_scale(((" +:+ value +:+ ")::numeric) * (" +:+ scale_factor +:+ "))" in
  "(CASE WHEN (" +:+ all_conditions conditions +:+ ") THEN (" +:+ normalized +:+ ") ELSE "
  +:+ arithmetic_overflow_rejection +:+ " END)".

Definition power_of_ten_exponent_condition (exponent : string) : string :=
  "((" +:+ exponent +:+ ") BETWEEN 0 AND 38)".

Record DecimalParts := { part_coefficient : string; part_scale : string }.

Definition decimal_parts (value : string) : DecimalParts :=
  let normalized := "trim_scale((" +:+ value +:+ ")::numeric)" in
  let scale := "scale(" +:+ normalized +:+ ")" in
  {| part_coefficient := "((" +:+ normalized +:+ ") * power(10::numeric, (" +:+ scale +:+ ")))";
     part_scale := scale |}.

Definition decimal_scale_alignment_exponent (parts : DecimalParts) (scale : string) : string :=
  "((" +:+ scale +:+ ") - (" +:+ part_scale parts +:+ "))".

Definition decimal_scaled_coefficient (parts : DecimalParts) (exponent : string) : string :=
  "((" +:+ part_coefficient parts +:+ ") * power(10::numeric, (" +:+ exponent +:+ ")))".

Definition not_i128_min (coefficient : string) : string :=
  "((" +:+ coefficient +:+ ") <> (-170141183460469231731687303715884105728)::numeric)".

Definition lower_checked_decimal_binary (left right operator : string) : string :=
  let left := decimal_parts left in
  let right := decimal_parts right in
  let scale := "greatest((" +:+ part_scale left +:+ "), (" +:+ part_scale right +:+ "))" in
  let left_exponent := decimal_scale_alignment_exponent left scale in
  let right_exponent := decimal_scale_alignment_exponent right scale in
  let left_coefficient := decimal_scaled_coefficient left left_exponent in
  let right_coefficient := decimal_scaled_coefficient right right_exponent in
  let result_coefficient :=
    "((" +:+ left_coefficient +:+ ") " +:+ operator +:+ " (" +:+ right_coefficient +:+ "))" in
  let conditions :=
    [power_of_ten_exponent_condition left_exponent; power_of_ten_exponent_condition right_exponent;
     i128_range_condition left_coefficient; i128_range_condition right_coefficient]
    ++ (if String.eqb operator "-" then [not_i128_min (part_coefficient right)] else [])
    ++ [i128_range_condition result_coefficient] in
  checked_decimal_value result_coefficient scale conditions.

Definition lower_checked_decimal_multiply (left right : string) : string :=
  let left := decimal_parts left in
  let right := decimal_parts right in
  let coefficient := "((" +:+ part_coefficient left +:+ ") * (" +:+ part_coefficient right +:+ "))" in
  let scale := "((" +:+ part_scale left +:+ ") + (" +:+ part_scale right +:+ "))" in
  checked_decimal_value coefficient scale
    [i128_range_condition (part_coefficient left); i128_range_condition (part_coefficient right);
     i128_range_condition coefficient].

Definition lower_checked_decimal_divide (left right : string) : string :=
  let left_parts := decimal_parts left in
  let right_parts := decimal_parts right in
  let target_scale :=
    "greatest(18, (" +:+ part_scale left_parts +:+ ") - (" +:+ part_scale right_parts +:+ "))" in
  let exponent :=
    "((" +:+ target_scale +:+ ") + (" +:+ part_scale right_parts +:+ ") - ("
    +:+ part_scale left_parts +:+ "))" in
  let numerator := "((" +:+ part_coefficient left_parts +:+ ") * power(10::numeric, (" +:+ exponent +:+ ")))" in
  let quotient := "trunc((" +:+ numerator +:+ ") / (" +:+ part_coefficient right_parts +:+ "))" in
  checked_decimal_value quotient target_scale
    [i128_range_condition (part_coefficient left_parts); i128_range_condition (part_coefficient right_parts);
     "((" +:+ part_coefficient right_parts +:+ ") <> 0::numeric)";
     power_of_ten_exponent_condition exponent; i128_range_condition numerator;
     i128_range_condition quotient].

Definition lower_checked_decimal_negate (value : string) : string :=
  let parts := decimal_parts value in
  let coefficient := "(-(" +:+ part_coefficient parts +:+ "))" in
  checked_decimal_value coefficient (part_scale parts)
    [i128_range_condition (part_coefficient parts); not_i128_min (part_coefficient parts)].

Definition checked_integer (minimum maximum pg_type value : string) : string :=
  "((CASE WHEN ((" +:+ value +:+ ") BETWEEN (" +:+ minimum +:+ ")::numeric AND (" +:+ maximum
  +:+ ")::numeric) THEN (" +:+ value +:+ ") ELSE " +:+ arithmetic_overflow_rejection +:+ " END))::" +:+ pg_type.

(** The two-case [ExpressionType] of this file is [CheckedType]. *)
Definition checked_integer_result (t : CheckedType) (value : string) : string :=
  match t with
  | Concrete TInt => checked_integer "-2147483648" "2147483647" "int4" value
  | Concrete TInt64 => checked_integer "-9223372036854775808" "9223372036854775807" "int8" value
  | _ => value
  end.

Definition lower_checked_numeric_binary (t : CheckedType) (left right operator : string) : string :=
  let value := "(((" +:+ left +:+ ")::numeric) " +:+ operator +:+ " ((" +:+ right +:+ ")::numeric))" in
  match t with
  | Concrete TInt | Concrete TInt64 => checked_integer_result t value
  | Concrete TDecimal =>
      if String.eqb operator "+" || String.eqb operator "-"
      then lower_checked_decimal_binary left right operator
      else if String.eqb operator "*" then lower_checked_decimal_multiply left right
      else value
  | _ => value
  end.

Record LoweredExpression := { lo_sql : string; lo_type : CheckedType }.

Definition lower_numeric_negate (operand : LoweredExpression) : string :=
  match lo_type operand with
  | Concrete TInt | Concrete TInt64 =>
      checked_integer_result (lo_type operand) ("-((" +:+ lo_sql operand +:+ ")::numeric)")
  | Concrete TDecimal => lower_checked_decimal_negate (lo_sql operand)
  | _ => "(-(" +:+ lo_sql operand +:+ "))"
  end.

Definition is_null_type (t : CheckedType) : bool := match t with CheckedNull => true | _ => false end.

Definition comparison (left operator right : string) : string :=
  "((" +:+ left +:+ ") " +:+ operator +:+ " (" +:+ right +:+ "))".

Definition lower_binary (operation : BinaryOp) (left right : LoweredExpression) (result_type : CheckedType)
    : string :=
  let l := lo_sql left in
  let r := lo_sql right in
  match operation with
  | Or => "(CASE WHEN (" +:+ l +:+ ") THEN TRUE ELSE (" +:+ r +:+ ") END)"
  | And => "(CASE WHEN (" +:+ l +:+ ") THEN (" +:+ r +:+ ") ELSE FALSE END)"
  | Equal =>
      if is_null_type (lo_type right) then "((" +:+ l +:+ ") IS NULL)"
      else if is_null_type (lo_type left) then "((" +:+ r +:+ ") IS NULL)"
      else comparison l "=" r
  | NotEqual =>
      if is_null_type (lo_type right) then "((" +:+ l +:+ ") IS NOT NULL)"
      else if is_null_type (lo_type left) then "((" +:+ r +:+ ") IS NOT NULL)"
      else comparison l "<>" r
  | LessThan => comparison l "<" r
  | LessThanOrEqual => comparison l "<=" r
  | GreaterThan => comparison l ">" r
  | GreaterThanOrEqual => comparison l ">=" r
  | Add => lower_checked_numeric_binary result_type l r "+"
  | Subtract => lower_checked_numeric_binary result_type l r "-"
  | Multiply => lower_checked_numeric_binary result_type l r "*"
  | Divide =>
      match result_type with
      | Concrete TInt | Concrete TInt64 =>
          checked_integer_result result_type
            ("trunc(((" +:+ l +:+ ")::numeric) / ((" +:+ r +:+ ")::numeric))")
      | Concrete TDecimal => lower_checked_decimal_divide l r
      | _ => comparison l "/" r
      end
  end.

Definition json_value (value : string) (t : RuleType) : string :=
  match strip_nullable t with
  | TList _ | TObject _ _ | TOpaqueJson _ _ _ _ => "NULLIF((" +:+ value +:+ "), 'null'::jsonb)"
  | t => "((NULLIF((" +:+ value +:+ "), 'null'::jsonb) #>> '{}'))::" +:+ postgres_type t
  end.

Definition json_access (target field : string) (t : RuleType) : string :=
  json_value ("((" +:+ target +:+ ")::jsonb -> " +:+ quote_lit field +:+ ")") t.

Definition json_index (target : string) (index : Z) (t : RuleType) : string :=
  json_value ("((" +:+ target +:+ ")::jsonb -> " +:+ show_nat index +:+ ")") t.

Definition cast_sql_expression (expression : string) (t : RuleType) : string :=
  "(" +:+ expression +:+ ")::" +:+ postgres_type t.

Definition lower_canonical_value (expression : string) (t : RuleType) : string :=
  match strip_nullable t with
  | TTimestamp =>
      let utc := "((" +:+ expression +:+ ") AT TIME ZONE 'UTC')" in
      let seconds := "to_char(" +:+ utc +:+ ", 'YYYY-MM-DD" +:+ double_quote +:+ "T" +:+ double_quote
                     +:+ "HH24:MI:SS')" in
      let fraction := "rtrim(to_char(" +:+ utc +:+ ", 'US'), '0')" in
      let text := "((" +:+ seconds +:+ ") || (CASE WHEN (" +:+ fraction +:+ ") = '' THEN 'Z' ELSE ('.' || ("
                  +:+ fraction +:+ ") || 'Z') END))" in
      "(CASE WHEN ((" +:+ expression +:+ ") IS NULL) THEN 'null'::jsonb ELSE to_jsonb((" +:+ text
      +:+ ")::text) END)"
  | _ => expression
  end.

(** ** Lowering *)

Section Lowering.
Context `{Serde}.

Definition json_bool_literal (b : bool) : string := if b then "TRUE" else "FALSE".

(** [lower_value_literal]; the [filter]s keep the order of the code's checks. *)
Fixpoint lower_value_literal (rule_name binding_name : string) (t : RuleType) (value : Value)
    : result RuleError string :=
  match t with
  | TNullable inner =>
      if is_null value then Ok ("NULL::" +:+ postgres_type inner)
      else lower_value_literal rule_name binding_name inner value
  | TBool =>
      match as_bool value with
      | Some b => Ok (json_bool_literal b)
      | None => Err (invalid_literal rule_name t)
      end
  | TString =>
      s ← ok_or (invalid_literal rule_name t) (as_str value);
      Ok (quote_lit s +:+ "::" +:+ postgres_type t)
  | TUuid =>
      s ← ok_or (invalid_binding binding_name t) (s ← as_str value; if pg_is_uuid s then Some s else None);
      Ok (quote_lit s +:+ "::uuid")
  | TDate =>
      s ← ok_or (invalid_binding binding_name t)
            (s ← as_str value; if pg_is_canonical_date s then Some s else None);
      Ok (quote_lit s +:+ "::date")
  | TTimestamp =>
      s ← ok_or (invalid_binding binding_name t)
            (s ← as_str value; if pg_is_canonical_timestamp s then Some s else None);
      Ok (quote_lit s +:+ "::timestamptz")
  | TEnum _ symbols =>
      s ← ok_or (invalid_binding binding_name t)
            (s ← as_str value; if existsb (fun symbol => String.eqb symbol s) symbols then Some s else None);
      Ok (quote_lit s +:+ "::text")
  | TInt | TInt64 =>
      n ← ok_or (invalid_literal rule_name t) (as_number value);
      if match t with
         | TInt => match parse_i32 n with Some _ => true | None => false end
         | _ => match parse_i64 n with Some _ => true | None => false end
         end
      then Ok ("(" +:+ n +:+ ")::" +:+ postgres_type t)
      else Err (invalid_binding binding_name t)
  | TDecimal =>
      n ← ok_or (invalid_literal rule_name t) (as_number value);
      if is_decimal n then Ok ("(" +:+ n +:+ ")::numeric") else Err (invalid_binding binding_name t)
  | TList item_type =>
      items ← ok_or (invalid_literal rule_name t) (as_array value);
      items ← map_result (lower_value_literal rule_name binding_name item_type) items;
      Ok ("jsonb_build_array(" +:+ join ", " items +:+ ")")
  | TObject _ fields =>
      object ← ok_or (invalid_literal rule_name t) (as_object value);
      pairs ← map_result (fun ft : string * RuleType =>
        let (field, field_type) := ft in
        value ← match obj_get object field with
                | Some value => lower_value_literal rule_name binding_name field_type value
                | None => Ok ("NULL::" +:+ postgres_type field_type)
                end;
        Ok [quote_lit field; value]) fields;
      Ok ("jsonb_build_object(" +:+ join ", " (List.concat pairs) +:+ ")")
  | TOpaqueJson _ maximum_bytes maximum_depth maximum_nodes =>
      if opaque_json_within_bounds value maximum_bytes maximum_depth maximum_nodes then
        text ← ok_or (invalid_binding binding_name t) (to_string value);
        Ok (quote_lit text +:+ "::jsonb")
      else Err (invalid_binding binding_name t)
  end.

Fixpoint validate_complete_value_literal (binding_name : string) (t : RuleType) (value : Value)
    : result RuleError unit :=
  match t with
  | TNullable inner =>
      if is_null value then Ok tt else validate_complete_value_literal binding_name inner value
  | TList item_type =>
      items ← ok_or (invalid_binding binding_name t) (as_array value);
      each_result (validate_complete_value_literal binding_name item_type) items
  | TObject _ fields =>
      object ← ok_or (invalid_binding binding_name t) (as_object value);
      each_result (fun ft : string * RuleType =>
        let (field, field_type) := ft in
        match obj_get object field with
        | Some field_value => validate_complete_value_literal binding_name field_type field_value
        | None => if accepts_null field_type then Ok tt else Err (invalid_binding binding_name t)
        end) fields
  | TOpaqueJson _ maximum_bytes maximum_depth maximum_nodes =>
      if opaque_json_within_bounds value maximum_bytes maximum_depth maximum_nodes then Ok tt
      else Err (invalid_binding binding_name t)
  | _ => Ok tt
  end.

Definition merge_conditional_types (rule_name : string) (when_true when_false : CheckedType)
    : result RuleError CheckedType :=
  match when_true, when_false with
  | Concrete l, Concrete r =>
      if ruletype_eqb l r then Ok (Concrete l) else Err (InternalInvariant rule_name)
  | CheckedNull, Concrete other | Concrete other, CheckedNull =>
      if accepts_null other then Ok (Concrete other) else Err (InternalInvariant rule_name)
  | CheckedNull, CheckedNull => Err (InternalInvariant rule_name)
  end.

Definition concrete_type (rule_name : string) (t : CheckedType) : result RuleError RuleType :=
  match t with Concrete t => Ok t | CheckedNull => Err (InternalInvariant rule_name) end.

Definition lower_literal (rule_name : string) (l : Literal) : result RuleError string :=
  match l with
  | Literal_Null => Ok "NULL"
  | Literal_Bool b => Ok (json_bool_literal b)
  | Literal_String s => Ok (quote_lit s +:+ "::text")
  | Literal_Int value =>
      match parse_i32 value with
      | Some _ => Ok ("(" +:+ value +:+ ")::int4")
      | None =>
          match parse_i64 value with
          | Some _ => Ok ("(" +:+ value +:+ ")::int8")
          | None => Err (InvalidLiteral rule_name "int or bigint")
          end
      end
  | Literal_Decimal value => Ok ("(" +:+ value +:+ ")::numeric")
  end.

Section Rule.
Variable rule : CompiledRule.
Variable bindings : SqlBindings.

Definition invariant : RuleError := InternalInvariant (cr_name rule).

Definition is_enum_with (enum_name symbol : string) (t : RuleType) : bool :=
  match t with
  | TEnum name symbols =>
      String.eqb name enum_name && existsb (fun candidate => String.eqb candidate symbol) symbols
  | _ => false
  end.

Fixpoint infer_expression_type (e : Expr) : result RuleError CheckedType :=
  match ekind e with
  | ELiteral Literal_Null => Ok CheckedNull
  | ELiteral (Literal_Bool _) => Ok (Concrete TBool)
  | ELiteral (Literal_String _) => Ok (Concrete TString)
  | ELiteral (Literal_Int value) =>
      match parse_i32 value with
      | Some _ => Ok (Concrete TInt)
      | None => match parse_i64 value with Some _ => Ok (Concrete TInt64) | None => Err invariant end
      end
  | ELiteral (Literal_Decimal value) => if is_decimal value then Ok (Concrete TDecimal) else Err invariant
  | EName name => t ← ok_or invariant (bt_get (cr_bindings rule) name); Ok (Concrete t)
  | EEnumSymbol enum_name symbol =>
      t ← ok_or invariant (List.find (is_enum_with enum_name symbol) (cr_declared_types rule));
      Ok (Concrete t)
  | EList items =>
      match items with
      | [] => Err invariant
      | first :: _ =>
          t ← infer_expression_type first;
          match t with
          | Concrete item_type => Ok (Concrete (TList item_type))
          | CheckedNull => Err invariant
          end
      end
  | EMember target field =>
      t ← infer_expression_type target;
      match t with
      | Concrete (TObject _ fields) =>
          t ← ok_or invariant (bt_get fields field); Ok (Concrete (access_result_type t))
      | _ => Err invariant
      end
  | EIndex target _ =>
      t ← infer_expression_type target;
      match t with
      | Concrete (TList item_type) => Ok (Concrete (access_result_type item_type))
      | _ => Err invariant
      end
  | ECall Size _ => Ok (Concrete TInt)
  | ECall _ _ => Ok (Concrete TBool)
  | EUnary Not _ => Ok (Concrete TBool)
  | EUnary Negate operand => infer_expression_type operand
  | EBinary (Add | Subtract | Multiply | Divide) lhs rhs =>
      l ← infer_expression_type lhs;
      r ← infer_expression_type rhs;
      match l, r with
      | Concrete TInt, Concrete TInt64 | Concrete TInt64, Concrete TInt => Ok (Concrete TInt64)
      | _, _ => Ok l
      end
  | EBinary _ _ _ => Ok (Concrete TBool)
  | EConditional _ when_true when_false =>
      t ← infer_expression_type when_true;
      f ← infer_expression_type when_false;
      merge_conditional_types (cr_name rule) t f
  end.

Definition lower_binding (name : string) : result RuleError string :=
  expected ← ok_or invariant (bt_get (cr_bindings rule) name);
  binding ← ok_or (MissingBinding name) (bt_get bindings name);
  match binding with
  | SqlBinding_Expression e =>
      if ruletype_eqb (sql_type e) expected then Ok (cast_sql_expression (sql e) expected)
      else Err (TypeMismatch (cr_name rule) (display_name expected) (display_name (sql_type e)))
  | SqlBinding_Literal value => lower_value_literal (cr_name rule) name expected value
  end.

Definition lower_call (lower : Expr -> result RuleError LoweredExpression) (function : Function_)
    (arguments : list Expr) : result RuleError string :=
  match arguments with
  | [] => Err invariant
  | first :: rest =>
      first ← lower first;
      match function with
      | Size =>
          t ← concrete_type (cr_name rule) (lo_type first);
          match t with
          | TString => Ok ("char_length((" +:+ lo_sql first +:+ ")::text)")
          | TList _ => Ok ("jsonb_array_length((" +:+ lo_sql first +:+ ")::jsonb)")
          | _ => Err invariant
          end
      | IsNull => Ok ("((" +:+ lo_sql first +:+ ") IS NULL)")
      | StartsWith | EndsWith =>
          match rest with
          | [] => Err invariant
          | second :: _ =>
              second ← lower second;
              let function := match function with StartsWith => "left" | _ => "right" end in
              Ok ("((" +:+ function +:+ "((" +:+ lo_sql first +:+ ")::text, char_length((" +:+ lo_sql second
                  +:+ ")::text))) = ((" +:+ lo_sql second +:+ ")::text))")
          end
      end
  end.

Fixpoint lower_expression (e : Expr) : result RuleError LoweredExpression :=
  t ← infer_expression_type e;
  text ←
    match ekind e with
    | ELiteral l => lower_literal (cr_name rule) l
    | EName name => lower_binding name
    | EEnumSymbol _ symbol => Ok (quote_lit symbol +:+ "::text")
    | EList items =>
        items ← map_result (fun item => lo_sql <$> lower_expression item) items;
        Ok ("jsonb_build_array(" +:+ join ", " items +:+ ")")
    | EMember target field =>
        target ← lower_expression target;
        target_type ← concrete_type (cr_name rule) (lo_type target);
        match strip_nullable target_type with
        | TObject _ fields =>
            field_type ← ok_or invariant (bt_get fields field);
            Ok (json_access (lo_sql target) field (access_result_type field_type))
        | _ => Err invariant
        end
    | EIndex target index =>
        target ← lower_expression target;
        target_type ← concrete_type (cr_name rule) (lo_type target);
        match strip_nullable target_type with
        | TList item_type => Ok (json_index (lo_sql target) index (access_result_type item_type))
        | _ => Err invariant
        end
    | ECall function arguments => lower_call lower_expression function arguments
    | EUnary op operand =>
        operand ← lower_expression operand;
        Ok match op with
           | Not => "(NOT (" +:+ lo_sql operand +:+ "))"
           | Negate => lower_numeric_negate operand
           end
    | EBinary op lhs rhs =>
        lhs ← lower_expression lhs;
        rhs ← lower_expression rhs;
        Ok (lower_binary op lhs rhs t)
    | EConditional condition when_true when_false =>
        condition ← lower_expression condition;
        when_true ← lower_expression when_true;
        when_false ← lower_expression when_false;
        Ok ("(CASE WHEN (" +:+ lo_sql condition +:+ ") THEN (" +:+ lo_sql when_true +:+ ") ELSE ("
            +:+ lo_sql when_false +:+ ") END)")
    end;
  Ok {| lo_sql := text; lo_type := t |}.

Definition lower_postgres_expression : result RuleError SqlExpression :=
  _ ← each_result (fun name =>
        if bt_contains (cr_bindings rule) name then Ok tt else Err (UnexpectedBinding name)) (map fst bindings);
  _ ← each_result (fun name =>
        if bt_contains bindings name then Ok tt else Err (MissingBinding name)) (map fst (cr_bindings rule));
  lowered ← lower_expression (expression (cr_expression rule));
  Ok {| sql := lo_sql lowered; sql_type := cr_result rule |}.

Definition validate_direct_value_literal : result RuleError unit :=
  match ekind (expression (cr_expression rule)) with
  | EName name =>
      match bt_get bindings name with
      | Some (SqlBinding_Literal value) => validate_complete_value_literal name (cr_result rule) value
      | _ => Ok tt
      end
  | _ => Ok tt
  end.

Definition lower_postgres_value : result RuleError LoweredRuleValue :=
  _ ← validate_direct_value_literal;
  e ← lower_postgres_expression;
  Ok {| lrv_sql := lower_canonical_value (sql e) (sql_type e); lrv_type := sql_type e |}.

Definition lower_postgres : result RuleError string :=
  e ← lower_postgres_expression;
  if negb (ruletype_eqb (sql_type e) TBool)
  then Err (InvalidRuleResult (cr_name rule) "bool" (display_name (sql_type e)))
  else Ok (sql e).
End Rule.

Definition decision_condition_rule (table : CompiledDecisionTable) (e : CheckedExpr) : CompiledRule :=
  {| cr_name := cdt_name table; cr_bindings := cdt_inputs table; cr_result := TBool;
     cr_artifact := {| profile_version := PROFILE_VERSION; original_source := "";
                       canonical_ast_sha256 := cdt_revision table; source_sha256 := "" |};
     cr_expression := e; cr_declared_types := cdt_declared_types table |}.

Definition lower_decision_row (table : CompiledDecisionTable) (bindings : SqlBindings)
    (row : CompiledDecisionRow) : result RuleError PostgresDecisionRow :=
  conditions ← map_result (fun condition =>
    lower_postgres (decision_condition_rule table condition) bindings) (map snd (cdr_conditions row));
  let condition_sql :=
    match conditions with
    | [] => "TRUE"
    | _ => join " AND " (map (fun condition => "(" +:+ condition +:+ ") IS TRUE") conditions)
    end in
  object ← ok_or (InternalInvariant (cdt_name table)) (as_object (cdr_output row));
  output ← map_result (fun nt : string * RuleType =>
      let (name, t) := nt in
      value ← ok_or (InternalInvariant (cdt_name table)) (obj_get object name);
      text ← lower_value_literal (cdt_name table) name t value;
      Ok (name, {| pdo_sql := text; pdo_type := t |})) (cdt_output table);
  Ok {| pdr_id := cdr_id row; pdr_condition_sql := condition_sql; pdr_output := bt_collect output |}.

Definition lower_postgres_decision (table : CompiledDecisionTable) (bindings : SqlBindings)
    : result RuleError PostgresDecisionProgram :=
  first_condition ← ok_or (InternalInvariant (cdt_name table))
    match cdt_rows table with
    | row :: _ => match cdr_conditions row with (_, condition) :: _ => Some condition | [] => None end
    | [] => None
    end;
  let binding_rule := decision_condition_rule table first_condition in
  _ ← each_result (fun name =>
        if bt_contains (cdt_inputs table) name then Ok tt else Err (UnexpectedBinding name)) (map fst bindings);
  _ ← each_result (fun name =>
        if bt_contains bindings name then (_ ← lower_binding binding_rule bindings name; Ok tt)
        else Err (MissingBinding name)) (map fst (cdt_inputs table));
  rows ← map_result (lower_decision_row table bindings) (cdt_rows table);
  hit_policy ← match cdt_hit_policy table with
               | First => Ok PgFirst
               | Unique => Ok PgUnique
               | Unsupported _ => Err (InternalInvariant (cdt_name table))
               end;
  Ok {| pdp_name := cdt_name table; pdp_revision := cdt_revision table;
        pdp_hit_policy := hit_policy; pdp_rows := rows |}.
End Lowering.

(** ** Closed SQL text *)

(** A scanner of SQL text: the quote it is inside of, and the parentheses open
    outside quotes.  It stops at a closing parenthesis without an opening one
    and, outside quotes, at a statement separator, a backslash or a dollar. *)
Fixpoint sql_scan (quote : option ascii) (depth : nat) (s : string) : option (option ascii * nat) :=
  match s with
  | EmptyString => Some (quote, depth)
  | String a s =>
      match quote with
      | Some q => sql_scan (if Ascii.eqb a q then None else quote) depth s
      | None =>
          if Ascii.eqb a "039" || Ascii.eqb a "034" then sql_scan (Some a) depth s
          else if Ascii.eqb a "(" then sql_scan None (S depth) s
          else if Ascii.eqb a ")" then match depth with O => None | S depth => sql_scan None depth s end
          else if Ascii.eqb a ";" || Ascii.eqb a "092" || Ascii.eqb a "$" then None
          else sql_scan None depth s
      end
  end.

(** Text that, placed anywhere outside quotes, leaves quotes and parentheses
    as it found them. *)
Definition closed (s : string) : Prop := forall depth, sql_scan None depth s = Some (None, depth).

Lemma sql_scan_app q d a b :
  sql_scan q d (a +:+ b) = match sql_scan q d a with Some (q, d) => sql_scan q d b | None => None end.
Proof.
  revert q d. induction a as [|c a IH]; intros q d; [done|]. rewrite str_app_cons. cbn.
  destruct q; [apply IH|]. destruct (_ || _)%bool; [apply IH|]. destruct (Ascii.eqb c "("); [apply IH|].
  destruct (Ascii.eqb c ")"); [destruct d; [done|apply IH]|]. destruct (_ || _)%bool; [done|apply IH].
Qed.

Lemma scan_closed d a b : closed a -> sql_scan None d (a +:+ b) = sql_scan None d b.
Proof. intros Ha. by rewrite sql_scan_app, Ha. Qed.

Lemma closed_app a b : closed a -> closed b -> closed (a +:+ b).
Proof. intros Ha Hb d. by rewrite scan_closed. Qed.

#[local] Arguments String.append !_ _ / : simpl nomatch.

Create HintDb closed discriminated.
#[export] Hint Resolve closed_app : closed.

(** Close a template: run the scanner over its fixed text and skip its holes,
    which are closed by hypothesis or by a lemma. *)
Ltac close_template :=
  let d := fresh "d" in
  intros d; repeat first
  [ reflexivity
  | rewrite scan_closed by (solve [auto with closed])
  | match goal with |- sql_scan None _ ?a = _ =>
      let H := fresh in assert (H : closed a) by (solve [auto with closed]); apply H end
  | rewrite str_app_assoc
  | progress cbn [sql_scan String.append Ascii.eqb Bool.eqb orb andb] ].

Lemma quoted_inside q s d :
  q = "034"%char \/ q = "039"%char ->
  sql_scan (Some q) d (double_byte q s +:+ String q "") = Some (None, d).
Proof.
  intros Hq. induction s as [|a s IH]; cbn [double_byte].
  - rewrite str_app_nil_l. cbn. by rewrite Ascii.eqb_refl.
  - destruct (Ascii.eqb_spec a q) as [->|Hne]; rewrite !str_app_cons; cbn [sql_scan].
    + rewrite Ascii.eqb_refl.
      assert ((Ascii.eqb q "039" || Ascii.eqb q "034")%bool = true) as -> by (by destruct Hq as [-> | ->]).
      exact IH.
    + destruct (Ascii.eqb_spec a q); [done|]. exact IH.
Qed.

Lemma quote_lit_closed s : closed (quote_lit s).
Proof. intros d. unfold quote_lit. change ("'" +:+ ?x) with (String "039" x). cbn [sql_scan]. apply quoted_inside. by right. Qed.

Lemma quote_ident_closed s : closed (quote_ident s).
Proof.
  intros d. unfold quote_ident, double_quote. rewrite str_app_cons, str_app_nil_l. cbn [sql_scan].
  apply quoted_inside. by left.
Qed.

Lemma postgres_type_closed t : closed (postgres_type t).
Proof. unfold postgres_type. destruct (strip_nullable t); close_template. Qed.

#[export] Hint Resolve quote_lit_closed quote_ident_closed postgres_type_closed : closed.

Lemma rejection_closed : closed arithmetic_overflow_rejection.
Proof. intros d. reflexivity. Qed.
#[export] Hint Resolve rejection_closed : closed.

Lemma i128_range_condition_closed a : closed a -> closed (i128_range_condition a).
Proof. intros Ha. unfold i128_range_condition. close_template. Qed.

Lemma exponent_condition_closed a : closed a -> closed (power_of_ten_exponent_condition a).
Proof. intros Ha. unfold power_of_ten_exponent_condition. close_template. Qed.

Lemma not_i128_min_closed a : closed a -> closed (not_i128_min a).
Proof. intros Ha. unfold not_i128_min. close_template. Qed.
#[export] Hint Resolve i128_range_condition_closed exponent_condition_closed not_i128_min_closed : closed.

Lemma all_conditions_closed l : Forall closed l -> closed (all_conditions l).
Proof.
  induction 1 as [|a l Ha _ IH]; [intros d; reflexivity|]. cbn [all_conditions fold_right].
  fold (all_conditions l). close_template.
Qed.

Lemma checked_decimal_value_closed value scale l :
  closed value -> closed scale -> Forall closed l -> closed (checked_decimal_value value scale l).
Proof.
  intros Hv Hs Hl%all_conditions_closed. unfold checked_decimal_value. cbv zeta. close_template.
Qed.

Lemma decimal_parts_closed a :
  closed a -> closed (part_coefficient (decimal_parts a)) /\ closed (part_scale (decimal_parts a)).
Proof. intros Ha. unfold decimal_parts. cbv zeta. cbn [part_coefficient part_scale]. split; close_template. Qed.

Lemma part_coefficient_closed a : closed a -> closed (part_coefficient (decimal_parts a)).
Proof. intros Ha. by apply decimal_parts_closed. Qed.
Lemma part_scale_closed a : closed a -> closed (part_scale (decimal_parts a)).
Proof. intros Ha. by apply decimal_parts_closed. Qed.
#[export] Hint Resolve part_coefficient_closed part_scale_closed : closed.

(** The two-hole templates of the decimal arithmetic. *)
Lemma operator_closed l operator r :
  closed l -> closed operator -> closed r -> closed ("((" +:+ l +:+ ") " +:+ operator +:+ " (" +:+ r +:+ "))").
Proof. intros Hl Ho Hr. close_template. Qed.

Lemma scaled_closed a e :
  closed a -> closed e -> closed ("((" +:+ a +:+ ") * power(10::numeric, (" +:+ e +:+ ")))").
Proof. intros Ha He. close_template. Qed.

Lemma greatest_closed a b : closed a -> closed b -> closed ("greatest((" +:+ a +:+ "), (" +:+ b +:+ "))").
Proof. intros Ha Hb. close_template. Qed.
#[export] Hint Resolve scaled_closed greatest_closed checked_decimal_value_closed : closed.
#[export] Hint Constructors List.Forall : closed.

Lemma decimal_binary_closed l r operator :
  closed l -> closed r -> closed operator -> closed (lower_checked_decimal_binary l r operator).
Proof.
  intros Hl Hr Ho. unfold lower_checked_decimal_binary, decimal_scale_alignment_exponent,
    decimal_scaled_coefficient. cbv zeta.
  pose proof (part_coefficient_closed _ Hl) as Hcl. pose proof (part_coefficient_closed _ Hr) as Hcr.
  pose proof (part_scale_closed _ Hl) as Hsl. pose proof (part_scale_closed _ Hr) as Hsr.
  set (cl := part_coefficient (decimal_parts l)) in *. set (cr := part_coefficient (decimal_parts r)) in *.
  set (sl := part_scale (decimal_parts l)) in *. set (sr := part_scale (decimal_parts r)) in *.
  assert (Hs : closed ("greatest((" +:+ sl +:+ "), (" +:+ sr +:+ "))")) by auto with closed.
  set (sc := "greatest((" +:+ sl +:+ "), (" +:+ sr +:+ "))") in *.
  assert (Hle : closed ("((" +:+ sc +:+ ") - (" +:+ sl +:+ "))")) by close_template.
  set (le := "((" +:+ sc +:+ ") - (" +:+ sl +:+ "))") in *.
  assert (Hre : closed ("((" +:+ sc +:+ ") - (" +:+ sr +:+ "))")) by close_template.
  set (re := "((" +:+ sc +:+ ") - (" +:+ sr +:+ "))") in *.
  pose proof (scaled_closed _ _ Hcl Hle) as Hlc. pose proof (scaled_closed _ _ Hcr Hre) as Hrc.
  pose proof (operator_closed _ _ _ Hlc Ho Hrc) as Hres.
  apply checked_decimal_value_closed; [done..|].
  destruct (String.eqb operator "-"); cbn [app]; auto 10 with closed.
Qed.

Lemma decimal_multiply_closed l r :
  closed l -> closed r -> closed (lower_checked_decimal_multiply l r).
Proof.
  intros Hl Hr. unfold lower_checked_decimal_multiply. cbv zeta.
  pose proof (part_coefficient_closed _ Hl) as Hcl. pose proof (part_coefficient_closed _ Hr) as Hcr.
  pose proof (part_scale_closed _ Hl) as Hsl. pose proof (part_scale_closed _ Hr) as Hsr.
  assert (Hc : closed ("((" +:+ part_coefficient (decimal_parts l) +:+ ") * ("
    +:+ part_coefficient (decimal_parts r) +:+ "))")) by close_template.
  apply checked_decimal_value_closed; [done|close_template|auto 10 with closed].
Qed.

Lemma decimal_divide_closed l r :
  closed l -> closed r -> closed (lower_checked_decimal_divide l r).
Proof.
  intros Hl Hr. unfold lower_checked_decimal_divide. cbv zeta.
  pose proof (part_coefficient_closed _ Hl) as Hcl. pose proof (part_coefficient_closed _ Hr) as Hcr.
  pose proof (part_scale_closed _ Hl) as Hsl. pose proof (part_scale_closed _ Hr) as Hsr.
  set (cl := part_coefficient (decimal_parts l)) in *. set (cr := part_coefficient (decimal_parts r)) in *.
  set (sl := part_scale (decimal_parts l)) in *. set (sr := part_scale (decimal_parts r)) in *.
  assert (Ht : closed ("greatest(18, (" +:+ sl +:+ ") - (" +:+ sr +:+ "))")) by close_template.
  set (t := "greatest(18, (" +:+ sl +:+ ") - (" +:+ sr +:+ "))") in *.
  assert (He : closed ("((" +:+ t +:+ ") + (" +:+ sr +:+ ") - (" +:+ sl +:+ "))")) by close_template.
  set (e := "((" +:+ t +:+ ") + (" +:+ sr +:+ ") - (" +:+ sl +:+ "))") in *.
  pose proof (scaled_closed _ _ Hcl He) as Hn.
  set (n := "((" +:+ cl +:+ ") * power(10::numeric, (" +:+ e +:+ ")))") in *.
  assert (Hq : closed ("trunc((" +:+ n +:+ ") / (" +:+ cr +:+ "))")) by close_template.
  assert (Hz : closed ("((" +:+ cr +:+ ") <> 0::numeric)")) by close_template.
  apply checked_decimal_value_closed; [done..|auto 10 with closed].
Qed.

Lemma decimal_negate_closed a : closed a -> closed (lower_checked_decimal_negate a).
Proof.
  intros Ha. unfold lower_checked_decimal_negate. cbv zeta.
  pose proof (part_coefficient_closed _ Ha) as Hc.
  apply checked_decimal_value_closed; [close_template|auto with closed|auto 10 with closed].
Qed.

Lemma checked_integer_closed lo hi t v :
  closed lo -> closed hi -> closed t -> closed v -> closed (checked_integer lo hi t v).
Proof. intros Hl Hh Ht Hv. unfold checked_integer. close_template. Qed.

(** Fixed texts. *)
Ltac close_text := let d := fresh in intros d; reflexivity.

Lemma checked_integer_result_closed t v : closed v -> closed (checked_integer_result t v).
Proof.
  intros Hv. destruct t as [[]|]; cbn [checked_integer_result]; try done;
    (apply checked_integer_closed; [close_text|close_text|close_text|done]).
Qed.
#[export] Hint Resolve checked_integer_result_closed decimal_binary_closed decimal_multiply_closed
  decimal_divide_closed decimal_negate_closed : closed.

Lemma numeric_binary_closed t l r operator :
  closed l -> closed r -> closed operator -> closed (lower_checked_numeric_binary t l r operator).
Proof.
  intros Hl Hr Ho. unfold lower_checked_numeric_binary. cbv zeta.
  set (v := "(((" +:+ l +:+ ")::numeric) " +:+ operator +:+ " ((" +:+ r +:+ ")::numeric))").
  assert (Hv : closed v) by (unfold v; close_template).
  destruct t as [[]|]; auto with closed.
  destruct (_ || _)%bool; [auto with closed|]. destruct (String.eqb operator "*"); auto with closed.
Qed.

Lemma comparison_closed l operator r :
  closed l -> closed r -> closed operator -> closed (comparison l operator r).
Proof. intros Hl Hr Ho. unfold comparison. by apply operator_closed. Qed.

Lemma lower_binary_closed op l r t :
  closed (lo_sql l) -> closed (lo_sql r) -> closed (lower_binary op l r t).
Proof.
  intros Hl Hr. unfold lower_binary. cbv zeta.
  assert (Hnull : forall x, closed x -> closed ("((" +:+ x +:+ ") IS NULL)")) by (intros x Hx; close_template).
  assert (Hnot : forall x, closed x -> closed ("((" +:+ x +:+ ") IS NOT NULL)")) by (intros x Hx; close_template).
  assert (Hcmp : forall o, closed o -> closed (comparison (lo_sql l) o (lo_sql r)))
    by (intros o Ho; by apply comparison_closed).
  destruct op; try (apply Hcmp; close_text); try (apply numeric_binary_closed; [done|done|close_text]).
  - close_template.
  - close_template.
  - destruct (is_null_type (lo_type r)); [auto|]. destruct (is_null_type (lo_type l)); [auto|].
    apply Hcmp; close_text.
  - destruct (is_null_type (lo_type r)); [auto|]. destruct (is_null_type (lo_type l)); [auto|].
    apply Hcmp; close_text.
  - assert (Hd : closed ("trunc(((" +:+ lo_sql l +:+ ")::numeric) / ((" +:+ lo_sql r +:+ ")::numeric))"))
      by close_template.
    destruct t as [[]|]; auto with closed; apply Hcmp; close_text.
Qed.

Lemma numeric_negate_closed e : closed (lo_sql e) -> closed (lower_numeric_negate e).
Proof.
  intros He. unfold lower_numeric_negate.
  assert (H1 : closed ("(-(" +:+ lo_sql e +:+ "))")) by close_template.
  assert (H2 : closed ("-((" +:+ lo_sql e +:+ ")::numeric)")) by close_template.
  destruct (lo_type e) as [[]|]; auto with closed.
Qed.

Lemma json_value_closed v t : closed v -> closed (json_value v t).
Proof.
  intros Hv. unfold json_value.
  assert (H1 : closed ("NULLIF((" +:+ v +:+ "), 'null'::jsonb)")) by close_template.
  assert (H2 : forall t, closed ("((NULLIF((" +:+ v +:+ "), 'null'::jsonb) #>> '{}'))::" +:+ postgres_type t))
    by (intros t'; close_template).
  destruct (strip_nullable t); auto.
Qed.

Lemma json_access_closed e f t : closed e -> closed (json_access e f t).
Proof. intros He. unfold json_access. apply json_value_closed. close_template. Qed.

(** Text of plain bytes: no quote, parenthesis or other special byte. *)
Definition is_plain_byte (a : ascii) : bool :=
  negb (existsb (Ascii.eqb a) ["039"; "034"; "("; ")"; ";"; "092"; "$"]%char).

Lemma plain_closed s : bytes_forallb is_plain_byte s = true -> closed s.
Proof.
  intros H d. induction s as [|a s IH]; [done|].
  apply andb_true_iff in H as [Ha Hs]. cbn [sql_scan]. unfold is_plain_byte in Ha. cbn [existsb] in Ha.
  destruct (Ascii.eqb a "039"), (Ascii.eqb a "034"), (Ascii.eqb a "("), (Ascii.eqb a ")"),
    (Ascii.eqb a ";"), (Ascii.eqb a "092"), (Ascii.eqb a "$"); try done. by apply IH.
Qed.

Lemma digit_is_plain a : is_ascii_digit_byte a = true -> is_plain_byte a = true.
Proof.
  unfold is_plain_byte. intros Ha. destruct (existsb _ _) eqn:E; [|done].
  apply existsb_exists in E as (b & Hb & ->%Ascii.eqb_eq).
  cbn in Hb. repeat (destruct Hb as [<-|Hb]; [by vm_compute in Ha|]). done.
Qed.

Lemma digits_are_plain s :
  bytes_forallb is_ascii_digit_byte s = true -> bytes_forallb is_plain_byte s = true.
Proof.
  induction s as [|a s IH]; [done|]. cbn. rewrite !andb_true_iff. intros [Ha Hs].
  split; [by apply digit_is_plain|auto].
Qed.

Lemma show_digits_all fuel n acc :
  bytes_forallb is_ascii_digit_byte acc = true ->
  bytes_forallb is_ascii_digit_byte (show_digits fuel n acc) = true.
Proof.
  revert n acc. induction fuel as [|fuel IH]; intros n acc Ha; [done|]. cbn [show_digits].
  assert (Hd : bytes_forallb is_ascii_digit_byte (String (digit_byte (n mod 10)) acc) = true).
  { cbn [bytes_forallb]. apply andb_true_iff. split; [|done].
    pose proof (Z.mod_pos_bound n 10 ltac:(lia)). apply is_ascii_digit_byte_spec.
    rewrite digit_val_byte; lia. }
  destruct (n <? 10); [done|by apply IH].
Qed.

Lemma show_nat_closed z : closed (show_nat z).
Proof. apply plain_closed, digits_are_plain. by apply show_digits_all. Qed.

Lemma parsed_number_closed lo hi s z : parse_signed lo hi s = Some z -> closed s.
Proof.
  intros H. apply plain_closed. unfold parse_signed in H.
  repeat case_match; apply bind_Some in H as (n & (_ & Hd & _)%parse_digits_Some & _); subst;
    try (by apply digits_are_plain); cbn [bytes_forallb]; rewrite digits_are_plain by done; reflexivity.
Qed.

Lemma decimal_text_closed s : is_decimal s = true -> closed s.
Proof.
  intros H. apply plain_closed. unfold is_decimal in H.
  assert (Hu : forall u w f,
    match split_once "." u with Some p => p | None => (u, "") end = (w, f) ->
    bytes_forallb is_ascii_digit_byte w = true -> bytes_forallb is_ascii_digit_byte f = true ->
    bytes_forallb is_plain_byte u = true).
  { intros u. induction u as [|a u IH]; intros w f Hs Hw Hf; [done|]. cbn in Hs.
    destruct (Ascii.eqb_spec a ".") as [->|].
    - injection Hs as <- <-. cbn [bytes_forallb]. rewrite digits_are_plain by done. reflexivity.
    - destruct (split_once "." u) as [[w' f']|].
      + injection Hs as <- <-. apply andb_true_iff in Hw as [Ha Hw]. cbn [bytes_forallb].
        rewrite digit_is_plain by done. by apply (IH w' f').
      + injection Hs as <- <-. by apply digits_are_plain. }
  assert (Hg : forall u, (let (w, f) := match split_once "." u with Some p => p | None => (u, "") end in
      bytes_forallb is_ascii_digit_byte w = true /\ bytes_forallb is_ascii_digit_byte f = true) ->
      bytes_forallb is_plain_byte u = true).
  { intros u Hx. destruct (match split_once "." u with Some p => p | None => _ end) as [w f] eqn:E.
    destruct Hx. by eapply Hu. }
  destruct (strip_prefix_byte "-" s) as [u|] eqn:Es.
  - destruct s as [|a s]; [done|]. unfold strip_prefix_byte in Es. destruct (Ascii.eqb_spec "-" a) as [<-|]; [|done].
    injection Es as ->. cbn [bytes_forallb]. apply andb_true_iff. split; [reflexivity|]. apply Hg.
    destruct (match split_once "." u with Some p => p | None => _ end) as [w f].
    destruct (_ || _)%bool eqn:Eb; [done|].
    apply orb_false_iff in Eb as [[_ Hw%negb_false_iff]%orb_false_iff Hf%negb_false_iff]. done.
  - apply Hg. destruct (match split_once "." s with Some p => p | None => _ end) as [w f].
    destruct (_ || _)%bool eqn:Eb; [done|].
    apply orb_false_iff in Eb as [[_ Hw%negb_false_iff]%orb_false_iff Hf%negb_false_iff]. done.
Qed.

Lemma join_closed l : Forall closed l -> closed (join ", " l).
Proof.
  induction 1 as [|a l Ha Hl IH]; [close_text|]. destruct l as [|b l]; [done|].
  change (join ", " (a :: b :: l)) with (a +:+ ", " +:+ join ", " (b :: l)). close_template.
Qed.

Lemma call_closed f l : closed f -> Forall closed l -> closed (f +:+ "(" +:+ join ", " l +:+ ")").
Proof. intros Hf Hl%join_closed. close_template. Qed.

Section Closed.
Context `{Serde}.

Lemma cast_closed e t : closed e -> closed ("(" +:+ e +:+ ")::" +:+ t) <-> closed e /\ closed t.
Proof.
  intros He. split; [|intros [_ Ht]; close_template]. intros Hc. split; [done|]. intros d.
  specialize (Hc d). cbn [sql_scan String.append Ascii.eqb Bool.eqb orb andb] in Hc.
  rewrite scan_closed in Hc by done.
  cbn [sql_scan String.append Ascii.eqb Bool.eqb orb andb] in Hc. done.
Qed.

(** *** JSON literals *)

Definition literal_closed (m : result RuleError string) : Prop :=
  match m with Ok s => closed s | Err _ => True end.

Lemma quoted_cast_closed s t : closed t -> closed (quote_lit s +:+ "::" +:+ t).
Proof. intros Ht. close_template. Qed.

Lemma lower_value_literal_closed rule_name binding_name t :
  forall v s, lower_value_literal rule_name binding_name t v = Ok s -> closed s.
Proof.
  induction t as [t Ht|n syms|t IH|n fields IH|n mb md mn|t IH] using RuleType_ind'; intros v s Hs.
  - cbn in Ht. repeat (destruct Ht as [<-|Ht]); [..|done]; cbn [lower_value_literal] in Hs.
    + destruct (as_bool v) as [[]|]; [injection Hs as <-; close_text..|done].
    + inv_ok. apply quoted_cast_closed, postgres_type_closed.
    + apply bind_Ok in Hs as (n & _ & Hs). destruct (parse_i32 n) eqn:E; [|done]. injection Hs as <-.
      apply parsed_number_closed in E. close_template.
    + apply bind_Ok in Hs as (n & _ & Hs). destruct (parse_i64 n) eqn:E; [|done]. injection Hs as <-.
      apply parsed_number_closed in E. close_template.
    + apply bind_Ok in Hs as (n & _ & Hs). destruct (is_decimal n) eqn:E; [|done]. injection Hs as <-.
      apply decimal_text_closed in E. close_template.
    + inv_ok. apply (quoted_cast_closed _ "uuid"). close_text.
    + inv_ok. apply (quoted_cast_closed _ "date"). close_text.
    + inv_ok. apply (quoted_cast_closed _ "timestamptz"). close_text.
  - cbn [lower_value_literal] in Hs. inv_ok. apply (quoted_cast_closed _ "text"). close_text.
  - cbn [lower_value_literal] in Hs. apply bind_Ok in Hs as (items & _ & Hs).
    apply bind_Ok in Hs as (l & Hl%map_result_Ok & [= <-]).
    apply (call_closed "jsonb_build_array"); [close_text|].
    induction Hl as [|x y l l' Hxy _ IHl]; constructor; [by eapply IH|done].
  - cbn [lower_value_literal] in Hs. apply bind_Ok in Hs as (object & _ & Hs).
    apply bind_Ok in Hs as (l & Hl%map_result_Ok & [= <-]).
    apply (call_closed "jsonb_build_object"); [close_text|].
    induction Hl as [|[f t] y l l' Hxy _ IHl]; [constructor|]. inversion IH as [|? ? IH1 IH2]; subst.
    apply bind_Ok in Hxy as (fv & Hfv & [= <-]). cbn [List.concat app].
    constructor; [apply quote_lit_closed|]. constructor; [|by apply IHl].
    destruct (obj_get object f) as [w|]; [by eapply IH1|]. injection Hfv as <-.
    pose proof (postgres_type_closed t). close_template.
  - cbn [lower_value_literal] in Hs. destruct (opaque_json_within_bounds v mb md mn); [|done].
    inv_ok. apply (quoted_cast_closed _ "jsonb"). close_text.
  - cbn [lower_value_literal] in Hs. destruct (is_null v); [|by eapply IH]. injection Hs as <-.
    pose proof (postgres_type_closed t). close_template.
Qed.

(** *** Expressions *)

(** The expressions a caller can bind: those the constructors of
    [SqlExpression] and earlier lowerings give are closed. *)
Definition bindings_closed (bindings : SqlBindings) : Prop :=
  Forall (fun kb => match kb.2 with SqlBinding_Expression e => closed (sql e) | _ => True end) bindings.

Variables (rule : CompiledRule) (bindings : SqlBindings).
Hypothesis bindings_ok : bindings_closed bindings.

Lemma lower_binding_closed name s : lower_binding rule bindings name = Ok s -> closed s.
Proof.
  unfold lower_binding. intros Hs. apply bind_Ok in Hs as (expected & _ & Hs).
  apply bind_Ok in Hs as (b & Hb%ok_or_Ok & Hs).
  pose proof (bt_get_Forall _ _ _ _ bindings_ok Hb) as Hc. cbn [snd] in Hc.
  destruct b as [e|v]; [|by eapply lower_value_literal_closed].
  destruct (ruletype_eqb _ _); [|done]. injection Hs as <-. unfold cast_sql_expression.
  apply cast_closed; [done|]. split; [done|apply postgres_type_closed].
Qed.

Lemma lower_literal_closed name l t s :
  infer_expression_type rule (Expr_new (Span_new 0 0) (ELiteral l)) = Ok t ->
  lower_literal name l = Ok s -> closed s.
Proof.
  destruct l as [|b|n|n|n]; cbn [infer_expression_type lower_literal ekind]; intros Ht Hs.
  - injection Hs as <-. close_text.
  - injection Hs as <-. destruct b; close_text.
  - destruct (parse_i32 n) eqn:E; [|destruct (parse_i64 n) eqn:E2; [|done]]; injection Hs as <-;
      [apply parsed_number_closed in E|apply parsed_number_closed in E2]; close_template.
  - destruct (is_decimal n) eqn:E; [|done]. injection Hs as <-. apply decimal_text_closed in E. close_template.
  - injection Hs as <-. apply (quoted_cast_closed _ "text"). close_text.
Qed.

Definition lowers_closed (e : Expr) : Prop :=
  forall lo, lower_expression rule bindings e = Ok lo -> closed (lo_sql lo).

Lemma lower_call_closed f args s :
  Forall lowers_closed args -> lower_call rule (lower_expression rule bindings) f args = Ok s -> closed s.
Proof.
  intros Hargs Hs. destruct args as [|first rest]; [done|]. cbn [lower_call] in Hs.
  inversion Hargs as [|? ? H1 Hrest]; subst. apply bind_Ok in Hs as (lo & Hlo & Hs).
  specialize (H1 _ Hlo). destruct f.
  - apply bind_Ok in Hs as (t & _ & Hs). destruct t; try done; injection Hs as <-; close_template.
  - injection Hs as <-. close_template.
  - destruct rest as [|second rest]; [done|]. inversion Hrest as [|? ? H2 _]; subst.
    apply bind_Ok in Hs as (lo2 & Hlo2 & [= <-]). specialize (H2 _ Hlo2). close_template.
  - destruct rest as [|second rest]; [done|]. inversion Hrest as [|? ? H2 _]; subst.
    apply bind_Ok in Hs as (lo2 & Hlo2 & [= <-]). specialize (H2 _ Hlo2). close_template.
Qed.

Lemma lower_items_closed items l :
  Forall lowers_closed items ->
  map_result (fun item => lo_sql <$> lower_expression rule bindings item) items = Ok l ->
  Forall closed l.
Proof.
  intros Hi Hl%map_result_Ok. induction Hl as [|e y l l' Hxy _ IH]; [constructor|].
  inversion Hi as [|? ? H1 H2]; subst. constructor; [|by apply IH].
  destruct (lower_expression rule bindings e) as [lo|] eqn:E; [|done]. injection Hxy as <-. by apply H1.
Qed.

Lemma lower_expression_closed e : lowers_closed e.
Proof.
  induction e as [sp l|sp n|sp n s|sp l IH|sp t f IH|sp t i IH|sp f l IH|sp o e IH|sp o l r IHl IHr
                 |sp c a b IHc IHa IHb] using Expr_ind';
    intros lo Hlo; cbn [lower_expression] in Hlo;
    apply bind_Ok in Hlo as (ty & Hty & Hlo); apply bind_Ok in Hlo as (text & Ht & [= <-]);
    cbn [lo_sql ekind] in *.
  - by eapply lower_literal_closed.
  - by eapply lower_binding_closed.
  - injection Ht as <-. apply (quoted_cast_closed _ "text"). close_text.
  - apply bind_Ok in Ht as (items & Hitems & [= <-]).
    apply (call_closed "jsonb_build_array"); [close_text|by eapply lower_items_closed].
  - apply bind_Ok in Ht as (lt & Hlt & Ht). apply bind_Ok in Ht as (tt & _ & Ht).
    destruct (strip_nullable tt); try done. apply bind_Ok in Ht as (ft & _ & [= <-]).
    apply json_access_closed. by apply IH.
  - apply bind_Ok in Ht as (lt & Hlt & Ht). apply bind_Ok in Ht as (tt & _ & Ht).
    destruct (strip_nullable tt); try done. injection Ht as <-. apply json_value_closed.
    specialize (IH _ Hlt). pose proof (show_nat_closed i). close_template.
  - by eapply lower_call_closed.
  - apply bind_Ok in Ht as (lo & Hlo & [= <-]). specialize (IH _ Hlo).
    destruct o; [close_template|by apply numeric_negate_closed].
  - apply bind_Ok in Ht as (ll & Hl & Ht). apply bind_Ok in Ht as (lr & Hr & [= <-]).
    apply lower_binary_closed; [by apply IHl|by apply IHr].
  - apply bind_Ok in Ht as (lc & Hc & Ht). apply bind_Ok in Ht as (la & Ha & Ht).
    apply bind_Ok in Ht as (lb & Hb & [= <-]).
    specialize (IHc _ Hc). specialize (IHa _ Ha). specialize (IHb _ Hb). close_template.
Qed.

Lemma lower_postgres_closed s : lower_postgres rule bindings = Ok s -> closed s.
Proof.
  unfold lower_postgres. intros (e & He & Hs)%bind_Ok. destruct (negb _); [done|]. injection Hs as <-.
  unfold lower_postgres_expression in He. apply bind_Ok in He as (_ & _ & He).
  apply bind_Ok in He as (_ & _ & He). apply bind_Ok in He as (lo & Hlo & [= <-]). cbn [sql].
  exact (lower_expression_closed _ _ Hlo).
Qed.
End Closed.

(** C35: lowering is closed under SQL quoting: if the bound expressions are
    (the constructors of a column, a scalar subquery and the statement clock
    are, whatever their names), so is the text of every lowered rule, at its
    result and as a value: no string, symbol, field name or JSON literal ends its
    own quotes, no parenthesis is left open, and no separator is outside quotes. *)
Theorem lowered_sql_is_closed `{Serde} rule bindings :
  bindings_closed bindings ->
  (forall e, lower_postgres_expression rule bindings = Ok e -> closed (sql e))
  /\ (forall s, lower_postgres rule bindings = Ok s -> closed s)
  /\ (forall v, lower_postgres_value rule bindings = Ok v -> closed (lrv_sql v)).
Proof.
  intros Hb.
  assert (He : forall e, lower_postgres_expression rule bindings = Ok e -> closed (sql e)).
  { intros e He. unfold lower_postgres_expression in He. apply bind_Ok in He as (_ & _ & He).
    apply bind_Ok in He as (_ & _ & He). apply bind_Ok in He as (lo & Hlo & [= <-]).
    exact (lower_expression_closed _ _ Hb _ _ Hlo). }
  split_and!; [exact He|by apply lower_postgres_closed|].
  unfold lower_postgres_value. intros v (_ & _ & Hv)%bind_Ok. apply bind_Ok in Hv as (e & Hle & [= <-]).
  specialize (He _ Hle). cbn [lrv_sql]. unfold lower_canonical_value.
  destruct (strip_nullable (sql_type e)); try done. cbv zeta. unfold double_quote. close_template.
Qed.

(** the constructors of [SqlExpression] are closed for every name. *)
Theorem sql_expression_constructors_closed alias column cte t :
  closed (sql (SqlExpression_column alias column t)) /\ closed (sql (scalar_subquery cte column t))
  /\ closed (sql (database_time t)).
Proof.
  unfold SqlExpression_column, scalar_subquery, database_time, rule_qualified_column. cbn [sql].
  pose proof (quote_ident_closed alias). pose proof (quote_ident_closed column).
  pose proof (quote_ident_closed cte). split_and!; close_template.
Qed.

Definition total_rule : CompiledRule :=
  {| cr_name := "r"; cr_bindings := [("name", TString)]; cr_result := TBool;
     cr_artifact := {| profile_version := 1; original_source := ""; canonical_ast_sha256 := "";
                       source_sha256 := "" |};
     cr_expression := {| expression := Expr_new (Span_new 0 0)
                           (EBinary Equal (Expr_new (Span_new 0 0) (EName "name"))
                              (Expr_new (Span_new 0 0) (ELiteral (Literal_String "it's"))));
                         type_ := Concrete TBool |};
     cr_declared_types := [] |}.

Lemma lowered_sql_is_closed_witness :
  exists s, @lower_postgres small_serde total_rule [("name", SqlBinding_Literal (JString "a'); drop"))] = Ok s
  /\ closed s.
Proof.
  eexists. split; [reflexivity|].
  apply (@lowered_sql_is_closed small_serde total_rule [("name", SqlBinding_Literal (JString "a'); drop"))]
           ltac:(repeat constructor)).
  reflexivity.
Defined.

Lemma and_conditions_closed l :
  Forall closed l -> closed (join " AND " (map (fun condition => "(" +:+ condition +:+ ") IS TRUE") l)).
Proof.
  induction 1 as [|a l Ha Hl IH]; [close_text|]. destruct l as [|b l]; [cbn [map join]; close_template|].
  cbn [map] in *. match goal with |- closed (join _ (_ :: ?x)) =>
    change (join " AND " (("(" +:+ a +:+ ") IS TRUE") :: x)) with
    (("(" +:+ a +:+ ") IS TRUE") +:+ " AND " +:+ join " AND " x) end.
  assert (Hh : closed ("(" +:+ a +:+ ") IS TRUE")) by close_template.
  assert (Hs : closed " AND ") by close_text. auto with closed.
Qed.

Definition row_closed (row : PostgresDecisionRow) : Prop :=
  closed (pdr_condition_sql row) /\ Forall (fun no => closed (pdo_sql no.2)) (pdr_output row).

Lemma lower_decision_row_closed `{Serde} table bindings row lowered :
  bindings_closed bindings -> lower_decision_row table bindings row = Ok lowered -> row_closed lowered.
Proof.
  intros Hb Hrow. unfold lower_decision_row in Hrow.
  apply bind_Ok in Hrow as (conditions & Hc%map_result_Ok & Hrow).
  apply bind_Ok in Hrow as (object & _ & Hrow). apply bind_Ok in Hrow as (output & Ho%map_result_Ok & [= <-]).
  unfold row_closed. cbn [pdr_condition_sql pdr_output]. split.
  - assert (Hcl : Forall closed conditions).
    { clear -Hc Hb. induction Hc as [|c s l l' Hs _ IH]; [constructor|]. constructor; [|done].
      by eapply lower_postgres_closed. }
    destruct conditions; [close_text|]. by apply and_conditions_closed.
  - apply bt_collect_Forall. clear -Ho.
    induction Ho as [|[n t] o l l' Hs _ IH]; [constructor|]. constructor; [|done].
    apply bind_Ok in Hs as (v & _ & Hs). apply bind_Ok in Hs as (text & Ht & [= <-]).
    cbn [snd pdo_sql]. by eapply lower_value_literal_closed.
Qed.

(** the conditions and outputs of a lowered decision table are closed
    too. *)
Theorem lowered_decision_is_closed `{Serde} table bindings program :
  bindings_closed bindings -> lower_postgres_decision table bindings = Ok program ->
  Forall row_closed (pdp_rows program).
Proof.
  intros Hb Hp. unfold lower_postgres_decision in Hp. cbv zeta in Hp.
  apply bind_Ok in Hp as (? & _ & Hp). apply bind_Ok in Hp as (? & _ & Hp).
  apply bind_Ok in Hp as (? & _ & Hp). apply bind_Ok in Hp as (rows & Hrows%map_result_Ok & Hp).
  apply bind_Ok in Hp as (? & _ & [= <-]). cbn [pdp_rows].
  induction Hrows as [|row lowered l l' Hrow _ IH]; [constructor|].
  constructor; [by eapply lower_decision_row_closed|exact IH].
Qed.

Definition one_row_table : CompiledDecisionTable :=
  {| cdt_name := "t"; cdt_revision := ""; cdt_inputs := [("a", TString)]; cdt_output := [("out", TString)];
     cdt_output_fields := []; cdt_hit_policy := First;
     cdt_rows := [{| cdr_id := "x"; cdr_description := None;
                     cdr_conditions := [("a", {| expression := Expr_new (Span_new 0 4) (ELiteral (Literal_Bool true));
                                                 type_ := Concrete TBool |})];
                     cdr_output := JObject [("out", JString "it's")] |}];
     cdt_test_cases := []; cdt_declared_types := [] |}.

Lemma lowered_decision_is_closed_witness :
  exists program,
    @lower_postgres_decision small_serde one_row_table
      [("a", SqlBinding_Expression (SqlExpression_column "t" "a" TString))] = Ok program
  /\ Forall row_closed (pdp_rows program).
Proof.
  eexists. split; [reflexivity|].
  eapply (@lowered_decision_is_closed small_serde one_row_table
    [("a", SqlBinding_Expression (SqlExpression_column "t" "a" TString))]); [|reflexivity].
  constructor; [|constructor]. intros d. reflexivity.
Defined.

(** ** The lowering's types and the checker's *)

Section Infer.
Context `{Serde}.
Variable rule : CompiledRule.
Variable cx : option ExpressionContext.
Variable declared_types : btree RuleType.

(** The declarations a compiled rule carries are those it was checked with,
    each enum under its own name. *)
Hypothesis declared_ok : forall n s,
  In (TEnum n s) (cr_declared_types rule) -> bt_get declared_types n = Some (TEnum n s).

Definition agrees (e : Expr) : Prop :=
  forall ce t, check_expression (cr_name rule) cx (cr_bindings rule) declared_types e = Ok ce ->
  infer_expression_type rule e = Ok t -> t = type_ ce.

Lemma infer_literal_agrees l t ct :
  check_literal (cr_name rule) l = Ok ct ->
  infer_expression_type rule (Expr_new (Span_new 0 0) (ELiteral l)) = Ok t -> t = ct.
Proof.
  destruct l as [|b|s|s|s]; cbn; try congruence.
  - destruct (parse_i32 s); [congruence|]. destruct (parse_i64 s); congruence.
  - destruct (Decimal_parse s); [|done]. destruct (is_decimal s); congruence.
Qed.

Lemma infer_enum_agrees n s t ct :
  check_enum_symbol (cr_name rule) declared_types n s = Ok ct ->
  infer_expression_type rule (Expr_new (Span_new 0 0) (EEnumSymbol n s)) = Ok t -> t = ct.
Proof.
  unfold check_enum_symbol. cbn [infer_expression_type ekind]. intros Hc Hi.
  apply bind_Ok in Hi as (t' & Hf%ok_or_Ok & [= <-]).
  apply find_some in Hf as [Hin He]. destruct t' as [| | | | | | | |name syms| | | |]; try done.
  cbn in He. apply andb_true_iff in He as [->%String.eqb_eq _].
  rewrite (declared_ok _ _ Hin) in Hc. destruct (_ || _)%bool; congruence.
Qed.

Lemma infer_agrees e : agrees e.
Proof.
  induction e as [sp l|sp n|sp n s|sp l IH|sp t f IH|sp t i IH|sp f l IH|sp o e IH|sp o l r IHl IHr
                 |sp c a b IHc IHa IHb] using Expr_ind';
    intros ce ty (ct & Hc & [= <-])%locate_Ok%bind_Ok Hi; cbn [ekind type_] in *.
  - by eapply infer_literal_agrees.
  - cbn [infer_expression_type ekind] in Hi.
    apply bind_Ok in Hc as (t1 & H1%ok_or_Ok & [= <-]). apply bind_Ok in Hi as (t2 & H2%ok_or_Ok & [= <-]).
    congruence.
  - by eapply infer_enum_agrees.
  - apply check_list_items in Hc as (item & -> & Hitems). destruct l as [|e l]; [done|].
    cbn [infer_expression_type ekind] in Hi. apply bind_Ok in Hi as (t1 & H1 & Hi).
    inversion Hitems as [|? ? (c1 & Hc1 & Ht1) _]; subst. inversion IH as [|? ? IH1 _]; subst.
    rewrite (IH1 _ _ Hc1 H1), Ht1 in Hi. congruence.
  - cbn [infer_expression_type ekind] in Hi. apply bind_Ok in Hi as (t1 & H1 & Hi).
    apply bind_Ok in Hc as (tc & Htc & Hc). apply bind_Ok in Hc as (o & [Hto _]%required_concrete_Ok & Hc).
    rewrite (IH _ _ Htc H1), Hto in Hi. destruct o; try done.
    apply bind_Ok in Hc as (? & ?%ok_or_Ok & [= <-]). apply bind_Ok in Hi as (? & ?%ok_or_Ok & [= <-]).
    congruence.
  - cbn [infer_expression_type ekind] in Hi. apply bind_Ok in Hi as (t1 & H1 & Hi).
    apply bind_Ok in Hc as (tc & Htc & Hc). apply bind_Ok in Hc as (o & [Hto _]%required_concrete_Ok & Hc).
    rewrite (IH _ _ Htc H1), Hto in Hi. destruct o; congruence.
  - apply bind_Ok in Hc as (checked & _ & Hc). cbn [infer_expression_type ekind] in Hi.
    unfold check_call_types in Hc. repeat case_match; try done; subst;
      try (apply bind_Ok in Hc as (? & _ & Hc)); repeat case_match; congruence.
  - apply bind_Ok in Hc as (tc & Htc & Hc). apply bind_Ok in Hc as (o' & [Hto _]%required_concrete_Ok & Hc).
    destruct o; cbn [infer_expression_type ekind check_unary] in *.
    + destruct o'; congruence.
    + rewrite (IH _ _ Htc Hi), Hto. destruct (is_numeric o'); congruence.
  - apply bind_Ok in Hc as (lc & Hlc & Hc). apply bind_Ok in Hc as (rc & Hrc & Hc).
    destruct (match o with Divide => _ | _ => _ end); [done|].
    destruct (is_logical o) eqn:Hlog; [|destruct (is_ordering o) eqn:Hord].
    + destruct o; try done; cbn [infer_expression_type ekind] in Hi; cbn [check_binary] in Hc;
        apply bind_Ok in Hc as (? & _ & Hc); apply bind_Ok in Hc as (? & _ & Hc); congruence.
    + destruct (check_ordering_Ok _ _ _ _ _ Hord Hc) as (? & ? & _ & _ & -> & _).
      destruct o; try done; cbn [infer_expression_type ekind] in Hi; congruence.
    + destruct o; try done; cbn [infer_expression_type ekind] in Hi;
        try (cbn [check_binary] in Hc; apply bind_Ok in Hc as (? & _ & Hc); congruence);
        (apply check_arithmetic_Ok in Hc as (tl & tr & Htl & Htr & -> & _); [|done];
         apply bind_Ok in Hi as (t1 & H1 & Hi); apply bind_Ok in Hi as (t2 & H2 & Hi);
         rewrite (IHl _ _ Hlc H1), (IHr _ _ Hrc H2), Htl, Htr in Hi; destruct tl, tr; cbn; congruence).
  - apply bind_Ok in Hc as (tc & Htc & Hc). apply bind_Ok in Hc as ([] & _ & Hc).
    apply bind_Ok in Hc as (ta & Hta & Hc). apply bind_Ok in Hc as (tb & Htb & Hc).
    cbn [infer_expression_type ekind] in Hi.
    apply bind_Ok in Hi as (t1 & H1 & Hi). apply bind_Ok in Hi as (t2 & H2 & Hi).
    rewrite (IHa _ _ Hta H1), (IHb _ _ Htb H2) in Hi.
    destruct (type_ ta), (type_ tb); cbn [merge_branch_types merge_conditional_types] in *;
      repeat case_match; congruence.
Qed.
End Infer.

(** the type the lowering infers for a checked expression, when it
    infers one, is the type the checker gave it. *)
Theorem infer_agrees_with_checker rule cx declared_types e ce t :
  (forall n s, In (TEnum n s) (cr_declared_types rule) -> bt_get declared_types n = Some (TEnum n s)) ->
  check_expression (cr_name rule) cx (cr_bindings rule) declared_types e = Ok ce ->
  infer_expression_type rule e = Ok t -> t = type_ ce.
Proof. intros Hd. by apply infer_agrees. Qed.

Lemma infer_agrees_witness :
  Concrete TBool = type_ {| expression := expression (cr_expression total_rule); type_ := Concrete TBool |}.
Proof.
  apply (infer_agrees_with_checker total_rule None [] (expression (cr_expression total_rule)));
    [intros n s []|reflexivity|reflexivity].
Defined.

(** the checker lets a conditional mix [int] and [bigint] branches, but
    the lowering does not, so a rule that compiles and evaluates cannot be lowered. *)
Theorem mixed_conditional_is_not_lowered `{Serde} :
  exists e ce,
    parse_expression "r" "b ? 1 : 3000000000" = Ok e
  /\ check_expression "r" None [("b", TBool)] [] e = Ok ce /\ type_ ce = Concrete TInt64
  /\ evaluate_expression "r" [("b", VBool true)] e = Ok (VInt 1)
  /\ forall artifact bindings,
     lower_expression {| cr_name := "r"; cr_bindings := [("b", TBool)]; cr_result := TInt64;
                         cr_artifact := artifact; cr_expression := ce; cr_declared_types := [] |} bindings e
     = Err (InternalInvariant "r").
Proof.
  eexists _, _. split; [vm_compute; reflexivity|]. split; [vm_compute; reflexivity|].
  split; [reflexivity|]. split; [vm_compute; reflexivity|]. intros artifact bindings. reflexivity.
Qed.
