(* ===== verification/KritiSyntax.v ===== *)
(** * Kriti templates: syntax ([crates/kriti/src/parser.rs])

    The syntax tree of the template language, its parse errors, and the
    induction principle over the four mutually nested types. *)
From S2P Require Import Prelude Json.
Set Warnings "-register-all".

Inductive StepKind : Type :=
| Field (name : string)
| Index (index : Z)
| Key (name : string).

Record Step := { step_kind : StepKind; step_optional : bool }.

Inductive BinOp : Type := Default | Or | And | Eq_ | Ne | Lt_ | Le | Ge | Gt_ | In_.

(** A value position in the template; the parts of a string literal; an
    expression. *)
Inductive Node : Type :=
| NJson (value : Value)
| NStr (parts : list StrPart)
| NArray (items : list Node)
| NObject (members : list (list StrPart * Node))
| NExpr (expr : Expr)
| NIf (arms : list (Expr * Node)) (otherwise : option Node)
| NRange (index : option string) (value : string) (source : Expr) (body : Node)
with StrPart : Type :=
| Text (text : string)
| Hole (expr : Expr)
with Expr : Type :=
| Lit (value : Value)
| Str (parts : list StrPart)
| Array_ (items : list Expr)
| Object_ (members : list (list StrPart * Expr))
| Var (name : string) (optional : bool)
| Path (base : Expr) (steps : list Step)
| Binary (op : BinOp) (lhs rhs : Expr)
| Not_ (inner : Expr)
| Call (name : string) (args : list Expr)
| Template (node : Node).

Record ParseError := { message : string; offset : nat }.

(** [Display for ParseError]. *)
Definition ParseError_to_string (e : ParseError) : string :=
  message e +:+ " (at byte " +:+ show_nat (Z.of_nat (offset e)) +:+ ")".

(** ** Induction *)

Section SyntaxInd.
Variables (PN : Node -> Prop) (PS : StrPart -> Prop) (PE : Expr -> Prop).
Hypothesis HJson : forall v, PN (NJson v).
Hypothesis HStr : forall ps, Forall PS ps -> PN (NStr ps).
Hypothesis HArray : forall l, Forall PN l -> PN (NArray l).
Hypothesis HObject : forall l, Forall (fun kv => Forall PS kv.1 /\ PN kv.2) l -> PN (NObject l).
Hypothesis HExpr : forall e, PE e -> PN (NExpr e).
Hypothesis HIf : forall arms o,
  Forall (fun cb => PE cb.1 /\ PN cb.2) arms -> (forall b, o = Some b -> PN b) -> PN (NIf arms o).
Hypothesis HRange : forall i v e b, PE e -> PN b -> PN (NRange i v e b).
Hypothesis HText : forall t, PS (Text t).
Hypothesis HHole : forall e, PE e -> PS (Hole e).
Hypothesis HLit : forall v, PE (Lit v).
Hypothesis HEStr : forall ps, Forall PS ps -> PE (Str ps).
Hypothesis HEArray : forall l, Forall PE l -> PE (Array_ l).
Hypothesis HEObject : forall l, Forall (fun kv => Forall PS kv.1 /\ PE kv.2) l -> PE (Object_ l).
Hypothesis HVar : forall n o, PE (Var n o).
Hypothesis HPath : forall b s, PE b -> PE (Path b s).
Hypothesis HBinary : forall op l r, PE l -> PE r -> PE (Binary op l r).
Hypothesis HNot : forall e, PE e -> PE (Not_ e).
Hypothesis HCall : forall n args, Forall PE args -> PE (Call n args).
Hypothesis HTemplate : forall n, PN n -> PE (Template n).

(** Every element of a list, by a proof for one element. *)
Definition all_of {A} (P : A -> Prop) (f : forall x, P x) : forall l, Forall P l :=
  fix go l := match l return Forall P l with
              | [] => @List.Forall_nil _ P
              | x :: l => @List.Forall_cons _ P x l (f x) (go l)
              end.

Fixpoint Node_ind' (n : Node) : PN n :=
  match n with
  | NJson v => HJson v
  | NStr ps => HStr ps (all_of PS StrPart_ind' ps)
  | NArray l => HArray l (all_of PN Node_ind' l)
  | NObject l =>
      HObject l (all_of _ (fun kv => conj (all_of PS StrPart_ind' kv.1) (Node_ind' kv.2)) l)
  | NExpr e => HExpr e (Expr_ind' e)
  | NIf arms o =>
      HIf arms o (all_of _ (fun cb => conj (Expr_ind' cb.1) (Node_ind' cb.2)) arms)
        (match o return forall b, o = Some b -> PN b with
         | None => fun b H => match H in _ = r return (match r with Some b => PN b | None => True end) with eq_refl => I end
         | Some b' => fun b H => match H in _ = r return (match r with Some b => PN b | None => True end) with eq_refl => Node_ind' b' end
         end)
  | NRange i v e b => HRange i v e b (Expr_ind' e) (Node_ind' b)
  end
with StrPart_ind' (p : StrPart) : PS p :=
  match p with Text t => HText t | Hole e => HHole e (Expr_ind' e) end
with Expr_ind' (e : Expr) : PE e :=
  match e with
  | Lit v => HLit v
  | Str ps => HEStr ps (all_of PS StrPart_ind' ps)
  | Array_ l => HEArray l (all_of PE Expr_ind' l)
  | Object_ l =>
      HEObject l (all_of _ (fun kv => conj (all_of PS StrPart_ind' kv.1) (Expr_ind' kv.2)) l)
  | Var n o => HVar n o
  | Path b s => HPath b s (Expr_ind' b)
  | Binary op l r => HBinary op l r (Expr_ind' l) (Expr_ind' r)
  | Not_ e => HNot e (Expr_ind' e)
  | Call n args => HCall n args (all_of PE Expr_ind' args)
  | Template n => HTemplate n (Node_ind' n)
  end.

Lemma syntax_ind : (forall n, PN n) /\ (forall p, PS p) /\ (forall e, PE e).
Proof. split_and!; [apply Node_ind'|apply StrPart_ind'|apply Expr_ind']. Qed.
End SyntaxInd.
