(* ===== verification/KritiFunctions.v ===== *)
(** * Kriti templates: the functions ([crates/kriti/src/functions.rs])

    One definition per function of the standard collection.  An [f64] is a
    [spec_float] of binary64. *)
From Stdlib Require Import SpecFloat.
From S2P Require Import Prelude Json.
Set Warnings "-register-all".

(** What the crate calls of [serde_json] besides [Serde]: [Value]'s [Display],
    [Number::as_f64] and [Number::from_f64]. *)
Class JsonNumbers := {
  display : Value -> string;
  as_f64 : string -> option spec_float;
  from_f64 : spec_float -> option string;
}.

(** The case mappings of the Unicode tables in the standard library. *)
Class Unicode := {
  str_to_lowercase : string -> string;
  str_to_uppercase : string -> string;
  char_is_alphabetic : char -> bool;
  char_to_uppercase : char -> string;
  char_to_lowercase : char -> string;
}.

Definition f64_div (a b : spec_float) : spec_float := SFdiv 53 1024 a b.
Definition f64_one : spec_float := S754_finite false 4503599627370496 (-52).
Definition f64_zero : spec_float := S754_zero false.

Module functions.
(** [Json::from] at an unsigned integer. *)
Definition json_from_nat (n : nat) : Value := JNumber (show_nat (Z.of_nat n)).

Definition with_text (name : string) (argument : Value) (f : string -> string) : result string Value :=
  match argument with
  | JString text => Ok (JString (f text))
  | _ => Err (name +:+ " expects a string")
  end.

Section Functions.
Context `{JsonNumbers} `{Unicode}.

Definition empty (argument : Value) : result string Value :=
  match argument with
  | JObject map => Ok (JBool (match map with [] => true | _ => false end))
  | JArray items => Ok (JBool (match items with [] => true | _ => false end))
  | JString text => Ok (JBool (String.eqb (trim text) ""))
  | JNumber number =>
      Ok (JBool (match as_f64 number with Some v => SFeqb v f64_zero | None => false end))
  | JBool _ => Err "Cannot define emptiness for a boolean"
  | JNull => Ok (JBool true)
  end.

Definition size (argument : Value) : result string Value :=
  match argument with
  | JObject map => Ok (json_from_nat (List.length map))
  | JArray items => Ok (json_from_nat (List.length items))
  | JString text => Ok (json_from_nat (List.length (chars text)))
  | JNumber number => Ok (JNumber number)
  | JBool flag => Ok (json_from_nat (if flag then 1 else 0))
  | JNull => Ok (json_from_nat 0)
  end.

Definition inverse (argument : Value) : result string Value :=
  match argument with
  | JObject map => Ok (JObject map)
  | JArray items => Ok (JArray (rev items))
  | JString text => Ok (JString (concat_chars (rev (chars text))))
  | JNumber number =>
      let value := match as_f64 number with Some v => v | None => S754_nan end in
      Ok (match from_f64 (f64_div f64_one value) with Some n => JNumber n | None => JNull end)
  | JBool flag => Ok (JBool (negb flag))
  | JNull => Ok JNull
  end.

Definition head (argument : Value) : result string Value :=
  match argument with
  | JArray items => match items with x :: _ => Ok x | [] => Err "Empty array" end
  | JString text => match chars text with c :: _ => Ok (JString c) | [] => Err "Empty string" end
  | _ => Err "Expected an array or string"
  end.

Definition tail (argument : Value) : result string Value :=
  match argument with
  | JArray items => match items with [] => Err "Empty array" | _ :: items => Ok (JArray items) end
  | JString text =>
      match chars text with [] => Err "Empty string" | _ :: cs => Ok (JString (concat_chars cs)) end
  | _ => Err "Expected an array or string"
  end.

Definition to_title (text : string) : string :=
  (fold_left (fun '(out, at_word_start) (character : char) =>
     if char_is_alphabetic character then
       (out +:+ (if at_word_start : bool then char_to_uppercase character
                 else char_to_lowercase character), false)
     else (out +:+ character, true)) (chars text) ("", true)).1.

Definition hex_upper (d : Z) : ascii :=
  if d <? 10 then ascii_of_N (Z.to_N (48 + d)) else ascii_of_N (Z.to_N (55 + d)).

Definition is_unreserved (a : ascii) : bool :=
  is_ascii_upper_byte a || is_ascii_lower_byte a || is_ascii_digit_byte a
  || Ascii.eqb a "-" || Ascii.eqb a "_" || Ascii.eqb a "." || Ascii.eqb a "~".

Fixpoint escape_uri (text : string) : string :=
  match text with
  | EmptyString => EmptyString
  | String a text =>
      if is_unreserved a then String a (escape_uri text)
      else String "%" (String (hex_upper (byte_val a / 16))
                         (String (hex_upper (byte_val a mod 16)) (escape_uri text)))
  end.

Definition pairs_shape : string :=
  "Expected an array of shape [ [k1,v1], [k2,v2] ... ] - With String keys.".

Definition from_pairs (argument : Value) : result string Value :=
  match argument with
  | JArray pairs =>
      out ← fold_result (fun out pair =>
        match pair with
        | JArray [JString key; value] => Ok (obj_insert out key value)
        | _ => Err pairs_shape
        end) [] pairs;
      Ok (JObject out)
  | _ => Err "fromPairs expects an array"
  end.

Definition to_pairs (argument : Value) : result string Value :=
  match argument with
  | JObject map => Ok (JArray (List.map (fun kv => JArray [JString kv.1; kv.2]) map))
  | _ => Err "toPairs expects an object"
  end.

Definition remove_nulls (argument : Value) : result string Value :=
  match argument with
  | JArray items => Ok (JArray (List.filter (fun item => negb (is_null item)) items))
  | _ => Err "removeNulls expects an array"
  end.

Definition is_array (v : Value) : bool := match v with JArray _ => true | _ => false end.
Definition is_string (v : Value) : bool := match v with JString _ => true | _ => false end.
Definition is_object (v : Value) : bool := match v with JObject _ => true | _ => false end.

Definition concat (argument : Value) : result string Value :=
  match argument with
  | JArray items =>
      if forallb is_array items then
        Ok (JArray (fold_left (fun out item =>
          match item with JArray inner => out ++ inner | _ => out end) items []))
      else if forallb is_string items then
        Ok (JString (fold_left (fun out item =>
          match item with JString text => out +:+ text | _ => out end) items ""))
      else if forallb is_object items then
        Ok (JObject (fold_left (fun out item =>
          match item with
          | JObject inner => fold_left (fun out kv => obj_insert out kv.1 kv.2) inner out
          | _ => out
          end) items []))
      else Err "concat expects an array of arrays, of strings, or of objects"
  | _ => Err "concat expects an array"
  end.

Definition not (argument : Value) : result string Value :=
  match argument with
  | JBool flag => Ok (JBool (negb flag))
  | _ => Err "not expects a boolean"
  end.

Definition call (name : string) (argument : Value) : result string Value :=
  if String.eqb name "empty" then empty argument
  else if String.eqb name "size" then size argument
  else if String.eqb name "inverse" then inverse argument
  else if String.eqb name "head" then head argument
  else if String.eqb name "tail" then tail argument
  else if String.eqb name "toCaseFold" then with_text name argument str_to_lowercase
  else if String.eqb name "toLower" then with_text name argument str_to_lowercase
  else if String.eqb name "toUpper" then with_text name argument str_to_uppercase
  else if String.eqb name "toTitle" then with_text name argument to_title
  else if String.eqb name "escapeUri" then with_text name argument escape_uri
  else if String.eqb name "fromPairs" then from_pairs argument
  else if String.eqb name "toPairs" then to_pairs argument
  else if String.eqb name "removeNulls" then remove_nulls argument
  else if String.eqb name "concat" then concat argument
  else if String.eqb name "not" then not argument
  else Err ("no such function: " +:+ name).
End Functions.
End functions.

(** Concrete library functions for the examples: numbers without a fraction,
    texts without letters outside ASCII. *)
Definition plain_numbers : JsonNumbers := {|
  display v := match v with
               | JNull => "null"
               | JBool b => if b then "true" else "false"
               | JNumber n => n
               | JString s => s
               | JArray _ => "[]"
               | JObject _ => "{}"
               end;
  as_f64 n := z ← parse_i64 n; Some (binary_normalize 53 1024 z 0 false);
  from_f64 _ := None;
|}.

Definition ascii_case : Unicode := {|
  str_to_lowercase := to_ascii_lowercase;
  str_to_uppercase s := s;
  char_is_alphabetic := char_test (fun a => is_ascii_upper_byte a || is_ascii_lower_byte a);
  char_to_uppercase c := c;
  char_to_lowercase := to_ascii_lowercase;
|}.

(** ** Round trips *)

Definition hex_digit_value (a : ascii) : option Z :=
  let b := byte_val a in
  if is_ascii_digit_byte a then Some (b - 48) else if (65 <=? b) && (b <=? 70) then Some (b - 55) else None.

(** Percent-decoding, as a reader of a URI does it. *)
Fixpoint percent_decode (s : string) : option string :=
  match s with
  | EmptyString => Some EmptyString
  | String "%" (String h (String l s)) =>
      h ← hex_digit_value h; l ← hex_digit_value l; s ← percent_decode s;
      Some (String (ascii_of_N (Z.to_N (16 * h + l))) s)
  | String a s => s ← percent_decode s; Some (String a s)
  end.

Definition is_uri_byte (a : ascii) : bool := functions.is_unreserved a || Ascii.eqb a "%".

Lemma escape_byte a :
  (functions.is_unreserved a = true -> a <> "%"%char)
  /\ hex_digit_value (functions.hex_upper (byte_val a / 16)) = Some (byte_val a / 16)
  /\ hex_digit_value (functions.hex_upper (byte_val a mod 16)) = Some (byte_val a mod 16)
  /\ functions.is_unreserved (functions.hex_upper (byte_val a / 16)) = true
  /\ functions.is_unreserved (functions.hex_upper (byte_val a mod 16)) = true.
Proof.
  split; [by intros Ha ->|].
  destruct a as [[][][][][][][][]]; vm_compute; done.
Qed.

Lemma byte_of_nibbles a : ascii_of_N (Z.to_N (16 * (byte_val a / 16) + byte_val a mod 16)) = a.
Proof. rewrite <-Z.div_mod by lia. unfold byte_val. by rewrite N2Z.id, ascii_N_embedding. Qed.

Lemma percent_decode_plain a s : a <> "%"%char ->
  percent_decode (String a s) = (s ← percent_decode s; Some (String a s)).
Proof.
  intros Ha. destruct a as [[][][][][][][][]]; try reflexivity. by contradict Ha.
Qed.

(** [escapeUri] writes bytes of the unreserved set and escapes only, and
    decoding them gives the text back. *)
Theorem escape_uri_decodes text :
  bytes_forallb is_uri_byte (functions.escape_uri text) = true
  /\ percent_decode (functions.escape_uri text) = Some text.
Proof.
  induction text as [|a text [IH1 IH2]]; [done|]. cbn [functions.escape_uri].
  destruct (escape_byte a) as (Hne & H1 & H2 & H3 & H4).
  destruct (functions.is_unreserved a) eqn:Ha.
  - cbn [bytes_forallb]. unfold is_uri_byte at 1. rewrite Ha, percent_decode_plain, IH2 by auto. done.
  - cbn [bytes_forallb percent_decode]. unfold is_uri_byte at 1 2 3. rewrite H3, H4, H1, H2, IH2. cbn [orb andb].
    split; [done|]. cbn. by rewrite byte_of_nibbles.
Qed.

(** [toPairs] and [fromPairs] are inverse on objects. *)
Lemma pairs_round_trip o :
  NoDup (map fst o) ->
  exists pairs, functions.to_pairs (JObject o) = Ok pairs /\ functions.from_pairs pairs = Ok (JObject o).
Proof.
  intros Ho. eexists. split; [reflexivity|]. cbn [functions.from_pairs].
  enough (forall acc, NoDup (map fst (acc ++ o)) ->
    fold_result (fun out pair => match pair with
                                 | JArray [JString key; value] => Ok (obj_insert out key value)
                                 | _ => Err functions.pairs_shape
                                 end) acc (List.map (fun kv => JArray [JString kv.1; kv.2]) o)
    = Ok (fold_left (fun out kv => obj_insert out kv.1 kv.2) o acc)) as E.
  { rewrite (E []) by done. cbn. by rewrite (obj_insert_all []). }
  clear. induction o as [|[k v] o IH]; intros acc Hd; [done|]. cbn.
  rewrite obj_insert_new.
  - apply IH. by rewrite <-app_assoc.
  - rewrite map_app in Hd. apply NoDup_app in Hd as (_ & Hd & _). intros Hin.
    apply (Hd k); [by apply list_elem_of_In|]. cbn. left.
Qed.
