(* ===== verification/KritiEval.v ===== *)
(** * Kriti templates: evaluation ([crates/kriti/src/eval.rs])

    The evaluator threads a mutable scope: the caller's context and the stack
    of the names bound by the enclosing [range] blocks.  [SM] is that state and
    error computation; the state is also handed back on an error, as a [&mut]
    argument is. *)
From Stdlib Require Import SpecFloat.
From S2P Require Import Prelude Json KritiSyntax KritiFunctions.
Set Warnings "-register-all".

Record EvalError := { eval_message : string }.

Definition fail {A} (text : string) : result EvalError A := Err {| eval_message := text |}.

Record Scope := { context : list (string * Value); locals : list (string * Value) }.

(** [Scope::get]: the innermost binding, then the context. *)
Definition scope_get (scope : Scope) (name : string) : option Value :=
  match find (fun bound => String.eqb bound.1 name) (rev (locals scope)) with
  | Some (_, value) => Some value
  | None => obj_get (context scope) name
  end.

Definition push (scope : Scope) (name : string) (value : Value) : Scope :=
  {| context := context scope; locals := locals scope ++ [(name, value)] |}.

Definition truncate (depth : nat) (scope : Scope) : Scope :=
  {| context := context scope; locals := firstn depth (locals scope) |}.

Definition SM (A : Type) := Scope -> result EvalError A * Scope.

Definition sret {A} (a : A) : SM A := fun s => (Ok a, s).
Definition lift {A} (r : result EvalError A) : SM A := fun s => (r, s).
Definition sbind {A B} (m : SM A) (f : A -> SM B) : SM B :=
  fun s => match m s with
           | (Ok a, s) => f a s
           | (Err e, s) => (Err e, s)
           end.

Declare Scope scope_monad.
Notation "x <~ m ;; k" := (sbind m (fun x => k)) (at level 100, m at next level, right associativity) : scope_monad.
Open Scope scope_monad.

(** A [for] loop that pushes one result per element. *)
Definition eval_each {A B} (f : A -> SM B) : list A -> SM (list B) :=
  fix go l := match l with
              | [] => sret []
              | x :: l => y <~ f x;; ys <~ go l;; sret (y :: ys)
              end.

Definition type_name (value : Value) : string :=
  match value with
  | JNull => "null"
  | JBool _ => "a boolean"
  | JNumber _ => "a number"
  | JString _ => "a string"
  | JArray _ => "an array"
  | JObject _ => "an object"
  end.

Definition truthy (value : Value) : result EvalError bool :=
  match value with
  | JBool flag => Ok flag
  | other => fail ("expected a boolean condition, got " +:+ type_name other)
  end.

Inductive Lookup := Found (value : Value) | Missing.

(** [usize::try_from(index).ok().and_then(|i| items.get(i))]. *)
Definition index_get (items : list Value) (index : Z) : option Value :=
  if index <? 0 then None else nth_error items (Z.to_nat index).

Definition step_not_found {A} (kind : StepKind) : result EvalError A :=
  match kind with
  | Field name | Key name => fail ("'" +:+ name +:+ "' is not bound")
  | Index index => fail ("index " +:+ show_Z index +:+ " is out of range")
  end.

Definition step_mismatch {A} (kind : StepKind) (other : Value) : result EvalError A :=
  match kind with
  | Field name | Key name => fail ("cannot look up '" +:+ name +:+ "' in " +:+ type_name other)
  | Index index => fail ("cannot index " +:+ type_name other +:+ " with " +:+ show_Z index)
  end.

Definition apply_step (value : Value) (step : Step) : result EvalError Lookup :=
  found ← match step_kind step, value with
          | Field name, JObject map => Ok (obj_get map name)
          | Key name, JObject map => Ok (obj_get map name)
          | Index index, JArray items => Ok (index_get items index)
          | kind, other => if step_optional step then Ok None else step_mismatch kind other
          end;
  match found, step_optional step with
  | Some value, _ => Ok (Found value)
  | None, true => Ok Missing
  | None, false => step_not_found (step_kind step)
  end.

(** The loop over the steps of a path; a missing optional step ends it. *)
Fixpoint apply_steps (current : Value) (steps : list Step) : result EvalError Value :=
  match steps with
  | [] => Ok current
  | step :: steps =>
      looked ← apply_step current step;
      match looked with
      | Found value => apply_steps value steps
      | Missing => Ok JNull
      end
  end.

Section Eval.
Context `{Serde} `{JsonNumbers} `{Unicode}.

(** The two texts a hole contributes: its characters, or its compact JSON. *)
Definition stringify (value : Value) : string :=
  match value with JString text => text | other => display other end.

Definition compare (left right : Value) : result EvalError comparison :=
  match left, right with
  | JNumber a, JNumber b =>
      match as_f64 a, as_f64 b with
      | Some a, Some b =>
          match SFcompare a b with Some o => Ok o | None => fail "cannot order these numbers" end
      | _, _ => fail "cannot order these numbers"
      end
  | JString a, JString b => Ok (String.compare a b)
  | _, _ => fail ("cannot compare " +:+ type_name left +:+ " with " +:+ type_name right)
  end.

Definition ordered (op : BinOp) (ordering : comparison) : bool :=
  match op, ordering with
  | Lt_, Lt => true
  | Lt_, _ => false
  | Le, Gt => false
  | Le, _ => true
  | Gt_, Gt => true
  | Gt_, _ => false
  | _, Lt => false
  | _, _ => true
  end.

Definition contains (left right : Value) : result EvalError bool :=
  match left, right with
  | JString key, JObject map => Ok (match obj_get map key with Some _ => true | None => false end)
  | needle, JArray items => Ok (existsb (fun item => value_eqb item needle) items)
  | _, _ => fail "'in' expects an object with a string key, or an array"
  end.

(** The operators that look at both sides; [Default] never gets here. *)
Definition strict_binary (op : BinOp) (left right : Value) : result EvalError Value :=
  match op with
  | Default | And | Or => b ← truthy right; Ok (JBool b)
  | Eq_ => Ok (JBool (value_eqb left right))
  | Ne => Ok (JBool (negb (value_eqb left right)))
  | Lt_ | Le | Gt_ | Ge => ordering ← compare left right; Ok (JBool (ordered op ordering))
  | In_ => b ← contains left right; Ok (JBool b)
  end.

(** [eval_binary]: the right side is evaluated only when it is needed. *)
Definition eval_binary (op : BinOp) (lhs rhs : SM Value) : SM Value :=
  left <~ lhs;;
  match op with
  | Default => if is_null left then rhs else sret left
  | And =>
      b <~ lift (truthy left);;
      if b : bool then right <~ rhs;; lift (strict_binary op left right) else sret (JBool false)
  | Or =>
      b <~ lift (truthy left);;
      if b : bool then sret (JBool true) else right <~ rhs;; lift (strict_binary op left right)
  | _ => right <~ rhs;; lift (strict_binary op left right)
  end.

Definition eval_parts (eval_expr : Expr -> SM Value) : list StrPart -> SM string :=
  fix go parts :=
    match parts with
    | [] => sret ""
    | Text text :: parts => out <~ go parts;; sret (text +:+ out)
    | Hole expr :: parts =>
        value <~ eval_expr expr;; out <~ go parts;; sret (stringify value +:+ out)
    end.

Definition insert_members (members : list (string * Value)) : list (string * Value) :=
  fold_left (fun out kv => obj_insert out kv.1 kv.2) members [].

(** The loop of [range]: one body per element, at its own depth of the stack. *)
Definition range_loop (index : option string) (value : string) (eval_body : SM Value) :
    nat -> list Value -> SM (list Value) :=
  fix go position items :=
    match items with
    | [] => sret []
    | item :: items => fun scope =>
        let depth := List.length (locals scope) in
        let scope := match index with
                     | Some index => push scope index (functions.json_from_nat position)
                     | None => scope
                     end in
        let (evaluated, scope) := eval_body (push scope value item) in
        (y <~ lift evaluated;; ys <~ go (S position) items;; sret (y :: ys)) (truncate depth scope)
    end.

Definition eval_arms (eval_expr : Expr -> SM Value) (eval_node : Node -> SM Value)
    (otherwise : SM Value) : list (Expr * Node) -> SM Value :=
  fix go arms :=
    match arms with
    | [] => otherwise
    | (condition, body) :: arms =>
        value <~ eval_expr condition;;
        b <~ lift (truthy value);;
        if b : bool then eval_node body else go arms
    end.

Fixpoint eval_node (node : Node) : SM Value :=
  match node with
  | NJson value => sret value
  | NStr parts => text <~ eval_parts eval_expr parts;; sret (JString text)
  | NArray items => out <~ eval_each eval_node items;; sret (JArray out)
  | NObject members =>
      out <~ eval_each (fun kv => key <~ eval_parts eval_expr kv.1;;
                                  value <~ eval_node kv.2;; sret (key, value)) members;;
      sret (JObject (insert_members out))
  | NExpr expr => eval_expr expr
  | NIf arms otherwise =>
      eval_arms eval_expr eval_node
        (match otherwise with Some body => eval_node body | None => sret JNull end) arms
  | NRange index value source body =>
      items <~ eval_expr source;;
      match items with
      | JArray items => out <~ range_loop index value (eval_node body) 0 items;; sret (JArray out)
      | other => lift (fail ("range expects an array, got " +:+ type_name other))
      end
  end
with eval_expr (expr : Expr) : SM Value :=
  match expr with
  | Lit value => sret value
  | Str parts => text <~ eval_parts eval_expr parts;; sret (JString text)
  | Array_ items => out <~ eval_each eval_expr items;; sret (JArray out)
  | Object_ members =>
      out <~ eval_each (fun kv => key <~ eval_parts eval_expr kv.1;;
                                  value <~ eval_expr kv.2;; sret (key, value)) members;;
      sret (JObject (insert_members out))
  | Var name optional => fun scope =>
      match scope_get scope name with
      | Some value => (Ok value, scope)
      | None => if optional then (Ok JNull, scope) else (fail (name +:+ " is not bound"), scope)
      end
  | Path base steps => current <~ eval_expr base;; lift (apply_steps current steps)
  | Binary op lhs rhs => eval_binary op (eval_expr lhs) (eval_expr rhs)
  | Not_ inner => value <~ eval_expr inner;; b <~ lift (truthy value);; sret (JBool (negb b))
  | Call name args =>
      match args with
      | [arg] =>
          argument <~ eval_expr arg;;
          lift (map_err (fun text => {| eval_message := text |}) (functions.call name argument))
      | _ => lift (fail (name +:+ " takes exactly one argument"))
      end
  | Template node => eval_node node
  end.

(** [eval]. *)
Definition eval (node : Node) (context : list (string * Value)) : result EvalError Value :=
  fst (eval_node node {| context := context; locals := [] |}).
End Eval.

(** ** The scope *)

Lemma find_app {A} (f : A -> bool) l l' :
  find f (l ++ l') = match find f l with Some x => Some x | None => find f l' end.
Proof. induction l as [|x l IH]; [done|]. cbn. by destruct (f x). Qed.

Lemma scope_get_push scope name value x :
  scope_get (push scope name value) x = if String.eqb name x then Some value else scope_get scope x.
Proof.
  unfold scope_get, push. cbn [locals context]. rewrite rev_app_distr, find_app. cbn.
  by destruct (String.eqb name x).
Qed.

Lemma truncate_push depth scope name value :
  (depth <= List.length (locals scope))%nat -> truncate depth (push scope name value) = truncate depth scope.
Proof.
  intros Hd. unfold truncate, push. cbn [locals context]. f_equal. rewrite firstn_app.
  replace (depth - _)%nat with 0%nat by lia. cbn. by rewrite app_nil_r.
Qed.

Lemma truncate_same scope : truncate (List.length (locals scope)) scope = scope.
Proof. destruct scope. unfold truncate. cbn. by rewrite firstn_all. Qed.

(** Two scopes that bind the names of [R] alike. *)
Definition agree (R : string -> Prop) (s s' : Scope) : Prop :=
  forall x, R x -> scope_get s x = scope_get s' x.

(** A computation that reads no name outside [R] and hands its scope back. *)
Definition respects {A} (R : string -> Prop) (m : SM A) : Prop :=
  forall s s', agree R s s' -> exists r, m s = (r, s) /\ m s' = (r, s').

Lemma respects_mono {A} (R R' : string -> Prop) (m : SM A) :
  respects R m -> (forall x, R x -> R' x) -> respects R' m.
Proof. intros Hm HR s s' Ha. apply Hm. intros x Hx. by apply Ha, HR. Qed.

Lemma respects_lift {A} R (r : result EvalError A) : respects R (lift r).
Proof. intros s s' _. by exists r. Qed.

Lemma respects_ret {A} R (a : A) : respects R (sret a).
Proof. intros s s' _. by exists (Ok a). Qed.

Lemma respects_bind {A B} R (m : SM A) (f : A -> SM B) :
  respects R m -> (forall a, respects R (f a)) -> respects R (sbind m f).
Proof.
  intros Hm Hf s s' Ha. unfold sbind. destruct (Hm s s' Ha) as (r & -> & ->).
  destruct r as [a|e]; [by apply Hf|]. by exists (Err e).
Qed.

#[export] Hint Resolve respects_lift respects_ret respects_bind : donat.

Ltac respects_step :=
  match goal with
  | |- respects _ (sbind _ _) => apply respects_bind; [|intros ?]
  | |- respects _ (sret _) => apply respects_ret
  | |- respects _ (lift _) => apply respects_lift
  | |- respects _ (if ?b then _ else _) => destruct b
  end.
Ltac respects_steps := repeat respects_step.

Lemma respects_each {A B} R (f : A -> SM B) l :
  Forall (fun x => respects R (f x)) l -> respects R (eval_each f l).
Proof. induction 1; cbn [eval_each]; respects_steps; done. Qed.

Lemma respects_range R index value (body : SM Value) n items :
  respects (fun x => R x \/ x = value \/ index = Some x) body ->
  respects R (range_loop index value body n items).
Proof.
  intros Hb. revert n. induction items as [|item items IH]; intros n; [apply respects_ret|].
  intros s s' Ha. cbn [range_loop].
  set (bind s := push (match index with Some i => push s i (functions.json_from_nat n) | None => s end) value item).
  destruct (Hb (bind s) (bind s')) as (r & E & E').
  { intros x Hx. unfold bind. rewrite !scope_get_push. destruct (String.eqb_spec value x) as [|Hv]; [done|].
    destruct index as [i|]; rewrite ?scope_get_push.
    - destruct (String.eqb_spec i x) as [|Hi]; [done|]. apply Ha.
      destruct Hx as [|[->|[= ->]]]; [done|contradiction..].
    - apply Ha. destruct Hx as [|[->|]]; [done|contradiction|done]. }
  assert (Ht : forall s, truncate (List.length (locals s)) (bind s) = s).
  { intros s0. unfold bind. destruct index; rewrite !truncate_push; cbn [push locals]; rewrite ?length_app; try lia;
      apply truncate_same. }
  fold (bind s) (bind s'). rewrite E, E', !Ht.
  refine (respects_bind _ (lift r) (fun y => ys <~ range_loop index value body (S n) items;; sret (y :: ys)) _ _ s s' Ha);
    [respects_steps|intros y; respects_steps; apply IH].
Qed.

(** The names a template reads from the scope around it. *)
Definition part_reads (expr_reads : Expr -> string -> Prop) (x : string) (part : StrPart) : Prop :=
  match part with Text _ => False | Hole e => expr_reads e x end.

Fixpoint node_reads (node : Node) (x : string) : Prop :=
  match node with
  | NJson _ => False
  | NStr parts => fold_right or False (map (part_reads expr_reads x) parts)
  | NArray items => fold_right or False (map (fun n => node_reads n x) items)
  | NObject members =>
      fold_right or False (map (fun kv =>
        fold_right or False (map (part_reads expr_reads x) kv.1) \/ node_reads kv.2 x) members)
  | NExpr e => expr_reads e x
  | NIf arms otherwise =>
      fold_right or False (map (fun cb => expr_reads cb.1 x \/ node_reads cb.2 x) arms)
      \/ match otherwise with Some body => node_reads body x | None => False end
  | NRange index value source body =>
      expr_reads source x \/ (node_reads body x /\ x <> value /\ index <> Some x)
  end
with expr_reads (e : Expr) (x : string) : Prop :=
  match e with
  | Lit _ => False
  | Str parts => fold_right or False (map (part_reads expr_reads x) parts)
  | Array_ items => fold_right or False (map (fun e => expr_reads e x) items)
  | Object_ members =>
      fold_right or False (map (fun kv =>
        fold_right or False (map (part_reads expr_reads x) kv.1) \/ expr_reads kv.2 x) members)
  | Var name _ => x = name
  | Path base _ => expr_reads base x
  | Binary _ l r => expr_reads l x \/ expr_reads r x
  | Not_ e => expr_reads e x
  | Call _ args => fold_right or False (map (fun e => expr_reads e x) args)
  | Template n => node_reads n x
  end.

Lemma fold_or_Exists {A} (P : A -> Prop) l : fold_right or False (map P l) <-> exists a, In a l /\ P a.
Proof.
  induction l as [|a l IH]; cbn; [firstorder|]. rewrite IH.
  split; [intros [|(b & ? & ?)]; eauto|intros (b & [->|] & ?); eauto].
Qed.

Lemma respects_each_reads {A B} (P : A -> string -> Prop) R (f : A -> SM B) l :
  Forall (fun a => respects (P a) (f a)) l ->
  (forall x, fold_right or False (map (fun a => P a x) l) -> R x) -> respects R (eval_each f l).
Proof.
  intros Hf HR. apply respects_each. rewrite List.Forall_forall in Hf |- *. intros a Hin.
  eapply respects_mono; [by apply Hf|]. intros x Hx. apply HR, fold_or_Exists. eauto.
Qed.

Section EvalProps.
Context `{Serde} `{JsonNumbers} `{Unicode}.

Lemma respects_parts R parts :
  Forall (fun p => match p with Text _ => True | Hole e => respects R (eval_expr e) end) parts ->
  respects R (eval_parts eval_expr parts).
Proof. induction 1 as [|[t|e] parts Hp _ IH]; cbn [eval_parts]; respects_steps; done. Qed.

Lemma respects_arms R otherwise arms :
  respects R otherwise ->
  Forall (fun cb => respects R (eval_expr cb.1) /\ respects R (eval_node cb.2)) arms ->
  respects R (eval_arms eval_expr eval_node otherwise arms).
Proof.
  intros Ho. induction 1 as [|[c b] arms [Hc Hb] _ IH]; cbn [eval_arms]; [done|]. respects_steps; done.
Qed.

(** A part, an expression and a template read only their names. *)
Lemma evaluation_respects :
  (forall n, respects (node_reads n) (eval_node n))
  /\ (forall p, match p with Text _ => True | Hole e => respects (expr_reads e) (eval_expr e) end)
  /\ (forall e, respects (expr_reads e) (eval_expr e)).
Proof.
  assert (Hparts : forall (R : string -> Prop) parts,
    (forall x, fold_right or False (map (part_reads expr_reads x) parts) -> R x) ->
    Forall (fun p => match p with Text _ => True | Hole e => respects (expr_reads e) (eval_expr e) end) parts ->
    respects R (eval_parts eval_expr parts)).
  { intros R parts HR Hp. apply respects_parts. rewrite List.Forall_forall in Hp |- *. intros [t|e] Hin; [done|].
    eapply respects_mono; [exact (Hp _ Hin)|]. intros x Hx. apply HR, fold_or_Exists. by exists (Hole e). }
  apply syntax_ind; intros; cbn [eval_node eval_expr]; fold eval_node eval_expr; respects_steps; try done.
  all: try (eapply Hparts; [|done]; cbn; tauto).
  all: try (eapply respects_mono; [eassumption|]; cbn; tauto).
  - by apply (respects_each_reads node_reads).
  - apply (respects_each_reads (fun kv x =>
      fold_right or False (map (part_reads expr_reads x) kv.1) \/ node_reads kv.2 x)); [|done].
    eapply List.Forall_impl; [|eassumption]. intros kv [Hk Hv]. respects_steps; [by apply Hparts; auto|].
    eapply respects_mono; [exact Hv|]. auto.
  - apply respects_arms.
    + destruct o as [b|]; [|apply respects_ret]. eapply respects_mono; [eauto|]. cbn. tauto.
    + rewrite List.Forall_forall in H2 |- *. intros cb Hin. destruct (H2 _ Hin) as [Hc Hb].
      split; (eapply respects_mono; [eassumption|]); intros x Hx; left; apply fold_or_Exists; eauto.
  - destruct a; respects_steps. apply respects_range. eapply respects_mono; [eassumption|]. intros x Hx.
    destruct (String.eqb_spec x v) as [->|Hv]; [auto|].
    destruct (decide (i = Some x)); [auto|]. left. right. done.
  - by apply (respects_each_reads expr_reads).
  - apply (respects_each_reads (fun kv x =>
      fold_right or False (map (part_reads expr_reads x) kv.1) \/ expr_reads kv.2 x)); [|done].
    eapply List.Forall_impl; [|eassumption]. intros kv [Hk Hv]. respects_steps; [by apply Hparts; auto|].
    eapply respects_mono; [exact Hv|]. auto.
  - intros s s' Ha. rewrite (Ha n) by done. destruct (scope_get s' n); [eauto|]. destruct o; eauto.
  - unfold eval_binary. respects_steps; [eapply respects_mono; [eassumption|]; cbn; tauto|].
    destruct op; respects_steps; (eapply respects_mono; [eassumption|]; cbn; tauto).
  - destruct args as [|arg [|]]; respects_steps.
    apply List.Forall_inv in H2. eapply respects_mono; [exact H2|]. cbn. tauto.
Qed.
(** What a template evaluates to depends on the names it mentions and on
    nothing else in scope, a name bound by [range] aside, and evaluation hands
    the scope back as it found it, whether it succeeds or fails. *)
Theorem evaluation_reads_free_names node scope scope' :
  (forall x, node_reads node x -> scope_get scope x = scope_get scope' x) ->
  exists r, eval_node node scope = (r, scope) /\ eval_node node scope' = (r, scope').
Proof. destruct evaluation_respects as (Hn & _). intros Ha. by apply Hn. Qed.

(** ** Paths *)

(** What a step finds in a value. *)
Definition member (v : Value) (kind : StepKind) : option Value :=
  match kind, v with
  | Field name, JObject map | Key name, JObject map => obj_get map name
  | Index index, JArray items => index_get items index
  | _, _ => None
  end.

(** Every step finds a value. *)
Fixpoint reaches (v : Value) (steps : list Step) (w : Value) : Prop :=
  match steps with
  | [] => w = v
  | step :: steps => exists u, member v (step_kind step) = Some u /\ reaches u steps w
  end.

(** The first step that finds nothing is optional. *)
Fixpoint stops (v : Value) (steps : list Step) : Prop :=
  match steps with
  | [] => False
  | step :: steps =>
      match member v (step_kind step) with
      | Some u => stops u steps
      | None => step_optional step = true
      end
  end.

Lemma apply_step_spec v step :
  match member v (step_kind step) with
  | Some u => apply_step v step = Ok (Found u)
  | None => if step_optional step then apply_step v step = Ok Missing else exists e, apply_step v step = Err e
  end.
Proof.
  unfold apply_step, member. destruct step as [[n|i|n] o]; cbn [step_kind step_optional];
    destruct v as [| | | |items|fields]; cbn [mbind result_bind]; try (destruct o; cbn; eauto; done).
  - destruct (obj_get fields n); [done|]. destruct o; cbn; eauto.
  - destruct (index_get items i); [done|]. destruct o; cbn; eauto.
  - destruct (obj_get fields n); [done|]. destruct o; cbn; eauto.
Qed.

Lemma apply_steps_spec v steps w :
  apply_steps v steps = Ok w <-> reaches v steps w \/ (w = JNull /\ stops v steps).
Proof.
  revert v. induction steps as [|step steps IH]; intros v; cbn [apply_steps reaches stops].
  - split; [intros [= ->]; auto|intros [->|[]]; done].
  - pose proof (apply_step_spec v step) as Hs. destruct (member v (step_kind step)) as [u|] eqn:E.
    + rewrite Hs. cbn. rewrite IH. split.
      * intros [|]; [left; eauto|by right].
      * intros [(u' & [= <-] & ?)|]; auto.
    + destruct (step_optional step).
      * rewrite Hs. cbn. split; [intros [= <-]; auto|]. intros [(u & [=] & _)|[-> _]]; done.
      * destruct Hs as [e ->]. cbn. split; [done|]. intros [(u & [=] & _)|[_ [=]]].
Qed.

(** A path evaluates to the value its steps lead to, or to [null] when the
    first step that finds nothing is optional, whatever follows it; in every
    other case it is an error. *)
Theorem path_value base steps scope v w :
  (eval_expr base scope).1 = Ok v ->
  (eval_expr (Path base steps) scope).1 = Ok w <-> reaches v steps w \/ (w = JNull /\ stops v steps).
Proof.
  intros Hb. rewrite <-apply_steps_spec. cbn [eval_expr]. fold eval_expr. unfold sbind.
  destruct (eval_expr base scope) as [r s]. cbn in Hb. by rewrite Hb.
Qed.
End EvalProps.

Section Examples.
#[local] Existing Instances small_serde plain_numbers ascii_case.

(** [{{ range x := $items }} {{ x }} {{ end }}] does not read [x]. *)
Lemma evaluation_reads_free_names_witness :
  let node := NRange None "x" (Var "$items" false) (NExpr (Var "x" false)) in
  let items := JArray [JBool true] in
  exists r, eval_node node {| context := [("$items", items)]; locals := [] |}
            = (r, {| context := [("$items", items)]; locals := [] |})
    /\ eval_node node {| context := []; locals := [("x", JNull); ("$items", items)] |}
       = (r, {| context := []; locals := [("x", JNull); ("$items", items)] |}).
Proof. apply evaluation_reads_free_names. intros x [->|(-> & [] & _)]; done. Defined.

(** [$a?.b.c] where [$a] has no [b]. *)
Lemma path_value_witness :
  (eval_expr (Path (Var "$a" false) [{| step_kind := Field "b"; step_optional := true |};
                                     {| step_kind := Field "c"; step_optional := false |}])
     {| context := [("$a", JObject [])]; locals := [] |}).1 = Ok JNull.
Proof. apply (path_value _ _ _ (JObject [])); [done|]. by right. Defined.
End Examples.
