(* ===== verification/KritiParser.v ===== *)
(** * Kriti templates: the parser ([crates/kriti/src/parser.rs])

    Recursive descent over the bytes of the source; the state is the byte
    position.  [None] is an exhausted bound of the model, not an outcome of the
    code: [depth] bounds the recursion into [node] and [expr], [n] the turns of
    a loop; [parse_total] shows that the bounds of [parse] suffice. *)
From S2P Require Import Prelude Json KritiSyntax.
Set Warnings "-register-all".

(** A parser function, given the source: [&mut self] is the position. *)
Definition KM (A : Type) := nat -> option (result ParseError (A * nat)).

Definition kret {A} (a : A) : KM A := fun pos => Some (Ok (a, pos)).
Definition kexhausted {A} : KM A := fun _ => None.
Definition kbind {A B} (m : KM A) (f : A -> KM B) : KM B :=
  fun pos =>
    match m pos with
    | Some (Ok (a, pos)) => f a pos
    | Some (Err e) => Some (Err e)
    | None => None
    end.

Declare Scope kriti_scope.
Notation "x <-- m ;; k" := (kbind m (fun x => k)) (at level 100, m at next level, right associativity) : kriti_scope.
Notation "m ;;; k" := (kbind m (fun _ => k)) (at level 100, right associativity) : kriti_scope.
Open Scope kriti_scope.

(** [&self.src[start..end]]. *)
Definition src_slice (src : string) (start end_ : nat) : string := str_take (end_ - start) (str_drop start src).

Definition is_ident_byte (byte : ascii) : bool :=
  is_ascii_upper_byte byte || is_ascii_lower_byte byte || is_ascii_digit_byte byte
  || Ascii.eqb byte "_" || Ascii.eqb byte "$".

Definition is_number_byte (byte : ascii) : bool :=
  is_ascii_digit_byte byte || Ascii.eqb byte "-" || Ascii.eqb byte "+" || Ascii.eqb byte "."
  || Ascii.eqb byte "e" || Ascii.eqb byte "E".

Definition hex_val (a : ascii) : Z :=
  let b := byte_val a in if b <? 58 then b - 48 else if b <? 71 then b - 55 else b - 87.

(** [u32::from_str_radix(hex, 16)]: an optional sign, then digits. *)
Definition parse_hex (s : string) : option Z :=
  let s := match s with String "+" s' => s' | _ => s end in
  if negb (String.eqb s "") && bytes_forallb is_ascii_hexdigit_byte s then
    checked 0 u32_max ((fix go acc s := match s with
                                        | EmptyString => acc
                                        | String a s => go (acc * 16 + hex_val a) s
                                        end) 0 s)
  else None.

(** A byte as the [char] of the same code. *)
Definition byte_char (a : ascii) : string :=
  match char_from_u32 (byte_val a) with Some c => c | None => "" end.

Definition replacement_char : string := utf8 [239; 191; 189].

Section Scanner.
Context `{Serde}.
Variable src : string.

Definition kerror {A} (text : string) : KM A :=
  fun pos => Some (Err {| message := text; offset := pos |}).

Definition kerror_at {A} (offset : nat) (text : string) : KM A :=
  fun _ => Some (Err {| message := text; offset := offset |}).

Definition position : KM nat := fun pos => Some (Ok (pos, pos)).
Definition skip (n : nat) : KM unit := fun pos => Some (Ok (tt, pos + n)%nat).

Definition peek_at (pos : nat) : option ascii := String.get pos src.
Definition peek : KM (option ascii) := fun pos => Some (Ok (peek_at pos, pos)).

(** [self.peek() == Some(byte)]. *)
Definition peek_is (byte : ascii) : KM bool :=
  fun pos => Some (Ok (match peek_at pos with Some b => Ascii.eqb b byte | None => false end, pos)).

Definition starts_with_at (text : string) (pos : nat) : bool :=
  Prelude.starts_with text (str_drop (Nat.min pos (String.length src)) src).
Definition starts_with (text : string) : KM bool := fun pos => Some (Ok (starts_with_at text pos, pos)).

Definition eat (text : string) : KM bool :=
  found <-- starts_with text;;
  if found : bool then skip (String.length text);;; kret true else kret false.

Definition expect (text : string) : KM unit :=
  found <-- eat text;;
  if found : bool then kret tt else kerror ("expected " +:+ debug_text text).

Definition keyword (word : string) : KM bool :=
  found <-- starts_with word;;
  if negb found then kret false
  else
    pos <-- position;;
    match peek_at (pos + String.length word) with
    | Some byte =>
        if is_ident_byte byte then kret false else skip (String.length word);;; kret true
    | None => skip (String.length word);;; kret true
    end.

(** [while self.peek().is_some_and(p) { self.pos += 1 }]. *)
Fixpoint skip_while (n : nat) (p : ascii -> bool) : KM unit :=
  match n with
  | O => kexhausted
  | S n =>
      b <-- peek;;
      match b with
      | Some byte => if p byte then skip 1;;; skip_while n p else kret tt
      | None => kret tt
      end
  end.

(** To the end of a comment: past the next line feed. *)
Fixpoint skip_comment (n : nat) : KM unit :=
  match n with
  | O => kexhausted
  | S n =>
      b <-- peek;;
      match b with
      | Some byte => skip 1;;; if Ascii.eqb byte "010" then kret tt else skip_comment n
      | None => kret tt
      end
  end.

Definition is_blank (byte : ascii) : bool :=
  Ascii.eqb byte " " || Ascii.eqb byte "009" || Ascii.eqb byte "013" || Ascii.eqb byte "010".

Fixpoint skip_trivia (n : nat) : KM unit :=
  match n with
  | O => kexhausted
  | S n' =>
      b <-- peek;;
      match b with
      | Some byte =>
          if is_blank byte then skip 1;;; skip_trivia n'
          else if Ascii.eqb byte "#" then skip_comment n;;; skip_trivia n'
          else kret tt
      | None => kret tt
      end
  end.

(** The bound on the turns of the loops below. *)
Variable n : nat.

Definition ident : KM string :=
  start <-- position;;
  b <-- peek_is "$";;
  (if b : bool then skip 1 else kret tt);;;
  skip_while n is_ident_byte;;;
  pos <-- position;;
  if (pos =? start)%nat then kerror "expected an identifier" else kret (src_slice src start pos).

Definition json_scalar : KM Value :=
  start <-- position;;
  b <-- keyword "true";;
  if b : bool then kret (JBool true) else
  b <-- keyword "false";;
  if b : bool then kret (JBool false) else
  b <-- keyword "null";;
  if b : bool then kret JNull else
  skip_while n is_number_byte;;;
  pos <-- position;;
  if (pos =? start)%nat then kerror "expected a value"
  else
    let text := src_slice src start pos in
    match from_str text with
    | Some value => kret value
    | None => kerror_at start (debug_text text +:+ " is not a number")
    end.

(** The character an escape stands for, after its backslash. *)
Definition string_escape : KM string :=
  b <-- peek;;
  match b with
  | None => kerror "unterminated escape"
  | Some escape =>
      skip 1;;;
      if Ascii.eqb escape "034" then kret (String "034" "")
      else if Ascii.eqb escape "\" then kret "\"
      else if Ascii.eqb escape "/" then kret "/"
      else if Ascii.eqb escape "b" then kret (String "008" "")
      else if Ascii.eqb escape "f" then kret (String "012" "")
      else if Ascii.eqb escape "n" then kret (String "010" "")
      else if Ascii.eqb escape "r" then kret (String "013" "")
      else if Ascii.eqb escape "t" then kret (String "009" "")
      else if Ascii.eqb escape "u" then
        pos <-- position;;
        if (String.length src <? pos + 4)%nat
           || negb (starts_char (str_drop pos src) && starts_char (str_drop (pos + 4) src))
        then kerror "truncated \u escape"
        else
          match parse_hex (src_slice src pos (pos + 4)) with
          | None => kerror "invalid \u escape"
          | Some code =>
              skip 4;;;
              kret (match char_from_u32 code with Some c => c | None => replacement_char end)
          end
      else kerror ("unknown escape \" +:+ byte_char escape)
  end.

(** The text pushed before a hole or at the end of the literal. *)
Definition push_text (parts : list StrPart) (text : string) : list StrPart :=
  if String.eqb text "" then parts else parts ++ [Text text].

(** To the closing quote of a key, which is [quote]. *)
Fixpoint quoted_key_loop (m : nat) (quote : ascii) (start : nat) : KM string :=
  match m with
  | O => kexhausted
  | S m =>
      b <-- peek;;
      match b with
      | None => kerror "unterminated key"
      | Some byte =>
          if Ascii.eqb byte quote then
            pos <-- position;; skip 1;;; kret (src_slice src start pos)
          else skip 1;;; quoted_key_loop m quote start
      end
  end.

Definition quoted_key (quote : ascii) : KM string :=
  skip 1;;; start <-- position;; quoted_key_loop n quote start.

(** One step in brackets, after [\[]. *)
Definition index_step : KM StepKind :=
  skip_trivia n;;;
  double <-- peek_is "034";;
  single <-- peek_is "'";;
  if (double || single)%bool then
    key <-- quoted_key (if double then "034" else "'")%char;; kret (Key key)
  else
    start <-- position;;
    skip_while n (fun byte => is_ascii_digit_byte byte || Ascii.eqb byte "-");;;
    pos <-- position;;
    match parse_i64 (src_slice src start pos) with
    | Some index => kret (Index index)
    | None => kerror_at start "expected an array index"
    end.

Fixpoint postfix_loop (m : nat) (base : Expr) (steps : list Step) : KM Expr :=
  match m with
  | O => kexhausted
  | S m =>
      dot <-- starts_with "?.";;
      bracket <-- starts_with "?[";;
      let optional := (dot || bracket)%bool in
      (if optional then skip 1 else kret tt);;;
      b <-- eat ".";;
      if b : bool then
        name <-- ident;;
        postfix_loop m base (steps ++ [{| step_kind := Field name; step_optional := optional |}])
      else
      b <-- eat "[";;
      if b : bool then
        kind <-- index_step;;
        skip_trivia n;;;
        expect "]";;;
        postfix_loop m base (steps ++ [{| step_kind := kind; step_optional := optional |}])
      else if optional then kerror "expected '.' or '[' after '?'"
      else kret (match steps with [] => base | _ => Path base steps end)
  end.
End Scanner.

(** One character of a string literal that needs no decoding: its first byte
    and the continuation bytes after it. *)
Definition string_char (src : string) (n : nat) : KM string :=
  start <-- position;;
  skip 1;;;
  skip_while src n is_continuation_byte;;;
  pos <-- position;;
  kret (src_slice src start pos).

Section Levels.
Context `{Serde}.
Variable src : string.
(** The loop bound, and the two recursive entries at a smaller depth. *)
Variable n : nat.
Variable node_rec : KM Node.
Variable expr_rec : KM Expr.

#[local] Abbreviation expect := (expect src).
#[local] Abbreviation eat := (eat src).
#[local] Abbreviation keyword := (keyword src).
#[local] Abbreviation peek := (peek src).
#[local] Abbreviation starts_with := (starts_with src).
#[local] Abbreviation skip_trivia := (skip_trivia src n).
#[local] Abbreviation ident := (ident src n).

Fixpoint string_loop (m : nat) (parts : list StrPart) (text : string) : KM (list StrPart) :=
  match m with
  | O => kexhausted
  | S m =>
      hole <-- starts_with "{{";;
      if hole : bool then
        skip 2;;;
        expr <-- expr_rec;;
        skip_trivia;;;
        expect "}}";;;
        string_loop m (push_text parts text ++ [Hole expr]) ""
      else
        b <-- peek;;
        match b with
        | None => kerror "unterminated string"
        | Some byte =>
            if Ascii.eqb byte "034" then
              skip 1;;;
              kret (if negb (String.eqb text "") || match parts with [] => true | _ => false end
                    then parts ++ [Text text] else parts)
            else if Ascii.eqb byte "\" then
              skip 1;;;
              c <-- string_escape src;;
              string_loop m parts (text +:+ c)
            else
              c <-- string_char src n;;
              string_loop m parts (text +:+ c)
        end
  end.

Definition string_parts : KM (list StrPart) :=
  expect (String "034" "");;; string_loop n [] "".

(** A comma separated list up to [close], a comma allowed before [close]; the
    opening bracket has been read. *)
Fixpoint list_loop {A} (item : KM A) (close : string) (m : nat) (items : list A) : KM (list A) :=
  match m with
  | O => kexhausted
  | S m =>
      skip_trivia;;;
      b <-- eat close;;
      if b : bool then kret items
      else
        x <-- item;;
        skip_trivia;;;
        b <-- eat ",";;
        if b : bool then list_loop item close m (items ++ [x])
        else expect close;;; kret (items ++ [x])
  end.

(** A member of an object: its key, a colon, its value. *)
Definition member_of {A} (value : KM A) : KM (list StrPart * A) :=
  key <-- string_parts;;
  skip_trivia;;;
  expect ":";;;
  value <-- value;;
  kret (key, value).

Definition array_node : KM Node :=
  expect "[";;; items <-- list_loop node_rec "]" n [];; kret (NArray items).

Definition object_node : KM Node :=
  expect "{";;; members <-- list_loop (member_of node_rec) "}" n [];; kret (NObject members).

(** [{{ end }}] after its opening braces. *)
Definition end_block : KM unit := skip_trivia;;; expect "}}".

Fixpoint if_loop (m : nat) (arms : list (Expr * Node)) : KM Node :=
  match m with
  | O => kexhausted
  | S m =>
      condition <-- expr_rec;;
      skip_trivia;;;
      expect "}}";;;
      body <-- node_rec;;
      let arms := arms ++ [(condition, body)] in
      skip_trivia;;;
      expect "{{";;;
      skip_trivia;;;
      b <-- keyword "elif";;
      if b : bool then if_loop m arms
      else
        b <-- keyword "else";;
        otherwise <-- (if b : bool then
                         skip_trivia;;;
                         expect "}}";;;
                         body <-- node_rec;;
                         skip_trivia;;;
                         expect "{{";;;
                         skip_trivia;;;
                         kret (Some body)
                       else kret None);;
        b <-- keyword "end";;
        if b : bool then end_block;;; kret (NIf arms otherwise)
        else kerror "expected 'elif', 'else' or 'end'"
  end.

Definition if_block : KM Node := if_loop n [].

Definition range_block : KM Node :=
  skip_trivia;;;
  first <-- ident;;
  skip_trivia;;;
  b <-- eat ",";;
  binders <-- (if b : bool then
                 skip_trivia;;;
                 second <-- ident;;
                 kret (if String.eqb first "_" then None else Some first, second)
               else kret (None, first));;
  skip_trivia;;;
  expect ":=";;;
  source <-- expr_rec;;
  skip_trivia;;;
  expect "}}";;;
  body <-- node_rec;;
  skip_trivia;;;
  expect "{{";;;
  skip_trivia;;;
  b <-- keyword "end";;
  if negb b then kerror "expected 'end' to close 'range'"
  else end_block;;; kret (NRange binders.1 binders.2 source body).

Definition block : KM Node :=
  expect "{{";;;
  skip_trivia;;;
  b <-- keyword "if";;
  if b : bool then if_block
  else
    b <-- keyword "range";;
    if b : bool then range_block
    else expr <-- expr_rec;; end_block;;; kret (NExpr expr).

Definition node_body : KM Node :=
  skip_trivia;;;
  b <-- starts_with "{{";;
  if b : bool then block
  else
    b <-- peek;;
    match b with
    | Some byte =>
        if Ascii.eqb byte "{" then object_node
        else if Ascii.eqb byte "[" then array_node
        else if Ascii.eqb byte "034" then parts <-- string_parts;; kret (NStr parts)
        else value <-- json_scalar src n;; kret (NJson value)
    | None => kerror "expected a value"
    end.

(** A template inside an expression, at its opening braces. *)
Definition atom_block : KM Expr :=
  skip 2;;;
  skip_trivia;;;
  b <-- keyword "if";;
  if b : bool then node <-- if_block;; kret (Template node)
  else
    b <-- keyword "range";;
    if b : bool then node <-- range_block;; kret (Template node)
    else expr <-- expr_rec;; end_block;;; kret expr.

(** A literal word, a call or a variable. *)
Definition atom_word : KM Expr :=
  t <-- starts_with "true";;
  f <-- starts_with "false";;
  u <-- starts_with "null";;
  if (t || f || u)%bool then literal <-- json_scalar src n;; kret (Lit literal)
  else
    name <-- ident;;
    b <-- peek_is src "(";;
    if b : bool then skip 1;;; args <-- list_loop expr_rec ")" n [];; kret (Call name args)
    else
      q <-- starts_with "?";;
      dot <-- starts_with "?.";;
      bracket <-- starts_with "?[";;
      let optional := (q && negb dot && negb bracket)%bool in
      (if optional then skip 1 else kret tt);;;
      kret (Var name optional).

Definition atom : KM Expr :=
  skip_trivia;;;
  b <-- starts_with "{{";;
  if b : bool then atom_block
  else
    b <-- peek;;
    match b with
    | None => kerror "expected an expression"
    | Some byte =>
        if Ascii.eqb byte "(" then
          skip 1;;;
          inner <-- expr_rec;;
          skip_trivia;;;
          expect ")";;;
          kret inner
        else if Ascii.eqb byte "034" then parts <-- string_parts;; kret (Str parts)
        else if Ascii.eqb byte "[" then
          skip 1;;; items <-- list_loop expr_rec "]" n [];; kret (Array_ items)
        else if Ascii.eqb byte "{" then
          skip 1;;; members <-- list_loop (member_of expr_rec) "}" n [];; kret (Object_ members)
        else if Ascii.eqb byte "$" || is_ascii_upper_byte byte || is_ascii_lower_byte byte
                || Ascii.eqb byte "_" then atom_word
        else literal <-- json_scalar src n;; kret (Lit literal)
    end.

Definition postfix_expr : KM Expr := base <-- atom;; postfix_loop src n n base [].

Fixpoint unary_expr (m : nat) : KM Expr :=
  match m with
  | O => kexhausted
  | S m =>
      skip_trivia;;;
      b <-- keyword "not";;
      if b : bool then inner <-- unary_expr m;; kret (Not_ inner) else postfix_expr
  end.

Definition compare_op : KM (option BinOp) :=
  b <-- eat "==";; if b : bool then kret (Some Eq_) else
  b <-- eat "!=";; if b : bool then kret (Some Ne) else
  b <-- eat "<=";; if b : bool then kret (Some Le) else
  b <-- eat ">=";; if b : bool then kret (Some Ge) else
  b <-- eat "<";; if b : bool then kret (Some Lt_) else
  b <-- eat ">";; if b : bool then kret (Some Gt_) else
  b <-- keyword "in";; if b : bool then kret (Some In_) else kret None.

Definition compare_expr : KM Expr :=
  lhs <-- unary_expr n;;
  skip_trivia;;;
  op <-- compare_op;;
  match op with
  | None => kret lhs
  | Some op => rhs <-- unary_expr n;; kret (Binary op lhs rhs)
  end.

(** The loop of [and_expr], [or_expr] and [default_expr]. *)
Fixpoint binary_loop (operand : KM Expr) (symbol : string) (op : BinOp) (m : nat) (lhs : Expr) : KM Expr :=
  match m with
  | O => kexhausted
  | S m =>
      skip_trivia;;;
      b <-- eat symbol;;
      if b : bool then rhs <-- operand;; binary_loop operand symbol op m (Binary op lhs rhs)
      else kret lhs
  end.

Definition and_expr : KM Expr := lhs <-- compare_expr;; binary_loop compare_expr "&&" And n lhs.
Definition or_expr : KM Expr := lhs <-- and_expr;; binary_loop and_expr "||" Or n lhs.
Definition default_expr : KM Expr := lhs <-- or_expr;; binary_loop or_expr "??" Default n lhs.
End Levels.

(** The recursive knot: [node] and [expr] at a depth. *)
Fixpoint node `{Serde} (src : string) (n depth : nat) : KM Node :=
  match depth with
  | O => kexhausted
  | S depth => fun pos => node_body src n (node src n depth) (expr src n depth) pos
  end
with expr {serde : Serde} (src : string) (n depth : nat) : KM Expr :=
  match depth with
  | O => kexhausted
  | S depth => fun pos => default_expr src n (node src n depth) (expr src n depth) pos
  end.

Definition parse_bounded `{Serde} (n depth : nat) (source : string) : option (result ParseError Node) :=
  match (skip_trivia source n;;;
         node <-- node source n depth;;
         skip_trivia source n;;;
         pos <-- position;;
         if (pos <? String.length source)%nat then kerror "trailing input after the template"
         else kret node) 0%nat with
  | Some (Ok (node, _)) => Some (Ok node)
  | Some (Err e) => Some (Err e)
  | None => None
  end.

(** [parse]; the last branch is unreachable by [parse_total]. *)
Definition parse `{Serde} (source : string) : result ParseError Node :=
  match parse_bounded (S (String.length source)) (S (String.length source)) source with
  | Some r => r
  | None => Err {| message := ""; offset := 0 |}
  end.

(** ** Parsing ends *)

(** [kwp m pos Q]: run from [pos], [m] does not exhaust its bounds, and a success
    satisfies [Q]. *)
Definition kwp {A} (m : KM A) (pos : nat) (Q : A -> nat -> Prop) : Prop :=
  match m pos with
  | None => False
  | Some (Err _) => True
  | Some (Ok (a, pos)) => Q a pos
  end.

Lemma kwp_bind {A B} (m : KM A) (f : A -> KM B) pos Q :
  kwp m pos (fun a pos => kwp (f a) pos Q) -> kwp (kbind m f) pos Q.
Proof. unfold kwp, kbind. by destruct (m pos) as [[[a p]|]|]. Qed.

Lemma kwp_mono {A} (m : KM A) pos (Q Q' : A -> nat -> Prop) :
  kwp m pos Q -> (forall a p, Q a p -> Q' a p) -> kwp m pos Q'.
Proof. unfold kwp. destruct (m pos) as [[[a p]|]|]; auto. Qed.

Lemma kwp_ret {A} (a : A) pos Q : Q a pos -> kwp (kret a) pos Q.
Proof. done. Qed.

Lemma kwp_error {A} text pos Q : kwp (kerror (A := A) text) pos Q.
Proof. done. Qed.

Lemma kwp_error_at {A} offset text pos Q : kwp (kerror_at (A := A) offset text) pos Q.
Proof. done. Qed.

Lemma kwp_skip k pos Q : Q tt (pos + k)%nat -> kwp (skip k) pos Q.
Proof. done. Qed.

Lemma kwp_position pos Q : Q pos pos -> kwp position pos Q.
Proof. done. Qed.

Section Wp.
Variable src : string.
#[local] Abbreviation L := (String.length src).

Lemma starts_with_at_fits text pos :
  (pos <= L)%nat -> starts_with_at src text pos = true -> (pos + String.length text <= L)%nat.
Proof. intros Hp H%starts_with_length. rewrite drop_length in H. lia. Qed.

Lemma get_fits k s a : String.get k s = Some a -> (k < String.length s)%nat.
Proof.
  revert s. induction k as [|k IH]; intros [|b s]; cbn; try done; [lia|].
  intros H%IH. lia.
Qed.

Lemma peek_at_None pos : (pos < L)%nat -> None <> peek_at src pos.
Proof.
  unfold peek_at. generalize src. induction pos as [|pos IH]; intros [|a s]; cbn; try done; try lia.
  intros Hp. apply IH. lia.
Qed.

Lemma kwp_peek pos Q :
  (forall b, b = peek_at src pos -> (forall a, b = Some a -> (pos < L)%nat) -> Q b pos) ->
  kwp (peek src) pos Q.
Proof. intros HQ. unfold kwp, peek. apply HQ; [done|]. intros a. apply get_fits. Qed.

Lemma kwp_peek_is c pos Q :
  ((pos < L)%nat -> Q true pos) -> Q false pos -> kwp (peek_is src c) pos Q.
Proof.
  intros Ht Hf. unfold kwp, peek_is. destruct (peek_at src pos) as [a|] eqn:E; [|done].
  destruct (Ascii.eqb a c); [|done]. by apply Ht, (get_fits _ _ a).
Qed.

Lemma kwp_starts_with text pos Q :
  (pos <= L)%nat ->
  (forall b, b = starts_with_at src text pos -> (b = true -> (pos + String.length text <= L)%nat) -> Q b pos) ->
  kwp (starts_with src text) pos Q.
Proof. intros Hp HQ. unfold kwp, starts_with. apply HQ; [done|]. by apply starts_with_at_fits. Qed.

Lemma kwp_eat text pos Q :
  (pos <= L)%nat ->
  ((pos + String.length text <= L)%nat -> Q true (pos + String.length text)%nat) -> Q false pos ->
  kwp (eat src text) pos Q.
Proof.
  intros Hp Ht Hf. unfold eat. apply kwp_bind, kwp_starts_with; [done|]. intros [] _ H; [|done].
  apply kwp_bind, kwp_skip, kwp_ret. auto.
Qed.

Lemma kwp_expect text pos Q :
  (pos <= L)%nat ->
  ((pos + String.length text <= L)%nat -> Q tt (pos + String.length text)%nat) -> kwp (expect src text) pos Q.
Proof. intros Hp Ht. unfold expect. apply kwp_bind, kwp_eat; [done|auto|apply kwp_error]. Qed.

Lemma kwp_keyword word pos Q :
  (pos <= L)%nat ->
  ((pos + String.length word <= L)%nat -> Q true (pos + String.length word)%nat) -> Q false pos ->
  kwp (keyword src word) pos Q.
Proof.
  intros Hp Ht Hf. unfold keyword. apply kwp_bind, kwp_starts_with; [done|]. intros [] _ H; [|done].
  cbn [negb]. apply kwp_bind, kwp_position.
  destruct (peek_at _ _); [destruct (is_ident_byte _)|]; cbn; auto;
    apply kwp_bind, kwp_skip, kwp_ret; auto.
Qed.
End Wp.

(** Symbolic execution of a parser function. *)
Ltac kstep :=
  match goal with
  | |- kwp (kbind _ _) _ _ => apply kwp_bind
  | |- kwp (kret _) _ _ => apply kwp_ret
  | |- kwp (kerror _) _ _ => apply kwp_error
  | |- kwp (kerror_at _ _) _ _ => apply kwp_error_at
  | |- kwp (skip _) _ _ => apply kwp_skip
  | |- kwp position _ _ => apply kwp_position
  | |- kwp (peek _) _ _ => apply kwp_peek; intros ? ? ?
  | |- kwp (peek_is _ _) _ _ => apply kwp_peek_is; [intros ?|]
  | |- kwp (starts_with _ _) _ _ => apply kwp_starts_with; [lia|intros ? ? ?]
  | |- kwp (eat _ _) _ _ => apply kwp_eat; [lia|cbn [String.length]; intros ?|]
  | |- kwp (expect _ _) _ _ => apply kwp_expect; [lia|cbn [String.length]; intros ?]
  | |- kwp (keyword _ _) _ _ => apply kwp_keyword; [lia|cbn [String.length]; intros ?|]
  | |- kwp (if ?b then _ else _) _ _ => destruct b eqn:?
  | |- kwp (match ?b with Some _ => _ | None => _ end) _ _ => destruct b eqn:?
  end.
Ltac fits :=
  repeat match goal with
  | H : forall a, Some ?x = Some a -> _ |- _ => specialize (H x eq_refl)
  | H : true = true -> _ |- _ => specialize (H eq_refl)
  | H : (_ =? _)%nat = false |- _ => apply Nat.eqb_neq in H
  | H : (_ <? _)%nat = false |- _ => apply Nat.ltb_ge in H
  | H : (_ || _)%bool = false |- _ => apply orb_false_iff in H as [? ?]
  | H : (_ && _)%bool = true |- _ => apply andb_true_iff in H as [? ?]
  | H : (_ || _)%bool = true |- _ => apply orb_true_iff in H as [?|?]
  | H : ?b = true, H' : ?b = true -> _ |- _ => specialize (H' H)
  end; cbn [String.length] in *.
Ltac ksteps := repeat (kstep; fits).

Section Ends.
Context `{Serde}.
Variable src : string.
#[local] Abbreviation L := (String.length src).

(** From any position with less than [d] bytes left, [m] ends; it does not go
    back, nor past the end; with [k = 1] it advances. *)
Definition ends {A} (k d : nat) (m : KM A) : Prop :=
  forall pos, (pos <= L)%nat -> (L - pos < d)%nat -> kwp m pos (fun _ p => (pos + k <= p <= L)%nat).

Lemma use_ends {A} k d (m : KM A) pos (Q : A -> nat -> Prop) :
  ends k d m -> (pos <= L)%nat -> (L - pos < d)%nat ->
  (forall a p, (pos + k <= p <= L)%nat -> Q a p) -> kwp m pos Q.
Proof. intros Hm Hp Hd HQ. eapply kwp_mono; [by apply Hm|]. auto. Qed.

Lemma skip_while_ends n p : ends 0 n (skip_while src n p).
Proof.
  induction n as [|n IH]; intros pos Hp Hn; [lia|]. cbn [skip_while]. ksteps; try lia.
  eapply use_ends; [apply IH|lia..|]. intros; lia.
Qed.

Lemma skip_comment_ends n : ends 0 n (skip_comment src n).
Proof.
  induction n as [|n IH]; intros pos Hp Hn; [lia|]. cbn [skip_comment]. ksteps; try lia.
  eapply use_ends; [apply IH|lia..|]. intros; lia.
Qed.

Lemma skip_comment_advances n pos :
  (pos < L)%nat -> (L - pos < n)%nat -> kwp (skip_comment src n) pos (fun _ p => (pos < p <= L)%nat).
Proof.
  intros Hp Hn. destruct n as [|n]; [lia|]. cbn [skip_comment]. ksteps; try lia.
  - eapply use_ends; [apply (skip_comment_ends n)|lia..|]. intros; lia.
  - exfalso. by apply (peek_at_None src pos).
Qed.

Lemma skip_trivia_ends n : ends 0 n (skip_trivia src n).
Proof.
  induction n as [|n IH]; intros pos Hp Hn; [lia|]. cbn [skip_trivia]. ksteps; try lia.
  - eapply use_ends; [apply IH|lia..|]. intros; lia.
  - eapply kwp_mono; [apply (skip_comment_advances (S n)); lia|]. intros ? p ?. cbv beta in *.
    eapply use_ends; [apply IH|lia..|]. intros; lia.
Qed.

Variable n : nat.
Hypothesis Hn : (L < n)%nat.

Lemma trivia_ends d : ends 0 d (skip_trivia src n).
Proof using Hn. intros pos Hp _. apply skip_trivia_ends; lia. Qed.

Lemma while_ends d p : ends 0 d (skip_while src n p).
Proof using Hn. intros pos Hp _. apply skip_while_ends; lia. Qed.

Ltac use H := eapply use_ends; [apply H; assumption|lia..|cbv beta; intros ? ? ?].
Ltac kuse :=
  match goal with
  | |- kwp (skip_trivia _ _) _ _ => use (trivia_ends (S L))
  | |- kwp (skip_while _ _ ?p) _ _ => use (while_ends (S L) p)
  end.
Ltac kauto := repeat (first [kstep; fits|kuse]); try lia.

Lemma ident_ends d : ends 1 d (ident src n).
Proof using Hn. intros pos Hp _. unfold ident. kauto. Qed.

Lemma json_scalar_ends d : ends 1 d (json_scalar src n).
Proof using Hn. intros pos Hp _. unfold json_scalar. kauto. Qed.

Lemma string_escape_ends d : ends 1 d (string_escape src).
Proof. intros pos Hp _. unfold string_escape. kauto. Qed.

Lemma quoted_key_loop_ends m quote start : ends 1 m (quoted_key_loop src m quote start).
Proof.
  induction m as [|m IH]; intros pos Hp Hm; [lia|]. cbn [quoted_key_loop]. kauto. use IH. lia.
Qed.

Lemma index_step_ends d : ends 0 d (index_step src n).
Proof using Hn.
  intros pos Hp _. unfold index_step, quoted_key. kauto;
    (eapply use_ends; [apply quoted_key_loop_ends|lia..|intros; kauto]).
Qed.

Ltac kuse ::=
  match goal with
  | |- kwp (skip_trivia _ _) _ _ => use (trivia_ends (S L))
  | |- kwp (skip_while _ _ ?p) _ _ => use (while_ends (S L) p)
  | |- kwp (ident _ _) _ _ => use (ident_ends (S L))
  | |- kwp (index_step _ _) _ _ => use (index_step_ends (S L))
  | |- kwp (json_scalar _ _) _ _ => use (json_scalar_ends (S L))
  | |- kwp (string_escape _) _ _ => use (string_escape_ends (S L))
  | IH : context [ends _ _ (?f _)] |- kwp (?f _) _ _ => use IH
  | IH : context [ends _ _ (?f _ _)] |- kwp (?f _ _) _ _ => use IH
  | IH : ends _ _ ?m |- kwp ?m _ _ => use IH
  end.

Lemma postfix_loop_ends m base steps : ends 0 m (postfix_loop src n m base steps).
Proof using Hn.
  revert base steps. induction m as [|m IH]; intros base steps pos Hp Hm; [lia|]. cbn [postfix_loop]. kauto.
Qed.

Lemma string_char_ends pos : (pos < L)%nat -> kwp (string_char src n) pos (fun _ p => (pos + 1 <= p <= L)%nat).
Proof using Hn. intros Hp. unfold string_char. kauto. Qed.

(** The levels of the grammar, at a depth whose recursive entries end. *)
Section AtDepth.
Variable d : nat.
Variable node_rec : KM Node.
Variable expr_rec : KM Expr.
Hypothesis Hnode : ends 1 d node_rec.
Hypothesis Hexpr : ends 1 d expr_rec.

Lemma string_loop_ends m parts text : ends 1 (Nat.min m (S d)) (string_loop src n expr_rec m parts text).
Proof using Hn Hexpr.
  revert parts text. induction m as [|m IH]; intros parts text pos Hp Hm; [lia|]. cbn [string_loop]. kauto.
  eapply kwp_mono; [apply string_char_ends; lia|]. cbv beta. intros. kauto.
Qed.

Lemma string_parts_ends : ends 1 (S d) (string_parts src n expr_rec).
Proof using Hn Hexpr. intros pos Hp Hd. unfold string_parts. kauto. use string_loop_ends. lia. Qed.

Lemma list_loop_ends {A} (item : KM A) close m items :
  ends 1 d item -> (1 <= String.length close)%nat -> ends 1 (Nat.min m d) (list_loop src n item close m items).
Proof using Hn.
  intros Hi Hc. revert items. induction m as [|m IH]; intros items pos Hp Hm; [lia|]. cbn [list_loop]. kauto.
Qed.

Lemma member_of_ends {A} (value : KM A) : ends 1 d value -> ends 1 d (member_of src n expr_rec value).
Proof using Hn Hexpr.
  intros Hv pos Hp Hd. unfold member_of. kauto. use string_parts_ends. kauto.
Qed.
Lemma array_node_ends : ends 1 (S d) (array_node src n node_rec).
Proof using Hn Hnode.
  intros pos Hp Hd. unfold array_node. kauto.
  eapply use_ends; [apply list_loop_ends; [exact Hnode|cbn; lia]|lia..|]. intros. kauto.
Qed.

Lemma object_node_ends : ends 1 (S d) (object_node src n node_rec expr_rec).
Proof using Hn Hnode Hexpr.
  intros pos Hp Hd. unfold object_node. kauto.
  eapply use_ends; [apply list_loop_ends; [by apply member_of_ends|cbn; lia]|lia..|]. intros. kauto.
Qed.

Lemma end_block_ends e : ends 1 e (end_block src n).
Proof using Hn. intros pos Hp _. unfold end_block. kauto. Qed.

Lemma if_loop_ends m arms : ends 1 (Nat.min m d) (if_loop src n node_rec expr_rec m arms).
Proof using Hn Hnode Hexpr.
  revert arms. induction m as [|m IH]; intros arms pos Hp Hm; [lia|]. cbn [if_loop]. kauto;
    use (end_block_ends (S L)); kauto.
Qed.

Lemma if_block_ends : ends 1 d (if_block src n node_rec expr_rec).
Proof using Hn Hnode Hexpr. intros pos Hp Hd. unfold if_block. use if_loop_ends. lia. Qed.

Lemma range_block_ends : ends 1 d (range_block src n node_rec expr_rec).
Proof using Hn Hnode Hexpr.
  intros pos Hp Hd. unfold range_block. kauto; use (end_block_ends (S L)); kauto.
Qed.

Lemma block_ends : ends 1 (S d) (block src n node_rec expr_rec).
Proof using Hn Hnode Hexpr.
  intros pos Hp Hd. unfold block. kauto;
    [use if_block_ends; lia|use range_block_ends; lia|use (end_block_ends (S L)); kauto].
Qed.

Lemma node_body_ends : ends 1 (S d) (node_body src n node_rec expr_rec).
Proof using Hn Hnode Hexpr.
  intros pos Hp Hd. unfold node_body. kauto;
    [use block_ends|use object_node_ends|use array_node_ends|use string_parts_ends; kauto]; lia.
Qed.

Lemma atom_block_ends pos :
  (pos + 2 <= L)%nat -> (L - pos < S d)%nat ->
  kwp (atom_block src n node_rec expr_rec) pos (fun _ p => (pos + 1 <= p <= L)%nat).
Proof using Hn Hnode Hexpr.
  intros Hp Hd. unfold atom_block. kauto;
    [use if_block_ends|use range_block_ends|use (end_block_ends (S L))]; kauto.
Qed.

Lemma atom_word_ends : ends 1 (S d) (atom_word src n expr_rec).
Proof using Hn Hexpr.
  intros pos Hp Hd. unfold atom_word. kauto.
  eapply use_ends; [apply list_loop_ends; [exact Hexpr|cbn; lia]|lia..|]. intros. kauto.
Qed.

Lemma atom_ends : ends 1 (S d) (atom src n node_rec expr_rec).
Proof using Hn Hnode Hexpr.
  intros pos Hp Hd. unfold atom. kauto; try (use atom_word_ends; lia).
  - eapply kwp_mono; [apply atom_block_ends; lia|]. cbv beta. intros. lia.
  - use string_parts_ends. kauto.
  - eapply use_ends; [apply list_loop_ends; [exact Hexpr|cbn; lia]|lia..|]. intros. kauto.
  - eapply use_ends; [apply list_loop_ends; [by apply member_of_ends|cbn; lia]|lia..|]. intros. kauto.
Qed.

Lemma postfix_expr_ends : ends 1 (S d) (postfix_expr src n node_rec expr_rec).
Proof using Hn Hnode Hexpr.
  intros pos Hp Hd. unfold postfix_expr. kauto. use atom_ends. use postfix_loop_ends. lia.
Qed.

Lemma unary_expr_ends m : ends 1 (Nat.min m (S d)) (unary_expr src n node_rec expr_rec m).
Proof using Hn Hnode Hexpr.
  induction m as [|m IH]; intros pos Hp Hm; [lia|]. cbn [unary_expr]. kauto.
  use postfix_expr_ends. lia.
Qed.

Lemma compare_op_ends e : ends 0 e (compare_op src).
Proof. intros pos Hp _. unfold compare_op. kauto. Qed.

Lemma compare_expr_ends : ends 1 (S d) (compare_expr src n node_rec expr_rec).
Proof using Hn Hnode Hexpr.
  intros pos Hp Hd. unfold compare_expr. kauto. use unary_expr_ends. kauto.
  use (compare_op_ends (S L)). kauto. use unary_expr_ends. kauto.
Qed.

Lemma binary_loop_ends operand symbol op m lhs :
  ends 1 (S d) operand -> (1 <= String.length symbol)%nat ->
  ends 0 (Nat.min m (S d)) (binary_loop src n operand symbol op m lhs).
Proof using Hn.
  intros Ho Hs. revert lhs. induction m as [|m IH]; intros lhs pos Hp Hm; [lia|]. cbn [binary_loop]. kauto.
Qed.

(** An operand and the loop after it. *)
Lemma binary_level_ends operand symbol op :
  ends 1 (S d) operand -> (1 <= String.length symbol)%nat ->
  ends 1 (S d) (lhs <-- operand;; binary_loop src n operand symbol op n lhs).
Proof using Hn. intros Ho Hs pos Hp Hd. kauto. use binary_loop_ends. lia. Qed.

Lemma default_expr_ends : ends 1 (S d) (default_expr src n node_rec expr_rec).
Proof using Hn Hnode Hexpr.
  unfold default_expr, or_expr, and_expr.
  do 3 (apply binary_level_ends; [|cbn; lia]). apply compare_expr_ends.
Qed.
End AtDepth.

Lemma node_expr_end d : ends 1 d (node src n d) /\ ends 1 d (expr src n d).
Proof using Hn.
  induction d as [|d [IHn IHe]]; [split; intros pos Hp Hd; lia|].
  split; [apply (node_body_ends d _ _ IHn IHe)|apply (default_expr_ends d _ _ IHn IHe)].
Qed.
End Ends.

(** parsing a template always ends: the recursion is no deeper than the
    source is long, since every construct reads a byte before it recurses, and
    so does every turn of a loop. *)
Theorem parse_total `{Serde} source :
  exists r, parse_bounded (S (String.length source)) (S (String.length source)) source = Some r
            /\ parse source = r.
Proof.
  unfold parse. destruct (parse_bounded _ _ source) as [r|] eqn:E; [eauto|]. exfalso. revert E.
  unfold parse_bounded. set (n := S (String.length source)).
  assert (Hn : (String.length source < n)%nat) by (unfold n; lia).
  match goal with |- context [match ?m 0%nat with _ => _ end] => enough (kwp m 0 (fun _ _ => True)) as Hw end.
  { unfold kwp in Hw. by repeat case_match. }
  ksteps. eapply use_ends; [apply (trivia_ends source n Hn n)|lia..|]. intros _ p Hp. ksteps.
  eapply use_ends; [apply (node_expr_end source n Hn n)|lia..|]. intros node p' Hp'. ksteps.
  eapply use_ends; [apply (trivia_ends source n Hn n)|lia..|]. intros _ p'' Hp''. by ksteps.
Qed.
