(* ===== verification/KritiTemplate.v ===== *)
(** * Kriti templates: entry points ([crates/kriti/src/lib.rs])

    Parsing and rendering a template, and the round trip that makes a template
    JSON with holes: a JSON text without holes renders to the value it spells. *)
From S2P Require Import Prelude Json KritiSyntax KritiFunctions KritiEval KritiParser.
Set Warnings "-register-all".

Record Template := { root : Node }.

Inductive Error := Error_Parse (e : ParseError) | Error_Eval (e : EvalError).

(** [Display for Error]. *)
Definition Error_to_string (e : Error) : string :=
  match e with Error_Parse e => ParseError_to_string e | Error_Eval e => eval_message e end.

Section Entry.
Context `{Serde} `{JsonNumbers} `{Unicode}.

Definition Template_parse (source : string) : result ParseError Template :=
  root ← parse source; Ok {| root := root |}.

Definition Template_render (template : Template) (context : list (string * Value)) : result EvalError Value :=
  eval (root template) context.

Definition render (source : string) (context : list (string * Value)) : result Error Value :=
  template ← map_err Error_Parse (Template_parse source);
  map_err Error_Eval (Template_render template context).

Definition render_unescaped (source : string) (context : list (string * Value)) : result Error string :=
  value ← render (String "034" (source +:+ String "034" "")) context;
  Ok (stringify value).
End Entry.

(** ** The compact text of a JSON value *)

Fixpoint json_text (v : Value) : string :=
  match v with
  | JNull => "null"
  | JBool b => if b then "true" else "false"
  | JNumber n => n
  | JString s => json_string s
  | JArray items => "[" +:+ join "," (map json_text items) +:+ "]"
  | JObject fields =>
      "{" +:+ join "," (map (fun kv => json_string kv.1 +:+ ":" +:+ json_text kv.2) fields) +:+ "}"
  end.

(** A text that opens no hole. *)
Fixpoint no_hole (s : string) : bool :=
  match s with
  | EmptyString => true
  | String a s' => negb (Prelude.starts_with "{{" s) && no_hole s'
  end.

Definition plain_text (s : string) : bool := no_hole s && utf8_shape s.

(** Values whose texts open no hole, whose numbers the library reads back, and
    whose objects have distinct keys. *)
Inductive plain_json `{Serde} : Value -> Prop :=
| plain_null : plain_json JNull
| plain_bool b : plain_json (JBool b)
| plain_number n :
    n <> "" -> bytes_forallb is_number_byte n = true -> from_str n = Some (JNumber n) -> plain_json (JNumber n)
| plain_string s : plain_text s = true -> plain_json (JString s)
| plain_array l : Forall plain_json l -> plain_json (JArray l)
| plain_object o :
    NoDup (map fst o) -> Forall (fun kv => plain_text kv.1 = true /\ plain_json kv.2) o -> plain_json (JObject o).

(** ** Exact runs *)

(** [m] reads the source between the two positions and returns [a]. *)
Definition run {A} (m : KM A) (pos : nat) (a : A) (pos' : nat) : Prop := m pos = Some (Ok (a, pos')).

Lemma run_bind {A B} (m : KM A) (f : A -> KM B) p a p1 b p2 :
  run m p a p1 -> run (f a) p1 b p2 -> run (kbind m f) p b p2.
Proof. unfold run, kbind. by intros ->. Qed.

Lemma run_ret {A} (a : A) p : run (kret a) p a p.
Proof. done. Qed.

Section Runs.
Variable src : string.

(** The source continues at [pos] with [t]. *)
Definition at_ (pos : nat) (t : string) : Prop := (pos <= String.length src)%nat /\ str_drop pos src = t.

Lemma at_length pos t : at_ pos t -> (pos + String.length t = String.length src)%nat.
Proof. intros [Hp <-]. rewrite drop_length. lia. Qed.

Lemma at_app pos t r : at_ pos (t +:+ r) -> at_ (pos + String.length t) r.
Proof.
  intros H. pose proof (at_length _ _ H) as Hl. destruct H as [Hp Hd]. rewrite str_length_app in Hl.
  split; [lia|]. by rewrite <-drop_drop, Hd, drop_app.
Qed.

Lemma at_cons pos a r : at_ pos (String a r) -> at_ (pos + 1) r.
Proof. apply (at_app pos (String a "")). Qed.

Lemma at_peek pos a r : at_ pos (String a r) -> peek_at src pos = Some a.
Proof.
  intros [_ Hd]. unfold peek_at. revert Hd. generalize src. induction pos as [|pos IH]; intros [|b s]; cbn; try done.
  - by intros [= -> _].
  - apply IH.
Qed.

Lemma at_peek_end pos : at_ pos "" -> peek_at src pos = None.
Proof.
  intros H. pose proof (at_length _ _ H) as Hl. cbn in Hl. destruct (peek_at src pos) eqn:E; [|done].
  apply get_fits in E. lia.
Qed.

Lemma at_starts_with pos t text : at_ pos t -> starts_with_at src text pos = Prelude.starts_with text t.
Proof. intros [Hp <-]. unfold starts_with_at. by rewrite Nat.min_l. Qed.

Lemma at_slice pos t r : at_ pos (t +:+ r) -> src_slice src pos (pos + String.length t) = t.
Proof.
  intros [_ Hd]. unfold src_slice. rewrite Hd. replace (_ - pos)%nat with (String.length t) by lia. apply take_app.
Qed.

Lemma run_starts_with pos t text : at_ pos t -> run (starts_with src text) pos (Prelude.starts_with text t) pos.
Proof. intros H. unfold run, starts_with. by rewrite (at_starts_with _ t). Qed.

Lemma run_peek pos a r : at_ pos (String a r) -> run (peek src) pos (Some a) pos.
Proof. intros H. unfold run, peek. by rewrite (at_peek _ a r). Qed.

Lemma run_eat pos text r : at_ pos (text +:+ r) -> run (eat src text) pos true (pos + String.length text).
Proof.
  intros H. unfold eat. eapply run_bind; [by apply (run_starts_with _ (text +:+ r))|]. by rewrite starts_with_app.
Qed.

Lemma run_eat_not pos t text : at_ pos t -> Prelude.starts_with text t = false -> run (eat src text) pos false pos.
Proof. intros H Hs. unfold eat. eapply run_bind; [by apply (run_starts_with _ t)|]. by rewrite Hs. Qed.

Lemma run_expect pos text r : at_ pos (text +:+ r) -> run (expect src text) pos tt (pos + String.length text).
Proof. intros H. unfold expect. eapply run_bind; [by apply (run_eat _ _ r)|done]. Qed.

(** What may follow a word: nothing that continues an identifier. *)
Definition ends_word (r : string) : bool :=
  match r with EmptyString => true | String a _ => negb (is_ident_byte a) end.

Lemma run_keyword pos word r :
  at_ pos (word +:+ r) -> ends_word r = true -> run (keyword src word) pos true (pos + String.length word).
Proof.
  intros H Hr. unfold keyword. eapply run_bind; [by apply (run_starts_with _ (word +:+ r))|].
  rewrite starts_with_app. cbn [negb]. eapply run_bind; [done|]. apply at_app in H.
  destruct r as [|a r]; [by rewrite at_peek_end|]. rewrite (at_peek _ a r) by done. apply negb_true_iff in Hr.
  by rewrite Hr.
Qed.

Lemma run_keyword_not pos t word :
  at_ pos t -> Prelude.starts_with word t = false -> run (keyword src word) pos false pos.
Proof. intros H Hs. unfold keyword. eapply run_bind; [by apply (run_starts_with _ t)|]. by rewrite Hs. Qed.

Definition not_first (p : ascii -> bool) (r : string) : bool :=
  match r with EmptyString => true | String a _ => negb (p a) end.

Lemma run_skip_while n p pos t r :
  at_ pos (t +:+ r) -> bytes_forallb p t = true -> not_first p r = true -> (String.length t < n)%nat ->
  run (skip_while src n p) pos tt (pos + String.length t).
Proof.
  revert pos n. induction t as [|a t IH]; intros pos [|n] H Ht Hr Hn; cbn [String.length] in *; try lia; cbn [skip_while].
  - rewrite str_app_nil_l in H. rewrite Nat.add_0_r. destruct r as [|a r].
    + eapply run_bind; [unfold run, peek; by rewrite at_peek_end|done].
    + eapply run_bind; [by apply (run_peek _ a r)|]. apply negb_true_iff in Hr. cbv beta iota. by rewrite Hr.
  - rewrite str_app_cons in H. cbn in Ht. apply andb_true_iff in Ht as [Ha Ht].
    eapply run_bind; [by apply (run_peek _ a (t +:+ r))|]. cbv beta iota. rewrite Ha. eapply run_bind; [done|].
    replace (pos + S (String.length t))%nat with (pos + 1 + String.length t)%nat by lia.
    apply IH; [by eapply at_cons|done|done|lia].
Qed.

(** Text that starts with no blank and no comment. *)
Definition no_trivia (t : string) : bool := not_first (fun a => is_blank a || Ascii.eqb a "#") t.

Lemma run_trivia n pos t : at_ pos t -> no_trivia t = true -> (0 < n)%nat -> run (skip_trivia src n) pos tt pos.
Proof.
  intros H Ht Hn. destruct n as [|n]; [lia|]. cbn [skip_trivia]. destruct t as [|a t].
  - eapply run_bind; [unfold run, peek; by rewrite at_peek_end|done].
  - eapply run_bind; [by apply (run_peek _ a t)|]. unfold no_trivia, not_first in Ht.
    apply negb_true_iff, orb_false_iff in Ht as [E1 E2]. cbv beta iota. by rewrite E1, E2.
Qed.
End Runs.

(** ** String literals *)

Definition control_escape (a : ascii) : string :=
  String (hex_lower (byte_val a / 16)) (String (hex_lower (byte_val a mod 16)) "").

Lemma control_escape_reads a :
  byte_val a < 32 ->
  parse_hex ("00" +:+ control_escape a) = Some (byte_val a) /\ char_from_u32 (byte_val a) = Some (String a "").
Proof.
  set (f a := negb (byte_val a <? 32)
    || (match parse_hex ("00" +:+ control_escape a) with Some c => c =? byte_val a | None => false end
        && match char_from_u32 (byte_val a) with Some c => String.eqb c (String a "") | None => false end)).
  intros Ha. assert (Hf : f a = true) by (revert a Ha; intros a _; revert a; apply byte_check; vm_compute; reflexivity).
  unfold f in Hf. apply Z.ltb_lt in Ha. rewrite Ha in Hf. cbn [negb orb] in Hf.
  destruct (parse_hex _) as [c|]; [|done]. destruct (char_from_u32 _) as [d|]; [|by rewrite andb_false_r in Hf].
  apply andb_true_iff in Hf as [->%Z.eqb_eq ->%String.eqb_eq]. done.
Qed.

(** An escape is a backslash and what [string_escape] reads; any other byte
    stands for itself. *)
Definition is_escaped (a : ascii) : bool := (byte_val a <? 32) || Ascii.eqb a "034" || Ascii.eqb a "\".

Definition escape_tail (a : ascii) : string :=
  match json_escape a with String _ t => t | EmptyString => "" end.

Lemma json_escape_cases a :
  json_escape a = if is_escaped a then String "\" (escape_tail a) else String a "".
Proof.
  set (f a := String.eqb (json_escape a) (if is_escaped a then String "\" (escape_tail a) else String a "")).
  apply String.eqb_eq. change (f a = true). revert a. apply byte_check. vm_compute. reflexivity.
Qed.

Lemma json_escape_ascii a : is_escaped a = true -> is_ascii_byte a = true.
Proof.
  set (f a := negb (is_escaped a) || is_ascii_byte a). intros Ha.
  assert (Hf : f a = true) by (revert a Ha; intros a _; revert a; apply byte_check; vm_compute; reflexivity).
  unfold f in Hf. by rewrite Ha in Hf.
Qed.

Section Strings.
Variable src : string.

Lemma run_escape pos a r :
  is_escaped a = true -> at_ src pos (escape_tail a +:+ r) -> starts_char r = true ->
  run (string_escape src) pos (String a "") (pos + String.length (escape_tail a)).
Proof.
  intros Ha Hat Hr. unfold escape_tail, json_escape in *.
  repeat match type of Hat with
  | context [if Ascii.eqb a ?c then _ else _] =>
      destruct (Ascii.eqb_spec a c) as [->|?];
        [cbv beta iota delta [Ascii.eqb Bool.eqb] in Hat |- *; rewrite str_app_cons, str_app_nil_l in Hat;
         unfold string_escape; eapply run_bind; [by eapply run_peek|done]|]
  end.
  assert (Hlt : (byte_val a <? 32) = true).
  { unfold is_escaped in Ha. rewrite !orb_true_iff, !Ascii.eqb_eq in Ha. by destruct Ha as [[?|?]|?]. }
  rewrite Hlt in *. cbn [String.length String.append] in *.
  destruct (control_escape_reads a) as [Hp Hc]; [by apply Z.ltb_lt|].
  change (at_ src pos ("u" +:+ ("00" +:+ control_escape a) +:+ r)) in Hat.
  pose proof (at_app _ _ _ _ Hat) as Hat'. pose proof (at_app _ _ _ _ Hat') as Hat''.
  change (String.length ("00" +:+ control_escape a)) with 4%nat in Hat''.
  change (String.length "u") with 1%nat in Hat', Hat''.
  pose proof (at_length _ _ _ Hat'') as Hl.
  unfold string_escape. eapply run_bind; [by apply (run_peek _ _ "u" (("00" +:+ control_escape a) +:+ r))|].
  cbv beta iota delta [Ascii.eqb Bool.eqb]. eapply run_bind; [done|]. eapply run_bind; [done|].
  replace (String.length src <? pos + 1 + 4)%nat with false by (symmetry; apply Nat.ltb_ge; lia).
  rewrite (proj2 Hat'), (proj2 Hat''), Hr.
  rewrite (at_slice _ _ ("00" +:+ control_escape a) r) by done. rewrite Hp. cbn [negb andb orb].
  eapply run_bind; [done|]. rewrite Hc. unfold run, kret. do 3 f_equal.
  match goal with |- context [String.length ?t] => change (String.length t) with 5%nat end. lia.
Qed.

Lemma run_string_char n pos a c r :
  at_ src pos (String a (c +:+ r)) -> bytes_forallb is_continuation_byte c = true ->
  starts_char r = true -> (String.length src < n)%nat ->
  run (string_char src n) pos (String a c) (pos + String.length (String a c)).
Proof.
  intros Hat Hc Hr Hn. unfold string_char. eapply run_bind; [done|]. eapply run_bind; [done|].
  pose proof (at_cons _ _ _ _ Hat) as Hat'. pose proof (at_length _ _ _ Hat') as Hl. rewrite str_length_app in Hl.
  eapply run_bind; [apply (run_skip_while _ _ _ _ c r); [done..|lia]|]. eapply run_bind; [done|].
  replace (pos + 1 + String.length c)%nat with (pos + String.length (String a c))%nat by (cbn; lia).
  change (String a (c +:+ r)) with (String a c +:+ r) in Hat. by rewrite (at_slice _ _ (String a c) r).
Qed.

(** The continuation bytes in front of a text. *)
Lemma split_continuation s : exists c r,
  s = c +:+ r /\ bytes_forallb is_continuation_byte c = true /\ starts_char r = true.
Proof.
  induction s as [|a s (c & r & -> & Hc & Hr)]; [by exists "", ""|].
  destruct (is_continuation_byte a) eqn:Ha.
  - exists (String a c), r. cbn. by rewrite Ha, Hc.
  - exists "", (String a (c +:+ r)). cbn. by rewrite Ha.
Qed.

Lemma json_chars_continuation c r :
  bytes_forallb is_continuation_byte c = true -> json_chars (c +:+ r) = c +:+ json_chars r.
Proof.
  induction c as [|a c IH]; [done|]. cbn [bytes_forallb]. rewrite str_app_cons.
  intros [Ha Hc]%andb_true_iff. cbn [json_chars]. rewrite json_escape_cases, IH by done.
  destruct (is_escaped a) eqn:E; [|done]. apply json_escape_ascii in E. unfold is_continuation_byte, is_ascii_byte in *. lia.
Qed.

Lemma starts_char_json s r :
  starts_char s = true -> starts_char r = true -> starts_char (json_chars s +:+ r) = true.
Proof.
  destruct s as [|a s]; [done|]. intros Ha _. cbn [json_chars]. rewrite json_escape_cases.
  destruct (is_escaped a); rewrite ?str_app_cons; [done|]. by rewrite str_app_nil_l.
Qed.
Lemma starts_with_brace a t :
  Prelude.starts_with "{{" (String a t) = true -> a = "{"%char /\ exists u, t = String "{" u.
Proof.
  cbn [Prelude.starts_with]. intros [<-%Ascii.eqb_eq H]%andb_true_iff. split; [done|]. destruct t as [|b t]; [done|].
  apply andb_true_iff in H as [<-%Ascii.eqb_eq _]. eauto.
Qed.

Lemma json_chars_no_hole s r :
  no_hole s = true -> Prelude.starts_with "{{" (json_chars s +:+ String "034" r) = false.
Proof.
  intros Hs. apply not_true_is_false. intros H.
  assert (Hhead : forall s u, json_chars s +:+ String "034" r = String "{" u -> exists s', s = String "{" s').
  { intros [|a s0] u; [done|]. cbn [json_chars]. rewrite json_escape_cases.
    destruct (is_escaped a); rewrite ?str_app_cons; [done|]. intros [= -> _]. eauto. }
  destruct s as [|a s]; [done|]. cbn [json_chars] in H. rewrite json_escape_cases in H.
  destruct (is_escaped a) eqn:E; rewrite !str_app_cons in H; [by apply starts_with_brace in H as [? _]|].
  rewrite !str_app_nil_l in H. apply starts_with_brace in H as [-> [u H]]. apply Hhead in H as [s' ->]. done.
Qed.

Lemma no_hole_tail c s : no_hole (c +:+ s) = true -> no_hole s = true.
Proof. induction c as [|a c IH]; [done|]. rewrite str_app_cons. cbn. intros [_ H]%andb_true_iff. auto. Qed.

Lemma utf8_shape_tail c s : utf8_shape (c +:+ s) = true -> utf8_shape s = true.
Proof. induction c as [|a c IH]; [done|]. rewrite str_app_cons. cbn. intros [_ H]%andb_true_iff. auto. Qed.

Lemma plain_text_tail c s : plain_text (c +:+ s) = true -> plain_text s = true.
Proof.
  unfold plain_text. intros [H1 H2]%andb_true_iff. by rewrite (no_hole_tail c), (utf8_shape_tail c).
Qed.

(** The body of a string literal, from its first character to its closing
    quote. *)
Lemma run_string_loop n expr_rec s text r m pos :
  plain_text s = true -> at_ src pos (json_chars s +:+ String "034" r) ->
  (String.length s < m)%nat -> (String.length src < n)%nat ->
  run (string_loop src n expr_rec m [] text) pos [Text (text +:+ s)]
    (pos + String.length (json_chars s) + 1).
Proof.
  remember (String.length s) as k eqn:Hk. revert s text m pos Hk.
  induction k as [k IH] using lt_wf_ind; intros s text m pos -> Hs Hat Hm Hn. destruct m as [|m]; [lia|].
  pose proof Hs as [Hhole Hshape]%andb_true_iff.
  cbn [string_loop]. eapply run_bind; [by eapply run_starts_with|]. rewrite json_chars_no_hole by done.
  destruct s as [|a s].
  - cbn [json_chars] in Hat. rewrite str_app_nil_l in Hat. eapply run_bind; [by eapply run_peek|].
    cbv beta iota delta [Ascii.eqb Bool.eqb]. eapply run_bind; [done|]. rewrite str_app_nil_r.
    unfold run, kret. rewrite orb_true_r. do 3 f_equal. cbn. lia.
  - cbn [json_chars] in Hat |- *. rewrite json_escape_cases in Hat |- *. destruct (is_escaped a) eqn:Ha.
    + rewrite str_app_assoc, str_app_cons in Hat. eapply run_bind; [by eapply run_peek|].
      cbv beta iota delta [Ascii.eqb Bool.eqb]. eapply run_bind; [done|]. pose proof (at_cons _ _ _ _ Hat) as Hat'.
      cbn in Hshape. apply json_escape_ascii in Ha as Hasc. rewrite Hasc in Hshape. cbn in Hshape.
      apply andb_true_iff in Hshape as [Hst Hshape].
      eapply run_bind; [apply (run_escape _ _ _ Ha Hat'); by apply starts_char_json|].
      replace (text +:+ String a s) with ((text +:+ String a "") +:+ s) by (by rewrite str_app_assoc).
      rewrite str_length_app. cbn [String.length].
      replace (pos + (S (String.length (escape_tail a)) + String.length (json_chars s)) + 1)%nat
        with (pos + 1 + String.length (escape_tail a) + String.length (json_chars s) + 1)%nat by lia.
      eapply IH; [|done|by apply (plain_text_tail (String a ""))|by apply at_app|cbn in Hm; lia|done]. cbn. lia.
    + destruct (split_continuation s) as (c & r' & -> & Hc & Hr').
      rewrite json_chars_continuation in Hat |- * by done.
      rewrite !str_app_assoc, str_app_cons, str_app_nil_l in Hat. eapply run_bind; [by eapply run_peek|].
      unfold is_escaped in Ha. apply orb_false_iff in Ha as [[_ Hq]%orb_false_iff Hb]. cbv beta iota. rewrite Hq, Hb.
      eapply run_bind; [eapply run_string_char; [exact Hat|done|by apply starts_char_json|done]|].
      replace (text +:+ String a (c +:+ r')) with ((text +:+ String a c) +:+ r') by (by rewrite str_app_assoc).
      rewrite !str_app_cons, str_app_nil_l. cbn [String.length] in Hm |- *. rewrite !str_length_app in *.
      replace (pos + S (String.length c + String.length (json_chars r')) + 1)%nat
        with (pos + S (String.length c) + String.length (json_chars r') + 1)%nat by lia.
      eapply IH; [|done|by apply (plain_text_tail (String a c))| |lia|done].
      * cbn. rewrite str_length_app. lia.
      * apply (at_app _ _ (String a c)). by rewrite str_app_cons.
Qed.

Lemma json_chars_length s : (String.length s <= String.length (json_chars s))%nat.
Proof.
  induction s as [|a s IH]; [done|]. cbn [json_chars]. rewrite str_length_app, json_escape_cases.
  destruct (is_escaped a); cbn [String.length]; lia.
Qed.

Lemma run_string_parts n expr_rec s r pos :
  plain_text s = true -> at_ src pos (json_string s +:+ r) -> (String.length src < n)%nat ->
  run (string_parts src n expr_rec) pos [Text s] (pos + String.length (json_string s)).
Proof.
  intros Hs Hat Hn. unfold json_string in *. rewrite str_app_cons, str_app_assoc in Hat.
  pose proof (at_length _ _ _ Hat) as Hl. cbn in Hl. rewrite !str_length_app in Hl. pose proof (json_chars_length s).
  unfold string_parts. eapply run_bind; [by apply (run_expect _ _ (String "034" "") _ Hat)|].
  cbn [String.length]. rewrite str_length_app.
  replace (pos + S (String.length (json_chars s) + String.length (String "034" "")))%nat
    with (pos + 1 + String.length (json_chars s) + 1)%nat by (cbn; lia).
  apply (run_string_loop n expr_rec s "" r); [done| |lia|done]. by eapply at_cons.
Qed.
End Strings.

(** ** Values *)

(** The node the parser builds from a JSON text. *)
Fixpoint node_of (v : Value) : Node :=
  match v with
  | JNull | JBool _ | JNumber _ => NJson v
  | JString s => NStr [Text s]
  | JArray items => NArray (map node_of items)
  | JObject fields => NObject (map (fun kv => ([Text kv.1], node_of kv.2)) fields)
  end.

(** What may follow a value inside an array or an object, or at the end. *)
Definition ends_value (r : string) : bool :=
  match r with
  | EmptyString => true
  | String a _ => Ascii.eqb a "," || Ascii.eqb a "]" || Ascii.eqb a "}"
  end.

(** The bytes a JSON value may start with. *)
Definition value_start (a : ascii) : bool :=
  Ascii.eqb a "n" || Ascii.eqb a "t" || Ascii.eqb a "f" || Ascii.eqb a "034" || Ascii.eqb a "[" || Ascii.eqb a "{"
  || is_number_byte a.

Definition starts_value (t : string) : bool :=
  match t with EmptyString => false | String a _ => value_start a end.

Lemma ends_value_spec r :
  ends_value r = true -> ends_word r = true /\ not_first is_number_byte r = true /\ no_trivia r = true /\ starts_char r = true.
Proof.
  destruct r as [|a r]; [done|]. cbn [ends_value ends_word not_first no_trivia starts_char].
  rewrite !orb_true_iff, !Ascii.eqb_eq. intros [[->| ->]| ->]; vm_compute; done.
Qed.

Lemma value_start_no_trivia a t r :
  value_start a = true -> no_trivia (String a t +:+ r) = true /\ Ascii.eqb a "," = false
  /\ Ascii.eqb a "]" = false /\ Ascii.eqb a "}" = false.
Proof.
  set (f a := negb (value_start a) || (negb (is_blank a || Ascii.eqb a "#") && negb (Ascii.eqb a ",")
                                       && negb (Ascii.eqb a "]") && negb (Ascii.eqb a "}"))).
  intros Ha. assert (Hf : f a = true) by (clear Ha; revert a; apply byte_check; vm_compute; reflexivity).
  unfold f in Hf. rewrite Ha in Hf. cbn [negb orb] in Hf. rewrite !andb_true_iff, !negb_true_iff in Hf.
  destruct Hf as [[[H1 H2] H3] H4]. rewrite str_app_cons. cbn [no_trivia not_first]. unfold no_trivia, not_first.
  by rewrite H1.
Qed.

Section Values.
Context `{Serde}.
Variable src : string.
Variable n : nat.
Hypothesis Hn : (String.length src < n)%nat.

(** The loop over the elements of an array or the members of an object. *)
Lemma run_list_loop {A B} (item : KM A) (text : B -> string) (value : B -> A) (c : ascii) lo bs m r acc :
  (c = "]" \/ c = "}")%char ->
  Forall (fun b => starts_value (text b) = true /\
    forall pos r', (lo <= pos)%nat -> at_ src pos (text b +:+ r') -> ends_value r' = true ->
    run item pos (value b) (pos + String.length (text b))) bs ->
  forall pos, (lo <= pos)%nat -> at_ src pos (join "," (map text bs) +:+ String c r) ->
  (List.length bs < m)%nat ->
  run (list_loop src n item (String c "") m acc) pos (acc ++ map value bs)
    (pos + String.length (join "," (map text bs)) + 1).
Proof using Hn.
  intros Hc Hbs. assert (Hcr : forall r, ends_value (String c r) = true) by (by destruct Hc as [-> | ->]).
  revert m acc. induction Hbs as [|b bs [Hb Hrun] Hbs IH]; intros m acc pos Hlo Hat Hm; (destruct m as [|m]; [cbn in Hm; lia|]);
    cbn [list_loop map join] in *.
  - rewrite str_app_nil_l in Hat. eapply run_bind; [eapply run_trivia; [exact Hat| |lia]|].
    { by apply (ends_value_spec (String c r)). }
    eapply run_bind; [apply (run_eat _ _ (String c "") r); exact Hat|]. rewrite app_nil_r. cbn. by rewrite Nat.add_0_r.
  - destruct (text b) as [|a t] eqn:Et; [done|]. cbn in Hb.
    destruct (value_start_no_trivia a t "" Hb) as (_ & Hcm & Hb1 & Hb2).
    assert (Hstart : forall u, no_trivia (String a t +:+ u) = true
                               /\ Prelude.starts_with (String c "") (String a t +:+ u) = false).
    { intros u. split; [by apply value_start_no_trivia|]. rewrite str_app_cons. cbn [Prelude.starts_with].
      destruct Hc as [-> | ->]; rewrite Ascii.eqb_sym; [by rewrite Hb1|by rewrite Hb2]. }
    destruct bs as [|b' bs].
    + cbn [map] in *. destruct (Hstart (String c r)) as [Hs1 Hs2].
      eapply run_bind; [by eapply run_trivia; [exact Hat| |lia]|].
      eapply run_bind; [by eapply run_eat_not|]. cbv iota.
      eapply run_bind; [by eapply Hrun|]. apply at_app in Hat.
      eapply run_bind; [by eapply run_trivia; [exact Hat|apply (ends_value_spec (String c r))|lia]|].
      eapply run_bind; [eapply run_eat_not; [exact Hat|by destruct Hc as [-> | ->]]|]. cbv iota.
      eapply run_bind; [by apply (run_expect _ _ (String c "") r)|]. done.
    + set (rest := join "," (map text (b' :: bs))) in *. change (map text (b' :: bs)) with (text b' :: map text bs) in *; cbv beta iota in *.
      rewrite !str_app_assoc in Hat. destruct (Hstart ("," +:+ rest +:+ String c r)) as [Hs1 Hs2].
      eapply run_bind; [by eapply run_trivia; [exact Hat| |lia]|].
      eapply run_bind; [by eapply run_eat_not|]. cbv iota.
      eapply run_bind; [by eapply Hrun|]. apply at_app in Hat.
      eapply run_bind; [by eapply run_trivia; [exact Hat| |lia]|].
      eapply run_bind; [by apply (run_eat _ _ "," (rest +:+ String c r))|]. cbv iota.
      apply at_app in Hat.
      replace (acc ++ value b :: map value (b' :: bs)) with ((acc ++ [value b]) ++ map value (b' :: bs)) by (by rewrite <-app_assoc).
      rewrite !str_length_app. cbn [String.length].
      replace (pos + (S (String.length t) + (1 + String.length rest)) + 1)%nat
        with (pos + S (String.length t) + 1 + String.length rest + 1)%nat by lia.
      apply IH; [lia|exact Hat|cbn in Hm |- *; lia].
Qed.
Lemma join_length l : Forall (fun t => starts_value t = true) l -> (List.length l <= String.length (join "," l))%nat.
Proof.
  induction 1 as [|t l Ht Hl IH]; [done|]. destruct t as [|a t]; [done|]. cbn [join].
  destruct l as [|t' l]; cbn [List.length] in *; rewrite ?str_length_app; cbn [String.length] in *; lia.
Qed.

Lemma json_string_starts s r : starts_value (json_string s +:+ r) = true.
Proof. done. Qed.

Lemma json_text_starts v : plain_json v -> starts_value (json_text v) = true.
Proof.
  destruct 1 as [|[]|t Hne Ht Hr|s Hs|l Hl|o Hnd Ho]; try done. destruct t as [|a t]; [done|].
  cbn [bytes_forallb] in Ht. apply andb_true_iff in Ht as [Ht _].
  cbn [starts_value json_text]. unfold value_start. by rewrite Ht, !orb_true_r.
Qed.

(** [node] reads the text of a value. *)
Definition reads_value (v : Value) : Prop := plain_json v -> forall pos r d,
  at_ src pos (json_text v +:+ r) -> ends_value r = true -> (String.length src - pos < d)%nat ->
  run (node src n d) pos (node_of v) (pos + String.length (json_text v)).

(** The entry into [node] at a byte that starts a value. *)
Lemma run_node_entry d pos a t v p :
  at_ src pos (String a t) -> value_start a = true -> Prelude.starts_with "{{" (String a t) = false ->
  run (if Ascii.eqb a "{" then object_node src n (node src n d) (expr src n d)
       else if Ascii.eqb a "[" then array_node src n (node src n d)
       else if Ascii.eqb a "034" then parts <-- string_parts src n (expr src n d);; kret (NStr parts)
       else value <-- json_scalar src n;; kret (NJson value)) pos v p ->
  run (node src n (S d)) pos v p.
Proof using Hn.
  intros Hat Ha Hs Hr. unfold run. cbn [node]. unfold node_body.
  destruct (value_start_no_trivia a t "" Ha) as (Ht & _). rewrite str_app_nil_r in Ht.
  eapply run_bind; [eapply run_trivia; [exact Hat|exact Ht|lia]|].
  eapply run_bind; [by eapply run_starts_with|]. rewrite Hs. eapply run_bind; [by eapply run_peek|]. exact Hr.
Qed.

Lemma not_brace a t : a <> "{"%char -> Prelude.starts_with "{{" (String a t) = false.
Proof. intros Ha. apply not_true_is_false. by intros [? _]%starts_with_brace. Qed.

(** A number byte starts no keyword, no string and no bracket. *)
Lemma number_start a :
  is_number_byte a = true ->
  Ascii.eqb "t" a = false /\ Ascii.eqb "f" a = false /\ Ascii.eqb "n" a = false /\ Ascii.eqb a "{" = false
  /\ Ascii.eqb a "[" = false /\ Ascii.eqb a "034" = false.
Proof.
  set (f a := negb (is_number_byte a) || (negb (Ascii.eqb "t" a) && negb (Ascii.eqb "f" a) && negb (Ascii.eqb "n" a)
    && negb (Ascii.eqb a "{") && negb (Ascii.eqb a "[") && negb (Ascii.eqb a "034"))).
  intros Ha. assert (Hf : f a = true) by (clear Ha; revert a; apply byte_check; vm_compute; reflexivity).
  unfold f in Hf. rewrite Ha in Hf. cbn [negb orb] in Hf. rewrite !andb_true_iff, !negb_true_iff in Hf. tauto.
Qed.

Lemma run_number pos t r :
  at_ src pos (t +:+ r) -> t <> "" -> bytes_forallb is_number_byte t = true -> from_str t = Some (JNumber t) ->
  not_first is_number_byte r = true ->
  run (json_scalar src n) pos (JNumber t) (pos + String.length t).
Proof using Hn.
  intros Hat Hne Ht Hfrom Hr. destruct t as [|a t]; [done|]. pose proof (at_length _ _ _ Hat) as Hl.
  rewrite str_length_app in Hl. cbn [bytes_forallb] in Ht.
  pose proof Ht as [Ha _]%andb_true_iff. destruct (number_start a Ha) as (E1 & E2 & E3 & _).
  unfold json_scalar. eapply run_bind; [done|].
  eapply run_bind; [eapply run_keyword_not; [exact Hat|rewrite str_app_cons; cbn [Prelude.starts_with]; by rewrite E1]|].
  eapply run_bind; [eapply run_keyword_not; [exact Hat|rewrite str_app_cons; cbn [Prelude.starts_with]; by rewrite E2]|].
  eapply run_bind; [eapply run_keyword_not; [exact Hat|rewrite str_app_cons; cbn [Prelude.starts_with]; by rewrite E3]|].
  cbv iota. eapply run_bind; [apply (run_skip_while _ _ _ _ (String a t) r); [done..|lia]|]. eapply run_bind; [done|].
  rewrite (proj2 (Nat.eqb_neq _ _)) by (cbn; lia). rewrite (at_slice _ _ (String a t) r) by done.
  by rewrite Hfrom.
Qed.

Lemma reads_number t : reads_value (JNumber t).
Proof using Hn.
  intros Hp pos r [|d] Hat Hr Hd; [lia|]. inversion Hp as [| |? Hne Ht Hfrom| | |]; subst. cbn [json_text node_of] in *.
  destruct t as [|a t]; [done|]. cbn [bytes_forallb] in Ht. pose proof Ht as [Ha _]%andb_true_iff.
  destruct (number_start a Ha) as (_ & _ & _ & E1 & E2 & E3). pose proof Hat as Hat'. rewrite str_app_cons in Hat'.
  eapply run_node_entry; [exact Hat'| |apply not_brace; by intros ->|].
  { unfold value_start. by rewrite Ha, !orb_true_r. }
  rewrite E1, E2, E3. eapply run_bind; [|done]. apply (run_number _ _ r); try done. by destruct (ends_value_spec _ Hr) as (_ & ? & _).
Qed.

Lemma reads_word word v :
  In (word, v) [("true", JBool true); ("false", JBool false); ("null", JNull)] ->
  json_text v = word -> node_of v = NJson v -> reads_value v.
Proof using Hn.
  intros Hin Ht Hv Hp pos r [|d] Hat Hr Hd; [lia|]. rewrite Ht, Hv in *. apply ends_value_spec in Hr as [Hr _].
  destruct Hin as [[= <- <-]|[[= <- <-]|[[= <- <-]|[]]]];
    (eapply run_node_entry; [exact Hat|done|done|]); cbv beta iota delta [Ascii.eqb Bool.eqb];
    (eapply run_bind; [|done]); unfold json_scalar; (eapply run_bind; [done|]).
  - eapply run_bind; [by eapply run_keyword|done].
  - eapply run_bind; [by eapply run_keyword_not|]. eapply run_bind; [by eapply run_keyword|done].
  - do 2 (eapply run_bind; [by eapply run_keyword_not|]). eapply run_bind; [by eapply run_keyword|done].
Qed.

Lemma reads_string s : reads_value (JString s).
Proof using Hn.
  intros Hp pos r [|d] Hat Hr Hd; [lia|]. inversion Hp; subst.
  eapply run_node_entry; [exact Hat|done|done|]. cbv beta iota delta [Ascii.eqb Bool.eqb].
  eapply run_bind; [by eapply run_string_parts|done].
Qed.

Lemma reads_array l : Forall reads_value l -> reads_value (JArray l).
Proof using Hn.
  intros IH Hp pos r [|d] Hat Hr Hd; [lia|]. inversion Hp as [| | | |? Hl|]; subst. cbn [json_text node_of] in *.
  pose proof (at_length _ _ _ Hat) as Hlen. rewrite !str_app_assoc in Hat. rewrite !str_length_app in Hlen.
  eapply run_node_entry; [exact Hat|done|done|]. cbv beta iota delta [Ascii.eqb Bool.eqb]. unfold array_node.
  eapply run_bind; [by apply (run_expect _ _ "[" _ Hat)|]. apply at_app in Hat. cbn [String.length] in *.
  assert (Hstart : Forall (fun t => starts_value t = true) (map json_text l)).
  { rewrite List.Forall_map. eapply List.Forall_impl; [|exact Hl]. apply json_text_starts. }
  pose proof (join_length _ Hstart) as Hj. rewrite length_map in Hj.
  eapply run_bind; [eapply (run_list_loop _ json_text node_of "]" (pos + 1) l n r []); [by left| |lia|exact Hat|lia]|].
  - rewrite List.Forall_forall in IH, Hl |- *. intros v Hin. split; [by apply json_text_starts, Hl|].
    intros p r' Hlo Hat' Hr'. apply (IH v Hin (Hl v Hin) p r'); [done..|]. pose proof (at_length _ _ _ Hat'). lia.
  - rewrite !str_length_app. unfold run, kret. do 3 f_equal. cbn [String.length]. lia.
Qed.

Definition member_text (kv : string * Value) : string := json_string kv.1 +:+ ":" +:+ json_text kv.2.

Lemma reads_object o : Forall (fun kv => reads_value kv.2) o -> reads_value (JObject o).
Proof using Hn.
  intros IH Hp pos r [|d] Hat Hr Hd; [lia|]. inversion Hp as [| | | | |? Hnd Ho]; subst. cbn [json_text node_of] in *.
  fold member_text in *. change (map (fun kv => json_string kv.1 +:+ ":" +:+ json_text kv.2) o) with (map member_text o) in *.
  pose proof (at_length _ _ _ Hat) as Hlen. rewrite !str_app_assoc in Hat. rewrite !str_length_app in Hlen.
  eapply run_node_entry; [exact Hat|done|by destruct o as [|? []]|]. cbv beta iota delta [Ascii.eqb Bool.eqb]. unfold object_node.
  eapply run_bind; [by apply (run_expect _ _ "{" _ Hat)|]. apply at_app in Hat. cbn [String.length] in *.
  assert (Hstart : Forall (fun t => starts_value t = true) (map member_text o)).
  { rewrite List.Forall_map. apply List.Forall_forall. intros. apply json_string_starts. }
  pose proof (join_length _ Hstart) as Hj. rewrite length_map in Hj.
  eapply run_bind; [eapply (run_list_loop _ member_text (fun kv => ([Text kv.1], node_of kv.2)) "}" (pos + 1) o n r []);
    [by right| |lia|exact Hat|lia]|].
  - rewrite List.Forall_forall in IH, Ho |- *. intros [k v] Hin. split; [apply json_string_starts|].
    destruct (Ho _ Hin) as [Hk Hv]. specialize (IH _ Hin Hv). cbn [fst snd] in *.
    intros p r' Hlo Hat' Hr'. unfold member_text in *. cbn [fst snd] in *. rewrite !str_app_assoc in Hat'. unfold member_of.
    eapply run_bind; [by eapply run_string_parts|]. apply at_app in Hat'.
    eapply run_bind; [by eapply run_trivia; [exact Hat'| |lia]|].
    eapply run_bind; [by apply (run_expect _ _ ":" _ Hat')|]. apply at_app in Hat'.
    eapply run_bind; [apply (IH _ r'); [exact Hat'|done|]|].
    + pose proof (at_length _ _ _ Hat'). lia.
    + rewrite !str_length_app. unfold run, kret. do 3 f_equal. lia.
  - rewrite !str_length_app. unfold run, kret. do 3 f_equal. cbn [String.length]. lia.
Qed.

Lemma node_reads_value v : reads_value v.
Proof using Hn.
  induction v as [|[]|t|s|l IH|o IH] using Value_ind'.
  - by apply (reads_word "null"); [right; right; left|..].
  - by apply (reads_word "true"); [left|..].
  - by apply (reads_word "false"); [right; left|..].
  - apply reads_number.
  - apply reads_string.
  - by apply reads_array.
  - by apply reads_object.
Qed.
End Values.

(** ** Rendering *)

Section Rendering.
Context `{Serde} `{JsonNumbers} `{Unicode}.

Lemma eval_each_ok {A B} (f : A -> SM B) (g : A -> B) l s :
  Forall (fun x => f x s = (Ok (g x), s)) l -> eval_each f l s = (Ok (map g l), s).
Proof. induction 1 as [|x l Hx _ IH]; [done|]. cbn [eval_each]. unfold sbind. by rewrite Hx, IH. Qed.

Lemma eval_each_map {A B C} (f : B -> SM C) (h : A -> B) l : eval_each f (map h l) = eval_each (fun x => f (h x)) l.
Proof. induction l as [|x l IH]; [done|]. cbn [eval_each map]. by rewrite IH. Qed.

Lemma insert_members_distinct o : NoDup (map fst o) -> insert_members o = o.
Proof. intros Ho. exact (obj_insert_all [] o Ho). Qed.

Lemma eval_node_of v s : plain_json v -> eval_node (node_of v) s = (Ok v, s).
Proof.
  induction v as [|b|t|t|l IH|o IH] using Value_ind'; intros Hp; try done.
  - cbn. unfold sbind, sret. by rewrite str_app_nil_r.
  - inversion Hp as [| | | |? Hl|]; subst. cbn [node_of eval_node]. fold eval_node eval_expr. unfold sbind.
    rewrite eval_each_map, (eval_each_ok _ (fun v => v)); [by rewrite map_id|].
    rewrite List.Forall_forall in IH, Hl |- *. auto.
  - inversion Hp as [| | | | |? Hnd Ho]; subst. cbn [node_of eval_node]. fold eval_node eval_expr. unfold sbind at 1.
    rewrite eval_each_map, (eval_each_ok _ (fun kv => kv)).
    + unfold sret. by rewrite map_id, insert_members_distinct.
    + rewrite List.Forall_forall in IH, Ho |- *. intros [k v] Hin. destruct (Ho _ Hin) as [_ Hv].
      pose proof (IH _ Hin Hv) as E. cbn in E |- *. fold eval_node. unfold sbind, sret. by rewrite str_app_nil_r, E.
Qed.

(** C40: a template is JSON with holes: the compact text of a JSON value in which
    no string opens a hole is a template, and it renders, in any context, to
    that value. *)
Theorem json_renders_to_itself v ctx : plain_json v -> render (json_text v) ctx = Ok v.
Proof.
  intros Hp. unfold render, Template_parse. set (src := json_text v).
  enough (parse src = Ok (node_of v)) as ->.
  { cbn. unfold Template_render, eval. cbn [root]. by rewrite eval_node_of. }
  unfold parse, parse_bounded. set (n := S (String.length src)).
  assert (Hn : (String.length src < n)%nat) by (unfold n; lia).
  assert (Hat : at_ src 0 (json_text v +:+ "")) by (rewrite str_app_nil_r; split; [lia|done]).
  assert (Hend : at_ src (0 + String.length (json_text v)) "") by (by apply at_app).
  match goal with |- context [match ?m 0%nat with _ => _ end] =>
    assert (run m 0 (node_of v) (String.length src)) as Hrun end; [|unfold run in Hrun; by rewrite Hrun].
  pose proof (json_text_starts v Hp) as Hs. destruct (json_text v) as [|a t] eqn:Et; [done|].
  eapply run_bind; [eapply run_trivia; [exact Hat|by apply value_start_no_trivia|lia]|].
  eapply run_bind; [apply (node_reads_value src n Hn v Hp 0%nat ""); [by rewrite Et|done|lia]|].
  rewrite Et. eapply run_bind; [by eapply run_trivia; [exact Hend| |lia]|]. eapply run_bind; [done|].
  replace (0 + String.length (String a t) <? String.length src)%nat with false; [done|]. symmetry. apply Nat.ltb_ge. unfold src. lia.
Qed.
End Rendering.

Section Examples.
#[local] Existing Instances small_serde plain_numbers ascii_case.

Lemma json_renders_to_itself_witness :
  render (json_text (JObject [("k", JArray [JNumber "7"; JString "a{b"])])) [("$", JNull)]
  = Ok (JObject [("k", JArray [JNumber "7"; JString "a{b"])]).
Proof.
  apply json_renders_to_itself. apply plain_object; [apply NoDup_singleton|].
  repeat constructor; done.
Defined.

(** [$foo??x] without a blank: the first [?] is taken for the mark of an optional
    binding, and the second is left over. *)
Lemma default_needs_a_blank :
  render "{{ $foo ?? 1 }}" [("$foo", JNull)] = Ok (JNumber "1")
  /\ exists e, render "{{ $foo??1 }}" [("$foo", JNull)] = Err (Error_Parse e).
Proof. split; [reflexivity|eexists; reflexivity]. Qed.

(** A binding whose name merely starts like a literal word cannot be read. *)
Lemma literal_prefix_is_no_name :
  render "{{ iffy }}" [("iffy", JNull)] = Ok JNull
  /\ exists e, render "{{ nullable }}" [("nullable", JNull)] = Err (Error_Parse e).
Proof. split; [reflexivity|eexists; reflexivity]. Qed.

(** An optional lookup that finds [null] does not end its chain. *)
Lemma found_null_does_not_stop :
  render "{{ $a?.b.c }}" [("$a", JObject [])] = Ok JNull
  /\ exists e, render "{{ $a?.b.c }}" [("$a", JObject [("b", JNull)])] = Err (Error_Eval e).
Proof. split; [reflexivity|eexists; reflexivity]. Qed.
End Examples.

(** The two halves of a surrogate pair are replaced one by one. *)
Lemma surrogate_pair_is_replaced :
  @parse small_serde (String "034" ("\ud83d\ude00" +:+ String "034" ""))
  = Ok (NStr [Text (replacement_char +:+ replacement_char)]).
Proof. reflexivity. Qed.
