(* ===== verification/ValueContract.v ===== *)
(** * Value contracts ([crates/value-contract/src/lib.rs])

    The types of action, command and process values, the canonical values they
    describe, the parser of type references, the validation of a value, the
    assignability of one catalog to another and the size of the canonical
    encoding.  Every [while let Some(..) = pending.pop()] is a [pop_loop]. *)
From S2P Require Import Prelude Json.
Set Warnings "-register-all".

Definition MAXIMUM_DECODED_INLINE_BYTES : Z := 131072.
Definition MAXIMUM_INLINE_VALUES : Z := 16.
Definition MAXIMUM_CANONICAL_BYTES : Z := 262144.
Definition MAXIMUM_MEDIA_TYPE_BYTES : nat := 255.
Definition MAXIMUM_FILE_NAME_BYTES : nat := 255.
Definition u64_max : Z := 18446744073709551615.

Inductive ValueScalar : Type :=
| SBoolean | SString | SInt32 | SInt64 | SUInt64 | SDecimal
| SUuid | SDate | STimestamp | STimestampTz | SJson | SCustom (name : string).

Inductive TypeRef : Type :=
| TypeRef_new (nullable : bool) (value_type : ValueType)
with ValueType : Type :=
| Scalar (scalar : ValueScalar)
| Enum (name : string) (values : list string)
| Object (fields : btree ValueContractField)
| ListOf (element : TypeRef)
| Ref (name : string)
with ValueContractField : Type :=
| Field_new (required : bool) (type_ref : TypeRef).

Definition nullable (t : TypeRef) : bool := match t with TypeRef_new n _ => n end.
Definition value_type (t : TypeRef) : ValueType := match t with TypeRef_new _ v => v end.
Definition required (f : ValueContractField) : bool := match f with Field_new r _ => r end.
Definition type_ref (f : ValueContractField) : TypeRef := match f with Field_new _ t => t end.

Definition Fields := btree ValueContractField.

Record ValueObjectContract := { object_fields : Fields }.
Record ValueContractCatalog := { roots : Fields; named_objects : btree ValueObjectContract }.

Inductive CanonicalNumber : Type :=
| I64 (z : Z)
| U64 (z : Z)
| Decimal (text : string).

Record BoundedInlineBytes := { bytes : string; media_type : string; file_name : option string }.

Inductive TypedValue : Type :=
| Null
| Boolean (b : bool)
| Text (s : string)
| Number (n : CanonicalNumber)
| List_ (values : list TypedValue)
| Object_ (values : btree TypedValue)
| InlineBytes (value : BoundedInlineBytes).

Inductive ValueContractError : Type :=
| InvalidTypeRef (text : string)
| InvalidValue (text : string)
| LimitExceeded (limit : string)
| SizeOverflow.

Definition ValueContractError_to_string (e : ValueContractError) : string :=
  match e with
  | InvalidTypeRef text | InvalidValue text => text
  | LimitExceeded limit => limit +:+ " limit exceeded"
  | SizeOverflow => "canonical size overflow"
  end.

Definition scalar_eqb (a b : ValueScalar) : bool :=
  match a, b with
  | SBoolean, SBoolean | SString, SString | SInt32, SInt32 | SInt64, SInt64 | SUInt64, SUInt64
  | SDecimal, SDecimal | SUuid, SUuid | SDate, SDate | STimestamp, STimestamp
  | STimestampTz, STimestampTz | SJson, SJson => true
  | SCustom m, SCustom n => String.eqb m n
  | _, _ => false
  end.

(** ** Type references in text *)

Definition canonical_named_type (name : string) : ValueType :=
  let named n := String.eqb name n in
  if named "Boolean" || named "bool" || named "boolean" then Scalar SBoolean
  else if named "String" || named "string" || named "ID" then Scalar SString
  else if named "Int" || named "int" || named "int32" then Scalar SInt32
  else if named "int64" then Scalar SInt64
  else if named "uint64" then Scalar SUInt64
  else if named "Float" || named "float" || named "decimal" then Scalar SDecimal
  else if named "uuid" then Scalar SUuid
  else if named "date" then Scalar SDate
  else if named "timestamp" then Scalar STimestamp
  else if named "timestamptz" then Scalar STimestampTz
  else if named "json" || named "jsonb" then Scalar SJson
  else Ref name.

Definition type_ref_error {A} (offset : nat) (expectation : string) : result ValueContractError A :=
  Err (InvalidTypeRef ("invalid type reference at byte " +:+ show_nat (Z.of_nat offset) +:+ ": " +:+ expectation)).

(** The number of leading bytes that satisfy [p]. *)
Fixpoint prefix_length (p : ascii -> bool) (s : string) : nat :=
  match s with
  | EmptyString => 0
  | String a s => if p a then S (prefix_length p s) else 0
  end.

Definition is_letter_byte (a : ascii) : bool := is_ascii_upper_byte a || is_ascii_lower_byte a.
Definition is_name_byte (a : ascii) : bool := is_letter_byte a || is_ascii_digit_byte a || Ascii.eqb a "_".

Definition byte_at_is (s : string) (offset : nat) (c : ascii) : bool :=
  match String.get offset s with Some a => Ascii.eqb a c | None => false end.

(** The [for _ in 0..list_depth] loop, and the check that nothing is left. *)
Fixpoint close_lists (source : string) (list_depth offset : nat) (parsed : TypeRef) : result ValueContractError TypeRef :=
  match list_depth with
  | O =>
      if negb (offset =? String.length source)%nat then type_ref_error offset "unexpected trailing input"
      else Ok parsed
  | S list_depth =>
      if negb (byte_at_is source offset "]") then type_ref_error offset "expected `]`"
      else
        let offset := S offset in
        if byte_at_is source offset "!" then
          close_lists source list_depth (S offset) (TypeRef_new false (ListOf parsed))
        else close_lists source list_depth offset (TypeRef_new true (ListOf parsed))
  end.

Definition TypeRef_parse (source : string) : result ValueContractError TypeRef :=
  let list_depth := prefix_length (Ascii.eqb "[") source in
  let start := list_depth in
  match String.get start source with
  | None => type_ref_error start "expected a type name"
  | Some first =>
      if negb (is_letter_byte first || Ascii.eqb first "_") then
        type_ref_error start "type name must begin with an ASCII letter or `_`"
      else
        let offset := (S start + prefix_length is_name_byte (str_drop (S start) source))%nat in
        let named := canonical_named_type (str_take (offset - start) (str_drop start source)) in
        if byte_at_is source offset "!" then close_lists source list_depth (S offset) (TypeRef_new false named)
        else close_lists source list_depth offset (TypeRef_new true named)
  end.

(** ** Canonical texts *)

(** One component of a canonical decimal: leading digits and the rest. *)
Definition take_digits (s : string) : string * string :=
  let n := prefix_length is_ascii_digit_byte s in (str_take n s, str_drop n s).

Definition last_byte (s : string) : option ascii := String.get (pred (String.length s)) s.

Definition valid_canonical_decimal (value : string) : bool :=
  let offset := if byte_at_is value 0 "-" then 1%nat else 0%nat in
  let integer :=
    match String.get offset value with
    | Some a =>
        if Ascii.eqb a "0" then
          if match String.get (S offset) value with Some b => is_ascii_digit_byte b | None => false end
          then None else Some (S offset)
        else if is_ascii_digit_byte a then
          Some (S offset + prefix_length is_ascii_digit_byte (str_drop (S offset) value))%nat
        else None
    | None => None
    end in
  match integer with
  | None => false
  | Some offset =>
      let fraction :=
        if byte_at_is value offset "." then
          let start := S offset in
          let offset := (start + prefix_length is_ascii_digit_byte (str_drop start value))%nat in
          if (offset =? start)%nat || byte_at_is value (offset - 1) "0" then None else Some offset
        else Some offset in
      match fraction with
      | None => false
      | Some offset => (offset =? String.length value)%nat && negb (String.eqb value "-0")
      end
  end.

Definition CanonicalDecimal_try_new (value : string) : result ValueContractError string :=
  if valid_canonical_decimal value then Ok value
  else Err (InvalidValue "decimal must use minimal fixed-point JSON spelling").

(** [iter().enumerate().all(..)] from index [i]. *)
Fixpoint all_enumerated (f : nat -> ascii -> bool) (i : nat) (s : string) : bool :=
  match s with EmptyString => true | String a s => f i a && all_enumerated f (S i) s end.

Definition valid_canonical_uuid (value : string) : bool :=
  (String.length value =? 36)%nat
  && all_enumerated (fun index byte =>
       if existsb (Nat.eqb index) [8; 13; 18; 23]%nat then Ascii.eqb byte "-"
       else is_ascii_digit_byte byte || ((97 <=? byte_val byte) && (byte_val byte <=? 102))) 0 value.

Definition byte_slice (s : string) (start end_ : nat) : string := str_take (end_ - start) (str_drop start s).

Definition decimal_digits (s : string) : Z := digits_value 0 s.

Definition valid_date_bytes (s : string) : bool :=
  if negb (String.length s =? 10)%nat || negb (byte_at_is s 4 "-") || negb (byte_at_is s 7 "-")
     || negb (all_enumerated (fun index byte => existsb (Nat.eqb index) [4; 7]%nat || is_ascii_digit_byte byte) 0 s)
  then false
  else
    let year := decimal_digits (byte_slice s 0 4) in
    let month := decimal_digits (byte_slice s 5 7) in
    let day := decimal_digits (byte_slice s 8 10) in
    let leap := (year mod 4 =? 0) && (negb (year mod 100 =? 0) || (year mod 400 =? 0)) in
    let month_in m := existsb (Z.eqb month) m in
    let maximum_day :=
      if month_in [1; 3; 5; 7; 8; 10; 12] then Some 31
      else if month_in [4; 6; 9; 11] then Some 30
      else if month_in [2] then Some (if leap then 29 else 28)
      else None in
    match maximum_day with Some maximum_day => in_range 1 maximum_day day | None => false end.

Definition valid_date (value : string) : bool := valid_date_bytes value.

(** [time.iter().position(|byte| *byte == b'.')] and the two halves. *)
Definition split_fraction (time : string) : string * option string :=
  match split_once "." time with
  | Some (clock, fraction) => (clock, Some fraction)
  | None => (time, None)
  end.

Definition valid_clock (clock : string) : bool :=
  negb (negb (String.length clock =? 8)%nat || negb (byte_at_is clock 2 ":") || negb (byte_at_is clock 5 ":")
        || negb (all_enumerated (fun index byte => existsb (Nat.eqb index) [2; 5]%nat || is_ascii_digit_byte byte) 0 clock)
        || (23 <? decimal_digits (byte_slice clock 0 2)) || (59 <? decimal_digits (byte_slice clock 3 5))
        || (59 <? decimal_digits (byte_slice clock 6 8))).

(** Where the local part ends, or [None] for a malformed zone. *)
Definition local_end (value : string) (with_time_zone : bool) : option nat :=
  let len := String.length value in
  if with_time_zone then
    if match last_byte value with Some a => Ascii.eqb a "Z" | None => false end then Some (len - 1)%nat
    else if (6 <=? len)%nat then
      let offset := str_drop (len - 6) value in
      if negb (byte_at_is offset 0 "+" || byte_at_is offset 0 "-") || negb (byte_at_is offset 3 ":")
         || negb (bytes_forallb is_ascii_digit_byte (byte_slice offset 1 3))
         || negb (bytes_forallb is_ascii_digit_byte (byte_slice offset 4 6))
         || (23 <? decimal_digits (byte_slice offset 1 3)) || (59 <? decimal_digits (byte_slice offset 4 6))
      then None else Some (len - 6)%nat
    else None
  else Some len.

Definition valid_timestamp (value : string) (with_time_zone : bool) : bool :=
  match local_end value with_time_zone with
  | None => false
  | Some local_end =>
      let local := str_take local_end value in
      if (String.length local <? 19)%nat || negb (byte_at_is local 10 "T") then false
      else if negb (valid_date_bytes (str_take 10 local)) then false
      else
        let (clock, fraction) := split_fraction (str_drop 11 local) in
        if negb (valid_clock clock) then false
        else
          match fraction with
          | None => true
          | Some fraction =>
              (1 <=? String.length fraction)%nat && (String.length fraction <=? 6)%nat
              && bytes_forallb is_ascii_digit_byte fraction
          end
  end.

(** ** Inline bytes *)

Definition BoundedInlineBytes_try_new (data media : string) (name : option string) (maximum_decoded_bytes : Z) :
    result ValueContractError BoundedInlineBytes :=
  if MAXIMUM_DECODED_INLINE_BYTES <? maximum_decoded_bytes then Err (LimitExceeded "declared decoded inline bytes")
  else if maximum_decoded_bytes <? Z.of_nat (String.length data) then Err (LimitExceeded "decoded inline bytes")
  else if (MAXIMUM_MEDIA_TYPE_BYTES <? String.length media)%nat || negb (bytes_forallb is_ascii_byte media) then
    Err (InvalidValue "media type must contain at most 255 ASCII bytes")
  else if match name with Some n => (MAXIMUM_FILE_NAME_BYTES <? String.length n)%nat | None => false end then
    Err (InvalidValue "file name must contain at most 255 UTF-8 bytes")
  else Ok {| bytes := data; media_type := media; file_name := name |}.

(** ** The size of the canonical encoding *)

Definition checked_add (size additional : Z) : result ValueContractError Z :=
  ok_or SizeOverflow (checked 0 usize_max (size + additional)).

Definition add_canonical_size (size additional : Z) : result ValueContractError Z :=
  size ← checked_add size additional;
  if MAXIMUM_CANONICAL_BYTES <? size then Err (LimitExceeded "canonical bytes") else Ok size.

Definition jcs_character_size (c : char) : Z :=
  match c with
  | String a EmptyString =>
      if existsb (Ascii.eqb a) ["034"; "\"; "008"; "009"; "010"; "012"; "013"]%char then 2
      else if byte_val a <? 32 then 6 else 1
  | _ => Z.of_nat (String.length c)
  end.

Definition jcs_string_size (value : string) : result ValueContractError Z :=
  fold_result (fun size c => checked_add size (jcs_character_size c)) 2 (chars value).

Definition base64url_unpadded_size (decoded : Z) : result ValueContractError Z :=
  complete ← ok_or SizeOverflow (checked 0 usize_max (decoded / 3 * 4));
  ok_or SizeOverflow (checked 0 usize_max (complete + match decoded mod 3 with 0 => 0 | 1 => 2 | _ => 3 end)).

Definition binary_canonical_size (value : BoundedInlineBytes) : result ValueContractError Z :=
  let size := 2 in
  n ← jcs_string_size "$binary"; size ← checked_add size n;
  size ← checked_add size 1;
  size ← checked_add size 2;
  n ← base64url_unpadded_size (Z.of_nat (String.length (bytes value))); size ← checked_add size n;
  size ← checked_add size 1;
  size ← match file_name value with
         | Some file_name =>
             n ← jcs_string_size "file_name"; size ← checked_add size n;
             size ← checked_add size 1;
             n ← jcs_string_size file_name; size ← checked_add size n;
             checked_add size 1
         | None => Ok size
         end;
  n ← jcs_string_size "media_type"; size ← checked_add size n;
  size ← checked_add size 1;
  n ← jcs_string_size (media_type value); checked_add size n.

(** The number of turns of the [while value >= 10] loop, plus one. *)
Fixpoint decimal_size_loop (fuel : nat) (value digits : Z) : Z :=
  match fuel with
  | O => digits
  | S fuel => if 10 <=? value then decimal_size_loop fuel (value / 10) (digits + 1) else digits
  end.

Definition unsigned_decimal_size (value : Z) : Z := decimal_size_loop (S (Z.to_nat (Z.log2 value))) value 1.

Definition signed_decimal_size (value : Z) : Z :=
  unsigned_decimal_size (Z.abs value) + (if value <? 0 then 1 else 0).

(** [size], [inline_values] and [decoded_bytes]. *)
Record Sizes := { size : Z; inline_values : Z; decoded_bytes : Z }.

Definition with_size (s : Sizes) (size : Z) : Sizes :=
  {| size := size; inline_values := inline_values s; decoded_bytes := decoded_bytes s |}.

Definition add_size (s : Sizes) (additional : Z) : result ValueContractError Sizes :=
  size ← add_canonical_size (size s) additional; Ok (with_size s size).

(** [values.len().saturating_sub(1)]. *)
Definition separators {A} (l : list A) : Z := Z.of_nat (List.length l - 1).

Definition size_step (s : Sizes) (value : TypedValue) : result ValueContractError (Sizes * list TypedValue) :=
  match value with
  | Null => s ← add_size s 4; Ok (s, [])
  | Boolean true => s ← add_size s 4; Ok (s, [])
  | Boolean false => s ← add_size s 5; Ok (s, [])
  | Text text => n ← jcs_string_size text; s ← add_size s n; Ok (s, [])
  | Number (I64 z) => s ← add_size s (signed_decimal_size z); Ok (s, [])
  | Number (U64 z) => s ← add_size s (unsigned_decimal_size z); Ok (s, [])
  | Number (Decimal text) => s ← add_size s (Z.of_nat (String.length text)); Ok (s, [])
  | List_ values =>
      s ← add_size s 2; s ← add_size s (separators values); Ok (s, values)
  | Object_ values =>
      s ← add_size s 2; s ← add_size s (separators values);
      s ← fold_result (fun s nv => n ← jcs_string_size nv.1; s ← add_size s n; add_size s 1) s values;
      Ok (s, map snd values)
  | InlineBytes value =>
      inline_values ← ok_or SizeOverflow (checked 0 usize_max (inline_values s + 1));
      if MAXIMUM_INLINE_VALUES <? inline_values then Err (LimitExceeded "inline value count") else
      decoded_bytes ← ok_or SizeOverflow (checked 0 usize_max (decoded_bytes s + Z.of_nat (String.length (bytes value))));
      if MAXIMUM_DECODED_INLINE_BYTES <? decoded_bytes then Err (LimitExceeded "aggregate decoded inline bytes") else
      n ← binary_canonical_size value;
      s ← add_size {| size := size s; inline_values := inline_values; decoded_bytes := decoded_bytes |} n;
      Ok (s, [])
  end.

(** Values, counted with everything inside them: a bound on the turns. *)
Fixpoint value_count (v : TypedValue) : nat :=
  match v with
  | List_ l => S (list_sum (map value_count l))
  | Object_ o => S (list_sum (map (fun nv => value_count nv.2) o))
  | _ => 1
  end.

Definition canonical_size_walk (value : TypedValue) : option (result ValueContractError Sizes) :=
  pop_loop size_step (S (value_count value)) {| size := 0; inline_values := 0; decoded_bytes := 0 |} [value].

(** [canonical_size]; [None] is unreachable by [canonical_size_spec]. *)
Definition canonical_size (value : TypedValue) : result ValueContractError Z :=
  match canonical_size_walk value with
  | Some (Ok s) => Ok (size s)
  | Some (Err e) => Err e
  | None => Err SizeOverflow
  end.

(** ** Validation of a value *)

Definition json_shape_step (value : TypedValue) : result unit (list TypedValue) :=
  match value with
  | List_ values => Ok values
  | Object_ values => Ok (map snd values)
  | InlineBytes _ => Err tt
  | _ => Ok []
  end.

Definition json_shape_walk (value : TypedValue) : option (result unit unit) := check_loop json_shape_step (S (value_count value)) [value].

Definition valid_json_shape (value : TypedValue) : bool :=
  match json_shape_walk value with
  | Some r => is_ok r
  | None => false
  end.

Definition validate_scalar (value : TypedValue) (scalar : ValueScalar) : result ValueContractError unit :=
  let valid :=
    match scalar, value with
    | SBoolean, Boolean _ => true
    | SString, Text _ => true
    | SInt32, Number (I64 z) => in_i32 z
    | SInt32, Number (U64 z) => z <=? i32_max
    | SInt64, Number (I64 _) => true
    | SInt64, Number (U64 z) => z <=? i64_max
    | SUInt64, Number (U64 _) => true
    | SUInt64, Number (I64 z) => 0 <=? z
    | SDecimal, Number _ => true
    | SUuid, Text s => valid_canonical_uuid s
    | SDate, Text s => valid_date s
    | STimestamp, Text s => valid_timestamp s false
    | STimestampTz, Text s => valid_timestamp s true
    | SJson, _ => valid_json_shape value
    | SCustom _, (Boolean _ | Text _ | Number _) => true
    | _, _ => false
    end in
  if valid then Ok tt else Err (InvalidValue "value does not match its declared scalar").

(** [push_fields]: what it pushes, in order. *)
Definition push_fields (values : btree TypedValue) (fields : Fields) :
    result ValueContractError (list (TypedValue * TypeRef)) :=
  _ ← each_result (fun nv : string * TypedValue =>
        if bt_contains fields nv.1 then Ok tt else Err (InvalidValue ("unknown field `" +:+ nv.1 +:+ "`"))) values;
  fold_result (fun pushed nf =>
    match bt_get values nf.1 with
    | Some value => Ok (pushed ++ [(value, type_ref nf.2)])
    | None =>
        if required nf.2 then Err (InvalidValue ("required field `" +:+ nf.1 +:+ "` is missing")) else Ok pushed
    end) [] fields.

(** One turn of [validate]. *)
Definition validate_step (named : btree ValueObjectContract) (vt : TypedValue * TypeRef) :
    result ValueContractError (list (TypedValue * TypeRef)) :=
  let (value, t) := vt in
  match value with
  | Null => if nullable t then Ok [] else Err (InvalidValue "null is not accepted by a non-null type")
  | _ =>
      match value_type t with
      | Scalar scalar => _ ← validate_scalar value scalar; Ok []
      | Enum name values =>
          match value with
          | Text symbol =>
              if existsb (fun candidate => String.eqb candidate symbol) values then Ok []
              else Err (InvalidValue ("value does not match enum `" +:+ name +:+ "`"))
          | _ => Err (InvalidValue ("value does not match enum `" +:+ name +:+ "`"))
          end
      | Object fields =>
          match value with
          | Object_ values => push_fields values fields
          | _ => Err (InvalidValue "value is not an object")
          end
      | ListOf element =>
          match value with
          | List_ values => Ok (map (fun value => (value, element)) values)
          | _ => Err (InvalidValue "value is not a list")
          end
      | Ref name =>
          object ← ok_or (InvalidTypeRef ("unknown named object `" +:+ name +:+ "`")) (bt_get named name);
          match value with
          | Object_ values => push_fields values (object_fields object)
          | _ => Err (InvalidValue ("value is not object `" +:+ name +:+ "`"))
          end
      end
  end.

(** [for (index, value) in values.iter().enumerate()]: the first value seen
    before. *)
Fixpoint first_duplicate (seen values : list string) : option string :=
  match values with
  | [] => None
  | v :: values => if existsb (String.eqb v) seen then Some v else first_duplicate (seen ++ [v]) values
  end.

Definition definitions_step (named : btree ValueObjectContract) (t : TypeRef) :
    result ValueContractError (list TypeRef) :=
  match value_type t with
  | Scalar _ => Ok []
  | Enum name values =>
      match values with
      | [] => Err (InvalidTypeRef ("enum `" +:+ name +:+ "` must declare at least one value"))
      | _ =>
          match first_duplicate [] values with
          | Some value =>
              Err (InvalidTypeRef ("enum `" +:+ name +:+ "` contains duplicate value `" +:+ value +:+ "`"))
          | None => Ok []
          end
      end
  | Object fields => Ok (map (fun nf => type_ref nf.2) fields)
  | ListOf element => Ok [element]
  | Ref name =>
      if bt_contains named name then Ok [] else Err (InvalidTypeRef ("unknown named object `" +:+ name +:+ "`"))
  end.

(** Types, counted with everything inside them. *)
Fixpoint type_count (t : TypeRef) : nat :=
  match t with
  | TypeRef_new _ (Object fields) =>
      S (list_sum (map (fun nf => match nf.2 with Field_new _ t => type_count t end) fields))
  | TypeRef_new _ (ListOf element) => S (type_count element)
  | _ => 1
  end.

Definition fields_count (fields : Fields) : nat := list_sum (map (fun nf => type_count (type_ref nf.2)) fields).

Definition named_count (named : btree ValueObjectContract) : nat :=
  list_sum (map (fun no => fields_count (object_fields no.2)) named).

(** The types of the roots and of every named object, as they are pushed. *)
Definition field_types (fields : Fields) : list TypeRef := map (fun nf => type_ref nf.2) fields.

Definition catalog_types (c : ValueContractCatalog) : list TypeRef :=
  field_types (roots c) ++ flat_map (fun no => field_types (object_fields no.2)) (named_objects c).

Definition validate_definitions_walk (c : ValueContractCatalog) : option (result ValueContractError unit) :=
  check_loop (definitions_step (named_objects c)) (S (fields_count (roots c) + named_count (named_objects c)))
    (rev (catalog_types c)).

Definition validate_definitions (c : ValueContractCatalog) : result ValueContractError unit :=
  match validate_definitions_walk c with Some r => r | None => Err SizeOverflow end.

(** The values that are pushed, and what is pushed for them. *)
Definition validate_walk (c : ValueContractCatalog) (value : TypedValue) (pushed : list (TypedValue * TypeRef)) :
    option (result ValueContractError unit) :=
  check_loop (validate_step (named_objects c)) (S (value_count value)) (rev pushed).

(** [ValueContractCatalog::validate]; the [None] cases are unreachable by
    [validate_spec]. *)
Definition validate (c : ValueContractCatalog) (value : TypedValue) : result ValueContractError unit :=
  _ ← validate_definitions c;
  _ ← canonical_size value;
  match value with
  | Object_ values =>
      pushed ← push_fields values (roots c);
      match validate_walk c value pushed with
      | Some r => r
      | None => Err SizeOverflow
      end
  | _ => Err (InvalidValue "a value-contract catalog requires one root object")
  end.

(** ** Assignability *)

(** [fields_assignable]: the pairs it pushes, or [None]. *)
Fixpoint fields_pairs (target source : Fields) : option (list (TypeRef * TypeRef)) :=
  match target with
  | [] => Some []
  | (name, target_field) :: target =>
      match bt_get source name with
      | None => None
      | Some source_field =>
          if Bool.eqb (required target_field) (required source_field) then
            pairs ← fields_pairs target source;
            Some ((type_ref target_field, type_ref source_field) :: pairs)
          else None
      end
  end.

Definition fields_assignable (target source : Fields) : option (list (TypeRef * TypeRef)) :=
  if (List.length target =? List.length source)%nat then fields_pairs target source else None.

Definition list_string_eqb (a b : list string) : bool := list_eqb String.eqb a b.

(** [return false]. *)
Definition refuse {A} (o : option A) : result unit A := ok_or tt o.

(** One turn of [is_assignable_from]; the state is the set of visited names. *)
Definition assignable_step (target_named source_named : btree ValueObjectContract)
    (visited : list string) (pair : TypeRef * TypeRef) : result unit (list string * list (TypeRef * TypeRef)) :=
  let (target, actual) := pair in
  if negb (Bool.eqb (nullable target) (nullable actual)) then Err tt
  else
    match value_type target, value_type actual with
    | Scalar SJson, _ => Ok (visited, [])
    | Scalar t, Scalar a => if scalar_eqb t a then Ok (visited, []) else Err tt
    | Enum tn tv, Enum an av =>
        if String.eqb tn an && list_string_eqb tv av then Ok (visited, []) else Err tt
    | ListOf t, ListOf a => Ok (visited, [(t, a)])
    | Object t, Object a => pairs ← refuse (fields_assignable t a); Ok (visited, pairs)
    | Ref tn, Ref an =>
        if negb (String.eqb tn an) then Err tt
        else if existsb (String.eqb tn) visited then Ok (visited, [])
        else
          t ← refuse (bt_get target_named tn);
          a ← refuse (bt_get source_named an);
          pairs ← refuse (fields_assignable (object_fields t) (object_fields a));
          Ok (tn :: visited, pairs)
    | _, _ => Err tt
    end.

(** The pairs pushed before the loop, in order. *)
Definition assignable_pairs (target source : ValueContractCatalog) : option (list (TypeRef * TypeRef)) :=
  root_pairs ← fields_assignable (roots target) (roots source);
  if negb (List.length (named_objects target) =? List.length (named_objects source))%nat then None
  else
    named ← map_option (fun no : string * ValueObjectContract =>
              source_object ← bt_get (named_objects source) no.1;
              fields_assignable (object_fields no.2) (object_fields source_object)) (named_objects target);
    Some (root_pairs ++ List.concat named).

Definition assignable_walk (target source : ValueContractCatalog) (pairs : list (TypeRef * TypeRef)) :
    option (result unit (list string)) :=
  pop_loop (assignable_step (named_objects target) (named_objects source))
    (S (fields_count (roots target) + 2 * named_count (named_objects target))) [] (rev pairs).

Definition is_assignable_from (target source : ValueContractCatalog) : bool :=
  if negb (is_ok (validate_definitions target)) || negb (is_ok (validate_definitions source)) then false
  else
    match assignable_pairs target source with
    | None => false
    | Some pairs =>
        match assignable_walk target source pairs with
        | Some r => is_ok r
        | None => false
        end
    end.
