(* ===== verification/ContractValidity.v ===== *)
(** * What a value contract accepts ([crates/value-contract/src/lib.rs])

    The typing relation that [validate] decides, and that assignability of one
    catalog to another carries every value over. *)
From S2P Require Import Prelude Json ValueContract.
Set Warnings "-register-all".

(** ** Well-formed maps *)

Section TypeInd.
Variable P : TypeRef -> Prop.
Hypothesis Hscalar : forall n s, P (TypeRef_new n (Scalar s)).
Hypothesis Henum : forall n name values, P (TypeRef_new n (Enum name values)).
Hypothesis Hobject : forall n fields, Forall (fun nf => P (type_ref nf.2)) fields -> P (TypeRef_new n (Object fields)).
Hypothesis Hlist : forall n element, P element -> P (TypeRef_new n (ListOf element)).
Hypothesis Href : forall n name, P (TypeRef_new n (Ref name)).

Fixpoint TypeRef_ind' (t : TypeRef) : P t :=
  match t with
  | TypeRef_new n (Scalar s) => Hscalar n s
  | TypeRef_new n (Enum name values) => Henum n name values
  | TypeRef_new n (Object fields) =>
      Hobject n fields ((fix go l := match l return Forall (fun nf => P (type_ref nf.2)) l with
        | [] => @List.Forall_nil _ _
        | nf :: l => @List.Forall_cons _ _ nf l
                       (match nf.2 as f return P (type_ref f) with Field_new _ t => TypeRef_ind' t end) (go l)
        end) fields)
  | TypeRef_new n (ListOf element) => Hlist n element (TypeRef_ind' element)
  | TypeRef_new n (Ref name) => Href n name
  end.
End TypeInd.

Section ValueInd.
Variable P : TypedValue -> Prop.
Hypothesis Hleaf : forall v, match v with List_ _ | Object_ _ => False | _ => True end -> P v.
Hypothesis Hlist : forall l, Forall P l -> P (List_ l).
Hypothesis Hobject : forall o, Forall (fun nv => P nv.2) o -> P (Object_ o).

Fixpoint TypedValue_ind' (v : TypedValue) : P v :=
  match v with
  | List_ l => Hlist l ((fix go l := match l return Forall P l with
      | [] => @List.Forall_nil _ _
      | v :: l => @List.Forall_cons _ _ v l (TypedValue_ind' v) (go l)
      end) l)
  | Object_ o => Hobject o ((fix go o := match o return Forall (fun nv => P nv.2) o with
      | [] => @List.Forall_nil _ _
      | nv :: o => @List.Forall_cons _ _ nv o (TypedValue_ind' nv.2) (go o)
      end) o)
  | Null => Hleaf Null I
  | Boolean b => Hleaf (Boolean b) I
  | Text s => Hleaf (Text s) I
  | Number n => Hleaf (Number n) I
  | InlineBytes b => Hleaf (InlineBytes b) I
  end.
End ValueInd.

(** The names of the fields of a type, at every level, are distinct: its maps
    are maps. *)
Fixpoint type_wf (t : TypeRef) : Prop :=
  match t with
  | TypeRef_new _ (Object fields) =>
      NoDup (map fst fields)
      /\ fold_right and True (map (fun nf => match nf.2 with Field_new _ t => type_wf t end) fields)
  | TypeRef_new _ (ListOf element) => type_wf element
  | _ => True
  end.

Definition fields_wf (fields : Fields) : Prop :=
  NoDup (map fst fields) /\ Forall (fun nf => type_wf (type_ref nf.2)) fields.

Definition catalog_wf (c : ValueContractCatalog) : Prop :=
  fields_wf (roots c) /\ NoDup (map fst (named_objects c))
  /\ Forall (fun no => fields_wf (object_fields no.2)) (named_objects c).

(** The numbers of a value are in the range of their representation. *)
Definition number_wf (v : TypedValue) : Prop :=
  match v with
  | Number (I64 z) => i64_min <= z <= i64_max
  | Number (U64 z) => 0 <= z <= u64_max
  | _ => True
  end.

(** Maps are maps and numbers are in range, at every level. *)
Fixpoint value_wf (v : TypedValue) : Prop :=
  match v with
  | List_ l => fold_right and True (map value_wf l)
  | Object_ o => NoDup (map fst o) /\ fold_right and True (map (fun nv => value_wf nv.2) o)
  | _ => number_wf v
  end.

Lemma fold_and_iff {A} (P : A -> Prop) l : fold_right and True (map P l) <-> Forall P l.
Proof. induction l as [|x l IH]; cbn; [by split|]. by rewrite IH, List.Forall_cons_iff. Qed.

Lemma type_wf_object n fields : type_wf (TypeRef_new n (Object fields)) <-> fields_wf fields.
Proof.
  cbn. unfold fields_wf. rewrite (fold_and_iff (fun nf : string * ValueContractField => match nf.2 with Field_new _ t => type_wf t end)).
  by setoid_rewrite <-(fold_and_iff (fun nf : string * ValueContractField => type_wf (type_ref nf.2))); rewrite <-fold_and_iff;
     replace (map (fun nf => match nf.2 with Field_new _ t => type_wf t end) fields) with (map (fun nf => type_wf (type_ref nf.2)) fields)
       by (apply map_ext; intros [? []]; done).
Qed.

Lemma type_count_object n fields : type_count (TypeRef_new n (Object fields)) = S (fields_count fields).
Proof. cbn. unfold fields_count. do 2 f_equal. apply map_ext. by intros [? []]. Qed.

Lemma type_wf_at n vt : type_wf (TypeRef_new n vt) -> forall m, type_wf (TypeRef_new m vt).
Proof. by destruct vt. Qed.

(** ** The definitions of a catalog *)

(** Enumerations list distinct values, at least one, and references are to known
    objects. *)
Inductive type_defined (named : btree ValueObjectContract) : TypeRef -> Prop :=
| defined_scalar n s : type_defined named (TypeRef_new n (Scalar s))
| defined_enum n name values :
    values <> [] -> NoDup values -> type_defined named (TypeRef_new n (Enum name values))
| defined_object n fields :
    Forall (type_defined named) (field_types fields) -> type_defined named (TypeRef_new n (Object fields))
| defined_list n element : type_defined named element -> type_defined named (TypeRef_new n (ListOf element))
| defined_ref n name : In name (map fst named) -> type_defined named (TypeRef_new n (Ref name)).

Lemma first_duplicate_None seen values :
  first_duplicate seen values = None <-> Forall (fun v => ~ In v seen) values /\ NoDup values.
Proof.
  revert seen. induction values as [|v values IH]; intros seen; cbn; [split; [by split; constructor|done]|].
  destruct (existsb (String.eqb v) seen) eqn:Hs.
  - split; [done|]. intros [H _]. inversion H as [|? ? Hv _]; subst. contradict Hv.
    apply existsb_exists in Hs as (w & Hw & ->%String.eqb_eq). done.
  - rewrite IH, NoDup_cons, List.Forall_cons_iff, list_elem_of_In.
    assert (Hv : ~ In v seen).
    { intros Hin. rewrite (proj2 (existsb_exists _ _)) in Hs; [done|]. exists v. by rewrite String.eqb_refl. }
    rewrite !List.Forall_forall. split.
    + intros [H1 H2]. split; [split; [done|]|split; [|done]].
      * intros w Hw Hin. apply (H1 w Hw), in_app_iff. by left.
      * intros Hin. apply (H1 v Hin), in_app_iff. right. by left.
    + intros [[_ H2] [H3 H4]]. split; [|done]. intros w Hw [Hin|[->|[]]]%in_app_iff; [by apply (H2 w)|done].
Qed.

Lemma bt_contains_In {A} (m : btree A) k : bt_contains m k = true <-> In k (map fst m).
Proof.
  unfold bt_contains. destruct (bt_get m k) eqn:E.
  - split; [|done]. intros _. apply in_map_iff. exists (k, a). split; [done|]. by apply bt_get_In.
  - apply bt_get_None in E. by split.
Qed.

Lemma definitions_step_spec named t :
  type_defined named t <-> exists l, definitions_step named t = Ok l /\ Forall (type_defined named) l.
Proof.
  split.
  - destruct 1 as [n s|n name values Hne Hnd|n fields Hf|n element He|n name Hin]; cbn; eauto.
    + destruct values as [|v values]; [done|]. pose proof (first_duplicate_None [] (v :: values)) as [_ H].
      rewrite H; [eauto|]. split; [|done]. apply List.Forall_forall. auto.
    + apply bt_contains_In in Hin. rewrite Hin. eauto.
  - intros (l & Hl & Hall). destruct t as [n [s|name values|fields|element|name]]; cbn in Hl.
    + constructor.
    + destruct values as [|v values]; [done|]. destruct (first_duplicate [] (v :: values)) eqn:E; [done|].
      apply first_duplicate_None in E as [_ Hnd]. by constructor.
    + injection Hl as <-. by constructor.
    + injection Hl as <-. constructor. by inversion Hall.
    + destruct (bt_contains named name) eqn:E; [|done]. constructor. by apply bt_contains_In.
Qed.

Lemma definitions_step_size named t l :
  definitions_step named t = Ok l -> (list_sum (map type_count l) < type_count t)%nat.
Proof.
  destruct t as [n [s|name values|fields|element|name]]; unfold definitions_step; cbn [value_type]; intros H.
  3: { injection H as <-. rewrite type_count_object, map_map. unfold fields_count. lia. }
  all: repeat case_match; try done; injection H as <-; cbn; lia.
Qed.

Definition catalog_defined (c : ValueContractCatalog) : Prop :=
  Forall (type_defined (named_objects c)) (catalog_types c).

Lemma list_sum_rev l : list_sum (rev l) = list_sum l.
Proof. induction l as [|x l IH]; [done|]. cbn [rev]. rewrite list_sum_app, IH, !list_sum_cons. change (list_sum []) with 0%nat. lia. Qed.

Lemma catalog_types_count c :
  list_sum (map type_count (catalog_types c)) = (fields_count (roots c) + named_count (named_objects c))%nat.
Proof.
  unfold catalog_types, named_count, fields_count, field_types. rewrite map_app, list_sum_app, map_map. f_equal.
  induction (named_objects c) as [|no named IH]; [done|]. cbn [flat_map map]. by rewrite map_app, list_sum_app, list_sum_cons, IH, map_map.
Qed.

(** The definitions are accepted exactly when they are well defined. *)
Lemma validate_definitions_spec c : validate_definitions c = Ok tt <-> catalog_defined c.
Proof.
  unfold validate_definitions. set (named := named_objects c).
  destruct (check_loop_total (definitions_step named) (fun _ => True) type_count
    (S (fields_count (roots c) + named_count named)) (rev (catalog_types c))) as [r Hr].
  - intros t l _ Hl. split; [by apply List.Forall_forall|]. by eapply definitions_step_size.
  - by apply List.Forall_forall.
  - rewrite map_rev, list_sum_rev, catalog_types_count. fold named. lia.
  - unfold validate_definitions_walk. fold named. rewrite Hr.
    eapply (check_loop_Ok _ (fun _ => True) (type_defined named)) in Hr;
      [|intros; by apply List.Forall_forall|intros; apply definitions_step_spec|by apply List.Forall_forall].
    rewrite Hr. unfold catalog_defined. fold named.
    split; intros H%List.Forall_rev; [by rewrite rev_involutive in H|done].
Qed.

(** ** Validity *)

(** The integer a number denotes. *)
Definition integer_value (n : CanonicalNumber) : option Z :=
  match n with I64 z | U64 z => Some z | Decimal _ => None end.

(** No inline bytes anywhere. *)
Fixpoint json_value (v : TypedValue) : Prop :=
  match v with
  | List_ l => fold_right and True (map json_value l)
  | Object_ o => fold_right and True (map (fun nv => json_value nv.2) o)
  | InlineBytes _ => False
  | _ => True
  end.

(** A value of a scalar type. *)
Definition scalar_valid (s : ValueScalar) (v : TypedValue) : Prop :=
  match s, v with
  | SBoolean, Boolean _ | SString, Text _ | SDecimal, Number _ => True
  | SInt32, Number n => exists z, integer_value n = Some z /\ i32_min <= z <= i32_max
  | SInt64, Number n => exists z, integer_value n = Some z /\ i64_min <= z <= i64_max
  | SUInt64, Number n => exists z, integer_value n = Some z /\ 0 <= z <= u64_max
  | SUuid, Text s => valid_canonical_uuid s = true
  | SDate, Text s => valid_date s = true
  | STimestamp, Text s => valid_timestamp s false = true
  | STimestampTz, Text s => valid_timestamp s true = true
  | SJson, v => json_value v
  | SCustom _, (Boolean _ | Text _ | Number _) => True
  | _, _ => False
  end.

(** The members are known fields, and every required field is there. *)
Definition members_fit (o : btree TypedValue) (fields : Fields) : Prop :=
  (forall f, In f (map fst o) -> In f (map fst fields))
  /\ (forall f field, In (f, field) fields -> required field = true -> In f (map fst o)).

(** A value is of a type: [null] of a nullable one, any other value according to
    the shape of the type, whose references name objects. *)
Inductive valid (named : btree ValueObjectContract) : TypedValue -> TypeRef -> Prop :=
| valid_null t : nullable t = true -> valid named Null t
| valid_scalar v n s : v <> Null -> scalar_valid s v -> valid named v (TypeRef_new n (Scalar s))
| valid_enum s n name values : In s values -> valid named (Text s) (TypeRef_new n (Enum name values))
| valid_list l n element : Forall (fun v => valid named v element) l -> valid named (List_ l) (TypeRef_new n (ListOf element))
| valid_object o n fields :
    members_fit o fields ->
    (forall f field v, In (f, field) fields -> bt_get o f = Some v -> valid named v (type_ref field)) ->
    valid named (Object_ o) (TypeRef_new n (Object fields))
| valid_ref o n name object :
    bt_get named name = Some object -> members_fit o (object_fields object) ->
    (forall f field v, In (f, field) (object_fields object) -> bt_get o f = Some v -> valid named v (type_ref field)) ->
    valid named (Object_ o) (TypeRef_new n (Ref name)).

(** *** Scalars *)

Lemma json_shape_spec v : valid_json_shape v = true <-> json_value v.
Proof.
  unfold valid_json_shape, json_shape_walk.
  assert (Hsize : forall v l, json_shape_step v = Ok l -> (list_sum (map value_count l) < value_count v)%nat).
  { intros [] l H; cbn in H; try done; injection H as <-; cbn; rewrite ?map_map; lia. }
  destruct (check_loop_total json_shape_step (fun _ => True) value_count (S (value_count v)) [v]) as [r Hr].
  - intros x l _ Hl. split; [by apply List.Forall_forall|by apply Hsize].
  - by constructor.
  - cbn. lia.
  - rewrite Hr. pose proof Hr as Hok. eapply (check_loop_Ok _ (fun _ => True) json_value) in Hok.
    + transitivity (r = Ok tt); [by destruct r as [[]|]|]. rewrite Hok, List.Forall_cons_iff. split; [by intros []|done].
    + intros; by apply List.Forall_forall.
    + intros x _. destruct x as [| | | |l|o|]; cbn [json_shape_step json_value];
        try (split; [intros _; eexists; split; [done|constructor]|done]).
      * rewrite fold_and_iff. split; [eauto|]. by intros (l' & [= <-] & H).
      * rewrite (fold_and_iff (fun nv : string * TypedValue => json_value nv.2)). split.
        -- intros H. eexists. split; [done|]. by rewrite List.Forall_map.
        -- intros (l' & [= <-] & H). by rewrite List.Forall_map in H.
      * split; [done|]. by intros (l & [=] & _).
    + by constructor.
Qed.

Lemma guard_iff {E} (b : bool) (e : E) : (if b then Ok tt else Err e) = Ok tt <-> b = true.
Proof. by destruct b. Qed.

Lemma some_iff {A} (P : A -> Prop) x : (exists y, Some x = Some y /\ P y) <-> P x.
Proof. split; [by intros (y & [= <-] & H)|eauto]. Qed.

Lemma none_iff {A} (P : A -> Prop) : (exists y, None = Some y /\ P y) <-> False.
Proof. by split; [intros (y & [=] & _)|]. Qed.

Lemma validate_scalar_spec v s : number_wf v -> validate_scalar v s = Ok tt <-> scalar_valid s v.
Proof.
  intros Hwf. unfold validate_scalar, scalar_valid. cbv zeta. rewrite guard_iff.
  destruct s; destruct v as [| | |[z|z|t]| | |]; cbn [integer_value number_wf] in *;
    rewrite ?some_iff, ?none_iff, ?json_shape_spec; unfold in_i32, in_range, i32_min, i32_max, i64_min, i64_max, u64_max in *;
    try done; lia.
Qed.

(** *** Fields *)

(** What [push_fields] pushes when it succeeds. *)
Definition present (values : btree TypedValue) (fields : Fields) : list (TypedValue * TypeRef) :=
  flat_map (fun nf => match bt_get values nf.1 with
                      | Some value => [(value, type_ref nf.2)]
                      | None => []
                      end) fields.

Lemma push_fold_Ok values fields acc l :
  fold_result (fun pushed (nf : string * ValueContractField) =>
    match bt_get values nf.1 with
    | Some value => Ok (pushed ++ [(value, type_ref nf.2)])
    | None =>
        if required nf.2 then Err (InvalidValue ("required field `" +:+ nf.1 +:+ "` is missing")) else Ok pushed
    end) acc fields = Ok l
  <-> l = acc ++ present values fields
      /\ forall f field, In (f, field) fields -> required field = true -> In f (map fst values).
Proof.
  revert acc. induction fields as [|[f field] fields IH]; intros acc; cbn [fold_result present flat_map fst snd].
  - rewrite app_nil_r. split; [intros [= <-]; by split|by intros [-> _]].
  - fold (present values fields). destruct (bt_get values f) as [v|] eqn:Ev.
    + rewrite IH, <-app_assoc. cbn. split; intros [-> H]; (split; [done|]); intros g field' Hin Hr; [|by eapply H; [right|]].
      destruct Hin as [[= <- <-]|Hin]; [|by eapply H]. apply in_map_iff. exists (f, v). split; [done|by apply bt_get_In].
    + destruct (required field) eqn:Er.
      * split; [done|]. intros [_ H]. apply bt_get_None in Ev. contradict Ev. by apply (H f field); [left|].
      * rewrite IH. cbn. split; intros [-> H]; (split; [done|]); intros g field' Hin Hr; [|by eapply H; [right|]].
        destruct Hin as [[= <- <-]|Hin]; [congruence|by eapply H].
Qed.

Lemma push_fields_Ok values fields l :
  push_fields values fields = Ok l <-> members_fit values fields /\ l = present values fields.
Proof.
  unfold push_fields, members_fit. split.
  - intros ([] & Hk & Hf)%bind_Ok. apply push_fold_Ok in Hf as [-> Hr]. split; [split; [|done]|done].
    intros f (nv & <- & Hin)%in_map_iff. apply each_result_Ok in Hk. rewrite List.Forall_forall in Hk.
    specialize (Hk nv Hin). cbv beta in Hk. destruct (bt_contains fields nv.1) eqn:E; [|done]. by apply bt_contains_In.
  - intros [[Hk Hr] ->]. rewrite (proj2 (each_result_Ok _ _)).
    + cbn. apply push_fold_Ok. by split.
    + apply List.Forall_forall. intros nv Hin. rewrite (proj2 (bt_contains_In _ _)); [done|]. by apply Hk, in_map.
Qed.

Lemma Forall_present P values fields :
  Forall P (present values fields)
  <-> forall f field v, In (f, field) fields -> bt_get values f = Some v -> P (v, type_ref field).
Proof.
  unfold present. rewrite List.Forall_flat_map, List.Forall_forall. split.
  - intros H f field v Hin Hg. specialize (H _ Hin). cbn in H. rewrite Hg in H. by inversion H.
  - intros H [f field] Hin. cbn. destruct (bt_get values f) eqn:E; [|constructor]. repeat constructor. by eapply H.
Qed.

(** The members of an object are pushed at most once each. *)
Lemma present_size values fields :
  NoDup (map fst fields) -> NoDup (map fst values) ->
  (list_sum (map (fun vt => value_count vt.1) (present values fields))
   <= list_sum (map (fun nv => value_count nv.2) values))%nat.
Proof.
  intros Hf Hv. induction values as [|[k v] values IH].
  - clear. unfold present. induction fields as [|[f field] fields IH]; [done|exact IH].
  - cbn [map fst snd] in *. apply NoDup_cons in Hv as [Hk Hv]. specialize (IH Hv). rewrite list_sum_cons.
    rewrite list_elem_of_In in Hk. apply bt_get_None in Hk.
    enough (list_sum (map (fun vt => value_count vt.1) (present ((k, v) :: values) fields))
      <= (if bt_contains fields k then value_count v else 0)
         + list_sum (map (fun vt => value_count vt.1) (present values fields)))%nat
      by (destruct (bt_contains fields k); lia).
    clear IH. induction fields as [|[f field] fields IHf]; [done|]. cbn [map fst] in Hf.
    apply NoDup_cons in Hf as [Hnf Hf]. specialize (IHf Hf). rewrite list_elem_of_In in Hnf. apply bt_get_None in Hnf.
    unfold present in *. cbn [flat_map bt_get fst snd]. rewrite !map_app, !list_sum_app.
    unfold bt_contains in *. cbn [bt_get] in IHf |- *. destruct (String.eqb_spec f k) as [->|Hne].
    + rewrite String.eqb_refl, Hk, Hnf in *. cbn in *. lia.
    + destruct (String.eqb_spec k f) as [->|_]; [done|]. lia.
Qed.

(** *** The loop *)

Definition pair_wf (vt : TypedValue * TypeRef) : Prop := value_wf vt.1 /\ type_wf vt.2.

Lemma value_wf_get o f v : value_wf (Object_ o) -> bt_get o f = Some v -> value_wf v.
Proof.
  intros [_ Ho] Hg%bt_get_In. rewrite (fold_and_iff (fun nv : string * TypedValue => value_wf nv.2)) in Ho.
  rewrite List.Forall_forall in Ho. by apply (Ho (f, v)).
Qed.

Lemma number_wf_of v : value_wf v -> number_wf v.
Proof. by destruct v. Qed.

Section Loop.
Variable named : btree ValueObjectContract.
Hypothesis named_wf : Forall (fun no => fields_wf (object_fields no.2)) named.

Lemma named_fields_wf name object : bt_get named name = Some object -> fields_wf (object_fields object).
Proof using named_wf. intros Hg%bt_get_In. rewrite List.Forall_forall in named_wf. by apply (named_wf (name, object)). Qed.

Lemma present_wf o fields : value_wf (Object_ o) -> fields_wf fields -> Forall pair_wf (present o fields).
Proof.
  intros Ho [_ Hf]. apply Forall_present. intros f field v Hin Hg. split; [by eapply value_wf_get|].
  rewrite List.Forall_forall in Hf. by apply (Hf (f, field)).
Qed.

Lemma validate_step_shrinks vt l :
  pair_wf vt -> validate_step named vt = Ok l ->
  Forall pair_wf l /\ (list_sum (map (fun vt => value_count vt.1) l) < value_count vt.1)%nat.
Proof using named_wf.
  destruct vt as [v [n vt]]. intros [Hv Ht] H. cbn [fst snd] in *.
  assert (Hobj : forall o fields l, v = Object_ o -> fields_wf fields -> push_fields o fields = Ok l ->
    Forall pair_wf l /\ (list_sum (map (fun vt => value_count vt.1) l) < value_count v)%nat).
  { intros o fields l' -> Hf [_ ->]%push_fields_Ok. split; [by apply present_wf|].
    pose proof (present_size o fields (proj1 Hf) (proj1 Hv)). cbn. lia. }
  assert (Hnil : l = [] -> Forall pair_wf l /\ (list_sum (map (fun vt => value_count vt.1) l) < value_count v)%nat).
  { intros ->. split; [constructor|]. destruct v; cbn; lia. }
  destruct vt as [s|name values|fields|element|name]; cbn [validate_step value_type nullable] in H.
  - apply Hnil. destruct v; [destruct n; [by injection H as <-|done]|..]; apply bind_Ok in H as (? & _ & [= <-]); done.
  - apply Hnil. destruct v; try done; [destruct n; [by injection H as <-|done]|].
    destruct (existsb _ values); [by injection H as <-|done].
  - destruct v as [| | | | |o|]; try done; [apply Hnil; destruct n; [by injection H as <-|done]|].
    eapply Hobj; [done| |exact H]. by apply (type_wf_object n).
  - destruct v as [| | | |vs| |]; try done; [apply Hnil; destruct n; [by injection H as <-|done]|]. injection H as <-.
    rewrite List.Forall_map, map_map. split.
    + cbn in Hv. rewrite fold_and_iff in Hv. eapply List.Forall_impl; [|exact Hv]. by intros.
    + apply Nat.lt_succ_diag_r.
  - destruct v as [| | | | |o|]; [apply Hnil; destruct n; [by injection H as <-|done]|..];
      apply bind_Ok in H as (object & Hg%ok_or_Ok & H); try done.
    eapply Hobj; [done| |exact H]. by eapply named_fields_wf.
Qed.

Lemma validate_step_spec vt :
  pair_wf vt ->
  valid named vt.1 vt.2 <-> exists l, validate_step named vt = Ok l /\ Forall (fun vt => valid named vt.1 vt.2) l.
Proof.
  destruct vt as [v [n vt]]. intros [Hv _]. cbn [fst snd] in *. split.
  - intros H. remember (TypeRef_new n vt) as t eqn:Et.
    destruct H as [t Hn|v n' s Hne Hs|s n' name values Hin|l n' element Hl|o n' fields Hfit Hf|o n' name object Hg Hfit Hf].
    + exists []. cbn. by rewrite Hn.
    + exists []. split; [|constructor]. apply validate_scalar_spec in Hs; [|by apply number_wf_of].
      destruct v; try done; cbn [validate_step value_type]; by rewrite Hs.
    + exists []. split; [|constructor]. cbn. rewrite (proj2 (existsb_exists _ _)); [done|]. exists s. by rewrite String.eqb_refl.
    + eexists. split; [done|]. by rewrite List.Forall_map.
    + exists (present o fields). split; [by apply push_fields_Ok|]. by apply Forall_present.
    + exists (present o (object_fields object)). cbn. rewrite Hg. split; [by apply push_fields_Ok|]. by apply Forall_present.
  - intros (l & Hl & Hall). assert (v = Null \/ v <> Null) as [->|Hne] by (destruct v; auto; by right).
    { constructor. cbn in Hl. by destruct n. }
    destruct vt as [s|name values|fields|element|name]; cbn [validate_step value_type nullable] in Hl.
    + constructor; [done|]. apply validate_scalar_spec; [by apply number_wf_of|].
      destruct v; try done; by apply bind_Ok in Hl as ([] & ? & _).
    + destruct v; try done. destruct (existsb _ values) eqn:E; [|done]. apply existsb_exists in E as (w & Hw & ->%String.eqb_eq).
      by constructor.
    + destruct v as [| | | | |o|]; try done. apply push_fields_Ok in Hl as [Hfit ->]. constructor; [done|].
      by apply (Forall_present (fun vt => valid named vt.1 vt.2)).
    + destruct v as [| | | |vs| |]; try done. injection Hl as <-. constructor. by rewrite List.Forall_map in Hall.
    + destruct v as [| | | | |o|]; try done; apply bind_Ok in Hl as (object & Hg%ok_or_Ok & Hl); try done.
      apply push_fields_Ok in Hl as [Hfit ->]. eapply valid_ref; [done..|].
      by apply (Forall_present (fun vt => valid named vt.1 vt.2)).
Qed.
End Loop.

(** What [validate] accepts. *)
Lemma validate_accepts c v :
  catalog_wf c -> value_wf v ->
  validate c v = Ok tt
  <-> catalog_defined c /\ (exists n, canonical_size v = Ok n)
      /\ valid (named_objects c) v (TypeRef_new false (Object (roots c))).
Proof.
  intros (Hroots & _ & Hnamed) Hv. rewrite <-validate_definitions_spec. unfold validate, validate_walk. split.
  - intros ([] & Hd & (n & Hn & H)%bind_Ok)%bind_Ok. split; [done|]. split; [by exists n|].
    destruct v as [| | | | |o|]; try done. apply bind_Ok in H as (pushed & Hp & H).
    apply push_fields_Ok in Hp as [Hfit ->].
    destruct (check_loop _ _ _) as [r|] eqn:Hr in H; [|done].
    eapply (check_loop_Ok _ pair_wf (fun vt => valid (named_objects c) vt.1 vt.2)) in Hr.
    + apply Hr in H. apply List.Forall_rev in H. rewrite rev_involutive in H. constructor; [done|].
      by apply (Forall_present (fun vt => valid (named_objects c) vt.1 vt.2)).
    + intros x l Hx Hl. by destruct (validate_step_shrinks _ Hnamed x l Hx Hl).
    + intros x Hx. by apply validate_step_spec.
    + by apply List.Forall_rev, present_wf.
  - intros (Hd & [n Hn] & Hvalid). rewrite Hd, Hn. cbn.
    inversion Hvalid as [| | | |o ? ? Hfit Hf|]; subst; [done|]. rewrite (proj2 (push_fields_Ok _ _ _)) by done. cbn.
    destruct (check_loop_total (validate_step (named_objects c)) pair_wf (fun vt => value_count vt.1)
      (S (value_count (Object_ o))) (rev (present o (roots c)))) as [r Hr].
    + intros x l Hx Hl. by apply (validate_step_shrinks _ Hnamed x).
    + by apply List.Forall_rev, present_wf.
    + rewrite map_rev, list_sum_rev. pose proof (present_size o (roots c) (proj1 Hroots) (proj1 Hv)). cbn. lia.
    + pose proof Hr as Ha. cbn in Hr. rewrite Hr. eapply (check_loop_Ok _ pair_wf (fun vt => valid (named_objects c) vt.1 vt.2)) in Ha.
      * apply Ha, List.Forall_rev. by apply (Forall_present (fun vt => valid (named_objects c) vt.1 vt.2)).
      * intros x l Hx Hl. by destruct (validate_step_shrinks _ Hnamed x l Hx Hl).
      * intros x Hx. by apply validate_step_spec.
      * by apply List.Forall_rev, present_wf.
Qed.

(** *** The loops of a validation *)

Lemma definitions_walk_total c : exists r, validate_definitions_walk c = Some r.
Proof.
  apply (check_loop_total _ (fun _ => True) type_count).
  - intros t l _ Hl. split; [by apply List.Forall_forall|]. by eapply definitions_step_size.
  - by apply List.Forall_forall.
  - rewrite map_rev, list_sum_rev, catalog_types_count. lia.
Qed.

Lemma size_step_size s v s' l : size_step s v = Ok (s', l) -> (list_sum (map value_count l) < value_count v)%nat.
Proof.
  intros H. destruct v as [|[]|t|[]|vs|o|i]; cbn [size_step] in H;
    try (repeat (apply bind_Ok in H as (? & _ & H)); injection H as _ <-; cbn; rewrite ?map_map; lia).
  apply bind_Ok in H as (n & _ & H). destruct (_ <? n); [done|]. apply bind_Ok in H as (d & _ & H). destruct (_ <? d); [done|].
  apply bind_Ok in H as (? & _ & H). apply bind_Ok in H as (? & _ & H). injection H as _ <-. cbn. lia.
Qed.

Lemma canonical_size_walk_total v : exists r, canonical_size_walk v = Some r.
Proof.
  eapply (pop_loop_total _ (fun _ _ => True) (fun _ p => list_sum (map value_count p))); [|done|cbn; lia].
  intros s x rest s' l _ H%size_step_size. split; [done|]. rewrite list_sum_rev_append, map_cons, list_sum_cons. lia.
Qed.

Lemma json_shape_walk_total v : exists r, json_shape_walk v = Some r.
Proof.
  apply (check_loop_total _ (fun _ => True) value_count); [|by constructor|cbn; lia].
  intros x l _ H. split; [by apply List.Forall_forall|]. destruct x; cbn in H; try done; injection H as <-; cbn; rewrite ?map_map; lia.
Qed.

Lemma validate_walk_total c o pushed : catalog_wf c -> value_wf (Object_ o) -> push_fields o (roots c) = Ok pushed ->
  exists r, validate_walk c (Object_ o) pushed = Some r.
Proof.
  intros (Hroots & _ & Hnamed) Hv [Hfit ->]%push_fields_Ok. apply (check_loop_total _ pair_wf (fun vt => value_count vt.1)).
  - intros x l Hx Hl. by apply (validate_step_shrinks _ Hnamed x).
  - by apply List.Forall_rev, present_wf.
  - rewrite map_rev, list_sum_rev. pose proof (present_size o (roots c) (proj1 Hroots) (proj1 Hv)). cbn. lia.
Qed.

(** C31: [validate] accepts a value exactly when the definitions of the catalog
    are well formed, the canonical encoding of the value is within the limits
    and the value is an object of the type the roots describe; and it always
    answers: whatever the answer is, the loops over the definitions, the
    canonical encoding, the json values and the pushed fields each end within
    their bound. *)
Theorem validate_spec c v :
  catalog_wf c -> value_wf v ->
  (validate c v = Ok tt
   <-> catalog_defined c /\ (exists n, canonical_size v = Ok n)
       /\ valid (named_objects c) v (TypeRef_new false (Object (roots c))))
  /\ (exists r, validate_definitions_walk c = Some r) /\ (exists r, canonical_size_walk v = Some r)
  /\ (forall w, exists r, json_shape_walk w = Some r)
  /\ (forall o pushed, v = Object_ o -> push_fields o (roots c) = Ok pushed -> exists r, validate_walk c v pushed = Some r).
Proof.
  intros Hc Hv. split; [by apply validate_accepts|]. split; [apply definitions_walk_total|]. split; [apply canonical_size_walk_total|].
  split; [apply json_shape_walk_total|]. intros o pushed ->. by apply validate_walk_total.
Qed.

(** ** Assignability *)

Lemma fields_pairs_Some target source ps :
  fields_pairs target source = Some ps <->
  Forall2 (fun nf p => exists g, bt_get source nf.1 = Some g /\ required nf.2 = required g
                                 /\ p = (type_ref nf.2, type_ref g)) target ps.
Proof.
  revert ps. induction target as [|[f field] target IH]; intros ps; cbn.
  - split; [intros [= <-]; constructor|by inversion 1].
  - split.
    + destruct (bt_get source f) as [g|] eqn:Hg; [|done]. destruct (Bool.eqb _ _) eqn:Hr; [|done].
      apply eqb_prop in Hr. intros (ps' & Hps & [= <-])%bind_Some. constructor; [by exists g|]. by apply IH.
    + inversion 1 as [|? p ? ps' (g & Hg & Hr & ->) Hps]; subst. cbn in Hg, Hr. rewrite Hg, Hr, eqb_reflx.
      cbn. apply IH in Hps. by rewrite Hps.
Qed.

Lemma fields_pairs_count target source ps :
  fields_pairs target source = Some ps -> list_sum (map (fun p => type_count p.1) ps) = fields_count target.
Proof.
  intros H%fields_pairs_Some. unfold fields_count. induction H as [|nf p target ps (g & _ & _ & ->) _ IH]; [done|].
  cbn [map]. by rewrite !list_sum_cons, IH.
Qed.

Lemma fields_assignable_Some target source ps :
  fields_assignable target source = Some ps -> fields_pairs target source = Some ps /\ List.length target = List.length source.
Proof. unfold fields_assignable. destruct (Nat.eqb_spec (List.length target) (List.length source)); [done|done]. Qed.

Section Assignable.
Variables target_named source_named : btree ValueObjectContract.

(** Type counts of the objects not yet visited. *)
Definition unvisited (visited : list string) : nat :=
  list_sum (map (fun no => if existsb (String.eqb no.1) visited then 0 else fields_count (object_fields no.2))%nat target_named).

Lemma unvisited_cons visited name object :
  bt_get target_named name = Some object -> existsb (String.eqb name) visited = false ->
  (unvisited (name :: visited) + fields_count (object_fields object) <= unvisited visited)%nat.
Proof.
  intros Hg%bt_get_In Hv. unfold unvisited.
  assert (Hle : forall l : btree ValueObjectContract,
    (list_sum (map (fun no => if existsb (String.eqb no.1) (name :: visited) then 0 else fields_count (object_fields no.2)) l)
     <= list_sum (map (fun no => if existsb (String.eqb no.1) visited then 0 else fields_count (object_fields no.2)) l))%nat).
  { induction l as [|no l IH]; [done|]. cbn [map]. rewrite !list_sum_cons. cbn [existsb] in *.
    destruct (String.eqb no.1 name), (existsb (String.eqb no.1) visited); cbn [orb] in *; lia. }
  induction target_named as [|no l IH]; [done|]. cbn [map]. rewrite !list_sum_cons. destruct Hg as [->|Hg].
  - specialize (Hle l). cbn [fst snd existsb] in *. rewrite String.eqb_refl, Hv. cbn [orb]. lia.
  - specialize (IH Hg). cbn [existsb] in *. destruct (String.eqb no.1 name), (existsb (String.eqb no.1) visited); cbn [orb] in *; lia.
Qed.

Lemma assignable_total fuel visited pending :
  (list_sum (map (fun p => type_count p.1) pending) + unvisited visited < fuel)%nat ->
  exists r, pop_loop (assignable_step target_named source_named) fuel visited pending = Some r.
Proof.
  intros Hf. eapply (pop_loop_total _ (fun _ _ => True)
    (fun visited p => list_sum (map (fun p => type_count p.1) p) + unvisited visited)%nat); [|done|exact Hf].
  intros s [[n t] [m a]] rest s' l _ H. split; [done|]. rewrite list_sum_rev_append, map_cons, list_sum_cons. cbn [fst].
  unfold assignable_step in H. cbn [nullable value_type] in H. destruct (negb (Bool.eqb n m)); [done|].
  assert (Hobj : forall f g ps k, refuse (fields_assignable f g) = Ok ps ->
    (fields_count f <= k)%nat -> (list_sum (map (fun p => type_count p.1) ps) <= k)%nat).
  { intros f g ps k Hp%ok_or_Ok%fields_assignable_Some Hk. destruct Hp as [Hp%fields_pairs_count _]. lia. }
  assert (Hpos : (1 <= type_count (TypeRef_new n t))%nat) by (destruct t; cbn; lia).
  destruct t as [sc|tn tv|f|t|tn], a as [sc'|an av|g|a|an]; try done;
    try (destruct sc; try done; injection H as <- <-; cbn [map list_sum fold_right]; lia).
  - destruct sc; try (injection H as <- <-; cbn [map list_sum fold_right]; lia);
      (destruct (scalar_eqb _ _) in H; [injection H as <- <-; cbn [map list_sum fold_right]; lia|done]).
  - destruct (_ && _) in H; [|done]. injection H as <- <-. cbn [map list_sum fold_right]. lia.
  - apply bind_Ok in H as (ps & Hp & [= <- <-]). rewrite type_count_object.
    pose proof (Hobj _ _ _ _ Hp (le_n _)). lia.
  - injection H as <- <-. cbn. lia.
  - destruct (negb (String.eqb tn an)); [done|]. destruct (existsb (String.eqb tn) s) eqn:Hv.
    + injection H as <- <-. cbn [map list_sum fold_right]. lia.
    + apply bind_Ok in H as (t & Ht%ok_or_Ok & H). apply bind_Ok in H as (a & _ & H). apply bind_Ok in H as (ps & Hp & [= <- <-]).
      pose proof (Hobj _ _ _ _ Hp (le_n _)). pose proof (unvisited_cons _ _ _ Ht Hv). cbn [type_count]. lia.
Qed.
End Assignable.

(** No value of a contract contains inline bytes. *)
Lemma valid_json_value named v : value_wf v -> forall t, valid named v t -> json_value v.
Proof.
  induction v as [v Hl|l IH|o IH] using TypedValue_ind'; intros Hwf t H.
  - destruct v; try done. inversion H as [|? ? s _ Hs| | | |]; subst. by destruct s.
  - cbn [value_wf json_value] in *. rewrite fold_and_iff in Hwf |- *. inversion H as [|? ? s _ Hs| |? ? element Hel| |]; subst.
    { destruct s; try done. cbn in Hs. by rewrite fold_and_iff in Hs. }
    rewrite List.Forall_forall in *. intros v Hv. by apply (IH v Hv (Hwf v Hv) element), Hel.
  - cbn [value_wf json_value] in *. destruct Hwf as [Hnd Hwf].
    rewrite (fold_and_iff (fun nv : string * TypedValue => value_wf nv.2)) in Hwf.
    rewrite (fold_and_iff (fun nv : string * TypedValue => json_value nv.2)).
    assert (Hmem : forall fields, members_fit o fields ->
      (forall f field v, In (f, field) fields -> bt_get o f = Some v -> valid named v (type_ref field)) ->
      Forall (fun nv => json_value nv.2) o).
    { intros fields [Hk _] Hf. rewrite List.Forall_forall in *. intros [f v] Hin.
      assert (Hn : In f (map fst fields)) by (apply Hk, in_map_iff; by exists (f, v)).
      apply in_map_iff in Hn as ([? field] & [= ->] & Hn).
      apply (IH _ Hin (Hwf _ Hin) (type_ref field)), (Hf f); [done|]. by apply bt_In_get. }
    inversion H as [|? ? s _ Hs| | |? ? fields Hfit Hf|? ? name object _ Hfit Hf]; subst.
    { destruct s; try done. cbn in Hs. by rewrite (fold_and_iff (fun nv : string * TypedValue => json_value nv.2)) in Hs. }
    all: by eapply Hmem.
Qed.

Section Closed.
Variables target_named source_named : btree ValueObjectContract.

(** The requirement on a pair, its components being in [S]. *)
Definition pair_ok (S : list (TypeRef * TypeRef)) (p : TypeRef * TypeRef) : Prop :=
  let fields t a := exists ps, fields_assignable t a = Some ps /\ incl ps S in
  nullable p.1 = nullable p.2 /\
  match value_type p.1, value_type p.2 with
  | Scalar SJson, _ => True
  | Scalar t, Scalar a => t = a
  | Enum tn tv, Enum an av => tv = av
  | ListOf t, ListOf a => In (t, a) S
  | Object t, Object a => fields t a
  | Ref tn, Ref an =>
      exists t a, bt_get target_named tn = Some t /\ bt_get source_named an = Some a
                  /\ fields (object_fields t) (object_fields a)
  | _, _ => False
  end.

Lemma pair_ok_incl S S' p : incl S S' -> pair_ok S p -> pair_ok S' p.
Proof.
  intros Hi [Hn H]. split; [done|]. destruct (value_type p.1) as [[]| | | |], (value_type p.2) as [[]| | | |]; try done; auto.
  - destruct H as (ps & Hp & H). exists ps. split; [done|]. by eapply incl_tran.
  - destruct H as (t & a & Ht & Ha & ps & Hp & H). exists t, a. split_and!; [done..|]. exists ps. split; [done|]. by eapply incl_tran.
Qed.

Lemma scalar_eqb_eq a b : scalar_eqb a b = true -> a = b.
Proof. destruct a, b; try done. by intros ->%String.eqb_eq. Qed.

Hypothesis named_wf : Forall (fun no => fields_wf (object_fields no.2)) target_named.

Lemma fields_assignable_wf target source ps :
  fields_wf target -> fields_assignable target source = Some ps -> Forall (fun p => type_wf p.1) ps.
Proof using.
  intros [_ Hf] [Hp%fields_pairs_Some _]%fields_assignable_Some.
  induction Hp as [|nf p target ps (g & _ & _ & ->) _ IH]; constructor; inversion Hf; auto.
Qed.

Lemma assignable_step_wf visited x visited' l :
  type_wf x.1 -> assignable_step target_named source_named visited x = Ok (visited', l) -> Forall (fun p => type_wf p.1) l.
Proof using named_wf.
  destruct x as [[n t] [m a]]. unfold assignable_step. cbn [nullable value_type fst].
  destruct (negb (Bool.eqb n m)); [done|]. intros Hwf.
  destruct t as [sc|tn tv|f|t|tn], a as [sc'|an av|g|a|an]; try done; try (by destruct sc; try done; intros [= <- <-]).
  - destruct sc; try (by intros [= <- <-]); (destruct (scalar_eqb _ _); [|done]; by intros [= <- <-]).
  - destruct (_ && _); [|done]. by intros [= <- <-].
  - intros (ps & Hp%ok_or_Ok & [= <- <-])%bind_Ok. eapply fields_assignable_wf; [|done]. by apply type_wf_object in Hwf.
  - intros [= <- <-]. by constructor.
  - destruct (negb _); [done|]. destruct (existsb _ _); [by intros [= <- <-]|].
    intros (t & Ht%ok_or_Ok & (a & Ha%ok_or_Ok & (ps & Hp%ok_or_Ok & [= <- <-])%bind_Ok)%bind_Ok)%bind_Ok.
    eapply fields_assignable_wf; [|done]. by eapply named_fields_wf.
Qed.

(** Everything the walk sees is in a set that meets the requirement. *)
Definition walk_inv (initial : list (TypeRef * TypeRef)) (visited : list string) (pending : list (TypeRef * TypeRef)) : Prop :=
  exists seen, incl initial (seen ++ pending) /\ Forall (fun p => type_wf p.1) (seen ++ pending)
    /\ Forall (pair_ok (seen ++ pending)) seen
    /\ Forall (fun name => pair_ok (seen ++ pending) (TypeRef_new false (Ref name), TypeRef_new false (Ref name))) visited.

Lemma walk_inv_step initial visited x rest visited' l :
  walk_inv initial visited (x :: rest) -> assignable_step target_named source_named visited x = Ok (visited', l) ->
  walk_inv initial visited' (rev_append l rest).
Proof.
  intros (seen & Hi & Hw & Hs & Hv) Hstep. exists (x :: seen).
  assert (Hsub : incl (seen ++ x :: rest) ((x :: seen) ++ rev_append l rest)).
  { intros y. rewrite rev_append_rev. cbn. rewrite !in_app_iff. cbn. tauto. }
  assert (Hl : incl l ((x :: seen) ++ rev_append l rest)).
  { intros y. rewrite rev_append_rev. cbn. rewrite !in_app_iff, <-in_rev. tauto. }
  split; [by eapply incl_tran|]. split.
  { apply Forall_app in Hw as [Hw [Hx Hrest]%List.Forall_cons_iff]. apply Forall_app. split; [by constructor|].
    apply Forall_rev_append. split; [|done]. by eapply assignable_step_wf. }
  enough (pair_ok ((x :: seen) ++ rev_append l rest) x
          /\ Forall (fun name => pair_ok ((x :: seen) ++ rev_append l rest)
                       (TypeRef_new false (Ref name), TypeRef_new false (Ref name))) visited') as [Hx Hv'].
  { split; [|done]. constructor; [done|]. eapply List.Forall_impl; [|exact Hs]. intros p. by apply pair_ok_incl. }
  assert (Hold : Forall (fun name => pair_ok ((x :: seen) ++ rev_append l rest)
                       (TypeRef_new false (Ref name), TypeRef_new false (Ref name))) visited).
  { eapply List.Forall_impl; [|exact Hv]. intros p. by apply pair_ok_incl. }
  clear Hs Hi Hv Hw Hsub. remember ((x :: seen) ++ rev_append l rest) as all eqn:Eall. clear Eall.
  destruct x as [[n t] [m a]]. unfold assignable_step in Hstep. cbn [nullable value_type] in Hstep.
  unfold pair_ok at 1. cbn [fst snd nullable value_type].
  destruct (Bool.eqb n m) eqn:En; [|done]. apply eqb_prop in En as ->. cbn [negb] in Hstep.
  destruct t as [sc|tn tv|f|t|tn], a as [sc'|an av|g|a|an]; try done; try (by destruct sc; try done; injection Hstep as <- <-).
  - destruct sc; try (by injection Hstep as <- <-);
      (destruct (scalar_eqb _ _) eqn:E in Hstep; [|done]; apply scalar_eqb_eq in E as <-; by injection Hstep as <- <-).
  - destruct (_ && _) eqn:E in Hstep; [|done]. injection Hstep as <- <-. apply andb_true_iff in E as [_ E].
    split; [split; [done|]|done]. by apply string_list_eqb_spec in E.
  - apply bind_Ok in Hstep as (ps & Hp%ok_or_Ok & [= <- <-]). split; [|done]. split; [done|]. by exists ps.
  - injection Hstep as <- <-. split; [|done]. split; [done|]. by apply Hl; left.
  - destruct (String.eqb_spec tn an) as [<-|]; [|done]. cbn [negb] in Hstep. destruct (existsb (String.eqb tn) visited) eqn:E.
    + injection Hstep as <- <-. split; [|done]. apply existsb_exists in E as (w & Hw & ->%String.eqb_eq).
      rewrite List.Forall_forall in Hold. split; [done|]. by apply (Hold w Hw).
    + apply bind_Ok in Hstep as (t & Ht%ok_or_Ok & H). apply bind_Ok in H as (a & Ha%ok_or_Ok & H).
      apply bind_Ok in H as (ps & Hp%ok_or_Ok & [= <- <-]).
      assert (Hr : exists t a, bt_get target_named tn = Some t /\ bt_get source_named tn = Some a
        /\ exists ps, fields_assignable (object_fields t) (object_fields a) = Some ps /\ incl ps all)
        by (exists t, a; split_and!; [done..|]; by exists ps).
      split; [by split|]. constructor; [by split|done].
Qed.
End Closed.

Lemma Forall2_In_l {A B} (P : A -> B -> Prop) l k x : Forall2 P l k -> In x l -> exists y, In y k /\ P x y.
Proof. induction 1 as [|y z l k Hp _ IH]; [done|]. intros [->|Hin]; [exists z; by split; [left|]|]. destruct (IH Hin) as (w & ? & ?). exists w. by split; [right|]. Qed.

(** A source with as many fields as the target, all of whose names it has, has
    no other. *)
Lemma fields_assignable_names target source ps :
  NoDup (map fst target) -> fields_assignable target source = Some ps ->
  forall f, In f (map fst source) -> In f (map fst target).
Proof.
  intros Hnd [Hp Hlen]%fields_assignable_Some. apply (NoDup_length_incl (l := map fst target)).
  - by apply NoDup_ListNoDup.
  - by rewrite !length_map, Hlen.
  - intros f (nf & <- & Hin)%in_map_iff. apply fields_pairs_Some in Hp.
    destruct (Forall2_In_l _ _ _ _ Hp Hin) as (p & _ & g & Hg & _).
    apply in_map_iff. exists (nf.1, g). split; [done|]. by apply bt_get_In.
Qed.

Section Sound.
Variables target_named source_named : btree ValueObjectContract.
Variable S : list (TypeRef * TypeRef).
Hypothesis S_closed : Forall (pair_ok target_named source_named S) S.
Hypothesis S_wf : Forall (fun p => type_wf p.1) S.
Hypothesis named_wf : Forall (fun no => fields_wf (object_fields no.2)) target_named.

Lemma members_sound o target source ps :
  fields_wf target -> fields_assignable target source = Some ps -> incl ps S ->
  Forall (fun nv => forall t a, In (t, a) S -> value_wf nv.2 -> valid source_named nv.2 a -> valid target_named nv.2 t) o ->
  value_wf (Object_ o) -> members_fit o source ->
  (forall f field v, In (f, field) source -> bt_get o f = Some v -> valid source_named v (type_ref field)) ->
  members_fit o target
  /\ (forall f field v, In (f, field) target -> bt_get o f = Some v -> valid target_named v (type_ref field)).
Proof.
  intros [Hnd _] Hfa Hsub IH Hwf [Hk Hr] Hf.
  assert (Hpair : forall f field, In (f, field) target -> exists g, In (f, g) source
    /\ required field = required g /\ In (type_ref field, type_ref g) S).
  { intros f field Hin. apply fields_assignable_Some in Hfa as [Hp%fields_pairs_Some _].
    destruct (Forall2_In_l _ _ _ _ Hp Hin) as (p & Hps & g & Hg%bt_get_In & Hreq & ->). exists g. split_and!; [done..|].
    by apply Hsub. }
  split; [split|].
  - intros f Hin. eapply fields_assignable_names; [done..|]. by apply Hk.
  - intros f field (g & Hg & Hreq & _)%Hpair Ht. eapply Hr; [done|]. by rewrite <-Hreq.
  - intros f field v (g & Hg & _ & Hin)%Hpair Hv. rewrite List.Forall_forall in IH.
    apply (IH (f, v) (bt_get_In _ _ _ Hv) _ _ Hin); [by eapply value_wf_get|]. by eapply Hf.
Qed.

Lemma pairs_sound v t a :
  In (t, a) S -> value_wf v -> valid source_named v a -> valid target_named v t.
Proof.
  revert t a. induction v as [v Hleaf|l IH|o IH] using TypedValue_ind'; intros t a Hin Hwf H;
    pose proof (valid_json_value _ _ Hwf _ H) as Hjson;
    pose proof (proj1 (List.Forall_forall _ _) S_closed _ Hin) as [Hn Hok]; cbn [fst snd] in *;
    pose proof (proj1 (List.Forall_forall _ _) S_wf _ Hin) as Htwf; cbn [fst] in Htwf;
    destruct t as [n t]; cbn [nullable value_type] in *.
  all: inversion H as [a' Hnull|? m s Hne Hs|s m name values Hv|l' m element Hl|o' m fields Hfit Hf
                      |o' m name object Hg Hfit Hf]; subst; cbn [nullable value_type] in *.
  all: try (by constructor; congruence); try done.
  all: destruct t as [sc|tn tv|fs|te|tn]; try done.
  all: try (by apply valid_null).
  all: try (apply valid_scalar; [done|]; destruct sc; try done; by subst).
  - subst. by constructor.
  - constructor. rewrite List.Forall_forall in *. intros v Hv. cbn [value_wf] in Hwf. rewrite fold_and_iff, List.Forall_forall in Hwf.
    apply (IH v Hv _ _ Hok); auto.
  - destruct Hok as (ps & Hps & Hsub). apply type_wf_object in Htwf.
    destruct (members_sound _ _ _ _ Htwf Hps Hsub IH Hwf Hfit Hf). by constructor.
  - destruct Hok as (ot & oa & Ht & Ha & ps & Hps & Hsub). rewrite Hg in Ha. injection Ha as <-.
    destruct (members_sound _ _ _ _ (named_fields_wf _ named_wf _ _ Ht) Hps Hsub IH Hwf Hfit Hf).
    by eapply valid_ref.
Qed.
End Sound.

Lemma assignable_pairs_Some target source pairs :
  assignable_pairs target source = Some pairs ->
  exists ps named, fields_assignable (roots target) (roots source) = Some ps
    /\ Forall2 (fun no q => exists object, fields_assignable (object_fields no.2) (object_fields object) = Some q)
         (named_objects target) named
    /\ pairs = ps ++ List.concat named.
Proof.
  unfold assignable_pairs. intros (ps & Hp & H)%bind_Some. destruct (negb _); [done|].
  apply bind_Some in H as (named & Hn%map_option_Some & [= <-]). exists ps, named. split_and!; [done| |done].
  eapply Forall2_impl; [exact Hn|]. intros no q (object & _ & H)%bind_Some. by exists object.
Qed.

Lemma assignable_pairs_wf target source pairs :
  catalog_wf target -> assignable_pairs target source = Some pairs -> Forall (fun p => type_wf p.1) pairs.
Proof.
  intros (Hr & _ & Hn) (ps & named & Hp & Hnamed & ->)%assignable_pairs_Some. apply Forall_app.
  split; [by eapply fields_assignable_wf|]. apply List.Forall_concat.
  induction Hnamed as [|no q l named (object & Hq) _ IH]; constructor; inversion Hn; [by eapply fields_assignable_wf|auto].
Qed.

(** The fuel of the walk is enough. *)
Lemma assignable_walk_total target source pairs :
  assignable_pairs target source = Some pairs -> exists r, assignable_walk target source pairs = Some r.
Proof.
  intros (ps & named & Hp & Hnamed & ->)%assignable_pairs_Some. apply assignable_total.
  rewrite map_rev, list_sum_rev, map_app, list_sum_app.
  apply fields_assignable_Some in Hp as [Hp%fields_pairs_count _].
  enough (list_sum (map (fun p => type_count p.1) (List.concat named)) = named_count (named_objects target)
          /\ unvisited (named_objects target) [] = named_count (named_objects target)) by lia.
  unfold unvisited, named_count. cbn [existsb]. split; [|done].
  induction Hnamed as [|no q l named (object & Hq) _ IH]; [done|]. cbn [List.concat map].
  apply fields_assignable_Some in Hq as [Hq%fields_pairs_count _]. rewrite map_app, list_sum_app, list_sum_cons. lia.
Qed.

(** C34: Assignability is decided, and it is sound: when a target catalog is
    assignable from a source catalog, every value the source accepts is a value
    the target accepts. *)
Theorem is_assignable_from_sound target source :
  catalog_wf target -> catalog_wf source ->
  (forall pairs, assignable_pairs target source = Some pairs ->
     exists r, assignable_walk target source pairs = Some r)
  /\ (is_assignable_from target source = true ->
      forall v, value_wf v -> validate source v = Ok tt -> validate target v = Ok tt).
Proof.
  intros Ht Hs. split; [intros pairs; apply assignable_walk_total|]. unfold is_assignable_from.
  destruct (is_ok (validate_definitions target)) eqn:Hdt; [|done].
  destruct (is_ok (validate_definitions source)) eqn:Hds; [|done]. cbn [negb orb].
  destruct (assignable_pairs target source) as [pairs|] eqn:Hp; [|done].
  destruct (assignable_walk target source pairs) as [[visited|]|] eqn:Hw; [|done..].
  intros _ v Hv (_ & Hsize & Hvalid)%(validate_accepts source v Hs Hv). apply (validate_accepts target v Ht Hv).
  assert (Htd : validate_definitions target = Ok tt) by (by destruct (validate_definitions target) as [[]|]).
  apply validate_definitions_spec in Htd. split; [done|]. split; [done|].
  eapply (pop_loop_Ok _ (walk_inv (named_objects target) (named_objects source) pairs)) in Hw.
  - destruct Hw as (seen & Hi & Hwf & Hok & _). rewrite app_nil_r in *.
    inversion Hvalid as [| | | |o ? ? Hfit Hf|]; subst; [done|].
    pose proof (assignable_pairs_Some _ _ _ Hp) as (ps & named & Hps & _ & ->).
    destruct Ht as (Htr & _ & Htn).
    enough (members_fit o (roots target) /\ (forall f field v, In (f, field) (roots target) -> bt_get o f = Some v ->
      valid (named_objects target) v (type_ref field))) as [? ?] by (by constructor).
    eapply (members_sound _ (named_objects source) seen); try done.
    + by apply incl_app_inv in Hi as [Hi _].
    + apply List.Forall_forall. intros nv _ t a Hin. by apply (pairs_sound _ _ seen Hok Hwf Htn).
  - intros ? ? ? ? ?. apply walk_inv_step. by destruct Ht as (_ & _ & ?).
  - exists []. cbn. split; [by intros p; rewrite <-in_rev|]. split; [|by split]. apply List.Forall_rev. by apply (assignable_pairs_wf target source).
Qed.

(** ** Witnesses *)

Definition sample_fields (a : ValueScalar) : Fields :=
  [("a", Field_new true (TypeRef_new false (Scalar a))); ("b", Field_new false (TypeRef_new true (Ref "node")))].

Definition sample_node : ValueObjectContract :=
  {| object_fields := [("next", Field_new false (TypeRef_new true (Ref "node")));
                       ("tags", Field_new true (TypeRef_new false (ListOf (TypeRef_new false (Enum "tag" ["x"; "y"])))))] |}.

Definition sample_catalog (a : ValueScalar) : ValueContractCatalog :=
  {| roots := sample_fields a; named_objects := [("node", sample_node)] |}.

Definition sample_value : TypedValue :=
  Object_ [("a", Number (I64 5)); ("b", Object_ [("next", Object_ [("tags", List_ [])]); ("tags", List_ [Text "y"])])].

Ltac no_dup :=
  cbn; repeat (apply NoDup_cons; split; [rewrite list_elem_of_In; cbn; intuition congruence|]); by constructor.

Lemma sample_catalog_wf a : catalog_wf (sample_catalog a).
Proof. split_and!; [split; [no_dup|by repeat constructor]|no_dup|constructor; [|done]]. split; [no_dup|by repeat constructor]. Qed.

Lemma sample_value_wf : value_wf sample_value.
Proof. cbn. unfold i64_min, i64_max. split_and!; try done; try lia; no_dup. Qed.

Lemma validate_spec_witness :
  validate (sample_catalog SInt32) sample_value = Ok tt
  /\ valid [("node", sample_node)] sample_value (TypeRef_new false (Object (sample_fields SInt32))).
Proof.
  assert (H : validate (sample_catalog SInt32) sample_value = Ok tt) by (vm_compute; reflexivity).
  split; [exact H|]. apply (proj1 (validate_spec _ _ (sample_catalog_wf SInt32) sample_value_wf)) in H. apply H.
Defined.

(** A field of type [json] takes what a field of type [int32] took. *)
Lemma is_assignable_from_sound_witness :
  is_assignable_from (sample_catalog SJson) (sample_catalog SInt32) = true
  /\ is_assignable_from (sample_catalog SInt32) (sample_catalog SJson) = false
  /\ validate (sample_catalog SJson) sample_value = Ok tt.
Proof.
  assert (H : is_assignable_from (sample_catalog SJson) (sample_catalog SInt32) = true) by (vm_compute; reflexivity).
  split; [exact H|]. split; [vm_compute; reflexivity|].
  apply (is_assignable_from_sound _ _ (sample_catalog_wf SJson) (sample_catalog_wf SInt32)); [exact H|exact sample_value_wf|].
  vm_compute. reflexivity.
Defined.
