(* ===== verification/ContractSize.v ===== *)
(** * Canonical sizes and the text of types ([crates/value-contract/src/lib.rs])

    The canonical text that [canonical_size] measures without writing it, and
    the proof that the measure is its length; and the types a text denotes. *)
From S2P Require Import Prelude Json ValueContract ContractValidity.
Set Warnings "-register-all".

(** ** The canonical text *)

Definition base64url_char (n : Z) : ascii :=
  match String.get (Z.to_nat (n mod 64)) "ABCDEFGHIJKLMNOPQRSTUVWXYZabcdefghijklmnopqrstuvwxyz0123456789-_" with
  | Some a => a
  | None => "A"%char
  end.

(** Unpadded base64url: three bytes are four characters of six bits. *)
Fixpoint base64url (s : string) : string :=
  match s with
  | String a (String b (String c s)) =>
      let x := byte_val a * 65536 + byte_val b * 256 + byte_val c in
      String (base64url_char (x / 262144)) (String (base64url_char (x / 4096))
        (String (base64url_char (x / 64)) (String (base64url_char x) (base64url s))))
  | String a (String b EmptyString) =>
      let x := byte_val a * 65536 + byte_val b * 256 in
      String (base64url_char (x / 262144)) (String (base64url_char (x / 4096)) (String (base64url_char (x / 64)) ""))
  | String a EmptyString =>
      let x := byte_val a * 65536 in
      String (base64url_char (x / 262144)) (String (base64url_char (x / 4096)) "")
  | EmptyString => ""
  end.

Definition inline_text (b : BoundedInlineBytes) : string :=
  "{" +:+ json_string "$binary" +:+ ":" +:+ json_string (base64url (bytes b)) +:+ ","
  +:+ match file_name b with
      | Some name => json_string "file_name" +:+ ":" +:+ json_string name +:+ ","
      | None => ""
      end
  +:+ json_string "media_type" +:+ ":" +:+ json_string (media_type b) +:+ "}".

Definition number_text (n : CanonicalNumber) : string :=
  match n with I64 z | U64 z => show_Z z | Decimal text => text end.

Fixpoint canonical_text (v : TypedValue) : string :=
  match v with
  | Null => "null"
  | Boolean true => "true"
  | Boolean false => "false"
  | Text s => json_string s
  | Number n => number_text n
  | List_ l => "[" +:+ join "," (map canonical_text l) +:+ "]"
  | Object_ o => "{" +:+ join "," (map (fun nv => json_string nv.1 +:+ ":" +:+ canonical_text nv.2) o) +:+ "}"
  | InlineBytes b => inline_text b
  end.

Definition text_len (s : string) : Z := Z.of_nat (String.length s).

Fixpoint inline_count (v : TypedValue) : Z :=
  match v with
  | List_ l => fold_right Z.add 0 (map inline_count l)
  | Object_ o => fold_right Z.add 0 (map (fun nv => inline_count nv.2) o)
  | InlineBytes _ => 1
  | _ => 0
  end.

Fixpoint inline_bytes (v : TypedValue) : Z :=
  match v with
  | List_ l => fold_right Z.add 0 (map inline_bytes l)
  | Object_ o => fold_right Z.add 0 (map (fun nv => inline_bytes nv.2) o)
  | InlineBytes b => text_len (bytes b)
  | _ => 0
  end.

(** The strings of a value are UTF-8, and its numbers are in range. *)
Fixpoint text_wf (v : TypedValue) : Prop :=
  match v with
  | Text s => utf8_shape s = true
  | List_ l => fold_right and True (map text_wf l)
  | Object_ o => fold_right and True (map (fun nv => utf8_shape nv.1 = true /\ text_wf nv.2) o)
  | InlineBytes b =>
      utf8_shape (media_type b) = true
      /\ match file_name b with Some name => utf8_shape name = true | None => True end
  | v => number_wf v
  end.

Example canonical_text_inline :
  canonical_text (List_ [InlineBytes {| bytes := "hello"; media_type := "text/plain"; file_name := Some "a.txt" |}; Number (I64 (-12))])
  = "[{" +:+ json_string "$binary" +:+ ":" +:+ json_string "aGVsbG8" +:+ "," +:+ json_string "file_name" +:+ ":"
    +:+ json_string "a.txt" +:+ "," +:+ json_string "media_type" +:+ ":" +:+ json_string "text/plain" +:+ "},-12]".
Proof. reflexivity. Qed.

(** ** Texts *)

Lemma text_len_app a b : text_len (a +:+ b) = text_len a + text_len b.
Proof. unfold text_len. rewrite str_length_app. lia. Qed.

Lemma text_len_cons a s : text_len (String a s) = 1 + text_len s.
Proof. unfold text_len. cbn [String.length]. lia. Qed.

Lemma text_len_nonneg s : 0 <= text_len s.
Proof. unfold text_len. lia. Qed.

Ltac text_len := repeat (rewrite text_len_app || rewrite text_len_cons); change (text_len "") with 0.

Lemma byte_size a : jcs_character_size (String a "") = text_len (json_escape a).
Proof.
  set (f a := jcs_character_size (String a "") =? text_len (json_escape a)).
  apply Z.eqb_eq. change (f a = true). revert a. apply byte_check. vm_compute. reflexivity.
Qed.

Lemma wide_byte_escape a : is_ascii_byte a = false -> json_escape a = String a "".
Proof.
  set (f a := is_ascii_byte a || String.eqb (json_escape a) (String a "")). intros Ha.
  assert (Hf : f a = true) by (clear Ha; revert a; apply byte_check; vm_compute; reflexivity).
  unfold f in Hf. rewrite Ha in Hf. by apply String.eqb_eq.
Qed.

Lemma continuation_is_wide a : is_continuation_byte a = true -> is_ascii_byte a = false.
Proof.
  set (f a := negb (is_continuation_byte a) || negb (is_ascii_byte a)). intros Ha.
  assert (Hf : f a = true) by (clear Ha; revert a; apply byte_check; vm_compute; reflexivity).
  unfold f in Hf. rewrite Ha in Hf. by apply negb_true_iff.
Qed.

Lemma wide_size b x : is_ascii_byte b = false -> jcs_character_size (String b x) = 1 + text_len x.
Proof.
  intros Hb. destruct x as [|c x]; [|cbn [jcs_character_size]; unfold text_len; cbn [String.length]; lia].
  by rewrite byte_size, (wide_byte_escape b Hb).
Qed.

Lemma chars_head b s : exists c cs, chars (String b s) = String b c :: cs.
Proof.
  cbn. destruct s as [|b' s]; [eauto|]. destruct (is_continuation_byte b'); [|eauto].
  destruct (chars (String b' s)); eauto.
Qed.

Lemma chars_cons a b s :
  chars (String a (String b s)) =
  if is_continuation_byte b then
    match chars (String b s) with c :: cs => String a c :: cs | [] => [String a ""] end
  else String a "" :: chars (String b s).
Proof. reflexivity. Qed.

(** The characters of a UTF-8 text take as many bytes, escaped, as its bytes. *)
Lemma chars_size s :
  utf8_shape s = true -> fold_right Z.add 0 (map jcs_character_size (chars s)) = text_len (json_chars s).
Proof.
  induction s as [|a s IH]; [done|]. cbn [utf8_shape json_chars]. rewrite andb_true_iff, text_len_app.
  intros [Ha Hs]. specialize (IH Hs). destruct s as [|b s].
  - cbn [chars map fold_right json_chars]. rewrite byte_size. done.
  - destruct (chars_head b s) as (c & cs & Hc). rewrite chars_cons, Hc in *.
    destruct (is_continuation_byte b) eqn:Hb.
    + assert (Hw : is_ascii_byte a = false) by (cbn in Ha; rewrite Hb, orb_false_r in Ha; by apply negb_true_iff).
      cbn [map fold_right] in *. rewrite wide_size by done. rewrite wide_size in IH by by apply continuation_is_wide.
      rewrite wide_byte_escape by done. rewrite !text_len_cons. change (text_len "") with 0. lia.
    + cbn [map fold_right] in *. rewrite byte_size. lia.
Qed.

(** ** Numbers *)

Lemma decimal_size_loop_spec fuel n digits :
  (0 < fuel)%nat -> n < 2 ^ Z.of_nat fuel ->
  decimal_size_loop fuel n digits = digits - 1 + text_len (show_digits fuel n "").
Proof.
  revert n digits. induction fuel as [|fuel IH]; intros n digits Hf Hn; [lia|]. cbn [decimal_size_loop show_digits].
  destruct (Z.leb_spec 10 n) as [H|H].
  - rewrite (proj2 (Z.ltb_ge n 10)) by lia. rewrite Nat2Z.inj_succ, Z.pow_succ_r in Hn by lia.
    rewrite show_digits_acc, text_len_app, text_len_cons, IH.
    + change (text_len "") with 0. lia.
    + destruct fuel; [cbn in Hn; lia|lia].
    + apply Z.div_lt_upper_bound; lia.
  - rewrite (proj2 (Z.ltb_lt n 10)) by lia. rewrite text_len_cons. change (text_len "") with 0. lia.
Qed.

Lemma unsigned_decimal_size_spec n : 0 <= n -> unsigned_decimal_size n = text_len (show_nat n).
Proof.
  intros Hn. unfold unsigned_decimal_size, show_nat. rewrite decimal_size_loop_spec; [lia|lia|].
  rewrite Nat2Z.inj_succ, Z2Nat.id by apply Z.log2_nonneg.
  destruct (Z.eq_dec n 0) as [->|]; [cbn; lia|]. apply Z.log2_spec; lia.
Qed.

Lemma signed_decimal_size_spec z : signed_decimal_size z = text_len (show_Z z).
Proof.
  unfold signed_decimal_size, show_Z. rewrite unsigned_decimal_size_spec by lia. destruct (Z.ltb_spec z 0).
  - rewrite Z.abs_neq by lia. text_len. lia.
  - rewrite Z.abs_eq by lia. lia.
Qed.

(** ** Inline bytes *)

Lemma base64url_length s :
  text_len (base64url s) = text_len s / 3 * 4 + match text_len s mod 3 with 0 => 0 | 1 => 2 | _ => 3 end.
Proof.
  enough (H : forall n s, (String.length s < n)%nat ->
    text_len (base64url s) = text_len s / 3 * 4 + match text_len s mod 3 with 0 => 0 | 1 => 2 | _ => 3 end)
    by (eapply H, Nat.lt_succ_diag_r).
  clear s. induction n as [|n IH]; intros s Hs; [lia|]. destruct s as [|a [|b [|c s]]]; [done..|].
  cbn [base64url String.length] in *. rewrite !text_len_cons, IH by lia.
  replace (1 + (1 + (1 + text_len s))) with (text_len s + 1 * 3) by lia. rewrite Z.div_add, Z.mod_add by done. lia.
Qed.

Lemma base64url_unpadded_size_spec s :
  text_len s <= MAXIMUM_DECODED_INLINE_BYTES -> base64url_unpadded_size (text_len s) = Ok (text_len (base64url s)).
Proof.
  unfold MAXIMUM_DECODED_INLINE_BYTES. intros Hs. pose proof (text_len_nonneg s). rewrite base64url_length. unfold base64url_unpadded_size.
  pose proof (Z.div_pos (text_len s) 3 ltac:(lia) ltac:(lia)).
  pose proof (Z.div_le_upper_bound (text_len s) 3 131072 ltac:(lia) ltac:(lia)).
  rewrite (proj2 (checked_Some 0 usize_max _ (text_len s / 3 * 4))) by (unfold usize_max; split; [reflexivity|lia]).
  change (ok_or SizeOverflow (Some (text_len s / 3 * 4)) ≫= ?f) with (f (text_len s / 3 * 4)). cbv beta.
  match goal with |- ok_or _ (checked _ _ ?z) = _ => rewrite (proj2 (checked_Some 0 usize_max _ z)); [done|] end.
  split; [done|]. unfold usize_max.
  pose proof (Z.mod_pos_bound (text_len s) 3 ltac:(lia)). destruct (text_len s mod 3) as [|[]|] ; lia.
Qed.

(** base64url needs no escape. *)
Lemma base64url_char_plain n : json_escape (base64url_char n) = String (base64url_char n) "".
Proof.
  assert (H : forallb (fun i => String.eqb (json_escape (base64url_char (Z.of_nat i)))
    (String (base64url_char (Z.of_nat i)) "")) (seq 0 64) = true) by (vm_compute; reflexivity).
  rewrite forallb_forall in H. pose proof (Z.mod_pos_bound n 64 ltac:(lia)).
  specialize (H (Z.to_nat (n mod 64)) ltac:(apply in_seq; lia)). apply String.eqb_eq in H.
  rewrite Z2Nat.id in H by lia. unfold base64url_char in *. by rewrite Z.mod_mod in H.
Qed.

Lemma base64url_plain s : text_len (json_string (base64url s)) = 2 + text_len (base64url s).
Proof.
  unfold json_string. text_len.
  enough (H : forall n s, (String.length s < n)%nat -> json_chars (base64url s) = base64url s)
    by (rewrite (H (S (String.length s))) by lia; lia).
  clear s. induction n as [|n IH]; intros s Hs; [lia|].
  destruct s as [|a [|b [|c s]]]; cbn [base64url json_chars String.length] in *; rewrite ?base64url_char_plain; [done..|].
  rewrite IH by lia. done.
Qed.

(** ** Results within a limit *)

(** [r] succeeds exactly when [b] holds, and then with [x]. *)
Definition limited {E A} (b : Prop) (x : A) (r : result E A) : Prop := forall y, r = Ok y <-> y = x /\ b.

Lemma limited_Ok {E A} (b : Prop) (x : A) : b -> limited b x (Ok x : result E A).
Proof. intros Hb y. split; [by intros [= <-]|by intros [-> _]]. Qed.

Lemma limited_bind {E A B} b1 b (x : A) (y : B) (r : result E A) f :
  limited b1 x r -> (b -> b1) -> (b1 -> limited b y (f x)) -> limited b y (r ≫= f).
Proof.
  intros Hr Hb Hf z. split.
  - intros (x' & [-> H1]%Hr & H)%bind_Ok. by apply Hf.
  - intros [-> H]. rewrite (proj2 (Hr x)) by auto. by apply (Hf (Hb H) y).
Qed.

Lemma limited_guard {E A} c b (x : A) (e : E) r :
  (b -> c = false) -> (c = false -> limited b x r) -> limited b x (if c then Err e else r).
Proof. intros Hc Hr. destruct c; [|auto]. intros y. split; [done|]. intros [_ H]. by specialize (Hc H). Qed.

Lemma limited_iff {E A} (b b' : Prop) (x : A) (r : result E A) : limited b x r -> (b <-> b') -> limited b' x r.
Proof. intros Hr Hb y. by rewrite (Hr y), Hb. Qed.

Lemma limited_checked hi z :
  0 <= z -> limited (z <= hi) z (ok_or SizeOverflow (checked 0 hi z)).
Proof.
  intros Hz y. split.
  - intros (-> & _ & H)%ok_or_Ok%checked_Some. by split.
  - intros [-> H]. by rewrite (proj2 (checked_Some 0 hi z z)).
Qed.

Lemma limited_checked_add size n :
  0 <= size + n -> limited (size + n <= usize_max) (size + n) (checked_add size n).
Proof. apply limited_checked. Qed.

Lemma limited_fold_chars cs acc :
  0 <= acc <= usize_max ->
  limited (acc + fold_right Z.add 0 (map jcs_character_size cs) <= usize_max)
    (acc + fold_right Z.add 0 (map jcs_character_size cs))
    (fold_result (fun size c => checked_add size (jcs_character_size c)) acc cs).
Proof.
  assert (Hpos : forall c, 0 <= jcs_character_size c) by (intros [|a [|]]; cbn; repeat case_match; lia).
  assert (Hsum : forall cs, 0 <= fold_right Z.add 0 (map jcs_character_size cs))
    by (intros l; induction l as [|c l IHl]; cbn; [lia|specialize (Hpos c); lia]).
  revert acc. induction cs as [|c cs IH]; intros acc Ha; cbn [fold_result map fold_right].
  - rewrite Z.add_0_r. apply limited_Ok. lia.
  - specialize (Hpos c). specialize (Hsum cs). rewrite Z.add_assoc.
    change (limited (acc + jcs_character_size c + fold_right Z.add 0 (map jcs_character_size cs) <= usize_max)
      (acc + jcs_character_size c + fold_right Z.add 0 (map jcs_character_size cs))
      (checked_add acc (jcs_character_size c) ≫= fun s =>
        fold_result (fun size c => checked_add size (jcs_character_size c)) s cs)).
    eapply limited_bind; [apply limited_checked_add; lia|lia|]. intros H. apply IH. lia.
Qed.

Lemma limited_string s :
  utf8_shape s = true -> limited (text_len (json_string s) <= usize_max) (text_len (json_string s)) (jcs_string_size s).
Proof.
  intros Hs. unfold json_string, jcs_string_size. text_len. rewrite <-chars_size by done.
  replace (1 + (_ + _)) with (2 + fold_right Z.add 0 (map jcs_character_size (chars s))) by lia.
  by apply limited_fold_chars.
Qed.

Lemma limited_add_size s n :
  0 <= size s + n ->
  limited (size s + n <= MAXIMUM_CANONICAL_BYTES) (with_size s (size s + n)) (add_size s n).
Proof.
  intros Hn. unfold add_size, add_canonical_size. eapply limited_bind with (b1 := size s + n <= MAXIMUM_CANONICAL_BYTES).
  - eapply limited_bind; [by apply limited_checked_add|unfold usize_max, MAXIMUM_CANONICAL_BYTES; lia|]. intros H.
    apply limited_guard; [lia|]. intros ?. apply limited_Ok. lia.
  - done.
  - intros H. by apply limited_Ok.
Qed.

Lemma json_string_pos s : 2 <= text_len (json_string s).
Proof. unfold json_string. text_len. pose proof (text_len_nonneg (json_chars s)). lia. Qed.

(** One step of a sum: a string, or a known length. *)
Ltac limited_step :=
  lazymatch goal with
  | |- limited _ _ (Ok _ ≫= _) => rewrite bind_ret
  | |- limited _ _ ((_ ≫= _) ≫= _) => rewrite bind_assoc
  | |- limited _ _ (jcs_string_size _ ≫= _) => eapply limited_bind; [by apply limited_string|lia|intros ?]
  | |- limited _ _ (checked_add _ _ ≫= _) => eapply limited_bind; [apply limited_checked_add; lia|lia|intros ?]
  | |- limited _ _ (checked_add ?a ?b) =>
      let H := fresh in pose proof (limited_checked_add a b ltac:(lia)) as H;
      match goal with |- limited ?p ?x _ => replace x with (a + b) by lia end;
      eapply limited_iff; [exact H|lia]
  end.

Lemma limited_binary b :
  text_wf (InlineBytes b) -> text_len (bytes b) <= MAXIMUM_DECODED_INLINE_BYTES ->
  limited (text_len (inline_text b) <= usize_max) (text_len (inline_text b)) (binary_canonical_size b).
Proof.
  intros [Hm Hn] Hb. unfold binary_canonical_size, inline_text. fold (text_len (bytes b)).
  rewrite base64url_unpadded_size_spec by done. text_len. rewrite base64url_plain.
  pose proof (json_string_pos (media_type b)). pose proof (text_len_nonneg (base64url (bytes b))).
  pose proof (json_string_pos "$binary"). pose proof (json_string_pos "file_name"). pose proof (json_string_pos "media_type").
  destruct (file_name b) as [name|]; [pose proof (json_string_pos name)|]; text_len; repeat limited_step.
Qed.

(** ** One value *)

Definition total (f : TypedValue -> Z) (l : list TypedValue) : Z := fold_right Z.add 0 (map f l).

Lemma total_cons f v l : total f (v :: l) = f v + total f l.
Proof. reflexivity. Qed.

Lemma total_rev_append f l l' : total f (rev_append l l') = total f l + total f l'.
Proof. revert l'. induction l as [|v l IH]; intros l'; cbn [rev_append]; [done|]. rewrite IH, !total_cons. lia. Qed.

Lemma total_nonneg f l : (forall v, In v l -> 0 <= f v) -> 0 <= total f l.
Proof.
  induction l as [|v l IH]; intros H; [done|]. rewrite total_cons. pose proof (H v ltac:(by left)).
  specialize (IH ltac:(intros; apply H; by right)). lia.
Qed.

Definition children (v : TypedValue) : list TypedValue :=
  match v with List_ l => l | Object_ o => map snd o | _ => [] end.

(** The characters of a value outside its children. *)
Definition own_size (v : TypedValue) : Z :=
  match v with
  | List_ l => 2 + separators l
  | Object_ o => 2 + separators o + fold_right Z.add 0 (map (fun nv => text_len (json_string nv.1) + 1) o)
  | v => text_len (canonical_text v)
  end.

Definition own_inline (v : TypedValue) : Z := match v with InlineBytes _ => 1 | _ => 0 end.
Definition own_bytes (v : TypedValue) : Z := match v with InlineBytes b => text_len (bytes b) | _ => 0 end.

Lemma joined_length l : text_len (join "," l) = fold_right Z.add 0 (map text_len l) + separators l.
Proof.
  induction l as [|x l IH]; [done|]. destruct l as [|y l]; [cbn; unfold separators; cbn; lia|].
  change (join "," (x :: y :: l)) with (x +:+ "," +:+ join "," (y :: l)). text_len. rewrite IH.
  cbn [map fold_right]. unfold separators. cbn [List.length]. lia.
Qed.

Lemma canonical_text_size v : text_len (canonical_text v) = own_size v + total (fun v => text_len (canonical_text v)) (children v).
Proof.
  unfold total. destruct v as [| | | |l|o|]; cbn [canonical_text own_size children map fold_right]; try lia.
  - text_len. rewrite joined_length, map_map. unfold separators. rewrite length_map. lia.
  - text_len. rewrite joined_length, !map_map. unfold separators. rewrite length_map.
    enough (fold_right Z.add 0 (map (fun nv : string * TypedValue => text_len (json_string nv.1 +:+ ":" +:+ canonical_text nv.2)) o)
      = fold_right Z.add 0 (map (fun nv => text_len (json_string nv.1) + 1) o)
        + fold_right Z.add 0 (map (fun nv => text_len (canonical_text nv.2)) o)) by lia.
    induction o as [|[k v] o IH]; [done|]. cbn [map fold_right fst snd]. rewrite IH. text_len. lia.
Qed.

Lemma inline_count_total v : inline_count v = own_inline v + total inline_count (children v).
Proof. unfold total. destruct v as [| | | |l|o|]; cbn; rewrite ?map_map; lia. Qed.

Lemma inline_bytes_total v : inline_bytes v = own_bytes v + total inline_bytes (children v).
Proof. unfold total. destruct v as [| | | |l|o|]; cbn; rewrite ?map_map; lia. Qed.

Lemma text_wf_children v : text_wf v -> Forall text_wf (children v).
Proof.
  destruct v as [| | | |l|o|]; try (intros; by constructor); cbn.
  - by rewrite fold_and_iff.
  - rewrite (fold_and_iff (fun nv : string * TypedValue => utf8_shape nv.1 = true /\ text_wf nv.2)), List.Forall_map.
    apply List.Forall_impl. by intros nv [].
Qed.

Lemma value_count_children v : list_sum (map value_count (children v)) = pred (value_count v).
Proof. destruct v as [| | | |l|o|]; cbn; rewrite ?map_map; done. Qed.

Definition with_value (s : Sizes) (v : TypedValue) : Sizes :=
  {| size := size s + own_size v; inline_values := inline_values s + own_inline v;
     decoded_bytes := decoded_bytes s + own_bytes v |}.

Definition within (s : Sizes) : Prop :=
  0 <= size s <= MAXIMUM_CANONICAL_BYTES /\ 0 <= inline_values s <= MAXIMUM_INLINE_VALUES
  /\ 0 <= decoded_bytes s <= MAXIMUM_DECODED_INLINE_BYTES.

Lemma own_size_nonneg v : 0 <= own_size v.
Proof.
  destruct v as [| | | | |o|]; cbn [own_size]; try apply text_len_nonneg; unfold separators; [lia|].
  enough (0 <= fold_right Z.add 0 (map (fun nv : string * TypedValue => text_len (json_string nv.1) + 1) o)) by lia.
  induction o as [|nv o IH]; [done|]. cbn [map fold_right]. pose proof (text_len_nonneg (json_string nv.1)). lia.
Qed.

Lemma limited_names o s :
  Forall (fun nv : string * TypedValue => utf8_shape nv.1 = true /\ text_wf nv.2) o ->
  0 <= size s <= MAXIMUM_CANONICAL_BYTES ->
  let k := fold_right Z.add 0 (map (fun nv : string * TypedValue => text_len (json_string nv.1) + 1) o) in
  limited (size s + k <= MAXIMUM_CANONICAL_BYTES) (with_size s (size s + k))
    (fold_result (fun s nv => n ← jcs_string_size nv.1; s ← add_size s n; add_size s 1) s o).
Proof.
  cbv zeta. intros H. revert s. induction H as [|[k v] o [Hk _] _ IH]; intros s Hs; cbn [map fold_right fst snd].
  - rewrite Z.add_0_r. destruct s. apply limited_Ok. cbn in *. lia.
  - pose proof (json_string_pos k). set (rest := fold_right _ _ _) in *.
    assert (0 <= rest).
    { subst rest. clear. induction o as [|nv o IH]; [done|]. cbn [map fold_right]. pose proof (text_len_nonneg (json_string nv.1)). lia. }
    cbn [fold_result]. 
    change (limited (size s + (text_len (json_string k) + 1 + rest) <= MAXIMUM_CANONICAL_BYTES)
      (with_size s (size s + (text_len (json_string k) + 1 + rest)))
      ((n ← jcs_string_size k; s ← add_size s n; add_size s 1) ≫= fun s =>
        fold_result (fun s nv => n ← jcs_string_size nv.1; s ← add_size s n; add_size s 1) s o)).
    rewrite bind_assoc. eapply limited_bind; [by apply limited_string|unfold MAXIMUM_CANONICAL_BYTES, usize_max in *; lia|intros ?].
    rewrite bind_assoc. eapply limited_bind; [apply limited_add_size; lia|lia|intros ?].
    eapply limited_bind; [apply limited_add_size; cbn; lia|cbn; lia|cbn; intros ?].
    specialize (IH (with_size s (size s + text_len (json_string k) + 1)) ltac:(cbn; lia)). cbn in IH.
    unfold with_size in *. cbn in *. by replace (size s + (text_len (json_string k) + 1 + rest)) with (size s + text_len (json_string k) + 1 + rest) by lia.
Qed.

(** A step that adds one length, whatever it returns beside the sizes. *)
Lemma limited_value_size v s n (l : list TypedValue) :
  own_size v = n -> own_inline v = 0 -> own_bytes v = 0 -> within s ->
  limited (within (with_value s v)) (with_value s v, l) (s ← add_size s n; Ok (s, l)).
Proof.
  intros <- Hi Hb (Hs & Hi' & Hb'). pose proof (own_size_nonneg v). unfold within, with_value. rewrite Hi, Hb, !Z.add_0_r.
  eapply limited_bind; [apply limited_add_size; lia|cbn; lia|]. intros H1. apply limited_Ok. cbn. lia.
Qed.

Lemma limited_size_step s v :
  text_wf v -> within s -> limited (within (with_value s v)) (with_value s v, children v) (size_step s v).
Proof.
  intros Hv Hs. pose proof (own_size_nonneg v) as Hpos. pose proof Hs as (Hsz & Hin & Hby).
  destruct v as [|b|t|n|l|o|b]; cbn [size_step children].
  - by apply limited_value_size.
  - by destruct b; apply limited_value_size.
  - eapply limited_bind; [by apply limited_string|unfold within; cbn; unfold MAXIMUM_CANONICAL_BYTES, usize_max in *; lia|intros _].
    by apply limited_value_size.
  - destruct n as [z|z|t]; apply limited_value_size; try done; cbn [own_size canonical_text number_text].
    + by rewrite signed_decimal_size_spec.
    + cbn in Hv. rewrite unsigned_decimal_size_spec by lia. unfold show_Z. by rewrite (proj2 (Z.ltb_ge z 0)) by lia.
  - unfold separators. rewrite <-bind_assoc.
    eapply limited_bind with (b1 := within (with_value s (List_ l))) (x := with_value s (List_ l)); [|done|by intros; apply limited_Ok].
    unfold within, with_value in *. cbn in *. unfold separators in *. rewrite !Z.add_0_r.
    eapply limited_bind; [apply limited_add_size; lia|lia|intros ?].
    eapply limited_iff; [rewrite Z.add_assoc; apply (limited_add_size (with_size s (size s + 2))); cbn; lia|cbn; lia].
  - cbn in Hv. rewrite (fold_and_iff (fun nv : string * TypedValue => utf8_shape nv.1 = true /\ text_wf nv.2)) in Hv.
    cbn [own_size] in Hpos. unfold separators in *.
    pose proof (limited_names o) as Hn. cbv zeta in Hn.
    set (k := fold_right Z.add 0 (map (fun nv : string * TypedValue => text_len (json_string nv.1) + 1) o)) in *.
    assert (Hk : 0 <= k).
    { subst k. clear. induction o as [|nv o IH]; [done|]. cbn [map fold_right]. pose proof (text_len_nonneg (json_string nv.1)). lia. }
    assert (Heq : with_value s (Object_ o) = with_size s (size s + 2 + Z.of_nat (List.length o - 1) + k)).
    { unfold with_value, with_size, own_size, own_inline, own_bytes, separators. fold k. f_equal; lia. }
    rewrite Heq. unfold within. cbn [size inline_values decoded_bytes with_size].
    eapply limited_bind; [apply limited_add_size; lia|cbn; lia|intros ?].
    eapply limited_bind; [apply limited_add_size; cbn; lia|cbn; lia|intros ?]. cbn in H0.
    eapply limited_bind; [apply Hn; [done|cbn; lia]|cbn; lia|intros ?].
    apply limited_Ok. cbn in *. lia.
  - cbn in Hin, Hby. pose proof (text_len_nonneg (bytes b)) as Hb. unfold within, with_value. cbn [size inline_values decoded_bytes own_inline own_bytes own_size canonical_text].
    pose proof (text_len_nonneg (inline_text b)). fold (text_len (bytes b)).
    unfold MAXIMUM_INLINE_VALUES, MAXIMUM_DECODED_INLINE_BYTES, MAXIMUM_CANONICAL_BYTES in *.
    eapply limited_bind; [apply limited_checked; lia|unfold usize_max; lia|intros _].
    apply limited_guard; [lia|intros ?].
    eapply limited_bind; [apply limited_checked; lia|unfold usize_max; lia|intros _].
    apply limited_guard; [lia|intros ?].
    eapply limited_bind; [apply limited_binary; [done|unfold MAXIMUM_DECODED_INLINE_BYTES; lia]|unfold usize_max; lia|intros _].
    eapply limited_bind; [apply limited_add_size; cbn; lia|cbn; unfold MAXIMUM_CANONICAL_BYTES; lia|intros ?].
    apply limited_Ok. cbn in *. unfold MAXIMUM_CANONICAL_BYTES in *. lia.
Qed.

(** ** The walk *)

Definition with_values (s : Sizes) (l : list TypedValue) : Sizes :=
  {| size := size s + total (fun v => text_len (canonical_text v)) l;
     inline_values := inline_values s + total inline_count l;
     decoded_bytes := decoded_bytes s + total inline_bytes l |}.

Lemma with_values_step s v l :
  with_values s (v :: l) = with_values (with_value s v) (rev_append (children v) l).
Proof.
  unfold with_values, with_value. rewrite !total_rev_append, !total_cons, canonical_text_size, inline_count_total, inline_bytes_total.
  cbn. f_equal; lia.
Qed.

Lemma inline_nonneg v : 0 <= inline_count v /\ 0 <= inline_bytes v.
Proof.
  induction v as [v Hl|l IH|o IH] using TypedValue_ind'.
  - destruct v; try done. cbn. split; [lia|apply text_len_nonneg].
  - rewrite List.Forall_forall in IH. split; [change (0 <= total inline_count l)|change (0 <= total inline_bytes l)];
      apply total_nonneg; intros v Hv; by apply IH.
  - rewrite List.Forall_forall in IH. cbn. rewrite <-(map_map snd inline_count), <-(map_map snd inline_bytes).
    split; apply total_nonneg; intros v (nv & <- & Hv)%in_map_iff; by apply IH.
Qed.

Lemma with_values_le s l :
  size s <= size (with_values s l) /\ inline_values s <= inline_values (with_values s l)
  /\ decoded_bytes s <= decoded_bytes (with_values s l).
Proof.
  cbn. pose proof (total_nonneg (fun v => text_len (canonical_text v)) l ltac:(intros; apply text_len_nonneg)).
  pose proof (total_nonneg inline_count l ltac:(intros v _; apply (inline_nonneg v))).
  pose proof (total_nonneg inline_bytes l ltac:(intros v _; apply (inline_nonneg v))). lia.
Qed.

Lemma size_walk_spec fuel s pending :
  (list_sum (map value_count pending) < fuel)%nat -> Forall text_wf pending -> within s ->
  exists r, pop_loop size_step fuel s pending = Some r /\ limited (within (with_values s pending)) (with_values s pending) r.
Proof.
  revert s pending. induction fuel as [|fuel IH]; intros s pending Hf Hp Hs; [lia|]. cbn [pop_loop].
  destruct pending as [|v pending].
  { exists (Ok s). split; [done|]. unfold with_values. cbn. rewrite !Z.add_0_r. destruct s. by apply limited_Ok. }
  apply List.Forall_cons_iff in Hp as [Hv Hp]. pose proof (limited_size_step s v Hv Hs) as Hstep. rewrite with_values_step.
  destruct (size_step s v) as [[s' l]|e].
  - destruct (proj1 (Hstep _) eq_refl) as [[= -> ->] Hw]. apply IH; [|apply Forall_rev_append; by split; [apply text_wf_children|]|done].
    cbn [map] in Hf. rewrite list_sum_cons in Hf. rewrite list_sum_rev_append, value_count_children.
    destruct v; cbn [value_count pred] in *; lia.
  - exists (Err e). split; [done|]. intros y. split; [done|]. intros [_ Hw]. exfalso.
    pose proof (with_values_le (with_value s v) (rev_append (children v) pending)) as (H1 & H2 & H3).
    destruct (Hstep (with_value s v, children v)) as [_ Hno]. enough (within (with_value s v)) by (by assert (Err e = Ok (with_value s v, children v)) by by apply Hno).
    destruct Hw as (Hw1 & Hw2 & Hw3), Hs as (Hs1 & Hs2 & Hs3). pose proof (own_size_nonneg v).
    assert (0 <= own_inline v /\ 0 <= own_bytes v) as [? ?] by (destruct v; cbn; try lia; split; [lia|apply text_len_nonneg]).
    unfold within in *. cbn [with_value size inline_values decoded_bytes] in *. lia.
Qed.

(** The canonical size of a value is the length of its canonical text,
    and it is reported exactly when the text, the number of inline values and
    their bytes are within the limits; it always answers. *)
Theorem canonical_size_spec v n :
  text_wf v ->
  canonical_size v = Ok n
  <-> n = text_len (canonical_text v) /\ text_len (canonical_text v) <= MAXIMUM_CANONICAL_BYTES
      /\ inline_count v <= MAXIMUM_INLINE_VALUES /\ inline_bytes v <= MAXIMUM_DECODED_INLINE_BYTES.
Proof.
  intros Hv. unfold canonical_size, canonical_size_walk.
  destruct (size_walk_spec (S (value_count v)) {| size := 0; inline_values := 0; decoded_bytes := 0 |} [v]) as (r & -> & Hr).
  - cbn. lia.
  - by constructor.
  - unfold within, MAXIMUM_CANONICAL_BYTES, MAXIMUM_INLINE_VALUES, MAXIMUM_DECODED_INLINE_BYTES. cbn. lia.
  - pose proof (inline_nonneg v) as [Hi Hb]. pose proof (text_len_nonneg (canonical_text v)) as Ht.
    unfold within, with_values, total in Hr. cbn in Hr. rewrite !Z.add_0_r in Hr. split.
    + destruct r as [s|]; [|done]. destruct (proj1 (Hr s) eq_refl) as [-> Hw]. cbn in *. intros [= <-]. lia.
    + intros (-> & H). destruct r as [s|e].
      * by destruct (proj1 (Hr s) eq_refl) as [-> _].
      * exfalso. enough (Err e = Ok {| size := text_len (canonical_text v); inline_values := inline_count v; decoded_bytes := inline_bytes v |}) by done.
        apply Hr. split; [done|lia].
Qed.

Lemma canonical_size_spec_witness :
  let v := List_ [Text "é"; Number (I64 (-12)); InlineBytes {| bytes := "hello"; media_type := "text/plain"; file_name := None |}] in
  text_wf v /\ canonical_size v = Ok 58.
Proof.
  cbv zeta. assert (H : text_wf (List_ [Text "é"; Number (I64 (-12));
    InlineBytes {| bytes := "hello"; media_type := "text/plain"; file_name := None |}])) by (vm_compute; split_and!; done).
  split; [exact H|]. apply (canonical_size_spec _ _ H). vm_compute. split_and!; done.
Defined.

(** * Type references in text

    [TypeRef_parse] against a printer: what it reads, and that it reads back
    what is printed. *)

Definition bang (nullable : bool) : string := if nullable then "" else "!".

Definition is_name_start (a : ascii) : bool := is_letter_byte a || Ascii.eqb a "_".

Definition identifier (s : string) : bool :=
  match s with
  | String a s => is_name_start a && bytes_forallb is_name_byte s
  | EmptyString => false
  end.

Definition scalar_name (s : ValueScalar) : string :=
  match s with
  | SBoolean => "Boolean" | SString => "String" | SInt32 => "Int" | SInt64 => "int64" | SUInt64 => "uint64"
  | SDecimal => "Float" | SUuid => "uuid" | SDate => "date" | STimestamp => "timestamp"
  | STimestampTz => "timestamptz" | SJson => "json" | SCustom name => name
  end.

Fixpoint type_text (t : TypeRef) : string :=
  match t with
  | TypeRef_new n (Scalar s) => scalar_name s +:+ bang n
  | TypeRef_new n (Enum name _) => name +:+ bang n
  | TypeRef_new n (Object _) => ""
  | TypeRef_new n (ListOf element) => "[" +:+ type_text element +:+ "]" +:+ bang n
  | TypeRef_new n (Ref name) => name +:+ bang n
  end.

(** The types text can denote: built-in scalars, references to names that are
    identifiers but no scalar's, and lists of these. *)
Fixpoint denotable (t : TypeRef) : Prop :=
  match t with
  | TypeRef_new _ (Scalar (SCustom _)) => False
  | TypeRef_new _ (Scalar _) => True
  | TypeRef_new _ (Ref name) => identifier name = true /\ canonical_named_type name = Ref name
  | TypeRef_new _ (ListOf element) => denotable element
  | _ => False
  end.

(** ** Positions in a text *)

Lemma get_drop n s : String.get n s = String.get 0 (str_drop n s).
Proof. revert s. induction n as [|n IH]; intros [|a s]; cbn; auto. Qed.

Lemma contract_byte_at_app pre r c : byte_at_is (pre +:+ r) (String.length pre) c = byte_at_is r 0 c.
Proof. unfold byte_at_is. by rewrite get_drop, drop_app. Qed.

Lemma prefix_length_app p a b :
  bytes_forallb p a = true -> prefix_length p b = 0%nat -> prefix_length p (a +:+ b) = String.length a.
Proof.
  intros Ha Hb. induction a as [|c a IH]; [done|]. cbn in Ha. apply andb_true_iff in Ha as [Hc Ha].
  rewrite str_app_cons. cbn. by rewrite Hc, IH.
Qed.

Lemma prefix_length_take p s : bytes_forallb p (str_take (prefix_length p s) s) = true.
Proof. induction s as [|a s IH]; [done|]. cbn. destruct (p a) eqn:E; cbn; [by rewrite E|done]. Qed.

(** ** The closing brackets *)

Fixpoint closers (l : list bool) : string :=
  match l with [] => "" | n :: l => "]" +:+ bang n +:+ closers l end.

Definition wrap (l : list bool) (t : TypeRef) : TypeRef := fold_left (fun t n => TypeRef_new n (ListOf t)) l t.

Lemma not_bang_closers l : byte_at_is (closers l) 0 "!" = false.
Proof. by destruct l. Qed.

Lemma close_lists_closers l pre t :
  close_lists (pre +:+ closers l) (List.length l) (String.length pre) t = Ok (wrap l t).
Proof.
  revert pre t. induction l as [|n l IH]; intros pre t; cbn [close_lists closers List.length wrap fold_left].
  - by rewrite str_app_nil_r, Nat.eqb_refl.
  - rewrite contract_byte_at_app. cbn [negb]. change (byte_at_is ("]" +:+ bang n +:+ closers l) 0 "]") with true. cbn [negb].
    rewrite <-(str_app_assoc pre "]"). replace (S (String.length pre)) with (String.length (pre +:+ "]")) by (rewrite str_length_app; cbn; lia).
    rewrite contract_byte_at_app. destruct n; cbn [bang].
    + rewrite str_app_nil_l, not_bang_closers. apply IH.
    + change (byte_at_is ("!" +:+ closers l) 0 "!") with true. cbv iota.
      rewrite <-(str_app_assoc (pre +:+ "]")). replace (S (String.length (pre +:+ "]"))) with (String.length ((pre +:+ "]") +:+ "!")) by (rewrite (str_length_app (pre +:+ "]")); cbn; lia).
      apply IH.
Qed.

Lemma wrap_app l n t : wrap (l ++ [n]) t = TypeRef_new n (ListOf (wrap l t)).
Proof. unfold wrap. by rewrite fold_left_app. Qed.

Lemma closers_app l n : closers (l ++ [n]) = closers l +:+ "]" +:+ bang n.
Proof.
  induction l as [|m l IH]; cbn [closers app].
  - rewrite str_app_nil_l. by rewrite str_app_nil_r.
  - by rewrite IH, !str_app_assoc.
Qed.

(** A type is a named type inside lists. *)
Lemma denotable_spine t :
  denotable t ->
  exists l n base name, t = wrap l (TypeRef_new n base) /\ identifier name = true /\ canonical_named_type name = base
    /\ type_text t = repeat_string (List.length l) "[" +:+ name +:+ bang n +:+ closers l.
Proof.
  induction t as [n s|n name values|n fields _|n e IH|n name] using TypeRef_ind'; cbn [denotable type_text]; try done.
  - intros Hs. exists [], n, (Scalar s), (scalar_name s). cbn [closers List.length repeat_string].
    rewrite str_app_nil_l, str_app_nil_r. by destruct s.
  - intros (l & m & base & name & -> & Hi & Hc & ->)%IH. exists (l ++ [n]), m, base, name.
    rewrite wrap_app, closers_app, length_app, Nat.add_comm, !str_app_assoc. done.
  - intros [Hi Hc]. exists [], n, (Ref name), name. cbn [closers List.length repeat_string].
    by rewrite str_app_nil_l, str_app_nil_r.
Qed.

(** ** Parsing *)

Lemma name_start_byte a : is_name_start a = true -> Ascii.eqb "[" a = false /\ is_name_byte a = true.
Proof.
  set (f a := negb (is_name_start a) || (negb (Ascii.eqb "[" a) && is_name_byte a)). intros Ha.
  assert (Hf : f a = true) by (clear Ha; revert a; apply byte_check; vm_compute; reflexivity).
  unfold f in Hf. rewrite Ha in Hf. apply andb_true_iff in Hf as [H1 H2]. by apply negb_true_iff in H1.
Qed.

Lemma brackets_length n : String.length (repeat_string n "[") = n.
Proof. induction n as [|n IH]; [done|]. cbn [repeat_string]. by rewrite str_length_app, IH. Qed.

Lemma brackets_forallb n : bytes_forallb (Ascii.eqb "[") (repeat_string n "[") = true.
Proof. induction n as [|n IH]; [done|]. cbn [repeat_string]. by rewrite bytes_forallb_app, IH. Qed.

Lemma parse_spine l n name :
  identifier name = true ->
  TypeRef_parse (repeat_string (List.length l) "[" +:+ name +:+ bang n +:+ closers l)
  = Ok (wrap l (TypeRef_new n (canonical_named_type name))).
Proof.
  intros Hi. destruct name as [|a name]; [done|]. cbn [identifier] in Hi. apply andb_true_iff in Hi as [Ha Hname].
  destruct (name_start_byte a Ha) as [Hnb Han]. unfold TypeRef_parse.
  set (depth := List.length l). set (rest := bang n +:+ closers l).
  assert (Hd : prefix_length (Ascii.eqb "[") (repeat_string depth "[" +:+ String a name +:+ rest) = depth).
  { rewrite prefix_length_app; [apply brackets_length|apply brackets_forallb|]. rewrite str_app_cons. cbn [prefix_length]. by rewrite Hnb. }
  cbv zeta. rewrite Hd. rewrite get_drop.
  rewrite <-(brackets_length depth) at 1. rewrite drop_app, str_app_cons. cbn [String.get].
  change (is_letter_byte a || Ascii.eqb a "_") with (is_name_start a). rewrite Ha. cbn [negb].
  set (src := repeat_string depth "[" +:+ String a (name +:+ rest)).
  assert (H1 : str_drop depth src = String a (name +:+ rest)).
  { unfold src. rewrite <-(brackets_length depth) at 1. apply drop_app. }
  assert (H2 : str_drop (S depth) src = name +:+ rest).
  { replace (S depth) with (depth + 1)%nat by lia. by rewrite <-drop_drop, H1. }
  assert (H3 : prefix_length is_name_byte (name +:+ rest) = String.length name).
  { apply prefix_length_app; [done|]. unfold rest. by destruct n, l. }
  assert (H4 : src = (repeat_string depth "[" +:+ String a name) +:+ rest) by (by rewrite str_app_assoc, str_app_cons).
  assert (H5 : (S depth + String.length name)%nat = String.length (repeat_string depth "[" +:+ String a name)).
  { rewrite str_length_app, brackets_length. cbn. lia. }
  rewrite H1, H2, H3. replace (S depth + String.length name - depth)%nat with (String.length (String a name)) by (cbn; lia).
  rewrite <-str_app_cons, take_app, H5, H4, contract_byte_at_app. unfold rest, depth. destruct n; cbn [bang].
  - rewrite str_app_nil_l, not_bang_closers. apply close_lists_closers.
  - change (byte_at_is ("!" +:+ closers l) 0 "!") with true. cbv iota.
    rewrite <-(str_app_assoc _ "!"). set (pre := repeat_string _ _ +:+ _).
    replace (S (String.length pre)) with (String.length (pre +:+ "!")) by (rewrite (str_length_app pre); cbn; lia).
    apply close_lists_closers.
Qed.

(** ** What the parser returns *)

Lemma close_lists_denotable source n offset t r :
  denotable t -> close_lists source n offset t = Ok r -> denotable r.
Proof.
  revert offset t. induction n as [|n IH]; intros offset t Ht; cbn [close_lists].
  - destruct (negb _); [done|]. by intros [= <-].
  - destruct (negb _); [done|]. destruct (byte_at_is _ _ _); by apply IH.
Qed.

Lemma named_denotable n name : identifier name = true -> denotable (TypeRef_new n (canonical_named_type name)).
Proof.
  intros Hi. pose proof (eq_refl (canonical_named_type name)) as Hc. unfold canonical_named_type at 2 in Hc. cbv zeta in Hc.
  rewrite Hc. repeat (match goal with |- context [if ?b then _ else _] => destruct b; [exact I|] end). done.
Qed.

Lemma parse_denotable s t : TypeRef_parse s = Ok t -> denotable t.
Proof.
  unfold TypeRef_parse. set (start := prefix_length _ s). destruct (String.get start s) as [a|] eqn:Ha; [|done].
  change (is_letter_byte a || Ascii.eqb a "_") with (is_name_start a). destruct (is_name_start a) eqn:Hs; [|done]. cbn [negb].
  set (m := prefix_length is_name_byte _). rewrite get_drop in Ha.
  assert (Hi : identifier (str_take (S start + m - start) (str_drop start s)) = true).
  { replace (S start + m - start)%nat with (S m) by lia. destruct (str_drop start s) as [|b rest] eqn:Hd; [done|].
    injection Ha as ->. cbn [str_take identifier]. rewrite Hs. cbn [andb].
    assert (Hr : str_drop (S start) s = rest) by (replace (S start) with (start + 1)%nat by lia; by rewrite <-drop_drop, Hd).
    unfold m. rewrite Hr. apply prefix_length_take. }
  destruct (byte_at_is _ _ _); intros H; eapply close_lists_denotable, H; by apply named_denotable.
Qed.

Lemma denotable_parses t : denotable t -> TypeRef_parse (type_text t) = Ok t.
Proof. intros Ht. destruct (denotable_spine t Ht) as (l & n & base & name & -> & Hi & <- & ->). by apply parse_spine. Qed.

(** The types that some text denotes are the built-in scalars, the
    references by a name that is no scalar's, and the lists of these; each is
    read back from its text. *)
Theorem TypeRef_parse_text t :
  (denotable t <-> exists s, TypeRef_parse s = Ok t)
  /\ (denotable t <-> TypeRef_parse (type_text t) = Ok t).
Proof.
  split; (split; [intros Ht%denotable_parses|]); [by exists (type_text t)|intros [s Hs]; by eapply parse_denotable|done|apply parse_denotable].
Qed.

Example parse_alias : TypeRef_parse "[[bool!]!]" = Ok (TypeRef_new true (ListOf (TypeRef_new false (ListOf (TypeRef_new false (Scalar SBoolean)))))).
Proof. reflexivity. Qed.

Example parse_unclosed :
  TypeRef_parse "[[int]" = Err (InvalidTypeRef "invalid type reference at byte 6: expected `]`").
Proof. reflexivity. Qed.
