(* ===== verification/KeyedMap.v ===== *)
(** * Maps in the order of their keys

    [BTreeMap] over keys other than strings: pairs, and the identifiers of the
    connector ABI, compared by the [Ord] of their type. *)
From S2P Require Import Prelude.

(** [Ord], and what a map needs of it. *)
Class Ordered (K : Type) := {
  key_compare : K -> K -> comparison;
  key_compare_eq a b : key_compare a b = Eq <-> a = b;
}.

Definition key_dec {K} `{Ordered K} (a b : K) : {a = b} + {a <> b}.
Proof.
  destruct (key_compare a b) eqn:E; [left; by apply key_compare_eq|right; intros ->..]; by rewrite (proj2 (key_compare_eq b b) eq_refl) in E.
Defined.

#[export] Instance string_ordered : Ordered string.
Proof.
  refine {| key_compare := String.compare |}. intros a b. split; [apply String.compare_eq_iff|intros ->; apply str_compare_refl].
Defined.

Lemma key_compare_refl {K} `{Ordered K} (k : K) : key_compare k k = Eq.
Proof. by apply key_compare_eq. Qed.

Definition pair_compare {A B} `{Ordered A, Ordered B} (x y : A * B) : comparison :=
  match key_compare x.1 y.1 with Eq => key_compare x.2 y.2 | c => c end.

#[export] Instance pair_ordered {A B} `{Ordered A, Ordered B} : Ordered (A * B).
Proof.
  refine {| key_compare := pair_compare |}. intros [a b] [c d]. unfold pair_compare. cbn. destruct (key_compare a c) eqn:E.
  - apply key_compare_eq in E as ->. rewrite key_compare_eq. split; [by intros ->|by intros [= ->]].
  - split; [done|]. intros [= -> _]. by rewrite key_compare_refl in E.
  - split; [done|]. intros [= -> _]. by rewrite key_compare_refl in E.
Defined.

Section Maps.
Context {K : Type} `{Ordered K} {A : Type}.

Definition keyed : Type := list (K * A).

Fixpoint km_get (m : keyed) (k : K) : option A :=
  match m with
  | [] => None
  | (k', v) :: m => match key_compare k k' with Eq => Some v | _ => km_get m k end
  end.

(** [BTreeMap::insert]. *)
Fixpoint km_insert (m : keyed) (k : K) (v : A) : keyed :=
  match m with
  | [] => [(k, v)]
  | (k', v') :: m =>
      match key_compare k k' with
      | Lt => (k, v) :: (k', v') :: m
      | Eq => (k', v) :: m
      | Gt => (k', v') :: km_insert m k v
      end
  end.

Definition km_contains (m : keyed) (k : K) : bool := match km_get m k with Some _ => true | None => false end.

Lemma km_get_insert m k v : km_get (km_insert m k v) k = Some v.
Proof using Type.
  induction m as [|[k' v'] m IH]; cbn; [by rewrite key_compare_refl|].
  destruct (key_compare k k') eqn:E; cbn; rewrite ?key_compare_refl, ?E; done.
Qed.

Lemma km_get_insert_ne m k v k' : k' <> k -> km_get (km_insert m k v) k' = km_get m k'.
Proof using Type.
  intros Hne. assert (Hk : key_compare k' k <> Eq) by (by rewrite key_compare_eq).
  induction m as [|[k1 v1] m IH]; cbn; [by destruct (key_compare k' k)|].
  destruct (key_compare k k1) eqn:E; cbn.
  - apply key_compare_eq in E as ->. by destruct (key_compare k' k1).
  - by destruct (key_compare k' k).
  - by rewrite IH.
Qed.

(** A key of the map is never lost. *)
Lemma km_insert_contains m k v k' : km_contains m k' = true -> km_contains (km_insert m k v) k' = true.
Proof using Type.
  unfold km_contains. destruct (key_compare k' k) eqn:E.
  - apply key_compare_eq in E as ->. by rewrite km_get_insert.
  - intros. rewrite km_get_insert_ne; [done|]. intros ->. by rewrite key_compare_refl in E.
  - intros. rewrite km_get_insert_ne; [done|]. intros ->. by rewrite key_compare_refl in E.
Qed.

Lemma km_get_In m k v : km_get m k = Some v -> In (k, v) m.
Proof using Type.
  induction m as [|[k' v'] m IH]; [done|]. cbn. destruct (key_compare k k') eqn:E; [|by right; auto..].
  apply key_compare_eq in E as ->. intros [= ->]. by left.
Qed.

Lemma km_insert_In m k v x : In x (km_insert m k v) -> x = (k, v) \/ In x m.
Proof using Type.
  induction m as [|[k' v'] m IH]; cbn; [intros [<-|[]]; by left|].
  destruct (key_compare k k') eqn:E; cbn.
  - apply key_compare_eq in E as ->. intros [<-|?]; [by left|tauto].
  - intros [<-|?]; [by left|tauto].
  - intros [<-|?]; [tauto|]. destruct (IH H0); tauto.
Qed.
End Maps.
Arguments keyed : clear implicits.

(** ** Maps and sets by strings *)

Lemma bt_insert_get {A} (m : btree A) k v k' : bt_get (bt_insert m k v) k' = if String.eqb k' k then Some v else bt_get m k'.
Proof.
  induction m as [|[k0 v0] m IH]; cbn; [done|]. destruct (String.compare k k0) eqn:E; cbn.
  - apply String.compare_eq_iff in E as ->. by destruct (String.eqb k' k0).
  - done.
  - rewrite IH. destruct (String.eqb_spec k' k0) as [->|]; [|done]. destruct (String.eqb_spec k0 k) as [->|]; [|done].
    by rewrite str_compare_refl in E.
Qed.

(** [BTreeMap::get] of a map over the entries. *)
Lemma bt_get_map {A B} (f : string * A -> B) (m : btree A) k :
  bt_get (map (fun kv => (kv.1, f kv)) m) k = option_map (fun v => f (k, v)) (bt_get m k).
Proof. induction m as [|[k' v'] m IH]; cbn; [done|]. destruct (String.eqb_spec k k') as [->|]; done. Qed.

Lemma bt_collect_constant {A} (v : A) (l : list (string * A)) k :
  (forall kv, In kv l -> kv.2 = v) -> bt_get (bt_collect l) k = Some v <-> In k (map fst l).
Proof.
  intros Hv. pose proof (bt_collect_keys l k) as Hk. split.
  - intros Hg%bt_get_In. by apply Hk, (in_map fst _ (k, v)).
  - intros Hin. apply Hk, bt_get_is_Some in Hin as [w Hw]. rewrite Hw. f_equal.
    assert (HP : Forall (fun kv : string * A => kv.2 = v) (bt_collect l)) by (apply bt_collect_Forall; by apply List.Forall_forall).
    by apply (bt_get_Forall _ _ _ _ HP Hw).
Qed.
