(* ===== verification/AbiIds.v ===== *)
(** * Identifiers of the connector ABI ([crates/connector-abi/src/ids.rs])

    [InlineId] keeps the bytes of an identifier in an array of fixed length with
    the length apart; the types of identifiers wrap it.  The derived order
    compares the lengths first. *)
From S2P Require Import Prelude KeyedMap.

Inductive AbiError : Type :=
| InvalidId
| InvalidValue (message : string)
| EmptyCollection
| LimitExceeded (limit : string)
| SizeOverflow.

Definition ABI_ID_CAPACITY : Z := 96.

Record InlineId := { id_len : Z; id_bytes : string }.

#[export] Instance InlineId_eq_dec : EqDecision InlineId.
Proof. solve_decision. Defined.

Definition zero_byte : string := String "000" "".

(** The array of [ABI_ID_CAPACITY] bytes that [copy_bytes] fills. *)
Definition copy_bytes (source : string) : InlineId := {|
  id_len := Z.of_nat (String.length source) mod 256;
  id_bytes := source +:+ repeat_string (Z.to_nat ABI_ID_CAPACITY - String.length source) zero_byte;
|}.

Definition is_alphanumeric (byte : ascii) : bool := is_ascii_lower_byte byte || is_ascii_digit_byte byte.
Definition is_separator (byte : ascii) : bool := Ascii.eqb byte "." || Ascii.eqb byte "-" || Ascii.eqb byte "_".

(** The loop of [valid_id] from one index on. *)
Fixpoint valid_id_loop (index length : nat) (value : string) : bool :=
  match value with
  | EmptyString => true
  | String byte value =>
      if negb (is_alphanumeric byte) && negb (is_separator byte) then false
      else if ((index =? 0) || (S index =? length))%nat && negb (is_alphanumeric byte) then false
      else valid_id_loop (S index) length value
  end.

Definition valid_id (value : string) : bool :=
  if String.eqb value "" || (ABI_ID_CAPACITY <? Z.of_nat (String.length value)) then false
  else valid_id_loop 0 (String.length value) value.

Definition InlineId_parse (value : string) : result AbiError InlineId :=
  if valid_id value then Ok (copy_bytes value) else Err InvalidId.

Definition InlineId_as_str (id : InlineId) : string := str_take (Z.to_nat (id_len id)) (id_bytes id).

(** [#[derive(Ord)]]: the fields in their order. *)
Definition InlineId_cmp (a b : InlineId) : comparison :=
  match Z.compare (id_len a) (id_len b) with Eq => String.compare (id_bytes a) (id_bytes b) | c => c end.

#[export] Instance InlineId_ordered : Ordered InlineId.
Proof.
  refine {| key_compare := InlineId_cmp |}. intros [l b] [l' b']. unfold InlineId_cmp. cbn. destruct (Z.compare_spec l l') as [->|Hl|Hl].
  - split; [by intros ->%String.compare_eq_iff|]. intros [= ->]. apply str_compare_refl.
  - split; [done|]. intros [= -> _]. lia.
  - split; [done|]. intros [= -> _]. lia.
Defined.

Abbreviation OperationId := InlineId (only parsing).
Abbreviation TriggerId := InlineId (only parsing).
Abbreviation ConnectorId := InlineId (only parsing).
Abbreviation CompiledStepId := InlineId (only parsing).
Abbreviation AuthenticatorId := InlineId (only parsing).
Abbreviation CodecId := InlineId (only parsing).
Abbreviation NormalizerId := InlineId (only parsing).
Abbreviation ProcessorFamilyId := InlineId (only parsing).
Abbreviation CapabilityId := InlineId (only parsing).
Abbreviation BindingSlotId := InlineId (only parsing).

(** ** Identifiers and their texts *)

Lemma valid_id_length value : valid_id value = true -> 0 < Z.of_nat (String.length value) <= ABI_ID_CAPACITY.
Proof.
  unfold valid_id. destruct (String.eqb_spec value "") as [->|Hne]; [done|]. cbn [orb].
  destruct (Z.ltb_spec ABI_ID_CAPACITY (Z.of_nat (String.length value))); [done|]. intros _. split; [|lia]. destruct value; [done|]. cbn [String.length]. lia.
Qed.

(** The text of a parsed identifier is the text it was parsed from. *)
Lemma InlineId_parse_as_str value id : InlineId_parse value = Ok id -> InlineId_as_str id = value.
Proof.
  unfold InlineId_parse. destruct (valid_id value) eqn:Hv; [|done]. apply valid_id_length in Hv. intros [= <-].
  unfold InlineId_as_str, copy_bytes. cbn. rewrite Z.mod_small, Nat2Z.id by (unfold ABI_ID_CAPACITY in Hv; lia). apply take_app.
Qed.

Lemma repeat_zero_length n : String.length (repeat_string n zero_byte) = n.
Proof. induction n as [|n IH]; [done|]. cbn [repeat_string]. by rewrite str_length_app, IH. Qed.

Lemma valid_id_loop_spec value : forall index length,
  valid_id_loop index length value = true
  <-> forall i byte, String.get i value = Some byte ->
        is_alphanumeric byte = true
        \/ is_separator byte = true /\ (index + i)%nat <> 0%nat /\ S (index + i) <> length.
Proof.
  induction value as [|a value IH]; intros index length; cbn [valid_id_loop]; [split; [intros _ [|i] ?; done|done]|].
  assert (Hsplit : (forall i byte, String.get i (String a value) = Some byte ->
      is_alphanumeric byte = true \/ is_separator byte = true /\ (index + i)%nat <> 0%nat /\ S (index + i) <> length)
    <-> (is_alphanumeric a = true \/ is_separator a = true /\ index <> 0%nat /\ S index <> length)
        /\ forall i byte, String.get i value = Some byte ->
             is_alphanumeric byte = true \/ is_separator byte = true /\ (S index + i)%nat <> 0%nat /\ S (S index + i) <> length).
  { split.
    - intros H. split; [specialize (H 0%nat a eq_refl); by rewrite Nat.add_0_r in H|]. intros i byte Hb. specialize (H (S i) byte Hb).
      by rewrite Nat.add_succ_r in H.
    - intros [Ha H] [|i] byte Hb; [injection Hb as <-; by rewrite Nat.add_0_r|]. specialize (H i byte Hb). by rewrite Nat.add_succ_r. }
  rewrite Hsplit, <-IH. clear.
  destruct (is_alphanumeric a), (is_separator a), (Nat.eqb_spec index 0), (Nat.eqb_spec (S index) length); cbn; intuition (discriminate || lia).
Qed.

(** A text is an identifier exactly when it has between one byte and the
    capacity of the array, all lower case letters, digits or separators, with no
    separator at either end. Two parsed identifiers are equal, in their derived
    order too, exactly when their texts are, and each gives its text back. *)
Theorem InlineId_parse_spec a :
  ((exists x, InlineId_parse a = Ok x)
   <-> (0 < String.length a <= Z.to_nat ABI_ID_CAPACITY)%nat
       /\ forall i byte, String.get i a = Some byte ->
            is_alphanumeric byte = true \/ is_separator byte = true /\ i <> 0%nat /\ S i <> String.length a)
  /\ forall x b y, InlineId_parse a = Ok x -> InlineId_parse b = Ok y ->
       InlineId_as_str x = a /\ (x = y <-> a = b) /\ (key_compare x y = Eq <-> a = b)
       /\ String.length (id_bytes x) = Z.to_nat ABI_ID_CAPACITY.
Proof.
  split.
  - transitivity (valid_id a = true); [unfold InlineId_parse; destruct (valid_id a); split; [done|by eauto|by intros [? ?]|done]|]. split.
    + intros Hv. pose proof (valid_id_length a Hv) as Hl. split; [unfold ABI_ID_CAPACITY in *; lia|].
      unfold valid_id in Hv. destruct (_ || _); [done|]. exact (proj1 (valid_id_loop_spec a 0 _) Hv).
    + intros [Hl Hb]. unfold valid_id. destruct (String.eqb_spec a "") as [->|]; [cbn in Hl; lia|]. cbn [orb].
      destruct (Z.ltb_spec ABI_ID_CAPACITY (Z.of_nat (String.length a))); [unfold ABI_ID_CAPACITY in *; lia|]. by apply valid_id_loop_spec.
  - intros x b y Hx Hy. pose proof (InlineId_parse_as_str _ _ Hx) as Sx. pose proof (InlineId_parse_as_str _ _ Hy) as Sy.
    assert (Heq : x = y <-> a = b) by (split; [intros ->|intros ->]; congruence).
    split; [done|]. split; [done|]. split; [by rewrite key_compare_eq|].
    unfold InlineId_parse in Hx. destruct (valid_id a) eqn:Hv; [|done]. apply valid_id_length in Hv. injection Hx as <-.
    cbn [copy_bytes id_bytes]. rewrite str_length_app, repeat_zero_length. unfold ABI_ID_CAPACITY in *. lia.
Qed.
