(* ===== verification/ConnectorAbi.v ===== *)
(** * Values across the connector boundary ([crates/connector-abi/src/envelope.rs])

    The bounded values that pass between the runtime and a connector: each has
    one constructor, which checks its limits; a failed check is an [AbiError]. *)
From S2P Require Import Prelude KeyedMap Json ValueContract AbiIds.
Set Warnings "-register-all".

Definition MAXIMUM_SAFE_STRING_BYTES : Z := 262144.
Definition MAXIMUM_BOUNDED_BYTES : Z := 1048576.
Definition MAXIMUM_BINDING_SLOTS : Z := 64.
Definition MAXIMUM_SELECTED_HEADERS : Z := 64.
Definition MAXIMUM_HEADER_VALUE_BYTES : Z := 8192.
Definition MAXIMUM_RETAINED_HEADER_BYTES : Z := 32768.
Definition MAXIMUM_TRANSPORT_RESPONSE_BYTES : Z := 1048576.
Definition MAXIMUM_CANONICAL_OUTPUT_BYTES : Z := 262144.
Definition MAXIMUM_JSON_DEPTH : Z := 64.
Definition MAXIMUM_JSON_NODES : Z := 100000.
Definition MAXIMUM_RETRY_AFTER_SECONDS : Z := 86400.
Definition MAXIMUM_CORRELATION_IDS : Z := 64.
Definition MAXIMUM_SAFE_MESSAGE_BYTES : Z := 1024.
Definition ABI_MAXIMUM_INLINE_VALUES : Z := 16.
Definition ABI_MAXIMUM_DECODED_INLINE_BYTES : Z := 131072.

Definition byte_length (s : string) : Z := Z.of_nat (String.length s).

(** ** Safe messages *)

Record StaticSafeMessage := { message_len : Z; message_bytes : string }.

Fixpoint validate_safe_message_bytes_loop (source : string) : result AbiError unit :=
  match source with
  | EmptyString => Ok tt
  | String byte source =>
      let ascii_control := (byte_val byte <=? 0x1f) || (byte_val byte =? 0x7f) in
      let unicode_c1_control :=
        (byte_val byte =? 0xc2)
        && match source with
           | EmptyString => false
           | String next _ => (0x80 <=? byte_val next) && (byte_val next <=? 0x9f)
           end in
      if ascii_control || unicode_c1_control then
        Err (InvalidValue "connector failure safe message must not contain control characters")
      else validate_safe_message_bytes_loop source
  end.

Definition validate_safe_message_bytes (source : string) : result AbiError unit :=
  if String.eqb source "" then Err (InvalidValue "connector failure safe message must not be empty")
  else if MAXIMUM_SAFE_MESSAGE_BYTES <? byte_length source then Err (LimitExceeded "connector failure safe message bytes")
  else validate_safe_message_bytes_loop source.

Definition StaticSafeMessage_try_copy (value : string) : result AbiError StaticSafeMessage :=
  _ ← validate_safe_message_bytes value;
  Ok {| message_len := byte_length value mod 65536;
        message_bytes := value +:+ repeat_string (Z.to_nat MAXIMUM_SAFE_MESSAGE_BYTES - String.length value) zero_byte |}.

Definition StaticSafeMessage_as_str (m : StaticSafeMessage) : string := str_take (Z.to_nat (message_len m)) (message_bytes m).

(** ** Bounded strings and bytes *)

(** [char::is_control]: the category Cc. *)
Definition is_control (c : char) : bool :=
  match c with
  | String a EmptyString => (byte_val a <=? 0x1f) || (byte_val a =? 0x7f)
  | String a (String b EmptyString) => (byte_val a =? 0xc2) && (0x80 <=? byte_val b) && (byte_val b <=? 0x9f)
  | _ => false
  end.

Record BoundedString := { bounded_text : string }.

Definition BoundedString_try_new (value : string) (maximum_bytes : Z) : result AbiError BoundedString :=
  if MAXIMUM_SAFE_STRING_BYTES <? maximum_bytes then Err (LimitExceeded "declared safe string bytes")
  else if maximum_bytes <? byte_length value then Err (LimitExceeded "safe string bytes")
  else if existsb is_control (chars value) then Err (InvalidValue "safe strings must not contain control characters")
  else Ok {| bounded_text := value |}.

Definition BoundedString_len (s : BoundedString) : Z := byte_length (bounded_text s).
Definition BoundedString_is_empty (s : BoundedString) : bool := String.eqb (bounded_text s) "".

Record BoundedBytes := { bounded_bytes : string }.

Definition BoundedBytes_try_new (bytes : string) (maximum_bytes : Z) : result AbiError BoundedBytes :=
  if MAXIMUM_BOUNDED_BYTES <? maximum_bytes then Err (LimitExceeded "declared bounded bytes")
  else if maximum_bytes <? byte_length bytes then Err (LimitExceeded "bounded bytes")
  else Ok {| bounded_bytes := bytes |}.

Record NonEmptyVec (T : Type) := { head : T; tail : list T }.
Arguments head {T}.
Arguments tail {T}.

Definition NonEmptyVec_try_new {T} (values : list T) : result AbiError (NonEmptyVec T) :=
  match values with
  | [] => Err EmptyCollection
  | head :: tail => Ok {| head := head; tail := tail |}
  end.

Definition NonEmptyVec_iter {T} (v : NonEmptyVec T) : list T := head v :: tail v.

(** ** Limits of typed values *)

Record ValueCounters := { counted_nodes : Z; counted_inline : Z; counted_bytes : Z }.

Definition usize_add (a b : Z) : result AbiError Z := ok_or SizeOverflow (checked 0 usize_max (a + b)).

(** One turn of the loop over the values that wait with their depth. *)
Definition validate_value_step (counters : ValueCounters) (vd : TypedValue * Z) :
    result AbiError (ValueCounters * list (TypedValue * Z)) :=
  let (value, depth) := vd in
  if MAXIMUM_JSON_DEPTH <? depth then Err (LimitExceeded "typed value nesting depth")
  else
    nodes ← usize_add (counted_nodes counters) 1;
    if MAXIMUM_JSON_NODES <? nodes then Err (LimitExceeded "typed value node count")
    else
      let counters := {| counted_nodes := nodes; counted_inline := counted_inline counters; counted_bytes := counted_bytes counters |} in
      match value with
      | Text s =>
          if MAXIMUM_SAFE_STRING_BYTES <? byte_length s then Err (LimitExceeded "individual typed string bytes")
          else Ok (counters, [])
      | List_ values => Ok (counters, map (fun value => (value, depth + 1)) values)
      | Object_ values =>
          _ ← each_result (fun nv : string * TypedValue =>
                if MAXIMUM_SAFE_STRING_BYTES <? byte_length nv.1 then Err (LimitExceeded "individual typed string bytes")
                else Ok tt) values;
          Ok (counters, map (fun nv => (nv.2, depth + 1)) values)
      | InlineBytes b =>
          inline_values ← usize_add (counted_inline counters) 1;
          if ABI_MAXIMUM_INLINE_VALUES <? inline_values then Err (LimitExceeded "inline value count")
          else
            decoded ← usize_add (counted_bytes counters) (byte_length (bytes b));
            if ABI_MAXIMUM_DECODED_INLINE_BYTES <? decoded then Err (LimitExceeded "aggregate decoded inline bytes")
            else Ok ({| counted_nodes := nodes; counted_inline := inline_values; counted_bytes := decoded |}, [])
      | Null | Boolean _ | Number _ => Ok (counters, [])
      end.

(** The fuel is one more than the values to visit; exhausted fuel is the error
    that no value gives. *)
Definition validate_typed_value_root (counters : ValueCounters) (root : TypedValue) : result AbiError ValueCounters :=
  match pop_loop validate_value_step (S (value_count root)) counters [(root, 0)] with
  | Some r => r
  | None => Err SizeOverflow
  end.

Definition validate_typed_value_roots (roots : list TypedValue) : result AbiError unit :=
  _ ← fold_result validate_typed_value_root {| counted_nodes := 0; counted_inline := 0; counted_bytes := 0 |} roots; Ok tt.

Definition canonical_size_within (value : TypedValue) (bound : string) : result AbiError Z :=
  map_err (fun _ => LimitExceeded bound) (canonical_size value).

(** ** Inbound events *)

Definition validate_inbound_value (value : TypedValue) (bound : string) : result AbiError unit :=
  _ ← validate_typed_value_roots [value];
  size ← canonical_size_within value bound;
  if MAXIMUM_CANONICAL_OUTPUT_BYTES <? size then Err (LimitExceeded bound) else Ok tt.

Record VerifiedInboundEvent := {
  provider_event_id : BoundedString;
  event_type : BoundedString;
  event_output : TypedValue;
  payload_digest : string;
  redacted_metadata : TypedValue;
}.

Definition is_object_value (v : TypedValue) : bool := match v with Object_ _ => true | _ => false end.

Definition VerifiedInboundEvent_try_new (provider_event_id event_type : BoundedString) (output : TypedValue)
    (payload_digest : string) (redacted_metadata : TypedValue) : result AbiError VerifiedInboundEvent :=
  if BoundedString_is_empty provider_event_id then Err (InvalidValue "verified provider event ID must not be empty")
  else if BoundedString_is_empty event_type then Err (InvalidValue "verified provider event type must not be empty")
  else if negb (is_object_value output) then Err (InvalidValue "verified provider event output must be an object")
  else if negb (is_object_value redacted_metadata) then Err (InvalidValue "verified event metadata must be an object")
  else
    _ ← validate_inbound_value output "verified event output canonical bytes";
    _ ← validate_inbound_value redacted_metadata "verified event metadata canonical bytes";
    Ok {| provider_event_id := provider_event_id; event_type := event_type; event_output := output;
          payload_digest := payload_digest; redacted_metadata := redacted_metadata |}.

(** ** Bindings *)

Record TypedBindings := { slots : keyed BindingSlotId TypedValue }.

Definition add_binding_bytes (canonical_bytes : Z) (slot : BindingSlotId * TypedValue) : result AbiError Z :=
  value_bytes ← canonical_size_within slot.2 "binding canonical bytes";
  canonical_bytes ← usize_add canonical_bytes value_bytes;
  if MAXIMUM_CANONICAL_OUTPUT_BYTES <? canonical_bytes then Err (LimitExceeded "binding canonical bytes") else Ok canonical_bytes.

Definition TypedBindings_try_new (slots : keyed BindingSlotId TypedValue) : result AbiError TypedBindings :=
  if MAXIMUM_BINDING_SLOTS <? Z.of_nat (List.length slots) then Err (LimitExceeded "binding slots")
  else
    _ ← validate_typed_value_roots (map snd slots);
    _ ← fold_result add_binding_bytes 0 slots;
    Ok {| slots := slots |}.

(** ** Responses *)

Abbreviation Headers := (keyed CapabilityId BoundedString).

Record AuthorizedCorrelations := { correlation_values : Headers }.

Record BoundedTransportResponse := {
  status : Z;
  selected_headers : Headers;
  decoded : TypedValue;
  response_bytes : Z;
  authorized_correlations : AuthorizedCorrelations;
}.

Definition add_header_bytes (aggregate_bytes : Z) (header : CapabilityId * BoundedString) : result AbiError Z :=
  if MAXIMUM_HEADER_VALUE_BYTES <? BoundedString_len header.2 then Err (LimitExceeded "selected header value bytes")
  else
    aggregate_bytes ← ok_or SizeOverflow
      (size ← checked 0 usize_max (aggregate_bytes + byte_length (InlineId_as_str header.1));
       checked 0 usize_max (size + BoundedString_len header.2));
    if MAXIMUM_RETAINED_HEADER_BYTES <? aggregate_bytes then Err (LimitExceeded "aggregate retained header bytes") else Ok aggregate_bytes.

Definition validate_headers (headers : Headers) (maximum_entries : Z) : result AbiError unit :=
  if maximum_entries <? Z.of_nat (List.length headers) then Err (LimitExceeded "selected headers")
  else _ ← fold_result add_header_bytes 0 headers; Ok tt.

Definition validate_response (selected_headers : Headers) (decoded : TypedValue) (response_bytes : Z) : result AbiError unit :=
  _ ← validate_headers selected_headers MAXIMUM_SELECTED_HEADERS;
  if MAXIMUM_TRANSPORT_RESPONSE_BYTES <? response_bytes then Err (LimitExceeded "transport response bytes")
  else
    _ ← validate_typed_value_roots [decoded];
    output_bytes ← canonical_size_within decoded "canonical output bytes";
    if MAXIMUM_CANONICAL_OUTPUT_BYTES <? output_bytes then Err (LimitExceeded "canonical output bytes") else Ok tt.

Definition BoundedTransportResponse_try_new (status : Z) (selected_headers : Headers) (decoded : TypedValue) (response_bytes : Z) :
    result AbiError BoundedTransportResponse :=
  _ ← validate_response selected_headers decoded response_bytes;
  Ok {| status := status; selected_headers := selected_headers; decoded := decoded; response_bytes := response_bytes;
        authorized_correlations := {| correlation_values := [] |} |}.

Definition authorize_correlation (selected_headers : Headers) (sv : keyed CapabilityId unit * Headers) (id : CapabilityId) :
    result AbiError (keyed CapabilityId unit * Headers) :=
  let (seen, values) := sv in
  if km_contains seen id then Err (InvalidValue "correlation authorization contains a duplicate capability")
  else
    Ok (km_insert seen id tt,
        match km_get selected_headers id with Some value => km_insert values id value | None => values end).

Definition authorize_correlations (selected_headers : Headers) (allowed_correlations : list CapabilityId) :
    result AbiError AuthorizedCorrelations :=
  _ ← validate_headers selected_headers MAXIMUM_SELECTED_HEADERS;
  if MAXIMUM_CORRELATION_IDS <? Z.of_nat (List.length allowed_correlations) then
    Err (LimitExceeded "correlation authorization entries")
  else
    sv ← fold_result (authorize_correlation selected_headers) ([], []) allowed_correlations;
    Ok {| correlation_values := sv.2 |}.

Definition host_transport_response (status : Z) (selected_headers : Headers) (decoded : TypedValue) (response_bytes : Z)
    (allowed_correlations : list CapabilityId) : result AbiError BoundedTransportResponse :=
  _ ← validate_response selected_headers decoded response_bytes;
  authorized_correlations ← authorize_correlations selected_headers allowed_correlations;
  Ok {| status := status; selected_headers := selected_headers; decoded := decoded; response_bytes := response_bytes;
        authorized_correlations := authorized_correlations |}.

(** ** Failures *)

Inductive ConnectorErrorClass : Type :=
| ClassTransport | ClassTimeout | ClassHttp429 | ClassHttp5xx | ClassAuthentication | ClassValidation | ClassPermanent | ClassInvariant.

Record ConnectorFailure := {
  failure_class : ConnectorErrorClass;
  failure_code : InlineId;
  safe_message : StaticSafeMessage;
  retry_after_seconds : option Z;
  correlation_ids : Headers;
}.

Definition ConnectorFailure_try_new (class : ConnectorErrorClass) (code : InlineId) (safe_message : StaticSafeMessage)
    (retry_after_seconds : option Z) (correlations : option AuthorizedCorrelations) : result AbiError ConnectorFailure :=
  Ok {| failure_class := class; failure_code := code; safe_message := safe_message;
        retry_after_seconds := option_map (fun seconds => Z.min seconds MAXIMUM_RETRY_AFTER_SECONDS) retry_after_seconds;
        correlation_ids := match correlations with Some authority => correlation_values authority | None => [] end |}.
