(* ===== verification/ConnectorAbiSpec.v ===== *)
(** * The limits of the connector boundary ([crates/connector-abi/src/envelope.rs])

    The walk over a value accepts exactly the values within the limits of depth,
    nodes, strings and inline bytes; a response carries the correlations the host
    authorised and no others. *)
From S2P Require Import Prelude KeyedMap Json ValueContract ContractValidity ContractSize AbiIds ConnectorAbi.
Set Warnings "-register-all".

(** ** Measures of a value *)

(** The nesting below a value. *)
Fixpoint value_depth (v : TypedValue) : Z :=
  match v with
  | List_ l => fold_right Z.max 0 (map (fun v => 1 + value_depth v) l)
  | Object_ o => fold_right Z.max 0 (map (fun nv => 1 + value_depth nv.2) o)
  | _ => 0
  end.

(** The texts and the names of members are within the limit of one string. *)
Definition own_short (v : TypedValue) : Prop :=
  match v with
  | Text s => byte_length s <= MAXIMUM_SAFE_STRING_BYTES
  | Object_ o => Forall (fun nv => byte_length nv.1 <= MAXIMUM_SAFE_STRING_BYTES) o
  | _ => True
  end.

Fixpoint short (v : TypedValue) : Prop :=
  own_short v
  /\ match v with
     | List_ l => fold_right and True (map short l)
     | Object_ o => fold_right and True (map (fun nv => short nv.2) o)
     | _ => True
     end.

Definition node_count (v : TypedValue) : Z := Z.of_nat (value_count v).

(** What the walk accepts of several values together. *)
Definition values_within (l : list TypedValue) : Prop :=
  Forall (fun v => value_depth v <= MAXIMUM_JSON_DEPTH /\ short v) l
  /\ total node_count l <= MAXIMUM_JSON_NODES /\ total inline_count l <= ABI_MAXIMUM_INLINE_VALUES
  /\ total inline_bytes l <= ABI_MAXIMUM_DECODED_INLINE_BYTES.

(** ** One value *)

#[export] Instance limited_proper {E A} : Proper (iff ==> eq ==> eq ==> iff) (@limited E A).
Proof. intros b b' Hb x ? <- r ? <-. unfold limited. by setoid_rewrite Hb. Qed.

Lemma limited_add {E} a b (e : E) : 0 <= a + b -> limited (a + b <= usize_max) (a + b) (ok_or e (checked 0 usize_max (a + b))).
Proof.
  intros Hz y. split; [intros (-> & _ & H)%ok_or_Ok%checked_Some; by split|].
  intros [-> H]. by rewrite (proj2 (checked_Some 0 usize_max _ _) (conj eq_refl (conj Hz H))).
Qed.

Definition with_counters (c : ValueCounters) (v : TypedValue) : ValueCounters :=
  {| counted_nodes := counted_nodes c + 1; counted_inline := counted_inline c + own_inline v; counted_bytes := counted_bytes c + own_bytes v |}.

Definition tallied (c : ValueCounters) : Prop :=
  0 <= counted_nodes c <= MAXIMUM_JSON_NODES /\ 0 <= counted_inline c <= ABI_MAXIMUM_INLINE_VALUES
  /\ 0 <= counted_bytes c <= ABI_MAXIMUM_DECODED_INLINE_BYTES.

Definition at_depth (d : Z) (l : list TypedValue) : list (TypedValue * Z) := map (fun v => (v, d)) l.

Ltac limits := unfold MAXIMUM_JSON_NODES, ABI_MAXIMUM_INLINE_VALUES, ABI_MAXIMUM_DECODED_INLINE_BYTES, usize_max in *.

Lemma abi_limited_names o :
  limited (own_short (Object_ o)) tt
    (each_result (fun nv : string * TypedValue =>
       if MAXIMUM_SAFE_STRING_BYTES <? byte_length nv.1 then Err (LimitExceeded "individual typed string bytes") else Ok tt) o).
Proof.
  intros []. rewrite each_result_Ok. cbn. rewrite !List.Forall_forall.
  assert (Hone : forall nv : string * TypedValue, (if MAXIMUM_SAFE_STRING_BYTES <? byte_length nv.1 then Err (LimitExceeded "individual typed string bytes") else Ok tt) = Ok tt
    <-> byte_length nv.1 <= MAXIMUM_SAFE_STRING_BYTES).
  { intros nv. destruct (Z.ltb_spec MAXIMUM_SAFE_STRING_BYTES (byte_length nv.1)); split; try done; lia. }
  split; [intros H; split; [done|]|intros [_ H]]; intros nv Hin; by apply Hone, H.
Qed.

Lemma limited_step c v d :
  tallied c ->
  limited (d <= MAXIMUM_JSON_DEPTH /\ own_short v /\ tallied (with_counters c v)) (with_counters c v, at_depth (d + 1) (children v))
    (validate_value_step c (v, d)).
Proof.
  intros (Hn & Hi & Hb). unfold validate_value_step, with_counters, tallied. cbn [counted_nodes counted_inline counted_bytes].
  assert (Hob : 0 <= own_inline v /\ 0 <= own_bytes v) by (destruct v; cbn; try lia; split; [lia|apply text_len_nonneg]).
  apply limited_guard; [intros [? _]; lia|intros Hd]. limits.
  eapply limited_bind; [apply limited_add; lia|limits; lia|intros _].
  apply limited_guard; [lia|intros ?].
  assert (Hleaf : own_inline v = 0 -> own_bytes v = 0 -> own_short v -> children v = [] -> forall n i b,
    n = counted_nodes c + 1 -> i = counted_inline c -> b = counted_bytes c ->
    limited (d <= MAXIMUM_JSON_DEPTH /\ own_short v /\ 0 <= counted_nodes c + 1 <= 100000 /\ 0 <= counted_inline c + own_inline v <= 16
      /\ 0 <= counted_bytes c + own_bytes v <= 131072)
      ({| counted_nodes := counted_nodes c + 1; counted_inline := counted_inline c + own_inline v; counted_bytes := counted_bytes c + own_bytes v |},
       at_depth (d + 1) (children v))
      (Ok ({| counted_nodes := n; counted_inline := i; counted_bytes := b |}, []) : result AbiError _)).
  { intros H1 H2 Hs H3 ? ? ? -> -> ->. rewrite H1, H2, H3, !Z.add_0_r. apply limited_Ok. split_and!; try done; lia. }
  destruct v as [|b|s|z|l|o|b].
  - by apply Hleaf.
  - by apply Hleaf.
  - apply limited_guard; [cbn; lia|intros ?]. apply Hleaf; try done. cbn. lia.
  - by apply Hleaf.
  - cbn [own_inline own_bytes children]. rewrite !Z.add_0_r. unfold at_depth. apply limited_Ok. cbn. lia.
  - eapply limited_bind; [apply abi_limited_names|tauto|intros Hs]. cbn [own_inline own_bytes children]. rewrite !Z.add_0_r.
    unfold at_depth. rewrite map_map. apply limited_Ok. split_and!; try done; lia.
  - cbn [own_inline own_bytes children] in *. unfold text_len, byte_length in *.
    eapply limited_bind; [apply limited_add; lia|limits; lia|intros _]. apply limited_guard; [lia|intros ?].
    eapply limited_bind; [apply limited_add; lia|limits; lia|intros _]. apply limited_guard; [lia|intros ?].
    apply limited_Ok. cbn. lia.
Qed.

(** ** Depth *)

Lemma fold_max_le {A} (f : A -> Z) l n : 0 <= n -> fold_right Z.max 0 (map f l) <= n <-> Forall (fun x => f x <= n) l.
Proof.
  intros Hn. induction l as [|x l IH]; cbn; [by split; [constructor|]|]. rewrite Z.max_lub_iff, IH, List.Forall_cons_iff. done.
Qed.

Lemma fold_max_nonneg l : 0 <= fold_right Z.max 0 l.
Proof. induction l as [|z l IH]; cbn [fold_right]; lia. Qed.

Lemma value_depth_nonneg v : 0 <= value_depth v.
Proof. destruct v; try done; apply fold_max_nonneg. Qed.

Definition good (vd : TypedValue * Z) : Prop := vd.2 + value_depth vd.1 <= MAXIMUM_JSON_DEPTH /\ short vd.1.

Lemma good_unfold v d : 
  good (v, d) <-> d <= MAXIMUM_JSON_DEPTH /\ own_short v /\ Forall good (at_depth (d + 1) (children v)).
Proof.
  unfold good, at_depth. rewrite List.Forall_map. cbn [fst snd]. destruct v as [|b|s|z|l|o|b]; cbn [children value_depth short].
  1-4,7: rewrite Z.add_0_r; intuition constructor.
  - rewrite fold_and_iff, !List.Forall_forall. cbn [own_short]. split.
    + intros [Hd [_ Hs]]. pose proof (value_depth_nonneg (List_ l) : 0 <= fold_right Z.max 0 (map (fun v => 1 + value_depth v) l)) as Hp. split; [lia|]. split; [done|]. intros v Hin.
      assert (H : Forall (fun v => 1 + value_depth v <= MAXIMUM_JSON_DEPTH - d) l) by (apply fold_max_le; lia).
      rewrite List.Forall_forall in H. specialize (H v Hin). split; [lia|auto].
    + intros (Hd & _ & H). split; [|split; [done|by intros v Hin; apply H]].
      enough (fold_right Z.max 0 (map (fun v => 1 + value_depth v) l) <= MAXIMUM_JSON_DEPTH - d) by lia.
      apply fold_max_le; [lia|]. apply List.Forall_forall. intros v Hin. destruct (H v Hin). lia.
  - rewrite (fold_and_iff (fun nv : string * TypedValue => short nv.2)), List.Forall_map, !List.Forall_forall. split.
    + intros [Hd [Ho Hs]]. pose proof (value_depth_nonneg (Object_ o) : 0 <= fold_right Z.max 0 (map (fun nv : string * TypedValue => 1 + value_depth nv.2) o)) as Hp. split; [lia|]. split; [done|]. intros nv Hin.
      assert (H : Forall (fun nv : string * TypedValue => 1 + value_depth nv.2 <= MAXIMUM_JSON_DEPTH - d) o) by (apply fold_max_le; lia).
      rewrite List.Forall_forall in H. specialize (H nv Hin). split; [lia|auto].
    + intros (Hd & Ho & H). split; [|split; [done|by intros v Hin; apply H]].
      enough (fold_right Z.max 0 (map (fun nv : string * TypedValue => 1 + value_depth nv.2) o) <= MAXIMUM_JSON_DEPTH - d) by lia.
      apply fold_max_le; [lia|]. apply List.Forall_forall. intros v Hin. destruct (H v Hin). lia.
Qed.

(** ** The walk *)

Definition with_tally (c : ValueCounters) (l : list TypedValue) : ValueCounters :=
  {| counted_nodes := counted_nodes c + total node_count l; counted_inline := counted_inline c + total inline_count l;
     counted_bytes := counted_bytes c + total inline_bytes l |}.

Lemma node_count_total v : node_count v = 1 + total node_count (children v).
Proof.
  assert (Hsum : forall l, total node_count l = Z.of_nat (list_sum (map value_count l))).
  { induction l as [|x l IH]; [done|]. rewrite total_cons, IH, map_cons, list_sum_cons. unfold node_count. lia. }
  rewrite Hsum, value_count_children. unfold node_count. destruct v; cbn; lia.
Qed.

Lemma with_tally_step c v l : with_tally c (v :: l) = with_tally (with_counters c v) (rev_append (children v) l).
Proof.
  unfold with_tally, with_counters. rewrite !total_rev_append, !total_cons, node_count_total, inline_count_total, inline_bytes_total.
  cbn. f_equal; lia.
Qed.

Lemma total_tally_nonneg l : 0 <= total node_count l /\ 0 <= total inline_count l /\ 0 <= total inline_bytes l.
Proof.
  split_and!; apply total_nonneg; intros v _; [unfold node_count; lia|apply (inline_nonneg v)..].
Qed.

Lemma map_rev_append {A B} (f : A -> B) l k : map f (rev_append l k) = rev_append (map f l) (map f k).
Proof. revert k. induction l as [|x l IH]; intros k; [done|]. apply IH. Qed.

Lemma value_walk fuel : forall c pending,
  (list_sum (map (fun vd : TypedValue * Z => value_count vd.1) pending) < fuel)%nat -> tallied c ->
  exists r, pop_loop validate_value_step fuel c pending = Some r
    /\ limited (Forall good pending /\ tallied (with_tally c (map fst pending))) (with_tally c (map fst pending)) r.
Proof.
  induction fuel as [|fuel IH]; intros c pending Hf Hc; [lia|]. cbn [pop_loop]. destruct pending as [|[v d] pending].
  { exists (Ok c). split; [done|]. unfold with_tally, total. cbn. rewrite !Z.add_0_r. destruct c. apply limited_Ok. by split. }
  pose proof (limited_step c v d Hc) as Hstep. cbn [map fst]. rewrite with_tally_step.
  set (pushed := at_depth (d + 1) (children v)) in *.
  assert (Hfst : map fst (rev_append pushed pending) = rev_append (children v) (map fst pending)).
  { rewrite map_rev_append. f_equal. unfold pushed, at_depth. rewrite map_map. apply map_id. }
  destruct (validate_value_step c (v, d)) as [[c' l]|e].
  - destruct (proj1 (Hstep _) eq_refl) as [[= -> ->] (Hd & Ho & Hw)]. destruct (IH (with_counters c v) (rev_append pushed pending)) as (r & Hr & Hl); [|done|].
    + cbn [map fst] in Hf. rewrite list_sum_cons in Hf. rewrite list_sum_rev_append. unfold pushed, at_depth. rewrite map_map. cbn [fst].
      rewrite value_count_children. destruct v; cbn [value_count pred] in *; lia.
    + exists r. split; [done|]. rewrite Hfst in Hl. eapply limited_iff; [exact Hl|]. rewrite Forall_rev_append, List.Forall_cons_iff, good_unfold. tauto.
  - exists (Err e). split; [done|]. intros y. split; [done|]. intros [_ [Hg Ht]]. exfalso.
    apply List.Forall_cons_iff in Hg as [(Hd & Ho & _)%good_unfold _].
    assert (Hw : tallied (with_counters c v)).
    { destruct Hc as (? & ? & ?), Ht as (? & ? & ?). pose proof (total_tally_nonneg (rev_append (children v) (map fst pending))) as (? & ? & ?).
      assert (0 <= own_inline v /\ 0 <= own_bytes v) as [? ?] by (destruct v; cbn; try lia; split; [lia|apply text_len_nonneg]).
      unfold tallied, with_tally, with_counters in *. cbn [counted_nodes counted_inline counted_bytes] in *. lia. }
    by assert (Err e = Ok (with_counters c v, pushed)) by by apply Hstep.
Qed.

Lemma limited_root c v :
  tallied c -> limited (good (v, 0) /\ tallied (with_tally c [v])) (with_tally c [v]) (validate_typed_value_root c v).
Proof.
  intros Hc. unfold validate_typed_value_root. destruct (value_walk (S (value_count v)) c [(v, 0)]) as (r & -> & Hr); [cbn; lia|done|].
  eapply limited_iff; [exact Hr|]. rewrite List.Forall_cons_iff. cbn [map fst]. intuition constructor.
Qed.

Lemma limited_roots l : forall c,
  tallied c -> limited (Forall (fun v => good (v, 0)) l /\ tallied (with_tally c l)) (with_tally c l) (fold_result validate_typed_value_root c l).
Proof.
  induction l as [|v l IH]; intros c Hc; cbn [fold_result].
  - unfold with_tally, total. cbn. rewrite !Z.add_0_r. destruct c. apply limited_Ok. by split.
  - assert (Heq : with_tally c (v :: l) = with_tally (with_tally c [v]) l).
    { unfold with_tally, total. cbn. f_equal; lia. }
    rewrite Heq. change (limited (Forall (fun v => good (v, 0)) (v :: l) /\ tallied (with_tally (with_tally c [v]) l)) (with_tally (with_tally c [v]) l)
      (validate_typed_value_root c v ≫= fun c => fold_result validate_typed_value_root c l)).
    eapply limited_bind; [by apply limited_root| |].
    + rewrite List.Forall_cons_iff. intros [[Hg _] Ht]. split; [done|]. destruct Hc as (? & ? & ?), Ht as (? & ? & ?).
      pose proof (total_tally_nonneg l) as (? & ? & ?). pose proof (total_tally_nonneg [v]) as (? & ? & ?).
      unfold tallied, with_tally in *. cbn [counted_nodes counted_inline counted_bytes] in *. lia.
    + intros [Hg Ht]. eapply limited_iff; [by apply IH|]. rewrite List.Forall_cons_iff. tauto.
Qed.

(** The walk accepts what is within the limits. *)
Lemma roots_within l : validate_typed_value_roots l = Ok tt <-> values_within l.
Proof.
  unfold validate_typed_value_roots, values_within.
  pose proof (limited_roots l {| counted_nodes := 0; counted_inline := 0; counted_bytes := 0 |}) as H.
  assert (Hz : tallied {| counted_nodes := 0; counted_inline := 0; counted_bytes := 0 |}) by (unfold tallied; limits; cbn; lia).
  specialize (H Hz). pose proof (total_tally_nonneg l) as (? & ? & ?).
  assert (Hiff : Forall (fun v => good (v, 0)) l /\ tallied (with_tally {| counted_nodes := 0; counted_inline := 0; counted_bytes := 0 |} l)
    <-> Forall (fun v => value_depth v <= MAXIMUM_JSON_DEPTH /\ short v) l
      /\ total node_count l <= MAXIMUM_JSON_NODES /\ total inline_count l <= ABI_MAXIMUM_INLINE_VALUES
      /\ total inline_bytes l <= ABI_MAXIMUM_DECODED_INLINE_BYTES).
  { unfold tallied, with_tally. cbn [counted_nodes counted_inline counted_bytes]. rewrite !Z.add_0_l. unfold good. cbn [fst snd]. rewrite !List.Forall_forall. intuition. }
  rewrite <-Hiff. destruct (fold_result _ _ l) as [c|e]; cbn [mbind result_bind].
  - destruct (proj1 (H c) eq_refl) as [_ ?]. by split.
  - split; [done|]. intros Hb. by assert (Err e = Ok (with_tally {| counted_nodes := 0; counted_inline := 0; counted_bytes := 0 |} l)) by by apply H.
Qed.

(** ** Headers *)

Definition header_bytes (h : CapabilityId * BoundedString) : Z := byte_length (InlineId_as_str h.1) + BoundedString_len h.2.
Definition sum_bytes (hs : Headers) : Z := fold_right Z.add 0 (map header_bytes hs).

Definition headers_within (hs : Headers) : Prop :=
  Z.of_nat (List.length hs) <= MAXIMUM_SELECTED_HEADERS
  /\ Forall (fun h => BoundedString_len h.2 <= MAXIMUM_HEADER_VALUE_BYTES) hs
  /\ sum_bytes hs <= MAXIMUM_RETAINED_HEADER_BYTES.

Lemma byte_length_nonneg s : 0 <= byte_length s.
Proof. unfold byte_length. lia. Qed.

Lemma sum_bytes_nonneg hs : 0 <= sum_bytes hs.
Proof.
  induction hs as [|h hs IH]; [done|]. unfold sum_bytes in *. cbn [map fold_right]. unfold header_bytes at 1, BoundedString_len.
  pose proof (byte_length_nonneg (InlineId_as_str h.1)). pose proof (byte_length_nonneg (bounded_text h.2)). lia.
Qed.

Lemma limited_header acc h :
  0 <= acc -> limited (BoundedString_len h.2 <= MAXIMUM_HEADER_VALUE_BYTES /\ acc + header_bytes h <= MAXIMUM_RETAINED_HEADER_BYTES)
    (acc + header_bytes h) (add_header_bytes acc h).
Proof.
  intros Ha. unfold add_header_bytes, header_bytes. apply limited_guard; [lia|intros ?].
  pose proof (byte_length_nonneg (InlineId_as_str h.1)). pose proof (byte_length_nonneg (bounded_text h.2) : 0 <= BoundedString_len h.2).
  assert (Hsum : limited (acc + (byte_length (InlineId_as_str h.1) + BoundedString_len h.2) <= usize_max)
    (acc + (byte_length (InlineId_as_str h.1) + BoundedString_len h.2))
    (ok_or SizeOverflow (size ← checked 0 usize_max (acc + byte_length (InlineId_as_str h.1)); checked 0 usize_max (size + BoundedString_len h.2)) : result AbiError Z)).
  { intros y. split.
    - intros Hy%ok_or_Ok. destruct (checked 0 usize_max (acc + byte_length (InlineId_as_str h.1))) as [size|] eqn:E; [|done].
      apply checked_Some in E as [-> ?]. cbn in Hy. apply checked_Some in Hy as [-> ?]. split; lia.
    - intros [-> Hle]. rewrite (proj2 (checked_Some 0 usize_max _ (acc + byte_length (InlineId_as_str h.1)))) by lia.
      cbn [mbind option_bind]. rewrite (proj2 (checked_Some 0 usize_max _ (acc + (byte_length (InlineId_as_str h.1) + BoundedString_len h.2)))) by lia. done. }
  eapply limited_bind; [exact Hsum|unfold MAXIMUM_RETAINED_HEADER_BYTES, usize_max; lia|intros _].
  apply limited_guard; [lia|intros ?]. apply limited_Ok. lia.
Qed.

Lemma limited_headers hs : forall acc, 0 <= acc ->
  limited (Forall (fun h => BoundedString_len h.2 <= MAXIMUM_HEADER_VALUE_BYTES) hs /\ (hs = [] \/ acc + sum_bytes hs <= MAXIMUM_RETAINED_HEADER_BYTES))
    (acc + sum_bytes hs) (fold_result add_header_bytes acc hs).
Proof.
  induction hs as [|h hs IH]; intros acc Ha; cbn [fold_result].
  - unfold sum_bytes. cbn. rewrite Z.add_0_r. apply limited_Ok. split; [constructor|by left].
  - assert (Heq : acc + sum_bytes (h :: hs) = acc + header_bytes h + sum_bytes hs) by (unfold sum_bytes; cbn; lia). rewrite Heq.
    pose proof (sum_bytes_nonneg hs). pose proof (sum_bytes_nonneg [h]) as Hh. unfold sum_bytes in Hh. cbn [map fold_right] in Hh. rewrite Z.add_0_r in Hh.
    change (limited (Forall (fun h => BoundedString_len h.2 <= MAXIMUM_HEADER_VALUE_BYTES) (h :: hs) /\ (h :: hs = [] \/ acc + header_bytes h + sum_bytes hs <= MAXIMUM_RETAINED_HEADER_BYTES))
      (acc + header_bytes h + sum_bytes hs) (add_header_bytes acc h ≫= fun a => fold_result add_header_bytes a hs)).
    rewrite List.Forall_cons_iff. eapply limited_bind; [by apply limited_header|intros [[? _] [?|?]]; [done|lia]|intros [? ?]].
    eapply limited_iff; [apply IH; lia|]. split; [intros [? [->|?]]; split; try done; right; unfold sum_bytes in *; cbn in *; lia|].
    intros [[_ ?] [?|?]]; [done|]. split; [done|by right].
Qed.

Lemma headers_iff hs : validate_headers hs MAXIMUM_SELECTED_HEADERS = Ok tt <-> headers_within hs.
Proof.
  unfold validate_headers, headers_within. destruct (Z.ltb_spec MAXIMUM_SELECTED_HEADERS (Z.of_nat (List.length hs))); [split; [done|lia]|].
  pose proof (limited_headers hs 0 ltac:(lia)) as H'. rewrite Z.add_0_l in H'.
  assert (Hiff : (hs = [] \/ sum_bytes hs <= MAXIMUM_RETAINED_HEADER_BYTES) <-> sum_bytes hs <= MAXIMUM_RETAINED_HEADER_BYTES).
  { split; [intros [->|?]; done|by right]. }
  rewrite Hiff in H'. destruct (fold_result add_header_bytes 0 hs) as [n|e]; cbn [mbind result_bind].
  - destruct (proj1 (H' n) eq_refl) as [_ ?]. split; [intros _; split; [lia|done]|done].
  - split; [done|]. intros (_ & Hb). by assert (Err e = Ok (sum_bytes hs)) by by apply H'.
Qed.

(** ** Responses *)

Definition response_within (headers : Headers) (decoded : TypedValue) (response_bytes : Z) : Prop :=
  headers_within headers /\ response_bytes <= MAXIMUM_TRANSPORT_RESPONSE_BYTES /\ values_within [decoded]
  /\ exists n, canonical_size decoded = Ok n /\ n <= MAXIMUM_CANONICAL_OUTPUT_BYTES.

Lemma unit_bind {E B} (r : result E unit) (f : unit -> result E B) (y : B) : (r ≫= f) = Ok y <-> r = Ok tt /\ f tt = Ok y.
Proof. destruct r as [[]|]; cbn; split; try done; by intros [? ?]. Qed.

Lemma size_within_iff v bound : (size ← canonical_size_within v bound; if MAXIMUM_CANONICAL_OUTPUT_BYTES <? size then Err (LimitExceeded bound) else Ok tt) = Ok tt
  <-> exists n, canonical_size v = Ok n /\ n <= MAXIMUM_CANONICAL_OUTPUT_BYTES.
Proof.
  unfold canonical_size_within. destruct (canonical_size v) as [n|e]; cbn; [|split; [done|by intros (? & ? & _)]].
  destruct (Z.ltb_spec MAXIMUM_CANONICAL_OUTPUT_BYTES n); split; try done; [intros (? & [= ->] & ?); lia|intros _; eauto].
Qed.

Lemma response_iff headers decoded n : validate_response headers decoded n = Ok tt <-> response_within headers decoded n.
Proof.
  unfold validate_response, response_within. rewrite unit_bind, headers_iff.
  destruct (Z.ltb_spec MAXIMUM_TRANSPORT_RESPONSE_BYTES n); [split; [by intros [? ?]|lia]|].
  rewrite unit_bind, roots_within, size_within_iff. intuition.
Qed.

(** ** Correlations *)

Lemma authorize_fold headers allowed : forall seen values sv,
  fold_result (authorize_correlation headers) (seen, values) allowed = Ok sv ->
  forall id, (In id allowed -> km_get sv.2 id = match km_get headers id with Some v => Some v | None => km_get values id end)
             /\ (~ In id allowed -> km_get sv.2 id = km_get values id).
Proof.
  induction allowed as [|a allowed IH]; intros seen values sv; cbn [fold_result]; [intros [= <-] id; by split|].
  unfold authorize_correlation at 1. destruct (km_contains seen a); [done|]. intros H id. specialize (IH _ _ _ H id) as [IH1 IH2].
  assert (Ha : km_get (match km_get headers a with Some value => km_insert values a value | None => values end) id
    = if key_compare id a is Eq then match km_get headers id with Some v => Some v | None => km_get values id end else km_get values id).
  { destruct (key_compare id a) eqn:E.
    - apply key_compare_eq in E as ->. destruct (km_get headers a); [apply km_get_insert|done].
    - destruct (km_get headers a); [|done]. apply km_get_insert_ne. intros ->. by rewrite key_compare_refl in E.
    - destruct (km_get headers a); [|done]. apply km_get_insert_ne. intros ->. by rewrite key_compare_refl in E. }
  rewrite Ha in IH1, IH2. split.
  - intros [<-|Hin].
    + rewrite key_compare_refl in IH1, IH2. destruct (km_get headers a) eqn:Hg; destruct (in_dec (fun x y => decide (x = y)) a allowed); auto.
    + rewrite (IH1 Hin). destruct (km_get headers id); [done|]. by destruct (key_compare id a).
  - intros Hno. rewrite IH2 by (intros ?; apply Hno; by right). destruct (key_compare id a) eqn:E; try done.
    apply key_compare_eq in E as ->. exfalso. apply Hno. by left.
Qed.

(** Allowing an identifier twice is refused, and nothing else is. *)
Lemma authorize_distinct headers allowed : forall seen values,
  (exists sv, fold_result (authorize_correlation headers) (seen, values) allowed = Ok sv)
  <-> NoDup allowed /\ Forall (fun id => km_contains seen id = false) allowed.
Proof.
  induction allowed as [|a allowed IH]; intros seen values; cbn [fold_result].
  - split; [intros _; split; constructor|by eauto].
  - rewrite NoDup_cons, List.Forall_cons_iff, list_elem_of_In. unfold authorize_correlation at 1.
    destruct (km_contains seen a) eqn:Ha; [split; [by intros (? & ?)|by intros (_ & ? & _)]|].
    rewrite IH. rewrite !List.Forall_forall. split.
    + intros [Hnd Hs]. split_and!; try done.
      * intros Hin. specialize (Hs a Hin). unfold km_contains in Hs. by rewrite km_get_insert in Hs.
      * intros id Hin. destruct (km_contains seen id) eqn:E; [|done]. specialize (Hs id Hin). by rewrite (km_insert_contains _ _ _ _ E) in Hs.
    + intros ((Hnin & Hnd) & _ & Hs). split; [done|]. intros id Hin. unfold km_contains. rewrite km_get_insert_ne by (by intros ->).
      exact (Hs id Hin).
Qed.

(** the host builds a transport response exactly when its headers, body
    and decoded value are within their limits and at most sixty-four distinct
    correlations are allowed; the response has the values it was given, and the
    correlations it authorizes are the selected headers among the allowed
    ones. *)
Theorem host_transport_response_spec status headers decoded n allowed :
  let accepted := response_within headers decoded n /\ Z.of_nat (List.length allowed) <= MAXIMUM_CORRELATION_IDS /\ NoDup allowed in
  ((exists r, host_transport_response status headers decoded n allowed = Ok r) <-> accepted)
  /\ forall r, host_transport_response status headers decoded n allowed = Ok r ->
       ConnectorAbi.status r = status /\ selected_headers r = headers /\ ConnectorAbi.decoded r = decoded /\ response_bytes r = n
       /\ forall id, km_get (correlation_values (authorized_correlations r)) id = if in_dec key_dec id allowed then km_get headers id else None.
Proof.
  cbv zeta. unfold host_transport_response, authorize_correlations. rewrite <-response_iff.
  destruct (validate_response headers decoded n) as [[]|e] eqn:Hr; cbn [mbind result_bind]; [|split; [split; [by intros [? ?]|by intros [? _]]|done]].
  assert (Hh : validate_headers headers MAXIMUM_SELECTED_HEADERS = Ok tt) by (apply headers_iff; by apply response_iff in Hr as [? _]).
  rewrite Hh. cbn [mbind result_bind]. destruct (Z.ltb_spec MAXIMUM_CORRELATION_IDS (Z.of_nat (List.length allowed))) as [Hlt|Hlt]; cbn [mbind result_bind].
  { split; [split; [by intros [? ?]|lia]|done]. }
  pose proof (authorize_distinct headers allowed [] []) as Hd. pose proof (authorize_fold headers allowed [] []) as Hf.
  assert (Hnone : Forall (fun id => km_contains ([] : keyed CapabilityId unit) id = false) allowed) by (by apply List.Forall_forall).
  destruct (fold_result (authorize_correlation headers) ([], []) allowed) as [sv|e] eqn:E; cbn [mbind result_bind].
  - split; [split; [intros _; split_and!; [done|lia|exact (proj1 (proj1 Hd (ex_intro _ sv E)))]|by eauto]|].
    intros r [= <-]. cbn. split_and!; [done..|]. intros id. specialize (Hf sv E id) as [H1 H2].
    destruct (in_dec key_dec id allowed) as [Hin|Hno]; [rewrite (H1 Hin); by destruct (km_get headers id)|exact (H2 Hno)].
  - split; [split; [by intros [? ?]|]|done]. intros (_ & _ & Hnd). destruct (proj2 Hd (conj Hnd Hnone)) as [sv Hsv]. discriminate (eq_trans (eq_sym E) Hsv).
Qed.
