(* ===== verification/ProcessSyntax.v ===== *)
(** * Process definitions ([crates/metadata/src/types.rs])

    The grammar of a durable process as the metadata layer hands it to the
    process compiler, and the errors of the compiler
    ([PlanError::validation] of [crates/schema/src/plan.rs]). *)
From S2P Require Import Prelude Json.
Set Warnings "-register-all".

Record PlanError := { message : string; code : string; path : string }.

Definition PlanError_new (path code message : string) : PlanError :=
  {| message := message; code := code; path := path |}.

Definition PlanError_validation (path message : string) : PlanError := PlanError_new path "validation-failed" message.

(** [validation] of [crates/processes/src/lib.rs]. *)
Definition validation (path message : string) : PlanError := PlanError_validation path message.

(** [Err(validation(path, message))]. *)
Definition invalid {A} (path message : string) : result PlanError A := Err (validation path message).

(** ** Values *)

Inductive ProcessValue : Type :=
| PInput (input : string) (as_ : option string) (require_non_null : bool)
| PState (state field : string) (project : option (list string)) (as_ : option string) (require_non_null : bool)
| PItem (item : string) (as_ : option string)
| PLiteral (literal : Value)
| PActivityKey (activity_key : string) (as_ : option string)
| PActivityKeyForState (activity_key_for_state : string) (as_ : option string)
| PRun (run : string)
| PWorkflowTime (workflow_time : string)
| PSessionVariable (session_variable : string)
| PBoundedConcat (inputs : list ProcessValue) (maximum_lists maximum_items : Z)
| PBoundedFlatten (from : ProcessValue) (field : option string) (project : option (btree string))
    (maximum_lists maximum_items : Z).

Section ProcessValueInd.
Variable P : ProcessValue -> Prop.
Hypothesis Hleaf : forall v, match v with PBoundedConcat _ _ _ | PBoundedFlatten _ _ _ _ _ => False | _ => True end -> P v.
Hypothesis Hconcat : forall inputs ml mi, Forall P inputs -> P (PBoundedConcat inputs ml mi).
Hypothesis Hflatten : forall from field project ml mi, P from -> P (PBoundedFlatten from field project ml mi).

Fixpoint ProcessValue_ind' (v : ProcessValue) : P v :=
  match v with
  | PBoundedConcat inputs ml mi =>
      Hconcat inputs ml mi ((fix go l := match l return Forall P l with
        | [] => @List.Forall_nil _ _
        | v :: l => @List.Forall_cons _ _ v l (ProcessValue_ind' v) (go l)
        end) inputs)
  | PBoundedFlatten from field project ml mi => Hflatten from field project ml mi (ProcessValue_ind' from)
  | PInput i a r => Hleaf (PInput i a r) I
  | PState s f p a r => Hleaf (PState s f p a r) I
  | PItem i a => Hleaf (PItem i a) I
  | PLiteral l => Hleaf (PLiteral l) I
  | PActivityKey k a => Hleaf (PActivityKey k a) I
  | PActivityKeyForState k a => Hleaf (PActivityKeyForState k a) I
  | PRun r => Hleaf (PRun r) I
  | PWorkflowTime w => Hleaf (PWorkflowTime w) I
  | PSessionVariable s => Hleaf (PSessionVariable s) I
  end.
End ProcessValueInd.

(** ** Activities *)

Inductive ProcessErrorKind : Type :=
| Authentication | Transport | Timeout_ | Http429 | Http5xx | Validation | Permanent | Invariant_ | RetryExhausted.

Record ProcessErrorRoute := { kinds : list ProcessErrorKind; route_next : string }.
Record ProcessErrorRoutes := { routes : list ProcessErrorRoute; fallback_next : string }.

Record ProcessTimeout := { schedule_to_start : string; start_to_close : string }.

Record ProcessRetry := {
  retry_on : list ProcessErrorKind;
  max_attempts : Z;
  initial_interval : string;
  max_interval : string;
  jitter : string;
}.

Record ProcessStableActivityKey := { key_run : string; key_state : string; key_item : option string }.

Record ProcessCommandState := {
  command_name : string;
  command_run_as : string;
  command_arguments : btree ProcessValue;
  command_next : string;
}.

Record ProcessCommandActivity := {
  activity_name : string;
  activity_run_as : string;
  activity_arguments : btree ProcessValue;
}.

Record ProcessRequestActivity := {
  activity_connector : string;
  activity_operation : string;
  activity_input : btree ProcessValue;
  activity_idempotency_key : option ProcessStableActivityKey;
  activity_timeout : ProcessTimeout;
  activity_retry : ProcessRetry;
  activity_on_error : option ProcessErrorRoutes;
  activity_at_most_once : bool;
  activity_on_ambiguous : option string;
  activity_template_pin : option string;
}.

Record ProcessRequestState := {
  request_connector : string;
  request_operation : string;
  request_input : btree ProcessValue;
  request_idempotency_key : option ProcessStableActivityKey;
  request_timeout : ProcessTimeout;
  request_retry : ProcessRetry;
  request_next : string;
  request_on_error : option ProcessErrorRoutes;
  request_at_most_once : bool;
  request_on_ambiguous : option string;
  request_template_pin : option string;
}.

(** ** States *)

Record ProcessWhenCase := {
  case_matches : option (btree Value);
  case_rule : option string;
  case_with : btree ProcessValue;
  case_next : string;
}.

Record ProcessWhenState := {
  when_cases : list ProcessWhenCase;
  when_default : string;
  when_decision_table : option string;
  when_input : btree ProcessValue;
}.

Inductive ProcessDeadline : Type := DeadlineValue (value : ProcessValue) | DeadlineDuration (duration : string).

Inductive ProcessWebhookGuardValue : Type := GuardEvent (event : string) | GuardProcess (value : ProcessValue).

Record ProcessWebhookGuard := { guard_rule : string; guard_with : btree ProcessWebhookGuardValue }.

Record ProcessSignalWait := {
  wait_signal : string;
  wait_role : string;
  verification : string;
  persist_before_match : bool;
  signal_correlate : btree ProcessValue;
  signal_deadline : ProcessDeadline;
  signal_next : string;
  signal_on_timeout : string;
}.

Record ProcessWebhookWait := {
  webhook_connector : string;
  webhook_trigger : string;
  webhook_correlate : btree ProcessValue;
  webhook_guard : option ProcessWebhookGuard;
  webhook_deadline : ProcessDeadline;
  webhook_next : string;
  webhook_on_timeout : string;
}.

Record ProcessTimerWait := {
  timer_decision_table : string;
  timer_with : btree ProcessValue;
  timer_output : string;
  timer_next : string;
}.

Inductive ProcessWaitState : Type :=
| WaitSignal (signal : ProcessSignalWait)
| WaitWebhook (webhook : ProcessWebhookWait)
| WaitTimer (timer : ProcessTimerWait).

(** The fields the two forms of a fan-out share. *)
Record ForEachFields := {
  each_input : ProcessValue;
  each_item_key : string;
  max_items : Z;
  max_concurrency : Z;
  completion : string;
  preserve_input : bool;
}.

Inductive ProcessForEachState : Type :=
| EachCommand (each : ForEachFields) (command : ProcessCommandActivity) (next : string)
| EachRequest (each : ForEachFields) (request : ProcessRequestActivity) (next : string).

Inductive ProcessStateOperation : Type :=
| OpCommand (command : ProcessCommandState)
| OpRequest (request : ProcessRequestState)
| OpWhen (when_ : ProcessWhenState)
| OpWait (wait : ProcessWaitState)
| OpForEach (for_each : ProcessForEachState)
| OpOutput (values : btree ProcessValue)
| OpFail (fail_code fail_message : string).

Record ProcessState := { id : string; operation : ProcessStateOperation }.

(** ** Processes *)

Inductive ProcessLifecycle : Type := Active | Retired.

Record ProcessPermission := { role : string; owner_session_variable : option string }.
Record ProcessOwner := { owner_type : string; capture : ProcessValue }.

(** A reference to a field of the result or to an argument of the command. *)
Record ProcessStart := {
  start_command : string;
  start_input : btree string;
  start_idempotency_key : string;
  start_process_key : string;
}.

Record ProcessField := { field_name : string; field_type : string }.

Inductive ProcessIdempotencyValue : Type := IdInput (input : string) | IdSessionVariable (session_variable : string).
Record ProcessIdempotency := { idempotency_key : ProcessIdempotencyValue; idempotency_scope : list ProcessIdempotencyValue }.

Record ProcessSignal := {
  signal_name : string;
  signal_role : option string;
  signal_correlation : btree string;
  signal_payload : btree string;
}.

Record Process := {
  name : string;
  version : Z;
  source : string;
  lifecycle : ProcessLifecycle;
  permissions : list ProcessPermission;
  owner : option ProcessOwner;
  start : option ProcessStart;
  input : list ProcessField;
  output : list ProcessField;
  idempotency : option ProcessIdempotency;
  signals : list ProcessSignal;
  start_at : string;
  states : list ProcessState;
}.
