(* ===== verification/ProcessGraph.v ===== *)
(** * The transition graph of a process ([crates/processes/src/lib.rs])

    [validate_graph]: the states and their transitions, reachability from the
    start, the topological order, the ancestors of a state and what every path
    to a state guarantees.  A state is its index in the vector of states; a
    vector indexed by states is a list of that length, and an access out of its
    bounds, an underflow or a failed [expect] is a panic, [None]. *)
From stdpp Require Import gmap.
From S2P Require Import Prelude Json ProcessSyntax.
Set Warnings "-register-all".

Record StateTransition := { target : nat; output_available : bool }.

#[export] Instance StateTransition_eq_dec : EqDecision StateTransition.
Proof. solve_decision. Defined.

Record ValidatedGraph := {
  state_indices : btree nat;
  topological_order : list nat;
  ancestors : list (gset nat);
  definite_ancestors : list (gset nat);
  available_outputs : list (gset nat);
}.

(** ** Transitions *)

Definition push_error_transitions (targets : list (string * bool)) (on_error : option ProcessErrorRoutes)
    (output_available : bool) : list (string * bool) :=
  match on_error with
  | Some r =>
      targets ++ map (fun route => (route_next route, output_available)) (routes r)
      ++ [(fallback_next r, output_available)]
  | None => targets
  end.

Definition push_ambiguous (targets : list (string * bool)) (on_ambiguous : option string) (output_available : bool) :
    list (string * bool) :=
  match on_ambiguous with
  | Some ambiguous => targets ++ [(ambiguous, output_available)]
  | None => targets
  end.

Definition state_transitions (state : ProcessState) : list (string * bool) :=
  match operation state with
  | OpCommand command => [(command_next command, true)]
  | OpRequest request =>
      push_ambiguous (push_error_transitions [(request_next request, true)] (request_on_error request) false)
        (request_on_ambiguous request) false
  | OpWhen w => map (fun case => (case_next case, true)) (when_cases w) ++ [(when_default w, true)]
  | OpWait (WaitSignal signal) => [(signal_next signal, true); (signal_on_timeout signal, false)]
  | OpWait (WaitWebhook webhook) => [(webhook_next webhook, true); (webhook_on_timeout webhook, false)]
  | OpWait (WaitTimer timer) => [(timer_next timer, true)]
  | OpForEach (EachCommand _ _ next) => [(next, true)]
  | OpForEach (EachRequest _ request next) =>
      push_ambiguous (push_error_transitions [(next, true)] (activity_on_error request) true)
        (activity_on_ambiguous request) true
  | OpOutput _ | OpFail _ _ => []
  end.

(** ** Indices and edges *)

Definition state_path (path : string) (index : nat) : string := path +:+ ".states[" +:+ show_nat (Z.of_nat index) +:+ "]".

(** The loop over [process.states.iter().enumerate()]. *)
Fixpoint index_states (path : string) (index : nat) (states : list ProcessState) (indices : btree nat) :
    result PlanError (btree nat) :=
  match states with
  | [] => Ok indices
  | state :: states =>
      if String.eqb (trim (id state)) "" then
        invalid (state_path path index +:+ ".id") "state id must not be empty"
      else if bt_contains indices (id state) then
        invalid (state_path path index +:+ ".id") ("state `" +:+ id state +:+ "` is declared more than once")
      else index_states path (S index) states (bt_insert indices (id state) index)
  end.

Definition push_edge (edges : list StateTransition) (transition : StateTransition) : list StateTransition :=
  if decide (transition ∈ edges) then edges else edges ++ [transition].

(** The edges of one state. *)
Definition state_edges (path : string) (indices : btree nat) (index : nat) (state : ProcessState) :
    result PlanError (list StateTransition) :=
  fold_result (fun edges (to : string * bool) =>
    match bt_get indices to.1 with
    | None =>
        invalid (state_path path index) ("state transition target `" +:+ to.1 +:+ "` does not exist")
    | Some target_index => Ok (push_edge edges {| target := target_index; output_available := to.2 |})
    end) [] (state_transitions state).

Fixpoint all_edges (path : string) (indices : btree nat) (index : nat) (states : list ProcessState) :
    result PlanError (list (list StateTransition)) :=
  match states with
  | [] => Ok []
  | state :: states =>
      edges ← state_edges path indices index state;
      rest ← all_edges path indices (S index) states;
      Ok (edges :: rest)
  end.

(** ** Reachability *)

Definition edge_count (edges : list (list StateTransition)) : nat := list_sum (map List.length edges).

Definition reach_step (edges : list (list StateTransition)) (reachable : list bool) (index : nat) :
    result unit (list bool * list nat) :=
  match reachable !! index, edges !! index with
  | Some true, _ => Ok (reachable, [])
  | Some false, Some out => Ok (<[index := true]> reachable, map target out)
  | _, _ => Err tt
  end.

Definition reach (edges : list (list StateTransition)) (start_index : nat) : option (list bool) :=
  match pop_loop (reach_step edges) (S (S (edge_count edges))) (replicate (List.length edges) false) [start_index] with
  | Some (Ok reachable) => Some reachable
  | _ => None
  end.

(** [position] of the first element that satisfies [p]. *)
Fixpoint position {A} (p : A -> bool) (l : list A) : option nat :=
  match l with
  | [] => None
  | x :: l => if p x then Some O else option_map S (position p l)
  end.

(** ** The topological order *)

Definition indegrees (edges : list (list StateTransition)) : option (list nat) :=
  foldl (fun indegree edge =>
    indegree ← indegree; d ← indegree !! target edge; Some (<[target edge := S d]> indegree))
    (Some (replicate (List.length edges) O)) (List.concat edges).

(** [filter_map] of the indices whose degree is zero. *)
Fixpoint zero_indices (index : nat) (indegree : list nat) : list nat :=
  match indegree with
  | [] => []
  | O :: indegree => index :: zero_indices (S index) indegree
  | S _ :: indegree => zero_indices (S index) indegree
  end.

(** One edge of the state taken from the queue. *)
Definition release_edge (s : option (list nat * list nat)) (edge : StateTransition) : option (list nat * list nat) :=
  '(indegree, queue) ← s;
  d ← indegree !! target edge;
  match d with
  | O => None
  | S d =>
      let indegree := <[target edge := d]> indegree in
      Some (indegree, if (d =? 0)%nat then queue ++ [target edge] else queue)
  end.

Fixpoint topological_loop (fuel : nat) (edges : list (list StateTransition)) (indegree queue order : list nat) :
    option (list nat * list nat) :=
  match fuel with
  | O => None
  | S fuel =>
      match queue with
      | [] => Some (order, indegree)
      | index :: queue =>
          out ← edges !! index;
          '(indegree, queue) ← foldl release_edge (Some (indegree, queue)) out;
          topological_loop fuel edges indegree queue (order ++ [index])
      end
  end.

Definition topological (edges : list (list StateTransition)) : option (list nat * list nat) :=
  indegree ← indegrees edges;
  topological_loop (S (List.length edges)) edges indegree (zero_indices 0 indegree) [].

(** ** Ancestors and guarantees *)

Definition inherit_ancestors (index : nat) (ancestors : option (list (gset nat))) (edge : StateTransition) :
    option (list (gset nat)) :=
  ancestors ← ancestors;
  inherited ← ancestors !! index;
  current ← ancestors !! target edge;
  Some (<[target edge := current ∪ {[index]} ∪ inherited]> ancestors).

Definition all_ancestors (edges : list (list StateTransition)) (order : list nat) : option (list (gset nat)) :=
  foldl (fun ancestors index =>
    out ← edges !! index;
    foldl (inherit_ancestors index) ancestors out)
    (Some (replicate (List.length edges) ∅)) order.

Definition intersect_path_guarantees (current : option (gset nat)) (candidate : gset nat) : option (gset nat) :=
  match current with
  | Some current => Some (current ∩ candidate)
  | None => Some candidate
  end.

Abbreviation Guarantees := (list (option (gset nat))).

(** [intersect_path_guarantees(&mut guarantees[target], candidate)]. *)
Definition intersect_at (guarantees : Guarantees) (target : nat) (candidate : gset nat) : option Guarantees :=
  current ← guarantees !! target;
  Some (<[target := intersect_path_guarantees current candidate]> guarantees).

Definition pass_edge (index : nat) (inherited_ancestors inherited_outputs : gset nat)
    (s : option (Guarantees * Guarantees)) (edge : StateTransition) : option (Guarantees * Guarantees) :=
  '(definite, available) ← s;
  definite ← intersect_at definite (target edge) (inherited_ancestors ∪ {[index]});
  available ← intersect_at available (target edge)
                (if output_available edge then inherited_outputs ∪ {[index]} else inherited_outputs);
  Some (definite, available).

Definition pass_state (edges : list (list StateTransition)) (s : option (Guarantees * Guarantees)) (index : nat) :
    option (Guarantees * Guarantees) :=
  '(definite, available) ← s;
  inherited_ancestors ← mjoin (definite !! index);
  inherited_outputs ← mjoin (available !! index);
  out ← edges !! index;
  foldl (pass_edge index inherited_ancestors inherited_outputs) (Some (definite, available)) out.

Definition all_guarantees (edges : list (list StateTransition)) (start_index : nat) (order : list nat) :
    option (Guarantees * Guarantees) :=
  let initial := <[start_index := Some ∅]> (replicate (List.length edges) None) in
  foldl (pass_state edges) (Some (initial, initial)) order.

(** ** Validation *)

Definition validate_graph (process : Process) (path : string) : option (result PlanError ValidatedGraph) :=
  match index_states path 0 (states process) [] with
  | Err e => Some (Err e)
  | Ok state_indices =>
      match bt_get state_indices (start_at process) with
      | None =>
          Some (invalid (path +:+ ".start_at") ("initial state `" +:+ start_at process +:+ "` does not exist"))
      | Some start_index =>
          match all_edges path state_indices 0 (states process) with
          | Err e => Some (Err e)
          | Ok edges =>
              reachable ← reach edges start_index;
              match position negb reachable with
              | Some index =>
                  state ← states process !! index;
                  Some (invalid (state_path path index +:+ ".id")
                          ("state `" +:+ id state +:+ "` is unreachable from start_at"))
              | None =>
                  '(order, indegree) ← topological edges;
                  if negb (List.length order =? List.length (states process))%nat then
                    let index := default O (position (fun degree => 0 <? degree)%nat indegree) in
                    Some (invalid (state_path path index) "process transitions must form an acyclic graph")
                  else
                    ancestors ← all_ancestors edges order;
                    '(definite, available) ← all_guarantees edges start_index order;
                    definite ← map_option (fun states => states) definite;
                    available ← map_option (fun states => states) available;
                    Some (Ok {| state_indices := state_indices; topological_order := order; ancestors := ancestors;
                                definite_ancestors := definite; available_outputs := available |})
              end
          end
      end
  end.
