(* ===== verification/ProcessGraphOrder.v ===== *)
(** * Walks over a graph of states

    The loops of [validate_graph] on any vector of edges whose targets are in
    bounds: what they compute, and that they end and never panic. *)
From stdpp Require Import gmap relations.
From S2P Require Import Prelude Json ProcessSyntax ProcessGraph.
Set Warnings "-register-all".

(** In a finite set where every element has a predecessor there is a cycle. *)
Lemma finite_cycle (R : relation nat) (U : list nat) x :
  x ∈ U -> (forall y, y ∈ U -> exists z, z ∈ U /\ R z y) -> exists y, tc R y y.
Proof.
  intros Hx Hpred.
  assert (Hchain : forall k, (exists y, tc R y y) \/
    exists y l, List.length l = k /\ NoDup (y :: l) /\ (y :: l) ⊆ U /\ forall z, z ∈ l -> tc R y z).
  { induction k as [|k [?|(y & l & Hl & Hnd & Hsub & Hr)]]; [|by left|].
    - right. exists x, []. split_and!; [done|apply NoDup_singleton|by intros ? ->%list_elem_of_singleton|by intros ? ?%elem_of_nil].
    - destruct (Hpred y) as (z & Hz & Hzy); [by apply Hsub; constructor|].
      destruct (decide (z ∈ y :: l)) as [[->|Hin]%elem_of_cons|Hin].
      + left. exists y. by constructor.
      + left. exists z. eapply tc_l; [exact Hzy|]. by apply Hr.
      + right. exists z, (y :: l). split_and!; [by cbn; rewrite Hl|by constructor|by intros w [->|?]%elem_of_cons; [|apply Hsub]|].
        intros w [->|Hw]%elem_of_cons; [by constructor|]. eapply tc_l; [exact Hzy|]. by apply Hr. }
  destruct (Hchain (List.length U)) as [?|(y & l & Hl & Hnd & Hsub & _)]; [done|].
  pose proof (submseteq_length _ _ (NoDup_submseteq _ _ Hnd Hsub)). cbn in *. lia.
Qed.

Section Edges.
Variable edges : list (list StateTransition).

Definition edge_to (i : nat) (e : StateTransition) : Prop := exists out, edges !! i = Some out /\ e ∈ out.
Definition edge (i j : nat) : Prop := exists e, edge_to i e /\ target e = j.

Hypothesis in_bounds : forall i e, edge_to i e -> (target e < List.length edges)%nat.

(** ** Reachability *)

Definition unvisited_edges (visited : list bool) : nat :=
  list_sum (zip_with (fun (v : bool) (out : list StateTransition) => if v then 0 else List.length out)%nat visited edges).

Lemma unvisited_edges_insert visited i out :
  visited !! i = Some false -> edges !! i = Some out ->
  (unvisited_edges (<[i := true]> visited) + List.length out)%nat = unvisited_edges visited.
Proof using Type.
  unfold unvisited_edges, list_sum. clear in_bounds. revert visited i. induction edges as [|o es IH]; intros [|v visited] [|i] Hv He; try done; cbn in *.
  - injection Hv as ->. injection He as ->. lia.
  - specialize (IH _ _ Hv He). unfold insert in *. lia.
Qed.

Definition marked (visited : list bool) (i : nat) : Prop := visited !! i = Some true.

Record reach_inv (start : nat) (visited : list bool) (pending : list nat) : Prop := {
  reach_length : List.length visited = List.length edges;
  reach_pending : Forall (fun i => (i < List.length edges)%nat /\ rtc edge start i) pending;
  reach_sound : forall i, marked visited i -> rtc edge start i;
  reach_closed : forall i j, marked visited i -> edge i j -> marked visited j \/ j ∈ pending;
  reach_start : marked visited start \/ start ∈ pending;
}.

Lemma marked_insert visited i j :
  (i < List.length visited)%nat -> marked (<[i := true]> visited) j <-> j = i \/ marked visited j.
Proof using Type.
  intros Hi. unfold marked. destruct (decide (j = i)) as [->|Hne].
  - rewrite list_lookup_insert_eq by done. tauto.
  - rewrite list_lookup_insert_ne by done. tauto.
Qed.

Lemma reach_loop start fuel visited pending :
  reach_inv start visited pending -> (List.length pending + unvisited_edges visited < fuel)%nat ->
  exists visited', pop_loop (reach_step edges) fuel visited pending = Some (Ok visited') /\ reach_inv start visited' [].
Proof using in_bounds.
  revert visited pending. induction fuel as [|fuel IH]; intros visited pending Hi Hf; [lia|]. cbn [pop_loop].
  destruct pending as [|i pending]; [eauto|]. destruct Hi as [Hlen Hp Hs Hc Hst]. apply List.Forall_cons_iff in Hp as [[Hin Hri] Hp].
  unfold reach_step. destruct (lookup_lt_is_Some_2 visited i ltac:(lia)) as [b Hb]. rewrite Hb.
  destruct (lookup_lt_is_Some_2 edges i Hin) as [out Ho]. rewrite Ho. cbn [List.length] in Hf. destruct b.
  - apply IH; [|cbn; lia]. split; [done|done|done| |].
    + intros k j Hk Hkj. destruct (Hc k j Hk Hkj) as [?|[->|?]%elem_of_cons]; [by left|by left|by right].
    + destruct Hst as [?|[->|?]%elem_of_cons]; [by left|by left|by right].
  - assert (Hout : forall j, j ∈ map target out <-> edge i j).
    { intros j. rewrite list_elem_of_fmap. split.
      - intros (e & -> & He). exists e. split; [|done]. by exists out.
      - intros (e & (out' & Ho' & He) & <-). rewrite Ho in Ho'. injection Ho' as <-. by exists e. }
    assert (Hrev : forall j, j ∈ rev_append (map target out) pending <-> edge i j \/ j ∈ pending).
    { intros j. by rewrite rev_append_rev, elem_of_app, list_elem_of_In, <-in_rev, <-list_elem_of_In, Hout. }
    apply IH.
    + split.
      * by rewrite length_insert.
      * rewrite List.Forall_forall. intros j. rewrite <-list_elem_of_In, Hrev. intros [Hj|Hj].
        -- split; [destruct Hj as (e & He & <-); by eapply in_bounds|by eapply rtc_r].
        -- rewrite List.Forall_forall in Hp. apply Hp. by rewrite <-list_elem_of_In.
      * intros j [->|Hj]%marked_insert; [done|by apply Hs|lia].
      * intros k j Hk Hkj. rewrite Hrev, marked_insert by lia. apply marked_insert in Hk; [|lia].
        destruct Hk as [->|Hk]; [tauto|]. destruct (Hc k j Hk Hkj) as [?|[->|?]%elem_of_cons]; tauto.
      * rewrite Hrev, marked_insert by lia. destruct Hst as [?|[->|?]%elem_of_cons]; tauto.
    + rewrite rev_append_rev, length_app, length_rev, length_map. pose proof (unvisited_edges_insert _ _ _ Hb Ho). lia.
Qed.

Lemma reach_spec start :
  (start < List.length edges)%nat ->
  exists reachable, reach edges start = Some reachable /\ List.length reachable = List.length edges
    /\ forall i, reachable !! i = Some true <-> rtc edge start i.
Proof using in_bounds.
  intros Hs. unfold reach.
  destruct (reach_loop start (S (S (edge_count edges))) (replicate (List.length edges) false) [start]) as (r & -> & Hi).
  - split; [apply length_replicate|by repeat constructor| | |right; by left].
    + intros i. unfold marked. by intros [? _]%lookup_replicate.
    + intros i j. unfold marked. by intros [? _]%lookup_replicate.
  - enough (unvisited_edges (replicate (List.length edges) false) = edge_count edges) as -> by (cbn; lia).
    unfold unvisited_edges, edge_count, list_sum. clear. induction edges as [|o es IH]; [done|]. cbn. by rewrite IH.
  - exists r. split; [done|]. destruct Hi as [Hlen _ Hsound Hc [Hst|Hst]]; [|by inversion Hst]. split; [done|].
    intros i. split; [apply Hsound|]. intros H. revert Hst. clear Hs Hsound. induction H as [i|i j k Hij _ IH]; [done|].
    intros Hi. apply IH. destruct (Hc i j Hi Hij) as [H|Hn]; [exact H|by apply elem_of_nil in Hn].
Qed.

(** ** The topological order *)

Definition out_of (i : nat) : list StateTransition := default [] (edges !! i).

Lemma out_of_spec i e : e ∈ out_of i <-> edge_to i e.
Proof using Type.
  unfold out_of, edge_to. destruct (edges !! i) as [out|]; cbn.
  - split; [by exists out|]. by intros (? & [= <-] & ?).
  - split; [by intros ?%elem_of_nil|]. by intros (? & [=] & _).
Qed.

(** The targets of the edges of the states that are not done. *)
Definition open_targets (finished : list nat) : list nat :=
  flat_map (fun i => map target (out_of i)) (filter (fun i => i ∉ finished) (seq 0 (List.length edges))).

Lemma open_targets_In finished j :
  In j (open_targets finished) <-> exists i, (i ∉ finished) /\ edge i j.
Proof using Type.
  unfold open_targets. rewrite in_flat_map. split.
  - intros (i & Hi & (e & <- & He)%in_map_iff). apply list_elem_of_In, list_elem_of_filter in Hi as [Hi _].
    exists i. split; [done|]. exists e. split; [|done]. by apply out_of_spec, list_elem_of_In.
  - intros (i & Hi & e & He & <-). exists i. split.
    + apply list_elem_of_In, list_elem_of_filter. split; [done|]. rewrite list_elem_of_In, in_seq.
      destruct He as (out & Ho & _). apply lookup_lt_Some in Ho. lia.
    + apply in_map. apply list_elem_of_In. by apply out_of_spec.
Qed.

Lemma count_zero l (j : nat) : count_occ Nat.eq_dec l j = 0%nat <-> ~ In j l.
Proof using Type. by rewrite <-count_occ_not_In. Qed.

Lemma open_targets_step finished i j :
  i ∉ finished -> (i < List.length edges)%nat ->
  count_occ Nat.eq_dec (open_targets finished) j
  = count_occ Nat.eq_dec (map target (out_of i) ++ open_targets (finished ++ [i])) j.
Proof using Type.
  clear in_bounds. intros Hi Hn. rewrite count_occ_app. unfold open_targets.
  assert (Hnd : List.NoDup (seq 0 (List.length edges))) by apply seq_NoDup.
  assert (Hin : In i (seq 0 (List.length edges))) by (apply in_seq; lia). clear Hn.
  induction (seq 0 (List.length edges)) as [|k l IH]; [done|]. inversion Hnd as [|? ? Hk Hl]; subst.
  rewrite !filter_cons. destruct Hin as [->|Hin].
  - rewrite decide_True by done. rewrite decide_False by (rewrite elem_of_app, list_elem_of_singleton; tauto). cbn [flat_map]. rewrite count_occ_app. f_equal.
    f_equal. clear IH Hnd. induction l as [|k l IH]; [done|]. rewrite !filter_cons. assert (k <> i) by (intros ->; apply Hk; by left). assert (Hk' : ~ In i l) by (intros ?; apply Hk; by right).
    inversion Hl; subst. specialize (IH Hk' ltac:(done)).
    destruct (decide (k ∉ finished)); [rewrite decide_True by (rewrite elem_of_app, list_elem_of_singleton; tauto)
      |rewrite decide_False by (rewrite elem_of_app; tauto)]; [|done].
    cbn [flat_map]. by rewrite IH.
  - specialize (IH Hl Hin). assert (k <> i) by by intros ->.
    destruct (decide (k ∉ finished)); [rewrite decide_True by (rewrite elem_of_app, list_elem_of_singleton; tauto)
      |rewrite decide_False by (rewrite elem_of_app; tauto)]; [|done].
    cbn [flat_map]. rewrite !count_occ_app. lia.
Qed.

(** The queue holds the states without an open incoming edge. *)
Record kahn (finished queue indegree open : list nat) : Prop := {
  kahn_degree : forall j, (j < List.length edges)%nat -> indegree !! j = Some (count_occ Nat.eq_dec open j);
  kahn_nodup : NoDup (finished ++ queue);
  kahn_ready : forall j, j ∈ finished ++ queue <-> (j < List.length edges)%nat /\ ~ In j open;
}.

Lemma release_edges out open finished queue indegree :
  Forall (fun e => target e < List.length edges)%nat out ->
  kahn finished queue indegree (map target out ++ open) ->
  exists indegree' queue', foldl release_edge (Some (indegree, queue)) out = Some (indegree', queue')
    /\ kahn finished queue' indegree' open.
Proof using Type.
  revert queue indegree. induction out as [|e out IH]; intros queue indegree Ho [Hd Hnd Hr]; cbn [foldl]; [eauto 10 using kahn|].
  apply List.Forall_cons_iff in Ho as [Ht Ho]. unfold release_edge at 2. cbn [mbind option_bind].
  rewrite (Hd _ Ht). cbn [map app count_occ]. destruct (Nat.eq_dec (target e) (target e)) as [_|]; [|done].
  set (rest := map target out ++ open) in *. cbn [mbind option_bind].
  assert (Hlen : (target e < List.length indegree)%nat) by (by eapply lookup_lt_Some, Hd).
  assert (Hd' : forall j, (j < List.length edges)%nat ->
    <[target e:=count_occ Nat.eq_dec rest (target e)]> indegree !! j = Some (count_occ Nat.eq_dec rest j)).
  { intros j Hj. destruct (decide (j = target e)) as [->|Hne]; [by rewrite list_lookup_insert_eq|].
    rewrite list_lookup_insert_ne, (Hd j Hj) by done. cbn [map app count_occ]. destruct (Nat.eq_dec (target e) j); [congruence|done]. }
  destruct (Nat.eqb_spec (count_occ Nat.eq_dec rest (target e)) 0) as [Hz|Hz]; apply IH; try done; split; try done.
  - rewrite app_assoc. apply NoDup_app. split_and!; [done| |apply NoDup_singleton].
    intros j Hj ->%list_elem_of_singleton. apply Hr in Hj as [_ Hj]. apply Hj. by left.
  - intros j. rewrite app_assoc, elem_of_app, list_elem_of_singleton, Hr. cbn [map app In]. apply count_zero in Hz. fold rest.
    split; [intros [[? ?]| ->]; tauto|]. intros [? ?]. destruct (decide (j = target e)); [by right|left; split; [done|]]. intros [?|?]; congruence.
  - intros j. rewrite Hr. cbn [map app In]. fold rest. assert (In (target e) rest).
    { destruct (in_dec Nat.eq_dec (target e) rest) as [|Hn]; [done|]. by apply count_zero in Hn. }
    split; [tauto|]. intros [? Hn]. split; [done|]. intros [<-|?]; tauto.
Qed.

(** Every predecessor of a state comes before it. *)
Definition predecessors_first (order : list nat) : Prop :=
  forall l1 j l2, order = l1 ++ j :: l2 -> forall i, edge i j -> i ∈ l1.

Lemma topological_loop_spec fuel indegree queue order :
  kahn order queue indegree (open_targets order) -> predecessors_first order ->
  (List.length edges < fuel + List.length order)%nat ->
  exists order' indegree', topological_loop fuel edges indegree queue order = Some (order', indegree')
    /\ kahn order' [] indegree' (open_targets order') /\ predecessors_first order'.
Proof using in_bounds.
  revert indegree queue order. induction fuel as [|fuel IH]; intros indegree queue order Hk Hp Hf.
  - exfalso. destruct Hk as [_ Hnd Hr]. apply NoDup_app in Hnd as (Hnd & _ & _).
    enough (List.length order <= List.length (seq 0 (List.length edges)))%nat by (rewrite length_seq in *; lia).
    apply submseteq_length, NoDup_submseteq; [done|]. intros j Hj. apply list_elem_of_In, in_seq.
    destruct (proj1 (Hr j)) as [? _]; [apply elem_of_app; by left|lia].
  - cbn [topological_loop]. destruct queue as [|i queue]; [eauto|].
    destruct Hk as [Hd Hnd Hr]. destruct (proj1 (Hr i)) as [Hi Hno]; [apply elem_of_app; right; by constructor|].
    assert (Hni : i ∉ order). { intros Hin. apply NoDup_app in Hnd as (_ & Hnd & _). apply (Hnd i Hin). by constructor. }
    destruct (lookup_lt_is_Some_2 edges i Hi) as [out Ho].
    assert (Hout : out_of i = out) by (unfold out_of; by rewrite Ho). rewrite Ho. cbn [mbind option_bind].
    destruct (release_edges out (open_targets (order ++ [i])) (order ++ [i]) queue indegree) as (indegree' & queue' & -> & Hk').
    + apply List.Forall_forall. intros e He. apply (in_bounds i). apply out_of_spec. rewrite Hout. by apply list_elem_of_In.
    + rewrite <-Hout. split.
      * intros j Hj. by rewrite (Hd j Hj), (open_targets_step order i).
      * by rewrite <-app_assoc.
      * intros j. rewrite <-app_assoc. cbn. rewrite Hr. by rewrite <-!count_zero, (open_targets_step order i).
    + cbn [mbind option_bind]. apply IH; [done| |rewrite length_app; cbn; lia].
      intros l1 j l2 Heq k Hkj. destruct l2 as [|z l2' _] using rev_ind.
      * apply app_inj_tail in Heq as [-> ->]. destruct (decide (k ∈ l1)) as [|Hn]; [done|].
        exfalso. apply Hno, open_targets_In. by exists k.
      * rewrite app_comm_cons, app_assoc in Heq. apply app_inj_tail in Heq as [Heq _]. by apply (Hp l1 j l2').
Qed.

Lemma indegrees_loop l indegree :
  Forall (fun e => (target e < List.length edges)%nat) l -> List.length indegree = List.length edges ->
  exists indegree', foldl (fun indegree edge =>
      indegree ← indegree; d ← indegree !! target edge; Some (<[target edge := S d]> indegree)) (Some indegree) l = Some indegree'
    /\ forall j d, indegree !! j = Some d -> indegree' !! j = Some (d + count_occ Nat.eq_dec (map target l) j)%nat.
Proof using Type.
  revert indegree. induction l as [|e l IH]; intros indegree Hl Hlen; cbn [foldl].
  - exists indegree. split; [done|]. intros j d Hj. cbn. by rewrite Nat.add_0_r.
  - apply List.Forall_cons_iff in Hl as [He Hl]. cbn [mbind option_bind].
    destruct (lookup_lt_is_Some_2 indegree (target e) ltac:(lia)) as [d Hd]. rewrite Hd. cbn [mbind option_bind].
    destruct (IH (<[target e := S d]> indegree) Hl) as (indegree' & -> & Hi); [by rewrite length_insert|].
    exists indegree'. split; [done|]. intros j k Hj. cbn [map count_occ]. destruct (Nat.eq_dec (target e) j) as [<-|Hne].
    + rewrite Hd in Hj. injection Hj as <-. rewrite (Hi _ (S d)); [f_equal; lia|]. apply list_lookup_insert_eq. lia.
    + apply Hi. by rewrite list_lookup_insert_ne.
Qed.

Lemma concat_open_targets : map target (List.concat edges) = open_targets [].
Proof using Type.
  clear in_bounds. unfold open_targets.
  replace (filter (fun i => i ∉ []) (seq 0 (List.length edges))) with (seq 0 (List.length edges)).
  2: { induction (seq 0 (List.length edges)) as [|k l IH]; [done|]. rewrite filter_cons, decide_True by apply not_elem_of_nil. by rewrite <-IH. }
  unfold out_of. enough (H : forall pre, map target (List.concat edges)
    = flat_map (fun i => map target (default [] ((pre ++ edges) !! i))) (seq (List.length pre) (List.length edges))) by apply (H []).
  induction edges as [|out es IH]; intros pre; [done|]. cbn [List.concat List.length seq flat_map].
  rewrite map_app, (list_lookup_middle pre es out) by done. cbn [default]. f_equal. specialize (IH (pre ++ [out])).
  rewrite length_app, Nat.add_1_r, <-app_assoc in IH. apply IH.
Qed.

Lemma indegrees_spec :
  exists indegree, indegrees edges = Some indegree /\ List.length indegree = List.length edges
    /\ forall j, (j < List.length edges)%nat -> indegree !! j = Some (count_occ Nat.eq_dec (open_targets []) j).
Proof using in_bounds.
  unfold indegrees. destruct (indegrees_loop (List.concat edges) (replicate (List.length edges) 0%nat)) as (indegree & H & Hi).
  - apply List.Forall_forall. intros e (out & Ho & He)%in_concat. apply list_elem_of_In, list_elem_of_lookup in Ho as [i Hi].
    apply (in_bounds i). exists out. split; [done|]. by apply list_elem_of_In.
  - apply length_replicate.
  - rewrite H. exists indegree. assert (Hl : forall j, (j < List.length edges)%nat ->
      indegree !! j = Some (count_occ Nat.eq_dec (open_targets []) j)).
    { intros j Hj. rewrite <-concat_open_targets. apply (Hi j 0%nat). by apply lookup_replicate_2. }
    split; [done|]. split; [|done]. clear -H. revert H.
    assert (Hg : forall l (s : option (list nat)) r, foldl (fun indegree edge => indegree ← indegree; d ← indegree !! target edge;
      Some (<[target edge := S d]> indegree)) s l = Some r -> exists s', s = Some s' /\ List.length s' = List.length r).
    { induction l as [|e l IH]; intros s r; cbn; [by exists r|]. intros (s' & Hs & <-)%IH.
      apply bind_Some in Hs as (s1 & -> & Hs). apply bind_Some in Hs as (d & _ & [= <-]). exists s1. by rewrite length_insert. }
    intros (s' & [= <-] & <-)%Hg. apply length_replicate.
Qed.

Lemma zero_indices_In k l j : j ∈ zero_indices k l <-> exists i, j = (k + i)%nat /\ l !! i = Some 0%nat.
Proof using Type.
  clear in_bounds. revert k. induction l as [|d l IH]; intros k; cbn [zero_indices].
  - split; [by intros ?%elem_of_nil|by intros (i & _ & ?)].
  - assert (Htl : (exists i, j = (S k + i)%nat /\ l !! i = Some 0%nat) <-> exists i, j = (k + S i)%nat /\ l !! i = Some 0%nat)
      by (by setoid_rewrite Nat.add_succ_r).
    destruct d as [|d]; rewrite ?elem_of_cons, IH, Htl.
    + split; [intros [->|(i & -> & Hi)]; [exists 0%nat; split; [lia|done]|by exists (S i)]|].
      intros ([|i] & -> & Hi); [left; lia|right; by exists i].
    + split; [intros (i & -> & Hi); by exists (S i)|]. intros ([|i] & -> & Hi); [done|by exists i].
Qed.

Lemma zero_indices_NoDup k l : NoDup (zero_indices k l).
Proof using Type.
  revert k. induction l as [|[|d] l IH]; intros k; cbn [zero_indices]; [constructor| |apply IH].
  apply NoDup_cons. split; [|apply IH]. intros (i & Hi & _)%zero_indices_In. lia.
Qed.

Definition acyclic : Prop := forall i, ~ tc edge i i.

(** A topological order: every state once, and after its predecessors. *)
Record ordered (order : list nat) : Prop := {
  ordered_nodup : NoDup order;
  ordered_all : forall i, i ∈ order <-> (i < List.length edges)%nat;
  ordered_first : predecessors_first order;
}.

Lemma before_tc order i j :
  predecessors_first order -> (forall i, i ∈ order <-> (i < List.length edges)%nat) ->
  tc edge i j -> exists l1 l2, order = l1 ++ j :: l2 /\ i ∈ l1.
Proof using in_bounds.
  intros Hp Hall H. assert (Hsplit : forall i j, edge i j -> exists l1 l2, order = l1 ++ j :: l2 /\ i ∈ l1).
  { intros k m Hkm. assert (Hm : m ∈ order) by (apply Hall; destruct Hkm as (e & He & <-); by eapply in_bounds).
    apply list_elem_of_split in Hm as (l1 & l2 & Heq). exists l1, l2. split; [done|]. by eapply Hp. }
  induction H as [i j Hij|i k j Hik Hkj IH]; [by apply Hsplit|]. destruct IH as (l1 & l2 & Heq & Hk).
  apply list_elem_of_split in Hk as (a & b & ->). exists (a ++ k :: b), l2. split; [done|].
  apply elem_of_app. left. apply (Hp a k (b ++ j :: l2)); [|done]. by rewrite Heq, <-app_assoc.
Qed.

Lemma ordered_acyclic order : ordered order -> acyclic.
Proof using in_bounds.
  intros [Hnd Hall Hp] i (l1 & l2 & -> & Hi)%(before_tc order); [|done..].
  apply NoDup_app in Hnd as (_ & Hnd & _). apply (Hnd i Hi). by constructor.
Qed.

(** The loop of the queue gives a topological order, or stops short of the
    length when there is a cycle. *)
Lemma topological_spec :
  exists order indegree, topological edges = Some (order, indegree)
    /\ (List.length order = List.length edges <-> acyclic)
    /\ (List.length order = List.length edges -> ordered order).
Proof using in_bounds.
  unfold topological. destruct indegrees_spec as (indegree & -> & Hlen & Hd). cbn [mbind option_bind].
  destruct (topological_loop_spec (S (List.length edges)) indegree (zero_indices 0 indegree) []) as (order & indegree' & -> & [_ Hnd Hr] & Hp).
  - split; [done|apply zero_indices_NoDup|]. intros j. cbn. rewrite zero_indices_In. split.
    + intros (i & -> & Hi). cbn. assert (Hj : (i < List.length edges)%nat) by (rewrite <-Hlen; by eapply lookup_lt_Some).
      split; [done|]. rewrite (Hd i Hj) in Hi. apply count_zero. congruence.
    + intros [Hj Hn]. exists j. split; [done|]. rewrite (Hd j Hj). f_equal. by apply count_zero.
  - intros l1 j l2 H. by destruct l1.
  - cbn. lia.
  - exists order, indegree'. split; [done|]. rewrite app_nil_r in Hnd. setoid_rewrite app_nil_r in Hr.
    assert (Hsub : order ⊆+ seq 0 (List.length edges)).
    { apply NoDup_submseteq; [done|]. intros j [Hj _]%Hr. apply list_elem_of_In, in_seq. lia. }
    assert (Hord : List.length order = List.length edges -> ordered order).
    { intros Hl. split; [done| |done]. assert (Hperm : order ≡ₚ seq 0 (List.length edges)).
      { apply submseteq_length_Permutation; [done|]. by rewrite length_seq, Hl. }
      intros i. rewrite Hperm, list_elem_of_In, in_seq. lia. }
    split; [|done]. split; [by intros ?%Hord%ordered_acyclic|]. intros Hac.
    assert (Hall : forall j, (j < List.length edges)%nat -> j ∈ order).
    { intros j Hj. destruct (decide (j ∈ order)) as [|Hn]; [done|]. exfalso.
      destruct (finite_cycle edge (filter (fun i => i ∉ order) (seq 0 (List.length edges))) j) as [y Hy].
      - apply list_elem_of_filter. split; [done|]. apply list_elem_of_In, in_seq. lia.
      - intros y [Hy Hs]%list_elem_of_filter. apply list_elem_of_In, in_seq in Hs.
        assert (Hin : In y (open_targets order)).
        { destruct (in_dec Nat.eq_dec y (open_targets order)) as [|Hno]; [done|]. exfalso. apply Hy, Hr. split; [lia|done]. }
        apply open_targets_In in Hin as (z & Hz & Hzy). exists z. split; [|done]. apply list_elem_of_filter. split; [done|].
        destruct Hzy as (e & (out & Ho & _) & _). apply list_elem_of_In, in_seq. apply lookup_lt_Some in Ho. lia.
      - by apply (Hac y). }
    apply Nat.le_antisymm; [by apply submseteq_length in Hsub; rewrite length_seq in Hsub|].
    rewrite <-(length_seq (List.length edges) 0). apply submseteq_length, NoDup_submseteq; [apply NoDup_ListNoDup, seq_NoDup|].
    intros j Hj. apply Hall. apply list_elem_of_In, in_seq in Hj. lia.
Qed.
End Edges.
