(* ===== verification/ProcessGraphPaths.v ===== *)
(** * What the paths to a state have in common

    The last two loops of [validate_graph], over a topological order of an
    acyclic graph whose states are all reachable: the ancestors of a state, the
    states every path to it passes, and the states whose output every path to it
    has produced. *)
From stdpp Require Import gmap relations.
From S2P Require Import Prelude Json ProcessSyntax ProcessGraph ProcessGraphOrder.
Set Warnings "-register-all".

Lemma tc_last {A} (R : relation A) x z : tc R x z <-> exists y, R y z /\ (x = y \/ tc R x y).
Proof.
  split.
  - induction 1 as [x z H|x y z Hxy _ (w & Hw & [->|H])]; [by exists x; auto| |].
    + exists w. split; [done|]. right. by constructor.
    + exists w. split; [done|]. right. by eapply tc_l.
  - intros (y & H & [->|H']); [by constructor|by eapply tc_r].
Qed.

Section Paths.
Variable edges : list (list StateTransition).
Variable order : list nat.
Hypothesis in_bounds : forall i e, edge_to edges i e -> (target e < List.length edges)%nat.
Hypothesis order_ok : ordered edges order.

Abbreviation n := (List.length edges).

Lemma no_self_edge i e : edge_to edges i e -> target e <> i.
Proof using in_bounds order_ok.
  intros He Ht. apply (ordered_acyclic edges in_bounds order order_ok i). constructor. by exists e.
Qed.

Lemma order_lookup i : i ∈ order -> exists out, edges !! i = Some out /\ out = out_of edges i.
Proof using order_ok.
  intros Hi. apply (ordered_all _ _ order_ok) in Hi. destruct (lookup_lt_is_Some_2 edges i Hi) as [out Ho].
  exists out. split; [done|]. unfold out_of. by rewrite Ho.
Qed.

Lemma predecessors_in l1 j l2 k : order = l1 ++ j :: l2 -> edge edges k j -> k ∈ l1.
Proof using order_ok. intros He Hk. by apply (ordered_first _ _ order_ok l1 j l2 He). Qed.

(** ** Ancestors *)

Lemma inherit_loop k K es anc :
  Forall (fun e => (target e < n)%nat /\ target e <> k) es -> List.length anc = n -> anc !! k = Some K ->
  exists anc', foldl (inherit_ancestors k) (Some anc) es = Some anc' /\ List.length anc' = n
    /\ forall j A, anc !! j = Some A -> exists A', anc' !! j = Some A'
        /\ forall i, i ∈ A' <-> i ∈ A \/ (exists e, e ∈ es /\ target e = j) /\ (i = k \/ i ∈ K).
Proof using Type.
  revert anc. induction es as [|e es IH]; intros anc Hes Hlen Hk; cbn [foldl].
  - exists anc. split; [done|]. split; [done|]. intros j A Hj. exists A. split; [done|]. intros i.
    split; [auto|]. intros [?|[(e & He & _) _]]; [done|by apply elem_of_nil in He].
  - apply List.Forall_cons_iff in Hes as [[Ht Hne] Hes]. unfold inherit_ancestors at 2. cbn [mbind option_bind]. rewrite Hk.
    destruct (lookup_lt_is_Some_2 anc (target e) ltac:(lia)) as [T HT]. cbn [mbind option_bind]. rewrite HT. cbn [mbind option_bind].
    destruct (IH (<[target e := T ∪ {[k]} ∪ K]> anc)) as (anc' & -> & Hl & Hanc); [done|by rewrite length_insert|by rewrite list_lookup_insert_ne|].
    exists anc'. split; [done|]. split; [done|]. intros j A Hj. setoid_rewrite elem_of_cons. destruct (decide (target e = j)) as [<-|Hjn].
    + rewrite HT in Hj. injection Hj as <-. destruct (Hanc (target e) (T ∪ {[k]} ∪ K)) as (A' & HA & Hi); [by apply list_lookup_insert_eq; lia|].
      exists A'. split; [done|]. intros i. rewrite Hi, !elem_of_union, elem_of_singleton.
      assert (exists e', (e' = e \/ e' ∈ es) /\ target e' = target e) by (exists e; auto). split.
      * intros [[[?|?]|?]|[(e' & ? & ?) ?]]; [by left|tauto|tauto|]. right. split; [exists e'; tauto|done].
      * intros [?|[_ ?]]; tauto.
    + destruct (Hanc j A) as (A' & HA & Hi); [by rewrite list_lookup_insert_ne|]. exists A'. split; [done|]. intros i. rewrite Hi.
      split; (intros [?|[(e' & ? & ?) ?]]; [by left|]); [right; split; [exists e'|]; tauto|].
      right. split; [|done]. exists e'. split; [|done]. destruct H as [->|]; [congruence|done].
Qed.

Lemma ancestors_loop l rest anc :
  order = l ++ rest -> List.length anc = n ->
  (forall j A, anc !! j = Some A -> forall i, i ∈ A <-> exists k, k ∈ l /\ edge edges k j /\ (i = k \/ tc (edge edges) i k)) ->
  exists anc', foldl (fun ancestors index => out ← edges !! index; foldl (inherit_ancestors index) ancestors out) (Some anc) rest = Some anc'
    /\ List.length anc' = n
    /\ forall j A, anc' !! j = Some A -> forall i, i ∈ A <-> tc (edge edges) i j.
Proof using in_bounds order_ok.
  revert l anc. induction rest as [|k rest IH]; intros l anc Ho Hlen Hanc; cbn [foldl].
  - exists anc. split; [done|]. split; [done|]. intros j A Hj i. rewrite (Hanc j A Hj i), tc_last. split; [by intros (k & _ & ?); exists k|].
    intros (k & Hk & Hi). exists k. split; [|done]. rewrite app_nil_r in Ho. subst l. apply (ordered_all _ _ order_ok).
    destruct Hk as (e & (out & H & _) & _). by eapply lookup_lt_Some.
  - assert (Hin : k ∈ order) by (rewrite Ho; apply elem_of_app; right; by constructor).
    destruct (order_lookup k Hin) as (out & Hk & ->). rewrite Hk. cbn [mbind option_bind].
    pose proof (proj1 (ordered_all _ _ order_ok k) Hin) as Hkn. destruct (lookup_lt_is_Some_2 anc k ltac:(lia)) as [K HK].
    assert (HKtc : forall i, i ∈ K <-> tc (edge edges) i k).
    { intros i. rewrite (Hanc k K HK i), tc_last. split; [by intros (m & _ & ?); exists m|].
      intros (m & Hm & Hi). exists m. split; [by eapply predecessors_in|done]. }
    destruct (inherit_loop k K (out_of edges k) anc) as (anc' & -> & Hlen' & Hanc'); [|done|done|].
    { apply List.Forall_forall. intros e He%list_elem_of_In%out_of_spec. split; [by eapply in_bounds|by apply no_self_edge]. }
    apply (IH (l ++ [k]) anc'); [by rewrite <-app_assoc|done|]. intros j A Hj i.
    destruct (lookup_lt_is_Some_2 anc j) as [B HB]; [apply lookup_lt_Some in Hj; lia|].
    destruct (Hanc' j B HB) as (A' & HA & Hi). rewrite HA in Hj. injection Hj as ->. rewrite Hi, (Hanc j B HB i), HKtc.
    setoid_rewrite elem_of_app. setoid_rewrite list_elem_of_singleton. split.
    + intros [(m & ? & ? & ?)|[(e & He%out_of_spec & <-) ?]]; [exists m; tauto|]. exists k. split; [by right|]. split; [by exists e|done].
    + intros (m & [Hm| ->] & Hmj & Hmi); [left; by exists m|]. right. destruct Hmj as (e & He & <-). split; [|done].
      exists e. split; [by apply out_of_spec|done].
Qed.

Lemma all_ancestors_spec :
  exists anc, all_ancestors edges order = Some anc /\ List.length anc = n
    /\ forall j A, anc !! j = Some A -> forall i, i ∈ A <-> tc (edge edges) i j.
Proof using in_bounds order_ok.
  apply (ancestors_loop []); [done|apply length_replicate|]. intros j A [-> _]%lookup_replicate i. split; [by intros ?%elem_of_empty|].
  intros (k & Hk & _). by apply elem_of_nil in Hk.
Qed.

(** ** Paths from the start *)

Variable start : nat.

Inductive path_to : nat -> list (nat * StateTransition) -> Prop :=
| path_start : path_to start []
| path_step j p e : path_to j p -> edge_to edges j e -> path_to (target e) (p ++ [(j, e)]).

(** Every path to [j] takes, from [i], an edge that satisfies [q]. *)
Definition guaranteed (q : StateTransition -> bool) (i j : nat) : Prop :=
  forall p, path_to j p -> exists e, (i, e) ∈ p /\ q e = true.

Hypothesis reachable : forall i, (i < n)%nat -> rtc (edge edges) start i.

Lemma no_edge_to_start k e : edge_to edges k e -> target e <> start.
Proof using in_bounds order_ok reachable.
  intros He Ht. apply (ordered_acyclic edges in_bounds order order_ok start). apply tc_last. exists k. split; [by exists e|].
  destruct (reachable k) as [|x y z Hxy Hyz]; [destruct He as (out & Ho & _); by eapply lookup_lt_Some|by left|].
  right. by eapply tc_rtc_r; [constructor|].
Qed.

Lemma guaranteed_start q i : ~ guaranteed q i start.
Proof using Type. intros H. destruct (H [] path_start) as (e & He & _). by apply elem_of_nil in He. Qed.

Lemma guaranteed_step q i j :
  j <> start ->
  guaranteed q i j <-> forall k e, edge_to edges k e -> target e = j -> (i = k /\ q e = true) \/ guaranteed q i k.
Proof using Type.
  intros Hj. split.
  - intros H k e He <-. destruct (decide (i = k /\ q e = true)) as [|Hn]; [by left|right]. intros p Hp.
    destruct (H _ (path_step k p e Hp He)) as (e' & [Hin|Hin%list_elem_of_singleton]%elem_of_app & Hq); [by exists e'|].
    injection Hin as -> ->. by destruct Hn.
  - intros H p Hp. destruct Hp as [|k p e Hp He]; [done|]. setoid_rewrite elem_of_app. setoid_rewrite list_elem_of_singleton.
    destruct (H k e He eq_refl) as [[-> Hq]|Hg]; [exists e; tauto|]. destruct (Hg p Hp) as (e' & ? & ?). exists e'. tauto.
Qed.

(** ** One vector of guarantees *)

Definition pass1 (q : StateTransition -> bool) (k : nat) (inherited : gset nat) (g : option Guarantees) (e : StateTransition) :
    option Guarantees :=
  g ← g; intersect_at g (target e) (if q e then inherited ∪ {[k]} else inherited).

Definition state1 (q : StateTransition -> bool) (g : option Guarantees) (k : nat) : option Guarantees :=
  g ← g; inherited ← mjoin (g !! k); out ← edges !! k; foldl (pass1 q k inherited) (Some g) out.

(** What the entry of [j] says once the edges of [P] were passed. *)
Definition summary (q : StateTransition -> bool) (P : nat -> StateTransition -> Prop) (j : nat) (o : option (gset nat)) : Prop :=
  match o with
  | None => j <> start /\ forall k e, P k e -> target e <> j
  | Some A => forall i, i ∈ A <-> j <> start /\ forall k e, P k e -> target e = j -> (i = k /\ q e = true) \/ guaranteed q i k
  end.

Lemma summary_iff q P P' j o :
  (forall k e, target e = j -> P k e <-> P' k e) -> summary q P j o -> summary q P' j o.
Proof using Type.
  intros H. destruct o as [A|]; cbn.
  - intros HA i. rewrite HA. split; (intros [? Hk]; split; [done|]; intros k e Hp Ht; apply Hk; [by apply H|done]).
  - intros [? Hk]. split; [done|]. intros k e Hp Ht. by apply (Hk k e); [apply H|].
Qed.

Lemma summary_complete q P j o :
  (j < n)%nat -> (forall k e, P k e -> edge_to edges k e) -> (forall k e, edge_to edges k e -> target e = j -> P k e) ->
  summary q P j o -> exists A, o = Some A /\ forall i, i ∈ A <-> guaranteed q i j.
Proof using in_bounds order_ok reachable.
  intros Hj Hsub Hall Ho. destruct o as [A|]; cbn in Ho.
  - exists A. split; [done|]. intros i. rewrite Ho. destruct (decide (j = start)) as [->|Hne].
    + split; [by intros []|by intros ?%guaranteed_start].
    + rewrite guaranteed_step by done. split.
      * intros [_ H] k e He Ht. by apply H; [apply Hall|].
      * intros H. split; [done|]. intros k e He Ht. by apply H; [apply Hsub|].
  - exfalso. destruct Ho as [Hne Hno]. pose proof (reachable j Hj) as Hr. apply rtc_tc in Hr as [->|Hr]; [done|].
    apply tc_last in Hr as (k & (e & He & <-) & _). by apply (Hno k e); [apply Hall|].
Qed.

Lemma pass1_loop q k inherited es P (g : Guarantees) :
  Forall (fun e => (target e < n)%nat /\ target e <> start) es -> List.length g = n ->
  (forall i, i ∈ inherited <-> guaranteed q i k) ->
  (forall j o, g !! j = Some o -> summary q P j o) ->
  exists g', foldl (pass1 q k inherited) (Some g) es = Some g' /\ List.length g' = n
    /\ forall j o, g' !! j = Some o -> summary q (fun m e => P m e \/ m = k /\ e ∈ es) j o.
Proof using Type.
  intros Hes Hlen Hk Hg. revert P g Hlen Hg. induction es as [|e es IH]; intros P g Hlen Hg; cbn [foldl].
  - exists g. split; [done|]. split; [done|]. intros j o Hj. apply (summary_iff q P); [|by apply Hg]. intros m e _.
    split; [by left|]. intros [?|[_ He]]; [done|by apply elem_of_nil in He].
  - apply List.Forall_cons_iff in Hes as [[Ht Hns] Hes]. specialize (IH Hes). unfold pass1 at 2, intersect_at. cbn [mbind option_bind].
    destruct (lookup_lt_is_Some_2 g (target e) ltac:(lia)) as [o Ho]. rewrite Ho. cbn [mbind option_bind].
    set (candidate := if q e then inherited ∪ {[k]} else inherited).
    assert (Hc : forall i, i ∈ candidate <-> (i = k /\ q e = true) \/ guaranteed q i k).
    { intros i. unfold candidate. rewrite <-Hk. destruct (q e); [|intuition congruence].
      rewrite elem_of_union, elem_of_singleton. tauto. }
    destruct (IH (fun m e' => P m e' \/ m = k /\ e' = e) (<[target e := intersect_path_guarantees o candidate]> g)) as (g' & -> & Hl & Hg').
    + by rewrite length_insert.
    + intros j o' Hj. destruct (decide (target e = j)) as [<-|Hne].
      * rewrite list_lookup_insert_eq in Hj by lia. injection Hj as <-. specialize (Hg _ _ Ho).
        destruct o as [A|]; cbn [intersect_path_guarantees summary] in *; intros i.
        -- rewrite elem_of_intersection, Hg, Hc. split.
           ++ intros [[_ H] H']. split; [done|]. intros m e' [Hp|[-> ->]]; [by apply H|done].
           ++ intros [_ H]. split; [split; [done|]; intros m e' Hp; apply H; by left|]. apply (H k e); [by right|done].
        -- rewrite Hc. destruct Hg as [_ Hno]. split.
           ++ intros H. split; [done|]. intros m e' [Hp|[-> ->]]; [|done]. intros ?. by destruct (Hno m e').
           ++ intros [_ H]. apply (H k e); [by right|done].
      * rewrite list_lookup_insert_ne in Hj by done. apply (summary_iff q P); [|by apply Hg]. intros m e' Ht'.
        split; [by left|]. by intros [?|[_ ->]].
    + exists g'. split; [done|]. split; [done|]. intros j o' Hj. eapply summary_iff; [|by apply Hg']. intros m e' _.
      cbn. rewrite elem_of_cons. tauto.
Qed.

Definition passed (l : list nat) (k : nat) (e : StateTransition) : Prop := k ∈ l /\ edge_to edges k e.

Lemma state1_loop q l rest (g : Guarantees) :
  order = l ++ rest -> List.length g = n -> (forall j o, g !! j = Some o -> summary q (passed l) j o) ->
  exists g', foldl (state1 q) (Some g) rest = Some g' /\ List.length g' = n
    /\ forall j o, g' !! j = Some o -> summary q (passed order) j o.
Proof using in_bounds order_ok reachable.
  revert l g. induction rest as [|k rest IH]; intros l g Ho Hlen Hg; cbn [foldl].
  - exists g. rewrite app_nil_r in Ho. by subst l.
  - assert (Hin : k ∈ order) by (rewrite Ho; apply elem_of_app; right; by constructor).
    destruct (order_lookup k Hin) as (out & Hk & ->). pose proof (proj1 (ordered_all _ _ order_ok k) Hin) as Hkn.
    destruct (lookup_lt_is_Some_2 g k ltac:(lia)) as [o Hgk].
    destruct (summary_complete q (passed l) k o) as (A & -> & HA); [done|by intros ? ? []| |by apply Hg|].
    { intros m e He Ht. split; [|done]. eapply predecessors_in; [done|]. by exists e. }
    unfold state1 at 2. cbn [mbind option_bind]. rewrite Hgk, Hk. cbn [mjoin option_join mbind option_bind].
    destruct (pass1_loop q k A (out_of edges k) (passed l) g) as (g' & -> & Hl & Hg'); [|done..|].
    { apply List.Forall_forall. intros e He%list_elem_of_In%out_of_spec. split; [by eapply in_bounds|by eapply no_edge_to_start]. }
    apply (IH (l ++ [k]) g'); [by rewrite <-app_assoc|done|]. intros j o Hj. eapply summary_iff; [|by apply Hg'].
    intros m e _. unfold passed. cbn. rewrite elem_of_app, list_elem_of_singleton, out_of_spec. split; [intros [[? ?]|[-> ?]]; tauto|].
    intros [[?| ->] ?]; tauto.
Qed.

(** ** Both vectors *)

Definition both {A B} (x : option A) (y : option B) : option (A * B) := x ← x; y ← y; Some (x, y).

Lemma pass_edges_both k inherited outputs es x y :
  foldl (pass_edge k inherited outputs) (both x y) es
  = both (foldl (pass1 (fun _ => true) k inherited) x es) (foldl (pass1 output_available k outputs) y es).
Proof using Type.
  revert x y. induction es as [|e es IH]; intros x y; [done|]. cbn [foldl]. rewrite <-IH. f_equal.
  destruct x as [x|]; [|done]. destruct y as [y|]; cbn; [|by destruct (intersect_at _ _ _)].
  by destruct (intersect_at x _ _); [destruct (intersect_at y _ _)|].
Qed.

Lemma pass_states_both l x y :
  foldl (pass_state edges) (both x y) l = both (foldl (state1 (fun _ => true)) x l) (foldl (state1 output_available) y l).
Proof using Type.
  revert x y. induction l as [|k l IH]; intros x y; [done|]. cbn [foldl]. rewrite <-IH. f_equal. clear IH.
  destruct x as [x|]; [|done]. destruct y as [y|]; cbn [both mbind option_bind pass_state state1].
  - destruct (mjoin (x !! k)) as [a|]; [|done]. cbn [mbind option_bind]. destruct (mjoin (y !! k)) as [b|]; cbn [mbind option_bind].
    + destruct (edges !! k) as [out|]; [|done]. cbn [mbind option_bind]. apply (pass_edges_both k a b out (Some x) (Some y)).
    + destruct (edges !! k) as [out|]; [|done]. cbn [mbind option_bind]. by destruct (foldl _ _ _).
  - destruct (mjoin (x !! k)) as [a|]; [|done]. cbn [mbind option_bind]. destruct (edges !! k) as [out|]; [|done]. cbn. by destruct (foldl _ _ _).
Qed.

Lemma all_guarantees_spec :
  (start < n)%nat ->
  exists definite available, all_guarantees edges start order = Some (definite, available)
    /\ List.length definite = n /\ List.length available = n
    /\ (forall j o, definite !! j = Some o -> exists A, o = Some A /\ forall i, i ∈ A <-> guaranteed (fun _ => true) i j)
    /\ (forall j o, available !! j = Some o -> exists A, o = Some A /\ forall i, i ∈ A <-> guaranteed output_available i j).
Proof using in_bounds order_ok reachable.
  intros Hs. unfold all_guarantees. set (initial := <[start := Some ∅]> (replicate n None)).
  change (Some (initial, initial)) with (both (Some initial) (Some initial)). rewrite pass_states_both.
  assert (Hi : List.length initial = n) by (unfold initial; by rewrite length_insert, length_replicate).
  assert (H0 : forall q j o, initial !! j = Some o -> summary q (passed []) j o).
  { intros q j o Hj. unfold initial in Hj. destruct (decide (start = j)) as [<-|Hne].
    - rewrite list_lookup_insert_eq in Hj by by rewrite length_replicate. injection Hj as <-. cbn. intros i. split; [by intros ?%elem_of_empty|by intros []].
    - rewrite list_lookup_insert_ne in Hj by done. apply lookup_replicate in Hj as [-> _]. cbn. split; [done|].
      intros k e [Hk _]. by apply elem_of_nil in Hk. }
  assert (Hfull : forall q (g : Guarantees), List.length g = n -> (forall j o, g !! j = Some o -> summary q (passed order) j o) ->
    forall j o, g !! j = Some o -> exists A, o = Some A /\ forall i, i ∈ A <-> guaranteed q i j).
  { intros q g Hl Hg j o Hj. apply (summary_complete q (passed order)); [by rewrite <-Hl; eapply lookup_lt_Some|by intros ? ? []| |by apply Hg].
    intros k e He _. split; [|done]. apply (ordered_all _ _ order_ok). destruct He as (out & Ho & _). by eapply lookup_lt_Some. }
  destruct (state1_loop (fun _ => true) [] order initial) as (d & -> & Hld & Hd); [done|done|by apply H0|].
  destruct (state1_loop output_available [] order initial) as (a & -> & Hla & Ha); [done|done|by apply H0|].
  exists d, a. split_and!; [done..|by apply Hfull|by apply Hfull].
Qed.
End Paths.
