(* ===== verification/ProcessGraphSpec.v ===== *)
(** * What [validate_graph] promises ([crates/processes/src/lib.rs])

    The runs of a process through its states, stated on its definition, and the
    proof that validation accepts exactly the graphs whose runs are finite and
    reach everything, and that its sets are what all runs have in common. *)
From stdpp Require Import gmap relations.
From S2P Require Import Prelude Json ProcessSyntax ProcessGraph ProcessGraphOrder ProcessGraphPaths.
Set Warnings "-register-all".

(** ** Runs *)

Definition state_at (p : Process) (i : nat) (name : string) : Prop :=
  exists st, states p !! i = Some st /\ id st = name.

Definition transition (p : Process) (i : nat) (to : string * bool) : Prop :=
  exists st, states p !! i = Some st /\ to ∈ state_transitions st.

(** From state [i] to state [j], with the output of [i] or without. *)
Definition succ (p : Process) (i j : nat) (output : bool) : Prop :=
  exists name, state_at p j name /\ transition p i (name, output).

Definition step (p : Process) (i j : nat) : Prop := exists output, succ p i j output.

(** The states a run left on its way to [j], and whether each produced its
    output. *)
Inductive run (p : Process) : nat -> list (nat * bool) -> Prop :=
| run_start i : state_at p i (start_at p) -> run p i []
| run_step i j trace output : run p i trace -> succ p i j output -> run p j (trace ++ [(i, output)]).

Record valid_graph (p : Process) : Prop := {
  valid_ids : Forall (fun st => trim (id st) <> "") (states p);
  valid_distinct : NoDup (map id (states p));
  valid_start : exists i, state_at p i (start_at p);
  valid_targets : forall i to, transition p i to -> exists j, state_at p j to.1;
  valid_reachable : forall i, (i < List.length (states p))%nat -> exists trace, run p i trace;
  valid_acyclic : forall i, ~ tc (step p) i i;
}.

(** ** Indices *)

Lemma trim_nonblank st : String.eqb (trim (id st)) "" = false <-> trim (id st) <> "".
Proof. apply String.eqb_neq. Qed.

Lemma index_states_spec path k sts acc :
  bt_wf acc ->
  (Forall (fun st => trim (id st) <> "" /\ ~ In (id st) (map fst acc)) sts /\ NoDup (map id sts) <->
   exists m, index_states path k sts acc = Ok m)
  /\ forall m, index_states path k sts acc = Ok m -> forall x i,
      bt_get m x = Some i <-> bt_get acc x = Some i \/ exists j st, sts !! j = Some st /\ id st = x /\ i = (k + j)%nat /\ ~ In x (map fst acc).
Proof.
  revert k acc. induction sts as [|st sts IH]; intros k acc Hacc; cbn [index_states].
  - split; [split; [by exists acc|by intros _; split; constructor]|]. intros m [= <-] x i. split; [by left|]. by intros [?|(j & ? & ? & _)].
  - cbn [map]. rewrite List.Forall_cons_iff, NoDup_cons.
    destruct (String.eqb (trim (id st)) "") eqn:Eb.
    { split; [|done]. split; [|by intros [? ?]]. intros [[[Hb _] _] _]. by apply String.eqb_eq in Eb. }
    apply trim_nonblank in Eb. destruct (bt_contains acc (id st)) eqn:Ec.
    { unfold bt_contains in Ec. destruct (bt_get acc (id st)) as [v|] eqn:Eg; [|done]. split; [|done]. split; [|by intros [? ?]].
      intros [[[_ Hc] _] _]. apply bt_get_None in Hc. congruence. }
    assert (Hno : ~ In (id st) (map fst acc)).
    { unfold bt_contains in Ec. apply bt_get_None. by destruct (bt_get acc (id st)). }
    destruct (IH (S k) (bt_insert acc (id st) k) (bt_insert_wf _ _ _ Hacc)) as [IH1 IH2]. split.
    + rewrite <-IH1, !List.Forall_forall, list_elem_of_In. split.
      * intros [[_ H] [Hn Hd]]. split; [|done]. intros st' Hst. destruct (H st' Hst) as [? Hk]. split; [done|]. rewrite bt_insert_keys.
        intros [He|?]; [|done]. apply Hn. rewrite <-He. by apply in_map.
      * intros [H Hd]. split; [split; [done|]; intros st' Hst; destruct (H st' Hst) as [? Hk]; rewrite bt_insert_keys in Hk; tauto|]. split; [|done].
        intros (st' & He & Hst)%in_map_iff. destruct (H st' Hst) as [_ Hk]. apply Hk, bt_insert_keys. by left.
    + intros m Hm x i. rewrite (IH2 m Hm x i), bt_get_insert by done. split.
      * intros [H|(j & st' & ? & ? & -> & Hk)]; 
          [|rewrite bt_insert_keys in Hk; right; exists (S j), st'; split_and!; [done..|lia|tauto]].
        destruct (String.eqb_spec x (id st)) as [->|]; [|by left]. injection H as <-. right. exists 0%nat, st. split_and!; [done..|lia|done].
      * intros [H|([|j] & st' & Hj & Hx & -> & Hk)].
        -- left. destruct (String.eqb_spec x (id st)) as [->|]; [|done]. apply bt_get_None in Hno. congruence.
        -- left. injection Hj as ->. subst x. by rewrite String.eqb_refl, Nat.add_0_r.
        -- destruct (String.eqb_spec x (id st)) as [->|Hne].
           ++ exfalso. assert (Hx' : exists m, index_states path (S k) sts (bt_insert acc (id st) k) = Ok m) by eauto.
              apply IH1 in Hx' as [Hf _]. rewrite List.Forall_forall in Hf. destruct (Hf st') as [_ Hn].
              { apply list_elem_of_In. by eapply list_elem_of_lookup_2. }
              apply Hn. rewrite bt_insert_keys. by left.
           ++ right. exists j, st'. split_and!; [done..|lia|]. rewrite bt_insert_keys. tauto.
Qed.

(** ** Edges *)

Lemma push_edge_elem edges e e' : e' ∈ push_edge edges e <-> e' ∈ edges \/ e' = e.
Proof.
  unfold push_edge. destruct (decide (e ∈ edges)); [|rewrite elem_of_app, list_elem_of_singleton; tauto].
  split; [by left|]. by intros [?| ->].
Qed.

Lemma state_edges_fold path indices index to acc :
  let r := fold_result (fun edges (to : string * bool) =>
    match bt_get indices to.1 with
    | None => invalid (state_path path index) ("state transition target `" +:+ to.1 +:+ "` does not exist")
    | Some target_index => Ok (push_edge edges {| target := target_index; output_available := to.2 |})
    end) acc to in
  (Forall (fun t => exists j, bt_get indices t.1 = Some j) to <-> exists edges, r = Ok edges)
  /\ forall edges, r = Ok edges -> forall e,
      e ∈ edges <-> e ∈ acc \/ exists t, t ∈ to /\ bt_get indices t.1 = Some (target e) /\ output_available e = t.2.
Proof.
  cbv zeta. revert acc. induction to as [|t to IH]; intros acc; cbn [fold_result].
  - split; [split; [by exists acc|by constructor]|]. intros edges [= <-] e. split; [by left|].
    by intros [?|(t & Ht%elem_of_nil & _)].
  - rewrite List.Forall_cons_iff. destruct (bt_get indices t.1) as [j|] eqn:Hj.
    + destruct (IH (push_edge acc {| target := j; output_available := t.2 |})) as [IH1 IH2]. split.
      * rewrite <-IH1. split; [by intros []|]. intros ?. split; [by exists j|done].
      * intros edges He e. rewrite (IH2 edges He e), push_edge_elem. setoid_rewrite elem_of_cons. split.
        -- intros [[?| ->]|(t' & ? & ? & ?)]; [by left|right; exists t; auto|right; exists t'; auto].
        -- intros [?|(t' & [->|?] & Ht & Ho)]; [by left; left| |right; by exists t'].
           left. right. rewrite Hj in Ht. injection Ht as ->. destruct e. cbn in *. by subst.
    + split; [|done]. split; [by intros [[j ?] _]|by intros [? ?]].
Qed.

Lemma all_edges_spec path indices k sts :
  ((forall st t, st ∈ sts -> t ∈ state_transitions st -> exists j, bt_get indices t.1 = Some j)
   <-> exists edges, all_edges path indices k sts = Ok edges)
  /\ forall edges, all_edges path indices k sts = Ok edges ->
      List.length edges = List.length sts
      /\ forall i e, edge_to edges i e <->
           exists st t, sts !! i = Some st /\ t ∈ state_transitions st /\ bt_get indices t.1 = Some (target e) /\ output_available e = t.2.
Proof.
  revert k. induction sts as [|st sts IH]; intros k; cbn [all_edges].
  - split; [split; [by exists []|by intros _ st t ?%elem_of_nil]|]. intros edges [= <-]. split; [done|]. intros i e.
    split; [by intros (out & ? & _)|by intros (st & t & ? & _)].
  - destruct (state_edges_fold path indices k (state_transitions st) []) as [H1 H2].
    fold (state_edges path indices k st) in H1, H2. destruct (IH (S k)) as [IH1 IH2]. split.
    + split.
      * intros H. destruct (proj1 H1) as [out Hout].
        { apply List.Forall_forall. intros t Ht%list_elem_of_In. apply (H st); [by constructor|done]. }
        destruct (proj1 IH1) as [rest Hrest]; [by intros st' t Hst; apply H; constructor|].
        exists (out :: rest). rewrite Hout. cbn. by rewrite Hrest.
      * intros [edges (out & Hout & (rest & Hrest & _)%bind_Ok)%bind_Ok] st' t [->|Hst]%elem_of_cons Ht.
        -- assert (Hf : exists edges, state_edges path indices k st = Ok edges) by eauto. apply H1 in Hf.
           rewrite List.Forall_forall in Hf. by apply Hf, list_elem_of_In.
        -- apply (proj2 IH1 ltac:(eauto) st' t); done.
    + intros edges (out & Hout & (rest & Hrest & [= <-])%bind_Ok)%bind_Ok. destruct (IH2 rest Hrest) as [Hl He]. split; [by cbn; rewrite Hl|].
      intros [|i] e; [|apply He]. split.
      * intros (out' & [= <-] & Hin). apply (H2 out Hout) in Hin as [?%elem_of_nil|(t & ? & ? & ?)]; [done|]. by exists st, t.
      * intros (st' & t & [= <-] & Ht & Hg & Ho). exists out. split; [done|]. apply (H2 out Hout). right. by exists t.
Qed.

(** ** The graph of a process *)

(** Indices and edges agree with the definition. *)
Record graph_of (p : Process) (indices : btree nat) (edges : list (list StateTransition)) : Prop := {
  graph_indices : forall x i, bt_get indices x = Some i <-> state_at p i x;
  graph_length : List.length edges = List.length (states p);
  graph_edges : forall i e, edge_to edges i e <-> succ p i (target e) (output_available e);
}.

Lemma state_at_unique p i j x :
  NoDup (map id (states p)) -> state_at p i x -> state_at p j x -> i = j.
Proof.
  intros Hnd (st & Hi & <-) (st' & Hj & He). apply (NoDup_lookup (map id (states p)) i j (id st)); [done|by rewrite list_lookup_fmap, Hi|].
  by rewrite list_lookup_fmap, Hj, <-He.
Qed.

Lemma index_states_graph p path indices :
  index_states path 0 (states p) [] = Ok indices -> forall x i, bt_get indices x = Some i <-> state_at p i x.
Proof.
  intros H x i. destruct (index_states_spec path 0 (states p) []) as [_ Hs]; [constructor|]. rewrite (Hs indices H x i). cbn. split.
  - intros [?|(j & st & ? & ? & -> & _)]; [done|]. by exists st.
  - intros (st & ? & ?). right. exists i, st. split_and!; [done..|by intros []].
Qed.

Lemma index_states_Ok p path :
  (exists indices, index_states path 0 (states p) [] = Ok indices)
  <-> Forall (fun st => trim (id st) <> "") (states p) /\ NoDup (map id (states p)).
Proof.
  destruct (index_states_spec path 0 (states p) []) as [<- _]; [constructor|]. rewrite !List.Forall_forall. cbn.
  split; (intros [H ?]; split; [|done]); intros st Hst; [by apply H|by split; [apply H|intros []]].
Qed.

Lemma all_edges_graph p path indices edges :
  (forall x i, bt_get indices x = Some i <-> state_at p i x) ->
  all_edges path indices 0 (states p) = Ok edges -> graph_of p indices edges.
Proof.
  intros Hi He. destruct (all_edges_spec path indices 0 (states p)) as [_ Hs]. destruct (Hs edges He) as [Hl Ht].
  split; [done|done|]. intros i e. rewrite Ht. unfold succ, transition. split.
  - intros (st & [x b] & ? & ? & ?%Hi & Ho). cbn in *. exists x. split; [done|]. exists st. by rewrite Ho.
  - intros (x & ?%Hi & st & ? & ?). by exists st, (x, output_available e).
Qed.

Section GraphOf.
Context {p indices edges} (G : graph_of p indices edges).

Lemma graph_edge i j : edge edges i j <-> step p i j.
Proof using G.
  split.
  - intros (e & He%(graph_edges _ _ _ G) & <-). by exists (output_available e).
  - intros [b H]. exists {| target := j; output_available := b |}. split; [|done]. by apply (graph_edges _ _ _ G).
Qed.

Lemma graph_tc i j : tc (edge edges) i j <-> tc (step p) i j.
Proof using G. split; induction 1; (by constructor; apply graph_edge) || (by eapply tc_l; [apply graph_edge|]). Qed.

Lemma graph_in_bounds i e : edge_to edges i e -> (target e < List.length edges)%nat.
Proof using G. intros (x & (st & Hst & _) & _)%(graph_edges _ _ _ G). rewrite (graph_length _ _ _ G). by eapply lookup_lt_Some. Qed.

Context (start : nat) (Hstart : forall i, state_at p i (start_at p) <-> i = start).

Definition trace_of (es : list (nat * StateTransition)) : list (nat * bool) :=
  map (fun ie => (ie.1, output_available ie.2)) es.

Lemma path_run j es : path_to edges start j es -> run p j (trace_of es).
Proof using G Hstart.
  induction 1 as [|j es e _ IH He]; [constructor; by apply Hstart|]. unfold trace_of. rewrite map_app.
  eapply run_step; [done|]. by apply (graph_edges _ _ _ G).
Qed.

Lemma run_path j trace : run p j trace -> exists es, path_to edges start j es /\ trace = trace_of es.
Proof using G Hstart.
  induction 1 as [i Hi|i j trace b _ (es & Hes & ->) Hs].
  - apply Hstart in Hi as ->. exists []. split; [constructor|done].
  - exists (es ++ [(i, {| target := j; output_available := b |})]). split; [|by unfold trace_of; rewrite map_app].
    apply (path_step edges start i es {| target := j; output_available := b |}); [done|]. by apply (graph_edges _ _ _ G).
Qed.

Lemma rtc_run i j : rtc (edge edges) i j -> forall trace, run p i trace -> exists trace', run p j trace'.
Proof using G.
  induction 1 as [i|i j k Hij _ IH]; [eauto|]. intros trace Ht. apply graph_edge in Hij as [b Hij].
  eapply IH. by eapply run_step.
Qed.

Lemma run_rtc j trace : run p j trace -> rtc (edge edges) start j.
Proof using G Hstart.
  induction 1 as [i Hi|i j trace b _ IH Hs]; [apply Hstart in Hi as ->; constructor|]. eapply rtc_r; [done|]. apply graph_edge. by exists b.
Qed.

Lemma reachable_runs j : rtc (edge edges) start j <-> exists trace, run p j trace.
Proof using G Hstart.
  split; [|by intros [? ?%run_rtc]]. intros H. apply (rtc_run _ _ H []). constructor. by apply Hstart.
Qed.

Lemma guaranteed_passes i j :
  guaranteed edges start (fun _ => true) i j <-> forall trace, run p j trace -> exists b, (i, b) ∈ trace.
Proof using G Hstart.
  split.
  - intros H trace (es & Hes & ->)%run_path. destruct (H es Hes) as (e & He & _). exists (output_available e).
    apply list_elem_of_fmap. by exists (i, e).
  - intros H es Hes. destruct (H _ (path_run _ _ Hes)) as [b Hb]. apply list_elem_of_fmap in Hb as ([k e] & [= -> ->] & He). by exists e.
Qed.

Lemma guaranteed_outputs i j :
  guaranteed edges start output_available i j <-> forall trace, run p j trace -> (i, true) ∈ trace.
Proof using G Hstart.
  split.
  - intros H trace (es & Hes & ->)%run_path. destruct (H es Hes) as (e & He & Ho). apply list_elem_of_fmap. exists (i, e). by rewrite <-Ho.
  - intros H es Hes. pose proof (H _ (path_run _ _ Hes)) as Hb. apply list_elem_of_fmap in Hb as ([k e] & [= -> Ho] & He). by exists e.
Qed.
End GraphOf.

(** ** Validation *)

Record graph_promises (p : Process) (g : ValidatedGraph) : Prop := {
  promise_indices : forall x i, bt_get (state_indices g) x = Some i <-> state_at p i x;
  promise_order : topological_order g ≡ₚ seq 0 (List.length (states p));
  promise_before : forall l1 j l2, topological_order g = l1 ++ j :: l2 -> forall i, step p i j -> i ∈ l1;
  promise_lengths : List.length (ancestors g) = List.length (states p)
    /\ List.length (definite_ancestors g) = List.length (states p)
    /\ List.length (available_outputs g) = List.length (states p);
  promise_ancestors : forall j A, ancestors g !! j = Some A -> forall i, i ∈ A <-> tc (step p) i j;
  promise_definite : forall j A, definite_ancestors g !! j = Some A ->
    forall i, i ∈ A <-> forall trace, run p j trace -> exists b, (i, b) ∈ trace;
  promise_available : forall j A, available_outputs g !! j = Some A ->
    forall i, i ∈ A <-> forall trace, run p j trace -> (i, true) ∈ trace;
}.

Lemma position_negb l : position negb l = None <-> forall i, (i < List.length l)%nat -> l !! i = Some true.
Proof.
  induction l as [|b l IH]; cbn; [split; [lia|done]|]. destruct b; cbn.
  - destruct (position negb l) as [k|]; cbn.
    + split; [done|]. intros H. destruct IH as [_ IH]. discriminate IH. intros i Hi. apply (H (S i)). lia.
    + split; [|done]. intros _ [|i] Hi; [done|]. apply IH; [done|lia].
  - split; [done|]. intros H. by specialize (H 0%nat ltac:(lia)).
Qed.

Lemma position_lt {A} (f : A -> bool) l k : position f l = Some k -> (k < List.length l)%nat.
Proof.
  revert k. induction l as [|x l IH]; intros k; cbn; [done|]. destruct (f x); [intros [= <-]; lia|].
  destruct (position f l) as [m|]; cbn; [|done]. intros [= <-]. specialize (IH m eq_refl). lia.
Qed.

Lemma all_present (l : list (option (gset nat))) :
  (forall j o, l !! j = Some o -> exists A, o = Some A) ->
  exists l', map_option (fun states => states) l = Some l' /\ List.length l' = List.length l
    /\ forall j A, l' !! j = Some A -> l !! j = Some (Some A).
Proof.
  induction l as [|o l IH]; intros H; [by exists []|]. destruct (H 0%nat o eq_refl) as [A ->].
  destruct IH as (l' & Hl & Hlen & Hj); [intros j; apply (H (S j))|]. exists (A :: l'). cbn. rewrite Hl. split; [done|].
  split; [by cbn; rewrite Hlen|]. intros [|j] B; cbn; [by intros [= ->]|apply Hj].
Qed.

(** Validation of a graph whose indices and edges are known. *)
Section Validation.
Context (p : Process) (path : string) (indices : btree nat) (edges : list (list StateTransition)) (start : nat).
Context (G : graph_of p indices edges) (Hstart : forall i, state_at p i (start_at p) <-> i = start).

Lemma start_in_bounds : (start < List.length edges)%nat.
Proof using G Hstart.
  rewrite (graph_length _ _ _ G). destruct (proj2 (Hstart start) eq_refl) as (st & H & _). by eapply lookup_lt_Some.
Qed.

Lemma runs_everywhere reachable :
  List.length reachable = List.length edges -> (forall i, reachable !! i = Some true <-> rtc (edge edges) start i) ->
  position negb reachable = None <-> forall i, (i < List.length (states p))%nat -> exists trace, run p i trace.
Proof using G Hstart.
  intros Hl Hr. rewrite position_negb, Hl, (graph_length _ _ _ G).
  split; intros H i Hi; [by apply (reachable_runs G start Hstart), Hr, H|by apply Hr, (reachable_runs G start Hstart), H].
Qed.

Lemma graph_sets order :
  ordered edges order -> (forall i, (i < List.length (states p))%nat -> exists trace, run p i trace) ->
  exists anc definite available definite' available',
    all_ancestors edges order = Some anc
    /\ all_guarantees edges start order = Some (definite, available)
    /\ map_option (fun states => states) definite = Some definite'
    /\ map_option (fun states => states) available = Some available'
    /\ graph_promises p {| state_indices := indices; topological_order := order; ancestors := anc;
                           definite_ancestors := definite'; available_outputs := available' |}.
Proof using G Hstart.
  intros Hord Hreach. pose proof (graph_in_bounds G) as Hb. pose proof (graph_length _ _ _ G) as Hn.
  destruct (all_ancestors_spec edges order Hb Hord) as (anc & Hanc & Hla & Ha).
  destruct (all_guarantees_spec edges order Hb Hord start) as (d & a & Hda & Hld & Hlav & Hd & Hav).
  { intros i Hi. apply (reachable_runs G start Hstart), Hreach. lia. }
  { apply start_in_bounds. }
  destruct (all_present d) as (d' & Hd' & Hld' & Hdj); [intros j o Hj; destruct (Hd j o Hj) as (A & ? & _); eauto|].
  destruct (all_present a) as (a' & Ha' & Hla' & Haj); [intros j o Hj; destruct (Hav j o Hj) as (A & ? & _); eauto|].
  exists anc, d, a, d', a'. split_and!; [done..|]. split; cbn.
  - apply (graph_indices _ _ _ G).
  - apply NoDup_Permutation; [apply (ordered_nodup _ _ Hord)|apply NoDup_ListNoDup, seq_NoDup|].
    intros i. rewrite (ordered_all _ _ Hord), list_elem_of_In, in_seq. lia.
  - intros l1 j l2 He i Hi. apply (ordered_first _ _ Hord l1 j l2 He). by apply (graph_edge G).
  - lia.
  - intros j A Hj i. rewrite (Ha j A Hj i). apply (graph_tc G).
  - intros j A Hj i. destruct (Hd j (Some A) (Hdj j A Hj)) as (? & [= <-] & Hi). rewrite Hi. apply (guaranteed_passes G start Hstart).
  - intros j A Hj i. destruct (Hav j (Some A) (Haj j A Hj)) as (? & [= <-] & Hi). rewrite Hi. apply (guaranteed_outputs G start Hstart).
Qed.
End Validation.

(** Validation always answers; it accepts the valid graphs, with what it
    promises of them. *)
Lemma validate_graph_cases p path :
  (valid_graph p /\ exists g, validate_graph p path = Some (Ok g) /\ graph_promises p g)
  \/ (~ valid_graph p /\ exists e, validate_graph p path = Some (Err e)).
Proof.
  unfold validate_graph. destruct (index_states path 0 (states p) []) as [indices|e] eqn:Hi.
  2: { right. split; [|by exists e]. intros [H1 H2 _ _ _ _].
       destruct (proj2 (index_states_Ok p path) (conj H1 H2)) as [? ?]. congruence. }
  assert (Hids : Forall (fun st => trim (id st) <> "") (states p) /\ NoDup (map id (states p))) by (apply (index_states_Ok p path); eauto).
  destruct Hids as [Hids Hnd]. pose proof (index_states_graph _ _ _ Hi) as Hx.
  destruct (bt_get indices (start_at p)) as [start|] eqn:Hs.
  2: { right. split; [|by eexists]. intros [_ _ [i Hst] _ _ _]. apply Hx in Hst. congruence. }
  assert (Hstart : forall i, state_at p i (start_at p) <-> i = start).
  { intros i. rewrite <-Hx, Hs. split; congruence. }
  destruct (all_edges_spec path indices 0 (states p)) as [Hedges _].
  destruct (all_edges path indices 0 (states p)) as [edges|e] eqn:He.
  2: { right. split; [|by exists e]. intros [_ _ _ Ht _ _]. destruct (proj1 Hedges) as [? ?]; [|congruence].
       intros st t Hst Htr. apply list_elem_of_lookup in Hst as [i Hst]. destruct (Ht i t) as [j Hj]; [by exists st|]. exists j. by apply Hx. }
  pose proof (all_edges_graph _ _ _ _ Hx He) as G. pose proof (graph_length _ _ _ G) as Hn.
  destruct (reach_spec edges (graph_in_bounds G) start (start_in_bounds p indices edges start G Hstart)) as (reachable & -> & Hlr & Hr).
  cbn [mbind option_bind]. pose proof (runs_everywhere p indices edges start G Hstart reachable Hlr Hr) as Hruns.
  destruct (position negb reachable) as [k|] eqn:Hk.
  { right. split; [intros [_ _ _ _ H _]; apply Hruns in H; congruence|]. apply position_lt in Hk.
    destruct (lookup_lt_is_Some_2 (states p) k ltac:(lia)) as [st ->]. cbn. by eexists. }
  destruct (topological_spec edges (graph_in_bounds G)) as (order & indegree & -> & Hac & Hord). cbn [mbind option_bind].
  destruct (Nat.eqb_spec (List.length order) (List.length (states p))) as [Hl|Hl]; cbn [negb].
  - left. rewrite <-Hn in Hl. assert (Hall : forall i, (i < List.length (states p))%nat -> exists trace, run p i trace) by by apply Hruns.
    split.
    + split; [done|done|by exists start; apply Hstart| |done|].
      * intros i t (st & Hst & Ht). destruct (proj2 Hedges (ex_intro _ edges eq_refl) st t) as [j Hj]; [by eapply list_elem_of_lookup_2|done|].
        exists j. by apply Hx.
      * intros i Hi'. apply (graph_tc G) in Hi'. by apply (proj1 Hac Hl i).
    + destruct (graph_sets p indices edges start G Hstart order (Hord Hl) Hall) as (anc & d & a & d' & a' & -> & -> & Hd & Ha & Hg).
      cbn [mbind option_bind]. rewrite Hd. cbn [mbind option_bind]. rewrite Ha. cbn [mbind option_bind]. by eexists.
  - right. split; [|by eexists]. intros [_ _ _ _ _ H]. apply Hl. rewrite <-Hn. apply Hac. intros i Hi'. apply (H i), (graph_tc G), Hi'.
Qed.

(** C30: Validation of a process graph always answers, without a panic, and it
    accepts exactly the graphs whose states have distinct nonblank names, whose
    start and targets exist, whose states are all reached by a run, and which
    have no cycle. *)
Theorem validate_graph_accepts p path :
  (exists r, validate_graph p path = Some r)
  /\ ((exists g, validate_graph p path = Some (Ok g)) <-> valid_graph p).
Proof.
  destruct (validate_graph_cases p path) as [(Hv & g & Hg & _)|(Hv & e & He)]; split; eauto.
  - by split; [|exists g].
  - split; [intros [g Hg]; congruence|done].
Qed.

(** C29: In an accepted graph the order of compilation puts every state after
    its predecessors; the ancestors of a state are the states from which it can
    be reached, its definite ancestors the states that every run to it left, and
    its available outputs the states that every run to it left with an output. *)
Theorem validate_graph_guarantees p path g :
  validate_graph p path = Some (Ok g) -> graph_promises p g.
Proof.
  intros H. destruct (validate_graph_cases p path) as [(_ & g' & Hg & Hp)|(_ & e & He)]; [|congruence].
  rewrite Hg in H. by injection H as <-.
Qed.

(** ** Witness *)

Definition sample_state (name : string) (op : ProcessStateOperation) : ProcessState := {| id := name; operation := op |}.

Definition sample_signal (next on_timeout : string) : ProcessStateOperation :=
  OpWait (WaitSignal {| wait_signal := "s"; wait_role := "r"; verification := "v"; persist_before_match := false;
    signal_correlate := []; signal_deadline := DeadlineDuration "1h"; signal_next := next; signal_on_timeout := on_timeout |}).

Definition sample_timer (next : string) : ProcessStateOperation :=
  OpWait (WaitTimer {| timer_decision_table := "t"; timer_with := []; timer_output := "o"; timer_next := next |}).

(** The signal reaches [end] directly when it times out, and past the timer
    otherwise. *)
Definition sample_process : Process := {|
  name := "p"; version := 1; source := "default"; lifecycle := Active; permissions := []; owner := None; start := None;
  input := []; output := []; idempotency := None; signals := []; start_at := "wait";
  states := [sample_state "end" (OpOutput []); sample_state "timer" (sample_timer "end");
             sample_state "wait" (sample_signal "timer" "end")] |}.

Lemma validate_graph_guarantees_witness :
  exists g, validate_graph sample_process "processes[0]" = Some (Ok g) /\ graph_promises sample_process g
    /\ topological_order g = [2; 1; 0]%nat
    /\ map elements (available_outputs g) = [[]; [2]; []]%nat
    /\ map elements (definite_ancestors g) = [[2]; [2]; []]%nat.
Proof.
  destruct (validate_graph sample_process "processes[0]") as [[g|]|] eqn:Hg; [|vm_compute in Hg; discriminate..].
  exists g. split; [reflexivity|]. split; [exact (validate_graph_guarantees _ _ _ Hg)|].
  vm_compute in Hg. injection Hg as <-. vm_compute. done.
Defined.
