(* ===== verification/ProcessTypes.v ===== *)
(** * Types of process values ([crates/processes/src/lib.rs])

    The types the process compiler works with: references resolved to the
    objects they name, rule types as value types, assignability between
    resolved types, the common type of two list elements, and the literals and
    casts of process values. *)
From S2P Require Import Prelude Json RulesSyntax ValueContract ProcessSyntax.
Set Warnings "-register-all".

(** ** Construction *)

Definition scalar_type (scalar : ValueScalar) (nullable : bool) : TypeRef := TypeRef_new nullable (Scalar scalar).
Definition list_type (element : TypeRef) : TypeRef := TypeRef_new false (ListOf element).
Definition required_field (t : TypeRef) : ValueContractField := Field_new (negb (nullable t)) t.
Definition empty_contract : ValueContractCatalog := {| roots := []; named_objects := [] |}.

(** [type_ref.nullable = nullable]. *)
Definition set_nullable (nullable : bool) (t : TypeRef) : TypeRef := TypeRef_new nullable (value_type t).

Definition root_type (contract : ValueContractCatalog) (name : string) : option TypeRef :=
  option_map type_ref (bt_get (roots contract) name).

Definition object_type_fields (t : TypeRef) : option Fields :=
  match value_type t with Object fields => Some fields | _ => None end.

Definition scalar_like (t : TypeRef) : bool :=
  match value_type t with Scalar _ | Enum _ _ => true | _ => false end.

Definition catalog_root_object (contract : ValueContractCatalog) : TypeRef := TypeRef_new false (Object (roots contract)).

(** ** Rule types *)

Fixpoint rule_type_ref (t : RuleType) : TypeRef :=
  match t with
  | TNullable inner => set_nullable true (rule_type_ref inner)
  | TBool => scalar_type SBoolean false
  | TString => scalar_type SString false
  | TInt => scalar_type SInt32 false
  | TInt64 => scalar_type SInt64 false
  | TDecimal => scalar_type SDecimal false
  | TUuid => scalar_type SUuid false
  | TDate => scalar_type SDate false
  | TTimestamp => scalar_type STimestampTz false
  | TEnum name symbols => TypeRef_new false (Enum name symbols)
  | TList element => list_type (rule_type_ref element)
  | TObject _ fields =>
      TypeRef_new false (Object (map (fun nt => (nt.1, required_field (rule_type_ref nt.2))) fields))
  | TOpaqueJson _ _ _ _ => scalar_type SJson false
  end.

Definition contract_from_rule_types (fields : btree RuleType) : ValueContractCatalog :=
  {| roots := map (fun nt => (nt.1, required_field (rule_type_ref nt.2))) fields; named_objects := [] |}.

Fixpoint strip_rule_nullable (t : RuleType) : RuleType :=
  match t with TNullable inner => strip_rule_nullable inner | other => other end.

(** ** Texts *)

(** [format!("{scalar:?}")], for a custom name of printable ASCII. *)
Definition scalar_debug (s : ValueScalar) : string :=
  match s with
  | SBoolean => "Boolean" | SString => "String" | SInt32 => "Int32" | SInt64 => "Int64" | SUInt64 => "UInt64"
  | SDecimal => "Decimal" | SUuid => "Uuid" | SDate => "Date" | STimestamp => "Timestamp"
  | STimestampTz => "TimestampTz" | SJson => "Json"
  | SCustom name => "Custom { name: " +:+ debug_text name +:+ " }"
  end.

Fixpoint display_type (t : TypeRef) : string :=
  match t with
  | TypeRef_new nullable vt =>
      let body :=
        match vt with
        | Scalar scalar => scalar_debug scalar
        | Enum name _ => "enum " +:+ name
        | Object fields =>
            "object{" +:+ join "," (map (fun nf => match nf.2 with
              | Field_new required t => nf.1 +:+ (if required then "" else "?") +:+ ":" +:+ display_type t
              end) fields) +:+ "}"
        | ListOf element => "[" +:+ display_type element +:+ "]"
        | Ref name => name
        end in
      if nullable then "nullable " +:+ body else body
  end.

Definition type_mismatch (path : string) (target source : TypeRef) : PlanError :=
  validation path (display_type source +:+ " is not assignable to " +:+ display_type target).

(** ** Assignability and common types *)

Fixpoint type_eqb (a b : TypeRef) : bool :=
  match a, b with
  | TypeRef_new n t, TypeRef_new m u =>
      Bool.eqb n m &&
      match t, u with
      | Scalar s, Scalar s' => scalar_eqb s s'
      | Enum name values, Enum name' values' => String.eqb name name' && list_string_eqb values values'
      | Object fields, Object fields' =>
          list_eqb (fun f g : string * ValueContractField =>
            String.eqb f.1 g.1 &&
            match f.2, g.2 with Field_new r t, Field_new r' t' => Bool.eqb r r' && type_eqb t t' end) fields fields'
      | ListOf e, ListOf e' => type_eqb e e'
      | Ref name, Ref name' => String.eqb name name'
      | _, _ => false
      end
  end.

Fixpoint type_assignable (target source : TypeRef) : bool :=
  match target, source with
  | TypeRef_new target_nullable tt_, TypeRef_new source_nullable st =>
      if source_nullable && negb target_nullable then false
      else
        match tt_, st with
        | Scalar SJson, _ => true
        | Scalar t, Scalar s => scalar_eqb t s
        | Enum tn tv, Enum sn sv => String.eqb tn sn && list_string_eqb tv sv
        | ListOf t, ListOf s => type_assignable t s
        | Object target_fields, Object source_fields =>
            forallb (fun nf =>
              match nf.2 with
              | Field_new target_required t =>
                  match bt_get source_fields nf.1 with
                  | Some (Field_new source_required s) =>
                      (negb target_required || source_required) && type_assignable t s
                  | None => false
                  end
              end) target_fields
        | _, _ => false
        end
  end.

Fixpoint common_type (left right : TypeRef) : option TypeRef :=
  match left, right with
  | TypeRef_new left_nullable lt_, TypeRef_new right_nullable rt =>
      vt ← match lt_, rt with
           | Scalar l, Scalar r => if scalar_eqb l r then Some (Scalar l) else None
           | Enum ln lv, Enum rn rv => if String.eqb ln rn && list_string_eqb lv rv then Some (Enum ln lv) else None
           | ListOf l, ListOf r => element ← common_type l r; Some (ListOf element)
           | Object left_fields, Object right_fields =>
               Some (Object (flat_map (fun nf =>
                 match nf.2 with
                 | Field_new left_required l =>
                     match bt_get right_fields nf.1 with
                     | Some (Field_new right_required r) =>
                         match common_type l r with
                         | Some t => [(nf.1, Field_new (left_required && right_required) t)]
                         | None => []
                         end
                     | None => []
                     end
                 end) left_fields))
           | _, _ => None
           end;
      Some (TypeRef_new (left_nullable || right_nullable) vt)
  end.

Definition merge_object_types (left right : TypeRef) (path : string) : result PlanError TypeRef :=
  fields ← ok_or (validation path "fan-out item must be an object") (object_type_fields left);
  right_fields ← ok_or (validation path "fan-out activity result must be an object") (object_type_fields right);
  fields ← fold_result (fun fields (nf : string * ValueContractField) =>
             match bt_get fields nf.1 with
             | Some existing =>
                 if negb (type_eqb (type_ref existing) (type_ref nf.2)) then
                   invalid path ("fan-out result field `" +:+ nf.1 +:+ "` conflicts with its input item type")
                 else Ok fields
             | None => Ok (bt_insert fields nf.1 nf.2)
             end) fields right_fields;
  Ok (TypeRef_new false (Object fields)).

Definition failure_item_type (item : TypeRef) (item_key : string) : TypeRef :=
  TypeRef_new false (Object (fold_left (fun fields nt => bt_insert fields nt.1 (required_field nt.2))
    [("item_key", scalar_type SString false); ("stage", scalar_type SString false);
     ("code", scalar_type SString false); ("safe_message", scalar_type SString false);
     ("requires_reconciliation", scalar_type SBoolean false); ("activity_key", scalar_type SString false)]
    (default [] (object_type_fields item)))).

(** ** Resolution of references *)

Section Normalize.
(** [dependencies.declared_type]. *)
Variable declared_type : string -> option RuleType.
Variable named_objects : btree ValueObjectContract.

(** A field, and the fields of an object, at their paths. *)
Definition normalize_fields (normalize : string -> TypeRef -> result PlanError TypeRef) (path : string)
    (fields : Fields) : result PlanError Fields :=
  map_result (fun nf => t ← normalize (path +:+ "." +:+ nf.1) (type_ref nf.2);
                        Ok (nf.1, Field_new (required nf.2) t)) fields.

(** [fuel] bounds the references to named objects inside one another, which are
    distinct: the number of named objects is enough.  Exhausted fuel is the
    message no input gives. *)
Fixpoint normalize_type (fuel : nat) (resolving : list string) (path : string) (t : TypeRef) {struct fuel} :
    result PlanError TypeRef :=
  (fix go (path : string) (t : TypeRef) {struct t} : result PlanError TypeRef :=
     match t with
     | TypeRef_new nullable vt =>
         vt ← match vt with
              | Scalar scalar => Ok (Scalar scalar)
              | Enum name values => Ok (Enum name values)
              | Object fields =>
                  fields ← map_result (fun nf => match nf.2 with
                    | Field_new required t =>
                        t ← go (path +:+ "." +:+ nf.1) t; Ok (nf.1, Field_new required t)
                    end) fields;
                  Ok (Object fields)
              | ListOf element => element ← go path element; Ok (ListOf element)
              | Ref name =>
                  if existsb (String.eqb name) resolving then
                    invalid path ("recursive value type `" +:+ name +:+ "` is not executable")
                  else
                    match bt_get named_objects name with
                    | Some object =>
                        match fuel with
                        | O => invalid path "unreachable"
                        | S fuel =>
                            fields ← normalize_fields (normalize_type fuel (name :: resolving)) path (object_fields object);
                            Ok (Object fields)
                        end
                    | None =>
                        match declared_type name with
                        | Some rule_type => Ok (value_type (rule_type_ref rule_type))
                        | None =>
                            if String.eqb name "bigint" then Ok (Scalar SInt64)
                            else invalid path ("unknown named type `" +:+ name +:+ "`")
                        end
                    end
              end;
         Ok (TypeRef_new nullable vt)
     end) path t.
End Normalize.

Definition normalize_contract (declared_type : string -> option RuleType) (contract : ValueContractCatalog) (path : string) :
    result PlanError ValueContractCatalog :=
  roots ← normalize_fields
            (normalize_type declared_type (named_objects contract) (List.length (named_objects contract)) []) path (roots contract);
  Ok {| roots := roots; named_objects := [] |}.

Definition type_from_string (declared_type : string -> option RuleType) (source path : string) : result PlanError TypeRef :=
  match TypeRef_parse source with
  | Err error => invalid path ("invalid type `" +:+ source +:+ "`: " +:+ ValueContractError_to_string error)
  | Ok parsed => normalize_type declared_type [] 0 [] path parsed
  end.
