(* ===== verification/ProcessTypesSpec.v ===== *)
(** * What the types of a process promise ([crates/processes/src/lib.rs])

    Assignability is a preorder and sound for values, the common type of two
    types is their least upper bound, and resolution removes the references of a
    type without changing its values. *)
From S2P Require Import Prelude Json RulesSyntax ValueContract ContractValidity ProcessSyntax ProcessTypes.
Set Warnings "-register-all".

(** ** Equality decides *)

Lemma scalar_eqb_spec a b : scalar_eqb a b = true <-> a = b.
Proof.
  split; [apply scalar_eqb_eq|]. intros ->. destruct b; try done. cbn. apply String.eqb_refl.
Qed.

Lemma list_string_eqb_spec a b : list_string_eqb a b = true <-> a = b.
Proof. apply string_list_eqb_spec. Qed.

(** ** Resolved types *)

(** Types without references, whose maps are maps. *)
Fixpoint resolved (t : TypeRef) : Prop :=
  match t with
  | TypeRef_new _ (Ref _) => False
  | TypeRef_new _ (Object fields) =>
      NoDup (map fst fields)
      /\ fold_right and True (map (fun nf => match nf.2 with Field_new _ t => resolved t end) fields)
  | TypeRef_new _ (ListOf element) => resolved element
  | _ => True
  end.

Lemma resolved_object n fields :
  resolved (TypeRef_new n (Object fields))
  <-> NoDup (map fst fields) /\ Forall (fun nf => resolved (type_ref nf.2)) fields.
Proof.
  cbn. rewrite (fold_and_iff (fun nf : string * ValueContractField => match nf.2 with Field_new _ t => resolved t end)).
  rewrite !List.Forall_forall. split; (intros [? H]; split; [done|]; intros [f [r t]] Hin; by apply (H (f, Field_new r t))).
Qed.

Lemma resolved_wf t : resolved t -> type_wf t.
Proof.
  induction t as [n s|n name values|n fields IH|n e IH|n name] using TypeRef_ind'; try done.
  rewrite resolved_object, type_wf_object. intros [Hnd Hf]. split; [done|].
  rewrite List.Forall_forall in *. intros nf Hin. apply IH; auto.
Qed.

(** ** Assignability *)

Definition field_assignable (target source : ValueContractField) : bool :=
  (negb (required target) || required source) && type_assignable (type_ref target) (type_ref source).

Lemma type_assignable_object n m target source :
  type_assignable (TypeRef_new n (Object target)) (TypeRef_new m (Object source)) = true
  <-> (m = true -> n = true)
      /\ forall f t, In (f, t) target -> exists s, bt_get source f = Some s /\ field_assignable t s = true.
Proof.
  cbn. destruct (m && negb n) eqn:E.
  - split; [done|]. intros [H _]. destruct m, n; try done. by specialize (H eq_refl).
  - rewrite forallb_forall. split.
    + intros H. split; [intros ->; by destruct n|]. intros f [r t] Hin. specialize (H _ Hin). cbn in H.
      destruct (bt_get source f) as [[r' s]|] eqn:Hs; [|done]. by exists (Field_new r' s).
    + intros [_ H] [f [r t]] Hin. destruct (H f (Field_new r t) Hin) as ([r' s] & Hs & Ha). cbn. by rewrite Hs.
Qed.

(** Nullability and shape are independent. *)
Lemma assignable_split n t m s :
  type_assignable (TypeRef_new n t) (TypeRef_new m s) = true
  <-> (m = true -> n = true) /\ type_assignable (TypeRef_new false t) (TypeRef_new false s) = true.
Proof. destruct n, m; cbn; intuition congruence. Qed.

Lemma assignable_refl t : resolved t -> type_assignable t t = true.
Proof.
  induction t as [n s|n name values|n fields IH|n e IH|n name] using TypeRef_ind'; intros Hr;
    try (apply assignable_split; split; [done|]).
  - destruct s; try done. cbn. apply String.eqb_refl.
  - cbn. rewrite String.eqb_refl. by apply list_string_eqb_spec.
  - apply resolved_object in Hr as [Hnd Hf]. apply type_assignable_object. split; [done|]. intros f t Hin. exists t.
    split; [by apply bt_In_get|]. unfold field_assignable. rewrite List.Forall_forall in IH, Hf.
    pose proof (IH (f, t) Hin (Hf (f, t) Hin)) as Ht. cbn [snd] in Ht. rewrite Ht. by destruct (required t).
  - by apply IH.
  - done.
Qed.

Lemma assignable_trans a b c :
  type_assignable a b = true -> type_assignable b c = true -> type_assignable a c = true.
Proof.
  revert b c. induction a as [n s|n name values|n fields IH|n e IH|n name] using TypeRef_ind'; intros [m b] [k c] H1 H2.
  3: { destruct b as [s|name values|mf|e|name]; try (cbn in H1; by destruct (m && negb n)).
    destruct c as [s|name values|cf|e|name]; try (cbn in H2; by destruct (k && negb m)).
    apply type_assignable_object in H1 as [N1 H1], H2 as [N2 H2]. apply type_assignable_object. split; [auto|].
    intros f t Hin. destruct (H1 f t Hin) as (s & Hs & Ha). destruct (H2 f s (bt_get_In _ _ _ Hs)) as (u & Hu & Hb).
    exists u. split; [done|]. unfold field_assignable in *. apply andb_true_iff in Ha as [Ra Ta], Hb as [Rb Tb].
    apply andb_true_iff. split; [destruct (required t), (required s), (required u); done|].
    rewrite List.Forall_forall in IH. by apply (IH (f, t) Hin _ _ Ta). }
  all: apply assignable_split in H1 as [N1 H1], H2 as [N2 H2]; apply assignable_split; split; [auto|]; cbn in *.
  - destruct s; try done; destruct b as [[]| | | |]; try done; destruct c; try done; cbn in *.
    apply String.eqb_eq in H1 as ->. by destruct scalar.
  - destruct b; try done. destruct c; try done. apply andb_true_iff in H1 as [->%String.eqb_eq ->%list_string_eqb_spec]. done.
  - destruct b; try done. destruct c; try done. by apply (IH element).
  - by destruct b.
Qed.

(** ** Common types *)

Definition common_field (l r : ValueContractField) : option ValueContractField :=
  t ← common_type (type_ref l) (type_ref r); Some (Field_new (required l && required r) t).

Definition common_fields (left right : Fields) : Fields :=
  flat_map (fun nf => match bt_get right nf.1 with
                      | Some r => match common_field nf.2 r with Some f => [(nf.1, f)] | None => [] end
                      | None => []
                      end) left.

Lemma common_object n m left right :
  common_type (TypeRef_new n (Object left)) (TypeRef_new m (Object right))
  = Some (TypeRef_new (n || m) (Object (common_fields left right))).
Proof.
  cbn. do 3 f_equal. unfold common_fields. apply flat_map_ext. intros [f [rl l]]. cbn.
  destruct (bt_get right f) as [[rr r]|]; [|done]. unfold common_field. cbn. by destruct (common_type l r).
Qed.

Lemma common_fields_get left right f :
  NoDup (map fst left) ->
  bt_get (common_fields left right) f = (l ← bt_get left f; r ← bt_get right f; common_field l r).
Proof.
  unfold common_fields. induction left as [|[g l] left IH]; [done|]. cbn [map fst flat_map bt_get]. rewrite NoDup_cons.
  intros [Hg Hnd]. specialize (IH Hnd). destruct (String.eqb_spec f g) as [->|Hne].
  - cbn [mbind option_bind fst snd]. destruct (bt_get right g) as [r|]; cbn [mbind option_bind].
    + destruct (common_field l r) as [c|]; cbn; [by rewrite String.eqb_refl|]. rewrite IH.
      rewrite list_elem_of_In in Hg. apply bt_get_None in Hg. by rewrite Hg.
    + cbn. rewrite IH. rewrite list_elem_of_In in Hg. apply bt_get_None in Hg. by rewrite Hg.
  - cbn [fst snd]. destruct (bt_get right g) as [r|]; [|done]. destruct (common_field l r) as [c|]; [|done].
    cbn. by rewrite (proj2 (String.eqb_neq f g) Hne).
Qed.

Lemma common_fields_In left right f c :
  In (f, c) (common_fields left right) <-> exists l r, In (f, l) left /\ bt_get right f = Some r /\ common_field l r = Some c.
Proof.
  unfold common_fields. rewrite in_flat_map. split.
  - intros ([g l] & Hin & Hc). cbn in Hc. destruct (bt_get right g) as [r|] eqn:Hr; [|done].
    destruct (common_field l r) as [c'|] eqn:E; [|done]. destruct Hc as [[= -> ->]|[]]. by exists l, r.
  - intros (l & r & Hin & Hr & Hc). exists (f, l). split; [done|]. cbn. rewrite Hr, Hc. by left.
Qed.

Lemma common_field_Some l r c :
  common_field l r = Some c <-> common_type (type_ref l) (type_ref r) = Some (type_ref c) /\ required c = required l && required r.
Proof.
  unfold common_field. destruct (common_type _ _) as [t|]; cbn.
  - destruct c as [rc tc]. cbn. split; [by intros [= <- <-]|by intros [[= ->] ->]].
  - split; [done|by intros [? _]].
Qed.

(** The shape of a common type that is not an object's. *)
Lemma common_type_upper left : forall right c,
  resolved left -> resolved right -> common_type left right = Some c ->
  type_assignable c left = true /\ type_assignable c right = true.
Proof.
  induction left as [n s|n name values|n fields IH|n e IH|n name] using TypeRef_ind'; intros [m r] c Hl Hr Hc.
  3: { destruct r as [| |right| |]; try done. rewrite common_object in Hc. injection Hc as <-.
    apply resolved_object in Hl as [Hndl Hl], Hr as [Hndr Hr]. rewrite List.Forall_forall in IH, Hl, Hr.
    split; apply type_assignable_object; (split; [by destruct n, m|]); intros f c (l & r & Hin & Hg & [Hc Hq]%common_field_Some)%common_fields_In;
      destruct (IH (f, l) Hin (type_ref r) (type_ref c) (Hl _ Hin) (Hr (f, r) (bt_get_In _ _ _ Hg)) Hc) as [H1 H2]; cbn [snd] in H1.
    - exists l. split; [by apply bt_In_get|]. unfold field_assignable. rewrite H1, Hq. by destruct (required l), (required r).
    - exists r. split; [done|]. unfold field_assignable. rewrite H2, Hq. by destruct (required l), (required r). }
  all: cbn in Hc; destruct r as [s'|name' values'|?|e'|?]; try done.
  - destruct (scalar_eqb s s') eqn:E; [|done]. apply scalar_eqb_spec in E as <-. injection Hc as <-.
    split; (apply assignable_split; split; [by destruct n, m|]; apply (assignable_refl (TypeRef_new false (Scalar s)) I)).
  - destruct (_ && _) eqn:E in Hc; [|done]. apply andb_true_iff in E as [<-%String.eqb_eq <-%list_string_eqb_spec]. injection Hc as <-.
    split; (apply assignable_split; split; [by destruct n, m|]; apply (assignable_refl (TypeRef_new false (Enum name values)) I)).
  - destruct (common_type e e') as [t|] eqn:E; [|done]. injection Hc as <-. destruct (IH e' t Hl Hr E).
    split; (apply assignable_split; split; [by destruct n, m|done]).
Qed.

(** Types without the type of all JSON values. *)
Fixpoint json_free (t : TypeRef) : Prop :=
  match t with
  | TypeRef_new _ (Scalar SJson) => False
  | TypeRef_new _ (Object fields) =>
      fold_right and True (map (fun nf => match nf.2 with Field_new _ t => json_free t end) fields)
  | TypeRef_new _ (ListOf element) => json_free element
  | _ => True
  end.

Lemma json_free_object n fields :
  json_free (TypeRef_new n (Object fields)) <-> Forall (fun nf => json_free (type_ref nf.2)) fields.
Proof.
  cbn. rewrite (fold_and_iff (fun nf : string * ValueContractField => match nf.2 with Field_new _ t => json_free t end)).
  rewrite !List.Forall_forall. split; (intros H [f [r t]] Hin; by apply (H (f, Field_new r t))).
Qed.

Lemma common_type_least upper : forall left right,
  json_free upper -> resolved left -> resolved right ->
  type_assignable upper left = true -> type_assignable upper right = true ->
  exists c, common_type left right = Some c /\ type_assignable upper c = true.
Proof.
  induction upper as [n s|n name values|n fields IH|n e IH|n name] using TypeRef_ind'; intros [m l] [k r] Hj Hl Hr H1 H2.
  3: { destruct l as [?|? ?|left|?|?]; try (cbn in H1; by destruct (m && negb n)).
    destruct r as [?|? ?|right|?|?]; try (cbn in H2; by destruct (k && negb n)).
    rewrite common_object. eexists. split; [done|]. apply type_assignable_object in H1 as [N1 H1], H2 as [N2 H2].
    apply json_free_object in Hj. apply resolved_object in Hl as [Hndl Hl], Hr as [_ Hr]. rewrite List.Forall_forall in IH, Hl, Hr, Hj.
    apply type_assignable_object. split; [destruct m, k; auto|]. intros f t Hin.
    destruct (H1 f t Hin) as (fl & Hfl & [R1 T1]%andb_true_iff). destruct (H2 f t Hin) as (fr & Hfr & [R2 T2]%andb_true_iff).
    destruct (IH (f, t) Hin (type_ref fl) (type_ref fr)) as (c & Hc & Ha);
      [by apply (Hj (f, t))|by apply (Hl (f, fl)), bt_get_In|by apply (Hr (f, fr)), bt_get_In|done|done|].
    exists (Field_new (required fl && required fr) c). rewrite common_fields_get by done. rewrite Hfl, Hfr. cbn [mbind option_bind].
    split; [by apply common_field_Some|]. unfold field_assignable. cbn [required type_ref]. cbn [snd] in Ha. rewrite Ha.
    by destruct (required t), (required fl), (required fr). }
  all: apply assignable_split in H1 as [N1 H1], H2 as [N2 H2]; cbn in H1, H2.
  - assert (Hs : l = Scalar s /\ r = Scalar s).
    { destruct s; try done; destruct l as [[]| | | |]; try done; destruct r as [[]| | | |]; try done.
      cbn in H1, H2. by apply String.eqb_eq in H1 as ->, H2 as ->. }
    destruct Hs as [-> ->]. cbn [common_type]. rewrite (proj2 (scalar_eqb_spec s s) eq_refl). cbn [mbind option_bind].
    eexists. split; [reflexivity|].
    apply assignable_split. split; [destruct m, k; auto|]. apply (assignable_refl (TypeRef_new false (Scalar s)) I).
  - destruct l; try done. destruct r; try done. apply andb_true_iff in H1 as [->%String.eqb_eq ->%list_string_eqb_spec], H2 as [->%String.eqb_eq ->%list_string_eqb_spec].
    cbn [common_type]. rewrite String.eqb_refl, (proj2 (list_string_eqb_spec _ _) eq_refl). cbn [mbind option_bind andb].
    eexists. split; [reflexivity|].
    apply assignable_split. split; [destruct m, k; auto|]. apply (assignable_refl (TypeRef_new false (Enum _ _)) I).
  - destruct l; try done. destruct r; try done. destruct (IH element element0 Hj Hl Hr H1 H2) as (c & Hc & Ha). cbn [common_type]. rewrite Hc. cbn [mbind option_bind].
    eexists. split; [reflexivity|]. apply assignable_split. split; [destruct m, k; auto|done].
  - by destruct l.
Qed.

(** The common type of two types is their least upper bound: each is
    assignable to it, and it exists and is assignable to every type, free of the
    type of all JSON values, to which both are assignable. *)
Theorem common_type_is_least_upper_bound left right :
  resolved left -> resolved right ->
  (forall c, common_type left right = Some c -> type_assignable c left = true /\ type_assignable c right = true)
  /\ (forall upper, json_free upper -> type_assignable upper left = true -> type_assignable upper right = true ->
        exists c, common_type left right = Some c /\ type_assignable upper c = true).
Proof.
  intros Hl Hr. split; [intros c; by apply common_type_upper|]. intros upper Hj. by apply common_type_least.
Qed.

(** ** Values *)

(** A value of a type, where an object may have members the type does not
    know. *)
Inductive fits : TypedValue -> TypeRef -> Prop :=
| fits_null t : nullable t = true -> fits Null t
| fits_scalar v n s : v <> Null -> scalar_valid s v -> fits v (TypeRef_new n (Scalar s))
| fits_enum s n name values : In s values -> fits (Text s) (TypeRef_new n (Enum name values))
| fits_list l n element : Forall (fun v => fits v element) l -> fits (List_ l) (TypeRef_new n (ListOf element))
| fits_object o n fields :
    (forall f field, In (f, field) fields -> required field = true -> In f (map fst o)) ->
    (forall f field v, In (f, field) fields -> bt_get o f = Some v -> fits v (type_ref field)) ->
    fits (Object_ o) (TypeRef_new n (Object fields)).

Lemma assignable_fits target : forall v source,
  resolved target -> resolved source -> value_wf v -> type_assignable target source = true -> valid [] v source -> fits v target.
Proof.
  induction target as [n s|n name values|n fields IH|n e IH|n name] using TypeRef_ind'; intros v [m source] Ht Hs Hwf Ha Hv;
    pose proof Ha as Hsplit; apply assignable_split in Hsplit as [Hn Hshape];
    (assert (Hnull : v = Null \/ v <> Null) by (destruct v; auto; by right)); destruct Hnull as [->|Hne];
    try (constructor; inversion Hv; subst; auto; cbn in *; congruence).
  - constructor; [done|]. pose proof (valid_json_value _ _ Hwf _ Hv) as Hjson. cbn in Hshape.
    destruct s; try done; destruct source as [s'| | | |]; try done; inversion Hv; subst; try done;
      try (apply scalar_eqb_spec in Hshape; by subst s').
  - cbn in Hshape. destruct source as [|name' values'| | |]; try done. apply andb_true_iff in Hshape as [_ ->%list_string_eqb_spec].
    inversion Hv; subst; [done|]. by constructor.
  - destruct source as [| |source| |]; try done. apply type_assignable_object in Ha as [_ Ha].
    apply resolved_object in Ht as [_ Ht], Hs as [_ Hs]. rewrite List.Forall_forall in IH, Ht, Hs.
    inversion Hv as [| | | |o ? ? [_ Hreq] Hf|]; subst; [done|]. constructor.
    + intros f t Hin Hr. destruct (Ha f t Hin) as (g & Hg & [Hq _]%andb_true_iff). apply (Hreq f g); [by apply bt_get_In|].
      rewrite Hr in Hq. exact Hq.
    + intros f t v Hin Hg. destruct (Ha f t Hin) as (g & Hgf & [_ Hta]%andb_true_iff). pose proof (bt_get_In _ _ _ Hgf) as Hgin.
      apply (IH (f, t) Hin v (type_ref g)); [by apply (Ht (f, t))|by apply (Hs (f, g))|by eapply value_wf_get|done|by apply (Hf f g)].
  - cbn in Hshape. destruct source as [| | |e'|]; try done. inversion Hv as [| | |l ? ? Hl| |]; subst; [done|]. constructor.
    rewrite List.Forall_forall in Hl |- *. intros v Hin. apply (IH v e'); [done|done| |done|by apply Hl].
    cbn in Hwf. rewrite fold_and_iff, List.Forall_forall in Hwf. by apply Hwf.
  - done.
Qed.

(** Assignability of resolved types is reflexive and transitive, and what
    a source type accepts has, at a target to which it is assignable, every
    required member and members of the types the target declares. *)
Theorem type_assignable_sound target source v :
  resolved target -> resolved source ->
  type_assignable target target = true
  /\ (forall middle, type_assignable target middle = true -> type_assignable middle source = true ->
        type_assignable target source = true)
  /\ (type_assignable target source = true -> value_wf v -> valid [] v source -> fits v target).
Proof.
  intros Ht Hs. split; [by apply assignable_refl|]. split; [intros middle; apply assignable_trans|].
  intros Ha Hw Hv. by apply (assignable_fits target v source).
Qed.

(** ** A source with more fields than the target *)

Definition one_field (name : string) (t : TypeRef) : ValueContractCatalog :=
  {| roots := [(name, Field_new true t)]; named_objects := [] |}.

Definition narrow_object : TypeRef := TypeRef_new false (Object [("a", Field_new true (scalar_type SInt32 false))]).

Definition wide_object : TypeRef :=
  TypeRef_new false (Object [("a", Field_new true (scalar_type SInt32 false)); ("b", Field_new true (scalar_type SString false))]).

Definition wide_value : TypedValue := Object_ [("o", Object_ [("a", Number (I64 1)); ("b", Text "x")])].

(** The compiler takes an object with more fields for one with fewer,
    which the catalogs' own assignability refuses and the validation of the
    value at the target type rejects. *)
Theorem wider_object_is_rejected_at_run_time :
  type_assignable narrow_object wide_object = true
  /\ is_assignable_from (one_field "o" narrow_object) (one_field "o" wide_object) = false
  /\ validate (one_field "o" wide_object) wide_value = Ok tt
  /\ validate (one_field "o" narrow_object) wide_value = Err (InvalidValue "unknown field `b`").
Proof. vm_compute. repeat split. Qed.

(** ** Resolution *)

Definition object_valid (named : btree ValueObjectContract) (o : btree TypedValue) (fields : Fields) : Prop :=
  members_fit o fields
  /\ forall f field v, In (f, field) fields -> bt_get o f = Some v -> valid named v (type_ref field).

Lemma valid_object_iff named v n fields :
  valid named v (TypeRef_new n (Object fields))
  <-> (v = Null /\ n = true) \/ exists o, v = Object_ o /\ object_valid named o fields.
Proof.
  split.
  - intros H. inversion H as [t Hn| | | |o ? ? Hfit Hf|]; subst; [by left|]. right. by exists o.
  - intros [[-> Hn]|(o & -> & Hfit & Hf)]; by constructor.
Qed.

Lemma valid_ref_iff named v n name object :
  bt_get named name = Some object ->
  valid named v (TypeRef_new n (Ref name)) <-> valid named v (TypeRef_new n (Object (object_fields object))).
Proof.
  intros Hg. rewrite valid_object_iff. split.
  - intros H. inversion H as [t Hn| | | | |o ? ? object' Hg' Hfit Hf]; subst; [by left|]. right. exists o. split; [done|].
    rewrite Hg in Hg'. by injection Hg' as <-.
  - intros [[-> Hn]|(o & -> & Hfit & Hf)]; [by constructor|]. by eapply valid_ref.
Qed.

Lemma valid_list_iff named v n element :
  valid named v (TypeRef_new n (ListOf element))
  <-> (v = Null /\ n = true) \/ exists l, v = List_ l /\ Forall (fun v => valid named v element) l.
Proof.
  split.
  - intros H. inversion H as [t Hn| | |l ? ? Hl| |]; subst; [by left|]. right. by exists l.
  - intros [[-> Hn]|(l & -> & Hl)]; by constructor.
Qed.

(** What resolution keeps of a field. *)
Definition same_field (named : btree ValueObjectContract) (a b : string * ValueContractField) : Prop :=
  b.1 = a.1 /\ required b.2 = required a.2
  /\ forall v, valid named v (type_ref a.2) <-> valid [] v (type_ref b.2).

Lemma same_fields_names named fields fields' : Forall2 (same_field named) fields fields' -> map fst fields' = map fst fields.
Proof. induction 1 as [|a b l k (Hn & _) _ IH]; [done|]. cbn. by rewrite Hn, IH. Qed.

Lemma same_fields_valid named fields fields' o :
  Forall2 (same_field named) fields fields' -> object_valid named o fields <-> object_valid [] o fields'.
Proof.
  intros H. unfold object_valid, members_fit. rewrite (same_fields_names _ _ _ H). split.
  - intros [[Hk Hr] Hf]. split; [split; [done|]|].
    + intros f field Hin Hq. destruct (Forall2_In_r _ _ _ _ H Hin) as ([g a] & Ha & [= ->] & Hreq & _). apply (Hr g a Ha). cbn in Hreq. congruence.
    + intros f field v Hin Hg. destruct (Forall2_In_r _ _ _ _ H Hin) as ([g a] & Ha & [= ->] & _ & Hv). by apply Hv, (Hf g a).
  - intros [[Hk Hr] Hf]. split; [split; [done|]|].
    + intros f field Hin Hq. destruct (Forall2_In_l _ _ _ _ H Hin) as ([g a] & Ha & [= ->] & Hreq & _). apply (Hr f a Ha). cbn in Hreq. congruence.
    + intros f field v Hin Hg. destruct (Forall2_In_l _ _ _ _ H Hin) as ([g a] & Ha & [= ->] & _ & Hv). by apply Hv, (Hf f a).
Qed.

(** Every reference of a type is to a named object. *)
Fixpoint refs_known (named : btree ValueObjectContract) (t : TypeRef) : Prop :=
  match t with
  | TypeRef_new _ (Ref name) => In name (map fst named)
  | TypeRef_new _ (Object fields) =>
      fold_right and True (map (fun nf => match nf.2 with Field_new _ t => refs_known named t end) fields)
  | TypeRef_new _ (ListOf element) => refs_known named element
  | _ => True
  end.

Lemma refs_known_object named n fields :
  refs_known named (TypeRef_new n (Object fields)) <-> Forall (fun nf => refs_known named (type_ref nf.2)) fields.
Proof.
  cbn. rewrite (fold_and_iff (fun nf : string * ValueContractField => match nf.2 with Field_new _ t => refs_known named t end)).
  rewrite !List.Forall_forall. split; (intros H [f [r t]] Hin; by apply (H (f, Field_new r t))).
Qed.

Section Resolution.
Variable declared_type : string -> option RuleType.
Variable named : btree ValueObjectContract.

Abbreviation normalize := (normalize_type declared_type named).

(** The equations of the loop. *)
Lemma normalize_object fuel resolving path n fields :
  normalize fuel resolving path (TypeRef_new n (Object fields))
  = (fields ← normalize_fields (normalize fuel resolving) path fields; Ok (TypeRef_new n (Object fields))).
Proof using Type.
  unfold normalize_fields. destruct fuel; cbn; rewrite bind_assoc; f_equal; apply map_result_ext; by intros [f [r t]] _.
Qed.

Lemma normalize_list fuel resolving path n element :
  normalize fuel resolving path (TypeRef_new n (ListOf element))
  = (element ← normalize fuel resolving path element; Ok (TypeRef_new n (ListOf element))).
Proof using Type. destruct fuel; cbn; by rewrite bind_assoc. Qed.

Lemma normalize_ref fuel resolving path n name :
  normalize fuel resolving path (TypeRef_new n (Ref name))
  = (vt ← (if existsb (String.eqb name) resolving then
             invalid path ("recursive value type `" +:+ name +:+ "` is not executable")
           else
             match bt_get named name with
             | Some object =>
                 match fuel with
                 | O => invalid path "unreachable"
                 | S fuel =>
                     fields ← normalize_fields (normalize fuel (name :: resolving)) path (object_fields object);
                     Ok (Object fields)
                 end
             | None =>
                 match declared_type name with
                 | Some rule_type => Ok (value_type (rule_type_ref rule_type))
                 | None => if String.eqb name "bigint" then Ok (Scalar SInt64)
                           else invalid path ("unknown named type `" +:+ name +:+ "`")
                 end
             end);
     Ok (TypeRef_new n vt)).
Proof using Type. by destruct fuel. Qed.

Lemma normalize_fields_Ok f path fields fields' :
  normalize_fields f path fields = Ok fields' ->
  Forall2 (fun a b => b.1 = a.1 /\ required b.2 = required a.2 /\ f (path +:+ "." +:+ a.1) (type_ref a.2) = Ok (type_ref b.2)) fields fields'.
Proof using Type.
  intros H%map_result_Ok. eapply Forall2_impl; [exact H|]. intros [g a] [h b] (t & Ht & [= <- <-])%bind_Ok. done.
Qed.

Hypothesis named_known : Forall (fun no => Forall (fun nf => refs_known named (type_ref nf.2)) (object_fields no.2)) named.

Lemma normalize_valid fuel : forall t resolving path t',
  refs_known named t -> normalize fuel resolving path t = Ok t' ->
  forall v, valid named v t <-> valid [] v t'.
Proof using named_known.
  induction fuel as [fuel IHfuel] using lt_wf_ind.
  induction t as [n s|n name values|n fields IH|n e IH|n name] using TypeRef_ind'; intros resolving path t' Hk H v.
  - destruct fuel; cbn in H; injection H as <-; (split; intros Hv; inversion Hv; subst; by constructor).
  - destruct fuel; cbn in H; injection H as <-; (split; intros Hv; inversion Hv; subst; by constructor).
  - rewrite normalize_object in H. apply bind_Ok in H as (fields' & Hf%normalize_fields_Ok & [= <-]). apply refs_known_object in Hk.
    assert (Hs : Forall2 (same_field named) fields fields').
    { clear v. induction Hf as [|a b l k (Hn & Hr & Ht) _ IHf]; [constructor|]. inversion IH; inversion Hk; subst. constructor; [|auto].
      split; [done|]. split; [done|]. intros v. eauto. }
    rewrite !valid_object_iff. by setoid_rewrite (fun o => same_fields_valid named fields fields' o Hs).
  - rewrite normalize_list in H. apply bind_Ok in H as (e' & He & [= <-]). rewrite !valid_list_iff.
    assert (Hv : forall v, valid named v e <-> valid [] v e') by (by eapply IH).
    split; (intros [?|(l & -> & Hl)]; [by left|right; exists l; split; [done|]]); (eapply List.Forall_impl; [|exact Hl]); intros; by apply Hv.
  - rewrite normalize_ref in H. apply bind_Ok in H as (vt & H & [= <-]). destruct (existsb _ _); [done|].
    cbn in Hk. apply bt_get_is_Some in Hk as [object Hg]. rewrite Hg in H. destruct fuel as [|fuel]; [done|].
    apply bind_Ok in H as (fields' & Hf%normalize_fields_Ok & [= <-]). rewrite (valid_ref_iff _ _ _ _ _ Hg), !valid_object_iff.
    assert (Hs : Forall2 (same_field named) (object_fields object) fields').
    { pose proof (proj1 (List.Forall_forall _ _) named_known (name, object) (bt_get_In _ _ _ Hg)) as Hko. cbn in Hko. clear v Hg.
      induction Hf as [|a b l k (Hn & Hr & Ht) _ IHf]; [constructor|]. inversion Hko; subst. constructor; [|auto].
      split; [done|]. split; [done|]. intros v. eapply (IHfuel fuel); [lia|done|exact Ht]. }
    by setoid_rewrite (fun o => same_fields_valid named (object_fields object) fields' o Hs).
Qed.

(** References nest through distinct names: fuel above their number changes
    nothing. *)
Lemma normalize_fuel k fuel : forall t resolving path,
  NoDup resolving -> incl resolving (map fst named) -> (List.length named <= fuel + List.length resolving)%nat ->
  normalize (fuel + k) resolving path t = normalize fuel resolving path t.
Proof using Type.
  induction fuel as [fuel IHfuel] using lt_wf_ind.
  induction t as [n s|n name values|n fields IH|n e IH|n name] using TypeRef_ind'; intros resolving path Hnd Hsub Hlen.
  - by destruct fuel, k.
  - by destruct fuel, k.
  - rewrite !normalize_object. f_equal. apply map_result_ext. intros nf Hin. rewrite List.Forall_forall in IH.
    by rewrite (IH nf Hin).
  - rewrite !normalize_list. by rewrite IH.
  - rewrite !normalize_ref. f_equal. destruct (existsb (String.eqb name) resolving) eqn:E; [done|].
    destruct (bt_get named name) as [object|] eqn:Hg; [|done].
    assert (Hin : In name (map fst named)) by (apply in_map_iff; exists (name, object); split; [done|by apply bt_get_In]).
    assert (Hno : ~ In name resolving).
    { intros Hr. rewrite (proj2 (existsb_exists _ _)) in E; [done|]. exists name. by rewrite String.eqb_refl. }
    destruct fuel as [|fuel]; cbn [Nat.add].
    + exfalso. apply Hno. apply (NoDup_length_incl (l := resolving) (l' := map fst named)); [by apply NoDup_ListNoDup|rewrite length_map; lia|done|done].
    + f_equal. apply map_result_ext. intros nf _. rewrite (IHfuel fuel ltac:(lia)); [done| | |cbn; lia].
      * apply NoDup_cons. by rewrite list_elem_of_In.
      * intros x [<-|Hx]; [done|by apply Hsub].
Qed.

Hypothesis named_wf : Forall (fun no => fields_wf (object_fields no.2)) named.
Hypothesis named_defined : Forall (fun no => Forall (type_defined named) (field_types (object_fields no.2))) named.

Lemma normalize_shape fuel : forall t resolving path t',
  type_wf t -> type_defined named t -> normalize fuel resolving path t = Ok t' -> resolved t' /\ type_defined [] t'.
Proof using named_wf named_defined.
  assert (Hfields : forall f path fields fields',
    fields_wf fields -> Forall (type_defined named) (field_types fields) ->
    normalize_fields f path fields = Ok fields' ->
    (forall nf path t', In nf fields -> type_wf (type_ref nf.2) -> type_defined named (type_ref nf.2) ->
       f path (type_ref nf.2) = Ok t' -> resolved t' /\ type_defined [] t') ->
    forall n, resolved (TypeRef_new n (Object fields')) /\ type_defined [] (TypeRef_new n (Object fields'))).
  { intros f path fields fields' [Hnd Hw] Hd Hf%normalize_fields_Ok IH n. unfold field_types in Hd. rewrite List.Forall_map in Hd.
    assert (Hall : forall b, In b fields' -> resolved (type_ref b.2) /\ type_defined [] (type_ref b.2)).
    { intros b Hb. destruct (Forall2_In_r _ _ _ _ Hf Hb) as (a & Ha & _ & _ & Ht). rewrite List.Forall_forall in Hw, Hd.
      apply (IH a (path +:+ "." +:+ a.1) _ Ha); auto. }
    split.
    - apply resolved_object. split.
      + replace (map fst fields') with (map fst fields); [done|]. clear -Hf. induction Hf as [|a b l k (Hn & _) _ IH]; [done|]. cbn. by rewrite Hn, IH.
      + apply List.Forall_forall. intros b Hb. by apply Hall.
    - constructor. unfold field_types. apply List.Forall_map, List.Forall_forall. intros b Hb. by apply Hall. }
  induction fuel as [fuel IHfuel] using lt_wf_ind.
  induction t as [n s|n name values|n fields IH|n e IH|n name] using TypeRef_ind'; intros resolving path t' Hw Hd H.
  - destruct fuel; cbn in H; injection H as <-; (split; [done|constructor]).
  - destruct fuel; cbn in H; injection H as <-; inversion Hd; subst; (split; [done|by constructor]).
  - rewrite normalize_object in H. apply bind_Ok in H as (fields' & Hf & [= <-]). inversion Hd as [| |? ? Hfd| |]; subst.
    eapply Hfields; [by apply type_wf_object in Hw|done|exact Hf|]. intros nf path' t' Hin ? ?.
    rewrite List.Forall_forall in IH. by apply (IH nf Hin).
  - rewrite normalize_list in H. apply bind_Ok in H as (e' & He & [= <-]). inversion Hd; subst.
    destruct (IH _ _ _ Hw ltac:(done) He) as [? ?]. split; [done|by constructor].
  - rewrite normalize_ref in H. apply bind_Ok in H as (vt & H & [= <-]). destruct (existsb _ _); [done|].
    inversion Hd as [| | | |? ? Hin]; subst. apply bt_get_is_Some in Hin as [object Hg]. rewrite Hg in H. destruct fuel as [|fuel]; [done|].
    apply bind_Ok in H as (fields' & Hf & [= <-]). eapply Hfields; [|..|exact Hf|].
    + rewrite List.Forall_forall in named_wf. by apply (named_wf (name, object)), bt_get_In.
    + rewrite List.Forall_forall in named_defined. by apply (named_defined (name, object)), bt_get_In.
    + intros nf path' t' _ ? ?. apply (IHfuel fuel); [lia|done|done].
Qed.
End Resolution.

Lemma defined_refs_known named t : type_defined named t -> refs_known named t.
Proof.
  induction t as [n s|n name values|n fields IH|n e IH|n name] using TypeRef_ind'; intros H; inversion H as [| |? ? Hf| |]; subst; try done.
  - apply refs_known_object. unfold field_types in Hf. rewrite List.Forall_map in Hf. rewrite List.Forall_forall in *. intros nf Hin. auto.
  - by apply IH.
Qed.

Lemma catalog_defined_iff c :
  catalog_defined c <-> Forall (type_defined (named_objects c)) (field_types (roots c))
    /\ Forall (fun no => Forall (type_defined (named_objects c)) (field_types (object_fields no.2))) (named_objects c).
Proof. unfold catalog_defined, catalog_types. by rewrite Forall_app, List.Forall_flat_map. Qed.

(** C37: Resolving the references of a contract gives a contract without named
    objects that accepts the same values, and the references of a contract nest
    at most as deep as it has named objects. *)
Theorem normalize_contract_refines declared_type c path c' :
  catalog_wf c -> catalog_defined c -> normalize_contract declared_type c path = Ok c' ->
  named_objects c' = [] /\ Forall (fun nf => resolved (type_ref nf.2)) (roots c')
  /\ (forall v, value_wf v -> validate c v = Ok tt <-> validate c' v = Ok tt)
  /\ (forall k t, normalize_type declared_type (named_objects c) (List.length (named_objects c) + k) [] path t
                  = normalize_type declared_type (named_objects c) (List.length (named_objects c)) [] path t).
Proof.
  intros Hwf Hdef (fields & Hf & [= <-])%bind_Ok. cbn [named_objects roots]. split; [done|].
  pose proof Hwf as ([Hnd Hw] & _ & Hnw). pose proof Hdef as [Hrd Hnd']%catalog_defined_iff.
  assert (Hshape : resolved (TypeRef_new false (Object fields)) /\ type_defined [] (TypeRef_new false (Object fields))).
  { eapply (normalize_shape declared_type (named_objects c) Hnw Hnd' _ (TypeRef_new false (Object (roots c))) [] path).
    - by apply type_wf_object.
    - by constructor.
    - rewrite normalize_object, Hf. done. }
  destruct Hshape as [Hres Hdr]. pose proof Hres as [Hnd'' Hres']%resolved_object. split; [done|]. split.
  - intros v Hv.
    assert (Hwf' : catalog_wf {| roots := fields; named_objects := [] |}).
    { split; [by apply (type_wf_object false), resolved_wf|]. by split; constructor. }
    assert (Hdef' : catalog_defined {| roots := fields; named_objects := [] |}).
    { apply catalog_defined_iff. cbn. split; [by inversion Hdr|constructor]. }
    rewrite (validate_accepts c v Hwf Hv), (validate_accepts _ v Hwf' Hv). cbn [roots named_objects].
    enough (valid (named_objects c) v (TypeRef_new false (Object (roots c))) <-> valid [] v (TypeRef_new false (Object fields))) by tauto.
    eapply (normalize_valid declared_type (named_objects c)).
    + eapply List.Forall_impl; [|exact Hnd']. intros no H. unfold field_types in H. rewrite List.Forall_map in H.
      eapply List.Forall_impl; [|exact H]. intros nf. apply defined_refs_known.
    + apply refs_known_object. unfold field_types in Hrd. rewrite List.Forall_map in Hrd.
      eapply List.Forall_impl; [|exact Hrd]. intros nf. apply defined_refs_known.
    + by rewrite normalize_object, Hf.
  - intros k t. apply normalize_fuel; [constructor|by intros ? []|cbn; lia].
Qed.

(** ** Witnesses *)

Lemma resolved_wide : resolved wide_object /\ resolved narrow_object.
Proof. split; (split; [no_dup|done]). Qed.

Lemma common_type_is_least_upper_bound_witness :
  common_type wide_object narrow_object = Some narrow_object
  /\ type_assignable narrow_object wide_object = true /\ type_assignable narrow_object narrow_object = true.
Proof.
  split; [reflexivity|]. apply (proj1 (common_type_is_least_upper_bound _ _ (proj1 resolved_wide) (proj2 resolved_wide))). reflexivity.
Defined.

Lemma type_assignable_sound_witness :
  type_assignable narrow_object wide_object = true
  /\ fits (Object_ [("a", Number (I64 1)); ("b", Text "x")]) narrow_object.
Proof.
  split; [reflexivity|].
  apply (type_assignable_sound narrow_object wide_object _ (proj2 resolved_wide) (proj1 resolved_wide)); [reflexivity| |].
  - split; [no_dup|]. cbn. unfold i64_min, i64_max. lia.
  - constructor.
    + split; [cbn; tauto|]. cbn. intuition congruence.
    + cbn. intros f field v [[= <- <-]|[[= <- <-]|[]]]; cbn; intros [= <-]; constructor; try done.
      exists 1. unfold i32_min, i32_max. split; [reflexivity|lia].
Defined.

Definition line_contract : ValueContractCatalog :=
  {| roots := [("lines", Field_new true (TypeRef_new false (ListOf (TypeRef_new false (Ref "Line")))))];
     named_objects := [("Line", {| object_fields := [("sku", Field_new true (scalar_type SString false))] |})] |}.

Definition line_contract_resolved : ValueContractCatalog :=
  {| roots := [("lines", Field_new true (TypeRef_new false (ListOf (TypeRef_new false
                 (Object [("sku", Field_new true (scalar_type SString false))])))))];
     named_objects := [] |}.

Definition line_value : TypedValue := Object_ [("lines", List_ [Object_ [("sku", Text "A-1")]])].

Lemma line_contract_ok : catalog_wf line_contract /\ catalog_defined line_contract.
Proof.
  split.
  - split; [split; [no_dup|by repeat constructor]|]. split; [no_dup|]. constructor; [|constructor]. split; [no_dup|by repeat constructor].
  - apply validate_definitions_spec. vm_compute. reflexivity.
Qed.

Lemma normalize_contract_refines_witness :
  normalize_contract (fun _ => None) line_contract "input" = Ok line_contract_resolved
  /\ validate line_contract_resolved line_value = Ok tt.
Proof.
  assert (H : normalize_contract (fun _ => None) line_contract "input" = Ok line_contract_resolved) by (vm_compute; reflexivity).
  split; [exact H|].
  apply (normalize_contract_refines (fun _ => None) line_contract "input" line_contract_resolved (proj1 line_contract_ok) (proj2 line_contract_ok) H).
  - cbn. split; [no_dup|]. split; [|done]. split; [|done]. split; [no_dup|done].
  - vm_compute. reflexivity.
Defined.
