(* ===== verification/ProcessActivity.v ===== *)
(** * Activities of a process ([crates/processes/src/lib.rs])

    What the compiler checks of a request activity before it resolves its
    connector: the stable key, the error routes, the at-most-once declaration,
    the durations, and the horizon within which every attempt is sent. *)
From stdpp Require Import list.
From S2P Require Import Prelude Json ValueContract ProcessSyntax.

Definition MAXIMUM_ACTIVITY_TAKEOVER_DELAY_MS : Z := 5000.

#[export] Instance ProcessErrorKind_eq_dec : EqDecision ProcessErrorKind.
Proof. solve_decision. Defined.

Definition index_path (path : string) (index : nat) : string := path +:+ "[" +:+ show_nat (Z.of_nat index) +:+ "]".

(** ** Keys and routes *)

Definition option_string_eqb (a b : option string) : bool :=
  match a, b with
  | Some a, Some b => String.eqb a b
  | None, None => true
  | _, _ => false
  end.

Definition validate_stable_activity_key (key : ProcessStableActivityKey) (state_id : string) (item_key : option string)
    (path : string) : result PlanError unit :=
  if negb (String.eqb (key_run key) "id") then
    invalid (path +:+ ".run") "stable activity key run component must be `id`"
  else if negb (String.eqb (key_state key) state_id) then
    invalid (path +:+ ".state")
      ("stable activity key state `" +:+ key_state key +:+ "` must equal owning state `" +:+ state_id +:+ "`")
  else if negb (option_string_eqb (key_item key) item_key) then
    invalid (path +:+ ".item_key")
      match item_key with
      | Some item_key => "fan-out activity key must use item_key `" +:+ item_key +:+ "`"
      | None => "scalar activity key must not declare item_key"
      end
  else Ok tt.

(** [kinds.insert(identity)], which fails on a kind seen before: the identity is
    the name of the kind. *)
Definition insert_kind (seen : list ProcessErrorKind) (kind : ProcessErrorKind) : option (list ProcessErrorKind) :=
  if decide (kind ∈ seen) then None else Some (kind :: seen).

Fixpoint route_kinds (path : string) (index : nat) (seen kinds : list ProcessErrorKind) :
    result PlanError (list ProcessErrorKind) :=
  match kinds with
  | [] => Ok seen
  | kind :: kinds =>
      match insert_kind seen kind with
      | None => invalid (index_path (path +:+ ".kinds") index) "an error kind may be routed only once"
      | Some seen => route_kinds path (S index) seen kinds
      end
  end.

Fixpoint route_list (path : string) (index : nat) (seen : list ProcessErrorKind) (l : list ProcessErrorRoute) :
    result PlanError unit :=
  match l with
  | [] => Ok tt
  | route :: l =>
      let route_path := index_path (path +:+ ".routes") index in
      match kinds route with
      | [] => invalid (route_path +:+ ".kinds") "error route kinds must not be empty"
      | route_ks =>
          seen ← route_kinds route_path 0 seen route_ks;
          route_list path (S index) seen l
      end
  end.

Definition validate_error_routes (on_error : option ProcessErrorRoutes) (path : string) : result PlanError unit :=
  match on_error with
  | None => Ok tt
  | Some r =>
      match routes r with
      | [] => invalid (path +:+ ".routes") "on_error routes must not be empty"
      | l => route_list path 0 [] l
      end
  end.

(** ** At most once *)

Definition is_empty {A} (l : list A) : bool := match l with [] => true | _ => false end.

Definition validate_at_most_once (at_most_once_effect at_most_once : bool) (on_ambiguous : option string)
    (on_error : option ProcessErrorRoutes) (standalone_state : bool) (retry : ProcessRetry)
    (connector operation path : string) : result PlanError unit :=
  let operation_name := connector +:+ "." +:+ operation in
  if at_most_once && negb at_most_once_effect then
    invalid (path +:+ ".at_most_once")
      ("connector operation `" +:+ operation_name +:+
       "` publishes an idempotency contract, so an at-most-once opt-in would change nothing")
  else if is_some on_ambiguous && negb at_most_once then
    invalid (path +:+ ".on_ambiguous")
      "an ambiguous-outcome route is reachable only for an at-most-once activity"
  else if negb at_most_once_effect then Ok tt
  else if negb at_most_once then
    invalid (path +:+ ".at_most_once")
      ("connector operation `" +:+ operation_name +:+
       "` publishes no idempotency mechanism; an activity may reference it only by declaring `at_most_once: true`")
  else if negb (is_some on_ambiguous) then
    invalid (path +:+ ".on_ambiguous")
      "an at-most-once activity must declare where an unknown outcome goes; `on_error` routes failures, and a send that may or may not have happened is not one"
  else if standalone_state && negb (is_some on_error) then
    invalid (path +:+ ".on_error")
      "an at-most-once activity must also declare `on_error`: it retries nothing, so its first ordinary failure is terminal, and a failure with no declared route leaves the instance running with nowhere to go"
  else if negb (is_empty (retry_on retry)) then
    invalid (path +:+ ".retry.retry_on")
      "an at-most-once activity retries nothing: every retryable class is a second provider attempt, and this operation may be sent once"
  else if negb (max_attempts retry =? 1) then
    invalid (path +:+ ".retry.max_attempts")
      ("an at-most-once activity has exactly one attempt; `max_attempts` is " +:+ show_nat (max_attempts retry))
  else Ok tt.

(** ** Durations *)

Definition strip_suffix (suffix s : string) : option string :=
  if ends_with suffix s then Some (str_take (String.length s - String.length suffix) s) else None.

Definition duration_unit (source : string) : option (string * Z) :=
  match strip_suffix "ms" source with
  | Some value => Some (value, 1)
  | None =>
      match strip_suffix "s" source with
      | Some value => Some (value, 1000)
      | None =>
          match strip_suffix "m" source with
          | Some value => Some (value, 60000)
          | None =>
              match strip_suffix "h" source with
              | Some value => Some (value, 3600000)
              | None => match strip_suffix "d" source with Some value => Some (value, 86400000) | None => None end
              end
          end
      end
  end.

Definition parse_duration (source path : string) : result PlanError Z :=
  match duration_unit source with
  | None => invalid path "duration must be a positive integer followed by ms, s, m, h, or d"
  | Some (digits, multiplier) =>
      if String.eqb digits ""
         || ((1 <? String.length digits)%nat && Prelude.starts_with "0" digits)
         || negb (bytes_forallb is_ascii_digit_byte digits)
      then invalid path "duration must use canonical positive base-10 spelling"
      else
        match (value ← parse_unsigned u64_max digits; checked 0 u64_max (value * multiplier)) with
        | Some value => if 0 <? value then Ok value else invalid path "duration is zero or overflowed"
        | None => invalid path "duration is zero or overflowed"
        end
  end.

(** [source.bytes().enumerate()] from [index], in a text of [len] bytes. *)
Fixpoint group_digits (len index : nat) (source : string) : string :=
  match source with
  | EmptyString => EmptyString
  | String byte source =>
      (if (0 <? index)%nat && ((len - index) mod 3 =? 0)%nat then "," else "") +:+ String byte (group_digits len (S index) source)
  end.

Definition format_number (value : Z) : string :=
  let source := show_nat value in group_digits (String.length source) 0 source.

(** ** The retry horizon *)

Definition retryable (kind : ProcessErrorKind) : bool :=
  match kind with Transport | Timeout_ | Http429 | Http5xx => true | _ => false end.

Fixpoint retry_kinds (path : string) (index : nat) (seen l : list ProcessErrorKind) : result PlanError unit :=
  match l with
  | [] => Ok tt
  | kind :: l =>
      if negb (retryable kind) then
        invalid (index_path (path +:+ ".retry_on") index) "only transport, timeout, http_429, and http_5xx are retryable"
      else
        match insert_kind seen kind with
        | None => invalid (index_path (path +:+ ".retry_on") index) "retry_on contains a duplicate error kind"
        | Some seen => retry_kinds path (S index) seen l
        end
  end.

(** Machine addition and multiplication at [u64]. *)
Definition add_u64 (a b : Z) : option Z := checked 0 u64_max (a + b).
Definition mul_u64 (a b : Z) : option Z := checked 0 u64_max (a * b).

(** The [while retries_remaining > 0] loop: [None] is an overflow.  The bound
    doubles until it reaches [maximum], so 66 turns are enough. *)
Fixpoint horizon_loop (fuel : nat) (maximum schedule_to_start_ms horizon retry_bound retries_remaining : Z) : option Z :=
  if 0 <? retries_remaining then
    match fuel with
    | O => None
    | S fuel =>
        horizon ← add_u64 horizon retry_bound;
        horizon ← add_u64 horizon schedule_to_start_ms;
        let retries_remaining := retries_remaining - 1 in
        if (retry_bound =? maximum) && (0 <? retries_remaining) then
          saturated_retry ← add_u64 maximum schedule_to_start_ms;
          saturated_retry ← mul_u64 saturated_retry retries_remaining;
          add_u64 horizon saturated_retry
        else
          horizon_loop fuel maximum schedule_to_start_ms horizon
            (Z.min (Z.min (retry_bound * 2) u64_max) maximum) retries_remaining
    end
  else Some horizon.

Definition compile_retry_horizon (retry : ProcessRetry) (at_most_once : bool) (schedule_to_start_ms start_to_close_ms : Z)
    (path : string) : result PlanError Z :=
  let overflowed := validation path "activity horizon overflowed" in
  if max_attempts retry =? 0 then
    invalid (path +:+ ".max_attempts") "retry max_attempts must be greater than zero"
  else if is_empty (retry_on retry) && negb at_most_once then
    invalid (path +:+ ".retry_on") "retry_on must not be empty"
  else
    _ ← retry_kinds path 0 [] (retry_on retry);
    if negb (String.eqb (jitter retry) "deterministic_full") then
      invalid (path +:+ ".jitter") "retry jitter must be `deterministic_full`"
    else
      initial ← parse_duration (initial_interval retry) (path +:+ ".initial_interval");
      maximum ← parse_duration (max_interval retry) (path +:+ ".max_interval");
      if maximum <? initial then
        invalid (path +:+ ".max_interval") "retry max_interval must be at least initial_interval"
      else
        let attempts := max_attempts retry in
        per_attempt ← ok_or overflowed (add_u64 start_to_close_ms MAXIMUM_ACTIVITY_TAKEOVER_DELAY_MS);
        horizon ← ok_or overflowed (mul_u64 attempts per_attempt);
        ok_or overflowed (horizon_loop 66 maximum schedule_to_start_ms horizon initial (attempts - 1)).
