(* ===== verification/ProcessActivitySpec.v ===== *)
(** * What the checks of an activity promise ([crates/processes/src/lib.rs]) *)
From stdpp Require Import list.
From S2P Require Import Prelude Json ValueContract ProcessSyntax ProcessActivity.

(** ** Durations *)

Definition units : list (string * Z) := [("ms", 1); ("s", 1000); ("m", 60000); ("h", 3600000); ("d", 86400000)].

Lemma substring_drop s n : substring n (String.length s - n) s = str_drop n s.
Proof.
  assert (H0 : forall s, substring 0 (String.length s) s = s) by (intros t; induction t as [|a t IH]; [done|]; cbn; by rewrite IH).
  revert s. induction n as [|n IH]; intros [|a s]; [done|apply (H0 (String a s))|done|apply IH].
Qed.

Lemma strip_suffix_Some suffix s t : strip_suffix suffix s = Some t <-> s = t +:+ suffix.
Proof.
  unfold strip_suffix, ends_with. split.
  - destruct (_ && _) eqn:E; [|done]. apply andb_true_iff in E as [Hl%Nat.leb_le Hs%String.eqb_eq]. intros [= <-].
    replace (String.length suffix) with (String.length s - (String.length s - String.length suffix))%nat in Hs at 2 by lia.
    rewrite substring_drop in Hs. rewrite Hs at 2. symmetry. apply take_drop.
  - intros ->. rewrite str_length_app, (proj2 (Nat.leb_le _ _)) by lia.
    replace (String.length t + String.length suffix - String.length suffix)%nat with (String.length t) by lia.
    assert (H : substring (String.length t) (String.length suffix) (t +:+ suffix) = suffix).
    { transitivity (str_drop (String.length t) (t +:+ suffix)); [|apply drop_app]. rewrite <-substring_drop, str_length_app. f_equal. lia. }
    rewrite H, String.eqb_refl. cbn. by rewrite take_app.
Qed.

Lemma strip_suffix_None suffix s : strip_suffix suffix s = None <-> forall t, s <> t +:+ suffix.
Proof.
  destruct (strip_suffix suffix s) as [t|] eqn:E.
  - split; [done|]. intros H. apply strip_suffix_Some in E. by destruct (H t).
  - split; [|done]. intros _ t Ht%strip_suffix_Some. congruence.
Qed.

Lemma app_last a b (x y : ascii) : a +:+ String x "" = b +:+ String y "" -> a = b /\ x = y.
Proof.
  intros H. assert (Hl : String.length a = String.length b).
  { pose proof (f_equal String.length H) as Hl. rewrite !str_length_app in Hl. cbn in Hl. lia. }
  apply str_app_inj_length in H as [-> H]; [|done]. by injection H.
Qed.

(** Digits do not end in a letter. *)
Lemma digits_no_suffix s t a : bytes_forallb is_ascii_digit_byte s = true -> is_ascii_digit_byte a = false -> s <> t +:+ String a "".
Proof. intros Hs Ha ->. rewrite bytes_forallb_app in Hs. apply andb_true_iff in Hs as [_ Hs]. cbn in Hs. by rewrite Ha in Hs. Qed.

Lemma duration_unit_Some s digits m :
  duration_unit s = Some (digits, m) -> exists u, In (u, m) units /\ s = digits +:+ u.
Proof.
  unfold duration_unit, units. intros H.
  repeat (match type of H with context [strip_suffix ?u s] => destruct (strip_suffix u s) as [?|] eqn:?E end);
    try done; injection H as <- <-; apply strip_suffix_Some in E || apply strip_suffix_Some in E0 || apply strip_suffix_Some in E1
      || apply strip_suffix_Some in E2 || apply strip_suffix_Some in E3; eexists; (split; [|eassumption]); cbn; tauto.
Qed.

Lemma duration_unit_digits digits u m :
  bytes_forallb is_ascii_digit_byte digits = true -> In (u, m) units -> duration_unit (digits +:+ u) = Some (digits, m).
Proof.
  intros Hd Hin. unfold duration_unit.
  assert (Hself : forall u, strip_suffix u (digits +:+ u) = Some digits) by (intros; by apply strip_suffix_Some).
  assert (Hms : forall x, strip_suffix "ms" (digits +:+ String x "") = None).
  { intros x. apply strip_suffix_None. intros t Ht. change "ms" with ("m" +:+ "s") in Ht. rewrite <-str_app_assoc in Ht.
    apply app_last in Ht as [-> _]. eapply (digits_no_suffix _ t "m"); [exact Hd|done|done]. }
  assert (Hother : forall x y, x <> y -> strip_suffix (String y "") (digits +:+ String x "") = None).
  { intros x y Hne. apply strip_suffix_None. intros t Ht. apply app_last in Ht as [_ ->]. done. }
  destruct Hin as [[= <- <-]|[[= <- <-]|[[= <- <-]|[[= <- <-]|[[= <- <-]|[]]]]]]; rewrite ?Hms, ?Hother, ?Hself by done; done.
Qed.

(** A duration is read exactly when it is a positive number in decimal
    notation without leading zeros, followed by a unit, and the milliseconds it
    denotes fit in 64 bits; it is read as these milliseconds. *)
Theorem parse_duration_spec s path n :
  parse_duration s path = Ok n
  <-> exists v u m, In (u, m) units /\ 0 < v /\ s = show_nat v +:+ u /\ n = v * m /\ n <= u64_max.
Proof.
  assert (Hunit : forall u m, In (u, m) units -> 0 < m).
  { intros u m [[= <- <-]|[[= <- <-]|[[= <- <-]|[[= <- <-]|[[= <- <-]|[]]]]]]; lia. }
  unfold parse_duration. split.
  - destruct (duration_unit s) as [[digits m]|] eqn:Hu; [|done]. apply duration_unit_Some in Hu as (u & Hin & ->).
    destruct (_ || _) eqn:Hc; [done|]. apply orb_false_iff in Hc as [[Hne Hz]%orb_false_iff Hd%negb_false_iff].
    destruct (value ← parse_unsigned u64_max digits; checked 0 u64_max (value * m)) as [w|] eqn:Hp; [|done].
    apply bind_Some in Hp as (v & Hv & (-> & Hw)%checked_Some). destruct (Z.ltb_spec 0 (v * m)) as [Hpos|]; [|done]. intros [= <-].
    specialize (Hunit u m Hin). assert (Hvp : 0 < v) by nia.
    destruct digits as [|a digits]; [done|].
    assert (Hpd : parse_digits (String a digits) = Some (digits_value 0 (String a digits))) by (unfold parse_digits; by rewrite Hd).
    rewrite (parse_unsigned_digits _ _ _ Hpd) in Hv. apply checked_Some in Hv as [-> _].
    exists (digits_value 0 (String a digits)), u, m. split_and!; try done; [|lia]. f_equal.
    apply (digits_of_unique (digits_value 0 (String a digits))); [done| |apply show_nat_spec; lia].
    destruct (ascii_dec a "0") as [->|Ha]; [|by apply no_leading_zero].
    destruct digits as [|b digits]; [by vm_compute in Hvp|]. cbn in Hz. done.
  - intros (v & u & m & Hin & Hv & -> & -> & Hmax). destruct (show_nat_spec v ltac:(lia)) as [Hd Hval Hlen Hlead].
    rewrite (duration_unit_digits _ _ m Hd Hin). rewrite Hd. specialize (Hunit u m Hin).
    destruct (show_nat v) as [|a digits] eqn:Hs; [cbn in Hlen; lia|].
    assert (Ha : Prelude.starts_with "0" (String a digits) && (1 <? String.length (String a digits))%nat = false).
    { destruct (Nat.ltb_spec 1 (String.length (String a digits))) as [Hl|]; [|by rewrite andb_false_r]. rewrite andb_true_r.
      cbn [Prelude.starts_with]. destruct (Ascii.eqb_spec "0" a) as [<-|]; [|done]. exfalso. specialize (Hlead Hv).
      cbn [digits_value String.length] in Hval, Hlead. cbn [bytes_forallb] in Hd. apply andb_true_iff in Hd as [_ Hd].
      pose proof (digits_value_bound digits Hd) as Hb. change (0 * 10 + digit_val "0") with 0 in Hval. rewrite Hval in Hb.
      replace (Z.of_nat (S (String.length digits)) - 1) with (Z.of_nat (String.length digits)) in Hlead by lia. lia. }
    rewrite andb_comm in Ha. rewrite Ha. cbn [String.eqb orb negb].
    assert (Hp : parse_digits (String a digits) = Some v) by (rewrite <-Hs; apply parse_digits_of, show_nat_spec; lia).
    rewrite (parse_unsigned_digits _ _ _ Hp), (proj2 (checked_Some 0 u64_max v v)) by (unfold u64_max in *; nia).
    cbn [mbind option_bind]. rewrite (proj2 (checked_Some 0 u64_max (v * m) (v * m))) by (unfold u64_max in *; nia).
    by rewrite (proj2 (Z.ltb_lt 0 (v * m))) by nia.
Qed.

(** ** Kinds *)

Lemma insert_kind_Some seen kind seen' : insert_kind seen kind = Some seen' <-> (kind ∉ seen) /\ seen' = kind :: seen.
Proof. unfold insert_kind. destruct (decide (kind ∈ seen)); split; [done|by intros []|by intros [= <-]|by intros [_ ->]]. Qed.

(** Kinds already seen, then new ones: no kind twice. *)
Definition fresh (seen l : list ProcessErrorKind) : Prop := NoDup l /\ forall k, k ∈ l -> k ∉ seen.

Lemma fresh_cons seen k l : fresh seen (k :: l) <-> (k ∉ seen) /\ fresh (k :: seen) l.
Proof.
  unfold fresh. rewrite NoDup_cons. setoid_rewrite elem_of_cons. split.
  - intros [[Hk Hl] H]. split; [apply H; by left|]. split; [done|]. intros j Hj [->|Hs]; [done|]. apply (H j); [by right|done].
  - intros [Hk [Hl H]]. split; [split; [|done]; intros Hin; apply (H k Hin); by left|].
    intros j [->|Hj] Hs; [done|]. apply (H j Hj). by right.
Qed.

Lemma fresh_app seen a b : fresh seen (a ++ b) <-> fresh seen a /\ fresh (rev a ++ seen) b.
Proof.
  unfold fresh. rewrite NoDup_app. setoid_rewrite elem_of_app. setoid_rewrite list_elem_of_In. setoid_rewrite <-in_rev. split.
  - intros [(Ha & Hab & Hb) H]. split; [split; [done|]; intros k Hk; apply H; by left|]. split; [done|].
    intros k Hk [Hin|Hin]; [by apply (Hab k)|by apply (H k); [right|]].
  - intros [[Ha H1] [Hb H2]]. split; [split_and!; [done| |done]|].
    + intros k Hk Hin. apply (H2 k Hin). by left.
    + intros k [Hk|Hk] Hs; [by apply (H1 k)|]. apply (H2 k Hk). by right.
Qed.

Lemma route_kinds_Ok path index seen ks seen' :
  route_kinds path index seen ks = Ok seen' <-> fresh seen ks /\ seen' = rev ks ++ seen.
Proof.
  revert index seen. induction ks as [|k ks IH]; intros index seen; cbn [route_kinds].
  - split; [intros [= <-]; split; [split; [constructor|by intros k ?%elem_of_nil]|done]|by intros [_ ->]].
  - rewrite fresh_cons. destruct (insert_kind seen k) as [s|] eqn:E.
    + apply insert_kind_Some in E as [Hk ->]. rewrite IH. cbn [rev]. rewrite <-app_assoc. cbn. tauto.
    + split; [done|]. intros [[Hk _] _]. unfold insert_kind in E. by rewrite decide_False in E.
Qed.

Lemma route_list_Ok path index seen l :
  route_list path index seen l = Ok tt <-> Forall (fun r => kinds r <> []) l /\ fresh seen (List.concat (map kinds l)).
Proof.
  revert index seen. induction l as [|r l IH]; intros index seen; cbn [route_list map List.concat].
  - split; [intros _; split; [constructor|split; [constructor|by intros k ?%elem_of_nil]]|done].
  - rewrite List.Forall_cons_iff. destruct (kinds r) as [|k ks] eqn:Ek; [split; [done|by intros [[? _] _]]|].
    rewrite fresh_app. split.
    + intros (s & (Hf & ->)%route_kinds_Ok & H)%bind_Ok. apply IH in H as [? ?]. split; [by split|by split].
    + intros [[_ Hne] [Hf Hr]]. rewrite (proj2 (route_kinds_Ok _ 0 seen (k :: ks) (rev (k :: ks) ++ seen))) by done.
      cbn [mbind result_bind]. by apply IH.
Qed.

(** Error routes are accepted exactly when there is at least one, each
    names at least one kind of error, and no kind is named twice, so a failure
    has one destination. *)
Theorem validate_error_routes_spec on_error path :
  validate_error_routes on_error path = Ok tt
  <-> match on_error with
      | None => True
      | Some r => routes r <> [] /\ Forall (fun route => kinds route <> []) (routes r)
                  /\ NoDup (List.concat (map kinds (routes r)))
      end.
Proof.
  destruct on_error as [r|]; [|done]. unfold validate_error_routes. destruct (routes r) as [|route l]; [split; [done|by intros [? _]]|].
  rewrite route_list_Ok. unfold fresh. split; [by intros (? & ? & _)|].
  intros (_ & Hne & Hnd). split; [done|]. split; [done|]. by intros k _ ?%elem_of_nil.
Qed.

(** ** The horizon *)

Lemma retry_kinds_Ok path index seen l :
  retry_kinds path index seen l = Ok tt <-> Forall (fun k => retryable k = true) l /\ fresh seen l.
Proof.
  revert index seen. induction l as [|k l IH]; intros index seen; cbn [retry_kinds].
  - split; [intros _; split; [constructor|split; [constructor|by intros k ?%elem_of_nil]]|done].
  - rewrite List.Forall_cons_iff, fresh_cons. destruct (retryable k); cbn [negb]; [|split; [done|by intros [[? _] _]]].
    destruct (insert_kind seen k) as [s|] eqn:E.
    + apply insert_kind_Some in E as [Hk ->]. rewrite IH. tauto.
    + split; [done|]. intros (_ & Hk & _). unfold insert_kind in E. by rewrite decide_False in E.
Qed.

(** The waits before [n] retries, the first at most [bound] long. *)
Fixpoint waits (maximum schedule_to_start : Z) (n : nat) (bound : Z) : Z :=
  match n with
  | O => 0
  | S n => bound + schedule_to_start + waits maximum schedule_to_start n (Z.min (bound * 2) maximum)
  end.

Lemma waits_nonneg maximum sts n bound : 0 <= bound -> 0 <= maximum -> 0 <= sts -> 0 <= waits maximum sts n bound.
Proof.
  intros Hb Hm Hs. revert bound Hb. induction n as [|n IH]; intros bound Hb; cbn; [lia|].
  specialize (IH (Z.min (bound * 2) maximum) ltac:(lia)). lia.
Qed.

Lemma waits_saturated maximum sts n : 0 <= maximum -> waits maximum sts n maximum = (maximum + sts) * Z.of_nat n.
Proof.
  intros Hm. induction n as [|n IH]; [cbn; lia|]. cbn [waits]. replace (Z.min (maximum * 2) maximum) with maximum by lia.
  rewrite IH. lia.
Qed.

Lemma add_then_checked a b c : 0 <= a -> 0 <= b -> 0 <= c ->
  (x ← add_u64 a b; checked 0 u64_max (x + c)) = checked 0 u64_max (a + b + c).
Proof.
  intros Ha Hb Hc. unfold add_u64. destruct (checked 0 u64_max (a + b)) as [x|] eqn:E; cbn [mbind option_bind].
  - by apply checked_Some in E as [-> _].
  - destruct (checked 0 u64_max (a + b + c)) as [y|] eqn:E'; [|done]. apply checked_Some in E' as [_ H].
    assert (H' : checked 0 u64_max (a + b) = Some (a + b)) by (apply checked_Some; lia). congruence.
Qed.

Lemma horizon_loop_spec fuel maximum sts horizon bound n :
  0 < bound <= maximum -> maximum <= u64_max -> 0 <= sts -> 0 <= horizon <= u64_max ->
  (n = 0%nat \/ (0 < fuel)%nat /\ maximum <= bound * 2 ^ (Z.of_nat fuel - 1)) ->
  horizon_loop fuel maximum sts horizon bound (Z.of_nat n) = checked 0 u64_max (horizon + waits maximum sts n bound).
Proof.
  revert horizon bound n. induction fuel as [|fuel IH]; intros horizon bound n Hb Hm Hs Hh Hf.
  - destruct Hf as [->|[? _]]; [|lia]. cbn. rewrite Z.add_0_r. symmetry. by apply checked_Some.
  - destruct n as [|n]; [cbn; rewrite Z.add_0_r; symmetry; by apply checked_Some|].
    destruct Hf as [|[_ Hf]]; [done|]. cbn [horizon_loop]. rewrite (proj2 (Z.ltb_lt 0 (Z.of_nat (S n)))) by lia.
    replace (Z.of_nat (S n) - 1) with (Z.of_nat n) by lia. cbn [waits].
    set (rest := waits maximum sts n (Z.min (bound * 2) maximum)).
    assert (Hrest : 0 <= rest) by (apply waits_nonneg; lia).
    transitivity (h ← add_u64 horizon bound; checked 0 u64_max (h + (sts + rest)));
      [|rewrite add_then_checked by lia; f_equal; lia].
    destruct (add_u64 horizon bound) as [h|] eqn:Eh; [|done]. cbn [mbind option_bind].
    unfold add_u64 in Eh. apply checked_Some in Eh as [-> Hh1].
    transitivity (h ← add_u64 (horizon + bound) sts; checked 0 u64_max (h + rest));
      [|rewrite add_then_checked by lia; f_equal; lia].
    destruct (add_u64 (horizon + bound) sts) as [h|] eqn:Eh; [|done]. cbn [mbind option_bind].
    unfold add_u64 in Eh. apply checked_Some in Eh as [-> Hh2].
    destruct (Z.eqb_spec bound maximum) as [->|Hne]; [destruct (Z.ltb_spec 0 (Z.of_nat n)) as [Hn|Hn]|]; cbn [andb].
    + unfold rest. replace (Z.min (maximum * 2) maximum) with maximum by lia. rewrite waits_saturated by lia.
      unfold add_u64, mul_u64. destruct (checked 0 u64_max (maximum + sts)) as [w|] eqn:Ew; cbn [mbind option_bind].
      * apply checked_Some in Ew as [-> Hw]. destruct (checked 0 u64_max ((maximum + sts) * Z.of_nat n)) as [z|] eqn:Ez; cbn [mbind option_bind].
        -- by apply checked_Some in Ez as [-> _].
        -- destruct (checked 0 u64_max (horizon + maximum + sts + (maximum + sts) * Z.of_nat n)) eqn:E; [|done].
           apply checked_Some in E as [_ E]. apply checked_None in Ez. nia.
      * destruct (checked 0 u64_max (horizon + maximum + sts + (maximum + sts) * Z.of_nat n)) eqn:E; [|done].
        apply checked_Some in E as [_ E]. apply checked_None in Ew. nia.
    + assert (n = 0%nat) as -> by lia. rewrite IH by (lia || by left). done.
    + replace (Z.min (Z.min (bound * 2) u64_max) maximum) with (Z.min (bound * 2) maximum) by lia.
      apply IH; [lia|done|done|lia|]. right.
      assert (Hfuel : (0 < fuel)%nat).
      { destruct fuel as [|fuel]; [|lia]. change (Z.of_nat 1 - 1) with 0 in Hf. rewrite Z.pow_0_r in Hf. lia. }
      split; [done|]. replace (Z.of_nat (S fuel) - 1) with (Z.succ (Z.of_nat fuel - 1)) in Hf by lia. rewrite Z.pow_succ_r in Hf by lia.
      pose proof (Z.pow_pos_nonneg 2 (Z.of_nat fuel - 1) ltac:(lia) ltac:(lia)).
      destruct (Z.min_spec (bound * 2) maximum) as [[_ ->]|[_ ->]]; nia.
Qed.

(** The wait before the retry after attempt [k + 1]: the interval doubles up to
    its maximum. *)
Definition wait_before (initial maximum schedule_to_start : Z) (k : nat) : Z :=
  Z.min (initial * 2 ^ Z.of_nat k) maximum + schedule_to_start.

Definition sum_z (l : list Z) : Z := fold_right Z.add 0 l.

Lemma min_double initial maximum k :
  0 <= initial -> 0 <= maximum ->
  Z.min (Z.min (initial * 2 ^ Z.of_nat k) maximum * 2) maximum = Z.min (initial * 2 ^ Z.of_nat (S k)) maximum.
Proof. intros Hi Hm. rewrite Nat2Z.inj_succ, Z.pow_succ_r by lia. pose proof (Z.pow_pos_nonneg 2 (Z.of_nat k) ltac:(lia) ltac:(lia)). nia. Qed.

Lemma waits_sum initial maximum sts n k :
  0 <= initial -> 0 <= maximum ->
  waits maximum sts n (Z.min (initial * 2 ^ Z.of_nat k) maximum) = sum_z (map (wait_before initial maximum sts) (seq k n)).
Proof.
  intros Hi Hm. revert k. induction n as [|n IH]; intros k; [done|]. cbn [waits seq map sum_z fold_right].
  rewrite min_double, IH by done. done.
Qed.

(** What a retry policy must be for an activity. *)
Record retry_ok (retry : ProcessRetry) (at_most_once : bool) (initial maximum : Z) : Prop := {
  retry_attempts : 0 < max_attempts retry;
  retry_named : retry_on retry = [] -> at_most_once = true;
  retry_retryable : Forall (fun k => retryable k = true) (retry_on retry);
  retry_distinct : NoDup (retry_on retry);
  retry_jitter : jitter retry = "deterministic_full";
  retry_initial : exists path, parse_duration (initial_interval retry) path = Ok initial;
  retry_maximum : exists path, parse_duration (max_interval retry) path = Ok maximum;
  retry_order : initial <= maximum;
}.

(** All attempts at their full length, and the waits between them. *)
Definition send_horizon (retry : ProcessRetry) (initial maximum schedule_to_start start_to_close : Z) : Z :=
  max_attempts retry * (start_to_close + MAXIMUM_ACTIVITY_TAKEOVER_DELAY_MS)
  + sum_z (map (wait_before initial maximum schedule_to_start) (seq 0 (Z.to_nat (max_attempts retry - 1)))).

Lemma parse_duration_path s path path' n : parse_duration s path = Ok n -> parse_duration s path' = Ok n.
Proof.
  unfold parse_duration. destruct (duration_unit s) as [[digits m]|]; [|done]. destruct (_ || _); [done|].
  destruct (value ← parse_unsigned u64_max digits; checked 0 u64_max (value * m)); [|done]. by destruct (0 <? _).
Qed.

Lemma parse_duration_range s path n : parse_duration s path = Ok n -> 0 < n <= u64_max.
Proof.
  unfold parse_duration. destruct (duration_unit s) as [[digits m]|]; [|done]. destruct (_ || _); [done|].
  destruct (value ← parse_unsigned u64_max digits; checked 0 u64_max (value * m)) as [v|] eqn:E; [|done].
  apply bind_Some in E as (w & _ & (-> & H)%checked_Some). destruct (Z.ltb_spec 0 (w * m)); [|done]. intros [= <-]. lia.
Qed.

Lemma horizon_value retry initial maximum sts stc :
  0 < max_attempts retry <= u32_max -> 0 < initial <= maximum -> maximum <= u64_max -> 0 <= sts -> 0 <= stc ->
  (per_attempt ← add_u64 stc MAXIMUM_ACTIVITY_TAKEOVER_DELAY_MS;
   horizon ← mul_u64 (max_attempts retry) per_attempt;
   horizon_loop 66 maximum sts horizon initial (max_attempts retry - 1))
  = checked 0 u64_max (send_horizon retry initial maximum sts stc).
Proof.
  intros Ha Hi Hm Hs Hc. unfold send_horizon. set (n := Z.to_nat (max_attempts retry - 1)).
  assert (Hw : sum_z (map (wait_before initial maximum sts) (seq 0 n)) = waits maximum sts n initial).
  { rewrite <-waits_sum by lia. change (2 ^ Z.of_nat 0) with 1. f_equal. lia. }
  rewrite Hw. pose proof (waits_nonneg maximum sts n initial ltac:(lia) ltac:(lia) Hs) as Hpos.
  replace (max_attempts retry - 1) with (Z.of_nat n) by (unfold n; lia).
  unfold MAXIMUM_ACTIVITY_TAKEOVER_DELAY_MS, add_u64, mul_u64 in *.
  destruct (checked 0 u64_max (stc + 5000)) as [p|] eqn:Ep; cbn [mbind option_bind].
  - apply checked_Some in Ep as [-> Hp]. destruct (checked 0 u64_max (max_attempts retry * (stc + 5000))) as [h|] eqn:Eh; cbn [mbind option_bind].
    + apply checked_Some in Eh as [-> Hh]. apply horizon_loop_spec; try lia. right. split; [lia|].
      change (2 ^ (Z.of_nat 66 - 1)) with 36893488147419103232. unfold u64_max in *. lia.
    + destruct (checked 0 u64_max (max_attempts retry * (stc + 5000) + waits maximum sts n initial)) eqn:E; [|done].
      apply checked_Some in E as [_ E]. apply checked_None in Eh. nia.
  - destruct (checked 0 u64_max (max_attempts retry * (stc + 5000) + waits maximum sts n initial)) eqn:E; [|done].
    apply checked_Some in E as [_ E]. apply checked_None in Ep. nia.
Qed.

Lemma retry_horizon_iff retry at_most_once sts stc path h :
  0 <= max_attempts retry <= u32_max -> 0 <= sts -> 0 <= stc ->
  compile_retry_horizon retry at_most_once sts stc path = Ok h
  <-> exists initial maximum, retry_ok retry at_most_once initial maximum
      /\ h = send_horizon retry initial maximum sts stc /\ h <= u64_max.
Proof.
  intros Ha Hs Hc. unfold compile_retry_horizon. cbv zeta. split.
  - destruct (Z.eqb_spec (max_attempts retry) 0) as [|Hne]; [done|].
    destruct (is_empty (retry_on retry) && negb at_most_once) eqn:Ee; [done|].
    intros ([] & [Hk [Hnd _]]%retry_kinds_Ok & H)%bind_Ok. destruct (String.eqb_spec (jitter retry) "deterministic_full") as [Hj|]; [|done].
    cbn [negb] in H. apply bind_Ok in H as (initial & Hi & H). apply bind_Ok in H as (maximum & Hm & H).
    destruct (Z.ltb_spec maximum initial) as [|Ho]; [done|].
    apply bind_Ok in H as (p & Hp%ok_or_Ok & H). apply bind_Ok in H as (h0 & Hh0%ok_or_Ok & H%ok_or_Ok).
    pose proof (parse_duration_range _ _ _ Hi). pose proof (parse_duration_range _ _ _ Hm).
    pose proof (horizon_value retry initial maximum sts stc ltac:(lia) ltac:(lia) ltac:(lia) Hs Hc) as Hv.
    rewrite Hp in Hv. cbn [mbind option_bind] in Hv. rewrite Hh0 in Hv. cbn [mbind option_bind] in Hv. rewrite H in Hv.
    symmetry in Hv. apply checked_Some in Hv as [-> Hr]. exists initial, maximum. split; [|split; [done|lia]].
    split; try done; [lia| |by eexists|by eexists]. intros He. rewrite He in Ee. by destruct at_most_once.
  - intros (initial & maximum & [Hpos Hne Hk Hnd Hj [pi Hi] [pm Hm] Ho] & -> & Hmax).
    rewrite (proj2 (Z.eqb_neq _ _)) by lia.
    replace (is_empty (retry_on retry) && negb at_most_once) with false by (destruct (retry_on retry); [by rewrite Hne|done]).
    rewrite (proj2 (retry_kinds_Ok path 0 [] (retry_on retry))) by (split; [done|]; split; [done|]; by intros k _ ?%elem_of_nil).
    cbn [mbind result_bind]. rewrite Hj. cbn [String.eqb negb Ascii.eqb Bool.eqb].
    rewrite (parse_duration_path _ _ (path +:+ ".initial_interval") _ Hi), (parse_duration_path _ _ (path +:+ ".max_interval") _ Hm).
    cbn [mbind result_bind]. rewrite (proj2 (Z.ltb_ge _ _)) by done.
    pose proof (parse_duration_range _ _ _ Hi). pose proof (parse_duration_range _ _ _ Hm).
    pose proof (horizon_value retry initial maximum sts stc ltac:(lia) ltac:(lia) ltac:(lia) Hs Hc) as Hv.
    assert (Hnn : 0 <= send_horizon retry initial maximum sts stc).
    { unfold send_horizon. pose proof (waits_nonneg maximum sts (Z.to_nat (max_attempts retry - 1)) initial ltac:(lia) ltac:(lia) Hs) as Hw.
      replace initial with (Z.min (initial * 2 ^ Z.of_nat 0) maximum) in Hw at 1 by (change (2 ^ Z.of_nat 0) with 1; lia).
      rewrite waits_sum in Hw by lia. unfold MAXIMUM_ACTIVITY_TAKEOVER_DELAY_MS. nia. }
    rewrite (proj2 (checked_Some 0 u64_max _ (send_horizon retry initial maximum sts stc))) in Hv by (split; [reflexivity|lia]).
    destruct (add_u64 stc _) as [p|]; [|done]. cbn [mbind option_bind ok_or result_bind] in *.
    destruct (mul_u64 _ p) as [h0|]; [|done]. cbn [mbind option_bind ok_or result_bind] in *. by rewrite Hv.
Qed.

(** C38: The horizon of an activity is the time its attempts and the waits
    between them take in the worst case: the length of an attempt times their
    number, and a wait before each retry that doubles from the initial interval
    up to the maximum. A policy is accepted exactly when it is well formed and
    the horizon fits in 64 bits; the loop that adds the waits stops when they no
    longer grow, and no intermediate sum overflows unless the whole does. *)
Theorem compile_retry_horizon_spec retry at_most_once sts stc path h :
  0 <= max_attempts retry <= u32_max -> 0 <= sts -> 0 <= stc ->
  compile_retry_horizon retry at_most_once sts stc path = Ok h
  <-> exists initial maximum, retry_ok retry at_most_once initial maximum
      /\ h = send_horizon retry initial maximum sts stc /\ h <= u64_max.
Proof. apply retry_horizon_iff. Qed.

(** ** At most once *)

Lemma validate_at_most_once_Ok effect at_most_once on_ambiguous on_error standalone retry connector operation path :
  validate_at_most_once effect at_most_once on_ambiguous on_error standalone retry connector operation path = Ok tt
  <-> effect = at_most_once /\ (on_ambiguous <> None <-> at_most_once = true)
      /\ (at_most_once = true ->
          (standalone = true -> on_error <> None) /\ retry_on retry = [] /\ max_attempts retry = 1).
Proof.
  unfold validate_at_most_once. cbv zeta.
  destruct effect, at_most_once, on_ambiguous, standalone, on_error, (retry_on retry); cbn;
    try (destruct (Z.eqb_spec (max_attempts retry) 1); cbn); (split; [done || (intros _; split_and!; done || (intros; split_and!; done))|]); intuition congruence.
Qed.

(** An accepted at-most-once activity is sent once: it has the opt-in
    exactly when its operation needs it, a destination for an unknown outcome,
    for a standalone state one for a failure, and the horizon the compiler
    computes for it is that of a single attempt, without a retry. *)
Theorem at_most_once_is_one_attempt on_ambiguous on_error standalone retry connector operation path sts stc h :
  0 <= sts -> 0 <= stc ->
  validate_at_most_once true true on_ambiguous on_error standalone retry connector operation path = Ok tt ->
  compile_retry_horizon retry true sts stc path = Ok h ->
  h = stc + MAXIMUM_ACTIVITY_TAKEOVER_DELAY_MS /\ on_ambiguous <> None /\ (standalone = true -> on_error <> None)
  /\ (forall at_most_once, validate_at_most_once false at_most_once on_ambiguous on_error standalone retry connector operation path <> Ok tt).
Proof.
  intros Hs Hc (_ & Ham & Honce)%validate_at_most_once_Ok Hh. destruct (Honce eq_refl) as (Herr & Hretry & Hone).
  apply retry_horizon_iff in Hh as (initial & maximum & Hok & -> & _); [|rewrite Hone; unfold u32_max; lia|done|done].
  unfold send_horizon. rewrite Hone. change (Z.to_nat (1 - 1)) with 0%nat.
  cbn [seq map sum_z fold_right]. split; [lia|].
  split; [by apply Ham|]. split; [done|]. intros amo (<- & Ha & _)%validate_at_most_once_Ok.
  discriminate (proj1 Ha (proj2 Ham eq_refl)).
Qed.

(** ** Witnesses *)

Definition sample_retry : ProcessRetry := {|
  retry_on := [Transport; Http5xx]; max_attempts := 5; initial_interval := "500ms"; max_interval := "2s"; jitter := "deterministic_full" |}.

Definition once_retry : ProcessRetry := {|
  retry_on := []; max_attempts := 1; initial_interval := "1s"; max_interval := "1s"; jitter := "deterministic_full" |}.

Lemma sample_retry_attempts : 0 <= max_attempts sample_retry <= u32_max.
Proof. unfold u32_max. cbn. lia. Qed.

(** Five attempts of 15 s, and waits of 0.5, 1, 2 and 2 s with 10 s each to be
    scheduled. *)
Lemma compile_retry_horizon_spec_witness :
  compile_retry_horizon sample_retry false 10000 10000 "retry" = Ok 120500
  /\ exists initial maximum, 120500 = send_horizon sample_retry initial maximum 10000 10000.
Proof.
  assert (H : compile_retry_horizon sample_retry false 10000 10000 "retry" = Ok 120500) by (vm_compute; reflexivity).
  split; [exact H|].
  destruct (proj1 (compile_retry_horizon_spec sample_retry false 10000 10000 "retry" 120500 sample_retry_attempts ltac:(lia) ltac:(lia)) H)
    as (initial & maximum & _ & Hh & _).
  exists initial, maximum. exact Hh.
Defined.

Lemma at_most_once_is_one_attempt_witness :
  exists on_error,
    validate_at_most_once true true (Some "review") (Some on_error) true once_retry "mail" "send" "p" = Ok tt
    /\ compile_retry_horizon once_retry true 1000 30000 "p" = Ok 35000
    /\ 35000 = 30000 + MAXIMUM_ACTIVITY_TAKEOVER_DELAY_MS.
Proof.
  exists {| routes := [{| kinds := [Permanent]; route_next := "failed" |}]; fallback_next := "failed" |}.
  assert (H1 : validate_at_most_once true true (Some "review")
    (Some {| routes := [{| kinds := [Permanent]; route_next := "failed" |}]; fallback_next := "failed" |}) true once_retry "mail" "send" "p" = Ok tt)
    by (vm_compute; reflexivity).
  assert (H2 : compile_retry_horizon once_retry true 1000 30000 "p" = Ok 35000) by (vm_compute; reflexivity).
  split; [exact H1|]. split; [exact H2|].
  exact (proj1 (at_most_once_is_one_attempt _ _ _ _ _ _ _ 1000 30000 35000 ltac:(lia) ltac:(lia) H1 H2)).
Defined.
