(* ===== verification/ProcessInfer.v ===== *)
(** * Types of process values, inferred ([crates/processes/src/lib.rs])

    [infer_value] and what it rests on: the types of literals, the casts, and
    the references to inputs, to outputs of earlier states and to the item of a
    fan-out; and the checks of bindings against a contract. *)
From stdpp Require Import gmap.
From S2P Require Import Prelude Json RulesSyntax ValueContract ProcessSyntax ProcessGraph ProcessTypes.
Set Warnings "-register-all".

(** ** Literals *)

(** [Number::as_i64] and [Number::as_u64]: an integer is printed without a point
    or an exponent. *)
Definition number_as_i64 (text : string) : option Z := parse_i64 text.
Definition number_as_u64 (text : string) : option Z := parse_unsigned u64_max text.

Definition number_type (number : string) : TypeRef :=
  match number_as_i64 number with
  | Some value => scalar_type (if in_i32 value then SInt32 else SInt64) false
  | None =>
      match number_as_u64 number with
      | Some _ => scalar_type SUInt64 false
      | None => scalar_type SDecimal false
      end
  end.

Definition item_path (path : string) (index : nat) : string := path +:+ "[" +:+ show_nat (Z.of_nat index) +:+ "]".

(** A list of the types of its elements, joined left to right; [element] is the
    type of one of them. *)
Definition join_type (path message : string) (common : option TypeRef) (t : TypeRef) : result PlanError (option TypeRef) :=
  match common with
  | None => Ok (Some t)
  | Some current => t ← ok_or (validation path message) (common_type current t); Ok (Some t)
  end.

(** A non-empty list: the types of its elements are inferred and joined one after
    another. *)
Definition join_loop {A} (element : nat -> A -> result PlanError TypeRef) (path message : string) :
    nat -> option TypeRef -> list A -> result PlanError (option TypeRef) :=
  fix go index common values {struct values} :=
    match values with
    | [] => Ok common
    | value :: values =>
        t ← element index value;
        common ← join_type path message common t;
        go (S index) common values
    end.

(** The turns of the loop over the inputs of a [bounded_concat] after the first:
    the common type is known from then on, so the loop never ends without one. *)
Definition join_rest {A} (element : nat -> A -> result PlanError TypeRef) (path message : string) :
    nat -> TypeRef -> list A -> result PlanError TypeRef :=
  fix go index current values {struct values} :=
    match values with
    | [] => Ok current
    | value :: values =>
        t ← element index value;
        common ← ok_or (validation path message) (common_type current t);
        go (S index) common values
    end.

(** [None] is [InferredValue::Null]. *)
Fixpoint infer_json_literal (literal : Value) (path : string) {struct literal} : result PlanError (option TypeRef) :=
  match literal with
  | JNull => Ok None
  | JBool _ => Ok (Some (scalar_type SBoolean false))
  | JString _ => Ok (Some (scalar_type SString false))
  | JNumber number => Ok (Some (number_type number))
  | JArray values =>
      common ← join_loop (fun index value =>
                 inferred ← infer_json_literal value (item_path path index);
                 ok_or (validation (item_path path index) "list literal null needs a typed destination") inferred)
                 path "list literal elements have incompatible types" O None values;
      element ← ok_or (validation path "empty list literal needs a typed destination") common;
      Ok (Some (list_type element))
  | JObject values =>
      fields ← map_result (fun nv : string * Value =>
                 inferred ← infer_json_literal nv.2 (path +:+ "." +:+ nv.1);
                 t ← ok_or (validation (path +:+ "." +:+ nv.1) "object literal null needs a typed destination") inferred;
                 Ok (nv.1, required_field t)) values;
      Ok (Some (TypeRef_new false (Object (bt_collect fields))))
  end.

Fixpoint validate_json_literal (literal : Value) (target : TypeRef) (path : string) {struct literal} : result PlanError unit :=
  match literal with
  | JNull =>
      if nullable target then Ok tt else invalid path "null is not assignable to a non-null type"
  | _ =>
      let mismatch := invalid path ("literal is not assignable to " +:+ display_type target) in
      let accept (valid : bool) := if valid then Ok tt else mismatch in
      match value_type target, literal with
      | Scalar SJson, _ => Ok tt
      | Scalar SBoolean, JBool _ => Ok tt
      | Scalar SString, JString _ => Ok tt
      | Scalar SInt32, JNumber number =>
          accept match number_as_i64 number with Some value => in_i32 value | None => false end
      | Scalar SInt64, JNumber number => accept match number_as_i64 number with Some _ => true | None => false end
      | Scalar SUInt64, JNumber number => accept match number_as_u64 number with Some _ => true | None => false end
      | Scalar SDecimal, JNumber _ => Ok tt
      | Scalar (SUuid | SDate | STimestamp | STimestampTz | SCustom _), JString _ => Ok tt
      | Enum _ values, JString value => accept (existsb (String.eqb value) values)
      | ListOf element, JArray values =>
          (fix go (index : nat) (values : list Value) : result PlanError unit :=
             match values with
             | [] => Ok tt
             | value :: values =>
                 _ ← validate_json_literal value element (item_path path index); go (S index) values
             end) O values
      | Object fields, JObject values =>
          _ ← each_result (fun nf : string * ValueContractField =>
                match (fix find (members : list (string * Value)) : option (result PlanError unit) :=
                         match members with
                         | [] => None
                         | (name, value) :: members =>
                             if String.eqb nf.1 name then
                               Some (validate_json_literal value (type_ref nf.2) (path +:+ "." +:+ nf.1))
                             else find members
                         end) values with
                | Some checked => checked
                | None =>
                    if required nf.2 then
                      invalid path ("object literal is missing required field `" +:+ nf.1 +:+ "`")
                    else Ok tt
                end) fields;
          each_result (fun nv : string * Value =>
            if bt_contains fields nv.1 then Ok tt
            else invalid (path +:+ "." +:+ nv.1) ("object literal contains unknown field `" +:+ nv.1 +:+ "`")) values
      | _, _ => mismatch
      end
  end.

(** ** Casts *)

Section Infer.
(** [dependencies.declared_type]. *)
Variable declared_type : string -> option RuleType.

Definition contains_byte (a : ascii) (s : string) : bool := negb (bytes_forallb (fun b => negb (Ascii.eqb a b)) s).

Definition refine_process_scalar (source : TypeRef) (target path : string) : result PlanError TypeRef :=
  if String.eqb target "string" then
    if negb (scalar_like source) then invalid path "process scalar cast requires a scalar or enum source"
    else Ok (scalar_type SString (nullable source))
  else if String.eqb target "" || contains_byte "!" target || contains_byte "[" target || contains_byte "]" target then
    invalid path "process nominal refinement must name one declared enum; use `require_non_null` separately"
  else
    refined ← type_from_string declared_type target path;
    match value_type source, value_type refined with
    | Scalar SString, Enum _ _ => Ok (set_nullable (nullable source) refined)
    | _, _ => invalid path "process nominal refinement supports only string-to-declared-enum validation"
    end.

Definition refine_as (source : TypeRef) (as_ : option string) (path : string) : result PlanError TypeRef :=
  match as_ with Some target => refine_process_scalar source target path | None => Ok source end.

Definition require_type (source : TypeRef) (require_non_null : bool) : TypeRef :=
  if require_non_null then set_nullable false source else source.

(** [as: uuid] and no cast, the two forms of an activity key. *)
Definition key_type (as_ : option string) (path message : string) : result PlanError TypeRef :=
  match as_ with
  | None => Ok (scalar_type SString false)
  | Some cast => if String.eqb cast "uuid" then Ok (scalar_type SUuid false) else invalid path message
  end.

(** ** References *)

(** The part of [CompileContext] a value is inferred in. *)
Record CompileContext := {
  context_input : ValueContractCatalog;
  state_types : btree ValueContractCatalog;
  context_ancestors : gset nat;
  context_definite : gset nat;
  context_available : gset nat;
  context_indices : btree nat;
  context_item : option TypeRef;
}.

Definition project_fields (object : Fields) (names : list string) (path : string) : result PlanError Fields :=
  fold_result (fun projected name =>
    field ← ok_or (validation path ("project references unknown field `" +:+ name +:+ "`")) (bt_get object name);
    if bt_contains projected name then invalid path ("project field `" +:+ name +:+ "` is duplicated")
    else Ok (bt_insert projected name field)) [] names.

Definition project_type (source : TypeRef) (names : list string) (path : string) : result PlanError TypeRef :=
  match value_type source with
  | ListOf element =>
      object ← ok_or (validation path "state project requires object list elements") (object_type_fields element);
      projected ← project_fields object names path;
      Ok (list_type (TypeRef_new false (Object projected)))
  | _ => invalid path "state project requires a list value"
  end.

Definition guard (b : bool) (path message : string) : result PlanError unit := if b then Ok tt else invalid path message.

Definition infer_state (c : CompileContext) (state field : string) (path : string) : result PlanError TypeRef :=
  state_index ← ok_or (validation path ("state `" +:+ state +:+ "` does not exist")) (bt_get (context_indices c) state);
  _ ← guard (bool_decide (state_index ∈ context_ancestors c)) path
        ("state reference `" +:+ state +:+ "." +:+ field +:+ "` must target a transition ancestor");
  _ ← guard (bool_decide (state_index ∈ context_available c)) path
        ("state output `" +:+ state +:+ "." +:+ field +:+ "` is not available on every transition path");
  contract ← ok_or (validation path ("state `" +:+ state +:+ "` output is not available at this transition"))
               (bt_get (state_types c) state);
  ok_or (validation path ("state `" +:+ state +:+ "` has no output field `" +:+ field +:+ "`")) (root_type contract field).

(** ** Flattening *)

Definition flatten_element (element : TypeRef) (field : option string) (path : string) : result PlanError TypeRef :=
  match field with
  | Some field =>
      object ← ok_or (validation (path +:+ ".from") "bounded_flatten field requires object list elements") (object_type_fields element);
      nested ← ok_or (validation (path +:+ ".field") ("bounded_flatten source has no field `" +:+ field +:+ "`")) (bt_get object field);
      match value_type (type_ref nested) with
      | ListOf element => Ok element
      | _ => invalid (path +:+ ".field") "bounded_flatten selected field must be a list"
      end
  | None =>
      match value_type element with
      | ListOf element => Ok element
      | _ => invalid (path +:+ ".from") "bounded_flatten without field requires a list of lists"
      end
  end.

Definition flatten_project (flattened : TypeRef) (project : option (btree string)) (path : string) : result PlanError TypeRef :=
  match project with
  | None => Ok flattened
  | Some project =>
      object ← ok_or (validation path "bounded_flatten project requires object items") (object_type_fields flattened);
      fields ← map_result (fun ts =>
        field ← ok_or (validation (path +:+ ".project." +:+ ts.1) ("bounded_flatten source has no field `" +:+ ts.2 +:+ "`"))
                  (bt_get object ts.2);
        Ok (ts.1, field)) project;
      Ok (TypeRef_new false (Object fields))
  end.

(** ** Values *)

(** The element type of a list a combinator takes. *)
Definition list_element (inferred : option TypeRef) (path message : string) : result PlanError TypeRef :=
  t ← ok_or (validation path "list cannot be null") inferred;
  match value_type t with ListOf element => Ok element | _ => invalid path message end.

Fixpoint infer_value (c : CompileContext) (value : ProcessValue) (path : string) {struct value} : result PlanError (option TypeRef) :=
  match value with
  | PInput input as_ require_non_null =>
      source ← ok_or (validation path ("process input `" +:+ input +:+ "` does not exist")) (root_type (context_input c) input);
      t ← refine_as (require_type source require_non_null) as_ path;
      Ok (Some t)
  | PState state field project as_ require_non_null =>
      source ← infer_state c state field path;
      source ← match project with Some names => project_type source names path | None => Ok source end;
      t ← refine_as (require_type source require_non_null) as_ path;
      Ok (Some t)
  | PItem item as_ =>
      item_type ← ok_or (validation path "item references are valid only inside for_each") (context_item c);
      source ← ok_or (validation path ("for_each item has no field `" +:+ item +:+ "`"))
                 (fields ← object_type_fields item_type; field ← bt_get fields item; Some (type_ref field));
      t ← refine_as source as_ path;
      Ok (Some t)
  | PLiteral literal => infer_json_literal literal path
  | PActivityKey activity_key as_ =>
      _ ← guard (negb (String.eqb activity_key "")) path "activity key component must not be empty";
      t ← key_type as_ path "activity key cast supports only deterministic `as: uuid`";
      Ok (Some t)
  | PActivityKeyForState state as_ =>
      state_index ← ok_or (validation path ("activity_key_for_state references unknown state `" +:+ state +:+ "`"))
                      (bt_get (context_indices c) state);
      _ ← guard (bool_decide (state_index ∈ context_ancestors c)) path
            "activity_key_for_state must reference a transition ancestor";
      _ ← guard (bool_decide (state_index ∈ context_definite c)) path
            "activity_key_for_state is not available on every transition path";
      t ← key_type as_ path "activity_key_for_state cast supports only deterministic `as: uuid`";
      Ok (Some t)
  | PRun run =>
      _ ← guard (String.eqb run "id") path "run value supports only `{ run: id }`";
      Ok (Some (scalar_type SUuid false))
  | PWorkflowTime workflow_time =>
      _ ← guard (String.eqb workflow_time "now") path "workflow_time supports only `{ workflow_time: now }`";
      Ok (Some (scalar_type STimestampTz false))
  | PSessionVariable session_variable =>
      _ ← guard (negb (String.eqb session_variable "")) path "session variable must not be empty";
      Ok (Some (scalar_type SString false))
  | PBoundedConcat [] _ _ => invalid path "bounded_concat limits must be positive and cover every input list"
  | PBoundedConcat ((first :: rest) as inputs) maximum_lists maximum_items =>
      _ ← guard (negb ((maximum_lists =? 0) || (maximum_items =? 0) || (maximum_lists <? Z.of_nat (List.length inputs)))) path
            "bounded_concat limits must be positive and cover every input list";
      let element index input :=
        let input_path := path +:+ ".inputs[" +:+ show_nat (Z.of_nat index) +:+ "]" in
        inferred ← infer_value c input input_path;
        list_element inferred input_path "bounded_concat input must be a list" in
      current ← element O first;
      common ← join_rest element path "bounded_concat input lists have incompatible element types" 1%nat current rest;
      Ok (Some (list_type common))
  | PBoundedFlatten from field project maximum_lists maximum_items =>
      _ ← guard (negb ((maximum_lists =? 0) || (maximum_items =? 0))) path "bounded_flatten limits must be positive";
      source ← infer_value c from (path +:+ ".from");
      element ← list_element source (path +:+ ".from") "bounded_flatten source must be a list";
      flattened ← flatten_element element field path;
      flattened ← flatten_project flattened project path;
      Ok (Some (list_type flattened))
  end.

(** ** Bindings *)

Definition validate_value_against (c : CompileContext) (value : ProcessValue) (target : TypeRef) (path : string) :
    result PlanError unit :=
  match value with
  | PLiteral literal => validate_json_literal literal target path
  | _ =>
      actual ← infer_value c value path;
      match actual with
      | None => if nullable target then Ok tt else invalid path "null is not assignable to a non-null type"
      | Some actual => if type_assignable target actual then Ok tt else Err (type_mismatch path target actual)
      end
  end.

Definition validate_binding_map (c : CompileContext) (values : btree ProcessValue) (target : ValueContractCatalog) (path : string) :
    result PlanError unit :=
  _ ← each_result (fun nf : string * ValueContractField =>
        match bt_get values nf.1 with
        | None =>
            if required nf.2 then invalid path ("required binding `" +:+ nf.1 +:+ "` is missing") else Ok tt
        | Some value => validate_value_against c value (type_ref nf.2) (path +:+ "." +:+ nf.1)
        end) (roots target);
  each_result (fun nv : string * ProcessValue =>
    if bt_contains (roots target) nv.1 then Ok tt
    else invalid (path +:+ "." +:+ nv.1) ("binding `" +:+ nv.1 +:+ "` is not declared by the target contract")) values.
End Infer.
