(* ===== verification/ProcessEvaluate.v ===== *)
(** * Evaluation of process values ([crates/server/src/processes/value.rs])

    [evaluate_process_value] over the input, the journal of state outputs, the
    item of a fan-out and the session of the caller.  An [anyhow] error is its
    text. *)
From S2P Require Import Prelude Json ProcessSyntax.
Set Warnings "-register-all".

(** [Uuid::to_string] of the sixteen bytes of a uuid. *)
Class Uuids := { uuid_to_string : string -> string }.

Record ProcessValueContext := {
  source_name : string;
  instance_id : string;
  ctx_input : Value;
  ctx_state : Value;
  caller_session : option Value;
  ctx_workflow_time : Value;
  ctx_item : option Value;
  ctx_item_key : option string;
}.

Abbreviation outcome A := (result string A).

Definition bail {A} (message : string) : outcome A := Err message.

(** ** Fields *)

Definition require_value (value : Value) (require_non_null : bool) (kind name : string) : outcome Value :=
  if require_non_null && is_null value then bail (kind +:+ " `" +:+ name +:+ "` is null") else Ok value.

Definition object_field (value : Value) (field kind : string) : outcome Value :=
  ok_or (kind +:+ " field `" +:+ field +:+ "` is absent") (object ← as_object value; obj_get object field).

(** The fields of an object under new names, in the order they are given. *)
Definition project_object (absent : string -> string) (fields : list (string * string)) (object : list (string * Value)) :
    outcome Value :=
  projected ← map_result (fun ts : string * string =>
                value ← ok_or (absent ts.2) (obj_get object ts.2); Ok (ts.1, value)) fields;
  Ok (JObject (obj_collect projected)).

Definition project_list (value : Value) (fields : list string) : outcome Value :=
  values ← ok_or "state project source is not a list" (as_array value);
  values ← map_result (fun value =>
             object ← ok_or "state project item is not an object" (as_object value);
             project_object (fun field => "state project field `" +:+ field +:+ "` is absent")
               (map (fun field => (field, field)) fields) object) values;
  Ok (JArray values).

Definition refine_scalar (value : Value) (as_ : option string) : Value :=
  match as_, value with
  | Some cast, JNumber number => if String.eqb cast "string" then JString number else value
  | Some cast, JBool flag => if String.eqb cast "string" then JString (if flag then "true" else "false") else value
  | _, _ => value
  end.

(** ** Activity keys *)

Fixpoint lower_hex (bytes : string) : string :=
  match bytes with
  | EmptyString => EmptyString
  | String a bytes => String (hex_lower (Z.shiftr (byte_val a) 4)) (String (hex_lower (Z.land (byte_val a) 15)) (lower_hex bytes))
  end.

Fixpoint map_byte (n : nat) (f : Z -> Z) (s : string) : string :=
  match s, n with
  | EmptyString, _ => EmptyString
  | String a s, O => String (ascii_of_N (Z.to_N (f (byte_val a)))) s
  | String a s, S n => String a (map_byte n f s)
  end.

Section Keys.
Context {digest : Digest} {uuids : Uuids}.

Definition activity_key_bytes (context : ProcessValueContext) (state : string) (include_item : bool) : string :=
  "donat.process.activity-key.v1" +:+ String "000" "" +:+ source_name context +:+ String "000" "" +:+ instance_id context
  +:+ String "000" "" +:+ state
  +:+ (if include_item then
         match ctx_item_key context with
         | Some item_key => String "000" ("item" +:+ String "000" "" +:+ item_key)
         | None => ""
         end
       else "").

Definition activity_key_value (context : ProcessValueContext) (state : string) (cast : option string) (include_item : bool) : Value :=
  let digest := sha256 (activity_key_bytes context state include_item) in
  match cast with
  | Some cast =>
      if String.eqb cast "uuid" then
        let bytes := str_take 16 digest in
        let bytes := map_byte 6 (fun b => Z.lor (Z.land b 0x0f) 0x50) bytes in
        let bytes := map_byte 8 (fun b => Z.lor (Z.land b 0x3f) 0x80) bytes in
        JString (uuid_to_string bytes)
      else JString (lower_hex digest)
  | None => JString (lower_hex digest)
  end.

(** ** Values *)

Definition flatten_item (project : option (btree string)) (value : Value) : outcome Value :=
  match project with
  | Some project =>
      object ← ok_or "bounded_flatten projected item is not an object" (as_object value);
      project_object (fun source => "bounded_flatten projection field `" +:+ source +:+ "` is absent") project object
  | None => Ok value
  end.

(** The items of one nested list, pushed while the output stays in its bound. *)
Definition flatten_values (project : option (btree string)) (maximum_items : Z) (output values : list Value) : outcome (list Value) :=
  fold_result (fun output value =>
    value ← flatten_item project value;
    let output := output ++ [value] in
    if maximum_items <? Z.of_nat (List.length output) then bail "bounded_flatten exceeded maximum_items" else Ok output)
    output values.

Definition flatten_lists (field : option string) (project : option (btree string)) (maximum_items : Z) (lists : list Value) :
    outcome (list Value) :=
  fold_result (fun output value =>
    nested ← match field with Some field => object_field value field "bounded_flatten item" | None => Ok value end;
    values ← ok_or "bounded_flatten nested value is not a list" (as_array nested);
    flatten_values project maximum_items output values) [] lists.

Definition evaluate_bounded_flatten (source : Value) (field : option string) (project : option (btree string))
    (maximum_lists maximum_items : Z) : outcome Value :=
  lists ← ok_or "bounded_flatten source is not a list" (as_array source);
  if maximum_lists <? Z.of_nat (List.length lists) then bail "bounded_flatten exceeded maximum_lists"
  else output ← flatten_lists field project maximum_items lists; Ok (JArray output).

Definition concat_input (maximum_items : Z) (output : list Value) (value : Value) : outcome (list Value) :=
  match value with
  | JArray values =>
      let output := output ++ values in
      if maximum_items <? Z.of_nat (List.length output) then bail "bounded_concat exceeded maximum_items" else Ok output
  | _ => bail "bounded_concat input is not a list"
  end.

Fixpoint evaluate_process_value (context : ProcessValueContext) (value : ProcessValue) {struct value} : outcome Value :=
  match value with
  | PInput input as_ require_non_null =>
      value ← object_field (ctx_input context) input "input";
      require_value (refine_scalar value as_) require_non_null "input" input
  | PState state field project as_ require_non_null =>
      state_value ← object_field (ctx_state context) state "state journal";
      value ← object_field state_value field "state output";
      value ← match project with Some project => project_list value project | None => Ok value end;
      require_value (refine_scalar value as_) require_non_null "state output" field
  | PItem item as_ =>
      item_value ← ok_or "item binding is outside bounded for_each" (ctx_item context);
      value ← object_field item_value item "for_each item";
      Ok (refine_scalar value as_)
  | PLiteral literal => Ok literal
  | PActivityKey activity_key as_ => Ok (activity_key_value context activity_key as_ true)
  | PActivityKeyForState state as_ => Ok (activity_key_value context state as_ false)
  | PRun _ => Ok (JString (uuid_to_string (instance_id context)))
  | PWorkflowTime _ => Ok (ctx_workflow_time context)
  | PSessionVariable session_variable =>
      session ← ok_or "caller session is absent" (caller_session context);
      object_field session (to_ascii_lowercase session_variable) "caller session"
  | PBoundedConcat inputs maximum_lists maximum_items =>
      if maximum_lists <? Z.of_nat (List.length inputs) then bail "bounded_concat exceeded maximum_lists"
      else
        output ← fold_result (fun output input =>
                   value ← evaluate_process_value context input; concat_input maximum_items output value) [] inputs;
        Ok (JArray output)
  | PBoundedFlatten from field project maximum_lists maximum_items =>
      source ← evaluate_process_value context from;
      evaluate_bounded_flatten source field project maximum_lists maximum_items
  end.

Definition evaluate_process_values (context : ProcessValueContext) (values : btree ProcessValue) : outcome (btree Value) :=
  map_result (fun nv : string * ProcessValue =>
    value ← map_err (fun error => "Process binding `" +:+ nv.1 +:+ "` failed: " +:+ error) (evaluate_process_value context nv.2);
    Ok (nv.1, value)) values.
End Keys.
