(* ===== verification/ProcessShapes.v ===== *)
(** * Shapes of evaluated process values

    What a value of a process type looks like as JSON: an object may have more
    members than its type declares, as the compiler's assignability lets it
    have, and the text of a uuid, a date or an enum symbol is any text.
    Assignability carries shapes from source to target. *)
From S2P Require Import Prelude Json ValueContract ContractValidity ProcessSyntax ProcessTypes ProcessTypesSpec ProcessInfer.
Set Warnings "-register-all".

Definition scalar_shape (s : ValueScalar) (v : Value) : bool :=
  match s, v with
  | SJson, _ => negb (is_null v)
  | SBoolean, JBool _ => true
  | SInt32, JNumber n => match number_as_i64 n with Some i => in_i32 i | None => false end
  | SInt64, JNumber n => match number_as_i64 n with Some _ => true | None => false end
  | SUInt64, JNumber n =>
      match number_as_u64 n with Some _ => true | None => match number_as_i64 n with Some i => 0 <=? i | None => false end end
  | SDecimal, JNumber _ => true
  | (SString | SUuid | SDate | STimestamp | STimestampTz), JString _ => true
  | SCustom _, (JBool _ | JNumber _ | JString _) => true
  | _, _ => false
  end.

Inductive has_shape : Value -> TypeRef -> Prop :=
| shape_null t : nullable t = true -> has_shape JNull t
| shape_scalar v n s : scalar_shape s v = true -> has_shape v (TypeRef_new n (Scalar s))
| shape_enum s n name values : has_shape (JString s) (TypeRef_new n (Enum name values))
| shape_list l n element : Forall (fun v => has_shape v element) l -> has_shape (JArray l) (TypeRef_new n (ListOf element))
| shape_object o n fields :
    (forall f field, In (f, field) fields -> required field = true -> In f (map fst o)) ->
    (forall f field v, In (f, field) fields -> obj_get o f = Some v -> has_shape v (type_ref field)) ->
    has_shape (JObject o) (TypeRef_new n (Object fields)).

(** JSON values whose objects are maps. *)
Fixpoint json_wf (v : Value) : Prop :=
  match v with
  | JArray l => fold_right and True (map json_wf l)
  | JObject o => NoDup (map fst o) /\ fold_right and True (map (fun kv => json_wf kv.2) o)
  | _ => True
  end.

Lemma json_wf_object o : json_wf (JObject o) <-> NoDup (map fst o) /\ Forall (fun kv => json_wf kv.2) o.
Proof. cbn. by rewrite fold_and_iff. Qed.

(** ** Nulls *)

Lemma shape_null_inv t : has_shape JNull t -> nullable t = true.
Proof. inversion 1; subst; [done|]. by destruct s. Qed.

Lemma shape_nonnull v n m t : v <> JNull -> has_shape v (TypeRef_new n t) -> has_shape v (TypeRef_new m t).
Proof. intros Hv H. inversion H; subst; [done|..]; by constructor. Qed.

Lemma shape_set_nullable v n t : v <> JNull -> has_shape v t -> has_shape v (set_nullable n t).
Proof. destruct t. intros ?. by apply shape_nonnull. Qed.

Lemma shape_list_inv v n element :
  has_shape v (TypeRef_new n (ListOf element)) -> v = JNull /\ n = true \/ exists l, v = JArray l /\ Forall (fun x => has_shape x element) l.
Proof. inversion 1; subst; eauto. Qed.

Lemma shape_object_inv v n fields :
  has_shape v (TypeRef_new n (Object fields)) ->
  v = JNull /\ n = true
  \/ exists o, v = JObject o /\ (forall f field, In (f, field) fields -> required field = true -> In f (map fst o))
     /\ (forall f field x, In (f, field) fields -> obj_get o f = Some x -> has_shape x (type_ref field)).
Proof. inversion 1; subst; [by left|]. right. eauto. Qed.

(** ** Assignability *)

Lemma shape_assignable target : forall v source,
  type_assignable target source = true -> has_shape v source -> has_shape v target.
Proof.
  induction target as [n s|n name values|n fields IH|n e IH|n name] using TypeRef_ind'; intros v [m source] Ha Hv;
    pose proof Ha as Hsplit; apply assignable_split in Hsplit as [Hn Hshape];
    (assert (Hnull : v = JNull \/ v <> JNull) by (destruct v; auto; by right)); destruct Hnull as [->|Hne];
    try (apply shape_null_inv in Hv; cbn in Hv; constructor; by apply Hn).
  - constructor. cbn in Hshape. destruct s; try (by destruct v);
      destruct source as [s'| | | |]; try done; apply scalar_eqb_spec in Hshape; subst s'; by inversion Hv; subst.
  - cbn in Hshape. destruct source as [|name' values'| | |]; try done. inversion Hv; subst; [done|]. constructor.
  - destruct source as [| |source| |]; try done. apply type_assignable_object in Ha as [_ Ha]. rewrite List.Forall_forall in IH.
    apply shape_object_inv in Hv as [[-> _]|(o & -> & Hreq & Hf)]; [done|]. constructor.
    + intros f t Hin Hr. destruct (Ha f t Hin) as (g & Hg & [Hq _]%andb_true_iff). apply (Hreq f g); [by apply bt_get_In|].
      rewrite Hr in Hq. by destruct (required g).
    + intros f t v Hin Hv. destruct (Ha f t Hin) as (g & Hg & [_ Hq]%andb_true_iff).
      apply (IH (f, t) Hin v (type_ref g) Hq), (Hf f g); [by apply bt_get_In|done].
  - cbn in Hshape. destruct source as [| | |e'|]; try done. apply shape_list_inv in Hv as [[-> _]|(l & -> & Hl)]; [done|].
    constructor. eapply List.Forall_impl; [|exact Hl]. intros x. by apply IH.
  - cbn in Hshape. by destruct source.
Qed.

(** ** Common types keep their form *)

Lemma common_type_resolved left : forall right c,
  resolved left -> resolved right -> common_type left right = Some c -> resolved c.
Proof.
  induction left as [n s|n name values|n fields IH|n e IH|n name] using TypeRef_ind'; intros [m r] c Hl Hr Hc.
  3: { destruct r as [| |right| |]; try done. rewrite common_object in Hc. injection Hc as <-.
    apply resolved_object in Hl as [Hndl Hl], Hr as [Hndr Hr]. rewrite List.Forall_forall in IH, Hl, Hr. apply resolved_object. split.
    - clear -Hndl. unfold common_fields. induction fields as [|[g l] fields IHf]; [constructor|]. cbn in *. rewrite NoDup_cons in Hndl.
      destruct Hndl as [Hg Hnd]. specialize (IHf Hnd). destruct (bt_get right g) as [r|]; [|done]. destruct (common_field l r) as [c|]; [|done].
      cbn. apply NoDup_cons. split; [|done]. rewrite list_elem_of_In in *. intros Hin. apply Hg.
      apply in_map_iff in Hin as ([h x] & Hh & (lx & rx & Hin & _)%common_fields_In). cbn in Hh. subst h. by apply (in_map fst _ (g, lx)).
    - apply List.Forall_forall. intros [f x] (l & r & Hin & Hg & [Hc _]%common_field_Some)%common_fields_In.
      by apply (IH (f, l) Hin (type_ref r) (type_ref x) (Hl _ Hin) (Hr (f, r) (bt_get_In _ _ _ Hg)) Hc). }
  all: cbn in Hc; destruct r as [s'|name' values'|?|e'|?]; try done.
  - destruct (scalar_eqb s s'); [|done]. by injection Hc as <-.
  - destruct (_ && _) in Hc; [|done]. by injection Hc as <-.
  - destruct (common_type e e') as [t|] eqn:E; [|done]. injection Hc as <-. by apply (IH e' t).
Qed.

Lemma shape_common left right c v :
  resolved left -> resolved right -> common_type left right = Some c ->
  (has_shape v left -> has_shape v c) /\ (has_shape v right -> has_shape v c).
Proof. intros Hl Hr [H1 H2]%common_type_upper; [|done..]. split; by apply shape_assignable. Qed.

(** The type joined so far covers what it covered. *)
Lemma join_type_Ok path message common t c :
  join_type path message common t = Ok c ->
  exists u, c = Some u /\ match common with None => u = t | Some current => common_type current t = Some u end.
Proof.
  unfold join_type. destruct common as [current|]; [|intros [= <-]; eauto].
  intros (u & Hu%ok_or_Ok & [= <-])%bind_Ok. eauto.
Qed.

(** ** Literals *)

(** ** Joined lists *)

(** What is inferred for the elements holds of them at the joined type. *)
Lemma join_loop_covers {A} (element : nat -> A -> result PlanError TypeRef) path message (P : A -> TypeRef -> Prop) (l : list A) :
  (forall a t u, P a t -> type_assignable u t = true -> P a u) ->
  forall index common r,
  (forall i a t, In a l -> element i a = Ok t -> resolved t /\ P a t) ->
  (forall current, common = Some current -> resolved current) ->
  join_loop element path message index common l = Ok r ->
  (forall t, r = Some t -> resolved t /\ Forall (fun a => P a t) l)
  /\ (forall current, common = Some current -> exists t, r = Some t /\ type_assignable t current = true).
Proof.
  intros Hmono. induction l as [|a l IH]; intros index common r Hel Hc; cbn.
  - intros [= <-]. split; [intros t ->; auto|]. intros current ->. exists current. split; [done|]. by apply assignable_refl, Hc.
  - intros (t & Ht & (joined & Hj & H)%bind_Ok)%bind_Ok. apply join_type_Ok in Hj as (u & -> & Hu).
    destruct (Hel index a t (or_introl eq_refl) Ht) as [Hrt Hp].
    assert (Hup : resolved u /\ type_assignable u t = true /\ forall current, common = Some current -> type_assignable u current = true).
    { destruct common as [current|]; [|subst u; split; [done|]; split; [by apply assignable_refl|done]].
      specialize (Hc current eq_refl). split; [by apply (common_type_resolved current t u Hc Hrt Hu)|].
      destruct (common_type_upper current t u Hc Hrt Hu). split; [done|]. by intros ? [= <-]. }
    destruct Hup as (Hru & Hut & Huc).
    apply IH in H as [H1 H2]; [|intros i x y Hin; apply Hel; by right|by intros ? [= <-]]. destruct (H2 u eq_refl) as (v & -> & Hv).
    split.
    + intros ? [= <-]. destruct (H1 v eq_refl) as [Hrv Hall]. split; [done|]. constructor; [|done]. eapply Hmono, Hv. by eapply Hmono.
    + intros current Hcur. exists v. split; [done|]. eapply assignable_trans; [exact Hv|by apply Huc].
Qed.

(** ** Literals *)

Lemma number_type_shape n : has_shape (JNumber n) (number_type n) /\ resolved (number_type n).
Proof.
  unfold number_type. destruct (number_as_i64 n) as [i|] eqn:Hi.
  - destruct (in_i32 i) eqn:Hr; (split; [|done]); constructor; cbn; by rewrite Hi.
  - destruct (number_as_u64 n) eqn:Hu; (split; [|done]); constructor; cbn; by rewrite ?Hu.
Qed.

Lemma literal_shape literal : forall path r,
  json_wf literal -> infer_json_literal literal path = Ok r ->
  match r with None => literal = JNull | Some t => has_shape literal t /\ resolved t end.
Proof.
  induction literal as [|b|n|s|values IH|values IH] using Value_ind'; intros path r Hwf H.
  - by injection H as <-.
  - injection H as <-. by repeat constructor.
  - injection H as <-. apply number_type_shape.
  - injection H as <-. by repeat constructor.
  - apply bind_Ok in H as (common & Hc & (element & ->%ok_or_Ok & [= <-])%bind_Ok).
    cbn in Hwf. rewrite fold_and_iff in Hwf. rewrite List.Forall_forall in IH, Hwf.
    eapply (join_loop_covers _ _ _ (fun v t => has_shape v t)) in Hc as [Hall _]; [|intros a t u Ha Hu; by eapply shape_assignable|..|done].
    + destruct (Hall element eq_refl) as [Hr Hel]. split; [by constructor|done].
    + intros i a t Hin (inferred & Hi & ->%ok_or_Ok)%bind_Ok. apply IH in Hi; [by destruct Hi|done|by apply Hwf].
  - cbn [infer_json_literal] in H. apply bind_Ok in H as (fields & Hf%map_result_Ok & [= <-]). apply json_wf_object in Hwf as [Hnd Hwf].
    rewrite List.Forall_forall in IH, Hwf.
    assert (Hfields : forall f field, In (f, field) fields -> exists v, In (f, v) values /\ has_shape v (type_ref field) /\ resolved (type_ref field)).
    { intros f field Hin. destruct (Forall2_In_r _ _ _ _ Hf Hin) as ([g v] & Hv & (inferred & Hi & (t & ->%ok_or_Ok & [= <- <-])%bind_Ok)%bind_Ok).
      exists v. split; [done|]. apply (IH (g, v) Hv) in Hi; [done|by apply (Hwf (g, v))]. }
    assert (Hall : Forall (fun nf : string * ValueContractField => exists v, In (nf.1, v) values /\ has_shape v (type_ref nf.2) /\ resolved (type_ref nf.2)) (bt_collect fields)).
    { apply bt_collect_Forall, List.Forall_forall. intros [f field]. apply Hfields. }
    rewrite List.Forall_forall in Hall. split.
    + constructor.
      * intros f field Hin _. destruct (Hall _ Hin) as (v & Hv & _). by apply (in_map fst _ (f, v)).
      * intros f field v Hin Hv. destruct (Hall _ Hin) as (w & Hw & Hs & _). cbn [fst snd] in *.
        unfold obj_get in Hv. rewrite (bt_In_get values f w Hnd Hw) in Hv. by injection Hv as <-.
    + apply resolved_object. split; [apply bt_wf_NoDup, bt_collect_wf|]. apply List.Forall_forall. intros [f field] Hin.
      by destruct (Hall _ Hin) as (v & _ & _ & Hr).
Qed.

Lemma validate_object_eq values n fields path :
  validate_json_literal (JObject values) (TypeRef_new n (Object fields)) path
  = (_ ← each_result (fun nf : string * ValueContractField =>
           match bt_get values nf.1 with
           | Some value => validate_json_literal value (type_ref nf.2) (path +:+ "." +:+ nf.1)
           | None => if required nf.2 then invalid path ("object literal is missing required field `" +:+ nf.1 +:+ "`") else Ok tt
           end) fields;
     each_result (fun nv : string * Value =>
       if bt_contains fields nv.1 then Ok tt
       else invalid (path +:+ "." +:+ nv.1) ("object literal contains unknown field `" +:+ nv.1 +:+ "`")) values).
Proof.
  cbn. match goal with |- mbind _ (each_result ?f _) = mbind _ (each_result ?g _) => assert (Hfg : forall nf, f nf = g nf) end.
  { intros [k field]. cbn. induction values as [|[name v] values IH]; [done|]. cbn. destruct (String.eqb k name); [done|]. apply IH. }
  f_equal. clear -Hfg. induction fields as [|nf fields IH]; [done|]. cbn. rewrite Hfg, IH. done.
Qed.

Lemma validate_list_Ok values n element path :
  validate_json_literal (JArray values) (TypeRef_new n (ListOf element)) path = Ok tt ->
  Forall (fun v => exists path, validate_json_literal v element path = Ok tt) values.
Proof.
  cbn. generalize O. induction values as [|v values IH]; intros index; [constructor|].
  intros ([] & Hv & H)%bind_Ok. constructor; [by exists (item_path path index)|by apply (IH (S index))].
Qed.

(** A literal checked against a destination has its shape. *)
Lemma checked_literal_shape literal : forall target path,
  validate_json_literal literal target path = Ok tt -> has_shape literal target.
Proof.
  induction literal as [|b|n|s|values IH|values IH] using Value_ind'; intros [m target] path H.
  - cbn in H. constructor. by destruct m.
  - destruct target as [[]| | | |]; try done; by repeat constructor.
  - destruct target as [[]| | | |]; try done; constructor; cbn in *; repeat case_match; done.
  - destruct target as [[]| | | |]; try done; by repeat constructor.
  - destruct target as [[]| | |element|]; try done; [by repeat constructor|]. apply validate_list_Ok in H. constructor.
    rewrite List.Forall_forall in *. intros v Hin. destruct (H v Hin) as [p Hp]. by apply (IH v Hin element p).
  - destruct target as [[]| |fields| |]; try done; [by repeat constructor|]. rewrite validate_object_eq in H.
    apply bind_Ok in H as ([] & Hf%each_result_Ok & _). rewrite List.Forall_forall in Hf, IH. constructor.
    + intros f field Hin Hr. specialize (Hf _ Hin). cbn in Hf. destruct (bt_get values f) as [v|] eqn:Hv; [|by rewrite Hr in Hf].
      apply bt_get_In in Hv. by apply (in_map fst _ (f, v)).
    + intros f field v Hin Hv. specialize (Hf _ Hin). unfold obj_get in Hv. cbn in Hf. rewrite Hv in Hf.
      apply (IH (f, v) (bt_get_In _ _ _ Hv)) in Hf. done.
Qed.
