(* ===== verification/ProcessInferSpec.v ===== *)
(** * What the compiler infers for values

    The inversions of [infer_value], and the properties of types it keeps: a
    property of the types in the context that passes to the parts, the
    projections and the common types of types is a property of the inferred
    type. *)
From stdpp Require Import gmap.
From S2P Require Import Prelude Json RulesSyntax ValueContract ContractValidity ProcessSyntax ProcessGraph ProcessTypes ProcessTypesSpec ProcessInfer ProcessShapes.
Set Warnings "-register-all".

(** ** Well-formed values *)

(** Literals and projections are maps. *)
Fixpoint process_value_wf (v : ProcessValue) : Prop :=
  match v with
  | PLiteral literal => json_wf literal
  | PBoundedConcat inputs _ _ => fold_right and True (map process_value_wf inputs)
  | PBoundedFlatten from _ project _ _ =>
      process_value_wf from /\ match project with Some project => bt_wf project | None => True end
  | _ => True
  end.

(** ** Fields *)

Lemma root_field contract name t :
  root_type contract name = Some t -> exists field, bt_get (roots contract) name = Some field /\ t = type_ref field.
Proof. unfold root_type. destruct (bt_get _ name) as [field|]; [|done]. intros [= <-]. eauto. Qed.

Lemma object_type_fields_Some t fields : object_type_fields t = Some fields -> t = TypeRef_new (nullable t) (Object fields).
Proof. destruct t as [n [| | | |]]; try done. by intros [= ->]. Qed.

(** ** Projections *)

(** Fields picked out of an object, each under a name of its own. *)
Definition picks (object projected : Fields) (pairs : list (string * string)) : Prop :=
  NoDup (map fst pairs) /\ bt_wf projected
  /\ forall target field, In (target, field) projected -> exists source, In (target, source) pairs /\ bt_get object source = Some field.

Lemma project_fields_picks object names path projected :
  project_fields object names path = Ok projected -> picks object projected (map (fun name => (name, name)) names).
Proof.
  unfold project_fields, picks. replace (map fst (map (fun name : string => (name, name)) names)) with names by (rewrite map_map; symmetry; apply map_id).
  enough (Hgen : forall acc, bt_wf acc ->
    fold_result (fun projected name =>
      field ← ok_or (validation path ("project references unknown field `" +:+ name +:+ "`")) (bt_get object name);
      if bt_contains projected name then invalid path ("project field `" +:+ name +:+ "` is duplicated")
      else Ok (bt_insert projected name field)) acc names = Ok projected ->
    NoDup names /\ bt_wf projected /\ (forall f, In f names -> ~ In f (map fst acc))
    /\ forall f field, In (f, field) projected -> In (f, field) acc \/ In f names /\ bt_get object f = Some field).
  { intros H. apply (Hgen []) in H as (Hnd & Hwf & _ & Hp); [|constructor]. split; [done|]. split; [done|].
    intros f field [[]|[Hin Hg]]%Hp. exists f. split; [|done]. by apply (in_map (fun name => (name, name))). }
  induction names as [|name names IH]; intros acc Hacc; cbn.
  - intros [= <-]. split_and!; [constructor|done|by intros|by intros; left].
  - destruct (bt_get object name) as [field|] eqn:Hg; [|done]. cbn [ok_or mbind result_bind].
    destruct (bt_contains acc name) eqn:Hc; [done|]. intros H.
    assert (Hnew : ~ In name (map fst acc)).
    { unfold bt_contains in Hc. apply bt_get_None. by destruct (bt_get acc name). }
    apply IH in H as (Hnd & Hwf & Hno & Hp); [|by apply bt_insert_wf]. split_and!.
    + apply NoDup_cons. split; [|done]. rewrite list_elem_of_In. intros Hin. apply (Hno _ Hin), bt_insert_keys. by left.
    + done.
    + intros f [<-|Hin]; [done|]. intros Ha. apply (Hno _ Hin), bt_insert_keys. by right.
    + intros f fl [Hin|[Hin Hf]]%Hp; [|by right; split; [right|]].
      apply (bt_In_get _ _ _ (bt_wf_NoDup _ (bt_insert_wf _ _ _ Hacc))) in Hin. rewrite bt_get_insert in Hin by done.
      destruct (String.eqb_spec f name) as [->|Hne]; [injection Hin as <-; right; by split; [left|]|left; by apply bt_get_In].
Qed.

Lemma project_type_picks source names path t :
  project_type source names path = Ok t ->
  exists n m object projected, source = TypeRef_new n (ListOf (TypeRef_new m (Object object)))
    /\ t = list_type (TypeRef_new false (Object projected)) /\ picks object projected (map (fun name => (name, name)) names).
Proof.
  unfold project_type. destruct source as [n [| | |element|]]; try done. cbn [value_type].
  intros (object & Ho%ok_or_Ok & (projected & Hp%project_fields_picks & [= <-])%bind_Ok)%bind_Ok.
  apply object_type_fields_Some in Ho. rewrite Ho. by exists n, (nullable element), object, projected.
Qed.

Lemma flatten_project_picks flattened project path t :
  flatten_project flattened (Some project) path = Ok t -> bt_wf project ->
  exists object projected, flattened = TypeRef_new (nullable flattened) (Object object) /\ t = TypeRef_new false (Object projected)
    /\ picks object projected project.
Proof.
  intros (object & Ho%ok_or_Ok & (fields & Hf%map_result_Ok & [= <-])%bind_Ok)%bind_Ok Hnd. apply object_type_fields_Some in Ho.
  exists object, fields. split; [done|]. split; [done|]. split; [by apply bt_wf_NoDup|]. split.
  - unfold bt_wf. replace (map fst fields) with (map fst project); [done|]. clear -Hf.
    induction Hf as [|[t s] [t' f] l k (x & _ & [= <- _])%bind_Ok _ IH]; [done|]. cbn. by rewrite IH.
  - intros t field Hin. destruct (Forall2_In_r _ _ _ _ Hf Hin) as ([t' s] & Hts & (x & Hx%ok_or_Ok & [= <- <-])%bind_Ok). by exists s.
Qed.

(** ** Inversions *)

Lemma list_element_Ok inferred path message e :
  list_element inferred path message = Ok e -> exists n, inferred = Some (TypeRef_new n (ListOf e)).
Proof. intros (u & ->%ok_or_Ok & Hu)%bind_Ok. destruct u as [n [| | |e'|]]; try done. injection Hu as ->. by exists n. Qed.

Section Inversions.
Variable declared_type : string -> option RuleType.

Lemma join_rest_loop {A} (element : nat -> A -> result PlanError TypeRef) path message l : forall index current,
  join_loop element path message index (Some current) l = (common ← join_rest element path message index current l; Ok (Some common)).
Proof using Type.
  induction l as [|a l IH]; intros index current; cbn; [done|]. destruct (element index a) as [t|]; cbn; [|done].
  destruct (common_type current t) as [common|]; cbn; [apply IH|done].
Qed.

(** The inference of a [bounded_concat], with the loop that literals have. *)
Lemma infer_concat_eq c inputs maximum_lists maximum_items path :
  infer_value declared_type c (PBoundedConcat inputs maximum_lists maximum_items) path =
  (_ ← guard (negb (match inputs with [] => true | _ => false end || (maximum_lists =? 0) || (maximum_items =? 0)
                    || (maximum_lists <? Z.of_nat (List.length inputs)))) path
         "bounded_concat limits must be positive and cover every input list";
   common ← join_loop (fun index input =>
              let input_path := path +:+ ".inputs[" +:+ show_nat (Z.of_nat index) +:+ "]" in
              inferred ← infer_value declared_type c input input_path;
              list_element inferred input_path "bounded_concat input must be a list")
              path "bounded_concat input lists have incompatible element types" O None inputs;
   Ok (option_map list_type common)).
Proof using Type.
  destruct inputs as [|first rest]; [done|]. cbn [infer_value orb]. destruct (guard _ _ _); [|done]. cbn [mbind result_bind join_loop].
  destruct (infer_value _ _ first _) as [inferred|]; [|done]. cbn [mbind result_bind]. destruct (list_element _ _ _) as [current|]; [|done].
  cbn [mbind result_bind join_type]. rewrite join_rest_loop. by destruct (join_rest _ _ _ _ _ _).
Qed.

Lemma infer_concat_Ok c inputs maximum_lists maximum_items path r :
  infer_value declared_type c (PBoundedConcat inputs maximum_lists maximum_items) path = Ok r ->
  exists common element, r = Some (list_type element) /\ common = Some element
    /\ join_loop (fun index input =>
         let input_path := path +:+ ".inputs[" +:+ show_nat (Z.of_nat index) +:+ "]" in
         inferred ← infer_value declared_type c input input_path;
         list_element inferred input_path "bounded_concat input must be a list")
         path "bounded_concat input lists have incompatible element types" O None inputs = Ok common.
Proof using Type.
  rewrite infer_concat_eq. intros (u & Hg & (common & Hc & [= <-])%bind_Ok)%bind_Ok. destruct inputs as [|first rest]; [done|].
  cbn [join_loop join_type] in *. apply bind_Ok in Hc as (t & Ht & Hc). cbn [mbind result_bind] in Hc. rewrite join_rest_loop in Hc.
  pose proof Hc as (element & _ & [= <-])%bind_Ok. exists (Some element), element. split; [done|]. split; [done|]. rewrite Ht. cbn [mbind result_bind]. by rewrite join_rest_loop.
Qed.

Lemma infer_flatten_Ok c from field project maximum_lists maximum_items path r :
  infer_value declared_type c (PBoundedFlatten from field project maximum_lists maximum_items) path = Ok r ->
  exists n element flattened t, infer_value declared_type c from (path +:+ ".from") = Ok (Some (TypeRef_new n (ListOf element)))
    /\ flatten_element element field path = Ok flattened /\ flatten_project flattened project path = Ok t /\ r = Some (list_type t).
Proof using Type.
  intros (? & _ & (source & Hs & (element & He & (flattened & Hf & (t & Ht & [= <-])%bind_Ok)%bind_Ok)%bind_Ok)%bind_Ok)%bind_Ok.
  apply list_element_Ok in He as [n ->]. by exists n, element, flattened, t.
Qed.

Lemma infer_state_Ok c state field path t :
  infer_state c state field path = Ok t ->
  exists contract fld, bt_get (state_types c) state = Some contract /\ bt_get (roots contract) field = Some fld /\ t = type_ref fld
    /\ exists index, bt_get (context_indices c) state = Some index /\ index ∈ context_available c.
Proof using Type.
  intros (index & Hi%ok_or_Ok & ([] & _ & ([] & Hg & (contract & Hc%ok_or_Ok & Hs%ok_or_Ok)%bind_Ok)%bind_Ok)%bind_Ok)%bind_Ok.
  destruct (root_field _ _ _ Hs) as (fld & Hf & ->). exists contract, fld. split_and!; try done. exists index. split; [done|].
  unfold guard in Hg. by destruct (bool_decide_reflect (index ∈ context_available c)).
Qed.

End Inversions.

(** ** Properties that inference keeps *)

(** The type joined from types with a property that common types keep has it. *)
Lemma join_loop_closed (P : TypeRef -> Prop) {A} (element : nat -> A -> result PlanError TypeRef) path message (l : list A) :
  (forall l r c, P l -> P r -> common_type l r = Some c -> P c) ->
  forall index common r,
  (forall i a t, In a l -> element i a = Ok t -> P t) -> (forall t, common = Some t -> P t) ->
  join_loop element path message index common l = Ok r -> forall t, r = Some t -> P t.
Proof.
  intros Hclosed. induction l as [|a l IH]; intros index common r Hel Hc; cbn; [by intros [= <-]|].
  intros (t & Ht & (joined & Hj & H)%bind_Ok)%bind_Ok. apply join_type_Ok in Hj as (u & -> & Hu).
  pose proof (Hel index a t (or_introl eq_refl) Ht) as Hp. eapply IH; [intros i x y Hin; apply Hel; by right| |exact H].
  intros ? [= <-]. destruct common as [current|]; [|by subst]. by apply (Hclosed current t u (Hc current eq_refl)).
Qed.

Definition is_leaf (vt : ValueType) : bool := match vt with Scalar _ | Enum _ _ => true | _ => false end.

Class Kept (P : TypeRef -> Prop) : Prop := {
  kept_leaf source vt : P source -> is_leaf vt = true -> P (TypeRef_new (nullable source) vt);
  kept_scalar s : P (scalar_type s false);
  kept_require n vt : P (TypeRef_new n vt) -> P (TypeRef_new false vt);
  kept_element n e : P (TypeRef_new n (ListOf e)) -> P e;
  kept_list e : P e -> P (list_type e);
  kept_field n fields f field : P (TypeRef_new n (Object fields)) -> bt_get fields f = Some field -> P (type_ref field);
  kept_picks n object projected pairs :
    P (TypeRef_new n (Object object)) -> picks object projected pairs -> P (TypeRef_new false (Object projected));
  kept_common l r c : P l -> P r -> common_type l r = Some c -> P c;
  kept_literal literal path t : json_wf literal -> infer_json_literal literal path = Ok (Some t) -> P t;
}.

Record context_kept (P : TypeRef -> Prop) (c : CompileContext) : Prop := {
  input_kept : P (catalog_root_object (context_input c));
  states_kept : forall state contract, bt_get (state_types c) state = Some contract -> P (catalog_root_object contract);
  item_kept : forall t, context_item c = Some t -> P t;
}.

Section Keeping.
Variable declared_type : string -> option RuleType.
Context (P : TypeRef -> Prop) {kept : Kept P}.

Lemma refine_keeps source as_ path t : refine_as declared_type source as_ path = Ok t -> P source -> P t.
Proof using kept.
  destruct as_ as [cast|]; cbn [refine_as]; [|by intros [= <-]]. unfold refine_process_scalar.
  destruct (String.eqb cast "string"); [destruct (negb _); [done|intros [= <-] Hs; by apply kept_leaf]|]. destruct (_ || _); [done|].
  intros (refined & _ & H)%bind_Ok Hs. destruct (value_type source) as [[]| | | |]; try done.
  destruct refined as [m [| | | |]]; try done. injection H as <-. by apply kept_leaf.
Qed.

Lemma project_keeps source names path t : project_type source names path = Ok t -> P source -> P t.
Proof using kept. intros (n & m & object & projected & -> & -> & Hp)%project_type_picks Hs. eapply kept_list, kept_picks; [by eapply kept_element|done]. Qed.

Lemma flatten_element_keeps element field path flattened : flatten_element element field path = Ok flattened -> P element -> P flattened.
Proof using kept.
  intros Hf Hs. destruct field as [field|]; cbn in Hf.
  - apply bind_Ok in Hf as (object & Ho%ok_or_Ok & (nt & Hg%ok_or_Ok & Hf)%bind_Ok). apply object_type_fields_Some in Ho. rewrite Ho in Hs.
    pose proof (kept_field _ _ _ _ Hs Hg) as Hn. destruct (type_ref nt) as [n [| | |e|]]; try done. injection Hf as ->. by eapply kept_element.
  - destruct element as [n [| | |e|]]; try done. injection Hf as ->. by eapply kept_element.
Qed.

Lemma flatten_project_keeps flattened project path t :
  flatten_project flattened project path = Ok t -> match project with Some project => bt_wf project | None => True end ->
  P flattened -> P t.
Proof using kept.
  destruct project as [project|]; [|by intros [= <-]]. intros Ht Hnd Hs.
  destruct (flatten_project_picks _ _ _ _ Ht Hnd) as (object & p & Hf & -> & Hp). rewrite Hf in Hs. by eapply kept_picks.
Qed.

Lemma infer_keeps c v : context_kept P c -> forall path t,
  process_value_wf v -> infer_value declared_type c v path = Ok (Some t) -> P t.
Proof using kept.
  intros Hc. induction v as [v Hleaf|inputs ml mi IH|from field project ml mi IH] using ProcessValue_ind'; intros path t Hwf H.
  - destruct v; try done.
    + apply bind_Ok in H as (source & Hs%ok_or_Ok & (u & Ht & [= <-])%bind_Ok). destruct (root_field _ _ _ Hs) as (fld & Hg & ->).
      eapply refine_keeps; [exact Ht|]. pose proof (kept_field _ _ _ _ (input_kept P c Hc) Hg) as Hp.
      destruct require_non_null; [|done]. cbn. destruct (type_ref fld). by eapply kept_require.
    + apply bind_Ok in H as (source & (contract & fld & Hb & Hg & -> & _)%infer_state_Ok & (projected & Hp & (u & Ht & [= <-])%bind_Ok)%bind_Ok).
      pose proof (kept_field _ _ _ _ (states_kept P c Hc _ _ Hb) Hg) as Hs.
      assert (Hrp : P projected).
      { destruct project as [names|]; [by eapply project_keeps|by injection Hp as <-]. }
      eapply refine_keeps; [exact Ht|]. destruct require_non_null; [|done]. cbn. destruct projected. by eapply kept_require.
    + apply bind_Ok in H as (it & Hi%ok_or_Ok & (source & Hs%ok_or_Ok & (u & Ht & [= <-])%bind_Ok)%bind_Ok).
      destruct (object_type_fields it) as [fields|] eqn:Ho; [|done]. cbn in Hs. destruct (bt_get fields item) as [fld|] eqn:Hg; [|done].
      injection Hs as <-. apply object_type_fields_Some in Ho. pose proof (item_kept P c Hc _ Hi) as Hr. rewrite Ho in Hr.
      eapply refine_keeps; [exact Ht|]. by eapply kept_field.
    + by eapply kept_literal.
    + apply bind_Ok in H as ([] & _ & (u & Hk & [= <-])%bind_Ok).
      destruct as_ as [cast|]; cbn in Hk; [destruct (String.eqb cast "uuid")|]; simplify_eq; apply kept_scalar.
    + apply bind_Ok in H as (? & _ & ([] & _ & ([] & _ & (u & Hk & [= <-])%bind_Ok)%bind_Ok)%bind_Ok).
      destruct as_ as [cast|]; cbn in Hk; [destruct (String.eqb cast "uuid")|]; simplify_eq; apply kept_scalar.
    + apply bind_Ok in H as ([] & _ & [= <-]). apply kept_scalar.
    + apply bind_Ok in H as ([] & _ & [= <-]). apply kept_scalar.
    + apply bind_Ok in H as ([] & _ & [= <-]). apply kept_scalar.
  - apply infer_concat_Ok in H as (common & element & [= ->] & -> & H). cbn in Hwf. rewrite fold_and_iff in Hwf. rewrite List.Forall_forall in Hwf, IH.
    apply kept_list. refine (join_loop_closed P _ _ _ _ kept_common _ None _ _ ltac:(done) H element eq_refl).
    intros i v u Hin (inferred & Hi & [n ->]%list_element_Ok)%bind_Ok. eapply kept_element. by apply (IH v Hin _ _ (Hwf v Hin) Hi).
  - apply infer_flatten_Ok in H as (n & element & flattened & u & Hs & Hf & Ht & [= ->]). destruct Hwf as [Hwf Hnd].
    pose proof (IH _ _ Hwf Hs) as Hr. apply kept_list. eapply flatten_project_keeps; [exact Ht|exact Hnd|].
    eapply flatten_element_keeps; [exact Hf|]. by eapply kept_element.
Qed.
End Keeping.

(** ** Resolved types *)

Lemma resolved_field n fields name field :
  resolved (TypeRef_new n (Object fields)) -> bt_get fields name = Some field -> resolved (type_ref field).
Proof. intros [_ H]%resolved_object Hg%bt_get_In. rewrite List.Forall_forall in H. by apply (H (name, field)). Qed.

#[export] Instance resolved_kept : Kept resolved.
Proof.
  split; try done.
  - intros source vt _ Hl. by destruct vt.
  - intros. by eapply resolved_field.
  - intros n object projected pairs Hr (Hnd & Hndp & Hp). apply resolved_object. split; [by apply bt_wf_NoDup|]. apply List.Forall_forall. intros [f field] Hin.
    destruct (Hp _ _ Hin) as (s & _ & Hs). by apply (resolved_field n object s field).
  - intros l r c Hl Hr. by apply common_type_resolved.
  - intros literal path t Hwf H. by apply (literal_shape literal path (Some t) Hwf) in H as [_ ?].
Qed.

(** ** Strict types *)

(** Nothing is nullable and no field is optional. *)
Fixpoint strict (t : TypeRef) : Prop :=
  match t with
  | TypeRef_new n vt =>
      n = false
      /\ match vt with
         | Object fields =>
             fold_right and True (map (fun nf => match nf.2 with Field_new required t => required = true /\ strict t end) fields)
         | ListOf element => strict element
         | _ => True
         end
  end.

Lemma strict_object n fields :
  strict (TypeRef_new n (Object fields)) <-> n = false /\ Forall (fun nf => required nf.2 = true /\ strict (type_ref nf.2)) fields.
Proof.
  cbn. rewrite (fold_and_iff (fun nf : string * ValueContractField => match nf.2 with Field_new r t => r = true /\ strict t end)).
  rewrite !List.Forall_forall. split; (intros [? H]; split; [done|]; intros [f [r t]] Hin; by apply (H (f, Field_new r t))).
Qed.

Lemma strict_field n fields name field :
  strict (TypeRef_new n (Object fields)) -> bt_get fields name = Some field -> required field = true /\ strict (type_ref field).
Proof. intros [_ H]%strict_object Hg%bt_get_In. rewrite List.Forall_forall in H. by apply (H (name, field)). Qed.

Lemma common_strict l : forall r c, strict l -> strict r -> common_type l r = Some c -> strict c.
Proof.
  induction l as [n s|n name values|n fields IH|n e IH|n name] using TypeRef_ind'; intros [m r] c Hl Hr Hc.
  3: { destruct r as [| |right| |]; try done. rewrite common_object in Hc. injection Hc as <-.
    apply strict_object in Hl as [-> Hl], Hr as [-> Hr]. rewrite List.Forall_forall in IH, Hl, Hr. apply strict_object. split; [done|].
    apply List.Forall_forall. intros [f x] (l & r & Hin & Hg%bt_get_In & [Hc Hq]%common_field_Some)%common_fields_In.
    destruct (Hl _ Hin) as [Hlr Hls], (Hr _ Hg) as [Hrr Hrs]. cbn [fst snd] in *. rewrite Hq, Hlr, Hrr. split; [done|].
    by apply (IH (f, l) Hin (type_ref r)). }
  all: cbn in Hl, Hr; destruct Hl as [-> Hl], Hr as [-> Hr]; cbn in Hc; destruct r as [s'|name' values'|?|e'|?]; try done.
  - destruct (scalar_eqb s s'); [|done]. by injection Hc as <-.
  - destruct (_ && _) in Hc; [|done]. by injection Hc as <-.
  - destruct (common_type e e') as [t|] eqn:E; [|done]. injection Hc as <-. split; [done|]. by apply (IH e' t).
Qed.

Lemma literal_strict literal : forall path t,
  infer_json_literal literal path = Ok (Some t) -> strict t.
Proof.
  induction literal as [|b|n|s|values IH|values IH] using Value_ind'; intros path t H.
  - done.
  - by injection H as <-.
  - injection H as <-. unfold number_type. by repeat case_match.
  - by injection H as <-.
  - apply bind_Ok in H as (common & Hc & (element & ->%ok_or_Ok & [= <-])%bind_Ok). rewrite List.Forall_forall in IH.
    split; [done|]. refine (join_loop_closed strict _ _ _ _ common_strict _ None _ _ ltac:(done) Hc element eq_refl).
    intros i a t Hin (inferred & Hi & ->%ok_or_Ok)%bind_Ok. by eapply IH.
  - cbn [infer_json_literal] in H. apply bind_Ok in H as (fields & Hf%map_result_Ok & [= <-]). rewrite List.Forall_forall in IH.
    apply strict_object. split; [done|]. apply (bt_collect_Forall (fun nf : string * ValueContractField => required nf.2 = true /\ strict (type_ref nf.2))).
    apply List.Forall_forall. intros [f field] Hin.
    destruct (Forall2_In_r _ _ _ _ Hf Hin) as ([g v] & Hv & (inferred & Hi & (t & ->%ok_or_Ok & [= <- <-])%bind_Ok)%bind_Ok).
    pose proof (IH (g, v) Hv _ _ Hi) as Hs. cbn. split; [|done]. destruct t as [n vt]. by destruct Hs as [-> _].
Qed.

#[export] Instance strict_kept : Kept strict.
Proof.
  split.
  - intros [n vt] vt' [-> _] Hl. by destruct vt'.
  - done.
  - by intros n vt [_ H].
  - by intros n e [_ H].
  - done.
  - intros n fields f field H Hg. by eapply strict_field.
  - intros n object projected pairs Hs (Hnd & Hndp & Hp). apply strict_object. split; [done|]. apply List.Forall_forall. intros [f field] Hin.
    destruct (Hp _ _ Hin) as (s & _ & Hg). by apply (strict_field n object s field).
  - intros l r c. apply common_strict.
  - intros literal path t _. apply literal_strict.
Qed.

(** ** Ordered types *)

(** The fields of every object are in the order of their names. *)
Fixpoint ordered (t : TypeRef) : Prop :=
  match t with
  | TypeRef_new _ (Object fields) => bt_wf fields /\ fold_right and True (map (fun nf => match nf.2 with Field_new _ t => ordered t end) fields)
  | TypeRef_new _ (ListOf element) => ordered element
  | _ => True
  end.

Lemma ordered_object n fields : ordered (TypeRef_new n (Object fields)) <-> bt_wf fields /\ Forall (fun nf => ordered (type_ref nf.2)) fields.
Proof.
  cbn. rewrite (fold_and_iff (fun nf : string * ValueContractField => match nf.2 with Field_new _ t => ordered t end)).
  rewrite !List.Forall_forall. split; (intros [? H]; split; [done|]; intros [f [r t]] Hin; by apply (H (f, Field_new r t))).
Qed.

Lemma common_ordered l : forall r c, ordered l -> ordered r -> common_type l r = Some c -> ordered c.
Proof.
  induction l as [n s|n name values|n fields IH|n e IH|n name] using TypeRef_ind'; intros [m r] c Hl Hr Hc.
  3: { destruct r as [| |right| |]; try done. rewrite common_object in Hc. injection Hc as <-.
    apply ordered_object in Hl as [Hwl Hl], Hr as [_ Hr]. rewrite List.Forall_forall in IH, Hl, Hr. apply ordered_object. split.
    - clear -Hwl. unfold common_fields, bt_wf in *. induction fields as [|[g l] fields IHf]; [constructor|]. cbn in *.
      inversion Hwl as [|? ? Hs Hall]; subst. specialize (IHf Hs). destruct (bt_get right g) as [r|]; [|done]. destruct (common_field l r) as [c|]; [|done].
      cbn. constructor; [done|]. rewrite List.Forall_forall in Hall |- *. intros h Hin. apply Hall.
      apply in_map_iff in Hin as ([h' x] & <- & (lx & rx & Hin & _)%common_fields_In). by apply (in_map fst _ (h', lx)).
    - apply List.Forall_forall. intros [f x] (l & r & Hin & Hg%bt_get_In & [Hc _]%common_field_Some)%common_fields_In.
      apply (IH (f, l) Hin (type_ref r) (type_ref x) (Hl _ Hin)); [exact (Hr _ Hg)|done]. }
  all: cbn in Hc; destruct r as [s'|name' values'|?|e'|?]; try done.
  - destruct (scalar_eqb s s'); [|done]. by injection Hc as <-.
  - destruct (_ && _) in Hc; [|done]. by injection Hc as <-.
  - destruct (common_type e e') as [t|] eqn:E; [|done]. injection Hc as <-. by apply (IH e' t).
Qed.

Lemma literal_ordered literal : forall path t, infer_json_literal literal path = Ok (Some t) -> ordered t.
Proof.
  induction literal as [|b|n|s|values IH|values IH] using Value_ind'; intros path t H.
  - done.
  - by injection H as <-.
  - injection H as <-. unfold number_type. by repeat case_match.
  - by injection H as <-.
  - apply bind_Ok in H as (common & Hc & (element & ->%ok_or_Ok & [= <-])%bind_Ok). rewrite List.Forall_forall in IH.
    refine (join_loop_closed ordered _ _ _ _ common_ordered _ None _ _ ltac:(done) Hc element eq_refl).
    intros i a t Hin (inferred & Hi & ->%ok_or_Ok)%bind_Ok. by eapply IH.
  - cbn [infer_json_literal] in H. apply bind_Ok in H as (fields & Hf%map_result_Ok & [= <-]). rewrite List.Forall_forall in IH.
    apply ordered_object. split; [apply bt_collect_wf|]. apply (bt_collect_Forall (fun nf : string * ValueContractField => ordered (type_ref nf.2))).
    apply List.Forall_forall. intros [f field] Hin. destruct (Forall2_In_r _ _ _ _ Hf Hin) as ([f' v] & Hv & (inferred & Hi & (u & ->%ok_or_Ok & [= <- <-])%bind_Ok)%bind_Ok).
    by eapply (IH (f', v) Hv).
Qed.

#[export] Instance ordered_kept : Kept ordered.
Proof.
  split; try done.
  - intros source vt _ Hl. by destruct vt.
  - intros n fields f field [_ H]%ordered_object Hg%bt_get_In. rewrite List.Forall_forall in H. by apply (H (f, field)).
  - intros n object projected pairs Hr (Hnd & Hwf & Hp). apply ordered_object in Hr as [_ Hr]. rewrite List.Forall_forall in Hr. apply ordered_object.
    split; [done|]. apply List.Forall_forall. intros [f field] Hin. destruct (Hp _ _ Hin) as (s & _ & Hs%bt_get_In). by apply (Hr (s, field)).
  - intros l r c Hl Hr. by apply common_ordered.
  - intros literal path t _ H. by eapply literal_ordered.
Qed.

(** Two kept predicates are kept together. *)
#[export] Instance both_kept P Q : Kept P -> Kept Q -> Kept (fun t => P t /\ Q t).
Proof.
  intros [] []. split; intros; repeat match goal with H : _ /\ _ |- _ => destruct H end; split; eauto.
Qed.

(** ** Larger contexts *)

(** The same place in the process, with more outputs known. *)
Record context_le (c c' : CompileContext) : Prop := {
  le_input : context_input c' = context_input c;
  le_types : forall state contract, bt_get (state_types c) state = Some contract -> bt_get (state_types c') state = Some contract;
  le_ancestors : context_ancestors c' = context_ancestors c;
  le_definite : context_definite c' = context_definite c;
  le_available : context_available c' = context_available c;
  le_indices : context_indices c' = context_indices c;
  le_item : context_item c' = context_item c;
}.

Section Larger.
Variable declared_type : string -> option RuleType.
Variables c c' : CompileContext.
Hypothesis larger : context_le c c'.

Lemma join_loop_pointwise {A} (f g : nat -> A -> result PlanError TypeRef) path message l :
  (forall i a t, In a l -> f i a = Ok t -> g i a = Ok t) -> forall i common r,
  join_loop f path message i common l = Ok r -> join_loop g path message i common l = Ok r.
Proof using Type.
  induction l as [|a l IH]; intros Hfg i common r; [done|]. cbn. intros (t & Ht & (common' & Hc & H)%bind_Ok)%bind_Ok.
  rewrite (Hfg i a t (or_introl eq_refl) Ht). cbn [mbind result_bind]. rewrite Hc. cbn [mbind result_bind]. apply IH; [|exact H]. intros j b u Hin. apply Hfg. by right.
Qed.

Lemma infer_larger v : forall path r, infer_value declared_type c v path = Ok r -> infer_value declared_type c' v path = Ok r.
Proof using larger.
  destruct larger as [Hi Ht Ha Hd Hav Hin Hit].
  induction v as [v Hleaf|inputs ml mi IH|from field project ml mi IH] using ProcessValue_ind'; intros path r H.
  - destruct v; try done; cbn [infer_value] in *; rewrite ?Hi, ?Hit, ?Hin, ?Ha, ?Hd; try done.
    apply bind_Ok in H as (source & Hs & H). replace (infer_state c' state field path) with (Ok source : result PlanError TypeRef); [exact H|].
    symmetry. unfold infer_state in *. rewrite Hin, Ha, Hav. apply bind_Ok in Hs as (index & -> & ([] & H1 & ([] & H2 & (contract & Hc%ok_or_Ok & Hs)%bind_Ok)%bind_Ok)%bind_Ok).
    cbn [mbind result_bind]. rewrite H1. cbn [mbind result_bind]. rewrite H2. cbn [mbind result_bind]. by rewrite (Ht _ _ Hc).
  - rewrite infer_concat_eq in *. rewrite List.Forall_forall in IH. apply bind_Ok in H as ([] & -> & (common & Hc & H)%bind_Ok). cbn [mbind result_bind].
    erewrite join_loop_pointwise; [exact H| |exact Hc]. cbv beta. intros i a t Hina (inferred & Hinf & Hl)%bind_Ok. by rewrite (IH a Hina _ _ Hinf).
  - cbn [infer_value] in *. apply bind_Ok in H as ([] & -> & (source & Hs & H)%bind_Ok). cbn [mbind result_bind]. by rewrite (IH _ _ Hs).
Qed.

Lemma validate_value_larger v t path : validate_value_against declared_type c v t path = Ok tt -> validate_value_against declared_type c' v t path = Ok tt.
Proof using larger.
  destruct v; try done; cbn [validate_value_against]; intros (r & Hr & H)%bind_Ok; by rewrite (infer_larger _ _ _ Hr).
Qed.

Lemma validate_bindings_larger values target path :
  validate_binding_map declared_type c values target path = Ok tt -> validate_binding_map declared_type c' values target path = Ok tt.
Proof using larger.
  unfold validate_binding_map. intros ([] & Hf%each_result_Ok & Hu)%bind_Ok.
  erewrite (proj2 (each_result_Ok _ (roots target))); [exact Hu|]. eapply List.Forall_impl; [|exact Hf]. intros [f field]. cbn.
  destruct (bt_get values f); [apply validate_value_larger|done].
Qed.
End Larger.
