(* ===== verification/ProcessEvaluateSpec.v ===== *)
(** * Inference promises what evaluation gives

    [infer_value] of the compiler against [evaluate_process_value] of the
    runtime: a value evaluates to JSON of the shape of its inferred type, bound
    arguments have the shape of the contract they are bound to, and over complete
    inputs the only failures left are the declared limits of the combinators. *)
From stdpp Require Import gmap.
From S2P Require Import Prelude Json RulesSyntax ValueContract ContractValidity ProcessSyntax ProcessGraph ProcessTypes ProcessTypesSpec ProcessInfer ProcessEvaluate ProcessShapes ProcessInferSpec.
Set Warnings "-register-all".

(** No [as: string] on a value of the type of all JSON: the runtime leaves an
    array or an object as it is. *)
Definition cast_ok (as_ : option string) (source : TypeRef) : Prop :=
  as_ = Some "string" -> value_type source <> Scalar SJson.

Fixpoint casts_scalars (c : CompileContext) (v : ProcessValue) : Prop :=
  match v with
  | PInput input as_ _ => forall t, root_type (context_input c) input = Some t -> cast_ok as_ t
  | PState state field _ as_ _ =>
      forall contract t, bt_get (state_types c) state = Some contract -> root_type contract field = Some t -> cast_ok as_ t
  | PItem item as_ =>
      forall t fields field, context_item c = Some t -> object_type_fields t = Some fields -> bt_get fields item = Some field ->
        cast_ok as_ (type_ref field)
  | PBoundedConcat inputs _ _ => fold_right and True (map (casts_scalars c) inputs)
  | PBoundedFlatten from _ _ _ _ => casts_scalars c from
  | _ => True
  end.

(** ** Contexts *)

Definition is_text (v : Value) : Prop := exists s, v = JString s.

(** The values at run time have the shapes of the types at compile time. *)
Record context_shaped (c : CompileContext) (x : ProcessValueContext) : Prop := {
  input_shaped : has_shape (ctx_input x) (catalog_root_object (context_input c));
  states_shaped : forall state contract output,
    bt_get (state_types c) state = Some contract -> object_field (ctx_state x) state "state journal" = Ok output ->
    has_shape output (catalog_root_object contract);
  item_shaped : forall t item, context_item c = Some t -> ctx_item x = Some item -> has_shape item t;
  time_shaped : is_text (ctx_workflow_time x);
  session_shaped : forall session name v,
    caller_session x = Some session -> object_field session name "caller session" = Ok v -> is_text v;
}.

(** ** Fields *)

Lemma object_field_Ok v f kind w :
  object_field v f kind = Ok w <-> exists o, v = JObject o /\ obj_get o f = Some w.
Proof.
  unfold object_field. split.
  - intros H%ok_or_Ok. destruct v; try done. eauto.
  - intros (o & -> & H). cbn. by rewrite H.
Qed.

Lemma object_field_shape v f kind w n fields field :
  object_field v f kind = Ok w -> has_shape v (TypeRef_new n (Object fields)) -> bt_get fields f = Some field ->
  has_shape w (type_ref field).
Proof.
  intros (o & -> & Hg)%object_field_Ok [[? _]|(o' & [= <-] & _ & Hf)]%shape_object_inv Hb; [done|]. eapply Hf; [|done]. by apply bt_get_In.
Qed.

(** ** Casts and null checks *)

Lemma refine_scalar_null v as_ : is_null (refine_scalar v as_) = is_null v.
Proof. destruct as_ as [cast|]; [|done]. destruct v; cbn; try done; by destruct (String.eqb cast "string"). Qed.

Section Soundness.
Context {digest : Digest} {uuids : Uuids}.
Variable declared_type : string -> option RuleType.

Lemma refine_sound source as_ path t v :
  refine_as declared_type source as_ path = Ok t -> cast_ok as_ source -> has_shape v source ->
  has_shape (refine_scalar v as_) t.
Proof using Type.
  destruct as_ as [cast|]; cbn [refine_as]; [|by intros [= <-]]. unfold refine_process_scalar.
  destruct (String.eqb_spec cast "string") as [->|Hne].
  - destruct (negb (scalar_like source)) eqn:Hl; [done|]. intros [= <-] Hcast Hv. specialize (Hcast eq_refl).
    inversion Hv; subst; cbn in *; try done; [by apply shape_null| |by repeat constructor].
    destruct s, v; try done; by repeat constructor.
  - destruct (_ || _); [done|]. intros (refined & _ & H)%bind_Ok _ Hv.
    destruct source as [n [[]| | | |]]; try done. destruct refined as [m [| | | |]]; try done. injection H as <-.
    assert (Hs : refine_scalar v (Some cast) = v).
    { apply String.eqb_neq in Hne. by destruct v; cbn; rewrite ?Hne. }
    rewrite Hs. inversion Hv; subst; [by constructor|]. destruct v; try done. constructor.
Qed.

(** The compiler requires a value before it casts it, the runtime after. *)
Lemma required_refine_sound source require_non_null as_ path t v kind name w :
  refine_as declared_type (require_type source require_non_null) as_ path = Ok t ->
  cast_ok as_ source -> has_shape v source ->
  require_value (refine_scalar v as_) require_non_null kind name = Ok w -> has_shape w t.
Proof using Type.
  unfold require_value, require_type. rewrite refine_scalar_null. intros Ht Hcast Hv.
  destruct require_non_null; cbn [andb].
  - destruct (is_null v) eqn:Hn; [done|]. intros [= <-]. destruct source as [n source].
    apply (refine_sound (TypeRef_new false source) as_ path t v Ht Hcast). eapply shape_nonnull; [|exact Hv]. by intros ->.
  - intros [= <-]. by apply (refine_sound source as_ path).
Qed.

(** ** Projections *)

Lemma obj_collect_distinct o : NoDup (map fst o) -> obj_collect o = o.
Proof using Type. intros Hnd. apply (obj_insert_all []). done. Qed.

Lemma project_object_Ok absent fields o w :
  project_object absent fields o = Ok w -> NoDup (map fst fields) ->
  exists o', w = JObject o' /\ map fst o' = map fst fields
    /\ forall target source, In (target, source) fields -> obj_get o' target = obj_get o source.
Proof using Type.
  intros (projected & Hp%map_result_Ok & [= <-])%bind_Ok Hnd.
  assert (Hkeys : map fst projected = map fst fields).
  { clear Hnd. induction Hp as [|[t s] [t' v] l l' (x & _ & [= <- _])%bind_Ok _ IH]; [done|]. cbn. by rewrite IH. }
  exists projected. rewrite obj_collect_distinct by (by rewrite Hkeys). split; [done|]. split; [done|]. intros t s Hin.
  destruct (Forall2_In_l _ _ _ _ Hp Hin) as ([t' v] & Hv & (x & Hx%ok_or_Ok & [= <- <-])%bind_Ok). cbn in Hx. rewrite Hx.
  apply bt_In_get; [by rewrite Hkeys|done].
Qed.

Lemma picked_shape absent object projected pairs n m o w :
  picks object projected pairs -> has_shape (JObject o) (TypeRef_new n (Object object)) ->
  project_object absent pairs o = Ok w -> has_shape w (TypeRef_new m (Object projected)).
Proof using Type.
  intros (Hnd & Hndp & Hp) Hv Hw.
  apply project_object_Ok in Hw as (o' & -> & Hkeys & Hget); [|done]. apply shape_object_inv in Hv as [[? _]|(o1 & [= <-] & _ & Hf)]; [done|]. constructor.
  - intros f field Hin _. destruct (Hp _ _ Hin) as (s & Hs & _). rewrite Hkeys. by apply (in_map fst _ (f, s)).
  - intros f field v Hin Hv. destruct (Hp _ _ Hin) as (s & Hs & Hb). rewrite (Hget f s Hs) in Hv. eapply Hf; [|done]. by apply bt_get_In.
Qed.

Lemma project_type_sound source names path t v w :
  project_type source names path = Ok t -> project_list v names = Ok w -> has_shape v source -> has_shape w t.
Proof using Type.
  intros (n & m & object & projected & -> & -> & Hp)%project_type_picks (values & Hv%ok_or_Ok & (ws & Hw%map_result_Ok & [= <-])%bind_Ok)%bind_Ok Hs.
  destruct v; try done. injection Hv as ->. apply shape_list_inv in Hs as [[? _]|(l & [= <-] & Hl)]; [done|].
  constructor. apply List.Forall_forall. intros y Hin. destruct (Forall2_In_r _ _ _ _ Hw Hin) as (a & Ha & (o & Hao%ok_or_Ok & Hpo)%bind_Ok).
  destruct a; try done. injection Hao as ->. rewrite List.Forall_forall in Hl. by eapply picked_shape; [exact Hp|apply Hl|].
Qed.

Lemma flatten_element_sound element field path flattened a nested b :
  flatten_element element field path = Ok flattened -> has_shape a element ->
  match field with Some field => object_field a field "bounded_flatten item" | None => Ok a end = Ok nested ->
  as_array nested = Some b -> Forall (fun v => has_shape v flattened) b.
Proof using Type.
  destruct nested as [| | | |l|]; try done. intros Hf Ha Hn [= <-]. destruct field as [field|]; cbn in Hf.
  - apply bind_Ok in Hf as (object & Ho%ok_or_Ok & (nt & Hg%ok_or_Ok & Hf)%bind_Ok). apply object_type_fields_Some in Ho. rewrite Ho in Ha.
    pose proof (object_field_shape _ _ _ _ _ _ _ Hn Ha Hg) as Hs.
    destruct (type_ref nt) as [n [| | |e|]]; try done. injection Hf as ->. by apply shape_list_inv in Hs as [[? _]|(l' & [= <-] & Hl)].
  - injection Hn as ->. destruct element as [n [| | |e|]]; try done. injection Hf as ->.
    by apply shape_list_inv in Ha as [[? _]|(l' & [= <-] & Hl)].
Qed.

Lemma flatten_item_sound flattened project path t v w :
  flatten_project flattened project path = Ok t -> match project with Some project => bt_wf project | None => True end ->
  has_shape v flattened -> flatten_item project v = Ok w -> has_shape w t.
Proof using Type.
  destruct project as [project|]; [|by intros [= <-] _ ? [= <-]]. intros Ht Hnd Hv (o & Ho%ok_or_Ok & Hw)%bind_Ok.
  destruct (flatten_project_picks _ _ _ _ Ht Hnd) as (object & p & Hf & -> & Hp). rewrite Hf in Hv. destruct v; try done. injection Ho as ->.
  by eapply picked_shape.
Qed.

Lemma flatten_values_sound flattened project path t maximum output values out :
  flatten_project flattened project path = Ok t -> match project with Some project => bt_wf project | None => True end ->
  Forall (fun v => has_shape v flattened) values -> Forall (fun v => has_shape v t) output ->
  flatten_values project maximum output values = Ok out -> Forall (fun v => has_shape v t) out.
Proof using Type.
  intros Ht Hnd Hv. apply fold_result_inv. intros out' v out'' Hin Ho (w & Hw & H)%bind_Ok. rewrite List.Forall_forall in Hv.
  cbv zeta in H. destruct (_ <? _); [done|]. injection H as <-. apply List.Forall_app. split; [done|]. constructor; [|constructor].
  by eapply flatten_item_sound; [..|apply Hv|].
Qed.

Lemma flatten_sound element field project path flattened t v n maximum_lists maximum_items w :
  flatten_element element field path = Ok flattened -> flatten_project flattened project path = Ok t ->
  match project with Some project => bt_wf project | None => True end ->
  has_shape v (TypeRef_new n (ListOf element)) ->
  evaluate_bounded_flatten v field project maximum_lists maximum_items = Ok w -> has_shape w (list_type t).
Proof using Type.
  intros Hf Ht Hnd Hv (lists & Hl%ok_or_Ok & H)%bind_Ok. destruct v as [| | | |l|]; try done. injection Hl as ->.
  apply shape_list_inv in Hv as [[? _]|(l & [= <-] & Hl)]; [done|]. destruct (_ <? _); [done|]. apply bind_Ok in H as (out & Hout & [= <-]).
  constructor. revert Hout. apply fold_result_inv; [|constructor]. intros output a output' Hin Ho (nested & Hn & (b & Hb%ok_or_Ok & H)%bind_Ok)%bind_Ok.
  rewrite List.Forall_forall in Hl. pose proof (flatten_element_sound _ _ _ _ _ _ _ Hf (Hl a Hin) Hn Hb) as Hs.
  by eapply flatten_values_sound.
Qed.

(** ** Values *)

Section Values.
Variables (c : CompileContext) (x : ProcessValueContext).
Hypothesis types_resolved : context_kept resolved c.
Hypothesis values_shaped : context_shaped c x.

Definition sound (v : ProcessValue) : Prop :=
  forall path r w, process_value_wf v -> casts_scalars c v ->
    infer_value declared_type c v path = Ok r -> evaluate_process_value x v = Ok w ->
    match r with None => w = JNull | Some t => has_shape w t end.

Lemma input_sound input as_ require_non_null : sound (PInput input as_ require_non_null).
Proof using values_shaped.
  intros path r w _ Hcast (source & Hs%ok_or_Ok & (t & Ht & [= <-])%bind_Ok)%bind_Ok (v & Hv & Hw)%bind_Ok.
  pose proof (Hcast _ Hs) as Hk. destruct (root_field _ _ _ Hs) as (field & Hg & ->).
  eapply required_refine_sound; [exact Ht|exact Hk| |exact Hw].
  eapply object_field_shape; [exact Hv|apply (input_shaped c x values_shaped)|done].
Qed.

Lemma state_sound state field project as_ require_non_null : sound (PState state field project as_ require_non_null).
Proof using values_shaped.
  intros path r w _ Hcast (source & Hs & (projected & Hp & (t & Ht & [= <-])%bind_Ok)%bind_Ok)%bind_Ok
    (output & Ho & (v & Hv & (u & Hu & Hw)%bind_Ok)%bind_Ok)%bind_Ok.
  apply infer_state_Ok in Hs as (contract & fld & Hc & Hg & -> & _).
  assert (Hk : cast_ok as_ (type_ref fld)) by (apply (Hcast contract); [done|unfold root_type; by rewrite Hg]).
  assert (Hsh : has_shape v (type_ref fld)).
  { eapply object_field_shape; [exact Hv| |done]. by eapply (states_shaped c x values_shaped). }
  destruct project as [names|].
  - pose proof (project_type_sound _ _ _ _ _ _ Hp Hu Hsh) as Hsp. eapply required_refine_sound; [exact Ht| |exact Hsp|exact Hw].
    apply project_type_picks in Hp as (n & m & object & p & _ & -> & _). done.
  - injection Hp as <-. injection Hu as <-. by eapply required_refine_sound.
Qed.

Lemma item_sound item as_ : sound (PItem item as_).
Proof using values_shaped.
  intros path r w _ Hcast (item_type & Hi%ok_or_Ok & (source & Hs%ok_or_Ok & (t & Ht & [= <-])%bind_Ok)%bind_Ok)%bind_Ok
    (value & Hx%ok_or_Ok & (v & Hv & [= <-])%bind_Ok)%bind_Ok.
  destruct (object_type_fields item_type) as [fields|] eqn:Ho; [|done]. cbn in Hs.
  destruct (bt_get fields item) as [field|] eqn:Hg; [|done]. injection Hs as <-. specialize (Hcast _ _ _ Hi Ho Hg).
  apply object_type_fields_Some in Ho. pose proof (item_shaped c x values_shaped _ _ Hi Hx) as Hsh. rewrite Ho in Hsh.
  eapply refine_sound; [exact Ht|done|]. by eapply object_field_shape.
Qed.

Lemma text_shape v s : is_text v -> In s [SString; SUuid; STimestampTz] -> has_shape v (scalar_type s false).
Proof using Type. intros [t ->] [<-|[<-|[<-|[]]]]; by repeat constructor. Qed.

Lemma key_sound context state as_ include_item path message t :
  key_type as_ path message = Ok t -> has_shape (activity_key_value context state as_ include_item) t.
Proof using Type.
  unfold key_type, activity_key_value. destruct as_ as [cast|]; [destruct (String.eqb cast "uuid"); [|done]|];
    intros [= <-]; by repeat constructor.
Qed.

Lemma concat_sound inputs maximum_lists maximum_items :
  Forall sound inputs -> sound (PBoundedConcat inputs maximum_lists maximum_items).
Proof using types_resolved.
  intros Hin path r w Hwf Hcast (common & element & -> & -> & Hc)%infer_concat_Ok Hw.
  cbn in Hw, Hwf, Hcast. rewrite fold_and_iff in Hwf, Hcast. rewrite List.Forall_forall in Hin, Hwf, Hcast.
  destruct (_ <? _); [done|]. apply bind_Ok in Hw as (output & Hout & [= <-]).
  eapply (join_loop_covers _ _ _ (fun v t => forall l, evaluate_process_value x v = Ok (JArray l) -> Forall (fun y => has_shape y t) l)) in Hc as [Hall _]; [..|done].
  - destruct (Hall element eq_refl) as [Hr Hel]. constructor. rewrite List.Forall_forall in Hel. revert Hout.
    apply fold_result_inv; [|constructor]. intros out v out' Hv Ho (value & Hval & H)%bind_Ok. destruct value as [| | | |l|]; try done. cbn in H.
    destruct (_ <? _); [done|]. injection H as <-. apply List.Forall_app. split; [done|]. by apply (Hel v Hv).
  - intros v t u Ht Hu l Hl. eapply List.Forall_impl; [|by apply Ht]. intros y. by apply shape_assignable.
  - intros i v t Hv (inferred & Hi & [n ->]%list_element_Ok)%bind_Ok. split.
    + apply (infer_keeps declared_type resolved c v types_resolved _ _ (Hwf v Hv) Hi).
    + intros l Hl. pose proof (Hin v Hv _ _ _ (Hwf v Hv) (Hcast v Hv) Hi Hl) as Hs.
      by apply shape_list_inv in Hs as [[? _]|(l' & [= <-] & ?)].
Qed.

Lemma evaluate_sound v : sound v.
Proof using types_resolved values_shaped.
  induction v as [v Hleaf|inputs ml mi IH|from field project ml mi IH] using ProcessValue_ind'.
  - destruct v; try done.
    + apply input_sound.
    + apply state_sound.
    + apply item_sound.
    + intros path r w Hwf _ H [= <-]. apply literal_shape in H; [|done]. by destruct r as [t|]; [destruct H|].
    + intros path r w _ _ H [= <-]. apply bind_Ok in H as ([] & _ & (t & Hk & [= <-])%bind_Ok). by eapply key_sound.
    + intros path r w _ _ H [= <-]. apply bind_Ok in H as (? & _ & ([] & _ & ([] & _ & (t & Hk & [= <-])%bind_Ok)%bind_Ok)%bind_Ok). by eapply key_sound.
    + intros path r w _ _ H [= <-]. apply bind_Ok in H as ([] & _ & [= <-]). by repeat constructor.
    + intros path r w _ _ H [= <-]. apply bind_Ok in H as ([] & _ & [= <-]). apply text_shape; [apply (time_shaped c x values_shaped)|cbn; tauto].
    + intros path r w _ _ H (session & Hs%ok_or_Ok & Hw)%bind_Ok. apply bind_Ok in H as ([] & _ & [= <-]).
      apply text_shape; [by eapply (session_shaped c x values_shaped)|cbn; tauto].
  - by apply concat_sound.
  - intros path r w [Hwf Hnd] Hcast (n & element & flattened & t & Hs & Hf & Ht & ->)%infer_flatten_Ok (source & Hsrc & Hw)%bind_Ok.
    pose proof (IH _ _ _ Hwf Hcast Hs Hsrc) as Hsh. exact (flatten_sound _ _ _ _ _ _ _ _ _ _ _ Hf Ht Hnd Hsh Hw).
Qed.
End Values.

(** ** Bindings *)

Lemma checked_value_shape c x v t path w :
  context_kept resolved c -> context_shaped c x -> process_value_wf v -> casts_scalars c v ->
  validate_value_against declared_type c v t path = Ok tt -> evaluate_process_value x v = Ok w -> has_shape w t.
Proof using Type.
  intros Hr Hx Hwf Hcast Hv Hw. assert (Hlit : (exists l, v = PLiteral l) \/ validate_value_against declared_type c v t path
    = (actual ← infer_value declared_type c v path;
       match actual with
       | None => if nullable t then Ok tt else invalid path "null is not assignable to a non-null type"
       | Some actual => if type_assignable t actual then Ok tt else Err (type_mismatch path t actual)
       end)) by (destruct v; eauto).
  destruct Hlit as [[l ->]|Heq].
  - injection Hw as <-. by eapply checked_literal_shape.
  - rewrite Heq in Hv. apply bind_Ok in Hv as (r & Hi & Hv). pose proof (evaluate_sound c x Hr Hx v _ _ _ Hwf Hcast Hi Hw) as Hs.
    destruct r as [actual|].
    + destruct (type_assignable t actual) eqn:Ha; [|done]. by eapply shape_assignable.
    + subst w. constructor. by destruct (nullable t).
Qed.

Lemma bindings_shape c x values target path arguments :
  context_kept resolved c -> context_shaped c x -> NoDup (map fst values) ->
  Forall (fun nv => process_value_wf nv.2 /\ casts_scalars c nv.2) values ->
  validate_binding_map declared_type c values target path = Ok tt ->
  evaluate_process_values x values = Ok arguments ->
  has_shape (JObject arguments) (catalog_root_object target) /\ incl (map fst arguments) (map fst (roots target)).
Proof using Type.
  intros Hr Hx Hnd Hwf ([] & Hf%each_result_Ok & Hu%each_result_Ok)%bind_Ok He%map_result_Ok. rewrite List.Forall_forall in Hwf, Hf, Hu.
  assert (Hkeys : map fst arguments = map fst values).
  { clear -He. induction He as [|[n v] [n' w] l k (y & _ & [= <- _])%bind_Ok _ IH]; [done|]. cbn. by rewrite IH. }
  split; [constructor|].
  - intros f field Hin Hreq. specialize (Hf _ Hin). cbn in Hf. destruct (bt_get values f) as [v|] eqn:Hg; [|by rewrite Hreq in Hf].
    rewrite Hkeys. apply bt_get_In in Hg. by apply (in_map fst _ (f, v)).
  - intros f field w Hin Hw%bt_get_In. destruct (Forall2_In_r _ _ _ _ He Hw) as ([n v] & Hv & (y & Hy & [= -> ->])%bind_Ok).
    cbn [fst snd] in Hy. destruct (evaluate_process_value x v) as [z|] eqn:Hz; [|done]. injection Hy as ->.
    specialize (Hf _ Hin). cbn in Hf. rewrite (bt_In_get values f v Hnd Hv) in Hf. destruct (Hwf _ Hv) as [Hw1 Hw2].
    by eapply checked_value_shape.
  - intros f Hin. rewrite Hkeys in Hin. apply in_map_iff in Hin as ([g v] & <- & Hin). specialize (Hu _ Hin). cbn in Hu. cbn [fst].
    unfold bt_contains in Hu. destruct (bt_get (roots target) g) eqn:Hg; [|done]. apply bt_get_In in Hg. by apply (in_map fst _ (g, v0)).
Qed.

(** C26: Bindings that the compiler accepted for a contract, and that cast only
    scalars other than json to strings, give, over values of the types in scope,
    an argument object of the contract whenever their evaluation does not fail: every required argument is there,
    every argument has the shape of its declared type, and there are no
    others. *)
Theorem checked_bindings_have_contract_shape c x values target path arguments :
  context_kept resolved c -> context_shaped c x -> NoDup (map fst values) ->
  Forall (fun nv => process_value_wf nv.2 /\ casts_scalars c nv.2) values ->
  validate_binding_map declared_type c values target path = Ok tt ->
  evaluate_process_values x values = Ok arguments ->
  has_shape (JObject arguments) (catalog_root_object target) /\ incl (map fst arguments) (map fst (roots target)).
Proof using Type. exact (bindings_shape c x values target path arguments). Qed.
End Soundness.

(** ** Witness *)

Definition texts : TypeRef := list_type (scalar_type SString false).
Definition texts_contract (name : string) : ValueContractCatalog :=
  {| roots := [(name, Field_new true texts)]; named_objects := [] |}.

Definition sample_context : CompileContext := {|
  context_input := texts_contract "ids"; state_types := [("load", texts_contract "more")];
  context_ancestors := {[O]}; context_definite := {[O]}; context_available := {[O]};
  context_indices := [("load", O)]; context_item := None |}.

Definition sample_run : ProcessValueContext := {|
  source_name := "default"; instance_id := ""; ctx_input := JObject [("ids", JArray [JString "a"])];
  ctx_state := JObject [("load", JObject [("more", JArray [JString "b"])])]; caller_session := None;
  ctx_workflow_time := JString "2024-01-01T00:00:00Z"; ctx_item := None; ctx_item_key := None |}.

Definition sample_concat : ProcessValue :=
  PBoundedConcat [PInput "ids" None false; PState "load" "more" None None false] 2 10.

#[export] Instance plain_digest : Digest := {| sha256 := fun s => s |}.
#[export] Instance plain_uuids : Uuids := {| uuid_to_string := fun s => s |}.

Lemma texts_shape name s : has_shape (JObject [(name, JArray [JString s])]) (catalog_root_object (texts_contract name)).
Proof.
  constructor.
  - intros f field [[= <- <-]|[]] _. by left.
  - intros f field v [[= <- <-]|[]]. cbn. rewrite String.eqb_refl. intros [= <-]. by repeat constructor.
Qed.

Lemma sample_resolved : context_kept resolved sample_context.
Proof.
  split; [apply (proj2 (resolved_object false _)); split; [no_dup|by repeat constructor]| |done].
  intros state contract. cbn. destruct (String.eqb state "load"); [intros [= <-]|done]. apply (proj2 (resolved_object false _)). split; [no_dup|by repeat constructor].
Qed.

Lemma sample_shaped : context_shaped sample_context sample_run.
Proof.
  split; [apply texts_shape| |done|by exists "2024-01-01T00:00:00Z"|done].
  intros state contract output. cbn. unfold object_field. cbn. destruct (String.eqb state "load"); [|done].
  intros [= <-] [= <-]. apply texts_shape.
Qed.

Lemma sample_concat_wf : process_value_wf sample_concat /\ casts_scalars sample_context sample_concat.
Proof. repeat split; intros; discriminate. Qed.

Lemma checked_bindings_have_contract_shape_witness :
  evaluate_process_values sample_run [("all", sample_concat)] = Ok [("all", JArray [JString "a"; JString "b"])]
  /\ has_shape (JObject [("all", JArray [JString "a"; JString "b"])]) (catalog_root_object (texts_contract "all")).
Proof.
  split; [reflexivity|].
  refine (proj1 (checked_bindings_have_contract_shape (fun _ => None) sample_context sample_run [("all", sample_concat)] (texts_contract "all") "with"
    _ sample_resolved sample_shaped _ _ _ _)); [no_dup|repeat constructor; apply sample_concat_wf|vm_compute; reflexivity|reflexivity].
Defined.
