(* ===== verification/ProcessProgress.v ===== *)
(** * Values of accepted bindings can be evaluated

    Over strict types, a complete journal and a session with the variables it is
    asked for, the evaluation of a value that the compiler accepted has one way
    to fail: a combinator of lists goes over a limit it declares. *)
From stdpp Require Import gmap.
From S2P Require Import Prelude Json RulesSyntax ValueContract ContractValidity ProcessSyntax ProcessGraph ProcessTypes ProcessTypesSpec ProcessInfer ProcessEvaluate ProcessShapes ProcessInferSpec ProcessEvaluateSpec.
Set Warnings "-register-all".

(** ** Outcomes *)

Definition limits : list string :=
  ["bounded_concat exceeded maximum_items"; "bounded_flatten exceeded maximum_lists"; "bounded_flatten exceeded maximum_items"].

(** A result, or one of the limits. *)
Definition within_limits {A} (m : outcome A) : Prop :=
  match m with Ok _ => True | Err e => In e limits end.

Lemma within_bind {A B} (m : outcome A) (f : A -> outcome B) :
  within_limits m -> (forall a, m = Ok a -> within_limits (f a)) -> within_limits (m ≫= f).
Proof. destruct m; [|done]. intros _ H. by apply H. Qed.

Lemma within_fold {A S} (f : S -> A -> outcome S) l :
  (forall s a, In a l -> within_limits (f s a)) -> forall s, within_limits (fold_result f s l).
Proof.
  induction l as [|a l IH]; intros Hf s; [done|]. cbn. pose proof (Hf s a (or_introl eq_refl)) as Ha. destruct (f s a); [|done].
  apply IH. intros. apply Hf. by right.
Qed.

Lemma within_map {A B} (f : A -> outcome B) l :
  (forall a, In a l -> within_limits (f a)) -> within_limits (map_result f l).
Proof.
  induction l as [|a l IH]; intros Hf; [done|]. cbn. pose proof (Hf a (or_introl eq_refl)) as Ha. destruct (f a); [|done].
  assert (IH' : within_limits (map_result f l)) by (apply IH; intros; apply Hf; by right). by destruct (map_result f l).
Qed.

Lemma within_Ok {A} (m : outcome A) (a : A) : m = Ok a -> within_limits m.
Proof. by intros ->. Qed.

(** ** Values of strict types *)

Lemma strict_list v n e : strict (TypeRef_new n (ListOf e)) -> has_shape v (TypeRef_new n (ListOf e)) ->
  exists l, v = JArray l /\ Forall (fun x => has_shape x e) l.
Proof. intros [-> _] [[_ ?]|H]%shape_list_inv; [done|exact H]. Qed.

Lemma strict_members v n fields :
  strict (TypeRef_new n (Object fields)) -> has_shape v (TypeRef_new n (Object fields)) ->
  exists o, v = JObject o /\ forall f field, bt_get fields f = Some field -> exists w, obj_get o f = Some w.
Proof.
  intros Hs Hv. pose proof Hs as [-> _]%strict_object. apply shape_object_inv in Hv as [[_ ?]|(o & -> & Hreq & _)]; [done|].
  exists o. split; [done|]. intros f field Hg. destruct (strict_field _ _ _ _ Hs Hg) as [Hr _].
  apply bt_get_is_Some. by apply (Hreq f field); [apply bt_get_In|].
Qed.

Lemma strict_field_present v n fields f field kind :
  strict (TypeRef_new n (Object fields)) -> has_shape v (TypeRef_new n (Object fields)) -> bt_get fields f = Some field ->
  exists w, object_field v f kind = Ok w.
Proof.
  intros Hs Hv Hg. destruct (strict_members _ _ _ Hs Hv) as (o & -> & Ho). destruct (Ho f field Hg) as [w Hw].
  exists w. apply object_field_Ok. by exists o.
Qed.

Lemma strict_not_null v t : strict t -> has_shape v t -> is_null v = false.
Proof. intros Hs Hv. destruct v; try done. apply shape_null_inv in Hv. destruct t as [n vt]. by destruct Hs as [-> _]. Qed.

Lemma strict_required v t as_ require_non_null kind name :
  strict t -> has_shape v t -> within_limits (require_value (refine_scalar v as_) require_non_null kind name).
Proof. intros Hs Hv. unfold require_value. by rewrite refine_scalar_null, (strict_not_null v t Hs Hv), andb_false_r. Qed.

Lemma project_object_within absent object projected pairs n v :
  picks object projected pairs -> (forall target source, In (target, source) pairs -> exists field, bt_get object source = Some field) ->
  strict (TypeRef_new n (Object object)) -> has_shape v (TypeRef_new n (Object object)) ->
  exists o, v = JObject o /\ within_limits (project_object absent pairs o).
Proof.
  intros _ Hp Hs Hv. destruct (strict_members _ _ _ Hs Hv) as (o & -> & Ho). exists o. split; [done|].
  apply within_bind; [|done]. apply within_map. intros [t s] Hin. destruct (Hp t s Hin) as [field Hg]. destruct (Ho s field Hg) as [w Hw].
  cbn. by rewrite Hw.
Qed.

Section Progress.
Context {digest : Digest} {uuids : Uuids}.
Variable declared_type : string -> option RuleType.

Lemma project_fields_known object names path projected :
  project_fields object names path = Ok projected -> Forall (fun name => exists field, bt_get object name = Some field) names.
Proof using Type.
  unfold project_fields. generalize (@nil (string * ValueContractField)). induction names as [|name names IH]; intros acc; [constructor|].
  cbn. destruct (bt_get object name) as [field|] eqn:Hg; [|done]. cbn. destruct (bt_contains acc name); [done|].
  intros H. constructor; [by exists field|by eapply IH].
Qed.

Lemma project_list_within source names path t v :
  project_type source names path = Ok t -> strict source -> has_shape v source -> within_limits (project_list v names).
Proof using Type.
  intros Hp Hs Hv. pose proof Hp as (n & m & object & projected & -> & _ & Hpicks)%project_type_picks.
  assert (Hk : Forall (fun name => exists field, bt_get object name = Some field) names).
  { cbn in Hp. apply bind_Ok in Hp as (p & Hp & _). by eapply project_fields_known. }
  rewrite List.Forall_forall in Hk. destruct (strict_list _ _ _ Hs Hv) as (l & -> & Hl). destruct Hs as [_ Hs]. rewrite List.Forall_forall in Hl.
  apply within_bind; [done|]. intros ? [= <-]. apply within_bind; [|done]. apply within_map. intros y Hy.
  destruct (project_object_within (fun field => "state project field `" +:+ field +:+ "` is absent") object projected _ m y Hpicks) as (o & -> & Hw);
    [|done|by apply Hl|exact Hw].
  intros a b (name & [= <- <-] & Hin)%in_map_iff. by apply Hk.
Qed.

Lemma flatten_item_within flattened project path t v :
  flatten_project flattened project path = Ok t -> match project with Some project => bt_wf project | None => True end ->
  strict flattened -> has_shape v flattened -> within_limits (flatten_item project v).
Proof using Type.
  destruct project as [project|]; [|done]. intros Ht Hnd Hs Hv. pose proof (flatten_project_picks _ _ _ _ Ht Hnd) as (object & p & Hf & _ & Hp).
  rewrite Hf in Hs, Hv. edestruct (project_object_within (fun source => "bounded_flatten projection field `" +:+ source +:+ "` is absent"))
    as (o & -> & Hw); [exact Hp| |exact Hs|exact Hv|exact Hw].
  intros target source Hin. rewrite Hf in Ht. cbn in Ht. apply bind_Ok in Ht as (fields & Hfs%map_result_Ok & _).
  destruct (Forall2_In_l _ _ _ _ Hfs Hin) as (y & _ & (x & Hx%ok_or_Ok & _)%bind_Ok). by exists x.
Qed.

Lemma flatten_within element field project path flattened t v n maximum_lists maximum_items :
  flatten_element element field path = Ok flattened -> flatten_project flattened project path = Ok t ->
  match project with Some project => bt_wf project | None => True end ->
  strict (TypeRef_new n (ListOf element)) -> has_shape v (TypeRef_new n (ListOf element)) ->
  within_limits (evaluate_bounded_flatten v field project maximum_lists maximum_items).
Proof using Type.
  intros Hf Ht Hnd Hs Hv. destruct (strict_list _ _ _ Hs Hv) as (l & -> & Hl). destruct Hs as [_ Hs]. rewrite List.Forall_forall in Hl.
  pose proof (flatten_element_keeps strict _ _ _ _ Hf Hs) as Hsf. apply within_bind; [done|]. intros ? [= <-].
  destruct (_ <? _); [by right; left|]. apply within_bind; [|done]. apply within_fold. intros output a Ha. specialize (Hl a Ha).
  assert (Hn : exists nested, match field with Some field => object_field a field "bounded_flatten item" | None => Ok a end = Ok nested
                /\ exists b, nested = JArray b).
  { destruct field as [field|]; cbn in Hf.
    - apply bind_Ok in Hf as (object & Ho%ok_or_Ok & (nt & Hg%ok_or_Ok & Hf)%bind_Ok). apply object_type_fields_Some in Ho. rewrite Ho in Hs, Hl.
      destruct (strict_field_present _ _ _ _ _ "bounded_flatten item" Hs Hl Hg) as [w Hw]. exists w. split; [done|].
      pose proof (object_field_shape _ _ _ _ _ _ _ Hw Hl Hg) as Hsh. destruct (strict_field _ _ _ _ Hs Hg) as [_ Hst].
      destruct (type_ref nt) as [k [| | |e|]]; try done. destruct (strict_list _ _ _ Hst Hsh) as (b & -> & _). by exists b.
    - exists a. split; [done|]. destruct element as [k [| | |e|]]; try done. destruct (strict_list _ _ _ Hs Hl) as (b & -> & _). by exists b. }
  destruct Hn as (nested & Hn & b & ->). apply within_bind; [by rewrite Hn|]. intros nested. rewrite Hn. intros [= <-].
  apply within_bind; [done|]. intros ? [= <-]. pose proof (flatten_element_sound _ _ _ _ _ _ _ Hf Hl Hn eq_refl) as Hb. rewrite List.Forall_forall in Hb.
  apply within_fold. intros out y Hy. apply within_bind; [by eapply flatten_item_within; [exact Ht|exact Hnd|exact Hsf|apply Hb]|].
  intros w _. cbv zeta. destruct (_ <? _); [by right; right; left|done].
Qed.

(** ** Values *)

(** The session has the variables that the value reads. *)
Fixpoint session_present (x : ProcessValueContext) (v : ProcessValue) : Prop :=
  match v with
  | PSessionVariable name =>
      exists session w, caller_session x = Some session /\ object_field session (to_ascii_lowercase name) "caller session" = Ok w
  | PBoundedConcat inputs _ _ => fold_right and True (map (session_present x) inputs)
  | PBoundedFlatten from _ _ _ _ => session_present x from
  | _ => True
  end.

Record context_complete (c : CompileContext) (x : ProcessValueContext) : Prop := {
  types_strict : context_kept strict c;
  outputs_present : forall state index, bt_get (context_indices c) state = Some index -> index ∈ context_available c ->
    exists output, object_field (ctx_state x) state "state journal" = Ok output;
  item_present : forall t, context_item c = Some t -> exists item, ctx_item x = Some item;
}.

Section Values.
Variables (c : CompileContext) (x : ProcessValueContext).
Hypothesis types_resolved : context_kept resolved c.
Hypothesis values_shaped : context_shaped c x.
Hypothesis complete : context_complete c x.

Definition evaluable (v : ProcessValue) : Prop :=
  forall path r, process_value_wf v -> casts_scalars c v -> session_present x v ->
    infer_value declared_type c v path = Ok r -> within_limits (evaluate_process_value x v).

Lemma input_evaluable input as_ require_non_null : evaluable (PInput input as_ require_non_null).
Proof using values_shaped complete.
  intros path r _ _ _ (source & Hs%ok_or_Ok & _)%bind_Ok. destruct (root_field _ _ _ Hs) as (field & Hg & ->).
  pose proof (input_kept _ _ (types_strict _ _ complete)) as Hst. pose proof (input_shaped c x values_shaped) as Hsh.
  destruct (strict_field_present _ _ _ _ _ "input" Hst Hsh Hg) as [v Hv]. cbn [evaluate_process_value]. rewrite Hv. cbn [mbind result_bind].
  destruct (strict_field _ _ _ _ Hst Hg) as [_ Hf]. eapply strict_required; [exact Hf|]. by eapply object_field_shape.
Qed.

Lemma state_evaluable state field project as_ require_non_null : evaluable (PState state field project as_ require_non_null).
Proof using values_shaped complete.
  intros path r _ _ _ (source & Hs & (projected & Hp & _)%bind_Ok)%bind_Ok.
  apply infer_state_Ok in Hs as (contract & fld & Hc & Hg & -> & index & Hi & Hav).
  destruct (outputs_present c x complete _ _ Hi Hav) as [output Ho]. pose proof (states_shaped c x values_shaped _ _ _ Hc Ho) as Hsh.
  pose proof (states_kept _ _ (types_strict _ _ complete) _ _ Hc) as Hst. destruct (strict_field_present _ _ _ _ _ "state output" Hst Hsh Hg) as [v Hv].
  destruct (strict_field _ _ _ _ Hst Hg) as [_ Hf]. pose proof (object_field_shape _ _ _ _ _ _ _ Hv Hsh Hg) as Hvs.
  cbn [evaluate_process_value]. rewrite Ho. cbn [mbind result_bind]. rewrite Hv. cbn [mbind result_bind]. destruct project as [names|].
  - apply within_bind; [by eapply project_list_within|]. intros w Hw. eapply (strict_required w projected).
    + by eapply (project_keeps strict).
    + by eapply project_type_sound.
  - by apply (strict_required v (type_ref fld)).
Qed.

Lemma item_evaluable item as_ : evaluable (PItem item as_).
Proof using values_shaped complete.
  intros path r _ _ _ (it & Hi%ok_or_Ok & (source & Hs%ok_or_Ok & _)%bind_Ok)%bind_Ok.
  destruct (object_type_fields it) as [fields|] eqn:Ho; [|done]. cbn in Hs. destruct (bt_get fields item) as [fld|] eqn:Hg; [|done].
  apply object_type_fields_Some in Ho. destruct (item_present c x complete _ Hi) as [value Hx].
  pose proof (item_shaped c x values_shaped _ _ Hi Hx) as Hsh. pose proof (item_kept _ _ (types_strict _ _ complete) _ Hi) as Hst. rewrite Ho in Hsh, Hst.
  cbn [evaluate_process_value]. rewrite Hx. cbn [mbind result_bind ok_or].
  destruct (strict_field_present _ _ _ _ _ "for_each item" Hst Hsh Hg) as [w Hw]. by rewrite Hw.
Qed.

Lemma concat_evaluable inputs maximum_lists maximum_items :
  Forall evaluable inputs -> evaluable (PBoundedConcat inputs maximum_lists maximum_items).
Proof using types_resolved values_shaped complete.
  intros Hin path r Hwf Hcast Hses H. cbn [evaluate_process_value].
  assert (Hlists : (maximum_lists <? Z.of_nat (List.length inputs)) = false).
  { rewrite infer_concat_eq in H. apply bind_Ok in H as ([] & Hg & _). unfold guard in Hg. destruct (maximum_lists <? _); [by rewrite !orb_true_r in Hg|done]. }
  rewrite Hlists. apply infer_concat_Ok in H as (common & element & _ & _ & Hc).
  cbn in Hwf, Hcast, Hses. rewrite fold_and_iff in Hwf, Hcast, Hses. rewrite List.Forall_forall in Hin, Hwf, Hcast, Hses.
  apply within_bind; [|done]. apply within_fold. intros output v Hv.
  assert (Hi : exists path n e, infer_value declared_type c v path = Ok (Some (TypeRef_new n (ListOf e)))).
  { clear -Hc Hv. revert Hc. generalize O, (@None TypeRef). induction inputs as [|a inputs IH]; [done|]. intros index acc.
    cbn. intros (t & (inferred & Hi & [n ->]%list_element_Ok)%bind_Ok & (joined & _ & H)%bind_Ok)%bind_Ok.
    destruct Hv as [->|Hv]; [eauto|by eapply IH]. }
  destruct Hi as (p & n & e & Hi). apply within_bind; [exact (Hin v Hv _ _ (Hwf v Hv) (Hcast v Hv) (Hses v Hv) Hi)|]. intros w Hw.
  pose proof (evaluate_sound declared_type c x types_resolved values_shaped v _ _ _ (Hwf v Hv) (Hcast v Hv) Hi Hw) as Hsh.
  pose proof (infer_keeps declared_type strict c v (types_strict _ _ complete) _ _ (Hwf v Hv) Hi) as Hst.
  destruct (strict_list _ _ _ Hst Hsh) as (l & -> & _). unfold concat_input. cbv zeta. destruct (maximum_items <? _); [by left|done].
Qed.

Lemma all_evaluable v : evaluable v.
Proof using types_resolved values_shaped complete.
  induction v as [v Hleaf|inputs ml mi IH|from field project ml mi IH] using ProcessValue_ind'.
  - destruct v; try done; [apply input_evaluable|apply state_evaluable|apply item_evaluable|].
    intros path r _ _ (session & w & Hs & Hw) _. cbn. rewrite Hs. cbn. by rewrite Hw.
  - by apply concat_evaluable.
  - intros path r [Hwf Hnd] Hcast Hses (n & element & flattened & t & Hs & Hf & Ht & ->)%infer_flatten_Ok.
    apply within_bind; [exact (IH _ _ Hwf Hcast Hses Hs)|]. intros w Hw. eapply flatten_within; [exact Hf|exact Ht|exact Hnd| |].
    + exact (infer_keeps declared_type strict c from (types_strict _ _ complete) _ _ Hwf Hs).
    + exact (evaluate_sound declared_type c x types_resolved values_shaped from _ _ _ Hwf Hcast Hs Hw).
Qed.
End Values.

(** C24: Over strict types, with values of these types in scope, the outputs of
    the states that are available in the journal and the variables that are read
    in the session, the evaluation of a value whose type the compiler inferred gives a value of that type, or
    fails because a list combinator goes over its declared limit, provided that
    the value casts only scalars other than json to strings. *)
Theorem inferred_value_evaluates c x v path r :
  context_kept resolved c -> context_shaped c x -> context_complete c x ->
  process_value_wf v -> casts_scalars c v -> session_present x v ->
  infer_value declared_type c v path = Ok r ->
  match evaluate_process_value x v with
  | Ok w => match r with Some t => has_shape w t | None => w = JNull end
  | Err e => In e limits
  end.
Proof using Type.
  intros Hr Hx Hc Hwf Hcast Hses Hi. pose proof (all_evaluable c x Hr Hx Hc v _ _ Hwf Hcast Hses Hi) as Hw.
  destruct (evaluate_process_value x v) as [w|e] eqn:He; [|done]. exact (evaluate_sound declared_type c x Hr Hx v _ _ _ Hwf Hcast Hi He).
Qed.
End Progress.

(** ** Witness *)

Lemma sample_complete : context_complete sample_context sample_run.
Proof.
  split.
  - split; [by repeat constructor| |done]. intros state contract. cbn. destruct (String.eqb state "load"); [|done]. intros [= <-]. by repeat constructor.
  - intros state index. cbn. unfold object_field. cbn. destruct (String.eqb state "load"); [|done]. eauto.
  - done.
Qed.

Lemma inferred_value_evaluates_witness :
  infer_value (fun _ => None) sample_context sample_concat "all" = Ok (Some texts)
  /\ has_shape (JArray [JString "a"; JString "b"]) texts.
Proof.
  assert (Hi : infer_value (fun _ => None) sample_context sample_concat "all" = Ok (Some texts)) by (vm_compute; reflexivity).
  split; [exact Hi|].
  exact (inferred_value_evaluates (fun _ => None) sample_context sample_run sample_concat "all" _ sample_resolved sample_shaped sample_complete
    (proj1 sample_concat_wf) (proj2 sample_concat_wf) (conj I (conj I I)) Hi).
Defined.
