(* ===== verification/ProcessDependencies.v ===== *)
(** * Dependencies of a process ([crates/processes/src/lib.rs])

    What a process refers to outside itself: commands, rules, decision tables
    and connector operations and triggers, as the compiler sees them through
    [ProcessDependencyCatalog], and the closure of those it pinned.  Of the
    connector catalog's specifications ([crates/connector-catalog/src/model.rs])
    and of the metadata the records have the fields that the compiler and its
    fingerprints read. *)
From S2P Require Import Prelude Json KeyedMap AbiIds RulesSyntax RulesCanonical ValueContract ProcessSyntax.
Set Warnings "-register-all".

(** [BTreeSet<String>]: the keys in order. *)
Abbreviation string_set := (btree unit).
Definition set_insert (s : string_set) (x : string) : string_set := bt_insert s x tt.
Definition set_extend (s : string_set) (l : list string) : string_set := fold_left set_insert l s.

(** ** Metadata *)

Inductive SourceKind : Type := Postgres | Sqlite | Mysql | Clickhouse.

#[export] Instance SourceKind_eq_dec : EqDecision SourceKind.
Proof. solve_decision. Defined.

Record SourceMetadata := { source_metadata_name : string; kind : SourceKind }.
Record TenancyMetadata := { tenancy_source : string; variable : string }.

Definition variable_key (t : TenancyMetadata) : string := to_ascii_lowercase (variable t).

(** [decision_outputs] are the names of the output fields of each declared
    decision table. *)
Record Metadata := {
  sources : list SourceMetadata;
  tenancy : option TenancyMetadata;
  processes : list Process;
  decision_outputs : list (string * list string);
}.

(** ** Descriptors *)

Record ProcessCommandDescriptor := {
  command_source : string;
  command_descriptor_name : string;
  arguments : ValueContractCatalog;
  command_result : ValueContractCatalog;
  allowed_roles : string_set;
  required_session_variables : btree (btree TypeRef);
  command_fingerprint : string;
}.

Record ProcessRuleDescriptor := {
  rule_descriptor_name : string;
  bindings : btree RuleType;
  rule_result : RuleType;
  rule_fingerprint : string;
}.

Record ProcessDecisionDescriptor := {
  decision_name : string;
  inputs : btree RuleType;
  decision_output : btree RuleType;
  decision_fingerprint : string;
}.

(** ** Connector specifications *)

Record StableSemver := { major : Z; minor : Z; patch : Z }.

Record ProviderIdempotentStep := {
  step : CompiledStepId;
  step_scope : string;
  minimum_retention_ms : Z;
  clock_safety_margin_ms : Z;
}.

Inductive OperationEffect : Type :=
| ReadOnly
| ProviderIdempotent (side_effect_steps : list ProviderIdempotentStep)
| AtMostOnce.

Record OperationSpec := {
  spec_connector : ConnectorId;
  connector_version : StableSemver;
  spec_operation : OperationId;
  operation_version : StableSemver;
  runtime_abi_epoch : Z;
  value_language_epoch : Z;
  spec_input : ValueContractCatalog;
  input_contract_sha256 : string;
  spec_output : ValueContractCatalog;
  output_contract_sha256 : string;
  spec_steps : list CompiledStepId;
  effect : OperationEffect;
  maximum_in_flight : Z;
  burst : Z;
  refill_interval_ms : Z;
  deadline_ms : Z;
}.

(** [VersionedProcessorRef]. *)
Record ProcessorRef := { processor_id : InlineId; implementation_revision : Z }.

Inductive RedactionPlan : Type := Omit | Fixed (replacement : string) | PreserveLast (characters : Z).

Record SubscriptionOperationIds := { create : OperationId; delete : OperationId; check : option OperationId }.

(** The fields the two kinds of trigger share. *)
Record TriggerIdentity := {
  trigger_connector : ConnectorId;
  trigger_connector_version : StableSemver;
  trigger : TriggerId;
  trigger_version : StableSemver;
  event_version : StableSemver;
  trigger_abi_epoch : Z;
}.

Inductive TriggerSpec : Type :=
| Webhook (identity : TriggerIdentity) (authenticator codec normalizer : ProcessorRef) (selected_headers : list string)
    (raw_body_max_bytes timestamp_window_ms : Z) (event_id event_type output : ValueContractCatalog)
    (redaction : RedactionPlan) (subscription_operations : option SubscriptionOperationIds)
| Poll (identity : TriggerIdentity) (checkpoint : ValueContractCatalog) (processor : ProcessorRef)
    (event_type : ValueContractCatalog) (per_poll_event_limit : Z).

(** [Arc<T>]: a shared value and the allocation it is in, which [Arc::ptr_eq]
    compares. *)
Record Arc (T : Type) := { allocation : nat; as_ref : T }.
Arguments allocation {T}.
Arguments as_ref {T}.

Definition ptr_eq {T} (a b : Arc T) : bool := (allocation a =? allocation b)%nat.

Record ResolvedProcessConnectorOperation := {
  resolved_operation : Arc OperationSpec;
  operation_deployment : string;
  operation_serialization_key : option string;
}.

Record ResolvedProcessConnectorTrigger := {
  resolved_trigger : Arc TriggerSpec;
  trigger_deployment : string;
}.

(** ** Catalogs *)

(** [ProcessConnectorCatalog]; [NoConnectors] is its instance without any. *)
Class ProcessConnectorCatalog := {
  catalog_operation : string -> string -> string -> result string (option ResolvedProcessConnectorOperation);
  catalog_trigger : string -> string -> string -> result string (option ResolvedProcessConnectorTrigger);
}.

Definition NoConnectors : ProcessConnectorCatalog := {|
  catalog_operation _ _ _ := Ok None;
  catalog_trigger _ _ _ := Ok None;
|}.

(** [ProcessDependencyCatalog]. *)
Class ProcessDependencyCatalog := {
  declared_type : string -> option RuleType;
  command : string -> string -> option ProcessCommandDescriptor;
  rule : string -> option ProcessRuleDescriptor;
  decision_table : string -> option ProcessDecisionDescriptor;
  connector_operation : string -> string -> string -> result string (option ResolvedProcessConnectorOperation);
  connector_trigger : string -> string -> string -> result string (option ResolvedProcessConnectorTrigger);
}.

(** What the compiler relies on of a catalog: a descriptor has the name it was
    asked for. *)
Class NamedDependencies (d : ProcessDependencyCatalog) : Prop := {
  rule_named name descriptor : rule name = Some descriptor -> rule_descriptor_name descriptor = name;
  decision_named name descriptor : decision_table name = Some descriptor -> decision_name descriptor = name;
}.

Definition domain_hash `{Digest} (domain bytes : string) : string := sha256_hex (domain +:+ bytes).

(** [ServerProcessDependencies] over the compiled commands of each source and
    the compiled rules. *)
Section Server.
Context {digest : Digest} {connectors : ProcessConnectorCatalog}.
Variable metadata : Metadata.
Variable commands : btree (btree ProcessCommandDescriptor).
Variable rules : RuleCatalog.

Definition server_rule (name : string) : option ProcessRuleDescriptor :=
  rule ← bt_get (cat_rules rules) name;
  let artifact := cr_artifact rule in
  Some {| rule_descriptor_name := cr_name rule; bindings := cr_bindings rule; rule_result := cr_result rule;
          rule_fingerprint :=
            domain_hash ("donat.process.rule-dependency.v1" +:+ zero_byte)
              (show_nat (profile_version artifact) +:+ zero_byte +:+ canonical_ast_sha256 artifact +:+ zero_byte
               +:+ source_sha256 artifact) |}.

Definition server_decision_table (name : string) : option ProcessDecisionDescriptor :=
  compiled ← bt_get (cat_decision_tables rules) name;
  definition ← List.find (fun definition => String.eqb definition.1 name) (decision_outputs metadata);
  output ← map_option (fun field =>
             compiled ← bt_get (cdt_output_fields compiled) field; Some (field, of_type compiled)) definition.2;
  Some {| decision_name := name; inputs := cdt_inputs compiled; decision_output := bt_collect output;
          decision_fingerprint := cdt_revision compiled |}.

Definition ServerProcessDependencies : ProcessDependencyCatalog := {|
  declared_type := bt_get (cat_declared_types rules);
  command source name := commands ← bt_get commands source; bt_get commands name;
  rule := server_rule;
  decision_table := server_decision_table;
  connector_operation := catalog_operation;
  connector_trigger := catalog_trigger;
|}.

(** The compiled rules are stored by their names
    ([RulesCatalog.compile_catalog_sound]). *)
Lemma server_named :
  (forall name rule, bt_get (cat_rules rules) name = Some rule -> cr_name rule = name) ->
  NamedDependencies ServerProcessDependencies.
Proof using Type.
  intros Hrules. split; intros name descriptor; cbn.
  - unfold server_rule. intros Hd. destruct (bt_get (cat_rules rules) name) as [r|] eqn:E; [|done]. injection Hd as <-. by apply Hrules.
  - unfold server_decision_table. intros Hd. destruct (bt_get (cat_decision_tables rules) name); [|done]. cbn [mbind option_bind] in Hd.
    destruct (List.find _ _); [|done]. cbn [mbind option_bind] in Hd. destruct (map_option _ _); [|done]. by injection Hd as <-.
Qed.
End Server.

(** ** The closure *)

Record PinnedConnectorOperation := {
  pinned_source : string;
  pinned_instance : string;
  pinned_spec : Arc OperationSpec;
  pinned_deployment : string;
  serialization_key_input : option string;
}.

Record PinnedConnectorTrigger := {
  pinned_trigger_source : string;
  pinned_trigger_instance : string;
  pinned_trigger_spec : Arc TriggerSpec;
  pinned_trigger_deployment : string;
}.

(** A [BTreeMap] keyed by more than a string. *)
Record ProcessDependencyClosure := {
  commands : keyed (string * string) ProcessCommandDescriptor;
  rules : btree ProcessRuleDescriptor;
  decision_tables : btree ProcessDecisionDescriptor;
  connector_operations : keyed (string * string * OperationId) PinnedConnectorOperation;
  connector_triggers : keyed (string * string * TriggerId) PinnedConnectorTrigger;
}.

Definition empty_closure : ProcessDependencyClosure := {|
  commands := []; rules := []; decision_tables := []; connector_operations := []; connector_triggers := [] |}.

Definition pin_command (closure : ProcessDependencyClosure) (key : string * string) (d : ProcessCommandDescriptor) :
    ProcessDependencyClosure :=
  {| commands := km_insert (commands closure) key d; rules := rules closure; decision_tables := decision_tables closure;
     connector_operations := connector_operations closure; connector_triggers := connector_triggers closure |}.

Definition pin_rule (closure : ProcessDependencyClosure) (name : string) (d : ProcessRuleDescriptor) : ProcessDependencyClosure :=
  {| commands := commands closure; rules := bt_insert (rules closure) name d; decision_tables := decision_tables closure;
     connector_operations := connector_operations closure; connector_triggers := connector_triggers closure |}.

Definition pin_decision (closure : ProcessDependencyClosure) (name : string) (d : ProcessDecisionDescriptor) : ProcessDependencyClosure :=
  {| commands := commands closure; rules := rules closure; decision_tables := bt_insert (decision_tables closure) name d;
     connector_operations := connector_operations closure; connector_triggers := connector_triggers closure |}.

Definition pin_operation (closure : ProcessDependencyClosure) (key : string * string * OperationId) (d : PinnedConnectorOperation) :
    ProcessDependencyClosure :=
  {| commands := commands closure; rules := rules closure; decision_tables := decision_tables closure;
     connector_operations := km_insert (connector_operations closure) key d; connector_triggers := connector_triggers closure |}.

Definition pin_trigger (closure : ProcessDependencyClosure) (key : string * string * TriggerId) (d : PinnedConnectorTrigger) :
    ProcessDependencyClosure :=
  {| commands := commands closure; rules := rules closure; decision_tables := decision_tables closure;
     connector_operations := connector_operations closure; connector_triggers := km_insert (connector_triggers closure) key d |}.
