(* ===== verification/ProcessFingerprint.v ===== *)
(** * Fingerprints of processes ([crates/processes/src/lib.rs])

    The JSON material of contracts, of definitions and of the dependency
    closure, and the hashes over it. *)
From S2P Require Import Prelude Json KeyedMap AbiIds RulesSyntax RulesCanonical ValueContract ProcessSyntax ProcessTypes ProcessDependencies.
Set Warnings "-register-all".

(** The [Serialize] that serde derives for [RuleType] and [Process], and
    [value_contract_sha256] of the connector catalog. *)
Class ProcessMaterial := {
  rule_type_json : RuleType -> Value;
  process_json : Process -> Value;
  contract_sha256 : ValueContractCatalog -> string;
}.

Definition PROCESS_RUNTIME_ABI_EPOCH : Z := 1.
Definition VALUE_TYPE_LANGUAGE_VERSION : Z := 1.

Definition number_json (n : Z) : Value := JNumber (show_nat n).
Definition option_string_json (s : option string) : Value := match s with Some s => JString s | None => JNull end.
Definition version_json (v : StableSemver) : Value := JArray [number_json (major v); number_json (minor v); number_json (patch v)].
Definition id_json (id : InlineId) : Value := JString (InlineId_as_str id).

(** ** Contracts *)

Definition scalar_name (s : ValueScalar) : string :=
  match s with
  | SBoolean => "boolean" | SString => "string" | SInt32 => "int32" | SInt64 => "int64" | SUInt64 => "uint64"
  | SDecimal => "decimal" | SUuid => "uuid" | SDate => "date" | STimestamp => "timestamp"
  | STimestampTz => "timestamptz" | SJson => "json" | SCustom name => name
  end.

Fixpoint type_material (t : TypeRef) : Value :=
  match t with
  | TypeRef_new nullable vt =>
      let value :=
        match vt with
        | Scalar scalar => JObject [("kind", JString "scalar"); ("name", JString (scalar_name scalar))]
        | Enum name values =>
            JObject [("kind", JString "enum"); ("name", JString name); ("values", JArray (map JString values))]
        | Object fields =>
            JObject [("kind", JString "object");
                     ("fields", JObject (obj_collect (map (fun nf => match nf.2 with
                        | Field_new required t =>
                            (nf.1, JObject [("required", JBool required); ("type", type_material t)])
                        end) fields)))]
        | ListOf element => JObject [("kind", JString "list"); ("element", type_material element)]
        | Ref name => JObject [("kind", JString "ref"); ("name", JString name)]
        end in
      JObject [("nullable", JBool nullable); ("value", value)]
  end.

Definition field_material (field : ValueContractField) : Value :=
  JObject [("required", JBool (required field)); ("type", type_material (type_ref field))].

Definition contract_material (contract : ValueContractCatalog) : Value :=
  JObject (obj_collect (map (fun nf => (nf.1, field_material nf.2)) (roots contract))).

(** ** Canonical JSON *)

Fixpoint canonical_json (value : Value) : Value :=
  match value with
  | JObject object => JObject (bt_collect (map (fun nv => (nv.1, canonical_json nv.2)) object))
  | JArray values => JArray (map canonical_json values)
  | value => value
  end.

Section Hashes.
Context {serde : Serde} {digest : Digest}.

(** The text of the error of [serde_json::to_vec] is not modelled. *)
Definition hash_json (domain : string) (value : Value) : result PlanError string :=
  bytes ← ok_or (validation "processes" "fingerprint serialization failed") (to_vec (canonical_json value));
  Ok (sha256_hex (domain +:+ bytes)).

Context {material : ProcessMaterial}.

(** ** Dependencies *)

Definition command_material (entry : (string * string) * ProcessCommandDescriptor) : Value :=
  let (key, descriptor) := entry in
  JObject [("source", JString key.1); ("name", JString key.2);
           ("arguments", contract_material (arguments descriptor)); ("result", contract_material (command_result descriptor));
           ("allowed_roles", JArray (map (fun role => JString role.1) (allowed_roles descriptor)));
           ("definition_fingerprint", JString (command_fingerprint descriptor))].

Definition rule_types_json (types : btree RuleType) : Value := JObject (map (fun nt => (nt.1, rule_type_json nt.2)) types).

Definition rule_material (descriptor : ProcessRuleDescriptor) : Value :=
  JObject [("name", JString (rule_descriptor_name descriptor)); ("bindings", rule_types_json (bindings descriptor));
           ("result", rule_type_json (rule_result descriptor)); ("definition_fingerprint", JString (rule_fingerprint descriptor))].

Definition decision_material (descriptor : ProcessDecisionDescriptor) : Value :=
  JObject [("name", JString (decision_name descriptor)); ("inputs", rule_types_json (inputs descriptor));
           ("output", rule_types_json (decision_output descriptor));
           ("definition_fingerprint", JString (decision_fingerprint descriptor))].

Definition operation_material (dependency : PinnedConnectorOperation) : Value :=
  let spec := as_ref (pinned_spec dependency) in
  JObject [("source", JString (pinned_source dependency)); ("instance", JString (pinned_instance dependency));
           ("connector", id_json (spec_connector spec)); ("connector_version", version_json (connector_version spec));
           ("operation", id_json (spec_operation spec)); ("operation_version", version_json (operation_version spec));
           ("runtime_abi_epoch", number_json (runtime_abi_epoch spec));
           ("value_language_epoch", number_json (value_language_epoch spec));
           ("input_contract_sha256", JString (hex (input_contract_sha256 spec)));
           ("output_contract_sha256", JString (hex (output_contract_sha256 spec)));
           ("deployment_fingerprint", JString (pinned_deployment dependency));
           ("serialization_key_input", option_string_json (serialization_key_input dependency))].

Definition redaction_dependency_material (redaction : RedactionPlan) : Value :=
  match redaction with
  | Omit => JObject [("kind", JString "omit")]
  | Fixed replacement => JObject [("kind", JString "fixed"); ("replacement", JString replacement)]
  | PreserveLast characters => JObject [("kind", JString "preserve_last"); ("characters", number_json characters)]
  end.

Definition processor_material (processor : ProcessorRef) : Value :=
  JObject [("id", id_json (processor_id processor));
           ("implementation_revision", number_json (implementation_revision processor))].

Definition value_contract_hash (contract : ValueContractCatalog) : string := hex (contract_sha256 contract).

Definition subscription_material (operations : SubscriptionOperationIds) : Value :=
  JObject [("create", id_json (create operations)); ("delete", id_json (delete operations));
           ("check", match check operations with Some operation => id_json operation | None => JNull end)].

Definition identity_material (kind : string) (dependency : PinnedConnectorTrigger) (identity : TriggerIdentity) : list (string * Value) :=
  [("kind", JString kind); ("source", JString (pinned_trigger_source dependency));
   ("instance", JString (pinned_trigger_instance dependency)); ("connector", id_json (trigger_connector identity));
   ("connector_version", version_json (trigger_connector_version identity)); ("trigger", id_json (trigger identity));
   ("trigger_version", version_json (trigger_version identity)); ("event_version", version_json (event_version identity));
   ("runtime_abi_epoch", number_json (trigger_abi_epoch identity));
   ("value_language_epoch", number_json VALUE_TYPE_LANGUAGE_VERSION)].

Definition trigger_material (dependency : PinnedConnectorTrigger) : Value :=
  match as_ref (pinned_trigger_spec dependency) with
  | Webhook identity authenticator codec normalizer selected_headers raw_body_max_bytes timestamp_window_ms event_id
      event_type output redaction subscription_operations =>
      JObject (identity_material "webhook" dependency identity ++
        [("authenticator", processor_material authenticator); ("codec", processor_material codec);
         ("normalizer", processor_material normalizer); ("selected_headers", JArray (map JString selected_headers));
         ("raw_body_max_bytes", number_json raw_body_max_bytes);
         ("timestamp_window_ms", JString (show_nat timestamp_window_ms));
         ("event_id_contract_sha256", JString (value_contract_hash event_id));
         ("event_type_contract_sha256", JString (value_contract_hash event_type));
         ("output_contract_sha256", JString (value_contract_hash output));
         ("redaction", redaction_dependency_material redaction);
         ("subscription_operations",
            match subscription_operations with Some operations => subscription_material operations | None => JNull end);
         ("deployment_fingerprint", JString (pinned_trigger_deployment dependency))])
  | Poll identity checkpoint processor event_type per_poll_event_limit =>
      JObject (identity_material "poll" dependency identity ++
        [("checkpoint_contract_sha256", JString (value_contract_hash checkpoint));
         ("event_type_contract_sha256", JString (value_contract_hash event_type));
         ("processor", processor_material processor); ("per_poll_event_limit", number_json per_poll_event_limit);
         ("deployment_fingerprint", JString (pinned_trigger_deployment dependency))])
  end.

Definition process_dependency_descriptors (definition_fingerprint : string) (dependencies : ProcessDependencyClosure) : Value :=
  JObject [("definition_fingerprint", JString definition_fingerprint);
           ("commands", JArray (map command_material (commands dependencies)));
           ("rules", JArray (map (fun nr => rule_material nr.2) (rules dependencies)));
           ("decision_tables", JArray (map (fun nd => decision_material nd.2) (decision_tables dependencies)));
           ("connector_operations", JArray (map (fun ko => operation_material ko.2) (connector_operations dependencies)));
           ("connector_triggers", JArray (map (fun kt => trigger_material kt.2) (connector_triggers dependencies)))].

Definition revision_fingerprint (definition_fingerprint : string) (dependencies : ProcessDependencyClosure) : result PlanError string :=
  hash_json ("donat.process.revision.v1" +:+ zero_byte) (process_dependency_descriptors definition_fingerprint dependencies).
End Hashes.
