(* ===== verification/ProcessDefinition.v ===== *)
(** * The header of a process ([crates/processes/src/lib.rs])

    The checks of a definition before its states are compiled: its identity,
    its roles, its owner and idempotency, its fields, its signals, and how a
    command starts it. *)
From S2P Require Import Prelude Json KeyedMap AbiIds ValueContract RulesCanonical ProcessSyntax ProcessTypes ProcessActivity ProcessDependencies ProcessFingerprint.
Set Warnings "-register-all".

Definition opt_is_some_and {A} (o : option A) (f : A -> bool) : bool := match o with Some x => f x | None => false end.

Definition validate_identity (metadata : Metadata) (process : Process) (path : string) : result PlanError unit :=
  if String.eqb (trim (name process)) "" then invalid (path +:+ ".name") "process name must not be empty"
  else if version process =? 0 then invalid (path +:+ ".version") "process version must be greater than zero"
  else
    match List.find (fun source_ => String.eqb (source_metadata_name source_) (source process)) (sources metadata) with
    | None => invalid (path +:+ ".source") ("process source `" +:+ source process +:+ "` does not exist")
    | Some source_ =>
        if negb (bool_decide (kind source_ = Postgres)) then
          invalid (path +:+ ".source") ("durable process source `" +:+ source process +:+ "` must be postgres")
        else if is_empty (states process) then invalid (path +:+ ".states") "process must declare at least one state"
        else Ok tt
    end.

(** The loop over the permissions from one index on. *)
Fixpoint validate_roles_loop (path : string) (index : nat) (roles : string_set) (l : list ProcessPermission) : result PlanError unit :=
  match l with
  | [] => Ok tt
  | permission :: l =>
      let permission_path := index_path (path +:+ ".permissions") index in
      if String.eqb (trim (role permission)) "" || String.eqb (role permission) "admin" then
        invalid (permission_path +:+ ".role") "process role must be a non-empty explicit non-admin role"
      else if bt_contains roles (role permission) then
        invalid (permission_path +:+ ".role") ("process role `" +:+ role permission +:+ "` is declared more than once")
      else if opt_is_some_and (owner_session_variable permission) (fun v => String.eqb v "") then
        invalid (permission_path +:+ ".owner_session_variable") "owner session variable must not be empty"
      else validate_roles_loop path (S index) (set_insert roles (role permission)) l
  end.

Definition validate_process_roles (process : Process) (path : string) : result PlanError unit :=
  if is_empty (permissions process) then invalid (path +:+ ".permissions") "process must declare at least one explicit role"
  else validate_roles_loop path 0 [] (permissions process).

Definition validate_idempotency_value (value : ProcessIdempotencyValue) (input : ValueContractCatalog) (path : string) :
    result PlanError unit :=
  match value with
  | IdInput field =>
      t ← ok_or (validation path ("idempotency references unknown input `" +:+ field +:+ "`")) (root_type input field);
      if nullable t || negb (scalar_like t) then invalid path "idempotency input must be a non-null scalar or enum" else Ok tt
  | IdSessionVariable session_variable =>
      if String.eqb session_variable "" then invalid path "idempotency session variable must not be empty" else Ok tt
  end.

Definition scope_identity (value : ProcessIdempotencyValue) : string :=
  match value with
  | IdInput input => "input:" +:+ input
  | IdSessionVariable session_variable => "session:" +:+ session_variable
  end.

Fixpoint validate_scope_loop (input : ValueContractCatalog) (path : string) (index : nat) (seen : string_set)
    (l : list ProcessIdempotencyValue) : result PlanError unit :=
  match l with
  | [] => Ok tt
  | value :: l =>
      let value_path := index_path (path +:+ ".idempotency.scope") index in
      _ ← validate_idempotency_value value input value_path;
      if bt_contains seen (scope_identity value) then
        invalid value_path "process idempotency scope contains a duplicate value"
      else validate_scope_loop input path (S index) (set_insert seen (scope_identity value)) l
  end.

(** A compiled signal. *)
Record CompiledProcessSignal := {
  compiled_signal_role : option string;
  correlation : ValueContractCatalog;
  payload : ValueContractCatalog;
  contract_fingerprint : string;
}.

Section Definition_.
Context {serde : Serde} {digest : Digest} {dependencies : ProcessDependencyCatalog}.

Definition validate_owner (owner : ProcessOwner) (input : ValueContractCatalog) (path : string) : result PlanError unit :=
  t ← type_from_string declared_type (owner_type owner) (path +:+ ".owner.type");
  if nullable t then invalid (path +:+ ".owner.type") "process owner type must be non-null"
  else
    match capture owner with
    | PInput field None false =>
        source ← ok_or (validation (path +:+ ".owner.capture") ("owner capture references unknown input `" +:+ field +:+ "`"))
                   (root_type input field);
        if type_assignable t source then Ok tt else Err (type_mismatch (path +:+ ".owner.capture") t source)
    | PSessionVariable session_variable =>
        if negb (String.eqb session_variable "") then Ok tt
        else invalid (path +:+ ".owner.capture") "process owner must capture one input or explicit session variable"
    | _ => invalid (path +:+ ".owner.capture") "process owner must capture one input or explicit session variable"
    end.

Definition validate_owner_and_idempotency (process : Process) (input : ValueContractCatalog) (path : string) :
    result PlanError unit :=
  _ ← match owner process with Some owner => validate_owner owner input path | None => Ok tt end;
  match idempotency process with
  | Some idempotency =>
      _ ← validate_idempotency_value (idempotency_key idempotency) input (path +:+ ".idempotency.key");
      validate_scope_loop input path 0 [] (idempotency_scope idempotency)
  | None => Ok tt
  end.

(** ** Fields *)

Fixpoint compile_fields_loop (path : string) (index : nat) (roots : Fields) (fields : list ProcessField) : result PlanError Fields :=
  match fields with
  | [] => Ok roots
  | field :: fields =>
      if String.eqb (trim (field_name field)) "" then
        invalid (index_path path index +:+ ".name") "field name must not be empty"
      else
        t ← type_from_string declared_type (field_type field) (index_path path index +:+ ".type");
        if bt_contains roots (field_name field) then
          invalid (index_path path index +:+ ".name") ("field `" +:+ field_name field +:+ "` is declared more than once")
        else compile_fields_loop path (S index) (bt_insert roots (field_name field) (Field_new (negb (nullable t)) t)) fields
  end.

Definition compile_fields (fields : list ProcessField) (path : string) : result PlanError ValueContractCatalog :=
  roots ← compile_fields_loop path 0 [] fields;
  Ok {| roots := roots; named_objects := [] |}.

Definition compile_type_map (fields : btree string) (path : string) : result PlanError ValueContractCatalog :=
  roots ← map_result (fun nt : string * string =>
            t ← type_from_string declared_type nt.2 (path +:+ "." +:+ nt.1);
            Ok (nt.1, Field_new (negb (nullable t)) t)) fields;
  Ok {| roots := roots; named_objects := [] |}.

(** ** Signals *)

Definition compile_signal (signal_path : string) (signal : ProcessSignal) : result PlanError CompiledProcessSignal :=
  if String.eqb (trim (signal_name signal)) "" then invalid (signal_path +:+ ".name") "signal name must not be empty"
  else if opt_is_some_and (signal_role signal) (fun role => String.eqb role "" || String.eqb role "admin") then
    invalid (signal_path +:+ ".role") "signal role must be an explicit non-admin role"
  else
    correlation ← compile_type_map (signal_correlation signal) (signal_path +:+ ".correlation");
    if is_empty (roots correlation) then invalid (signal_path +:+ ".correlation") "signal correlation must not be empty"
    else
      _ ← each_result (fun nf : string * ValueContractField =>
            if nullable (type_ref nf.2) || negb (scalar_like (type_ref nf.2)) then
              invalid (signal_path +:+ ".correlation." +:+ nf.1) "signal correlation must use non-null scalar or enum fields"
            else Ok tt) (roots correlation);
      payload ← compile_type_map (signal_payload signal) (signal_path +:+ ".payload");
      fingerprint ← hash_json ("donat.process.signal-contract.v1" +:+ zero_byte)
                      (JObject [("name", JString (signal_name signal)); ("role", option_string_json (signal_role signal));
                                ("correlation", contract_material correlation); ("payload", contract_material payload)]);
      Ok {| compiled_signal_role := signal_role signal; correlation := correlation; payload := payload;
            contract_fingerprint := fingerprint |}.

Fixpoint compile_signals_loop (path : string) (index : nat) (signals : btree CompiledProcessSignal) (l : list ProcessSignal) :
    result PlanError (btree CompiledProcessSignal) :=
  match l with
  | [] => Ok signals
  | signal :: l =>
      let signal_path := index_path (path +:+ ".signals") index in
      compiled ← compile_signal signal_path signal;
      if bt_contains signals (signal_name signal) then
        invalid (signal_path +:+ ".name") ("signal `" +:+ signal_name signal +:+ "` is declared more than once")
      else compile_signals_loop path (S index) (bt_insert signals (signal_name signal) compiled) l
  end.

Definition compile_signals (process : Process) (path : string) : result PlanError (btree CompiledProcessSignal) :=
  compile_signals_loop path 0 [] (signals process).

(** ** Commands *)

Definition resolve_command (source name path : string) : result PlanError ProcessCommandDescriptor :=
  descriptor ← ok_or (validation path ("command `" +:+ source +:+ "." +:+ name +:+ "` does not exist")) (command source name);
  if negb (String.eqb (command_source descriptor) source) || negb (String.eqb (command_descriptor_name descriptor) name) then
    invalid path ("command descriptor `" +:+ command_source descriptor +:+ "` is not source-local to `" +:+ source +:+ "."
                  +:+ name +:+ "`")
  else Ok descriptor.

Definition validate_caller_role (process : Process) (descriptor : ProcessCommandDescriptor) (path : string) : result PlanError unit :=
  each_result (fun permission =>
    if bt_contains (allowed_roles descriptor) (role permission) then Ok tt
    else invalid path ("command `" +:+ command_descriptor_name descriptor +:+ "` is not executable by process caller role `"
                       +:+ role permission +:+ "`")) (permissions process).

(** A descriptor with its contracts resolved. *)
Definition with_contracts (descriptor : ProcessCommandDescriptor) (arguments result_ : ValueContractCatalog) : ProcessCommandDescriptor :=
  {| command_source := command_source descriptor; command_descriptor_name := command_descriptor_name descriptor;
     arguments := arguments; command_result := result_; allowed_roles := allowed_roles descriptor;
     required_session_variables := required_session_variables descriptor; command_fingerprint := command_fingerprint descriptor |}.

(** ** Start *)

Definition validate_start_input (start : ProcessStart) (input result_ : ValueContractCatalog) (start_path : string) :
    result PlanError unit :=
  if negb (List.length (start_input start) =? List.length (roots input))%nat then
    invalid (start_path +:+ ".input") "process start input must map every process input exactly once"
  else
    _ ← each_result (fun nf : string * ValueContractField =>
          reference ← ok_or (validation (start_path +:+ ".input") ("process start input is missing `" +:+ nf.1 +:+ "`"))
                        (bt_get (start_input start) nf.1);
          let path := start_path +:+ ".input." +:+ nf.1 +:+ ".command_result" in
          source ← ok_or (validation path ("command `" +:+ start_command start +:+ "` has no result field `" +:+ reference +:+ "`"))
                     (root_type result_ reference);
          if type_assignable (type_ref nf.2) source then Ok tt else Err (type_mismatch path (type_ref nf.2) source)) (roots input);
    match List.find (fun nr : string * string => negb (bt_contains (roots input) nr.1)) (start_input start) with
    | Some (extra, _) =>
        invalid (start_path +:+ ".input." +:+ extra) ("process start input contains undeclared field `" +:+ extra +:+ "`")
    | None => Ok tt
    end.

Definition validate_start (process : Process) (input : ValueContractCatalog) (closure : ProcessDependencyClosure) (path : string) :
    result PlanError (option TypeRef * ProcessDependencyClosure) :=
  match start process with
  | None => Ok (None, closure)
  | Some start =>
      let start_path := path +:+ ".start" in
      let command_path := start_path +:+ ".command" in
      descriptor ← resolve_command (source process) (start_command start) command_path;
      _ ← validate_caller_role process descriptor command_path;
      arguments_ ← normalize_contract declared_type (arguments descriptor) command_path;
      result_ ← normalize_contract declared_type (command_result descriptor) command_path;
      _ ← validate_start_input start input result_ start_path;
      let idempotency_path := start_path +:+ ".idempotency_key.command_argument" in
      idempotency_type ← ok_or (validation idempotency_path ("command `" +:+ start_command start +:+ "` has no argument `"
                                  +:+ start_idempotency_key start +:+ "`"))
                           (root_type arguments_ (start_idempotency_key start));
      if nullable idempotency_type || negb (scalar_like idempotency_type) then
        invalid idempotency_path "process start idempotency argument must be a non-null scalar or enum"
      else
        let key_path := start_path +:+ ".process_key.command_result" in
        process_key ← ok_or (validation key_path ("command `" +:+ start_command start +:+ "` has no result field `"
                               +:+ start_process_key start +:+ "`"))
                        (root_type result_ (start_process_key start));
        if nullable process_key || negb (scalar_like process_key) then
          invalid key_path "process key must be a non-null scalar or enum"
        else Ok (Some process_key, pin_command closure (source process, start_command start) (with_contracts descriptor arguments_ result_))
  end.
End Definition_.

(** ** Fingerprint *)

Section Fingerprint.
Context {serde : Serde} {digest : Digest} {material : ProcessMaterial}.

Definition signal_material (signal : CompiledProcessSignal) : Value :=
  JObject [("role", option_string_json (compiled_signal_role signal)); ("correlation", contract_material (correlation signal));
           ("payload", contract_material (payload signal)); ("contract_fingerprint", JString (contract_fingerprint signal))].

Definition definition_material (process : Process) (input output : ValueContractCatalog) (signals : btree CompiledProcessSignal) : Value :=
  JObject [("runtime_abi_epoch", number_json PROCESS_RUNTIME_ABI_EPOCH); ("definition", process_json process);
           ("input", contract_material input); ("output", contract_material output);
           ("signals", JObject (obj_collect (map (fun ns => (ns.1, signal_material ns.2)) signals)))].

Definition definition_fingerprint (process : Process) (input output : ValueContractCatalog) (signals : btree CompiledProcessSignal) :
    result PlanError string :=
  hash_json ("donat.process.definition.v1" +:+ zero_byte) (definition_material process input output signals).
End Fingerprint.
