(* ===== verification/ProcessStates.v ===== *)
(** * The states of a process ([crates/processes/src/lib.rs])

    [compile_state] and the compilers of the kinds of state.  A compiler takes
    the dependency closure that the states before it filled, and gives it back
    with what it pinned; the rest of [CompileContext] it only reads. *)
From stdpp Require Import gmap.
From S2P Require Import Prelude Json KeyedMap AbiIds RulesSyntax ValueContract ProcessSyntax ProcessGraph ProcessTypes ProcessActivity ProcessInfer ProcessDependencies ProcessFingerprint ProcessDefinition.
Set Warnings "-register-all".

(** ** Compiled states *)

Inductive CompiledProcessCommandRole : Type :=
| RoleCaller (required_session_variables : btree string_set)
| RoleFixed (role : string).

Record CompiledProcessCommandActivity := {
  compiled_command : string;
  compiled_role : CompiledProcessCommandRole;
  compiled_arguments : btree ProcessValue;
}.

Record CompiledProcessRequestActivity := {
  connector : string;
  compiled_operation : OperationId;
  compiled_input : btree ProcessValue;
  provider_idempotent : bool;
  at_most_once : bool;
  on_ambiguous : option string;
  schedule_to_start_ms : Z;
  start_to_close_ms : Z;
  retry : ProcessRetry;
  initial_retry_interval_ms : Z;
  maximum_retry_interval_ms : Z;
  on_error : option ProcessErrorRoutes;
}.

(** [CompiledProcessRequestState]: the activity and where it goes. *)
Record CompiledProcessRequestState := { activity : CompiledProcessRequestActivity; compiled_request_next : string }.

Record CompiledProcessDecisionCall := { decision_call : string; decision_input : btree ProcessValue }.

Inductive CompiledProcessWhenPredicate : Type :=
| WhenMatches (matches : btree Value)
| WhenRule (name : string) (bindings : btree ProcessValue).

Record CompiledProcessWhenCase := { predicate : CompiledProcessWhenPredicate; compiled_case_next : string }.

Record CompiledProcessWhenState := {
  compiled_decision_table : option CompiledProcessDecisionCall;
  cases : list CompiledProcessWhenCase;
  compiled_default : string;
  literal_output_state : option string;
}.

Inductive CompiledProcessTimestampKind : Type := KindTimestamp | KindTimestampTz.

Inductive CompiledProcessSignalDeadline : Type :=
| AfterMilliseconds (milliseconds : Z)
| DeadlineAt (value : ProcessValue) (kind : CompiledProcessTimestampKind).

Record CompiledProcessSignalWait := {
  waited_signal : string;
  waited_role : string;
  waited_persist_before_match : bool;
  waited_correlate : btree ProcessValue;
  waited_deadline : CompiledProcessSignalDeadline;
  waited_next : string;
  waited_on_timeout : string;
}.

Record CompiledProcessWebhookGuard := { compiled_guard_rule : string; compiled_guard_bindings : btree ProcessWebhookGuardValue }.

Record CompiledProcessWebhookWait := {
  hooked_connector : string;
  hooked_trigger : TriggerId;
  hooked_correlate : btree ProcessValue;
  hooked_guard : option CompiledProcessWebhookGuard;
  hooked_deadline : CompiledProcessSignalDeadline;
  hooked_next : string;
  hooked_on_timeout : string;
}.

Record CompiledProcessTimerWait := {
  timer_decision : CompiledProcessDecisionCall;
  duration_output : string;
  compiled_timer_next : string;
}.

Inductive CompiledProcessWaitState : Type :=
| CompiledSignal (wait : CompiledProcessSignalWait)
| CompiledWebhook (wait : CompiledProcessWebhookWait)
| CompiledTimer (wait : CompiledProcessTimerWait).

Inductive CompiledProcessForEachActivity : Type :=
| ForEachCommand (command : CompiledProcessCommandActivity)
| ForEachRequest (request : CompiledProcessRequestState).

Record CompiledProcessForEachState := {
  fan_input : ProcessValue;
  fan_item_key : string;
  fan_max_items : Z;
  fan_max_concurrency : Z;
  fan_preserve_input : bool;
  fan_next : string;
  fan_activity : CompiledProcessForEachActivity;
}.

Inductive CompiledProcessStateOperation : Type :=
| CompiledCommand (command : CompiledProcessCommandActivity) (next : string)
| CompiledRequest (request : CompiledProcessRequestState)
| CompiledWhen (when_ : CompiledProcessWhenState)
| CompiledWait (wait : CompiledProcessWaitState)
| CompiledForEach (for_each : CompiledProcessForEachState)
| CompiledOutput (values : btree ProcessValue)
| CompiledFail (fail_code fail_message : string).

Record CompiledProcessState := {
  compiled_id : string;
  compiled_output : ValueContractCatalog;
  maximum_send_horizons_ms : btree Z;
  compiled_state_operation : CompiledProcessStateOperation;
}.

Abbreviation Closure := ProcessDependencyClosure.

(** The parts of a fan-out common to its two forms, and where it goes. *)
Definition each_fields (for_each : ProcessForEachState) : ForEachFields :=
  match for_each with EachCommand each _ _ | EachRequest each _ _ => each end.
Definition each_next (for_each : ProcessForEachState) : string :=
  match for_each with EachCommand _ _ next | EachRequest _ _ next => next end.

Section Compile.
Context {dependencies : ProcessDependencyCatalog}.
Variable process : Process.
Variable signals : btree CompiledProcessSignal.

Abbreviation infer := (infer_value declared_type).
Abbreviation check_bindings := (validate_binding_map declared_type).
Abbreviation check_value := (validate_value_against declared_type).

(** ** Commands *)

Definition session_variables_of (descriptor : ProcessCommandDescriptor) (role : string) : list string :=
  match bt_get (required_session_variables descriptor) role with
  | Some variables => map (fun variable => to_ascii_lowercase variable.1) variables
  | None => []
  end.

Definition validate_run_as (descriptor : ProcessCommandDescriptor) (run_as path : string) : result PlanError unit :=
  if String.eqb run_as "caller" then validate_caller_role process descriptor path
  else if String.eqb run_as "" || String.eqb run_as "admin" then
    invalid path "command run_as must be `caller` or an explicit non-admin role"
  else if negb (bt_contains (allowed_roles descriptor) run_as) then
    invalid path ("command `" +:+ command_descriptor_name descriptor +:+ "` is not executable as role `" +:+ run_as +:+ "`")
  else if opt_is_some_and (bt_get (required_session_variables descriptor) run_as) (fun variables => negb (is_empty variables)) then
    invalid path ("fixed Process command role `" +:+ run_as +:+
      "` requires session variables, but fixed roles have no ambient request session")
  else Ok tt.

Definition compile_command_role (descriptor : ProcessCommandDescriptor) (run_as path : string) :
    result PlanError CompiledProcessCommandRole :=
  _ ← validate_run_as descriptor run_as path;
  if negb (String.eqb run_as "caller") then Ok (RoleFixed run_as)
  else
    Ok (RoleCaller (bt_collect (map (fun permission =>
      (role permission, set_extend [] (session_variables_of descriptor (role permission)))) (permissions process)))).

Definition compile_command_activity (name run_as : string) (arguments_ : btree ProcessValue) (c : CompileContext)
    (closure : Closure) (path : string) : result PlanError (ProcessCommandDescriptor * Closure) :=
  descriptor ← resolve_command (source process) name (path +:+ ".name");
  _ ← validate_run_as descriptor run_as (path +:+ ".run_as");
  argument_contract ← normalize_contract declared_type (arguments descriptor) (path +:+ ".arguments");
  result_contract ← normalize_contract declared_type (command_result descriptor) (path +:+ ".result");
  let descriptor := with_contracts descriptor argument_contract result_contract in
  _ ← check_bindings c arguments_ (arguments descriptor) (path +:+ ".arguments");
  Ok (descriptor, pin_command closure (source process, name) descriptor).

(** ** Requests *)

Definition side_effect_step (horizon : Z) (path : string) (horizons : btree Z) (s : ProviderIdempotentStep) : result PlanError (btree Z) :=
  let name := InlineId_as_str (step s) in
  usable ← ok_or (validation (path +:+ ".retry") ("connector step `" +:+ name +:+ "` has an invalid retention window"))
             (checked 0 u64_max (minimum_retention_ms s - clock_safety_margin_ms s));
  if usable <? horizon then
    invalid (path +:+ ".retry")
      ("maximum send horizon " +:+ format_number horizon +:+ " ms exceeds usable provider retention "
       +:+ format_number usable +:+ " ms for step `" +:+ name +:+ "`")
  else Ok (bt_insert horizons name horizon).

(** Whether the operation takes a provider key, and the horizon of each of its
    side effects. *)
Definition compile_effect (operation_effect : OperationEffect) (idempotency_key : option ProcessStableActivityKey) (horizon : Z)
    (state_id : string) (item_key : option string) (path : string) : result PlanError (bool * btree Z) :=
  match operation_effect with
  | ReadOnly =>
      if is_some idempotency_key then invalid (path +:+ ".idempotency_key") "read-only connector operations must remain headerless"
      else Ok (false, [])
  | AtMostOnce =>
      if is_some idempotency_key then
        invalid (path +:+ ".idempotency_key")
          "an at-most-once operation binds no provider key; its safety is the send that is never repeated"
      else Ok (false, [])
  | ProviderIdempotent side_effect_steps =>
      key ← ok_or (validation (path +:+ ".idempotency_key") "provider-idempotent operation requires a stable activity key")
              idempotency_key;
      _ ← validate_stable_activity_key key state_id item_key (path +:+ ".idempotency_key.stable");
      horizons ← fold_result (side_effect_step horizon path) [] side_effect_steps;
      Ok (true, horizons)
  end.

Definition pin_connector_operation (closure : Closure) (key : string * string * OperationId) (pinned : PinnedConnectorOperation)
    (path : string) : result PlanError Closure :=
  match km_get (connector_operations closure) key with
  | Some existing =>
      if negb (String.eqb (pinned_deployment existing) (pinned_deployment pinned))
         || negb (option_string_eqb (serialization_key_input existing) (serialization_key_input pinned))
         || negb (ptr_eq (pinned_spec existing) (pinned_spec pinned))
      then invalid (path +:+ ".operation") "connector dependency changed during process compilation"
      else Ok closure
  | None => Ok (pin_operation closure key pinned)
  end.

Definition compile_request (connector_ operation_ : string) (input_ : btree ProcessValue)
    (idempotency_key : option ProcessStableActivityKey) (timeout : ProcessTimeout) (retry_ : ProcessRetry)
    (on_error_ : option ProcessErrorRoutes) (at_most_once_ : bool) (on_ambiguous_ : option string) (state_id : string)
    (item_key : option string) (c : CompileContext) (closure : Closure) (path : string) :
    result PlanError (ValueContractCatalog * btree Z * CompiledProcessRequestActivity * Closure) :=
  if String.eqb (trim connector_) "" || String.eqb (trim operation_) "" then
    invalid path "request connector and operation must not be empty"
  else
    found ← map_err (validation (path +:+ ".operation")) (connector_operation (source process) connector_ operation_);
    resolved ← ok_or (validation (path +:+ ".operation") ("connector operation `" +:+ source process +:+ "." +:+ connector_
                        +:+ "." +:+ operation_ +:+ "` is not executable")) found;
    let spec := as_ref (resolved_operation resolved) in
    if negb (String.eqb (InlineId_as_str (spec_operation spec)) operation_) then
      invalid (path +:+ ".operation") "connector catalog returned a different operation identity"
    else
      input_contract ← normalize_contract declared_type (spec_input spec) (path +:+ ".input");
      output_contract ← normalize_contract declared_type (spec_output spec) (path +:+ ".output");
      _ ← check_bindings c input_ input_contract (path +:+ ".input");
      _ ← validate_error_routes on_error_ (path +:+ ".on_error");
      _ ← validate_at_most_once (match effect spec with AtMostOnce => true | _ => false end) at_most_once_ on_ambiguous_ on_error_
            (negb (is_some item_key)) retry_ connector_ operation_ path;
      schedule_to_start_ ← parse_duration (schedule_to_start timeout) (path +:+ ".timeout.schedule_to_start");
      start_to_close_ ← parse_duration (start_to_close timeout) (path +:+ ".timeout.start_to_close");
      if start_to_close_ <? deadline_ms spec then
        invalid (path +:+ ".timeout.start_to_close")
          ("connector operation deadline " +:+ show_nat (deadline_ms spec) +:+ " ms exceeds start_to_close "
           +:+ show_nat start_to_close_ +:+ " ms")
      else
        horizon ← compile_retry_horizon retry_ at_most_once_ schedule_to_start_ start_to_close_ (path +:+ ".retry");
        initial ← parse_duration (initial_interval retry_) (path +:+ ".retry.initial_interval");
        maximum ← parse_duration (max_interval retry_) (path +:+ ".retry.max_interval");
        '(idempotent, horizons) ← compile_effect (effect spec) idempotency_key horizon state_id item_key path;
        closure ← pin_connector_operation closure (source process, connector_, spec_operation spec)
                    {| pinned_source := source process; pinned_instance := connector_; pinned_spec := resolved_operation resolved;
                       pinned_deployment := operation_deployment resolved;
                       serialization_key_input := operation_serialization_key resolved |} path;
        Ok (output_contract, horizons,
            {| connector := connector_; compiled_operation := spec_operation spec; compiled_input := input_;
               provider_idempotent := idempotent; at_most_once := at_most_once_; on_ambiguous := on_ambiguous_;
               schedule_to_start_ms := schedule_to_start_; start_to_close_ms := start_to_close_; retry := retry_;
               initial_retry_interval_ms := initial; maximum_retry_interval_ms := maximum; on_error := on_error_ |},
            closure).

Definition compile_request_state (request : ProcessRequestState) (state_id : string) (item_key : option string) (c : CompileContext)
    (closure : Closure) (path : string) : result PlanError (ValueContractCatalog * btree Z * CompiledProcessRequestState * Closure) :=
  '(output, horizons, compiled, closure) ←
    compile_request (request_connector request) (request_operation request) (request_input request) (request_idempotency_key request)
      (request_timeout request) (request_retry request) (request_on_error request) (request_at_most_once request)
      (request_on_ambiguous request) state_id item_key c closure path;
  Ok (output, horizons, {| activity := compiled; compiled_request_next := request_next request |}, closure).

Definition compile_request_activity (request : ProcessRequestActivity) (state_id item_key next : string) (c : CompileContext)
    (closure : Closure) (path : string) : result PlanError (ValueContractCatalog * btree Z * CompiledProcessRequestState * Closure) :=
  '(output, horizons, compiled, closure) ←
    compile_request (activity_connector request) (activity_operation request) (activity_input request)
      (activity_idempotency_key request) (activity_timeout request) (activity_retry request) (activity_on_error request)
      (activity_at_most_once request) (activity_on_ambiguous request) state_id (Some item_key) c closure path;
  Ok (output, horizons, {| activity := compiled; compiled_request_next := next |}, closure).

(** ** Choices *)

Definition validate_literal_matches (matches : btree Value) (contract : ValueContractCatalog) (path : string) : result PlanError unit :=
  if is_empty matches then invalid path "matches object must not be empty"
  else
    each_result (fun fl : string * Value =>
      target ← ok_or (validation (path +:+ "." +:+ fl.1) ("matches references unknown output field `" +:+ fl.1 +:+ "`"))
                 (root_type contract fl.1);
      validate_json_literal fl.2 target (path +:+ "." +:+ fl.1)) matches.

(** [max_by_key] of the index: the last of the greatest. *)
Definition latest (best : option (nat * (string * ValueContractCatalog))) (candidate : nat * (string * ValueContractCatalog)) :=
  match best with
  | Some best => if (best.1 <=? candidate.1)%nat then Some candidate else Some best
  | None => Some candidate
  end.

Definition latest_matching_state_contract (matches : btree Value) (c : CompileContext) : option (string * ValueContractCatalog) :=
  let available := List.filter (fun ni : string * nat => bool_decide (ni.2 ∈ context_available c)) (context_indices c) in
  let candidates := flat_map (fun ni : string * nat =>
    match bt_get (state_types c) ni.1 with
    | Some contract =>
        if forallb (fun fl : string * Value => bt_contains (roots contract) fl.1) matches then [(ni.2, (ni.1, contract))] else []
    | None => []
    end) available in
  option_map snd (fold_left latest candidates None).

(** The cases over the rows of a decision table. *)
Fixpoint compile_table_cases (output_contract : ValueContractCatalog) (path : string) (index : nat) (l : list ProcessWhenCase) :
    result PlanError (list CompiledProcessWhenCase) :=
  match l with
  | [] => Ok []
  | case :: l =>
      match case_rule case, case_with case, case_matches case with
      | None, [], Some matches =>
          _ ← validate_literal_matches matches output_contract (index_path (path +:+ ".cases") index +:+ ".matches");
          rest ← compile_table_cases output_contract path (S index) l;
          Ok ({| predicate := WhenMatches matches; compiled_case_next := case_next case |} :: rest)
      | _, _, _ =>
          invalid (index_path (path +:+ ".cases") index) "decision-table cases must contain only a matches object and next"
      end
  end.

(** What the loop over the other cases carries. *)
Record WhenProgress := {
  matched_contract : option ValueContractCatalog;
  matched_state : option string;
  compiled_cases : list CompiledProcessWhenCase;
  when_closure : Closure;
}.

Definition compile_case (c : CompileContext) (case_path : string) (s : WhenProgress) (case : ProcessWhenCase) : result PlanError WhenProgress :=
  match case_matches case, case_rule case with
  | Some matches, None =>
      if negb (is_empty (case_with case)) then
        invalid (case_path +:+ ".with") "literal match case must not declare rule bindings"
      else
        '(source_state, source) ← ok_or (validation (case_path +:+ ".matches") "match fields do not resolve to one prior state output")
                                    (latest_matching_state_contract matches c);
        if opt_is_some_and (matched_state s) (fun existing => negb (String.eqb existing source_state)) then
          invalid (case_path +:+ ".matches")
            "all literal match cases in one when state must resolve to the same prior state output"
        else
          _ ← validate_literal_matches matches source (case_path +:+ ".matches");
          Ok {| matched_contract := Some (default source (matched_contract s)); matched_state := Some (default source_state (matched_state s));
                compiled_cases := compiled_cases s ++ [{| predicate := WhenMatches matches; compiled_case_next := case_next case |}];
                when_closure := when_closure s |}
  | None, Some rule_name =>
      descriptor ← ok_or (validation (case_path +:+ ".rule") ("rule `" +:+ rule_name +:+ "` does not exist")) (rule rule_name);
      if negb (ruletype_eqb (rule_result descriptor) TBool) then
        invalid (case_path +:+ ".rule") ("when rule `" +:+ rule_name +:+ "` must return bool")
      else
        _ ← check_bindings c (case_with case) (contract_from_rule_types (bindings descriptor)) (case_path +:+ ".with");
        Ok {| matched_contract := matched_contract s; matched_state := matched_state s;
              compiled_cases := compiled_cases s ++ [{| predicate := WhenRule rule_name (case_with case); compiled_case_next := case_next case |}];
              when_closure := pin_rule (when_closure s) rule_name descriptor |}
  | _, _ => invalid case_path "when case must declare exactly one of matches or rule"
  end.

Fixpoint compile_cases (c : CompileContext) (path : string) (index : nat) (s : WhenProgress) (l : list ProcessWhenCase) :
    result PlanError WhenProgress :=
  match l with
  | [] => Ok s
  | case :: l => s ← compile_case c (index_path (path +:+ ".cases") index) s case; compile_cases c path (S index) s l
  end.

Definition compile_decision_when (w : ProcessWhenState) (table_name : string) (c : CompileContext) (closure : Closure) (path : string) :
    result PlanError (ValueContractCatalog * CompiledProcessWhenState * Closure) :=
  descriptor ← ok_or (validation (path +:+ ".decision_table") ("decision table `" +:+ table_name +:+ "` does not exist"))
                 (decision_table table_name);
  _ ← check_bindings c (when_input w) (contract_from_rule_types (inputs descriptor)) (path +:+ ".input");
  let output_contract := contract_from_rule_types (decision_output descriptor) in
  cases ← compile_table_cases output_contract path 0 (when_cases w);
  Ok (output_contract,
      {| compiled_decision_table := Some {| decision_call := table_name; decision_input := when_input w |}; cases := cases;
         compiled_default := when_default w; literal_output_state := None |},
      pin_decision closure table_name descriptor).

Definition compile_when_state (w : ProcessWhenState) (c : CompileContext) (closure : Closure) (context_path : string) :
    result PlanError (ValueContractCatalog * CompiledProcessWhenState * Closure) :=
  let path := context_path +:+ ".when" in
  if is_empty (when_cases w) then invalid (path +:+ ".cases") "when state must declare at least one case"
  else
    match when_decision_table w with
    | Some table_name => compile_decision_when w table_name c closure path
    | None =>
        if negb (is_empty (when_input w)) then invalid (path +:+ ".input") "when input is valid only with decision_table"
        else
          s ← compile_cases c path 0 {| matched_contract := None; matched_state := None; compiled_cases := []; when_closure := closure |}
                (when_cases w);
          Ok (default empty_contract (matched_contract s),
              {| compiled_decision_table := None; cases := compiled_cases s; compiled_default := when_default w;
                 literal_output_state := matched_state s |}, when_closure s)
    end.

(** ** Waits *)

Definition timestamp_kind (t : TypeRef) : option CompiledProcessTimestampKind :=
  match t with
  | TypeRef_new false (Scalar STimestamp) => Some KindTimestamp
  | TypeRef_new false (Scalar STimestampTz) => Some KindTimestampTz
  | _ => None
  end.

Definition compile_wait_deadline (deadline : ProcessDeadline) (c : CompileContext) (path kind : string) :
    result PlanError CompiledProcessSignalDeadline :=
  let deadline_path := path +:+ ".deadline" in
  match deadline with
  | DeadlineDuration duration => milliseconds ← parse_duration duration deadline_path; Ok (AfterMilliseconds milliseconds)
  | DeadlineValue value =>
      inferred ← infer c value deadline_path;
      t ← ok_or (validation deadline_path (kind +:+ " deadline cannot be an untyped null literal")) inferred;
      kind ← ok_or (validation deadline_path (kind +:+ " deadline must be a non-null timestamp")) (timestamp_kind t);
      Ok (DeadlineAt value kind)
  end.

(** The roots of a signal's correlation with those of its payload. *)
Definition signal_roots (signal : CompiledProcessSignal) (path : string) : result PlanError Fields :=
  fold_result (fun fields (nf : string * ValueContractField) =>
    if bt_contains fields nf.1 then
      invalid (path +:+ ".signal") ("signal field `" +:+ nf.1 +:+ "` collides across correlation and payload")
    else Ok (bt_insert fields nf.1 nf.2)) (roots (correlation signal)) (roots (payload signal)).

Definition validate_signal_role (wait : ProcessSignalWait) (signal : CompiledProcessSignal) (path : string) : result PlanError unit :=
  if String.eqb (wait_role wait) "" || String.eqb (wait_role wait) "admin" then
    invalid (path +:+ ".role") "signal wait role must be an explicit non-admin role"
  else
    match compiled_signal_role signal with
    | Some signal_role =>
        if negb (String.eqb signal_role (wait_role wait)) then
          invalid (path +:+ ".role") ("signal `" +:+ wait_signal wait +:+ "` is restricted to role `" +:+ signal_role
                                      +:+ "`, not `" +:+ wait_role wait +:+ "`")
        else Ok tt
    | None =>
        if negb (existsb (fun permission => String.eqb (role permission) (wait_role wait)) (permissions process)) then
          invalid (path +:+ ".role") "an unrestricted signal wait role must be a process caller role"
        else Ok tt
    end.

Definition compile_signal_wait (wait : ProcessSignalWait) (c : CompileContext) (closure : Closure) (context_path : string) :
    result PlanError (ValueContractCatalog * CompiledProcessWaitState * Closure) :=
  let path := context_path +:+ ".wait" in
  signal ← ok_or (validation (path +:+ ".signal") ("signal `" +:+ wait_signal wait +:+ "` is not declared by the process"))
             (bt_get signals (wait_signal wait));
  _ ← validate_signal_role wait signal path;
  if negb (String.eqb (verification wait) "required") then
    invalid (path +:+ ".verification") "signal verification must be `required`"
  else
    _ ← check_bindings c (signal_correlate wait) (correlation signal) (path +:+ ".correlate");
    deadline ← compile_wait_deadline (signal_deadline wait) c path "signal";
    roots ← signal_roots signal path;
    Ok ({| roots := roots; named_objects := [] |},
        CompiledSignal {| waited_signal := wait_signal wait; waited_role := wait_role wait;
          waited_persist_before_match := persist_before_match wait; waited_correlate := signal_correlate wait;
          waited_deadline := deadline; waited_next := signal_next wait; waited_on_timeout := signal_on_timeout wait |}, closure).

(** A binding of the guard, from the event or from the process. *)
Definition check_guard_binding (c : CompileContext) (output : ValueContractCatalog) (target : TypeRef) (binding : ProcessWebhookGuardValue)
    (path : string) : result PlanError unit :=
  match binding with
  | GuardEvent event =>
      source ← ok_or (validation (path +:+ ".event") ("normalized event field `" +:+ event +:+ "` does not exist")) (root_type output event);
      if type_assignable target source then Ok tt else Err (type_mismatch (path +:+ ".event") target source)
  | GuardProcess value => check_value c value target path
  end.

Definition compile_webhook_guard (guard : ProcessWebhookGuard) (output : ValueContractCatalog) (c : CompileContext) (closure : Closure)
    (path : string) : result PlanError (CompiledProcessWebhookGuard * Closure) :=
  descriptor ← ok_or (validation (path +:+ ".guard.rule") ("rule `" +:+ guard_rule guard +:+ "` does not exist")) (rule (guard_rule guard));
  if negb (ruletype_eqb (rule_result descriptor) TBool) then
    invalid (path +:+ ".guard.rule") "webhook guard rule must return non-null bool"
  else
    let contract := contract_from_rule_types (bindings descriptor) in
    _ ← each_result (fun nf : string * ValueContractField =>
          binding ← ok_or (validation (path +:+ ".guard.with") ("required guard binding `" +:+ nf.1 +:+ "` is missing"))
                      (bt_get (guard_with guard) nf.1);
          check_guard_binding c output (type_ref nf.2) binding (path +:+ ".guard.with." +:+ nf.1)) (roots contract);
    match List.find (fun nb : string * ProcessWebhookGuardValue => negb (bt_contains (roots contract) nb.1)) (guard_with guard) with
    | Some (extra, _) =>
        invalid (path +:+ ".guard.with." +:+ extra) ("guard binding `" +:+ extra +:+ "` is not declared by rule `" +:+ guard_rule guard +:+ "`")
    | None =>
        Ok ({| compiled_guard_rule := guard_rule guard; compiled_guard_bindings := guard_with guard |},
            pin_rule closure (rule_descriptor_name descriptor) descriptor)
    end.

Definition check_correlation (c : CompileContext) (output : ValueContractCatalog) (path : string) (ne : string * ProcessValue) :
    result PlanError unit :=
  let field_path := path +:+ ".correlate." +:+ ne.1 in
  actual ← ok_or (validation field_path ("normalized event field `" +:+ ne.1 +:+ "` does not exist")) (root_type output ne.1);
  if nullable actual || negb (scalar_like actual) then
    invalid field_path "webhook correlation requires a non-null scalar or enum event field"
  else check_value c ne.2 actual field_path.

Definition compile_webhook_wait (wait : ProcessWebhookWait) (c : CompileContext) (closure : Closure) (context_path : string) :
    result PlanError (ValueContractCatalog * CompiledProcessWaitState * Closure) :=
  let path := context_path +:+ ".wait.webhook" in
  trigger_id ← map_err (fun _ => validation (path +:+ ".trigger")
                 ("connector trigger `" +:+ webhook_trigger wait +:+ "` is not a canonical ABI ID")) (InlineId_parse (webhook_trigger wait));
  found ← map_err (validation (path +:+ ".trigger")) (connector_trigger (source process) (webhook_connector wait) (webhook_trigger wait));
  resolved ← ok_or (validation (path +:+ ".trigger") ("connector trigger `" +:+ source process +:+ "." +:+ webhook_connector wait
                      +:+ "." +:+ webhook_trigger wait +:+ "` is not executable")) found;
  '(catalog_trigger, output) ←
    match as_ref (resolved_trigger resolved) with
    | Webhook identity _ _ _ _ _ _ _ _ output _ _ =>
        if bool_decide (trigger identity = trigger_id) then Ok (trigger identity, output)
        else invalid (path +:+ ".trigger") "connector registry returned a different webhook trigger identity"
    | Poll _ _ _ _ _ => invalid (path +:+ ".trigger") "a Process webhook wait cannot consume a poll trigger"
    end;
  if is_empty (webhook_correlate wait) then
    invalid (path +:+ ".correlate") "webhook correlation must contain at least one normalized event field"
  else
    _ ← each_result (check_correlation c output path) (webhook_correlate wait);
    '(guard, closure) ← match webhook_guard wait with
                         | Some guard => '(guard, closure) ← compile_webhook_guard guard output c closure path; Ok (Some guard, closure)
                         | None => Ok (None, closure)
                         end;
    deadline ← compile_wait_deadline (webhook_deadline wait) c (context_path +:+ ".wait") "webhook";
    Ok (output,
        CompiledWebhook {| hooked_connector := webhook_connector wait; hooked_trigger := catalog_trigger;
          hooked_correlate := webhook_correlate wait; hooked_guard := guard; hooked_deadline := deadline;
          hooked_next := webhook_next wait; hooked_on_timeout := webhook_on_timeout wait |},
        pin_trigger closure (source process, webhook_connector wait, catalog_trigger)
          {| pinned_trigger_source := source process; pinned_trigger_instance := webhook_connector wait;
             pinned_trigger_spec := resolved_trigger resolved; pinned_trigger_deployment := trigger_deployment resolved |}).

Definition compile_timer_wait (timer : ProcessTimerWait) (c : CompileContext) (closure : Closure) (context_path : string) :
    result PlanError (ValueContractCatalog * CompiledProcessWaitState * Closure) :=
  let path := context_path +:+ ".wait.timer" in
  descriptor ← ok_or (validation (path +:+ ".decision_table") ("decision table `" +:+ timer_decision_table timer +:+ "` does not exist"))
                 (decision_table (timer_decision_table timer));
  _ ← check_bindings c (timer_with timer) (contract_from_rule_types (inputs descriptor)) (path +:+ ".with");
  output_type ← ok_or (validation (path +:+ ".output")
                  ("decision table `" +:+ decision_name descriptor +:+ "` has no output `" +:+ timer_output timer +:+ "`"))
                  (bt_get (decision_output descriptor) (timer_output timer));
  match strip_rule_nullable output_type with
  | TInt | TInt64 =>
      Ok (contract_from_rule_types (decision_output descriptor),
          CompiledTimer {| timer_decision := {| decision_call := decision_name descriptor; decision_input := timer_with timer |};
                           duration_output := timer_output timer; compiled_timer_next := timer_next timer |},
          pin_decision closure (decision_name descriptor) descriptor)
  | _ => invalid (path +:+ ".output") "timer decision output must be an integer duration in seconds"
  end.

Definition compile_wait_state (wait : ProcessWaitState) (c : CompileContext) (closure : Closure) (path : string) :
    result PlanError (ValueContractCatalog * CompiledProcessWaitState * Closure) :=
  match wait with
  | WaitSignal signal => compile_signal_wait signal c closure path
  | WaitWebhook webhook => compile_webhook_wait webhook c closure path
  | WaitTimer timer => compile_timer_wait timer c closure path
  end.

(** ** Fan-outs *)

Definition with_item (c : CompileContext) (item : TypeRef) : CompileContext :=
  {| context_input := context_input c; state_types := state_types c; context_ancestors := context_ancestors c;
     context_definite := context_definite c; context_available := context_available c; context_indices := context_indices c;
     context_item := Some item |}.

(** The type of the items, whose key is a non-null scalar. *)
Definition for_each_item (each : ForEachFields) (c : CompileContext) (path : string) : result PlanError TypeRef :=
  inferred ← infer c (each_input each) (path +:+ ".input");
  input_type ← ok_or (validation (path +:+ ".input") "for_each input cannot be null") inferred;
  match value_type input_type with
  | ListOf item_type =>
      item_fields ← ok_or (validation (path +:+ ".input") "for_each list elements must be objects") (object_type_fields item_type);
      item_key_type ← ok_or (validation (path +:+ ".item_key")
                        ("item_key `" +:+ each_item_key each +:+ "` is not present on the input item"))
                        (bt_get item_fields (each_item_key each));
      if nullable (type_ref item_key_type) || negb (scalar_like (type_ref item_key_type)) then
        invalid (path +:+ ".item_key") "for_each item_key must name a non-null scalar or enum"
      else Ok item_type
  | _ => invalid (path +:+ ".input") "for_each input must be a bounded list"
  end.

Definition compile_each_activity (for_each : ProcessForEachState) (state_id : string) (c : CompileContext) (closure : Closure)
    (path : string) : result PlanError (ValueContractCatalog * btree Z * CompiledProcessForEachActivity * Closure) :=
  match for_each with
  | EachCommand _ command _ =>
      '(descriptor, closure) ← compile_command_activity (activity_name command) (activity_run_as command)
                                 (activity_arguments command) c closure (path +:+ ".command");
      role ← compile_command_role descriptor (activity_run_as command) (path +:+ ".command.run_as");
      Ok (command_result descriptor, [],
          ForEachCommand {| compiled_command := activity_name command; compiled_role := role;
                            compiled_arguments := activity_arguments command |}, closure)
  | EachRequest each request next =>
      '(output, horizons, request, closure) ←
        compile_request_activity request state_id (each_item_key each) next c closure (path +:+ ".request");
      Ok (output, horizons, ForEachRequest request, closure)
  end.

Definition for_each_output (item_type : TypeRef) (each : ForEachFields) (activity_result : ValueContractCatalog) (path : string) :
    result PlanError ValueContractCatalog :=
  let result_object := catalog_root_object activity_result in
  successful_item ← if preserve_input each then merge_object_types item_type result_object path else Ok result_object;
  Ok {| roots := bt_collect
          [("successful_items", required_field (list_type successful_item));
           ("failed_items", required_field (list_type (failure_item_type item_type (each_item_key each))));
           ("ordered_results", required_field (list_type result_object))];
        named_objects := [] |}.

Definition compile_for_each_state (for_each : ProcessForEachState) (state_id : string) (c : CompileContext) (closure : Closure)
    (context_path : string) : result PlanError (ValueContractCatalog * btree Z * CompiledProcessForEachState * Closure) :=
  let each := each_fields for_each in
  let path := context_path +:+ ".for_each" in
  if (max_items each =? 0) || (256 <? max_items each) then
    invalid (path +:+ ".max_items") "for_each max_items must be between 1 and 256"
  else if (max_concurrency each =? 0) || (max_items each <? max_concurrency each) then
    invalid (path +:+ ".max_concurrency") "for_each max_concurrency must be between 1 and max_items"
  else if negb (String.eqb (completion each) "collect") then
    invalid (path +:+ ".completion") "for_each completion must be `collect`"
  else
    item_type ← for_each_item each c path;
    '(activity_result, horizons, activity, closure) ←
      compile_each_activity for_each state_id (with_item c item_type) closure path;
    output ← for_each_output item_type each activity_result path;
    Ok (output, horizons,
        {| fan_input := each_input each; fan_item_key := each_item_key each; fan_max_items := max_items each;
           fan_max_concurrency := max_concurrency each; fan_preserve_input := preserve_input each; fan_next := each_next for_each;
           fan_activity := activity |}, closure).

(** ** States *)

Definition compile_operation (state : ProcessState) (c : CompileContext) (closure : Closure) (path : string) :
    result PlanError (ValueContractCatalog * btree Z * CompiledProcessStateOperation * Closure) :=
  match operation state with
  | OpCommand command =>
      '(descriptor, closure) ← compile_command_activity (command_name command) (command_run_as command)
                                 (command_arguments command) c closure (path +:+ ".command");
      role ← compile_command_role descriptor (command_run_as command) (path +:+ ".command.run_as");
      Ok (command_result descriptor, [],
          CompiledCommand {| compiled_command := command_name command; compiled_role := role;
                             compiled_arguments := command_arguments command |} (command_next command), closure)
  | OpRequest request =>
      '(output, horizons, compiled, closure) ← compile_request_state request (id state) None c closure (path +:+ ".request");
      Ok (output, horizons, CompiledRequest compiled, closure)
  | OpWhen w => '(output, compiled, closure) ← compile_when_state w c closure path; Ok (output, [], CompiledWhen compiled, closure)
  | OpWait wait => '(output, compiled, closure) ← compile_wait_state wait c closure path; Ok (output, [], CompiledWait compiled, closure)
  | OpForEach for_each =>
      '(output, horizons, compiled, closure) ← compile_for_each_state for_each (id state) c closure path;
      Ok (output, horizons, CompiledForEach compiled, closure)
  | OpOutput values =>
      target ← compile_fields (output process) (path +:+ ".output");
      _ ← check_bindings c values target (path +:+ ".output.values");
      output ← compile_fields (output process) (path +:+ ".output");
      Ok (output, [], CompiledOutput values, closure)
  | OpFail fail_code fail_message =>
      if String.eqb (trim fail_code) "" || String.eqb (trim fail_message) "" then
        invalid (path +:+ ".fail") "fail state code and safe message must not be empty"
      else Ok (empty_contract, [], CompiledFail fail_code fail_message, closure)
  end.

Definition compile_state (state : ProcessState) (c : CompileContext) (closure : Closure) (path : string) :
    result PlanError (CompiledProcessState * Closure) :=
  '(output, horizons, operation, closure) ← compile_operation state c closure path;
  Ok ({| compiled_id := id state; compiled_output := output; maximum_send_horizons_ms := horizons;
         compiled_state_operation := operation |}, closure).
End Compile.
