(* ===== verification/ProcessCompile.v ===== *)
(** * Compilation of processes ([crates/processes/src/lib.rs])

    [compile_process]: the states in topological order, the session variables
    that each role must bring, and the fingerprints; and the catalogs of
    compiled processes and of their effect contracts.  A compilation fails with
    a [PlanError]; an index out of bounds or a failed [expect] is a panic. *)
From stdpp Require Import gmap.
From S2P Require Import Prelude Json KeyedMap AbiIds RulesSyntax ValueContract ProcessSyntax ProcessGraph ProcessTypes ProcessActivity ProcessInfer ProcessDependencies ProcessFingerprint ProcessDefinition ProcessStates.
Set Warnings "-register-all".

Inductive fault : Type := Failed (error : PlanError) | Panic.

Abbreviation compiling A := (result fault A).

Definition lift {A} (m : result PlanError A) : compiling A := map_err Failed m.
Definition expect {A} (o : option A) : compiling A := ok_or Panic o.
Definition lift_option {A} (m : option (result PlanError A)) : compiling A := r ← expect m; lift r.

Record CompiledProcessDefinition := {
  definition_source : string;
  definition_name : string;
  definition_version : Z;
  definition : Process;
  definition_input : ValueContractCatalog;
  definition_output : ValueContractCatalog;
  process_key : option TypeRef;
  definition_signals : btree CompiledProcessSignal;
  definition_states : btree CompiledProcessState;
  caller_session_variables : btree string_set;
  tenant_variable : option string;
  definition_dependencies : ProcessDependencyClosure;
  definition_fingerprint_ : string;
  revision_fingerprint_ : string;
}.

(** ** Session variables *)

Fixpoint collect_value_session_variables (value : ProcessValue) (out : string_set) {struct value} : string_set :=
  match value with
  | PSessionVariable session_variable => set_insert out (to_ascii_lowercase session_variable)
  | PBoundedConcat inputs _ _ =>
      (fix go (inputs : list ProcessValue) (out : string_set) : string_set :=
         match inputs with
         | [] => out
         | value :: inputs => go inputs (collect_value_session_variables value out)
         end) inputs out
  | PBoundedFlatten from _ _ _ _ => collect_value_session_variables from out
  | _ => out
  end.

Definition collect_value_map_session_variables (values : btree ProcessValue) (out : string_set) : string_set :=
  fold_left (fun out nv => collect_value_session_variables nv.2 out) values out.

Definition collect_deadline (deadline : ProcessDeadline) (out : string_set) : string_set :=
  match deadline with DeadlineValue value => collect_value_session_variables value out | DeadlineDuration _ => out end.

Definition collect_guard (guard : option ProcessWebhookGuard) (out : string_set) : string_set :=
  match guard with
  | Some guard =>
      fold_left (fun out nb => match nb.2 with GuardProcess value => collect_value_session_variables value out | GuardEvent _ => out end)
        (guard_with guard) out
  | None => out
  end.

(** What the values of one state read. *)
Definition collect_state (operation : ProcessStateOperation) (ambient : string_set) : string_set :=
  match operation with
  | OpCommand command => collect_value_map_session_variables (command_arguments command) ambient
  | OpRequest request => collect_value_map_session_variables (request_input request) ambient
  | OpWhen w =>
      fold_left (fun out case => collect_value_map_session_variables (case_with case) out) (when_cases w)
        (collect_value_map_session_variables (when_input w) ambient)
  | OpWait (WaitSignal wait) =>
      collect_deadline (signal_deadline wait) (collect_value_map_session_variables (signal_correlate wait) ambient)
  | OpWait (WaitWebhook wait) =>
      collect_deadline (webhook_deadline wait)
        (collect_guard (webhook_guard wait) (collect_value_map_session_variables (webhook_correlate wait) ambient))
  | OpWait (WaitTimer wait) => collect_value_map_session_variables (timer_with wait) ambient
  | OpForEach (EachCommand each command _) =>
      collect_value_map_session_variables (activity_arguments command) (collect_value_session_variables (each_input each) ambient)
  | OpForEach (EachRequest each request _) =>
      collect_value_map_session_variables (activity_input request) (collect_value_session_variables (each_input each) ambient)
  | OpOutput values => collect_value_map_session_variables values ambient
  | OpFail _ _ => ambient
  end.

(** [by_role.get_mut(role).expect(..)], extended. *)
Definition extend_role (by_role : btree string_set) (role : string) (l : list string) : compiling (btree string_set) :=
  variables ← expect (bt_get by_role role); Ok (bt_insert by_role role (set_extend variables l)).

Definition collect_owner_variable (by_role : btree string_set) (permission : ProcessPermission) : compiling (btree string_set) :=
  match owner_session_variable permission with
  | Some name => extend_role by_role (role permission) [to_ascii_lowercase name]
  | None => Ok by_role
  end.

Definition collect_caller_command_session_variables (process : Process) (closure : ProcessDependencyClosure)
    (command_name run_as path : string) (by_role : btree string_set) : compiling (btree string_set) :=
  if negb (String.eqb run_as "caller") then Ok by_role
  else
    descriptor ← ok_or (Failed (validation path ("compiled caller command `" +:+ command_name
                   +:+ "` is absent from the dependency closure"))) (km_get (commands closure) (source process, command_name));
    fold_result (fun by_role permission =>
      extend_role by_role (role permission) (session_variables_of descriptor (role permission))) by_role (permissions process).

(** The commands of one state that run as the caller. *)
Definition collect_state_command (process : Process) (closure : ProcessDependencyClosure) (state_path : string)
    (by_role : btree string_set) (operation : ProcessStateOperation) : compiling (btree string_set) :=
  match operation with
  | OpCommand command =>
      collect_caller_command_session_variables process closure (command_name command) (command_run_as command) state_path by_role
  | OpForEach (EachCommand _ command _) =>
      collect_caller_command_session_variables process closure (activity_name command) (activity_run_as command) state_path by_role
  | _ => Ok by_role
  end.

Fixpoint collect_states (process : Process) (closure : ProcessDependencyClosure) (path : string) (index : nat)
    (s : string_set * btree string_set) (l : list ProcessState) : compiling (string_set * btree string_set) :=
  match l with
  | [] => Ok s
  | state :: l =>
      let ambient := collect_state (operation state) s.1 in
      by_role ← collect_state_command process closure (index_path path index) s.2 (operation state);
      collect_states process closure path (S index) (ambient, by_role) l
  end.

Definition idempotency_variables (idempotency : ProcessIdempotency) : list string :=
  flat_map (fun value => match value with
    | IdSessionVariable session_variable => [to_ascii_lowercase session_variable]
    | IdInput _ => []
    end) (idempotency_key idempotency :: idempotency_scope idempotency).

(** What is read before the states are. *)
Definition collect_header (process : Process) : string_set :=
  let ambient := match owner process with Some owner => collect_value_session_variables (capture owner) [] | None => [] end in
  match idempotency process with Some idempotency => set_extend ambient (idempotency_variables idempotency) | None => ambient end.

Definition collect_caller_session_variables (process : Process) (closure : ProcessDependencyClosure) (tenant : option string)
    (path : string) : compiling (btree string_set) :=
  let by_role := bt_collect (map (fun permission => (role permission, [])) (permissions process)) in
  let by_role := match tenant with
                 | Some tenant => map (fun rv => (rv.1, set_insert rv.2 tenant)) by_role
                 | None => by_role
                 end in
  by_role ← fold_result collect_owner_variable by_role (permissions process);
  '(ambient, by_role) ← collect_states process closure path 0 (collect_header process, by_role) (states process);
  Ok (map (fun rv => (rv.1, set_extend rv.2 (map fst ambient))) by_role).

Section Compile.
Context {serde : Serde} {digest : Digest} {material : ProcessMaterial} {dependencies : ProcessDependencyCatalog}.

(** ** One process *)

(** What the loop over the topological order fills. *)
Record CompileProgress := {
  progress_types : btree ValueContractCatalog;
  progress_states : btree CompiledProcessState;
  progress_closure : ProcessDependencyClosure;
}.

Definition state_context (input : ValueContractCatalog) (graph : ValidatedGraph) (state_types_ : btree ValueContractCatalog) (index : nat) :
    option CompileContext :=
  ancestors ← ancestors graph !! index;
  definite ← definite_ancestors graph !! index;
  available ← available_outputs graph !! index;
  Some {| context_input := input; state_types := state_types_; context_ancestors := ancestors; context_definite := definite;
          context_available := available; context_indices := state_indices graph; context_item := None |}.

Definition compile_indexed (process : Process) (signals : btree CompiledProcessSignal) (input : ValueContractCatalog)
    (graph : ValidatedGraph) (base : string) (s : CompileProgress) (index : nat) : compiling CompileProgress :=
  state ← expect (states process !! index);
  c ← expect (state_context input graph (progress_types s) index);
  '(compiled, closure) ← lift (compile_state process signals state c (progress_closure s) (state_path base index));
  Ok {| progress_types := bt_insert (progress_types s) (id state) (compiled_output compiled);
        progress_states := bt_insert (progress_states s) (id state) compiled; progress_closure := closure |}.

Definition tenant_variable_of (metadata : Metadata) (process : Process) : option string :=
  match tenancy metadata with
  | Some tenancy => if String.eqb (tenancy_source tenancy) (source process) then Some (variable_key tenancy) else None
  | None => None
  end.

Definition compile_process (metadata : Metadata) (process_index : nat) (process : Process) : compiling CompiledProcessDefinition :=
  let base := index_path "processes" process_index in
  _ ← lift (validate_identity metadata process base);
  input ← lift (compile_fields (input process) (base +:+ ".input"));
  output ← lift (compile_fields (output process) (base +:+ ".output"));
  _ ← lift (validate_process_roles process base);
  _ ← lift (validate_owner_and_idempotency process input base);
  signals ← lift (compile_signals process base);
  graph ← lift_option (validate_graph process base);
  '(key, closure) ← lift (validate_start process input empty_closure base);
  s ← fold_result (compile_indexed process signals input graph base)
        {| progress_types := []; progress_states := []; progress_closure := closure |} (topological_order graph);
  let tenant := tenant_variable_of metadata process in
  session_variables ← collect_caller_session_variables process (progress_closure s) tenant (base +:+ ".states");
  fingerprint ← lift (definition_fingerprint process input output signals);
  revision ← lift (revision_fingerprint fingerprint (progress_closure s));
  Ok {| definition_source := source process; definition_name := name process; definition_version := version process;
        definition := process; definition_input := input; definition_output := output; process_key := key;
        definition_signals := signals; definition_states := progress_states s; caller_session_variables := session_variables;
        tenant_variable := tenant; definition_dependencies := progress_closure s; definition_fingerprint_ := fingerprint;
        revision_fingerprint_ := revision |}.

(** ** Catalogs *)

Abbreviation CompiledSourceProcessCatalog := (btree CompiledProcessDefinition).
Abbreviation CompiledProcessCatalog := (btree CompiledSourceProcessCatalog).

Definition catalog_len (catalog : CompiledProcessCatalog) : nat := list_sum (map (fun source => List.length source.2) catalog).

(** [entry(..).or_default()] and the insertion of one process. *)
Definition add_process (process_index : nat) (process : Process) (compiled : CompiledProcessDefinition)
    (source_catalog : CompiledSourceProcessCatalog) : compiling CompiledSourceProcessCatalog :=
  if bt_contains source_catalog (name process) then
    lift (invalid (index_path "processes" process_index +:+ ".name")
      ("process `" +:+ name process +:+ "` is declared more than once in source `" +:+ source process +:+ "`"))
  else Ok (bt_insert source_catalog (name process) compiled).

Fixpoint compile_processes (metadata : Metadata) (process_index : nat) (catalog : CompiledProcessCatalog) (l : list Process) :
    compiling CompiledProcessCatalog :=
  match l with
  | [] => Ok catalog
  | process :: l =>
      compiled ← compile_process metadata process_index process;
      source_catalog ← add_process process_index process compiled (default [] (bt_get catalog (source process)));
      compile_processes metadata (S process_index) (bt_insert catalog (source process) source_catalog) l
  end.

Definition compile_process_catalog (metadata : Metadata) : compiling CompiledProcessCatalog :=
  compile_processes metadata 0 [] (processes metadata).

Fixpoint compile_source_processes (metadata : Metadata) (source_name : string) (process_index : nat)
    (compiled : CompiledSourceProcessCatalog) (l : list Process) : compiling CompiledSourceProcessCatalog :=
  match l with
  | [] => Ok compiled
  | process :: l =>
      if negb (String.eqb (source process) source_name) then
        compile_source_processes metadata source_name (S process_index) compiled l
      else
        definition ← compile_process metadata process_index process;
        compiled ← add_process process_index process definition compiled;
        compile_source_processes metadata source_name (S process_index) compiled l
  end.
End Compile.

Definition compile_process_source_catalog {serde : Serde} {digest : Digest} {material : ProcessMaterial} {connectors : ProcessConnectorCatalog}
    (metadata : Metadata) (source_name : string) (commands : btree ProcessCommandDescriptor) (rules : RuleCatalog) :
    compiling (btree CompiledProcessDefinition) :=
  source_ ← ok_or (Failed (validation "processes" ("process source `" +:+ source_name +:+ "` does not exist")))
              (List.find (fun source_ => String.eqb (source_metadata_name source_) source_name) (sources metadata));
  if negb (bool_decide (kind source_ = Postgres)) then
    lift (invalid "processes" ("process source `" +:+ source_name +:+ "` requires a Postgres source"))
  else
    compile_source_processes (dependencies := ServerProcessDependencies metadata [(source_name, commands)] rules)
      metadata source_name 0 [] (processes metadata).

(** ** Effect contracts *)

Inductive ProcessStartPolicy : Type := Enabled | RejectRetired.

Record ProcessSignalEffectContract := {
  effect_signal_name : string;
  contract_revision : string;
  effect_correlation : ValueContractCatalog;
  effect_payload : ValueContractCatalog;
  compatible_revisions : string_set;
}.

Record ProcessEffectContract := {
  effect_process_name : string;
  current_revision : string;
  start_policy : ProcessStartPolicy;
  start_input_contract : ValueContractCatalog;
  effect_process_key : option TypeRef;
  effect_session_variables : btree string_set;
  effect_signals : btree ProcessSignalEffectContract;
}.

Definition signal_effect_contract (process : CompiledProcessDefinition) (signal : string * CompiledProcessSignal) :
    string * ProcessSignalEffectContract :=
  (signal.1, {| effect_signal_name := signal.1; contract_revision := revision_fingerprint_ process;
                effect_correlation := correlation signal.2; effect_payload := payload signal.2;
                compatible_revisions := [(revision_fingerprint_ process, tt)] |}).

Definition process_effect_contract (process_name : string) (process : CompiledProcessDefinition) : ProcessEffectContract :=
  {| effect_process_name := process_name; current_revision := revision_fingerprint_ process;
     start_policy := match lifecycle (definition process) with Active => Enabled | Retired => RejectRetired end;
     start_input_contract := definition_input process; effect_process_key := process_key process;
     effect_session_variables := caller_session_variables process;
     effect_signals := bt_collect (map (signal_effect_contract process) (definition_signals process)) |}.

Definition source_effect_contracts (source_name : string) (source_ : btree CompiledProcessDefinition) :
    result PlanError (btree ProcessEffectContract) :=
  fold_result (fun contracts (np : string * CompiledProcessDefinition) =>
    if bt_contains contracts np.1 then
      invalid "processes" ("process effect contract `" +:+ source_name +:+ "." +:+ np.1 +:+ "` is duplicated")
    else Ok (bt_insert contracts np.1 (process_effect_contract np.1 np.2))) [] source_.

Definition build_process_effect_contract_catalog (processes : btree (btree CompiledProcessDefinition)) :
    result PlanError (btree (btree ProcessEffectContract)) :=
  fold_result (fun sources (ns : string * btree CompiledProcessDefinition) =>
    contracts ← source_effect_contracts ns.1 ns.2; Ok (bt_insert sources ns.1 contracts)) [] processes.
