(* ===== verification/ProcessSession.v ===== *)
(** * The session variables a process needs

    What [collect_caller_session_variables] collects, stated on the definition:
    for each role, the variables that its commands require and that any value
    of the process reads, with the owner's and the tenant's. *)
From stdpp Require Import gmap.
From S2P Require Import Prelude Json KeyedMap ProcessSyntax ProcessActivity ProcessDependencies ProcessDefinition ProcessStates ProcessCompile.
Set Warnings "-register-all".

(** ** Sets of names *)

Definition member (x : string) (s : string_set) : Prop := In x (map fst s).

Lemma member_insert s y x : member x (set_insert s y) <-> x = y \/ member x s.
Proof. apply bt_insert_keys. Qed.

Lemma member_extend l : forall s x, member x (set_extend s l) <-> In x l \/ member x s.
Proof.
  induction l as [|y l IH]; intros s x; [cbn; tauto|]. change (set_extend s (y :: l)) with (set_extend (set_insert s y) l).
  rewrite IH, member_insert. cbn. intuition (subst; auto).
Qed.

(** ** What values read *)

Fixpoint reads (v : ProcessValue) : list string :=
  match v with
  | PSessionVariable session_variable => [to_ascii_lowercase session_variable]
  | PBoundedConcat inputs _ _ => flat_map reads inputs
  | PBoundedFlatten from _ _ _ _ => reads from
  | _ => []
  end.

Definition deadline_values (deadline : ProcessDeadline) : list ProcessValue :=
  match deadline with DeadlineValue value => [value] | DeadlineDuration _ => [] end.

Definition guard_values (guard : option ProcessWebhookGuard) : list ProcessValue :=
  match guard with
  | Some guard => flat_map (fun nb => match nb.2 with GuardProcess value => [value] | GuardEvent _ => [] end) (guard_with guard)
  | None => []
  end.

(** All the values of a state. *)
Definition operation_values (operation : ProcessStateOperation) : list ProcessValue :=
  match operation with
  | OpCommand command => map snd (command_arguments command)
  | OpRequest request => map snd (request_input request)
  | OpWhen w => map snd (when_input w) ++ flat_map (fun case => map snd (case_with case)) (when_cases w)
  | OpWait (WaitSignal wait) => map snd (signal_correlate wait) ++ deadline_values (signal_deadline wait)
  | OpWait (WaitWebhook wait) =>
      map snd (webhook_correlate wait) ++ guard_values (webhook_guard wait) ++ deadline_values (webhook_deadline wait)
  | OpWait (WaitTimer wait) => map snd (timer_with wait)
  | OpForEach (EachCommand each command _) => each_input each :: map snd (activity_arguments command)
  | OpForEach (EachRequest each request _) => each_input each :: map snd (activity_input request)
  | OpOutput values => map snd values
  | OpFail _ _ => []
  end.

(** The command a state runs as the caller. *)
Definition caller_command (operation : ProcessStateOperation) : option string :=
  match operation with
  | OpCommand command => if String.eqb (command_run_as command) "caller" then Some (command_name command) else None
  | OpForEach (EachCommand _ command _) => if String.eqb (activity_run_as command) "caller" then Some (activity_name command) else None
  | _ => None
  end.

(** A collector adds exactly the names of a list. *)
Definition adds (f : string_set -> string_set) (l : list string) : Prop := forall out x, member x (f out) <-> In x l \/ member x out.

Lemma adds_nil : adds (fun out => out) [].
Proof. intros out x. cbn. tauto. Qed.

Lemma adds_compose f g l k : adds f l -> adds g k -> adds (fun out => g (f out)) (l ++ k).
Proof. unfold adds. intros Hf Hg out x. rewrite Hg, Hf, in_app_iff. tauto. Qed.

Lemma adds_fold {A} (f : A -> string_set -> string_set) (r : A -> list string) l :
  (forall a, In a l -> adds (f a) (r a)) -> adds (fun out => fold_left (fun out a => f a out) l out) (flat_map r l).
Proof.
  unfold adds. intros Hf. induction l as [|a l IH]; [apply adds_nil|]. intros out x. cbn. specialize (IH (fun b Hb => Hf b (or_intror Hb)) (f a out) x).
  cbn in IH. rewrite IH, (Hf a (or_introl eq_refl)), in_app_iff. tauto.
Qed.

Lemma value_adds v : adds (collect_value_session_variables v) (reads v).
Proof.
  induction v as [v Hleaf|inputs ml mi IH|from field project ml mi IH] using ProcessValue_ind'.
  - destruct v; try done; try apply adds_nil. intros out x. cbn [collect_value_session_variables reads].
    rewrite member_insert. cbn. intuition auto.
  - cbn [reads]. intros out x. rewrite List.Forall_forall in IH. pose proof (adds_fold collect_value_session_variables reads inputs IH out x) as H. rewrite <-H.
    cbn [collect_value_session_variables]. clear IH H. revert out. induction inputs as [|v inputs IH]; intros out; [done|]. apply IH.
  - exact IH.
Qed.

Lemma value_map_adds values : adds (collect_value_map_session_variables values) (flat_map reads (map snd values)).
Proof.
  rewrite flat_map_concat_map, map_map, <-flat_map_concat_map.
  apply (adds_fold (fun nv => collect_value_session_variables nv.2) (fun nv => reads nv.2)). intros nv _. apply value_adds.
Qed.

Lemma deadline_adds deadline : adds (collect_deadline deadline) (flat_map reads (deadline_values deadline)).
Proof. destruct deadline; cbn; [rewrite app_nil_r; apply value_adds|apply adds_nil]. Qed.

Lemma guard_adds guard : adds (collect_guard guard) (flat_map reads (guard_values guard)).
Proof.
  destruct guard as [g|]; [|apply adds_nil]. cbn [collect_guard guard_values].
  assert (Hl : forall l, flat_map reads (flat_map (fun nb : string * ProcessWebhookGuardValue => match nb.2 with GuardProcess value => [value] | GuardEvent _ => [] end) l)
    = flat_map (fun nb => match nb.2 with GuardProcess value => reads value | GuardEvent _ => [] end) l).
  { induction l as [|[n [|v]] l IH]; [done|exact IH|]. cbn. by rewrite IH. }
  rewrite Hl. apply (adds_fold (fun nb out => match nb.2 with GuardProcess value => collect_value_session_variables value out | GuardEvent _ => out end)).
  intros [n [|v]] _; [apply adds_nil|apply value_adds].
Qed.

Lemma state_adds operation : adds (collect_state operation) (flat_map reads (operation_values operation)).
Proof.
  destruct operation as [command|request|w|[wait|wait|wait]|[each command next|each request next]|values|]; cbn [collect_state operation_values];
    rewrite ?flat_map_app; try apply value_map_adds; try apply adds_nil.
  - apply (adds_compose (collect_value_map_session_variables (when_input w))); [apply value_map_adds|].
    assert (Hl : forall l, flat_map reads (flat_map (fun case => map snd (case_with case)) l) = flat_map (fun case => flat_map reads (map snd (case_with case))) l).
    { induction l as [|case l IH]; [done|]. cbn. by rewrite flat_map_app, IH. }
    rewrite Hl. apply (adds_fold (fun case => collect_value_map_session_variables (case_with case))). intros case _. apply value_map_adds.
  - apply (adds_compose (collect_value_map_session_variables (signal_correlate wait)) (collect_deadline (signal_deadline wait)));
      [apply value_map_adds|apply deadline_adds].
  - apply (adds_compose (collect_value_map_session_variables (webhook_correlate wait))
      (fun out => collect_deadline (webhook_deadline wait) (collect_guard (webhook_guard wait) out))); [apply value_map_adds|].
    apply (adds_compose (collect_guard (webhook_guard wait)) (collect_deadline (webhook_deadline wait))); [apply guard_adds|apply deadline_adds].
  - apply (adds_compose (collect_value_session_variables (each_input each)) (collect_value_map_session_variables (activity_arguments command)));
      [apply value_adds|apply value_map_adds].
  - apply (adds_compose (collect_value_session_variables (each_input each)) (collect_value_map_session_variables (activity_input request)));
      [apply value_adds|apply value_map_adds].
Qed.

(** ** What is read before the states *)

Definition header_reads (process : Process) : list string :=
  match owner process with Some owner => reads (capture owner) | None => [] end
  ++ match idempotency process with Some idempotency => idempotency_variables idempotency | None => [] end.

Lemma header_member process x : member x (collect_header process) <-> In x (header_reads process).
Proof.
  unfold collect_header, header_reads. rewrite in_app_iff.
  assert (Ho : member x (match owner process with Some owner => collect_value_session_variables (capture owner) [] | None => [] end)
    <-> In x (match owner process with Some owner => reads (capture owner) | None => [] end)).
  { destruct (owner process) as [o|]; [|done]. pose proof (value_adds (capture o) [] x) as H. rewrite H. unfold member. cbn. tauto. }
  destruct (idempotency process) as [i|]; [rewrite member_extend|]; rewrite Ho; cbn; tauto.
Qed.

(** Every variable any value of the process reads. *)
Definition process_reads (process : Process) : list string :=
  header_reads process ++ flat_map (fun state => flat_map reads (operation_values (operation state))) (states process).

(** ** Roles *)

Abbreviation by_roles := (btree string_set).

Definition has_variable (m : by_roles) (role x : string) : Prop := exists s, bt_get m role = Some s /\ member x s.
Definition has_role (m : by_roles) (role : string) : Prop := exists s, bt_get m role = Some s.

(** One step gives some roles more variables, and fails for no role of the
    map. *)
Definition widens (step : by_roles -> compiling by_roles) (gives : string -> string -> Prop) (roles : list string) : Prop :=
  forall m, (forall role, In role roles -> has_role m role) ->
  exists m', step m = Ok m' /\ (forall role, has_role m' role <-> has_role m role)
    /\ forall role x, has_variable m' role x <-> has_variable m role x \/ has_role m role /\ gives role x.

Lemma widens_nothing roles : widens (fun m => Ok m) (fun _ _ => False) roles.
Proof. intros m _. exists m. split; [done|]. split; [done|]. intros. tauto. Qed.

Lemma widens_bind f g p q roles :
  widens f p roles -> widens g q roles -> widens (fun m => f m ≫= g) (fun role x => p role x \/ q role x) roles.
Proof.
  intros Hf Hg m Hm. destruct (Hf m Hm) as (m1 & -> & Hr1 & Hv1). destruct (Hg m1) as (m2 & Hm2 & Hr2 & Hv2).
  { intros role Hin. apply Hr1. auto. }
  exists m2. split; [done|]. split; [intros; by rewrite Hr2|]. intros role x. rewrite Hv2, Hv1, Hr1. tauto.
Qed.

Lemma widens_fold {A} (f : by_roles -> A -> compiling by_roles) (p : A -> string -> string -> Prop) roles l :
  (forall a, In a l -> widens (fun m => f m a) (p a) roles) ->
  widens (fun m => fold_result f m l) (fun role x => exists a, In a l /\ p a role x) roles.
Proof.
  intros Hf. induction l as [|a l IH].
  - intros m _. exists m. split; [done|]. split; [done|]. intros role x. split; [by left|]. by intros [?|(_ & ? & [] & _)].
  - intros m Hm. destruct (widens_bind (fun m => f m a) (fun m => fold_result f m l) _ _ roles (Hf a (or_introl eq_refl)) (IH (fun b Hb => Hf b (or_intror Hb))) m Hm)
      as (m' & Hm' & Hr & Hv). exists m'. split; [exact Hm'|]. split; [done|]. intros role x. rewrite Hv. split.
    + intros [?|[? [?|(b & ? & ?)]]]; [by left|right; eauto using in_eq..|right]. split; [done|]. exists b. split; [by right|done].
    + intros [?|[? (b & [<-|?] & ?)]]; [by left|right; tauto|right]. split; [done|]. right. eauto.
Qed.

Lemma extend_role_widens role l roles :
  In role roles -> widens (fun m => extend_role m role l) (fun role' x => role' = role /\ In x l) roles.
Proof.
  intros Hin m Hm. destruct (Hm role Hin) as [s Hs]. unfold extend_role. rewrite Hs. cbn [expect ok_or mbind result_bind].
  eexists. split; [done|]. unfold has_role, has_variable. split.
  - intros role'. rewrite bt_insert_get. destruct (String.eqb_spec role' role) as [->|]; [|done]. rewrite Hs. split; eauto.
  - intros role' x. rewrite bt_insert_get. destruct (String.eqb_spec role' role) as [->|Hne].
    + split.
      * intros (s' & [= <-] & [?|?]%member_extend); [right; eauto|left; eauto].
      * intros [(s' & Hs' & Hx)|[_ [_ ?]]]; eexists; (split; [done|]); apply member_extend; [right|by left]. rewrite Hs in Hs'. by injection Hs' as ->.
    + split; [by left|]. intros [?|[_ [? _]]]; done.
Qed.

Definition process_roles (process : Process) : list string := map role (permissions process).

(** What the commands of a state require of a role that calls them. *)
Definition command_requires (process : Process) (closure : ProcessDependencyClosure) (operation : ProcessStateOperation) (role x : string) : Prop :=
  exists name descriptor, caller_command operation = Some name
    /\ km_get (commands closure) (source process, name) = Some descriptor
    /\ In role (process_roles process) /\ In x (session_variables_of descriptor role).

(** The caller commands of a state are pinned. *)
Definition command_pinned (process : Process) (closure : ProcessDependencyClosure) (operation : ProcessStateOperation) : Prop :=
  forall name, caller_command operation = Some name -> exists descriptor, km_get (commands closure) (source process, name) = Some descriptor.

Lemma caller_command_widens process closure name run_as path :
  (String.eqb run_as "caller" = true -> exists descriptor, km_get (commands closure) (source process, name) = Some descriptor) ->
  widens (collect_caller_command_session_variables process closure name run_as path)
    (fun role x => exists descriptor, String.eqb run_as "caller" = true /\ km_get (commands closure) (source process, name) = Some descriptor
      /\ In role (process_roles process) /\ In x (session_variables_of descriptor role)) (process_roles process).
Proof.
  unfold collect_caller_command_session_variables. intros Hpin m Hm. destruct (String.eqb run_as "caller"); cbn [negb].
  - destruct (Hpin eq_refl) as [d Hd]. setoid_rewrite Hd. cbn [ok_or mbind result_bind].
    destruct (widens_fold (fun by_role permission => extend_role by_role (role permission) (session_variables_of d (role permission)))
      (fun permission r x => r = role permission /\ In x (session_variables_of d (role permission))) (process_roles process) (permissions process)) with (m := m)
      as (m' & Hm' & Hr & Hv); [|done|].
    + intros permission Hin. apply extend_role_widens. by apply in_map.
    + exists m'. split; [exact Hm'|]. split; [done|]. intros r x. rewrite Hv. split; (intros [?|[Hr' H]]; [by left|right; split; [done|]]).
      * destruct H as (permission & Hin & -> & Hx). exists d. split; [done|]. split; [done|]. split; [by apply in_map|done].
      * destruct H as (d' & _ & [= <-] & Hin & Hx). apply in_map_iff in Hin as (permission & <- & Hin). eauto.
  - destruct (widens_nothing (process_roles process) m Hm) as (m' & Hm' & Hr & Hv). exists m'. split; [exact Hm'|]. split; [done|].
    intros r x. rewrite Hv. split; (intros [?|[_ H]]; [by left|]); [done|by destruct H as (d & [=] & _)].
Qed.

Lemma state_command_widens process closure path operation :
  command_pinned process closure operation ->
  widens (fun m => collect_state_command process closure path m operation) (command_requires process closure operation) (process_roles process).
Proof.
  intros Hpin.
  assert (Hnone : forall m, (forall role, In role (process_roles process) -> has_role m role) ->
    caller_command operation = None -> exists m', (Ok m : compiling by_roles) = Ok m' /\ (forall role, has_role m' role <-> has_role m role)
    /\ forall role x, has_variable m' role x <-> has_variable m role x \/ has_role m role /\ command_requires process closure operation role x).
  { intros m _ Hc. exists m. split; [done|]. split; [done|]. intros role x. split; [by left|]. intros [?|(_ & name & d & Hn & _)]; [done|congruence]. }
  assert (Hsome : forall name run_as, caller_command operation = (if String.eqb run_as "caller" then Some name else None) ->
    widens (collect_caller_command_session_variables process closure name run_as path) (command_requires process closure operation) (process_roles process)).
  { intros name run_as Hc m Hm. destruct (caller_command_widens process closure name run_as path) with (m := m) as (m' & Hm' & Hr & Hv); [|done|].
    - intros Hrun. apply Hpin. by rewrite Hc, Hrun.
    - exists m'. split; [done|]. split; [done|]. intros role x. rewrite Hv. unfold command_requires. rewrite Hc.
      split; (intros [?|[Hro H]]; [by left|right; split; [done|]]).
      + destruct H as (d & Hrun & H). rewrite Hrun. eauto.
      + destruct H as (name' & d & Hn & H). destruct (String.eqb run_as "caller"); [|done]. injection Hn as <-. eauto. }
  destruct operation as [command| | | |[each command next|each request next]| |]; try (intros m Hm; by apply Hnone); by apply Hsome.
Qed.

Lemma states_collect process closure path l : forall index ambient,
  (forall state, In state l -> command_pinned process closure (operation state)) ->
  forall m, (forall role, In role (process_roles process) -> has_role m role) ->
  exists ambient' m', collect_states process closure path index (ambient, m) l = Ok (ambient', m')
    /\ (forall x, member x ambient' <-> In x (flat_map (fun state => flat_map reads (operation_values (operation state))) l) \/ member x ambient)
    /\ (forall role, has_role m' role <-> has_role m role)
    /\ forall role x, has_variable m' role x
         <-> has_variable m role x \/ has_role m role /\ exists state, In state l /\ command_requires process closure (operation state) role x.
Proof.
  induction l as [|state l IH]; intros index ambient Hpin m Hm; cbn [collect_states].
  - exists ambient, m. split; [done|]. split; [cbn; tauto|]. split; [done|]. intros role x. split; [by left|]. by intros [?|(_ & ? & [] & _)].
  - cbn [fst snd]. destruct (state_command_widens process closure (index_path path index) (operation state) (Hpin state (or_introl eq_refl)) m Hm)
      as (m1 & -> & Hr1 & Hv1). cbn [mbind result_bind].
    destruct (IH (S index) (collect_state (operation state) ambient) (fun st Hin => Hpin st (or_intror Hin)) m1) as (ambient' & m' & He & Ha & Hr & Hv).
    { intros role Hin. apply Hr1. auto. }
    exists ambient', m'. split; [exact He|]. split; [|split].
    + intros x. rewrite Ha. pose proof (state_adds (operation state) ambient x) as Hs. rewrite Hs. cbn [flat_map]. rewrite in_app_iff. tauto.
    + intros role. by rewrite Hr.
    + intros role x. rewrite Hv, Hv1, Hr1. split.
      * intros [[?|[? ?]]|[? (st & ? & ?)]]; [by left|right; split; [done|]; exists state; split; [by left|done]|right; split; [done|]; exists st; split; [by right|done]].
      * intros [?|[? (st & [<-|?] & ?)]]; [by left; left|left; right; tauto|right; eauto].
Qed.

(** ** The collected variables *)

(** The variables a role must bring. *)
Definition role_needs (process : Process) (closure : ProcessDependencyClosure) (tenant : option string) (role_ x : string) : Prop :=
  tenant = Some x
  \/ (exists permission name, In permission (permissions process) /\ role permission = role_
      /\ owner_session_variable permission = Some name /\ x = to_ascii_lowercase name)
  \/ (exists state, In state (states process) /\ command_requires process closure (operation state) role_ x)
  \/ In x (process_reads process).

Lemma tenant_roles (m : by_roles) (tenant : option string) role x :
  let m' := match tenant with Some tenant => map (fun rv => (rv.1, set_insert rv.2 tenant)) m | None => m end in
  (has_role m' role <-> has_role m role) /\ (has_variable m' role x <-> has_variable m role x \/ has_role m role /\ tenant = Some x).
Proof.
  cbv zeta. unfold has_role, has_variable. destruct tenant as [t|].
  - rewrite (bt_get_map (fun rv => set_insert rv.2 t)). destruct (bt_get m role) as [s|]; cbn.
    + split; [split; intros _; eauto|]. split.
      * intros (s' & [= <-] & [->|?]%member_insert); [right; eauto|left; eauto].
      * intros [(s' & [= <-] & ?)|[_ [= <-]]]; (eexists; split; [done|]); apply member_insert; auto.
    + split; [split; by intros [? ?]|]. split; [by intros (? & ? & _)|]. by intros [(? & ? & _)|[[? ?] _]].
  - split; [done|]. split; [by left|]. by intros [?|[_ ?]].
Qed.

Lemma initial_roles process role x :
  let m := bt_collect (map (fun permission => (ProcessSyntax.role permission, [] : string_set)) (permissions process)) in
  (has_role m role <-> In role (process_roles process)) /\ ~ has_variable m role x.
Proof.
  cbv zeta. set (l := map _ _).
  assert (Hc : forall kv, In kv l -> kv.2 = []) by (intros kv (p & <- & _)%in_map_iff; done).
  assert (Hk : In role (map fst l) <-> In role (process_roles process)) by (unfold l, process_roles; by rewrite map_map).
  pose proof (bt_collect_constant [] l role Hc) as Hg. rewrite Hk in Hg. unfold has_role, has_variable.
  assert (Hall : Forall (fun kv : string * string_set => kv.2 = []) (bt_collect l)) by (apply bt_collect_Forall; by apply List.Forall_forall).
  split.
  - rewrite <-Hg. split; [intros [s Hs]|eauto]. pose proof (bt_get_Forall _ _ _ _ Hall Hs) as He. cbn in He. by subst s.
  - intros (s & Hs & Hx). pose proof (bt_get_Forall _ _ _ _ Hall Hs) as He. cbn in He. by subst s.
Qed.

(** When the caller commands of all states are pinned the collection succeeds:
    the roles are those of the permissions, and each must bring exactly what it
    needs. *)
Lemma session_variables_collected process closure tenant path :
  (forall state, In state (states process) -> command_pinned process closure (operation state)) ->
  exists m, collect_caller_session_variables process closure tenant path = Ok m
    /\ (forall role, has_role m role <-> In role (process_roles process))
    /\ forall role x, has_variable m role x <-> In role (process_roles process) /\ role_needs process closure tenant role x.
Proof.
  intros Hpin. unfold collect_caller_session_variables. cbv zeta.
  set (m0 := bt_collect _). set (m1 := match tenant with Some t => map (fun rv : string * string_set => (rv.1, set_insert rv.2 t)) m0 | None => m0 end).
  assert (H1 : forall r x, (has_role m1 r <-> In r (process_roles process)) /\ (has_variable m1 r x <-> In r (process_roles process) /\ tenant = Some x)).
  { intros r x. pose proof (initial_roles process r x : (has_role m0 r <-> _) /\ ~ has_variable m0 r x) as [Hr0 Hv0].
    pose proof (tenant_roles m0 tenant r x : (has_role m1 r <-> _) /\ (has_variable m1 r x <-> _)) as [Hr Hv].
    rewrite Hr, Hv, Hr0. split; [done|]. tauto. }
  assert (Hroles1 : forall r, In r (process_roles process) -> has_role m1 r) by (intros r; apply (H1 r "")).
  destruct (widens_fold collect_owner_variable (fun permission r x => exists name, r = role permission /\ owner_session_variable permission = Some name /\ x = to_ascii_lowercase name)
    (process_roles process) (permissions process)) with (m := m1) as (m2 & -> & Hr2 & Hv2); [|done|].
  { intros permission Hin m Hm. unfold collect_owner_variable. destruct (owner_session_variable permission) as [name|].
    - destruct (extend_role_widens (role permission) [to_ascii_lowercase name] (process_roles process) (in_map role _ _ Hin) m Hm) as (m' & Hm' & Hr & Hv).
      exists m'. split; [done|]. split; [done|]. intros r x. rewrite Hv. cbn.
      split; (intros [?|[? H]]; [by left|right; split; [done|]]); [destruct H as [-> [<-|[]]]; eauto|destruct H as (? & -> & [= <-] & ->); auto].
    - exists m. split; [done|]. split; [done|]. intros r x. split; [by left|]. intros [?|(_ & ? & _ & ? & _)]; done. }
  cbn [mbind result_bind].
  destruct (states_collect process closure path (states process) 0 (collect_header process) Hpin m2) as (ambient & m3 & -> & Ha & Hr3 & Hv3).
  { intros r Hin. by apply Hr2, Hroles1. }
  cbn [mbind result_bind]. eexists. split; [done|].
  assert (Hlast : forall r, bt_get (map (fun rv : string * string_set => (rv.1, set_extend rv.2 (map fst ambient))) m3) r
    = option_map (fun s => set_extend s (map fst ambient)) (bt_get m3 r)) by (intros r; apply (bt_get_map (fun rv => set_extend rv.2 (map fst ambient)))).
  split.
  - intros r. rewrite <-(proj1 (H1 r "")), <-Hr2, <-Hr3. unfold has_role. rewrite Hlast. destruct (bt_get m3 r); cbn; split; intros [? ?]; try done; eauto.
  - intros r x.
    assert (Hrole : In r (process_roles process) <-> has_role m3 r) by (by rewrite Hr3, Hr2, (proj1 (H1 r ""))).
    transitivity (has_role m3 r /\ (has_variable m3 r x \/ member x ambient)).
    { unfold has_variable, has_role. rewrite Hlast. destruct (bt_get m3 r) as [s|]; cbn.
      - split.
        + intros (s' & [= <-] & [?|?]%member_extend); (split; [eauto|]); [by right|left; eauto].
        + intros [_ [(s' & [= <-] & ?)|?]]; (eexists; split; [done|]); apply member_extend; [by right|by left].
      - split; [by intros (? & ? & _)|by intros [[? ?] _]]. }
    rewrite <-Hrole, Ha, header_member, Hv3, Hv2, (proj2 (H1 r x)), Hr2, (proj1 (H1 r "")). unfold role_needs, process_reads. rewrite in_app_iff.
    split; (intros [Hin H]; split; [done|]).
    + destruct H as [[[[_ ?]|[_ (p & ? & name & -> & ? & ->)]]|[_ ?]]|[?|?]]; [tauto|right; left; eauto 6|tauto|tauto|tauto].
    + destruct H as [?|[(p & name & ? & <- & ? & ->)|[?|[?|?]]]]; [tauto|left; left; right; split; [done|]; eauto 6|tauto|tauto|tauto].
Qed.
