(* ===== verification/ProcessPinned.v ===== *)
(** * What compilation pins

    The contracts that the compiler resolves have no references left, do not
    depend on the path that names them in errors, and the dependency closure
    holds what the catalog gives for its keys; a state only adds to it. *)
From stdpp Require Import gmap.
From S2P Require Import Prelude Json KeyedMap AbiIds RulesSyntax ValueContract ContractValidity ContractSize ProcessSyntax ProcessGraph ProcessTypes ProcessTypesSpec ProcessActivity ProcessInfer ProcessInferSpec ProcessDependencies ProcessFingerprint ProcessDefinition ProcessStates.
Set Warnings "-register-all".

(** ** Results *)

Lemma map_result_pointwise {E A B} (f g : A -> result E B) l l' :
  (forall a b, In a l -> f a = Ok b -> g a = Ok b) -> map_result f l = Ok l' -> map_result g l = Ok l'.
Proof.
  rewrite !map_result_Ok. intros Hfg H. induction H as [|a b l k Hf _ IH]; constructor; [apply Hfg; [by left|done]|].
  apply IH. intros a' b' ?. apply Hfg. by right.
Qed.

(** ** Resolution *)

(** No references, and every map in the order of its keys. *)
Definition tidy (t : TypeRef) : Prop := resolved t /\ ordered t.

#[export] Instance tidy_kept : Kept tidy.
Proof. apply both_kept; [apply resolved_kept|apply ordered_kept]. Qed.

Lemma tidy_object n fields : tidy (TypeRef_new n (Object fields)) <-> bt_wf fields /\ Forall (fun nf => tidy (type_ref nf.2)) fields.
Proof.
  unfold tidy. rewrite resolved_object, ordered_object, !List.Forall_forall. split.
  - intros [[_ Hr] [Hw Ho]]. auto.
  - intros [Hw H]. split; (split; [try done; by apply bt_wf_NoDup|]); intros nf Hin; by destruct (H nf Hin).
Qed.

Lemma tidy_leaf n vt : is_leaf vt = true -> tidy (TypeRef_new n vt).
Proof. by destruct vt. Qed.

Lemma tidy_list e : tidy (list_type e) <-> tidy e.
Proof. done. Qed.

(** The maps of a contract are in order. *)
Definition contract_ordered (c : ValueContractCatalog) : Prop :=
  ordered (catalog_root_object c) /\ Forall (fun no => ordered (TypeRef_new false (Object (object_fields no.2)))) (named_objects c).

Section Resolve.
Variable declared_type : string -> option RuleType.
Hypothesis declared_tidy : forall name t, declared_type name = Some t -> tidy (rule_type_ref t).

Lemma normalize_tidy named fuel :
  Forall (fun no => ordered (TypeRef_new false (Object (object_fields no.2)))) named -> forall t resolving path t',
  ordered t -> normalize_type declared_type named fuel resolving path t = Ok t' -> tidy t'.
Proof using declared_tidy.
  intros Hnamed.
  assert (Hfields : forall f path fields fields' m, ordered (TypeRef_new m (Object fields)) -> normalize_fields f path fields = Ok fields' ->
    (forall nf path t', In nf fields -> ordered (type_ref nf.2) -> f path (type_ref nf.2) = Ok t' -> tidy t') ->
    forall n, tidy (TypeRef_new n (Object fields'))).
  { intros f path fields fields' m [Hwf Hw]%ordered_object Hf%normalize_fields_Ok IH n. rewrite List.Forall_forall in Hw. apply tidy_object. split.
    - unfold bt_wf. replace (map fst fields') with (map fst fields); [done|]. clear -Hf. induction Hf as [|a b l k (Hn & _) _ IH]; [done|]. cbn. by rewrite Hn, IH.
    - apply List.Forall_forall. intros b Hb. destruct (Forall2_In_r _ _ _ _ Hf Hb) as (a & Ha & _ & _ & Ht). eapply IH; eauto. }
  induction fuel as [fuel IHfuel] using lt_wf_ind.
  induction t as [n s|n name values|n fields IH|n e IH|n name] using TypeRef_ind'; intros resolving path t' Hw H.
  - destruct fuel; cbn in H; injection H as <-; by apply tidy_leaf.
  - destruct fuel; cbn in H; injection H as <-; by apply tidy_leaf.
  - rewrite normalize_object in H. apply bind_Ok in H as (fields' & Hf & [= <-]).
    eapply Hfields; [exact Hw|exact Hf|]. intros nf path' t' Hin ?. rewrite List.Forall_forall in IH. by apply (IH nf Hin).
  - rewrite normalize_list in H. apply bind_Ok in H as (e' & He & [= <-]). exact (IH _ _ _ Hw He).
  - rewrite normalize_ref in H. apply bind_Ok in H as (vt & H & [= <-]). destruct (existsb _ _); [done|].
    destruct (bt_get named name) as [object|] eqn:Hg.
    + destruct fuel as [|fuel]; [done|]. apply bind_Ok in H as (fields' & Hf & [= <-]). eapply Hfields; [|exact Hf|].
      * rewrite List.Forall_forall in Hnamed. exact (Hnamed (name, object) (bt_get_In _ _ _ Hg)).
      * intros nf path' t' _ ?. apply (IHfuel fuel); [lia|done].
    + destruct (declared_type name) as [t|] eqn:Ht.
      * injection H as <-. pose proof (declared_tidy name t Ht) as Hr. destruct (rule_type_ref t) as [m vt]. by destruct vt.
      * destruct (String.eqb name "bigint"); [|done]. by injection H as <-.
Qed.

Lemma contract_tidy c path c' :
  contract_ordered c -> normalize_contract declared_type c path = Ok c' -> tidy (catalog_root_object c').
Proof using declared_tidy.
  intros [Ho Hnamed] (fields & Hf & [= <-])%bind_Ok.
  eapply (normalize_tidy (named_objects c) (List.length (named_objects c)) Hnamed (TypeRef_new false (Object (roots c))) [] path); [done|].
  rewrite normalize_object. by rewrite Hf.
Qed.

Lemma denotable_ordered t : denotable t -> ordered t.
Proof using Type. induction t as [n s|n name values|n fields _|n e IH|n name] using TypeRef_ind'; done. Qed.

Lemma text_tidy source path t : type_from_string declared_type source path = Ok t -> tidy t.
Proof using declared_tidy.
  unfold type_from_string. destruct (TypeRef_parse source) as [parsed|] eqn:Hp; [|done]. apply normalize_tidy; [constructor|].
  by eapply denotable_ordered, parse_denotable.
Qed.

(** *** Paths only show in errors *)

Lemma normalize_path named fuel : forall t resolving path path' t',
  normalize_type declared_type named fuel resolving path t = Ok t' -> normalize_type declared_type named fuel resolving path' t = Ok t'.
Proof using Type.
  induction fuel as [fuel IHfuel] using lt_wf_ind.
  induction t as [n s|n name values|n fields IH|n e IH|n name] using TypeRef_ind'; intros resolving path path' t' H.
  - by destruct fuel.
  - by destruct fuel.
  - rewrite normalize_object in *. apply bind_Ok in H as (fields' & Hf & [= <-]).
    rewrite List.Forall_forall in IH. unfold normalize_fields in *. erewrite map_result_pointwise; [done| |exact Hf].
    intros nf b Hin (t & Ht & [= <-])%bind_Ok. by rewrite (IH nf Hin _ _ _ _ Ht).
  - rewrite normalize_list in *. apply bind_Ok in H as (e' & He & [= <-]). by rewrite (IH _ _ _ _ He).
  - rewrite normalize_ref in *. destruct (existsb _ _); [done|]. destruct (bt_get named name) as [object|]; [|by destruct (declared_type name); [|destruct (String.eqb _ _)]].
    destruct fuel as [|fuel]; [done|]. apply bind_Ok in H as (vt & (fields' & Hf & [= <-])%bind_Ok & [= <-]).
    unfold normalize_fields in *. erewrite map_result_pointwise; [done| |exact Hf].
    intros nf b Hin (t & Ht & [= <-])%bind_Ok. assert (Hlt : (fuel < S fuel)%nat) by lia. by rewrite (IHfuel fuel Hlt _ _ _ _ _ Ht).
Qed.

Lemma contract_path c path path' c' :
  normalize_contract declared_type c path = Ok c' -> normalize_contract declared_type c path' = Ok c'.
Proof using Type.
  unfold normalize_contract, normalize_fields. intros (fields & Hf & [= <-])%bind_Ok. erewrite map_result_pointwise; [done| |exact Hf].
  intros nf b Hin (t & Ht & [= <-])%bind_Ok. by rewrite (normalize_path _ _ _ _ _ _ _ Ht).
Qed.
End Resolve.

(** ** Lawful catalogs *)

(** The maps of what a catalog gives are maps, and the events of its webhooks
    are typed without references. *)
Class LawfulDependencies (d : ProcessDependencyCatalog) : Prop := {
  lawful_named :: NamedDependencies d;
  lawful_declared name t : declared_type name = Some t -> tidy (rule_type_ref t);
  lawful_command source name descriptor : command source name = Some descriptor ->
    contract_ordered (arguments descriptor) /\ contract_ordered (command_result descriptor);
  lawful_rule name descriptor : rule name = Some descriptor ->
    tidy (catalog_root_object (contract_from_rule_types (bindings descriptor)));
  lawful_decision name descriptor : decision_table name = Some descriptor ->
    tidy (catalog_root_object (contract_from_rule_types (inputs descriptor)))
    /\ tidy (catalog_root_object (contract_from_rule_types (decision_output descriptor)));
  lawful_operation source instance operation resolved_ : connector_operation source instance operation = Ok (Some resolved_) ->
    contract_ordered (spec_input (as_ref (resolved_operation resolved_))) /\ contract_ordered (spec_output (as_ref (resolved_operation resolved_)));
  lawful_trigger source instance trigger resolved_ identity a c n h r t e y output p s :
    connector_trigger source instance trigger = Ok (Some resolved_) ->
    as_ref (resolved_trigger resolved_) = Webhook identity a c n h r t e y output p s -> tidy (catalog_root_object output);
}.

Section Closure.
Context {dependencies : ProcessDependencyCatalog}.
Variable process : Process.

(** ** Faithful closures *)

(** The descriptor of a command with its contracts resolved. *)
Definition pinned_command (name : string) (d : ProcessCommandDescriptor) : Prop :=
  exists d0 a r, command (source process) name = Some d0
    /\ normalize_contract declared_type (arguments d0) "" = Ok a /\ normalize_contract declared_type (command_result d0) "" = Ok r
    /\ d = with_contracts d0 a r.

Definition pinned_operation (key : string * string * OperationId) (p : PinnedConnectorOperation) : Prop :=
  exists found, connector_operation key.1.1 key.1.2 (InlineId_as_str key.2) = Ok (Some found)
    /\ spec_operation (as_ref (resolved_operation found)) = key.2
    /\ p = {| pinned_source := key.1.1; pinned_instance := key.1.2; pinned_spec := resolved_operation found;
              pinned_deployment := operation_deployment found; serialization_key_input := operation_serialization_key found |}.

Definition pinned_trigger (key : string * string * TriggerId) (p : PinnedConnectorTrigger) : Prop :=
  exists found, connector_trigger key.1.1 key.1.2 (InlineId_as_str key.2) = Ok (Some found)
    /\ p = {| pinned_trigger_source := key.1.1; pinned_trigger_instance := key.1.2; pinned_trigger_spec := resolved_trigger found;
              pinned_trigger_deployment := trigger_deployment found |}.

(** The closure holds what the catalog gives, all of it in the process's
    source. *)
Record faithful (closure : Closure) : Prop := {
  faithful_commands key d : km_get (commands closure) key = Some d -> key.1 = source process /\ pinned_command key.2 d;
  faithful_rules name d : bt_get (rules closure) name = Some d -> rule name = Some d;
  faithful_decisions name d : bt_get (decision_tables closure) name = Some d -> decision_table name = Some d;
  faithful_operations key p : km_get (connector_operations closure) key = Some p -> key.1.1 = source process /\ pinned_operation key p;
  faithful_triggers key p : km_get (connector_triggers closure) key = Some p -> key.1.1 = source process /\ pinned_trigger key p;
}.

Record extends (closure closure' : Closure) : Prop := {
  extends_commands key d : km_get (commands closure) key = Some d -> km_get (commands closure') key = Some d;
  extends_rules name d : bt_get (rules closure) name = Some d -> bt_get (rules closure') name = Some d;
  extends_decisions name d : bt_get (decision_tables closure) name = Some d -> bt_get (decision_tables closure') name = Some d;
  extends_operations key p : km_get (connector_operations closure) key = Some p -> km_get (connector_operations closure') key = Some p;
  extends_triggers key p : km_get (connector_triggers closure) key = Some p -> km_get (connector_triggers closure') key = Some p;
}.

Lemma extends_refl closure : extends closure closure.
Proof using Type. done. Qed.

Lemma extends_trans a b c : extends a b -> extends b c -> extends a c.
Proof using Type. intros [] []. split; auto. Qed.

Lemma faithful_empty : faithful empty_closure.
Proof using Type. by split. Qed.

(** A faithful closure stays faithful and keeps what it has. *)
Definition grows (closure closure' : Closure) : Prop := faithful closure -> faithful closure' /\ extends closure closure'.

Lemma grows_refl closure : grows closure closure.
Proof using Type. intros H. split; [done|apply extends_refl]. Qed.

Lemma grows_trans a b c : grows a b -> grows b c -> grows a c.
Proof using Type. intros Hab Hbc Ha. destruct (Hab Ha) as [Hb E1]. destruct (Hbc Hb) as [Hc E2]. split; [done|by eapply extends_trans]. Qed.

Lemma pinned_command_unique name d d' : pinned_command name d -> pinned_command name d' -> d = d'.
Proof using Type. intros (d0 & a & r & ? & ? & ? & ->) (d1 & a' & r' & ? & ? & ? & ->). congruence. Qed.

Lemma pinned_operation_unique key p p' : pinned_operation key p -> pinned_operation key p' -> p = p'.
Proof using Type. intros (f & ? & ? & ->) (f' & ? & ? & ->). congruence. Qed.

Lemma pinned_trigger_unique key p p' : pinned_trigger key p -> pinned_trigger key p' -> p = p'.
Proof using Type. intros (f & ? & ->) (f' & ? & ->). congruence. Qed.

Lemma km_insert_get {K V} `{Ordered K} (m : keyed K V) k v k' :
  km_get (km_insert m k v) k' = if key_dec k' k then Some v else km_get m k'.
Proof using Type. destruct (key_dec k' k) as [->|]; [apply km_get_insert|by apply km_get_insert_ne]. Qed.

Lemma pin_command_grows closure name d : pinned_command name d -> grows closure (pin_command closure (source process, name) d).
Proof using Type.
  intros Hd [Hc Hr Ht Ho Hg]. split; split; try done; cbn.
  - intros key d'. rewrite km_insert_get. destruct (key_dec _ _) as [->|]; [by intros [= <-]|apply Hc].
  - intros key d' Hk. rewrite km_insert_get. destruct (key_dec _ _) as [->|]; [|done]. f_equal. apply Hc in Hk as [_ Hk]. by eapply pinned_command_unique.
Qed.

Lemma pin_rule_grows closure name d : rule name = Some d -> grows closure (pin_rule closure name d).
Proof using Type.
  intros Hd [Hc Hr Ht Ho Hg]. split; split; try done; cbn.
  - intros n d'. rewrite bt_insert_get. destruct (String.eqb_spec n name) as [->|]; [by intros [= <-]|apply Hr].
  - intros n d' Hk. rewrite bt_insert_get. destruct (String.eqb_spec n name) as [->|]; [|done]. apply Hr in Hk. congruence.
Qed.

Lemma pin_decision_grows closure name d : decision_table name = Some d -> grows closure (pin_decision closure name d).
Proof using Type.
  intros Hd [Hc Hr Ht Ho Hg]. split; split; try done; cbn.
  - intros n d'. rewrite bt_insert_get. destruct (String.eqb_spec n name) as [->|]; [by intros [= <-]|apply Ht].
  - intros n d' Hk. rewrite bt_insert_get. destruct (String.eqb_spec n name) as [->|]; [|done]. apply Ht in Hk. congruence.
Qed.

Lemma pin_trigger_grows closure key p : key.1.1 = source process -> pinned_trigger key p -> grows closure (pin_trigger closure key p).
Proof using Type.
  intros Hs Hp [Hc Hr Ht Ho Hg]. split; split; try done; cbn.
  - intros k p'. rewrite km_insert_get. destruct (key_dec _ _) as [->|]; [by intros [= <-]|apply Hg].
  - intros k p' Hk. rewrite km_insert_get. destruct (key_dec _ _) as [->|]; [|done]. f_equal. apply Hg in Hk as [_ Hk]. by eapply pinned_trigger_unique.
Qed.

(** An operation that is pinned already is the one found again. *)
Lemma pin_operation_grows closure key p path :
  key.1.1 = source process -> pinned_operation key p -> faithful closure ->
  exists closure', pin_connector_operation closure key p path = Ok closure' /\ km_get (connector_operations closure') key = Some p
    /\ faithful closure' /\ extends closure closure'.
Proof using Type.
  intros Hs Hp Hf. pose proof Hf as [Hc Hr Ht Ho Hg]. unfold pin_connector_operation. destruct (km_get (connector_operations closure) key) as [q|] eqn:Hk.
  - destruct (Ho _ _ Hk) as [_ Hq]. rewrite (pinned_operation_unique _ _ _ Hq Hp) in Hk |- *. exists closure.
    rewrite String.eqb_refl. unfold ptr_eq. rewrite Nat.eqb_refl.
    assert (He : forall o, option_string_eqb o o = true) by (intros [?|]; cbn; [apply String.eqb_refl|done]). rewrite He. split; [done|]. split; [done|].
    split; [done|apply extends_refl].
  - exists (pin_operation closure key p). cbn. rewrite km_insert_get. destruct (key_dec key key); [|done]. split; [done|]. split; [done|].
    split; split; try done; cbn.
    + intros k p'. rewrite km_insert_get. destruct (key_dec _ _) as [->|]; [by intros [= <-]|apply Ho].
    + intros k p' Hk'. rewrite km_insert_get. destruct (key_dec _ _) as [->|]; [|done]. congruence.
Qed.
End Closure.
