(* ===== verification/ProcessStatesSpec.v ===== *)
(** * What a compiled state was checked for

    The compilers of the kinds of state, read backwards from their success:
    what they pinned, in which roles a command may run, within which time an
    activity is sent, and against which contract each map of bindings was
    checked. *)
From stdpp Require Import gmap.
From S2P Require Import Prelude Json KeyedMap AbiIds RulesSyntax ValueContract ContractValidity ProcessSyntax ProcessGraph ProcessTypes ProcessTypesSpec ProcessActivity ProcessInfer ProcessInferSpec ProcessDependencies ProcessFingerprint ProcessDefinition ProcessStates ProcessPinned.
Set Warnings "-register-all".

Section States.
Context {dependencies : ProcessDependencyCatalog} {named : NamedDependencies dependencies}.
Variable process : Process.
Variable signals : btree CompiledProcessSignal.

Abbreviation checked c values target := (exists path, validate_binding_map declared_type c values target path = Ok tt).

(** ** Commands *)

(** The command may run in the role: as the caller, every role of the process
    may run it; a fixed role is an explicit one that may, and needs no session
    variables. *)
Definition authorized (d : ProcessCommandDescriptor) (run_as : string) : Prop :=
  if String.eqb run_as "caller" then Forall (fun permission => bt_contains (allowed_roles d) (role permission) = true) (permissions process)
  else run_as <> "" /\ run_as <> "admin" /\ bt_contains (allowed_roles d) run_as = true
       /\ forall variables, bt_get (required_session_variables d) run_as = Some variables -> variables = [].

Lemma validate_run_as_Ok d run_as path : validate_run_as process d run_as path = Ok tt -> authorized d run_as.
Proof using Type.
  unfold validate_run_as, authorized. destruct (String.eqb run_as "caller").
  - intros H%each_result_Ok. eapply List.Forall_impl; [|exact H]. intros permission. cbn. by destruct (bt_contains _ _).
  - destruct (String.eqb_spec run_as ""); [done|]. destruct (String.eqb_spec run_as "admin"); [done|]. cbn [orb].
    destruct (bt_contains (allowed_roles d) run_as); [|done]. cbn [negb]. intros H. split_and!; try done.
    intros variables Hv. rewrite Hv in H. cbn in H. by destruct variables.
Qed.

Lemma resolve_command_Ok source_ name path d : resolve_command source_ name path = Ok d -> command source_ name = Some d.
Proof using Type. unfold resolve_command. intros (d' & Hd%ok_or_Ok & H)%bind_Ok. destruct (_ || _) in H; [done|]. by injection H as ->. Qed.

Lemma compile_command_activity_Ok name run_as values c closure path d closure' :
  compile_command_activity process name run_as values c closure path = Ok (d, closure') ->
  pinned_command process name d /\ closure' = pin_command closure (source process, name) d
  /\ authorized d run_as /\ checked c values (arguments d).
Proof using Type.
  unfold compile_command_activity. intros (d0 & Hd%resolve_command_Ok & ([] & Hrun%validate_run_as_Ok & (a & Ha & (r & Hr & ([] & Hb & [= <- <-])%bind_Ok)%bind_Ok)%bind_Ok)%bind_Ok)%bind_Ok.
  split; [|split; [done|split; [exact Hrun|eauto]]].
  exists d0, a, r. split; [done|]. split; [by eapply contract_path|]. split; [by eapply contract_path|done].
Qed.

Lemma compile_command_role_Ok d run_as path role_ :
  compile_command_role process d run_as path = Ok role_ ->
  match role_ with
  | RoleFixed role => role = run_as /\ run_as <> "caller"
  | RoleCaller _ => run_as = "caller"
  end.
Proof using Type.
  unfold compile_command_role. intros ([] & _ & H)%bind_Ok. destruct (String.eqb_spec run_as "caller"); injection H as <-; done.
Qed.

(** ** Requests *)

(** What a compiled activity promises about the operation it sends. *)
Record request_sound (p : PinnedConnectorOperation) (horizons : btree Z) (a : CompiledProcessRequestActivity) : Prop := {
  sound_operation : spec_operation (as_ref (pinned_spec p)) = compiled_operation a;
  sound_deadline : deadline_ms (as_ref (pinned_spec p)) <= start_to_close_ms a;
  sound_effect :
    match effect (as_ref (pinned_spec p)) with
    | ReadOnly => provider_idempotent a = false /\ at_most_once a = false /\ horizons = []
    | AtMostOnce =>
        provider_idempotent a = false /\ at_most_once a = true /\ horizons = []
        /\ max_attempts (retry a) = 1 /\ retry_on (retry a) = [] /\ is_some (on_ambiguous a) = true
    | ProviderIdempotent steps =>
        provider_idempotent a = true /\ at_most_once a = false
        /\ exists horizon path,
             compile_retry_horizon (retry a) false (schedule_to_start_ms a) (start_to_close_ms a) path = Ok horizon
             /\ Forall (fun s => bt_get horizons (InlineId_as_str (step s)) = Some horizon
                                 /\ horizon + clock_safety_margin_ms s <= minimum_retention_ms s) steps
    end;
}.

Lemma side_effects_Ok horizon path steps : forall horizons horizons',
  fold_result (side_effect_step horizon path) horizons steps = Ok horizons' ->
  (forall name h, bt_get horizons name = Some h -> bt_get horizons' name = Some h \/ h <> horizon /\ bt_get horizons' name = Some horizon)
  /\ Forall (fun s => bt_get horizons' (InlineId_as_str (step s)) = Some horizon
                      /\ horizon + clock_safety_margin_ms s <= minimum_retention_ms s) steps.
Proof using Type.
  induction steps as [|s steps IH]; intros horizons horizons'; cbn [fold_result].
  - intros [= <-]. split; [by left|constructor].
  - destruct (side_effect_step horizon path horizons s) as [horizons1|] eqn:Hs; [|done]. intros [Hkeep Hall]%IH.
    unfold side_effect_step in Hs. apply bind_Ok in Hs as (usable & [-> Hr]%ok_or_Ok%checked_Some & Hs).
    destruct (Z.ltb_spec (minimum_retention_ms s - clock_safety_margin_ms s) horizon); [done|]. injection Hs as <-. split.
    + intros name h Hh. specialize (Hkeep name). rewrite bt_insert_get in Hkeep. destruct (String.eqb name (InlineId_as_str (step s))).
      * destruct (Hkeep horizon eq_refl) as [?|[? _]]; [|done]. destruct (Z.eq_dec h horizon) as [->|]; [by left|by right].
      * by apply Hkeep.
    + constructor; [|done]. split; [|lia]. specialize (Hkeep (InlineId_as_str (step s)) horizon). rewrite bt_insert_get, String.eqb_refl in Hkeep.
      by destruct (Hkeep eq_refl) as [?|[? _]].
Qed.

Lemma at_most_once_Ok effect_ once on_ambiguous_ on_error_ standalone retry_ connector_ operation_ path :
  validate_at_most_once effect_ once on_ambiguous_ on_error_ standalone retry_ connector_ operation_ path = Ok tt ->
  effect_ = once /\ (once = true -> max_attempts retry_ = 1 /\ retry_on retry_ = [] /\ is_some on_ambiguous_ = true).
Proof using Type.
  unfold validate_at_most_once. destruct effect_, once; cbn [andb negb]; rewrite ?andb_true_r, ?andb_false_r; try done.
  - destruct (is_some on_ambiguous_); [|done]. cbn [negb]. destruct (standalone && _); [done|]. destruct (retry_on retry_); [|done]. cbn.
    destruct (Z.eqb_spec (max_attempts retry_) 1); [|done]. done.
  - by destruct (is_some on_ambiguous_).
Qed.

Lemma compile_effect_Ok effect_ key horizon state_id item_key path idempotent horizons :
  compile_effect effect_ key horizon state_id item_key path = Ok (idempotent, horizons) ->
  match effect_ with
  | ReadOnly | AtMostOnce => idempotent = false /\ horizons = []
  | ProviderIdempotent steps =>
      idempotent = true
      /\ Forall (fun s => bt_get horizons (InlineId_as_str (step s)) = Some horizon
                          /\ horizon + clock_safety_margin_ms s <= minimum_retention_ms s) steps
  end.
Proof using Type.
  unfold compile_effect. destruct effect_.
  - destruct (is_some key); [done|]. by intros [= <- <-].
  - intros (k & _ & ([] & _ & (h & Hh%side_effects_Ok & [= <- <-])%bind_Ok)%bind_Ok)%bind_Ok. split; [done|]. apply Hh.
  - destruct (is_some key); [done|]. by intros [= <- <-].
Qed.

Lemma compile_request_Ok connector_ operation_ values key timeout retry_ on_error_ once on_ambiguous_ state_id item_key c closure path
    output horizons a closure' :
  compile_request process connector_ operation_ values key timeout retry_ on_error_ once on_ambiguous_ state_id item_key c closure path
    = Ok (output, horizons, a, closure') ->
  faithful process closure ->
  exists p op target, InlineId_as_str op = operation_ /\ connector a = connector_ /\ compiled_operation a = op
    /\ km_get (connector_operations closure') (source process, connector_, op) = Some p
    /\ faithful process closure' /\ extends closure closure'
    /\ normalize_contract declared_type (spec_input (as_ref (pinned_spec p))) "" = Ok target
    /\ normalize_contract declared_type (spec_output (as_ref (pinned_spec p))) "" = Ok output
    /\ checked c values target /\ request_sound p horizons a.
Proof using Type.
  unfold compile_request. destruct (_ || _); [done|].
  intros (found & Hfound & (resolved_ & ->%ok_or_Ok & H)%bind_Ok)%bind_Ok Hf.
  destruct (connector_operation (source process) connector_ operation_) as [f|] eqn:Hc; [|done]. injection Hfound as ->.
  destruct (String.eqb_spec (InlineId_as_str (spec_operation (as_ref (resolved_operation resolved_)))) operation_) as [Hop|]; [|done]. cbn [negb] in H.
  apply bind_Ok in H as (target & Ht & (out & Ho & ([] & Hb & ([] & _ & ([] & [Heff Honce]%at_most_once_Ok & (sts & _ & (stc & _ & H)%bind_Ok)%bind_Ok)%bind_Ok)%bind_Ok)%bind_Ok)%bind_Ok).
  destruct (Z.ltb_spec stc (deadline_ms (as_ref (resolved_operation resolved_)))); [done|].
  apply bind_Ok in H as (horizon & Hhor & (initial & _ & (maximum & _ & ([idempotent hs] & He%compile_effect_Ok & (closure1 & Hpin & [= <- <- <- <-])%bind_Ok)%bind_Ok)%bind_Ok)%bind_Ok).
  set (key_ := (source process, connector_, spec_operation (as_ref (resolved_operation resolved_)))) in *.
  match type of Hpin with pin_connector_operation _ _ ?q _ = _ => set (p := q) in * end.
  assert (Hp : pinned_operation key_ p) by (exists resolved_; cbn; by rewrite Hop).
  destruct (pin_operation_grows process closure key_ p path eq_refl Hp Hf) as (closure2 & Hpin2 & Hget & Hf' & Hext). rewrite Hpin in Hpin2. injection Hpin2 as <-.
  exists p, (spec_operation (as_ref (resolved_operation resolved_))), target. split; [exact Hop|]. split; [done|]. split; [done|]. split; [exact Hget|].
  split; [exact Hf'|]. split; [exact Hext|]. split; [exact (contract_path _ _ _ _ _ Ht)|]. split; [exact (contract_path _ _ _ _ _ Ho)|]. split; [eauto|].
  split; [done|cbn; lia|]. cbn. destruct (effect (as_ref (resolved_operation resolved_))) as [|steps|]; cbn [provider_idempotent at_most_once on_ambiguous retry].
  - destruct He as [-> ->]. by rewrite <-Heff.
  - destruct He as [-> He]. rewrite <-Heff. split; [done|]. split; [done|]. exists horizon. rewrite <-Heff in Hhor. eauto.
  - destruct He as [-> ->]. rewrite <-Heff. destruct (Honce (eq_sym Heff)) as (? & ? & ?). by split_and!.
Qed.

(** ** Bindings *)

(** The maps of bindings of a state, each with the item in scope and the
    contract of what it is bound to, as the closure has it. *)
Inductive bound (c : CompileContext) (state_path : string) (closure : Closure) : ProcessStateOperation -> option TypeRef -> btree ProcessValue -> ValueContractCatalog -> Prop :=
| bound_command command d :
    km_get (commands closure) (source process, command_name command) = Some d ->
    bound c state_path closure (OpCommand command) None (command_arguments command) (arguments d)
| bound_request request op p target :
    InlineId_as_str op = request_operation request ->
    km_get (connector_operations closure) (source process, request_connector request, op) = Some p ->
    normalize_contract declared_type (spec_input (as_ref (pinned_spec p))) "" = Ok target ->
    bound c state_path closure (OpRequest request) None (request_input request) target
| bound_decision w table d :
    when_decision_table w = Some table -> bt_get (decision_tables closure) table = Some d ->
    bound c state_path closure (OpWhen w) None (when_input w) (contract_from_rule_types (inputs d))
| bound_rule w case name d :
    when_decision_table w = None -> In case (when_cases w) -> case_rule case = Some name -> bt_get (rules closure) name = Some d ->
    bound c state_path closure (OpWhen w) None (case_with case) (contract_from_rule_types (bindings d))
| bound_signal wait signal :
    bt_get signals (wait_signal wait) = Some signal ->
    bound c state_path closure (OpWait (WaitSignal wait)) None (signal_correlate wait) (correlation signal)
| bound_timer timer d :
    bt_get (decision_tables closure) (timer_decision_table timer) = Some d ->
    bound c state_path closure (OpWait (WaitTimer timer)) None (timer_with timer) (contract_from_rule_types (inputs d))
| bound_each_command each command next item d :
    for_each_item each c (state_path +:+ ".for_each") = Ok item -> km_get (commands closure) (source process, activity_name command) = Some d ->
    bound c state_path closure (OpForEach (EachCommand each command next)) (Some item) (activity_arguments command) (arguments d)
| bound_each_request each request next item op p target :
    for_each_item each c (state_path +:+ ".for_each") = Ok item -> InlineId_as_str op = activity_operation request ->
    km_get (connector_operations closure) (source process, activity_connector request, op) = Some p ->
    normalize_contract declared_type (spec_input (as_ref (pinned_spec p))) "" = Ok target ->
    bound c state_path closure (OpForEach (EachRequest each request next)) (Some item) (activity_input request) target
| bound_output values target :
    compile_fields (output process) (state_path +:+ ".output") = Ok target -> bound c state_path closure (OpOutput values) None values target.

(** The context with the item in scope. *)
Definition in_scope (c : CompileContext) (item : option TypeRef) : CompileContext :=
  match item with Some item => with_item c item | None => c end.

Lemma compile_table_cases_Ok output_contract path l : forall index cases_,
  compile_table_cases output_contract path index l = Ok cases_ -> Forall (fun case => case_rule case = None /\ case_with case = []) l.
Proof using Type.
  induction l as [|case l IH]; intros index cases_; cbn; [constructor|].
  destruct (case_rule case) eqn:Hr; [done|]. destruct (case_with case) eqn:Hw; [|done]. destruct (case_matches case); [|done].
  intros (_ & _ & (rest & Hrest & _)%bind_Ok)%bind_Ok. constructor; [done|by eapply IH].
Qed.

(** One case without a table: its rule is pinned and its bindings checked. *)
Definition case_checked (c : CompileContext) (closure : Closure) (case : ProcessWhenCase) : Prop :=
  forall name, case_rule case = Some name ->
  exists d, rule name = Some d /\ bt_get (rules closure) name = Some d /\ rule_result d = TBool
    /\ checked c (case_with case) (contract_from_rule_types (bindings d)).

Lemma case_checked_extends c closure closure' case : extends closure closure' -> case_checked c closure case -> case_checked c closure' case.
Proof using Type. intros [] H name Hn. destruct (H name Hn) as (d & ? & ? & ?). exists d. auto. Qed.

Lemma ruletype_eqb_bool t : ruletype_eqb t TBool = true -> t = TBool.
Proof using Type. by destruct t. Qed.

Lemma compile_case_Ok c path s case s' :
  compile_case c path s case = Ok s' -> grows process (when_closure s) (when_closure s') /\ case_checked c (when_closure s') case.
Proof using Type.
  unfold compile_case, case_checked. destruct (case_matches case) as [matches|], (case_rule case) as [r|]; try done.
  - destruct (is_empty (case_with case)); [|done]. cbn [negb]. intros ([st src] & _ & H)%bind_Ok. destruct (opt_is_some_and _ _); [done|].
    apply bind_Ok in H as (_ & _ & [= <-]). split; [apply grows_refl|done].
  - intros (d & Hd%ok_or_Ok & H)%bind_Ok. destruct (ruletype_eqb (rule_result d) TBool) eqn:Ht; [|done]. cbn [negb] in H.
    apply bind_Ok in H as ([] & Hb & [= <-]). cbn [when_closure]. split; [by apply pin_rule_grows|]. intros name [= <-]. exists d.
    split; [done|]. split; [cbn; by rewrite bt_insert_get, String.eqb_refl|]. split; [by apply ruletype_eqb_bool|eauto].
Qed.

Lemma compile_cases_Ok c path l : forall index s s',
  compile_cases c path index s l = Ok s' -> faithful process (when_closure s) ->
  faithful process (when_closure s') /\ extends (when_closure s) (when_closure s') /\ Forall (case_checked c (when_closure s')) l.
Proof using Type.
  induction l as [|case l IH]; intros index s s'; cbn [compile_cases].
  - intros [= <-] Hf. split; [done|]. split; [apply extends_refl|constructor].
  - intros (s1 & [Hg Hc]%compile_case_Ok & Hrest)%bind_Ok Hf. destruct (Hg Hf) as [Hf1 He1]. destruct (IH _ _ _ Hrest Hf1) as (Hf2 & He2 & Hall).
    split; [done|]. split; [by eapply extends_trans|]. constructor; [by eapply case_checked_extends|done].
Qed.

(** ** Operations *)

(** A command that was compiled may run in its role, and is pinned. *)
Definition command_sound (closure : Closure) (a : CompiledProcessCommandActivity) : Prop :=
  exists d, km_get (commands closure) (source process, compiled_command a) = Some d
  /\ match compiled_role a with
     | RoleCaller _ => Forall (fun permission => bt_contains (allowed_roles d) (role permission) = true) (permissions process)
     | RoleFixed role =>
         role <> "" /\ role <> "admin" /\ bt_contains (allowed_roles d) role = true
         /\ forall variables, bt_get (required_session_variables d) role = Some variables -> variables = []
     end.

Definition activity_sound (closure : Closure) (horizons : btree Z) (r : CompiledProcessRequestState) : Prop :=
  exists p, km_get (connector_operations closure) (source process, connector (activity r), compiled_operation (activity r)) = Some p
  /\ request_sound p horizons (activity r).

(** What a compiled state does is pinned and sound. *)
Definition operation_sound (closure : Closure) (horizons : btree Z) (operation : CompiledProcessStateOperation) : Prop :=
  match operation with
  | CompiledCommand command _ => command_sound closure command
  | CompiledRequest request => activity_sound closure horizons request
  | CompiledForEach for_each =>
      match fan_activity for_each with
      | ForEachCommand command => command_sound closure command
      | ForEachRequest request => activity_sound closure horizons request
      end
  | _ => True
  end.

Lemma operation_sound_extends closure closure' horizons operation :
  extends closure closure' -> operation_sound closure horizons operation -> operation_sound closure' horizons operation.
Proof using Type.
  intros [Hc _ _ Ho _].
  assert (Hcs : forall a, command_sound closure a -> command_sound closure' a) by (intros a (d & ? & ?); exists d; auto).
  assert (Has : forall r, activity_sound closure horizons r -> activity_sound closure' horizons r) by (intros r (p & ? & ?); exists p; auto).
  destruct operation as [| | | |f| |]; cbn; auto. destruct (fan_activity f); auto.
Qed.

Lemma role_sound d run_as path role_ :
  compile_command_role process d run_as path = Ok role_ -> authorized d run_as ->
  match role_ with
  | RoleCaller _ => Forall (fun permission => bt_contains (allowed_roles d) (role permission) = true) (permissions process)
  | RoleFixed role =>
      role <> "" /\ role <> "admin" /\ bt_contains (allowed_roles d) role = true
      /\ forall variables, bt_get (required_session_variables d) role = Some variables -> variables = []
  end.
Proof using Type.
  intros H%compile_command_role_Ok. unfold authorized. destruct role_.
  - by rewrite H, String.eqb_refl.
  - destruct H as [-> Hne]. by rewrite (proj2 (String.eqb_neq _ _) Hne).
Qed.

(** A command and its role, compiled one after the other. *)
Lemma compile_command_Ok name run_as values c closure path d closure' role_path role_ :
  compile_command_activity process name run_as values c closure path = Ok (d, closure') ->
  compile_command_role process d run_as role_path = Ok role_ -> faithful process closure ->
  faithful process closure' /\ extends closure closure'
  /\ km_get (commands closure') (source process, name) = Some d /\ checked c values (arguments d)
  /\ command_sound closure' {| compiled_command := name; compiled_role := role_; compiled_arguments := values |}.
Proof using Type.
  intros (Hp & -> & Ha & Hb)%compile_command_activity_Ok Hr Hf. destruct (pin_command_grows process closure name d Hp Hf) as [Hf' He].
  assert (Hg : km_get (commands (pin_command closure (source process, name) d)) (source process, name) = Some d) by apply km_get_insert.
  split_and!; [done..| |]; [done|]. exists d. split; [exact Hg|]. exact (role_sound _ _ _ _ Hr Ha).
Qed.

(** The operation found for a key is the only one of its name. *)
Lemma operation_unique closure instance op op' p p' :
  faithful process closure -> InlineId_as_str op = InlineId_as_str op' ->
  km_get (connector_operations closure) (source process, instance, op) = Some p ->
  km_get (connector_operations closure) (source process, instance, op') = Some p' -> p = p'.
Proof using Type.
  intros Hf Heq Hp Hp'. destruct (faithful_operations process closure Hf _ _ Hp) as [_ (f & Hc & Ho & ->)], (faithful_operations process closure Hf _ _ Hp') as [_ (f' & Hc' & Ho' & ->)].
  cbn in *. rewrite Heq in Hc. congruence.
Qed.

Lemma compile_when_Ok w c closure path out compiled closure' :
  compile_when_state w c closure path = Ok (out, compiled, closure') -> faithful process closure ->
  faithful process closure' /\ extends closure closure'
  /\ match when_decision_table w with
     | Some table => exists d, bt_get (decision_tables closure') table = Some d /\ checked c (when_input w) (contract_from_rule_types (inputs d))
     | None => Forall (case_checked c closure') (when_cases w)
     end.
Proof using Type.
  unfold compile_when_state. destruct (is_empty (when_cases w)); [done|]. destruct (when_decision_table w) as [table|].
  - unfold compile_decision_when. intros (d & Hd%ok_or_Ok & ([] & Hb & (cases_ & _ & [= _ _ <-])%bind_Ok)%bind_Ok)%bind_Ok Hf.
    destruct (pin_decision_grows process closure table d Hd Hf). split; [done|]. split; [done|]. exists d. split; [|eauto]. cbn. by rewrite bt_insert_get, String.eqb_refl.
  - destruct (is_empty (when_input w)); [|done]. cbn [negb]. intros (s & Hs & [= _ _ <-])%bind_Ok Hf. by apply compile_cases_Ok in Hs.
Qed.

Lemma compile_webhook_guard_Ok guard output c closure path compiled closure' :
  compile_webhook_guard guard output c closure path = Ok (compiled, closure') -> grows process closure closure'.
Proof using named.
  unfold compile_webhook_guard. intros (d & Hd%ok_or_Ok & H)%bind_Ok. destruct (ruletype_eqb _ _); [|done]. cbn [negb] in H.
  apply bind_Ok in H as ([] & _ & H). destruct (List.find _ _) as [[extra ?]|]; [done|]. injection H as <- <-.
  apply pin_rule_grows. by rewrite (rule_named _ _ Hd).
Qed.

(** What a wait pins, and what it checked. *)
Definition wait_checked (c : CompileContext) (closure : Closure) (wait : ProcessWaitState) : Prop :=
  match wait with
  | WaitSignal wait => exists signal, bt_get signals (wait_signal wait) = Some signal /\ checked c (signal_correlate wait) (correlation signal)
  | WaitWebhook _ => True
  | WaitTimer timer =>
      exists d, bt_get (decision_tables closure) (timer_decision_table timer) = Some d
        /\ checked c (timer_with timer) (contract_from_rule_types (inputs d))
  end.

Lemma compile_webhook_wait_Ok wait c closure path out compiled closure' :
  compile_webhook_wait process wait c closure path = Ok (out, compiled, closure') -> grows process closure closure'.
Proof using named.
  unfold compile_webhook_wait. intros (trigger_id & Hid & (found & Hfound & (resolved_ & ->%ok_or_Ok & ([catalog_trigger output] & Htrigger & H)%bind_Ok)%bind_Ok)%bind_Ok)%bind_Ok.
  destruct (InlineId_parse (webhook_trigger wait)) as [i|] eqn:Hparse; [|done]. injection Hid as ->.
  destruct (connector_trigger _ _ _) as [f|] eqn:Hc; [|done]. injection Hfound as ->.
  assert (Ht : catalog_trigger = trigger_id).
  { destruct (as_ref (resolved_trigger resolved_)); [|done]. destruct (bool_decide_reflect (trigger identity = trigger_id)); [|done]. by injection Htrigger as <-. }
  subst catalog_trigger. destruct (is_empty _); [done|]. apply bind_Ok in H as ([] & _ & ([guard closure1] & Hguard & (deadline & _ & [= _ _ <-])%bind_Ok)%bind_Ok).
  apply (grows_trans process _ closure1).
  - destruct (webhook_guard wait); [|injection Hguard as <- <-; apply grows_refl].
    apply bind_Ok in Hguard as ([g closure2] & Hg & [= <- <-]). by eapply compile_webhook_guard_Ok.
  - apply pin_trigger_grows; [done|]. exists resolved_. cbn. by rewrite (InlineId_parse_as_str _ _ Hparse).
Qed.

Lemma compile_wait_Ok wait c closure path out compiled closure' :
  compile_wait_state process signals wait c closure path = Ok (out, compiled, closure') -> faithful process closure ->
  faithful process closure' /\ extends closure closure' /\ wait_checked c closure' wait.
Proof using named.
  intros H Hf. destruct wait as [wait|wait|timer]; cbn [compile_wait_state] in H.
  - unfold compile_signal_wait in H. apply bind_Ok in H as (signal & Hs%ok_or_Ok & ([] & _ & H)%bind_Ok). destruct (String.eqb _ "required"); [|done]. cbn [negb] in H.
    apply bind_Ok in H as ([] & Hb & (deadline & _ & (roots_ & _ & [= _ _ <-])%bind_Ok)%bind_Ok).
    split; [done|]. split; [apply extends_refl|]. cbn. eauto.
  - destruct (compile_webhook_wait_Ok _ _ _ _ _ _ _ H Hf). by split_and!.
  - unfold compile_timer_wait in H. apply bind_Ok in H as (d & Hd%ok_or_Ok & ([] & Hb & (output_type & _ & H)%bind_Ok)%bind_Ok).
    assert (Hc : closure' = pin_decision closure (decision_name d) d) by (destruct (strip_rule_nullable output_type); try done; by injection H as _ _ <-).
    subst closure'. pose proof (decision_named _ _ Hd) as Hn. rewrite Hn.
    destruct (pin_decision_grows process closure _ d Hd Hf). split; [done|]. split; [done|]. exists d. split; [cbn; by rewrite bt_insert_get, String.eqb_refl|eauto].
Qed.

(** A fan-out checks its bindings with the item in scope. *)
Lemma compile_for_each_Ok for_each state_id c closure path out horizons compiled closure' :
  compile_for_each_state process for_each state_id c closure path = Ok (out, horizons, compiled, closure') -> faithful process closure ->
  faithful process closure' /\ extends closure closure'
  /\ operation_sound closure' horizons (CompiledForEach compiled)
  /\ exists item, for_each_item (each_fields for_each) c (path +:+ ".for_each") = Ok item
     /\ match for_each with
        | EachCommand _ command _ =>
            exists d, km_get (commands closure') (source process, activity_name command) = Some d
              /\ checked (with_item c item) (activity_arguments command) (arguments d)
        | EachRequest _ request _ =>
            exists p op target, InlineId_as_str op = activity_operation request
              /\ km_get (connector_operations closure') (source process, activity_connector request, op) = Some p
              /\ normalize_contract declared_type (spec_input (as_ref (pinned_spec p))) "" = Ok target
              /\ checked (with_item c item) (activity_input request) target
        end.
Proof using named.
  unfold compile_for_each_state. destruct (_ || _); [done|]. destruct (_ || _); [done|]. destruct (String.eqb _ _); [|done]. cbn [negb].
  intros (item & Hitem & ([[[result_ hs] activity_] closure1] & Ha & (output_ & _ & [= _ <- <- <-])%bind_Ok)%bind_Ok)%bind_Ok Hf.
  destruct for_each as [each command next|each request next]; cbn [compile_each_activity] in Ha.
  - apply bind_Ok in Ha as ([d closure2] & Hc & (role_ & Hr & [= <- <- <- <-])%bind_Ok).
    destruct (compile_command_Ok _ _ _ _ _ _ _ _ _ _ Hc Hr Hf) as (Hf' & He & Hg & Hb & Hs). split_and!; [done..|]. exists item. split; [exact Hitem|]. eauto.
  - apply bind_Ok in Ha as ([[[out2 hs2] request_] closure2] & Hc & [= <- <- <- <-]). unfold compile_request_activity in Hc.
    apply bind_Ok in Hc as ([[[out3 hs3] a] closure3] & Hc & [= <- <- <- <-]).
    destruct (compile_request_Ok _ _ _ _ _ _ _ _ _ _ _ _ _ _ _ _ _ _ Hc Hf) as (p & op & target & Hop & Hcon & Hcop & Hg & Hf' & He & Ht & Ho & Hb & Hs).
    split_and!; [done..| |]; [cbn; exists p; cbn; by rewrite Hcon, Hcop|]. exists item. split; [exact Hitem|]. exists p, op, target. by split_and!.
Qed.

(** Everything a compiled state does is sound, and every map of its bindings
    was checked against the contract of what it is bound to. *)
Lemma compile_operation_Ok state c closure path out horizons compiled closure' :
  compile_operation process signals state c closure path = Ok (out, horizons, compiled, closure') -> faithful process closure ->
  faithful process closure' /\ extends closure closure' /\ operation_sound closure' horizons compiled
  /\ forall final item values target, faithful process final -> extends closure' final ->
       bound c path final (operation state) item values target -> checked (in_scope c item) values target.
Proof using named.
  unfold compile_operation. intros H Hf. destruct (operation state) as [command|request|w|wait|for_each|values|fc fm].
  - apply bind_Ok in H as ([d closure1] & Hc & (role_ & Hr & [= <- <- <- <-])%bind_Ok).
    destruct (compile_command_Ok _ _ _ _ _ _ _ _ _ _ Hc Hr Hf) as (Hf' & He & Hg & Hb & Hs). split_and!; [done..|].
    intros final item values target _ [Hec _ _ _ _] Hbound. inversion Hbound as [? d' Hg'| | | | | | | |]; subst. apply Hec in Hg. by replace d' with d by congruence.
  - apply bind_Ok in H as ([[[out1 hs] r] closure1] & Hc & [= <- <- <- <-]). unfold compile_request_state in Hc.
    apply bind_Ok in Hc as ([[[out3 hs3] a] closure3] & Hc & [= <- <- <- <-]).
    destruct (compile_request_Ok _ _ _ _ _ _ _ _ _ _ _ _ _ _ _ _ _ _ Hc Hf) as (p & op & target & Hop & Hcon & Hcop & Hg & Hf' & He & Ht & Ho & Hb & Hs).
    split_and!; [done..| |]; [exists p; cbn; by rewrite Hcon, Hcop|].
    intros final item values target' Hff [_ _ _ Heo _] Hbound. inversion Hbound as [|? op' p' target'' Hop' Hg' Ht'| | | | | | |]; subst.
    apply Heo in Hg. rewrite (operation_unique _ _ _ _ _ _ Hff (eq_trans Hop (eq_sym Hop')) Hg Hg') in Ht. cbn [in_scope]. by replace target' with target by congruence.
  - apply bind_Ok in H as ([[out1 w1] closure1] & Hc & [= <- <- <- <-]). destruct (compile_when_Ok _ _ _ _ _ _ _ Hc Hf) as (Hf' & He & Hw). split_and!; [done..|].
    intros final item values target _ [_ Her Hed _ _] Hbound. inversion Hbound as [| |? table d Ht Hg|? case name d Ht Hin Hn Hg| | | | |]; subst; rewrite Ht in Hw; cbn [in_scope].
    + destruct Hw as (d' & Hg' & Hb). apply Hed in Hg'. by replace d with d' by congruence.
    + rewrite List.Forall_forall in Hw. destruct (Hw case Hin name Hn) as (d' & _ & Hg' & _ & Hb). apply Her in Hg'. by replace d with d' by congruence.
  - apply bind_Ok in H as ([[out1 w1] closure1] & Hc & [= <- <- <- <-]). destruct (compile_wait_Ok _ _ _ _ _ _ _ Hc Hf) as (Hf' & He & Hw). split_and!; [done..|].
    intros final item values target _ [_ _ Hed _ _] Hbound. inversion Hbound as [| | | |? signal Hs|? d Hg| | |]; subst; cbn [in_scope wait_checked] in *.
    + destruct Hw as (signal' & Hs' & Hb). by replace signal with signal' by congruence.
    + destruct Hw as (d' & Hg' & Hb). apply Hed in Hg'. by replace d with d' by congruence.
  - apply bind_Ok in H as ([[[out1 hs] f1] closure1] & Hc & [= <- <- <- <-]).
    destruct (compile_for_each_Ok _ _ _ _ _ _ _ _ _ Hc Hf) as (Hf' & He & Hs & item & Hitem & Hw). split_and!; [done..|].
    intros final item' values target Hff [Hec _ _ Heo _] Hbound.
    inversion Hbound as [| | | | | |each command next item1 d Hi Hg|each request next item1 op p target1 Hi Hop Hg Ht|]; subst; cbn [each_fields in_scope] in *;
      (assert (Heq : item1 = item) by congruence; subst item1).
    + destruct Hw as (d' & Hg' & Hb). apply Hec in Hg'. by replace d with d' by congruence.
    + destruct Hw as (p' & op' & target' & Hop' & Hg' & Ht' & Hb). apply Heo in Hg'.
      rewrite (operation_unique _ _ _ _ _ _ Hff (eq_trans Hop' (eq_sym Hop)) Hg' Hg) in Ht'. by replace target with target' by congruence.
  - apply bind_Ok in H as (target & Ht & ([] & Hb & (out1 & _ & [= <- <- <- <-])%bind_Ok)%bind_Ok). split_and!; [done|apply extends_refl|done|].
    intros final item values' target' _ _ Hbound. inversion Hbound as [| | | | | | | |? target1 Ht']; subst. cbn [in_scope]. replace target' with target by congruence. eauto.
  - destruct (_ || _) in H; [done|]. injection H as <- <- <- <-. split_and!; [done|apply extends_refl|done|]. intros final item values target _ _ Hbound. inversion Hbound.
Qed.

(** *** In a larger context *)

Lemma with_item_larger c c' item : context_le c c' -> context_le (with_item c item) (with_item c' item).
Proof using Type. by intros []. Qed.

Lemma in_scope_larger c c' item : context_le c c' -> context_le (in_scope c item) (in_scope c' item).
Proof using Type. destruct item; [apply with_item_larger|done]. Qed.

Lemma for_each_item_larger each c c' path item : context_le c c' -> for_each_item each c path = Ok item -> for_each_item each c' path = Ok item.
Proof using Type.
  intros Hle. unfold for_each_item. intros (inferred & Hi & H)%bind_Ok. by rewrite (infer_larger _ _ _ Hle _ _ _ Hi).
Qed.

(** The maps of bindings stay checked when more outputs are known. *)
Lemma compile_operation_bound state c c' closure path out horizons compiled closure' final item values target :
  compile_operation process signals state c closure path = Ok (out, horizons, compiled, closure') -> faithful process closure ->
  context_le c c' -> faithful process final -> extends closure' final ->
  bound c' path final (operation state) item values target -> checked (in_scope c' item) values target.
Proof using named.
  intros H Hf Hle Hff Hext Hb.
  assert (Hc : checked (in_scope c item) values target).
  { destruct (compile_operation_Ok _ _ _ _ _ _ _ _ H Hf) as (_ & _ & _ & Hall). apply (Hall final item values target Hff Hext).
    assert (Heach : forall for_each, operation state = OpForEach for_each -> exists item, for_each_item (each_fields for_each) c (path +:+ ".for_each") = Ok item).
    { intros for_each Hop. unfold compile_operation in H. rewrite Hop in H. apply bind_Ok in H as ([[[out1 hs] f1] closure1] & Hc & _).
      apply compile_for_each_Ok in Hc as (_ & _ & _ & it & Hit & _); [eauto|exact Hf]. }
    destruct Hb as [| | | | | |each command next it d Hi Hg|each request next it op p t Hi Hop Hg Ht|]; try (by econstructor).
    - destruct (Heach _ eq_refl) as [it' Hit']. pose proof (for_each_item_larger _ _ _ _ _ Hle Hit') as Hl. cbn [each_fields] in *.
      assert (Heq : it' = it) by congruence. subst it'. by eapply bound_each_command.
    - destruct (Heach _ eq_refl) as [it' Hit']. pose proof (for_each_item_larger _ _ _ _ _ Hle Hit') as Hl. cbn [each_fields] in *.
      assert (Heq : it' = it) by congruence. subst it'. by eapply bound_each_request. }
  destruct Hc as [p Hc]. exists p. eapply validate_bindings_larger; [apply in_scope_larger, Hle|exact Hc].
Qed.
End States.

(** ** Outputs *)

Lemma tidy_insert n fields name field : tidy (TypeRef_new n (Object fields)) -> tidy (type_ref field) -> tidy (TypeRef_new n (Object (bt_insert fields name field))).
Proof.
  intros [Hw Hf]%tidy_object Ht. apply tidy_object. split; [by apply bt_insert_wf|].
  by apply (bt_insert_Forall (fun nf : string * ValueContractField => tidy (type_ref nf.2))).
Qed.

Lemma tidy_empty n : tidy (TypeRef_new n (Object [])).
Proof. apply tidy_object. split; constructor. Qed.

Lemma merge_tidy left right path t : merge_object_types left right path = Ok t -> tidy left -> tidy right -> tidy t.
Proof.
  unfold merge_object_types. intros (lf & Hl%ok_or_Ok & (rf & Hr%ok_or_Ok & (fields & Hf & [= <-])%bind_Ok)%bind_Ok)%bind_Ok Htl Htr.
  apply object_type_fields_Some in Hl, Hr. rewrite Hl in Htl. rewrite Hr in Htr. apply tidy_object in Htr as [_ Htr]. rewrite List.Forall_forall in Htr.
  apply (fold_result_inv (fun fields => tidy (TypeRef_new false (Object fields))) _ rf) with (s := lf) (s' := fields) in Hf; [done| |by apply tidy_object in Htl; apply tidy_object].
  intros s nf s' Hin Hs. destruct (bt_get s nf.1); [destruct (type_eqb _ _); [by intros [= <-]|done]|]. intros [= <-]. apply tidy_insert; [done|]. exact (Htr nf Hin).
Qed.

Lemma failure_tidy item item_key : tidy item -> tidy (failure_item_type item item_key).
Proof.
  intros Hi. unfold failure_item_type. cbn [fold_left fst snd]. repeat apply tidy_insert; try done.
  destruct (object_type_fields item) as [fields|] eqn:Ho; [|apply tidy_empty]. apply object_type_fields_Some in Ho. rewrite Ho in Hi.
  apply tidy_object in Hi. by apply tidy_object.
Qed.

Lemma for_each_output_tidy item each result_ path out :
  for_each_output item each result_ path = Ok out -> tidy item -> tidy (catalog_root_object result_) -> tidy (catalog_root_object out).
Proof.
  unfold for_each_output. intros (successful & Hs & [= <-])%bind_Ok Hi Hr.
  assert (Hsuc : tidy successful) by (destruct (preserve_input each); [by eapply merge_tidy|by injection Hs as <-]).
  apply tidy_object. split; [apply bt_collect_wf|]. apply (bt_collect_Forall (fun nf : string * ValueContractField => tidy (type_ref nf.2))).
  constructor; [by apply tidy_list|]. constructor; [by apply tidy_list, failure_tidy|]. constructor; [by apply tidy_list|constructor].
Qed.

Section Outputs.
Context {dependencies : ProcessDependencyCatalog} {lawful : LawfulDependencies dependencies}.
Variable process : Process.
Variable signals : btree CompiledProcessSignal.

Lemma compile_fields_tidy fields path out : compile_fields fields path = Ok out -> tidy (catalog_root_object out).
Proof using lawful.
  intros (roots & Hr & [= <-])%bind_Ok.
  enough (H : forall l index acc, tidy (TypeRef_new false (Object acc)) -> compile_fields_loop path index acc l = Ok roots -> tidy (TypeRef_new false (Object roots)))
    by exact (H fields O [] (tidy_empty false) Hr). clear Hr.
  induction l as [|field l IH]; intros index acc Hacc; cbn [compile_fields_loop]; [by intros [= <-]|].
  destruct (String.eqb _ ""); [done|]. intros (t & Ht & H)%bind_Ok. destruct (bt_contains acc (field_name field)); [done|].
  apply IH in H; [done|]. apply tidy_insert; [done|]. exact (text_tidy _ lawful_declared _ _ _ Ht).
Qed.

Lemma compile_type_map_tidy fields path out : compile_type_map fields path = Ok out -> bt_wf fields -> tidy (catalog_root_object out).
Proof using lawful.
  intros (roots & Hr%map_result_Ok & [= <-])%bind_Ok Hwf. apply tidy_object. split.
  - cbn. unfold bt_wf. replace (map fst roots) with (map fst fields); [done|]. clear -Hr. induction Hr as [|a b l k (t & _ & [= <-])%bind_Ok _ IH]; [done|]. cbn. by rewrite IH.
  - apply List.Forall_forall. intros b Hin. destruct (Forall2_In_r _ _ _ _ Hr Hin) as (a & _ & (t & Ht & [= <-])%bind_Ok). exact (text_tidy _ lawful_declared _ _ _ Ht).
Qed.


Hypothesis signals_tidy : forall name signal, bt_get signals name = Some signal ->
  tidy (catalog_root_object (correlation signal)) /\ tidy (catalog_root_object (payload signal)).

Lemma signal_roots_tidy signal path roots_ :
  signal_roots signal path = Ok roots_ -> tidy (catalog_root_object (correlation signal)) -> tidy (catalog_root_object (payload signal)) ->
  tidy (TypeRef_new false (Object roots_)).
Proof using Type.
  unfold signal_roots. intros H Hc [_ Hp]%tidy_object. rewrite List.Forall_forall in Hp.
  apply (fold_result_inv (fun fields => tidy (TypeRef_new false (Object fields)))) in H; [done| |exact Hc].
  intros s nf s' Hin Hs. destruct (bt_contains s nf.1); [done|]. intros [= <-]. apply tidy_insert; [done|]. exact (Hp nf Hin).
Qed.

(** The contract that literal cases match is the output of an earlier state. *)
Lemma latest_matching_known matches c name contract :
  latest_matching_state_contract matches c = Some (name, contract) -> bt_get (state_types c) name = Some contract.
Proof using Type.
  unfold latest_matching_state_contract. set (candidates := flat_map _ _).
  assert (Hall : Forall (fun k : nat * (string * ValueContractCatalog) => bt_get (state_types c) k.2.1 = Some k.2.2) candidates).
  { apply List.Forall_forall. intros k ([n i] & _ & Hk)%in_flat_map. destruct (bt_get (state_types c) (n, i).1) as [contract'|] eqn:Hg; [|done].
    destruct (forallb _ _); [|done]. by destruct Hk as [<-|[]]. }
  enough (Hfold : forall best, (forall k, best = Some k -> bt_get (state_types c) k.2.1 = Some k.2.2) ->
    forall k, fold_left latest candidates best = Some k -> bt_get (state_types c) k.2.1 = Some k.2.2).
  { destruct (fold_left latest candidates None) as [k|] eqn:Hk; [|done]. intros [= Heq]. apply Hfold in Hk; [|done]. rewrite Heq in Hk. exact Hk. }
  clearbody candidates. induction Hall as [|k l Hk _ IH]; intros best Hbest; [exact Hbest|]. cbn. apply IH. unfold latest.
  destruct best as [b|]; [destruct (_ <=? _)%nat|]; intros k' [= <-]; auto.
Qed.

Lemma compile_cases_tidy c path l : context_kept tidy c -> forall index s s',
  compile_cases c path index s l = Ok s' -> (forall contract, matched_contract s = Some contract -> tidy (catalog_root_object contract)) ->
  forall contract, matched_contract s' = Some contract -> tidy (catalog_root_object contract).
Proof using Type.
  intros Hc. induction l as [|case l IH]; intros index s s'; cbn [compile_cases]; [by intros [= <-]|].
  intros (s1 & Hs1 & Hrest)%bind_Ok Hs. apply (IH _ _ _ Hrest). clear IH Hrest. unfold compile_case in Hs1.
  destruct (case_matches case) as [matches|], (case_rule case) as [r|]; try done.
  - destruct (is_empty (case_with case)); [|done]. cbn [negb] in Hs1. apply bind_Ok in Hs1 as ([st src] & Hl%ok_or_Ok%latest_matching_known & H).
    destruct (opt_is_some_and _ _); [done|]. apply bind_Ok in H as (_ & _ & [= <-]). cbn. intros contract [= <-].
    destruct (matched_contract s) eqn:Hm; [by apply Hs|]. exact (states_kept tidy c Hc _ _ Hl).
  - apply bind_Ok in Hs1 as (d & _ & H). destruct (ruletype_eqb _ _); [|done]. cbn [negb] in H. apply bind_Ok in H as ([] & _ & [= <-]). exact Hs.
Qed.

Lemma compile_when_tidy w c closure path out compiled closure' :
  compile_when_state w c closure path = Ok (out, compiled, closure') -> context_kept tidy c -> tidy (catalog_root_object out).
Proof using lawful.
  unfold compile_when_state. destruct (is_empty (when_cases w)); [done|]. destruct (when_decision_table w) as [table|].
  - unfold compile_decision_when. intros (d & Hd%ok_or_Ok & ([] & _ & (cases_ & _ & [= <- _ _])%bind_Ok)%bind_Ok)%bind_Ok _.
    by destruct (lawful_decision _ _ Hd).
  - destruct (is_empty (when_input w)); [|done]. cbn [negb]. intros (s & Hs & [= <- _ _])%bind_Ok Hc.
    pose proof (compile_cases_tidy _ _ _ Hc _ _ _ Hs) as H. destruct (matched_contract s) as [contract|]; cbn; [by apply H|apply tidy_empty].
Qed.

Lemma compile_wait_tidy wait c closure path out compiled closure' :
  compile_wait_state process signals wait c closure path = Ok (out, compiled, closure') -> tidy (catalog_root_object out).
Proof using lawful signals_tidy.
  destruct wait as [wait|wait|timer]; cbn [compile_wait_state].
  - unfold compile_signal_wait. intros (signal & Hs%ok_or_Ok & ([] & _ & H)%bind_Ok)%bind_Ok. destruct (String.eqb _ "required"); [|done]. cbn [negb] in H.
    apply bind_Ok in H as ([] & _ & (deadline & _ & (roots_ & Hr & [= <- _ _])%bind_Ok)%bind_Ok). destruct (signals_tidy _ _ Hs). by eapply signal_roots_tidy.
  - unfold compile_webhook_wait. intros (trigger_id & _ & (found & Hfound & (resolved_ & ->%ok_or_Ok & ([catalog_trigger output] & Htrigger & H)%bind_Ok)%bind_Ok)%bind_Ok)%bind_Ok.
    destruct (connector_trigger _ _ _) as [f|] eqn:Hc; [|done]. injection Hfound as ->.
    destruct (is_empty _); [done|]. apply bind_Ok in H as ([] & _ & ([guard closure1] & _ & (deadline & _ & [= <- _ _])%bind_Ok)%bind_Ok).
    destruct (as_ref (resolved_trigger resolved_)) as [identity a c0 n h r t e y o pl s|] eqn:Hspec; [|done]. destruct (bool_decide _); [|done]. injection Htrigger as <- <-.
    exact (lawful_trigger _ _ _ _ _ _ _ _ _ _ _ _ _ _ _ _ Hc Hspec).
  - unfold compile_timer_wait. intros (d & Hd%ok_or_Ok & ([] & _ & (output_type & _ & H)%bind_Ok)%bind_Ok)%bind_Ok.
    assert (Ho : out = contract_from_rule_types (decision_output d)) by (destruct (strip_rule_nullable output_type); try done; by injection H as <- _ _).
    subst out. by destruct (lawful_decision _ _ Hd).
Qed.

Lemma for_each_item_tidy each c path item :
  for_each_item each c path = Ok item -> context_kept tidy c -> process_value_wf (each_input each) -> tidy item.
Proof using Type.
  unfold for_each_item. intros (inferred & Hi & (t & ->%ok_or_Ok & H)%bind_Ok)%bind_Ok Hc Hwf. pose proof (infer_keeps declared_type tidy c _ Hc _ _ Hwf Hi) as Ht.
  destruct t as [n [| | |element|]]; try done. cbn [value_type] in H. apply bind_Ok in H as (fields & _ & (key & _ & H)%bind_Ok).
  destruct (_ || _) in H; [done|]. injection H as <-. exact (kept_element n element Ht).
Qed.

Lemma command_tidy name d : pinned_command process name d -> tidy (catalog_root_object (command_result d)).
Proof using lawful. intros (d0 & a & r & Hd & _ & Hr & ->). destruct (lawful_command _ _ _ Hd). cbn. by eapply contract_tidy; [apply lawful_declared|..]. Qed.

Lemma operation_tidy key p path out :
  pinned_operation key p -> normalize_contract declared_type (spec_output (as_ref (pinned_spec p))) path = Ok out -> tidy (catalog_root_object out).
Proof using lawful. intros (found & Hc & _ & ->) Ho. destruct (lawful_operation _ _ _ _ Hc). by eapply contract_tidy; [apply lawful_declared|..]. Qed.

(** The fan-out's input, where a state has one. *)
Definition each_wf (operation : ProcessStateOperation) : Prop :=
  match operation with OpForEach for_each => process_value_wf (each_input (each_fields for_each)) | _ => True end.

Lemma compile_operation_tidy state c closure path out horizons compiled closure' :
  compile_operation process signals state c closure path = Ok (out, horizons, compiled, closure') -> faithful process closure ->
  context_kept tidy c -> each_wf (operation state) -> tidy (catalog_root_object out).
Proof using lawful signals_tidy.
  unfold compile_operation. intros H Hf Hc Hwf. destruct (operation state) as [command|request|w|wait|for_each|values|fc fm].
  - apply bind_Ok in H as ([d closure1] & Hd & (role_ & _ & [= <- _ _ _])%bind_Ok). apply compile_command_activity_Ok in Hd as (Hp & _). by eapply command_tidy.
  - apply bind_Ok in H as ([[[out1 hs] r] closure1] & Hr & [= <- _ _ _]). apply bind_Ok in Hr as ([[[out3 hs3] a] closure3] & Hr & [= <- _ _ _]).
    apply compile_request_Ok in Hr as (p & op & target & _ & _ & _ & Hg & Hf' & _ & _ & Ho & _); [|exact Hf].
    destruct (faithful_operations process _ Hf' _ _ Hg) as [_ Hp]. by eapply operation_tidy.
  - apply bind_Ok in H as ([[out1 w1] closure1] & Hw & [= <- _ _ _]). by eapply compile_when_tidy.
  - apply bind_Ok in H as ([[out1 w1] closure1] & Hw & [= <- _ _ _]). by eapply compile_wait_tidy.
  - apply bind_Ok in H as ([[[out1 hs] f1] closure1] & He & [= <- _ _ _]). unfold compile_for_each_state in He.
    destruct (_ || _) in He; [done|]. destruct (_ || _) in He; [done|]. destruct (String.eqb _ _); [|done]. cbn [negb] in He.
    apply bind_Ok in He as (item & Hitem & ([[[result_ hs1] activity_] closure2] & Ha & (output_ & Ho & [= <- _ _ _])%bind_Ok)%bind_Ok).
    pose proof (for_each_item_tidy _ _ _ _ Hitem Hc Hwf) as Hi. eapply for_each_output_tidy; [exact Ho|exact Hi|].
    destruct for_each as [each command next|each request next]; cbn [compile_each_activity] in Ha.
    + apply bind_Ok in Ha as ([d closure3] & Hd & (role_ & _ & [= <- _ _ _])%bind_Ok). apply compile_command_activity_Ok in Hd as (Hp & _). by eapply command_tidy.
    + apply bind_Ok in Ha as ([[[out2 hs2] request_] closure3] & Hr & [= <- _ _ _]). apply bind_Ok in Hr as ([[[out3 hs3] a] closure4] & Hr & [= <- _ _ _]).
      apply compile_request_Ok in Hr as (p & op & target & _ & _ & _ & Hg & Hf' & _ & _ & Ho' & _); [|exact Hf].
      destruct (faithful_operations process _ Hf' _ _ Hg) as [_ Hp]. by eapply operation_tidy.
  - apply bind_Ok in H as (target & _ & ([] & _ & (out1 & Ho & [= <- _ _ _])%bind_Ok)%bind_Ok). by eapply compile_fields_tidy.
  - destruct (_ || _) in H; [done|]. injection H as <- _ _ _. apply tidy_empty.
Qed.
End Outputs.
