(* ===== verification/ProcessCompileSpec.v ===== *)
(** * What a compiled process promises

    The loop of [compile_process] over the topological order, and what follows
    for the whole process: compilation never panics, its closure holds what the
    catalog gives, every state does only what is pinned and sound, the session
    variables are those that are needed, and on any run the arguments of a state
    evaluate to the contract of what they are bound to. *)
From stdpp Require Import gmap.
From S2P Require Import Prelude Json KeyedMap AbiIds RulesSyntax ValueContract ContractValidity ProcessSyntax ProcessGraph ProcessGraphSpec ProcessTypes ProcessTypesSpec ProcessActivity ProcessInfer ProcessInferSpec ProcessEvaluate ProcessShapes ProcessEvaluateSpec ProcessProgress ProcessDependencies ProcessFingerprint ProcessDefinition ProcessStates ProcessPinned ProcessStatesSpec ProcessCompile ProcessSession.
Set Warnings "-register-all".

(** The maps of a definition are maps. *)
Record process_wf (p : Process) : Prop := {
  wf_signals : Forall (fun s => bt_wf (signal_correlation s) /\ bt_wf (signal_payload s)) (signals p);
  wf_each : Forall (fun st => each_wf (operation st)) (states p);
}.

Section Spec.
Context {serde : Serde} {digest : Digest} {material : ProcessMaterial} {dependencies : ProcessDependencyCatalog}.

(** ** Signals *)

Lemma signals_tidy_loop {lawful : LawfulDependencies dependencies} path l : forall index acc compiled,
  compile_signals_loop path index acc l = Ok compiled ->
  Forall (fun s => bt_wf (signal_correlation s) /\ bt_wf (signal_payload s)) l ->
  (forall name signal, bt_get acc name = Some signal -> tidy (catalog_root_object (correlation signal)) /\ tidy (catalog_root_object (payload signal))) ->
  forall name signal, bt_get compiled name = Some signal -> tidy (catalog_root_object (correlation signal)) /\ tidy (catalog_root_object (payload signal)).
Proof using Type.
  induction l as [|s l IH]; intros index acc compiled; cbn [compile_signals_loop]; [by intros [= <-]|].
  intros (c & Hc & H)%bind_Ok [[Hw1 Hw2] Hl]%List.Forall_cons_iff Hacc. destruct (bt_contains acc (signal_name s)); [done|].
  apply (IH _ _ _ H Hl). intros name signal. rewrite bt_insert_get. destruct (String.eqb name (signal_name s)); [|apply Hacc]. intros [= <-].
  unfold compile_signal in Hc. destruct (String.eqb _ ""); [done|]. destruct (opt_is_some_and _ _); [done|].
  apply bind_Ok in Hc as (cor & Hcor & Hc). destruct (is_empty _); [done|].
  apply bind_Ok in Hc as ([] & _ & (pay & Hpay & (f & _ & [= <-])%bind_Ok)%bind_Ok).
  split; [exact (compile_type_map_tidy _ _ _ Hcor Hw1)|exact (compile_type_map_tidy _ _ _ Hpay Hw2)].
Qed.

Section Loop.
Variable process : Process.
Variable signals : btree CompiledProcessSignal.
Variable input : ValueContractCatalog.
Variable graph : ValidatedGraph.
Variable base : string.
Hypothesis promises : graph_promises process graph.

Abbreviation compile_indexed := (compile_indexed process signals input graph base).

(** *** The loop does not panic *)

Lemma state_context_total types index :
  (index < List.length (states process))%nat -> exists c, state_context input graph types index = Some c.
Proof using promises.
  intros Hi. destruct (promise_lengths _ _ promises) as (H1 & H2 & H3). unfold state_context.
  destruct (lookup_lt_is_Some_2 (ancestors graph) index) as [a ->]; [lia|]. destruct (lookup_lt_is_Some_2 (definite_ancestors graph) index) as [d ->]; [lia|].
  destruct (lookup_lt_is_Some_2 (available_outputs graph) index) as [o ->]; [lia|]. by eexists.
Qed.

Lemma compile_indexed_no_panic s index : (index < List.length (states process))%nat -> compile_indexed s index <> Err Panic.
Proof using promises.
  intros Hi. unfold ProcessCompile.compile_indexed. destruct (lookup_lt_is_Some_2 _ _ Hi) as [st ->]. cbn [expect ok_or mbind result_bind].
  destruct (state_context_total (progress_types s) index Hi) as [c ->]. cbn [expect ok_or mbind result_bind].
  destruct (compile_state _ _ _ _ _ _) as [[compiled closure]|]; done.
Qed.

Lemma fold_no_panic order : Forall (fun index => (index < List.length (states process))%nat) order ->
  forall s, fold_result compile_indexed s order <> Err Panic.
Proof using promises.
  induction 1 as [|index order Hi _ IH]; intros s; cbn [fold_result]; [done|]. pose proof (compile_indexed_no_panic s index Hi) as Hn.
  destruct (compile_indexed s index) as [s'|e]; [apply IH|]. intros [= ->]. by apply Hn.
Qed.

(** *** What the loop has done *)

(** The context of a state, with what was compiled before it. *)
Definition index_context (types : btree ValueContractCatalog) (index : nat) (c : CompileContext) : Prop :=
  state_context input graph types index = Some c.

(** One state of the loop, as it was compiled. *)
Definition state_done (s : CompileProgress) (index : nat) : Prop :=
  exists st types c closure out horizons op closure',
    states process !! index = Some st /\ index_context types index c
    /\ compile_operation process signals st c closure (state_path base index) = Ok (out, horizons, op, closure')
    /\ faithful process closure /\ context_kept tidy c /\ extends closure' (progress_closure s)
    /\ bt_get (progress_states s) (id st) =
         Some {| compiled_id := id st; compiled_output := out; maximum_send_horizons_ms := horizons; compiled_state_operation := op |}
    /\ forall name k, bt_get types name = Some k -> bt_get (progress_types s) name = Some k.

Record loop_done (s : CompileProgress) (done : list nat) : Prop := {
  done_faithful : faithful process (progress_closure s);
  done_states : Forall (state_done s) done;
  done_types name : bt_get (progress_types s) name = option_map compiled_output (bt_get (progress_states s) name);
  done_tidy name k : bt_get (progress_types s) name = Some k -> tidy (catalog_root_object k);
  done_names name k : bt_get (progress_states s) name = Some k -> exists index, In index done /\ state_at process index name;
}.

Lemma state_done_step s s' index :
  extends (progress_closure s) (progress_closure s') ->
  (forall name k, bt_get (progress_states s) name = Some k -> bt_get (progress_states s') name = Some k) ->
  (forall name k, bt_get (progress_types s) name = Some k -> bt_get (progress_types s') name = Some k) ->
  state_done s index -> state_done s' index.
Proof using Type.
  intros He Hs Ht (st & types & c & closure & out & hs & op & closure' & H1 & H2 & H3 & H4 & H5 & H6 & H7 & H8).
  exists st, types, c, closure, out, hs, op, closure'. split_and!; try done; [by eapply extends_trans|auto..].
Qed.

Context {lawful : LawfulDependencies dependencies}.
Hypothesis signals_tidy : forall name signal, bt_get signals name = Some signal ->
  tidy (catalog_root_object (correlation signal)) /\ tidy (catalog_root_object (payload signal)).
Hypothesis input_tidy : tidy (catalog_root_object input).
Hypothesis each_values : Forall (fun st => each_wf (operation st)) (states process).

Lemma state_context_tidy types index c : index_context types index c ->
  (forall name k, bt_get types name = Some k -> tidy (catalog_root_object k)) -> context_kept tidy c.
Proof using input_tidy.
  unfold index_context, state_context. intros H Ht. destruct (ancestors graph !! index); [|done]. destruct (definite_ancestors graph !! index); [|done].
  destruct (available_outputs graph !! index); [|done]. injection H as <-. by split.
Qed.

Lemma loop_step s done index s' :
  loop_done s done -> ~ In index done -> compile_indexed s index = Ok s' -> loop_done s' (done ++ [index]).
Proof using lawful signals_tidy input_tidy each_values promises.
  intros [Hf Hd Ht Htidy Hn] Hnew. unfold ProcessCompile.compile_indexed.
  intros (st & Hst%ok_or_Ok & (c & Hc%ok_or_Ok & ([compiled closure'] & Hcomp & [= <-])%bind_Ok)%bind_Ok)%bind_Ok.
  destruct (compile_state _ _ _ _ _ _) as [[x y]|e] eqn:E; [|done]. injection Hcomp as -> ->.
  unfold compile_state in E. apply bind_Ok in E as ([[[out hs] op] closure1] & Hop & [= <- <-]).
  pose proof (state_context_tidy _ _ _ Hc Htidy) as Hkept.
  destruct (compile_operation_Ok _ _ _ _ _ _ _ _ _ _ Hop Hf) as (Hf' & He & _ & _).
  assert (Hwf : each_wf (operation st)).
  { rewrite List.Forall_forall in each_values. apply each_values. apply list_elem_of_In. by eapply list_elem_of_lookup_2. }
  pose proof (compile_operation_tidy _ _ signals_tidy _ _ _ _ _ _ _ _ Hop Hf Hkept Hwf) as Hout.
  assert (Hat : state_at process index (id st)) by (by exists st).
  assert (Hfresh : bt_get (progress_states s) (id st) = None).
  { destruct (bt_get (progress_states s) (id st)) as [k|] eqn:Hk; [|done]. destruct (Hn _ _ Hk) as (i & Hi & Hati). exfalso. apply Hnew.
    apply (promise_indices _ _ promises) in Hat, Hati. congruence. }
  assert (Hkeep : forall {A} (m : btree A) (k : A), bt_get m (id st) = None -> forall name v, bt_get m name = Some v -> bt_get (bt_insert m (id st) k) name = Some v).
  { intros A m k Hm name v Hv. rewrite bt_insert_get. destruct (String.eqb_spec name (id st)) as [->|]; [congruence|done]. }
  assert (Hnt : bt_get (progress_types s) (id st) = None) by (by rewrite Ht, Hfresh).
  cbn [compiled_output]. split; cbn [progress_closure progress_states progress_types].
  - exact Hf'.
  - apply Forall_app. split.
    + eapply List.Forall_impl; [|exact Hd]. intros i. apply state_done_step; cbn; [exact He|by apply Hkeep|by apply Hkeep].
    + constructor; [|constructor]. exists st, (progress_types s), c, (progress_closure s), out, hs, op, closure1. cbn.
      split_and!; [done|exact Hc|exact Hop|done|done|apply extends_refl| |by apply Hkeep]. by rewrite bt_insert_get, String.eqb_refl.
  - intros name. rewrite !bt_insert_get. destruct (String.eqb name (id st)); [done|apply Ht].
  - intros name k. rewrite bt_insert_get. destruct (String.eqb name (id st)); [by intros [= <-]|apply Htidy].
  - intros name k. rewrite bt_insert_get. destruct (String.eqb_spec name (id st)) as [->|].
    + intros _. exists index. split; [|done]. apply in_app_iff. right. by left.
    + intros (i & Hi & ?)%Hn. exists i. split; [|done]. apply in_app_iff. by left.
Qed.

Lemma loop_all order : forall s done s',
  loop_done s done -> NoDup (done ++ order) -> fold_result compile_indexed s order = Ok s' -> loop_done s' (done ++ order).
Proof using lawful signals_tidy input_tidy each_values promises.
  induction order as [|index order IH]; intros s done s' Hs Hnd; cbn [fold_result].
  - intros [= <-]. by rewrite app_nil_r.
  - destruct (compile_indexed s index) as [s1|] eqn:E; [|done]. intros H. rewrite cons_middle, app_assoc in *. eapply IH; [|done|exact H].
    apply (loop_step s); [done| |done]. apply NoDup_app in Hnd as (Hnd & _ & _). apply NoDup_app in Hnd as (_ & Hno & _).
    intros Hin. apply (Hno index); [by apply list_elem_of_In|by left].
Qed.
End Loop.
End Spec.
