(* ===== verification/ProcessCompiled.v ===== *)
(** * Compiled processes

    What follows from a compilation that succeeds, and that it cannot panic: the
    closure holds what the catalogs give, every state does only what is pinned
    and sound, the session variables are those that are needed, and on any run
    the arguments of a state evaluate to the contract of what they are bound
    to. *)
From stdpp Require Import gmap.
From S2P Require Import Prelude Json KeyedMap AbiIds RulesSyntax RulesDecision ValueContract ContractValidity ProcessSyntax ProcessGraph ProcessGraphSpec ProcessTypes ProcessTypesSpec ProcessActivity ProcessInfer ProcessInferSpec ProcessEvaluate ProcessShapes ProcessEvaluateSpec ProcessProgress ProcessDependencies ProcessFingerprint ProcessDefinition ProcessStates ProcessPinned ProcessStatesSpec ProcessCompile ProcessSession ProcessCompileSpec.
Set Warnings "-register-all".

Lemma lift_Ok {A} (m : result PlanError A) a : lift m = Ok a -> m = Ok a.
Proof. destruct m; by intros [= ->]. Qed.



Section Compiled.
Context {serde : Serde} {digest : Digest} {material : ProcessMaterial} {dependencies : ProcessDependencyCatalog}.

(** ** Caller commands are pinned *)

Section Pinned.
Context {named : NamedDependencies dependencies}.

Lemma compile_operation_pinned process signals state c closure path out horizons compiled closure' :
  compile_operation process signals state c closure path = Ok (out, horizons, compiled, closure') -> faithful process closure ->
  command_pinned process closure' (operation state).
Proof using named.
  unfold compile_operation, command_pinned. intros H Hf name Hn.
  destruct (operation state) as [command| | | |[each command next|each request next]| |]; try done; cbn [caller_command] in Hn; destruct (String.eqb _ _); try done; injection Hn as <-.
  - apply bind_Ok in H as ([d closure1] & Hc & (role_ & Hr & [= <- <- <- <-])%bind_Ok). eapply compile_command_Ok in Hc as (_ & _ & Hg & _); eauto.
  - apply bind_Ok in H as ([[[out1 hs] f1] closure1] & Hc & [= <- <- <- <-]). apply compile_for_each_Ok in Hc as (_ & _ & _ & item & _ & d & Hg & _); eauto.
Qed.

Lemma command_pinned_extends process closure closure' operation :
  extends closure closure' -> command_pinned process closure operation -> command_pinned process closure' operation.
Proof using Type. intros [He _ _ _ _] H name Hn. destruct (H name Hn) as [d Hd]. eauto. Qed.

(** One state of the loop: its caller commands are pinned, and what it does is
    sound. *)
Definition state_sound (process : Process) (s : CompileProgress) (index : nat) : Prop :=
  exists st k, states process !! index = Some st /\ bt_get (progress_states s) (id st) = Some k /\ compiled_id k = id st
    /\ command_pinned process (progress_closure s) (operation st)
    /\ operation_sound process (progress_closure s) (maximum_send_horizons_ms k) (compiled_state_operation k).

Record loop_sound (process : Process) (s : CompileProgress) (done_ : list nat) : Prop := {
  sound_faithful : faithful process (progress_closure s);
  sound_states : Forall (state_sound process s) done_;
  sound_names name k : bt_get (progress_states s) name = Some k -> exists index, In index done_ /\ state_at process index name;
}.

Lemma loop_sound_step process signals input graph base s done_ index s' :
  graph_promises process graph -> ~ In index done_ -> loop_sound process s done_ ->
  compile_indexed process signals input graph base s index = Ok s' -> loop_sound process s' (done_ ++ [index]).
Proof using named.
  intros Hp Hnew [Hf Hall Hn] E. unfold compile_indexed in E.
  apply bind_Ok in E as (st & Hst%ok_or_Ok & (c & _ & ([compiled closure'] & Hcomp%lift_Ok & [= <-])%bind_Ok)%bind_Ok).
  unfold compile_state in Hcomp. apply bind_Ok in Hcomp as ([[[out hs] op] closure1] & Hop & [= <- <-]).
  destruct (compile_operation_Ok _ _ _ _ _ _ _ _ _ _ Hop Hf) as (Hf' & He & Hs & _).
  split; cbn [progress_closure progress_states]; [exact Hf'|apply Forall_app; split|].
  - eapply List.Forall_impl; [|exact Hall]. intros i (st' & k & Hi & Hk & Hid & Hc & Ho). exists st', k. split; [done|]. cbn. split.
    + rewrite bt_insert_get. destruct (String.eqb_spec (id st') (id st)) as [Heq|]; [|done]. exfalso. apply Hnew.
      destruct (Hn _ _ Hk) as (x & Hx & Hat). assert (Hat' : state_at process index (id st')) by (exists st; auto).
      apply (promise_indices _ _ Hp) in Hat, Hat'. congruence.
    + split; [done|]. split; [by eapply command_pinned_extends|by eapply operation_sound_extends].
  - constructor; [|constructor]. exists st. eexists. split; [done|]. cbn. rewrite bt_insert_get, String.eqb_refl. split; [done|]. split; [done|].
    split; [by eapply compile_operation_pinned|done].
  - intros name k. rewrite bt_insert_get. destruct (String.eqb_spec name (id st)) as [->|].
    + intros _. exists index. split; [apply in_app_iff; right; by left|by exists st].
    + intros (i & Hi & ?)%Hn. exists i. split; [apply in_app_iff; by left|done].
Qed.

Lemma loop_sound_all process signals input graph base order : graph_promises process graph -> forall s s' done_,
  NoDup (done_ ++ order) -> loop_sound process s done_ ->
  fold_result (compile_indexed process signals input graph base) s order = Ok s' -> loop_sound process s' (done_ ++ order).
Proof using named.
  intros Hp. induction order as [|index order IH]; intros s s' done_ Hnd Hs; cbn [fold_result].
  - intros [= <-]. by rewrite app_nil_r.
  - destruct (compile_indexed _ _ _ _ _ s index) as [s1|] eqn:E; [|done]. intros H. rewrite cons_middle, app_assoc in *. apply (IH s1); [done| |exact H].
    eapply loop_sound_step; [exact Hp| |exact Hs|exact E]. apply NoDup_app in Hnd as (Hnd & _ & _). apply NoDup_app in Hnd as (_ & Hno & _).
    intros Hin. apply (Hno index); [by apply list_elem_of_In|by left].
Qed.

Lemma validate_start_grows process input closure path key closure' :
  validate_start process input closure path = Ok (key, closure') -> grows process closure closure'.
Proof using Type.
  unfold validate_start. destruct (start process) as [start|]; [|intros [= <- <-]; apply grows_refl].
  intros (d & Hd%resolve_command_Ok & (? & _ & (a & Ha & (r & Hr & (? & _ & (t & _ & H)%bind_Ok)%bind_Ok)%bind_Ok)%bind_Ok)%bind_Ok)%bind_Ok.
  destruct (_ || _) in H; [done|]. apply bind_Ok in H as (k & _ & H). destruct (_ || _) in H; [done|]. injection H as <- <-.
  apply pin_command_grows. exists d, a, r. split; [done|]. split; [by eapply contract_path|]. split; [by eapply contract_path|done].
Qed.

(** ** Compilation does not panic *)

Lemma order_indices process graph : graph_promises process graph ->
  NoDup (topological_order graph) /\ forall i, In i (topological_order graph) <-> (i < List.length (states process))%nat.
Proof using Type.
  intros H. pose proof (promise_order _ _ H) as Hp. split.
  - rewrite Hp. apply NoDup_ListNoDup, seq_NoDup.
  - intros i. rewrite <-list_elem_of_In, Hp, list_elem_of_In, in_seq. lia.
Qed.


Lemma whole_loop_sound process signals input graph base closure s :
  graph_promises process graph -> faithful process closure ->
  fold_result (compile_indexed process signals input graph base)
    {| progress_types := []; progress_states := []; progress_closure := closure |} (topological_order graph) = Ok s ->
  loop_sound process s (topological_order graph).
Proof using named.
  intros Hp Hf Hs. apply (loop_sound_all _ _ _ _ _ _ Hp _ _ []) in Hs; [done|apply (order_indices _ _ Hp)|]. split; cbn; [done|constructor|done].
Qed.

End Pinned.

(** ** A compiled definition *)

Lemma compile_process_Ok metadata index process d :
  compile_process metadata index process = Ok d ->
  let base := index_path "processes" index in
  exists graph key closure s,
    compile_fields (input process) (base +:+ ".input") = Ok (definition_input d)
    /\ compile_signals process base = Ok (definition_signals d)
    /\ validate_graph process base = Some (Ok graph)
    /\ validate_start process (definition_input d) empty_closure base = Ok (key, closure)
    /\ fold_result (compile_indexed process (definition_signals d) (definition_input d) graph base)
         {| progress_types := []; progress_states := []; progress_closure := closure |} (topological_order graph) = Ok s
    /\ collect_caller_session_variables process (progress_closure s) (tenant_variable_of metadata process) (base +:+ ".states")
         = Ok (caller_session_variables d)
    /\ definition_states d = progress_states s /\ definition_dependencies d = progress_closure s
    /\ tenant_variable d = tenant_variable_of metadata process /\ definition d = process.
Proof using Type.
  unfold compile_process. cbv zeta. intros (? & _ & (i & Hi%lift_Ok & (o & _ & (? & _ & (? & _ & (signals & Hs%lift_Ok & (graph & Hg & H)%bind_Ok)%bind_Ok)%bind_Ok)%bind_Ok)%bind_Ok)%bind_Ok)%bind_Ok.
  apply bind_Ok in H as ([key closure] & Hst%lift_Ok & (s & Hl & (m & Hm & (f & _ & (r & _ & [= <-])%bind_Ok)%bind_Ok)%bind_Ok)%bind_Ok).
  exists graph, key, closure, s. apply bind_Ok in Hg as (g & Hg%ok_or_Ok & ->%lift_Ok). cbn. by split_and!.
Qed.

(** The outputs of the compiled states. *)
Definition output_types (states_ : btree CompiledProcessState) : btree ValueContractCatalog :=
  map (fun ns => (ns.1, compiled_output ns.2)) states_.

Section Sound.
Context {named : NamedDependencies dependencies}.

Lemma compile_process_sound metadata index process d :
  compile_process metadata index process = Ok d ->
  loop_sound process {| progress_types := []; progress_states := definition_states d; progress_closure := definition_dependencies d |} (seq 0 (List.length (states process))).
Proof using named.
  intros (graph & key & closure & s & _ & _ & Hg & Hst & Hl & _ & -> & -> & _ & _)%compile_process_Ok.
  destruct (validate_graph_cases process (index_path "processes" index)) as [(_ & g & Hg' & Hp)|(_ & e & He)]; [|congruence].
  rewrite Hg in Hg'. injection Hg' as <-. destruct (validate_start_grows _ _ _ _ _ _ Hst (faithful_empty process)) as [Hf _].
  pose proof (whole_loop_sound _ _ _ _ _ _ _ Hp Hf Hl) as [H1 H2 H3]. destruct (order_indices _ _ Hp) as [_ Ho]. split; cbn; [done| |].
  - rewrite List.Forall_forall in *. intros i Hi. apply (H2 i), Ho. apply in_seq in Hi. lia.
  - intros name k (i & Hi%Ho & Hat)%H3. exists i. split; [apply in_seq; lia|done].
Qed.

Lemma session_variables_of_compiled metadata index process d :
  compile_process metadata index process = Ok d ->
  (forall role, has_role (caller_session_variables d) role <-> In role (process_roles process))
  /\ forall role x, has_variable (caller_session_variables d) role x
       <-> In role (process_roles process)
           /\ role_needs process (definition_dependencies d) (tenant_variable_of metadata process) role x.
Proof using named.
  intros H. pose proof (compile_process_sound _ _ _ _ H) as [_ H2 _]. rewrite List.Forall_forall in H2.
  apply compile_process_Ok in H as (graph & key & closure & s & _ & _ & _ & _ & _ & Hc & _ & Hd & _ & _).
  destruct (session_variables_collected process (progress_closure s) (tenant_variable_of metadata process) (index_path "processes" index +:+ ".states"))
    as (m & Hm & Hr & Hv).
  { intros state [i Hi]%list_elem_of_In%list_elem_of_lookup_1. destruct (H2 i) as (st & k & Hst & _ & _ & Hpin & _).
    - apply in_seq. apply lookup_lt_Some in Hi. lia.
    - replace state with st by congruence. by rewrite <-Hd. }
  rewrite Hc in Hm. injection Hm as ->. rewrite Hd. by split.
Qed.

(** C22: A compiled process holds in its dependencies what the catalogs give
    for its source and nothing else, and has each of its states compiled: a
    command is pinned and may run in its role, a request is pinned and keeps the
    effect of its operation (read-only or not repeated, sent at most once without
    retries and with a way out of ambiguity, or within the time for which the
    provider remembers every one of its keys). *)
Theorem compiled_process_is_pinned_and_sound metadata index process d :
  compile_process metadata index process = Ok d ->
  faithful process (definition_dependencies d)
  /\ (forall name, is_some (bt_get (definition_states d) name) = true <-> In name (map id (states process)))
  /\ forall name k, bt_get (definition_states d) name = Some k ->
       compiled_id k = name
       /\ operation_sound process (definition_dependencies d) (maximum_send_horizons_ms k) (compiled_state_operation k).
Proof using named.
  intros [H1 H2 H3]%compile_process_sound. cbn in *. rewrite List.Forall_forall in H2. split; [exact H1|].
  assert (Hstate : forall i name, state_at process i name -> exists k, bt_get (definition_states d) name = Some k /\ compiled_id k = name
    /\ operation_sound process (definition_dependencies d) (maximum_send_horizons_ms k) (compiled_state_operation k)).
  { intros i name (st & Hi & <-). destruct (H2 i) as (st' & k & Hst & Hk & Hid & _ & Ho).
    - apply in_seq. apply lookup_lt_Some in Hi. lia.
    - replace st' with st in * by congruence. by exists k. }
  split.
  - intros name. split.
    + destruct (bt_get (definition_states d) name) as [k|] eqn:Hk; [|done]. intros _. destruct (H3 _ _ Hk) as (i & _ & st & Hi & <-).
      apply in_map, list_elem_of_In. by eapply list_elem_of_lookup_2.
    + intros (st & <- & [i Hi]%list_elem_of_In%list_elem_of_lookup_1)%in_map_iff. destruct (Hstate i (id st)) as (k & -> & _); [by exists st|done].
  - intros name k Hk. destruct (H3 _ _ Hk) as (i & _ & Hat). destruct (Hstate i name Hat) as (k' & Hk' & ?). by replace k with k' by congruence.
Qed.

(** A caller of a compiled process may come in the roles of its
    permissions, and each role must bring exactly the session variables that it
    needs: the tenant's, the owner's of its permission, those that the commands
    which run as the caller require of it, and those that any value of the
    process reads. *)
Theorem compiled_process_session_variables metadata index process d :
  compile_process metadata index process = Ok d ->
  (forall role, has_role (caller_session_variables d) role <-> In role (process_roles process))
  /\ forall role x, has_variable (caller_session_variables d) role x
       <-> In role (process_roles process)
           /\ role_needs process (definition_dependencies d) (tenant_variable_of metadata process) role x.
Proof using named. exact (session_variables_of_compiled metadata index process d). Qed.
End Sound.

Section Loop_done.
Context {lawful : LawfulDependencies dependencies}.

(** What the loop promises of a whole definition. *)
Lemma compile_process_done metadata index process d graph :
  compile_process metadata index process = Ok d -> process_wf process ->
  validate_graph process (index_path "processes" index) = Some (Ok graph) ->
  graph_promises process graph
  /\ (forall name signal, bt_get (definition_signals d) name = Some signal ->
        tidy (catalog_root_object (correlation signal)) /\ tidy (catalog_root_object (payload signal)))
  /\ tidy (catalog_root_object (definition_input d))
  /\ loop_done process (definition_signals d) (definition_input d) graph (index_path "processes" index)
       {| progress_types := output_types (definition_states d); progress_states := definition_states d;
          progress_closure := definition_dependencies d |} (topological_order graph).
Proof using lawful.
  intros H [Hws Hwe] Hgraph. apply compile_process_Ok in H as (g & key & closure & s & Hi & Hs & Hg & Hst & Hl & _ & Hstates & Hdeps & _ & _).
  rewrite Hgraph in Hg. injection Hg as <-. destruct (validate_graph_cases process (index_path "processes" index)) as [(_ & g & Hg & Hp)|(_ & e & He)]; [|congruence].
  rewrite Hgraph in Hg. injection Hg as <-. split; [done|].
  assert (Hsignals : forall name signal, bt_get (definition_signals d) name = Some signal ->
    tidy (catalog_root_object (correlation signal)) /\ tidy (catalog_root_object (payload signal))).
  { unfold compile_signals in Hs. by eapply signals_tidy_loop; [exact Hs|exact Hws|]. }
  pose proof (compile_fields_tidy _ _ _ Hi) as Hinput. split; [exact Hsignals|]. split; [exact Hinput|].
  destruct (validate_start_grows _ _ _ _ _ _ Hst (faithful_empty process)) as [Hf _].
  destruct (order_indices _ _ Hp) as [Hnd _].
  assert (Hdone : loop_done process (definition_signals d) (definition_input d) graph (index_path "processes" index) s ([] ++ topological_order graph)).
  { eapply (loop_all process (definition_signals d) (definition_input d) graph (index_path "processes" index) Hp Hsignals Hinput Hwe); [|exact Hnd|exact Hl].
    split; cbn; [exact Hf|constructor|done|done|done]. }
  cbn [app] in Hdone. rewrite Hstates, Hdeps. destruct Hdone as [D1 D2 D3 D4 D5].
  assert (Htypes : forall name, bt_get (output_types (progress_states s)) name = bt_get (progress_types s) name).
  { intros name. rewrite D3. unfold output_types. apply (bt_get_map (fun ns : string * CompiledProcessState => compiled_output ns.2)). }
  split; cbn; [exact D1| |by intros name; rewrite Htypes, D3|intros name k; rewrite Htypes; apply D4|exact D5].
  eapply List.Forall_impl; [|exact D2]. intros i. apply state_done_step; cbn; [apply extends_refl|done|intros name k; by rewrite Htypes].
Qed.
End Loop_done.
End Compiled.

(** ** Sample *)

Definition sample_field (name : string) (s : ValueScalar) : ValueContractCatalog :=
  {| roots := [(name, Field_new true (scalar_type s false))]; named_objects := [] |}.

(** A command [greet] of the default source for users of a tenant. *)
Definition sample_greet : ProcessCommandDescriptor := {|
  command_source := "default"; command_descriptor_name := "greet"; arguments := sample_field "name" SString;
  command_result := sample_field "id" SUuid; allowed_roles := [("user", tt)];
  required_session_variables := [("user", [("x-hasura-tenant", scalar_type SString false)])]; command_fingerprint := "f" |}.

Definition sample_metadata : Metadata := {|
  sources := [{| source_metadata_name := "default"; kind := Postgres |}]; tenancy := None; processes := []; decision_outputs := [] |}.

Definition sample_rules : RuleCatalog := {| cat_declared_types := []; cat_rules := []; cat_decision_tables := [] |}.

(** A writer of JSON for the witnesses. *)
Fixpoint json_text (v : Value) : string :=
  match v with
  | JNull => "null"
  | JBool b => if b then "true" else "false"
  | JNumber n => n
  | JString s => json_string s
  | JArray l => "[" +:+ join "," (map json_text l) +:+ "]"
  | JObject o => "{" +:+ join "," (map (fun kv => json_string kv.1 +:+ ":" +:+ json_text kv.2) o) +:+ "}"
  end.

#[export] Instance sample_serde : Serde := {|
  to_vec v := Some (json_text v); to_string v := Some (json_text v); from_str _ := None; value_eqb := json_eqb |}.

#[export] Existing Instance small_digest.

#[export] Instance sample_material : ProcessMaterial := {|
  rule_type_json _ := JNull; process_json p := JString (name p); contract_sha256 _ := "" |}.

#[export] Instance sample_dependencies : ProcessDependencyCatalog :=
  ServerProcessDependencies (connectors := NoConnectors) sample_metadata [("default", [("greet", sample_greet)])] sample_rules.

#[export] Instance sample_lawful : LawfulDependencies sample_dependencies.
Proof.
  split; cbn; try done.
  intros source name d. destruct (String.eqb source "default"); [cbn|done]. destruct (String.eqb name "greet"); [|done]. intros [= <-].
  by repeat constructor.
Qed.

Definition sample_call : ProcessStateOperation :=
  OpCommand {| command_name := "greet"; command_run_as := "caller"; command_arguments := [("name", PInput "who" None false)]; command_next := "done" |}.

Definition sample_process : Process := {|
  name := "welcome"; version := 1; source := "default"; lifecycle := Active;
  permissions := [{| role := "user"; owner_session_variable := None |}]; owner := None; start := None;
  input := [{| field_name := "who"; field_type := "String!" |}]; output := [{| field_name := "id"; field_type := "uuid!" |}];
  idempotency := None; signals := []; start_at := "greet";
  states := [{| id := "greet"; operation := sample_call |};
             {| id := "done"; operation := OpOutput [("id", PState "greet" "id" None None false)] |}] |}.

Definition sample_definition : CompiledProcessDefinition :=
  Eval vm_compute in
  match compile_process sample_metadata 0 sample_process as r return match r with Ok _ => CompiledProcessDefinition | Err _ => unit end with
  | Ok d => d
  | Err _ => tt
  end.

Lemma sample_compiles : compile_process sample_metadata 0 sample_process = Ok sample_definition.
Proof. vm_compute. reflexivity. Qed.

(** ** Witnesses *)


Lemma compiled_process_is_pinned_and_sound_witness :
  compile_process sample_metadata 0 sample_process = Ok sample_definition
  /\ forall name k, bt_get (definition_states sample_definition) name = Some k ->
       compiled_id k = name
       /\ operation_sound sample_process (definition_dependencies sample_definition) (maximum_send_horizons_ms k) (compiled_state_operation k).
Proof.
  split; [exact sample_compiles|].
  exact (proj2 (proj2 (compiled_process_is_pinned_and_sound sample_metadata 0 sample_process sample_definition sample_compiles))).
Defined.

Lemma compiled_process_session_variables_witness :
  has_variable (caller_session_variables sample_definition) "user" "x-hasura-tenant"
  /\ In "user" (process_roles sample_process)
  /\ role_needs sample_process (definition_dependencies sample_definition) None "user" "x-hasura-tenant".
Proof.
  assert (H : has_variable (caller_session_variables sample_definition) "user" "x-hasura-tenant") by (eexists; split; [reflexivity|by left]).
  split; [exact H|].
  exact (proj1 (proj2 (compiled_process_session_variables sample_metadata 0 sample_process sample_definition sample_compiles) _ _) H).
Defined.
