(* ===== verification/ProcessArguments.v ===== *)
(** * The arguments of a compiled process, on a run

    Compilation and evaluation composed: in a compiled process, on any run that
    reaches a state with the outputs it produced in the journal and in a session
    of one of its roles, the bindings of the state evaluate to the contract of
    what they are bound to, or stop at a declared limit. *)
From stdpp Require Import gmap.
From S2P Require Import Prelude Json KeyedMap AbiIds RulesSyntax ValueContract ContractValidity ProcessSyntax ProcessGraph ProcessGraphSpec ProcessTypes ProcessTypesSpec ProcessActivity ProcessInfer ProcessInferSpec ProcessEvaluate ProcessShapes ProcessEvaluateSpec ProcessProgress ProcessDependencies ProcessFingerprint ProcessDefinition ProcessStates ProcessPinned ProcessStatesSpec ProcessCompile ProcessSession ProcessCompileSpec ProcessCompiled.
Set Warnings "-register-all".

(** ** Bindings *)

Definition binding_error (name error : string) : string := "Process binding `" +:+ name +:+ "` failed: " +:+ error.

(** Every binding evaluates, or one of them stops at a limit. *)
Definition within_binding_limits (m : outcome (btree Value)) : Prop :=
  match m with Ok _ => True | Err e => exists name limit, In limit limits /\ e = binding_error name limit end.

Section Bindings.
Context {digest : Digest} {uuids : Uuids}.
Variable declared_type : string -> option RuleType.

Lemma checked_value_within c x v target path :
  context_kept resolved c -> context_shaped c x -> context_complete c x ->
  process_value_wf v -> casts_scalars c v -> session_present x v ->
  validate_value_against declared_type c v target path = Ok tt -> within_limits (evaluate_process_value x v).
Proof using Type.
  intros Hr Hx Hc Hwf Hcast Hses Hv. assert (Hlit : (exists l, v = PLiteral l) \/ exists r, infer_value declared_type c v path = Ok r).
  { destruct v; try (right; by apply bind_Ok in Hv as (r & Hi & _); exists r). by left; eexists. }
  destruct Hlit as [[l ->]|[r Hi]]; [done|]. exact (all_evaluable declared_type c x Hr Hx Hc v path r Hwf Hcast Hses Hi).
Qed.

Lemma checked_bindings_within c x values target path :
  context_kept resolved c -> context_shaped c x -> context_complete c x -> NoDup (map fst values) ->
  Forall (fun nv => process_value_wf nv.2 /\ casts_scalars c nv.2 /\ session_present x nv.2) values ->
  validate_binding_map declared_type c values target path = Ok tt ->
  within_binding_limits (evaluate_process_values x values).
Proof using Type.
  intros Hr Hx Hc Hnd Hwf ([] & Hf%each_result_Ok & Hu%each_result_Ok)%bind_Ok. rewrite List.Forall_forall in Hwf, Hf, Hu.
  assert (Hw : forall nv, In nv values -> within_limits (evaluate_process_value x nv.2)).
  { intros [n v] Hin. destruct (Hwf _ Hin) as (Hw & Hcast & Hses). specialize (Hu _ Hin). cbn in Hu. unfold bt_contains in Hu.
    destruct (bt_get (roots target) n) as [field|] eqn:Hg; [|done]. apply bt_get_In in Hg. specialize (Hf _ Hg). cbn in Hf.
    rewrite (bt_In_get values n v Hnd Hin) in Hf. eapply (checked_value_within c x v); eauto. }
  clear -Hw. unfold evaluate_process_values. induction values as [|[n v] values IH]; [done|]. cbn [map_result fst snd].
  pose proof (Hw _ (or_introl eq_refl)) as Hv. cbn in Hv. destruct (evaluate_process_value x v) as [w|e]; cbn; [|by exists n, e].
  assert (IH' := IH (fun nv Hin => Hw nv (or_intror Hin))). destruct (map_result _ values); done.
Qed.
End Bindings.

(** ** Variables that are read *)

Definition session_has (x : ProcessValueContext) (name : string) : Prop :=
  exists session w, caller_session x = Some session /\ object_field session name "caller session" = Ok w.

Lemma reads_present x v : (forall name, In name (reads v) -> session_has x name) -> session_present x v.
Proof.
  induction v as [v Hleaf|inputs ml mi IH|from field project ml mi IH] using ProcessValue_ind'; intros H.
  - destruct v; try done. apply H. by left.
  - cbn. apply fold_and_iff. rewrite List.Forall_forall in *. intros v Hin. apply (IH v Hin). intros name Hn. apply H. cbn. apply in_flat_map. eauto.
  - by apply IH.
Qed.

Section Arguments.
Context {serde : Serde} {digest : Digest} {uuids : Uuids} {material : ProcessMaterial} {dependencies : ProcessDependencyCatalog}.

Lemma bound_values process signals c path closure op item values target :
  bound process signals c path closure op item values target -> forall nv, In nv values -> In nv.2 (operation_values op).
Proof using Type.
  intros Hb nv Hin. apply (in_map snd) in Hin.
  destruct Hb as [| |w table d Ht Hg|w case name d Ht Hc Hn Hg| | | | |]; cbn; try done; rewrite ?in_app_iff; auto.
  right. apply in_flat_map. eauto.
Qed.

Lemma bound_item process signals c path closure op item values target :
  bound process signals c path closure op (Some item) values target ->
  exists for_each, op = OpForEach for_each /\ for_each_item (each_fields for_each) c (path +:+ ".for_each") = Ok item.
Proof using Type. inversion 1; subst; eexists; (split; [done|]); done. Qed.

(** The context of a state of a compiled definition, with the outputs of all
    its states. *)
Definition definition_context (process_index : nat) (d : CompiledProcessDefinition) (index : nat) : option CompileContext :=
  match validate_graph (definition d) (index_path "processes" process_index) with
  | Some (Ok graph) => state_context (definition_input d) graph (output_types (definition_states d)) index
  | _ => None
  end.

(** A run of the process that reached a state: the outputs it produced are in
    the journal and have the shapes of their states, so has the input, and the
    session has, as texts, the variables of one of the roles. *)
Record running (process : Process) (d : CompiledProcessDefinition) (index : nat) (item : option TypeRef) (x : ProcessValueContext) : Prop := {
  running_trace : exists trace, run process index trace
    /\ forall i st, (i, true) ∈ trace -> states process !! i = Some st ->
         exists output, object_field (ctx_state x) (id st) "state journal" = Ok output;
  running_outputs : forall name k output, bt_get (definition_states d) name = Some k ->
    object_field (ctx_state x) name "state journal" = Ok output -> has_shape output (catalog_root_object (compiled_output k));
  running_input : has_shape (ctx_input x) (catalog_root_object (definition_input d));
  running_item : forall t, item = Some t -> exists value, ctx_item x = Some value /\ has_shape value t;
  running_time : is_text (ctx_workflow_time x);
  running_texts : forall session name v, caller_session x = Some session -> object_field session name "caller session" = Ok v -> is_text v;
  running_role : exists role, has_role (caller_session_variables d) role
    /\ forall name, has_variable (caller_session_variables d) role name -> session_has x name;
}.

Section Lawful.
Context {lawful : LawfulDependencies dependencies}.
Variables (metadata : Metadata) (process_index : nat) (process : Process) (d : CompiledProcessDefinition).
Hypothesis compiled : compile_process metadata process_index process = Ok d.
Hypothesis maps : process_wf process.

Abbreviation base := (index_path "processes" process_index).

Lemma definition_context_inv index c : definition_context process_index d index = Some c ->
  exists graph, validate_graph process base = Some (Ok graph) /\ state_context (definition_input d) graph (output_types (definition_states d)) index = Some c.
Proof using compiled.
  unfold definition_context. assert (Hd : definition d = process) by (apply compile_process_Ok in compiled as (g & k & cl & s & H); apply H).
  rewrite Hd. destruct (validate_graph process base) as [[graph|]|]; try done. eauto.
Qed.

Lemma state_context_inv input graph types index c : state_context input graph types index = Some c ->
  exists anc def av, ancestors graph !! index = Some anc /\ definite_ancestors graph !! index = Some def /\ available_outputs graph !! index = Some av
    /\ c = {| context_input := input; state_types := types; context_ancestors := anc; context_definite := def; context_available := av;
             context_indices := state_indices graph; context_item := None |}.
Proof using Type.
  unfold state_context. destruct (ancestors graph !! index) as [anc|]; [|done]. destruct (definite_ancestors graph !! index) as [def|]; [|done].
  destruct (available_outputs graph !! index) as [av|]; [|done]. intros [= <-]. by exists anc, def, av.
Qed.

Section State.
Variables (index : nat) (state : ProcessState) (c : CompileContext) (item : option TypeRef) (values : btree ProcessValue) (target : ValueContractCatalog).
Hypothesis at_index : states process !! index = Some state.
Hypothesis context : definition_context process_index d index = Some c.
Hypothesis binds : bound process (definition_signals d) c (state_path base index) (definition_dependencies d) (operation state) item values target.

(** The bindings were checked, and remain so with all outputs known. *)
Lemma bound_checked :
  context_kept tidy (in_scope c item) /\ exists path, validate_binding_map declared_type (in_scope c item) values target path = Ok tt.
Proof using lawful compiled maps at_index context binds.
  destruct (definition_context_inv _ _ context) as (graph & Hg & Hc).
  destruct (compile_process_done _ _ _ _ _ compiled maps Hg) as (Hp & _ & Hinput & [Hf Hd _ Ht _]). cbn in *.
  assert (Hin : In index (topological_order graph)) by (apply (order_indices _ _ Hp); by apply lookup_lt_Some in at_index).
  rewrite List.Forall_forall in Hd. destruct (Hd index Hin) as (st & types & c0 & closure & out & hs & op & closure' & Hst & Hc0 & Hop & Hfc & Hk0 & He & _ & Htypes).
  cbn in *. replace st with state in * by congruence.
  pose proof (state_context_tidy _ _ Hinput _ _ _ Hc Ht) as Hkept.
  assert (Hle : context_le c0 c).
  { destruct (state_context_inv _ _ _ _ _ Hc0) as (a & b & v & Ha & Hb & Hv & ->). destruct (state_context_inv _ _ _ _ _ Hc) as (a' & b' & v' & Ha' & Hb' & Hv' & ->).
    split; cbn; try done; congruence. }
  split; [|exact (compile_operation_bound process _ _ _ _ _ _ _ _ _ _ _ _ _ _ Hop Hfc Hle Hf He binds)].
  destruct item as [it|]; [|exact Hkept]. destruct Hkept as [K1 K2 K3]. split; cbn; [exact K1|exact K2|]. intros t [= <-].
  destruct (bound_item _ _ _ _ _ _ _ _ _ binds) as (for_each & Hfor & Hi). destruct maps as [_ Hwf]. rewrite List.Forall_forall in Hwf.
  specialize (Hwf state). rewrite Hfor in Hwf. eapply for_each_item_tidy; [exact Hi|by split|]. apply Hwf.
  apply list_elem_of_In. by eapply list_elem_of_lookup_2.
Qed.

Variable x : ProcessValueContext.
Hypothesis running_ : running process d index item x.

Lemma running_shaped : context_shaped (in_scope c item) x.
Proof using compiled context running_.
  clear at_index binds maps. destruct running_ as [_ Ho Hi Hit Htime Htexts _]. destruct (definition_context_inv _ _ context) as (graph & _ & Hc).
  destruct (state_context_inv _ _ _ _ _ Hc) as (a & b & v & _ & _ & _ & ->).
  assert (Hstates : forall name contract output, bt_get (output_types (definition_states d)) name = Some contract ->
    object_field (ctx_state x) name "state journal" = Ok output -> has_shape output (catalog_root_object contract)).
  { intros name contract output. unfold output_types. rewrite (bt_get_map (fun ns : string * CompiledProcessState => compiled_output ns.2)).
    destruct (bt_get (definition_states d) name) as [k|] eqn:Hk; [|done]. intros [= <-]. by apply (Ho name k). }
  destruct item as [it|]; split; cbn; try done. intros t w [= <-] Hw. destruct (Hit it eq_refl) as (w' & Hw' & Hs). by replace w with w' by congruence.
Qed.

Lemma running_complete : context_kept strict (in_scope c item) -> context_complete (in_scope c item) x.
Proof using compiled context running_.
  clear at_index binds maps. intros Hstrict. destruct (definition_context_inv _ _ context) as (graph & Hg & Hc).
  destruct (state_context_inv _ _ _ _ _ Hc) as (anc & def & av & _ & _ & Hav & Heq).
  destruct (validate_graph_cases process base) as [(_ & g & Hg' & Hp)|(_ & e & He)]; [|congruence]. rewrite Hg in Hg'. injection Hg' as <-.
  destruct (running_trace _ _ _ _ _ running_) as (trace & Hrun & Hjournal). split; [done| |].
  - intros name i Hi Hin. assert (Hi' : bt_get (state_indices graph) name = Some i /\ i ∈ av) by (subst c; by destruct item).
    destruct Hi' as [(st & Hst & <-)%(promise_indices _ _ Hp) Hmem]. apply (Hjournal i st); [|done]. by apply (promise_available _ _ Hp _ _ Hav).
  - intros t Ht. destruct (running_item _ _ _ _ _ running_ t) as (w & Hw & _); [|by exists w]. subst c. by destruct item.
Qed.

Lemma running_session nv : In nv values -> session_present x nv.2.
Proof using compiled at_index binds running_ lawful.
  intros Hin. apply reads_present. intros name Hn. destruct (running_role _ _ _ _ _ running_) as (role & Hrole & Hhas). apply Hhas.
  destruct (session_variables_of_compiled _ _ _ _ compiled) as [Hr Hv]. apply Hv. split; [by apply Hr|]. right. right. right. unfold process_reads.
  apply in_app_iff. right. apply in_flat_map. exists state. split; [apply list_elem_of_In; by eapply list_elem_of_lookup_2|].
  apply in_flat_map. exists nv.2. split; [by eapply bound_values|done].
Qed.

Lemma bindings_on_run :
  NoDup (map fst values) -> Forall (fun nv => process_value_wf nv.2 /\ casts_scalars (in_scope c item) nv.2) values ->
  context_kept strict (in_scope c item) ->
  match evaluate_process_values x values with
  | Ok arguments => has_shape (JObject arguments) (catalog_root_object target) /\ incl (map fst arguments) (map fst (roots target))
  | Err e => exists name limit, In limit limits /\ e = binding_error name limit
  end.
Proof using lawful compiled maps at_index context binds running_.
  intros Hnd Hwf Hstrict. destruct bound_checked as [Htidy [path Hb]].
  assert (Hr : context_kept resolved (in_scope c item)).
  { destruct Htidy as [[? _] H2 H3]. split; [done|..]; [by intros s k [? _]%H2|by intros t [? _]%H3]. }
  assert (Hw : within_binding_limits (evaluate_process_values x values)).
  { eapply checked_bindings_within; [exact Hr|apply running_shaped|by apply running_complete|done| |exact Hb]. rewrite List.Forall_forall in *.
    intros nv Hin. destruct (Hwf nv Hin). split_and!; [done..|by apply running_session]. }
  destruct (evaluate_process_values x values) as [arguments|e] eqn:He; [|done].
  exact (bindings_shape _ _ _ _ _ _ _ Hr running_shaped Hnd Hwf Hb He).
Qed.

(** C21: In a compiled process, whenever a run reaches a state with the outputs
    it produced in its journal, an input, outputs and an item, if one is in
    scope, of their types, and a session with the variables of one of its roles,
    as texts, the bindings of the state evaluate
    to an argument object of the contract of the command, request, decision,
    rule, signal or output they are bound to: every required argument is there,
    every argument has the shape of its type and there are no others; or they
    fail at a limit that a list combinator declares, and only there.  This is
    for well-formed bindings under distinct names that cast only scalars other
    than json to strings, in a context of strict types: nothing in the input,
    the outputs or the item in scope is nullable or optional. *)
Theorem compiled_bindings_evaluate :
  NoDup (map fst values) -> Forall (fun nv => process_value_wf nv.2 /\ casts_scalars (in_scope c item) nv.2) values ->
  context_kept strict (in_scope c item) ->
  match evaluate_process_values x values with
  | Ok arguments => has_shape (JObject arguments) (catalog_root_object target) /\ incl (map fst arguments) (map fst (roots target))
  | Err e => exists name limit, In limit limits /\ e = binding_error name limit
  end.
Proof using lawful compiled maps at_index context binds running_. exact bindings_on_run. Qed.
End State.
End Lawful.
End Arguments.

(** ** Witness *)

(** The call of [greet] at the start of the sample process. *)
Definition sample_call_run : ProcessValueContext := {|
  source_name := "default"; instance_id := "i"; ctx_input := JObject [("who", JString "Ada")]; ctx_state := JObject [];
  caller_session := Some (JObject [("x-hasura-tenant", JString "t")]); ctx_workflow_time := JString "2024-01-01T00:00:00Z";
  ctx_item := None; ctx_item_key := None |}.

Definition sample_call_context : CompileContext := {|
  context_input := definition_input sample_definition; state_types := output_types (definition_states sample_definition);
  context_ancestors := ∅; context_definite := ∅; context_available := ∅; context_indices := [("done", 1%nat); ("greet", O)]; context_item := None |}.

Lemma sample_maps : process_wf sample_process.
Proof. by repeat constructor. Qed.

Lemma sample_running : running sample_process sample_definition 0 None sample_call_run.
Proof.
  split; try done.
  - exists []. split; [apply run_start; by eexists|]. intros i st Hin. by apply elem_of_nil in Hin.
  - cbn. constructor; [intros f field [[= <- <-]|[]] _; by left|]. intros f field v [[= <- <-]|[]]. cbn. intros [= <-]. by constructor.
  - by eexists.
  - intros session name v [= <-] (o & [= <-] & Ho)%object_field_Ok. cbn in Ho. destruct (String.eqb name "x-hasura-tenant"); [|done]. injection Ho as <-. by eexists.
  - exists "user". split; [by eexists|]. intros name (s & Hs & Hin). vm_compute in Hs. injection Hs as <-. destruct Hin as [<-|[]].
    do 2 eexists. split; [reflexivity|reflexivity].
Qed.

Lemma compiled_bindings_evaluate_witness :
  evaluate_process_values sample_call_run [("name", PInput "who" None false)] = Ok [("name", JString "Ada")]
  /\ has_shape (JObject [("name", JString "Ada")]) (catalog_root_object (sample_field "name" SString)).
Proof.
  split; [reflexivity|].
  refine (proj1 (compiled_bindings_evaluate sample_metadata 0 sample_process sample_definition sample_compiles sample_maps
    0 {| id := "greet"; operation := sample_call |} sample_call_context None [("name", PInput "who" None false)] (sample_field "name" SString)
    _ _ _ sample_call_run sample_running _ _ _)); [reflexivity|vm_compute; reflexivity| | | |].
  - exact (bound_command sample_process [] sample_call_context _ (definition_dependencies sample_definition)
      {| command_name := "greet"; command_run_as := "caller"; command_arguments := [("name", PInput "who" None false)]; command_next := "done" |}
      sample_greet eq_refl).
  - no_dup.
  - repeat constructor. intros t. cbn. intros [= <-] [=].
  - split; [by repeat constructor| |done]. intros state contract. cbn. destruct (String.eqb state "done"); [intros [= <-]; by repeat constructor|].
    destruct (String.eqb state "greet"); [intros [= <-]; by repeat constructor|done].
Defined.
