(* ===== verification/ProcessTyped.v ===== *)
(** * Typed values of JSON ([crates/server/src/processes/start.rs])

    [typed_value], what a process validates in the place of a JSON value, and
    the canonical decimals it makes of JSON numbers that are no 64-bit
    integers.  A number is its text, as [serde_json] keeps it. *)
From S2P Require Import Prelude Json RulesTime ValueContract ProcessSyntax ProcessInfer ProcessEvaluate.
Set Warnings "-register-all".

Definition MAXIMUM_DECIMAL_BYTES : Z := 262144.

(** [str::find(['e', 'E'])], with the text before and after it. *)
Definition is_exponent_byte (a : ascii) : bool := Ascii.eqb a "e" || Ascii.eqb a "E".

Fixpoint split_exponent (s : string) : option (string * string) :=
  match s with
  | EmptyString => None
  | String a s' =>
      if is_exponent_byte a then Some (EmptyString, s')
      else match split_exponent s' with
           | Some (l, r) => Some (String a l, r)
           | None => None
           end
  end.

(** [trim_start_matches('0')]. *)
Fixpoint trim_start_zeros (s : string) : string :=
  match s with
  | String a s' => if Ascii.eqb a "0" then trim_start_zeros s' else s
  | EmptyString => EmptyString
  end.

(** [split_once('.')], all of it the integer part if there is no point. *)
Definition split_point (s : string) : string * string :=
  match split_once "." s with Some (integer, fraction) => (integer, fraction) | None => (s, EmptyString) end.

(** The digits with the point after the first [point] of them, zeros added. *)
Definition fixed_point (digits : string) (point : Z) : string :=
  if point <=? 0 then "0." +:+ repeat_string (Z.to_nat (- point)) "0" +:+ digits
  else
    let point := Z.to_nat point in
    if (String.length digits <=? point)%nat then digits +:+ repeat_string (point - String.length digits) "0"
    else str_take point digits +:+ "." +:+ str_drop point digits.

Definition split_sign (value : string) : bool * string :=
  match strip_prefix_byte "-" value with Some value => (true, value) | None => (false, value) end.

Definition minimal_decimal (negative : bool) (fixed : string) : string :=
  let '(whole, fraction) := split_point fixed in
  let whole := trim_start_zeros whole in
  let whole := if String.eqb whole "" then "0" else whole in
  let fraction := trim_end_matches "0" fraction in
  let is_zero := String.eqb whole "0" && String.eqb fraction "" in
  (if negative && negb is_zero then "-" else "") +:+ whole +:+ (if String.eqb fraction "" then "" else "." +:+ fraction).

Definition exponent_out_of_range : string := "JSON decimal exponent is out of range".
Definition decimal_too_large : string := "canonical JSON decimal exceeds the value-contract size limit".

Definition normalize_json_decimal (value : string) : outcome string :=
  let '(negative, unsigned) := split_sign value in
  '(mantissa, exponent) ← match split_exponent unsigned with
                          | Some (mantissa, text) =>
                              exponent ← ok_or exponent_out_of_range (parse_i64 text); Ok (mantissa, exponent)
                          | None => Ok (unsigned, 0)
                          end;
  let '(integer, fraction) := split_point mantissa in
  let digits := integer +:+ fraction in
  point ← ok_or exponent_out_of_range (checked i64_min i64_max (Z.of_nat (String.length integer) + exponent));
  if MAXIMUM_DECIMAL_BYTES <? Z.abs point then bail decimal_too_large
  else
    let fixed := fixed_point digits point in
    if MAXIMUM_DECIMAL_BYTES <? Z.of_nat (String.length fixed) then bail decimal_too_large
    else Ok (minimal_decimal negative fixed).

Definition canonical_decimal (value : string) : outcome string :=
  normalized ← normalize_json_decimal value;
  map_err (fun error => "invalid canonical JSON decimal: " +:+ ValueContractError_to_string error) (CanonicalDecimal_try_new normalized).

Fixpoint typed_value (value : Value) : outcome TypedValue :=
  match value with
  | JNull => Ok Null
  | JBool value => Ok (Boolean value)
  | JString value => Ok (Text value)
  | JNumber value =>
      number ← match number_as_i64 value with
               | Some value => Ok (I64 value)
               | None =>
                   match number_as_u64 value with
                   | Some value => Ok (U64 value)
                   | None => text ← canonical_decimal value; Ok (Decimal text)
                   end
               end;
      Ok (Number number)
  | JArray values => values ← map_result typed_value values; Ok (List_ values)
  | JObject values =>
      values ← map_result (fun nv : string * Value => value ← typed_value nv.2; Ok (nv.1, value)) values;
      Ok (Object_ (bt_collect values))
  end.
