(* ===== verification/ProcessTypedSpec.v ===== *)
(** * Typed values of JSON, correct

    The normalisation of a JSON number gives the canonical decimal of the same
    rational number unless a size limit stops it, and a JSON value that a
    contract accepts after [typed_value] has the shape of the contract. *)
From Stdlib Require Import QArith Qpower.
From S2P Require Import Prelude Json RulesTime ValueContract ContractValidity ContractSize ProcessSyntax ProcessTypes ProcessTypesSpec ProcessInfer ProcessEvaluate ProcessShapes ProcessTyped.
From Stdlib Require Import Lqa.
Open Scope Z_scope.
Set Warnings "-register-all".

(** ** JSON numbers

    The grammar of RFC 8259, less that it has no leading zeros. *)

Record JsonExponent := { exponent_letter : ascii; exponent_sign : string; exponent_digits : string }.

Record JsonNumber := {
  num_negative : bool;
  num_integer : string;
  num_fraction : option string;
  num_exponent : option JsonExponent;
}.

Definition exponent_text (e : JsonExponent) : string := String (exponent_letter e) (exponent_sign e +:+ exponent_digits e).

Definition mantissa_text (n : JsonNumber) : string :=
  num_integer n +:+ match num_fraction n with Some f => String "." f | None => "" end.

Definition number_text (n : JsonNumber) : string :=
  (if num_negative n then "-" else "") +:+ mantissa_text n
  +:+ match num_exponent n with Some e => exponent_text e | None => "" end.

Definition is_digits (s : string) : Prop := bytes_forallb is_ascii_digit_byte s = true.

Definition exponent_wf (e : JsonExponent) : Prop :=
  is_exponent_byte (exponent_letter e) = true /\ In (exponent_sign e) [""; "+"; "-"]%string
  /\ is_digits (exponent_digits e) /\ exponent_digits e <> "".

Record number_ok (n : JsonNumber) : Prop := {
  ok_integer : is_digits (num_integer n) /\ num_integer n <> "";
  ok_fraction : forall f, num_fraction n = Some f -> is_digits f;
  ok_exponent : forall e, num_exponent n = Some e -> exponent_wf e;
}.

Definition fraction_digits (n : JsonNumber) : string := default "" (num_fraction n).

Definition exponent_value (n : JsonNumber) : Z :=
  match num_exponent n with
  | Some e => (if String.eqb (exponent_sign e) "-" then -1 else 1) * digits_value 0 (exponent_digits e)
  | None => 0
  end.

(** The number [w.f] with the point moved by [e] places. *)
Definition point_value (w f : string) (e : Z) : Q :=
  (inject_Z (digits_value 0 (w +:+ f)) * Qpower (10 # 1) (e - Z.of_nat (String.length f)))%Q.

(** The rational number a JSON number denotes. *)
Definition json_number_value (n : JsonNumber) : Q :=
  ((if num_negative n then -(1) else 1) * point_value (num_integer n) (fraction_digits n) (exponent_value n))%Q.

(** A minimal fixed-point spelling: no exponent, no zero at the front or after
    the point that could be left out, and no negative zero. *)
Record minimal (n : JsonNumber) : Prop := {
  minimal_integer : num_integer n = "0" \/ byte_at_is (num_integer n) 0 "0" = false;
  minimal_fraction : forall f, num_fraction n = Some f -> f <> "" /\ forall s, f <> s +:+ "0";
  minimal_exponent : num_exponent n = None;
  minimal_sign : num_negative n = true -> num_integer n <> "0" \/ num_fraction n <> None;
}.

(** ** The parts of a number *)

Lemma digits_no_byte p s : is_digits s -> (forall a, p a = true -> is_ascii_digit_byte a = false) -> bytes_forallb (fun a => negb (p a)) s = true.
Proof.
  intros Hs Hp. induction s as [|a s IH]; [done|]. unfold is_digits in *. cbn in *. apply andb_true_iff in Hs as [Ha Hs]. rewrite IH by done.
  destruct (p a) eqn:E; [|done]. rewrite (Hp a E) in Ha. done.
Qed.

Lemma exponent_byte_not_digit a : is_exponent_byte a = true -> is_ascii_digit_byte a = false.
Proof. intros H. apply orb_true_iff in H as [H|H]; apply Ascii.eqb_eq in H; subst a; reflexivity. Qed.

Lemma split_exponent_app l s : bytes_forallb (fun a => negb (is_exponent_byte a)) l = true ->
  split_exponent (l +:+ s) = match split_exponent s with Some (x, y) => Some (l +:+ x, y) | None => None end.
Proof.
  induction l as [|a l IH]; intros Hl; [rewrite str_app_nil_l; by destruct (split_exponent s) as [[]|]; rewrite ?str_app_nil_l|]. cbn in Hl. apply andb_true_iff in Hl as [Ha Hl].
  rewrite str_app_cons. cbn [split_exponent]. destruct (is_exponent_byte a); [done|]. rewrite IH by done. by destruct (split_exponent s) as [[]|].
Qed.

Lemma split_once_app l s : bytes_forallb (fun a => negb (Ascii.eqb a ".")) l = true ->
  split_once "." (l +:+ s) = match split_once "." s with Some (x, y) => Some (l +:+ x, y) | None => None end.
Proof.
  induction l as [|a l IH]; intros Hl; [rewrite str_app_nil_l; by destruct (split_once "." s) as [[]|]; rewrite ?str_app_nil_l|]. cbn in Hl. apply andb_true_iff in Hl as [Ha Hl].
  rewrite str_app_cons. cbn [split_once]. destruct (Ascii.eqb a "."); [done|]. rewrite IH by done. by destruct (split_once "." s) as [[]|].
Qed.

Lemma is_digits_no_point w : is_digits w -> bytes_forallb (fun a => negb (Ascii.eqb a ".")) w = true.
Proof. intros H. apply (digits_no_byte (fun a => Ascii.eqb a ".")); [done|]. by intros a ->%Ascii.eqb_eq. Qed.

Lemma split_point_dot w f : is_digits w -> split_point (w +:+ String "." f) = (w, f).
Proof. intros Hw. unfold split_point. rewrite split_once_app by (by apply is_digits_no_point). cbn. by rewrite str_app_nil_r. Qed.

Lemma split_point_whole w : is_digits w -> split_point w = (w, "").
Proof.
  intros Hw. unfold split_point. pose proof (split_once_app w "" (is_digits_no_point w Hw)) as H. rewrite str_app_nil_r in H. by rewrite H.
Qed.

Section Parts.
Variable n : JsonNumber.
Hypothesis Hn : number_ok n.

Lemma mantissa_split : split_point (mantissa_text n) = (num_integer n, fraction_digits n).
Proof using Hn.
  destruct Hn as [[Hi _] _ _]. unfold mantissa_text, fraction_digits. destruct (num_fraction n) as [f|]; [by apply split_point_dot|].
  rewrite str_app_nil_r. by apply split_point_whole.
Qed.

Lemma mantissa_no_exponent : bytes_forallb (fun a => negb (is_exponent_byte a)) (mantissa_text n) = true.
Proof using Hn.
  destruct Hn as [[Hi _] Hf _]. unfold mantissa_text. rewrite bytes_forallb_app. apply andb_true_iff.
  split; [apply digits_no_byte; [done|apply exponent_byte_not_digit]|]. destruct (num_fraction n) as [f|]; [|done]. cbn.
  apply digits_no_byte; [by apply Hf|apply exponent_byte_not_digit].
Qed.

Lemma sign_split s : split_sign ((if num_negative n then "-" else "") +:+ mantissa_text n +:+ s) = (num_negative n, mantissa_text n +:+ s).
Proof using Hn.
  destruct Hn as [[Hi Hne] _ _]. unfold split_sign. destruct (num_negative n); [done|]. rewrite str_app_nil_l. unfold mantissa_text.
  destruct (num_integer n) as [|a w] eqn:E; [done|]. rewrite !str_app_cons. cbn [strip_prefix_byte].
  destruct (Ascii.eqb_spec "-" a) as [<-|]; [|done]. by unfold is_digits in Hi.
Qed.

Lemma exponent_parse e : num_exponent n = Some e -> parse_i64 (exponent_sign e +:+ exponent_digits e) = checked i64_min i64_max (exponent_value n).
Proof using Hn.
  intros He. destruct Hn as [_ _ Hx]. destruct (Hx e He) as (_ & Hs & Hd & Hne). unfold exponent_value. rewrite He.
  assert (Hp : parse_digits (exponent_digits e) = Some (digits_value 0 (exponent_digits e))).
  { unfold parse_digits. rewrite Hd. by destruct (String.eqb_spec (exponent_digits e) ""). }
  destruct Hs as [<-|[<-|[<-|[]]]]; cbn [String.eqb Ascii.eqb Bool.eqb].
  - rewrite Z.mul_1_l. by apply parse_signed_digits.
  - rewrite Z.mul_1_l. change ("+" +:+ exponent_digits e) with (String "+" (exponent_digits e)). unfold parse_i64, parse_signed. by rewrite Hp.
  - replace (-1 * digits_value 0 (exponent_digits e)) with (- digits_value 0 (exponent_digits e)) by lia. by apply parse_signed_neg_digits.
Qed.

(** Where the point of the number goes, when it and the exponent are 64-bit
    integers. *)
Definition point_position : Z := Z.of_nat (String.length (num_integer n)) + exponent_value n.

Lemma normalize_unfold :
  normalize_json_decimal (number_text n)
  = (_ ← ok_or exponent_out_of_range (checked i64_min i64_max (exponent_value n));
     _ ← ok_or exponent_out_of_range (checked i64_min i64_max point_position);
     let fixed := fixed_point (num_integer n +:+ fraction_digits n) point_position in
     if MAXIMUM_DECIMAL_BYTES <? Z.abs point_position then bail decimal_too_large
     else if MAXIMUM_DECIMAL_BYTES <? Z.of_nat (String.length fixed) then bail decimal_too_large
     else Ok (minimal_decimal (num_negative n) fixed)).
Proof using Hn.
  unfold normalize_json_decimal, number_text. rewrite sign_split, split_exponent_app by apply mantissa_no_exponent.
  assert (Hp : forall x, (let '(integer, fraction) := split_point (mantissa_text n) in
      point ← ok_or exponent_out_of_range (checked i64_min i64_max (Z.of_nat (String.length integer) + x));
      if MAXIMUM_DECIMAL_BYTES <? Z.abs point then bail decimal_too_large
      else if MAXIMUM_DECIMAL_BYTES <? Z.of_nat (String.length (fixed_point (integer +:+ fraction) point)) then bail decimal_too_large
      else Ok (minimal_decimal (num_negative n) (fixed_point (integer +:+ fraction) point)))
    = (_ ← ok_or exponent_out_of_range (checked i64_min i64_max (Z.of_nat (String.length (num_integer n)) + x));
       let position := Z.of_nat (String.length (num_integer n)) + x in
       let fixed := fixed_point (num_integer n +:+ fraction_digits n) position in
       if MAXIMUM_DECIMAL_BYTES <? Z.abs position then bail decimal_too_large
       else if MAXIMUM_DECIMAL_BYTES <? Z.of_nat (String.length fixed) then bail decimal_too_large
       else Ok (minimal_decimal (num_negative n) fixed))).
  { intros x. rewrite mantissa_split. destruct (checked i64_min i64_max _) as [p|] eqn:Ep; [|done]. apply checked_Some in Ep as [-> _]. done. }
  unfold point_position. destruct (num_exponent n) as [e|] eqn:He.
  - assert (Hb : is_exponent_byte (exponent_letter e) = true) by (by apply (ok_exponent n Hn e)).
    cbn [exponent_text split_exponent]. rewrite Hb, str_app_nil_r, (exponent_parse e He).
    destruct (checked i64_min i64_max (exponent_value n)) as [x|] eqn:Ex; [|done]. apply checked_Some in Ex as [-> _].
    cbn [ok_or mbind result_bind]. apply Hp.
  - cbn [split_exponent]. rewrite str_app_nil_r. assert (H0 : exponent_value n = 0) by (unfold exponent_value; by rewrite He).
    rewrite H0. cbn [mbind result_bind]. apply Hp.
Qed.
End Parts.

(** ** Values *)

Lemma ten_nonzero : ~ (10 # 1 == 0)%Q.
Proof. by intros H. Qed.

Lemma power_ten k : 0 <= k -> (Qpower (10 # 1) k == inject_Z (10 ^ k))%Q.
Proof. intros Hk. change (10 # 1)%Q with (inject_Z 10). symmetry. by apply Zpower_Qpower. Qed.

Lemma point_value_shift m k e e' : (0 <= k)%Z -> e = e' + k ->
  (inject_Z m * Qpower (10 # 1) e == inject_Z (m * 10 ^ k) * Qpower (10 # 1) e')%Q.
Proof.
  intros Hk ->. rewrite Qpower_plus by apply ten_nonzero. rewrite (power_ten k Hk), inject_Z_mult. ring.
Qed.

(** Moving the point keeps the number. *)
Lemma point_value_move w f w' f' e e' : w +:+ f = w' +:+ f' ->
  e - Z.of_nat (String.length f) = e' - Z.of_nat (String.length f') -> (point_value w f e == point_value w' f' e')%Q.
Proof. intros Hw He. unfold point_value. by rewrite Hw, He. Qed.

(** Zeros at the front of the digits do not matter, nor zeros at their end. *)
Lemma point_value_front z w f e : (point_value (repeat_string z "0" +:+ w) f e == point_value w f e)%Q.
Proof. unfold point_value. by rewrite str_app_assoc, digits_value_app, repeat_zeros_value, Z.mul_0_l. Qed.

Lemma point_value_back w f z e : (point_value w (f +:+ repeat_string z "0") e == point_value w f e)%Q.
Proof.
  unfold point_value. rewrite <-str_app_assoc, digits_value_app, repeat_zeros_value, str_length_app, repeat_zeros_length.
  symmetry. apply point_value_shift; lia.
Qed.


Lemma trim_start_zeros_spec s : exists z, s = repeat_string z "0" +:+ trim_start_zeros s /\ byte_at_is (trim_start_zeros s) 0 "0" = false.
Proof.
  induction s as [|a s (z & IH & H0)]; [by exists O|]. cbn. destruct (Ascii.eqb_spec a "0") as [->|Ha].
  - exists (S z). split; [|done]. cbn [repeat_string]. rewrite str_app_assoc, <-IH. done.
  - exists O. split; [by rewrite str_app_nil_l|]. unfold byte_at_is. cbn. by destruct (Ascii.eqb_spec a "0").
Qed.

Lemma trim_end_zeros_spec s : exists z, s = trim_end_matches "0" s +:+ repeat_string z "0" /\ forall t, trim_end_matches "0" s <> t +:+ "0".
Proof.
  induction s as [|a s (z & IH & H0)]; [exists O; split; [done|]; by intros [|]|]. cbn [trim_end_matches].
  destruct (trim_end_matches "0" s) as [|b t] eqn:E.
  - rewrite str_app_nil_l in IH. destruct (Ascii.eqb_spec a "0") as [->|Ha].
    + exists (S z). split; [cbn [repeat_string]; by rewrite str_app_nil_l, <-IH|]. by intros [|].
    + exists z. split; [by rewrite str_app_cons, str_app_nil_l, <-IH|]. intros [|c [|]] [= Hc]; congruence.
  - exists z. split; [by rewrite str_app_cons, <-IH|]. intros [|c u]; [by intros [= -> ]|]. rewrite str_app_cons. intros [= -> Hu]. by apply (H0 u).
Qed.

(** ** The fixed-point text *)

Lemma is_digits_app s t : is_digits (s +:+ t) <-> is_digits s /\ is_digits t.
Proof. unfold is_digits. by rewrite bytes_forallb_app, andb_true_iff. Qed.

Lemma fixed_point_spec digits p : is_digits digits -> digits <> "" ->
  exists w f, split_point (fixed_point digits p) = (w, f) /\ is_digits w /\ is_digits f
    /\ (point_value w f 0 == point_value "" digits p)%Q.
Proof.
  intros Hd Hne. unfold fixed_point. destruct (Z.leb_spec p 0) as [Hp|Hp].
  { exists "0", (repeat_string (Z.to_nat (- p)) "0" +:+ digits). split; [by apply (split_point_dot "0")|]. split; [done|].
    split; [apply is_digits_app; split; [apply repeat_zeros_digits|done]|]. unfold point_value.
    rewrite str_app_nil_l, !digits_value_app, repeat_zeros_value, str_length_app, repeat_zeros_length.
    change (digits_value 0 "0") with 0. rewrite Z.mul_0_l.
    replace (0 - Z.of_nat (Z.to_nat (- p) + String.length digits)) with (p - Z.of_nat (String.length digits)) by lia. reflexivity. }
  cbv zeta. destruct (Nat.leb_spec (String.length digits) (Z.to_nat p)) as [Hl|Hl].
  - exists (digits +:+ repeat_string (Z.to_nat p - String.length digits) "0"), "".
    assert (Hw : is_digits (digits +:+ repeat_string (Z.to_nat p - String.length digits) "0")) by (apply is_digits_app; split; [done|apply repeat_zeros_digits]).
    split; [by apply split_point_whole|]. split; [done|]. split; [done|]. unfold point_value.
    rewrite str_app_nil_r, str_app_nil_l, digits_value_app, repeat_zeros_value. symmetry. apply point_value_shift; cbn; lia.
  - pose proof (take_drop (Z.to_nat p) digits) as Htd. assert (H : is_digits (str_take (Z.to_nat p) digits) /\ is_digits (str_drop (Z.to_nat p) digits)).
    { apply is_digits_app. by rewrite Htd. }
    destruct H as [Ht Hr]. exists (str_take (Z.to_nat p) digits), (str_drop (Z.to_nat p) digits). split; [by apply split_point_dot|]. split; [done|]. split; [done|].
    apply point_value_move; [by rewrite Htd, str_app_nil_l|]. rewrite drop_length. lia.
Qed.

(** ** The minimal text *)

Definition whole_or_zero (w : string) : string := if String.eqb (trim_start_zeros w) "" then "0" else trim_start_zeros w.

Definition minimal_number (negative : bool) (w f : string) : JsonNumber :=
  let f := trim_end_matches "0" f in
  {| num_negative := negative && negb (String.eqb (whole_or_zero w) "0" && String.eqb f "");
     num_integer := whole_or_zero w;
     num_fraction := if String.eqb f "" then None else Some f;
     num_exponent := None |}.

Lemma minimal_decimal_text negative fixed w f : split_point fixed = (w, f) ->
  minimal_decimal negative fixed = number_text (minimal_number negative w f).
Proof.
  intros H. unfold minimal_decimal, number_text, mantissa_text. rewrite H. cbn [num_negative num_integer num_fraction num_exponent minimal_number].
  fold (whole_or_zero w). rewrite str_app_nil_r. by destruct (String.eqb (trim_end_matches "0" f) "").
Qed.

Lemma minimal_digits negative w f : is_digits w -> is_digits f -> number_ok (minimal_number negative w f) /\ minimal (minimal_number negative w f).
Proof.
  intros Hw Hf. destruct (trim_start_zeros_spec w) as (z & Hz & Hlead). destruct (trim_end_zeros_spec f) as (y & Hy & Hlast).
  rewrite Hz, is_digits_app in Hw. rewrite Hy, is_digits_app in Hf. destruct Hw as [_ Hw], Hf as [Hf _].
  assert (Hi : is_digits (whole_or_zero w) /\ whole_or_zero w <> "" /\ (whole_or_zero w = "0" \/ byte_at_is (whole_or_zero w) 0 "0" = false)).
  { unfold whole_or_zero. destruct (String.eqb_spec (trim_start_zeros w) ""); [|auto]. split; [done|]. split; [done|by left]. }
  destruct Hi as (Hi & Hine & Hi0). split; split; cbn [num_integer num_fraction num_exponent num_negative minimal_number]; try done.
  - intros g. destruct (String.eqb _ ""); [done|]. by intros [= <-].
  - intros g. destruct (String.eqb_spec (trim_end_matches "0" f) "") as [|Hn]; [done|]. intros [= <-]. done.
  - destruct negative; [|done]. cbn [andb]. destruct (String.eqb_spec (whole_or_zero w) "0"); [|auto]. cbn [andb].
    destruct (String.eqb (trim_end_matches "0" f) ""); [done|]. auto.
Qed.

(** It denotes the number of the text it was made of. *)
Lemma minimal_value negative w f :
  (json_number_value (minimal_number negative w f) == (if negative then -(1) else 1) * point_value w f 0)%Q.
Proof.
  unfold json_number_value. cbn [num_integer num_negative minimal_number]. unfold exponent_value, fraction_digits. cbn [num_exponent num_fraction minimal_number].
  destruct (trim_start_zeros_spec w) as (z & Hz & _). destruct (trim_end_zeros_spec f) as (y & Hy & _).
  set (g := trim_end_matches "0" f) in *.
  assert (Hv : (point_value (whole_or_zero w) g 0 == point_value w f 0)%Q).
  { rewrite Hz at 2. rewrite Hy, point_value_front, point_value_back. unfold whole_or_zero.
    destruct (String.eqb_spec (trim_start_zeros w) "") as [->|]; [|reflexivity]. exact (point_value_front 1 "" g 0). }
  assert (Hg : default "" (if String.eqb g "" then None else Some g) = g) by (by destruct (String.eqb_spec g "")).
  rewrite Hg, <-Hv. destruct negative; [|reflexivity]. cbn [andb]. destruct (String.eqb_spec (whole_or_zero w) "0") as [->|]; [|reflexivity].
  destruct (String.eqb_spec g "") as [->|]; reflexivity.
Qed.

(** ** Minimal texts are canonical *)

Lemma prefix_digits w s : is_digits w -> prefix_length is_ascii_digit_byte s = 0%nat -> prefix_length is_ascii_digit_byte (w +:+ s) = String.length w.
Proof. intros Hw Hs. by apply prefix_length_app. Qed.

Lemma last_digit f : f <> "" -> exists s a, f = s +:+ String a "".
Proof.
  induction f as [|a f IH]; [done|]. intros _. destruct f as [|b f]; [by exists "", a|].
  destruct (IH ltac:(done)) as (s & c & ->). by exists (String a s), c.
Qed.

(** The scan of the integer part, and that of the fraction, of an unsigned
    text at an offset of it. *)
Definition scan_integer (value : string) (offset : nat) : option nat :=
  match String.get offset value with
  | Some a =>
      if Ascii.eqb a "0" then
        if match String.get (S offset) value with Some b => is_ascii_digit_byte b | None => false end
        then None else Some (S offset)
      else if is_ascii_digit_byte a then
        Some (S offset + prefix_length is_ascii_digit_byte (str_drop (S offset) value))%nat
      else None
  | None => None
  end.

Definition scan_fraction (value : string) (offset : nat) : option nat :=
  if byte_at_is value offset "." then
    let start := S offset in
    let offset := (start + prefix_length is_ascii_digit_byte (str_drop start value))%nat in
    if (offset =? start)%nat || byte_at_is value (offset - 1) "0" then None else Some offset
  else Some offset.

Lemma valid_canonical_scan value :
  valid_canonical_decimal value
  = match scan_integer value (if byte_at_is value 0 "-" then 1%nat else 0%nat) with
    | None => false
    | Some offset =>
        match scan_fraction value offset with
        | None => false
        | Some offset => (offset =? String.length value)%nat && negb (String.eqb value "-0")
        end
    end.
Proof. reflexivity. Qed.

Lemma get_app pre n s : String.get (String.length pre + n) (pre +:+ s) = String.get n s.
Proof. induction pre as [|a pre IH]; [by rewrite str_app_nil_l|]. rewrite str_app_cons. exact IH. Qed.

Lemma drop_app_plus pre n s : str_drop (String.length pre + n) (pre +:+ s) = str_drop n s.
Proof. induction pre as [|a pre IH]; [by rewrite str_app_nil_l|]. rewrite str_app_cons. exact IH. Qed.

Lemma scan_integer_app pre w s :
  is_digits w -> w <> "" -> (w = "0" \/ byte_at_is w 0 "0" = false) -> prefix_length is_ascii_digit_byte s = 0%nat ->
  scan_integer (pre +:+ w +:+ s) (String.length pre) = Some (String.length pre + String.length w)%nat.
Proof.
  intros Hw Hne H0 Hs. unfold scan_integer. pose proof (get_app pre 0 (w +:+ s)) as G0. rewrite Nat.add_0_r in G0. rewrite G0.
  pose proof (get_app pre 1 (w +:+ s)) as G1. pose proof (drop_app_plus pre 1 (w +:+ s)) as D1. rewrite Nat.add_1_r in G1, D1. rewrite G1, D1.
  destruct w as [|a w]; [done|]. rewrite str_app_cons. cbn [String.get str_drop String.length].
  unfold is_digits in Hw. cbn in Hw. apply andb_true_iff in Hw as [Ha Hw]. destruct (Ascii.eqb_spec a "0") as [->|Hn].
  - destruct H0 as [[= ->]|H0]; [|done]. rewrite str_app_nil_l. cbn [String.length].
    assert (Hd : match String.get 0 s with Some b => is_ascii_digit_byte b | None => false end = false).
    { destruct s as [|b s]; [done|]. cbn in Hs |- *. by destruct (is_ascii_digit_byte b). }
    rewrite Hd. f_equal. lia.
  - rewrite Ha, prefix_digits by done. f_equal. lia.
Qed.

Lemma scan_fraction_app pre f :
  is_digits f -> f <> "" -> (forall s, f <> s +:+ "0") ->
  scan_fraction (pre +:+ String "." f) (String.length pre) = Some (String.length (pre +:+ String "." f)).
Proof.
  intros Hf Hne Hl. unfold scan_fraction. rewrite contract_byte_at_app. change (byte_at_is (String "." f) 0 ".") with true. cbv iota zeta.
  pose proof (drop_app_plus pre 1 (String "." f)) as D1. rewrite Nat.add_1_r in D1. rewrite D1. cbn [str_drop].
  pose proof (prefix_digits f "" Hf eq_refl) as Hp. rewrite str_app_nil_r in Hp. rewrite Hp, str_length_app. cbn [String.length]. clear Hp.
  assert (Hlen : (0 < String.length f)%nat) by (destruct f; [done|cbn; lia]).
  destruct (Nat.eqb_spec (S (String.length pre) + String.length f) (S (String.length pre))) as [|_]; [lia|]. cbn [orb].
  destruct (last_digit f Hne) as (t & a & ->). rewrite str_length_app. cbn [String.length].
  replace (S (String.length pre) + (String.length t + 1) - 1)%nat with (String.length (pre +:+ String "." t)) by (rewrite str_length_app; cbn; lia).
  replace (pre +:+ String "." (t +:+ String a "")) with ((pre +:+ String "." t) +:+ String a "") by (by rewrite str_app_assoc, str_app_cons).
  rewrite contract_byte_at_app. cbn. destruct (Ascii.eqb_spec a "0") as [->|_]; [by destruct (Hl t)|]. f_equal. lia.
Qed.

Lemma minimal_canonical m : number_ok m -> minimal m -> valid_canonical_decimal (number_text m) = true.
Proof.
  intros [[Hi Hine] Hf _] [Hi0 Hf0 Hx Hsign]. rewrite valid_canonical_scan. unfold number_text. rewrite Hx, str_app_nil_r.
  set (pre := if num_negative m then "-" else ""). unfold mantissa_text.
  set (tail := match num_fraction m with Some f => String "." f | None => "" end).
  assert (Hoff : (if byte_at_is (pre +:+ num_integer m +:+ tail) 0 "-" then 1%nat else 0%nat) = String.length pre).
  { unfold pre. destruct (num_negative m); [done|]. rewrite str_app_nil_l. destruct (num_integer m) as [|a w]; [done|].
    rewrite str_app_cons. unfold byte_at_is. cbn. destruct (Ascii.eqb_spec a "-") as [->|]; [by unfold is_digits in Hi|done]. }
  assert (Ht : prefix_length is_ascii_digit_byte tail = 0%nat) by (unfold tail; by destruct (num_fraction m)).
  rewrite Hoff, scan_integer_app by done.
  assert (Hs : scan_fraction (pre +:+ num_integer m +:+ tail) (String.length pre + String.length (num_integer m))
               = Some (String.length (pre +:+ num_integer m +:+ tail))).
  { rewrite <-str_app_assoc, <-str_length_app. unfold tail. destruct (num_fraction m) as [f|].
    - destruct (Hf0 f eq_refl). apply scan_fraction_app; auto.
    - rewrite str_app_nil_r. unfold scan_fraction. pose proof (contract_byte_at_app (pre +:+ num_integer m) "" ".") as Hb.
      rewrite str_app_nil_r in Hb. by rewrite Hb. }
  rewrite Hs, Nat.eqb_refl. cbn [andb]. destruct (String.eqb_spec (pre +:+ num_integer m +:+ tail) "-0") as [He|]; [exfalso|done].
  unfold pre in He. destruct (num_negative m).
  - rewrite str_app_cons, str_app_nil_l in He. injection He as He. unfold tail in He. destruct (num_fraction m) as [f|].
    + destruct (Hf0 f eq_refl) as [Hfe _]. apply (f_equal String.length) in He. rewrite str_length_app in He. cbn in He.
      destruct (num_integer m); [done|]. cbn in He. lia.
    + rewrite str_app_nil_r in He. by destruct (Hsign eq_refl).
  - rewrite str_app_nil_l in He. destruct (num_integer m) as [|a w]; [done|]. rewrite str_app_cons in He. injection He as -> _. by unfold is_digits in Hi.
Qed.

(** ** Normalisation *)

(** What the normalisation allows: an exponent and a position of the point of
    64 bits, the position and the fixed-point text within the limit. *)
Definition normalizable (n : JsonNumber) : Prop :=
  i64_min <= exponent_value n <= i64_max /\ i64_min <= point_position n <= i64_max
  /\ Z.abs (point_position n) <= MAXIMUM_DECIMAL_BYTES
  /\ Z.of_nat (String.length (fixed_point (num_integer n +:+ fraction_digits n) (point_position n))) <= MAXIMUM_DECIMAL_BYTES.

Lemma normalize_number n : number_ok n -> normalizable n ->
  exists m, normalize_json_decimal (number_text n) = Ok (number_text m) /\ number_ok m /\ minimal m
    /\ (json_number_value m == json_number_value n)%Q.
Proof.
  intros Hn (He & Hp & Ha & Hl). rewrite (normalize_unfold n Hn).
  rewrite (proj2 (checked_Some i64_min i64_max (exponent_value n) _) (conj eq_refl He)).
  rewrite (proj2 (checked_Some i64_min i64_max (point_position n) _) (conj eq_refl Hp)). cbn [ok_or mbind result_bind]. cbv zeta.
  destruct (Z.ltb_spec MAXIMUM_DECIMAL_BYTES (Z.abs (point_position n))); [lia|].
  destruct (Z.ltb_spec MAXIMUM_DECIMAL_BYTES (Z.of_nat (String.length (fixed_point (num_integer n +:+ fraction_digits n) (point_position n))))); [lia|].
  destruct Hn as [[Hi Hine] Hf _]. assert (Hfd : is_digits (fraction_digits n)) by (unfold fraction_digits; destruct (num_fraction n); [by apply Hf|done]).
  destruct (fixed_point_spec (num_integer n +:+ fraction_digits n) (point_position n)) as (w & f & Hs & Hw & Hff & Hv).
  { by apply is_digits_app. }
  { by destruct (num_integer n). }
  exists (minimal_number (num_negative n) w f). split; [by rewrite (minimal_decimal_text _ _ w f Hs)|].
  destruct (minimal_digits (num_negative n) w f Hw Hff) as [Hok Hmin]. split; [done|]. split; [done|].
  rewrite minimal_value, Hv. unfold json_number_value. apply Qmult_comp; [reflexivity|]. apply point_value_move; [by rewrite str_app_nil_l|].
  rewrite str_length_app. cbn. unfold point_position. lia.
Qed.

Lemma normalize_refused n : number_ok n -> ~ normalizable n ->
  In (normalize_json_decimal (number_text n)) [Err exponent_out_of_range; Err decimal_too_large].
Proof.
  intros Hn Hno. rewrite (normalize_unfold n Hn).
  destruct (checked i64_min i64_max (exponent_value n)) as [e|] eqn:He; [apply checked_Some in He as [-> He]|by left].
  cbn [ok_or mbind result_bind].
  destruct (checked i64_min i64_max (point_position n)) as [p|] eqn:Hp; [apply checked_Some in Hp as [-> Hp]|by left]. cbn [ok_or mbind result_bind]. cbv zeta.
  destruct (Z.ltb_spec MAXIMUM_DECIMAL_BYTES (Z.abs (point_position n))); [by right; left|].
  destruct (Z.ltb_spec MAXIMUM_DECIMAL_BYTES (Z.of_nat (String.length (fixed_point (num_integer n +:+ fraction_digits n) (point_position n))))); [by right; left|].
  destruct Hno. done.
Qed.

(** C25: a JSON number within the size limits becomes the canonical decimal of
    the same rational number, in the minimal spelling that a value contract
    accepts; any other number is refused with one of the two limits. *)
Theorem canonical_decimal_same_number n : number_ok n ->
  (normalizable n /\ exists m, canonical_decimal (number_text n) = Ok (number_text m) /\ number_ok m /\ minimal m
     /\ valid_canonical_decimal (number_text m) = true /\ (json_number_value m == json_number_value n)%Q)
  \/ (~ normalizable n /\ In (canonical_decimal (number_text n)) [Err exponent_out_of_range; Err decimal_too_large]).
Proof.
  intros Hn. assert (Hdec : normalizable n \/ ~ normalizable n) by (unfold normalizable; lia). destruct Hdec as [Hd|Hd].
  - left. split; [done|]. destruct (normalize_number n Hn Hd) as (m & Hm & Hok & Hmin & Hv). exists m.
    assert (Hc : valid_canonical_decimal (number_text m) = true) by (by apply minimal_canonical).
    unfold canonical_decimal, CanonicalDecimal_try_new. rewrite Hm. cbn [mbind result_bind]. by rewrite Hc.
  - right. split; [done|]. pose proof (normalize_refused n Hn Hd) as Hin. unfold canonical_decimal. by destruct Hin as [<-|[<-|[]]]; [left|right; left].
Qed.

(** [-1.250e-1] *)
Definition sample_number : JsonNumber := {|
  num_negative := true; num_integer := "1"; num_fraction := Some "250";
  num_exponent := Some {| exponent_letter := "e"; exponent_sign := "-"; exponent_digits := "1" |} |}.

Lemma canonical_decimal_same_number_witness :
  normalizable sample_number /\ exists m, canonical_decimal "-1.250e-1" = Ok (number_text m) /\ number_ok m /\ minimal m
     /\ valid_canonical_decimal (number_text m) = true /\ (json_number_value m == json_number_value sample_number)%Q.
Proof.
  assert (Hok : number_ok sample_number).
  { split; cbn; [done|by intros f [= <-]|intros e [= <-]; repeat split; cbn; auto; done]. }
  destruct (canonical_decimal_same_number sample_number Hok) as [H|[H _]]; [exact H|]. destruct H. by vm_compute.
Defined.

(** ** Typed values *)

Lemma as_u64_as_i64 text z : number_as_u64 text = Some z -> z <= i64_max -> number_as_i64 text = Some z.
Proof.
  unfold number_as_u64, number_as_i64, parse_i64, parse_unsigned, parse_signed. intros H Hz.
  assert (Hc : forall d, checked 0 u64_max d = Some z -> checked i64_min i64_max d = Some z).
  { intros d [-> Hd]%checked_Some. apply checked_Some. split; [done|]. unfold i64_min. lia. }
  destruct text as [|a text]; [done|]. destruct (Ascii.eqb_spec a "-") as [->|Hm].
  { apply bind_Some in H as (d & Hd & _). destruct (parse_digits_Some _ _ Hd) as (_ & Hb & _). by unfold is_digits in Hb. }
  destruct (Ascii.eqb_spec a "+") as [->|Hp].
  { apply bind_Some in H as (d & Hd & Hx). rewrite Hd. by apply Hc. }
  assert (Hu : parse_unsigned u64_max (String a text) = (d ← parse_digits (String a text); checked 0 u64_max d)).
  { destruct a as [[] [] [] [] [] [] [] []]; try done; congruence. }
  assert (Hs : parse_signed i64_min i64_max (String a text) = (d ← parse_digits (String a text); checked i64_min i64_max d)).
  { destruct a as [[] [] [] [] [] [] [] []]; try done; congruence. }
  change (parse_unsigned u64_max (String a text) = Some z) in H. change (parse_signed i64_min i64_max (String a text) = Some z).
  rewrite Hu in H. rewrite Hs. apply bind_Some in H as (d & Hd & Hx). rewrite Hd. by apply Hc.
Qed.

Lemma typed_number text tv : typed_value (JNumber text) = Ok tv ->
  exists n, tv = Number n
    /\ match n with
       | I64 z => number_as_i64 text = Some z
       | U64 z => number_as_i64 text = None /\ number_as_u64 text = Some z
       | Decimal d => number_as_i64 text = None /\ number_as_u64 text = None /\ canonical_decimal text = Ok d
       end.
Proof.
  cbn [typed_value]. destruct (number_as_i64 text) as [z|]; [intros [= <-]; by exists (I64 z)|].
  destruct (number_as_u64 text) as [z|]; [intros [= <-]; by exists (U64 z)|].
  intros (n & (d & Hd & [= <-])%bind_Ok & [= <-])%bind_Ok. by exists (Decimal d).
Qed.

Lemma typed_list values tv : typed_value (JArray values) = Ok tv ->
  exists l, tv = List_ l /\ Forall2 (fun v w => typed_value v = Ok w) values l.
Proof. cbn [typed_value]. intros (l & Hl%map_result_Ok & [= <-])%bind_Ok. eauto. Qed.

(** The members of an object, each of them typed under its name. *)
Lemma typed_object values tv : NoDup (map fst values) -> typed_value (JObject values) = Ok tv ->
  exists o, tv = Object_ o /\ bt_wf o /\ (forall f, In f (map fst o) <-> In f (map fst values))
    /\ forall f w, bt_get o f = Some w <-> exists v, obj_get values f = Some v /\ typed_value v = Ok w.
Proof.
  intros Hnd. cbn [typed_value]. intros (l & Hl%map_result_Ok & [= <-])%bind_Ok. exists (bt_collect l).
  assert (Hkeys : map fst l = map fst values).
  { clear Hnd. induction Hl as [|[n v] [m w] values l H Hl IH]; [done|]. cbn in *. apply bind_Ok in H as (u & _ & [= <- <-]). by rewrite IH. }
  split; [done|]. split; [apply bt_collect_wf|]. split; [intros f; by rewrite bt_collect_keys, Hkeys|]. intros f w. unfold obj_get. split.
  - intros Hg%bt_get_In. pose proof (bt_collect_Forall (fun nw : string * TypedValue => In nw l) l) as Hall. rewrite !List.Forall_forall in Hall.
    specialize (Hall (fun _ H => H) _ Hg). destruct (Forall2_In_r _ _ _ _ Hl Hall) as ([m v] & Hin & (u & Hu & [= -> ->])%bind_Ok).
    exists v. split; [by apply bt_In_get|done].
  - intros (v & Hv%bt_get_In & Hw). apply bt_get_collect; [by rewrite Hkeys|].
    destruct (Forall2_In_l _ _ _ _ Hl Hv) as ([m u] & Hin & H). cbn in H. rewrite Hw in H. by injection H as <- <-.
Qed.

Lemma typed_value_wf v : forall tv, json_wf v -> typed_value v = Ok tv -> value_wf tv.
Proof.
  induction v as [|b|text|s|values IH|values IH] using Value_ind'; intros tv Hwf H.
  - by injection H as <-.
  - by injection H as <-.
  - apply typed_number in H as (n & -> & Hn). destruct n as [z|z|d]; cbn; [by apply parse_signed_range in Hn| |done].
    destruct Hn as [_ Hn]. by apply parse_unsigned_range in Hn.
  - by injection H as <-.
  - apply typed_list in H as (l & -> & Hl). cbn in Hwf |- *. apply fold_and_iff in Hwf. apply fold_and_iff. rewrite List.Forall_forall in *.
    intros w Hw. destruct (Forall2_In_r _ _ _ _ Hl Hw) as (v & Hv & Ht). by apply (IH v Hv w); [apply Hwf|].
  - apply json_wf_object in Hwf as [Hnd Hwf]. apply typed_object in H as (o & -> & Hbt & _ & Hget); [|done]. cbn.
    pose proof (bt_wf_NoDup o Hbt) as Hndo. split; [done|].
    apply (fold_and_iff (fun nw : string * TypedValue => value_wf nw.2)), List.Forall_forall. intros [f w] Hin. cbn.
    destruct (proj1 (Hget f w) (bt_In_get o f w Hndo Hin)) as (v & Hv & Ht). apply bt_get_In in Hv. rewrite List.Forall_forall in IH, Hwf.
    by apply (IH _ Hv w (Hwf _ Hv)).
Qed.

(** What is valid after [typed_value] has the shape of the type. *)
Lemma typed_shape v : forall named t tv, json_wf v -> resolved t -> typed_value v = Ok tv -> valid named tv t -> has_shape v t.
Proof.
  induction v as [|b|text|s|values IH|values IH] using Value_ind'; intros named t tv Hwf Hr H Hv.
  - injection H as <-. constructor. by inversion Hv.
  - injection H as <-. inversion Hv as [|? ? sc _ Hs| | | |]; subst. constructor. by destruct sc.
  - apply typed_number in H as (n & -> & Hn). inversion Hv as [|? ? sc _ Hs| | | |]; subst; constructor.
    destruct sc; cbn in Hs; try done; cbn [scalar_shape]; destruct n as [z|z|d]; cbn in Hs; destruct Hs as (y & [= <-] & Hy) || idtac; try done.
    + rewrite Hn. unfold in_i32, in_range. lia.
    + destruct Hn as [Hi Hu]. rewrite (as_u64_as_i64 text z Hu) in Hi; [done|]. unfold i32_max, i64_max in *. lia.
    + by rewrite Hn.
    + destruct Hn as [Hi Hu]. rewrite (as_u64_as_i64 text z Hu) in Hi; [done|]. lia.
    + rewrite Hn. destruct (number_as_u64 text); [done|]. lia.
    + by rewrite (proj2 Hn).
  - injection H as <-. inversion Hv as [|? ? sc _ Hs| | | |]; subst; [|by constructor]. constructor. by destruct sc.
  - apply typed_list in H as (l & -> & Hl). inversion Hv as [|? ? sc _ Hs| |? ? element Hel| |]; subst; [constructor; by destruct sc|].
    constructor. cbn in Hwf. apply fold_and_iff in Hwf. rewrite List.Forall_forall in *. intros v Hin.
    destruct (Forall2_In_l _ _ _ _ Hl Hin) as (w & Hw & Ht). by apply (IH v Hin named element w); auto.
  - apply json_wf_object in Hwf as [Hnd Hwf]. apply typed_object in H as (o & -> & Hbt & Hkeys & Hget); [|done].
    inversion Hv as [|? ? sc _ Hs| | |? ? fields [_ Hreq] Hf|]; subst; [constructor; by destruct sc| |done].
    apply resolved_object in Hr as [_ Hr]. rewrite List.Forall_forall in IH, Hwf, Hr. constructor.
    + intros f field Hin Hq. apply Hkeys. by apply (Hreq f field).
    + intros f field v Hin Hg. pose proof Hg as Hg'. apply bt_get_In in Hg'.
      assert (Ht : exists w, typed_value v = Ok w).
      { destruct (typed_value v) as [w|e] eqn:Ew; [by exists w|]. exfalso.
        assert (Hk : In f (map fst o)) by (apply Hkeys; by apply (in_map fst _ (f, v))). apply in_map_iff in Hk as ([g w] & <- & Hw). cbn in *.
        destruct (proj1 (Hget g w) (bt_In_get o g w (bt_wf_NoDup o Hbt) Hw)) as (v' & Hv' & Ht). congruence. }
      destruct Ht as [w Hw]. apply (IH _ Hg' named (type_ref field) w (Hwf _ Hg') (Hr _ Hin) Hw). apply (Hf f field w Hin). apply Hget. eauto.
Qed.

(** [validate(typed_value(v))], as every payload of a process is checked. *)
Definition validate_json (contract : ValueContractCatalog) (v : Value) : outcome (result ValueContractError unit) :=
  typed ← typed_value v; Ok (validate contract typed).

(** Over types without references the named objects of a contract play no
    part. *)
Lemma validate_step_resolved named vt : resolved vt.2 -> validate_step named vt = validate_step [] vt.
Proof. destruct vt as [v [n vt]]. cbn. by destruct vt. Qed.

Lemma resolved_step vt l : resolved vt.2 -> validate_step [] vt = Ok l -> Forall (fun vt => resolved vt.2) l.
Proof.
  destruct vt as [v [n vt]]. intros Hr H. cbn [snd] in Hr.
  assert (Hobj : forall o fields l, resolved (TypeRef_new n (Object fields)) -> push_fields o fields = Ok l -> Forall (fun vt => resolved vt.2) l).
  { intros o fields l' [_ Hf]%resolved_object [_ ->]%push_fields_Ok. apply Forall_present. intros f field w Hin _.
    rewrite List.Forall_forall in Hf. by apply (Hf (f, field)). }
  destruct vt as [s|name values|fields|element|name]; cbn [validate_step value_type nullable] in H.
  - destruct v; [destruct n; [by injection H as <-|done]|..]; apply bind_Ok in H as (? & _ & [= <-]); constructor.
  - destruct v; try done; [destruct n; [by injection H as <-|done]|]. destruct (existsb _ values); [by injection H as <-|done].
  - destruct v as [| | | | |o|]; try done; [destruct n; [by injection H as <-|done]|]. by eapply Hobj.
  - destruct v as [| | | |vs| |]; try done; [destruct n; [by injection H as <-|done]|]. injection H as <-. apply List.Forall_map, List.Forall_forall. intros; exact Hr.
  - done.
Qed.

Lemma validate_resolved contract v : resolved (catalog_root_object contract) -> value_wf v -> validate contract v = Ok tt ->
  valid [] v (catalog_root_object contract).
Proof.
  intros Hr Hv H. unfold validate, validate_walk in H. apply bind_Ok in H as (u & _ & H). apply bind_Ok in H as (size & _ & H). destruct v as [| | | | |o|]; try done.
  apply bind_Ok in H as (pushed & Hp & H). apply push_fields_Ok in Hp as [Hfit ->]. destruct (check_loop _ _ _) as [r|] eqn:E; [|done]. subst r.
  unfold catalog_root_object in *. pose proof (proj1 (resolved_object _ _) Hr) as [_ Hf]. rewrite List.Forall_forall in Hf.
  eapply (check_loop_Ok _ (fun vt => pair_wf vt /\ resolved vt.2) (fun vt => valid [] vt.1 vt.2)) in E.
  - specialize (proj1 E eq_refl). intros Hall. constructor; [done|]. apply (Forall_present (fun vt => valid [] vt.1 vt.2)).
    rewrite <- (rev_involutive (present _ _)). by apply List.Forall_rev.
  - intros x l [Hx Hxr] Hl. rewrite validate_step_resolved in Hl by done.
    destruct (validate_step_shrinks [] ltac:(constructor) x l Hx Hl) as [Hw _]. pose proof (resolved_step x l Hxr Hl) as Hlr.
    apply List.Forall_forall. intros y Hy. rewrite List.Forall_forall in Hw, Hlr. split; auto.
  - intros x [Hx Hxr]. rewrite validate_step_resolved by done. by apply validate_step_spec.
  - apply List.Forall_rev. pose proof (present_wf o (roots contract) Hv (proj1 (type_wf_object false _) (resolved_wf _ Hr))) as Hw.
    apply List.Forall_forall. intros y Hy. rewrite List.Forall_forall in Hw. split; [by apply Hw|].
    assert (Hpr : Forall (fun vt => resolved vt.2) (present o (roots contract))) by (apply Forall_present; intros f field w Hin _; by apply (Hf (f, field))).
    rewrite List.Forall_forall in Hpr. by apply Hpr.
Qed.

Lemma validated_shape contract v : resolved (catalog_root_object contract) -> json_wf v -> validate_json contract v = Ok (Ok tt) ->
  has_shape v (catalog_root_object contract).
Proof.
  intros Hr Hwf H. unfold validate_json in H. apply bind_Ok in H as (typed & Ht & H). injection H as H.
  apply (typed_shape v [] _ typed Hwf Hr Ht). apply validate_resolved; [done|by eapply typed_value_wf|done].
Qed.
