(* ===== verification/ProcessTables.v ===== *)
(** * The tables of running processes ([migrations/V20260731002214__donat_processes.sql] and the two after it)

    The rows of the tables that the transitions of a process read and write,
    with the unique, foreign and size constraints of the migrations, and the
    transactions over them.  A table is the list of its rows; an UPDATE changes
    the rows of its WHERE clause and counts them.  A column that no transition
    reads (the times of updates, the leases of the activity worker) is left
    out, and so is the normalisation of [jsonb]. *)
From S2P Require Import Prelude Json.
Set Warnings "-register-all".

(** A [Uuid] is its sixteen bytes. *)
Abbreviation Uuid := string.

(** A [timestamptz], in microseconds. *)
Inductive Instant : Type := At (microseconds : Z) | Infinity.

(** The functions of PostgreSQL that the statements and constraints use:
    [pg_column_size], [=] and [@>] of [jsonb], [->>] of a nested value, the text
    [to_jsonb] makes of a [timestamptz], and the quotient of two [numeric]s, in
    units of [10^-18]. *)
Class Postgres := {
  pg_column_size : Value -> Z;
  jsonb_eqb : Value -> Value -> bool;
  jsonb_contains : Value -> Value -> bool;
  jsonb_nested_text : Value -> string;
  timestamptz_text : Instant -> string;
  numeric_quotient : Z -> Z -> Z;
}.

Definition instant_le (a b : Instant) : bool :=
  match a, b with
  | _, Infinity => true
  | Infinity, At _ => false
  | At a, At b => a <=? b
  end.

Definition instant_after (now milliseconds : Z) : Instant := At (now + milliseconds * 1000).

(** ** Rows *)

Inductive InstanceStatus : Type := IRunning | ITerminal | IFailed | ICancelled.
Inductive EventStatus : Type := EPending | EConsumed | EFailed.
Inductive JobStatus : Type := JScheduled | JRunning | JSucceeded | JFailed | JCancelled.
Inductive ItemStatus : Type := FPending | FScheduled | FSucceeded | FFailed.
Inductive StartStatus : Type := TPending | TConsumed | TDuplicate | TFailed.
Inductive RequestStatus : Type :=
| SPending | SConsumed | SDuplicate | SUnmatched | SAmbiguous | SGuardFalse | SUnexpectedState | SFailed.

#[export] Instance InstanceStatus_eq : EqDecision InstanceStatus. Proof. solve_decision. Defined.
#[export] Instance EventStatus_eq : EqDecision EventStatus. Proof. solve_decision. Defined.
#[export] Instance JobStatus_eq : EqDecision JobStatus. Proof. solve_decision. Defined.
#[export] Instance ItemStatus_eq : EqDecision ItemStatus. Proof. solve_decision. Defined.
#[export] Instance StartStatus_eq : EqDecision StartStatus. Proof. solve_decision. Defined.
#[export] Instance RequestStatus_eq : EqDecision RequestStatus. Proof. solve_decision. Defined.

(** [donat.process_instances] *)
Record InstanceRow := {
  i_source : string;
  i_id : Uuid;
  i_process : string;
  i_revision : string;
  i_source_request : Uuid;
  i_start_key : string;
  i_status : InstanceStatus;
  i_current_state : string;
  i_input : Value;
  i_state : Value;
  i_version : Z;
  i_caller_role : option string;
  i_caller_session : option Value;
  i_terminal_output : option Value;
  i_failure : option Value;
}.

(** [donat.process_events] *)
Record EventRow := {
  e_source : string;
  e_id : Uuid;
  e_instance : Uuid;
  e_process : string;
  e_revision : string;
  e_kind : string;
  e_payload : Value;
  e_idempotency_key : option string;
  e_available_at : Instant;
  e_status : EventStatus;
  e_attempts : Z;
  e_created_at : Z;
}.

(** [donat.process_activity_jobs] *)
Record JobRow := {
  j_source : string;
  j_id : Uuid;
  j_instance : Uuid;
  j_event : Uuid;
  j_state : string;
  j_logical_activity_id : string;
  j_connector : string;
  j_operation : string;
  j_serialization_key_hash : option string;
  j_input : Value;
  j_result : option Value;
  j_request_fingerprint : string;
  j_status : JobStatus;
  j_attempts : Z;
  j_lease_generation : Z;
  j_available_at : Instant;
  j_schedule_to_start_deadline : Instant;
  j_start_to_close_deadline : option Z;
  j_lease_token : option Uuid;
  j_lease_expires_at : option Z;
  j_last_error : option Value;
}.

(** [donat.process_fanout_items] *)
Record ItemRow := {
  f_source : string;
  f_instance : Uuid;
  f_state : string;
  f_entry_event : Uuid;
  f_ordinal : Z;
  f_item_key : string;
  f_item_key_identity : string;
  f_item : Value;
  f_status : ItemStatus;
  f_job : option Uuid;
  f_result : option Value;
  f_failure : option Value;
}.

(** [donat.process_transition_logs] *)
Record LogRow := {
  l_source : string;
  l_instance : Uuid;
  l_event : option Uuid;
  l_job : option Uuid;
  l_attempt : option Z;
  l_lease_generation : option Z;
  l_from_state : option string;
  l_to_state : string;
  l_outcome : string;
  l_revision : string;
  l_command_result : option Value;
  l_redacted_context : Value;
}.

(** [donat.process_start_requests] *)
Record StartRequestRow := {
  t_source : string;
  t_id : Uuid;
  t_process : string;
  t_revision : string;
  t_input : Value;
  t_command_invocation : Uuid;
  t_effect_position : Z;
  t_idempotency_key : string;
  t_status : StartStatus;
  t_instance : option Uuid;
  t_created_at : Z;
  t_caller_role : option string;
  t_caller_session : option Value;
}.

(** [donat.process_signal_requests] *)
Record SignalRequestRow := {
  s_source : string;
  s_id : Uuid;
  s_process : string;
  s_revision : string;
  s_signal : string;
  s_correlation : Value;
  s_payload : Value;
  s_idempotency_key : string;
  s_status : RequestStatus;
  s_created_at : Z;
}.

(** [donat.process_activity_provider_steps] *)
Record ProviderStepRow := {
  p_source : string;
  p_job : Uuid;
  p_logical_activity_id : string;
  p_step : string;
  p_idempotency_key : string;
  p_first_attempt_at : Z;
  p_maximum_send_deadline_at : Z;
  p_usable_window_expires_at : Z;
}.

(** [donat.process_capacity_reservations] *)
Record ReservationRow := {
  r_source : string;
  r_id : Uuid;
  r_job : Uuid;
  r_connector : string;
  r_operation : string;
  r_serialization_key_hash : option string;
  r_lease_token : Uuid;
  r_reserved_at : Z;
  r_expires_at : Z;
  r_released_at : option Z;
}.

(** [donat.process_capacity_buckets]; the tokens are in units of [10^-18]. *)
Record BucketRow := {
  b_source : string;
  b_connector : string;
  b_operation : string;
  b_available_tokens : Z;
  b_last_refill_at : Z;
  b_policy_fingerprint : string;
}.

(** The database: these tables, and what the commands of the application read
    and write besides. *)
Record Database (Application : Type) := {
  instances : list InstanceRow;
  events : list EventRow;
  jobs : list JobRow;
  items : list ItemRow;
  logs : list LogRow;
  provider_steps : list ProviderStepRow;
  reservations : list ReservationRow;
  buckets : list BucketRow;
  start_requests : list StartRequestRow;
  signal_requests : list SignalRequestRow;
  application : Application;
}.
Arguments instances {_}. Arguments events {_}. Arguments jobs {_}. Arguments items {_}.
Arguments logs {_}. Arguments provider_steps {_}. Arguments reservations {_}. Arguments buckets {_}.
Arguments start_requests {_}. Arguments signal_requests {_}. Arguments application {_}.

(** What a command of the application reads and writes: its own tables, and the
    requests to start and to signal processes. *)
Abbreviation Outbox Application := (Application * (list StartRequestRow * list SignalRequestRow))%type.

(** ** Errors *)

(** An error of a transition: a panic, an [anyhow] error with no database error
    in its chain, an error of the server with its SQLSTATE, one of the driver,
    or one of the connection pool. *)
Inductive TransitionError : Type :=
| Panic
| Fault (message : string)
| Sqlstate (code : string)
| Driver (text : string)
| Pool.

Abbreviation attempt A := (result TransitionError A).

Definition unique_violation : string := "23505".
Definition check_violation : string := "23514".
Definition foreign_key_violation : string := "23503".

Definition refused {A} (code : string) : attempt A := Err (Sqlstate code).

(** An [anyhow] error from its text, and [.context(..)] around one. *)
Definition fault_of {A} (m : result string A) : attempt A := map_err Fault m.

Definition with_context {A} (context : string) (m : attempt A) : attempt A :=
  map_err (fun e => match e with Fault message => Fault (context +:+ ": " +:+ message) | e => e end) m.

Definition fault {A} (message : string) : attempt A := Err (Fault message).

(** ** Statements *)

(** UPDATE .. SET .. WHERE, with the number of rows it changed. *)
Definition update_rows {R} (where_ : R -> bool) (set : R -> R) (table : list R) : nat * list R :=
  (List.length (List.filter where_ table), map (fun r => if where_ r then set r else r) table).

(** INSERT of one row, refused if it conflicts with a row of the table. *)
Definition insert_row {R} (conflicts : R -> R -> bool) (row : R) (table : list R) : attempt (list R) :=
  if existsb (conflicts row) table then refused unique_violation else Ok (table ++ [row]).

(** ORDER BY: a stable sort. *)
Fixpoint insert_by {R} (before : R -> R -> bool) (row : R) (rows : list R) : list R :=
  match rows with
  | [] => [row]
  | r :: rows' => if before r row then r :: insert_by before row rows' else row :: rows
  end.

Definition order_by {R} (before : R -> R -> bool) (rows : list R) : list R := fold_right (insert_by before) [] (rev rows).


(** ORDER BY created_at, id *)
Definition queue_before (a b : Z * Uuid) : bool :=
  if a.1 =? b.1 then match String.compare a.2 b.2 with Gt => false | _ => true end else a.1 <? b.1.

Definition MAXIMUM_COLUMN_BYTES : Z := 262144.

(** [payload ->> field] *)
Section Json_.
Context {postgres : Postgres}.

Definition fits_column (v : Value) : bool := pg_column_size v <=? MAXIMUM_COLUMN_BYTES.
Definition fits_columns (vs : list Value) : bool := forallb fits_column vs.

Definition jsonb_text (v : Value) (field : string) : option string :=
  match as_object v with
  | Some object =>
      match obj_get object field with
      | None | Some JNull => None
      | Some (JString s) => Some s
      | Some (JNumber n) => Some n
      | Some (JBool b) => Some (if b then "true" else "false")
      | Some v => Some (jsonb_nested_text v)
      end
  | None => None
  end.

(** [jsonb_set(target, ARRAY[name], value, TRUE)] of an object; anything else
    than an object is refused. *)
Definition jsonb_set (target : Value) (name : string) (value : Value) : attempt Value :=
  match as_object target with
  | Some object => Ok (JObject (obj_insert object name value))
  | None => refused "22023"
  end.
End Json_.

(** ** Transactions

    A transaction runs on the database and gives the database it leaves; one
    that fails leaves none, and the database stays what it was. *)
Section Transactions.
Context {Application : Type}.
Abbreviation Db := (Database Application).

Definition txn (A : Type) : Type := Db -> attempt (A * Db).

#[export] Instance txn_ret : MRet txn := fun A a db => Ok (a, db).
#[export] Instance txn_bind : MBind txn :=
  fun A B f m db => match m db with Ok (a, db) => f a db | Err e => Err e end.

Definition lift {A} (m : attempt A) : txn A := fun db => match m with Ok a => Ok (a, db) | Err e => Err e end.
Definition query {A} (f : Db -> A) : txn A := fun db => Ok (f db, db).
Definition ensure (b : bool) (message : string) : txn unit := lift (if b then Ok tt else fault message).

Definition with_instances (db : Db) (t : list InstanceRow) : Db :=
  {| instances := t; events := events db; jobs := jobs db; items := items db; logs := logs db;
     provider_steps := provider_steps db; reservations := reservations db; buckets := buckets db;
     start_requests := start_requests db; signal_requests := signal_requests db; application := application db |}.
Definition with_events (db : Db) (t : list EventRow) : Db :=
  {| instances := instances db; events := t; jobs := jobs db; items := items db; logs := logs db;
     provider_steps := provider_steps db; reservations := reservations db; buckets := buckets db;
     start_requests := start_requests db; signal_requests := signal_requests db; application := application db |}.
Definition with_jobs (db : Db) (t : list JobRow) : Db :=
  {| instances := instances db; events := events db; jobs := t; items := items db; logs := logs db;
     provider_steps := provider_steps db; reservations := reservations db; buckets := buckets db;
     start_requests := start_requests db; signal_requests := signal_requests db; application := application db |}.
Definition with_items (db : Db) (t : list ItemRow) : Db :=
  {| instances := instances db; events := events db; jobs := jobs db; items := t; logs := logs db;
     provider_steps := provider_steps db; reservations := reservations db; buckets := buckets db;
     start_requests := start_requests db; signal_requests := signal_requests db; application := application db |}.
Definition with_logs (db : Db) (t : list LogRow) : Db :=
  {| instances := instances db; events := events db; jobs := jobs db; items := items db; logs := t;
     provider_steps := provider_steps db; reservations := reservations db; buckets := buckets db;
     start_requests := start_requests db; signal_requests := signal_requests db; application := application db |}.
Definition with_provider_steps (db : Db) (t : list ProviderStepRow) : Db :=
  {| instances := instances db; events := events db; jobs := jobs db; items := items db; logs := logs db;
     provider_steps := t; reservations := reservations db; buckets := buckets db;
     start_requests := start_requests db; signal_requests := signal_requests db; application := application db |}.
Definition with_reservations (db : Db) (t : list ReservationRow) : Db :=
  {| instances := instances db; events := events db; jobs := jobs db; items := items db; logs := logs db;
     provider_steps := provider_steps db; reservations := t; buckets := buckets db;
     start_requests := start_requests db; signal_requests := signal_requests db; application := application db |}.
Definition with_buckets (db : Db) (t : list BucketRow) : Db :=
  {| instances := instances db; events := events db; jobs := jobs db; items := items db; logs := logs db;
     provider_steps := provider_steps db; reservations := reservations db; buckets := t;
     start_requests := start_requests db; signal_requests := signal_requests db; application := application db |}.
Definition with_start_requests (db : Db) (t : list StartRequestRow) : Db :=
  {| instances := instances db; events := events db; jobs := jobs db; items := items db; logs := logs db;
     provider_steps := provider_steps db; reservations := reservations db; buckets := buckets db;
     start_requests := t; signal_requests := signal_requests db; application := application db |}.
Definition with_signal_requests (db : Db) (t : list SignalRequestRow) : Db :=
  {| instances := instances db; events := events db; jobs := jobs db; items := items db; logs := logs db;
     provider_steps := provider_steps db; reservations := reservations db; buckets := buckets db;
     start_requests := start_requests db; signal_requests := t; application := application db |}.

Definition update_events (where_ : EventRow -> bool) (set : EventRow -> EventRow) : txn nat :=
  fun db => let '(n, t) := update_rows where_ set (events db) in Ok (n, with_events db t).
Definition update_jobs (where_ : JobRow -> bool) (set : JobRow -> JobRow) : txn nat :=
  fun db => let '(n, t) := update_rows where_ set (jobs db) in Ok (n, with_jobs db t).
Definition update_start_requests (where_ : StartRequestRow -> bool) (set : StartRequestRow -> StartRequestRow) : txn nat :=
  fun db => let '(n, t) := update_rows where_ set (start_requests db) in Ok (n, with_start_requests db t).
Definition update_signal_requests (where_ : SignalRequestRow -> bool) (set : SignalRequestRow -> SignalRequestRow) : txn nat :=
  fun db => let '(n, t) := update_rows where_ set (signal_requests db) in Ok (n, with_signal_requests db t).

(** *** Keys *)

Definition opt_string_eqb (a b : option string) : bool :=
  match a, b with Some a, Some b => String.eqb a b | None, None => true | _, _ => false end.

(** Two values of a unique column, where NULL equals nothing. *)
Definition same_key (a b : option string) : bool :=
  match a, b with Some a, Some b => String.eqb a b | _, _ => false end.

Definition event_conflicts (a b : EventRow) : bool :=
  String.eqb (e_source a) (e_source b)
  && (String.eqb (e_id a) (e_id b)
      || (String.eqb (e_process a) (e_process b) && String.eqb (e_revision a) (e_revision b)
          && String.eqb (e_kind a) (e_kind b) && same_key (e_idempotency_key a) (e_idempotency_key b))).

Definition job_conflicts (a b : JobRow) : bool :=
  String.eqb (j_source a) (j_source b)
  && (String.eqb (j_id a) (j_id b)
      || (String.eqb (j_instance a) (j_instance b) && String.eqb (j_logical_activity_id a) (j_logical_activity_id b))).

Definition item_conflicts (a b : ItemRow) : bool :=
  String.eqb (f_source a) (f_source b)
  && ((String.eqb (f_instance a) (f_instance b) && String.eqb (f_state a) (f_state b)
       && ((f_ordinal a =? f_ordinal b) || String.eqb (f_item_key_identity a) (f_item_key_identity b)))
      || same_key (f_job a) (f_job b)).

Definition same_number (a b : option Z) : bool := match a, b with Some a, Some b => a =? b | _, _ => false end.

Definition log_conflicts (a b : LogRow) : bool :=
  String.eqb (l_source a) (l_source b)
  && ((String.eqb (l_instance a) (l_instance b) && same_key (l_event a) (l_event b))
      || (same_key (l_job a) (l_job b) && same_number (l_attempt a) (l_attempt b)
          && same_number (l_lease_generation a) (l_lease_generation b) && String.eqb (l_outcome a) (l_outcome b))).

Context {postgres : Postgres}.

Definition has_instance (db : Db) (source_ : string) (instance : Uuid) : bool :=
  existsb (fun i => String.eqb (i_source i) source_ && String.eqb (i_id i) instance) (instances db).
Definition has_event (db : Db) (source_ : string) (event : Uuid) : bool :=
  existsb (fun e => String.eqb (e_source e) source_ && String.eqb (e_id e) event) (events db).
Definition has_job (db : Db) (source_ : string) (job : Uuid) : bool :=
  existsb (fun j => String.eqb (j_source j) source_ && String.eqb (j_id j) job) (jobs db).

Definition option_list {A} (o : option A) : list A := match o with Some a => [a] | None => [] end.
Definition opt_all {A} (f : A -> bool) (o : option A) : bool := forallb f (option_list o).

Definition is_object (v : Value) : bool := match v with JObject _ => true | _ => false end.

(** The checks of an instance and of an item of a fan-out. *)
Definition instance_check (row : InstanceRow) : bool :=
  fits_columns (i_state row :: option_list (i_terminal_output row) ++ option_list (i_failure row))
  && opt_all is_object (i_failure row) && (0 <=? i_version row).

Definition item_check (row : ItemRow) : bool :=
  (0 <=? f_ordinal row) && (f_ordinal row <? 256) && is_object (f_item row)
  && opt_all is_object (f_result row) && opt_all is_object (f_failure row)
  && fits_columns (f_item row :: option_list (f_result row) ++ option_list (f_failure row))
  && match f_status row with
     | FPending | FScheduled => negb (is_some (f_result row)) && negb (is_some (f_failure row))
     | FSucceeded => is_some (f_result row) && negb (is_some (f_failure row))
     | FFailed => negb (is_some (f_result row)) && is_some (f_failure row)
     end.

(** An UPDATE whose checks the changed rows must pass. *)
Definition checked_update {R} (check : R -> bool) (where_ : R -> bool) (set : R -> R) (table : list R) : attempt (nat * list R) :=
  if forallb (fun r => check (set r)) (List.filter where_ table) then Ok (update_rows where_ set table) else refused check_violation.

Definition update_instances (where_ : InstanceRow -> bool) (set : InstanceRow -> InstanceRow) : txn nat := fun db =>
  '(n, t) ← checked_update instance_check where_ set (instances db); Ok (n, with_instances db t).
Definition update_items (where_ : ItemRow -> bool) (set : ItemRow -> ItemRow) : txn nat := fun db =>
  '(n, t) ← checked_update item_check where_ set (items db); Ok (n, with_items db t).

(** The kinds of [process_events_kind_check]. *)
Definition event_kinds : list string :=
  ["start"; "continue"; "signal"; "timer"; "fanout_item"; "activity_succeeded"; "activity_failed"; "retry_exhausted";
   "command_rejected"; "cancellation"].

Definition insert_event (row : EventRow) : txn Uuid := fun db =>
  if negb (existsb (String.eqb (e_kind row)) event_kinds && fits_column (e_payload row)) then refused check_violation
  else
    t ← insert_row event_conflicts row (events db);
    if negb (has_instance db (e_source row) (e_instance row)) then refused foreign_key_violation
    else Ok (e_id row, with_events db t).

Definition insert_job (row : JobRow) : txn Uuid := fun db =>
  if negb (fits_columns (j_input row :: option_list (j_result row) ++ option_list (j_last_error row))) then refused check_violation
  else
    t ← insert_row job_conflicts row (jobs db);
    if negb (has_instance db (j_source row) (j_instance row) && has_event db (j_source row) (j_event row)) then
      refused foreign_key_violation
    else Ok (j_id row, with_jobs db t).

Definition insert_item (row : ItemRow) : txn Z := fun db =>
  if negb (item_check row) then refused check_violation
  else
    t ← insert_row item_conflicts row (items db);
    if negb (has_instance db (f_source row) (f_instance row) && has_event db (f_source row) (f_entry_event row)
             && opt_all (has_job db (f_source row)) (f_job row)) then refused foreign_key_violation
    else Ok (f_ordinal row, with_items db t).

Definition insert_log (row : LogRow) : txn unit := fun db =>
  if negb (fits_columns (l_redacted_context row :: option_list (l_command_result row))) then refused check_violation
  else
    t ← insert_row log_conflicts row (logs db);
    if negb (has_instance db (l_source row) (l_instance row) && opt_all (has_event db (l_source row)) (l_event row)
             && opt_all (has_job db (l_source row)) (l_job row)) then refused foreign_key_violation
    else Ok (tt, with_logs db t).
End Transactions.
Arguments txn Application A : clear implicits.
