(* ===== verification/ProcessTransition.v ===== *)
(** * Transitions of process instances ([crates/server/src/processes/transition.rs])

    The snapshot of a due event and its instance, what is prepared from it, and
    the parts of the preparation that read neither the rules nor the database:
    event payloads, contexts of values, sessions of commands, items of fan-outs,
    routes of errors and the schedule of retries.

    [ProcessRuntime] holds what a deployment keeps for its processes.  Its
    connector registry, its planner of commands and the parsers of [uuid] and
    [chrono] are parameters. *)
From S2P Require Import Prelude Json KeyedMap AbiIds RulesSyntax ValueContract ProcessSyntax ProcessInfer ProcessEvaluate ProcessDependencies ProcessFingerprint ProcessDefinition ProcessStates ProcessCompile ProcessTyped ProcessTables.
Set Warnings "-register-all".

(** ** The runtime *)

Record Session := { session_role : string; session_vars : btree string; backend_request : bool }.

(** [DeployedSourceProcessCatalog]: the active definition of every process and
    the retired revisions that still have instances. *)
Record DeployedSourceProcessCatalog := {
  active : btree CompiledProcessDefinition;
  live_retired : keyed (string * string) CompiledProcessDefinition;
}.

Definition revision (catalog : DeployedSourceProcessCatalog) (process_name revision : string) : option CompiledProcessDefinition :=
  match bt_get (active catalog) process_name with
  | Some process =>
      if String.eqb (revision_fingerprint_ process) revision then Some process
      else km_get (live_retired catalog) (process_name, revision)
  | None => km_get (live_retired catalog) (process_name, revision)
  end.

Class ProcessRuntime := {
  runtime_source : string;
  deployed_catalog : DeployedSourceProcessCatalog;
  runtime_rules : RuleCatalog;
  operation_spec_handle : string -> string -> OperationId -> option (Arc OperationSpec);
  configuration_fingerprint : string -> string -> option string;
  registry_serialization_key_input : string -> string -> option string;
  trigger_spec_handle : string -> string -> TriggerId -> option (Arc TriggerSpec);
  trigger_configuration_fingerprint : string -> TriggerId -> option string;
  finalized_command : string -> string -> option string;
  pre_process_command : string -> string -> option string;
  CommandMutation : Type;
  planner_error : option string;
  plan_process_command : string -> btree Value -> Session -> string -> result string CommandMutation;
  uuid_parse_str : string -> option Uuid;
  parse_from_rfc3339 : string -> result string Z;
  parse_naive_date_time : string -> result string Z;
}.

(** ** Snapshots *)

Record TransitionSnapshot := {
  event_id : Uuid;
  event_kind : string;
  event_payload : Value;
  snapshot_instance : Uuid;
  process_name : string;
  snapshot_revision : string;
  current_state : string;
  snapshot_input : Value;
  snapshot_state : Value;
  snapshot_version : Z;
  caller_role : option string;
  snapshot_session : option Value;
  workflow_time : Value;
  attempts : Z;
}.

(** ** Prepared transitions *)

Record PreparedActivityInput := {
  prepared_input : Value;
  request_fingerprint : string;
  serialization_key_hash : option string;
}.

Record PreparedFanOutItem := {
  ordinal : Z;
  prepared_item_key : string;
  item_key_identity : string;
  prepared_item : Value;
  item_request : option PreparedActivityInput;
}.

Inductive PreparedTimerSchedule : Type := ScheduleAfterMilliseconds (milliseconds : Z) | ScheduleAt (microseconds : Z).

Section Prepared.
Context {runtime : ProcessRuntime}.

Inductive PreparedTransition : Type :=
| PreparedCommand (snapshot : TransitionSnapshot) (definition : CompiledProcessDefinition)
    (state : CompiledProcessCommandActivity) (next : string) (command : CommandMutation)
| PreparedRequest (snapshot : TransitionSnapshot) (state : CompiledProcessRequestState) (input : PreparedActivityInput)
| PreparedRequestSuccess (snapshot : TransitionSnapshot) (state : CompiledProcessRequestState) (activity_job_id : Uuid)
    (attempt lease_generation : Z) (output : Value)
| PreparedRequestFailure (snapshot : TransitionSnapshot) (activity_job_id : Uuid) (attempt lease_generation : Z)
    (next error_kind : string)
| PreparedRequestAmbiguous (snapshot : TransitionSnapshot) (activity_job_id : Uuid) (attempt lease_generation : Z)
    (next error_kind : string)
| PreparedWhen (snapshot : TransitionSnapshot) (next : string) (output redacted_context : Value)
| PreparedOutput (snapshot : TransitionSnapshot) (output : Value)
| PreparedFail (snapshot : TransitionSnapshot) (fail_code fail_message : string)
| PreparedWaitEntry (snapshot : TransitionSnapshot) (schedule : PreparedTimerSchedule) (timer_payload : Value)
    (persist_before_match : bool)
| PreparedWaitCompletion (snapshot : TransitionSnapshot) (next : string) (output : option Value) (outcome : string)
    (redacted_context : list (string * Value))
| PreparedFanOutExpansion (snapshot : TransitionSnapshot) (definition : CompiledProcessDefinition)
    (state : CompiledProcessForEachState) (items : list PreparedFanOutItem)
| PreparedFanOutFailure (snapshot : TransitionSnapshot) (code message : string)
| PreparedFanOutCommandItem (snapshot : TransitionSnapshot) (definition : CompiledProcessDefinition)
    (state : CompiledProcessForEachState) (ordinal : Z) (item_key item_key_identity : string) (item : Value)
    (command : CommandMutation)
| PreparedFanOutRequestCompletion (snapshot : TransitionSnapshot) (definition : CompiledProcessDefinition)
    (state : CompiledProcessForEachState) (ordinal : Z) (item_key item_key_identity : string) (item : Value)
    (activity_job_id : Uuid) (attempt lease_generation : Z) (completion : result Value Value).

Definition prepared_snapshot (prepared : PreparedTransition) : TransitionSnapshot :=
  match prepared with
  | PreparedCommand snapshot _ _ _ _ | PreparedRequest snapshot _ _ | PreparedRequestSuccess snapshot _ _ _ _ _
  | PreparedRequestFailure snapshot _ _ _ _ _ | PreparedRequestAmbiguous snapshot _ _ _ _ _ | PreparedWhen snapshot _ _ _
  | PreparedOutput snapshot _ | PreparedFail snapshot _ _ | PreparedWaitEntry snapshot _ _ _
  | PreparedWaitCompletion snapshot _ _ _ _ | PreparedFanOutExpansion snapshot _ _ _ | PreparedFanOutFailure snapshot _ _
  | PreparedFanOutCommandItem snapshot _ _ _ _ _ _ _ | PreparedFanOutRequestCompletion snapshot _ _ _ _ _ _ _ _ _ _ => snapshot
  end.
End Prepared.

Inductive TransitionConsumption : Type :=
| NoWork
| Deferred (instance_id event_id : Uuid) (attempts delay_milliseconds : Z)
| CommandFailed (instance_id event_id : Uuid) (code : string)
| Advanced (instance_id event_id : Uuid) (from_state to_state : string)
| Completed (instance_id event_id : Uuid) (state : string)
| Failed (instance_id event_id : Uuid) (state code : string)
| CommandRejected (instance_id event_id : Uuid) (code path message : string)
| ActivityScheduled (instance_id event_id activity_job_id : Uuid) (state : string)
| FanOutExpanded (instance_id event_id : Uuid) (state : string) (item_count scheduled_count : nat)
| FanOutItemCompleted (instance_id event_id : Uuid) (state : string) (ordinal : Z)
| WaitEntered (instance_id event_id timer_event_id : Uuid) (state : string).

(** ** JSON *)

(** [Value::get], and its views. *)
Definition json_get (v : Value) (field : string) : option Value := object ← as_object v; obj_get object field.
Definition get_str (v : Value) (field : string) : option string := v ← json_get v field; as_str v.
Definition as_i64 (v : Value) : option Z := match v with JNumber n => number_as_i64 n | _ => None end.
Definition get_i64 (v : Value) (field : string) : option Z := v ← json_get v field; as_i64 v.
Definition json_i64 (n : Z) : Value := JNumber (show_Z n).

Definition i32_try_from (n : Z) : option Z := checked i32_min i32_max n.
Definition opt_filter {A} (f : A -> bool) (o : option A) : option A := x ← o; if f x then Some x else None.
Definition str_is (o : option string) (s : string) : bool := match o with Some t => String.eqb t s | None => false end.
Definition num_is (o : option Z) (n : Z) : bool := match o with Some m => m =? n | None => false end.

(** ** Event payloads *)

Definition deterministic_event_kind (kind : string) : bool := String.eqb kind "start" || String.eqb kind "continue".

Definition wait_event_matches_snapshot (snapshot : TransitionSnapshot) : bool :=
  str_is (get_str (event_payload snapshot) "wait_state") (current_state snapshot)
  && num_is (get_i64 (event_payload snapshot) "wait_version") (snapshot_version snapshot).

Definition fanout_event_matches_snapshot (snapshot : TransitionSnapshot) : bool :=
  str_is (get_str (event_payload snapshot) "fanout_state") (current_state snapshot)
  && num_is (get_i64 (event_payload snapshot) "fanout_version") (snapshot_version snapshot).

Definition fanout_event_ordinal (snapshot : TransitionSnapshot) : outcome Z :=
  ok_or "Process fan-out item event has no valid ordinal"
    (opt_filter (Z.leb 0) (n ← get_i64 (event_payload snapshot) "ordinal"; i32_try_from n)).

Definition fanout_event_item_key_identity (snapshot : TransitionSnapshot) : outcome string :=
  ok_or "Process fan-out item event has no stable item identity" (get_str (event_payload snapshot) "item_key_identity").

Definition next_version (snapshot : TransitionSnapshot) : outcome Z :=
  ok_or "Process instance version overflow" (checked i64_min i64_max (snapshot_version snapshot + 1)).

(** ** Contexts of values *)

Section Contexts.
Context {runtime : ProcessRuntime}.

Definition process_value_context (snapshot : TransitionSnapshot) : ProcessValueContext :=
  {| source_name := runtime_source; instance_id := snapshot_instance snapshot; ctx_input := snapshot_input snapshot;
     ctx_state := snapshot_state snapshot; caller_session := snapshot_session snapshot;
     ctx_workflow_time := workflow_time snapshot; ctx_item := None; ctx_item_key := None |}.

Definition fanout_value_context (snapshot : TransitionSnapshot) (item : Value) (item_key_identity : string) : ProcessValueContext :=
  {| source_name := runtime_source; instance_id := snapshot_instance snapshot; ctx_input := snapshot_input snapshot;
     ctx_state := snapshot_state snapshot; caller_session := snapshot_session snapshot;
     ctx_workflow_time := workflow_time snapshot; ctx_item := Some item; ctx_item_key := Some item_key_identity |}.

Definition fanout_event_entry_id (snapshot : TransitionSnapshot) : outcome Uuid :=
  ok_or "Process fan-out item event has no valid entry event ID"
    (value ← get_str (event_payload snapshot) "entry_event_id"; uuid_parse_str value).

Definition event_job_id (snapshot : TransitionSnapshot) (message : string) : outcome Uuid :=
  ok_or message (value ← get_str (event_payload snapshot) "activity_job_id"; uuid_parse_str value).
End Contexts.

(** ** Outputs and matches *)

Definition state_output (state : Value) (state_name : string) : outcome Value :=
  ok_or ("compiled Process ancestor state `" +:+ state_name +:+ "` has no output") (json_get state state_name).

Definition json_matches `{Serde} (actual : Value) (expected : btree Value) : outcome bool :=
  object ← ok_or "compiled Process when comparison is not an object" (as_object actual);
  Ok (forallb (fun fe : string * Value => match obj_get object fe.1 with Some value => value_eqb value fe.2 | None => false end) expected).

(** [validate(typed_value(v))] with the contexts of its two errors. *)
Definition validate_payload (contract : ValueContractCatalog) (decoding violated : string) (v : Value) : outcome unit :=
  typed ← map_err (fun error => decoding +:+ ": " +:+ error) (typed_value v);
  map_err (fun error => violated +:+ ": " +:+ ValueContractError_to_string error) (validate contract typed).

Definition validate_state_output (definition : CompiledProcessDefinition) (snapshot : TransitionSnapshot) (output : Value) : outcome unit :=
  typed ← map_err (fun error => "decoding Process state output: " +:+ error) (typed_value output);
  state ← ok_or ("compiled Process state `" +:+ current_state snapshot +:+ "` disappeared")
            (bt_get (definition_states definition) (current_state snapshot));
  map_err (fun error => "Process state output violated its compiled contract: " +:+ ValueContractError_to_string error)
    (validate (compiled_output state) typed).

(** ** Sessions of commands *)

Definition persisted_tenant (definition : CompiledProcessDefinition) (snapshot : TransitionSnapshot) : btree string :=
  match (session ← snapshot_session snapshot; as_object session) with
  | None => []
  | Some object =>
      match tenant_variable definition with
      | None => []
      | Some name =>
          match (value ← obj_get object name; as_str value) with
          | Some value => [(name, value)]
          | None => []
          end
      end
  end.

Definition set_eqb (a b : string_set) : bool := list_eqb String.eqb (map fst a) (map fst b).

Definition process_command_session (definition : CompiledProcessDefinition) (role : CompiledProcessCommandRole)
    (snapshot : TransitionSnapshot) : outcome Session :=
  match role with
  | RoleFixed role => Ok {| session_role := role; session_vars := persisted_tenant definition snapshot; backend_request := false |}
  | RoleCaller required_session_variables =>
      role ← ok_or "caller Process command has no persisted caller role" (caller_role snapshot);
      required ← ok_or ("persisted caller role `" +:+ role +:+ "` is not a declared Process role")
                   (bt_get required_session_variables role);
      complete_required ← ok_or ("caller role `" +:+ role +:+ "` has no compiled session contract")
                            (bt_get (caller_session_variables definition) role);
      object ← ok_or "caller Process command has no persisted session object"
                 (session ← snapshot_session snapshot; as_object session);
      let actual := set_extend [] (map fst object) in
      if negb (set_eqb actual complete_required) then
        bail "persisted Process caller session does not match its compiled closed contract"
      else
        vars ← map_result (fun name : string * unit =>
                 value ← ok_or ("persisted Process session variable `" +:+ name.1 +:+ "` is not a string")
                           (value ← obj_get object name.1; as_str value);
                 Ok (name.1, value)) required;
        Ok {| session_role := role; session_vars := bt_collect vars; backend_request := false |}
  end.

(** ** Items of fan-outs *)

Record CanonicalFanOutItemKey := { identity : string; key_output : string }.

Definition bool_text (b : bool) : string := if b then "true" else "false".

(** The identity is the JSON text of the key, so that a number and the string of
    its digits differ; that of a scalar is spelled out here. *)
Definition canonical_fanout_item_key (value : Value) : option CanonicalFanOutItemKey :=
  match value with
  | JString s => Some {| identity := json_string s; key_output := s |}
  | JNumber n => Some {| identity := n; key_output := n |}
  | JBool b => Some {| identity := bool_text b; key_output := bool_text b |}
  | _ => None
  end.

Definition empty_fanout_output : Value :=
  JObject [("successful_items", JArray []); ("failed_items", JArray []); ("ordered_results", JArray [])].

(** The fields of the result, over those of the item when they are kept. *)
Definition merge_fanout_success_item `{Serde} (item result_ : Value) (preserve_input : bool) : outcome Value :=
  result_ ← ok_or "Process fan-out activity result is not an object" (as_object result_);
  if negb preserve_input then Ok (JObject result_)
  else
    merged ← ok_or "Process fan-out item is not an object" (as_object item);
    merged ← fold_result (fun merged nv =>
               if match obj_get merged nv.1 with Some existing => negb (value_eqb existing nv.2) | None => false end then
                 bail ("Process fan-out result field `" +:+ nv.1 +:+ "` conflicts with preserved input")
               else Ok (obj_insert merged nv.1 nv.2)) merged result_;
    Ok (JObject merged).

Definition fanout_failure_output (item : Value) (item_key stage code safe_message : string) (requires_reconciliation : bool)
    (activity_key : string) : outcome Value :=
  output ← ok_or "Process fan-out failure item is not an object" (as_object item);
  let output := obj_insert output "item_key" (JString item_key) in
  let output := obj_insert output "stage" (JString stage) in
  let output := obj_insert output "code" (JString code) in
  let output := obj_insert output "safe_message" (JString safe_message) in
  let output := obj_insert output "requires_reconciliation" (JBool requires_reconciliation) in
  let output := obj_insert output "activity_key" (JString activity_key) in
  Ok (JObject output).

Definition AMBIGUOUS_ROUTE_KIND : string := "ambiguous".
Definition PROVIDER_SEND_AMBIGUOUS : string := "provider_send_ambiguous".

Definition is_ambiguous_send (error : Value) : bool := str_is (get_str error "code") PROVIDER_SEND_AMBIGUOUS.

(** ** Routes of errors *)

Definition process_error_kind_name (kind : ProcessErrorKind) : string :=
  match kind with
  | Authentication => "authentication" | Transport => "transport" | Timeout_ => "timeout" | Http429 => "http_429"
  | Http5xx => "http_5xx" | Validation => "validation" | Permanent => "permanent" | Invariant_ => "invariant"
  | RetryExhausted => "retry_exhausted"
  end.

(** The first route that names the kind, or the fallback. *)
Definition error_route (routes_ : ProcessErrorRoutes) (error_kind : string) : string :=
  match List.find (fun route => existsb (fun kind => String.eqb (process_error_kind_name kind) error_kind) (kinds route)) (routes routes_) with
  | Some route => route_next route
  | None => fallback_next routes_
  end.

Definition fanout_request_error_route (request : CompiledProcessRequestState) (error_kind default : string) : string :=
  match on_error (activity request) with
  | Some routes => error_route routes error_kind
  | None => default
  end.

(** ** Digests *)

Section Digests.
Context {serde : Serde} {digest : Digest} {uuids : Uuids}.

(** [canonical_json_sha256]: [expect] makes a failing serialiser a panic. *)
Definition canonical_json_sha256 (input : Value) : attempt string :=
  match to_vec (canonical_json input) with
  | Some bytes => Ok (lower_hex (sha256 bytes))
  | None => Err Panic
  end.

Definition process_serialization_key_hash (input : Value) (field : string) : outcome string :=
  value ← ok_or ("Process serialization input `" +:+ field +:+ "` is missing") (json_get input field);
  match value with
  | JNull | JArray _ | JObject _ => bail ("Process serialization input `" +:+ field +:+ "` is not a non-null scalar")
  | _ =>
      canonical ← ok_or "serializing Process activity serialization key" (to_vec value);
      Ok (sha256 ("donat.process.serialization-key.v1" +:+ zero_byte +:+ canonical))
  end.

Definition fanout_logical_activity_id (snapshot : TransitionSnapshot) (item_key_identity : string) : attempt string :=
  digest ← canonical_json_sha256 (JString item_key_identity);
  Ok ("fanout:v1:" +:+ snapshot_revision snapshot +:+ ":" +:+ uuid_to_string (snapshot_instance snapshot) +:+ ":"
      +:+ current_state snapshot +:+ ":" +:+ digest).

Definition fanout_item_uuid (domain : string) (snapshot : TransitionSnapshot) (item_key_identity : string) : Uuid :=
  let bytes := str_take 16 (sha256 (domain +:+ snapshot_revision snapshot +:+ zero_byte +:+ snapshot_instance snapshot +:+ zero_byte
                 +:+ current_state snapshot +:+ zero_byte +:+ item_key_identity)) in
  let bytes := map_byte 6 (fun b => Z.lor (Z.land b 0x0f) 0x50) bytes in
  map_byte 8 (fun b => Z.lor (Z.land b 0x3f) 0x80) bytes.

(** ** Retries *)

Definition TRANSITION_RETRY_INITIAL_MS : Z := 50.
Definition TRANSITION_RETRY_MAXIMUM_MS : Z := 30000.
Definition TRANSITION_RETRY_MAX_ATTEMPTS : Z := 12.

(** [u64::from_be_bytes] of the first eight bytes. *)
Fixpoint be_bytes (acc : Z) (n : nat) (bytes : string) : Z :=
  match n, bytes with
  | S n, String a bytes => be_bytes (acc * 256 + byte_val a) n bytes
  | _, _ => acc
  end.

Definition saturating_i32 (n : Z) : Z := Z.max i32_min (Z.min i32_max n).

(** [1_u64.checked_shl(exponent).unwrap_or(u64::MAX)] of an attempt. *)
Definition retry_multiplier (attempts : Z) : Z :=
  let exponent := match checked 0 u32_max (saturating_i32 (attempts - 1)) with Some n => n | None => 0 end in
  if exponent <? 64 then Z.shiftl 1 exponent else u64_max.

Definition transition_retry_delay_ms (event_id : Uuid) (attempts : Z) : Z :=
  let upper := Z.min (Z.min u64_max (TRANSITION_RETRY_INITIAL_MS * retry_multiplier attempts)) TRANSITION_RETRY_MAXIMUM_MS in
  let material := "donat.process.transition-retry.v1" +:+ zero_byte +:+ uuid_to_string event_id +:+ zero_byte +:+ show_Z attempts in
  let sample := be_bytes 0 8 (sha256 material) in
  Z.max (sample mod Z.min u64_max (upper + 1)) (Z.min TRANSITION_RETRY_INITIAL_MS upper).
End Digests.

(** ** Transient failures *)

Fixpoint contains_text (pattern text : string) : bool :=
  starts_with pattern text || match text with String _ text => contains_text pattern text | EmptyString => false end.

Definition is_deterministic_driver_error (text : string) : bool :=
  contains_text "query returned an unexpected number of rows" text
  || contains_text "error serializing parameter" text
  || contains_text "invalid number of parameters" text
  || contains_text "cannot convert between the Rust type" text.

Definition is_transient (error : TransitionError) : bool :=
  match error with
  | Sqlstate code => existsb (String.eqb code) ["40001"; "40P01"; "57P01"; "53300"; "55P03"] || starts_with "08" code
  | Driver text => negb (is_deterministic_driver_error text)
  | Pool => true
  | Fault _ | Panic => false
  end.
