(* ===== verification/ProcessPrepare.v ===== *)
(** * Preparing a transition ([crates/server/src/processes/transition.rs])

    [prepare_one_snapshot] and what it calls for each kind of state.  A prepared
    transition is computed from an immutable snapshot; only the completions of
    activities and the items of fan-outs read the database. *)
From S2P Require Import Prelude Json KeyedMap AbiIds RulesSyntax RulesEval RulesCanonical ValueContract ProcessSyntax ProcessInfer ProcessEvaluate ProcessDependencies ProcessFingerprint ProcessDefinition ProcessStates ProcessCompile ProcessTyped ProcessTables ProcessTransition.
From S2P Require RulesDecision RulesCatalog.
Set Warnings "-register-all".

(** A rule's result with the context of its error; the canonical encoder of a
    trace may panic. *)
Definition rule_outcome {A} (message : string) (m : RulesDecision.outcome A) : attempt A :=
  match m with
  | RulesDecision.Done a => Ok a
  | RulesDecision.Failed error => fault (message +:+ ": " +:+ RuleError_to_string error)
  | RulesDecision.Panicked => Err Panic
  end.

Section Prepare.
Context {serde : Serde} {digest : Digest} {uuids : Uuids} {runtime : ProcessRuntime}.

Abbreviation Definition_ := CompiledProcessDefinition.

(** ** Waits *)

Definition prepare_signal_deadline (deadline : CompiledProcessSignalDeadline) (context : ProcessValueContext) :
    outcome PreparedTimerSchedule :=
  match deadline with
  | AfterMilliseconds milliseconds =>
      milliseconds ← ok_or "Process signal deadline exceeds PostgreSQL interval input" (checked i64_min i64_max milliseconds);
      Ok (ScheduleAfterMilliseconds milliseconds)
  | DeadlineAt value kind =>
      value ← map_err (fun error => "evaluating absolute Process signal deadline: " +:+ error) (evaluate_process_value context value);
      value ← ok_or "absolute Process signal deadline is not a string" (as_str value);
      at_ ← match kind with
            | KindTimestampTz => map_err (fun error => "invalid Process timestamptz deadline `" +:+ value +:+ "`: " +:+ error) (parse_from_rfc3339 value)
            | KindTimestamp => map_err (fun error => "invalid Process timestamp deadline `" +:+ value +:+ "`: " +:+ error) (parse_naive_date_time value)
            end;
      Ok (ScheduleAt at_)
  end.

Definition trigger_name (connector : string) (trigger : TriggerId) : string := connector +:+ "." +:+ InlineId_as_str trigger.

(** The trigger is the one the revision pinned. *)
Definition check_pinned_trigger (definition : Definition_) (wait : CompiledProcessWebhookWait) (revision : string) : outcome unit :=
  let name := trigger_name (hooked_connector wait) (hooked_trigger wait) in
  dependency ← ok_or ("Process connector trigger `" +:+ name +:+ "` is absent from the pinned dependency closure")
                 (km_get (connector_triggers (definition_dependencies definition)) (runtime_source, hooked_connector wait, hooked_trigger wait));
  live_spec ← ok_or ("Process connector trigger `" +:+ name +:+ "` is absent from the immutable registry")
                (trigger_spec_handle runtime_source (hooked_connector wait) (hooked_trigger wait));
  live_fingerprint ← ok_or ("Process connector trigger `" +:+ name +:+ "` has no immutable deployment fingerprint")
                       (trigger_configuration_fingerprint (hooked_connector wait) (hooked_trigger wait));
  if negb (String.eqb (pinned_trigger_source dependency) runtime_source)
     || negb (String.eqb (pinned_trigger_instance dependency) (hooked_connector wait))
     || negb (ptr_eq (pinned_trigger_spec dependency) live_spec)
     || negb (String.eqb (pinned_trigger_deployment dependency) live_fingerprint)
  then bail ("Process connector trigger `" +:+ name +:+ "` differs from pinned revision `" +:+ revision +:+ "`")
  else Ok tt.

(** The table of a decision is pinned and in the rule snapshot. *)
Definition check_pinned_decision (definition : Definition_) (name : string) : outcome unit :=
  if negb (bt_contains (decision_tables (definition_dependencies definition)) name) then
    bail ("Process decision table `" +:+ name +:+ "` is absent from the pinned dependency closure")
  else if negb (bt_contains (cat_decision_tables runtime_rules) name) then
    bail ("Process decision table `" +:+ name +:+ "` is absent from the immutable rule snapshot")
  else Ok tt.

Definition evaluate_correlation (correlate : btree ProcessValue) (context : ProcessValueContext) : outcome Value :=
  values ← evaluate_process_values context correlate; Ok (JObject (obj_collect values)).

Definition prepare_wait_entry (snapshot : TransitionSnapshot) (definition : Definition_) (state : CompiledProcessWaitState) :
    attempt PreparedTransition :=
  wait_version ← fault_of (next_version snapshot);
  let context := process_value_context snapshot in
  let marker := [("wait_state", JString (current_state snapshot)); ("wait_version", json_i64 wait_version)] in
  match state with
  | CompiledSignal wait =>
      signal ← fault_of (ok_or ("compiled Process signal `" +:+ waited_signal wait +:+ "` disappeared from revision `"
                                +:+ snapshot_revision snapshot +:+ "`") (bt_get (definition_signals definition) (waited_signal wait)));
      if opt_is_some_and (compiled_signal_role signal) (fun role => negb (String.eqb role (waited_role wait))) then
        fault ("compiled Process signal `" +:+ waited_signal wait +:+ "` role differs from wait state `" +:+ current_state snapshot +:+ "`")
      else
        correlation_ ← fault_of (evaluate_correlation (waited_correlate wait) context);
        _ ← fault_of (validate_payload (correlation signal) "decoding Process wait correlation"
              ("Process wait correlation violated signal `" +:+ waited_signal wait +:+ "` contract") correlation_);
        schedule ← fault_of (prepare_signal_deadline (waited_deadline wait) context);
        Ok (PreparedWaitEntry snapshot schedule
              (JObject (marker ++ [("signal_name", JString (waited_signal wait)); ("correlation", correlation_); ("route", JString "timeout")]))
              (waited_persist_before_match wait))
  | CompiledWebhook wait =>
      _ ← fault_of (check_pinned_trigger definition wait (snapshot_revision snapshot));
      correlation_ ← fault_of (evaluate_correlation (hooked_correlate wait) context);
      schedule ← fault_of (prepare_signal_deadline (hooked_deadline wait) context);
      Ok (PreparedWaitEntry snapshot schedule
            (JObject (marker ++ [("connector_instance", JString (hooked_connector wait));
                                 ("trigger", JString (InlineId_as_str (hooked_trigger wait)));
                                 ("correlation", correlation_); ("route", JString "timeout")]))
            false)
  | CompiledTimer wait =>
      let decision := timer_decision wait in
      _ ← fault_of (check_pinned_decision definition (decision_call decision));
      input ← fault_of (evaluate_process_values context (decision_input decision));
      result_ ← rule_outcome ("evaluating Process timer decision table `" +:+ decision_call decision +:+ "`")
                  (RulesCatalog.evaluate_decision runtime_rules (decision_call decision) input);
      delay_seconds ← fault_of (ok_or ("Process timer decision output `" +:+ duration_output wait +:+ "` must be a non-negative integer")
                                 (opt_filter (Z.leb 0) (get_i64 (res_output result_) (duration_output wait))));
      delay_milliseconds ← fault_of (ok_or "Process timer duration overflowed milliseconds" (checked i64_min i64_max (delay_seconds * 1000)));
      _ ← with_context "validating Process timer decision output" (fault_of (validate_state_output definition snapshot (res_output result_)));
      Ok (PreparedWaitEntry snapshot (ScheduleAfterMilliseconds delay_milliseconds)
            (JObject (marker ++ [("decision_table", JString (decision_call decision)); ("matched_row_id", JString (res_matched_row_id result_));
                                 ("output", res_output result_); ("route", JString "timer")]))
            false)
  end.

(** The fields of the payload added to those of the correlation. *)
Definition merge_signal_fields (correlation payload : list (string * Value)) : outcome (list (string * Value)) :=
  fold_result (fun output nv =>
    if bt_contains output nv.1 then bail ("Process signal field `" +:+ nv.1 +:+ "` exists in correlation and payload")
    else Ok (obj_insert output nv.1 nv.2)) correlation payload.

Definition complete_signal (snapshot : TransitionSnapshot) (definition : Definition_) (wait : CompiledProcessSignalWait) :
    outcome (option PreparedTransition) :=
  if negb (str_is (get_str (event_payload snapshot) "signal_name") (waited_signal wait)) then Ok None
  else
    signal ← ok_or ("compiled Process signal `" +:+ waited_signal wait +:+ "` disappeared from revision `"
                    +:+ snapshot_revision snapshot +:+ "`") (bt_get (definition_signals definition) (waited_signal wait));
    correlation_ ← ok_or "Process signal event has no correlation object" (json_get (event_payload snapshot) "correlation");
    payload_ ← ok_or "Process signal event has no payload object" (json_get (event_payload snapshot) "payload");
    _ ← validate_payload (correlation signal) "decoding Process signal event correlation"
          ("Process signal event correlation violated `" +:+ waited_signal wait +:+ "`") correlation_;
    _ ← validate_payload (payload signal) "decoding Process signal event payload"
          ("Process signal event payload violated `" +:+ waited_signal wait +:+ "`") payload_;
    correlation_ ← ok_or "Process signal correlation is not an object" (as_object correlation_);
    payload_ ← ok_or "Process signal payload is not an object" (as_object payload_);
    output ← merge_signal_fields correlation_ payload_;
    let output := JObject output in
    _ ← map_err (fun error => "validating Process signal wait output: " +:+ error) (validate_state_output definition snapshot output);
    Ok (Some (PreparedWaitCompletion snapshot (waited_next wait) (Some output) "signal_received" [("signal", JString (waited_signal wait))])).

Definition complete_webhook (snapshot : TransitionSnapshot) (definition : Definition_) (wait : CompiledProcessWebhookWait) :
    outcome (option PreparedTransition) :=
  let name := trigger_name (hooked_connector wait) (hooked_trigger wait) in
  if negb (str_is (get_str (event_payload snapshot) "connector_instance") (hooked_connector wait))
     || negb (str_is (get_str (event_payload snapshot) "trigger") (InlineId_as_str (hooked_trigger wait))) then Ok None
  else
    output ← ok_or "Process webhook event has no normalized output" (json_get (event_payload snapshot) "output");
    dependency ← ok_or ("Process connector trigger `" +:+ name +:+ "` disappeared from the pinned dependency closure")
                   (km_get (connector_triggers (definition_dependencies definition)) (runtime_source, hooked_connector wait, hooked_trigger wait));
    contract ← match as_ref (pinned_trigger_spec dependency) with
               | Webhook _ _ _ _ _ _ _ _ _ output _ _ => Ok output
               | Poll _ _ _ _ _ => bail "a compiled Process webhook wait retained a poll trigger"
               end;
    _ ← validate_payload contract "decoding normalized Process webhook output" ("Process webhook output violated `" +:+ name +:+ "`") output;
    _ ← map_err (fun error => "validating Process webhook wait output: " +:+ error) (validate_state_output definition snapshot output);
    Ok (Some (PreparedWaitCompletion snapshot (hooked_next wait) (Some output) "webhook_received"
                [("connector", JString (hooked_connector wait)); ("trigger", JString (InlineId_as_str (hooked_trigger wait)))])).

Definition complete_timer (snapshot : TransitionSnapshot) (definition : Definition_) (wait : CompiledProcessTimerWait) :
    outcome (option PreparedTransition) :=
  output ← ok_or "Process timer event has no decision output" (json_get (event_payload snapshot) "output");
  _ ← map_err (fun error => "validating persisted Process timer output: " +:+ error) (validate_state_output definition snapshot output);
  Ok (Some (PreparedWaitCompletion snapshot (compiled_timer_next wait) (Some output) "timer_fired"
              [("kind", JString "decision_timer"); ("decision_table", JString (decision_call (timer_decision wait)))])).

Definition prepare_wait_completion (snapshot : TransitionSnapshot) (definition : Definition_) (state : CompiledProcessWaitState) :
    outcome (option PreparedTransition) :=
  if negb (wait_event_matches_snapshot snapshot) then Ok None
  else
    let signal := String.eqb (event_kind snapshot) "signal" in
    let timer := String.eqb (event_kind snapshot) "timer" in
    match state with
    | CompiledSignal wait =>
        if signal then complete_signal snapshot definition wait
        else if timer then
          Ok (Some (PreparedWaitCompletion snapshot (waited_on_timeout wait) None "timer_fired"
                      [("kind", JString "signal_timeout"); ("signal", JString (waited_signal wait))]))
        else Ok None
    | CompiledWebhook wait =>
        if signal then complete_webhook snapshot definition wait
        else if timer then
          Ok (Some (PreparedWaitCompletion snapshot (hooked_on_timeout wait) None "timer_fired"
                      [("kind", JString "webhook_timeout"); ("connector", JString (hooked_connector wait));
                       ("trigger", JString (InlineId_as_str (hooked_trigger wait)))]))
        else Ok None
    | CompiledTimer wait => if timer then complete_timer snapshot definition wait else Ok None
    end.

Definition prepare_wait_transition (snapshot : TransitionSnapshot) (definition : Definition_) (state : CompiledProcessWaitState) :
    attempt (option PreparedTransition) :=
  if deterministic_event_kind (event_kind snapshot) then
    prepared ← prepare_wait_entry snapshot definition state; Ok (Some prepared)
  else if String.eqb (event_kind snapshot) "signal" || String.eqb (event_kind snapshot) "timer" then
    fault_of (prepare_wait_completion snapshot definition state)
  else Ok None.

(** ** Commands *)

Definition prepare_command_mutation (snapshot : TransitionSnapshot) (definition : Definition_) (command : CompiledProcessCommandActivity)
    (context : ProcessValueContext) : outcome CommandMutation :=
  let command_name := compiled_command command in
  let qualified := runtime_source +:+ "." +:+ command_name in
  finalized ← ok_or ("finalized Process command `" +:+ qualified +:+ "` is absent from the immutable snapshot")
                (finalized_command runtime_source command_name);
  pre_process ← ok_or ("compiled Process command `" +:+ qualified +:+ "` is absent from the immutable snapshot")
                  (pre_process_command runtime_source command_name);
  dependency ← ok_or ("Process command `" +:+ qualified +:+ "` is absent from the pinned dependency closure")
                 (km_get (commands (definition_dependencies definition)) (runtime_source, command_name));
  let expected := command_fingerprint dependency in
  if negb (String.eqb expected pre_process) || negb (String.eqb expected finalized) then
    bail ("Process command `" +:+ qualified +:+ "` differs from pinned revision `" +:+ snapshot_revision snapshot +:+ "`")
  else
    session ← process_command_session definition (compiled_role command) snapshot;
    arguments ← evaluate_process_values context (compiled_arguments command);
    _ ← match planner_error with
        | Some error => bail ("constructing Process command planner: " +:+ error)
        | None => Ok tt
        end;
    map_err (fun error => "planning Process command `" +:+ command_name +:+ "`: " +:+ error)
      (plan_process_command command_name arguments session ("$.processes." +:+ process_name snapshot +:+ ".states." +:+ current_state snapshot)).

Definition prepare_command_transition (snapshot : TransitionSnapshot) (definition : Definition_)
    (state : CompiledProcessCommandActivity) (next : string) : outcome PreparedTransition :=
  command ← prepare_command_mutation snapshot definition state (process_value_context snapshot);
  Ok (PreparedCommand snapshot definition state next command).

(** ** Requests *)

Definition operation_name (request : CompiledProcessRequestActivity) : string :=
  connector request +:+ "." +:+ InlineId_as_str (compiled_operation request).

(** The operation is the one the revision pinned, under the effect the state
    was compiled for. *)
Definition check_pinned_operation (snapshot : TransitionSnapshot) (definition : Definition_) (request : CompiledProcessRequestActivity) :
    outcome PinnedConnectorOperation :=
  let name := operation_name request in
  let operation := InlineId_as_str (compiled_operation request) in
  dependency ← ok_or ("Process connector operation `" +:+ name +:+ "` is absent from the pinned dependency closure")
                 (km_get (connector_operations (definition_dependencies definition)) (runtime_source, connector request, compiled_operation request));
  if negb (String.eqb (pinned_source dependency) runtime_source)
     || negb (String.eqb (pinned_instance dependency) (connector request))
     || negb (bool_decide (spec_operation (as_ref (pinned_spec dependency)) = compiled_operation request))
  then bail ("pinned Process connector identity differs from request state `" +:+ current_state snapshot +:+ "`")
  else
    live_spec ← ok_or ("Process connector operation `" +:+ name +:+ "` is absent from the immutable registry")
                  (operation_spec_handle runtime_source (connector request) (compiled_operation request));
    live_fingerprint ← ok_or ("Process connector operation `" +:+ name +:+ "` has no immutable deployment fingerprint")
                         (configuration_fingerprint (connector request) operation);
    if negb (ptr_eq (pinned_spec dependency) live_spec)
       || negb (String.eqb (pinned_deployment dependency) live_fingerprint)
       || negb (opt_string_eqb (serialization_key_input dependency) (registry_serialization_key_input (connector request) operation))
    then bail ("Process connector operation `" +:+ name +:+ "` differs from pinned revision `" +:+ snapshot_revision snapshot +:+ "`")
    else if negb (Bool.eqb (match effect (as_ref (pinned_spec dependency)) with ProviderIdempotent _ => true | _ => false end)
                           (provider_idempotent request)) then
      bail ("Process request state `" +:+ current_state snapshot +:+ "` has a mismatched connector effect")
    else if negb (Bool.eqb (match effect (as_ref (pinned_spec dependency)) with AtMostOnce => true | _ => false end)
                           (at_most_once request)) then
      bail ("Process request state `" +:+ current_state snapshot +:+ "` has a mismatched at-most-once effect")
    else if at_most_once request && negb (is_some (on_ambiguous request)) then
      bail ("Process request state `" +:+ current_state snapshot +:+ "` is at-most-once with no ambiguous route")
    else Ok dependency.

Definition prepare_activity_input (snapshot : TransitionSnapshot) (definition : Definition_) (request : CompiledProcessRequestActivity)
    (context : ProcessValueContext) : attempt PreparedActivityInput :=
  dependency ← fault_of (check_pinned_operation snapshot definition request);
  input ← fault_of (evaluate_correlation (compiled_input request) context);
  let contract := spec_input (as_ref (pinned_spec dependency)) in
  _ ← fault_of (validate_payload contract "decoding Process activity input"
        ("Process activity input violated the contract of instance `" +:+ pinned_instance dependency +:+ "` (declared fields: "
         +:+ join ", " (map fst (roots contract)) +:+ ")") input);
  fingerprint ← canonical_json_sha256 input;
  hash ← match serialization_key_input dependency with
         | Some field => hash ← fault_of (process_serialization_key_hash input field); Ok (Some hash)
         | None => Ok None
         end;
  Ok {| prepared_input := input; request_fingerprint := fingerprint; serialization_key_hash := hash |}.

Definition prepare_request_transition (snapshot : TransitionSnapshot) (definition : Definition_) (state : CompiledProcessRequestState) :
    attempt PreparedTransition :=
  input ← prepare_activity_input snapshot definition (activity state) (process_value_context snapshot);
  Ok (PreparedRequest snapshot state input).

(** ** Decisions and outputs *)

(** What a decision state compares and records: the result of its table, or the
    recorded output of an earlier state, and the row that matched. *)
Definition when_comparison (snapshot : TransitionSnapshot) (definition : Definition_) (state : CompiledProcessWhenState) :
    attempt (Value * option string) :=
  match compiled_decision_table state with
  | Some decision =>
      _ ← fault_of (check_pinned_decision definition (decision_call decision));
      input ← fault_of (evaluate_process_values (process_value_context snapshot) (decision_input decision));
      result_ ← rule_outcome ("evaluating Process decision table `" +:+ decision_call decision +:+ "`")
                  (RulesCatalog.evaluate_decision runtime_rules (decision_call decision) input);
      Ok (res_output result_, Some (res_matched_row_id result_))
  | None =>
      match literal_output_state state with
      | Some source_state => output ← fault_of (state_output (snapshot_state snapshot) source_state); Ok (output, None)
      | None => Ok (JObject [], None)
      end
  end.

Definition case_matches (snapshot : TransitionSnapshot) (definition : Definition_) (state : CompiledProcessWhenState)
    (comparison : Value) (predicate : CompiledProcessWhenPredicate) : outcome bool :=
  match predicate with
  | WhenMatches expected => json_matches comparison expected
  | WhenRule name bindings =>
      if is_some (compiled_decision_table state) then bail "compiled decision-table route contains a rule case"
      else if negb (bt_contains (rules (definition_dependencies definition)) name) then
        bail ("Process rule `" +:+ name +:+ "` is absent from the pinned dependency closure")
      else
        rule ← ok_or ("Process rule `" +:+ name +:+ "` is absent from the immutable rule snapshot") (bt_get (cat_rules runtime_rules) name);
        bindings ← evaluate_process_values (process_value_context snapshot) bindings;
        map_err (fun error => "evaluating Process rule `" +:+ name +:+ "`: " +:+ RuleError_to_string error) (evaluate_bool rule bindings)
  end.

(** The first case that matches, with its index. *)
Fixpoint first_case (snapshot : TransitionSnapshot) (definition : Definition_) (state : CompiledProcessWhenState)
    (comparison : Value) (index : nat) (cases : list CompiledProcessWhenCase) : outcome (option (nat * CompiledProcessWhenCase)) :=
  match cases with
  | [] => Ok None
  | case :: cases =>
      matched ← case_matches snapshot definition state comparison (predicate case);
      if matched : bool then Ok (Some (index, case)) else first_case snapshot definition state comparison (S index) cases
  end.

Definition matched_route (case : option (nat * CompiledProcessWhenCase)) : string :=
  match case with
  | None => "default"
  | Some (_, case) => match predicate case with WhenMatches _ => "literal" | WhenRule name _ => "rule:" +:+ name end
  end.

Definition index_json (case : option (nat * CompiledProcessWhenCase)) : Value :=
  match case with None => JNull | Some (index, _) => JNumber (show_nat (Z.of_nat index)) end.

Definition prepare_when_transition (snapshot : TransitionSnapshot) (definition : Definition_) (state : CompiledProcessWhenState) :
    attempt PreparedTransition :=
  '(comparison, decision_row) ← when_comparison snapshot definition state;
  case ← fault_of (first_case snapshot definition state comparison 0 (cases state));
  let next := match case with Some (_, case) => compiled_case_next case | None => compiled_default state end in
  _ ← with_context "validating Process when output" (fault_of (validate_state_output definition snapshot comparison));
  Ok (PreparedWhen snapshot next comparison
        (match compiled_decision_table state with
         | Some decision =>
             JObject [("kind", JString "decision_table"); ("name", JString (decision_call decision));
                      ("matched_row_id", match decision_row with Some row => JString row | None => JNull end);
                      ("case_index", index_json case); ("route", JString (matched_route case))]
         | None => JObject [("kind", JString "when"); ("case_index", index_json case); ("route", JString (matched_route case))]
         end)).

Definition prepare_output_transition (snapshot : TransitionSnapshot) (definition : Definition_) (values : btree ProcessValue) :
    outcome PreparedTransition :=
  output ← evaluate_correlation values (process_value_context snapshot);
  _ ← map_err (fun error => "validating Process output state: " +:+ error) (validate_state_output definition snapshot output);
  _ ← validate_payload (definition_output definition) "decoding Process terminal output" "Process terminal output violated its contract" output;
  Ok (PreparedOutput snapshot output).

(** ** Fan-outs *)

Inductive expansion : Type := Expanded (items : list PreparedFanOutItem) | Rejected (code message : string).

(** The loop over the items, from one ordinal on and with the keys seen. *)
Fixpoint expand_items (snapshot : TransitionSnapshot) (definition : Definition_) (state : CompiledProcessForEachState)
    (index : nat) (seen : string_set) (items : list PreparedFanOutItem) (values : list Value) : attempt expansion :=
  match values with
  | [] => Ok (Expanded items)
  | item :: values =>
      match as_object item with
      | None => Ok (Rejected "fanout_item_not_object" "a bounded fan-out item is not an object")
      | Some object =>
          match obj_get object (fan_item_key state) with
          | None => Ok (Rejected "fanout_item_key_missing" "a bounded fan-out item has no declared item_key")
          | Some raw_item_key =>
              match canonical_fanout_item_key raw_item_key with
              | None => Ok (Rejected "fanout_item_key_invalid" "a bounded fan-out item_key is not a scalar")
              | Some item_key =>
                  if bt_contains seen (identity item_key) then
                    Ok (Rejected "fanout_item_key_duplicate" "the bounded fan-out input contains a duplicate item_key")
                  else
                    request ← match fan_activity state with
                              | ForEachCommand _ => Ok None
                              | ForEachRequest request =>
                                  input ← prepare_activity_input snapshot definition (activity request)
                                            (fanout_value_context snapshot item (identity item_key));
                                  Ok (Some input)
                              end;
                    ordinal ← match i32_try_from (Z.of_nat index) with Some ordinal => Ok ordinal | None => Err Panic end;
                    expand_items snapshot definition state (S index) (set_insert seen (identity item_key))
                      (items ++ [{| ordinal := ordinal; prepared_item_key := key_output item_key; item_key_identity := identity item_key;
                                    prepared_item := item; item_request := request |}]) values
              end
          end
      end
  end.

Definition prepare_fanout_expansion (snapshot : TransitionSnapshot) (definition : Definition_) (state : CompiledProcessForEachState) :
    attempt PreparedTransition :=
  match evaluate_process_value (process_value_context snapshot) (fan_input state) with
  | Err _ => Ok (PreparedFanOutFailure snapshot "fanout_input_invalid" "the bounded fan-out input could not be evaluated")
  | Ok input =>
      match as_array input with
      | None => Ok (PreparedFanOutFailure snapshot "fanout_input_not_list" "the bounded fan-out input is not a list")
      | Some values =>
          if fan_max_items state <? Z.of_nat (List.length values) then
            Ok (PreparedFanOutFailure snapshot "fanout_max_items_exceeded" "the bounded fan-out input exceeded max_items")
          else
            expanded ← expand_items snapshot definition state 0 [] [] values;
            Ok (match expanded with
                | Expanded items => PreparedFanOutExpansion snapshot definition state items
                | Rejected code message => PreparedFanOutFailure snapshot code message
                end)
      end
  end.

Section Reads.
Context {Application : Type}.
Variable db : Database Application.

Definition prepare_fanout_command_item (snapshot : TransitionSnapshot) (definition : Definition_) (state : CompiledProcessForEachState) :
    outcome PreparedTransition :=
  match fan_activity state with
  | ForEachRequest _ => bail ("Process fan-out item event references request state `" +:+ current_state snapshot +:+ "`")
  | ForEachCommand activity =>
      ordinal ← fanout_event_ordinal snapshot;
      item_key_identity ← fanout_event_item_key_identity snapshot;
      entry_event_id ← fanout_event_entry_id snapshot;
      if negb (fanout_event_matches_snapshot snapshot) then
        bail ("Process fan-out item event `" +:+ uuid_to_string (event_id snapshot) +:+ "` differs from active state `"
              +:+ current_state snapshot +:+ "`")
      else
        row ← ok_or ("Process fan-out item event `" +:+ uuid_to_string (event_id snapshot) +:+ "` has no scheduled item")
                (List.find (fun item =>
                   String.eqb (f_source item) runtime_source && String.eqb (f_instance item) (snapshot_instance snapshot)
                   && String.eqb (f_state item) (current_state snapshot) && String.eqb (f_entry_event item) entry_event_id
                   && (f_ordinal item =? ordinal) && String.eqb (f_item_key_identity item) item_key_identity
                   && bool_decide (f_status item = FScheduled) && negb (is_some (f_job item))) (items db));
        command ← prepare_command_mutation snapshot definition activity (fanout_value_context snapshot (f_item row) item_key_identity);
        Ok (PreparedFanOutCommandItem snapshot definition state ordinal (f_item_key row) item_key_identity (f_item row) command)
  end.

Definition job_of (job_id instance : Uuid) (status : JobStatus) : option JobRow :=
  List.find (fun job => String.eqb (j_source job) runtime_source && String.eqb (j_id job) job_id && String.eqb (j_instance job) instance
                        && bool_decide (j_status job = status)) (jobs db).

(** The job is of the state and the operation of the request. *)
Definition job_matches (job : JobRow) (snapshot : TransitionSnapshot) (request : CompiledProcessRequestActivity) : bool :=
  String.eqb (j_state job) (current_state snapshot) && String.eqb (j_connector job) (connector request)
  && String.eqb (j_operation job) (InlineId_as_str (compiled_operation request)).

Definition prepare_fanout_request_completion (snapshot : TransitionSnapshot) (definition : Definition_) (state : CompiledProcessForEachState) :
    outcome PreparedTransition :=
  match fan_activity state with
  | ForEachCommand _ => bail ("Process activity completion references command fan-out state `" +:+ current_state snapshot +:+ "`")
  | ForEachRequest request =>
      activity_job_id ← event_job_id snapshot "Process fan-out activity event has no valid job ID";
      '(item, job) ← ok_or ("Process fan-out activity event references no scheduled item `" +:+ uuid_to_string activity_job_id +:+ "`")
        (List.find (fun ij : ItemRow * JobRow =>
           let (item, job) := ij in
           String.eqb (f_source item) runtime_source && String.eqb (f_instance item) (snapshot_instance snapshot)
           && String.eqb (f_state item) (current_state snapshot) && same_key (f_job item) (Some activity_job_id)
           && bool_decide (f_status item = FScheduled)
           && String.eqb (j_source job) (f_source item) && same_key (f_job item) (Some (j_id job))
           && String.eqb (j_instance job) (f_instance item) && String.eqb (j_state job) (f_state item))
           (list_prod (items db) (jobs db)));
      if negb (job_matches job snapshot (activity request)) then bail "Process fan-out activity event differs from its terminal job"
      else
        completion ←
          (if String.eqb (event_kind snapshot) "activity_succeeded" then
             if negb (bool_decide (j_status job = JSucceeded))
                || negb (num_is (n ← get_i64 (event_payload snapshot) "attempt"; i32_try_from n) (j_attempts job))
                || negb (num_is (get_i64 (event_payload snapshot) "lease_generation") (j_lease_generation job))
             then bail "Process fan-out activity success event is not fenced to its terminal job"
             else result_ ← ok_or "succeeded Process fan-out activity has no result" (j_result job); Ok (Ok result_)
           else if negb (bool_decide (j_status job = JFailed)) then
             bail "Process fan-out activity failure event references a non-failed job"
           else
             error ← ok_or "failed Process fan-out activity has no safe error" (j_last_error job);
             match json_get (event_payload snapshot) "error" with
             | Some event_error =>
                 if value_eqb event_error error then Ok (Err error)
                 else bail "Process fan-out activity failure event differs from the stored safe error"
             | None => bail "Process fan-out activity failure event differs from the stored safe error"
             end);
        Ok (PreparedFanOutRequestCompletion snapshot definition state (f_ordinal item) (f_item_key item) (f_item_key_identity item)
              (f_item item) activity_job_id (j_attempts job) (j_lease_generation job) completion)
  end.

(** ** Completions of requests *)

Definition prepare_request_success_transition (snapshot : TransitionSnapshot) (definition : Definition_)
    (state : CompiledProcessRequestState) : outcome PreparedTransition :=
  activity_job_id ← event_job_id snapshot "Process activity success event has no valid job ID";
  attempt ← ok_or "Process activity success event has no valid attempt"
              (opt_filter (Z.ltb 0) (n ← get_i64 (event_payload snapshot) "attempt"; i32_try_from n));
  lease_generation ← ok_or "Process activity success event has no valid lease generation"
                       (opt_filter (Z.ltb 0) (get_i64 (event_payload snapshot) "lease_generation"));
  job ← ok_or ("Process activity success event references no succeeded job `" +:+ uuid_to_string activity_job_id +:+ "`")
          (job_of activity_job_id (snapshot_instance snapshot) JSucceeded);
  output ← ok_or "succeeded Process activity has no result" (j_result job);
  if negb (job_matches job snapshot (activity state) && (j_attempts job =? attempt) && (j_lease_generation job =? lease_generation)) then
    bail "Process activity success event differs from its terminal job"
  else
    _ ← map_err (fun error => "validating Process activity state output: " +:+ error) (validate_state_output definition snapshot output);
    Ok (PreparedRequestSuccess snapshot state activity_job_id attempt lease_generation output).

Definition prepare_request_failure_transition (snapshot : TransitionSnapshot) (state : CompiledProcessRequestState) :
    outcome PreparedTransition :=
  activity_job_id ← event_job_id snapshot "Process activity failure event has no valid job ID";
  job ← ok_or ("Process activity failure event references no failed job `" +:+ uuid_to_string activity_job_id +:+ "`")
          (job_of activity_job_id (snapshot_instance snapshot) JFailed);
  stored_error ← ok_or "failed Process activity has no safe error" (j_last_error job);
  if negb (job_matches job snapshot (activity state)) then bail "Process activity failure event differs from its terminal job"
  else
    event_error ← ok_or "Process activity failure event has no safe error" (json_get (event_payload snapshot) "error");
    if negb (value_eqb event_error stored_error) then bail "Process activity failure event differs from the stored safe error"
    else
      error_kind ← if String.eqb (event_kind snapshot) "retry_exhausted" then Ok "retry_exhausted"
                   else ok_or "Process activity safe error has no class" (get_str stored_error "class");
      if is_ambiguous_send stored_error then
        next ← ok_or ("Process request state `" +:+ current_state snapshot +:+ "` refused an at-most-once send with no ambiguous route")
                 (on_ambiguous (activity state));
        Ok (PreparedRequestAmbiguous snapshot activity_job_id (j_attempts job) (j_lease_generation job) next AMBIGUOUS_ROUTE_KIND)
      else
        routes ← ok_or ("Process request state `" +:+ current_state snapshot +:+ "` has no compiled error route") (on_error (activity state));
        Ok (PreparedRequestFailure snapshot activity_job_id (j_attempts job) (j_lease_generation job) (error_route routes error_kind) error_kind).

(** ** Dispatch *)

Definition is_activity_failure (kind : string) : bool := String.eqb kind "activity_failed" || String.eqb kind "retry_exhausted".

(** The transition of an operation for the kind of the event, if it has one. *)
Definition prepare_operation (snapshot : TransitionSnapshot) (definition : Definition_) (operation : CompiledProcessStateOperation) :
    attempt (option PreparedTransition) :=
  let kind := event_kind snapshot in
  let some (m : attempt PreparedTransition) := prepared ← m; Ok (Some prepared) in
  match operation with
  | CompiledCommand command next =>
      if deterministic_event_kind kind then some (fault_of (prepare_command_transition snapshot definition command next)) else Ok None
  | CompiledRequest state =>
      if deterministic_event_kind kind then some (prepare_request_transition snapshot definition state)
      else if String.eqb kind "activity_succeeded" then some (fault_of (prepare_request_success_transition snapshot definition state))
      else if is_activity_failure kind then some (fault_of (prepare_request_failure_transition snapshot state))
      else Ok None
  | CompiledWhen state => if deterministic_event_kind kind then some (prepare_when_transition snapshot definition state) else Ok None
  | CompiledOutput values =>
      if deterministic_event_kind kind then some (fault_of (prepare_output_transition snapshot definition values)) else Ok None
  | CompiledFail fail_code fail_message =>
      if deterministic_event_kind kind then Ok (Some (PreparedFail snapshot fail_code fail_message)) else Ok None
  | CompiledWait state => prepare_wait_transition snapshot definition state
  | CompiledForEach state =>
      if deterministic_event_kind kind then some (prepare_fanout_expansion snapshot definition state)
      else if String.eqb kind "fanout_item" then some (fault_of (prepare_fanout_command_item snapshot definition state))
      else if String.eqb kind "activity_succeeded" || is_activity_failure kind then
        some (fault_of (prepare_fanout_request_completion snapshot definition state))
      else Ok None
  end.

Definition prepare_one_snapshot (snapshot : TransitionSnapshot) : attempt (option PreparedTransition) :=
  definition ← fault_of (ok_or ("Process event `" +:+ uuid_to_string (event_id snapshot) +:+ "` references absent deployed revision `"
                                +:+ runtime_source +:+ "." +:+ process_name snapshot +:+ "` / `" +:+ snapshot_revision snapshot +:+ "`")
                          (revision deployed_catalog (process_name snapshot) (snapshot_revision snapshot)));
  state ← fault_of (ok_or ("Process instance `" +:+ uuid_to_string (snapshot_instance snapshot) +:+ "` references absent compiled state `"
                           +:+ current_state snapshot +:+ "`")
                     (bt_get (definition_states definition) (current_state snapshot)));
  prepare_operation snapshot definition (compiled_state_operation state).
End Reads.
End Prepare.
