(* ===== verification/ProcessCommit.v ===== *)
(** * Committing a transition ([crates/server/src/processes/transition.rs])

    The statements that apply a prepared transition in its transaction, in their
    order: the row of the instance moves on under a guard on its state and
    version, the event is consumed, a log row is appended, and the next token is
    scheduled.  [execute_process_command_in_savepoint] is that of
    [crates/server/src/processes/command.rs].

    A transaction reads one clock, [now], and draws its keys from
    [gen_random_uuid], any function of the database it finds; what a command's
    SQL does is the parameter [run_command]. *)
From S2P Require Import Prelude Json KeyedMap AbiIds RulesSyntax ValueContract ProcessSyntax ProcessInfer ProcessEvaluate ProcessDependencies ProcessFingerprint ProcessDefinition ProcessStates ProcessCompile ProcessTyped ProcessTables ProcessTransition ProcessPrepare.
Set Warnings "-register-all".

(** ** Commands in a savepoint *)

Record CommandBusinessRejection := { rejection_code : string; rejection_path : string; rejection_message : string }.

Inductive ProcessCommandOutcome : Type :=
| Applied (result_ : Value)
| Rejected_ (error : CommandBusinessRejection)
| Unrecoverable (code : string).

(** An error of [query_one]: of the server, with its SQLSTATE and message, or
    of the driver. *)
Inductive SqlFailure : Type := ServerError (sqlstate message : string) | DriverError (text : string).

Definition COMMAND_GRAPHQL_ERROR_SQLSTATE : string := "P0D01".
Definition COMMAND_GRAPHQL_ERROR_KIND : string := "donat.graphql-error.v1".

Definition decode_command_business_rejection `{Serde} (error : SqlFailure) : option CommandBusinessRejection :=
  match error with
  | DriverError _ => None
  | ServerError sqlstate message =>
      if negb (String.eqb sqlstate COMMAND_GRAPHQL_ERROR_SQLSTATE) then None
      else
        payload ← (value ← from_str message; as_object value);
        let text field := (value ← obj_get payload field; as_str value) in
        if negb (List.length payload =? 4)%nat || negb (str_is (text "kind") COMMAND_GRAPHQL_ERROR_KIND) then None
        else
          code ← text "code";
          path ← text "path";
          message ← text "message";
          if String.eqb code "" || negb (starts_with "$" path) then None
          else Some {| rejection_code := code; rejection_path := path; rejection_message := message |}
  end.

(** [sqlstate.get(..2)]: the first two bytes, if that is a prefix. *)
Definition unrecoverable_command_failure (sqlstate : string) : option string :=
  if starts_with "23" sqlstate then Some "command_constraint_violation"
  else if starts_with "42" sqlstate then Some "command_not_permitted"
  else None.

Section Commit.
Context {serde : Serde} {digest : Digest} {uuids : Uuids} {runtime : ProcessRuntime} {postgres : Postgres} {Application : Type}.
Variable now : Z.
Variable gen_random_uuid : Database Application -> Uuid.

(** The SQL of a command: its row, decoded or not, or its error. *)
Variable run_command : CommandMutation -> Outbox Application ->
  result SqlFailure (option Value * Outbox Application).

Abbreviation txn := (ProcessTables.txn Application).

Definition with_application (db : Database Application) (outbox : Outbox Application) : Database Application :=
  {| instances := instances db; events := events db; jobs := jobs db; items := items db; logs := logs db;
     provider_steps := provider_steps db; reservations := reservations db; buckets := buckets db;
     start_requests := outbox.2.1; signal_requests := outbox.2.2; application := outbox.1 |}.

(** An error rolls back to the savepoint: the database is what it was. *)
Definition execute_process_command_in_savepoint (command : CommandMutation) : txn ProcessCommandOutcome := fun db =>
  match run_command command (application db, (start_requests db, signal_requests db)) with
  | Ok (Some result_, outbox) => Ok (Applied result_, with_application db outbox)
  | Ok (None, _) => fault "cannot decode Process command result"
  | Err error =>
      match decode_command_business_rejection error with
      | Some rejection => Ok (Rejected_ rejection, db)
      | None =>
          match unrecoverable_command_failure (match error with ServerError sqlstate _ => sqlstate | DriverError _ => "driver" end) with
          | Some code => Ok (Unrecoverable code, db)
          | None => match error with ServerError sqlstate _ => refused sqlstate | DriverError text => Err (Driver text) end
          end
      end
  end.

(** ** Statements *)

Definition due_event_kinds : list string :=
  ["start"; "continue"; "signal"; "timer"; "fanout_item"; "activity_succeeded"; "activity_failed"; "retry_exhausted"].

Definition is_due (event : EventRow) : bool :=
  bool_decide (e_status event = EPending) && existsb (String.eqb (e_kind event)) due_event_kinds
  && instant_le (e_available_at event) (At now).

(** The join of an event and its instance. *)
Definition event_of_instance (event : EventRow) (instance : InstanceRow) : bool :=
  String.eqb (i_source instance) (e_source event) && String.eqb (i_id instance) (e_instance event)
  && String.eqb (i_process instance) (e_process event) && String.eqb (i_revision instance) (e_revision event).

(** SKIP LOCKED gives no row for an event or an instance that another
    transaction holds. *)
Definition lock_prepared_snapshot (locked : Uuid -> bool) (snapshot : TransitionSnapshot) : txn bool := query (fun db =>
  match List.find (fun ei : EventRow * InstanceRow =>
          let (event, instance) := ei in
          String.eqb (e_source event) runtime_source && String.eqb (e_id event) (event_id snapshot)
          && String.eqb (e_instance event) (snapshot_instance snapshot) && is_due event && String.eqb (e_kind event) (event_kind snapshot)
          && event_of_instance event instance && bool_decide (i_status instance = IRunning)
          && String.eqb (i_process instance) (process_name snapshot) && String.eqb (i_revision instance) (snapshot_revision snapshot)
          && negb (locked (e_id event)) && negb (locked (i_id instance)))
          (list_prod (events db) (instances db)) with
  | None => false
  | Some (_, instance) => (i_version instance =? snapshot_version snapshot) && String.eqb (i_current_state instance) (current_state snapshot)
  end).

(** The instance as the snapshot found it: in its state, at its version, running. *)
Definition guarded (snapshot : TransitionSnapshot) (row : InstanceRow) : bool :=
  String.eqb (i_source row) runtime_source && String.eqb (i_id row) (snapshot_instance snapshot)
  && String.eqb (i_current_state row) (current_state snapshot) && (i_version row =? snapshot_version snapshot)
  && bool_decide (i_status row = IRunning).

Definition set_instance (row : InstanceRow) (status : InstanceStatus) (state : string) (journal : Value) (version : Z)
    (terminal_output failure : option Value) : InstanceRow :=
  {| i_source := i_source row; i_id := i_id row; i_process := i_process row; i_revision := i_revision row;
     i_source_request := i_source_request row; i_start_key := i_start_key row; i_status := status;
     i_current_state := state; i_input := i_input row; i_state := journal; i_version := version; i_caller_role := i_caller_role row;
     i_caller_session := i_caller_session row; i_terminal_output := terminal_output; i_failure := failure |}.

(** The journal of the row the statement changes, with one output added. *)
Definition journal_with (snapshot : TransitionSnapshot) (output : Value) : txn Value := fun db =>
  match List.find (guarded snapshot) (instances db) with
  | Some row => journal ← jsonb_set (i_state row) (current_state snapshot) output; Ok (journal, db)
  | None => Ok (JNull, db)
  end.

Definition advance_instance (snapshot : TransitionSnapshot) (next : string) (output : Value) : txn unit :=
  version ← lift (fault_of (next_version snapshot));
  journal ← journal_with snapshot output;
  updated ← update_instances (guarded snapshot)
    (fun row => set_instance row (i_status row) next journal version (i_terminal_output row) (i_failure row));
  ensure (updated =? 1)%nat "locked Process instance did not advance exactly once".

Definition move_instance (snapshot : TransitionSnapshot) (next message : string) : txn unit :=
  version ← lift (fault_of (next_version snapshot));
  updated ← update_instances (guarded snapshot)
    (fun row => set_instance row (i_status row) next (i_state row) version (i_terminal_output row) (i_failure row));
  ensure (updated =? 1)%nat message.

Definition advance_instance_without_output (snapshot : TransitionSnapshot) (next : string) : txn unit :=
  move_instance snapshot next "locked Process instance did not advance exactly once".

(** UPDATE .. SET version: the instance stays in its state. *)
Definition bump_version (snapshot : TransitionSnapshot) (message : string) : txn unit :=
  version ← lift (fault_of (next_version snapshot));
  updated ← update_instances (guarded snapshot)
    (fun row => set_instance row (i_status row) (i_current_state row) (i_state row) version (i_terminal_output row) (i_failure row));
  ensure (updated =? 1)%nat message.

(** UPDATE .. SET status = 'failed', failure_json. *)
Definition fail_row (snapshot : TransitionSnapshot) (failure : Value) (message : string) : txn unit :=
  version ← lift (fault_of (next_version snapshot));
  updated ← update_instances (guarded snapshot)
    (fun row => set_instance row IFailed (i_current_state row) (i_state row) version (i_terminal_output row) (Some failure));
  ensure (updated =? 1)%nat message.

Definition set_event (row : EventRow) (status : EventStatus) (attempts : Z) (available_at : Instant) : EventRow :=
  {| e_source := e_source row; e_id := e_id row; e_instance := e_instance row; e_process := e_process row; e_revision := e_revision row;
     e_kind := e_kind row; e_payload := e_payload row; e_idempotency_key := e_idempotency_key row; e_available_at := available_at;
     e_status := status; e_attempts := attempts; e_created_at := e_created_at row |}.

Definition pending_event (event : Uuid) (row : EventRow) : bool :=
  String.eqb (e_source row) runtime_source && String.eqb (e_id row) event && bool_decide (e_status row = EPending).

Definition consume_event (event : Uuid) : txn unit :=
  updated ← update_events (pending_event event) (fun row => set_event row EConsumed (e_attempts row + 1) (e_available_at row));
  ensure (updated =? 1)%nat "locked Process transition event did not consume exactly once".

(** A new pending event of the snapshot's instance. *)
Definition new_event (snapshot : TransitionSnapshot) (kind : string) (payload : Value) (key : string) (available_at : Instant)
    (status : EventStatus) (db : Database Application) : EventRow :=
  {| e_source := runtime_source; e_id := gen_random_uuid db; e_instance := snapshot_instance snapshot; e_process := process_name snapshot;
     e_revision := snapshot_revision snapshot; e_kind := kind; e_payload := payload; e_idempotency_key := Some key;
     e_available_at := available_at; e_status := status; e_attempts := 0; e_created_at := now |}.

Definition append_event (snapshot : TransitionSnapshot) (kind : string) (payload : Value) (key : string) (available_at : Instant)
    (status : EventStatus) : txn Uuid :=
  row ← query (new_event snapshot kind payload key available_at status); insert_event row.

Definition append_continue_event (snapshot : TransitionSnapshot) (version : Z) : txn unit :=
  _ ← append_event snapshot "continue" (JObject [])
        ("continue:" +:+ uuid_to_string (snapshot_instance snapshot) +:+ ":" +:+ show_Z version) (At now) EPending;
  mret tt.

(** The log row of a transition, with the fenced activity if there is one. *)
Definition append_fanout_transition_log (snapshot : TransitionSnapshot) (to_state outcome : string) (command_result : option Value)
    (activity : option (Uuid * Z * Z)) (redacted_context : Value) : txn unit :=
  insert_log {| l_source := runtime_source; l_instance := snapshot_instance snapshot; l_event := Some (event_id snapshot);
                l_job := option_map (fun a : Uuid * Z * Z => a.1.1) activity; l_attempt := option_map (fun a : Uuid * Z * Z => a.1.2) activity;
                l_lease_generation := option_map (fun a : Uuid * Z * Z => a.2) activity; l_from_state := Some (current_state snapshot);
                l_to_state := to_state; l_outcome := outcome; l_revision := snapshot_revision snapshot;
                l_command_result := command_result; l_redacted_context := redacted_context |}.

Definition append_transition_log (snapshot : TransitionSnapshot) (to_state outcome : string) (command_result : option Value)
    (redacted_context : Value) : txn unit :=
  append_fanout_transition_log snapshot to_state outcome command_result None redacted_context.

Definition continue_ (snapshot : TransitionSnapshot) : txn unit :=
  version ← lift (fault_of (next_version snapshot)); append_continue_event snapshot version.

(** ** Commands *)

Definition commit_applied_command (snapshot : TransitionSnapshot) (command : CompiledProcessCommandActivity) (next : string)
    (result_ : Value) : txn unit :=
  _ ← advance_instance snapshot next result_;
  _ ← consume_event (event_id snapshot);
  _ ← append_transition_log snapshot next "command_applied" (Some result_) (JObject [("command", JString (compiled_command command))]);
  continue_ snapshot.

Definition commit_failed_command (snapshot : TransitionSnapshot) (command : CompiledProcessCommandActivity) (code : string) : txn unit :=
  _ ← fail_row snapshot
        (JObject [("kind", JString "command_failed"); ("code", JString code); ("path", JString (current_state snapshot));
                  ("message", JString "the Process command was refused by the database")])
        "locked failed Process instance did not fail exactly once";
  _ ← consume_event (event_id snapshot);
  append_transition_log snapshot (current_state snapshot) "command_failed" None
    (JObject [("command", JString (compiled_command command)); ("code", JString code)]).

Definition commit_rejected_command (snapshot : TransitionSnapshot) (command : CompiledProcessCommandActivity)
    (error : CommandBusinessRejection) : txn unit :=
  let failure := JObject [("kind", JString "command_rejected"); ("code", JString (rejection_code error));
                          ("path", JString (rejection_path error)); ("message", JString (rejection_message error))] in
  _ ← fail_row snapshot failure "locked rejected Process instance did not fail exactly once";
  _ ← consume_event (event_id snapshot);
  _ ← append_event snapshot "command_rejected" failure ("command-rejected:" +:+ uuid_to_string (event_id snapshot)) (At now) EConsumed;
  append_transition_log snapshot (current_state snapshot) "command_rejected" None
    (JObject [("command", JString (compiled_command command)); ("code", JString (rejection_code error)); ("path", JString (rejection_path error))]).

Definition consume_prepared_command (snapshot : TransitionSnapshot) (definition : CompiledProcessDefinition)
    (command : CompiledProcessCommandActivity) (next : string) (mutation : CommandMutation) : txn TransitionConsumption :=
  outcome ← execute_process_command_in_savepoint mutation;
  match outcome with
  | Applied result_ =>
      match validate_state_output definition snapshot result_ with
      | Err _ =>
          _ ← commit_failed_command snapshot command "command_result_contract_violation";
          mret (CommandFailed (snapshot_instance snapshot) (event_id snapshot) "command_result_contract_violation")
      | Ok _ =>
          _ ← commit_applied_command snapshot command next result_;
          mret (Advanced (snapshot_instance snapshot) (event_id snapshot) (current_state snapshot) next)
      end
  | Rejected_ error =>
      _ ← commit_rejected_command snapshot command error;
      mret (CommandRejected (snapshot_instance snapshot) (event_id snapshot) (rejection_code error) (rejection_path error) (rejection_message error))
  | Unrecoverable code =>
      _ ← commit_failed_command snapshot command code;
      mret (CommandFailed (snapshot_instance snapshot) (event_id snapshot) code)
  end.

(** ** Waits *)

(** Signals that found no receptive instance are offered again. *)
Definition reopen_persisted_signals (snapshot : TransitionSnapshot) (timer_payload : Value) : txn nat :=
  match get_str timer_payload "signal_name" with
  | None => mret 0%nat
  | Some signal_name =>
      let correlation := default JNull (json_get timer_payload "correlation") in
      update_signal_requests
        (fun row => String.eqb (s_source row) runtime_source && String.eqb (s_process row) (process_name snapshot)
                    && String.eqb (s_signal row) signal_name && jsonb_eqb (s_correlation row) correlation
                    && bool_decide (s_status row = SUnmatched))
        (fun row => {| s_source := s_source row; s_id := s_id row; s_process := s_process row; s_revision := s_revision row;
                       s_signal := s_signal row; s_correlation := s_correlation row; s_payload := s_payload row; s_status := SPending;
                       s_idempotency_key := s_idempotency_key row; s_created_at := s_created_at row |})
  end.

Definition schedule_instant (schedule : PreparedTimerSchedule) : Instant :=
  match schedule with
  | ScheduleAfterMilliseconds milliseconds => instant_after now milliseconds
  | ScheduleAt microseconds => At microseconds
  end.

Definition commit_wait_entry (snapshot : TransitionSnapshot) (schedule : PreparedTimerSchedule) (timer_payload : Value)
    (persist_before_match : bool) : txn Uuid :=
  version ← lift (fault_of (next_version snapshot));
  timer_event_id ← append_event snapshot "timer" timer_payload
    ("wait-timer:" +:+ uuid_to_string (snapshot_instance snapshot) +:+ ":" +:+ current_state snapshot +:+ ":" +:+ show_Z version)
    (schedule_instant schedule) EPending;
  _ ← bump_version snapshot "locked Process wait state did not become receptive exactly once";
  _ ← (if persist_before_match then reopen_persisted_signals snapshot timer_payload else mret 0%nat);
  _ ← consume_event (event_id snapshot);
  _ ← append_transition_log snapshot (current_state snapshot) "wait_entered" None
        (JObject [("timer_event_id", JString (uuid_to_string timer_event_id))]);
  mret timer_event_id.

(** The other signals and timers of the wait that was completed. *)
Definition competing (snapshot : TransitionSnapshot) (row : EventRow) : bool :=
  String.eqb (e_source row) runtime_source && String.eqb (e_instance row) (snapshot_instance snapshot)
  && negb (String.eqb (e_id row) (event_id snapshot)) && bool_decide (e_status row = EPending)
  && (String.eqb (e_kind row) "signal" || String.eqb (e_kind row) "timer")
  && str_is (jsonb_text (e_payload row) "wait_state") (current_state snapshot)
  && str_is (jsonb_text (e_payload row) "wait_version") (show_Z (snapshot_version snapshot)).

Definition close_competing_wait_events (snapshot : TransitionSnapshot) : txn nat :=
  update_events (competing snapshot) (fun row => set_event row EFailed (e_attempts row + 1) (e_available_at row)).

Definition commit_wait_completion (snapshot : TransitionSnapshot) (next : string) (output : option Value) (outcome : string)
    (redacted_context : list (string * Value)) : txn unit :=
  _ ← match output with
      | Some output => advance_instance snapshot next output
      | None => advance_instance_without_output snapshot next
      end;
  _ ← consume_event (event_id snapshot);
  closed_competitors ← close_competing_wait_events snapshot;
  let redacted_context := obj_insert redacted_context "closed_competing_events" (JNumber (show_nat (Z.of_nat closed_competitors))) in
  _ ← append_transition_log snapshot next outcome None (JObject redacted_context);
  continue_ snapshot.

(** ** Requests *)

Definition activity_row (snapshot : TransitionSnapshot) (request : CompiledProcessRequestActivity) (id : Uuid) (logical_activity_id : string)
    (input : PreparedActivityInput) (available_at deadline : Instant) : JobRow :=
  {| j_source := runtime_source; j_id := id; j_instance := snapshot_instance snapshot; j_event := event_id snapshot;
     j_state := current_state snapshot; j_logical_activity_id := logical_activity_id; j_connector := connector request;
     j_operation := InlineId_as_str (compiled_operation request); j_serialization_key_hash := serialization_key_hash input;
     j_input := prepared_input input; j_result := None; j_request_fingerprint := request_fingerprint input; j_status := JScheduled;
     j_attempts := 0; j_lease_generation := 0; j_available_at := available_at; j_schedule_to_start_deadline := deadline;
     j_start_to_close_deadline := None; j_lease_token := None; j_lease_expires_at := None; j_last_error := None |}.

Definition i64_milliseconds (milliseconds : Z) (message : string) : txn Z :=
  lift (fault_of (ok_or message (checked i64_min i64_max milliseconds))).

Definition commit_request_schedule (snapshot : TransitionSnapshot) (state : CompiledProcessRequestState) (input : PreparedActivityInput) : txn Uuid :=
  _ ← lift (fault_of (next_version snapshot));
  schedule_to_start ← i64_milliseconds (schedule_to_start_ms (activity state)) "Process schedule_to_start exceeds PostgreSQL interval input";
  let logical_activity_id := "activity:v1:" +:+ snapshot_revision snapshot +:+ ":" +:+ uuid_to_string (snapshot_instance snapshot) +:+ ":"
    +:+ uuid_to_string (event_id snapshot) +:+ ":" +:+ current_state snapshot in
  id ← query gen_random_uuid;
  activity_job_id ← insert_job (activity_row snapshot (activity state) id logical_activity_id input (At now) (instant_after now schedule_to_start));
  _ ← bump_version snapshot "locked Process request state did not schedule exactly once";
  _ ← consume_event (event_id snapshot);
  _ ← insert_log {| l_source := runtime_source; l_instance := snapshot_instance snapshot; l_event := Some (event_id snapshot);
                    l_job := Some activity_job_id; l_attempt := None; l_lease_generation := None; l_from_state := Some (current_state snapshot);
                    l_to_state := current_state snapshot; l_outcome := "activity_scheduled"; l_revision := snapshot_revision snapshot;
                    l_command_result := None;
                    l_redacted_context := JObject [("connector", JString (connector (activity state)));
                      ("operation", JString (InlineId_as_str (compiled_operation (activity state))));
                      ("request_fingerprint", JString (request_fingerprint input))] |};
  mret activity_job_id.

Definition commit_request_success (snapshot : TransitionSnapshot) (state : CompiledProcessRequestState) (activity_job_id : Uuid)
    (attempt lease_generation : Z) (output : Value) : txn unit :=
  let next := compiled_request_next state in
  _ ← advance_instance snapshot next output;
  _ ← consume_event (event_id snapshot);
  _ ← append_fanout_transition_log snapshot next "activity_succeeded" None (Some (activity_job_id, attempt, lease_generation))
        (JObject [("activity_job_id", JString (uuid_to_string activity_job_id))]);
  continue_ snapshot.

Definition commit_request_failure (snapshot : TransitionSnapshot) (activity_job_id : Uuid) (attempt lease_generation : Z)
    (next error_kind outcome : string) : txn unit :=
  _ ← move_instance snapshot next "locked Process activity failure did not route exactly once";
  _ ← consume_event (event_id snapshot);
  _ ← append_fanout_transition_log snapshot next outcome None (Some (activity_job_id, attempt, lease_generation))
        (JObject [("error_kind", JString error_kind); ("route", JString next)]);
  continue_ snapshot.

(** ** Decisions, outputs and failures *)

Definition commit_when (snapshot : TransitionSnapshot) (next : string) (output redacted_context : Value) : txn unit :=
  _ ← advance_instance snapshot next output;
  _ ← consume_event (event_id snapshot);
  _ ← append_transition_log snapshot next "when_routed" None redacted_context;
  continue_ snapshot.

Definition commit_output (snapshot : TransitionSnapshot) (output : Value) : txn unit :=
  version ← lift (fault_of (next_version snapshot));
  journal ← journal_with snapshot output;
  updated ← update_instances (guarded snapshot)
    (fun row => set_instance row ITerminal (i_current_state row) journal version (Some output) (i_failure row));
  _ ← ensure (updated =? 1)%nat "locked Process output state did not terminalize exactly once";
  _ ← consume_event (event_id snapshot);
  append_transition_log snapshot (current_state snapshot) "completed" None (JObject [("terminal", JBool true)]).

Definition process_failed (code message : string) : Value :=
  JObject [("kind", JString "process_failed"); ("code", JString code); ("message", JString message)].

Definition commit_fail (snapshot : TransitionSnapshot) (fail_code fail_message : string) : txn unit :=
  _ ← fail_row snapshot (process_failed fail_code fail_message) "locked Process fail state did not fail exactly once";
  _ ← consume_event (event_id snapshot);
  append_transition_log snapshot (current_state snapshot) "failed" None (JObject [("code", JString fail_code)]).

Definition commit_fanout_failure (snapshot : TransitionSnapshot) (code message : string) : txn unit :=
  _ ← fail_row snapshot (process_failed code message) "locked invalid Process fan-out did not fail exactly once";
  _ ← consume_event (event_id snapshot);
  append_transition_log snapshot (current_state snapshot) "fanout_invalid" None (JObject [("code", JString code)]).

(** ** Expansions of fan-outs *)

(** The statements for each of a list of descriptors, and how many there were. *)
Fixpoint for_each_row {A B} (insert : A -> txn B) (rows : list A) : txn nat :=
  match rows with
  | [] => mret 0%nat
  | row :: rows => _ ← insert row; n ← for_each_row insert rows; mret (S n)
  end.

Definition enumerate {A} (l : list A) : list (nat * A) := combine (seq 0 (List.length l)) l.

Definition fanout_item_row (snapshot : TransitionSnapshot) (active : bool) (job : option Uuid) (item : PreparedFanOutItem) : ItemRow :=
  {| f_source := runtime_source; f_instance := snapshot_instance snapshot; f_state := current_state snapshot;
     f_entry_event := event_id snapshot; f_ordinal := ordinal item; f_item_key := prepared_item_key item;
     f_item_key_identity := item_key_identity item; f_item := prepared_item item;
     f_status := if active then FScheduled else FPending; f_job := job; f_result := None; f_failure := None |}.

(** A job for an item, due now if the item is active and never otherwise. *)
Definition fanout_job (snapshot : TransitionSnapshot) (request : CompiledProcessRequestState) (schedule_to_start : Z) (active : bool)
    (item : PreparedFanOutItem) : attempt JobRow :=
  input ← match item_request item with Some input => Ok input | None => Err Panic end;
  logical_activity_id ← fanout_logical_activity_id snapshot (item_key_identity item);
  Ok (activity_row snapshot (activity request)
        (fanout_item_uuid ("donat.process.fanout-job.v1" +:+ zero_byte) snapshot (item_key_identity item)) logical_activity_id input
        (if active then At now else Infinity) (if active then instant_after now schedule_to_start else Infinity)).

(** The jobs of the statement, all of them, and then the items; the hash of the
    serialization key goes there and back as hexadecimal digits. *)
Definition insert_request_fanout_items (snapshot : TransitionSnapshot) (request : CompiledProcessRequestState)
    (items_ : list PreparedFanOutItem) (scheduled_count : nat) : txn unit :=
  schedule_to_start ← i64_milliseconds (schedule_to_start_ms (activity request)) "fan-out schedule_to_start exceeds PostgreSQL interval input";
  descriptors ← lift (map_result (fun nitem : nat * PreparedFanOutItem =>
    let active := (nitem.1 <? scheduled_count)%nat in
    job ← fanout_job snapshot request schedule_to_start active nitem.2; Ok (job, fanout_item_row snapshot active (Some (j_id job)) nitem.2))
    (enumerate items_));
  _ ← for_each_row insert_job (map fst descriptors);
  rows ← for_each_row insert_item (map snd descriptors);
  ensure (rows =? List.length items_)%nat "Process request fan-out did not persist every bounded item".

Definition fanout_payload (snapshot : TransitionSnapshot) (version : Z) (entry_event : Uuid) (ordinal : Z) (item_key_identity : string) : Value :=
  JObject [("fanout_state", JString (current_state snapshot)); ("fanout_version", json_i64 version);
           ("entry_event_id", JString (uuid_to_string entry_event)); ("ordinal", json_i64 ordinal);
           ("item_key_identity", JString item_key_identity)].

Definition fanout_key_prefix (snapshot : TransitionSnapshot) (version : Z) : string :=
  "fanout-item:" +:+ uuid_to_string (snapshot_instance snapshot) +:+ ":" +:+ current_state snapshot +:+ ":" +:+ show_Z version +:+ ":".

Definition append_item_event (snapshot : TransitionSnapshot) (version : Z) (item : PreparedFanOutItem) : txn Uuid :=
  digest ← lift (canonical_json_sha256 (JString (item_key_identity item)));
  append_event snapshot "fanout_item" (fanout_payload snapshot version (event_id snapshot) (ordinal item) (item_key_identity item))
    (fanout_key_prefix snapshot version +:+ digest) (At now) EPending.

Definition insert_command_fanout_items (snapshot : TransitionSnapshot) (items_ : list PreparedFanOutItem) (version : Z)
    (scheduled_count : nat) : txn unit :=
  rows ← for_each_row (fun nitem : nat * PreparedFanOutItem =>
           insert_item (fanout_item_row snapshot (nitem.1 <? scheduled_count)%nat None nitem.2)) (enumerate items_);
  _ ← for_each_row (append_item_event snapshot version) (firstn scheduled_count items_);
  ensure (rows =? List.length items_)%nat "Process command fan-out did not persist every bounded item".

Definition count_json (n : nat) : Value := JNumber (show_nat (Z.of_nat n)).

Definition commit_fanout_expansion (snapshot : TransitionSnapshot) (definition : CompiledProcessDefinition)
    (state : CompiledProcessForEachState) (items_ : list PreparedFanOutItem) : txn TransitionConsumption :=
  match items_ with
  | [] =>
      _ ← lift (with_context "validating empty Process fan-out output"
                 (fault_of (validate_state_output definition snapshot empty_fanout_output)));
      _ ← advance_instance snapshot (fan_next state) empty_fanout_output;
      _ ← consume_event (event_id snapshot);
      _ ← append_transition_log snapshot (fan_next state) "fanout_completed" None
            (JObject [("item_count", JNumber "0"); ("scheduled_count", JNumber "0")]);
      _ ← continue_ snapshot;
      mret (Advanced (snapshot_instance snapshot) (event_id snapshot) (current_state snapshot) (fan_next state))
  | _ =>
      version ← lift (fault_of (next_version snapshot));
      let scheduled_count := Nat.min (List.length items_) (Z.to_nat (fan_max_concurrency state)) in
      _ ← match fan_activity state with
          | ForEachRequest request => insert_request_fanout_items snapshot request items_ scheduled_count
          | ForEachCommand _ => insert_command_fanout_items snapshot items_ version scheduled_count
          end;
      _ ← bump_version snapshot "locked Process fan-out state did not expand exactly once";
      _ ← consume_event (event_id snapshot);
      _ ← append_transition_log snapshot (current_state snapshot) "fanout_expanded" None
            (JObject [("item_count", count_json (List.length items_)); ("scheduled_count", count_json scheduled_count);
                      ("max_concurrency", number_json (fan_max_concurrency state))]);
      mret (FanOutExpanded (snapshot_instance snapshot) (event_id snapshot) (current_state snapshot) (List.length items_) scheduled_count)
  end.

(** ** Items of fan-outs *)

(** The items of the state of the snapshot. *)
Definition of_state (snapshot : TransitionSnapshot) (row : ItemRow) : bool :=
  String.eqb (f_source row) runtime_source && String.eqb (f_instance row) (snapshot_instance snapshot)
  && String.eqb (f_state row) (current_state snapshot).

Definition set_item (row : ItemRow) (status : ItemStatus) (result_ failure : option Value) : ItemRow :=
  {| f_source := f_source row; f_instance := f_instance row; f_state := f_state row; f_entry_event := f_entry_event row;
     f_ordinal := f_ordinal row; f_item_key := f_item_key row; f_item_key_identity := f_item_key_identity row; f_item := f_item row;
     f_status := status; f_job := f_job row; f_result := result_; f_failure := failure |}.

Definition by_ordinal (a b : ItemRow) : bool := f_ordinal a <=? f_ordinal b.

(** The first pending item, made scheduled with an event that is due. *)
Definition activate_next_command_fanout_item (snapshot : TransitionSnapshot) : txn bool :=
  pending ← query (fun db => order_by by_ordinal (List.filter (fun row => of_state snapshot row && bool_decide (f_status row = FPending)) (items db)));
  match pending with
  | [] => mret false
  | next_item :: _ =>
      _ ← update_items (fun row => of_state snapshot row && (f_ordinal row =? f_ordinal next_item))
            (fun row => set_item row FScheduled (f_result row) (f_failure row));
      _ ← append_event snapshot "fanout_item"
            (fanout_payload snapshot (snapshot_version snapshot) (f_entry_event next_item) (f_ordinal next_item) (f_item_key_identity next_item))
            (fanout_key_prefix snapshot (snapshot_version snapshot) +:+ show_Z (f_ordinal next_item)) (At now) EPending;
      mret true
  end.

(** The first pending item whose job waits for it, made scheduled with the job
    due. *)
Definition waiting_job (item : ItemRow) (job : JobRow) : bool :=
  String.eqb (j_source job) (f_source item) && same_key (f_job item) (Some (j_id job)) && bool_decide (j_status job = JScheduled)
  && match j_available_at job with Infinity => true | At _ => false end.

Definition set_job_due (job : JobRow) (deadline : Instant) : JobRow :=
  {| j_source := j_source job; j_id := j_id job; j_instance := j_instance job; j_event := j_event job; j_state := j_state job;
     j_logical_activity_id := j_logical_activity_id job; j_connector := j_connector job; j_operation := j_operation job;
     j_serialization_key_hash := j_serialization_key_hash job; j_input := j_input job; j_result := j_result job;
     j_request_fingerprint := j_request_fingerprint job; j_status := j_status job; j_attempts := j_attempts job;
     j_lease_generation := j_lease_generation job; j_available_at := At now; j_schedule_to_start_deadline := deadline;
     j_start_to_close_deadline := j_start_to_close_deadline job; j_lease_token := j_lease_token job;
     j_lease_expires_at := j_lease_expires_at job; j_last_error := j_last_error job |}.

Definition activate_next_request_fanout_item (snapshot : TransitionSnapshot) (schedule_to_start_ms : Z) : txn bool :=
  schedule_to_start ← i64_milliseconds schedule_to_start_ms "fan-out schedule_to_start exceeds PostgreSQL interval input";
  pending ← query (fun db => order_by by_ordinal (List.filter (fun row =>
    of_state snapshot row && bool_decide (f_status row = FPending) && existsb (waiting_job row) (jobs db)) (items db)));
  match pending with
  | [] => mret false
  | next_item :: _ =>
      _ ← update_items (fun row => of_state snapshot row && (f_ordinal row =? f_ordinal next_item))
            (fun row => set_item row FScheduled (f_result row) (f_failure row));
      updated ← update_jobs (fun job => String.eqb (j_source job) runtime_source && same_key (f_job next_item) (Some (j_id job))
                                        && bool_decide (j_status job = JScheduled))
                  (fun job => set_job_due job (instant_after now schedule_to_start));
      mret (negb (updated =? 0)%nat)
  end.

Definition activate_next_fanout_item (snapshot : TransitionSnapshot) (state : CompiledProcessForEachState) : txn bool :=
  match fan_activity state with
  | ForEachCommand _ => activate_next_command_fanout_item snapshot
  | ForEachRequest request => activate_next_request_fanout_item snapshot (schedule_to_start_ms (activity request))
  end.

(** *** Collecting *)

Record FanOutItemFailure := { failure_output : Value; failure_route : string; failure_error_kind : string }.

Record Collected := {
  successful_items : list Value;
  failed_items : list Value;
  ordered_results : list Value;
  collected_next : string;
  selected_route_is_ambiguous : option bool;
}.

Definition collect_success (preserve_input : bool) (row : ItemRow) (c : Collected) : outcome Collected :=
  result_ ← ok_or "successful Process fan-out item has no result" (f_result row);
  merged ← merge_fanout_success_item (f_item row) result_ preserve_input;
  Ok {| successful_items := successful_items c ++ [merged]; failed_items := failed_items c;
        ordered_results := ordered_results c ++ [result_]; collected_next := collected_next c;
        selected_route_is_ambiguous := selected_route_is_ambiguous c |}.

(** A failed item takes the route, unless an item before it did that is
    ambiguous or that this one is not more ambiguous than. *)
Definition collect_failure (row : ItemRow) (c : Collected) : outcome Collected :=
  failure ← ok_or "failed Process fan-out item has no safe failure" (f_failure row);
  output ← ok_or "fan-out failure has no output" (json_get failure "output");
  let ambiguous := str_is (get_str failure "error_kind") AMBIGUOUS_ROUTE_KIND in
  let supersedes := match selected_route_is_ambiguous c with None => true | Some false => ambiguous | Some true => false end in
  let '(next, selected) :=
    match (if supersedes then get_str failure "route" else None) with
    | Some route => (route, Some ambiguous)
    | None => (collected_next c, selected_route_is_ambiguous c)
    end in
  Ok {| successful_items := successful_items c; failed_items := failed_items c ++ [output]; ordered_results := ordered_results c;
        collected_next := next; selected_route_is_ambiguous := selected |}.

Definition item_status_name (status : ItemStatus) : string :=
  match status with FPending => "pending" | FScheduled => "scheduled" | FSucceeded => "succeeded" | FFailed => "failed" end.

Definition collect_row (preserve_input : bool) (c : Collected) (row : ItemRow) : outcome Collected :=
  match f_status row with
  | FSucceeded => collect_success preserve_input row c
  | FFailed => collect_failure row c
  | status => bail ("terminal Process fan-out retained unfinished item `" +:+ item_status_name status +:+ "`")
  end.

Definition collect_rows (state : CompiledProcessForEachState) (rows : list ItemRow) : outcome Collected :=
  fold_result (collect_row (fan_preserve_input state))
    {| successful_items := []; failed_items := []; ordered_results := []; collected_next := fan_next state; selected_route_is_ambiguous := None |}
    rows.

Definition collected_output (c : Collected) : Value :=
  JObject [("successful_items", JArray (successful_items c)); ("failed_items", JArray (failed_items c));
           ("ordered_results", JArray (ordered_results c))].

Definition failure_json (failure : FanOutItemFailure) : Value :=
  JObject [("output", failure_output failure); ("route", JString (failure_route failure)); ("error_kind", JString (failure_error_kind failure))].

Definition option_json (o : option string) : Value := match o with Some s => JString s | None => JNull end.

(** The item that completes, and its row in the state of the snapshot. *)
Record CompletedItem := {
  completed_ordinal : Z;
  completed_key : string;
  completed_identity : string;
  completed_outcome : result FanOutItemFailure Value;
  completed_activity : option (Uuid * Z * Z);
}.

Definition completes (snapshot : TransitionSnapshot) (item : CompletedItem) (row : ItemRow) : bool :=
  of_state snapshot row && (f_ordinal row =? completed_ordinal item) && String.eqb (f_item_key row) (completed_key item)
  && String.eqb (f_item_key_identity row) (completed_identity item) && bool_decide (f_status row = FScheduled)
  && opt_string_eqb (f_job row) (option_map (fun a : Uuid * Z * Z => a.1.1) (completed_activity item)).

Definition finish_item (snapshot : TransitionSnapshot) (item : CompletedItem) : txn unit :=
  updated ← update_items (completes snapshot item)
    (fun row => match completed_outcome item with
                | Ok result_ => set_item row FSucceeded (Some result_) None
                | Err failure => set_item row FFailed None (Some (failure_json failure))
                end);
  ensure (updated =? 1)%nat "locked Process fan-out item did not complete exactly once".

(** The result a log row of a command fan-out carries. *)
Definition logged_result (state : CompiledProcessForEachState) (item : CompletedItem) : option Value :=
  match completed_outcome item, fan_activity state with Ok result_, ForEachCommand _ => Some result_ | _, _ => None end.

Definition job_json (item : CompletedItem) : Value :=
  option_json (option_map (fun a : Uuid * Z * Z => uuid_to_string a.1.1) (completed_activity item)).

Definition commit_fanout_item_completion (snapshot : TransitionSnapshot) (definition : CompiledProcessDefinition)
    (state : CompiledProcessForEachState) (item : CompletedItem) : txn TransitionConsumption :=
  _ ← finish_item snapshot item;
  _ ← consume_event (event_id snapshot);
  activated_next ← activate_next_fanout_item snapshot state;
  unfinished ← query (fun db => List.length (List.filter (fun row =>
    of_state snapshot row && (bool_decide (f_status row = FPending) || bool_decide (f_status row = FScheduled))) (items db)));
  if (0 <? unfinished)%nat then
    let '(outcome, route, error_kind) :=
      match completed_outcome item with
      | Ok _ => ("fanout_item_succeeded", None, None)
      | Err failure => ("fanout_item_failed", Some (failure_route failure), Some (failure_error_kind failure))
      end in
    _ ← append_fanout_transition_log snapshot (current_state snapshot) outcome (logged_result state item) (completed_activity item)
          (JObject [("ordinal", json_i64 (completed_ordinal item)); ("item_key", JString (completed_key item));
                    ("activated_next", JBool activated_next); ("activity_job_id", job_json item);
                    ("route", option_json route); ("error_kind", option_json error_kind)]);
    mret (FanOutItemCompleted (snapshot_instance snapshot) (event_id snapshot) (current_state snapshot) (completed_ordinal item))
  else
    rows ← query (fun db => order_by by_ordinal (List.filter (of_state snapshot) (items db)));
    collected ← lift (fault_of (collect_rows state rows));
    let next := collected_next collected in
    let output := collected_output collected in
    _ ← lift (with_context "validating collected Process fan-out output" (fault_of (validate_state_output definition snapshot output)));
    _ ← advance_instance snapshot next output;
    _ ← append_fanout_transition_log snapshot next "fanout_completed" (logged_result state item) (completed_activity item)
          (JObject [("item_count", count_json (List.length (successful_items collected) + List.length (failed_items collected)));
                    ("successful_count", count_json (List.length (successful_items collected)));
                    ("failed_count", count_json (List.length (failed_items collected)));
                    ("final_ordinal", json_i64 (completed_ordinal item)); ("activity_job_id", job_json item); ("route", JString next)]);
    _ ← continue_ snapshot;
    mret (Advanced (snapshot_instance snapshot) (event_id snapshot) (current_state snapshot) next).

(** *** Requests *)

Definition fanout_failure (snapshot : TransitionSnapshot) (item : Value) (item_key item_key_identity stage code safe_message : string)
    (requires_reconciliation : bool) (route error_kind : string) : attempt FanOutItemFailure :=
  activity_id ← fanout_logical_activity_id snapshot item_key_identity;
  output ← fault_of (fanout_failure_output item item_key stage code safe_message requires_reconciliation activity_id);
  Ok {| failure_output := output; failure_route := route; failure_error_kind := error_kind |}.

Definition request_item_outcome (snapshot : TransitionSnapshot) (state : CompiledProcessForEachState) (request : CompiledProcessRequestState)
    (item_key item_key_identity : string) (item : Value) (completion : result Value Value) : attempt (result FanOutItemFailure Value) :=
  match completion with
  | Ok result_ =>
      match merge_fanout_success_item item result_ (fan_preserve_input state) with
      | Ok _ => Ok (Ok result_)
      | Err _ =>
          failure ← fanout_failure snapshot item item_key item_key_identity "request" "fanout_result_conflict"
                      "the fan-out result conflicted with preserved input" true
                      (fanout_request_error_route request "invariant" (fan_next state)) "invariant";
          Ok (Err failure)
      end
  | Err error =>
      let ambiguous := is_ambiguous_send error in
      let error_kind :=
        if ambiguous then AMBIGUOUS_ROUTE_KIND
        else if String.eqb (event_kind snapshot) "retry_exhausted" then "retry_exhausted"
        else default "invariant" (get_str error "class") in
      let code := default "activity_failed" (get_str error "code") in
      let safe_message := default "the connector activity failed" (get_str error "safe_message") in
      activity_id ← fanout_logical_activity_id snapshot item_key_identity;
      output ← fault_of (fanout_failure_output item item_key "request" code safe_message true activity_id);
      route ← (if ambiguous then
                 fault_of (ok_or ("Process fan-out state `" +:+ current_state snapshot +:+ "` refused an at-most-once send with no ambiguous route")
                             (on_ambiguous (activity request)))
               else Ok (fanout_request_error_route request error_kind (fan_next state)));
      Ok (Err {| failure_output := output; failure_route := route; failure_error_kind := error_kind |})
  end.

Definition commit_fanout_request_completion (snapshot : TransitionSnapshot) (definition : CompiledProcessDefinition)
    (state : CompiledProcessForEachState) (ordinal : Z) (item_key item_key_identity : string) (item : Value) (activity_job_id : Uuid)
    (attempt lease_generation : Z) (completion : result Value Value) : txn TransitionConsumption :=
  match fan_activity state with
  | ForEachCommand _ => lift (fault "prepared request fan-out completion retained a command activity")
  | ForEachRequest request =>
      outcome ← lift (request_item_outcome snapshot state request item_key item_key_identity item completion);
      commit_fanout_item_completion snapshot definition state
        {| completed_ordinal := ordinal; completed_key := item_key; completed_identity := item_key_identity; completed_outcome := outcome;
           completed_activity := Some (activity_job_id, attempt, lease_generation) |}
  end.

(** *** Commands *)

Definition command_item_outcome (snapshot : TransitionSnapshot) (definition : CompiledProcessDefinition) (state : CompiledProcessForEachState)
    (command : CompiledProcessCommandActivity) (item_key item_key_identity : string) (item : Value) (outcome : ProcessCommandOutcome) :
    attempt (result FanOutItemFailure Value) :=
  let failed code message error_kind :=
    failure ← fanout_failure snapshot item item_key item_key_identity "command" code message false (fan_next state) error_kind;
    Ok (Err failure) in
  match outcome with
  | Applied result_ =>
      dependency ← fault_of (ok_or ("Process fan-out command `" +:+ runtime_source +:+ "." +:+ compiled_command command
                                    +:+ "` disappeared from the pinned closure")
                               (km_get (commands (definition_dependencies definition)) (runtime_source, compiled_command command)));
      _ ← fault_of (validate_payload (command_result dependency) "decoding Process command fan-out result"
            ("Process command fan-out result violated `" +:+ compiled_command command +:+ "`") result_);
      match merge_fanout_success_item item result_ (fan_preserve_input state) with
      | Ok _ => Ok (Ok result_)
      | Err _ => failed "fanout_result_conflict" "the fan-out result conflicted with preserved input" "invariant"
      end
  | Rejected_ error => failed (rejection_code error) (rejection_message error) "command_rejected"
  | Unrecoverable code => failed code "the Process command was refused by the database" "command_failed"
  end.

Definition consume_prepared_fanout_command (snapshot : TransitionSnapshot) (definition : CompiledProcessDefinition)
    (state : CompiledProcessForEachState) (ordinal : Z) (item_key item_key_identity : string) (item : Value) (mutation : CommandMutation) :
    txn TransitionConsumption :=
  match fan_activity state with
  | ForEachRequest _ => lift (fault "prepared command fan-out item retained a request activity")
  | ForEachCommand command =>
      outcome ← execute_process_command_in_savepoint mutation;
      outcome ← lift (command_item_outcome snapshot definition state command item_key item_key_identity item outcome);
      commit_fanout_item_completion snapshot definition state
        {| completed_ordinal := ordinal; completed_key := item_key; completed_identity := item_key_identity; completed_outcome := outcome;
           completed_activity := None |}
  end.

(** ** Applying *)

Definition apply_prepared (prepared : PreparedTransition) : txn TransitionConsumption :=
  let advanced snapshot to_state := mret (Advanced (snapshot_instance snapshot) (event_id snapshot) (current_state snapshot) to_state) in
  match prepared with
  | PreparedCommand snapshot definition state next command => consume_prepared_command snapshot definition state next command
  | PreparedRequest snapshot state input =>
      activity_job_id ← commit_request_schedule snapshot state input;
      mret (ActivityScheduled (snapshot_instance snapshot) (event_id snapshot) activity_job_id (current_state snapshot))
  | PreparedRequestSuccess snapshot state activity_job_id attempt lease_generation output =>
      _ ← commit_request_success snapshot state activity_job_id attempt lease_generation output;
      advanced snapshot (compiled_request_next state)
  | PreparedRequestFailure snapshot activity_job_id attempt lease_generation next error_kind =>
      _ ← commit_request_failure snapshot activity_job_id attempt lease_generation next error_kind "activity_error_routed";
      advanced snapshot next
  | PreparedRequestAmbiguous snapshot activity_job_id attempt lease_generation next error_kind =>
      _ ← commit_request_failure snapshot activity_job_id attempt lease_generation next error_kind "activity_ambiguous_routed";
      advanced snapshot next
  | PreparedWhen snapshot next output redacted_context => _ ← commit_when snapshot next output redacted_context; advanced snapshot next
  | PreparedOutput snapshot output =>
      _ ← commit_output snapshot output; mret (Completed (snapshot_instance snapshot) (event_id snapshot) (current_state snapshot))
  | PreparedFail snapshot fail_code fail_message =>
      _ ← commit_fail snapshot fail_code fail_message;
      mret (Failed (snapshot_instance snapshot) (event_id snapshot) (current_state snapshot) fail_code)
  | PreparedWaitEntry snapshot schedule timer_payload persist_before_match =>
      timer_event_id ← commit_wait_entry snapshot schedule timer_payload persist_before_match;
      mret (WaitEntered (snapshot_instance snapshot) (event_id snapshot) timer_event_id (current_state snapshot))
  | PreparedWaitCompletion snapshot next output outcome redacted_context =>
      _ ← commit_wait_completion snapshot next output outcome redacted_context; advanced snapshot next
  | PreparedFanOutExpansion snapshot definition state items => commit_fanout_expansion snapshot definition state items
  | PreparedFanOutFailure snapshot code message =>
      _ ← commit_fanout_failure snapshot code message;
      mret (Failed (snapshot_instance snapshot) (event_id snapshot) (current_state snapshot) code)
  | PreparedFanOutCommandItem snapshot definition state ordinal item_key item_key_identity item command =>
      consume_prepared_fanout_command snapshot definition state ordinal item_key item_key_identity item command
  | PreparedFanOutRequestCompletion snapshot definition state ordinal item_key item_key_identity item activity_job_id attempt
      lease_generation completion =>
      commit_fanout_request_completion snapshot definition state ordinal item_key item_key_identity item activity_job_id attempt
        lease_generation completion
  end.
End Commit.
