(* ===== verification/ProcessConsume.v ===== *)
(** * Consuming transitions ([crates/server/src/processes/transition.rs])

    [consume_one_transition_kind]: the batch of due events, the preparation of
    the first that applies, its transaction, and what becomes of a transition
    that fails.  A step keeps the transactions it committed when a later one
    fails.  The weather says which statements the database, the driver or the
    pool let fail. *)
From S2P Require Import Prelude Json KeyedMap AbiIds RulesSyntax ValueContract ProcessSyntax ProcessInfer ProcessEvaluate ProcessDependencies ProcessFingerprint ProcessDefinition ProcessStates ProcessCompile ProcessTyped ProcessTables ProcessTransition ProcessPrepare ProcessCommit.
Set Warnings "-register-all".

Definition PREPARATION_BATCH_SIZE : nat := 128.

Section Consume.
Context {serde : Serde} {digest : Digest} {uuids : Uuids} {runtime : ProcessRuntime} {postgres : Postgres} {Application : Type}.
Variable now : Z.
Variable gen_random_uuid : Database Application -> Uuid.
Variable run_command : CommandMutation -> Outbox Application ->
  result SqlFailure (option Value * Outbox Application).

Abbreviation Db := (Database Application).
Abbreviation txn := (ProcessTables.txn Application).

(** ** Steps *)

(** A sequence of transactions, with the database the last one left. *)
Definition step (A : Type) : Type := Db -> attempt A * Db.

Definition transaction {A} (t : txn A) : step A := fun db => match t db with Ok (a, db') => (Ok a, db') | Err e => (Err e, db) end.

(** ** Failing transitions *)

Record FailingTransition := {
  failing_instance : Uuid;
  failing_event : Uuid;
  failing_state : string;
  failing_version : Z;
  failing_attempts : Z;
}.

Definition failing_of (snapshot : TransitionSnapshot) : FailingTransition :=
  {| failing_instance := snapshot_instance snapshot; failing_event := event_id snapshot; failing_state := current_state snapshot;
     failing_version := snapshot_version snapshot; failing_attempts := attempts snapshot |}.

Definition fail_instance (failing : FailingTransition) (code : string) : txn TransitionConsumption :=
  version ← lift (fault_of (ok_or "Process instance version overflow" (checked i64_min i64_max (failing_version failing + 1))));
  updated ← update_instances
    (fun row => String.eqb (i_source row) runtime_source && String.eqb (i_id row) (failing_instance failing)
                && (i_version row =? failing_version failing) && bool_decide (i_status row = IRunning))
    (fun row => set_instance row IFailed (i_current_state row) (i_state row) version (i_terminal_output row)
      (Some (JObject [("kind", JString "transition_failed"); ("code", JString code); ("path", JString (failing_state failing));
                      ("message", JString "the Process transition could not be applied")])));
  _ ← ensure (updated =? 1)%nat ("Process instance " +:+ uuid_to_string (failing_instance failing)
        +:+ " changed while its failure was being recorded; the transition was not marked failed");
  _ ← consume_event (failing_event failing);
  mret (CommandFailed (failing_instance failing) (failing_event failing) code).

(** The event steps aside: one attempt more, due after the delay. *)
Definition reschedule (failing : FailingTransition) (delay_milliseconds : Z) : txn (option Z) :=
  row ← query (fun db => List.find (pending_event (failing_event failing)) (events db));
  _ ← update_events (pending_event (failing_event failing))
        (fun row => set_event row (e_status row) (e_attempts row + 1) (instant_after now delay_milliseconds));
  mret (option_map (fun row => e_attempts row + 1) row).

Definition defer_transition (failing : FailingTransition) : step TransitionConsumption := fun db =>
  let attempts := saturating_i32 (failing_attempts failing + 1) in
  let delay_milliseconds := transition_retry_delay_ms (failing_event failing) attempts in
  match transaction (reschedule failing delay_milliseconds) db with
  | (Err e, db) => (Err e, db)
  | (Ok None, db) => (Ok NoWork, db)
  | (Ok (Some attempts), db) =>
      if TRANSITION_RETRY_MAX_ATTEMPTS <=? attempts then transaction (fail_instance failing "transition_retry_exhausted") db
      else (Ok (Deferred (failing_instance failing) (failing_event failing) attempts delay_milliseconds), db)
  end.

(** What becomes of a transition that failed with an error: a transient one is
    deferred, any other ends the instance; a panic ends the worker. *)
Definition settle (failing : FailingTransition) (code : string) (error : TransitionError) : step TransitionConsumption :=
  match error with
  | Panic => fun db => (Err Panic, db)
  | _ => if is_transient error then defer_transition failing else transaction (fail_instance failing code)
  end.

(** ** Due events *)

Definition before (a b : EventRow * InstanceRow) : bool :=
  let (x, _) := a in
  let (y, _) := b in
  let rank e := if String.eqb (e_kind e) "signal" then 0 else 1 in
  if negb (instant_le (e_available_at y) (e_available_at x)) then true
  else if negb (instant_le (e_available_at x) (e_available_at y)) then false
  else if rank x =? rank y then match String.compare (e_id x) (e_id y) with Gt => false | _ => true end
  else rank x <? rank y.

Definition due (kind : option string) (busy : list Uuid) (ei : EventRow * InstanceRow) : bool :=
  let (event, instance) := ei in
  String.eqb (e_source event) runtime_source && event_of_instance event instance && is_due now event
  && match kind with Some kind => String.eqb (e_kind event) kind | None => true end
  && bool_decide (i_status instance = IRunning) && negb (existsb (String.eqb (e_instance event)) busy).

Definition due_events (kind : option string) (busy : list Uuid) (db : Db) : list (EventRow * InstanceRow) :=
  firstn PREPARATION_BATCH_SIZE (order_by before (List.filter (due kind busy) (list_prod (events db) (instances db)))).

Definition transition_snapshot (event : EventRow) (instance : InstanceRow) : TransitionSnapshot :=
  {| event_id := e_id event; event_kind := e_kind event; event_payload := e_payload event; snapshot_instance := i_id instance;
     process_name := i_process instance; snapshot_revision := i_revision instance; current_state := i_current_state instance;
     snapshot_input := i_input instance; snapshot_state := i_state instance; snapshot_version := i_version instance;
     caller_role := i_caller_role instance; snapshot_session := i_caller_session instance;
     workflow_time := JString (timestamptz_text (e_available_at event)); attempts := e_attempts event |}.

(** ** Timeouts *)

(** A pending signal of the same wait that was there when the timer fired. *)
Definition accepted_before_timer (db : Db) (snapshot : TransitionSnapshot) : bool :=
  existsb (fun st : EventRow * EventRow =>
    let (signal, timer) := st in
    String.eqb (e_source timer) (e_source signal) && String.eqb (e_id timer) (event_id snapshot)
    && String.eqb (e_source signal) runtime_source && String.eqb (e_instance signal) (snapshot_instance snapshot)
    && negb (String.eqb (e_id signal) (e_id timer)) && String.eqb (e_kind signal) "signal"
    && bool_decide (e_status signal = EPending) && instant_le (e_available_at signal) (e_available_at timer)
    && str_is (jsonb_text (e_payload signal) "wait_state") (current_state snapshot)
    && str_is (jsonb_text (e_payload signal) "wait_version") (show_Z (snapshot_version snapshot))
    && String.eqb (e_instance timer) (snapshot_instance snapshot) && String.eqb (e_kind timer) "timer")
    (list_prod (events db) (events db)).

(** The revisions of the signals requested while the wait was receptive. *)
Definition requested_before_timer (db : Db) (snapshot : TransitionSnapshot) (signal : string) (correlation : Value) : list string :=
  let among (rt : SignalRequestRow * EventRow) :=
    let (request, timer) := rt in
    String.eqb (e_source timer) (s_source request) && String.eqb (e_id timer) (event_id snapshot)
    && String.eqb (s_source request) runtime_source && String.eqb (s_process request) (process_name snapshot)
    && String.eqb (s_signal request) signal && jsonb_eqb (s_correlation request) correlation
    && bool_decide (s_status request = SPending) && (e_created_at timer <=? s_created_at request)
    && instant_le (At (s_created_at request)) (e_available_at timer) && String.eqb (e_instance timer) (snapshot_instance snapshot)
    && String.eqb (e_process timer) (process_name snapshot) && String.eqb (e_revision timer) (snapshot_revision snapshot)
    && String.eqb (e_kind timer) "timer" in
  let earlier (a b : SignalRequestRow * EventRow) :=
    let (a, _) := a in
    let (b, _) := b in
    if s_created_at a =? s_created_at b then match String.compare (s_id a) (s_id b) with Gt => false | _ => true end
    else s_created_at a <? s_created_at b in
  map (fun rt : SignalRequestRow * EventRow => s_revision rt.1)
    (order_by earlier (List.filter among (list_prod (signal_requests db) (events db)))).

(** Whether one of the requests has the contract of the signal waited for. *)
Fixpoint any_same_contract (process_name signal : string) (waited : CompiledProcessSignal) (revisions : list string) : outcome bool :=
  match revisions with
  | [] => Ok false
  | request_revision :: revisions =>
      definition ← ok_or ("pending Process signal references absent revision `" +:+ request_revision +:+ "`")
                     (revision deployed_catalog process_name request_revision);
      requested ← ok_or ("pending Process signal `" +:+ signal +:+ "` is absent from revision `" +:+ request_revision +:+ "`")
                    (bt_get (definition_signals definition) signal);
      if String.eqb (contract_fingerprint requested) (contract_fingerprint waited) then Ok true
      else any_same_contract process_name signal waited revisions
  end.

Definition timeout_text (snapshot : TransitionSnapshot) (what : string) : string :=
  "Process " +:+ what +:+ " timeout event `" +:+ uuid_to_string (event_id snapshot) +:+ "` does not match wait state `"
  +:+ current_state snapshot +:+ "`".

Definition is_timeout (snapshot : TransitionSnapshot) : bool := str_is (get_str (event_payload snapshot) "route") "timeout".

Definition signal_precedes_timer (db : Db) (snapshot : TransitionSnapshot) (definition : CompiledProcessDefinition)
    (wait : CompiledProcessSignalWait) : outcome bool :=
  if negb (str_is (get_str (event_payload snapshot) "signal_name") (waited_signal wait)) || negb (is_timeout snapshot) then
    bail (timeout_text snapshot "signal")
  else
    correlation ← ok_or ("Process signal timeout event `" +:+ uuid_to_string (event_id snapshot) +:+ "` has no correlation")
                    (json_get (event_payload snapshot) "correlation");
    waited ← ok_or ("Process signal `" +:+ waited_signal wait +:+ "` disappeared from revision `" +:+ snapshot_revision snapshot +:+ "`")
               (bt_get (definition_signals definition) (waited_signal wait));
    any_same_contract (process_name snapshot) (waited_signal wait) waited
      (requested_before_timer db snapshot (waited_signal wait) correlation).

Definition pending_signal_precedes_timer (snapshot : TransitionSnapshot) (db : Db) : outcome bool :=
  if negb (String.eqb (event_kind snapshot) "timer") then Ok false
  else
    definition ← ok_or ("Process timer `" +:+ uuid_to_string (event_id snapshot) +:+ "` references absent revision `"
                        +:+ snapshot_revision snapshot +:+ "`") (revision deployed_catalog (process_name snapshot) (snapshot_revision snapshot));
    match option_map compiled_state_operation (bt_get (definition_states definition) (current_state snapshot)) with
    | Some (CompiledWait (CompiledSignal wait)) =>
        if accepted_before_timer db snapshot then Ok true else signal_precedes_timer db snapshot definition wait
    | Some (CompiledWait (CompiledWebhook wait)) =>
        if accepted_before_timer db snapshot then Ok true
        else if negb (str_is (get_str (event_payload snapshot) "connector_instance") (hooked_connector wait))
                || negb (str_is (get_str (event_payload snapshot) "trigger") (InlineId_as_str (hooked_trigger wait)))
                || negb (is_timeout snapshot) then bail (timeout_text snapshot "webhook")
        else Ok false
    | _ => Ok false
    end.

(** ** One transition *)

(** What fails of its own accord: the reads of a preparation, the statements
    that apply a transition, and the locks of other transactions. *)
Record Weather := {
  preparing : TransitionSnapshot -> option TransitionError;
  applying : option TransitionError;
  locked : Uuid -> bool;
}.

Inductive Preparation : Type :=
| Prepared (prepared : PreparedTransition)
| PreparationFailed (failing : FailingTransition) (error : TransitionError)
| Nothing.

(** The first of the events whose instance is claimed that has a transition, or
    cannot be prepared. *)
Fixpoint prepare_first (weather : Weather) (claim_in_flight : Uuid -> bool) (db : Db) (rows : list (EventRow * InstanceRow)) : Preparation :=
  match rows with
  | [] => Nothing
  | (event, instance) :: rows =>
      let snapshot := transition_snapshot event instance in
      if negb (claim_in_flight (snapshot_instance snapshot)) then prepare_first weather claim_in_flight db rows
      else
        match (match preparing weather snapshot with Some error => Err error | None => prepare_one_snapshot db snapshot end) with
        | Err error => PreparationFailed (failing_of snapshot) error
        | Ok (Some prepared) => Prepared prepared
        | Ok None => prepare_first weather claim_in_flight db rows
        end
  end.

Definition prepare_one_transition (weather : Weather) (kind : option string) (busy : list Uuid) (claim_in_flight : Uuid -> bool) (db : Db) :
    Preparation :=
  prepare_first weather claim_in_flight db (due_events kind busy db).

(** The transaction of a prepared transition, on the database it finds then. *)
Definition consume_prepared (weather : Weather) (prepared : PreparedTransition) : step TransitionConsumption := fun db =>
  let snapshot := prepared_snapshot prepared in
  match lock_prepared_snapshot now (locked weather) snapshot db with
  | Err e => (Err e, db)
  | Ok (false, _) => (Ok NoWork, db)
  | Ok (true, _) =>
      match pending_signal_precedes_timer snapshot db with
      | Err message => (Err (Fault message), db)
      | Ok true => (Ok NoWork, db)
      | Ok false =>
          match (match applying weather with Some error => Err error | None => apply_prepared now gen_random_uuid run_command prepared db end) with
          | Ok (consumption, db) => (Ok consumption, db)
          | Err error => settle (failing_of snapshot) "transition_failed" error db
          end
      end
  end.

(** All of it, when no other transaction comes between the preparation and the
    lock. *)
Definition consume_one_transition_kind (weather : Weather) (kind : option string) (busy : list Uuid) (claim_in_flight : Uuid -> bool) :
    step TransitionConsumption := fun db =>
  match prepare_one_transition weather kind busy claim_in_flight db with
  | Nothing => (Ok NoWork, db)
  | PreparationFailed failing error => settle failing "transition_preparation_failed" error db
  | Prepared prepared => consume_prepared weather prepared db
  end.
End Consume.
