(* ===== verification/ActivityClaim.v ===== *)
(** * Claiming an activity ([crates/server/src/processes/activity.rs])

    [claim_one_activity]: the first due job of the source is checked against
    the revision that scheduled it, and is expired, resolved, deferred for want
    of capacity, or leased, with a token of the rate and a reservation of the
    capacity of its operation. *)
From S2P Require Import Prelude Json KeyedMap AbiIds RulesSyntax ValueContract ProcessSyntax ProcessActivity ProcessInfer ProcessEvaluate ProcessDependencies ProcessFingerprint ProcessDefinition ProcessStates ProcessCompile ProcessTyped ProcessTables ProcessTransition ProcessPrepare ProcessCommit ProcessConsume.
Set Warnings "-register-all".

(** ** Failures ([crates/connectors/src/sdk/errors.rs]) *)

Inductive ConnectorErrorClass : Type :=
| OfTransport | OfTimeout | OfHttp429 | OfHttp5xx | OfAuthentication | OfValidation | OfPermanent | OfInvariant.

#[export] Instance ConnectorErrorClass_eq : EqDecision ConnectorErrorClass. Proof. solve_decision. Defined.

(** A failure with what the worker reads of it; the [Retry-After] in milliseconds. *)
Record ConnectorFailure := {
  failure_class : ConnectorErrorClass;
  failure_code_ : string;
  safe_message_ : string;
  retry_after : option Z;
}.

Definition MAX_RETRY_AFTER_SECONDS : Z := 86400.

Definition ConnectorFailure_new (class : ConnectorErrorClass) (code message : string) : ConnectorFailure :=
  {| failure_class := class; failure_code_ := code; safe_message_ := message; retry_after := None |}.

Definition with_retry_after (failure : ConnectorFailure) (milliseconds : option Z) : ConnectorFailure :=
  {| failure_class := failure_class failure; failure_code_ := failure_code_ failure; safe_message_ := safe_message_ failure;
     retry_after := option_map (fun milliseconds => Z.min milliseconds (MAX_RETRY_AFTER_SECONDS * 1000)) milliseconds |}.

Definition connector_error_class_name (class : ConnectorErrorClass) : string :=
  match class with
  | OfTransport => "transport"
  | OfTimeout => "timeout"
  | OfHttp429 => "http_429"
  | OfHttp5xx => "http_5xx"
  | OfAuthentication => "authentication"
  | OfValidation => "validation"
  | OfPermanent => "permanent"
  | OfInvariant => "invariant"
  end.

Definition connector_failure_json (failure : ConnectorFailure) : Value :=
  JObject [("class", JString (connector_error_class_name (failure_class failure))); ("code", JString (failure_code_ failure));
           ("safe_message", JString (safe_message_ failure));
           ("retry_after_ms", match retry_after failure with Some ms => JNumber (show_nat (ms mod 2 ^ 64)) | None => JNull end)].

Definition activity_failure_is_retryable (state : CompiledProcessRequestState) (class : ConnectorErrorClass) : bool :=
  existsb (fun kind => match kind, class with
                       | Transport, OfTransport | Timeout_, OfTimeout | Http429, OfHttp429 | Http5xx, OfHttp5xx => true
                       | _, _ => false
                       end) (retry_on (retry (activity state))).

(** The code of an outcome nobody knows. *)
Definition PROVIDER_SEND_AMBIGUOUS : string := "provider_send_ambiguous".

Inductive ActivityConsumption : Type :=
| ActivityNoWork
| ActivityDeferred (activity_job_id : Uuid)
| ScheduleToStartTimedOut (instance_id activity_job_id : Uuid)
| ActivitySucceeded (instance_id activity_job_id : Uuid) (attempt lease_generation : Z)
| ActivityRetryScheduled (instance_id activity_job_id : Uuid) (failed_attempt next_attempt : Z)
| ActivityRetryExhausted (instance_id activity_job_id : Uuid) (attempt lease_generation : Z) (last_class : ConnectorErrorClass)
| ActivityFailed (instance_id activity_job_id : Uuid) (attempt lease_generation : Z) (class : ConnectorErrorClass)
| StaleCompletion (instance_id activity_job_id : Uuid) (attempt lease_generation : Z).

(** The job that was claimed, as it is now, with what was read beside it. *)
Record ClaimedActivity := {
  claimed_job : JobRow;
  claimed_process : string;
  claimed_revision : string;
  claimed_attempt : Z;
  claimed_generation : Z;
  claimed_token : Uuid;
  claimed_start_to_close : Z;
  claimed_completion : Z;
  claimed_state : CompiledProcessRequestState;
  claimed_spec : OperationSpec;
  claimed_horizon : option Z;
}.

Inductive ActivityClaim : Type :=
| ClaimNothing
| ClaimResolved (consumption : ActivityConsumption)
| ClaimDeferred (activity_job_id : Uuid)
| ClaimTimedOut (instance_id activity_job_id : Uuid)
| Claimed (claimed : ClaimedActivity).

(** [DateTime::checked_add_signed] of milliseconds, and unpadded URL-safe
    base64: of the crates [chrono] and [base64]. *)
Class ActivityCrates := {
  checked_add_milliseconds : Z -> Z -> option Z;
  base64_url_no_pad : string -> string;
}.

(** ** Retries *)

(** [1_u64.checked_shl(exponent).unwrap_or(u64::MAX)] times the first interval,
    saturating. *)
Definition retry_delay_upper_ms (state : CompiledProcessRequestState) (failed_attempt : Z) : outcome Z :=
  let exponent := failed_attempt - 1 in
  if exponent <? 0 then bail "Process activity attempt cannot be negative"
  else
    let multiplier := if exponent <? 64 then 2 ^ exponent else u64_max in
    Ok (Z.min (Z.min u64_max (initial_retry_interval_ms (activity state) * multiplier)) (maximum_retry_interval_ms (activity state))).

Definition be_value (s : string) : Z := fold_left (fun n a => n * 256 + byte_val a) (list_ascii_of_string s) 0.

Section Jitter.
Context {digest : Digest}.

Definition deterministic_full_jitter_ms (logical_activity_id : string) (failed_attempt upper_ms : Z) : Z :=
  be_value (str_take 8 (sha256 ("donat.process.retry-jitter.v1" +:+ zero_byte +:+ logical_activity_id +:+ zero_byte +:+ show_Z failed_attempt)))
  mod (Z.min u64_max (upper_ms + 1)).

Definition capacity_policy_fingerprint (spec : OperationSpec) (serialization_key_input : option string) : string :=
  lower_hex (sha256 ("donat.process.capacity.v1" +:+ zero_byte +:+ show_nat (maximum_in_flight spec) +:+ ":" +:+ show_nat (burst spec)
                     +:+ ":" +:+ show_nat (refill_interval_ms spec) +:+ ":" +:+ default "" serialization_key_input)).
End Jitter.

(** ** Statements *)

(** The columns of a job an UPDATE of the worker sets. *)
Definition set_job (row : JobRow) (status : JobStatus) (result_ : option Value) (attempts generation : Z) (available schedule_to_start : Instant)
    (start_to_close : option Z) (token : option Uuid) (expires : option Z) (last_error : option Value) : JobRow :=
  {| j_source := j_source row; j_id := j_id row; j_instance := j_instance row; j_event := j_event row; j_state := j_state row;
     j_logical_activity_id := j_logical_activity_id row; j_connector := j_connector row; j_operation := j_operation row;
     j_serialization_key_hash := j_serialization_key_hash row; j_input := j_input row; j_result := result_;
     j_request_fingerprint := j_request_fingerprint row; j_status := status; j_attempts := attempts; j_lease_generation := generation;
     j_available_at := available; j_schedule_to_start_deadline := schedule_to_start; j_start_to_close_deadline := start_to_close;
     j_lease_token := token; j_lease_expires_at := expires; j_last_error := last_error |}.

(** The job fails with the error. *)
Definition fail_job (error : Value) (row : JobRow) : JobRow :=
  set_job row JFailed (j_result row) (j_attempts row) (j_lease_generation row) (j_available_at row) (j_schedule_to_start_deadline row)
    (j_start_to_close_deadline row) None None (Some error).

(** The job waits for its next attempt. *)
Definition retry_job (available schedule_to_start : Instant) (error : Value) (row : JobRow) : JobRow :=
  set_job row JScheduled (j_result row) (j_attempts row) (j_lease_generation row) available schedule_to_start None None None (Some error).

Section Claim.
Context {serde : Serde} {digest : Digest} {uuids : Uuids} {runtime : ProcessRuntime} {postgres : Postgres} {crates : ActivityCrates}.
Context {Application : Type}.
Variable now : Z.
Variable gen_random_uuid : Database Application -> Uuid.
Abbreviation Db := (Database Application).
Abbreviation txn := (ProcessTables.txn Application).

Definition job_check (row : JobRow) : bool :=
  fits_columns (option_list (j_result row) ++ option_list (j_last_error row)) && (0 <=? j_attempts row) && (0 <=? j_lease_generation row).

Definition update_checked_jobs (where_ : JobRow -> bool) (set : JobRow -> JobRow) : txn nat := fun db =>
  '(n, t) ← checked_update job_check where_ set (jobs db); Ok (n, with_jobs db t).

Definition update_reservations (where_ : ReservationRow -> bool) (set : ReservationRow -> ReservationRow) : txn nat :=
  fun db => let '(n, t) := update_rows where_ set (reservations db) in Ok (n, with_reservations db t).

Definition update_buckets (where_ : BucketRow -> bool) (set : BucketRow -> BucketRow) : txn nat :=
  fun db => let '(n, t) := update_rows where_ set (buckets db) in Ok (n, with_buckets db t).

Definition this_job (job : JobRow) (row : JobRow) : bool := String.eqb (j_source row) runtime_source && String.eqb (j_id row) (j_id job).

Definition activity_text (job : JobRow) : string := "Process activity `" +:+ uuid_to_string (j_id job) +:+ "`".

(** The event of an activity, with the log row that no event stands for. *)
Definition activity_event (job : JobRow) (process_name revision kind : string) (payload : Value) (key : string) (db : Db) : EventRow :=
  {| e_source := runtime_source; e_id := gen_random_uuid db; e_instance := j_instance job; e_process := process_name; e_revision := revision;
     e_kind := kind; e_payload := payload; e_idempotency_key := Some key; e_available_at := At now; e_status := EPending; e_attempts := 0;
     e_created_at := now |}.

Definition append_activity_event (job : JobRow) (process_name revision kind : string) (payload : Value) (key : string) : txn Uuid :=
  row ← query (activity_event job process_name revision kind payload key); insert_event row.

Definition append_activity_log (job : JobRow) (attempt generation : Z) (revision outcome_ : string) (redacted_context : Value) : txn unit :=
  insert_log {| l_source := runtime_source; l_instance := j_instance job; l_event := None; l_job := Some (j_id job); l_attempt := Some attempt;
                l_lease_generation := Some generation; l_from_state := Some (j_state job); l_to_state := j_state job; l_outcome := outcome_;
                l_revision := revision; l_command_result := None; l_redacted_context := redacted_context |}.

Definition attempt_key (job : JobRow) (attempt generation : Z) (kind : string) : string :=
  "activity:" +:+ uuid_to_string (j_id job) +:+ ":" +:+ show_Z attempt +:+ ":" +:+ show_Z generation +:+ ":" +:+ kind.

Definition attempt_payload (job : JobRow) (attempt generation : Z) (error : option Value) : Value :=
  JObject ([("activity_job_id", JString (uuid_to_string (j_id job))); ("attempt", json_i64 attempt); ("lease_generation", json_i64 generation)]
           ++ map (fun error => ("error", error)) (option_list error)).

(** ** Due jobs *)

Definition due_job (locked : Uuid -> bool) (ji : JobRow * InstanceRow) : bool :=
  let (job, instance) := ji in
  String.eqb (i_source instance) (j_source job) && String.eqb (i_id instance) (j_instance job) && String.eqb (j_source job) runtime_source
  && bool_decide (i_status instance = IRunning) && instant_le (j_available_at job) (At now)
  && match j_status job with
     | JScheduled => true
     | JRunning => opt_is_some_and (j_lease_expires_at job) (fun expires => expires <=? now)
     | _ => false
     end
  && negb (locked (j_id job)).

Definition job_before (a b : JobRow * InstanceRow) : bool :=
  let (a, _) := a in
  let (b, _) := b in
  if negb (instant_le (j_available_at b) (j_available_at a)) then true
  else if negb (instant_le (j_available_at a) (j_available_at b)) then false
  else match String.compare (j_id a) (j_id b) with Gt => false | _ => true end.

Definition claim_job (locked : Uuid -> bool) (db : Db) : option (JobRow * InstanceRow) :=
  head (order_by job_before (List.filter (due_job locked) (list_prod (jobs db) (instances db)))).

(** ** The activity and its operation *)

(** The request of the state, and whether it is one of a fan-out. *)
Definition request_of (job : JobRow) (state : CompiledProcessState) : outcome (CompiledProcessRequestState * bool) :=
  match compiled_state_operation state with
  | CompiledRequest state => Ok (state, false)
  | CompiledForEach state =>
      match fan_activity state with
      | ForEachRequest request => Ok (request, true)
      | ForEachCommand _ => bail (activity_text job +:+ " references command fan-out state `" +:+ j_state job +:+ "`")
      end
  | _ => bail (activity_text job +:+ " references non-request state `" +:+ j_state job +:+ "`")
  end.

Definition active_item (job : JobRow) (item : ItemRow) : bool :=
  String.eqb (f_source item) runtime_source && String.eqb (f_instance item) (j_instance job) && String.eqb (f_state item) (j_state job)
  && same_key (f_job item) (Some (j_id job)) && bool_decide (f_status item = FScheduled).

(** The operation is the one the revision pinned, for the input of its contract. *)
Definition check_operation (job : JobRow) (revision_ : string) (definition : CompiledProcessDefinition) (state : CompiledProcessRequestState) :
    outcome PinnedConnectorOperation :=
  dependency ← ok_or (activity_text job +:+ " has no pinned connector dependency")
                 (km_get (connector_operations (definition_dependencies definition))
                    (runtime_source, j_connector job, compiled_operation (activity state)));
  live_spec ← ok_or (activity_text job +:+ " connector operation is absent")
                (operation_spec_handle runtime_source (j_connector job) (compiled_operation (activity state)));
  live_fingerprint ← ok_or (activity_text job +:+ " has no deployment fingerprint") (configuration_fingerprint (j_connector job) (j_operation job));
  if negb (ptr_eq (pinned_spec dependency) live_spec) || negb (String.eqb (pinned_deployment dependency) live_fingerprint)
     || negb (opt_string_eqb (serialization_key_input dependency) (registry_serialization_key_input (j_connector job) (j_operation job))) then
    bail (activity_text job +:+ " differs from pinned connector revision `" +:+ revision_ +:+ "`")
  else
    _ ← validate_payload (spec_input (as_ref (pinned_spec dependency))) "decoding claimed Process activity input"
          "claimed Process activity input violated its contract" (j_input job);
    expected ← match serialization_key_input dependency with
               | Some field => hash ← process_serialization_key_hash (j_input job) field; Ok (Some hash)
               | None => Ok None
               end;
    if negb (opt_string_eqb (j_serialization_key_hash job) expected) then
      bail (activity_text job +:+ " serialization key differs from its pinned input")
    else Ok dependency.

(** Everything the claim checks of the job before it acts on it. *)
Definition check_activity (db : Db) (job : JobRow) (instance : InstanceRow) :
    attempt (CompiledProcessState * CompiledProcessRequestState * PinnedConnectorOperation) :=
  definition ← fault_of (ok_or (activity_text job +:+ " references absent revision `" +:+ i_process instance +:+ "` / `" +:+ i_revision instance +:+ "`")
                           (revision deployed_catalog (i_process instance) (i_revision instance)));
  compiled ← fault_of (ok_or (activity_text job +:+ " references absent state `" +:+ j_state job +:+ "`")
                         (bt_get (definition_states definition) (j_state job)));
  '(state, fanout) ← fault_of (request_of job compiled);
  let differs := activity_text job +:+ " differs from its pinned request state" in
  if negb (String.eqb (i_current_state instance) (j_state job)) || negb (String.eqb (connector (activity state)) (j_connector job))
     || negb (String.eqb (InlineId_as_str (compiled_operation (activity state))) (j_operation job)) then fault differs
  else
    fingerprint ← canonical_json_sha256 (j_input job);
    if negb (String.eqb fingerprint (j_request_fingerprint job)) then fault differs
    else if fanout && negb (existsb (active_item job) (items db)) then
      fault (activity_text job +:+ " has no active fan-out item in state `" +:+ j_state job +:+ "`")
    else
      dependency ← fault_of (check_operation job (i_revision instance) definition state);
      Ok (compiled, state, dependency).

(** ** Jobs that no worker will finish *)

Definition timeout_error (code message : string) : Value :=
  JObject [("class", JString "timeout"); ("code", JString code); ("safe_message", JString message); ("retry_after_ms", JNull)].

Definition expire_scheduled_activity (job : JobRow) (process_name revision : string) : txn unit :=
  let error := timeout_error "schedule_to_start_timeout" "activity did not start before its schedule_to_start deadline" in
  updated ← update_checked_jobs (fun row => this_job job row && match j_status row with JScheduled | JRunning => true | _ => false end) (fail_job error);
  _ ← ensure (updated =? 1)%nat "expiring unstarted Process activity";
  _ ← append_activity_event job process_name revision "activity_failed"
        (JObject [("activity_job_id", JString (uuid_to_string (j_id job))); ("state", JString (j_state job)); ("error", error)])
        ("activity:" +:+ uuid_to_string (j_id job) +:+ ":schedule-to-start-timeout");
  append_activity_log job (j_attempts job) (j_lease_generation job) revision "activity_schedule_to_start_timed_out" error.

Definition send_was_authorized (logical_activity_id : string) (db : Db) : bool :=
  existsb (fun row => String.eqb (p_source row) runtime_source && String.eqb (p_logical_activity_id row) logical_activity_id) (provider_steps db).

Definition release_row (row : ReservationRow) : ReservationRow :=
  {| r_source := r_source row; r_id := r_id row; r_job := r_job row; r_connector := r_connector row; r_operation := r_operation row;
     r_serialization_key_hash := r_serialization_key_hash row; r_lease_token := r_lease_token row;
     r_reserved_at := r_reserved_at row; r_expires_at := r_expires_at row; r_released_at := Some now |}.

Definition release_abandoned_capacity (job : JobRow) : txn unit :=
  released ← update_reservations
    (fun row => String.eqb (r_source row) runtime_source && String.eqb (r_job row) (j_id job) && negb (is_some (r_released_at row)))
    release_row;
  ensure (released =? 1)%nat "late Process activity did not release exactly one reservation".

(** The lease the job was found under. *)
Definition abandoned (job row : JobRow) : bool :=
  this_job job row && String.eqb (j_instance row) (j_instance job) && bool_decide (j_status row = JRunning)
  && (j_attempts row =? j_attempts job) && (j_lease_generation row =? j_lease_generation job).

Definition exhausted_error (class : ConnectorErrorClass) (code : string) : Value :=
  JObject [("class", JString "retry_exhausted"); ("code", JString "activity_retry_exhausted");
           ("safe_message", JString "the activity retry budget was exhausted"); ("retry_after_ms", JNull);
           ("last_failure", JObject [("class", JString (connector_error_class_name class)); ("code", JString code)])].

(** What is known of an activity whose worker is gone. *)
Definition late_failure (job : JobRow) (state : CompiledProcessRequestState) (db : Db) : ConnectorFailure :=
  if at_most_once (activity state) && send_was_authorized (j_logical_activity_id job) db then
    ConnectorFailure_new OfPermanent PROVIDER_SEND_AMBIGUOUS
      "an at-most-once provider send was already authorized and its outcome is unknown"
  else
    ConnectorFailure_new OfTimeout "start_to_close_timeout" "the activity exceeded start_to_close and its takeover grace".

Definition resolve_late_running_activity (job : JobRow) (process_name revision : string) (state : CompiledProcessRequestState) :
    txn ActivityConsumption :=
  failure ← query (late_failure job state);
  let retryable := activity_failure_is_retryable state (failure_class failure) in
  let attempt := j_attempts job in
  let generation := j_lease_generation job in
  let max_attempts := max_attempts (retry (activity state)) in
  _ ← ensure (0 <=? attempt) "Process activity attempt cannot be negative";
  let failure_json := connector_failure_json failure in
  if retryable && (attempt <? max_attempts) then
    retry_upper_ms ← lift (fault_of (retry_delay_upper_ms state attempt));
    let delay_ms := deterministic_full_jitter_ms (j_logical_activity_id job) attempt retry_upper_ms in
    delay ← i64_milliseconds delay_ms "Process retry delay exceeds chrono range";
    available_at ← lift (fault_of (ok_or "Process retry available_at overflow" (checked_add_milliseconds now delay)));
    schedule ← i64_milliseconds (schedule_to_start_ms (activity state)) "schedule_to_start exceeds chrono range";
    schedule_to_start ← lift (fault_of (ok_or "Process retry schedule_to_start deadline overflow" (checked_add_milliseconds available_at schedule)));
    updated ← update_checked_jobs (fun row => abandoned job row && String.eqb (j_logical_activity_id row) (j_logical_activity_id job))
                (retry_job (At available_at) (At schedule_to_start) failure_json);
    _ ← ensure (updated =? 1)%nat "late Process activity did not reschedule exactly once";
    _ ← release_abandoned_capacity job;
    _ ← append_activity_log job attempt generation revision "activity_retry_scheduled"
          (JObject [("class", JString "timeout"); ("code", JString "start_to_close_timeout"); ("delay_ms", JNumber (show_nat delay_ms))]);
    next_attempt ← lift (fault_of (ok_or "Process activity next attempt overflow" (checked i32_min i32_max (attempt + 1))));
    mret (ActivityRetryScheduled (j_instance job) (j_id job) attempt next_attempt)
  else
    let exhausted := retryable && (max_attempts <=? attempt) in
    let '(kind, error) := if exhausted then ("retry_exhausted", exhausted_error OfTimeout "start_to_close_timeout")
                          else ("activity_failed", failure_json) in
    updated ← update_checked_jobs (abandoned job) (fail_job error);
    _ ← ensure (updated =? 1)%nat "late Process activity did not terminalize exactly once";
    _ ← release_abandoned_capacity job;
    _ ← append_activity_event job process_name revision kind (attempt_payload job attempt generation (Some error)) (attempt_key job attempt generation kind);
    _ ← append_activity_log job attempt generation revision kind error;
    if exhausted : bool then mret (ActivityRetryExhausted (j_instance job) (j_id job) attempt generation OfTimeout)
    else mret (ActivityFailed (j_instance job) (j_id job) attempt generation OfTimeout).

(** ** Capacity *)

Definition same_bucket (job : JobRow) (row : BucketRow) : bool :=
  String.eqb (b_source row) runtime_source && String.eqb (b_connector row) (j_connector job) && String.eqb (b_operation row) (j_operation job).

Definition set_tokens (row : BucketRow) (tokens last : Z) : BucketRow :=
  {| b_source := b_source row; b_connector := b_connector row; b_operation := b_operation row; b_available_tokens := tokens;
     b_last_refill_at := last; b_policy_fingerprint := b_policy_fingerprint row |}.

Definition token : Z := 10 ^ 18.

(** The bucket of the operation, made full when there is none, under the policy. *)
Definition lock_bucket (job : JobRow) (spec : OperationSpec) (policy_fingerprint : string) : txn unit :=
  _ ← (fun db => if existsb (same_bucket job) (buckets db) then Ok (tt, db)
                 else Ok (tt, with_buckets db (buckets db ++
                   [{| b_source := runtime_source; b_connector := j_connector job; b_operation := j_operation job;
                       b_available_tokens := burst spec * token; b_last_refill_at := now; b_policy_fingerprint := policy_fingerprint |}])));
  stored ← query (fun db => List.find (same_bucket job) (buckets db));
  ensure (opt_is_some_and stored (fun row => String.eqb (b_policy_fingerprint row) policy_fingerprint))
    "Process activity capacity policy changed while live work references its bucket".

Definition of_operation (job : JobRow) (row : ReservationRow) : bool :=
  String.eqb (r_source row) runtime_source && String.eqb (r_connector row) (j_connector job) && String.eqb (r_operation row) (j_operation job)
  && negb (is_some (r_released_at row)).

Definition release_expired (job : JobRow) : txn nat :=
  update_reservations (fun row => of_operation job row && (r_expires_at row <=? now)) release_row.

(** The reservations of the operation that count now. *)
Definition in_flight_of (job : JobRow) (db : Db) : list ReservationRow :=
  List.filter (fun row => of_operation job row && (now <? r_expires_at row)) (reservations db).

Definition same_serialization (job : JobRow) (row : ReservationRow) : bool := same_key (r_serialization_key_hash row) (j_serialization_key_hash job).

Definition earliest_expiry (rows : list ReservationRow) : option Z :=
  match map r_expires_at rows with [] => None | t :: ts => Some (fold_left Z.min ts t) end.

(** The bucket with the tokens of the time since the last refill. *)
Definition refill (spec : OperationSpec) (row : BucketRow) : BucketRow :=
  set_tokens row (Z.min (burst spec * token)
                    (b_available_tokens row + numeric_quotient (Z.max 0 (now - b_last_refill_at row)) (refill_interval_ms spec * 1000))) now.

Definition refill_bucket (job : JobRow) (spec : OperationSpec) : txn Z :=
  _ ← update_buckets (same_bucket job) (refill spec);
  row ← query (fun db => List.find (same_bucket job) (buckets db));
  lift (fault_of (ok_or "refilling Process activity capacity bucket" (option_map b_available_tokens row))).

(** When the next token will be there. *)
Definition next_token_at (spec : OperationSpec) (tokens : Z) : Z :=
  now + (Z.max 0 (token - tokens) * refill_interval_ms spec + (token - 1)) / token * 1000.

Definition instant_min (a b : Instant) : Instant := if instant_le a b then a else b.

Definition defer_job (next : Z) (limit : Instant) (row : JobRow) : JobRow :=
  set_job row (j_status row) (j_result row) (j_attempts row) (j_lease_generation row) (instant_min (At next) limit)
    (j_schedule_to_start_deadline row) (j_start_to_close_deadline row) (j_lease_token row) (j_lease_expires_at row) (j_last_error row).

(** Whether the operation has room for the job; if not, the job waits. *)
Definition take_capacity (job : JobRow) (spec : OperationSpec) (policy_fingerprint : string) (wait_limit : Instant) : txn bool :=
  _ ← i64_milliseconds (refill_interval_ms spec) "connector refill interval exceeds i64";
  _ ← lock_bucket job spec policy_fingerprint;
  _ ← release_expired job;
  in_flight ← query (in_flight_of job);
  tokens ← refill_bucket job spec;
  let full := maximum_in_flight spec <=? Z.of_nat (List.length in_flight) in
  let busy := existsb (same_serialization job) in_flight in
  if full || busy || (tokens <? token) then
    let next := if busy then earliest_expiry (List.filter (same_serialization job) in_flight)
                else if full then earliest_expiry in_flight
                else Some (next_token_at spec tokens) in
    next ← lift (fault_of (ok_or "Process activity capacity deferral has no wake-up time" next));
    _ ← update_checked_jobs (fun row => this_job job row && match j_status row with JScheduled | JRunning => true | _ => false end)
          (defer_job next wait_limit);
    mret false
  else
    _ ← update_buckets (fun row => same_bucket job row && (token <=? b_available_tokens row))
          (fun row => set_tokens row (b_available_tokens row - token) (b_last_refill_at row));
    mret true.

(** ** Leases *)

Definition reservation (job : JobRow) (lease_token : Uuid) (expires : Z) (db : Db) : ReservationRow :=
  {| r_source := runtime_source; r_id := gen_random_uuid db; r_job := j_id job; r_connector := j_connector job; r_operation := j_operation job;
     r_serialization_key_hash := j_serialization_key_hash job; r_lease_token := lease_token; r_reserved_at := now; r_expires_at := expires;
     r_released_at := None |}.

Definition reservation_conflicts (a b : ReservationRow) : bool :=
  String.eqb (r_source a) (r_source b)
  && (String.eqb (r_id a) (r_id b) || (String.eqb (r_job a) (r_job b) && String.eqb (r_lease_token a) (r_lease_token b))).

Definition insert_reservation (row : ReservationRow) : txn unit := fun db =>
  t ← insert_row reservation_conflicts row (reservations db);
  if negb (has_job db (r_source row) (r_job row)) then refused foreign_key_violation else Ok (tt, with_reservations db t).

Definition leased (attempt generation start_to_close completion : Z) (lease_token : Uuid) (row : JobRow) : JobRow :=
  set_job row JRunning (j_result row) attempt generation (At completion) (j_schedule_to_start_deadline row) (Some start_to_close)
    (Some lease_token) (Some start_to_close) (j_last_error row).

(** The deadlines of the attempt: a takeover keeps the one of the attempt it
    takes over, with some grace. *)
Definition attempt_deadlines (job : JobRow) (state : CompiledProcessRequestState) : outcome (Z * Z) :=
  if bool_decide (j_status job = JRunning) then
    deadline ← ok_or "running Process activity has no start_to_close deadline" (j_start_to_close_deadline job);
    takeover ← ok_or "Process takeover deadline overflow" (checked_add_milliseconds deadline MAXIMUM_ACTIVITY_TAKEOVER_DELAY_MS);
    Ok (deadline, takeover)
  else
    milliseconds ← ok_or "start_to_close exceeds chrono range" (checked i64_min i64_max (start_to_close_ms (activity state)));
    deadline ← ok_or "Process start_to_close deadline overflow" (checked_add_milliseconds now milliseconds);
    Ok (deadline, deadline).

(** The horizon within which the provider may be sent to; an error of it comes
    after the lease is committed. *)
Definition send_horizon (job : JobRow) (compiled : CompiledProcessState) (spec : OperationSpec) : outcome (option Z) :=
  match effect spec with
  | ReadOnly | AtMostOnce => Ok None
  | ProviderIdempotent [step_] =>
      horizon ← ok_or (activity_text job +:+ " has no pinned send horizon")
                  (bt_get (maximum_send_horizons_ms compiled) (InlineId_as_str (ProcessDependencies.step step_)));
      Ok (Some horizon)
  | ProviderIdempotent _ => bail "current connector executor requires exactly one provider-idempotent step"
  end.

Definition assign_lease (job : JobRow) (start_to_close completion : Z) : txn (JobRow * Uuid) :=
  lease_token ← query gen_random_uuid;
  attempt ← lift (fault_of (ok_or "Process activity attempt overflow"
              (if bool_decide (j_status job = JRunning) then Some (j_attempts job) else checked i32_min i32_max (j_attempts job + 1))));
  generation ← lift (fault_of (ok_or "Process activity lease generation overflow" (checked i64_min i64_max (j_lease_generation job + 1))));
  let lease := leased attempt generation start_to_close completion lease_token in
  updated ← update_checked_jobs (fun row => this_job job row && bool_decide (j_status row = j_status job)) lease;
  _ ← ensure (updated =? 1)%nat "locked Process activity did not acquire exactly one lease";
  row ← query (reservation job lease_token completion);
  _ ← insert_reservation row;
  mret (lease job, lease_token).

(** The transaction of a claim; what is wrong with the outcome after it was
    committed is inside. *)
Definition claim_transaction (locked : Uuid -> bool) : txn (outcome ActivityClaim) :=
  claimed ← query (claim_job locked);
  match claimed with
  | None => mret (Ok ClaimNothing)
  | Some (job, instance) =>
      checked ← (fun db => lift (check_activity db job instance) db);
      let '(compiled, state, dependency) := checked in
      let spec := as_ref (pinned_spec dependency) in
      if bool_decide (j_status job = JScheduled) && instant_le (j_schedule_to_start_deadline job) (At now) then
        _ ← expire_scheduled_activity job (i_process instance) (i_revision instance);
        mret (Ok (ClaimTimedOut (j_instance job) (j_id job)))
      else
        deadlines ← lift (fault_of (attempt_deadlines job state));
        let '(start_to_close, completion) := deadlines in
        let takeover := bool_decide (j_status job = JRunning) in
        if takeover && (completion <? now) then
          consumption ← resolve_late_running_activity job (i_process instance) (i_revision instance) state;
          mret (Ok (ClaimResolved consumption))
        else
          room ← take_capacity job spec (capacity_policy_fingerprint spec (serialization_key_input dependency))
                   (if takeover then At completion else j_schedule_to_start_deadline job);
          if negb room then mret (Ok (ClaimDeferred (j_id job)))
          else
            lease ← assign_lease job start_to_close completion;
            let '(job', lease_token) := lease in
            mret (horizon ← send_horizon job compiled spec;
                  Ok (Claimed {| claimed_job := job'; claimed_process := i_process instance; claimed_revision := i_revision instance;
                                 claimed_attempt := j_attempts job'; claimed_generation := j_lease_generation job'; claimed_token := lease_token;
                                 claimed_start_to_close := start_to_close; claimed_completion := completion; claimed_state := state;
                                 claimed_spec := spec; claimed_horizon := horizon |}))
  end.

Definition claim_one_activity (locked : Uuid -> bool) : step ActivityClaim := fun db =>
  match transaction (claim_transaction locked) db with
  | (Ok claim, db) => (fault_of claim, db)
  | (Err e, db) => (Err e, db)
  end.
End Claim.
