(* ===== verification/ActivityWork.v ===== *)
(** * Working on an activity ([crates/server/src/processes/activity.rs])

    What the worker does with a claim: the send is authorized on record before
    the executor is entered, and the outcome is recorded only under the lease
    that was claimed. *)
From S2P Require Import Prelude Json KeyedMap AbiIds RulesSyntax ValueContract ProcessSyntax ProcessActivity ProcessInfer ProcessEvaluate ProcessDependencies ProcessFingerprint ProcessDefinition ProcessStates ProcessCompile ProcessTyped ProcessTables ProcessTransition ProcessPrepare ProcessCommit ProcessConsume ActivityClaim.
Set Warnings "-register-all".

Definition AT_MOST_ONCE_SEND_SCOPE : string := "donat.at_most_once.send".

Record ConnectorSuccess := { success_output : Value; success_fingerprint : string }.

Inductive ProviderAuthorization : Type :=
| Authorized (idempotency_key : string) (deadline_ms : Z)
| Refused (failure : ConnectorFailure).

(** How far the worker got with its send. *)
Inductive SendOutcome : Type := NotAttempted | Attempted | Answered.

Definition send_outcome_is_unknown (send : SendOutcome) (class : ConnectorErrorClass) : bool :=
  match send with
  | NotAttempted => false
  | Attempted => match class with OfTransport | OfTimeout | OfHttp429 | OfHttp5xx => true | _ => false end
  | Answered => true
  end.

Section Work.
Context {serde : Serde} {digest : Digest} {uuids : Uuids} {runtime : ProcessRuntime} {postgres : Postgres} {crates : ActivityCrates}.
Context {Application : Type}.
Variable now : Z.
Variable gen_random_uuid : Database Application -> Uuid.
Abbreviation Db := (Database Application).
Abbreviation txn := (ProcessTables.txn Application).

(** [expect] makes a failing serialiser a panic. *)
Definition provider_step_key (logical_activity_id scope step : string) : attempt string :=
  match to_vec (JObject [("logical_activity_id", JString logical_activity_id); ("scope", JString scope); ("step", JString step)]) with
  | Some canonical => Ok (base64_url_no_pad (sha256 ("donat.connector.idempotency.step.v1" +:+ zero_byte +:+ canonical)))
  | None => Err Panic
  end.

(** The job under the lease of the claim. *)
Definition holds_lease (claimed : ClaimedActivity) (row : JobRow) : bool :=
  this_job (claimed_job claimed) row && bool_decide (j_status row = JRunning) && same_key (j_lease_token row) (Some (claimed_token claimed))
  && (j_lease_generation row =? claimed_generation claimed) && (j_attempts row =? claimed_attempt claimed).

(** ** The authorization of a send *)

Definition step_conflicts (a b : ProviderStepRow) : bool :=
  String.eqb (p_source a) (p_source b) && String.eqb (p_logical_activity_id a) (p_logical_activity_id b) && String.eqb (p_step a) (p_step b).

Definition step_job_conflicts (a b : ProviderStepRow) : bool :=
  String.eqb (p_source a) (p_source b) && String.eqb (p_job a) (p_job b) && String.eqb (p_step a) (p_step b).

(** INSERT .. ON CONFLICT (source, logical activity, step) DO NOTHING, with the
    number of rows it inserted. *)
Definition record_send (row : ProviderStepRow) : txn nat := fun db =>
  if existsb (step_conflicts row) (provider_steps db) then Ok (0%nat, db)
  else
    t ← insert_row step_job_conflicts row (provider_steps db);
    if negb (has_job db (p_source row) (p_job row)) then refused foreign_key_violation else Ok (1%nat, with_provider_steps db t).

Definition provider_step (claimed : ClaimedActivity) (step_ key : string) (send_deadline window : Z) : ProviderStepRow :=
  {| p_source := runtime_source; p_job := j_id (claimed_job claimed); p_logical_activity_id := j_logical_activity_id (claimed_job claimed);
     p_step := step_; p_idempotency_key := key; p_first_attempt_at := now; p_maximum_send_deadline_at := send_deadline;
     p_usable_window_expires_at := window |}.

(** The one send of an activity that may be sent at most once. *)
Definition authorize_at_most_once (claimed : ClaimedActivity) : txn (string * option ConnectorFailure) :=
  step_ ← lift (fault_of (ok_or "at-most-once Process activity has no compiled step" (head (spec_steps (claimed_spec claimed)))));
  let logical := j_logical_activity_id (claimed_job claimed) in
  key ← lift (provider_step_key logical AT_MOST_ONCE_SEND_SCOPE (InlineId_as_str step_));
  authorized ← record_send (provider_step claimed (InlineId_as_str step_) key (claimed_completion claimed) (claimed_completion claimed));
  mret (logical,
        if (authorized =? 0)%nat then
          Some (ConnectorFailure_new OfPermanent PROVIDER_SEND_AMBIGUOUS
                  "an at-most-once provider send was already authorized and its outcome is unknown")
        else None).

(** A send under the fixed key of the provider's window. *)
Definition authorize_idempotent (claimed : ClaimedActivity) (steps : list ProviderIdempotentStep) : txn (string * option ConnectorFailure) :=
  step_ ← lift (fault_of (ok_or "provider-idempotent Process activity has no compiled step" (head steps)));
  horizon_ms ← lift (fault_of (ok_or "provider-idempotent Process activity has no send horizon" (claimed_horizon claimed)));
  usable_window_ms ← lift (fault_of (ok_or "provider idempotency window underflow"
    (checked 0 u64_max (minimum_retention_ms step_ - clock_safety_margin_ms step_))));
  let name := InlineId_as_str (ProcessDependencies.step step_) in
  let logical := j_logical_activity_id (claimed_job claimed) in
  key ← lift (provider_step_key logical (step_scope step_) name);
  horizon_ms ← i64_milliseconds horizon_ms "provider send horizon exceeds i64";
  usable_window_ms ← i64_milliseconds usable_window_ms "provider usable window exceeds i64";
  _ ← record_send (provider_step claimed name key (now + horizon_ms * 1000) (now + usable_window_ms * 1000));
  stored ← query (fun db => List.find (fun row => String.eqb (p_source row) runtime_source && String.eqb (p_job row) (j_id (claimed_job claimed))
             && String.eqb (p_logical_activity_id row) logical && String.eqb (p_step row) name) (provider_steps db));
  stored ← lift (fault_of (ok_or "reading Process provider-step authorization" stored));
  _ ← ensure (String.eqb (p_idempotency_key stored) key) "persisted Process provider step has a different fixed key";
  mret (key,
        if p_usable_window_expires_at stored <? now then
          Some (ConnectorFailure_new OfPermanent "connector_idempotency_window_exhausted" "the provider idempotency window was exhausted")
        else if p_maximum_send_deadline_at stored <? now then
          Some (ConnectorFailure_new OfTimeout "provider_send_horizon_exhausted" "the compiled provider send horizon was exhausted")
        else None).

Definition authorize_provider_send (claimed : ClaimedActivity) : txn ProviderAuthorization :=
  provider ← match effect (claimed_spec claimed) with
             | ReadOnly => mret (j_logical_activity_id (claimed_job claimed), None)
             | AtMostOnce => authorize_at_most_once claimed
             | ProviderIdempotent steps => authorize_idempotent claimed steps
             end;
  let '(idempotency_key, provider_refusal) := provider in
  row ← query (fun db => List.find (holds_lease claimed) (jobs db));
  row ← lift (fault_of (ok_or "Process activity lease changed before provider send" row));
  deadline ← lift (match j_start_to_close_deadline row with Some deadline => Ok deadline | None => Err Panic end);
  _ ← ensure (deadline =? claimed_start_to_close claimed) "Process activity start_to_close deadline changed before provider send";
  let late := if claimed_completion claimed <? now then
                Some (ConnectorFailure_new OfTimeout "start_to_close_timeout"
                        "the activity start_to_close deadline was exhausted before provider send")
              else None in
  mret (match provider_refusal with
        | Some failure => Refused failure
        | None =>
            match late with
            | Some failure => Refused failure
            | None => Authorized idempotency_key (Z.min (Z.max 1 ((claimed_completion claimed - now) / 1000)) (deadline_ms (claimed_spec claimed)))
            end
        end).

(** ** Outcomes *)

Definition lock_current_activity_lease (claimed : ClaimedActivity) (db : Db) : bool :=
  existsb (holds_lease claimed) (jobs db) && (now <=? claimed_completion claimed).

Definition release_capacity (claimed : ClaimedActivity) : txn unit :=
  released ← update_reservations
    (fun row => String.eqb (r_source row) runtime_source && String.eqb (r_job row) (j_id (claimed_job claimed))
                && String.eqb (r_lease_token row) (claimed_token claimed) && negb (is_some (r_released_at row)))
    (release_row now);
  ensure (released =? 1)%nat "Process activity completion did not release exactly one reservation".

Definition completion_log (claimed : ClaimedActivity) (outcome_ : string) (redacted_context : Value) : txn unit :=
  append_activity_log (claimed_job claimed) (claimed_attempt claimed) (claimed_generation claimed) (claimed_revision claimed) outcome_ redacted_context.

Definition completion_event (claimed : ClaimedActivity) (kind : string) (error : option Value) : txn Uuid :=
  let attempt := claimed_attempt claimed in
  let generation := claimed_generation claimed in
  append_activity_event now gen_random_uuid (claimed_job claimed) (claimed_process claimed) (claimed_revision claimed) kind
    (attempt_payload (claimed_job claimed) attempt generation error) (attempt_key (claimed_job claimed) attempt generation kind).

Definition succeed_job (output : Value) (row : JobRow) : JobRow :=
  set_job row JSucceeded (Some output) (j_attempts row) (j_lease_generation row) (j_available_at row) (j_schedule_to_start_deadline row)
    (j_start_to_close_deadline row) None None None.

Definition stale (claimed : ClaimedActivity) : ActivityConsumption :=
  StaleCompletion (j_instance (claimed_job claimed)) (j_id (claimed_job claimed)) (claimed_attempt claimed) (claimed_generation claimed).

Definition complete_activity_success (claimed : ClaimedActivity) (output : Value) : txn bool :=
  current ← query (lock_current_activity_lease claimed);
  let context := JObject [("request_fingerprint", JString (j_request_fingerprint (claimed_job claimed)))] in
  if negb current then _ ← completion_log claimed "activity_stale_completion" context; mret false
  else
    updated ← update_checked_jobs (holds_lease claimed) (succeed_job output);
    _ ← ensure (updated =? 1)%nat "locked Process activity success did not complete exactly once";
    _ ← release_capacity claimed;
    _ ← completion_event claimed "activity_succeeded" None;
    _ ← completion_log claimed "activity_completed" context;
    mret true.

Definition class_and_code (failure : ConnectorFailure) : list (string * Value) :=
  [("class", JString (connector_error_class_name (failure_class failure))); ("code", JString (failure_code_ failure))].

(** The failure as it is recorded: a send that may have been made at most once,
    and whose outcome nobody knows, is ambiguous, with what stopped it. *)
Definition recorded_failure (claimed : ClaimedActivity) (failure : ConnectorFailure) (send : SendOutcome) (db : Db) :
    ConnectorFailure * option Value :=
  if at_most_once (activity (claimed_state claimed)) && send_outcome_is_unknown send (failure_class failure)
     && send_was_authorized (j_logical_activity_id (claimed_job claimed)) db then
    (ConnectorFailure_new OfPermanent PROVIDER_SEND_AMBIGUOUS "an at-most-once provider send was authorized and its outcome is unknown",
     Some (JObject (class_and_code failure)))
  else (failure, None).

Definition reschedule_activity_retry (claimed : ClaimedActivity) (error : Value) (delay_ms : Z) : txn unit :=
  delay ← i64_milliseconds delay_ms "Process retry delay exceeds i64";
  schedule ← i64_milliseconds (schedule_to_start_ms (activity (claimed_state claimed))) "Process retry schedule_to_start exceeds i64";
  updated ← update_checked_jobs (holds_lease claimed)
              (retry_job (At (now + delay * 1000)) (At (now + delay * 1000 + schedule * 1000)) error);
  ensure (updated =? 1)%nat "locked retryable Process activity did not reschedule exactly once".

Definition max_attempts_of (claimed : ClaimedActivity) : Z := max_attempts (retry (activity (claimed_state claimed))).

(** The end of an activity that is not tried again. *)
Definition end_activity (claimed : ClaimedActivity) (failure : ConnectorFailure) (cause : option Value) (exhausted : bool) : txn ActivityConsumption :=
  let error := match connector_failure_json failure, cause with
               | JObject object, Some cause => JObject (obj_insert object "caused_by" cause)
               | error, _ => error
               end in
  let '(kind, error) := if exhausted then ("retry_exhausted", exhausted_error (failure_class failure) (failure_code_ failure))
                        else ("activity_failed", error) in
  updated ← update_checked_jobs (holds_lease claimed) (fail_job error);
  _ ← ensure (updated =? 1)%nat "locked Process activity failure did not complete exactly once";
  _ ← release_capacity claimed;
  _ ← completion_event claimed kind (Some error);
  _ ← completion_log claimed kind error;
  let instance := j_instance (claimed_job claimed) in
  let id := j_id (claimed_job claimed) in
  if exhausted : bool then mret (ActivityRetryExhausted instance id (claimed_attempt claimed) (claimed_generation claimed) (failure_class failure))
  else mret (ActivityFailed instance id (claimed_attempt claimed) (claimed_generation claimed) (failure_class failure)).

(** The delay before the next attempt, if the provider does not ask for more
    than the bound. *)
Definition retry_delay (claimed : ClaimedActivity) (failure : ConnectorFailure) : outcome (option Z) :=
  upper ← retry_delay_upper_ms (claimed_state claimed) (claimed_attempt claimed);
  let jitter := deterministic_full_jitter_ms (j_logical_activity_id (claimed_job claimed)) (claimed_attempt claimed) upper in
  let asked := match retry_after failure with Some ms => Z.min u64_max ms | None => 0 end in
  Ok (if asked <=? upper then Some (Z.max jitter asked) else None).

Definition complete_activity_failure_with_retry (claimed : ClaimedActivity) (failure : ConnectorFailure) (send : SendOutcome) :
    txn ActivityConsumption :=
  current ← query (lock_current_activity_lease claimed);
  if negb current then
    _ ← completion_log claimed "activity_stale_completion" (JObject (class_and_code failure));
    mret (stale claimed)
  else
    recorded ← query (recorded_failure claimed failure send);
    let '(failure, cause) := recorded in
    let retryable := match send with NotAttempted => false | _ => activity_failure_is_retryable (claimed_state claimed) (failure_class failure) end in
    let attempt := claimed_attempt claimed in
    _ ← ensure (0 <=? attempt) "Process activity attempt cannot be negative";
    if retryable && (attempt <? max_attempts_of claimed) then
      delay ← lift (fault_of (retry_delay claimed failure));
      match delay with
      | Some delay_ms =>
          _ ← reschedule_activity_retry claimed (connector_failure_json failure) delay_ms;
          _ ← release_capacity claimed;
          _ ← completion_log claimed "activity_retry_scheduled" (JObject (class_and_code failure ++ [("delay_ms", JNumber (show_nat delay_ms))]));
          next_attempt ← lift (fault_of (ok_or "Process activity next attempt overflow" (checked i32_min i32_max (attempt + 1))));
          mret (ActivityRetryScheduled (j_instance (claimed_job claimed)) (j_id (claimed_job claimed)) attempt next_attempt)
      | None =>
          end_activity claimed (with_retry_after (ConnectorFailure_new OfTimeout "retry_after_exceeds_retry_bound"
            "provider Retry-After exceeds the declared retry delay bound") (retry_after failure)) cause false
      end
    else end_activity claimed failure cause (retryable && (max_attempts_of claimed <=? attempt)).

(** ** What the executor answered *)

(** How the answer of the executor is completed. *)
Inductive Answer : Type :=
| Good (output : Value)
| Bad (failure : ConnectorFailure) (send : SendOutcome).

Definition judge (claimed : ClaimedActivity) (outcome_ : result ConnectorFailure ConnectorSuccess) : Answer :=
  match outcome_ with
  | Err failure => Bad failure Attempted
  | Ok success =>
      if negb (String.eqb (success_fingerprint success) (j_request_fingerprint (claimed_job claimed))) then
        Bad (ConnectorFailure_new OfInvariant "connector_invariant" "connector returned a mismatched request fingerprint") Answered
      else
        match typed_value (success_output success) with
        | Ok typed =>
            match validate (spec_output (claimed_spec claimed)) typed with
            | Ok _ => Good (success_output success)
            | Err _ => Bad (ConnectorFailure_new OfInvariant "connector_output_contract_violation"
                              "connector output violated its declared operation contract") Answered
            end
        | Err _ => Bad (ConnectorFailure_new OfInvariant "connector_output_contract_violation"
                          "connector output violated its declared operation contract") Answered
        end
  end.

Definition complete (claimed : ClaimedActivity) (answer : Answer) : txn ActivityConsumption :=
  match answer with
  | Good output =>
      done_ ← complete_activity_success claimed output;
      mret (if done_ : bool then ActivitySucceeded (j_instance (claimed_job claimed)) (j_id (claimed_job claimed)) (claimed_attempt claimed) (claimed_generation claimed)
            else stale claimed)
  | Bad failure send => complete_activity_failure_with_retry claimed failure send
  end.
End Work.

(** ** One activity

    The claim, the authorization and the completion are transactions of their
    own, at times of their own; the executor runs between the last two. *)
Section Consume.
Context {serde : Serde} {digest : Digest} {uuids : Uuids} {runtime : ProcessRuntime} {postgres : Postgres} {crates : ActivityCrates}.
Context {Application : Type}.
Variable gen_random_uuid : Database Application -> Uuid.
Variable execute : string -> string -> Value -> string -> Z -> result ConnectorFailure ConnectorSuccess.

Definition consume_one_activity (claim_time authorize_time complete_time : Z) (locked : Uuid -> bool) :
    step (Application := Application) ActivityConsumption := fun db =>
  match claim_one_activity claim_time gen_random_uuid locked db with
  | (Err e, db) => (Err e, db)
  | (Ok ClaimNothing, db) => (Ok ActivityNoWork, db)
  | (Ok (ClaimResolved consumption), db) => (Ok consumption, db)
  | (Ok (ClaimDeferred id), db) => (Ok (ActivityDeferred id), db)
  | (Ok (ClaimTimedOut instance id), db) => (Ok (ScheduleToStartTimedOut instance id), db)
  | (Ok (Claimed claimed), db) =>
      match transaction (authorize_provider_send authorize_time claimed) db with
      | (Err e, db) => (Err e, db)
      | (Ok (Refused failure), db) => transaction (complete complete_time gen_random_uuid claimed (Bad failure NotAttempted)) db
      | (Ok (Authorized key deadline_ms), db) =>
          let job := claimed_job claimed in
          let outcome_ := execute (j_connector job) (j_operation job) (j_input job) key deadline_ms in
          transaction (complete complete_time gen_random_uuid claimed (judge claimed outcome_)) db
      end
  end.
End Consume.
