(* ===== verification/ProcessStart.v ===== *)
(** * Starting processes ([crates/server/src/processes/start.rs])

    [consume_one_start]: the oldest pending request of the source becomes an
    instance of the revision it names, with its start event, unless an instance
    of its idempotency key is there already; the request is settled either way. *)
From S2P Require Import Prelude Json KeyedMap AbiIds RulesSyntax ValueContract ProcessSyntax ProcessInfer ProcessEvaluate ProcessDependencies ProcessFingerprint ProcessDefinition ProcessStates ProcessCompile ProcessTyped ProcessTables ProcessTransition ProcessPrepare ProcessCommit.
Set Warnings "-register-all".

Inductive StartConsumption : Type :=
| StartNoWork
| Started (request_id instance_id : Uuid)
| StartDuplicate (request_id instance_id : Uuid).

Section Start.
Context {serde : Serde} {digest : Digest} {uuids : Uuids} {runtime : ProcessRuntime} {postgres : Postgres} {Application : Type}.
Variable now : Z.
Variable gen_random_uuid : Database Application -> Uuid.
Abbreviation txn := (ProcessTables.txn Application).

(** ** The request *)

(** Pending requests in the order of their creation; SKIP LOCKED leaves out
    those another transaction holds. *)
Definition older (a b : StartRequestRow) : bool :=
  queue_before (t_created_at a, t_id a) (t_created_at b, t_id b).

Definition pending_start (locked : Uuid -> bool) (row : StartRequestRow) : bool :=
  String.eqb (t_source row) runtime_source && bool_decide (t_status row = TPending) && negb (locked (t_id row)).

Definition claim_start (locked : Uuid -> bool) (db : Database Application) : option StartRequestRow :=
  head (order_by older (List.filter (pending_start locked) (start_requests db))).

Definition start_name (request : StartRequestRow) : string :=
  "`" +:+ runtime_source +:+ "." +:+ t_process request +:+ "` revision `" +:+ t_revision request +:+ "`".

(** The definition the request names, with an input of its contract. *)
Definition start_definition (request : StartRequestRow) : outcome CompiledProcessDefinition :=
  definition ← ok_or ("Process start request `" +:+ uuid_to_string (t_id request) +:+ "` references deployed revision `" +:+ runtime_source
                      +:+ "." +:+ t_process request +:+ "` / `" +:+ t_revision request +:+ "` absent from the published Engine snapshot")
                 (revision deployed_catalog (t_process request) (t_revision request));
  if negb (String.eqb (definition_source definition) runtime_source) || negb (String.eqb (definition_name definition) (t_process request))
     || negb (String.eqb (revision_fingerprint_ definition) (t_revision request)) then
    bail ("published Process revision identity does not match start request `" +:+ uuid_to_string (t_id request) +:+ "`")
  else
    typed_input ← map_err (fun error => "decoding input for Process start " +:+ start_name request +:+ ": " +:+ error) (typed_value (t_input request));
    _ ← map_err (fun error => "invalid input for Process start " +:+ start_name request +:+ ": " +:+ ValueContractError_to_string error)
          (validate (definition_input definition) typed_input);
    Ok definition.

(** ** Statements *)

(** [process_instances_caller_context_check] *)
Definition caller_check (row : InstanceRow) : bool :=
  opt_all (fun session => is_object session && fits_column session) (i_caller_session row)
  && match i_caller_role row, i_caller_session row with
     | None, None => true
     | Some role, Some _ => negb (String.eqb role "") && negb (String.eqb role "admin")
     | _, _ => false
     end.

Definition same_start (a b : InstanceRow) : bool :=
  String.eqb (i_source a) (i_source b) && String.eqb (i_process a) (i_process b) && String.eqb (i_start_key a) (i_start_key b).

Definition instance_unique (a b : InstanceRow) : bool :=
  String.eqb (i_source a) (i_source b) && (String.eqb (i_id a) (i_id b) || String.eqb (i_source_request a) (i_source_request b)).

(** INSERT .. ON CONFLICT of the start key DO NOTHING RETURNING id *)
Definition insert_instance (row : InstanceRow) : txn (option Uuid) := fun db =>
  if negb (instance_check row && fits_column (i_input row) && caller_check row) then refused check_violation
  else if existsb (same_start row) (instances db) then Ok (None, db)
  else
    t ← insert_row instance_unique row (instances db);
    Ok (Some (i_id row), with_instances db t).

Definition instance_row (request : StartRequestRow) (start_at : string) (db : Database Application) : InstanceRow :=
  {| i_source := runtime_source; i_id := gen_random_uuid db; i_process := t_process request; i_revision := t_revision request;
     i_source_request := t_id request; i_start_key := t_idempotency_key request; i_status := IRunning; i_current_state := start_at;
     i_input := t_input request; i_state := JObject []; i_version := 0; i_caller_role := t_caller_role request;
     i_caller_session := t_caller_session request; i_terminal_output := None; i_failure := None |}.

Definition start_event (request : StartRequestRow) (instance_id : Uuid) (db : Database Application) : EventRow :=
  {| e_source := runtime_source; e_id := gen_random_uuid db; e_instance := instance_id; e_process := t_process request;
     e_revision := t_revision request; e_kind := "start"; e_payload := t_input request; e_idempotency_key := Some (t_idempotency_key request);
     e_available_at := At now; e_status := EPending; e_attempts := 0; e_created_at := now |}.

Definition append_start_log (request : StartRequestRow) (instance_id : Uuid) (from_state : option string) (to_state outcome_ revision_ : string) :
    txn unit :=
  insert_log {| l_source := runtime_source; l_instance := instance_id; l_event := None; l_job := None; l_attempt := None;
                l_lease_generation := None; l_from_state := from_state; l_to_state := to_state; l_outcome := outcome_; l_revision := revision_;
                l_command_result := None;
                l_redacted_context := JObject [("start_request_id", JString (uuid_to_string (t_id request)));
                                               ("command_invocation_id", JString (uuid_to_string (t_command_invocation request)));
                                               ("effect_position", json_i64 (t_effect_position request))] |}.

Definition append_started_history (request : StartRequestRow) (instance_id : Uuid) (initial_state : string) : txn unit :=
  row ← query (start_event request instance_id);
  _ ← insert_event row;
  append_start_log request instance_id None initial_state "started" (t_revision request).

Definition append_duplicate_history (request : StartRequestRow) (existing : InstanceRow) : txn unit :=
  append_start_log request (i_id existing) (Some (i_current_state existing)) (i_current_state existing) "duplicate_start" (i_revision existing).

Definition settle_request (row : StartRequestRow) (status : StartStatus) (instance_id : Uuid) : StartRequestRow :=
  {| t_source := t_source row; t_id := t_id row; t_process := t_process row; t_revision := t_revision row; t_input := t_input row;
     t_command_invocation := t_command_invocation row; t_effect_position := t_effect_position row; t_idempotency_key := t_idempotency_key row;
     t_status := status; t_instance := Some instance_id; t_created_at := t_created_at row; t_caller_role := t_caller_role row;
     t_caller_session := t_caller_session row |}.

Definition mark_request (request_id instance_id : Uuid) (status : StartStatus) : txn unit :=
  updated ← update_start_requests
    (fun row => String.eqb (t_source row) runtime_source && String.eqb (t_id row) request_id && bool_decide (t_status row = TPending))
    (fun row => settle_request row status instance_id);
  ensure (updated =? 1)%nat ("claimed Process start request `" +:+ runtime_source +:+ "` / `" +:+ uuid_to_string request_id
                             +:+ "` changed before outcome commit").

(** ** One start *)

Definition consume_one_start (locked : Uuid -> bool) : txn StartConsumption :=
  request ← query (claim_start locked);
  match request with
  | None => mret StartNoWork
  | Some request =>
      definition ← lift (fault_of (start_definition request));
      let start_at_ := start_at (ProcessCompile.definition definition) in
      row ← query (instance_row request start_at_);
      inserted ← insert_instance row;
      match inserted with
      | Some instance_id =>
          _ ← append_started_history request instance_id start_at_;
          _ ← mark_request (t_id request) instance_id TConsumed;
          mret (Started (t_id request) instance_id)
      | None =>
          existing ← query (fun db => List.find (same_start row) (instances db));
          existing ← lift (fault_of (ok_or "loading semantically duplicate Process instance" existing));
          _ ← append_duplicate_history request existing;
          _ ← mark_request (t_id request) (i_id existing) TDuplicate;
          mret (StartDuplicate (t_id request) (i_id existing))
      end
  end.
End Start.
