(* ===== verification/ProcessSignal.v ===== *)
(** * Signalling processes ([crates/server/src/processes/signal.rs])

    [consume_one_signal]: the oldest pending signal of the source becomes an
    event of the one instance that waits for it, or is settled as a duplicate,
    as unmatched, as ambiguous or as one that no state expects.  The advisory
    lock on its semantic key and the locks on the candidates delay other
    transactions only, so they leave no trace here. *)
From S2P Require Import Prelude Json KeyedMap AbiIds RulesSyntax ValueContract ProcessSyntax ProcessInfer ProcessEvaluate ProcessDependencies ProcessFingerprint ProcessDefinition ProcessStates ProcessCompile ProcessTyped ProcessTables ProcessTransition ProcessPrepare ProcessCommit.
Set Warnings "-register-all".

Inductive SignalConsumption : Type :=
| SignalNoWork
| SignalAccepted (request_id instance_id event_id : Uuid)
| SignalDuplicate (request_id : Uuid)
| SignalUnmatched (request_id : Uuid)
| SignalAmbiguous (request_id : Uuid)
| SignalGuardFalse (request_id : Uuid)
| SignalUnexpectedState (request_id : Uuid).

Record MatchingCandidate := {
  matching_row : InstanceRow;
  receptive : bool;
  persisted : bool;
}.

(** The text the lock of a semantic key is hashed from. *)
Definition length_prefixed_signal_key (source_name process_name signal_name idempotency_key : string) : string :=
  let part s := show_Z (Z.of_nat (String.length s)) +:+ ":" +:+ s in
  "donat.process.signal.v1:" +:+ part source_name +:+ part process_name +:+ part signal_name +:+ part idempotency_key.

Section Signal.
Context {serde : Serde} {digest : Digest} {uuids : Uuids} {runtime : ProcessRuntime} {postgres : Postgres} {Application : Type}.
Variable now : Z.
Variable gen_random_uuid : Database Application -> Uuid.
Abbreviation Db := (Database Application).
Abbreviation txn := (ProcessTables.txn Application).

(** ** The request *)

Definition older_signal (a b : SignalRequestRow) : bool :=
  queue_before (s_created_at a, s_id a) (s_created_at b, s_id b).

Definition pending_signal (locked : Uuid -> bool) (row : SignalRequestRow) : bool :=
  String.eqb (s_source row) runtime_source && bool_decide (s_status row = SPending) && negb (locked (s_id row)).

Definition claim_signal (locked : Uuid -> bool) (db : Db) : option SignalRequestRow :=
  head (order_by older_signal (List.filter (pending_signal locked) (signal_requests db))).

(** Another request of the same semantic key was settled. *)
Definition signal_duplicate (request : SignalRequestRow) (db : Db) : bool :=
  existsb (fun prior => String.eqb (s_source prior) runtime_source && String.eqb (s_process prior) (s_process request)
    && String.eqb (s_signal prior) (s_signal request) && String.eqb (s_idempotency_key prior) (s_idempotency_key request)
    && negb (String.eqb (s_id prior) (s_id request)) && negb (bool_decide (s_status prior = SPending))) (signal_requests db).

Definition signal_text (request : SignalRequestRow) : string := "Process signal request `" +:+ uuid_to_string (s_id request) +:+ "`".

(** The contract the signal was sent under, which its correlation and payload
    are values of. *)
Definition signal_anchor (request : SignalRequestRow) : outcome CompiledProcessSignal :=
  anchor ← ok_or (signal_text request +:+ " references deployed revision `" +:+ runtime_source +:+ "." +:+ s_process request
                  +:+ "` / `" +:+ s_revision request +:+ "` absent from the published Engine snapshot")
             (revision deployed_catalog (s_process request) (s_revision request));
  if negb (String.eqb (definition_source anchor) runtime_source) || negb (String.eqb (definition_name anchor) (s_process request))
     || negb (String.eqb (revision_fingerprint_ anchor) (s_revision request)) then
    bail ("published Process revision identity does not match signal request `" +:+ uuid_to_string (s_id request) +:+ "`")
  else
    signal ← ok_or (signal_text request +:+ " names absent signal `" +:+ s_signal request +:+ "`")
               (bt_get (definition_signals anchor) (s_signal request));
    _ ← validate_payload (correlation signal) "decoding Process signal request correlation"
          (signal_text request +:+ " has invalid correlation") (s_correlation request);
    _ ← validate_payload (payload signal) "decoding Process signal request payload"
          (signal_text request +:+ " has invalid payload") (s_payload request);
    Ok signal.

(** ** Candidates *)

(** The state waits for the signal. *)
Definition signal_wait (signal_name : string) (state : CompiledProcessState) : option CompiledProcessSignalWait :=
  match compiled_state_operation state with
  | CompiledWait (CompiledSignal wait) => if String.eqb (waited_signal wait) signal_name then Some wait else None
  | _ => None
  end.

Definition wait_states (signal_name : string) (definition : CompiledProcessDefinition) : list string :=
  map fst (List.filter (fun ns : string * CompiledProcessState => is_some (signal_wait signal_name ns.2)) (definition_states definition)).

(** The revisions whose signal has the same contract, with the states that wait
    for it. *)
Definition compatible_wait_states (process_name signal_name contract_fingerprint_ : string) : btree (list string) :=
  bt_collect (map (fun definition => (revision_fingerprint_ definition, wait_states signal_name definition))
    (List.filter (fun definition => String.eqb (definition_name definition) process_name
        && opt_is_some_and (bt_get (definition_signals definition) signal_name)
             (fun signal => String.eqb (contract_fingerprint signal) contract_fingerprint_))
      (map snd (active deployed_catalog) ++ map snd (live_retired deployed_catalog)))).

(** The pending timer of the instance's wait: the latest, if there are more. *)
Definition wait_marker (db : Db) (row : InstanceRow) : option EventRow :=
  let later (a b : EventRow) := queue_before (- e_created_at a, e_id a) (- e_created_at b, e_id b) in
  head (order_by later (List.filter (fun event =>
    String.eqb (e_source event) (i_source row) && String.eqb (e_instance event) (i_id row) && String.eqb (e_kind event) "timer"
    && bool_decide (e_status event = EPending) && str_is (jsonb_text (e_payload event) "wait_state") (i_current_state row)
    && str_is (jsonb_text (e_payload event) "wait_version") (show_Z (i_version row))) (events db))).

(** The running instances of the compatible revisions, in the order of their ids. *)
Definition signal_candidates (waits : btree (list string)) (request : SignalRequestRow) (db : Db) : list InstanceRow :=
  let state_names := concat (map snd waits) in
  order_by (fun a b => match String.compare (i_id a) (i_id b) with Gt => false | _ => true end)
    (List.filter (fun row => String.eqb (i_source row) runtime_source && String.eqb (i_process row) (s_process request)
       && bool_decide (i_status row = IRunning) && existsb (String.eqb (i_revision row)) (map fst waits)
       && existsb (String.eqb (i_current_state row)) state_names) (instances db)).

(** The values of a binding at the time of the statement. *)
Definition candidate_context (row : InstanceRow) : ProcessValueContext :=
  {| source_name := runtime_source; instance_id := i_id row; ctx_input := i_input row; ctx_state := i_state row;
     caller_session := i_caller_session row; ctx_workflow_time := JString (timestamptz_text (At now));
     ctx_item := None; ctx_item_key := None |}.

(** The marker is one of this signal and of a wait that was not over. *)
Definition marker_matches (request : SignalRequestRow) (marker : option EventRow) : bool :=
  opt_is_some_and marker (fun event => instant_le (At (s_created_at request)) (e_available_at event)
    && str_is (get_str (e_payload event) "signal_name") (s_signal request)
    && opt_is_some_and (json_get (e_payload event) "correlation") (fun v => value_eqb v (s_correlation request))).

Definition entered_before_request (request : SignalRequestRow) (marker : option EventRow) : bool :=
  opt_is_some_and marker (fun event => e_created_at event <=? s_created_at request).

(** A candidate whose correlation is the one of the request. *)
Definition matching_candidate (waits : btree (list string)) (request : SignalRequestRow) (db : Db) (row : InstanceRow) :
    outcome (option MatchingCandidate) :=
  definition ← ok_or ("locked Process signal candidate references absent revision `" +:+ i_revision row +:+ "`")
                 (revision deployed_catalog (s_process request) (i_revision row));
  if negb (opt_is_some_and (bt_get waits (i_revision row)) (existsb (String.eqb (i_current_state row)))) then Ok None
  else
    wait ← ok_or ("compiled signal wait `" +:+ i_current_state row +:+ "` disappeared from revision `" +:+ i_revision row +:+ "`")
             (state ← bt_get (definition_states definition) (i_current_state row); signal_wait (s_signal request) state);
    expected ← evaluate_correlation (waited_correlate wait) (candidate_context row);
    if negb (value_eqb expected (s_correlation request)) then Ok None
    else
      let marker := wait_marker db row in
      Ok (Some {| matching_row := row;
                  receptive := marker_matches request marker && entered_before_request request marker;
                  persisted := marker_matches request marker && negb (entered_before_request request marker)
                               && waited_persist_before_match wait |}).

Fixpoint matching_candidates (waits : btree (list string)) (request : SignalRequestRow) (db : Db) (rows : list InstanceRow) :
    outcome (list MatchingCandidate) :=
  match rows with
  | [] => Ok []
  | row :: rows =>
      candidate ← matching_candidate waits request db row;
      candidates ← matching_candidates waits request db rows;
      Ok (option_list candidate ++ candidates)
  end.

(** Those that waited when the signal was sent; when there are none, those that
    declared to take one that was sent before. *)
Definition receptive_candidates (matching : list MatchingCandidate) : list MatchingCandidate :=
  match List.filter receptive matching with
  | [] => List.filter persisted matching
  | receptive => receptive
  end.

(** Instances that waited for this correlation at some time. *)
Definition historical_targets (waits : btree (list string)) (request : SignalRequestRow) (db : Db) : list Uuid :=
  map e_instance (List.filter (fun event =>
    String.eqb (e_source event) runtime_source && has_instance db (e_source event) (e_instance event)
    && String.eqb (e_process event) (s_process request) && existsb (String.eqb (e_revision event)) (map fst waits)
    && String.eqb (e_kind event) "timer" && is_some (json_get (e_payload event) "signal_name")
    && jsonb_contains (e_payload event) (JObject [("signal_name", JString (s_signal request)); ("correlation", s_correlation request)]))
    (events db)).

Definition known_targets (waits : btree (list string)) (request : SignalRequestRow) (matching : list MatchingCandidate) (db : Db) : list Uuid :=
  remove_dups (map (fun c => i_id (matching_row c)) matching
    ++ match receptive_candidates matching, waits with
       | [], _ :: _ => historical_targets waits request db
       | _, _ => []
       end).

(** ** Statements *)

Definition signal_event (request : SignalRequestRow) (row : InstanceRow) (db : Db) : EventRow :=
  {| e_source := runtime_source; e_id := gen_random_uuid db; e_instance := i_id row; e_process := s_process request;
     e_revision := i_revision row; e_kind := "signal";
     e_payload := JObject [("wait_state", JString (i_current_state row)); ("wait_version", json_i64 (i_version row));
                           ("signal_name", JString (s_signal request)); ("correlation", s_correlation request);
                           ("payload", s_payload request); ("signal_request_id", JString (uuid_to_string (s_id request)))];
     e_idempotency_key := Some ("signal-request:" +:+ uuid_to_string (s_id request)); e_available_at := At (s_created_at request);
     e_status := EPending; e_attempts := 0; e_created_at := now |}.

Definition append_signal_event (request : SignalRequestRow) (candidate : MatchingCandidate) : txn Uuid :=
  row ← query (signal_event request (matching_row candidate)); insert_event row.

Definition settle_signal (row : SignalRequestRow) (status : RequestStatus) : SignalRequestRow :=
  {| s_source := s_source row; s_id := s_id row; s_process := s_process row; s_revision := s_revision row; s_signal := s_signal row;
     s_correlation := s_correlation row; s_payload := s_payload row; s_idempotency_key := s_idempotency_key row;
     s_status := status; s_created_at := s_created_at row |}.

Definition mark_signal_request (request_id : Uuid) (status : RequestStatus) : txn unit :=
  updated ← update_signal_requests
    (fun row => String.eqb (s_source row) runtime_source && String.eqb (s_id row) request_id && bool_decide (s_status row = SPending))
    (fun row => settle_signal row status);
  ensure (updated =? 1)%nat ("claimed Process signal request `" +:+ runtime_source +:+ "` / `" +:+ uuid_to_string request_id
                             +:+ "` changed before outcome commit").

(** ** One signal *)

Definition deliver_signal (request : SignalRequestRow) (candidates : list MatchingCandidate) (targets : list Uuid) : txn SignalConsumption :=
  match candidates with
  | [] =>
      match targets with
      | [] => _ ← mark_signal_request (s_id request) SUnmatched; mret (SignalUnmatched (s_id request))
      | [_] => _ ← mark_signal_request (s_id request) SUnexpectedState; mret (SignalUnexpectedState (s_id request))
      | _ => _ ← mark_signal_request (s_id request) SAmbiguous; mret (SignalAmbiguous (s_id request))
      end
  | [candidate] =>
      event_id ← append_signal_event request candidate;
      _ ← mark_signal_request (s_id request) SConsumed;
      mret (SignalAccepted (s_id request) (i_id (matching_row candidate)) event_id)
  | _ => _ ← mark_signal_request (s_id request) SAmbiguous; mret (SignalAmbiguous (s_id request))
  end.

Definition match_signal (request : SignalRequestRow) : txn SignalConsumption :=
  signal ← lift (fault_of (signal_anchor request));
  let waits := compatible_wait_states (s_process request) (s_signal request) (contract_fingerprint signal) in
  rows ← query (signal_candidates waits request);
  matching ← (fun db => lift (fault_of (matching_candidates waits request db rows)) db);
  targets ← query (known_targets waits request matching);
  deliver_signal request (receptive_candidates matching) targets.

Definition consume_one_signal (locked : Uuid -> bool) : txn SignalConsumption :=
  request ← query (claim_signal locked);
  match request with
  | None => mret SignalNoWork
  | Some request =>
      duplicate ← query (signal_duplicate request);
      if duplicate : bool then
        _ ← mark_signal_request (s_id request) SDuplicate; mret (SignalDuplicate (s_id request))
      else match_signal request
  end.
End Signal.
