(* ===== verification/ProcessJournal.v ===== *)
(** * What a transition may change ([crates/server/src/processes/transition.rs])

    A transition adds rows and moves the rows of its own instance forward: an
    event is settled once, a version only grows, an item goes from pending to
    scheduled to finished, and a log row is never changed.  [journaled] is that
    relation between the database before and after; every statement of
    [ProcessCommit] is within it, and it composes along a transaction. *)
From S2P Require Import Prelude Json KeyedMap AbiIds RulesSyntax ValueContract ProcessSyntax ProcessInfer ProcessEvaluate ProcessDependencies ProcessFingerprint ProcessDefinition ProcessStates ProcessCompile ProcessTyped ProcessTables ProcessTransition ProcessPrepare ProcessCommit.
Set Warnings "-register-all".

(** ** Tables *)

(** The rows of a table are kept in a relation, and rows are added at its end. *)
Definition table_step {R} (keep : R -> R -> Prop) (own : R -> Prop) (old new : list R) : Prop :=
  exists kept added, new = kept ++ added /\ Forall2 keep old kept /\ Forall own added.

(** No two rows conflict. *)
Definition keyed_table {R} (conflicts : R -> R -> bool) (table : list R) : Prop :=
  forall i j a b, table !! i = Some a -> table !! j = Some b -> i <> j -> conflicts a b = false.

Section Tables.
Context {R : Type} {keep : R -> R -> Prop} {own : R -> Prop} {conflicts : R -> R -> bool}.
Context (Hrefl : forall r, keep r r) (Htrans : forall a b c, keep a b -> keep b c -> keep a c).
Context (Hown : forall a b, keep a b -> own a -> own b).

Lemma table_step_refl old : table_step keep own old old.
Proof using Hrefl.
  exists old, []. rewrite app_nil_r. repeat split; [|constructor]. clear Htrans Hown. induction old; constructor; auto.
Qed.

Lemma table_step_trans a b c : table_step keep own a b -> table_step keep own b c -> table_step keep own a c.
Proof using Htrans Hown.
  intros (k1 & a1 & -> & Hk1 & Ha1) (k2 & a2 & -> & Hk2 & Ha2).
  apply Forall2_app_inv_l in Hk2 as (k & e & Hx & Hy & ->).
  exists k, (e ++ a2). rewrite app_assoc. split; [done|]. split.
  - clear Hy Ha1 Ha2. revert k Hx. induction Hk1; intros k Hx; inversion Hx; subst; constructor; eauto.
  - apply Forall_app. split; [|done]. clear Hk1 Hx Ha2. induction Hy; [constructor|]. inversion Ha1; subst. constructor; eauto.
Qed.

Lemma table_step_map (set : R -> R) old : (forall r, In r old -> keep r (set r)) -> table_step keep own old (map set old).
Proof using Type.
  intros H. exists (map set old), []. rewrite app_nil_r. repeat split; [|constructor].
  induction old; constructor; [apply H; by left|]. apply IHold. intros r Hr. apply H. by right.
Qed.

Lemma table_step_add old row : own row -> table_step keep own old (old ++ [row]).
Proof using Hrefl.
  intros H. exists old, [row]. repeat split; [|by repeat constructor]. clear Htrans Hown. induction old; constructor; auto.
Qed.

(** Keys: an insertion checks them, an update that leaves the columns of the
    keys leaves them distinct. *)
Context (Hkeys : forall a b a' b', keep a a' -> keep b b' -> conflicts a' b' = conflicts a b).

Lemma keyed_map (set : R -> R) old : (forall r, In r old -> keep r (set r)) -> keyed_table conflicts old -> keyed_table conflicts (map set old).
Proof using Hkeys.
  intros Hset Hk i j a b Ha Hb Hij.
  rewrite list_lookup_fmap in Ha, Hb. destruct (old !! i) as [a0|] eqn:Ea; [|done]. destruct (old !! j) as [b0|] eqn:Eb; [|done].
  injection Ha as <-. injection Hb as <-.
  assert (Hin : forall k r, old !! k = Some r -> In r old) by (intros k r H; apply list_elem_of_In, list_elem_of_lookup; eauto).
  rewrite (Hkeys a0 b0 (set a0) (set b0)); eauto.
Qed.

Lemma keyed_add old row : (forall a b, conflicts a b = conflicts b a) -> existsb (conflicts row) old = false ->
  keyed_table conflicts old -> keyed_table conflicts (old ++ [row]).
Proof using Type.
  intros Hsym Hno Hk i j a b Ha Hb Hij.
  assert (Hrow : forall r, In r old -> conflicts row r = false).
  { intros r Hr. destruct (conflicts row r) eqn:E; [|done]. exfalso. apply Bool.diff_true_false. rewrite <- Hno. symmetry.
    apply existsb_exists. eauto. }
  assert (Hin : forall k r, old !! k = Some r -> In r old) by (intros k r H; apply list_elem_of_In, list_elem_of_lookup; eauto).
  destruct (decide (i < List.length old)%nat) as [Hi|Hi]; destruct (decide (j < List.length old)%nat) as [Hj|Hj].
  - rewrite lookup_app_l in Ha, Hb by done. eauto.
  - rewrite lookup_app_l in Ha by done. rewrite lookup_app_r in Hb by lia.
    destruct (j - List.length old)%nat; [|done]. injection Hb as <-. rewrite Hsym. eauto.
  - rewrite lookup_app_l in Hb by done. rewrite lookup_app_r in Ha by lia.
    destruct (i - List.length old)%nat; [|done]. injection Ha as <-. eauto.
  - rewrite lookup_app_r in Ha, Hb by lia. destruct (i - List.length old)%nat eqn:E1; [|done]. destruct (j - List.length old)%nat eqn:E2; [|done]. lia.
Qed.

(** A row of a key is the only one of it. *)
Lemma keyed_unique old a b : keyed_table conflicts old -> In a old -> In b old -> conflicts a b = true -> a = b.
Proof using Type.
  intros Hk Ha Hb Hc. apply list_elem_of_In, list_elem_of_lookup in Ha as [i Ha]. apply list_elem_of_In, list_elem_of_lookup in Hb as [j Hb].
  destruct (decide (i = j)) as [->|Hij]; [congruence|]. specialize (Hk i j a b Ha Hb Hij). congruence.
Qed.
End Tables.

Lemma update_rows_map {R} (w : R -> bool) (set : R -> R) table n t : update_rows w set table = (n, t) ->
  n = List.length (List.filter w table) /\ t = map (fun r => if w r then set r else r) table.
Proof. by intros [= <- <-]. Qed.

Lemma insert_by_perm {R} (before : R -> R -> bool) x l : Permutation (insert_by before x l) (x :: l).
Proof.
  induction l as [|y l IH]; cbn; [done|]. destruct (before y x); [|done]. rewrite IH. apply perm_swap.
Qed.

Lemma order_by_perm {R} (before : R -> R -> bool) rows : Permutation (order_by before rows) rows.
Proof.
  unfold order_by. rewrite (Permutation_rev rows) at 2. induction (rev rows) as [|x l IH]; cbn; [done|]. by rewrite insert_by_perm, IH.
Qed.

Lemma order_by_iff {R} (before : R -> R -> bool) rows r : In r (order_by before rows) <-> In r rows.
Proof. split; apply Permutation_in; [|symmetry]; apply order_by_perm. Qed.

Lemma order_by_In {R} (before : R -> R -> bool) rows r : In r (order_by before rows) -> In r rows.
Proof. by rewrite order_by_iff. Qed.

Section Order.
Context {R : Type} (before : R -> R -> bool).
Hypothesis total : forall a b, before a b = false -> before b a = true.
Hypothesis transitive : forall a b c, before a b = true -> before b c = true -> before a c = true.

(** The first row of a query is before every other. *)
Lemma order_by_head rows r : head (order_by before rows) = Some r -> In r rows /\ forall r', In r' rows -> before r r' = true.
Proof using total transitive.
  intros H. assert (Hin : In r rows) by (apply (order_by_In before); destruct (order_by before rows); [done|injection H as ->; by left]). split; [done|].
  assert (Hrefl : forall a, before a a = true) by (intros a; destruct (before a a) eqn:E; [done|]; by rewrite (total _ _ E) in E).
  unfold order_by in H. intros r' Hr'. rewrite in_rev in Hr'. clear Hin. revert r r' H Hr'. induction (rev rows) as [|x l IH]; intros r r' H Hr'; [done|].
  assert (Hmem : forall z, In z (fold_right (insert_by before) [] l) <-> In z l).
  { clear. intros z. induction l as [|w l IH]; cbn; [done|]. rewrite (insert_by_perm before w). cbn. by rewrite IH. }
  cbn [fold_right] in H. destruct (fold_right (insert_by before) [] l) as [|y s] eqn:E; cbn in H.
  - injection H as <-. destruct Hr' as [->|Hr']; [done|]. by apply Hmem in Hr'.
  - assert (Hy : forall z, In z l -> before y z = true) by (intros z Hz; by apply (IH y z)).
    destruct (before y x) eqn:Eyx; injection H as <-.
    + destruct Hr' as [<-|Hr']; auto.
    + destruct Hr' as [<-|Hr']; [done|]. eauto.
Qed.
End Order.

Lemma queue_before_total a b : queue_before a b = false -> queue_before b a = true.
Proof.
  unfold queue_before. rewrite (Z.eqb_sym b.1). destruct (Z.eqb_spec a.1 b.1) as [_|Hne]; [|rewrite Z.ltb_ge, Z.ltb_lt; lia].
  rewrite (str_compare_antisym a.2 b.2). by destruct (String.compare a.2 b.2).
Qed.

Lemma queue_before_trans a b c : queue_before a b = true -> queue_before b c = true -> queue_before a c = true.
Proof.
  destruct a as [x i], b as [y j], c as [z k]. unfold queue_before. cbn [fst snd].
  destruct (Z.eqb_spec x y), (Z.eqb_spec y z), (Z.eqb_spec x z); rewrite ?Z.ltb_lt; try lia.
  destruct (String.compare i j) eqn:E1; [apply String.compare_eq_iff in E1 as ->; done| |done].
  destruct (String.compare j k) eqn:E2; [apply String.compare_eq_iff in E2 as <-; by rewrite E1| |done].
  by rewrite (str_lt_trans _ _ _ E1 E2).
Qed.

(** ** Transactions *)

Section Runs.
Context {Application : Type}.
Abbreviation Db := (Database Application).
Abbreviation txn := (ProcessTables.txn Application).

Lemma txn_bind_Ok {A B} (m : txn A) (f : A -> txn B) db b db' : (m ≫= f) db = Ok (b, db') ->
  exists a db1, m db = Ok (a, db1) /\ f a db1 = Ok (b, db').
Proof. unfold mbind, txn_bind. destruct (m db) as [[a db1]|e]; [eauto|done]. Qed.

Lemma txn_lift_Ok {A} (m : attempt A) (db db' : Db) a : lift m db = Ok (a, db') -> m = Ok a /\ db' = db.
Proof. unfold lift. destruct m; [intros [= <- <-]; done|done]. Qed.

Lemma query_Ok {A} (f : Db -> A) db a db' : query f db = Ok (a, db') -> a = f db /\ db' = db.
Proof. by intros [= <- <-]. Qed.

Lemma ensure_Ok b message (db db' : Db) u : ensure b message db = Ok (u, db') -> b = true /\ db' = db.
Proof. unfold ensure. intros H. apply txn_lift_Ok in H as [H ->]. by destruct b. Qed.

Lemma ret_Ok {A} (a b : A) (db db' : Db) : (mret a : txn A) db = Ok (b, db') -> b = a /\ db' = db.
Proof. by intros [= <- <-]. Qed.
End Runs.

(** Taking the run of a transaction apart. *)
Ltac run H := lazymatch type of H with
  | mbind _ _ _ = Ok _ => let a := fresh "a" in let db1 := fresh "db" in let H1 := fresh "Hrun" in
      apply txn_bind_Ok in H as (a & db1 & H1 & H); run H1; run H
  | lift _ _ = Ok _ => let E := fresh "E" in apply txn_lift_Ok in H as [E H]; try subst
  | query _ _ = Ok _ => let E := fresh "E" in apply query_Ok in H as [E H]; try subst
  | ensure _ _ _ = Ok _ => let E := fresh "E" in apply ensure_Ok in H as [E H]; try subst
  | mret _ _ = Ok _ => let E := fresh "E" in apply ret_Ok in H as [E H]; try subst
  | _ => idtac
  end.

(** ** The journal *)

Section Journal.
Context {serde : Serde} {digest : Digest} {uuids : Uuids} {runtime : ProcessRuntime} {postgres : Postgres} {Application : Type}.
Abbreviation Db := (Database Application).
Abbreviation txn := (ProcessTables.txn Application).
Variable instance : Uuid.
Variable event : Uuid.

(** A running instance may move to a later version; its definition, its input
    and its caller stay. *)
Definition instance_keep (r r' : InstanceRow) : Prop :=
  r' = r \/ (i_source r = runtime_source /\ i_id r = instance /\ i_status r = IRunning /\ i_version r < i_version r'
             /\ exists status state journal version terminal_output failure,
                  r' = set_instance r status state journal version terminal_output failure).

(** A pending event may be settled, once. *)
Definition own_event (r : EventRow) : Prop := e_source r = runtime_source /\ (e_id r = event \/ e_instance r = instance).
Definition event_keep (r r' : EventRow) : Prop :=
  r' = r \/ (own_event r /\ e_status r = EPending /\ exists status, status <> EPending
             /\ r' = set_event r status (e_attempts r + 1) (e_available_at r)).

(** A job that is scheduled may become due. *)
Definition unleased (r : JobRow) : Prop :=
  j_status r = JScheduled /\ j_attempts r = 0 /\ j_lease_generation r = 0 /\ j_lease_token r = None.
Definition own_job (r : JobRow) : Prop := j_source r = runtime_source /\ j_instance r = instance /\ unleased r.
Definition job_keep (r r' : JobRow) : Prop :=
  r' = r \/ (j_source r = runtime_source /\ j_status r = JScheduled /\ exists now deadline, r' = set_job_due now r deadline).

Definition item_rank (status : ItemStatus) : Z := match status with FPending => 0 | FScheduled => 1 | _ => 2 end.

(** An item goes on from pending to scheduled to finished. *)
Definition own_item (r : ItemRow) : Prop := f_source r = runtime_source /\ f_instance r = instance.
Definition item_keep (r r' : ItemRow) : Prop :=
  r' = r \/ (own_item r /\ item_rank (f_status r) < item_rank (f_status r')
             /\ exists status result_ failure, r' = set_item r status result_ failure).

Definition own_log (r : LogRow) : Prop := l_source r = runtime_source /\ l_instance r = instance /\ l_event r = Some event.

(** A request that matched nothing may be offered again. *)
Definition request_keep (r r' : SignalRequestRow) : Prop :=
  r' = r \/ (s_source r = runtime_source /\ s_status r = SUnmatched
             /\ r' = {| s_source := s_source r; s_id := s_id r; s_process := s_process r; s_revision := s_revision r; s_signal := s_signal r;
                        s_correlation := s_correlation r; s_payload := s_payload r; s_status := SPending; s_idempotency_key := s_idempotency_key r; s_created_at := s_created_at r |}).

(** The unique keys of the tables. *)
Definition keyed_db (db : Db) : Prop :=
  keyed_table event_conflicts (events db) /\ keyed_table job_conflicts (jobs db)
  /\ keyed_table item_conflicts (items db) /\ keyed_table log_conflicts (logs db).

(** From [db] to [db'] the tables only grow and move forward; the application
    and its outbox change only when a command ran. *)
Record journaled (command : bool) (db db' : Db) : Prop := {
  journaled_keys : keyed_db db';
  journaled_instances : table_step instance_keep (fun _ => False) (instances db) (instances db');
  journaled_events : table_step event_keep own_event (events db) (events db');
  journaled_jobs : table_step job_keep own_job (jobs db) (jobs db');
  journaled_items : table_step item_keep own_item (items db) (items db');
  journaled_logs : table_step eq own_log (logs db) (logs db');
  journaled_requests : command = false -> table_step request_keep (fun _ => False) (signal_requests db) (signal_requests db');
  journaled_starts : command = false -> start_requests db' = start_requests db;
  journaled_application : command = false -> application db' = application db;
  journaled_leases : provider_steps db' = provider_steps db /\ reservations db' = reservations db /\ buckets db' = buckets db;
}.

Lemma instance_keep_trans a b c : instance_keep a b -> instance_keep b c -> instance_keep a c.
Proof using Type.
  intros [->|H1] [->|H2]; [by left|by right|by right|]. destruct H1 as (Hs & Hi & Hr & Hv & s1 & c1 & j1 & v1 & t1 & f1 & ->), H2 as (_ & _ & _ & Hv' & s2 & c2 & j2 & v2 & t2 & f2 & ->).
  right. cbn in *. repeat split; [done..|lia|]. by exists s2, c2, j2, v2, t2, f2.
Qed.

Lemma event_keep_trans a b c : event_keep a b -> event_keep b c -> event_keep a c.
Proof using Type.
  intros [->|H1] [->|H2]; [by left|by right|by right|]. destruct H1 as (Ho & Hp & s1 & Hs1 & ->), H2 as (_ & Hp' & s2 & Hs2 & ->).
  cbn in Hp'. by destruct Hs1.
Qed.

Lemma job_keep_trans a b c : job_keep a b -> job_keep b c -> job_keep a c.
Proof using Type.
  intros [->|H1] [->|H2]; [by left|by right|by right|]. destruct H1 as (Ho & Hp & n1 & d1 & ->), H2 as (_ & _ & n2 & d2 & ->).
  right. repeat split; [done..|]. by exists n2, d2.
Qed.

Lemma item_keep_trans a b c : item_keep a b -> item_keep b c -> item_keep a c.
Proof using Type.
  intros [->|H1] [->|H2]; [by left|by right|by right|]. destruct H1 as (Ho & Hr & s1 & r1 & f1 & ->), H2 as (_ & Hr' & s2 & r2 & f2 & ->).
  right. cbn in *. split; [done|]. split; [lia|]. by exists s2, r2, f2.
Qed.

Lemma request_keep_trans a b c : request_keep a b -> request_keep b c -> request_keep a c.
Proof using Type.
  intros [->|H1] [->|H2]; [by left|by right|by right|]. destruct H1 as (Hs & Hu & ->), H2 as (_ & Hu' & ->).
  done.
Qed.

Lemma own_event_keep a b : event_keep a b -> own_event a -> own_event b.
Proof using Type. by intros [->|(Ho & _ & s & _ & ->)]. Qed.
Lemma own_job_keep a b : job_keep a b -> own_job a -> own_job b.
Proof using Type. by intros [->|(_ & _ & n & d & ->)]. Qed.
Lemma own_item_keep a b : item_keep a b -> own_item a -> own_item b.
Proof using Type. by intros [->|(Ho & _ & s & r & f & ->)]. Qed.

Lemma event_keep_keys a b a' b' : event_keep a a' -> event_keep b b' -> event_conflicts a' b' = event_conflicts a b.
Proof using Type. by intros [->|(_ & _ & s & _ & ->)] [->|(_ & _ & s' & _ & ->)]. Qed.
Lemma job_keep_keys a b a' b' : job_keep a a' -> job_keep b b' -> job_conflicts a' b' = job_conflicts a b.
Proof using Type. by intros [->|(_ & _ & n & d & ->)] [->|(_ & _ & n' & d' & ->)]. Qed.
Lemma item_keep_keys a b a' b' : item_keep a a' -> item_keep b b' -> item_conflicts a' b' = item_conflicts a b.
Proof using Type. by intros [->|(_ & _ & s & r & f & ->)] [->|(_ & _ & s' & r' & f' & ->)]. Qed.

Lemma same_key_sym a b : same_key a b = same_key b a.
Proof using Type. destruct a, b; cbn; [apply String.eqb_sym|done..]. Qed.
Lemma same_number_sym a b : same_number a b = same_number b a.
Proof using Type. destruct a, b; cbn; [apply Z.eqb_sym|done..]. Qed.

Lemma event_conflicts_sym a b : event_conflicts a b = event_conflicts b a.
Proof using Type.
  unfold event_conflicts. by rewrite (String.eqb_sym (e_source a)), (String.eqb_sym (e_id a)), (String.eqb_sym (e_process a)),
    (String.eqb_sym (e_revision a)), (String.eqb_sym (e_kind a)), same_key_sym.
Qed.
Lemma job_conflicts_sym a b : job_conflicts a b = job_conflicts b a.
Proof using Type.
  unfold job_conflicts. by rewrite (String.eqb_sym (j_source a)), (String.eqb_sym (j_id a)), (String.eqb_sym (j_instance a)),
    (String.eqb_sym (j_logical_activity_id a)).
Qed.
Lemma item_conflicts_sym a b : item_conflicts a b = item_conflicts b a.
Proof using Type.
  unfold item_conflicts. by rewrite (String.eqb_sym (f_source a)), (String.eqb_sym (f_instance a)), (String.eqb_sym (f_state a)),
    (Z.eqb_sym (f_ordinal a)), (String.eqb_sym (f_item_key_identity a)), same_key_sym.
Qed.
Lemma log_conflicts_sym a b : log_conflicts a b = log_conflicts b a.
Proof using Type.
  unfold log_conflicts. by rewrite (String.eqb_sym (l_source a)), (String.eqb_sym (l_instance a)), (same_key_sym (l_event a)),
    (same_key_sym (l_job a)), (same_number_sym (l_attempt a)), (same_number_sym (l_lease_generation a)), (String.eqb_sym (l_outcome a)).
Qed.

Lemma journaled_refl command db : keyed_db db -> journaled command db db.
Proof using Type.
  intros H. split; [done|..|by repeat split]; try (intros _; done); try (intros _); apply table_step_refl; intros r; try (by left); done.
Qed.

Lemma journaled_trans command a b c : journaled command a b -> journaled command b c -> journaled command a c.
Proof using Type.
  intros [K1 I1 E1 J1 F1 L1 R1 S1 A1 (P1 & Q1 & B1)] [K2 I2 E2 J2 F2 L2 R2 S2 A2 (P2 & Q2 & B2)]. split; [done|..].
  - exact (table_step_trans instance_keep_trans (fun _ _ _ (H : False) => H) _ _ _ I1 I2).
  - exact (table_step_trans event_keep_trans own_event_keep _ _ _ E1 E2).
  - exact (table_step_trans job_keep_trans own_job_keep _ _ _ J1 J2).
  - exact (table_step_trans item_keep_trans own_item_keep _ _ _ F1 F2).
  - refine (table_step_trans _ _ _ _ _ L1 L2); [intros; congruence|by intros ? ? ->].
  - intros Hc. exact (table_step_trans request_keep_trans (fun _ _ _ (H : False) => H) _ _ _ (R1 Hc) (R2 Hc)).
  - intros Hc. by rewrite (S2 Hc), (S1 Hc).
  - intros Hc. by rewrite (A2 Hc), (A1 Hc).
  - by rewrite P2, Q2, B2.
Qed.

(** ** What respects the journal *)

Definition respects {A} (command : bool) (m : txn A) : Prop :=
  forall db a db', keyed_db db -> m db = Ok (a, db') -> journaled command db db'.

Lemma journal_bind {A B} command (m : txn A) (f : A -> txn B) :
  respects command m -> (forall a, respects command (f a)) -> respects command (m ≫= f).
Proof using Type.
  intros Hm Hf db b db' Hk H. apply txn_bind_Ok in H as (a & db1 & H1 & H2).
  pose proof (Hm _ _ _ Hk H1) as J1. exact (journaled_trans _ _ _ _ J1 (Hf _ _ _ _ (journaled_keys _ _ _ J1) H2)).
Qed.

Lemma journal_lift {A} command (m : attempt A) : respects command (lift m).
Proof using Type. intros db a db' Hk H. apply txn_lift_Ok in H as [_ ->]. by apply journaled_refl. Qed.
Lemma respects_query {A} command (f : Db -> A) : respects command (query f).
Proof using Type. intros db a db' Hk H. apply query_Ok in H as [_ ->]. by apply journaled_refl. Qed.
Lemma journal_ret {A} command (a : A) : respects command (mret a : txn A).
Proof using Type. intros db b db' Hk H. apply ret_Ok in H as [_ ->]. by apply journaled_refl. Qed.
Lemma respects_ensure command b message : respects command (ensure b message : txn unit).
Proof using Type. apply journal_lift. Qed.

(** *** Statements *)

Lemma keep_if {R} (keep : R -> R -> Prop) (Hrefl : forall r, keep r r) w set table :
  (forall r, In r table -> w r = true -> keep r (set r)) -> forall r, In r table -> keep r (if w r then set r else r).
Proof using Type. intros H r Hr. destruct (w r) eqn:E; auto. Qed.

Lemma insert_row_Ok {R} (conflicts : R -> R -> bool) row table t : insert_row conflicts row table = Ok t ->
  existsb (conflicts row) table = false /\ t = table ++ [row].
Proof using Type. unfold insert_row. destruct (existsb (conflicts row) table); [done|]. by intros [= <-]. Qed.

Ltac untouched := intros; try (apply table_step_refl; intros ?; try (by left); done); try done.

Lemma respects_update_instances command w set : (forall r, w r = true -> instance_keep r (set r)) -> respects command (update_instances w set).
Proof using Type.
  intros Hset db n db' Hk H. unfold update_instances, checked_update in H. destruct (forallb _ _); [|done]. injection H as <- <-.
  split; cbn; untouched. apply table_step_map, keep_if; [by left|auto].
Qed.

Lemma update_events_journaled command w set (db db' : Db) n : keyed_db db -> (forall r, In r (events db) -> w r = true -> event_keep r (set r)) ->
  update_events w set db = Ok (n, db') -> journaled command db db'.
Proof using Type.
  intros Hk Hset [= <- <-]. pose proof (keep_if event_keep (fun r => or_introl eq_refl) w set (events db) Hset) as Hkeep.
  split; cbn; untouched; [|by apply table_step_map].
  destruct Hk as (Ke & Kj & Kf & Kl). repeat split; cbn; try done. by apply (keyed_map event_keep_keys).
Qed.

Lemma update_jobs_journaled command w set (db db' : Db) n : keyed_db db -> (forall r, In r (jobs db) -> w r = true -> job_keep r (set r)) ->
  update_jobs w set db = Ok (n, db') -> journaled command db db'.
Proof using Type.
  intros Hk Hset [= <- <-]. pose proof (keep_if job_keep (fun r => or_introl eq_refl) w set (jobs db) Hset) as Hkeep.
  split; cbn; untouched; [|by apply table_step_map].
  destruct Hk as (Ke & Kj & Kf & Kl). repeat split; cbn; try done. by apply (keyed_map job_keep_keys).
Qed.

Lemma update_items_journaled command w set (db db' : Db) n : keyed_db db -> (forall r, In r (items db) -> w r = true -> item_keep r (set r)) ->
  update_items w set db = Ok (n, db') -> journaled command db db'.
Proof using Type.
  intros Hk Hset H. unfold update_items, checked_update in H. destruct (forallb _ _); [|done]. injection H as <- <-.
  pose proof (keep_if item_keep (fun r => or_introl eq_refl) w set (items db) Hset) as Hkeep.
  split; cbn; untouched; [|by apply table_step_map].
  destruct Hk as (Ke & Kj & Kf & Kl). repeat split; cbn; try done. by apply (keyed_map item_keep_keys).
Qed.

Lemma insert_event_Ok row (db db' : Db) id : insert_event row db = Ok (id, db') ->
  existsb (event_conflicts row) (events db) = false /\ id = e_id row /\ db' = with_events db (events db ++ [row]).
Proof using Type.
  unfold insert_event. destruct (negb _); [done|]. destruct (insert_row _ _ _) as [t|] eqn:E; [|done].
  apply insert_row_Ok in E as [E ->]. cbn [mbind result_bind]. destruct (negb _); [done|]. by intros [= <- <-].
Qed.

Lemma insert_job_Ok row (db db' : Db) id : insert_job row db = Ok (id, db') ->
  existsb (job_conflicts row) (jobs db) = false /\ id = j_id row /\ db' = with_jobs db (jobs db ++ [row]).
Proof using Type.
  unfold insert_job. destruct (negb _); [done|]. destruct (insert_row _ _ _) as [t|] eqn:E; [|done].
  apply insert_row_Ok in E as [E ->]. cbn [mbind result_bind]. destruct (negb _); [done|]. by intros [= <- <-].
Qed.

Lemma insert_item_Ok row (db db' : Db) n : insert_item row db = Ok (n, db') ->
  existsb (item_conflicts row) (items db) = false /\ n = f_ordinal row /\ db' = with_items db (items db ++ [row]).
Proof using Type.
  unfold insert_item. destruct (negb _); [done|]. destruct (insert_row _ _ _) as [t|] eqn:E; [|done].
  apply insert_row_Ok in E as [E ->]. cbn [mbind result_bind]. destruct (negb _); [done|]. by intros [= <- <-].
Qed.

Lemma insert_log_Ok row (db db' : Db) u : insert_log row db = Ok (u, db') ->
  existsb (log_conflicts row) (logs db) = false /\ db' = with_logs db (logs db ++ [row]).
Proof using Type.
  unfold insert_log. destruct (negb _); [done|]. destruct (insert_row _ _ _) as [t|] eqn:E; [|done].
  apply insert_row_Ok in E as [E ->]. cbn [mbind result_bind]. destruct (negb _); [done|]. by intros [= <- <-].
Qed.

Lemma respects_insert_event command row : own_event row -> respects command (insert_event row : txn Uuid).
Proof using Type.
  intros Ho db id db' (Ke & Kj & Kf & Kl) H. apply insert_event_Ok in H as (E & _ & ->). split; cbn; untouched.
  - repeat split; try done. cbn. apply keyed_add; auto using event_conflicts_sym.
  - apply table_step_add; [by left|done].
Qed.

Lemma respects_insert_job command row : own_job row -> respects command (insert_job row : txn Uuid).
Proof using Type.
  intros Ho db id db' (Ke & Kj & Kf & Kl) H. apply insert_job_Ok in H as (E & _ & ->). split; cbn; untouched.
  - repeat split; try done. cbn. apply keyed_add; auto using job_conflicts_sym.
  - apply table_step_add; [by left|done].
Qed.

Lemma respects_insert_item command row : own_item row -> respects command (insert_item row : txn Z).
Proof using Type.
  intros Ho db id db' (Ke & Kj & Kf & Kl) H. apply insert_item_Ok in H as (E & _ & ->). split; cbn; untouched.
  - repeat split; try done. cbn. apply keyed_add; auto using item_conflicts_sym.
  - apply table_step_add; [by left|done].
Qed.

Lemma respects_insert_log command row : own_log row -> respects command (insert_log row : txn unit).
Proof using Type.
  intros Ho db id db' (Ke & Kj & Kf & Kl) H. apply insert_log_Ok in H as (E & ->). split; cbn; untouched.
  - repeat split; try done. cbn. apply keyed_add; auto using log_conflicts_sym.
  - by apply table_step_add.
Qed.
End Journal.

Create HintDb journal.
#[export] Hint Resolve journal_lift respects_query journal_ret respects_ensure : journal.

(** ** The commits respect the journal *)

Section Commits.
Context {serde : Serde} {digest : Digest} {uuids : Uuids} {runtime : ProcessRuntime} {postgres : Postgres} {Application : Type}.
Variable now : Z.
Variable gen_random_uuid : Database Application -> Uuid.
Variable run_command : CommandMutation -> Outbox Application ->
  result SqlFailure (option Value * Outbox Application).
Variable snapshot : TransitionSnapshot.
Variable command : bool.

Abbreviation Db := (Database Application).
Abbreviation txn := (ProcessTables.txn Application).
Abbreviation respects m := (respects (snapshot_instance snapshot) (event_id snapshot) command m).
Abbreviation journaled := (journaled (snapshot_instance snapshot) (event_id snapshot) command).

Lemma guarded_spec row : guarded snapshot row = true ->
  i_source row = runtime_source /\ i_id row = snapshot_instance snapshot /\ i_current_state row = current_state snapshot
  /\ i_version row = snapshot_version snapshot /\ i_status row = IRunning.
Proof using Type.
  unfold guarded. rewrite !andb_true_iff, !String.eqb_eq, Z.eqb_eq, bool_decide_eq_true. tauto.
Qed.

Lemma next_version_Ok v : next_version snapshot = Ok v -> v = snapshot_version snapshot + 1 /\ v <= i64_max.
Proof using Type.
  unfold next_version. destruct (checked i64_min i64_max (snapshot_version snapshot + 1)) as [n|] eqn:E; [|done].
  apply checked_Some in E as [-> H]. cbn. intros [= <-]. lia.
Qed.

(** The statement on the row of the instance. *)
Lemma respects_guarded version set : version = snapshot_version snapshot + 1 ->
  (forall row, exists status state journal terminal_output failure, set row = set_instance row status state journal version terminal_output failure) ->
  respects (update_instances (guarded snapshot) set : txn nat).
Proof using Type.
  intros -> Hset. apply respects_update_instances. intros r Hr. apply guarded_spec in Hr as (Hs & Hi & _ & Hv & Hst).
  destruct (Hset r) as (status & state & journal & terminal & failure & ->). right. repeat split; try done; [cbn; lia|]. eauto 10.
Qed.

Lemma respects_versioned {A} (m : Z -> txn A) : (forall version, version = snapshot_version snapshot + 1 -> respects (m version)) ->
  respects (version ← lift (fault_of (next_version snapshot)); m version).
Proof using Type.
  intros Hm db a db' Hk H. apply txn_bind_Ok in H as (v & db1 & H1 & H2). apply txn_lift_Ok in H1 as [H1 ->].
  destruct (next_version snapshot) as [v'|] eqn:E; [|done]. injection H1 as <-. apply next_version_Ok in E as [E _]. exact (Hm _ E _ _ _ Hk H2).
Qed.

Lemma respects_consume_event : respects (consume_event (event_id snapshot) : txn unit).
Proof using Type.
  apply journal_bind; [|auto with journal]. intros db n db' Hk H.
  refine (update_events_journaled _ _ _ _ _ _ _ _ Hk _ H). intros r _ Hr. unfold pending_event in Hr.
  rewrite !andb_true_iff, !String.eqb_eq, bool_decide_eq_true in Hr. destruct Hr as [[Hs Hi] Hp].
  right. split; [by split; [|left]|]. split; [done|]. by exists EConsumed.
Qed.

Lemma respects_append_event kind payload key available_at status :
  respects (append_event now gen_random_uuid snapshot kind payload key available_at status).
Proof using Type.
  intros db id db' Hk H. apply txn_bind_Ok in H as (row & db1 & H1 & H2). apply query_Ok in H1 as [-> ->].
  refine (respects_insert_event _ _ _ _ _ _ _ _ Hk H2). split; [done|by right].
Qed.

Lemma respects_log to_state outcome command_result activity context :
  respects (append_fanout_transition_log snapshot to_state outcome command_result activity context : txn unit).
Proof using Type. by apply respects_insert_log. Qed.

Lemma respects_continue : respects (continue_ now gen_random_uuid snapshot).
Proof using Type. apply journal_bind; [auto with journal|]. intros v. apply journal_bind; [apply respects_append_event|auto with journal]. Qed.

Lemma respects_journal_with output : respects (journal_with snapshot output : txn Value).
Proof using Type.
  intros db v db' Hk H. unfold journal_with in H. destruct (List.find _ _); [|injection H as <- <-; by apply journaled_refl].
  destruct (jsonb_set _ _ _); [|done]. injection H as <- <-. by apply journaled_refl.
Qed.

Hint Resolve respects_consume_event respects_append_event respects_log respects_continue respects_journal_with : journal.

(** Down the statements of a commit. *)
Ltac statements := repeat first
  [ solve [auto with journal]
  | apply respects_versioned; intros ? ->
  | apply journal_bind; [|intros ?]
  | apply (respects_guarded _ _ eq_refl); intros; by eauto 10 ].

Lemma respects_advance next output : respects (advance_instance snapshot next output : txn unit).
Proof using Type. unfold advance_instance. statements. Qed.
Lemma respects_move next message : respects (move_instance snapshot next message : txn unit).
Proof using Type. unfold move_instance. statements. Qed.
Lemma respects_bump message : respects (bump_version snapshot message : txn unit).
Proof using Type. unfold bump_version. statements. Qed.
Lemma respects_fail failure message : respects (fail_row snapshot failure message : txn unit).
Proof using Type. unfold fail_row. statements. Qed.
Hint Resolve respects_advance respects_move respects_bump respects_fail : journal.

Lemma respects_applied_command activity next result_ : respects (commit_applied_command now gen_random_uuid snapshot activity next result_).
Proof using Type. unfold commit_applied_command, append_transition_log. statements. Qed.
Lemma respects_failed_command activity code : respects (commit_failed_command snapshot activity code : txn unit).
Proof using Type. unfold commit_failed_command, append_transition_log. statements. Qed.
Lemma respects_rejected_command activity error : respects (commit_rejected_command now gen_random_uuid snapshot activity error).
Proof using Type. unfold commit_rejected_command, append_transition_log. statements. Qed.

Hint Resolve respects_applied_command respects_failed_command respects_rejected_command : journal.

Lemma respects_reopen payload : respects (reopen_persisted_signals snapshot payload : txn nat).
Proof using Type.
  unfold reopen_persisted_signals. destruct (get_str payload "signal_name") as [name|]; [|auto with journal].
  intros db n db' Hk [= <- <-]. split; cbn; try done; try (intros; apply table_step_refl; intros ?; try (by left); done).
  intros _. apply table_step_map, keep_if; [by left|]. intros r _ Hr. rewrite !andb_true_iff, !String.eqb_eq, bool_decide_eq_true in Hr.
  right. by destruct Hr as [[[[? _] _] _] ?].
Qed.
Hint Resolve respects_reopen : journal.

Lemma respects_wait_entry schedule payload persist : respects (commit_wait_entry now gen_random_uuid snapshot schedule payload persist).
Proof using Type. unfold commit_wait_entry, append_transition_log. statements. destruct persist; auto with journal. Qed.

Lemma respects_close : respects (close_competing_wait_events snapshot : txn nat).
Proof using Type.
  intros db n db' Hk H. refine (update_events_journaled _ _ _ _ _ _ _ _ Hk _ H). intros r _ Hr. unfold competing in Hr.
  rewrite !andb_true_iff, !String.eqb_eq, bool_decide_eq_true in Hr. destruct Hr as [[[[[[Hs Hi] _] Hp] _] _] _].
  right. split; [split; [done|by right]|]. split; [done|]. by exists EFailed.
Qed.
Hint Resolve respects_close : journal.

Lemma respects_wait_completion next output outcome context :
  respects (commit_wait_completion now gen_random_uuid snapshot next output outcome context).
Proof using Type.
  unfold commit_wait_completion, append_transition_log, advance_instance_without_output. destruct output; statements.
Qed.

Lemma respects_milliseconds n message : respects (i64_milliseconds n message : txn Z).
Proof using Type. apply journal_lift. Qed.
Lemma respects_job request id logical input due deadline :
  respects (insert_job (activity_row snapshot request id logical input due deadline) : txn Uuid).
Proof using Type. by apply respects_insert_job. Qed.
Hint Resolve respects_milliseconds respects_job : journal.

Lemma respects_request_schedule state input : respects (commit_request_schedule now gen_random_uuid snapshot state input).
Proof using Type. unfold commit_request_schedule. statements. by apply respects_insert_log. Qed.
Lemma respects_request_success state job attempt generation output :
  respects (commit_request_success now gen_random_uuid snapshot state job attempt generation output).
Proof using Type. unfold commit_request_success. statements. Qed.
Lemma respects_request_failure job attempt generation next kind outcome :
  respects (commit_request_failure now gen_random_uuid snapshot job attempt generation next kind outcome).
Proof using Type. unfold commit_request_failure. statements. Qed.
Lemma respects_when next output context : respects (commit_when now gen_random_uuid snapshot next output context).
Proof using Type. unfold commit_when, append_transition_log. statements. Qed.
Lemma respects_output output : respects (commit_output snapshot output : txn unit).
Proof using Type. unfold commit_output, append_transition_log. statements. Qed.
Lemma respects_commit_fail code message : respects (commit_fail snapshot code message : txn unit).
Proof using Type. unfold commit_fail, append_transition_log. statements. Qed.
Lemma respects_fanout_failure code message : respects (commit_fanout_failure snapshot code message : txn unit).
Proof using Type. unfold commit_fanout_failure, append_transition_log. statements. Qed.

Lemma respects_rows {A B} (insert : A -> txn B) rows : (forall row, In row rows -> respects (insert row)) -> respects (for_each_row insert rows).
Proof using Type.
  induction rows as [|row rows IH]; intros H; cbn; [auto with journal|].
  apply journal_bind; [apply H; by left|]. intros _. apply journal_bind; [|auto with journal]. apply IH. intros r Hr. apply H. by right.
Qed.

Lemma respects_item active job item : respects (insert_item (fanout_item_row snapshot active job item) : txn Z).
Proof using Type. by apply respects_insert_item. Qed.

Lemma respects_item_event version item : respects (append_item_event now gen_random_uuid snapshot version item).
Proof using Type. unfold append_item_event. statements. Qed.

Lemma map_result_In {E A B} (f : A -> result E B) l bs b : map_result f l = Ok bs -> In b bs -> exists a, In a l /\ f a = Ok b.
Proof using Type.
  revert bs. induction l as [|a l IH]; cbn; intros bs; [intros [= <-]; done|].
  destruct (f a) as [b'|] eqn:Ef; [|done]. cbn. destruct (map_result f l) as [bs'|]; [|done]. cbn. intros [= <-] [<-|Hin]; [eauto|].
  destruct (IH _ eq_refl Hin) as (a' & ? & ?). eauto.
Qed.

Lemma respects_request_items request items_ scheduled : respects (insert_request_fanout_items now snapshot request items_ scheduled : txn unit).
Proof using Type.
  unfold insert_request_fanout_items. apply journal_bind; [auto with journal|]. intros schedule db u db' Hk H.
  apply txn_bind_Ok in H as (descriptors & db1 & H1 & H). apply txn_lift_Ok in H1 as [Hd ->].
  assert (Hrows : forall d, In d descriptors -> own_job (snapshot_instance snapshot) d.1 /\ own_item (snapshot_instance snapshot) d.2).
  { intros d Hin. destruct (map_result_In _ _ _ _ Hd Hin) as ([n item] & _ & E). unfold fanout_job in E. cbn [fst snd] in E.
    destruct (item_request item); [|done]. cbn [mbind result_bind] in E. destruct (fanout_logical_activity_id _ _); [|done].
    cbn [mbind result_bind] in E. injection E as <-. by split. }
  revert H. apply (journal_bind (snapshot_instance snapshot) (event_id snapshot) command); [|intros _; apply journal_bind; [|auto with journal]|done].
  - apply respects_rows. intros r Hr. apply in_map_iff in Hr as (d & <- & Hin). by apply respects_insert_job, Hrows.
  - apply respects_rows. intros r Hr. apply in_map_iff in Hr as (d & <- & Hin). by apply respects_insert_item, Hrows.
Qed.

Lemma respects_command_items items_ version scheduled :
  respects (insert_command_fanout_items now gen_random_uuid snapshot items_ version scheduled).
Proof using Type.
  unfold insert_command_fanout_items. statements; apply respects_rows; intros; [apply respects_item|apply respects_item_event].
Qed.
Hint Resolve respects_request_items respects_command_items : journal.

Lemma respects_expansion definition state items_ : respects (commit_fanout_expansion now gen_random_uuid snapshot definition state items_).
Proof using Type.
  unfold commit_fanout_expansion, append_transition_log. destruct items_; statements. destruct (fan_activity state); auto with journal.
Qed.

(** The pending item that is activated is the only one of its ordinal. *)
Lemma activated_item (db : Db) next rest (P : ItemRow -> bool) n db' : keyed_db db ->
  order_by by_ordinal (List.filter (fun row => of_state snapshot row && P row) (items db)) = next :: rest -> (forall row, P row = true -> f_status row = FPending) ->
  update_items (fun row => of_state snapshot row && (f_ordinal row =? f_ordinal next))
    (fun row => set_item row FScheduled (f_result row) (f_failure row)) db = Ok (n, db') -> journaled db db'.
Proof using Type.
  intros Hk Hsort HP H.
  assert (Hin : In next (List.filter (fun row => of_state snapshot row && P row) (items db))) by (apply (order_by_In by_ordinal); rewrite Hsort; by left).
  apply filter_In in Hin as [Hin Hn]. apply andb_true_iff in Hn as [Hn Hpend].
  refine (update_items_journaled _ _ _ _ _ _ _ _ Hk _ H). intros r Hr Hw. apply andb_true_iff in Hw as [Hs Ho]. apply Z.eqb_eq in Ho.
  unfold of_state in Hn, Hs. rewrite !andb_true_iff, !String.eqb_eq in Hn, Hs. destruct Hn as [[? ?] ?], Hs as [[? ?] ?].
  assert (r = next) as ->.
  { destruct Hk as (_ & _ & Kf & _). apply (keyed_unique (items db) r next Kf Hr Hin). unfold item_conflicts.
    replace (f_source r) with (f_source next) by congruence. replace (f_instance r) with (f_instance next) by congruence.
    replace (f_state r) with (f_state next) by congruence. by rewrite Ho, !String.eqb_refl, Z.eqb_refl. }
  right. split; [by split|]. split; [by rewrite (HP _ Hpend)|]. eauto.
Qed.

Lemma respects_then {A B} (f : Db -> A) (m : A -> txn B) :
  (forall db a db', a = f db -> keyed_db db -> m a db = Ok db' -> journaled db db'.2) -> respects (a ← query f; m a).
Proof using Type.
  intros Hm db b db' Hk H. apply txn_bind_Ok in H as (a & db1 & H1 & H2). apply query_Ok in H1 as [-> ->]. exact (Hm _ _ (b, db') eq_refl Hk H2).
Qed.

Lemma journaled_then {B} (db db1 : Db) (m : txn B) b db' : journaled db db1 -> respects m -> m db1 = Ok (b, db') -> journaled db db'.
Proof using Type. intros J Hm H. exact (journaled_trans _ _ _ _ _ _ J (Hm _ _ _ (journaled_keys _ _ _ _ _ J) H)). Qed.

Lemma respects_activate state : respects (activate_next_fanout_item now gen_random_uuid snapshot state).
Proof using Type.
  unfold activate_next_fanout_item. destruct (fan_activity state) as [c|request].
  - unfold activate_next_command_fanout_item. apply respects_then. intros db pending [b db'] Hp Hk H. cbn [snd].
    destruct pending as [|next rest]; [apply ret_Ok in H as [_ ->]; by apply journaled_refl|].
    apply txn_bind_Ok in H as (n & db1 & H1 & H). symmetry in Hp.
    eapply journaled_then; [|shelve|exact H].
    refine (activated_item _ _ _ _ _ _ Hk Hp _ H1). intros row. by rewrite bool_decide_eq_true.
    Unshelve. statements.
  - unfold activate_next_request_fanout_item. apply journal_bind; [auto with journal|]. intros schedule.
    apply respects_then. intros db pending [b db'] Hp Hk H. cbn [snd].
    destruct pending as [|next rest]; [apply ret_Ok in H as [_ ->]; by apply journaled_refl|].
    apply txn_bind_Ok in H as (n & db1 & H1 & H). symmetry in Hp.
    eapply journaled_then; [|shelve|exact H].
    + refine (activated_item _ _ _ (fun row => _ && _) _ _ Hk _ _ H1); [|].
      * rewrite <- Hp. f_equal. apply filter_ext. intros a. by rewrite andb_assoc.
      * intros row. by rewrite andb_true_iff, bool_decide_eq_true; intros [? _].
    Unshelve. apply journal_bind; [|auto with journal]. intros db0 k db2 Hk0 H0.
    refine (update_jobs_journaled _ _ _ _ _ _ _ _ Hk0 _ H0). intros j _ Hj.
    rewrite !andb_true_iff, String.eqb_eq, bool_decide_eq_true in Hj. destruct Hj as [[? _] ?]. right. eauto 10.
Qed.
Hint Resolve respects_activate : journal.

Lemma respects_finish item : respects (finish_item snapshot item : txn unit).
Proof using Type.
  unfold finish_item. apply journal_bind; [|auto with journal]. intros db n db' Hk H.
  refine (update_items_journaled _ _ _ _ _ _ _ _ Hk _ H). intros r _ Hr. unfold completes, of_state in Hr.
  rewrite !andb_true_iff, !String.eqb_eq, bool_decide_eq_true in Hr.
  destruct Hr as [[[[[[[Hs Hi] _] _] _] _] Hst] _]. right. split; [by split|].
  destruct (completed_outcome item); cbn; rewrite Hst; (split; [done|eauto]).
Qed.
Hint Resolve respects_finish : journal.

Lemma respects_completion definition state item :
  respects (commit_fanout_item_completion now gen_random_uuid snapshot definition state item).
Proof using Type.
  unfold commit_fanout_item_completion. statements.
  match goal with |- respects (if ?b then _ else _) => destruct b end; [|statements].
  destruct (completed_outcome item); statements.
Qed.

Lemma respects_request_completion definition state ordinal key identity item job attempt generation completion :
  respects (commit_fanout_request_completion now gen_random_uuid snapshot definition state ordinal key identity item job attempt generation completion).
Proof using Type.
  unfold commit_fanout_request_completion. destruct (fan_activity state); [auto with journal|].
  apply journal_bind; [auto with journal|]. intros outcome. apply respects_completion.
Qed.

Lemma respects_savepoint mutation : command = true -> respects (execute_process_command_in_savepoint run_command mutation).
Proof using Type.
  intros Hc db outcome db' Hk H. unfold execute_process_command_in_savepoint in H.
  destruct (run_command mutation _) as [[[result_|] outbox]|error]; [injection H as <- <-|done|].
  - split; cbn; try done; try (intros; congruence); apply table_step_refl; intros ?; try (by left); done.
  - destruct (decode_command_business_rejection error); [injection H as <- <-; by apply journaled_refl|].
    destruct (unrecoverable_command_failure _); [injection H as <- <-; by apply journaled_refl|]. by destruct error.
Qed.

Lemma respects_command definition activity next mutation : command = true ->
  respects (consume_prepared_command now gen_random_uuid run_command snapshot definition activity next mutation).
Proof using Type.
  intros Hc. unfold consume_prepared_command. apply journal_bind; [by apply respects_savepoint|]. intros [result_|error|code].
  - destruct (validate_state_output definition snapshot result_); statements.
  - statements.
  - statements.
Qed.

Lemma respects_fanout_command definition state ordinal key identity item mutation : command = true ->
  respects (consume_prepared_fanout_command now gen_random_uuid run_command snapshot definition state ordinal key identity item mutation).
Proof using Type.
  intros Hc. unfold consume_prepared_fanout_command. destruct (fan_activity state); [|auto with journal].
  apply journal_bind; [by apply respects_savepoint|]. intros outcome. apply journal_bind; [auto with journal|]. intros result_.
  apply respects_completion.
Qed.
End Commits.

(** Whether a prepared transition runs a command of the application. *)
Definition runs_command `{ProcessRuntime} (prepared : PreparedTransition) : bool :=
  match prepared with PreparedCommand _ _ _ _ _ | PreparedFanOutCommandItem _ _ _ _ _ _ _ _ => true | _ => false end.

Section Applying.
Context {serde : Serde} {digest : Digest} {uuids : Uuids} {runtime : ProcessRuntime} {postgres : Postgres} {Application : Type}.
Variable now : Z.
Variable gen_random_uuid : Database Application -> Uuid.
Variable run_command : CommandMutation -> Outbox Application ->
  result SqlFailure (option Value * Outbox Application).

Lemma respects_apply prepared :
  respects (snapshot_instance (prepared_snapshot prepared)) (event_id (prepared_snapshot prepared)) (runs_command prepared)
    (apply_prepared now gen_random_uuid run_command prepared).
Proof using Type.
  destruct prepared; cbn [prepared_snapshot runs_command apply_prepared];
    try (apply journal_bind; [|intros ?; apply journal_ret]);
    eauto using respects_command, respects_request_schedule, respects_request_success, respects_request_failure, respects_when, respects_output,
      respects_commit_fail, respects_wait_entry, respects_wait_completion, respects_expansion, respects_fanout_failure, respects_fanout_command,
      respects_request_completion.
Qed.

(** C15: applying a prepared transition only moves the journal forward.  No
    row is removed and no key changes; the rows of other instances stay what
    they are, and so does an instance that is not running, a settled event, a
    finished item and every log row.  The version of the instance only grows,
    an event is settled at most once, the rows added are of the instance, and
    the tables of the application change only if the transition runs a
    command. *)
Theorem transition_moves_the_journal_forward prepared (db db' : Database Application) consumption :
  keyed_db db -> apply_prepared now gen_random_uuid run_command prepared db = Ok (consumption, db') ->
  journaled (snapshot_instance (prepared_snapshot prepared)) (event_id (prepared_snapshot prepared)) (runs_command prepared) db db'.
Proof using Type. exact (respects_apply prepared db consumption db'). Qed.
End Applying.
