(* ===== verification/ProcessEffect.v ===== *)
(** * What a transition does ([crates/server/src/processes/transition.rs])

    Each commit of [ProcessCommit] as its effect on the tables: the one row of
    the instance it moves, the event it settles, the events it schedules and
    the log row it appends. *)
From S2P Require Import Prelude Json KeyedMap AbiIds RulesSyntax ValueContract ProcessSyntax ProcessInfer ProcessEvaluate ProcessDependencies ProcessFingerprint ProcessDefinition ProcessStates ProcessCompile ProcessTyped ProcessTables ProcessTransition ProcessPrepare ProcessCommit ProcessJournal.
Set Warnings "-register-all".

Section Effects.
Context {serde : Serde} {digest : Digest} {uuids : Uuids} {runtime : ProcessRuntime} {postgres : Postgres} {Application : Type}.
Variable now : Z.
Variable gen_random_uuid : Database Application -> Uuid.
Variable run_command : CommandMutation -> Outbox Application ->
  result SqlFailure (option Value * Outbox Application).
Variable snapshot : TransitionSnapshot.

Abbreviation Db := (Database Application).
Abbreviation txn := (ProcessTables.txn Application).

(** ** Effects *)

Definition moved (row' : InstanceRow) (rows : list InstanceRow) : list InstanceRow :=
  map (fun row => if guarded snapshot row then row' else row) rows.

(** The event of the snapshot is consumed; the competitors of a wait fail. *)
Definition settled (closing : bool) (row : EventRow) : EventRow :=
  if pending_event (event_id snapshot) row then set_event row EConsumed (e_attempts row + 1) (e_available_at row)
  else if closing && competing snapshot row then set_event row EFailed (e_attempts row + 1) (e_available_at row)
  else row.

Record effect (row' : InstanceRow) (closing : bool) (fresh : list EventRow) (entry : LogRow) (db db' : Db) : Prop := {
  effect_instances : instances db' = moved row' (instances db);
  effect_events : events db' = map (settled closing) (events db) ++ fresh;
  effect_logs : logs db' = logs db ++ [entry];
  effect_entry : l_instance entry = snapshot_instance snapshot /\ l_event entry = Some (event_id snapshot)
                 /\ l_from_state entry = Some (current_state snapshot);
}.

(** The row is the only one the guard finds. *)
Definition the_guarded (db : Db) (row : InstanceRow) : Prop := List.filter (guarded snapshot) (instances db) = [row].

(** ** Statements *)

Definition bumped (status : InstanceStatus) (state : string) (journal : Value) (terminal_output failure : option Value) (row : InstanceRow) :
    InstanceRow :=
  set_instance row status state journal (snapshot_version snapshot + 1) terminal_output failure.

Lemma find_filter {R} (f : R -> bool) rows row : List.filter f rows = [row] -> List.find f rows = Some row.
Proof using Type.
  induction rows as [|r rows IH]; cbn; [done|]. destruct (f r); [by intros [= -> _]|done].
Qed.

(** The journal of a row with the output of its state, when there is one. *)
Definition journal_after (output : option Value) (row : InstanceRow) (journal : Value) : Prop :=
  match output with Some output => jsonb_set (i_state row) (current_state snapshot) output = Ok journal | None => journal = i_state row end.

(** The row of the instance, and that row alone, becomes [row']. *)
Definition replaces (row row' : InstanceRow) (db db' : Db) : Prop :=
  the_guarded db row /\ snapshot_version snapshot + 1 <= i64_max /\ db' = with_instances db (moved row' (instances db)).

Lemma the_guarded_spec db row : the_guarded db row -> guarded snapshot row = true.
Proof using Type.
  intros H. assert (Hg : In row (List.filter (guarded snapshot) (instances db))) by (rewrite H; by left). exact (proj2 (proj1 (filter_In _ _ _) Hg)).
Qed.

Lemma moved_the_guarded db row set : the_guarded db row ->
  map (fun r => if guarded snapshot r then set r else r) (instances db) = moved (set row) (instances db).
Proof using Type.
  intros H. apply map_ext_in. intros r Hr. destruct (guarded snapshot r) eqn:E; [|done].
  assert (Hin : In r (List.filter (guarded snapshot) (instances db))) by (by apply filter_In). rewrite H in Hin. by destruct Hin as [->|[]].
Qed.

(** An UPDATE of the guarded rows that changed one row. *)
Lemma guarded_update_Ok set (db db' : Db) n : update_instances (guarded snapshot) set db = Ok (n, db') -> (n =? 1)%nat = true ->
  exists row, the_guarded db row /\ db' = with_instances db (moved (set row) (instances db)).
Proof using Type.
  intros H Hn. unfold update_instances, checked_update in H. destruct (forallb _ _); [|done]. injection H as <- <-. apply Nat.eqb_eq in Hn.
  destruct (List.filter (guarded snapshot) (instances db)) as [|row [|]] eqn:Ef; try done. exists row. split; [done|].
  by rewrite <- (moved_the_guarded db row set).
Qed.

Lemma next_version_fault v : fault_of (next_version snapshot) = Ok v -> v = snapshot_version snapshot + 1 /\ v <= i64_max.
Proof using Type. destruct (next_version snapshot) as [v'|] eqn:E; [|done]. intros [= <-]. by apply next_version_Ok. Qed.

Lemma journal_Ok output (db db' : Db) row journal : the_guarded db row -> journal_with snapshot output db = Ok (journal, db') ->
  journal_after (Some output) row journal /\ db' = db.
Proof using Type.
  intros Hrow. unfold journal_with. rewrite (find_filter _ _ _ Hrow). unfold journal_after.
  destruct (jsonb_set _ _ _); [|done]. by intros [= <- <-].
Qed.

Lemma advance_Ok next output (db db' : Db) u : advance_instance snapshot next output db = Ok (u, db') ->
  exists row journal, journal_after (Some output) row journal
    /\ replaces row (bumped IRunning next journal (i_terminal_output row) (i_failure row) row) db db'.
Proof using Type.
  intros H. unfold advance_instance in H. run H. apply next_version_fault in E as [-> Hv].
  assert (db0 = db) as ->.
  { unfold journal_with in Hrun. destruct (List.find _ _); [destruct (jsonb_set _ _ _); [|done]|]; by injection Hrun. }
  apply guarded_update_Ok in Hrun0 as (row & Hrow & ->); [|done]. destruct (journal_Ok _ _ _ _ _ Hrow Hrun) as [Hj _].
  exists row, a0. split; [done|]. split; [done|]. split; [done|].
  pose proof (guarded_spec _ _ (the_guarded_spec _ _ Hrow)) as (_ & _ & _ & _ & Hr). unfold bumped. by rewrite Hr.
Qed.

(** The updates that set a row from itself. *)
Lemma versioned_Ok set message (db db' : Db) u :
  (version ← lift (fault_of (next_version snapshot));
   updated ← update_instances (guarded snapshot) (set version);
   ensure (updated =? 1)%nat message) db = Ok (u, db') ->
  exists row, replaces row (set (snapshot_version snapshot + 1) row) db db' /\ i_status row = IRunning /\ i_current_state row = current_state snapshot.
Proof using Type.
  intros H. run H. apply next_version_fault in E as [-> Hv]. apply guarded_update_Ok in Hrun as (row & Hrow & ->); [|done]. exists row.
  pose proof (guarded_spec _ _ (the_guarded_spec _ _ Hrow)) as (_ & _ & Hc & _ & Hr). done.
Qed.

Lemma move_Ok next message (db db' : Db) u : move_instance snapshot next message db = Ok (u, db') ->
  exists row, replaces row (bumped IRunning next (i_state row) (i_terminal_output row) (i_failure row) row) db db'.
Proof using Type.
  intros H. apply (versioned_Ok (fun version row => set_instance row (i_status row) next (i_state row) version (i_terminal_output row) (i_failure row)))
    in H as (row & Hr & Hst & _). exists row. unfold bumped. by rewrite <- Hst.
Qed.

Lemma bump_Ok message (db db' : Db) u : bump_version snapshot message db = Ok (u, db') ->
  exists row, replaces row (bumped IRunning (current_state snapshot) (i_state row) (i_terminal_output row) (i_failure row) row) db db'
   .
Proof using Type.
  intros H. apply (versioned_Ok (fun version row => set_instance row (i_status row) (i_current_state row) (i_state row) version (i_terminal_output row) (i_failure row)))
    in H as (row & Hr & Hst & Hc). exists row. unfold bumped. by rewrite <- Hst, <- Hc.
Qed.

Lemma fail_Ok failure message (db db' : Db) u : fail_row snapshot failure message db = Ok (u, db') ->
  exists row, replaces row (bumped IFailed (current_state snapshot) (i_state row) (i_terminal_output row) (Some failure) row) db db'
   .
Proof using Type.
  intros H. apply (versioned_Ok (fun version row => set_instance row IFailed (i_current_state row) (i_state row) version (i_terminal_output row) (Some failure)))
    in H as (row & Hr & _ & Hc). exists row. unfold bumped. by rewrite <- Hc.
Qed.

Lemma consume_Ok (db db' : Db) u : consume_event (event_id snapshot) db = Ok (u, db') -> db' = with_events db (map (settled false) (events db)).
Proof using Type. intros H. unfold consume_event in H. run H. by injection Hrun as _ <-. Qed.

Lemma append_event_Ok kind payload key available_at status (db db' : Db) id :
  append_event now gen_random_uuid snapshot kind payload key available_at status db = Ok (id, db') ->
  let row := new_event now gen_random_uuid snapshot kind payload key available_at status db in
  id = e_id row /\ existsb (event_conflicts row) (events db) = false /\ db' = with_events db (events db ++ [row]).
Proof using Type. intros H. unfold append_event in H. run H. apply insert_event_Ok in H as (E1 & -> & ->). by repeat split. Qed.

(** The token that lets an instance go on. *)
Definition is_continue (row : EventRow) : Prop :=
  exists db : Db, row = new_event now gen_random_uuid snapshot "continue" (JObject [])
    ("continue:" +:+ uuid_to_string (snapshot_instance snapshot) +:+ ":" +:+ show_Z (snapshot_version snapshot + 1)) (At now) EPending db.

Lemma continue_Ok (db db' : Db) u : continue_ now gen_random_uuid snapshot db = Ok (u, db') ->
  exists row, is_continue row /\ db' = with_events db (events db ++ [row]).
Proof using Type.
  intros H. unfold continue_, append_continue_event in H. run H. destruct (next_version snapshot) as [v|] eqn:Ev; [|done]. injection E as <-.
  apply next_version_Ok in Ev as [-> _]. apply append_event_Ok in Hrun as (_ & _ & ->). eexists. split; [by eexists|done].
Qed.

Lemma log_Ok row (db db' : Db) u : insert_log row db = Ok (u, db') -> db' = with_logs db (logs db ++ [row]).
Proof using Type. intros H. by apply insert_log_Ok in H as [_ ->]. Qed.

(** ** Outcomes *)

Definition is_pending (db : Db) : Prop := existsb (pending_event (event_id snapshot)) (events db) = true.

(** The row of the instance before and after an outcome, with the output that
    an instance that advances or completes records, if it records one. *)
Definition row_after (output : option Value) (c : TransitionConsumption) (row row' : InstanceRow) : Prop :=
  let same status failure := bumped status (current_state snapshot) (i_state row) (i_terminal_output row) failure row in
  match c with
  | Advanced _ _ _ to_state => exists journal, journal_after output row journal
      /\ row' = bumped IRunning to_state journal (i_terminal_output row) (i_failure row) row
  | ActivityScheduled _ _ _ _ | WaitEntered _ _ _ _ | FanOutExpanded _ _ _ _ _ => row' = same IRunning (i_failure row)
  | Completed _ _ _ => exists o journal, output = Some o /\ journal_after output row journal
      /\ row' = bumped ITerminal (current_state snapshot) journal (Some o) (i_failure row) row
  | Failed _ _ _ _ | CommandFailed _ _ _ | CommandRejected _ _ _ _ _ => exists failure, row' = same IFailed (Some failure)
  | FanOutItemCompleted _ _ _ _ => row' = row
  | NoWork | Deferred _ _ _ _ => False
  end.

(** The state an instance advances to, and the state a log row ends in. *)
Definition advances_to (c : TransitionConsumption) : option string := match c with Advanced _ _ _ to_state => Some to_state | _ => None end.

Definition to_state_of (c : TransitionConsumption) : string :=
  match c with Advanced _ _ _ to_state => to_state | _ => current_state snapshot end.

(** What a scheduled item goes on from: an event of its own that is due, or its
    job, due too. *)
Definition item_token (fresh : list EventRow) (db' : Db) (item : ItemRow) : Prop :=
  (exists key (before : Db), In (new_event now gen_random_uuid snapshot "fanout_item"
     (fanout_payload snapshot (snapshot_version snapshot + 1) (event_id snapshot) (f_ordinal item) (f_item_key_identity item)) key (At now) EPending before) fresh)
  \/ (exists job, In job (jobs db') /\ f_job item = Some (j_id job) /\ j_status job = JScheduled /\ j_available_at job = At now).

(** The items of a fan-out that wait for their turn: those that are pending and,
    for requests, have a job that waits for them. *)
Definition waits (each : CompiledProcessForEachActivity) (db : Db) (item : ItemRow) : Prop :=
  In item (items db) /\ of_state snapshot item = true /\ f_status item = FPending
  /\ match each with ForEachCommand _ => True | ForEachRequest _ => exists job, In job (jobs db) /\ waiting_job item job = true end.

(** What an item that got its turn goes on from: a new event of its own, or the
    job that waited for it, due now. *)
Definition turn_due (each : CompiledProcessForEachActivity) (db db' : Db) (item : ItemRow) : Prop :=
  match each with
  | ForEachCommand _ => exists key (before : Db), In (new_event now gen_random_uuid snapshot "fanout_item"
      (fanout_payload snapshot (snapshot_version snapshot) (f_entry_event item) (f_ordinal item) (f_item_key_identity item)) key (At now) EPending before)
      (events db')
  | ForEachRequest request => exists job job', In job (jobs db) /\ waiting_job item job = true
      /\ In job' (jobs db') /\ j_source job' = j_source job /\ j_id job' = j_id job /\ j_status job' = JScheduled /\ j_input job' = j_input job
      /\ j_available_at job' = At now /\ j_schedule_to_start_deadline job' = instant_after now (schedule_to_start_ms (activity request))
  end.

Definition same_item (old item : ItemRow) : Prop := f_source item = f_source old /\ f_instance item = f_instance old /\ f_state item = f_state old
  /\ f_entry_event item = f_entry_event old /\ f_ordinal item = f_ordinal old /\ f_item_key item = f_item_key old
  /\ f_item_key_identity item = f_item_key_identity old /\ f_item item = f_item old /\ f_job item = f_job old.

(** The next item gets its turn, unless none waits: the first that waits is
    scheduled and goes on. *)
Definition next_turn (each : CompiledProcessForEachActivity) (db db' : Db) : Prop :=
  (forall item, ~ waits each db item)
  \/ exists item item', waits each db item /\ (forall other, waits each db other -> f_ordinal item <= f_ordinal other)
       /\ In item' (items db') /\ same_item item item' /\ f_status item' = FScheduled /\ turn_due each db db' item.

(** What is there to go on from, in a database that an outcome left running. *)
Definition token_after (c : TransitionConsumption) (fresh : list EventRow) (db' : Db) : Prop :=
  match c with
  | Advanced _ _ _ _ => exists row, is_continue row /\ In row fresh
  | ActivityScheduled _ _ id _ => exists request logical input deadline,
      In (activity_row snapshot request id logical input (At now) deadline) (jobs db')
  | WaitEntered _ _ id _ => exists payload key available_at (before : Db),
      let row := new_event now gen_random_uuid snapshot "timer" payload key available_at EPending before in In row fresh /\ e_id row = id
  | FanOutExpanded _ _ _ count scheduled => (0 < count)%nat
      /\ exists rows, List.length rows = count /\ (forall item, In item rows -> In item (items db') /\ of_state snapshot item = true)
         /\ List.length (List.filter (fun item => bool_decide (f_status item = FScheduled)) rows) = scheduled
         /\ (forall item, In item rows -> f_status item = FScheduled -> item_token fresh db' item)
  | FanOutItemCompleted _ _ _ _ => exists item, In item (items db') /\ of_state snapshot item = true /\ (f_status item = FPending \/ f_status item = FScheduled)
  | _ => True
  end.

(** An item is as it was, is of this state and new, or of this state and the
    one that failed. *)
Definition items_after (failure : option Value) (rows rows' : list ItemRow) : Prop :=
  forall item, In item rows' -> (exists old, In old rows /\ f_source item = f_source old /\ f_instance item = f_instance old
                                   /\ f_state item = f_state old /\ f_failure item = f_failure old)
    \/ (f_source item = runtime_source /\ f_instance item = snapshot_instance snapshot /\ f_state item = current_state snapshot
        /\ (f_failure item = None \/ f_failure item = failure)).

Record transition (output failure : option Value) (c : TransitionConsumption) (db db' : Db) : Prop := {
  transition_effect : exists row row' closing fresh entry, the_guarded db row /\ effect row' closing fresh entry db db' /\ row_after output c row row'
                        /\ l_to_state entry = to_state_of c /\ token_after c fresh db';
  transition_items : items_after failure (items db) (items db');
}.

Lemma items_same failure rows rows' : rows' = rows -> items_after failure rows rows'.
Proof using Type. intros -> item Hin. left. by exists item. Qed.

Lemma items_trans failure a b c : items_after failure a b -> items_after failure b c -> items_after failure a c.
Proof using Type.
  intros H1 H2 item Hin. destruct (H2 item Hin) as [(old & Ho & Hs & Hi & Ht & Hf)|H]; [|by right]. rewrite Hs, Hi, Ht, Hf. exact (H1 old Ho).
Qed.

Lemma items_added failure rows fresh : (forall item, In item fresh -> of_state snapshot item = true /\ f_failure item = None) ->
  items_after failure rows (rows ++ fresh).
Proof using Type.
  intros H item [Hin|Hin]%in_app_or; [left; by exists item|right]. apply H in Hin as [Ho Hf]. unfold of_state in Ho.
  rewrite !andb_true_iff, !String.eqb_eq in Ho. destruct Ho as [[? ?] ?]. auto.
Qed.

Lemma settled_fresh row (db : Db) : is_pending db -> e_source row = runtime_source -> existsb (event_conflicts row) (events db) = false ->
  settled false row = row.
Proof using Type.
  intros Hp Hs Hno. unfold settled. cbn [andb]. destruct (pending_event (event_id snapshot) row) eqn:E; [|done]. exfalso.
  apply existsb_exists in Hp as (r & Hin & Hr). unfold pending_event in E, Hr.
  rewrite !andb_true_iff, !String.eqb_eq in E, Hr. destruct E as [[_ Hi] _], Hr as [[Hrs Hri] _].
  apply Bool.diff_true_false. rewrite <- Hno. symmetry. apply existsb_exists. exists r. split; [done|].
  unfold event_conflicts. by rewrite Hs, Hrs, Hi, Hri, !String.eqb_refl.
Qed.

(** What most commits are: the row moves, the event is consumed, the log is
    written, and the token scheduled if there is one. *)
Lemma transition_intro output failure c row row' closing fresh entry (db db' : Db) : the_guarded db row ->
  instances db' = moved row' (instances db) -> events db' = map (settled closing) (events db) ++ fresh -> logs db' = logs db ++ [entry] ->
  l_instance entry = snapshot_instance snapshot -> l_event entry = Some (event_id snapshot) -> l_from_state entry = Some (current_state snapshot) ->
  row_after output c row row' -> l_to_state entry = to_state_of c -> token_after c fresh db' -> items_after failure (items db) (items db') ->
  transition output failure c db db'.
Proof using Type. intros. split; [|done]. exists row, row', closing, fresh, entry. repeat split; done. Qed.

Hint Resolve items_same : core.

(** Reads the statements of a commit into the tables they leave. *)
Ltac step_in H := first
  [ apply advance_Ok in H as (?row & ?journal & ?Hjournal & ?Hrow & ?Hversion & ->)
  | apply move_Ok in H as (?row & ?Hrow & ?Hversion & ->)
  | apply bump_Ok in H as (?row & ?Hrow & ?Hversion & ->)
  | apply fail_Ok in H as (?row & ?Hrow & ?Hversion & ->)
  | apply consume_Ok in H as ->
  | apply continue_Ok in H as (?token & ?Htoken & ->)
  | apply append_event_Ok in H as (-> & ?Hfresh & ->)
  | apply log_Ok in H as -> ].

Ltac steps := repeat match goal with H : ?m _ = Ok (_, _) |- _ => step_in H end.

Lemma applied_command_transition i e f activity next result_ (db db' : Db) u :
  commit_applied_command now gen_random_uuid snapshot activity next result_ db = Ok (u, db') -> transition (Some result_) None (Advanced i e f next) db db'.
Proof using Type.
  intros H. unfold commit_applied_command, append_transition_log in H. run H. steps.
  eapply (transition_intro _ None _ row _ false [token] _ db); [done|reflexivity|reflexivity|reflexivity|done..| |done| |by apply items_same]; cbn.
  - by exists journal.
  - exists token. split; [done|by left].
Qed.

(** A commit whose statements are those of [transition_intro]. *)
Ltac transition_of row closing fresh :=
  eapply (transition_intro _ None _ row _ closing fresh _ _); [done|reflexivity| | reflexivity|done..| |done| |by apply items_same]; cbn [row_after token_after].

Lemma failed_command_transition i e code f activity (db db' : Db) u :
  commit_failed_command snapshot activity f db = Ok (u, db') -> transition None None (CommandFailed i e code) db db'.
Proof using Type.
  intros H. unfold commit_failed_command, append_transition_log in H. run H. steps. transition_of row false (@nil EventRow); [by rewrite app_nil_r|by eexists|done].
Qed.

Lemma rejected_command_transition i e code path message activity error (db db' : Db) u :
  commit_rejected_command now gen_random_uuid snapshot activity error db = Ok (u, db') -> transition None None (CommandRejected i e code path message) db db'.
Proof using Type.
  intros H. unfold commit_rejected_command, append_transition_log in H. run H. steps.
  eapply (transition_intro _ None _ row _ false _ _ _); [done|reflexivity|reflexivity|reflexivity|done..|by eexists|done|done|by apply items_same].
Qed.

Lemma reopen_Ok payload (db db' : Db) n : reopen_persisted_signals snapshot payload db = Ok (n, db') -> exists t, db' = with_signal_requests db t.
Proof using Type.
  unfold reopen_persisted_signals. destruct (get_str payload "signal_name"); [|intros [= <- <-]; exists (signal_requests db); by destruct db].
  unfold update_signal_requests. destruct (update_rows _ _ _) as [k t]. intros [= <- <-]. by exists t.
Qed.

Lemma wait_entry_transition i e s schedule payload persist (db db' : Db) id : is_pending db ->
  commit_wait_entry now gen_random_uuid snapshot schedule payload persist db = Ok (id, db') -> transition None None (WaitEntered i e id s) db db'.
Proof using Type.
  intros Hp H. unfold commit_wait_entry, append_transition_log in H. run H. apply next_version_fault in E as [-> _].
  assert (Hreopen : exists t, db2 = with_signal_requests db1 t).
  { destruct persist; [by apply reopen_Ok in Hrun1|]. apply ret_Ok in Hrun1 as [_ ->]. exists (signal_requests db1). by destruct db1. }
  destruct Hreopen as [t ->]. steps. match type of Hfresh with existsb (event_conflicts ?r) _ = _ => pose proof (settled_fresh r db Hp eq_refl Hfresh) as Hset end.
  eapply (transition_intro _ None _ row _ false _ _ db); [exact Hrow|reflexivity|cbn; rewrite map_app; reflexivity|reflexivity|done..| |by apply items_same]; cbn [row_after token_after].
  eexists payload, _, _, db. split; [|reflexivity]. left. exact Hset.
Qed.

Lemma wait_completion_transition i e f next output outcome context (db db' : Db) u :
  commit_wait_completion now gen_random_uuid snapshot next output outcome context db = Ok (u, db') -> transition output None (Advanced i e f next) db db'.
Proof using Type.
  intros H. unfold commit_wait_completion, append_transition_log in H. run H.
  assert (Hmove : exists row journal, journal_after output row journal
     /\ replaces row (bumped IRunning next journal (i_terminal_output row) (i_failure row) row) db db0).
  { destruct output; [exact (advance_Ok _ _ _ _ _ Hrun)|]. apply move_Ok in Hrun as (row & Hrow). by exists row, (i_state row). }
  clear Hrun. destruct Hmove as (row & journal & Hj & Hrow & Hv & ->). injection Hrun1 as <- <-. steps.
  eapply (transition_intro _ None _ row _ true [token] _ _); [done|reflexivity| | reflexivity|done..| |done| |by apply items_same]; cbn [row_after token_after].
  - cbn. f_equal. rewrite map_map. apply map_ext. intros r. unfold settled. cbn [andb].
    destruct (pending_event (event_id snapshot) r) eqn:E; [|done].
    unfold pending_event in E. rewrite !andb_true_iff, !String.eqb_eq in E. destruct E as [[_ E] _].
    destruct (competing snapshot _) eqn:Ec; [|done]. unfold competing in Ec. cbn in Ec. rewrite E, String.eqb_refl, !andb_false_r in Ec. done.
  - by exists journal.
  - exists token. split; [done|by left].
Qed.

Lemma insert_job_row row (db db' : Db) id : insert_job row db = Ok (id, db') -> id = j_id row /\ db' = with_jobs db (jobs db ++ [row]).
Proof using Type. intros H. by apply insert_job_Ok in H as (_ & -> & ->). Qed.

Lemma request_schedule_transition i e s state input (db db' : Db) id :
  commit_request_schedule now gen_random_uuid snapshot state input db = Ok (id, db') -> transition None None (ActivityScheduled i e id s) db db'.
Proof using Type.
  intros H. unfold commit_request_schedule, i64_milliseconds in H. run H.
  match goal with H : insert_job _ _ = _ |- _ => apply insert_job_row in H as [-> ->] end. steps.
  eapply (transition_intro _ None _ row _ false [] _ db); [exact Hrow|reflexivity|by rewrite app_nil_r|reflexivity|done..| |by apply items_same]; cbn [row_after token_after].
  eexists _, _, _, _. cbn. apply in_or_app. right. left. reflexivity.
Qed.

Lemma request_success_transition i e f state job attempt generation output (db db' : Db) u :
  commit_request_success now gen_random_uuid snapshot state job attempt generation output db = Ok (u, db') ->
  transition (Some output) None (Advanced i e f (compiled_request_next state)) db db'.
Proof using Type.
  intros H. unfold commit_request_success, append_fanout_transition_log in H. run H. steps.
  eapply (transition_intro _ None _ row _ false [token] _ db); [done|reflexivity|reflexivity|reflexivity|done..| |done| |by apply items_same]; cbn [row_after token_after].
  - by exists journal.
  - exists token. split; [done|by left].
Qed.

Lemma request_failure_transition i e f job attempt generation next kind outcome (db db' : Db) u :
  commit_request_failure now gen_random_uuid snapshot job attempt generation next kind outcome db = Ok (u, db') ->
  transition None None (Advanced i e f next) db db'.
Proof using Type.
  intros H. unfold commit_request_failure, append_fanout_transition_log in H. run H. steps.
  eapply (transition_intro _ None _ row _ false [token] _ db); [done|reflexivity|reflexivity|reflexivity|done..| |done| |by apply items_same]; cbn [row_after token_after].
  - by exists (i_state row).
  - exists token. split; [done|by left].
Qed.

Lemma when_transition i e f next output context (db db' : Db) u :
  commit_when now gen_random_uuid snapshot next output context db = Ok (u, db') -> transition (Some output) None (Advanced i e f next) db db'.
Proof using Type.
  intros H. unfold commit_when, append_transition_log, append_fanout_transition_log in H. run H. steps.
  eapply (transition_intro _ None _ row _ false [token] _ db); [done|reflexivity|reflexivity|reflexivity|done..| |done| |by apply items_same]; cbn [row_after token_after].
  - by exists journal.
  - exists token. split; [done|by left].
Qed.

Lemma output_transition i e s output (db db' : Db) u : commit_output snapshot output db = Ok (u, db') -> transition (Some output) None (Completed i e s) db db'.
Proof using Type.
  intros H. unfold commit_output, append_transition_log, append_fanout_transition_log in H. run H. apply next_version_fault in E as [-> _].
  assert (db0 = db) as ->.
  { unfold journal_with in Hrun. destruct (List.find _ _); [destruct (jsonb_set _ _ _); [|done]|]; by injection Hrun. }
  apply guarded_update_Ok in Hrun0 as (row & Hrow & ->); [|done]. destruct (journal_Ok _ _ _ _ _ Hrow Hrun) as [Hj _]. steps.
  pose proof (guarded_spec _ _ (the_guarded_spec _ _ Hrow)) as (_ & _ & Hc & _ & _).
  eapply (transition_intro _ None _ row _ false [] _ db); [done|reflexivity|by rewrite app_nil_r|reflexivity|done..| |done|done|by apply items_same]; cbn [row_after].
  exists output, a0. split; [done|]. split; [done|]. unfold bumped. by rewrite Hc.
Qed.

Lemma fail_transition i e s code f message (db db' : Db) u : commit_fail snapshot f message db = Ok (u, db') -> transition None None (Failed i e s code) db db'.
Proof using Type.
  intros H. unfold commit_fail, append_transition_log in H. run H. steps. transition_of row false (@nil EventRow); [by rewrite app_nil_r|by eexists|done].
Qed.

Lemma fanout_failure_transition i e s code f message (db db' : Db) u :
  commit_fanout_failure snapshot f message db = Ok (u, db') -> transition None None (Failed i e s code) db db'.
Proof using Type.
  intros H. unfold commit_fanout_failure, append_transition_log in H. run H. steps.
  transition_of row false (@nil EventRow); [by rewrite app_nil_r|by eexists|done].
Qed.

(** ** Fan-outs *)

Lemma insert_items {A} (row : A -> ItemRow) l (db db' : Db) n : for_each_row (fun a => insert_item (row a)) l db = Ok (n, db') ->
  n = List.length l /\ db' = with_items db (items db ++ map row l).
Proof using Type.
  revert db n. induction l as [|a l IH]; intros db n H; cbn [for_each_row] in H.
  - apply ret_Ok in H as [-> ->]. rewrite app_nil_r. by destruct db.
  - run H. apply insert_item_Ok in Hrun as (_ & _ & ->). apply IH in Hrun0 as [-> ->]. cbn. by rewrite <- app_assoc.
Qed.

Lemma insert_jobs l (db db' : Db) n : for_each_row insert_job l db = Ok (n, db') -> db' = with_jobs db (jobs db ++ l).
Proof using Type.
  revert db n. induction l as [|a l IH]; intros db n H; cbn [for_each_row] in H.
  - apply ret_Ok in H as [_ ->]. rewrite app_nil_r. by destruct db.
  - run H. apply insert_job_row in Hrun as [-> ->]. apply IH in Hrun0 as ->. cbn. by rewrite <- app_assoc.
Qed.

Definition item_event (version : Z) (key : string) (before : Db) (entry : Uuid) (ordinal_ : Z) (identity_ : string) : EventRow :=
  new_event now gen_random_uuid snapshot "fanout_item" (fanout_payload snapshot version entry ordinal_ identity_) key (At now) EPending before.

Lemma insert_item_events version l (db db' : Db) n : is_pending db ->
  for_each_row (append_item_event now gen_random_uuid snapshot version) l db = Ok (n, db') ->
  exists fresh, db' = with_events db (events db ++ fresh) /\ map (settled false) fresh = fresh
    /\ (forall item, In item l -> exists key before, In (item_event version key before (event_id snapshot) (ordinal item) (item_key_identity item)) fresh).
Proof using Type.
  revert db n. induction l as [|item l IH]; intros db n Hp H; cbn [for_each_row] in H.
  - apply ret_Ok in H as [_ ->]. exists []. rewrite app_nil_r. by destruct db.
  - run H. unfold append_item_event in Hrun. run Hrun. apply append_event_Ok in Hrun as (_ & Hno & ->).
    set (row := new_event _ _ _ _ _ _ _ _ _) in *. pose proof (settled_fresh row db Hp eq_refl Hno) as Hset.
    apply IH in Hrun0 as (fresh & -> & Hfresh & Hin); [|by unfold is_pending; cbn; rewrite existsb_app, Hp].
    exists (row :: fresh). cbn. rewrite <- app_assoc, Hset, Hfresh. split; [done|]. split; [done|].
    intros it [->|Hit]; [eexists _, db; left; reflexivity|].
    destruct (Hin it Hit) as (key & before & H). exists key, before. by right.
Qed.

Lemma enumerate_flags {A} (l : list A) (k : nat) :
  List.length (List.filter (fun b : bool => b) (map (fun x : nat * A => (x.1 <? k)%nat) (enumerate l))) = Nat.min k (List.length l).
Proof using Type.
  unfold enumerate. enough (H : forall s, List.length (List.filter (fun b : bool => b) (map (fun x : nat * A => (x.1 <? k)%nat) (combine (seq s (List.length l)) l)))
    = Nat.min (k - s) (List.length l)) by (rewrite H; f_equal; lia).
  induction l as [|a l IH]; intros s; [cbn; lia|]. cbn [List.length seq combine map fst List.filter].
  destruct (Nat.ltb_spec s k); cbn [List.length]; rewrite IH; lia.
Qed.

Lemma scheduled_flags (rows : list ItemRow) flags : map (fun row => bool_decide (f_status row = FScheduled)) rows = flags ->
  List.length (List.filter (fun row => bool_decide (f_status row = FScheduled)) rows) = List.length (List.filter (fun b : bool => b) flags).
Proof using Type. intros <-. induction rows as [|r rows IH]; cbn; [done|]. destruct (bool_decide _); cbn; by rewrite IH. Qed.

(** The rows of an expansion: every item has one, the first of them are
    scheduled, and those have a token. *)
Definition expanded (items_ : list PreparedFanOutItem) (scheduled : nat) (fresh : list EventRow) (db' : Db) (rows : list ItemRow) : Prop :=
  List.length rows = List.length items_ /\ (forall row, In row rows -> In row (items db') /\ of_state snapshot row = true /\ f_failure row = None)
  /\ map (fun row => bool_decide (f_status row = FScheduled)) rows = map (fun x : nat * PreparedFanOutItem => (x.1 <? scheduled)%nat) (enumerate items_)
  /\ (forall row, In row rows -> f_status row = FScheduled -> item_token fresh db' row).

Lemma fanout_item_row_own active job item : of_state snapshot (fanout_item_row snapshot active job item) = true
  /\ f_failure (fanout_item_row snapshot active job item) = None.
Proof using Type. unfold of_state. cbn. by rewrite !String.eqb_refl. Qed.

Lemma fanout_item_row_spec active job item : of_state snapshot (fanout_item_row snapshot active job item) = true
  /\ bool_decide (f_status (fanout_item_row snapshot active job item) = FScheduled) = active.
Proof using Type. unfold of_state. cbn. rewrite !String.eqb_refl. by destruct active. Qed.

Lemma In_enumerate {A} (l : list A) k x : In (k, x) (enumerate l) -> In x (firstn (S k) l).
Proof using Type.
  unfold enumerate. enough (H : forall s, In (k, x) (combine (seq s (List.length l)) l) -> (s <= k)%nat /\ In x (firstn (S (k - s)) l))
    by (intros Hin; apply H in Hin as [_ Hin]; by rewrite Nat.sub_0_r in Hin).
  induction l as [|a l IH]; intros s; cbn; [done|]. intros [[= -> ->]|Hin]; [split; [lia|by left]|].
  apply IH in Hin as [Hle Hin]. split; [lia|]. right. replace (k - s)%nat with (S (k - S s))%nat by lia. exact Hin.
Qed.

Lemma command_items_Ok items_ scheduled (db db' : Db) u : is_pending db ->
  insert_command_fanout_items now gen_random_uuid snapshot items_ (snapshot_version snapshot + 1) scheduled db = Ok (u, db') ->
  exists rows fresh, db' = with_events (with_items db (items db ++ rows)) (events db ++ fresh) /\ map (settled false) fresh = fresh
    /\ expanded items_ scheduled fresh db' rows.
Proof using Type.
  intros Hp H. unfold insert_command_fanout_items in H. run H. apply insert_items in Hrun as [_ ->].
  apply insert_item_events in Hrun0 as (fresh & -> & Hfresh & Hin); [|done].
  set (row := fun nitem : nat * PreparedFanOutItem => fanout_item_row snapshot (nitem.1 <? scheduled)%nat None nitem.2) in *.
  exists (map row (enumerate items_)), fresh. split; [done|]. split; [done|]. split; [|split; [|split]].
  - rewrite length_map. unfold enumerate. rewrite length_combine, length_seq. lia.
  - intros r Hr. split; [cbn; apply in_or_app; by right|]. apply in_map_iff in Hr as (x & <- & _). apply fanout_item_row_own.
  - rewrite map_map. apply map_ext. intros x. apply fanout_item_row_spec.
  - intros r Hr Hst. left. apply in_map_iff in Hr as ([k item] & <- & Hx). unfold row in Hst |- *. cbn [fst snd] in *.
    destruct (Nat.ltb_spec k scheduled) as [Hk|]; [|done].
    apply (Hin item). apply In_enumerate in Hx. rewrite <- (firstn_skipn (S k) (firstn scheduled items_)). apply in_or_app. left.
    rewrite firstn_firstn. by replace (Nat.min (S k) scheduled) with (S k) by lia.
Qed.

Lemma map_result_Forall2 {E A B} (f : A -> result E B) l bs : map_result f l = Ok bs -> Forall2 (fun a b => f a = Ok b) l bs.
Proof using Type.
  revert bs. induction l as [|a l IH]; cbn; intros bs; [by intros [= <-]|].
  destruct (f a) as [b|] eqn:Ef; [|done]. cbn. destruct (map_result f l) as [bs'|]; [|done]. cbn. intros [= <-]. constructor; auto.
Qed.

Lemma request_items_Ok request items_ scheduled (db db' : Db) u : insert_request_fanout_items now snapshot request items_ scheduled db = Ok (u, db') ->
  exists rows jrows, db' = with_items (with_jobs db (jobs db ++ jrows)) (items db ++ rows) /\ expanded items_ scheduled [] db' rows.
Proof using Type.
  intros H. unfold insert_request_fanout_items, i64_milliseconds in H. run H.
  match goal with H : map_result _ _ = Ok ?d |- _ => rename d into descriptors; pose proof (map_result_Forall2 _ _ _ H) as Hd; clear H end.
  match goal with H : for_each_row insert_job _ _ = _ |- _ => apply insert_jobs in H as -> end.
  match goal with H : for_each_row insert_item _ _ = _ |- _ => apply (insert_items (fun r => r)) in H as [_ ->] end.
  rewrite map_id. exists (map snd descriptors), (map fst descriptors). split; [done|].
  assert (Hrow : Forall2 (fun (x : nat * PreparedFanOutItem) (d : JobRow * ItemRow) => exists schedule request' id logical input,
      d.1 = activity_row snapshot request' id logical input (if (x.1 <? scheduled)%nat then At now else Infinity)
              (if (x.1 <? scheduled)%nat then instant_after now schedule else Infinity)
      /\ d.2 = fanout_item_row snapshot (x.1 <? scheduled)%nat (Some (j_id d.1)) x.2) (enumerate items_) descriptors).
  { eapply Forall2_impl; [exact Hd|]. intros [k item] d Hf. cbn [fst snd] in *. unfold fanout_job in Hf.
    destruct (item_request item) as [input|]; [|done]. cbn [mbind result_bind] in Hf.
    destruct (fanout_logical_activity_id _ _) as [logical|]; [|done]. cbn [mbind result_bind] in Hf. injection Hf as <-. by eexists _, _, _, _, _. }
  clear Hd. split; [|split; [|split]].
  - rewrite length_map, <- (Forall2_length _ _ _ Hrow). unfold enumerate. rewrite length_combine, length_seq. lia.
  - intros r Hr. split; [cbn; apply in_or_app; by right|]. apply in_map_iff in Hr as (d & <- & Hin).
    destruct (Forall2_In_r _ _ _ _ Hrow Hin) as (x & _ & _ & _ & _ & _ & _ & _ & ->). apply fanout_item_row_own.
  - induction Hrow as [|x d xs ds (sc & rq & id & lg & inp & _ & Hd) Hrow IH]; [done|]. cbn [map]. rewrite IH, Hd. f_equal. apply fanout_item_row_spec.
  - intros r Hr Hst. right. apply in_map_iff in Hr as (d & <- & Hin).
    destruct (Forall2_In_r _ _ _ _ Hrow Hin) as (x & _ & sc & rq & id & lg & inp & Hj & Hi). rewrite Hi in Hst. unfold fanout_item_row in Hst. cbn [f_status] in Hst.
    destruct (x.1 <? scheduled)%nat eqn:Ek; [|done]. exists d.1. split; [cbn; apply in_or_app; right; by apply in_map|].
    rewrite Hi, Hj. done.
Qed.

(** What is recorded is an output of the state. *)
Definition validated (definition : CompiledProcessDefinition) (output : option Value) : Prop :=
  forall o, output = Some o -> validate_state_output definition snapshot o = Ok tt.

(** An instance that advances goes to the state with an output. *)
Definition records (definition : CompiledProcessDefinition) (output : option Value) (to_state : string) (c : TransitionConsumption) : Prop :=
  (forall to, advances_to c = Some to -> to = to_state /\ is_some output = true) /\ validated definition output.

Lemma fault_of_Ok {A} (m : outcome A) a : fault_of m = Ok a -> m = Ok a.
Proof using Type. destruct m; by intros [= ->]. Qed.

Lemma validated_context {A} message (m : outcome A) a : with_context message (fault_of m) = Ok a -> m = Ok a.
Proof using Type. destruct m; by intros [= ->]. Qed.

(** A fan-out with items schedules as many of them as may run at once. *)
Definition expands (state : CompiledProcessForEachState) (items_ : list PreparedFanOutItem) (c : TransitionConsumption) : Prop :=
  items_ = [] \/ exists i e s, c = FanOutExpanded i e s (List.length items_) (Nat.min (List.length items_) (Z.to_nat (fan_max_concurrency state))).

Lemma expansion_transition definition state items_ (db db' : Db) c : is_pending db ->
  commit_fanout_expansion now gen_random_uuid snapshot definition state items_ db = Ok (c, db') ->
  exists output, transition output None c db db' /\ records definition output (fan_next state) c /\ expands state items_ c.
Proof using Type.
  intros Hp H. destruct items_ as [|item items_]; unfold commit_fanout_expansion, append_transition_log, append_fanout_transition_log in H.
  - run H. apply validated_context in E. destruct a. steps. exists (Some empty_fanout_output).
    split; [|split; [split; [by intros to [= <-]|by intros o [= <-]]|by left]].
    eapply (transition_intro _ None _ row _ false [token] _ db); [done|reflexivity|reflexivity|reflexivity|done..| |done| |by apply items_same]; cbn [row_after token_after].
    + by exists journal.
    + exists token. split; [done|by left].
  - run H. apply next_version_fault in E as [-> _]. exists None. split; [|split; [by split|right; by do 3 eexists]].
    assert (Hins : exists rows fresh jrows, db0 = with_events (with_items (with_jobs db (jobs db ++ jrows)) (items db ++ rows)) (events db ++ fresh)
      /\ map (settled false) fresh = fresh
      /\ expanded (item :: items_) (Nat.min (List.length (item :: items_)) (Z.to_nat (fan_max_concurrency state))) fresh db0 rows).
    { destruct (fan_activity state).
      - apply command_items_Ok in Hrun as (rows & fresh & -> & Hf & He); [|done]. exists rows, fresh, []. rewrite app_nil_r. by destruct db.
      - apply request_items_Ok in Hrun as (rows & jrows & -> & He). exists rows, [], jrows. rewrite app_nil_r. by destruct db. }
    destruct Hins as (rows & fresh & jrows & -> & Hf & Hlen & Hin & Hflags & Htok). clear Hrun. steps.
    eapply (transition_intro _ None _ row _ false fresh _ db); [exact Hrow|reflexivity|cbn; by rewrite map_app, Hf|reflexivity|done..| |]; cbn [row_after token_after].
    + split; [cbn; lia|]. exists rows. split; [done|]. split; [intros it Hit; by destruct (Hin it Hit) as (? & ? & _)|]. split; [|exact Htok].
      rewrite (scheduled_flags _ _ Hflags), enumerate_flags. lia.
    + apply items_added. intros it Hit. by destruct (Hin it Hit) as (_ & ? & ?).
Qed.

Lemma update_items_Ok w set (db db' : Db) n failure : (forall r, w r = true -> of_state snapshot r = true
    /\ (f_source (set r) = f_source r /\ f_instance (set r) = f_instance r /\ f_state (set r) = f_state r)
    /\ (f_failure (set r) = f_failure r \/ f_failure (set r) = failure)) ->
  update_items w set db = Ok (n, db') -> exists t, db' = with_items db t /\ items_after failure (items db) t.
Proof using Type.
  intros Hset. unfold update_items, checked_update. destruct (forallb _ _); [|done]. intros [= <- <-]. eexists. split; [reflexivity|].
  intros item (r & <- & Hin)%in_map_iff. destruct (w r) eqn:E; [|left; by exists r]. destruct (Hset r E) as (Ho & (Hs & Hi & Ht) & [Hf|Hf]).
  - left. by exists r.
  - right. unfold of_state in Ho. rewrite !andb_true_iff, !String.eqb_eq in Ho. destruct Ho as [[? ?] ?]. rewrite Hs, Hi, Ht. auto.
Qed.

Lemma update_jobs_Ok w set (db db' : Db) n : update_jobs w set db = Ok (n, db') -> exists j, db' = with_jobs db j.
Proof using Type. intros [= <- <-]. by eexists. Qed.

Lemma by_ordinal_head rows next rest : order_by by_ordinal rows = next :: rest ->
  In next rows /\ forall other, In other rows -> f_ordinal next <= f_ordinal other.
Proof using Type.
  intros H. destruct (order_by_head by_ordinal) with (rows := rows) (r := next) as [Hin Hle]; [| |by rewrite H|].
  1,2: unfold by_ordinal; intros; rewrite ?Z.leb_gt, ?Z.leb_le in *; lia.
  split; [done|]. intros other Ho. apply Z.leb_le. exact (Hle other Ho).
Qed.

Lemma nothing_waits (P : ItemRow -> bool) rows : order_by by_ordinal (List.filter P rows) = [] -> forall item, In item rows -> P item = false.
Proof using Type.
  intros H item Hin. destruct (P item) eqn:E; [|done]. exfalso. apply (in_nil (a := item)). rewrite <- H. apply order_by_iff, filter_In. by split.
Qed.

Lemma updated_item w set (db db' : Db) n item : update_items w set db = Ok (n, db') -> In item (items db) -> w item = true -> In (set item) (items db').
Proof using Type.
  unfold update_items, checked_update. destruct (forallb _ _); [|done]. intros [= _ <-] Hin Hw. cbn. apply in_map_iff. exists item. by rewrite Hw.
Qed.

Lemma own_ordinal next : of_state snapshot next = true -> of_state snapshot next && (f_ordinal next =? f_ordinal next) = true.
Proof using Type. intros ->. by rewrite Z.eqb_refl. Qed.

Lemma schedules_item ordinal (db db' : Db) n :
  update_items (fun row => of_state snapshot row && (f_ordinal row =? ordinal)) (fun row => set_item row FScheduled (f_result row) (f_failure row)) db = Ok (n, db') ->
  exists t, db' = with_items db t /\ items_after None (items db) t.
Proof using Type. intros H. eapply update_items_Ok; [|exact H]. intros r [Hr _]%andb_true_iff. auto. Qed.

Lemma activate_command_Ok command (db db' : Db) b : activate_next_command_fanout_item now gen_random_uuid snapshot db = Ok (b, db') ->
  exists t fresh, items_after None (items db) t /\ db' = with_events (with_items db t) (events db ++ fresh) /\ next_turn (ForEachCommand command) db db'.
Proof using Type.
  intros H. unfold activate_next_command_fanout_item in H. run H. destruct (order_by _ _) as [|next rest] eqn:E in H.
  - apply ret_Ok in H as [_ ->]. exists (items db), []. rewrite app_nil_r. split; [by apply items_same|]. split; [by destruct db|].
    left. intros item (Hin & Ho & Hp & _). pose proof (nothing_waits _ _ E item Hin) as Hno. cbv beta in Hno. by rewrite Ho, Hp, bool_decide_eq_true_2 in Hno.
  - apply by_ordinal_head in E as [Hin Hle]. apply filter_In in Hin as [Hin [Ho Hp%bool_decide_eq_true]%andb_true_iff].
    run H. pose proof (updated_item _ _ _ _ _ next Hrun Hin (own_ordinal _ Ho)) as Hnext. apply schedules_item in Hrun as (t & -> & Ht).
    apply append_event_Ok in Hrun0 as (_ & _ & ->). eexists t, _. split; [done|]. split; [done|]. right. exists next. eexists. split; [by repeat split|]. split; [|split; [exact Hnext|split; [by repeat split|split; [done|]]]].
    + intros other (H1 & H2 & H3 & _). apply Hle, filter_In. by rewrite H2, bool_decide_eq_true_2.
    + eexists _, _. cbn [events with_events with_items]. apply in_or_app. right. left. reflexivity.
Qed.

Lemma activate_request_Ok request (db db' : Db) b :
  activate_next_request_fanout_item now snapshot (schedule_to_start_ms (activity request)) db = Ok (b, db') ->
  exists t j, items_after None (items db) t /\ db' = with_jobs (with_items db t) j /\ next_turn (ForEachRequest request) db db'.
Proof using Type.
  intros H. unfold activate_next_request_fanout_item, i64_milliseconds in H. run H.
  destruct (order_by _ _) as [|next rest] eqn:Es in H.
  - apply ret_Ok in H as [_ ->]. exists (items db), (jobs db). split; [by apply items_same|]. split; [by destruct db|].
    left. intros item (Hin & Ho & Hp & Hj). pose proof (nothing_waits _ _ Es item Hin) as Hno. cbv beta in Hno.
    apply existsb_exists in Hj. by rewrite Ho, Hp, Hj, bool_decide_eq_true_2 in Hno.
  - apply by_ordinal_head in Es as [Hin Hle]. apply filter_In in Hin as [Hin [[Ho Hp%bool_decide_eq_true]%andb_true_iff Hj]%andb_true_iff].
    apply existsb_exists in Hj as (job & Hjob & Hwait). assert (a = schedule_to_start_ms (activity request)) as -> by (unfold checked in E; destruct (in_range _ _ _); [by injection E|done]).
    run H. pose proof (updated_item _ _ _ _ _ next Hrun Hin (own_ordinal _ Ho)) as Hnext. apply schedules_item in Hrun as (t & -> & Ht).
    injection Hrun0 as _ <-. eexists t, _. split; [done|]. split; [done|]. right. exists next. eexists. split; [by repeat split; eauto|].
    split; [|split; [exact Hnext|split; [by repeat split|split; [done|]]]].
    + intros other (H1 & H2 & H3 & H4). apply Hle, filter_In. apply existsb_exists in H4. by rewrite H2, H4, bool_decide_eq_true_2.
    + exists job, (set_job_due now job (instant_after now (schedule_to_start_ms (activity request)))). split; [done|]. split; [done|].
      pose proof Hwait as Hst'. unfold waiting_job in Hst'. rewrite !andb_true_iff, bool_decide_eq_true in Hst'. destruct Hst' as [[_ Hst'] _].
      split; [|by repeat split]. cbn. apply in_map_iff. exists job. split; [|done].
      unfold waiting_job in Hwait. rewrite !andb_true_iff in Hwait. destruct Hwait as [[[Hs Hk] Hst] _]. unfold of_state in Ho.
      rewrite !andb_true_iff, String.eqb_eq in Ho. destruct Ho as [[Ho _] _]. rewrite Ho in Hs. by rewrite Hs, Hk, Hst.
Qed.

Lemma activate_Ok state (db db' : Db) b : activate_next_fanout_item now gen_random_uuid snapshot state db = Ok (b, db') ->
  exists t j fresh, items_after None (items db) t /\ db' = with_events (with_jobs (with_items db t) j) (events db ++ fresh)
    /\ next_turn (fan_activity state) db db'.
Proof using Type.
  intros H. unfold activate_next_fanout_item in H. destruct (fan_activity state) as [command|request].
  - apply (activate_command_Ok command) in H as (t & fresh & Ht & -> & Hn). exists t, (jobs db), fresh. by destruct db.
  - apply activate_request_Ok in H as (t & j & Ht & -> & Hn). exists t, j, []. rewrite app_nil_r. by destruct db.
Qed.

(** The turn of the next item is the same where more items have ended, more
    events are settled or are added. *)
Lemma next_turn_weaken each (db1 db1' db db' : Db) : next_turn each db1 db1' ->
  (forall item, waits each db item <-> waits each db1 item) -> jobs db1 = jobs db -> jobs db' = jobs db1' -> items db' = items db1' ->
  incl (events db1') (events db') -> next_turn each db db'.
Proof using Type.
  intros H Hw Hj Hj' Hi He. destruct H as [H|(item & item' & H1 & H2 & H3 & Hsame & Hst & H4)]; [left; intros item; rewrite Hw; apply H|right].
  exists item, item'. rewrite Hi, Hw. split; [done|]. split; [intros other; rewrite Hw; apply H2|]. do 3 (split; [done|]). destruct each; cbn in *.
  - destruct H4 as (key & before & H4). exists key, before. by apply He.
  - rewrite Hj', <- Hj. exact H4.
Qed.

Lemma moved_same db row : the_guarded db row -> moved row (instances db) = instances db.
Proof using Type.
  intros H. rewrite <- (moved_the_guarded db row (fun r => r) H). rewrite <- (map_id (instances db)) at 2. apply map_ext. intros r. by destruct (guarded snapshot r).
Qed.

Lemma unfinished_item (db : Db) : (0 <? List.length (List.filter (fun row =>
    of_state snapshot row && (bool_decide (f_status row = FPending) || bool_decide (f_status row = FScheduled))) (items db)))%nat = true ->
  exists item, In item (items db) /\ of_state snapshot item = true /\ (f_status item = FPending \/ f_status item = FScheduled).
Proof using Type.
  clear gen_random_uuid run_command. destruct (List.filter _ _) as [|item rest] eqn:E; [done|]. intros _. exists item.
  assert (Hin : In item (item :: rest)) by by left. rewrite <- E in Hin. apply filter_In in Hin as [Hin Hi].
  rewrite andb_true_iff, orb_true_iff, !bool_decide_eq_true in Hi. tauto.
Qed.

(** The failure of an item that completes, and the items that are collected when
    it is the last. *)
Definition failure_of (item : CompletedItem) : option Value :=
  match completed_outcome item with Ok _ => None | Err failure => Some (failure_json failure) end.

Definition collects (definition : CompiledProcessDefinition) (state : CompiledProcessForEachState) (output : option Value) (db db' : Db)
    (c : TransitionConsumption) : Prop :=
  (forall to, advances_to c = Some to -> exists collected,
     collect_rows state (order_by by_ordinal (List.filter (of_state snapshot) (items db'))) = Ok collected
     /\ to = collected_next collected /\ output = Some (collected_output collected))
  /\ validated definition output /\ next_turn (fan_activity state) db db'.

Lemma finish_Ok item (db db' : Db) u : finish_item snapshot item db = Ok (u, db') ->
  exists t, db' = with_items db t /\ items_after (failure_of item) (items db) t /\ (forall r, f_status r = FPending -> In r t <-> In r (items db)).
Proof using Type.
  intros H. unfold finish_item in H. run H.
  assert (Hpend : forall r, f_status r = FPending -> In r (items db0) <-> In r (items db)).
  { intros r Hr. revert Hrun. unfold update_items, checked_update. destruct (forallb _ _); [|done]. intros [= _ <-]. cbn.
    assert (Hkept : forall r', f_status r' = FPending -> completes snapshot item r' = false).
    { intros r' Hr'. unfold completes. rewrite Hr', (bool_decide_eq_false_2 (FPending = FScheduled)), andb_false_r by done. done. }
    rewrite in_map_iff. split; [|intros Hin; exists r; by rewrite Hkept]. intros (r' & Hset & Hin).
    destruct (completes snapshot item r') eqn:Ec; [|by subst r']. by destruct (completed_outcome item); subst r. }
  enough (exists t, db0 = with_items db t /\ items_after (failure_of item) (items db) t) as (t & -> & Ht) by (by exists t).
  clear Hpend. eapply update_items_Ok; [|exact Hrun]. intros r Hr. unfold completes in Hr.
  do 5 (apply andb_true_iff in Hr as [Hr _]). split; [done|]. unfold failure_of. destruct (completed_outcome item); cbn; auto.
Qed.

Lemma completion_transition definition state item (db db' : Db) c row : the_guarded db row ->
  commit_fanout_item_completion now gen_random_uuid snapshot definition state item db = Ok (c, db') ->
  exists output, transition output (failure_of item) c db db' /\ collects definition state output db db' c.
Proof using Type.
  intros Hguard H. unfold commit_fanout_item_completion in H. run H.
  match goal with H : finish_item _ _ _ = _ |- _ => apply finish_Ok in H as (t & -> & Ht & Hpend) end.
  match goal with H : consume_event _ _ = _ |- _ => apply consume_Ok in H as -> end.
  match goal with H : activate_next_fanout_item _ _ _ _ _ = _ |- _ => apply activate_Ok in H as (t2 & j & fresh & Ht2 & -> & Hturn) end.
  assert (Hwaits : forall events_ i, waits (fan_activity state) db i <-> waits (fan_activity state) (with_events (with_items db t) events_) i).
  { intros events_ i. unfold waits. cbn. split; intros (H1 & H2 & H3 & H4); (split; [by apply Hpend|done]). }
  assert (Hitems : items_after (failure_of item) (items db) t2).
  { eapply items_trans; [exact Ht|]. intros it Hit. destruct (Ht2 it Hit) as [|(? & ? & ? & Hn)]; [by left|]. right. repeat split; try done. left. by destruct Hn. }
  match type of H with (if ?b then _ else _) _ = _ => destruct b eqn:Hunf end.
  - assert (Hlog : exists entry, db' = with_logs (with_events (with_jobs (with_items (with_events (with_items db t) (map (settled false) (events db))) t2) j)
                       (map (settled false) (events db) ++ fresh)) (logs db ++ [entry])
        /\ l_instance entry = snapshot_instance snapshot /\ l_event entry = Some (event_id snapshot) /\ l_from_state entry = Some (current_state snapshot)
        /\ l_to_state entry = current_state snapshot
        /\ c = FanOutItemCompleted (snapshot_instance snapshot) (event_id snapshot) (current_state snapshot) (completed_ordinal item)).
    { destruct (completed_outcome item); cbv beta iota in H; run H; unfold append_fanout_transition_log in *;
        match goal with H : insert_log _ _ = _ |- _ => apply log_Ok in H as -> end; eexists; repeat split. }
    destruct Hlog as (entry & -> & H1 & H2 & H3 & H4 & ->). exists None. split.
    2: { split; [done|]. split; [done|]. eapply next_turn_weaken; [exact Hturn|apply Hwaits|reflexivity..|apply incl_refl]. }
    eapply (transition_intro _ _ _ row row false fresh entry db); [done|symmetry; exact (moved_same db row Hguard)|reflexivity|reflexivity|done..| |exact Hitems]; cbn [token_after].
    apply unfinished_item in Hunf. exact Hunf.
  - unfold append_fanout_transition_log in H. run H.
    match goal with H : with_context _ _ = Ok ?a |- _ => apply validated_context in H as Hvalid; destruct a end.
    match goal with H : fault_of _ = Ok ?a |- _ => rename a into collected, H into Hcollect end. steps.
    exists (Some (collected_output collected)). split.
    + eapply (transition_intro _ _ _ row0 _ false (fresh ++ [token]) _ db);
        [exact Hrow|reflexivity|cbn; by rewrite <- app_assoc|reflexivity|done..| |done| |exact Hitems]; cbn [row_after token_after].
      * by exists journal.
      * exists token. split; [done|apply in_or_app; right; by left].
    + split; [|split; [by intros o [= <-]|]].
      * intros to [= <-]. exists collected. cbn. split; [by apply fault_of_Ok in Hcollect|done].
      * eapply next_turn_weaken; [exact Hturn|apply Hwaits|reflexivity..|]. cbn. apply incl_appl, incl_refl.
Qed.

(** ** Commands *)

Lemma savepoint_Ok mutation (db db' : Db) outcome : execute_process_command_in_savepoint run_command mutation db = Ok (outcome, db') ->
  exists outbox, db' = with_application db outbox.
Proof using Type.
  assert (Hid : exists outbox, db = with_application db outbox) by (exists (application db, (start_requests db, signal_requests db)); by destruct db).
  unfold execute_process_command_in_savepoint. destruct (run_command _ _) as [[[result_|] outbox]|error]; [intros [= <- <-]; by exists outbox|done|].
  destruct (decode_command_business_rejection error); [by intros [= <- <-]|].
  destruct (unrecoverable_command_failure _); [by intros [= <- <-]|]. by destruct error.
Qed.

Lemma transition_application output failure c outbox (db db' : Db) :
  transition output failure c (with_application db outbox) db' -> transition output failure c db db'.
Proof using Type.
  intros [(row & row' & closing & fresh & entry & Hg & [Hi He Hl (H1 & H2 & H3)] & Hrow & Hto & Htok) Hitems].
  exact (transition_intro output failure c row row' closing fresh entry db db' Hg Hi He Hl H1 H2 H3 Hrow Hto Htok Hitems).
Qed.

Lemma command_transition definition activity next mutation (db db' : Db) c :
  consume_prepared_command now gen_random_uuid run_command snapshot definition activity next mutation db = Ok (c, db') ->
  exists output, transition output None c db db' /\ records definition output next c.
Proof using Type.
  intros H. unfold consume_prepared_command in H. run H. apply savepoint_Ok in Hrun as [outbox ->]. destruct a as [result_|error|code].
  - destruct (validate_state_output definition snapshot result_) as [[]|] eqn:Hv; run H.
    + exists (Some result_). split; [|split; [by intros to [= <-]|by intros o [= <-]]].
      apply (transition_application _ _ _ outbox). eapply applied_command_transition; exact Hrun.
    + exists None. split; [|by split]. apply (transition_application _ _ _ outbox). eapply failed_command_transition; exact Hrun.
  - run H. exists None. split; [|by split]. apply (transition_application _ _ _ outbox). eapply rejected_command_transition; exact Hrun.
  - run H. exists None. split; [|by split]. apply (transition_application _ _ _ outbox). eapply failed_command_transition; exact Hrun.
Qed.

(** Where the failure of an item of a fan-out may lead. *)
Definition fanout_route (state : CompiledProcessForEachState) (route : string) : Prop :=
  route = fan_next state
  \/ exists request, fan_activity state = ForEachRequest request
       /\ ((exists kind, route = fanout_request_error_route request kind (fan_next state)) \/ on_ambiguous (activity request) = Some route).

Definition fails_along (state : CompiledProcessForEachState) (failure : option Value) : Prop :=
  failure = None \/ exists f, failure = Some (failure_json f) /\ fanout_route state (failure_route f).

Lemma fanout_failure_route item key identity stage code message reconciliation route kind f :
  fanout_failure snapshot item key identity stage code message reconciliation route kind = Ok f -> failure_route f = route.
Proof using Type.
  unfold fanout_failure. destruct (fanout_logical_activity_id _ _); [|done]. cbn [mbind result_bind].
  destruct (fault_of _); [|done]. cbn [mbind result_bind]. by intros [= <-].
Qed.

Lemma request_item_fails state request item key identity completion r : fan_activity state = ForEachRequest request ->
  request_item_outcome snapshot state request key identity item completion = Ok r ->
  match r with Ok _ => True | Err f => fanout_route state (failure_route f) end.
Proof using Type.
  intros Hr H. unfold request_item_outcome in H. destruct completion as [result_|error].
  - destruct (merge_fanout_success_item _ _ _); [by injection H as <-|].
    destruct (fanout_failure _ _ _ _ _ _ _ _ _ _) as [f|] eqn:E; [|done]. cbn in H. injection H as <-.
    right. exists request. split; [done|]. left. exists "invariant". by apply fanout_failure_route in E.
  - cbv zeta in H. destruct (fanout_logical_activity_id _ _); [|done]. cbn [mbind result_bind] in H. destruct (fanout_failure_output _ _ _ _ _ _ _); [|done]. cbn [mbind result_bind] in H.
    destruct (is_ambiguous_send error).
    + destruct (on_ambiguous (activity request)) as [route|] eqn:Ea; [|done]. cbn in H. injection H as <-. right. exists request. by split; [|right].
    + cbn in H. injection H as <-. right. exists request. split; [done|]. left. by eexists.
Qed.

Lemma command_item_fails definition state command item key identity outcome r :
  command_item_outcome snapshot definition state command key identity item outcome = Ok r ->
  match r with Ok _ => True | Err f => fanout_route state (failure_route f) end.
Proof using Type.
  intros H. unfold command_item_outcome in H.
  assert (Hfail : forall code message kind, (failure ← fanout_failure snapshot item key identity "command" code message false (fan_next state) kind;
     Ok (Err failure)) = Ok r -> match r with Ok _ => True | Err f => fanout_route state (failure_route f) end).
  { intros code message kind E. apply bind_Ok in E as (f & Ef & E). injection E as <-. left.
    by apply fanout_failure_route in Ef. }
  destruct outcome; [|by eapply Hfail|by eapply Hfail]. do 2 (apply bind_Ok in H as (? & _ & H)). destruct (merge_fanout_success_item _ _ _); [by injection H as <-|]. by eapply Hfail.
Qed.

Lemma failure_along state item r : completed_outcome item = r ->
  match r with Ok _ => True | Err f => fanout_route state (failure_route f) end -> fails_along state (failure_of item).
Proof using Type. intros <-. unfold failure_of. destruct (completed_outcome item) as [|f]; [by left|]. right. by exists f. Qed.

Lemma fanout_command_transition definition state ordinal key identity item mutation (db db' : Db) c row : the_guarded db row ->
  consume_prepared_fanout_command now gen_random_uuid run_command snapshot definition state ordinal key identity item mutation db = Ok (c, db') ->
  exists output failure, transition output failure c db db' /\ collects definition state output db db' c /\ fails_along state failure.
Proof using Type.
  intros Hg H. unfold consume_prepared_fanout_command in H. destruct (fan_activity state) as [command|]; [|by run H].
  run H. apply savepoint_Ok in Hrun as [outbox ->]. apply completion_transition with (row := row) in H as (output & Ht & Hc); [|exact Hg].
  exists output. eexists. split; [eapply transition_application; exact Ht|]. split; [done|]. eapply failure_along; [reflexivity|].
  eapply command_item_fails. eassumption.
Qed.

Lemma fanout_request_transition definition state ordinal key identity item job attempt generation completion (db db' : Db) c row : the_guarded db row ->
  commit_fanout_request_completion now gen_random_uuid snapshot definition state ordinal key identity item job attempt generation completion db
    = Ok (c, db') ->
  exists output failure, transition output failure c db db' /\ collects definition state output db db' c /\ fails_along state failure.
Proof using Type.
  intros Hg H. unfold commit_fanout_request_completion in H. destruct (fan_activity state) as [|request] eqn:Ea; [by run H|].
  run H. apply completion_transition with (row := row) in H as (output & Ht & Hc); [|exact Hg].
  exists output. eexists. split; [exact Ht|]. split; [done|]. eapply failure_along; [reflexivity|]. eapply request_item_fails; eassumption.
Qed.

(** ** The lock *)

Definition instance_conflicts (a b : InstanceRow) : bool := String.eqb (i_source a) (i_source b) && String.eqb (i_id a) (i_id b).

Lemma filter_keyed {R} (conflicts : R -> R -> bool) (f : R -> bool) rows row : keyed_table conflicts rows ->
  (forall a b, f a = true -> f b = true -> conflicts a b = true) -> In row rows -> f row = true -> List.filter f rows = [row].
Proof using Type.
  clear gen_random_uuid run_command. intros Hk Hf Hin Hrow. induction rows as [|r rows IH]; [done|].
  assert (Hk' : keyed_table conflicts rows) by (intros i j a b Ha Hb Hij; apply (Hk (S i) (S j)); auto).
  assert (Hother : forall r', In r' rows -> f r = true -> f r' = true -> False).
  { intros r' Hr' H1 H2. apply list_elem_of_In, list_elem_of_lookup in Hr' as [k Hk2]. specialize (Hk 0%nat (S k) r r' eq_refl Hk2 ltac:(done)).
    rewrite (Hf r r' H1 H2) in Hk. done. }
  cbn. destruct (f r) eqn:E.
  - destruct Hin as [->|Hin]; [|by destruct (Hother row)]. f_equal.
    destruct (List.filter f rows) as [|x xs] eqn:Ef; [done|]. exfalso.
    assert (Hx : In x (List.filter f rows)) by (rewrite Ef; by left). apply filter_In in Hx as [Hx Hfx]. eauto.
  - destruct Hin as [->|Hin]; [congruence|auto].
Qed.

Lemma guarded_conflicts a b : guarded snapshot a = true -> guarded snapshot b = true -> instance_conflicts a b = true.
Proof using Type.
  intros Ha Hb. apply guarded_spec in Ha as (Ha1 & Ha2 & _), Hb as (Hb1 & Hb2 & _). unfold instance_conflicts.
  by rewrite Ha1, Ha2, Hb1, Hb2, !String.eqb_refl.
Qed.

(** A snapshot that is locked is the instance: running, in the state and at the
    version it was read, with its event still pending. *)
Lemma lock_spec locked (db db' : Db) : keyed_table instance_conflicts (instances db) ->
  lock_prepared_snapshot now locked snapshot db = Ok (true, db') -> db' = db /\ is_pending db /\ exists row, the_guarded db row.
Proof using Type.
  intros Hk H. unfold lock_prepared_snapshot in H. apply query_Ok in H as [H ->]. split; [done|].
  destruct (List.find _ _) as [[event instance]|] eqn:E; [|done]. apply find_some in E as [Hin E]. apply in_prod_iff in Hin as [Hev Hins].
  unfold is_due, event_of_instance in E.
  repeat (apply andb_true_iff in E as [E ?]). symmetry in H. apply andb_true_iff in H as [Hv Hc].
  rewrite ?bool_decide_eq_true, ?String.eqb_eq, ?Z.eqb_eq in *.
  repeat match goal with H : _ && _ = true |- _ => apply andb_true_iff in H as [? ?] end.
  rewrite ?bool_decide_eq_true, ?String.eqb_eq in *. split.
  - apply existsb_exists. exists event. split; [done|]. unfold pending_event. by rewrite !andb_true_iff, !String.eqb_eq, bool_decide_eq_true.
  - exists instance. apply (filter_keyed instance_conflicts); [done|apply guarded_conflicts|done|].
    unfold guarded. rewrite !andb_true_iff, !String.eqb_eq, Z.eqb_eq, bool_decide_eq_true. repeat split; try done; congruence.
Qed.
End Effects.

Section Dispatch.
Context {serde : Serde} {digest : Digest} {uuids : Uuids} {runtime : ProcessRuntime} {postgres : Postgres} {Application : Type}.
Variable now : Z.
Variable gen_random_uuid : Database Application -> Uuid.
Variable run_command : CommandMutation -> Outbox Application ->
  result SqlFailure (option Value * Outbox Application).

(** Where a prepared transition leads an instance that advances, with the output
    it records, if any; a fan-out collects its items. *)
Definition leads (prepared : PreparedTransition) (output : option Value) (db db' : Database Application) (c : TransitionConsumption) : Prop :=
  let snapshot := prepared_snapshot prepared in
  match prepared with
  | PreparedCommand _ definition _ next _ => records snapshot definition output next c
  | PreparedFanOutExpansion _ definition state items_ => records snapshot definition output (fan_next state) c /\ expands state items_ c
  | PreparedFanOutCommandItem _ definition state _ _ _ _ _ | PreparedFanOutRequestCompletion _ definition state _ _ _ _ _ _ _ _ =>
      collects now gen_random_uuid snapshot definition state output db db' c
  | PreparedRequestSuccess _ state _ _ _ result_ => advances_to c = Some (compiled_request_next state)
      /\ output = Some result_
  | PreparedRequestFailure _ _ _ _ next _ | PreparedRequestAmbiguous _ _ _ _ next _ => advances_to c = Some next /\ output = None
  | PreparedOutput _ result_ => advances_to c = None /\ output = Some result_
  | PreparedWhen _ next result_ _ => advances_to c = Some next /\ output = Some result_
  | PreparedWaitCompletion _ next result_ _ _ => advances_to c = Some next /\ output = result_
  | _ => advances_to c = None /\ output = None
  end.

Definition fails (prepared : PreparedTransition) (failure : option Value) : Prop :=
  match prepared with
  | PreparedFanOutCommandItem _ _ state _ _ _ _ _ | PreparedFanOutRequestCompletion _ _ state _ _ _ _ _ _ _ _ => fails_along state failure
  | _ => failure = None
  end.

Definition happens (prepared : PreparedTransition) (c : TransitionConsumption) (db db' : Database Application) : Prop :=
  exists output failure, transition now gen_random_uuid (prepared_snapshot prepared) output failure c db db'
    /\ leads prepared output db db' c /\ fails prepared failure.

Lemma apply_transition prepared row (db db' : Database Application) c :
  is_pending (prepared_snapshot prepared) db -> the_guarded (prepared_snapshot prepared) db row ->
  apply_prepared now gen_random_uuid run_command prepared db = Ok (c, db') -> happens prepared c db db'.
Proof using Type.
  intros Hp Hg H. destruct prepared; cbn [prepared_snapshot apply_prepared leads fails] in *;
    try (apply txn_bind_Ok in H as (? & ? & H & Hret); apply ret_Ok in Hret as [-> ->]).
  all: try by (do 2 eexists; split; [eauto using request_schedule_transition, request_success_transition, request_failure_transition,
      when_transition, output_transition, fail_transition, wait_entry_transition, wait_completion_transition, fanout_failure_transition
    |repeat split; reflexivity]).
  - apply command_transition in H as (output & Ht & Hr). by exists output, None.
  - apply expansion_transition in H as (output & Ht & Hr); [|done]. by exists output, None.
  - by eapply fanout_command_transition.
  - by eapply fanout_request_transition.
Qed.

(** C12: a locked transition that is applied happens exactly once and leaves
    the instance with a token.  The event is consumed, one log row is appended
    for it, and the one row of the instance moves as the outcome says: to the
    state the prepared transition leads to, with the output of this one in its
    journal, to the same state at a later version, to its end, or to a failure.
    The outcome leaves behind what the instance goes on from: a continue event
    when it advances, a scheduled job or a timer when it waits; a fan-out that
    expands schedules as many of its items as may run at once, each with an event
    or a job that is due; and when an item of a fan-out ends, the first that waits
    for its turn is scheduled with an event or its job due now, unless none waits,
    and then, if the fan-out goes on, an item is left that has not ended. *)
Theorem transition_happens_once locked prepared (db db' : Database Application) consumption :
  keyed_table instance_conflicts (instances db) ->
  lock_prepared_snapshot now locked (prepared_snapshot prepared) db = Ok (true, db) ->
  apply_prepared now gen_random_uuid run_command prepared db = Ok (consumption, db') ->
  happens prepared consumption db db'.
Proof using Type.
  intros Hk Hlock H. destruct (lock_spec _ _ _ _ _ Hk Hlock) as (_ & Hp & row & Hg). exact (apply_transition _ row _ _ _ Hp Hg H).
Qed.
End Dispatch.
