(* ===== verification/ProcessSample.v ===== *)
(** * A deployment of the sample process

    The process of [ProcessCompiled], deployed with one running instance, for
    the witnesses of the theorems on transitions: its start event runs the
    command [greet], the continue event after it writes the output. *)
From S2P Require Import Prelude Json KeyedMap AbiIds RulesSyntax ValueContract ProcessSyntax ProcessInfer ProcessEvaluate ProcessEvaluateSpec ProcessDependencies ProcessFingerprint ProcessDefinition ProcessStates ProcessCompile ProcessCompiled ProcessTyped ProcessTables ProcessTransition ProcessPrepare ProcessCommit ProcessConsume ProcessJournal ProcessEffect.
Set Warnings "-register-all".

#[export] Instance sample_runtime : ProcessRuntime := {|
  runtime_source := "default";
  deployed_catalog := {| active := [("welcome", sample_definition)]; live_retired := [] |};
  runtime_rules := sample_rules;
  operation_spec_handle _ _ _ := None;
  configuration_fingerprint _ _ := None;
  registry_serialization_key_input _ _ := None;
  trigger_spec_handle _ _ _ := None;
  trigger_configuration_fingerprint _ _ := None;
  finalized_command _ name := if String.eqb name "greet" then Some "f" else None;
  pre_process_command _ name := if String.eqb name "greet" then Some "f" else None;
  CommandMutation := Value;
  planner_error := None;
  plan_process_command _ arguments _ _ := Ok (JObject arguments);
  uuid_parse_str s := Some s;
  parse_from_rfc3339 _ := Err "not a timestamp";
  parse_naive_date_time _ := Err "not a timestamp";
|}.

Fixpoint sample_contains (v w : Value) : bool :=
  match w, v with
  | JObject ms, JObject o =>
      forallb (fun nw : string * Value => match obj_get o nw.1 with Some v => sample_contains v nw.2 | None => false end) ms
  | JArray ws, JArray vs => forallb (fun w => existsb (fun v => sample_contains v w) vs) ws
  | _, _ => json_eqb v w
  end.

#[export] Instance sample_postgres : Postgres := {|
  pg_column_size v := Z.of_nat (String.length (json_text v));
  jsonb_eqb := json_eqb;
  jsonb_contains := sample_contains;
  jsonb_nested_text := json_text;
  timestamptz_text _ := "2024-01-01T00:00:00Z";
  numeric_quotient a b := a * 10 ^ 18 / b;
|}.

Definition sample_id : string := "123e4567-e89b-12d3-a456-426614174000".

(** The application: the names that were greeted. *)
Definition sample_greets (arguments : Value) (outbox : Outbox (list string)) :
    result SqlFailure (option Value * Outbox (list string)) :=
  Ok (Some (JObject [("id", JString sample_id)]), (default "" (get_str arguments "name") :: outbox.1, outbox.2)).

Definition sample_uuid (db : Database (list string)) : Uuid := "e" +:+ show_Z (Z.of_nat (List.length (events db))).

Definition sample_row : InstanceRow := {|
  i_source := "default"; i_id := "i"; i_process := "welcome"; i_revision := revision_fingerprint_ sample_definition;
  i_source_request := "q"; i_start_key := "k"; i_status := IRunning;
  i_current_state := "greet"; i_input := JObject [("who", JString "Ada")]; i_state := JObject []; i_version := 0; i_caller_role := Some "user";
  i_caller_session := Some (JObject [("x-hasura-tenant", JString "t")]); i_terminal_output := None; i_failure := None |}.

Definition sample_start : EventRow := {|
  e_source := "default"; e_id := "e0"; e_instance := "i"; e_process := "welcome"; e_revision := revision_fingerprint_ sample_definition;
  e_kind := "start"; e_payload := JObject []; e_idempotency_key := None; e_available_at := At 5; e_status := EPending; e_attempts := 0;
  e_created_at := 5 |}.

Definition sample_database : Database (list string) := {|
  instances := [sample_row]; events := [sample_start]; jobs := []; items := []; logs := []; provider_steps := []; reservations := []; buckets := [];
  start_requests := []; signal_requests := []; application := [] |}.

Definition fair_weather : Weather := {| preparing _ := None; applying := None; locked _ := false |}.

Definition sample_consume : step (Application := list string) TransitionConsumption :=
  consume_one_transition_kind 10 sample_uuid sample_greets fair_weather None [] (fun _ => true).

(** The start event. *)
Definition sample_snapshot : TransitionSnapshot := transition_snapshot sample_start sample_row.

Definition sample_prepared : PreparedTransition :=
  PreparedCommand sample_snapshot sample_definition
    match option_map compiled_state_operation (bt_get (definition_states sample_definition) "greet") with
    | Some (CompiledCommand command _) => command
    | _ => {| compiled_command := ""; compiled_role := RoleFixed ""; compiled_arguments := [] |}
    end "done" (JObject [("name", JString "Ada")]).

Lemma sample_is_prepared : prepare_one_snapshot sample_database sample_snapshot = Ok (Some sample_prepared).
Proof. vm_compute. reflexivity. Qed.

Lemma sample_runs : let '(first, db) := sample_consume sample_database in
  first = Ok (Advanced "i" "e0" "greet" "done") /\ application db = ["Ada"]
  /\ fst (sample_consume db) = Ok (Completed "i" "e1" "done").
Proof. vm_compute. repeat split. Qed.

(** ** Witnesses *)

Lemma keyed_short {R} (conflicts : R -> R -> bool) table : (List.length table <= 1)%nat -> keyed_table conflicts table.
Proof.
  intros H i j a b Ha Hb Hij. apply lookup_lt_Some in Ha, Hb. lia.
Qed.

Lemma sample_keyed : keyed_db sample_database.
Proof. repeat split; apply keyed_short; cbn; lia. Qed.

Definition sample_applied : TransitionConsumption * Database (list string) :=
  Eval vm_compute in
  match apply_prepared 10 sample_uuid sample_greets sample_prepared sample_database with Ok r => r | Err _ => (NoWork, sample_database) end.

Lemma sample_applies : apply_prepared 10 sample_uuid sample_greets sample_prepared sample_database = Ok (sample_applied.1, sample_applied.2).
Proof. vm_compute. reflexivity. Qed.

Lemma transition_moves_the_journal_forward_witness :
  List.length (logs sample_applied.2) = 1%nat /\ journaled "i" "e0" true sample_database sample_applied.2.
Proof.
  split; [reflexivity|].
  exact (transition_moves_the_journal_forward 10 sample_uuid sample_greets sample_prepared sample_database sample_applied.2 sample_applied.1
    sample_keyed sample_applies).
Defined.

Lemma transition_happens_once_witness :
  sample_applied.1 = Advanced "i" "e0" "greet" "done"
  /\ happens 10 sample_uuid sample_prepared sample_applied.1 sample_database sample_applied.2.
Proof.
  split; [reflexivity|].
  refine (transition_happens_once 10 sample_uuid sample_greets (fun _ => false) sample_prepared sample_database sample_applied.2 sample_applied.1
    _ _ sample_applies); [apply keyed_short; cbn; lia|vm_compute; reflexivity].
Defined.
