(* ===== verification/ProcessConsumeSpec.v ===== *)
(** * The end of a due event ([consume_one_transition_kind])

    What becomes of a prepared transition: it is stale, a signal precedes it, it
    is applied, its event steps aside, or its instance ends.  When a snapshot is
    current, and when a signal precedes a timer, is stated without the order in
    which the code looks. *)
From S2P Require Import Prelude Json KeyedMap AbiIds RulesSyntax ValueContract ProcessSyntax ProcessInfer ProcessEvaluate ProcessEvaluateSpec ProcessDependencies ProcessFingerprint ProcessDefinition ProcessStates ProcessCompile ProcessCompiled ProcessTyped ProcessTables ProcessTransition ProcessPrepare ProcessCommit ProcessConsume ProcessJournal ProcessEffect ProcessSample.
Set Warnings "-register-all".

(** ** The schedule of retries *)

Section Delay.
Context {serde : Serde} {digest : Digest} {uuids : Uuids}.

Lemma be_bytes_nonneg acc n bytes : 0 <= acc -> 0 <= be_bytes acc n bytes.
Proof using Type.
  revert acc bytes. induction n as [|n IH]; intros acc [|a bytes] H; cbn [be_bytes]; try done. apply IH. unfold byte_val. lia.
Qed.

Lemma retry_multiplier_spec attempts : attempts <= i32_max -> 1 <= retry_multiplier attempts
  /\ (1 <= attempts <= 64 -> retry_multiplier attempts = 2 ^ (attempts - 1)).
Proof using Type.
  intros Hmax. unfold retry_multiplier. set (n := saturating_i32 (attempts - 1)).
  assert (Hn : n <= i32_max) by (unfold n, saturating_i32, i32_min, i32_max; lia).
  destruct (checked 0 u32_max n) as [e|] eqn:E.
  - apply checked_Some in E as [-> He]. destruct (Z.ltb_spec n 64).
    + rewrite Z.shiftl_1_l. split; [pose proof (Z.pow_pos_nonneg 2 n); lia|]. intros Ha.
      replace n with (attempts - 1); [done|]. unfold n, saturating_i32, i32_min, i32_max in *. lia.
    + split; [unfold u64_max; lia|]. intros Ha. unfold n, saturating_i32, i32_min, i32_max in *. lia.
  - split; [by vm_compute|]. intros Ha. assert (Hr : 0 <= n <= u32_max) by (unfold n, saturating_i32, i32_min, i32_max, u32_max; lia).
    by apply checked_None in E.
Qed.

(** A retry waits at least the initial interval, at most the maximum, and at
    most what the exponential schedule allows for its attempt. *)
Lemma transition_retry_delay_bounds event attempts : attempts <= i32_max ->
  TRANSITION_RETRY_INITIAL_MS <= transition_retry_delay_ms event attempts <= TRANSITION_RETRY_MAXIMUM_MS
  /\ (1 <= attempts <= 64 -> transition_retry_delay_ms event attempts <= TRANSITION_RETRY_INITIAL_MS * 2 ^ (attempts - 1)).
Proof using Type.
  intros Hmax. destruct (retry_multiplier_spec attempts Hmax) as [Hpos Hpow]. unfold transition_retry_delay_ms.
  set (upper := Z.min (Z.min u64_max (TRANSITION_RETRY_INITIAL_MS * retry_multiplier attempts)) TRANSITION_RETRY_MAXIMUM_MS).
  set (sample := be_bytes 0 8 _). assert (Hu : 50 <= upper <= 30000).
  { unfold upper, TRANSITION_RETRY_INITIAL_MS, TRANSITION_RETRY_MAXIMUM_MS, u64_max. lia. }
  replace (Z.min u64_max (upper + 1)) with (upper + 1) by (unfold u64_max; lia).
  pose proof (Z.mod_pos_bound sample (upper + 1) ltac:(lia)) as Hm. unfold TRANSITION_RETRY_INITIAL_MS, TRANSITION_RETRY_MAXIMUM_MS in *.
  split; [lia|]. intros Ha. specialize (Hpow Ha). assert (upper <= 50 * 2 ^ (attempts - 1)) by (rewrite <- Hpow; unfold upper; lia).
  assert (1 <= 2 ^ (attempts - 1)) by (rewrite <- Hpow; exact Hpos). lia.
Qed.
End Delay.

(** ** Timeouts

    When a signal precedes the timer of its wait, without the order in which
    the code looks for it. *)

Section Timeouts.
Context {serde : Serde} {digest : Digest} {uuids : Uuids} {runtime : ProcessRuntime} {postgres : Postgres} {Application : Type}.
Variable snapshot : TransitionSnapshot.

Abbreviation Db := (Database Application).

(** The event is a timer, and the state of the instance the wait. *)
Definition times_out (definition : CompiledProcessDefinition) (wait : CompiledProcessWaitState) : Prop :=
  event_kind snapshot = "timer" /\ revision deployed_catalog (process_name snapshot) (snapshot_revision snapshot) = Some definition
  /\ exists state, bt_get (definition_states definition) (current_state snapshot) = Some state /\ compiled_state_operation state = CompiledWait wait.

(** The timer of the snapshot, among the events. *)
Definition own_timer (db : Db) (timer : EventRow) : Prop := In timer (events db) /\ e_source timer = runtime_source
  /\ e_id timer = event_id snapshot /\ e_instance timer = snapshot_instance snapshot /\ e_kind timer = "timer".

(** The event of a signal that was accepted for this visit of the wait is
    pending, and is available no later than the timer. *)
Definition accepted_in_time (db : Db) : Prop := exists signal timer, own_timer db timer /\ In signal (events db)
  /\ e_source signal = runtime_source /\ e_instance signal = snapshot_instance snapshot /\ e_id signal <> e_id timer
  /\ e_kind signal = "signal" /\ e_status signal = EPending /\ instant_le (e_available_at signal) (e_available_at timer) = true
  /\ jsonb_text (e_payload signal) "wait_state" = Some (current_state snapshot)
  /\ jsonb_text (e_payload signal) "wait_version" = Some (show_Z (snapshot_version snapshot)).

(** The timer is the timeout of a wait for the signal, with its correlation. *)
Definition timeout_of (wait : CompiledProcessSignalWait) (correlation : Value) : Prop :=
  get_str (event_payload snapshot) "signal_name" = Some (waited_signal wait) /\ get_str (event_payload snapshot) "route" = Some "timeout"
  /\ json_get (event_payload snapshot) "correlation" = Some correlation.

Definition timeout_of_webhook (wait : CompiledProcessWebhookWait) : Prop :=
  get_str (event_payload snapshot) "connector_instance" = Some (hooked_connector wait)
  /\ get_str (event_payload snapshot) "trigger" = Some (InlineId_as_str (hooked_trigger wait))
  /\ get_str (event_payload snapshot) "route" = Some "timeout".

(** A request of the signal that is pending was recorded while the wait was
    receptive. *)
Definition requested_in_time (db : Db) (signal : string) (correlation : Value) (request : SignalRequestRow) : Prop :=
  In request (signal_requests db) /\ s_source request = runtime_source /\ s_process request = process_name snapshot
  /\ s_signal request = signal /\ jsonb_eqb (s_correlation request) correlation = true /\ s_status request = SPending
  /\ exists timer, own_timer db timer /\ e_process timer = process_name snapshot /\ e_revision timer = snapshot_revision snapshot
       /\ e_created_at timer <= s_created_at request /\ instant_le (At (s_created_at request)) (e_available_at timer) = true.

(** The signal as the revision of the request declares it. *)
Definition requested_signal (signal : string) (request : SignalRequestRow) : option CompiledProcessSignal :=
  match revision deployed_catalog (process_name snapshot) (s_revision request) with
  | Some definition => bt_get (definition_signals definition) signal
  | None => None
  end.

Inductive signal_first (db : Db) : Prop :=
| first_accepted definition wait : times_out definition wait -> (forall timer, wait <> CompiledTimer timer) -> accepted_in_time db -> signal_first db
| first_requested definition wait correlation waited request requested : times_out definition (CompiledSignal wait) -> timeout_of wait correlation ->
    bt_get (definition_signals definition) (waited_signal wait) = Some waited -> requested_in_time db (waited_signal wait) correlation request ->
    requested_signal (waited_signal wait) request = Some requested -> contract_fingerprint requested = contract_fingerprint waited -> signal_first db.

(** What the check of a timer may stumble upon, when no signal was accepted:
    a timer of another wait, or something that is not deployed. *)
Inductive stray_timer (db : Db) : Prop :=
| stray_revision : event_kind snapshot = "timer" -> revision deployed_catalog (process_name snapshot) (snapshot_revision snapshot) = None -> stray_timer db
| stray_webhook definition wait : times_out definition (CompiledWebhook wait) -> ~ timeout_of_webhook wait -> stray_timer db
| stray_signal definition wait : times_out definition (CompiledSignal wait) -> (forall correlation, ~ timeout_of wait correlation) -> stray_timer db
| stray_wait definition wait : times_out definition (CompiledSignal wait) -> bt_get (definition_signals definition) (waited_signal wait) = None -> stray_timer db
| stray_request definition wait correlation request : times_out definition (CompiledSignal wait) -> timeout_of wait correlation ->
    requested_in_time db (waited_signal wait) correlation request -> requested_signal (waited_signal wait) request = None -> stray_timer db.

Lemma str_is_spec o s : str_is o s = true <-> o = Some s.
Proof using Type. destruct o as [t|]; cbn; [rewrite String.eqb_eq|]; split; congruence. Qed.

Lemma accepted_before_timer_spec (db : Db) : accepted_before_timer db snapshot = true <-> accepted_in_time db.
Proof using Type.
  unfold accepted_before_timer. rewrite existsb_exists. split.
  - intros ([signal timer] & [Hs Ht]%in_prod_iff & H). rewrite !andb_true_iff, negb_true_iff, !String.eqb_eq, String.eqb_neq, bool_decide_eq_true, !str_is_spec in H.
    destruct H as [[[[[[[[[[[H1 H2] H3] H4] H5] H6] H7] H8] H9] H10] H11] H12]. exists signal, timer. repeat split; try done. congruence.
  - intros (signal & timer & (Ht & H1 & H2 & H3 & H4) & Hs & H5 & H6 & H7 & H8 & H9 & H10 & H11 & H12). exists (signal, timer). split; [by apply in_prod|].
    rewrite !andb_true_iff, negb_true_iff, !String.eqb_eq, String.eqb_neq, bool_decide_eq_true, !str_is_spec. repeat split; congruence.
Qed.

Lemma requested_before_timer_spec (db : Db) signal correlation r :
  In r (requested_before_timer db snapshot signal correlation) <-> exists request, requested_in_time db signal correlation request /\ s_revision request = r.
Proof using Type.
  unfold requested_before_timer. rewrite in_map_iff. split.
  - intros ([request timer] & <- & Hin). apply order_by_In, filter_In in Hin as [[Hr Ht]%in_prod_iff H].
    rewrite !andb_true_iff, !String.eqb_eq, bool_decide_eq_true, Z.leb_le in H.
    destruct H as [[[[[[[[[[[[H1 H2] H3] H4] H5] H6] H7] H8] H9] H10] H11] H12] H13]. exists request. split; [|done].
    repeat (split; [done|]). exists timer. repeat split; try done. congruence.
  - intros (request & (Hr & H1 & H2 & H3 & H4 & H5 & timer & (Ht & H6 & H7 & H8 & H9) & H10 & H11 & H12 & H13) & <-). exists (request, timer). split; [done|].
    apply order_by_iff, filter_In. split; [by apply in_prod|]. rewrite !andb_true_iff, !String.eqb_eq, bool_decide_eq_true, Z.leb_le. repeat split; congruence.
Qed.

(** The revisions of the requests are looked through in their order, until one
    has the contract or is not deployed. *)
Lemma any_same_contract_spec signal waited (db : Db) correlation revisions :
  (forall r, In r revisions -> exists request, requested_in_time db signal correlation request /\ s_revision request = r) ->
  match any_same_contract (process_name snapshot) signal waited revisions with
  | Ok true => exists request requested, requested_in_time db signal correlation request /\ requested_signal signal request = Some requested
                 /\ contract_fingerprint requested = contract_fingerprint waited
  | Ok false => forall request requested, In (s_revision request) revisions -> requested_signal signal request = Some requested ->
                 contract_fingerprint requested <> contract_fingerprint waited
  | Err _ => exists request, requested_in_time db signal correlation request /\ requested_signal signal request = None
  end.
Proof using Type.
  induction revisions as [|r revisions IH]; intros Hall; cbn [any_same_contract]; [by intros ? ? []|].
  destruct (Hall r (or_introl eq_refl)) as (request & Hr & Hrev). specialize (IH (fun r' H => Hall r' (or_intror H))).
  assert (Hsame : forall request', s_revision request' = r -> requested_signal signal request' = requested_signal signal request)
    by (intros request' E; unfold requested_signal; by rewrite E, Hrev).
  unfold requested_signal in Hsame at 2. rewrite Hrev in Hsame.
  destruct (revision deployed_catalog _ r) as [definition|] eqn:Ed; cbn [ok_or mbind result_bind]; [|exists request; split; [done|by apply Hsame]].
  destruct (bt_get _ signal) as [requested|] eqn:Es; cbn [ok_or mbind result_bind]; [|exists request; split; [done|by apply Hsame]].
  destruct (String.eqb_spec (contract_fingerprint requested) (contract_fingerprint waited)) as [Ec|Ec];
    [exists request, requested; split; [done|]; split; [by apply Hsame|done]|].
  destruct (any_same_contract _ _ _ _) as [[]|]; [done| |done].
  intros request' requested' [Hin|Hin] Hreq; [|exact (IH _ _ Hin Hreq)]. rewrite (Hsame request' (eq_sym Hin)) in Hreq. by injection Hreq as <-.
Qed.

Lemma same_wait d w d' w' : times_out d w -> times_out d' w' -> d' = d /\ w' = w.
Proof using Type. intros (_ & H1 & s & H2 & H3) (_ & H1' & s' & H2' & H3'). rewrite H1 in H1'. injection H1' as <-. rewrite H2 in H2'. injection H2' as <-. split; congruence. Qed.

Lemma same_timeout wait correlation correlation' : timeout_of wait correlation -> timeout_of wait correlation' -> correlation' = correlation.
Proof using Type. intros (_ & _ & H) (_ & _ & H'). congruence. Qed.

Lemma signal_precedes_timer_spec definition wait (db : Db) : times_out definition (CompiledSignal wait) -> ~ accepted_in_time db ->
  match signal_precedes_timer db snapshot definition wait with
  | Ok true => signal_first db
  | Ok false => ~ signal_first db
  | Err _ => stray_timer db
  end.
Proof using Type.
  intros Hw Hno. unfold signal_precedes_timer, is_timeout.
  destruct (str_is _ _) eqn:En; cbn [negb orb]; [|eapply stray_signal; [exact Hw|]; intros c (H & _); apply str_is_spec in H; congruence].
  destruct (str_is (get_str (event_payload snapshot) "route") "timeout") eqn:Er; cbn [negb];
    [|eapply stray_signal; [exact Hw|]; intros c (_ & H & _); apply str_is_spec in H; congruence].
  destruct (json_get _ _) as [correlation|] eqn:Ec; cbn [ok_or mbind result_bind]; [|eapply stray_signal; [exact Hw|]; intros c (_ & _ & H); congruence].
  destruct (bt_get _ _) as [waited|] eqn:Ew; cbn [ok_or mbind result_bind]; [|by eapply stray_wait].
  assert (Ht : timeout_of wait correlation) by (split; [by apply str_is_spec|]; split; [by apply str_is_spec|done]).
  pose proof (any_same_contract_spec (waited_signal wait) waited db correlation (requested_before_timer db snapshot (waited_signal wait) correlation)
    (fun r => proj1 (requested_before_timer_spec db _ _ r))) as H.
  destruct (any_same_contract _ _ _ _) as [[]|].
  - destruct H as (request & requested & H1 & H2 & H3). by eapply first_requested.
  - intros [d w Hw' Hne Ha|d w c' waited' request requested Hw' Ht' Hwd Hreq Hrs Hc]; [done|].
    destruct (same_wait _ _ _ _ Hw Hw') as [-> [= ->]]. rewrite (same_timeout _ _ _ Ht Ht') in Hreq. assert (waited' = waited) as -> by congruence.
    apply (H request requested); [|done|done]. apply requested_before_timer_spec. by exists request.
  - destruct H as (request & H1 & H2). by eapply stray_request.
Qed.

(** What [pending_signal_precedes_timer] decides. *)
Lemma pending_signal_spec (db : Db) :
  match pending_signal_precedes_timer snapshot db with
  | Ok true => signal_first db
  | Ok false => ~ signal_first db
  | Err _ => stray_timer db
  end.
Proof using Type.
  unfold pending_signal_precedes_timer.
  assert (Hwait : forall d w, signal_first db -> (forall d' w', times_out d' w' -> d' = d /\ w' = w) ->
    (accepted_in_time db /\ forall timer, w <> CompiledTimer timer) \/ exists wait, w = CompiledSignal wait).
  { intros d w [d' w' Hw' Hne Ha|d' w' c waited request requested Hw' _ _ _ _ _] Huniq; destruct (Huniq _ _ Hw') as [_ <-]; [by left|right; by eexists]. }
  destruct (String.eqb_spec (event_kind snapshot) "timer") as [Ek|Ek]; cbn [negb].
  2: { intros [? ? (? & _)|? ? ? ? ? ? (? & _)]; done. }
  destruct (revision _ _ _) as [definition|] eqn:Ed; cbn [ok_or mbind result_bind]; [|by apply stray_revision].
  assert (Hother : (forall w, ~ times_out definition w) -> ~ signal_first db).
  { intros Hn [d w Hw|d w ? ? ? ? Hw]; pose proof Hw as (_ & Hd & _); rewrite Ed in Hd; injection Hd as <-; by apply Hn in Hw. }
  destruct (bt_get _ (current_state snapshot)) as [state|] eqn:Es; cbn [option_map]; [|apply Hother; intros w (_ & _ & s & Hs & _); congruence].
  destruct (compiled_state_operation state) as [| | |wait| | |] eqn:Eo; try (apply Hother; intros w (_ & _ & s & Hs & Ho); congruence).
  assert (Hw : times_out definition wait) by (split; [done|]; split; [done|]; by exists state).
  destruct wait as [wait|wait|wait].
  - destruct (accepted_before_timer db snapshot) eqn:Ea; [eapply first_accepted; [exact Hw|done|by apply accepted_before_timer_spec]|].
    apply signal_precedes_timer_spec; [done|]. rewrite <- accepted_before_timer_spec. congruence.
  - destruct (accepted_before_timer db snapshot) eqn:Ea; [eapply first_accepted; [exact Hw|done|by apply accepted_before_timer_spec]|].
    assert (Hb : (negb (str_is (get_str (event_payload snapshot) "connector_instance") (hooked_connector wait))
                || negb (str_is (get_str (event_payload snapshot) "trigger") (InlineId_as_str (hooked_trigger wait)))
                || negb (is_timeout snapshot)) = false <-> timeout_of_webhook wait).
    { unfold is_timeout, timeout_of_webhook. rewrite !orb_false_iff, !negb_false_iff, !str_is_spec. tauto. }
    destruct (_ || _) in Hb |- *; [eapply stray_webhook; [exact Hw|]; intros H; by apply Hb in H|].
    intros Hf. destruct (Hwait definition _ Hf (fun d' w' => same_wait _ _ d' w' Hw)) as [[Ha _]|[w [=]]]. apply accepted_before_timer_spec in Ha. congruence.
  - intros Hf. destruct (Hwait definition _ Hf (fun d' w' => same_wait _ _ d' w' Hw)) as [[_ Hn]|[w [=]]]. by apply (Hn wait).
Qed.
End Timeouts.

Section Consumed.
Context {serde : Serde} {digest : Digest} {uuids : Uuids} {runtime : ProcessRuntime} {postgres : Postgres} {Application : Type}.
Variable now : Z.
Variable gen_random_uuid : Database Application -> Uuid.
Variable run_command : CommandMutation -> Outbox Application ->
  result SqlFailure (option Value * Outbox Application).

Abbreviation Db := (Database Application).

(** ** The contract *)

Section Contract.
Variable snapshot : TransitionSnapshot.

(** The tables that neither a deferral nor a failure touches. *)
Definition same_rest (db db' : Db) : Prop :=
  jobs db' = jobs db /\ items db' = items db /\ logs db' = logs db /\ provider_steps db' = provider_steps db
  /\ reservations db' = reservations db /\ buckets db' = buckets db /\ start_requests db' = start_requests db /\ signal_requests db' = signal_requests db /\ application db' = application db.

(** The event steps aside, with one attempt more. *)
Definition rescheduled (delay : Z) (db db' : Db) : Prop :=
  instances db' = instances db /\ same_rest db db'
  /\ events db' = map (fun row => if pending_event (event_id snapshot) row
                                  then set_event row (e_status row) (e_attempts row + 1) (instant_after now delay) else row) (events db).

Definition transition_failure (code : string) : Value :=
  JObject [("kind", JString "transition_failed"); ("code", JString code); ("path", JString (current_state snapshot));
           ("message", JString "the Process transition could not be applied")].

(** The instance is failed and the event consumed, and nothing else. *)
Definition ended (code : string) (db db' : Db) : Prop := same_rest db db'
  /\ events db' = map (settled snapshot false) (events db)
  /\ exists row, the_guarded snapshot db row
     /\ instances db' = moved snapshot (bumped snapshot IFailed (current_state snapshot) (i_state row) (i_terminal_output row)
                                          (Some (transition_failure code)) row) (instances db).

(** A delay that the schedule of retries allows. *)
Definition allowed_delay (delay : Z) : Prop := TRANSITION_RETRY_INITIAL_MS <= delay <= TRANSITION_RETRY_MAXIMUM_MS.

(** The snapshot is still that of its event and of the instance: the event is
    pending, of a kind that transitions consume, and due; the instance runs, in
    the state and at the version of the snapshot; and both can be locked. *)
Definition current (locked : Uuid -> bool) (db : Db) : Prop := exists event instance, In event (events db) /\ In instance (instances db)
  /\ e_source event = runtime_source /\ e_id event = event_id snapshot /\ e_instance event = snapshot_instance snapshot
  /\ e_status event = EPending /\ In (e_kind event) due_event_kinds /\ instant_le (e_available_at event) (At now) = true
  /\ e_kind event = event_kind snapshot /\ e_process event = process_name snapshot /\ e_revision event = snapshot_revision snapshot
  /\ i_source instance = runtime_source /\ i_id instance = snapshot_instance snapshot /\ i_status instance = IRunning
  /\ i_process instance = process_name snapshot /\ i_revision instance = snapshot_revision snapshot
  /\ locked (event_id snapshot) = false /\ locked (snapshot_instance snapshot) = false
  /\ i_version instance = snapshot_version snapshot /\ i_current_state instance = current_state snapshot.

(** It is, and no signal precedes the timer, if it is one. *)
Definition goes_ahead (weather : Weather) (db : Db) : Prop := current (locked weather) db /\ ~ signal_first snapshot db.

(** A statement fails of its own accord, or the transition is refused. *)
Definition fails_with (weather : Weather) (prepared : PreparedTransition) (db : Db) (error : TransitionError) : Prop :=
  applying weather = Some error \/ (applying weather = None /\ apply_prepared now gen_random_uuid run_command prepared db = Err error).

(** What may come of a prepared transition. *)
Inductive consumed (weather : Weather) (prepared : PreparedTransition) (db : Db) : attempt TransitionConsumption -> Db -> Prop :=
| consumed_stale : ~ current (locked weather) db -> consumed weather prepared db (Ok NoWork) db
| consumed_signal_first : current (locked weather) db -> signal_first snapshot db ->
    consumed weather prepared db (Ok NoWork) db
| consumed_stray message : current (locked weather) db -> stray_timer snapshot db ->
    consumed weather prepared db (Err (Fault message)) db
| consumed_applied c db' : goes_ahead weather db -> applying weather = None ->
    apply_prepared now gen_random_uuid run_command prepared db = Ok (c, db') -> happens now gen_random_uuid prepared c db db' ->
    consumed weather prepared db (Ok c) db'
| consumed_deferred error row delay db' : goes_ahead weather db -> fails_with weather prepared db error -> is_transient error = true ->
    In row (events db) -> pending_event (event_id snapshot) row = true ->
    e_attempts row + 1 < TRANSITION_RETRY_MAX_ATTEMPTS -> allowed_delay delay -> rescheduled delay db db' ->
    consumed weather prepared db (Ok (Deferred (snapshot_instance snapshot) (event_id snapshot) (e_attempts row + 1) delay)) db'
| consumed_exhausted error row delay db1 db' : goes_ahead weather db -> fails_with weather prepared db error -> is_transient error = true ->
    In row (events db) -> pending_event (event_id snapshot) row = true ->
    TRANSITION_RETRY_MAX_ATTEMPTS <= e_attempts row + 1 -> allowed_delay delay -> rescheduled delay db db1 ->
    ended "transition_retry_exhausted" db1 db' ->
    consumed weather prepared db (Ok (CommandFailed (snapshot_instance snapshot) (event_id snapshot) "transition_retry_exhausted")) db'
| consumed_refused error db' : goes_ahead weather db -> fails_with weather prepared db error -> is_transient error = false ->
    ended "transition_failed" db db' ->
    consumed weather prepared db (Ok (CommandFailed (snapshot_instance snapshot) (event_id snapshot) "transition_failed")) db'
| consumed_panic : goes_ahead weather db -> fails_with weather prepared db Panic -> consumed weather prepared db (Err Panic) db
| consumed_unrecorded_exhaustion error e row delay db' : goes_ahead weather db -> fails_with weather prepared db error -> is_transient error = true ->
    In row (events db) -> pending_event (event_id snapshot) row = true ->
    TRANSITION_RETRY_MAX_ATTEMPTS <= e_attempts row + 1 -> allowed_delay delay -> rescheduled delay db db' ->
    fail_instance (failing_of snapshot) "transition_retry_exhausted" db' = Err e -> consumed weather prepared db (Err e) db'
| consumed_unrecorded error e : goes_ahead weather db -> fails_with weather prepared db error -> is_transient error = false ->
    fail_instance (failing_of snapshot) "transition_failed" db = Err e -> consumed weather prepared db (Err e) db.

(** ** The lock *)

Lemma lock_current locked (db : Db) : keyed_table instance_conflicts (instances db) ->
  exists b, lock_prepared_snapshot now locked snapshot db = Ok (b, db) /\ (b = true <-> current locked db).
Proof using Type.
  intros Hk. unfold lock_prepared_snapshot, query. eexists. split; [reflexivity|].
  assert (Hfound : forall event instance, In (event, instance) (list_prod (events db) (instances db)) -> In event (events db) /\ In instance (instances db))
    by (intros event instance; apply in_prod_iff).
  set (found := fun ei : EventRow * InstanceRow => _).
  assert (Hspec : forall event instance, found (event, instance) = true <->
     (e_source event = runtime_source /\ e_id event = event_id snapshot /\ e_instance event = snapshot_instance snapshot
      /\ e_status event = EPending /\ In (e_kind event) due_event_kinds /\ instant_le (e_available_at event) (At now) = true
      /\ e_kind event = event_kind snapshot /\ e_process event = process_name snapshot /\ e_revision event = snapshot_revision snapshot
      /\ i_source instance = runtime_source /\ i_id instance = snapshot_instance snapshot /\ i_status instance = IRunning
      /\ i_process instance = process_name snapshot /\ i_revision instance = snapshot_revision snapshot
      /\ locked (event_id snapshot) = false /\ locked (snapshot_instance snapshot) = false)).
  { intros event instance. unfold found, is_due, event_of_instance. rewrite !andb_true_iff, !negb_true_iff, !String.eqb_eq, !bool_decide_eq_true, existsb_exists.
    split.
    - intros H. destruct_and? H. match goal with H : exists x, In x _ /\ _ |- _ => destruct H as (kind & Hin & Hkind) end.
      apply String.eqb_eq in Hkind as <-. repeat split; congruence.
    - intros (H1 & H2 & H3 & H4 & H5 & H6 & H7 & H8 & H9 & H10 & H11 & H12 & H13 & H14 & H15 & H16).
      repeat split; try congruence. exists (e_kind event). by rewrite String.eqb_refl. }
  destruct (List.find found _) as [[event instance]|] eqn:E.
  - apply find_some in E as [Hin H]. apply Hfound in Hin as [He Hi]. apply Hspec in H. rewrite andb_true_iff, Z.eqb_eq, String.eqb_eq. split.
    + intros [Hv Hc]. exists event, instance. by destruct_and? H.
    + intros (event' & instance' & _ & Hi' & _ & _ & _ & _ & _ & _ & _ & _ & _ & Hs' & Hid' & _ & _ & _ & _ & _ & Hv & Hc).
      assert (instance = instance') as -> by (apply (keyed_unique _ _ _ Hk Hi Hi'); destruct_and? H; unfold instance_conflicts; rewrite andb_true_iff, !String.eqb_eq; split; congruence).
      done.
  - split; [done|]. intros (event & instance & He & Hi & H). exfalso. assert (Hin : In (event, instance) (list_prod (events db) (instances db))) by (by apply in_prod).
    apply (find_none _ _ E) in Hin. assert (Ht : found (event, instance) = true) by (apply Hspec; by destruct_and? H). congruence.
Qed.

(** ** Failures and deferrals *)

Lemma failing_rows (db : Db) row : keyed_table instance_conflicts (instances db) -> the_guarded snapshot db row ->
  List.filter (fun r => String.eqb (i_source r) runtime_source && String.eqb (i_id r) (snapshot_instance snapshot)
                        && (i_version r =? snapshot_version snapshot) && bool_decide (i_status r = IRunning)) (instances db) = [row].
Proof using Type.
  intros Hk Hg. pose proof (guarded_spec _ _ (the_guarded_spec _ _ _ Hg)) as (Hs & Hi & _ & Hv & Hr).
  assert (Hin : In row (List.filter (guarded snapshot) (instances db))) by (rewrite Hg; by left). apply filter_In in Hin as [Hin _].
  apply (filter_keyed instance_conflicts); [done| |done|].
  - intros a b Ha Hb. rewrite !andb_true_iff, !String.eqb_eq in Ha, Hb. destruct Ha as [[[Ha1 Ha2] _] _], Hb as [[[Hb1 Hb2] _] _].
    unfold instance_conflicts. by rewrite Ha1, Ha2, Hb1, Hb2, !String.eqb_refl.
  - by rewrite Hs, Hi, Hv, !String.eqb_refl, Z.eqb_refl, bool_decide_eq_true_2.
Qed.

Lemma fail_instance_ends code (db db' : Db) c row : keyed_table instance_conflicts (instances db) -> the_guarded snapshot db row ->
  fail_instance (failing_of snapshot) code db = Ok (c, db') ->
  c = CommandFailed (snapshot_instance snapshot) (event_id snapshot) code /\ ended code db db'.
Proof using Type.
  intros Hk Hg H. pose proof (failing_rows db row Hk Hg) as Hf. unfold fail_instance, failing_of in H. cbn in H. run H. split; [done|].
  apply consume_Ok in Hrun0 as ->. unfold update_instances, checked_update in Hrun.
  destruct (forallb _ _); [|done]. injection Hrun as <- <-.
  destruct (checked i64_min i64_max (snapshot_version snapshot + 1)) as [v|] eqn:Ev; [|done]. injection E as <-. apply checked_Some in Ev as [-> _].
  split; [done|]. split; [done|]. exists row. split; [done|]. cbn. apply map_ext_in. intros r Hr.
  pose proof (guarded_spec _ _ (the_guarded_spec _ _ _ Hg)) as (_ & _ & Hc & _ & _).
  destruct (guarded snapshot r) eqn:Eg.
  - assert (Hin : In r (List.filter (guarded snapshot) (instances db))) by (by apply filter_In). rewrite Hg in Hin. destruct Hin as [<-|[]].
    pose proof (guarded_spec _ _ Eg) as (Hs & Hi & _ & Hv & Hst).
    rewrite Hs, Hi, Hv, !String.eqb_refl, Z.eqb_refl, bool_decide_eq_true_2 by done. cbn. unfold bumped. by rewrite Hc.
  - destruct (_ && bool_decide _) eqn:E; [|done]. exfalso.
    assert (Hin : In r (List.filter (fun r => String.eqb (i_source r) runtime_source && String.eqb (i_id r) (snapshot_instance snapshot)
                        && (i_version r =? snapshot_version snapshot) && bool_decide (i_status r = IRunning)) (instances db)))
      by (by apply filter_In). rewrite Hf in Hin. destruct Hin as [<-|[]]. by rewrite (the_guarded_spec _ _ _ Hg) in Eg.
Qed.

Lemma reschedule_Ok delay (db db' : Db) o : is_pending snapshot db -> reschedule now (failing_of snapshot) delay db = Ok (o, db') ->
  rescheduled delay db db' /\ exists row, In row (events db) /\ pending_event (event_id snapshot) row = true /\ o = Some (e_attempts row + 1).
Proof using Type.
  intros Hp H. unfold reschedule, failing_of in H. cbn in H. run H. injection Hrun as _ <-. split; [done|].
  destruct (List.find _ _) as [row|] eqn:E; [apply find_some in E as [? ?]; by exists row|].
  exfalso. apply existsb_exists in Hp as (row & Hin & Hrow). pose proof (find_none _ _ E row Hin). congruence.
Qed.

Lemma reschedule_succeeds delay (db : Db) : exists r, reschedule now (failing_of snapshot) delay db = Ok r.
Proof using Type. unfold reschedule, mbind, txn_bind, query, update_events, update_rows, mret, txn_ret. eauto. Qed.

Lemma settle_consumed weather prepared error (db db' : Db) row r : keyed_table instance_conflicts (instances db) -> the_guarded snapshot db row ->
  is_pending snapshot db -> goes_ahead weather db -> fails_with weather prepared db error ->
  settle now (failing_of snapshot) "transition_failed" error db = (r, db') -> consumed weather prepared db r db'.
Proof using Type.
  intros Hk Hg Hp Ha He H. assert (Hne : error = Panic \/ error <> Panic) by (destruct error; auto).
  destruct Hne as [->|Hne]; [injection H as <- <-; by apply consumed_panic|].
  unfold settle in H. destruct (is_transient error) eqn:Et.
  - assert (H' : defer_transition now (failing_of snapshot) db = (r, db')) by (by destruct error). clear H. rename H' into H.
    unfold defer_transition, transaction in H. set (delay := transition_retry_delay_ms _ _) in H.
    assert (Hd : allowed_delay delay) by (apply transition_retry_delay_bounds; unfold saturating_i32, i32_min, i32_max; lia).
    destruct (reschedule_succeeds delay db) as [[o db1] Hr]. rewrite Hr in H.
    destruct (reschedule_Ok _ _ _ _ Hp Hr) as (Hres & erow & Hin & Hpe & ->).
    assert (Hk1 : keyed_table instance_conflicts (instances db1)) by (by rewrite (proj1 Hres)).
    assert (Hg1 : the_guarded snapshot db1 row) by (unfold the_guarded; by rewrite (proj1 Hres)).
    destruct (Z.leb_spec TRANSITION_RETRY_MAX_ATTEMPTS (e_attempts erow + 1)); [|injection H as <- <-; by eapply consumed_deferred].
    destruct (fail_instance _ _ db1) as [[c db2]|e] eqn:Ef; injection H as <- <-.
    + destruct (fail_instance_ends _ _ _ _ _ Hk1 Hg1 Ef) as [-> Hend]. by eapply consumed_exhausted.
    + by eapply consumed_unrecorded_exhaustion.
  - assert (H' : transaction (fail_instance (failing_of snapshot) "transition_failed") db = (r, db')) by (by destruct error).
    clear H. rename H' into H. unfold transaction in H. destruct (fail_instance _ _ db) as [[c db2]|e] eqn:Ef; injection H as <- <-.
    + destruct (fail_instance_ends _ _ _ _ _ Hk Hg Ef) as [-> Hend]. by eapply consumed_refused.
    + by eapply consumed_unrecorded.
Qed.
End Contract.

Lemma consume_prepared_contract weather prepared (db db' : Db) r : keyed_table instance_conflicts (instances db) ->
  consume_prepared now gen_random_uuid run_command weather prepared db = (r, db') ->
  consumed (prepared_snapshot prepared) weather prepared db r db'.
Proof using Type.
  intros Hk H. unfold consume_prepared in H. cbv zeta in H.
  destruct (lock_current (prepared_snapshot prepared) (locked weather) db Hk) as (b & El & Hcur). rewrite El in H. destruct b.
  - pose proof (proj1 Hcur eq_refl) as Hc. clear Hcur. destruct (lock_spec _ _ _ _ _ Hk El) as (_ & Hp & row & Hg). pose proof (pending_signal_spec (prepared_snapshot prepared) db) as Hs.
    destruct (pending_signal_precedes_timer _ db) as [[]|m]; [injection H as <- <-; by apply consumed_signal_first| |
      injection H as <- <-; by apply consumed_stray].
    assert (Ha : goes_ahead (prepared_snapshot prepared) weather db) by done.
    destruct (applying weather) as [error|] eqn:Ew; [eapply settle_consumed; [done|exact Hg|done..| |exact H]; by left|].
    destruct (apply_prepared _ _ _ _ _) as [[c db2]|error] eqn:Ea; [|eapply settle_consumed; [done|exact Hg|done..| |exact H]; by right].
    injection H as <- <-. apply consumed_applied; [done..|]. exact (apply_transition _ _ _ _ _ _ _ _ Hp Hg Ea).
  - injection H as <- <-. apply consumed_stale. by intros Hc%Hcur.
Qed.

(** C13: the transaction of a prepared transition implements the contract
    [consumed], which has a case for every answer.  A snapshot that is not
    current any more, and a timer that a signal accepted or requested in time
    precedes, are no work and change nothing.  A timer that is not the timeout
    of the wait of the instance, or that refers to a revision or a signal that
    is not deployed, is an error that changes nothing, so its event stays due.
    Otherwise the transition goes ahead: it happens once; or it fails of a
    transient error, and its event waits a delay of the retry schedule, at most
    eleven times, and the twelfth ends the instance; or of any other error, and
    then the instance is failed and the event consumed, and nothing else.  When
    the failure itself cannot be recorded the error is returned, and what stays
    is the deferral of the event, if there was one; a panic changes nothing. *)
Theorem consume_prepared_refines weather prepared (db db' : Db) r : keyed_table instance_conflicts (instances db) ->
  consume_prepared now gen_random_uuid run_command weather prepared db = (r, db') ->
  consumed (prepared_snapshot prepared) weather prepared db r db'.
Proof using Type. apply consume_prepared_contract. Qed.

Lemma same_event_conflicts a b : e_source a = e_source b -> e_id a = e_id b -> event_conflicts a b = true.
Proof using Type. intros Hs Hi. unfold event_conflicts. by rewrite Hs, Hi, !String.eqb_refl. Qed.

Lemma pending_event_spec event row : pending_event event row = true <-> e_source row = runtime_source /\ e_id row = event /\ e_status row = EPending.
Proof using Type. unfold pending_event. rewrite !andb_true_iff, !String.eqb_eq, bool_decide_eq_true. tauto. Qed.

(** The row of the event after an update of the pending event. *)
Lemma updated_event snapshot (db : Db) set rows row : keyed_table event_conflicts (events db) -> is_pending snapshot db ->
  rows = map set (events db) -> (forall r, e_source (set r) = e_source r /\ e_id (set r) = e_id r) ->
  In row rows -> e_source row = runtime_source -> e_id row = event_id snapshot ->
  exists r, pending_event (event_id snapshot) r = true /\ row = set r.
Proof using Type.
  intros Hk Hp -> Hset Hin Hs Hi. apply existsb_exists in Hp as (r0 & Hin0 & Hr0). exists r0. split; [done|].
  apply in_map_iff in Hin as (r & <- & Hin). destruct (Hset r) as [Hs' Hi']. apply pending_event_spec in Hr0 as (H1 & H2 & _). f_equal.
  apply (keyed_unique _ _ _ Hk Hin Hin0). apply same_event_conflicts; congruence.
Qed.

Lemma settled_keeps snapshot closing r : e_source (settled snapshot closing r) = e_source r /\ e_id (settled snapshot closing r) = e_id r.
Proof using Type. unfold settled. destruct (pending_event _ _); [done|]. by destruct (_ && _). Qed.

Lemma settled_not_due snapshot closing r : pending_event (event_id snapshot) r = true -> is_due now (settled snapshot closing r) = false.
Proof using Type. intros H. unfold settled. by rewrite H. Qed.

(** C14: a due event that is consumed does not stay at the head of the queue.
    Unless there was no work to do, the event is settled or waits for a later
    instant, so the other instances of the source are served next. *)
Theorem consumption_clears_the_queue_head weather prepared (db db' : Db) c row :
  keyed_db db -> keyed_table instance_conflicts (instances db) ->
  consume_prepared now gen_random_uuid run_command weather prepared db = (Ok c, db') -> c <> NoWork ->
  In row (events db') -> e_source row = runtime_source -> e_id row = event_id (prepared_snapshot prepared) -> is_due now row = false.
Proof using Type.
  intros Hkd Hk H Hc Hin Hs Hi. set (snapshot := prepared_snapshot prepared) in *. pose proof (proj1 Hkd) as Hke.
  assert (Hpend : is_pending snapshot db \/ db' = db /\ c = NoWork).
  { unfold consume_prepared in H. cbv zeta in H. destruct (lock_prepared_snapshot _ _ _ _) as [[[] db1]|e] eqn:El; [|by injection H as <- <-; right|done].
    destruct (lock_spec _ _ _ _ _ Hk El) as (_ & Hp & _). by left. }
  destruct Hpend as [Hp|[_ ->]]; [|done].
  apply (consume_prepared_contract _ _ _ _ _ Hk) in H. fold snapshot in H.
  inversion H as [| | |c0 db0 _ _ Happ Htr|error erow delay db0 _ _ _ He Hpe Ha Hd Hre|error erow delay db1 db0 _ _ _ He Hpe Ha Hd Hre Hend|error db0 _ _ _ Hend| | |]; subst; try done.
  - pose proof (respects_apply now gen_random_uuid run_command prepared db c db' Hkd Happ) as J.
    destruct Htr as (? & ? & [(r & r' & closing & fresh & entry & _ & [_ Hev _ _] & _) _] & _). fold snapshot in Hev.
    pose proof Hp as Hp'. apply existsb_exists in Hp' as (r0 & Hin0 & Hr0). pose proof (proj1 (pending_event_spec _ _) Hr0) as (H1 & H2 & _).
    assert (Hset : In (settled snapshot closing r0) (events db')) by (rewrite Hev; apply in_or_app; left; by apply in_map).
    destruct (settled_keeps snapshot closing r0) as [K1 K2].
    assert (row = settled snapshot closing r0) as ->.
    { apply (keyed_unique _ _ _ (proj1 (journaled_keys _ _ _ _ _ J)) Hin Hset). apply same_event_conflicts; congruence. }
    by apply settled_not_due.
  - destruct Hre as (_ & _ & Hev). destruct (updated_event snapshot db _ _ row Hke Hp Hev) as (r & Hr & ->); try done; [intros r; by destruct (pending_event _ r)|].
    rewrite Hr. unfold is_due, allowed_delay, TRANSITION_RETRY_INITIAL_MS in *. cbn.
    destruct (Z.leb_spec (now + delay * 1000) now); [lia|]. by rewrite andb_false_r.
  - destruct Hre as (_ & _ & Hev1). destruct Hend as (_ & Hev & _). rewrite Hev1, map_map in Hev.
    destruct (updated_event snapshot db _ _ row Hke Hp Hev) as (r & Hr & ->); try done.
    { intros r. destruct (pending_event _ r) eqn:E; [destruct (settled_keeps snapshot false (set_event r (e_status r) (e_attempts r + 1) (instant_after now delay))); done|apply settled_keeps]. }
    rewrite Hr. apply settled_not_due. by apply pending_event_spec in Hr as (? & ? & ?); apply pending_event_spec.
  - destruct Hend as (_ & Hev & _). destruct (updated_event snapshot db _ _ row Hke Hp Hev) as (r & Hr & ->); try done.
    { intros r. apply settled_keeps. } by apply settled_not_due.
Qed.
End Consumed.

(** ** Witnesses *)

Lemma sample_instances_keyed : keyed_table instance_conflicts (instances sample_database).
Proof. apply keyed_short. cbn. lia. Qed.

(** A deployment whose database is shutting down. *)
Definition foul_weather : Weather := {| preparing _ := None; applying := Some (Sqlstate "57P01"); locked _ := false |}.

Definition sample_deferred : attempt TransitionConsumption * Database (list string) :=
  Eval vm_compute in consume_prepared 10 sample_uuid sample_greets foul_weather sample_prepared sample_database.

Lemma sample_defers : consume_prepared 10 sample_uuid sample_greets foul_weather sample_prepared sample_database = (sample_deferred.1, sample_deferred.2).
Proof. vm_compute. reflexivity. Qed.

Lemma consume_prepared_refines_witness :
  sample_deferred.1 = Ok (Deferred "i" "e0" 1 50)
  /\ consumed 10 sample_uuid sample_greets sample_snapshot foul_weather sample_prepared sample_database sample_deferred.1 sample_deferred.2.
Proof.
  split; [reflexivity|].
  exact (consume_prepared_refines 10 sample_uuid sample_greets foul_weather sample_prepared sample_database sample_deferred.2 sample_deferred.1
    sample_instances_keyed sample_defers).
Defined.

Lemma consumption_clears_the_queue_head_witness :
  map (fun row => (e_attempts row, e_available_at row)) (events sample_deferred.2) = [(1, At 50010)]
  /\ forall row, In row (events sample_deferred.2) -> is_due 10 row = false.
Proof.
  split; [reflexivity|]. intros row Hin.
  apply (consumption_clears_the_queue_head (runtime := sample_runtime) 10 sample_uuid sample_greets foul_weather sample_prepared sample_database sample_deferred.2
    (Deferred "i" "e0" 1 50) row sample_keyed sample_instances_keyed sample_defers); [done|exact Hin| |]; destruct Hin as [<-|[]]; reflexivity.
Defined.
