(* ===== verification/ProcessMoves.v ===== *)
(** * The moves of an instance are runs of its process

    The operation of a compiled state moves exactly to the targets the graph of
    the process declares; a transition moves along one of these edges and leaves
    the output that the edge says, so that an instance is always on a run of its
    process. *)
From stdpp Require Import gmap relations.
From S2P Require Import Prelude Json KeyedMap AbiIds RulesSyntax ValueContract ProcessSyntax ProcessGraph ProcessGraphSpec ProcessTypes ProcessActivity ProcessInfer ProcessEvaluate ProcessDependencies ProcessFingerprint ProcessDefinition ProcessStates ProcessStatesSpec ProcessCompile ProcessCompileSpec ProcessCompiled ProcessTyped ProcessTables ProcessTransition ProcessPrepare ProcessCommit ProcessConsume ProcessJournal ProcessEffect ProcessSample.
Set Warnings "-register-all".

(** ** Moves *)

Definition request_moves (next : string) (request : CompiledProcessRequestState) (routed : bool) : list (string * bool) :=
  push_ambiguous (push_error_transitions [(next, true)] (on_error (activity request)) routed) (on_ambiguous (activity request)) routed.

(** Where a compiled operation may go, and whether its output is then in the
    journal. *)
Definition operation_moves (operation : CompiledProcessStateOperation) : list (string * bool) :=
  match operation with
  | CompiledCommand _ next => [(next, true)]
  | CompiledRequest request => request_moves (compiled_request_next request) request false
  | CompiledWhen w => map (fun case => (compiled_case_next case, true)) (cases w) ++ [(compiled_default w, true)]
  | CompiledWait (CompiledSignal wait) => [(waited_next wait, true); (waited_on_timeout wait, false)]
  | CompiledWait (CompiledWebhook wait) => [(hooked_next wait, true); (hooked_on_timeout wait, false)]
  | CompiledWait (CompiledTimer wait) => [(compiled_timer_next wait, true)]
  | CompiledForEach state =>
      match fan_activity state with
      | ForEachCommand _ => [(fan_next state, true)]
      | ForEachRequest request => request_moves (fan_next state) request true
      end
  | CompiledOutput _ | CompiledFail _ _ => []
  end.

Section Compiled.
Context {digest : Digest} {dependencies : ProcessDependencyCatalog}.
Variable process : Process.
Variable signals : btree CompiledProcessSignal.

Lemma table_cases_moves contract path index l compiled : compile_table_cases contract path index l = Ok compiled ->
  map compiled_case_next compiled = map case_next l.
Proof using Type.
  revert index compiled. induction l as [|case l IH]; intros index compiled H; cbn in H; [by injection H as <-|].
  destruct (case_rule case); [done|]. destruct (case_with case); [|done]. destruct (ProcessSyntax.case_matches case) as [matches|]; [|done].
  apply bind_Ok in H as (? & _ & H). apply bind_Ok in H as (rest & Hr & H). injection H as <-. cbn. f_equal. by eapply IH.
Qed.

Lemma case_moves c path s case s' : compile_case c path s case = Ok s' ->
  map compiled_case_next (compiled_cases s') = map compiled_case_next (compiled_cases s) ++ [case_next case].
Proof using Type.
  intros H. unfold compile_case in H. destruct (ProcessSyntax.case_matches case) as [matches|], (case_rule case) as [name|]; try done.
  - destruct (negb _); [done|]. apply bind_Ok in H as ([source_state source_] & _ & H). destruct (opt_is_some_and _ _); [done|].
    apply bind_Ok in H as (? & _ & H). injection H as <-. cbn. by rewrite map_app.
  - apply bind_Ok in H as (d & _ & H). destruct (negb _); [done|]. apply bind_Ok in H as (? & _ & H). injection H as <-. cbn. by rewrite map_app.
Qed.

Lemma cases_moves c path index s l s' : compile_cases c path index s l = Ok s' ->
  map compiled_case_next (compiled_cases s') = map compiled_case_next (compiled_cases s) ++ map case_next l.
Proof using Type.
  revert index s. induction l as [|case l IH]; intros index s H; cbn in H; [injection H as <-; by rewrite app_nil_r|].
  apply bind_Ok in H as (s1 & H1 & H2). rewrite (IH _ _ H2), (case_moves _ _ _ _ _ H1), <- app_assoc. done.
Qed.

Lemma when_moves w c closure path out compiled closure' : compile_when_state w c closure path = Ok (out, compiled, closure') ->
  map compiled_case_next (cases compiled) = map case_next (when_cases w) /\ compiled_default compiled = when_default w.
Proof using Type.
  intros H. unfold compile_when_state, compile_decision_when in H. destruct (is_empty _); [done|].
  destruct (when_decision_table w).
  - apply bind_Ok in H as (d & _ & H). apply bind_Ok in H as (? & _ & H). apply bind_Ok in H as (l & Hl & H). injection H as <- <- <-. cbn.
    split; [|done]. by eapply table_cases_moves.
  - destruct (negb _); [done|]. apply bind_Ok in H as (s & Hs & H). injection H as <- <- <-. cbn. split; [|done]. by rewrite (cases_moves _ _ _ _ _ _ Hs).
Qed.

Lemma compile_request_targets connector_ operation_ values key timeout retry_ on_error_ once on_ambiguous_ state_id item_key c closure path
    output horizons a closure' :
  compile_request process connector_ operation_ values key timeout retry_ on_error_ once on_ambiguous_ state_id item_key c closure path
    = Ok (output, horizons, a, closure') -> on_error a = on_error_ /\ on_ambiguous a = on_ambiguous_.
Proof using Type.
  intros H. unfold compile_request in H. destruct (_ || _); [done|]. apply bind_Ok in H as (found & _ & H). apply bind_Ok in H as (resolved & _ & H).
  destruct (negb _); [done|]. do 7 (apply bind_Ok in H as (? & _ & H)). destruct (_ <? _); [done|].
  do 3 (apply bind_Ok in H as (? & _ & H)). apply bind_Ok in H as ([idempotent hs] & _ & H). apply bind_Ok in H as (? & _ & H). by injection H as _ _ <- _.
Qed.

Lemma wait_moves wait c closure path out compiled closure' : compile_wait_state process signals wait c closure path = Ok (out, compiled, closure') ->
  operation_moves (CompiledWait compiled) = match wait with
    | WaitSignal signal => [(signal_next signal, true); (signal_on_timeout signal, false)]
    | WaitWebhook webhook => [(webhook_next webhook, true); (webhook_on_timeout webhook, false)]
    | WaitTimer timer => [(timer_next timer, true)]
    end.
Proof using Type.
  destruct wait as [wait|wait|timer]; cbn [compile_wait_state]; intros H.
  - unfold compile_signal_wait in H. apply bind_Ok in H as (signal & _ & H). apply bind_Ok in H as (? & _ & H). destruct (negb _); [done|].
    do 3 (apply bind_Ok in H as (? & _ & H)). by injection H as _ <- _.
  - unfold compile_webhook_wait in H. do 3 (apply bind_Ok in H as (? & _ & H)). apply bind_Ok in H as ([trigger_ output] & _ & H).
    destruct (is_empty _); [done|]. apply bind_Ok in H as (? & _ & H). apply bind_Ok in H as ([guard_ closure1] & _ & H).
    apply bind_Ok in H as (? & _ & H). by injection H as _ <- _.
  - unfold compile_timer_wait in H. do 3 (apply bind_Ok in H as (? & _ & H)).
    destruct (strip_rule_nullable _); try done; by injection H as _ <- _.
Qed.

(** The compiled operation keeps the transitions of the state. *)
Lemma compile_operation_moves state c closure path out horizons operation closure' :
  compile_operation process signals state c closure path = Ok (out, horizons, operation, closure') -> operation_moves operation = state_transitions state.
Proof using Type.
  intros H. unfold compile_operation in H. unfold state_transitions. destruct (ProcessSyntax.operation state) as [command|request|w|wait|for_each|values|fc fm].
  - apply bind_Ok in H as ([d closure1] & _ & H). apply bind_Ok in H as (role_ & _ & H). by injection H as _ _ <- _.
  - apply bind_Ok in H as ([[[out1 hs] compiled] closure1] & Hc & H). injection H as _ _ <- _. unfold compile_request_state in Hc.
    apply bind_Ok in Hc as ([[[out2 hs2] compiled2] closure2] & Hc & H). injection H as _ _ <- _.
    apply compile_request_targets in Hc as [He Ha]. cbn. unfold request_moves. cbn. by rewrite He, Ha.
  - apply bind_Ok in H as ([[out1 w1] closure1] & Hc & H). injection H as _ _ <- _. apply when_moves in Hc as [Hc Hd]. cbn. rewrite Hd. f_equal.
    rewrite <- (map_map compiled_case_next (fun next => (next, true))), Hc, map_map. done.
  - apply bind_Ok in H as ([[out1 w1] closure1] & Hc & H). injection H as _ _ <- _. exact (wait_moves _ _ _ _ _ _ _ Hc).
  - apply bind_Ok in H as ([[[out1 hs] f1] closure1] & Hc & H). injection H as _ _ <- _. unfold compile_for_each_state in Hc.
    destruct (_ || _) in Hc; [done|]. destruct (_ || _) in Hc; [done|]. destruct (negb _) in Hc; [done|].
    apply bind_Ok in Hc as (item & _ & Hc). apply bind_Ok in Hc as ([[[out2 hs2] a] closure2] & Ha & Hc). apply bind_Ok in Hc as (output & _ & Hc).
    injection Hc as _ _ <- _. cbn. destruct for_each as [each command next|each request next]; cbn in Ha.
    + apply bind_Ok in Ha as ([d closure3] & _ & Ha). apply bind_Ok in Ha as (role_ & _ & Ha). by injection Ha as _ _ <- _.
    + apply bind_Ok in Ha as ([[[out3 hs3] r] closure3] & Hr & Ha). injection Ha as _ _ <- _. unfold compile_request_activity in Hr.
      apply bind_Ok in Hr as ([[[out4 hs4] r4] closure4] & Hr & H4). injection H4 as _ _ <- _. apply compile_request_targets in Hr as [He Hm].
      unfold request_moves. cbn. by rewrite He, Hm.
  - do 3 (apply bind_Ok in H as (? & _ & H)). by injection H as _ _ <- _.
  - destruct (_ || _) in H; [done|]. by injection H as _ _ <- _.
Qed.
End Compiled.

(** ** Prepared transitions *)

Lemma request_moves_next next request routed : In (next, true) (request_moves next request routed).
Proof.
  unfold request_moves, push_ambiguous, push_error_transitions. destruct (on_error _), (on_ambiguous _); cbn; auto.
Qed.

Lemma request_moves_ambiguous next request routed route : on_ambiguous (activity request) = Some route -> In (route, routed) (request_moves next request routed).
Proof. intros H. unfold request_moves, push_ambiguous. rewrite H. apply in_or_app. right. by left. Qed.

Lemma request_moves_error next request routed routes_ kind : on_error (activity request) = Some routes_ ->
  In (error_route routes_ kind, routed) (request_moves next request routed).
Proof.
  intros H. assert (Hin : In (error_route routes_ kind, routed) (push_error_transitions [(next, true)] (Some routes_) routed)).
  { cbn. right. apply in_or_app. unfold error_route. destruct (List.find _ _) as [route|] eqn:E; [|right; by left].
    apply find_some in E as [Hin _]. left. by apply (in_map (fun route => (route_next route, routed))). }
  unfold request_moves, push_ambiguous. rewrite H. destruct (on_ambiguous _); [apply in_or_app; by left|exact Hin].
Qed.

Section Prepared.
Context {serde : Serde} {digest : Digest} {uuids : Uuids} {runtime : ProcessRuntime}.

(** Every route of a fan-out keeps its output. *)
Lemma fanout_route_moves state route : fanout_route state route -> In (route, true) (operation_moves (CompiledForEach state)).
Proof using Type.
  cbn. intros [->|(request & Hr & Hroute)].
  - destruct (fan_activity state); [by left|apply request_moves_next].
  - rewrite Hr. destruct Hroute as [[kind ->]|Ha]; [|by apply request_moves_ambiguous]. unfold fanout_request_error_route.
    destruct (on_error (activity request)) as [routes_|] eqn:E; [by apply request_moves_error|apply request_moves_next].
Qed.

(** The transition is one of the operation: it leads where the operation goes,
    and what it records is an output of the state. *)
Definition fits (snapshot : TransitionSnapshot) (d : CompiledProcessDefinition) (operation : CompiledProcessStateOperation)
    (prepared : PreparedTransition) : Prop :=
  prepared_snapshot prepared = snapshot
  /\ match prepared with
     | PreparedCommand _ definition _ next _ => definition = d /\ In (next, true) (operation_moves operation)
     | PreparedRequestSuccess _ state _ _ _ output => In (compiled_request_next state, true) (operation_moves operation) /\ validated snapshot d (Some output)
     | PreparedRequestFailure _ _ _ _ next _ | PreparedRequestAmbiguous _ _ _ _ next _ => In (next, false) (operation_moves operation)
     | PreparedWhen _ next output _ => In (next, true) (operation_moves operation) /\ validated snapshot d (Some output)
     | PreparedOutput _ output => validated snapshot d (Some output)
     | PreparedWaitCompletion _ next output _ _ => In (next, is_some output) (operation_moves operation) /\ validated snapshot d output
     | PreparedFanOutExpansion _ definition state _ | PreparedFanOutCommandItem _ definition state _ _ _ _ _
     | PreparedFanOutRequestCompletion _ definition state _ _ _ _ _ _ _ _ => definition = d /\ operation = CompiledForEach state
     | _ => True
     end.

Lemma first_case_In snapshot d state comparison n l i case : first_case snapshot d state comparison n l = Ok (Some (i, case)) -> In case l.
Proof using Type.
  revert n. induction l as [|c l IH]; intros n H; cbn in H; [done|]. apply bind_Ok in H as ([] & _ & H); [injection H as _ <-; by left|].
  right. by eapply IH.
Qed.

Ltac valid := repeat match goal with
  | H : with_context _ _ = Ok ?a |- _ => apply validated_context in H as ?; destruct a
  | H : map_err _ (validate_state_output _ _ _) = Ok ?a |- _ => apply map_err_Ok in H; destruct a
  end; by intros ? [= <-].

Lemma when_fits snapshot d state prepared : prepare_when_transition snapshot d state = Ok prepared ->
  fits snapshot d (CompiledWhen state) prepared.
Proof using Type.
  intros H. unfold prepare_when_transition in H. apply bind_Ok in H as ([comparison row] & _ & H). apply bind_Ok in H as (case & Hc & H).
  apply bind_Ok in H as ([] & Hv & H). injection H as <-. split; [done|]. apply fault_of_Ok in Hc. apply validated_context in Hv.
  split; [|by intros ? [= <-]]. cbn. apply in_or_app. destruct case as [[i case]|]; [left|right; by left].
  apply first_case_In in Hc. by apply (in_map (fun case => (compiled_case_next case, true))).
Qed.

Lemma command_fits snapshot d command next prepared : prepare_command_transition snapshot d command next = Ok prepared ->
  fits snapshot d (CompiledCommand command next) prepared.
Proof using Type.
  intros H. unfold prepare_command_transition in H. apply bind_Ok in H as (? & _ & H). injection H as <-. split; [done|]. split; [done|by left].
Qed.

Lemma output_fits snapshot d values prepared : prepare_output_transition snapshot d values = Ok prepared -> fits snapshot d (CompiledOutput values) prepared.
Proof using Type. intros H. 
  unfold prepare_output_transition in H. apply bind_Ok in H as (output & _ & H). apply bind_Ok in H as ([] & Hv%map_err_Ok & H).
  apply bind_Ok in H as (? & _ & H). injection H as <-. split; [done|]. by intros ? [= <-].
Qed.

Lemma expansion_fits snapshot d state prepared : prepare_fanout_expansion snapshot d state = Ok prepared -> fits snapshot d (CompiledForEach state) prepared.
Proof using Type.
  intros H. unfold prepare_fanout_expansion in H. destruct (evaluate_process_value _ _) as [input|]; [|by injection H as <-].
  destruct (as_array input); [|by injection H as <-]. destruct (_ <? _); [by injection H as <-|].
  apply bind_Ok in H as ([items_|code message] & _ & H); by injection H as <-.
Qed.

Lemma wait_entry_fits snapshot d state prepared : prepare_wait_entry snapshot d state = Ok prepared -> fits snapshot d (CompiledWait state) prepared.
Proof using Type.
  intros H. unfold prepare_wait_entry in H. apply bind_Ok in H as (v & _ & H). cbv zeta in H. destruct state as [wait|wait|wait].
  - apply bind_Ok in H as (? & _ & H). destruct (opt_is_some_and _ _); [done|]. do 3 (apply bind_Ok in H as (? & _ & H)). by injection H as <-.
  - do 3 (apply bind_Ok in H as (? & _ & H)). by injection H as <-.
  - do 6 (apply bind_Ok in H as (? & _ & H)). by injection H as <-.
Qed.

Lemma wait_completion_fits snapshot d state prepared : prepare_wait_completion snapshot d state = Ok (Some prepared) ->
  fits snapshot d (CompiledWait state) prepared.
Proof using Type.
  intros H. unfold prepare_wait_completion in H. destruct (negb _); [done|]. cbv zeta in H. destruct state as [wait|wait|wait].
  - destruct (String.eqb _ "signal"); [|destruct (String.eqb _ "timer"); [|done]; injection H as <-; split; [done|]; by split; [right; left|]].
    unfold complete_signal in H. destruct (negb _); [done|]. do 8 (apply bind_Ok in H as (? & _ & H)). cbv zeta in H.
    apply bind_Ok in H as ([] & Hv & H). injection H as <-. apply map_err_Ok in Hv. split; [done|]. by split; [left|intros ? [= <-]].
  - destruct (String.eqb _ "signal"); [|destruct (String.eqb _ "timer"); [|done]; injection H as <-; split; [done|]; by split; [right; left|]].
    unfold complete_webhook in H. cbv zeta in H. destruct (_ || _); [done|]. do 4 (apply bind_Ok in H as (? & _ & H)).
    apply bind_Ok in H as ([] & Hv & H). injection H as <-. apply map_err_Ok in Hv. split; [done|]. by split; [left|intros ? [= <-]].
  - destruct (String.eqb _ "timer"); [|done]. unfold complete_timer in H. apply bind_Ok in H as (? & _ & H).
    apply bind_Ok in H as ([] & Hv & H). injection H as <-. apply map_err_Ok in Hv. split; [done|]. by split; [left|intros ? [= <-]].
Qed.

Section Reads.
Context {Application : Type}.
Variable db : Database Application.

Lemma request_success_fits snapshot d state prepared : prepare_request_success_transition db snapshot d state = Ok prepared ->
  fits snapshot d (CompiledRequest state) prepared.
Proof using Type.
  intros H. unfold prepare_request_success_transition in H. do 5 (apply bind_Ok in H as (? & _ & H)). destruct (negb _); [done|].
  apply bind_Ok in H as ([] & Hv & H). injection H as <-. apply map_err_Ok in Hv. split; [done|].
  split; [apply request_moves_next|by intros ? [= <-]].
Qed.

Lemma request_failure_fits snapshot d state prepared : prepare_request_failure_transition db snapshot state = Ok prepared ->
  fits snapshot d (CompiledRequest state) prepared.
Proof using Type.
  intros H. unfold prepare_request_failure_transition in H. do 3 (apply bind_Ok in H as (? & _ & H)). destruct (negb _); [done|].
  apply bind_Ok in H as (? & _ & H). destruct (negb _); [done|]. apply bind_Ok in H as (kind & _ & H). destruct (is_ambiguous_send _).
  - apply bind_Ok in H as (next & Hn & H). injection H as <-. apply ok_or_Ok in Hn. split; [done|]. by apply request_moves_ambiguous.
  - apply bind_Ok in H as (routes_ & Hr & H). injection H as <-. apply ok_or_Ok in Hr. split; [done|]. by apply request_moves_error.
Qed.

Lemma fanout_command_fits snapshot d state prepared : prepare_fanout_command_item db snapshot d state = Ok prepared ->
  fits snapshot d (CompiledForEach state) prepared.
Proof using Type.
  intros H. unfold prepare_fanout_command_item in H. destruct (fan_activity state); [|done]. do 3 (apply bind_Ok in H as (? & _ & H)).
  destruct (negb _); [done|]. do 2 (apply bind_Ok in H as (? & _ & H)). by injection H as <-.
Qed.

Lemma fanout_request_fits snapshot d state prepared : prepare_fanout_request_completion db snapshot d state = Ok prepared ->
  fits snapshot d (CompiledForEach state) prepared.
Proof using Type.
  intros H. unfold prepare_fanout_request_completion in H. destruct (fan_activity state); [done|]. apply bind_Ok in H as (? & _ & H).
  apply bind_Ok in H as ([item job] & _ & H). destruct (negb _); [done|]. apply bind_Ok in H as (? & _ & H). by injection H as <-.
Qed.

Lemma some_Ok (m : attempt PreparedTransition) prepared : (p ← m; Ok (Some p)) = Ok (Some prepared) -> m = Ok prepared.
Proof using Type. intros (p & H & [= <-])%bind_Ok. exact H. Qed.

(** What is prepared for an operation is a transition of it. *)
Lemma operation_fits snapshot d operation prepared : prepare_operation db snapshot d operation = Ok (Some prepared) -> fits snapshot d operation prepared.
Proof using Type.
  intros H. unfold prepare_operation in H. cbv zeta in H. destruct operation as [command next|state|state|state|state|values|code message].
  - destruct (deterministic_event_kind _); [|done]. by apply some_Ok, fault_of_Ok, command_fits in H.
  - destruct (deterministic_event_kind _).
    { apply some_Ok in H. unfold prepare_request_transition in H. apply bind_Ok in H as (? & _ & H). by injection H as <-. }
    destruct (String.eqb _ "activity_succeeded"); [by apply some_Ok, fault_of_Ok, request_success_fits in H|].
    destruct (is_activity_failure _); [|done]. by apply some_Ok, fault_of_Ok, request_failure_fits with (d := d) in H.
  - destruct (deterministic_event_kind _); [|done]. by apply some_Ok, when_fits in H.
  - unfold prepare_wait_transition in H. destruct (deterministic_event_kind _); [by apply some_Ok, wait_entry_fits in H|].
    destruct (_ || _); [|done]. by apply fault_of_Ok, wait_completion_fits in H.
  - destruct (deterministic_event_kind _); [by apply some_Ok, expansion_fits in H|].
    destruct (String.eqb _ "fanout_item"); [by apply some_Ok, fault_of_Ok, fanout_command_fits in H|].
    destruct (_ || _); [|done]. by apply some_Ok, fault_of_Ok, fanout_request_fits in H.
  - destruct (deterministic_event_kind _); [|done]. by apply some_Ok, fault_of_Ok, output_fits in H.
  - destruct (deterministic_event_kind _); [|done]. by injection H as <-.
Qed.

Lemma snapshot_fits snapshot prepared : prepare_one_snapshot db snapshot = Ok (Some prepared) ->
  exists d state, revision deployed_catalog (process_name snapshot) (snapshot_revision snapshot) = Some d
    /\ bt_get (definition_states d) (current_state snapshot) = Some state /\ fits snapshot d (compiled_state_operation state) prepared.
Proof using Type.
  intros H. unfold prepare_one_snapshot in H. apply bind_Ok in H as (d & Hd%fault_of_Ok%ok_or_Ok & H).
  apply bind_Ok in H as (state & Hs%fault_of_Ok%ok_or_Ok & H). exists d, state. split; [done|]. split; [done|]. by apply operation_fits.
Qed.
End Reads.
End Prepared.
