(* ===== verification/ProcessRuns.v ===== *)
(** * Running instances are runs of their process

    The worlds that preparations, consumptions and the other transactions of
    the server lead through.  In each of them an instance is on a run of its
    process: the graph was followed from the start to the state the row is in,
    and the journal holds the outputs the states on the way recorded. *)
From stdpp Require Import gmap relations.
From S2P Require Import Prelude Json KeyedMap AbiIds RulesSyntax ValueContract ProcessSyntax ProcessGraph ProcessGraphSpec ProcessTypes ProcessActivity ProcessInfer ProcessEvaluate ProcessDependencies ProcessFingerprint ProcessDefinition ProcessStates ProcessStatesSpec ProcessCompile ProcessCompileSpec ProcessCompiled ProcessTyped ProcessTypedSpec ProcessTables ProcessTransition ProcessPrepare ProcessCommit ProcessStart ProcessConsume ProcessJournal ProcessEffect ProcessMoves.
Set Warnings "-register-all".

(** ** Compiled states *)

Section States.
Context {digest : Digest} {dependencies : ProcessDependencyCatalog}.

(** A compiled state is a state of the process, with its transitions. *)
Definition compiled_from (process : Process) (name : string) (k : CompiledProcessState) : Prop :=
  exists i st, states process !! i = Some st /\ id st = name /\ operation_moves (compiled_state_operation k) = state_transitions st.

Definition all_compiled_from (process : Process) (states_ : btree CompiledProcessState) : Prop :=
  forall name k, bt_get states_ name = Some k -> compiled_from process name k.

Lemma indexed_from process signals input graph base s index s' :
  compile_indexed process signals input graph base s index = Ok s' ->
  all_compiled_from process (progress_states s) -> all_compiled_from process (progress_states s').
Proof using Type.
  unfold compile_indexed. intros (st & Hst%ok_or_Ok & (c & _ & ([compiled closure] & Hc & [= <-])%bind_Ok)%bind_Ok)%bind_Ok H.
  apply lift_Ok in Hc. unfold compile_state in Hc. apply bind_Ok in Hc as ([[[out hs] op] closure1] & Hop & [= <- _]).
  intros name k. cbn [progress_states]. rewrite bt_insert_get. destruct (String.eqb_spec name (id st)) as [->|]; [|apply H].
  intros [= <-]. exists index, st. split; [done|]. split; [done|]. by apply compile_operation_moves in Hop.
Qed.
End States.

Section Compiled.
Context {serde : Serde} {digest : Digest} {material : ProcessMaterial} {dependencies : ProcessDependencyCatalog}.

Lemma compiled_states_from metadata index process d : compile_process metadata index process = Ok d ->
  all_compiled_from process (definition_states d) /\ definition d = process /\ valid_graph process.
Proof using Type.
  intros (graph & key & closure & s & _ & _ & Hg & _ & Hl & _ & -> & _ & _ & Hd)%compile_process_Ok. split; [|split; [done|]].
  - enough (H : forall order s0, fold_result (compile_indexed process (definition_signals d) (definition_input d) graph (index_path "processes" index)) s0 order = Ok s ->
      all_compiled_from process (progress_states s0) -> all_compiled_from process (progress_states s)) by (by eapply H; [exact Hl|]).
    induction order as [|i order IH]; intros s0 H H0; cbn in H; [by injection H as ->|].
    destruct (compile_indexed _ _ _ _ _ s0 i) as [s1|] eqn:E; [|done]. eapply IH; [exact H|]. by eapply indexed_from.
  - destruct (validate_graph_cases process (index_path "processes" index)) as [(Hv & _)|(_ & e & He)]; [done|congruence].
Qed.
End Compiled.

(** ** Runs *)

(** The value is an output of the compiled state. *)
Definition recorded (k : CompiledProcessState) (o : Value) : Prop := validate_json (compiled_output k) o = Ok (Ok tt).

(** A run of the process ends in the state; its journal has what the states on
    the way recorded, and nothing but outputs of states. *)
Record on_run (d : CompiledProcessDefinition) (name : string) (journal : Value) : Prop := {
  on_run_trace : exists i trace, state_at (definition d) i name /\ run (definition d) i trace
    /\ forall j st, (j, true) ∈ trace -> states (definition d) !! j = Some st ->
         exists o, object_field journal (id st) "state journal" = Ok o;
  on_run_outputs : forall s k o, bt_get (definition_states d) s = Some k -> object_field journal s "state journal" = Ok o -> recorded k o;
}.

Lemma obj_insert_get o k v k' : obj_get (obj_insert o k v) k' = if String.eqb k' k then Some v else obj_get o k'.
Proof.
  induction o as [|[k0 v0] o IH]; cbn; [done|]. destruct (String.eqb_spec k k0) as [->|Hn]; cbn.
  - by destruct (String.eqb_spec k' k0).
  - destruct (String.eqb_spec k' k0) as [->|]; [|exact IH]. destruct (String.eqb_spec k0 k); congruence.
Qed.

Lemma journal_field target name o journal kind field : jsonb_set target name o = Ok journal ->
  object_field journal field kind = if String.eqb field name then Ok o else object_field target field kind.
Proof.
  unfold jsonb_set, object_field. destruct (as_object target) as [object|]; [|done]. intros [= <-]. cbn. rewrite obj_insert_get.
  by destruct (String.eqb field name).
Qed.

Section Runs.
Context {serde : Serde} {digest : Digest} {uuids : Uuids} {runtime : ProcessRuntime} {material : ProcessMaterial}.
Context {dependencies : ProcessDependencyCatalog}.

(** The start of a process, with an empty journal. *)
Lemma on_run_start d i : state_at (definition d) i (start_at (definition d)) -> on_run d (start_at (definition d)) (JObject []).
Proof using Type.
  intros H. split; [|done]. exists i, []. split; [done|]. split; [by constructor|]. intros j st Hin. by apply elem_of_nil in Hin.
Qed.

(** What a state records. *)
Lemma on_run_record snapshot d row journal output : current_state snapshot = i_current_state row -> on_run d (i_current_state row) (i_state row) ->
  validated snapshot d output -> journal_after snapshot output row journal -> on_run d (i_current_state row) journal.
Proof using Type.
  intros Hcur [(i & trace & Hi & Hrun & Htrace) Hout] Hv Hj. unfold journal_after in Hj. destruct output as [out|]; [|subst journal; split; [by exists i, trace|done]].
  split; [exists i, trace; split; [done|]; split; [done|]|].
  - intros j st Hin Hst. rewrite (journal_field _ _ _ _ _ _ Hj). destruct (String.eqb _ _); eauto.
  - intros s k o Hk Ho. rewrite (journal_field _ _ _ _ _ _ Hj) in Ho. destruct (String.eqb_spec s (current_state snapshot)) as [->|]; [|by eapply Hout].
    injection Ho as <-. specialize (Hv out eq_refl). unfold validate_state_output in Hv. apply bind_Ok in Hv as (typed & Ht%map_err_Ok & Hv).
    rewrite Hk in Hv. cbn in Hv. unfold recorded, validate_json. rewrite Ht. cbn. by destruct (validate _ _) as [[]|].
Qed.

(** A move goes on the run. *)
Lemma on_run_step d name journal output to k : all_compiled_from (definition d) (definition_states d) -> valid_graph (definition d) ->
  on_run d name journal -> bt_get (definition_states d) name = Some k -> In (to, output) (operation_moves (compiled_state_operation k)) ->
  (output = true -> exists o, object_field journal name "state journal" = Ok o) ->
  on_run d to journal
  /\ exists i j, state_at (definition d) i name /\ state_at (definition d) j to /\ ProcessGraphSpec.step (definition d) i j.
Proof using Type.
  intros Hfrom Hg [(i & trace & Hi & Hrun & Htrace) Hout] Hk Hto Hj. destruct (Hfrom _ _ Hk) as (i' & st & Hst & Hid & Hmoves).
  assert (i = i') as ->.
  { destruct Hi as (sti & Hsti & Hidi). apply (NoDup_lookup (map id (states (definition d))) _ _ name (valid_distinct _ Hg));
      rewrite list_lookup_fmap; [rewrite Hsti; cbn; by rewrite Hidi|rewrite Hst; cbn; by rewrite Hid]. }
  assert (Htr : ProcessGraphSpec.transition (definition d) i' (to, output)).
  { exists st. split; [done|]. rewrite <- Hmoves. by apply list_elem_of_In. }
  destruct (valid_targets _ Hg _ _ Htr) as [j Hj']. cbn in Hj'. assert (Hsucc : succ (definition d) i' j output) by (by exists to). split.
  - split; [|exact Hout]. exists j, (trace ++ [(i', output)]). split; [done|]. split; [by apply run_step|].
    intros j0 st0 Hin Hst0. apply elem_of_app in Hin as [Hin|Hin]; [by eapply Htrace|].
    apply list_elem_of_singleton in Hin. injection Hin as -> <-. destruct (Hj eq_refl) as [o Ho]. exists o.
    replace st0 with st by congruence. by rewrite Hid.
  - exists i', j. split; [done|]. split; [done|by exists output].
Qed.
End Runs.

(** ** Worlds *)

Section Worlds.
Context {serde : Serde} {digest : Digest} {uuids : Uuids} {runtime : ProcessRuntime} {postgres : Postgres} {Application : Type}.
Abbreviation Db := (Database Application).

Definition same_instance (row row' : InstanceRow) : Prop :=
  i_source row' = i_source row /\ i_id row' = i_id row /\ i_process row' = i_process row /\ i_revision row' = i_revision row
  /\ i_start_key row' = i_start_key row /\ i_current_state row' = i_current_state row /\ i_state row' = i_state row.

(** A row a start request inserts. *)
Definition started (row : InstanceRow) : Prop :=
  exists d, revision deployed_catalog (i_process row) (i_revision row) = Some d
    /\ i_current_state row = start_at (definition d) /\ i_state row = JObject [].

(** What transactions other than transitions do to the rows of instances and
    items: they start instances, and change no state and no journal. *)
Record elsewhere (db db' : Db) : Prop := {
  elsewhere_keyed : keyed_table instance_conflicts (instances db');
  elsewhere_starts : keyed_table same_start (instances db');
  elsewhere_kept : forall row, In row (instances db) -> exists row', In row' (instances db') /\ same_instance row row';
  elsewhere_rows : forall row', In row' (instances db') ->
    (exists row, In row (instances db) /\ same_instance row row')
    \/ ((i_source row' = runtime_source -> started row') /\ forall row, In row (instances db) -> instance_conflicts row row' = false);
  elsewhere_items : incl (items db') (items db);
}.

(** The tables, and the transitions that were prepared from them at some time. *)
Record world := { tables : Db; in_flight : list PreparedTransition }.

Inductive turn : world -> world -> Prop :=
| turn_prepare now weather kind busy claim_in_flight w prepared :
    prepare_one_transition now weather kind busy claim_in_flight (tables w) = Prepared prepared ->
    turn w {| tables := tables w; in_flight := prepared :: in_flight w |}
| turn_unprepared now weather kind busy claim_in_flight w failing error r db' :
    prepare_one_transition now weather kind busy claim_in_flight (tables w) = PreparationFailed failing error ->
    settle now failing "transition_preparation_failed" error (tables w) = (r, db') ->
    turn w {| tables := db'; in_flight := in_flight w |}
| turn_consume now gen_random_uuid run_command weather w prepared r db' : In prepared (in_flight w) ->
    consume_prepared now gen_random_uuid run_command weather prepared (tables w) = (r, db') ->
    turn w {| tables := db'; in_flight := in_flight w |}
| turn_elsewhere w db' : elsewhere (tables w) db' -> turn w {| tables := db'; in_flight := in_flight w |}.

(** ** The invariant *)

Definition row_on_run (row : InstanceRow) : Prop :=
  exists d, revision deployed_catalog (i_process row) (i_revision row) = Some d /\ on_run d (i_current_state row) (i_state row).

(** The route of a failed item is one of its state. *)
Definition item_routed (db : Db) (item : ItemRow) : Prop :=
  forall failure route, f_source item = runtime_source -> f_failure item = Some failure -> get_str failure "route" = Some route ->
    exists row d k, In row (instances db) /\ i_source row = runtime_source /\ i_id row = f_instance item
      /\ revision deployed_catalog (i_process row) (i_revision row) = Some d /\ bt_get (definition_states d) (f_state item) = Some k
      /\ In (route, true) (operation_moves (compiled_state_operation k)).

(** A prepared transition is one of the state its instance was in. *)
Definition flight_ok (db : Db) (prepared : PreparedTransition) : Prop :=
  let snapshot := prepared_snapshot prepared in
  (exists d k, revision deployed_catalog (process_name snapshot) (snapshot_revision snapshot) = Some d
    /\ bt_get (definition_states d) (current_state snapshot) = Some k /\ fits snapshot d (compiled_state_operation k) prepared)
  /\ exists row, In row (instances db) /\ i_source row = runtime_source /\ i_id row = snapshot_instance snapshot
       /\ i_process row = process_name snapshot /\ i_revision row = snapshot_revision snapshot.

Record sound (w : world) : Prop := {
  sound_keyed : keyed_table instance_conflicts (instances (tables w));
  sound_rows : forall row, In row (instances (tables w)) -> i_source row = runtime_source -> row_on_run row;
  sound_items : forall item, In item (items (tables w)) -> item_routed (tables w) item;
  sound_flight : forall prepared, In prepared (in_flight w) -> flight_ok (tables w) prepared;
}.

(** *** Turns that move nothing *)

(** Every row of an instance is kept in a relation. *)
Definition rows_to (keep : InstanceRow -> InstanceRow -> Prop) (db db' : Db) : Prop := Forall2 keep (instances db) (instances db').

Definition same_key (row row' : InstanceRow) : Prop :=
  i_source row' = i_source row /\ i_id row' = i_id row /\ i_process row' = i_process row /\ i_revision row' = i_revision row
  /\ i_start_key row' = i_start_key row.

Definition quiet (db db' : Db) : Prop := rows_to same_instance db db' /\ items db' = items db.

Lemma rows_refl db : rows_to same_instance db db.
Proof using Type. unfold rows_to. induction (instances db); by constructor. Qed.

Lemma quiet_rows (set : InstanceRow -> InstanceRow) (db db' : Db) : (forall row, same_instance row (set row)) ->
  instances db' = map set (instances db) -> items db' = items db -> quiet db db'.
Proof using Type. intros Hset Hi Ht. split; [|done]. unfold rows_to. rewrite Hi. clear Hi Ht. induction (instances db); cbn; constructor; auto. Qed.

Lemma same_instance_key row row' : same_instance row row' -> same_key row row'.
Proof using Type. by intros (? & ? & ? & ? & ? & _). Qed.

Lemma rows_keyed keep (db db' : Db) : (forall a b, keep a b -> same_key a b) -> rows_to keep db db' ->
  keyed_table instance_conflicts (instances db) -> keyed_table instance_conflicts (instances db').
Proof using Type.
  intros Hkeep H Hk i j a' b' Ha Hb Hij. unfold rows_to in H.
  destruct (Forall2_lookup_r _ _ _ _ _ H Ha) as (a & Ha0 & (Hs & Hi & _)%Hkeep). destruct (Forall2_lookup_r _ _ _ _ _ H Hb) as (b & Hb0 & (Hs' & Hi' & _)%Hkeep).
  unfold instance_conflicts. rewrite Hs, Hi, Hs', Hi'. exact (Hk i j a b Ha0 Hb0 Hij).
Qed.

Lemma rows_forward keep (db db' : Db) row : rows_to keep db db' -> In row (instances db) -> exists row', In row' (instances db') /\ keep row row'.
Proof using Type.
  intros H (i & Hi)%list_elem_of_In%list_elem_of_lookup. destruct (Forall2_lookup_l _ _ _ _ _ H Hi) as (row' & Hr & Hk). exists row'. split; [|done].
  apply list_elem_of_In. by eapply list_elem_of_lookup_2.
Qed.

Lemma rows_back keep (db db' : Db) row' : rows_to keep db db' -> In row' (instances db') -> exists row, In row (instances db) /\ keep row row'.
Proof using Type.
  intros H (i & Hi)%list_elem_of_In%list_elem_of_lookup. destruct (Forall2_lookup_r _ _ _ _ _ H Hi) as (row & Hr & Hk). exists row. split; [|done].
  apply list_elem_of_In. by eapply list_elem_of_lookup_2.
Qed.

(** Items and prepared transitions stay sound where every instance stays. *)
Definition persists (db db' : Db) : Prop := forall row, In row (instances db) -> exists row', In row' (instances db') /\ same_key row row'.

Lemma routed_persists db db' item : persists db db' -> item_routed db item -> item_routed db' item.
Proof using Type.
  intros Hp H failure route Hs Hf Hr. destruct (H failure route Hs Hf Hr) as (row & d & k & Hin & Hrs & Hri & Hd & Hk & Hroute).
  destruct (Hp row Hin) as (row' & Hin' & Hs' & Hi' & Hp' & Hr' & _). exists row', d, k. rewrite Hs', Hi', Hp', Hr'. repeat split; done.
Qed.

Lemma flight_persists db db' prepared : persists db db' -> flight_ok db prepared -> flight_ok db' prepared.
Proof using Type.
  intros Hp [Hfit (row & Hin & Hrs & Hri & Hpr & Hrr)]. split; [done|]. destruct (Hp row Hin) as (row' & Hin' & Hs' & Hi' & Hp' & Hr' & _).
  exists row'. rewrite Hs', Hi', Hp', Hr'. repeat split; done.
Qed.

Lemma on_run_same row row' : same_instance row row' -> row_on_run row -> row_on_run row'.
Proof using Type. intros (_ & _ & Hp & Hr & _ & Hc & Hs) (d & Hd & Ho). exists d. rewrite Hp, Hr, Hc, Hs. by split. Qed.

Lemma quiet_sound w db' : sound w -> quiet (tables w) db' -> sound {| tables := db'; in_flight := in_flight w |}.
Proof using Type.
  intros [Hk Hr Hi Hf] [Hq Hitems].
  assert (Hp : persists (tables w) db').
  { intros row Hin. destruct (rows_forward _ _ _ _ Hq Hin) as (row' & Hin' & Hs). exists row'. split; [done|by apply same_instance_key]. }
  split; cbn.
  - eapply rows_keyed; [apply same_instance_key|exact Hq|done].
  - intros row' Hin' Hs'. destruct (rows_back _ _ _ _ Hq Hin') as (row & Hin & Hsame). eapply on_run_same; [exact Hsame|]. apply Hr; [done|].
    by destruct Hsame as [<- _].
  - intros item Hin. rewrite Hitems in Hin. by eapply routed_persists, Hi.
  - intros prepared Hin. by eapply flight_persists, Hf.
Qed.

Lemma elsewhere_sound w db' : (forall name rev d, revision deployed_catalog name rev = Some d -> valid_graph (definition d)) ->
  sound w -> elsewhere (tables w) db' -> sound {| tables := db'; in_flight := in_flight w |}.
Proof using Type.
  intros Hvalid [Hk Hr Hi Hf] [Ek _ Ekept Erows Eitems].
  assert (Hp : persists (tables w) db') by (intros row Hin; destruct (Ekept row Hin) as (row' & Hin' & Hs); exists row'; split; [done|by apply same_instance_key]).
  split; cbn; [done| | |].
  - intros row' Hin' Hs'. destruct (Erows row' Hin') as [(row & Hin & Hsame)|[Hst _]].
    + eapply on_run_same; [exact Hsame|]. apply Hr; [done|]. by destruct Hsame as [<- _].
    + destruct (Hst Hs') as (d & Hd & Hc & Hj). exists d. split; [done|]. rewrite Hc, Hj. destruct (valid_start _ (Hvalid _ _ _ Hd)) as [i Hat].
      by apply (on_run_start d i).
  - intros item Hin. eapply routed_persists; [done|]. by apply Hi, Eitems.
  - intros prepared Hin. by eapply flight_persists, Hf.
Qed.

(** *** Failures and deferrals *)

Lemma same_instance_refl row : same_instance row row.
Proof using Type. done. Qed.

Lemma quiet_refl db : quiet db db.
Proof using Type. split; [apply rows_refl|done]. Qed.

Lemma quiet_trans a b c : quiet a b -> quiet b c -> quiet a c.
Proof using Type.
  intros [H1 I1] [H2 I2]. split; [|congruence]. unfold rows_to in *. revert H2. generalize (instances c).
  induction H1 as [|x y xs ys (A1 & A2 & A3 & A4 & A5 & A6 & A7) H1 IH]; intros zs H2; inversion H2 as [|? z ? zs' (B1 & B2 & B3 & B4 & B5 & B6 & B7)];
    subst; constructor; [|auto]. repeat split; congruence.
Qed.

Lemma fail_instance_quiet failing code (db db' : Db) c : fail_instance failing code db = Ok (c, db') -> quiet db db'.
Proof using Type.
  intros H. unfold fail_instance, consume_event in H. run H.
  match goal with H : update_instances _ _ _ = _ |- _ => unfold update_instances, checked_update in H; destruct (forallb _ _); [|done]; injection H as <- <- end.
  match goal with H : update_events _ _ _ = _ |- _ => injection H as <- <- end.
  eapply quiet_rows; [|reflexivity|done]. intros row. cbv beta. by destruct (_ && _).
Qed.

Lemma reschedule_quiet now failing delay (db db' : Db) o : reschedule now failing delay db = Ok (o, db') -> quiet db db'.
Proof using Type.
  intros H. unfold reschedule in H. run H. match goal with H : update_events _ _ _ = _ |- _ => injection H as <- <- end. split; [exact (rows_refl db)|done].
Qed.

Lemma transaction_quiet {A} (t : ProcessTables.txn Application A) (db db' : Db) r :
  (forall a db', t db = Ok (a, db') -> quiet db db') -> transaction t db = (r, db') -> quiet db db'.
Proof using Type.
  intros Ht H. unfold transaction in H. destruct (t db) as [[a db1]|] eqn:E; injection H as <- <-; [by eapply Ht|apply quiet_refl].
Qed.

Lemma settle_quiet now failing code error (db db' : Db) r : settle now failing code error db = (r, db') -> quiet db db'.
Proof using Type.
  assert (Hfail : forall code db r db', transaction (fail_instance failing code) db = (r, db') -> quiet db db').
  { intros code0 db0 r0 db0'. apply transaction_quiet. intros a db1. apply fail_instance_quiet. }
  assert (Hdefer : defer_transition now failing db = (r, db') -> quiet db db').
  { intros H. unfold defer_transition in H. destruct (transaction _ db) as [o db1] eqn:E. 
    assert (Hq : quiet db db1) by (eapply transaction_quiet; [intros a db2; apply reschedule_quiet|exact E]).
    destruct o as [[attempts|]|e]; [|by injection H as <- <-..]. destruct (_ <=? _); [|by injection H as <- <-].
    eapply quiet_trans; [exact Hq|by eapply Hfail]. }
  unfold settle. destruct error; try (destruct (is_transient _); eauto). intros [= <- <-]. apply quiet_refl.
Qed.

(** *** Transitions *)

Lemma moved_rows snapshot row row' (db db' : Db) : the_guarded snapshot db row -> instances db' = moved snapshot row' (instances db) ->
  rows_to (fun r r' => r' = r \/ (r = row /\ r' = row')) db db'.
Proof using Type.
  intros Hg Hi. unfold rows_to. rewrite Hi. unfold moved. assert (Hall : Forall (fun r => guarded snapshot r = true -> r = row) (instances db)).
  { apply List.Forall_forall. intros r Hin Hr. assert (H : In r (List.filter (guarded snapshot) (instances db))) by (by apply filter_In).
    rewrite Hg in H. by destruct H as [->|[]]. }
  clear Hg Hi. induction Hall as [|r rows Hr Hall IH]; cbn; constructor; [|exact IH]. destruct (guarded snapshot r); [right; by rewrite Hr|by left].
Qed.

Lemma row_after_key snapshot output c row row' : row_after snapshot output c row row' -> same_key row row'.
Proof using Type.
  destruct c; cbn; intros H; try done;
    repeat match goal with H : exists _, _ |- _ => destruct H as [? H] | H : _ /\ _ |- _ => destruct H as [_ H] end; by rewrite H.
Qed.

(** Whatever the outcome, the row stays in its state with its journal, unless
    the instance advances or ends with an output. *)
Lemma row_after_state snapshot output c row row' : i_current_state row = current_state snapshot -> row_after snapshot output c row row' ->
  match advances_to c with
  | Some to => i_current_state row' = to /\ journal_after snapshot output row (i_state row')
  | None => i_current_state row' = i_current_state row
      /\ (i_state row' = i_state row \/ (is_some output = true /\ journal_after snapshot output row (i_state row')))
  end.
Proof using Type.
  intros Hc. destruct c; cbn; try done; try (intros ->; rewrite Hc; auto); try (intros [f ->]; rewrite Hc; auto).
  - by intros (journal & Hj & ->).
  - intros (o & journal & -> & Hj & ->). rewrite Hc. auto.
Qed.

(** The definitions are compiled ones. *)
Definition deployed_compiled : Prop := forall name rev d, revision deployed_catalog name rev = Some d ->
  all_compiled_from (definition d) (definition_states d) /\ valid_graph (definition d).

(** The instance goes along an edge of its process. *)
Definition advanced (row row' : InstanceRow) : Prop :=
  exists d i j, revision deployed_catalog (i_process row) (i_revision row) = Some d
    /\ state_at (definition d) i (i_current_state row) /\ state_at (definition d) j (i_current_state row') /\ ProcessGraphSpec.step (definition d) i j.

(** *** Routes of fan-outs *)

Lemma collect_row_next preserve c item c' : collect_row preserve c item = Ok c' ->
  collected_next c' = collected_next c \/ exists failure, f_failure item = Some failure /\ get_str failure "route" = Some (collected_next c').
Proof using Type.
  unfold collect_row. destruct (f_status item); try done; intros H.
  - unfold collect_success in H. do 2 (apply bind_Ok in H as (? & _ & H)). injection H as <-. by left.
  - unfold collect_failure in H. apply bind_Ok in H as (failure & Hf%ok_or_Ok & H). apply bind_Ok in H as (output & _ & H). cbv zeta in H.
    destruct (match selected_route_is_ambiguous c with Some _ => _ | None => true end); [|injection H as <-; by left].
    destruct (get_str failure "route") as [route|] eqn:Er; injection H as <-; [|by left]. right. by exists failure.
Qed.

Lemma collect_rows_next state rows c : collect_rows state rows = Ok c ->
  collected_next c = fan_next state
  \/ exists item failure, In item rows /\ f_failure item = Some failure /\ get_str failure "route" = Some (collected_next c).
Proof using Type.
  unfold collect_rows. match goal with |- fold_result _ ?c0 _ = _ -> _ => set (init := c0) end. change (fan_next state) with (collected_next init).
  generalize init. clear init. induction rows as [|item rows IH]; intros c0 H; cbn [fold_result] in H; [injection H as ->; by left|].
  destruct (collect_row _ c0 item) as [c1|] eqn:E; [|done]. destruct (IH _ H) as [Hn|(it & failure & Hin & Hf & Hr)].
  - destruct (collect_row_next _ _ _ _ E) as [H1|(failure & Hf & Hr)]; [left; congruence|]. right. exists item, failure. rewrite Hn. by split; [left|].
  - right. exists it, failure. by split; [right|].
Qed.

Lemma failure_json_route f : get_str (failure_json f) "route" = Some (failure_route f).
Proof using Type. reflexivity. Qed.

(** *** The step of a transition *)

Section Happens.
Variable now : Z.
Variable gen_random_uuid : Db -> Uuid.
Variable (snapshot : TransitionSnapshot) (prepared : PreparedTransition) (c : TransitionConsumption) (db db' : Db).
Variable (d : CompiledProcessDefinition) (k : CompiledProcessState) (output failure : option Value).
Hypothesis fit : fits snapshot d (compiled_state_operation k) prepared.
Hypothesis led : leads now gen_random_uuid prepared output db db' c.
Hypothesis failed : fails prepared failure.

(** An instance advances along a move of its operation, and what is recorded is
    an output of its state. *)
Lemma recorded_output : validated snapshot d output.
Proof using fit led.
  clear failed. destruct fit as [<- Hfit]. revert Hfit led. destruct prepared; cbn [leads prepared_snapshot];
    try (intros _ [_ ->]; by intros o); try (by intros [-> _] [_ H]); try (by intros [-> _] [[_ H] _]); try (by intros [-> _] (_ & H & _)); try (by intros [_ H] [_ ->]); try (by intros H [_ ->]).
Qed.

(** The items of the fan-out that fail lead along its moves. *)
Lemma failed_routed : forall f route, failure = Some f -> get_str f "route" = Some route -> In (route, true) (operation_moves (compiled_state_operation k)).
Proof using fit failed.
  clear led. destruct fit as [<- Hfit]. revert Hfit failed. destruct prepared; cbn [fails]; try (by intros _ -> ? ?).
  - intros [-> ->] [->|(f0 & -> & Hr)] f route; [done|]. intros [= <-]. rewrite failure_json_route. intros [= <-]. by apply fanout_route_moves.
  - intros [-> ->] [->|(f0 & -> & Hr)] f route; [done|]. intros [= <-]. rewrite failure_json_route. intros [= <-]. by apply fanout_route_moves.
Qed.

Hypothesis routed : forall item, In item (items db') -> of_state snapshot item = true ->
  forall f route, f_failure item = Some f -> get_str f "route" = Some route -> In (route, true) (operation_moves (compiled_state_operation k)).

Lemma advances_along to : advances_to c = Some to -> In (to, is_some output) (operation_moves (compiled_state_operation k)).
Proof using fit led routed.
  clear failed. intros Hto. destruct fit as [<- Hfit]. revert Hfit led.
  destruct prepared; cbn [leads prepared_snapshot] in *; rewrite ?Hto;
    try (by intros _ [[=] _]); try (by intros [H _] [[= ->] ->]); try (by intros H [[= ->] ->]).
  - intros [-> H] [Hr _]. by destruct (Hr to Hto) as [-> ->].
  - intros [-> Hop] [[Hr _] _]. destruct (Hr to Hto) as [-> ->]. rewrite Hop. apply fanout_route_moves. by left.
  - intros [-> Hop] [Hr _]. destruct (Hr to Hto) as (collected & Hc & -> & ->). apply collect_rows_next in Hc as [->|(it & f & Hin & Hf & Hroute)].
    + rewrite Hop. apply fanout_route_moves. by left.
    + apply order_by_In, filter_In in Hin as [Hin Ho]. by eapply routed.
  - intros [-> Hop] [Hr _]. destruct (Hr to Hto) as (collected & Hc & -> & ->). apply collect_rows_next in Hc as [->|(it & f & Hin & Hf & Hroute)].
    + rewrite Hop. apply fanout_route_moves. by left.
    + apply order_by_In, filter_In in Hin as [Hin Ho]. by eapply routed.
Qed.
End Happens.

Lemma keyed_row rows a b : keyed_table instance_conflicts rows -> In a rows -> In b rows -> i_source a = i_source b -> i_id a = i_id b -> a = b.
Proof using Type. intros Hk Ha Hb Hs Hi. eapply keyed_unique; [exact Hk|done..|]. unfold instance_conflicts. by rewrite Hs, Hi, !String.eqb_refl. Qed.

(** Every instance stays in its state or goes along an edge of its process. *)
Definition forward (db db' : Db) : Prop := forall row, In row (instances db) -> i_source row = runtime_source ->
  exists row', In row' (instances db') /\ same_key row row' /\ (i_current_state row' = i_current_state row \/ advanced row row').

Lemma quiet_forward db db' : quiet db db' -> forward db db'.
Proof using Type.
  intros [Hq _] row Hin _. destruct (rows_forward _ _ _ _ Hq Hin) as (row' & Hin' & Hs). exists row'. split; [done|].
  split; [by apply same_instance_key|]. left. by destruct Hs as (_ & _ & _ & _ & _ & Hc & _).
Qed.

(** A transition takes a sound world to a sound one. *)
Lemma happens_sound now gen_random_uuid w prepared c db' : deployed_compiled -> sound w -> In prepared (in_flight w) ->
  happens now gen_random_uuid prepared c (tables w) db' ->
  sound {| tables := db'; in_flight := in_flight w |} /\ forward (tables w) db'.
Proof using Type.
  intros Hd Hsound Hin (output & failure & [(row & row' & closing & fresh & entry & Hg & [Hrows _ _ _] & Hafter & _ & _) Hitems] & Hled & Hfails).
  pose proof Hsound as [Hk Hr Hi Hf]. destruct (Hf prepared Hin) as [(d & k & Hdep & Hst & Hfit) (row0 & Hin0 & Hs0 & Hi0 & Hp0 & Hr0)].
  set (snapshot := prepared_snapshot prepared) in *. destruct (guarded_spec _ _ (the_guarded_spec _ _ _ Hg)) as (Hs & Hid & Hcur & _ & _).
  assert (Hrow : In row (instances (tables w))) by (assert (H : In row (List.filter (guarded snapshot) (instances (tables w)))) by (rewrite Hg; by left); exact (proj1 (proj1 (filter_In _ _ _) H))).
  assert (row0 = row) as -> by (apply (keyed_row _ _ _ Hk Hin0 Hrow); congruence).
  rewrite <- Hp0, <- Hr0 in Hdep. rewrite <- Hcur in Hst. destruct (Hd _ _ _ Hdep) as [Hfrom Hgraph].
  pose proof (moved_rows _ _ _ _ _ Hg Hrows) as Hmoved. pose proof (row_after_key _ _ _ _ _ Hafter) as Hkey.
  assert (Hp : persists (tables w) db').
  { intros r Hin1. destruct (rows_forward _ _ _ _ Hmoved Hin1) as (r' & Hin2 & [->|[-> ->]]); eexists; (split; [exact Hin2|done]). }
  assert (Hrouted : forall item, In item (items db') -> item_routed db' item).
  { intros item Hit. destruct (Hitems item Hit) as [(old & Hold & E1 & E2 & E3 & E4)|(E1 & E2 & E3 & E4)].
    - intros f route. rewrite E1, E2, E3, E4. by apply (routed_persists _ _ old Hp (Hi old Hold)).
    - intros f route _ Hfail Hroute. destruct E4 as [E4|E4]; [congruence|]. destruct (Hp row Hrow) as (r' & Hin2 & H1 & H2 & H3 & H4 & _).
      exists r', d, k. rewrite H1, H2, H3, H4, E2, E3. fold snapshot. rewrite <- Hcur. repeat split; try done.
      eapply failed_routed; [exact Hfit|exact Hfails|by rewrite <- E4|exact Hroute]. }
  assert (Hkd' : keyed_table instance_conflicts (instances db')).
  { eapply rows_keyed; [|exact Hmoved|exact Hk]. intros a b [->|[-> ->]]; done. }
  assert (Hown : forall item, In item (items db') -> of_state snapshot item = true ->
    forall f route, f_failure item = Some f -> get_str f "route" = Some route -> In (route, true) (operation_moves (compiled_state_operation k))).
  { intros item Hit Ho f route Hfail Hroute. unfold of_state in Ho. rewrite !andb_true_iff, !String.eqb_eq in Ho. destruct Ho as [[O1 O2] O3].
    destruct (Hrouted item Hit f route O1 Hfail Hroute) as (r & d1 & k1 & Hr1 & S1 & S2 & D1 & K1 & Hmove).
    destruct (Hp row Hrow) as (r' & Hin2 & H1 & H2 & H3 & H4 & _). assert (r = r') as -> by (apply (keyed_row _ _ _ Hkd' Hr1 Hin2); congruence).
    rewrite H3, H4, Hdep in D1. injection D1 as <-. rewrite O3, <- Hcur, Hst in K1. by injection K1 as <-. }
  pose proof (recorded_output _ _ _ _ _ _ _ _ _ _ Hfit Hled) as Hvalid. pose proof (row_after_state _ _ _ _ _ Hcur Hafter) as Hstate.
  pose proof (Hr row Hrow Hs) as (d0 & Hd0 & Hrun). rewrite Hdep in Hd0. injection Hd0 as <-. pose proof Hkey as (Q1 & Q2 & Q3 & Q4 & _).
  assert (Hmove : on_run d (i_current_state row') (i_state row') /\ (i_current_state row' = i_current_state row \/ advanced row row')).
  { destruct (advances_to c) as [to|] eqn:Hto.
    - destruct Hstate as [<- Hj]. pose proof (advances_along _ _ _ _ _ _ _ _ _ _ Hfit Hled Hown _ Hto) as Hin1.
      pose proof (on_run_record _ _ _ _ _ (eq_sym Hcur) Hrun Hvalid Hj) as Hrun1.
      destruct (on_run_step _ _ _ _ _ _ Hfrom Hgraph Hrun1 Hst Hin1) as [Hrun2 (i & j & Ha & Hb & Hstep)].
      { destruct output as [o|]; [|done]. intros _. exists o. rewrite (journal_field _ _ _ _ _ _ Hj). by rewrite Hcur, String.eqb_refl. }
      split; [exact Hrun2|]. right. exists d, i, j. by split.
    - destruct Hstate as [-> [->|[_ Hj]]]; (split; [|by left]); [exact Hrun|]. by eapply on_run_record. }
  destruct Hmove as [Hrun' Hmove]. split; [split; cbn|].
  - exact Hkd'.
  - intros r' Hin' Hs'. destruct (rows_back _ _ _ _ Hmoved Hin') as (r & Hin1 & [->|[-> ->]]); [by apply Hr|]. exists d. by rewrite Q3, Q4.
  - exact Hrouted.
  - intros p Hp'. by eapply flight_persists, Hf.
  - intros r Hin1 _. destruct (rows_forward _ _ _ _ Hmoved Hin1) as (r' & Hin2 & [->|[-> ->]]); eexists; (split; [exact Hin2|]); [|done].
    split; [done|by left].
Qed.

(** *** Turns *)

Lemma firstn_incl {A} n (l : list A) x : In x (firstn n l) -> In x l.
Proof using Type. intros H. rewrite <- (firstn_skipn n l). apply in_or_app. by left. Qed.

Lemma prepared_flight now weather kind busy claim_in_flight db prepared :
  prepare_one_transition now weather kind busy claim_in_flight db = Prepared prepared -> flight_ok db prepared.
Proof using Type.
  unfold prepare_one_transition, due_events.
  assert (Hdue : forall ei, In ei (firstn PREPARATION_BATCH_SIZE (order_by before (List.filter (due now kind busy) (list_prod (events db) (instances db))))) ->
    In ei.2 (instances db) /\ i_source ei.2 = runtime_source).
  { intros [e r] Hin. apply firstn_incl in Hin. apply order_by_In, filter_In in Hin as [Hin Hdue]. apply in_prod_iff in Hin as [_ Hin]. split; [done|].
    unfold due, event_of_instance in Hdue. rewrite !andb_true_iff, !String.eqb_eq in Hdue. cbn. intuition congruence. }
  induction (firstn _ _) as [|[event instance] rows IH]; cbn [prepare_first]; [done|].
  assert (IH' := IH (fun ei Hin => Hdue ei (or_intror Hin))). destruct (negb _); [exact IH'|].
  destruct (preparing weather _); [done|]. destruct (prepare_one_snapshot db _) as [[p|]|] eqn:E; [|exact IH'|done]. intros [= ->].
  destruct (Hdue _ (or_introl eq_refl)) as [Hin Hs]. cbn in Hin, Hs. destruct (snapshot_fits _ _ _ E) as (d & k & Hd & Hk & Hfit).
  pose proof (proj1 Hfit) as Hsnap. split; rewrite Hsnap; [by exists d, k|]. by exists instance.
Qed.

Lemma consume_cases now gen_random_uuid run_command weather prepared (db db' : Db) r : keyed_table instance_conflicts (instances db) ->
  consume_prepared now gen_random_uuid run_command weather prepared db = (r, db') ->
  quiet db db' \/ exists c, happens now gen_random_uuid prepared c db db'.
Proof using Type.
  intros Hk H. unfold consume_prepared in H. cbv zeta in H. destruct (lock_prepared_snapshot _ _ _ _) as [[[] db1]|e] eqn:El;
    [|injection H as <- <-; left; apply quiet_refl..].
  destruct (lock_spec _ _ _ _ _ Hk El) as (_ & Hp & row & Hg).
  destruct (pending_signal_precedes_timer _ _) as [[]|]; [injection H as <- <-; left; apply quiet_refl| |injection H as <- <-; left; apply quiet_refl].
  destruct (applying weather) as [error|]; [left; by eapply settle_quiet|].
  destruct (apply_prepared _ _ _ prepared db) as [[c db2]|error] eqn:Ea; [|left; by eapply settle_quiet].
  injection H as <- <-. right. exists c. by eapply apply_transition.
Qed.

Lemma happens_rows now gen_random_uuid prepared c (db db' : Db) : happens now gen_random_uuid prepared c db db' -> rows_to same_key db db'.
Proof using Type.
  intros (output & failure & [(row & row' & closing & fresh & entry & Hg & [Hrows _ _ _] & Hafter & _ & _) _] & _).
  eapply Forall2_impl; [exact (moved_rows _ _ _ _ _ Hg Hrows)|]. intros a b [->|[-> ->]]; [done|]. by eapply row_after_key.
Qed.

(** A turn of the server keeps every row of an instance, with what identifies it. *)
Lemma turn_rows w w' : sound w -> turn w w' -> rows_to same_key (tables w) (tables w') \/ elsewhere (tables w) (tables w').
Proof using Type.
  intros Hw Hturn. assert (Hquiet : forall db', quiet (tables w) db' -> rows_to same_key (tables w) db')
    by (intros db' [Hq _]; eapply Forall2_impl; [exact Hq|]; apply same_instance_key).
  inversion Hturn as [? ? ? ? ? ? prepared Hp|? ? ? ? ? ? ? ? ? db' Hp Hs|? ? ? ? ? ? ? db' Hin Hc|? db' He]; subst; cbn; [left..|by right].
  - apply Hquiet, quiet_refl.
  - by eapply Hquiet, settle_quiet.
  - destruct (consume_cases _ _ _ _ _ _ _ _ (sound_keyed _ Hw) Hc) as [Hq|[c Hh]]; [by apply Hquiet|by eapply happens_rows].
Qed.

Lemma turn_sound w w' : deployed_compiled -> sound w -> turn w w' -> sound w' /\ forward (tables w) (tables w').
Proof using Type.
  intros Hd Hw Hturn. inversion Hturn as [? ? ? ? ? ? prepared Hp|? ? ? ? ? ? ? ? ? db' Hp Hs|? ? ? ? ? ? ? db' Hin Hc|? db' He]; subst; cbn.
  - split; [|apply quiet_forward, quiet_refl]. destruct Hw as [Hk Hr Hi Hf]. split; cbn; try done. intros p [<-|Hin]; [by eapply prepared_flight|by apply Hf].
  - pose proof (settle_quiet _ _ _ _ _ _ _ Hs) as Hq. split; [by apply quiet_sound|by apply quiet_forward].
  - destruct (consume_cases _ _ _ _ _ _ _ _ (sound_keyed _ Hw) Hc) as [Hq|[c Hh]]; [split; [by apply quiet_sound|by apply quiet_forward]|].
    by eapply happens_sound.
  - split; [apply elsewhere_sound; [|done..]; intros name rev d Hrev; by apply (Hd name rev)|].
    intros row Hin _. destruct (elsewhere_kept _ _ He row Hin) as (row' & Hin' & Hs). exists row'. split; [done|].
    split; [by apply same_instance_key|]. left. by destruct Hs as (_ & _ & _ & _ & _ & Hc & _).
Qed.

Lemma turns_sound w w' : deployed_compiled -> sound w -> rtc turn w w' -> sound w'.
Proof using Type. intros Hd Hw H. induction H as [|x y z Hxy _ IH]; [done|]. apply IH. by eapply turn_sound. Qed.

(** A server whose tables have no process yet. *)
Definition fresh (w : world) : Prop := instances (tables w) = [] /\ items (tables w) = [] /\ in_flight w = [].

Lemma fresh_sound w : fresh w -> sound w.
Proof using Type. intros (Hi & Ht & Hf). split; [rewrite Hi; by intros i|rewrite Hi; by intros i|rewrite Ht; by intros i|rewrite Hf; by intros i]. Qed.

(** *** The states of an instance *)

(** The states an instance is in, turn after turn. *)
Inductive visits (instance : Uuid) : world -> list string -> world -> Prop :=
| visits_here w row : In row (instances (tables w)) -> i_source row = runtime_source -> i_id row = instance -> visits instance w [i_current_state row] w
| visits_turn w1 w2 w3 l row : In row (instances (tables w1)) -> i_source row = runtime_source -> i_id row = instance ->
    turn w1 w2 -> visits instance w2 l w3 -> visits instance w1 (i_current_state row :: l) w3.

(** The same, each stay once. *)
Fixpoint stays (l : list string) : list string :=
  match l with
  | x :: l' => match l' with y :: _ => if String.eqb x y then stays l' else x :: stays l' | [] => [x] end
  | [] => []
  end.

Definition leads_on (d : CompiledProcessDefinition) (x y : string) : Prop :=
  exists i j, state_at (definition d) i x /\ state_at (definition d) j y /\ tc (ProcessGraphSpec.step (definition d)) i j.

Lemma leads_on_trans d x y z : valid_graph (definition d) -> leads_on d x y -> leads_on d y z -> leads_on d x z.
Proof using Type.
  intros Hg (i & j & Hi & Hj & Hij) (j' & k & Hj' & Hk & Hjk). rewrite <- (state_at_unique _ _ _ _ (valid_distinct _ Hg) Hj Hj') in Hjk.
  exists i, k. split; [done|]. split; [done|]. by eapply tc_transitive.
Qed.

Lemma leads_on_irrefl d x : valid_graph (definition d) -> ~ leads_on d x x.
Proof using Type.
  intros Hg (i & j & Hi & Hj & Hij). rewrite (state_at_unique _ _ _ _ (valid_distinct _ Hg) Hj Hi) in Hij. by apply (valid_acyclic _ Hg i).
Qed.

(** The states of an instance from some world on, in the order of its process. *)
Lemma visits_spec instance w l w' row d : deployed_compiled -> sound w -> visits instance w l w' ->
  In row (instances (tables w)) -> i_source row = runtime_source -> i_id row = instance ->
  revision deployed_catalog (i_process row) (i_revision row) = Some d ->
  StronglySorted (leads_on d) (stays l) /\ Forall (fun x => exists i, state_at (definition d) i x) l
  /\ exists l', l = i_current_state row :: l'.
Proof using Type.
  intros Hd Hw H. revert row. assert (Hat : forall w row, sound w -> In row (instances (tables w)) -> i_source row = runtime_source ->
    revision deployed_catalog (i_process row) (i_revision row) = Some d -> exists i, state_at (definition d) i (i_current_state row)).
  { intros w0 row Hw0 Hin Hs Hr. destruct (sound_rows _ Hw0 row Hin Hs) as (d0 & Hd0 & [(i & trace & Hi & _) _]). exists i.
    rewrite Hr in Hd0. by injection Hd0 as <-. }
  induction H as [w row0 Hin0 Hs0 Hid0|w1 w2 w3 l row0 Hin0 Hs0 Hid0 Hturn Hvis IH]; intros row Hin Hs Hid Hr;
    (assert (row0 = row) as -> by (apply (keyed_row _ _ _ (sound_keyed _ Hw) Hin0 Hin); congruence)); destruct (Hat _ _ Hw Hin Hs Hr) as [i Hi].
  - split; [by repeat constructor|]. split; [|by eexists]. constructor; [by exists i|constructor].
  - destruct (turn_sound _ _ Hd Hw Hturn) as [Hw2 Hfwd]. destruct (Hfwd row Hin Hs) as (row' & Hin' & (Q1 & Q2 & Q3 & Q4 & _) & Hmove).
    destruct (IH Hw2 row' Hin' ltac:(congruence) ltac:(congruence) ltac:(by rewrite Q3, Q4)) as (Hsort & Hall & l' & ->).
    split; [|split; [constructor; [by exists i|done]|by eexists]]. change (stays (i_current_state row :: i_current_state row' :: l'))
      with (if String.eqb (i_current_state row) (i_current_state row') then stays (i_current_state row' :: l')
            else i_current_state row :: stays (i_current_state row' :: l')).
    destruct (String.eqb_spec (i_current_state row) (i_current_state row')) as [|Hne]; [done|].
    destruct Hmove as [Heq|(d0 & a & b & Hd0 & Ha & Hb & Hstep)]; [congruence|]. rewrite Hr in Hd0. injection Hd0 as <-.
    assert (Hlead : leads_on d (i_current_state row) (i_current_state row')) by (exists a, b; split; [done|]; split; [done|]; by apply tc_once).
    constructor; [done|]. destruct (Hd _ _ _ Hr) as [_ Hg]. destruct (stays (i_current_state row' :: l')) as [|y ys] eqn:Ey; [constructor|].
    assert (y = i_current_state row') as ->.
    { clear -Ey. revert Ey. generalize (i_current_state row'). induction l' as [|z l' IH]; intros x; cbn [stays]; [by intros [= <-]|].
      destruct (String.eqb_spec x z) as [->|]; [apply IH|by intros [= <- _]]. }
    constructor; [done|]. inversion Hsort as [|? ? _ Hf]; subst. eapply Forall_impl; [exact Hf|]. intros z Hz. by eapply leads_on_trans.
Qed.

Lemma sorted_NoDup d l : valid_graph (definition d) -> StronglySorted (leads_on d) l -> NoDup l.
Proof using Type.
  intros Hg H. induction H as [|x l _ IH Hf]; constructor; [|done]. intros Hin. rewrite List.Forall_forall in Hf.
  apply (leads_on_irrefl d x Hg), Hf. by apply list_elem_of_In.
Qed.

Lemma stays_incl l : incl (stays l) l.
Proof using Type.
  induction l as [|x l IH]; [apply incl_refl|]. cbn [stays]. destruct l as [|y l]; [apply incl_refl|]. destruct (String.eqb x y).
  - intros z Hz. right. by apply IH.
  - intros z [->|Hz]; [by left|]. right. by apply IH.
Qed.
End Worlds.

(** ** The theorems *)

Section Theorems.
Context {serde : Serde} {digest : Digest} {uuids : Uuids} {runtime : ProcessRuntime} {postgres : Postgres} {Application : Type}.
Context {material : ProcessMaterial} {dependencies : ProcessDependencyCatalog}.

(** Every definition that is deployed was compiled. *)
Hypothesis compiled : forall name rev d, revision deployed_catalog name rev = Some d ->
  exists metadata index, compile_process metadata index (definition d) = Ok d.

Lemma compiled_deployed : deployed_compiled.
Proof using compiled. intros name rev d Hr. destruct (compiled _ _ _ Hr) as (metadata & index & Hc). by apply compiled_states_from in Hc as (? & _ & ?). Qed.

(** C6: on a server that starts with empty tables, every row of an instance
    is at all times on a run of its process: the transitions of the graph lead
    from the start to its state, every output the states on the way produced is
    in its journal, and the journal holds only values that were checked against
    the contracts of their states. *)
Theorem instances_stay_on_runs (w w' : world (Application := Application)) row : fresh w -> rtc turn w w' ->
  In row (instances (tables w')) -> i_source row = runtime_source ->
  exists d, revision deployed_catalog (i_process row) (i_revision row) = Some d /\ on_run d (i_current_state row) (i_state row).
Proof using compiled. intros Hw H. exact (sound_rows _ (turns_sound _ _ compiled_deployed (fresh_sound _ Hw) H) row). Qed.

(** C5: an instance never returns to a state it left, so it advances fewer
    times than its process has states, whatever the order of events, failures,
    retries and transactions. *)
Theorem instance_visits_each_state_once (w w1 w2 : world (Application := Application)) instance l row d : fresh w -> rtc turn w w1 -> visits instance w1 l w2 ->
  In row (instances (tables w1)) -> i_source row = runtime_source -> i_id row = instance ->
  revision deployed_catalog (i_process row) (i_revision row) = Some d ->
  NoDup (stays l) /\ (List.length (stays l) <= List.length (states (definition d)))%nat.
Proof using compiled.
  intros Hw H Hv Hin Hs Hid Hr. pose proof (turns_sound _ _ compiled_deployed (fresh_sound _ Hw) H) as Hw1.
  destruct (visits_spec _ _ _ _ _ _ compiled_deployed Hw1 Hv Hin Hs Hid Hr) as (Hsort & Hall & _). destruct (compiled_deployed _ _ _ Hr) as [_ Hg].
  pose proof (sorted_NoDup _ _ Hg Hsort) as Hnd. split; [done|]. rewrite <- (length_map id (states (definition d))). apply NoDup_incl_length; [by apply NoDup_ListNoDup|].
  intros x Hx%stays_incl. rewrite List.Forall_forall in Hall. destruct (Hall x Hx) as (i & st & Hst & <-). apply in_map, list_elem_of_In. by eapply list_elem_of_lookup_2.
Qed.
End Theorems.
