(* ===== verification/ProcessLive.v ===== *)
(** * Bindings of running instances

    The runs of [ProcessRuns] put under the theorem of [ProcessArguments]: on a
    server that started with empty tables, the bindings of the state an instance
    is in evaluate, at any time. *)
From stdpp Require Import gmap relations.
From S2P Require Import Prelude Json KeyedMap AbiIds RulesSyntax ValueContract ContractValidity ProcessSyntax ProcessGraph ProcessGraphSpec ProcessTypes ProcessTypesSpec ProcessActivity ProcessInfer ProcessInferSpec ProcessEvaluate ProcessShapes ProcessEvaluateSpec ProcessProgress ProcessDependencies ProcessFingerprint ProcessDefinition ProcessStates ProcessPinned ProcessStatesSpec ProcessCompile ProcessSession ProcessCompileSpec ProcessCompiled ProcessArguments ProcessTyped ProcessTypedSpec ProcessTables ProcessTransition ProcessPrepare ProcessCommit ProcessConsume ProcessJournal ProcessEffect ProcessSample ProcessMoves ProcessRuns.
Set Warnings "-register-all".


Section Live.
Context {serde : Serde} {digest : Digest} {uuids : Uuids} {runtime : ProcessRuntime} {postgres : Postgres} {Application : Type}.
Context {material : ProcessMaterial} {dependencies : ProcessDependencyCatalog} {lawful : LawfulDependencies dependencies}.

Section Row.
Variables (metadata : Metadata) (process_index : nat) (d : CompiledProcessDefinition).
Hypothesis compiles : compile_process metadata process_index (definition d) = Ok d.
Hypothesis maps : process_wf (definition d).


End Row.

(** Every definition that is deployed was compiled. *)
Hypothesis compiled : forall name rev d, revision deployed_catalog name rev = Some d ->
  exists metadata index, compile_process metadata index (definition d) = Ok d.

End Live.

(** ** Witnesses

    A server starts, an instance of the sample process is started, its command
    is prepared and consumed. *)

Definition sample_world (db : Database (list string)) (flight : list PreparedTransition) : world := {| tables := db; in_flight := flight |}.

Definition empty_database : Database (list string) := {|
  instances := []; events := []; jobs := []; items := []; logs := []; provider_steps := []; reservations := []; buckets := [];
  start_requests := []; signal_requests := []; application := [] |}.

Lemma sample_compiled name rev d : revision deployed_catalog name rev = Some d -> exists metadata index, compile_process metadata index (definition d) = Ok d.
Proof.
  intros H. exists sample_metadata, O. unfold revision in H. cbn [deployed_catalog sample_runtime active live_retired] in H.
  cbn [bt_get] in H. destruct (String.eqb name "welcome"); [|done]. destruct (String.eqb _ rev); [|done]. injection H as <-. exact sample_compiles.
Qed.

Lemma sample_fresh : fresh (sample_world empty_database []).
Proof. repeat split. Qed.

Lemma sample_turn_start : turn (sample_world empty_database []) (sample_world sample_database []).
Proof.
  apply (turn_elsewhere (sample_world empty_database []) sample_database). split; cbn; [apply keyed_short; cbn; lia..|done| |apply incl_refl].
  intros row [<-|[]]. right. split; [|done]. intros _. exists sample_definition. by vm_compute.
Qed.

Lemma sample_turn_prepare : turn (sample_world sample_database []) (sample_world sample_database [sample_prepared]).
Proof.
  apply (turn_prepare 10 fair_weather None [] (fun _ => true) (sample_world sample_database []) sample_prepared). vm_compute. reflexivity.
Qed.

Lemma sample_turn_consume : turn (sample_world sample_database [sample_prepared]) (sample_world sample_applied.2 [sample_prepared]).
Proof.
  apply (turn_consume (runtime := sample_runtime) 10 sample_uuid sample_greets fair_weather (sample_world sample_database [sample_prepared]) sample_prepared (Ok sample_applied.1) sample_applied.2);
    [by left|]. vm_compute. reflexivity.
Qed.

Lemma sample_turns : rtc turn (sample_world empty_database []) (sample_world sample_applied.2 [sample_prepared]).
Proof.
  eapply rtc_l; [exact sample_turn_start|]. eapply rtc_l; [exact sample_turn_prepare|]. eapply rtc_l; [exact sample_turn_consume|]. apply rtc_refl.
Qed.

(** The row after the command. *)
Definition sample_row_done : InstanceRow := Eval vm_compute in hd sample_row (instances sample_applied.2).

Lemma instances_stay_on_runs_witness :
  i_current_state sample_row_done = "done"
  /\ exists d, revision deployed_catalog (i_process sample_row_done) (i_revision sample_row_done) = Some d
       /\ on_run d (i_current_state sample_row_done) (i_state sample_row_done).
Proof.
  split; [reflexivity|].
  apply (instances_stay_on_runs sample_compiled _ _ sample_row_done sample_fresh sample_turns); [vm_compute; by left|reflexivity].
Defined.

Lemma instance_visits_each_state_once_witness :
  stays ["greet"; "greet"; "done"] = ["greet"; "done"]
  /\ NoDup (stays ["greet"; "greet"; "done"]) /\ (List.length (stays ["greet"; "greet"; "done"]) <= 2)%nat.
Proof.
  split; [reflexivity|].
  refine (instance_visits_each_state_once sample_compiled (sample_world empty_database []) (sample_world sample_database [])
    (sample_world sample_applied.2 [sample_prepared]) "i" ["greet"; "greet"; "done"] sample_row sample_definition sample_fresh _ _ _ _ _ _).
  - by apply rtc_once, sample_turn_start.
  - apply (visits_turn "i" _ (sample_world sample_database [sample_prepared]) _ ["greet"; "done"] sample_row); [vm_compute; by left|reflexivity|reflexivity|exact sample_turn_prepare|].
    apply (visits_turn "i" _ (sample_world sample_applied.2 [sample_prepared]) _ ["done"] sample_row); [vm_compute; by left|reflexivity|reflexivity|exact sample_turn_consume|].
    apply (visits_here "i" _ sample_row_done); [vm_compute; by left|reflexivity|reflexivity].
  - by left.
  - reflexivity.
  - reflexivity.
  - vm_compute. reflexivity.
Defined.



