(* ===== verification/ProcessStartSpec.v ===== *)
(** * What starting a process does

    The outcome of every start request, that starting is one of the
    transactions [elsewhere] of [ProcessRuns], and that an idempotency key
    starts one instance for good. *)
From stdpp Require Import gmap relations.
From S2P Require Import Prelude Json KeyedMap AbiIds RulesSyntax ValueContract ProcessSyntax ProcessGraph ProcessGraphSpec ProcessInfer ProcessEvaluate ProcessEvaluateSpec ProcessDependencies ProcessFingerprint ProcessDefinition ProcessStates ProcessCompile ProcessCompiled ProcessTyped ProcessTypedSpec ProcessTables ProcessTransition ProcessPrepare ProcessCommit ProcessStart ProcessConsume ProcessJournal ProcessEffect ProcessMoves ProcessSample ProcessRuns ProcessLive.
Set Warnings "-register-all".

Lemma existsb_none {A} (f : A -> bool) l : existsb f l = false -> forall x, In x l -> f x = false.
Proof.
  intros H x Hx. destruct (f x) eqn:E; [|done]. exfalso. apply Bool.diff_true_false. rewrite <- H. symmetry. apply existsb_exists. eauto.
Qed.

Section Spec.
Context {serde : Serde} {digest : Digest} {uuids : Uuids} {runtime : ProcessRuntime} {postgres : Postgres} {Application : Type}.
Abbreviation Db := (Database Application).

(** ** Requests *)

(** The oldest request that is pending and that no other transaction holds. *)
Definition oldest_start (locked : Uuid -> bool) (db : Db) (request : StartRequestRow) : Prop :=
  In request (start_requests db) /\ pending_start locked request = true
  /\ forall other, In other (start_requests db) -> pending_start locked other = true -> older request other = true.

Lemma claim_start_Some locked (db : Db) request : claim_start locked db = Some request -> oldest_start locked db request.
Proof using Type.
  intros [Hin Hmin]%order_by_head.
  - apply filter_In in Hin as [Hin Hp]. split; [done|]. split; [done|]. intros other Ho Hpo. apply Hmin, filter_In. by split.
  - intros a b. apply queue_before_total.
  - intros a b c. apply queue_before_trans.
Qed.

Lemma claim_start_None locked (db : Db) : claim_start locked db = None -> forall request, In request (start_requests db) -> pending_start locked request = false.
Proof using Type.
  unfold claim_start. intros H request Hin. destruct (pending_start locked request) eqn:Hp; [|done].
  assert (Hf : In request (List.filter (pending_start locked) (start_requests db))) by (by apply filter_In).
  apply (order_by_iff older) in Hf. by destruct (order_by _ _).
Qed.

(** The request is the one that was settled, and no other was. *)
Definition start_settled (request : Uuid) (status : StartStatus) (instance : Uuid) (db db' : Db) : Prop :=
  start_requests db' = map (fun row => if String.eqb (t_source row) runtime_source && String.eqb (t_id row) request
                                          && bool_decide (t_status row = TPending)
                                       then settle_request row status instance else row) (start_requests db).

Lemma mark_request_Ok request instance status (db db' : Db) u : mark_request request instance status db = Ok (u, db') ->
  exists t, db' = with_start_requests db t /\ start_settled request status instance db (with_start_requests db t).
Proof using Type.
  unfold mark_request. intros H. run H. match goal with H : update_start_requests _ _ _ = _ |- _ => injection H as <- <- end. by eexists.
Qed.

(** What was checked of a request that is started. *)
Lemma start_definition_Ok request d : start_definition request = Ok d ->
  revision deployed_catalog (t_process request) (t_revision request) = Some d
  /\ definition_name d = t_process request /\ revision_fingerprint_ d = t_revision request
  /\ validate_json (definition_input d) (t_input request) = Ok (Ok tt).
Proof using Type.
  unfold start_definition. intros (d' & Hd%ok_or_Ok & H)%bind_Ok.
  destruct (String.eqb_spec (definition_source d') runtime_source); [|done]. destruct (String.eqb_spec (definition_name d') (t_process request)); [|done].
  destruct (String.eqb_spec (revision_fingerprint_ d') (t_revision request)); [|done]. cbn [negb orb] in H.
  apply bind_Ok in H as (typed & Ht%map_err_Ok & H). apply bind_Ok in H as (u & Hv%map_err_Ok & [= <-]). repeat split; try done.
  unfold validate_json. rewrite Ht. cbn. by destruct u; rewrite Hv.
Qed.

(** ** Outcomes *)

Variable now : Z.
Variable gen_random_uuid : Db -> Uuid.

(** A new instance of the revision, at its start, with its start event. *)
Record starts (request : StartRequestRow) (d : CompiledProcessDefinition) (instance : Uuid) (db db' : Db) : Prop := {
  starts_first : forall other, In other (instances db) ->
    (i_source other, i_process other, i_start_key other) <> (runtime_source, t_process request, t_idempotency_key request);
  starts_instances : exists row, instances db' = instances db ++ [row] /\ row = instance_row gen_random_uuid request (start_at (definition d)) db
    /\ i_id row = instance /\ forall other, In other (instances db) -> instance_conflicts row other = false;
  starts_events : exists event, events db' = events db ++ [event]
    /\ event = start_event now gen_random_uuid request instance (with_instances db (instances db'));
  starts_rest : jobs db' = jobs db /\ items db' = items db /\ signal_requests db' = signal_requests db /\ application db' = application db
    /\ provider_steps db' = provider_steps db /\ reservations db' = reservations db /\ buckets db' = buckets db;
  starts_settled : start_settled (t_id request) TConsumed instance db db';
}.

(** The instance the key started before, which stays as it is. *)
Record repeats (request : StartRequestRow) (instance : Uuid) (db db' : Db) : Prop := {
  repeats_row : exists row, In row (instances db) /\ i_id row = instance
    /\ (i_source row, i_process row, i_start_key row) = (runtime_source, t_process request, t_idempotency_key request);
  repeats_rest : instances db' = instances db /\ events db' = events db /\ jobs db' = jobs db /\ items db' = items db
    /\ signal_requests db' = signal_requests db /\ application db' = application db
    /\ provider_steps db' = provider_steps db /\ reservations db' = reservations db /\ buckets db' = buckets db;
  repeats_settled : start_settled (t_id request) TDuplicate instance db db';
}.

Lemma insert_instance_Ok row (db db' : Db) id : insert_instance row db = Ok (id, db') ->
  match id with
  | Some id => id = i_id row /\ db' = with_instances db (instances db ++ [row])
      /\ (forall other, In other (instances db) -> same_start row other = false /\ instance_unique row other = false)
  | None => db' = db /\ existsb (same_start row) (instances db) = true
  end.
Proof using Type.
  unfold insert_instance. destruct (negb _); [done|]. destruct (existsb (same_start row) _) eqn:Es; [by intros [= <- <-]|].
  intros (t & Ht & [= <- <-])%bind_Ok. unfold insert_row in Ht. destruct (existsb (instance_unique row) _) eqn:Eu; [done|]. injection Ht as <-.
  repeat split; eapply existsb_none; eassumption.
Qed.

Lemma append_start_log_Ok request instance from_state to_state outcome_ revision_ (db db' : Db) u :
  append_start_log request instance from_state to_state outcome_ revision_ db = Ok (u, db') -> exists t, db' = with_logs db t.
Proof using Type. intros [_ ->]%insert_log_Ok. by eexists. Qed.

(** Whatever a consumption of a start request comes to. *)
Lemma consume_start_cases locked c (db db' : Db) : consume_one_start now gen_random_uuid locked db = Ok (c, db') ->
  match c with
  | StartNoWork => db' = db /\ claim_start locked db = None
  | Started id instance => exists request d, claim_start locked db = Some request /\ id = t_id request /\ start_definition request = Ok d
      /\ starts request d instance db db'
  | StartDuplicate id instance => exists request d, claim_start locked db = Some request /\ id = t_id request /\ start_definition request = Ok d
      /\ repeats request instance db db'
  end.
Proof using Type.
  unfold consume_one_start. intros H. run H. destruct (claim_start locked db) as [request|] eqn:Ec; [|by injection H as <- <-].
  run H. rename a into d. apply map_err_Ok in E. apply insert_instance_Ok in Hrun. destruct a0 as [id|].
  - destruct Hrun as (-> & -> & Hnew). run H. unfold append_started_history in Hrun. run Hrun.
    apply insert_event_Ok in Hrun1 as (_ & _ & ->). apply append_start_log_Ok in Hrun as [logs' ->]. apply mark_request_Ok in Hrun0 as (t & -> & Ht).
    exists request, d. repeat split; try done.
    + intros other Hin [= Hs Hp Hk]. destruct (Hnew other Hin) as [Hno _]. unfold same_start in Hno. cbn in Hno. by rewrite Hs, Hp, Hk, !String.eqb_refl in Hno.
    + eexists. repeat split. intros other Hin. destruct (Hnew other Hin) as [_ Hno]. unfold instance_unique in Hno. unfold instance_conflicts.
      destruct (String.eqb _ _); [|done]. by destruct (String.eqb (i_id _) _).
    + by eexists.
  - destruct Hrun as [-> Hold]. run H. apply map_err_Ok, ok_or_Ok, find_some in E0 as [Hin Hk].
    apply append_start_log_Ok in Hrun as [logs' ->]. apply mark_request_Ok in Hrun0 as (t & -> & Ht).
    exists request, d. repeat split; try done. eexists. split; [exact Hin|]. split; [done|]. unfold same_start in Hk. cbn in Hk.
    rewrite !andb_true_iff, !String.eqb_eq in Hk. by destruct Hk as [[<- <-] <-].
Qed.
(** The start event of an instance is due from then on. *)
Definition start_due (instance : Uuid) (db : Db) : Prop :=
  exists event row, In event (events db) /\ In row (instances db) /\ i_id row = instance /\ e_kind event = "start"
    /\ forall later, now <= later -> due later None [] (event, row) = true.

Lemma starts_due request d instance db db' : starts request d instance db db' -> start_due instance db'.
Proof using Type.
  intros [_ (row & Hi & -> & Hid & _) (event & He & ->) _ _]. eexists _, _. rewrite Hi, He. split; [apply in_app_iff; right; by left|].
  split; [apply in_app_iff; right; by left|]. split; [done|]. split; [done|]. intros later Hl. unfold due, event_of_instance, is_due. cbn.
  cbn in Hid. rewrite Hid, !String.eqb_refl. cbn. by rewrite (proj2 (Z.leb_le _ _) Hl).
Qed.

Lemma same_start_spec a b : same_start a b = true <-> (i_source a, i_process a, i_start_key a) = (i_source b, i_process b, i_start_key b).
Proof using Type.
  unfold same_start. rewrite !andb_true_iff, !String.eqb_eq. split; [by intros [[-> ->] ->]|by intros [= -> -> ->]].
Qed.

Lemma started_row request d instance db db' : start_definition request = Ok d -> starts request d instance db db' ->
  exists row, instances db' = instances db ++ [row] /\ i_id row = instance /\ started row
    /\ forall other, In other (instances db) -> instance_conflicts row other = false /\ same_start row other = false.
Proof using Type.
  intros (Hrev & _)%start_definition_Ok [Hfirst (row & Hi & -> & Hid & Hno) _ _ _]. eexists. split; [exact Hi|]. split; [done|].
  split; [by exists d|]. intros other Hin. split; [by apply Hno|]. destruct (same_start _ other) eqn:E; [|done]. apply same_start_spec in E. cbn in E.
  by destruct (Hfirst other Hin).
Qed.

Lemma instance_conflicts_sym a b : instance_conflicts a b = instance_conflicts b a.
Proof using Type. unfold instance_conflicts. by rewrite (String.eqb_sym (i_source a)), (String.eqb_sym (i_id a)). Qed.

Lemma same_start_sym a b : same_start a b = same_start b a.
Proof using Type. unfold same_start. by rewrite (String.eqb_sym (i_source a)), (String.eqb_sym (i_process a)), (String.eqb_sym (i_start_key a)). Qed.

Lemma existsb_all_false {A} (f : A -> bool) l : (forall x, In x l -> f x = false) -> existsb f l = false.
Proof using Type. intros H. destruct (existsb f l) eqn:E; [|done]. apply existsb_exists in E as (x & Hx & Hf). by rewrite H in Hf. Qed.

(** A consumption of a start request is one of the other transactions of
    [ProcessRuns]: it adds a row at the start of its revision, or none. *)
Lemma start_elsewhere locked c (db db' : Db) : keyed_table instance_conflicts (instances db) -> keyed_table same_start (instances db) ->
  consume_one_start now gen_random_uuid locked db = Ok (c, db') -> elsewhere db db'.
Proof using Type.
  intros Hk Hs H%consume_start_cases.
  assert (Hsame : instances db' = instances db -> items db' = items db -> elsewhere db db').
  { intros Hi Ht. split; rewrite ?Hi, ?Ht; try done; [by intros row Hin; exists row| |apply incl_refl]. intros row Hin. left. by exists row. }
  destruct c as [|id instance|id instance].
  - destruct H as [-> _]. by apply Hsame.
  - destruct H as (request & d & _ & _ & Hd & Hst). destruct (started_row _ _ _ _ _ Hd Hst) as (row & Hi & _ & Hrow & Hno).
    destruct (starts_rest _ _ _ _ _ Hst) as (_ & Ht & _). split; rewrite ?Hi, ?Ht; [| | | |apply incl_refl].
    + apply keyed_add; [apply instance_conflicts_sym|apply existsb_all_false; intros; by apply Hno|done].
    + apply keyed_add; [apply same_start_sym|apply existsb_all_false; intros; by apply Hno|done].
    + intros r Hin. exists r. split; [apply in_app_iff; by left|done].
    + intros r [Hin|[<-|[]]]%in_app_iff; [left; by exists r|right]. split; [done|]. intros; rewrite instance_conflicts_sym; by apply Hno.
  - destruct H as (request & d & _ & _ & _ & [_ (Hi & _ & _ & Ht & _) _]). by apply Hsame.
Qed.
End Spec.

(** ** Start keys *)

Section Keys.
Context {serde : Serde} {digest : Digest} {uuids : Uuids} {runtime : ProcessRuntime} {postgres : Postgres} {Application : Type}.
Context {material : ProcessMaterial} {dependencies : ProcessDependencyCatalog}.
Abbreviation Db := (Database Application).

(** Every definition that is deployed was compiled. *)
Hypothesis compiled : forall name rev d, revision deployed_catalog name rev = Some d ->
  exists metadata index, compile_process metadata index (definition d) = Ok d.

Lemma same_key_start a a' b b' : same_key a a' -> same_key b b' -> same_start a' b' = same_start a b.
Proof using Type. intros (S1 & _ & P1 & _ & K1) (S2 & _ & P2 & _ & K2). unfold same_start. by rewrite S1, S2, P1, P2, K1, K2. Qed.

Lemma rows_starts (db db' : Db) : rows_to same_key db db' -> keyed_table same_start (instances db) -> keyed_table same_start (instances db').
Proof using Type.
  intros H Hk i j a' b' Ha Hb Hij. unfold rows_to in H. destruct (Forall2_lookup_r _ _ _ _ _ H Ha) as (a & Ha0 & Hsa).
  destruct (Forall2_lookup_r _ _ _ _ _ H Hb) as (b & Hb0 & Hsb). rewrite (same_key_start _ _ _ _ Hsa Hsb). exact (Hk i j a b Ha0 Hb0 Hij).
Qed.

(** A server that keeps its rows apart. *)
Definition apart (w : world (Application := Application)) : Prop := sound w /\ keyed_table same_start (instances (tables w)).

Lemma turn_apart w w' : apart w -> turn w w' -> apart w' /\ persists (tables w) (tables w').
Proof using compiled.
  intros [Hw Hk] Ht. split; [split|].
  - exact (proj1 (turn_sound _ _ (compiled_deployed compiled) Hw Ht)).
  - destruct (turn_rows _ _ Hw Ht) as [H|H]; [by eapply rows_starts|apply H].
  - intros row Hin. destruct (turn_rows _ _ Hw Ht) as [H|H]; [by eapply rows_forward|].
    destruct (elsewhere_kept _ _ H row Hin) as (row' & Hin' & Hs). exists row'. split; [done|by apply same_instance_key].
Qed.

Lemma turns_apart w w' : apart w -> rtc turn w w' -> apart w' /\ persists (tables w) (tables w').
Proof using compiled.
  intros Hw H. induction H as [w|x y z Hxy _ IH]; [split; [done|]; intros row Hin; by exists row|].
  destruct (turn_apart _ _ Hw Hxy) as [Hy Hp]. destruct (IH Hy) as [Hz Hp']. split; [done|]. intros row Hin.
  destruct (Hp row Hin) as (row1 & Hin1 & S1 & I1 & P1 & R1 & K1). destruct (Hp' row1 Hin1) as (row2 & Hin2 & S2 & I2 & P2 & R2 & K2).
  exists row2. split; [done|]. repeat split; congruence.
Qed.

Lemma fresh_apart w : fresh w -> apart w.
Proof using Type. intros Hw. split; [by apply fresh_sound|]. destruct Hw as [-> _]. by intros i. Qed.

(** The instance an outcome names, with the row of its key. *)
Definition outcome_instance (c : StartConsumption) : option Uuid :=
  match c with StartNoWork => None | Started _ instance | StartDuplicate _ instance => Some instance end.

Lemma outcome_row now gen_random_uuid locked c (db db' : Db) request : consume_one_start now gen_random_uuid locked db = Ok (c, db') ->
  claim_start locked db = Some request -> exists row, In row (instances db') /\ outcome_instance c = Some (i_id row)
    /\ (i_source row, i_process row, i_start_key row) = (runtime_source, t_process request, t_idempotency_key request).
Proof using Type.
  intros H%consume_start_cases Hc. destruct c as [|id instance|id instance]; [by rewrite Hc in H; destruct H| |];
    destruct H as (request' & d & Hc' & _ & _ & H); rewrite Hc in Hc'; injection Hc' as <-.
  - destruct H as [_ (row & Hi & -> & <- & _) _ _ _]. eexists. split; [rewrite Hi; apply in_app_iff; right; by left|done].
  - destruct H as [(row & Hin & <- & Hk) (Hi & _) _]. exists row. by rewrite Hi.
Qed.

(** C18: an idempotency key starts one instance: once a request of a process
    and a key was consumed, every later request of that process and key names
    the same instance, whatever the server did in between. *)
Theorem start_key_starts_one_instance (w w1 w2 : world (Application := Application)) now1 uuid1 locked1 now2 uuid2 locked2 c1 c2 db1 db2 request1 request2 :
  fresh w -> rtc turn w w1 -> consume_one_start now1 uuid1 locked1 (tables w1) = Ok (c1, db1) ->
  rtc turn {| tables := db1; in_flight := in_flight w1 |} w2 -> consume_one_start now2 uuid2 locked2 (tables w2) = Ok (c2, db2) ->
  claim_start locked1 (tables w1) = Some request1 -> claim_start locked2 (tables w2) = Some request2 ->
  t_process request2 = t_process request1 -> t_idempotency_key request2 = t_idempotency_key request1 ->
  exists instance, outcome_instance c1 = Some instance /\ c2 = StartDuplicate (t_id request2) instance.
Proof using compiled.
  intros Hw H1 Hc1 H2 Hc2 Hq1 Hq2 Hp Hk. destruct (turns_apart _ _ (fresh_apart _ Hw) H1) as [[Hs1 Hk1] _].
  pose proof (start_elsewhere _ _ _ _ _ _ (sound_keyed _ Hs1) Hk1 Hc1) as He. destruct (turn_apart _ _ (conj Hs1 Hk1) (turn_elsewhere w1 db1 He)) as [Ha _].
  destruct (turns_apart _ _ Ha H2) as [[Hs2 Hk2] Hpers]. destruct (outcome_row _ _ _ _ _ _ _ Hc1 Hq1) as (row & Hin & Ho & Hrow).
  destruct (Hpers row Hin) as (row2 & Hin2 & S2 & I2 & P2 & _ & K2). injection Hrow as Rs Rp Rk. exists (i_id row). split; [done|].
  apply consume_start_cases in Hc2. destruct c2 as [|id instance|id instance]; [by rewrite Hq2 in Hc2; destruct Hc2| |];
    destruct Hc2 as (request & d & Hq & -> & _ & Hc2); rewrite Hq2 in Hq; injection Hq as <-.
  - destruct (starts_first _ _ _ _ _ _ _ Hc2 row2 Hin2). congruence.
  - destruct Hc2 as [(row3 & Hin3 & <- & Hrow3) _ _]. assert (row3 = row2) as ->; [|by rewrite I2].
    apply (keyed_unique _ _ _ Hk2 Hin3 Hin2), same_start_spec. congruence.
Qed.
End Keys.

Section Outcome.
Context {serde : Serde} {digest : Digest} {uuids : Uuids} {runtime : ProcessRuntime} {postgres : Postgres} {Application : Type}.

(** C19: consuming a start request settles the oldest one that is pending:
    its input is of the contract of the revision it names, and it either starts
    the first instance of its key, at the start of the process with an empty
    journal and a start event that is due from then on, or names the instance
    the key started before; nothing else changes but the history. *)
Theorem consume_one_start_settles_the_oldest now gen_random_uuid locked c (db db' : Database Application) :
  consume_one_start now gen_random_uuid locked db = Ok (c, db') ->
  match c with
  | StartNoWork => db' = db /\ forall request, In request (start_requests db) -> pending_start locked request = false
  | Started id instance => exists request d, oldest_start locked db request /\ id = t_id request
      /\ revision deployed_catalog (t_process request) (t_revision request) = Some d
      /\ validate_json (definition_input d) (t_input request) = Ok (Ok tt)
      /\ starts now gen_random_uuid request d instance db db' /\ start_due now instance db'
  | StartDuplicate id instance => exists request d, oldest_start locked db request /\ id = t_id request
      /\ revision deployed_catalog (t_process request) (t_revision request) = Some d
      /\ validate_json (definition_input d) (t_input request) = Ok (Ok tt)
      /\ repeats request instance db db'
  end.
Proof using Type.
  intros H%consume_start_cases. destruct c as [|id instance|id instance].
  - destruct H as [-> Hc]. split; [done|]. by apply claim_start_None.
  - destruct H as (request & d & Hc%claim_start_Some & -> & (Hr & _ & _ & Hv)%start_definition_Ok & Hs). exists request, d.
    repeat (split; [done|]). by eapply starts_due.
  - destruct H as (request & d & Hc%claim_start_Some & -> & (Hr & _ & _ & Hv)%start_definition_Ok & Hs). exists request, d. by repeat (split; [done|]).
Qed.
End Outcome.

(** ** Witnesses *)

Definition sample_request (id : Uuid) (created_at : Z) : StartRequestRow := {|
  t_source := "default"; t_id := id; t_process := "welcome"; t_revision := revision_fingerprint_ sample_definition;
  t_input := JObject [("who", JString "Ada")]; t_command_invocation := "c"; t_effect_position := 0; t_idempotency_key := "k";
  t_status := TPending; t_instance := None; t_created_at := created_at; t_caller_role := Some "user";
  t_caller_session := Some (JObject [("x-hasura-tenant", JString "t")]) |}.

(** Two requests of one key. *)
Definition requested_database : Database (list string) :=
  with_start_requests empty_database [sample_request "q2" 2; sample_request "q1" 1].

Definition nobody (id : Uuid) : bool := false.

Definition sample_start_at (now : Z) (db : Database (list string)) : StartConsumption * Database (list string) :=
  match consume_one_start now sample_uuid nobody db with Ok r => r | Err _ => (StartNoWork, db) end.

Definition once_started : StartConsumption * Database (list string) := Eval vm_compute in sample_start_at 3 requested_database.
Definition twice_started : StartConsumption * Database (list string) := Eval vm_compute in sample_start_at 4 once_started.2.

Lemma consume_one_start_settles_the_oldest_witness :
  once_started.1 = Started "q1" "e0"
  /\ exists request d, oldest_start nobody requested_database request /\ "q1" = t_id request
      /\ revision deployed_catalog (t_process request) (t_revision request) = Some d
      /\ validate_json (definition_input d) (t_input request) = Ok (Ok tt)
      /\ starts 3 sample_uuid request d "e0" requested_database once_started.2 /\ start_due 3 "e0" once_started.2.
Proof.
  split; [reflexivity|].
  refine (consume_one_start_settles_the_oldest 3 sample_uuid nobody (Started "q1" "e0") requested_database once_started.2 _). vm_compute. reflexivity.
Defined.

Lemma start_key_starts_one_instance_witness :
  once_started.1 = Started "q1" "e0"
  /\ exists instance, outcome_instance once_started.1 = Some instance /\ twice_started.1 = StartDuplicate "q2" instance.
Proof.
  split; [reflexivity|].
  refine (start_key_starts_one_instance sample_compiled (sample_world requested_database []) (sample_world requested_database [])
    (sample_world once_started.2 []) 3 sample_uuid nobody 4 sample_uuid nobody once_started.1 twice_started.1 once_started.2 twice_started.2
    (sample_request "q1" 1) (sample_request "q2" 2) _ _ _ _ _ _ _ _ _).
  - repeat split.
  - apply rtc_refl.
  - vm_compute. reflexivity.
  - apply rtc_refl.
  - vm_compute. reflexivity.
  - vm_compute. reflexivity.
  - vm_compute. reflexivity.
  - reflexivity.
  - reflexivity.
Defined.
