(* ===== verification/ProcessSignalSpec.v ===== *)
(** * What signalling a process does

    Who receives a signal is stated without the order in which the code looks:
    an instance that waited for it when it was sent, or, when there is none, one
    that has come to wait since and takes signals sent before.  The outcome of
    every signal request follows from how many there are.  An accepted signal
    holds off the timeout of its wait until it is rescheduled past it; an example
    at the end runs into that. *)
From S2P Require Import Prelude Json KeyedMap AbiIds RulesSyntax ValueContract ProcessSyntax ProcessInfer ProcessEvaluate ProcessEvaluateSpec ProcessDependencies ProcessFingerprint ProcessDefinition ProcessStates ProcessCompile ProcessCompiled ProcessTyped ProcessTables ProcessTransition ProcessPrepare ProcessCommit ProcessStart ProcessSignal ProcessConsume ProcessJournal ProcessEffect ProcessSample ProcessStartSpec.
Set Warnings "-register-all".

Section Spec.
Context {serde : Serde} {digest : Digest} {uuids : Uuids} {runtime : ProcessRuntime} {postgres : Postgres} {Application : Type}.
Abbreviation Db := (Database Application).
Variable now : Z.
Variable gen_random_uuid : Db -> Uuid.

(** ** Requests *)

Definition oldest_signal (locked : Uuid -> bool) (db : Db) (request : SignalRequestRow) : Prop :=
  In request (signal_requests db) /\ pending_signal locked request = true
  /\ forall other, In other (signal_requests db) -> pending_signal locked other = true -> older_signal request other = true.

Lemma claim_signal_Some locked (db : Db) request : claim_signal locked db = Some request -> oldest_signal locked db request.
Proof using Type.
  intros [Hin Hmin]%order_by_head.
  - apply filter_In in Hin as [Hin Hp]. split; [done|]. split; [done|]. intros other Ho Hpo. apply Hmin, filter_In. by split.
  - intros a b. apply queue_before_total.
  - intros a b c. apply queue_before_trans.
Qed.

Lemma claim_signal_None locked (db : Db) : claim_signal locked db = None -> forall request, In request (signal_requests db) -> pending_signal locked request = false.
Proof using Type.
  unfold claim_signal. intros H request Hin. destruct (pending_signal locked request) eqn:Hp; [|done].
  assert (Hf : In request (List.filter (pending_signal locked) (signal_requests db))) by (by apply filter_In).
  apply (order_by_iff older_signal) in Hf. by destruct (order_by _ _).
Qed.

Definition signal_settled (request : Uuid) (status : RequestStatus) (db db' : Db) : Prop :=
  signal_requests db' = map (fun row => if String.eqb (s_source row) runtime_source && String.eqb (s_id row) request
                                           && bool_decide (s_status row = SPending)
                                        then settle_signal row status else row) (signal_requests db).

Lemma mark_signal_request_Ok request status (db db' : Db) u : mark_signal_request request status db = Ok (u, db') ->
  exists t, db' = with_signal_requests db t /\ signal_settled request status db (with_signal_requests db t).
Proof using Type.
  unfold mark_signal_request. intros H. run H. match goal with H : update_signal_requests _ _ _ = _ |- _ => injection H as <- <- end. by eexists.
Qed.

(** ** Waits *)

(** The timer of the wait fires no earlier than the request was made, and is of
    its signal and its correlation. *)
Definition timer_for (request : SignalRequestRow) (marker : EventRow) : Prop :=
  instant_le (At (s_created_at request)) (e_available_at marker) = true /\ get_str (e_payload marker) "signal_name" = Some (s_signal request)
  /\ exists v, json_get (e_payload marker) "correlation" = Some v /\ value_eqb v (s_correlation request) = true.

Lemma timer_for_iff request marker : marker_matches request (Some marker) = true <-> timer_for request marker.
Proof using Type.
  unfold marker_matches, timer_for. cbn [opt_is_some_and]. rewrite !andb_true_iff.
  assert (Hs : str_is (get_str (e_payload marker) "signal_name") (s_signal request) = true <-> get_str (e_payload marker) "signal_name" = Some (s_signal request)).
  { unfold str_is. destruct (get_str _ _) as [t|]; [rewrite String.eqb_eq|]; split; congruence. }
  rewrite Hs. destruct (json_get _ _) as [v|]; cbn [opt_is_some_and].
  - split; [intros [[? ?] ?]; repeat split; eauto|]. by intros (? & ? & ? & [= <-] & ?).
  - split; [by intros [_ ?]|by intros (_ & _ & ? & ? & _)].
Qed.

(** The instance is in a state that waits for the signal, of a contract that is
    compatible, with the correlation of the request and a deadline that was not
    over when the signal was sent. *)
Record awaits (waits : btree (list string)) (request : SignalRequestRow) (db : Db) (row : InstanceRow) (wait : CompiledProcessSignalWait)
    (marker : EventRow) : Prop := {
  awaits_row : In row (instances db) /\ i_source row = runtime_source /\ i_process row = s_process request /\ i_status row = IRunning;
  awaits_compatible : exists states, bt_get waits (i_revision row) = Some states /\ In (i_current_state row) states;
  awaits_state : exists d k, revision deployed_catalog (i_process row) (i_revision row) = Some d
    /\ bt_get (definition_states d) (i_current_state row) = Some k /\ signal_wait (s_signal request) k = Some wait;
  awaits_correlation : exists v, evaluate_correlation (waited_correlate wait) (candidate_context now row) = Ok v
    /\ value_eqb v (s_correlation request) = true;
  awaits_marker : wait_marker db row = Some marker /\ timer_for request marker;
}.

Definition was_waiting (waits : btree (list string)) (request : SignalRequestRow) (db : Db) (row : InstanceRow) : Prop :=
  exists wait marker, awaits waits request db row wait marker /\ e_created_at marker <= s_created_at request.

Definition came_to_wait (waits : btree (list string)) (request : SignalRequestRow) (db : Db) (row : InstanceRow) : Prop :=
  exists wait marker, awaits waits request db row wait marker /\ s_created_at request < e_created_at marker
    /\ waited_persist_before_match wait = true.

Definition receives (waits : btree (list string)) (request : SignalRequestRow) (db : Db) (row : InstanceRow) : Prop :=
  was_waiting waits request db row \/ ((forall other, ~ was_waiting waits request db other) /\ came_to_wait waits request db row).

(** ** Candidates *)

Section Request.
Variables (waits : btree (list string)) (request : SignalRequestRow) (db : Db).

Lemma signal_candidates_In row : In row (signal_candidates waits request db) <->
  (In row (instances db) /\ i_source row = runtime_source /\ i_process row = s_process request /\ i_status row = IRunning)
  /\ In (i_revision row) (map fst waits) /\ In (i_current_state row) (concat (map snd waits)).
Proof using Type.
  unfold signal_candidates. rewrite order_by_iff, filter_In, !andb_true_iff, !String.eqb_eq, bool_decide_eq_true, !existsb_exists.
  split.
  - intros [Hin [[[[Hs Hp] Hr] (x & Hx & Hxe%String.eqb_eq)] (y & Hy & Hye%String.eqb_eq)]]. by subst x y.
  - intros [(Hin & Hs & Hp & Hr) [Hx Hy]]. split; [done|]. split; [split; [by repeat split|]|]; eexists; (split; [eassumption|apply String.eqb_refl]).
Qed.

Lemma compatible_candidate row states : In row (instances db) /\ i_source row = runtime_source /\ i_process row = s_process request /\ i_status row = IRunning ->
  bt_get waits (i_revision row) = Some states -> In (i_current_state row) states -> In row (signal_candidates waits request db).
Proof using Type.
  intros Hrow Hw%bt_get_In Hin. apply signal_candidates_In. split; [done|]. split; [by apply (in_map fst) in Hw|].
  apply in_concat. exists states. split; [by apply (in_map snd) in Hw|done].
Qed.

(** What became of a row that was looked at. *)
Lemma matching_candidate_Ok row c : matching_candidate now waits request db row = Ok c ->
  match c with
  | Some c => matching_row c = row
      /\ exists states d k wait v, bt_get waits (i_revision row) = Some states /\ In (i_current_state row) states
           /\ revision deployed_catalog (s_process request) (i_revision row) = Some d
           /\ bt_get (definition_states d) (i_current_state row) = Some k /\ signal_wait (s_signal request) k = Some wait
           /\ evaluate_correlation (waited_correlate wait) (candidate_context now row) = Ok v /\ value_eqb v (s_correlation request) = true
           /\ receptive c = marker_matches request (wait_marker db row) && entered_before_request request (wait_marker db row)
           /\ persisted c = marker_matches request (wait_marker db row) && negb (entered_before_request request (wait_marker db row))
                            && waited_persist_before_match wait
  | None => forall wait marker, ~ awaits waits request db row wait marker
  end.
Proof using Type.
  unfold matching_candidate. intros (d & Hd%ok_or_Ok & H)%bind_Ok.
  destruct (opt_is_some_and (bt_get waits (i_revision row)) (existsb (String.eqb (i_current_state row)))) eqn:Ec; cbn [negb] in H.
  2:{ injection H as <-. intros wait marker [_ (states & Hw & Hin) _ _ _]. rewrite Hw in Ec. cbn in Ec.
      enough (E : existsb (String.eqb (i_current_state row)) states = true) by congruence. apply existsb_exists. exists (i_current_state row).
      split; [done|apply String.eqb_refl]. }
  destruct (bt_get waits (i_revision row)) as [states|] eqn:Hw; [|done]. cbn in Ec. apply existsb_exists in Ec as (name & Hin & <-%String.eqb_eq).
  apply bind_Ok in H as (wait & Hwait%ok_or_Ok & H). destruct (bt_get (definition_states d) (i_current_state row)) as [k|] eqn:Hk; [|done]. cbn in Hwait.
  apply bind_Ok in H as (v & Hv & H). destruct (value_eqb v (s_correlation request)) eqn:Heq; cbn [negb] in H.
  - injection H as <-. cbn. split; [done|]. by exists states, d, k, wait, v.
  - injection H as <-. intros wait' marker [(_ & _ & Hp & _) _ (d' & k' & Hd' & Hk' & Hw') (v' & Hv' & Heq') _]. rewrite Hp, Hd in Hd'. injection Hd' as <-.
    rewrite Hk in Hk'. injection Hk' as <-. rewrite Hwait in Hw'. injection Hw' as <-. rewrite Hv in Hv'. injection Hv' as <-. congruence.
Qed.

Lemma matching_candidates_Ok rows ms : matching_candidates now waits request db rows = Ok ms ->
  (NoDup rows -> NoDup (map matching_row ms)) /\ incl (map matching_row ms) rows
  /\ (forall c, In c ms -> matching_candidate now waits request db (matching_row c) = Ok (Some c))
  /\ forall row, In row rows -> In row (map matching_row ms) \/ forall wait marker, ~ awaits waits request db row wait marker.
Proof using Type.
  revert ms. induction rows as [|row rows IH]; intros ms H; cbn in H.
  - injection H as <-. split; [by constructor|]. split; [apply incl_refl|]. by split.
  - apply bind_Ok in H as (c & Hc & H). apply bind_Ok in H as (cs & Hcs & [= <-]). destruct (IH _ Hcs) as (IHd & IHi & IHm & IHa).
    pose proof (matching_candidate_Ok _ _ Hc) as Hspec. destruct c as [c|]; cbn [option_list app map].
    + destruct Hspec as [Hrow _]. split; [|split; [|split]].
      * intros [Hn Hnd]%NoDup_cons. rewrite Hrow. constructor; [|auto]. intros Hin. apply Hn, list_elem_of_In, IHi. by apply list_elem_of_In.
      * rewrite Hrow. intros x [<-|Hx]; [by left|right; auto].
      * intros c' [<-|Hin]; [by rewrite Hrow|auto].
      * intros x [<-|Hx]; [left; by left|]. destruct (IHa x Hx); [left; by right|by right].
    + split; [|split; [|split]].
      * intros [_ Hnd]%NoDup_cons. auto.
      * intros x Hx. right. auto.
      * auto.
      * intros x [<-|Hx]; [by right|auto].
Qed.

(** ** Receivers *)

Variable ms : list MatchingCandidate.
Hypothesis matched : matching_candidates now waits request db (signal_candidates waits request db) = Ok ms.

(** The instances that wait, by what the code made of them. *)
Lemma awaits_iff row wait marker : awaits waits request db row wait marker <->
  exists c, In c ms /\ matching_row c = row /\ wait_marker db row = Some marker /\ marker_matches request (Some marker) = true
    /\ exists d k, revision deployed_catalog (s_process request) (i_revision row) = Some d
         /\ bt_get (definition_states d) (i_current_state row) = Some k /\ signal_wait (s_signal request) k = Some wait.
Proof using matched.
  destruct (matching_candidates_Ok _ _ matched) as (_ & Hincl & Hm & Hall). split.
  - intros Ha. pose proof Ha as [Hrow (states & Hw & Hs) (d & k & Hd & Hk & Hwait) _ [Hmark Hmatch]].
    destruct (Hall row (compatible_candidate row states Hrow Hw Hs)) as [Hin|Hno]; [|by destruct (Hno wait marker)].
    apply in_map_iff in Hin as (c & <- & Hin). exists c. do 3 (split; [done|]). split; [by apply timer_for_iff|]. exists d, k. by destruct Hrow as (_ & _ & <- & _).
  - intros (c & Hin & <- & Hmark & Hmatch & d & k & Hd & Hk & Hwait). pose proof (matching_candidate_Ok _ _ (Hm c Hin)) as [_ H].
    destruct H as (states & d' & k' & wait' & v & Hw & Hs & Hd' & Hk' & Hwait' & Hv & Heq & _).
    rewrite Hd in Hd'. injection Hd' as <-. rewrite Hk in Hk'. injection Hk' as <-. rewrite Hwait in Hwait'. injection Hwait' as <-.
    assert (Hc : In (matching_row c) (signal_candidates waits request db)) by (by apply Hincl, in_map). apply signal_candidates_In in Hc as [Hrow _].
    apply timer_for_iff in Hmatch. split; [done|by exists states| |by exists v|done]. exists d, k. by destruct Hrow as (_ & _ & -> & _).
Qed.

(** The two classes of candidates. *)
Lemma candidate_class c : In c ms ->
  (receptive c = true <-> was_waiting waits request db (matching_row c)) /\ (persisted c = true <-> came_to_wait waits request db (matching_row c)).
Proof using matched.
  intros Hin. destruct (matching_candidates_Ok _ _ matched) as (_ & _ & Hm & _).
  pose proof (matching_candidate_Ok _ _ (Hm c Hin)) as (_ & states & d & k & wait & v & _ & _ & Hd & Hk & Hwait & _ & _ & -> & ->).
  assert (Hmine : forall wait' marker, awaits waits request db (matching_row c) wait' marker <->
    wait' = wait /\ wait_marker db (matching_row c) = Some marker /\ marker_matches request (Some marker) = true).
  { intros wait' marker. rewrite awaits_iff. split.
    - intros (c' & _ & _ & Hmk & Hmm & d' & k' & Hd' & Hk' & Hw'). rewrite Hd in Hd'. injection Hd' as <-. rewrite Hk in Hk'. injection Hk' as <-.
      rewrite Hwait in Hw'. by injection Hw' as <-.
    - intros (-> & Hmk & Hmm). exists c. do 4 (split; [done|]). by exists d, k. }
  destruct (wait_marker db (matching_row c)) as [marker|] eqn:Hmark.
  2:{ cbn. split; (split; [done|]); intros (w & m & H & _); apply Hmine in H as (_ & H & _); congruence. }
  cbn [entered_before_request opt_is_some_and]. split; rewrite !andb_true_iff, ?negb_true_iff, ?Z.leb_le, ?Z.leb_gt; split.
  - intros [Hmm Hle]. exists wait, marker. split; [by apply Hmine|done].
  - intros (w & m & (_ & [= <-] & Hmm)%Hmine & Hle). by split.
  - intros [[Hmm Hlt] Hp]. exists wait, marker. split; [by apply Hmine|done].
  - intros (w & m & (-> & [= <-] & Hmm)%Hmine & Hlt & Hp). by split.
Qed.

Lemma waiting_candidate row : (was_waiting waits request db row \/ came_to_wait waits request db row) -> exists c, In c ms /\ matching_row c = row.
Proof using matched. intros [(w & m & H & _)|(w & m & H & _)]; apply awaits_iff in H as (c & Hin & Hc & _); by exists c. Qed.

Lemma receives_iff row : receives waits request db row <-> In row (map matching_row (receptive_candidates ms)).
Proof using matched.
  assert (Hwas : forall r, was_waiting waits request db r <-> In r (map matching_row (List.filter receptive ms))).
  { intros r. rewrite in_map_iff. split.
    - intros H. destruct (waiting_candidate r (or_introl H)) as (c & Hin & <-). exists c. split; [done|]. apply filter_In. split; [done|]. by apply candidate_class.
    - intros (c & <- & [Hin Hr]%filter_In). by apply (candidate_class c Hin). }
  assert (Hcame : forall r, came_to_wait waits request db r <-> In r (map matching_row (List.filter persisted ms))).
  { intros r. rewrite in_map_iff. split.
    - intros H. destruct (waiting_candidate r (or_intror H)) as (c & Hin & <-). exists c. split; [done|]. apply filter_In. split; [done|]. by apply candidate_class.
    - intros (c & <- & [Hin Hr]%filter_In). by apply (candidate_class c Hin). }
  unfold receives, receptive_candidates. rewrite Hwas, Hcame. setoid_rewrite Hwas. destruct (List.filter receptive ms) as [|c cs]; cbn [map].
  - split; [intros [[]|[_ H]]; done|]. intros H. right. split; [by intros other []|done].
  - split; [|by left]. intros [H|[H _]]; [done|]. destruct (H (matching_row c)). by left.
Qed.

Lemma receivers_NoDup : NoDup (instances db) -> NoDup (map matching_row (receptive_candidates ms)).
Proof using matched.
  intros Hn. assert (Hms : NoDup (map matching_row ms)).
  { destruct (matching_candidates_Ok _ _ matched) as (H & _). apply H. unfold signal_candidates. rewrite order_by_perm. apply NoDup_ListNoDup, List.NoDup_filter.
    by apply NoDup_ListNoDup. }
  assert (Hf : forall f, NoDup (map matching_row (List.filter f ms))).
  { intros f. clear -Hms. induction ms as [|c cs IH]; [done|]. cbn in *. apply NoDup_cons in Hms as [Hno Hnd]. destruct (f c); [|auto].
    cbn. constructor; [|auto]. rewrite list_elem_of_In, in_map_iff. intros (c' & Hc' & [Hin _]%filter_In). apply Hno, list_elem_of_In, in_map_iff. by exists c'. }
  unfold receptive_candidates. pose proof (Hf receptive) as H1. destruct (List.filter receptive ms); [apply Hf|done].
Qed.
End Request.

(** ** Outcomes *)

(** The request under its contract, and the states that wait for it. *)
Definition examined (locked : Uuid -> bool) (db : Db) (request : SignalRequestRow) (waits : btree (list string)) : Prop :=
  oldest_signal locked db request /\ signal_duplicate request db = false
  /\ exists signal, signal_anchor request = Ok signal
       /\ waits = compatible_wait_states (s_process request) (s_signal request) (contract_fingerprint signal).

(** The request is settled, and nothing else changes but the events. *)
Record settles (request : SignalRequestRow) (status : RequestStatus) (added : list EventRow) (db db' : Db) : Prop := {
  settles_request : signal_settled (s_id request) status db db';
  settles_events : events db' = events db ++ added;
  settles_rest : instances db' = instances db /\ jobs db' = jobs db /\ items db' = items db /\ logs db' = logs db
    /\ provider_steps db' = provider_steps db /\ reservations db' = reservations db /\ buckets db' = buckets db
    /\ start_requests db' = start_requests db /\ application db' = application db;
}.

Lemma mark_settles request status (db db' : Db) u : mark_signal_request (s_id request) status db = Ok (u, db') -> settles request status [] db db'.
Proof using Type. intros (t & -> & Ht)%mark_signal_request_Ok. split; [done|by rewrite app_nil_r|done]. Qed.

Lemma instances_NoDup (db : Db) : keyed_table instance_conflicts (instances db) -> NoDup (instances db).
Proof using Type.
  intros Hk. apply NoDup_alt. intros i j row Hi Hj. destruct (decide (i = j)) as [|Hij]; [done|]. specialize (Hk i j row row Hi Hj Hij).
  unfold instance_conflicts in Hk. by rewrite !String.eqb_refl in Hk.
Qed.

(** What became of the request, and of the instances that receive it. *)
Definition decided (waits : btree (list string)) (request : SignalRequestRow) (c : SignalConsumption) (db db' : Db) : Prop :=
  match c with
  | SignalAccepted id instance event_id => id = s_id request /\ exists row, i_id row = instance /\ receives waits request db row
      /\ (forall other, receives waits request db other -> other = row)
      /\ event_id = gen_random_uuid db /\ settles request SConsumed [signal_event now gen_random_uuid request row db] db db'
      /\ existsb (event_conflicts (signal_event now gen_random_uuid request row db)) (events db) = false
  | SignalUnmatched id => id = s_id request /\ (forall row, ~ receives waits request db row) /\ settles request SUnmatched [] db db'
  | SignalUnexpectedState id => id = s_id request /\ (forall row, ~ receives waits request db row) /\ settles request SUnexpectedState [] db db'
  | SignalAmbiguous id => id = s_id request /\ (forall row, receives waits request db row -> exists other, other <> row /\ receives waits request db other)
      /\ settles request SAmbiguous [] db db'
  | _ => False
  end.

Lemma match_signal_cases request signal locked c (db db' : Db) : oldest_signal locked db request -> signal_duplicate request db = false ->
  signal_anchor request = Ok signal -> keyed_table instance_conflicts (instances db) ->
  match_signal now gen_random_uuid request db = Ok (c, db') ->
  exists waits, examined locked db request waits /\ decided waits request c db db'.
Proof using Type.
  intros Hold Hdup Hanchor Hk H. unfold match_signal in H. rewrite Hanchor in H. run H. injection E as <-.
  set (waits := compatible_wait_states _ _ _) in *. exists waits. split; [split; [done|]; split; [done|]; by exists signal|].
  apply map_err_Ok in E0. rename a0 into ms, E0 into E. pose proof (receives_iff _ _ _ _ E) as Hr. pose proof (receivers_NoDup _ _ _ _ E (instances_NoDup _ Hk)) as Hnd.
  revert Hr Hnd H. generalize (known_targets waits request ms db). generalize (receptive_candidates ms). intros cs targets Hr Hnd H.
  assert (Hambiguous : forall row, In row (map matching_row cs) -> (2 <= List.length cs)%nat -> exists other, other <> row /\ receives waits request db other).
  { clear -Hr Hnd. intros row Hin Hlen. destruct cs as [|c1 [|c2 cs]]; cbn in *; try lia.
    apply NoDup_cons in Hnd as [Hno _]. rewrite list_elem_of_In in Hno. destruct Hin as [<-|Hin].
    - exists (matching_row c2). split; [|apply Hr; right; by left]. intros Heq. apply Hno. left. congruence.
    - exists (matching_row c1). split; [by intros <-|]. apply Hr. by left. }
  unfold deliver_signal in H. destruct cs as [|c1 [|c2 cs]].
  - assert (Hnone : forall row, ~ receives waits request db row) by (intros row Hrow; by apply Hr in Hrow).
    destruct targets as [|? [|? ?]]; run H; apply mark_settles in Hrun; repeat (split; [done|]); try done. split; [|done]. by intros row Hrow%Hnone.
  - run H. unfold append_signal_event in Hrun. run Hrun. apply mark_signal_request_Ok in Hrun0 as (t & -> & Ht).
    apply insert_event_Ok in Hrun as (Hnc & -> & ->). split; [done|]. exists (matching_row c1). split; [done|].
    split; [apply Hr; by left|]. split; [by intros other [<-|[]]%Hr|]. split; [done|]. split; [by split|done].
  - run H. apply mark_settles in Hrun. split; [done|]. split; [|done]. intros row Hrow%Hr. apply Hambiguous; [done|cbn; lia].
Qed.

Lemma signal_duplicate_Ok request (db : Db) : signal_duplicate request db = true -> exists prior, In prior (signal_requests db)
  /\ s_id prior <> s_id request /\ s_status prior <> SPending
  /\ (s_process prior, s_signal prior, s_idempotency_key prior) = (s_process request, s_signal request, s_idempotency_key request).
Proof using Type.
  intros (prior & Hin & H)%existsb_exists. exists prior. rewrite !andb_true_iff, !negb_true_iff, !String.eqb_eq, String.eqb_neq, bool_decide_eq_false in H.
  destruct H as [[[[[_ ->] ->] ->] Hid] Hst]. done.
Qed.

(** Whatever a consumption of a signal request comes to. *)
Lemma consume_signal_cases locked c (db db' : Db) : keyed_table instance_conflicts (instances db) ->
  consume_one_signal now gen_random_uuid locked db = Ok (c, db') ->
  (c = SignalNoWork /\ db' = db /\ claim_signal locked db = None)
  \/ (exists request prior, c = SignalDuplicate (s_id request) /\ oldest_signal locked db request /\ s_id request = s_id request
       /\ In prior (signal_requests db) /\ s_id prior <> s_id request /\ s_status prior <> SPending
       /\ (s_process prior, s_signal prior, s_idempotency_key prior) = (s_process request, s_signal request, s_idempotency_key request)
       /\ settles request SDuplicate [] db db')
  \/ exists request waits, examined locked db request waits /\ decided waits request c db db'.
Proof using Type.
  intros Hk H. unfold consume_one_signal in H. run H. destruct (claim_signal locked db) as [request|] eqn:Ec; [|left; by injection H as <- <-].
  right. apply claim_signal_Some in Ec. run H. destruct (signal_duplicate request db) eqn:Ed.
  - left. run H. apply mark_settles in Hrun. destruct (signal_duplicate_Ok _ _ Ed) as (prior & Hp). exists request, prior. intuition.
  - right. assert (Ha : exists signal, signal_anchor request = Ok signal).
    { destruct (signal_anchor request) as [signal|e] eqn:Ea; [by exists signal|]. unfold match_signal in H. by rewrite Ea in H. }
    destruct Ha as [signal Ha]. destruct (match_signal_cases _ _ _ _ _ _ Ec Ed Ha Hk H) as (waits & Hx & Hc). by exists request, waits.
Qed.

(** ** Timeouts *)

Lemma pair_in {A B} (l : list A) (l' : list B) a b (f : A * B -> bool) : In a l -> In b l' -> f (a, b) = true -> existsb f (list_prod l l') = true.
Proof using Type. intros Ha Hb Hf. apply existsb_exists. exists (a, b). split; [by apply in_prod|done]. Qed.

Lemma wait_marker_In (db : Db) row marker : wait_marker db row = Some marker ->
  In marker (events db) /\ e_source marker = i_source row /\ e_instance marker = i_id row /\ e_kind marker = "timer".
Proof using Type.
  unfold wait_marker. intros H. match type of H with head (order_by ?b ?l) = _ => assert (Hin : In marker l) end.
  { apply (order_by_In (fun a b => queue_before (- e_created_at a, e_id a) (- e_created_at b, e_id b))).
    destruct (order_by _ _); [done|]. injection H as ->. by left. }
  apply filter_In in Hin as [Hin Hc]. rewrite !andb_true_iff, !String.eqb_eq in Hc. by destruct Hc as [[[[[? ?] ?] _] _] _].
Qed.

(** A later row of an event: what it says stays, when and how often it is tried
    does not. *)
Definition later_row (old row : EventRow) : Prop := e_source row = e_source old /\ e_id row = e_id old /\ e_instance row = e_instance old
  /\ e_kind row = e_kind old /\ e_payload row = e_payload old.

(** A signal is accepted no later than the timer of its wait fires. *)
Lemma accepted_no_later waits request (db : Db) row wait marker : awaits waits request db row wait marker ->
  instant_le (e_available_at (signal_event now gen_random_uuid request row db)) (e_available_at marker) = true.
Proof using Type. intros [_ _ _ _ [_ Hmatch]]. by destruct Hmatch as [? _]. Qed.

(** While the event of an accepted signal is pending and available no later than
    the timer, the timeout of the wait leaves it be. *)
Lemma accepted_precedes_timer waits request (db db2 : Db) row wait marker signal timer : awaits waits request db row wait marker ->
  existsb (event_conflicts (signal_event now gen_random_uuid request row db)) (events db) = false ->
  later_row (signal_event now gen_random_uuid request row db) signal -> later_row marker timer ->
  In signal (events db2) -> In timer (events db2) -> e_status signal = EPending -> instant_le (e_available_at signal) (e_available_at timer) = true ->
  pending_signal_precedes_timer (transition_snapshot timer row) db2 = Ok true.
Proof using Type.
  intros [(Hin & Hs & Hp & Hr) _ (d & k & Hd & Hk & Hwait) _ [Hmark Hmatch]] Hno (S1 & S2 & S3 & S4 & S5) (T1 & T2 & T3 & T4 & T5) Hsig Htm Hst Hle.
  destruct (wait_marker_In _ _ _ Hmark) as (Hmin & Hms & Hmi & Hkind).
  unfold pending_signal_precedes_timer. cbn [event_kind transition_snapshot process_name snapshot_revision current_state]. rewrite T4, Hkind.
  change (negb (String.eqb "timer" "timer")) with false. cbv iota. rewrite Hd. cbn [ok_or mbind result_bind]. rewrite Hk. cbn [option_map].
  unfold signal_wait in Hwait. destruct (compiled_state_operation k) as [| | |[w|w|w]| | |]; try done. destruct (String.eqb _ _); [injection Hwait as ->|done].
  enough (H : accepted_before_timer db2 (transition_snapshot timer row) = true) by (by rewrite H).
  unfold accepted_before_timer. eapply pair_in; [exact Hsig|exact Htm|]. rewrite T1, T3, T4, S1, S2, S3, S4, S5, Hle, Hst, Hms, Hs, Hmi, Hkind. cbn.
  rewrite !String.eqb_refl. cbn.
  assert (Hid : String.eqb (gen_random_uuid db) (e_id marker) = false).
  { pose proof (existsb_none _ _ Hno marker Hmin) as Hc. unfold event_conflicts in Hc. cbn in Hc. rewrite Hms, Hs, String.eqb_refl in Hc.
    cbn in Hc. by apply orb_false_iff in Hc as [Hc _]. }
  rewrite T2, Hid. done.
Qed.

(** A transition that was prepared from the timeout finds no work then. *)
Lemma deferred_timeout later uuid run_command weather snapshot prepared (db2 : Db) : prepared_snapshot prepared = snapshot ->
  pending_signal_precedes_timer snapshot db2 = Ok true -> consume_prepared later uuid run_command weather prepared db2 = (Ok NoWork, db2).
Proof using Type.
  intros <- H. unfold consume_prepared, lock_prepared_snapshot, query. rewrite H. by destruct (match List.find _ _ with Some _ => _ | None => _ end).
Qed.
End Spec.

(** ** The theorems *)

Section Theorems.
Context {serde : Serde} {digest : Digest} {uuids : Uuids} {runtime : ProcessRuntime} {postgres : Postgres} {Application : Type}.
Abbreviation Db := (Database Application).

(** C16: a signal reaches the instance it was meant for, once: the oldest
    pending request is settled as a duplicate of one with the same key, or it
    becomes an event of the instance that receives it, which is then the only
    one; it is unmatched or unexpected only when no instance receives it, and
    ambiguous when none or more than one does.  Instances, jobs and items stay
    as they are. *)
Theorem signal_reaches_its_only_receiver now gen_random_uuid locked c (db db' : Db) : keyed_table instance_conflicts (instances db) ->
  consume_one_signal now gen_random_uuid locked db = Ok (c, db') ->
  match c with
  | SignalNoWork => db' = db /\ forall request, In request (signal_requests db) -> pending_signal locked request = false
  | SignalDuplicate id => exists request prior, oldest_signal locked db request /\ id = s_id request
      /\ In prior (signal_requests db) /\ s_id prior <> id /\ s_status prior <> SPending
      /\ (s_process prior, s_signal prior, s_idempotency_key prior) = (s_process request, s_signal request, s_idempotency_key request)
      /\ settles request SDuplicate [] db db'
  | SignalAccepted id instance event_id => exists request waits row, examined locked db request waits /\ id = s_id request /\ instance = i_id row
      /\ receives now waits request db row /\ (forall other, receives now waits request db other -> other = row)
      /\ event_id = gen_random_uuid db /\ settles request SConsumed [signal_event now gen_random_uuid request row db] db db'
  | SignalUnmatched id => exists request waits, examined locked db request waits /\ id = s_id request
      /\ (forall row, ~ receives now waits request db row) /\ settles request SUnmatched [] db db'
  | SignalUnexpectedState id => exists request waits, examined locked db request waits /\ id = s_id request
      /\ (forall row, ~ receives now waits request db row) /\ settles request SUnexpectedState [] db db'
  | SignalAmbiguous id => exists request waits, examined locked db request waits /\ id = s_id request
      /\ (forall row, receives now waits request db row -> exists other, other <> row /\ receives now waits request db other)
      /\ settles request SAmbiguous [] db db'
  | SignalGuardFalse _ => False
  end.
Proof using Type.
  intros Hk H. destruct (consume_signal_cases _ _ _ _ _ _ Hk H) as [(-> & -> & Hno)|[(request & prior & -> & Hdup)|(request & waits & Hx & Hc)]].
  - split; [done|]. by apply claim_signal_None.
  - by exists request, prior.
  - destruct c; try done; [|exists request, waits; by destruct Hc as (? & ? & ?)..]. destruct Hc as (-> & row & <- & H1 & H2 & H3 & H4 & _).
    by exists request, waits, row.
Qed.

(** C17: a signal that was accepted is not lost to the timeout of the wait it
    is for.  It is accepted no later than the timer fires; and while its event
    is pending and available no later than the timer, a transition that was
    prepared from that timer finds no work and changes nothing, however late it
    comes and however the rows were rescheduled.  A signal whose own transition
    is deferred past the instant of the timer is not covered: it is overtaken
    (the example [deferred_signal_is_overtaken]). *)
Theorem accepted_signal_outlasts_the_timeout now gen_random_uuid locked id instance event_id (db db' : Db) :
  keyed_table instance_conflicts (instances db) -> consume_one_signal now gen_random_uuid locked db = Ok (SignalAccepted id instance event_id, db') ->
  exists signal row marker, In signal (events db') /\ e_id signal = event_id /\ e_instance signal = instance /\ e_status signal = EPending
    /\ In row (instances db') /\ i_id row = instance /\ wait_marker db row = Some marker
    /\ instant_le (e_available_at signal) (e_available_at marker) = true
    /\ forall (db2 : Db) later uuid run_command weather prepared signal' timer, later_row signal signal' -> later_row marker timer ->
         In signal' (events db2) -> In timer (events db2) -> e_status signal' = EPending ->
         instant_le (e_available_at signal') (e_available_at timer) = true -> prepared_snapshot prepared = transition_snapshot timer row ->
         consume_prepared later uuid run_command weather prepared db2 = (Ok NoWork, db2).
Proof using Type.
  intros Hk H. destruct (consume_signal_cases _ _ _ _ _ _ Hk H) as [(? & _)|[(request & prior & ? & _)|(request & waits & _ & Hc)]]; try done.
  destruct Hc as (-> & row & <- & Hrow & _ & -> & [_ He (Hi & _)] & Hno).
  assert (Ha : exists wait marker, awaits now waits request db row wait marker) by (destruct Hrow as [(w & m & Ha & _)|[_ (w & m & Ha & _)]]; by exists w, m).
  destruct Ha as (wait & marker & Ha). exists (signal_event now gen_random_uuid request row db), row, marker. rewrite He, Hi.
  split; [apply in_app_iff; right; by left|]. do 3 (split; [done|]). split; [apply Ha|]. split; [done|]. split; [apply Ha|]. split; [by eapply accepted_no_later|].
  intros db2 later uuid run_command weather prepared signal timer Hls Hlt Hs Ht Hst Hle Hp. eapply deferred_timeout; [exact Hp|]. by eapply accepted_precedes_timer.
Qed.
End Theorems.

(** ** Witnesses

    A process that waits for an approval of the one who is named in its input. *)

Definition approval_process : Process := {|
  name := "approval"; version := 1; source := "default"; lifecycle := Active;
  permissions := [{| role := "user"; owner_session_variable := None |}]; owner := None; start := None;
  input := [{| field_name := "who"; field_type := "String!" |}]; output := [{| field_name := "note"; field_type := "String!" |}];
  idempotency := None;
  signals := [{| signal_name := "approve"; signal_role := Some "user"; signal_correlation := [("who", "String!")]; signal_payload := [("note", "String!")] |}];
  start_at := "await";
  states := [{| id := "await"; operation := OpWait (WaitSignal {|
                  wait_signal := "approve"; wait_role := "user"; verification := "required"; persist_before_match := false;
                  signal_correlate := [("who", PInput "who" None false)]; signal_deadline := DeadlineDuration "1h";
                  signal_next := "done"; signal_on_timeout := "late" |}) |};
             {| id := "done"; operation := OpOutput [("note", PState "await" "note" None None false)] |};
             {| id := "late"; operation := OpFail "late" "no approval" |}] |}.

Definition approval_definition : CompiledProcessDefinition :=
  Eval vm_compute in
  match compile_process sample_metadata 0 approval_process as r return match r with Ok _ => CompiledProcessDefinition | Err _ => unit end with
  | Ok d => d
  | Err _ => tt
  end.

#[local] Instance approval_runtime : ProcessRuntime := {|
  runtime_source := "default";
  deployed_catalog := {| active := [("approval", approval_definition)]; live_retired := [] |};
  runtime_rules := sample_rules;
  operation_spec_handle _ _ _ := None;
  configuration_fingerprint _ _ := None;
  registry_serialization_key_input _ _ := None;
  trigger_spec_handle _ _ _ := None;
  trigger_configuration_fingerprint _ _ := None;
  finalized_command _ _ := None;
  pre_process_command _ _ := None;
  CommandMutation := Value;
  planner_error := None;
  plan_process_command _ arguments _ _ := Ok (JObject arguments);
  uuid_parse_str s := Some s;
  parse_from_rfc3339 _ := Err "not a timestamp";
  parse_naive_date_time _ := Err "not a timestamp";
|}.

Definition approval_row : InstanceRow := {|
  i_source := "default"; i_id := "i"; i_process := "approval"; i_revision := revision_fingerprint_ approval_definition;
  i_source_request := "q"; i_start_key := "k"; i_status := IRunning; i_current_state := "await"; i_input := JObject [("who", JString "Ada")];
  i_state := JObject []; i_version := 0; i_caller_role := Some "user"; i_caller_session := Some (JObject []);
  i_terminal_output := None; i_failure := None |}.

Definition approval_start : EventRow := {|
  e_source := "default"; e_id := "e0"; e_instance := "i"; e_process := "approval"; e_revision := revision_fingerprint_ approval_definition;
  e_kind := "start"; e_payload := JObject []; e_idempotency_key := None; e_available_at := At 5; e_status := EPending; e_attempts := 0;
  e_created_at := 5 |}.

Definition approval_signal : SignalRequestRow := {|
  s_source := "default"; s_id := "s"; s_process := "approval"; s_revision := revision_fingerprint_ approval_definition; s_signal := "approve";
  s_correlation := JObject [("who", JString "Ada")]; s_payload := JObject [("note", JString "fine")]; s_idempotency_key := "once";
  s_status := SPending; s_created_at := 20 |}.

Definition approval_database : Database (list string) := {|
  instances := [approval_row]; events := [approval_start]; jobs := []; items := []; logs := []; provider_steps := []; reservations := []; buckets := [];
  start_requests := [];
  signal_requests := [approval_signal]; application := [] |}.

(** The wait is entered at 10, the signal was sent at 20. *)
Definition approval_waiting : Database (list string) :=
  Eval vm_compute in
  snd (consume_one_transition_kind (runtime := approval_runtime) 10 sample_uuid sample_greets fair_weather None [] (fun _ => true) approval_database).

Definition approval_signalled : SignalConsumption * Database (list string) :=
  Eval vm_compute in
  match consume_one_signal (runtime := approval_runtime) 21 sample_uuid (fun _ => false) approval_waiting with
  | Ok r => r
  | Err _ => (SignalNoWork, approval_waiting)
  end.

Lemma approval_keyed : keyed_table instance_conflicts (instances approval_waiting).
Proof. apply keyed_short. cbn. lia. Qed.

Lemma approval_accepted : consume_one_signal (runtime := approval_runtime) 21 sample_uuid (fun _ => false) approval_waiting = Ok approval_signalled.
Proof. vm_compute. reflexivity. Qed.

Lemma signal_reaches_its_only_receiver_witness :
  approval_signalled.1 = SignalAccepted "s" "i" "e2"
  /\ exists request waits row, examined (fun _ => false) approval_waiting request waits /\ "s" = s_id request /\ "i" = i_id row
       /\ receives 21 waits request approval_waiting row /\ (forall other, receives 21 waits request approval_waiting other -> other = row)
       /\ "e2" = sample_uuid approval_waiting
       /\ settles request SConsumed [signal_event 21 sample_uuid request row approval_waiting] approval_waiting approval_signalled.2.
Proof.
  split; [reflexivity|].
  exact (signal_reaches_its_only_receiver (runtime := approval_runtime) 21 sample_uuid (fun _ => false) (SignalAccepted "s" "i" "e2")
    approval_waiting approval_signalled.2 approval_keyed approval_accepted).
Defined.

Lemma accepted_signal_outlasts_the_timeout_witness :
  exists signal row marker, In signal (events approval_signalled.2) /\ e_id signal = "e2" /\ e_instance signal = "i" /\ e_status signal = EPending
    /\ In row (instances approval_signalled.2) /\ i_id row = "i" /\ wait_marker approval_waiting row = Some marker
    /\ instant_le (e_available_at signal) (e_available_at marker) = true
    /\ forall (db2 : Database (list string)) later uuid run_command weather prepared signal' timer, later_row signal signal' -> later_row marker timer ->
         In signal' (events db2) -> In timer (events db2) -> e_status signal' = EPending ->
         instant_le (e_available_at signal') (e_available_at timer) = true -> prepared_snapshot prepared = transition_snapshot timer row ->
         consume_prepared later uuid run_command weather prepared db2 = (Ok NoWork, db2).
Proof.
  exact (accepted_signal_outlasts_the_timeout (runtime := approval_runtime) 21 sample_uuid (fun _ => false) "s" "i" "e2"
    approval_waiting approval_signalled.2 approval_keyed approval_accepted).
Defined.

(** A signal that was accepted an hour before the timer fires, whose own
    transition fails for want of a connection just before it, is rescheduled to
    an instant after it; the timeout then goes ahead and fails the signal. *)
Definition starved_weather : Weather := {| preparing _ := None; applying := Some Pool; locked _ := false |}.

Definition approval_deferred : attempt TransitionConsumption * Database (list string) :=
  Eval vm_compute in consume_one_transition_kind (runtime := approval_runtime) 3600000009 sample_uuid sample_greets starved_weather None [] (fun _ => true)
    approval_signalled.2.

Definition approval_overtaken : attempt TransitionConsumption * Database (list string) :=
  Eval vm_compute in consume_one_transition_kind (runtime := approval_runtime) 3600000010 sample_uuid sample_greets fair_weather None [] (fun _ => true)
    approval_deferred.2.

Example deferred_signal_is_overtaken :
  approval_signalled.1 = SignalAccepted "s" "i" "e2"
  /\ approval_deferred.1 = Ok (Deferred "i" "e2" 1 50)
  /\ approval_overtaken.1 = Ok (Advanced "i" "e1" "await" "late")
  /\ map (fun row => (e_id row, e_status row)) (events approval_overtaken.2)
     = [("e0", EConsumed); ("e1", EConsumed); ("e2", EFailed); ("e3", EPending)].
Proof. vm_compute. repeat split. Qed.
