(* ===== verification/ProcessWorker.v ===== *)
(** * The worker of a source ([crates/server/src/processes/runtime.rs])

    A round of [run] up to the activities: a start request, then a signal.  An
    error of either ends the round, so a request that is refused for what it is
    holds up everything behind it. *)
From S2P Require Import Prelude Json KeyedMap AbiIds RulesSyntax ValueContract ProcessSyntax ProcessInfer ProcessEvaluate ProcessEvaluateSpec ProcessDependencies ProcessFingerprint ProcessDefinition ProcessStates ProcessCompile ProcessCompiled ProcessTyped ProcessTables ProcessTransition ProcessPrepare ProcessCommit ProcessStart ProcessSignal ProcessConsume ProcessJournal ProcessEffect ProcessSample ProcessLive ProcessStartSpec.
Set Warnings "-register-all".

Section Worker.
Context {serde : Serde} {digest : Digest} {uuids : Uuids} {runtime : ProcessRuntime} {postgres : Postgres} {Application : Type}.
Abbreviation Db := (Database Application).
Variable gen_random_uuid : Db -> Uuid.

Definition start_progressed (c : StartConsumption) : bool := match c with StartNoWork => false | _ => true end.
Definition signal_progressed (c : SignalConsumption) : bool := match c with SignalNoWork => false | _ => true end.

(** Whether the requests made progress, or [None] for a round that ended in an
    error before the activities. *)
Definition run_requests (now : Z) (locked : Uuid -> bool) (db : Db) : option bool * Db :=
  match transaction (consume_one_start now gen_random_uuid locked) db with
  | (Err _, db) => (None, db)
  | (Ok started, db) =>
      match transaction (consume_one_signal now gen_random_uuid locked) db with
      | (Err _, db) => (None, db)
      | (Ok signalled, db) => (Some (start_progressed started || signal_progressed signalled), db)
      end
  end.

(** Rounds at these times. *)
Definition run_rounds (locked : Uuid -> bool) (times : list Z) (db : Db) : list (option bool) * Db :=
  fold_left (fun s now => let '(r, db) := run_requests now locked s.2 in (s.1 ++ [r], db)) times ([], db).

(** The request at the head of a queue is one the code refuses: its revision is
    absent, is not the one it names, or its values are not of the contract. *)
Inductive refused_head (locked : Uuid -> bool) (db : Db) : Prop :=
| refused_start request message :
    claim_start locked db = Some request -> start_definition request = Err message -> refused_head locked db
| refused_signal request message : claim_start locked db = None ->
    claim_signal locked db = Some request -> signal_duplicate request db = false -> signal_anchor request = Err message -> refused_head locked db.

Lemma refused_round now locked db : refused_head locked db -> run_requests now locked db = (None, db).
Proof using Type.
  intros [request message Hc Hr|request message Hc Hs Hd Hr]; unfold run_requests, transaction, consume_one_start, query, mbind, txn_bind; rewrite Hc.
  - rewrite Hr. reflexivity.
  - cbn. unfold consume_one_signal, query, mbind, txn_bind. rewrite Hs, Hd. unfold match_signal. rewrite Hr. reflexivity.
Qed.

Lemma refused_rounds locked db times rounds : refused_head locked db ->
  fold_left (fun s now => let '(r, db) := run_requests now locked s.2 in (s.1 ++ [r], db)) times (rounds, db)
  = (rounds ++ map (fun _ => None) times, db).
Proof using Type.
  intros H. revert rounds. induction times as [|now times IH]; intros rounds; cbn; [by rewrite app_nil_r|].
  rewrite (refused_round now _ _ H). by rewrite IH, <- app_assoc.
Qed.

(** C20: a request that is refused stops its source: it stays pending at the
    head of its queue, every later round ends at it with the tables as they
    were, and none gets as far as the activities, however many rounds there
    are. *)
Theorem refused_request_stops_the_source locked (db : Db) times : refused_head locked db ->
  run_rounds locked times db = (map (fun _ => None) times, db).
Proof using Type. intros H. exact (refused_rounds locked db times [] H). Qed.
End Worker.

(** ** Witness

    A request of a revision that is not deployed comes before a good one. *)
Definition stale_request : StartRequestRow := {|
  t_source := "default"; t_id := "q0"; t_process := "welcome"; t_revision := "gone"; t_input := JObject [("who", JString "Ada")];
  t_command_invocation := "c"; t_effect_position := 0; t_idempotency_key := "k0"; t_status := TPending; t_instance := None; t_created_at := 0;
  t_caller_role := Some "user"; t_caller_session := Some (JObject [("x-hasura-tenant", JString "t")]) |}.

Definition stale_database : Database (list string) := with_start_requests empty_database [sample_request "q1" 1; stale_request].

Lemma refused_request_stops_the_source_witness :
  fst (run_requests sample_uuid 3 nobody requested_database) = Some true
  /\ run_rounds sample_uuid nobody [1; 2; 3] stale_database = ([None; None; None], stale_database).
Proof.
  split; [vm_compute; reflexivity|]. apply (refused_request_stops_the_source sample_uuid nobody stale_database [1; 2; 3]).
  eapply (refused_start _ _ stale_request); vm_compute; reflexivity.
Defined.
