(* ===== verification/ActivitySpec.v ===== *)
(** * The worker of the activities

    A floor is the tables, the clock of the database and the claims that
    workers hold; its turns are the transactions of [ActivityClaim] and
    [ActivityWork] and whatever else the server does to the jobs.  On every
    floor the leases, the reservations and the authorized sends are in order. *)
From stdpp Require Import relations.
From S2P Require Import Prelude Json KeyedMap AbiIds RulesSyntax ValueContract ProcessSyntax ProcessActivity ProcessInfer ProcessEvaluate ProcessDependencies ProcessFingerprint ProcessDefinition ProcessStates ProcessCompile ProcessTyped ProcessTables ProcessTransition ProcessPrepare ProcessCommit ProcessConsume ProcessJournal ActivityClaim ActivityWork.
Set Warnings "-register-all".

(** A decision of the transaction that was run. *)
Ltac branch H :=
  lazymatch type of H with (if ?b then _ else _) _ = _ => destruct b eqn:? end.

Section Floor.
Context {serde : Serde} {digest : Digest} {uuids : Uuids} {runtime : ProcessRuntime} {postgres : Postgres} {crates : ActivityCrates}.
Context {Application : Type}.
Abbreviation Db := (Database Application).
Abbreviation txn := (ProcessTables.txn Application).

(** ** Jobs *)

(** A job keeps its identity, its lease generation only grows, and it runs again
    only under a later one. *)
Definition lease_forward (r r' : JobRow) : Prop :=
  j_source r' = j_source r /\ j_id r' = j_id r /\ j_instance r' = j_instance r /\ j_logical_activity_id r' = j_logical_activity_id r
  /\ j_lease_generation r <= j_lease_generation r'
  /\ (j_lease_generation r' = j_lease_generation r -> j_status r' = JRunning -> j_status r = JRunning).

Lemma lease_forward_refl r : lease_forward r r.
Proof using Type. repeat split; auto. lia. Qed.

Lemma lease_forward_trans a b c : lease_forward a b -> lease_forward b c -> lease_forward a c.
Proof using Type.
  intros (S1 & I1 & N1 & L1 & G1 & R1) (S2 & I2 & N2 & L2 & G2 & R2). repeat split; try congruence; [lia|]. intros Hg Hr. apply R1; [lia|]. apply R2; [lia|done].
Qed.

Lemma lease_forward_keys a b a' b' : lease_forward a a' -> lease_forward b b' -> job_conflicts a' b' = job_conflicts a b.
Proof using Type.
  intros (S1 & I1 & N1 & L1 & _) (S2 & I2 & N2 & L2 & _). unfold job_conflicts. by rewrite S1, I1, N1, L1, S2, I2, N2, L2.
Qed.

(** What the turns do to the jobs. *)
Definition jobs_forward (db db' : Db) : Prop := table_step lease_forward unleased (jobs db) (jobs db').

(** What everything but the worker of the activities does. *)
Record other_work (db db' : Db) : Prop := {
  other_keyed : keyed_table job_conflicts (jobs db');
  other_jobs : jobs_forward db db';
  other_leases : provider_steps db' = provider_steps db /\ reservations db' = reservations db;
}.

(** A transition of an instance is such work. *)
Lemma transition_other_work instance event command (db db' : Db) : journaled instance event command db db' -> other_work db db'.
Proof using Type.
  intros J. destruct (journaled_keys _ _ _ _ _ J) as (_ & Hk & _). destruct (journaled_leases _ _ _ _ _ J) as (Hp & Hr & _). split; [done| |done].
  destruct (journaled_jobs _ _ _ _ _ J) as (kept & added & Hj & Hkept & Hadded). exists kept, added. split; [done|]. split.
  - eapply Forall2_impl; [exact Hkept|]. intros r r' [->|(_ & _ & n & d & ->)]; [apply lease_forward_refl|]. repeat split; cbn; auto; lia.
  - eapply Forall_impl; [exact Hadded|]. intros r (_ & _ & H). exact H.
Qed.

(** ** Statements of the worker *)

Lemma update_checked_jobs_Ok w set (db db' : Db) n : update_checked_jobs w set db = Ok (n, db') ->
  n = List.length (List.filter w (jobs db)) /\ db' = with_jobs db (map (fun r => if w r then set r else r) (jobs db)).
Proof using Type.
  unfold update_checked_jobs, checked_update. intros ([n' t] & H & [= <- <-])%bind_Ok. destruct (forallb _ _); [|done]. by injection H as <- <-.
Qed.

Lemma update_reservations_Ok w set (db db' : Db) n : update_reservations w set db = Ok (n, db') ->
  n = List.length (List.filter w (reservations db)) /\ db' = with_reservations db (map (fun r => if w r then set r else r) (reservations db)).
Proof using Type. by intros [= <- <-]. Qed.

Lemma update_buckets_Ok w set (db db' : Db) n : update_buckets w set db = Ok (n, db') -> exists t, db' = with_buckets db t.
Proof using Type. intros [= <- <-]. by eexists. Qed.

Lemma append_activity_event_Ok now uuid job name revision kind payload key (db db' : Db) id :
  append_activity_event now uuid job name revision kind payload key db = Ok (id, db') ->
  db' = with_events db (events db ++ [activity_event now uuid job name revision kind payload key db]).
Proof using Type. unfold append_activity_event. intros H. run H. by apply insert_event_Ok in H as (_ & _ & ->). Qed.

Lemma append_activity_log_Ok job attempt generation revision outcome_ context (db db' : Db) u :
  append_activity_log job attempt generation revision outcome_ context db = Ok (u, db') -> exists t, db' = with_logs db t.
Proof using Type. unfold append_activity_log. intros [_ ->]%insert_log_Ok. by eexists. Qed.

Lemma i64_milliseconds_Ok ms message (db db' : Db) n : i64_milliseconds ms message db = Ok (n, db') -> n = ms /\ db' = db.
Proof using Type.
  unfold i64_milliseconds. intros H. run H. apply map_err_Ok, ok_or_Ok in E. unfold checked in E. destruct (in_range _ _ _); [|done]. by injection E.
Qed.

Lemma jobs_forward_refl (db : Db) : jobs_forward db db.
Proof using Type. exact (table_step_refl lease_forward_refl (jobs db)). Qed.

Lemma jobs_forward_eq (db db' : Db) : jobs db' = jobs db -> jobs_forward db db'.
Proof using Type. intros H. unfold jobs_forward. rewrite H. exact (table_step_refl lease_forward_refl (jobs db)). Qed.

Lemma update_forward w set (db : Db) : (forall r, In r (jobs db) -> w r = true -> lease_forward r (set r)) ->
  jobs_forward db (with_jobs db (map (fun r => if w r then set r else r) (jobs db))).
Proof using Type.
  intros H. apply (table_step_map (fun r => if w r then set r else r)). intros r Hr. destruct (w r) eqn:E; [auto|apply lease_forward_refl].
Qed.

(** ** Reservations *)

(** The reservation counts at the time for the operation. *)
Definition active (t : Z) (connector_ operation_ : string) (row : ReservationRow) : bool :=
  String.eqb (r_source row) runtime_source && String.eqb (r_connector row) connector_ && String.eqb (r_operation row) operation_
  && negb (is_some (r_released_at row)) && (t <? r_expires_at row).

Definition actives (t : Z) (connector_ operation_ : string) (db : Db) : list ReservationRow :=
  List.filter (active t connector_ operation_) (reservations db).

(** Reservations are only given back. *)
Definition shrinks (db db' : Db) : Prop := forall t c o, sublist (actives t c o db') (actives t c o db).

Lemma shrinks_eq (db db' : Db) : reservations db' = reservations db -> shrinks db db'.
Proof using Type. intros H t c o. unfold actives. by rewrite H. Qed.

Lemma shrinks_trans (a b c : Db) : shrinks a b -> shrinks b c -> shrinks a c.
Proof using Type. intros H1 H2 t cn o. etrans; [apply H2|apply H1]. Qed.

Lemma release_shrinks now (w : ReservationRow -> bool) (db : Db) :
  shrinks db (with_reservations db (map (fun r => if w r then release_row now r else r) (reservations db))).
Proof using Type.
  intros t c o. unfold actives. cbn. induction (reservations db) as [|r rows IH]; cbn; [done|]. destruct (w r).
  - assert (E : active t c o (release_row now r) = false) by (unfold active; cbn; by rewrite !andb_false_r). rewrite E.
    destruct (active t c o r); [by apply sublist_cons|done].
  - destruct (active t c o r); [by apply sublist_skip|done].
Qed.

Lemma actives_later t t' c o (db : Db) : t <= t' -> sublist (actives t' c o db) (actives t c o db).
Proof using Type.
  intros Ht. unfold actives. induction (reservations db) as [|r rows IH]; cbn; [done|]. destruct (active t' c o r) eqn:E.
  - assert (E' : active t c o r = true).
    { unfold active in *. rewrite !andb_true_iff, Z.ltb_lt in *. destruct E as [H ?]. split; [done|lia]. }
    rewrite E'. by apply sublist_skip.
  - destruct (active t c o r); [by apply sublist_cons|done].
Qed.

Lemma in_flight_active now job (db : Db) : in_flight_of now job db = actives now (j_connector job) (j_operation job) db.
Proof using Type. done. Qed.

(** ** Claims *)

Section Claims.
Variable now : Z.
Variable gen_random_uuid : Db -> Uuid.

Lemma claim_job_In locked (db : Db) job instance : claim_job now locked db = Some (job, instance) ->
  In job (jobs db) /\ In instance (instances db) /\ due_job now locked (job, instance) = true.
Proof using Type.
  unfold claim_job. intros H. assert (Hin : In (job, instance) (List.filter (due_job now locked) (list_prod (jobs db) (instances db)))).
  { apply (order_by_In job_before). destruct (order_by _ _); [done|]. injection H as ->. by left. }
  apply filter_In in Hin as [Hin Hd]. apply in_prod_iff in Hin as [? ?]. done.
Qed.

(** What a statement of the worker leaves of the leases. *)
Record tidy_step (db db' : Db) : Prop := {
  tidy_keyed : keyed_table job_conflicts (jobs db) -> keyed_table job_conflicts (jobs db');
  tidy_jobs : Forall2 lease_forward (jobs db) (jobs db');
  tidy_steps : provider_steps db' = provider_steps db;
  tidy_reservations : shrinks db db';
}.

Lemma forward_all (rows : list JobRow) : Forall2 lease_forward rows rows.
Proof using Type. induction rows; constructor; [apply lease_forward_refl|done]. Qed.

Lemma tidy_same (db db' : Db) : jobs db' = jobs db -> provider_steps db' = provider_steps db -> reservations db' = reservations db -> tidy_step db db'.
Proof using Type. intros Hj Hp Hr. split; rewrite ?Hj; [done|apply forward_all|done|by apply shrinks_eq]. Qed.

Lemma tidy_trans a b c : tidy_step a b -> tidy_step b c -> tidy_step a c.
Proof using Type.
  intros [K1 J1 P1 R1] [K2 J2 P2 R2]. split; [auto| |congruence|by eapply shrinks_trans].
  clear -J1 J2. revert J2. generalize (jobs c). induction J1 as [|x y xs ys H1 J1 IH]; intros zs J2; inversion J2; subst; constructor; [by eapply lease_forward_trans|auto].
Qed.

Lemma tidy_update (w : JobRow -> bool) set (db : Db) : (forall r, In r (jobs db) -> w r = true -> lease_forward r (set r)) ->
  tidy_step db (with_jobs db (map (fun r => if w r then set r else r) (jobs db))).
Proof using Type.
  intros H. assert (Hall : forall r, In r (jobs db) -> lease_forward r (if w r then set r else r)) by (intros r Hr; destruct (w r) eqn:E; [auto|apply lease_forward_refl]).
  split; cbn; [|clear -Hall|done|by apply shrinks_eq].
  - intros Hk. apply (keyed_map lease_forward_keys (fun r => if w r then set r else r)); [exact Hall|exact Hk].
  - induction (jobs db) as [|r rows IH]; cbn; constructor; [apply Hall; by left|]. apply IH. intros r' Hr'. apply Hall. by right.
Qed.

Lemma tidy_release (w : ReservationRow -> bool) (db : Db) : tidy_step db (with_reservations db (map (fun r => if w r then release_row now r else r) (reservations db))).
Proof using Type. split; cbn; [done|apply forward_all|done|apply release_shrinks]. Qed.

Lemma fail_forward error row : lease_forward row (fail_job error row).
Proof using Type. repeat split; cbn; [lia|done]. Qed.
Lemma retry_forward a s error row : lease_forward row (retry_job a s error row).
Proof using Type. repeat split; cbn; [lia|done]. Qed.
Lemma defer_forward next limit row : lease_forward row (defer_job next limit row).
Proof using Type. repeat split; cbn; [lia|done]. Qed.
Lemma succeed_forward output row : lease_forward row (succeed_job output row).
Proof using Type. repeat split; cbn; [lia|done]. Qed.
End Claims.
End Floor.

Create HintDb leases.
#[export] Hint Resolve fail_forward retry_forward defer_forward succeed_forward lease_forward_refl : leases.

Section Cases.
Context {serde : Serde} {digest : Digest} {uuids : Uuids} {runtime : ProcessRuntime} {postgres : Postgres} {crates : ActivityCrates}.
Context {Application : Type}.
Abbreviation Db := (Database Application).
Abbreviation txn := (ProcessTables.txn Application).
Variable now : Z.
Variable gen_random_uuid : Db -> Uuid.

(** *** What each statement leaves *)

Lemma update_tidy w set (db db' : Db) n : (forall r, lease_forward r (set r)) -> update_checked_jobs w set db = Ok (n, db') -> tidy_step db db'.
Proof using Type. intros Hset [_ ->]%update_checked_jobs_Ok. apply tidy_update. auto. Qed.

Lemma release_tidy w (db db' : Db) n : update_reservations w (release_row now) db = Ok (n, db') -> tidy_step db db'.
Proof using Type. intros [_ ->]%update_reservations_Ok. apply tidy_release. Qed.

Lemma event_tidy job name revision kind payload key (db db' : Db) id :
  append_activity_event now gen_random_uuid job name revision kind payload key db = Ok (id, db') -> tidy_step db db'.
Proof using Type. intros ->%append_activity_event_Ok. by apply tidy_same. Qed.

Lemma log_tidy job attempt generation revision outcome_ context (db db' : Db) u :
  append_activity_log job attempt generation revision outcome_ context db = Ok (u, db') -> tidy_step db db'.
Proof using Type. intros [t ->]%append_activity_log_Ok. by apply tidy_same. Qed.

Lemma tidy_refl (db : Db) : tidy_step db db.
Proof using Type. by apply tidy_same. Qed.
End Cases.

Section Runs.
Context {serde : Serde} {digest : Digest} {uuids : Uuids} {runtime : ProcessRuntime} {postgres : Postgres} {crates : ActivityCrates}.
Context {Application : Type}.
Abbreviation Db := (Database Application).
Abbreviation txn := (ProcessTables.txn Application).
Variable now : Z.
Variable gen_random_uuid : Db -> Uuid.

Lemma expire_tidy job name revision (db db' : Db) u :
  expire_scheduled_activity now gen_random_uuid job name revision db = Ok (u, db') -> tidy_step db db'.
Proof using Type.
  unfold expire_scheduled_activity. intros H. run H. eapply tidy_trans; [eapply update_tidy, Hrun; auto with leases|].
  eapply tidy_trans; [by eapply event_tidy|by eapply log_tidy].
Qed.

Lemma release_abandoned_tidy job (db db' : Db) u : release_abandoned_capacity now job db = Ok (u, db') -> tidy_step db db'.
Proof using Type. unfold release_abandoned_capacity. intros H. run H. by eapply release_tidy. Qed.

Lemma late_tidy job name revision state (db db' : Db) c :
  resolve_late_running_activity now gen_random_uuid job name revision state db = Ok (c, db') -> tidy_step db db'.
Proof using Type.
  unfold resolve_late_running_activity. intros H. run H. destruct (_ && _).
  - run H. repeat match goal with H : i64_milliseconds _ _ _ = _ |- _ => apply i64_milliseconds_Ok in H as [-> ->] end.
    match goal with H : update_checked_jobs _ _ _ = _ |- _ => eapply tidy_trans; [eapply update_tidy, H; auto with leases|] end.
    match goal with H : release_abandoned_capacity _ _ _ = _ |- _ => eapply tidy_trans; [by eapply release_abandoned_tidy|] end.
    by eapply log_tidy.
  - lazymatch type of H with (let '(_, _) := ?p in _) _ = Ok _ => destruct p as [kind error] end. run H. eapply tidy_trans; [eapply update_tidy, Hrun; auto with leases|].
    eapply tidy_trans; [by eapply release_abandoned_tidy|]. eapply tidy_trans; [by eapply event_tidy|].
    destruct (_ && _); run H; by eapply log_tidy.
Qed.

(** *** Capacity *)

Definition same_leases (db db' : Db) : Prop := jobs db' = jobs db /\ provider_steps db' = provider_steps db /\ reservations db' = reservations db.

Lemma same_leases_tidy (db db' : Db) : same_leases db db' -> tidy_step db db'.
Proof using Type. intros (Hj & Hp & Hr). by apply tidy_same. Qed.

Lemma lock_bucket_same job spec policy (db db' : Db) u : lock_bucket now job spec policy db = Ok (u, db') -> same_leases db db'.
Proof using Type.
  unfold lock_bucket. intros H. run H. destruct (existsb _ _); injection Hrun as _ <-; by repeat split.
Qed.

Lemma refill_bucket_same job spec (db db' : Db) tokens : refill_bucket now job spec db = Ok (tokens, db') -> same_leases db db'.
Proof using Type. unfold refill_bucket. intros H. run H. injection Hrun as <- <-. by repeat split. Qed.

(** When there is room, the operation has a reservation to spare and the key of
    the job is free. *)
Lemma take_capacity_Ok job spec policy limit (db db' : Db) room : take_capacity now job spec policy limit db = Ok (room, db') ->
  tidy_step db db' /\ (room = true -> jobs db' = jobs db
    /\ Z.of_nat (List.length (actives now (j_connector job) (j_operation job) db')) < maximum_in_flight spec
    /\ forall r, In r (actives now (j_connector job) (j_operation job) db') -> same_serialization job r = false).
Proof using Type.
  unfold take_capacity. intros H. run H. apply i64_milliseconds_Ok in Hrun as [_ ->]. rename Hrun0 into Hrun, Hrun1 into Hrun0, Hrun2 into Hrun1. apply lock_bucket_same in Hrun. pose proof (same_leases_tidy _ _ Hrun) as T1. destruct Hrun as (J1 & _ & _).
  unfold release_expired in Hrun0. apply release_tidy in Hrun0 as T2. apply update_reservations_Ok in Hrun0 as [_ ->].
  apply refill_bucket_same in Hrun1 as (J3 & P3 & R3). pose proof (tidy_same _ _ J3 P3 R3) as T3.
  destruct (_ || _) eqn:Ec; run H.
  - split; [|done]. eapply tidy_trans; [exact T1|]. eapply tidy_trans; [exact T2|]. eapply tidy_trans; [exact T3|].
    eapply update_tidy; [|eassumption]. auto with leases.
  - match goal with H : update_buckets _ _ _ = _ |- _ => apply update_buckets_Ok in H as [t ->] end. apply orb_false_iff in Ec as [[Hfull Hbusy]%orb_false_iff _].
    split; [eapply tidy_trans; [exact T1|]; eapply tidy_trans; [exact T2|]; eapply tidy_trans; [exact T3|]; by apply tidy_same|].
    intros _. split; [cbn; rewrite J3; exact J1|]. rewrite in_flight_active in Hfull, Hbusy. unfold actives in *. cbn in *. rewrite R3. cbn.
    split; [apply Z.leb_gt in Hfull; exact Hfull|]. intros r Hr. destruct (same_serialization job r) eqn:Er; [|done]. exfalso.
    apply Bool.diff_true_false. rewrite <- Hbusy. symmetry. apply existsb_exists. by exists r.
Qed.

(** *** Leases *)

Lemma insert_reservation_Ok row (db db' : Db) u : insert_reservation row db = Ok (u, db') -> db' = with_reservations db (reservations db ++ [row]).
Proof using Type.
  unfold insert_reservation. intros (t & Ht & H)%bind_Ok. unfold insert_row in Ht. destruct (existsb _ _); [done|]. injection Ht as <-.
  destruct (negb _); [done|]. by injection H as _ <-.
Qed.

(** The one job a lease is given to, with its next generation. *)
Lemma assign_lease_Ok job start_to_close completion (db db' : Db) job' lease_token : keyed_table job_conflicts (jobs db) -> In job (jobs db) ->
  j_source job = runtime_source -> assign_lease now gen_random_uuid job start_to_close completion db = Ok ((job', lease_token), db') ->
  (exists attempt, job' = leased attempt (j_lease_generation job + 1) start_to_close completion lease_token job
     /\ (attempt = j_attempts job \/ attempt = j_attempts job + 1))
  /\ jobs db' = map (fun r => if this_job job r then job' else r) (jobs db)
  /\ keyed_table job_conflicts (jobs db') /\ Forall2 lease_forward (jobs db) (jobs db') /\ provider_steps db' = provider_steps db
  /\ exists row, reservations db' = reservations db ++ [row] /\ r_connector row = j_connector job /\ r_operation row = j_operation job
       /\ r_serialization_key_hash row = j_serialization_key_hash job /\ r_expires_at row = completion /\ r_source row = runtime_source.
Proof using Type.
  intros Hk Hin Hs. unfold assign_lease. intros H. run H. injection E2 as -> ->. apply map_err_Ok, ok_or_Ok in E, E0.
  unfold checked in E0. destruct (in_range _ _ _); [|done]. injection E0 as <-.
  assert (Hone : forall r, In r (jobs db) -> this_job job r = true -> r = job).
  { intros r Hr Ht. unfold this_job in Ht. rewrite andb_true_iff, !String.eqb_eq in Ht. apply (keyed_unique _ _ _ Hk Hr Hin). unfold job_conflicts.
    destruct Ht as [Ht1 Ht2]. by rewrite Ht1, Hs, Ht2, !String.eqb_refl. }
  apply update_checked_jobs_Ok in Hrun as [_ ->]. apply insert_reservation_Ok in Hrun0 as ->. cbn.
  match goal with |- context [map ?f (jobs db)] => assert (Hmap : map f (jobs db) = map (fun r => if this_job job r then
     leased a (j_lease_generation job + 1) start_to_close completion (gen_random_uuid db) job else r) (jobs db)) end.
  { apply map_ext_in. intros r Hr. destruct (this_job job r) eqn:Et; cbn; [|done]. rewrite (Hone r Hr Et). by rewrite bool_decide_eq_true_2. }
  rewrite Hmap. assert (Hfwd : forall r, In r (jobs db) -> lease_forward r (if this_job job r then
     leased a (j_lease_generation job + 1) start_to_close completion (gen_random_uuid db) job else r)).
  { intros r Hr. destruct (this_job job r) eqn:Et; [|apply lease_forward_refl]. rewrite (Hone r Hr Et). repeat split; cbn; [lia|]. intros Hg. lia. }
  split; [exists a; split; [done|]|].
  { destruct (bool_decide _); [injection E as <-; by left|]. unfold checked in E. destruct (in_range _ _ _); [|done]. injection E as <-. by right. }
  split; [done|]. split; [by apply (keyed_map lease_forward_keys (fun r => if this_job job r then _ else r))|]. split; [|split; [done|]].
  - clear -Hfwd. induction (jobs db) as [|r rows IH]; cbn; constructor; [apply Hfwd; by left|]. apply IH. intros r' Hr'. apply Hfwd. by right.
  - eexists. by repeat split.
Qed.

(** *** The claim *)

(** The specification is the one a deployed revision pinned for the operation of
    the job. *)
Definition deployed_spec (job : JobRow) (spec : OperationSpec) : Prop :=
  exists name rev d operation_ dependency, revision deployed_catalog name rev = Some d /\ InlineId_as_str operation_ = j_operation job
    /\ km_get (connector_operations (definition_dependencies d)) (runtime_source, j_connector job, operation_) = Some dependency
    /\ spec = as_ref (pinned_spec dependency).

Lemma check_operation_Ok job rev d state dependency : check_operation job rev d state = Ok dependency ->
  km_get (connector_operations (definition_dependencies d)) (runtime_source, j_connector job, compiled_operation (activity state)) = Some dependency.
Proof using Type.
  unfold check_operation. intros (dep & Hd%ok_or_Ok & H)%bind_Ok. apply bind_Ok in H as (l & _ & H). apply bind_Ok in H as (f & _ & H).
  destruct (_ || _); [done|]. apply bind_Ok in H as (u & _ & H). apply bind_Ok in H as (e & _ & H). destruct (negb _); [done|]. by injection H as <-.
Qed.

Lemma check_activity_Ok (db : Db) job instance compiled state dependency : check_activity db job instance = Ok (compiled, state, dependency) ->
  (exists d, revision deployed_catalog (i_process instance) (i_revision instance) = Some d /\ bt_get (definition_states d) (j_state job) = Some compiled)
  /\ (exists fanout, request_of job compiled = Ok (state, fanout)) /\ deployed_spec job (as_ref (pinned_spec dependency)).
Proof using Type.
  unfold check_activity. intros (d & Hd%map_err_Ok%ok_or_Ok & H)%bind_Ok. apply bind_Ok in H as (k & Hk%map_err_Ok%ok_or_Ok & H).
  apply bind_Ok in H as ([st fanout] & Hst%map_err_Ok & H). cbv zeta in H. destruct (_ || _) eqn:Ed; [done|]. apply bind_Ok in H as (fp & _ & H).
  destruct (negb (String.eqb fp _)); [done|]. destruct (fanout && _); [done|]. apply bind_Ok in H as (dep & Hdep%map_err_Ok & [= <- <- <-]).
  apply orb_false_iff in Ed as [_ Eo]. apply negb_false_iff, String.eqb_eq in Eo.
  split; [by exists d|]. split; [by exists fanout|]. eexists _, _, d, _, dep. split; [exact Hd|]. split; [exact Eo|]. split; [by eapply check_operation_Ok|done].
Qed.

(** A lease that was granted: to a job of the table, under its next generation,
    with a reservation for which there was room. *)
Record granted (db db' : Db) (job job' : JobRow) (spec : OperationSpec) (lease_token : Uuid) : Prop := {
  granted_in : In job (jobs db) /\ j_source job = runtime_source;
  granted_next : exists attempt start_to_close completion, job' = leased attempt (j_lease_generation job + 1) start_to_close completion lease_token job
    /\ (attempt = j_attempts job \/ attempt = j_attempts job + 1);
  granted_jobs : jobs db' = map (fun r => if this_job job r then job' else r) (jobs db);
  granted_keyed : keyed_table job_conflicts (jobs db');
  granted_forward : Forall2 lease_forward (jobs db) (jobs db');
  granted_steps : provider_steps db' = provider_steps db;
  granted_spec : deployed_spec job spec;
  granted_room : exists rows row, reservations db' = rows ++ [row] /\ shrinks db (with_reservations db rows)
    /\ r_connector row = j_connector job /\ r_operation row = j_operation job /\ r_serialization_key_hash row = j_serialization_key_hash job
    /\ Z.of_nat (List.length (List.filter (active now (j_connector job) (j_operation job)) rows)) < maximum_in_flight spec
    /\ forall r, In r rows -> active now (j_connector job) (j_operation job) r = true -> same_serialization job r = false;
}.

Lemma claim_cases locked (db db' : Db) r : keyed_table job_conflicts (jobs db) -> claim_transaction now gen_random_uuid locked db = Ok (r, db') ->
  (tidy_step db db' /\ forall c, r <> Ok (Claimed c))
  \/ exists job job' spec lease_token, granted db db' job job' spec lease_token
       /\ forall c, r = Ok (Claimed c) -> claimed_job c = job' /\ claimed_spec c = spec /\ claimed_token c = lease_token
            /\ claimed_attempt c = j_attempts job' /\ claimed_generation c = j_lease_generation job'.
Proof using Type.
  intros Hk H. unfold claim_transaction in H. run H. destruct (claim_job now locked db) as [[job instance]|] eqn:Ec; [|left; run H; by split; [apply tidy_refl|]].
  destruct (claim_job_In _ _ _ _ _ Ec) as (Hin & _ & Hdue). run H. destruct a as [[compiled state] dependency]. apply check_activity_Ok in E as (_ & _ & Hspec).
  assert (Hs : j_source job = runtime_source) by (unfold due_job in Hdue; rewrite !andb_true_iff, !String.eqb_eq in Hdue; tauto).
  cbv zeta in H. branch H. { left. run H. split; [by eapply expire_tidy|done]. }
  run H. destruct a as [start_to_close completion]. branch H. { left. run H. split; [by eapply late_tidy|done]. }
  run H. apply take_capacity_Ok in Hrun as [T Hroom]. destruct a; cbn [negb] in H; [|left; run H; by split]. destruct (Hroom eq_refl) as (Hj & Hlen & Hfree).
  run H. destruct a as [job' lease_token]. rewrite <- Hj in Hin, Hk. apply (assign_lease_Ok _ _ _ _ _ _ _ Hk Hin Hs) in Hrun as (Hnext & Hjobs & Hkeyed & Hfwd & Hsteps & row & Hres & R1 & R2 & R3 & R4 & R5).
  run H. right. exists job, job', (as_ref (pinned_spec dependency)), lease_token. rewrite Hj in Hin, Hjobs, Hfwd. split; [split; try done|].
  - destruct Hnext as (attempt & -> & Ha). by exists attempt, start_to_close, (r_expires_at row).
  - rewrite Hsteps. apply T.
  - eexists _, row. split; [exact Hres|]. split; [exact (tidy_reservations _ _ T)|]. do 3 (split; [done|]). split; [exact Hlen|].
    intros r Hr Ha. apply Hfree. by apply filter_In.
  - intros c Hc. destruct (send_horizon _ _ _) as [h|]; [|done]. by injection Hc as <-.
Qed.
End Runs.
