(* ===== verification/ActivitySample.v ===== *)
(** * A payment for the witnesses

    The sample process with one more state, whose operation may be sent at most
    once, one at a time and once an hour; an instance that waits for it, with
    its job. *)
From S2P Require Import Prelude Json KeyedMap AbiIds RulesSyntax ValueContract ProcessSyntax ProcessActivity ProcessInfer ProcessEvaluate ProcessEvaluateSpec ProcessDependencies ProcessFingerprint ProcessDefinition ProcessStates ProcessCompile ProcessCompiled ProcessTyped ProcessTables ProcessTransition ProcessPrepare ProcessCommit ProcessConsume ProcessJournal ProcessEffect ProcessSample ActivityClaim ActivityWork.
Set Warnings "-register-all".

Definition inline_id (s : string) : InlineId :=
  match InlineId_parse s with Ok id => id | Err _ => {| id_len := 0; id_bytes := "" |} end.

Definition one_zero : StableSemver := {| major := 1; minor := 0; patch := 0 |}.

Definition charge_spec : OperationSpec := {|
  spec_connector := inline_id "payments"; connector_version := one_zero; spec_operation := inline_id "charge"; operation_version := one_zero;
  runtime_abi_epoch := 1; value_language_epoch := 1;
  spec_input := sample_field "who" SString; input_contract_sha256 := ""; spec_output := sample_field "id" SString; output_contract_sha256 := "";
  spec_steps := [inline_id "charge"]; ProcessDependencies.effect := AtMostOnce; maximum_in_flight := 1; burst := 1; refill_interval_ms := 3600000; deadline_ms := 20000 |}.

Definition charge_arc : Arc OperationSpec := {| allocation := 7; as_ref := charge_spec |}.

Definition charge_state : CompiledProcessRequestState := {|
  activity := {| connector := "pay"; compiled_operation := inline_id "charge"; compiled_input := []; provider_idempotent := false; at_most_once := true;
                 on_ambiguous := Some "done"; schedule_to_start_ms := 10000; start_to_close_ms := 30000;
                 retry := {| retry_on := [Transport]; max_attempts := 2; initial_interval := "1s"; max_interval := "1s"; jitter := "deterministic_full" |};
                 initial_retry_interval_ms := 1000; maximum_retry_interval_ms := 1000; on_error := None |};
  compiled_request_next := "done" |}.

Definition with_charge (d : CompiledProcessDefinition) : CompiledProcessDefinition := {|
  definition_source := definition_source d; definition_name := definition_name d; definition_version := definition_version d;
  definition := definition d; definition_input := definition_input d; definition_output := definition_output d; process_key := process_key d;
  definition_signals := definition_signals d;
  definition_states := bt_insert (definition_states d) "charge"
    {| compiled_id := "charge"; compiled_output := spec_output charge_spec; maximum_send_horizons_ms := []; compiled_state_operation := CompiledRequest charge_state |};
  caller_session_variables := caller_session_variables d; tenant_variable := tenant_variable d;
  definition_dependencies := {| commands := commands (definition_dependencies d); rules := rules (definition_dependencies d);
    decision_tables := decision_tables (definition_dependencies d);
    connector_operations := [(("default", "pay", inline_id "charge"),
      {| pinned_source := "default"; pinned_instance := "pay"; pinned_spec := charge_arc; pinned_deployment := "d1"; serialization_key_input := None |})];
    connector_triggers := [] |};
  definition_fingerprint_ := definition_fingerprint_ d; revision_fingerprint_ := revision_fingerprint_ d |}.

Definition charge_runtime : ProcessRuntime := {|
  runtime_source := "default";
  deployed_catalog := {| active := [("welcome", with_charge sample_definition)]; live_retired := [] |};
  runtime_rules := sample_rules;
  operation_spec_handle _ name operation_ := if String.eqb name "pay" && String.eqb (InlineId_as_str operation_) "charge" then Some charge_arc else None;
  configuration_fingerprint name operation_ := if String.eqb name "pay" && String.eqb operation_ "charge" then Some "d1" else None;
  registry_serialization_key_input _ _ := None;
  trigger_spec_handle _ _ _ := None;
  trigger_configuration_fingerprint _ _ := None;
  finalized_command _ name := if String.eqb name "greet" then Some "f" else None;
  pre_process_command _ name := if String.eqb name "greet" then Some "f" else None;
  CommandMutation := Value;
  planner_error := None;
  plan_process_command _ arguments _ _ := Ok (JObject arguments);
  uuid_parse_str s := Some s;
  parse_from_rfc3339 _ := Err "not a timestamp";
  parse_naive_date_time _ := Err "not a timestamp";
|}.

#[export] Instance sample_crates : ActivityCrates := {|
  checked_add_milliseconds t ms := Some (t + ms * 1000);
  base64_url_no_pad s := s;
|}.

Definition charge_input : Value := JObject [("who", JString "Ada")].

Definition charge_fingerprint : string :=
  Eval vm_compute in match canonical_json_sha256 charge_input with Ok s => s | Err _ => "" end.

Definition charge_job : JobRow := {|
  j_source := "default"; j_id := "j1"; j_instance := "i"; j_event := "e0"; j_state := "charge"; j_logical_activity_id := "l1"; j_connector := "pay";
  j_operation := "charge"; j_serialization_key_hash := None; j_input := charge_input; j_result := None; j_request_fingerprint := charge_fingerprint;
  j_status := JScheduled; j_attempts := 0; j_lease_generation := 0; j_available_at := At 10000000; j_schedule_to_start_deadline := At 20000000;
  j_start_to_close_deadline := None; j_lease_token := None; j_lease_expires_at := None; j_last_error := None |}.

Definition charge_row : InstanceRow := {|
  i_source := "default"; i_id := "i"; i_process := "welcome"; i_revision := revision_fingerprint_ sample_definition;
  i_source_request := "q"; i_start_key := "k"; i_status := IRunning;
  i_current_state := "charge"; i_input := charge_input; i_state := JObject []; i_version := 1; i_caller_role := Some "user";
  i_caller_session := Some (JObject [("x-hasura-tenant", JString "t")]); i_terminal_output := None; i_failure := None |}.

Definition charge_database : Database (list string) := {|
  instances := [charge_row]; events := []; jobs := [charge_job]; items := []; logs := []; provider_steps := []; reservations := []; buckets := [];
  start_requests := []; signal_requests := []; application := [] |}.

(** Times in seconds. *)
Definition seconds (n : Z) : Z := n * 1000000.

Definition charge_claim (n : Z) (db : Database (list string)) : attempt (outcome ActivityClaim * Database (list string)) :=
  claim_transaction (runtime := charge_runtime) (seconds n) sample_uuid (fun _ => false) db.

(** The claim at ten seconds. *)
Definition charge_claimed : outcome ActivityClaim * Database (list string) :=
  Eval vm_compute in match charge_claim 10 charge_database with Ok r => r | Err _ => (Ok ClaimNothing, charge_database) end.

Lemma charge_claims : charge_claim 10 charge_database = Ok charge_claimed.
Proof. vm_compute. reflexivity. Qed.

Definition charge_lease : ClaimedActivity :=
  Eval vm_compute in
  match charge_claimed.1 as r return match r with Ok (Claimed _) => ClaimedActivity | _ => unit end with
  | Ok (Claimed claimed) => claimed
  | _ => tt
  end.

(** The send is authorized at eleven seconds and not again, and the answer of
    the provider is recorded at thirteen. *)
Definition charge_authorize (n : Z) (db : Database (list string)) : attempt (ProviderAuthorization * Database (list string)) :=
  authorize_provider_send (runtime := charge_runtime) (seconds n) charge_lease db.

Definition charge_authorized : Database (list string) :=
  Eval vm_compute in match charge_authorize 11 charge_claimed.2 with Ok r => r.2 | Err _ => charge_database end.

Definition charge_answer : Answer := Good (JObject [("id", JString "p1")]).

Definition charge_complete (answer : Answer) (db : Database (list string)) : attempt (ActivityConsumption * Database (list string)) :=
  complete (runtime := charge_runtime) (seconds 13) sample_uuid charge_lease answer db.

Definition charge_completed : Database (list string) :=
  Eval vm_compute in match charge_complete charge_answer charge_authorized with Ok r => r.2 | Err _ => charge_database end.

(** A transport failure after the send was authorized, and one before. *)
Definition charge_lost : ConnectorFailure := ConnectorFailure_new OfTransport "connection_reset" "the connection was reset".

Definition charge_ambiguous : ActivityConsumption * Database (list string) :=
  Eval vm_compute in match charge_complete (Bad charge_lost Attempted) charge_authorized with Ok r => r | Err _ => (ActivityNoWork, charge_database) end.

Definition charge_retried : ActivityConsumption * Database (list string) :=
  Eval vm_compute in match charge_complete (Bad charge_lost Attempted) charge_claimed.2 with Ok r => r | Err _ => (ActivityNoWork, charge_database) end.

(** The worker is gone: the claim at forty-one seconds takes the activity over,
    and finds no token of the rate. *)
Definition charge_waiting : Database (list string) :=
  Eval vm_compute in match charge_claim 41 charge_claimed.2 with Ok r => r.2 | Err _ => charge_database end.

Lemma charge_waits : charge_claim 41 charge_claimed.2 = Ok (Ok (ClaimDeferred "j1"), charge_waiting).
Proof. vm_compute. reflexivity. Qed.
