(* ===== verification/ActivityFloor.v ===== *)
(** * The floor of the activities

    What the authorization and the completion leave of the leases, the floor on
    which any number of workers take their turns, and what holds on every floor:
    an activity that may be sent at most once is sent at most once, a lease is
    completed at most once, and the capacity of an operation is never exceeded. *)
From stdpp Require Import relations.
From S2P Require Import Prelude Json KeyedMap AbiIds RulesSyntax ValueContract ProcessSyntax ProcessActivity ProcessInfer ProcessEvaluate ProcessEvaluateSpec ProcessDependencies ProcessFingerprint ProcessDefinition ProcessStates ProcessCompile ProcessTyped ProcessTables ProcessTransition ProcessPrepare ProcessCommit ProcessConsume ProcessJournal ProcessCompiled ProcessSample ActivityClaim ActivityWork ActivitySpec ActivitySample.
Set Warnings "-register-all".

Section Sends.
Context {serde : Serde} {digest : Digest} {uuids : Uuids} {runtime : ProcessRuntime} {postgres : Postgres} {crates : ActivityCrates}.
Context {Application : Type}.
Abbreviation Db := (Database Application).
Abbreviation txn := (ProcessTables.txn Application).
Variable now : Z.
Variable gen_random_uuid : Db -> Uuid.

(** ** Authorizations *)

Definition recorded (logical step_ : string) (db : Db) : Prop :=
  exists row, In row (provider_steps db) /\ p_source row = runtime_source /\ p_logical_activity_id row = logical /\ p_step row = step_.

(** The send of an at-most-once claim. *)
Definition once_send (claimed : ClaimedActivity) : option (string * string) :=
  match effect (claimed_spec claimed), spec_steps (claimed_spec claimed) with
  | AtMostOnce, step_ :: _ => Some (j_logical_activity_id (claimed_job claimed), InlineId_as_str step_)
  | _, _ => None
  end.

Record sends_step (db db' : Db) : Prop := {
  sends_jobs : jobs db' = jobs db;
  sends_reservations : reservations db' = reservations db;
  sends_kept : exists added, provider_steps db' = provider_steps db ++ added;
}.

Lemma sends_refl (db : Db) : sends_step db db.
Proof using Type. split; [done|done|]. exists []. by rewrite app_nil_r. Qed.

Lemma recorded_kept logical step_ (db db' : Db) : (exists added, provider_steps db' = provider_steps db ++ added) ->
  recorded logical step_ db -> recorded logical step_ db'.
Proof using Type. intros (added & E) (row & Hin & H). exists row. split; [rewrite E; apply in_or_app; by left|done]. Qed.

Lemma record_send_Ok row (db db' : Db) n : record_send row db = Ok (n, db') ->
  sends_step db db' /\ (n = 0%nat \/ (n = 1%nat /\ ~ (exists row', In row' (provider_steps db) /\ step_conflicts row row' = true)
                                      /\ provider_steps db' = provider_steps db ++ [row])).
Proof using Type.
  unfold record_send. destruct (existsb _ _) eqn:Ee; [intros [= <- <-]; split; [apply sends_refl|by left]|].
  intros (t & Ht & H)%bind_Ok. unfold insert_row in Ht. destruct (existsb (step_job_conflicts _) _); [done|]. injection Ht as <-.
  destruct (negb _); [done|]. injection H as <- <-. split; [split; [done|done|by eexists]|]. right. split; [done|]. split; [|done].
  intros (row' & Hin & Hc). apply Bool.diff_true_false. rewrite <- Ee. symmetry. apply existsb_exists. by exists row'.
Qed.

Lemma once_authorized_Ok claimed (db db' : Db) key refusal : effect (claimed_spec claimed) = AtMostOnce ->
  authorize_at_most_once now claimed db = Ok ((key, refusal), db') ->
  sends_step db db' /\ (refusal = None -> exists logical step_, once_send claimed = Some (logical, step_) /\ ~ recorded logical step_ db /\ recorded logical step_ db').
Proof using Type.
  intros He. unfold authorize_at_most_once. intros H. run H. apply map_err_Ok, ok_or_Ok in E. injection E1 as -> ->.
  apply record_send_Ok in Hrun as [S Hn]. split; [exact S|]. intros Hr. destruct Hn as [->|(-> & Hno & Hadd)]; [done|].
  unfold once_send. rewrite He. destruct (spec_steps _) as [|st rest]; [done|]. injection E as ->. eexists _, _. split; [done|].
  split.
  - intros (row & Hin & H1 & H2 & H3). apply Hno. exists row. split; [done|]. unfold step_conflicts. cbn. by rewrite H1, H2, H3, !String.eqb_refl.
  - eexists. split; [rewrite Hadd; apply in_or_app; right; by left|done].
Qed.

Lemma idempotent_authorized_Ok claimed steps (db db' : Db) r : authorize_idempotent now claimed steps db = Ok (r, db') -> sends_step db db'.
Proof using Type.
  unfold authorize_idempotent. intros H. run H. repeat match goal with H : i64_milliseconds _ _ _ = _ |- _ => apply i64_milliseconds_Ok in H as [-> ->] end.
  match goal with H : record_send _ _ = _ |- _ => by apply record_send_Ok in H as [S _] end.
Qed.

(** A send is authorized for the lease it was claimed under, and an at-most-once
    send only when it is not on record. *)
Lemma authorize_cases claimed (db db' : Db) r : authorize_provider_send now claimed db = Ok (r, db') ->
  sends_step db db' /\ forall key deadline, r = Authorized key deadline ->
    (exists job, In job (jobs db) /\ holds_lease claimed job = true) /\ now <= claimed_completion claimed
    /\ (effect (claimed_spec claimed) = AtMostOnce ->
        exists logical step_, once_send claimed = Some (logical, step_) /\ ~ recorded logical step_ db /\ recorded logical step_ db').
Proof using Type.
  unfold authorize_provider_send. intros H. run H. destruct a as [key refusal]. run H. apply map_err_Ok, ok_or_Ok in E. rename db0 into db'.
  assert (S : sends_step db db').
  { destruct (effect _) as [|steps|] eqn:He; [run Hrun; apply sends_refl|by eapply idempotent_authorized_Ok|by eapply once_authorized_Ok in Hrun as [? _]]. }
  split; [exact S|]. intros key' deadline Hr. destruct refusal as [failure|]; [done|].
  destruct (claimed_completion claimed <? now) eqn:El; [done|]. apply Z.ltb_ge in El.
  apply List.find_some in E as [Hin Hh]. rewrite (sends_jobs _ _ S) in Hin. split; [by eexists|]. split; [done|].
  intros He. rewrite He in Hrun. eapply once_authorized_Ok in Hrun as [_ Hs]; [by apply Hs|done].
Qed.

(** ** Completions *)

(** The one running row of the lease left it, under the same generation. *)
Definition settled (claimed : ClaimedActivity) (db db' : Db) : Prop :=
  exists job job', In job (jobs db) /\ holds_lease claimed job = true /\ In job' (jobs db')
    /\ this_job (claimed_job claimed) job' = true /\ j_lease_generation job' = claimed_generation claimed /\ j_status job' <> JRunning.

Definition is_stale (consumption : ActivityConsumption) : bool :=
  match consumption with StaleCompletion _ _ _ _ => true | _ => false end.

Definition leaves (set : JobRow -> JobRow) : Prop :=
  forall row, lease_forward row (set row) /\ j_lease_generation (set row) = j_lease_generation row /\ j_status (set row) <> JRunning.

Lemma fail_leaves error : leaves (fail_job error).
Proof using Type. intros row. split; [auto with leases|by split]. Qed.
Lemma retry_leaves a s error : leaves (retry_job a s error).
Proof using Type. intros row. split; [auto with leases|by split]. Qed.
Lemma succeed_leaves output : leaves (succeed_job output).
Proof using Type. intros row. split; [auto with leases|by split]. Qed.

Definition work (claimed : ClaimedActivity) (db db' : Db) : Prop := tidy_step db db' /\ settled claimed db db'.

Lemma settle_work claimed set (db db' : Db) n : leaves set -> update_checked_jobs (holds_lease claimed) set db = Ok (n, db') -> (n =? 1)%nat = true ->
  work claimed db db'.
Proof using Type.
  clear gen_random_uuid. intros Hset H Hn. split; [eapply update_tidy, H; intros r; apply Hset|]. apply update_checked_jobs_Ok in H as [-> ->].
  destruct (List.filter _ _) as [|job rest] eqn:Ef; [done|]. assert (Hin : In job (List.filter (holds_lease claimed) (jobs db))) by (rewrite Ef; by left).
  apply filter_In in Hin as [Hin Hh]. exists job, (set job). destruct (Hset job) as ((Hs & Hi & _) & Hg & Hnr). split; [done|]. split; [done|].
  split; [|split; [|split; [|done]]].
  - cbn. apply in_map_iff. exists job. by rewrite Hh.
  - unfold holds_lease in Hh. rewrite !andb_true_iff in Hh. unfold this_job in *. rewrite Hs, Hi. tauto.
  - unfold holds_lease in Hh. rewrite !andb_true_iff, !Z.eqb_eq in Hh. rewrite Hg. tauto.
Qed.

Lemma work_then claimed (a b c : Db) : work claimed a b -> jobs c = jobs b -> provider_steps c = provider_steps b -> shrinks b c -> work claimed a c.
Proof using Type.
  intros [T (job & job' & H1 & H2 & H3 & H4)] Hj Hp Hr. split.
  - eapply tidy_trans; [exact T|]. split; rewrite ?Hj; [done|apply forward_all|done|done].
  - exists job, job'. by rewrite Hj.
Qed.

Lemma work_release claimed (a b c : Db) u : work claimed a b -> release_capacity now claimed b = Ok (u, c) -> work claimed a c.
Proof using Type.
  intros W. unfold release_capacity. intros H. run H. apply update_reservations_Ok in Hrun as [_ ->]. apply (work_then _ _ _ _ W); [done|done|apply release_shrinks].
Qed.

Lemma work_event claimed (a b c : Db) kind error id : work claimed a b -> completion_event now gen_random_uuid claimed kind error b = Ok (id, c) -> work claimed a c.
Proof using Type.
  intros W. unfold completion_event. intros ->%append_activity_event_Ok. apply (work_then _ _ _ _ W); [done|done|by apply shrinks_eq].
Qed.

Lemma work_log claimed (a b c : Db) outcome_ context u : work claimed a b -> completion_log claimed outcome_ context b = Ok (u, c) -> work claimed a c.
Proof using Type.
  intros W. unfold completion_log. intros [t ->]%append_activity_log_Ok. apply (work_then _ _ _ _ W); [done|done|by apply shrinks_eq].
Qed.

Lemma success_cases claimed output (db db' : Db) b : complete_activity_success now gen_random_uuid claimed output db = Ok (b, db') ->
  if b then work claimed db db' else tidy_step db db'.
Proof using Type.
  unfold complete_activity_success. intros H. run H. cbv zeta in H. destruct (negb _); run H; [by eapply log_tidy|].
  eapply work_log, Hrun2. eapply work_event, Hrun1. eapply work_release, Hrun0. by eapply settle_work; [apply succeed_leaves|..].
Qed.

Lemma end_cases claimed failure cause exhausted (db db' : Db) c : end_activity now gen_random_uuid claimed failure cause exhausted db = Ok (c, db') ->
  is_stale c = false /\ work claimed db db'.
Proof using Type.
  unfold end_activity. intros H. cbv zeta in H.
  lazymatch type of H with (let '(_, _) := ?p in _) _ = Ok _ => destruct p as [kind error] end. run H.
  assert (W : work claimed db db0) by (by eapply settle_work; [apply fail_leaves|..]).
  eapply work_release in W; [|exact Hrun0]. eapply work_event in W; [|exact Hrun1]. eapply work_log in W; [|exact Hrun2].
  by destruct exhausted; run H.
Qed.

Lemma failure_cases claimed failure send (db db' : Db) c : complete_activity_failure_with_retry now gen_random_uuid claimed failure send db = Ok (c, db') ->
  if is_stale c then tidy_step db db' else work claimed db db'.
Proof using Type.
  unfold complete_activity_failure_with_retry. intros H. run H. branch H; run H; [by eapply log_tidy|].
  destruct (recorded_failure _ _ _ _) as [failure' cause]. cbv zeta in H. run H. branch H; [|by apply end_cases in H as [-> W]].
  run H. destruct a0 as [delay|]; [|by apply end_cases in H as [-> W]]. run H. cbn.
  eapply work_log; [|eassumption]. eapply work_release; [|eassumption]. unfold reschedule_activity_retry in Hrun. run Hrun.
  repeat match goal with H : i64_milliseconds _ _ _ = _ |- _ => apply i64_milliseconds_Ok in H as [-> ->] end.
  by eapply settle_work; [apply retry_leaves|..].
Qed.

Lemma complete_cases claimed answer (db db' : Db) c : complete now gen_random_uuid claimed answer db = Ok (c, db') ->
  if is_stale c then tidy_step db db' else work claimed db db'.
Proof using Type.
  destruct answer as [output|failure send]; cbn; [|apply failure_cases]. intros H. run H. apply success_cases in Hrun. by destruct a.
Qed.
End Sends.

(** ** The floor *)
Section Floor.
Context {serde : Serde} {digest : Digest} {uuids : Uuids} {runtime : ProcessRuntime} {postgres : Postgres} {crates : ActivityCrates}.
Context {Application : Type}.
Abbreviation Db := (Database Application).
Variable gen_random_uuid : Db -> Uuid.

(** The tables, the time of the last transaction, the leases that were handed
    out, and those whose send was authorized and whose completion was current. *)
Record floor := {
  tables : Db;
  clock : Z;
  held : list ClaimedActivity;
  sent : list ClaimedActivity;
  finished : list ClaimedActivity;
}.

(** A committed transaction: of a claim, of an authorization or of a completion
    under a lease that was handed out, however often a worker repeats it, or of
    anybody else. *)
Inductive floor_turn : floor -> floor -> Prop :=
| ClaimTurn f locked now claim db : clock f <= now -> claim_transaction now gen_random_uuid locked (tables f) = Ok (claim, db) ->
    floor_turn f {| tables := db; clock := now; held := held f ++ match claim with Ok (Claimed claimed) => [claimed] | _ => [] end;
                    sent := sent f; finished := finished f |}
| AuthorizeTurn f now claimed authorization db : clock f <= now -> In claimed (held f) ->
    authorize_provider_send now claimed (tables f) = Ok (authorization, db) ->
    floor_turn f {| tables := db; clock := now; held := held f;
                    sent := sent f ++ match authorization with Authorized _ _ => [claimed] | Refused _ => [] end; finished := finished f |}
| CompleteTurn f now claimed answer consumption db : clock f <= now -> In claimed (held f) ->
    complete now gen_random_uuid claimed answer (tables f) = Ok (consumption, db) ->
    floor_turn f {| tables := db; clock := now; held := held f; sent := sent f;
                    finished := finished f ++ if is_stale consumption then [] else [claimed] |}
| OtherTurn f now db : clock f <= now -> other_work (tables f) db ->
    floor_turn f {| tables := db; clock := now; held := held f; sent := sent f; finished := finished f |}.

(** Nobody has worked yet. *)
Definition opened (f : floor) : Prop :=
  keyed_table job_conflicts (jobs (tables f)) /\ reservations (tables f) = [] /\ held f = [] /\ sent f = [] /\ finished f = [].

(** *** What every turn keeps *)

Lemma turn_keyed f f' : floor_turn f f' -> keyed_table job_conflicts (jobs (tables f)) -> keyed_table job_conflicts (jobs (tables f')).
Proof using Type.
  intros H Hk. destruct H as [f locked now claim db Hc H|f now claimed a db Hc Hh H|f now claimed answer c db Hc Hh H|f now db Hc H]; cbn.
  - eapply claim_cases in H as [[T _]|(job & job' & spec & token & G & _)]; [by apply T|apply G|exact Hk].
  - apply authorize_cases in H as [S _]. by rewrite (sends_jobs _ _ S).
  - apply complete_cases in H. destruct (is_stale c); [by apply H|]. destruct H as [T _]. by apply T.
  - apply H.
Qed.

Lemma forward_table (rows rows' : list JobRow) : Forall2 lease_forward rows rows' -> table_step lease_forward unleased rows rows'.
Proof using Type. intros H. exists rows', []. rewrite app_nil_r. split; [done|]. by split; [|constructor]. Qed.

Lemma turn_jobs f f' : floor_turn f f' -> keyed_table job_conflicts (jobs (tables f)) -> jobs_forward (tables f) (tables f').
Proof using Type.
  intros H Hk. destruct H as [f locked now claim db Hc H|f now claimed a db Hc Hh H|f now claimed answer c db Hc Hh H|f now db Hc H]; cbn.
  - eapply claim_cases in H as [[T _]|(job & job' & spec & token & G & _)]; [apply forward_table, T|apply forward_table, G|exact Hk].
  - apply authorize_cases in H as [S _]. apply jobs_forward_eq, S.
  - apply complete_cases in H. apply forward_table. destruct (is_stale c); apply H.
  - apply H.
Qed.

Lemma turn_steps f f' : floor_turn f f' -> keyed_table job_conflicts (jobs (tables f)) ->
  exists added, provider_steps (tables f') = provider_steps (tables f) ++ added.
Proof using Type.
  intros H Hk. destruct H as [f locked now claim db Hc H|f now claimed a db Hc Hh H|f now claimed answer c db Hc Hh H|f now db Hc H]; cbn.
  - exists []. rewrite app_nil_r. eapply claim_cases in H as [[T _]|(job & job' & spec & token & G & _)]; [apply T|apply G|exact Hk].
  - apply authorize_cases in H as [S _]. apply S.
  - exists []. rewrite app_nil_r. apply complete_cases in H. destruct (is_stale c); apply H.
  - exists []. rewrite app_nil_r. apply H.
Qed.

(** *** Sends *)

Definition sends_in_order (f : floor) : Prop :=
  keyed_table job_conflicts (jobs (tables f)) /\ NoDup (omap once_send (sent f))
  /\ forall logical step_, In (logical, step_) (omap once_send (sent f)) -> recorded logical step_ (tables f).

Lemma omap_snoc {A B} (f : A -> option B) l x : omap f (l ++ [x]) = omap f l ++ option_list (f x).
Proof using Type. rewrite omap_app. cbn. by destruct (f x). Qed.

Lemma turn_sends f f' : floor_turn f f' -> sends_in_order f -> sends_in_order f'.
Proof using Type.
  intros Ht (Hk & Hn & Hr). pose proof (turn_keyed _ _ Ht Hk) as Hk'. pose proof (turn_steps _ _ Ht Hk) as Hp. split; [exact Hk'|].
  assert (Hr' : forall logical step_, In (logical, step_) (omap once_send (sent f)) -> recorded logical step_ (tables f')).
  { intros logical st H. by eapply recorded_kept, Hr. }
  destruct Ht as [f locked now claim db Hc H|f now claimed a db Hc Hh H|f now claimed answer c db Hc Hh H|f now db Hc H]; cbn in *; [by split| |by split|by split].
  destruct a as [key deadline|failure]; [|by rewrite app_nil_r]. apply authorize_cases in H as [_ H]. destruct (H key deadline eq_refl) as (_ & _ & Hone).
  rewrite omap_snoc. destruct (once_send claimed) as [[logical st]|] eqn:Eo; cbn; [|by rewrite app_nil_r].
  assert (He : effect (claimed_spec claimed) = AtMostOnce) by (unfold once_send in Eo; by destruct (effect _)).
  destruct (Hone He) as (? & ? & [= <- <-] & Hno & Hyes). split.
  - apply NoDup_app. split; [exact Hn|]. split; [|apply NoDup_singleton]. intros [l s] Hin%list_elem_of_In Heq%list_elem_of_singleton.
    injection Heq as -> ->. apply Hno, Hr, Hin.
  - intros l s [Hin|[[= <- <-]|[]]]%in_app_or; [by apply Hr'|exact Hyes].
Qed.

Lemma opened_sends f : opened f -> sends_in_order f.
Proof using Type. intros (Hk & _ & _ & Hs & _). unfold sends_in_order. rewrite Hs. split; [done|]. split; [constructor|done]. Qed.

Lemma always (P : floor -> Prop) f f' : (forall f f', floor_turn f f' -> P f -> P f') -> P f -> rtc floor_turn f f' -> P f'.
Proof using Type. intros Hstep Hf H. induction H; eauto. Qed.

(** C7: An activity that may be sent at most once is sent at most once: whatever
    the workers do, claims that are taken over and completions that come too
    late included, its send is authorized once at most for each step. *)
Theorem at_most_once_is_sent_at_most_once f f' : opened f -> rtc floor_turn f f' -> NoDup (omap once_send (sent f')).
Proof using Type. intros Ho H. by apply (always sends_in_order f f' turn_sends (opened_sends f Ho)). Qed.

(** *** Leases *)

Definition lease_of (claimed : ClaimedActivity) : Uuid * Z := (j_id (claimed_job claimed), claimed_generation claimed).

(** The job of a lease is there, as far as the lease or further; with a lease
    that was completed it is past it. *)
Definition granted_to (db : Db) (claimed : ClaimedActivity) : Prop :=
  exists row, In row (jobs db) /\ this_job (claimed_job claimed) row = true /\ claimed_generation claimed <= j_lease_generation row.

Definition past (db : Db) (claimed : ClaimedActivity) : Prop :=
  exists row, In row (jobs db) /\ this_job (claimed_job claimed) row = true
    /\ (claimed_generation claimed < j_lease_generation row
        \/ (claimed_generation claimed = j_lease_generation row /\ j_status row <> JRunning)).

Lemma forward_row (db db' : Db) row : jobs_forward db db' -> In row (jobs db) -> exists row', In row' (jobs db') /\ lease_forward row row'.
Proof using Type.
  intros (kept & added & Hj & Hk & _) [i Hi]%list_elem_of_In%list_elem_of_lookup. eapply Forall2_lookup_l in Hk as (row' & Hi' & H); [|exact Hi].
  exists row'. split; [|done]. rewrite Hj. apply in_or_app. left. apply list_elem_of_In, list_elem_of_lookup. by exists i.
Qed.

Lemma this_job_forward job row row' : lease_forward row row' -> this_job job row' = this_job job row.
Proof using Type. intros (Hs & Hi & _). unfold this_job. by rewrite Hs, Hi. Qed.

Lemma granted_forward_to (db db' : Db) claimed : jobs_forward db db' -> granted_to db claimed -> granted_to db' claimed.
Proof using Type.
  intros Hf (row & Hin & Ht & Hg). destruct (forward_row _ _ _ Hf Hin) as (row' & Hin' & Hl). exists row'. split; [done|].
  rewrite (this_job_forward _ _ _ Hl). split; [done|]. destruct Hl as (_ & _ & _ & _ & Hl & _). lia.
Qed.

Lemma past_forward (db db' : Db) claimed : jobs_forward db db' -> past db claimed -> past db' claimed.
Proof using Type.
  intros Hf (row & Hin & Ht & Hg). destruct (forward_row _ _ _ Hf Hin) as (row' & Hin' & Hl). exists row'. split; [done|].
  rewrite (this_job_forward _ _ _ Hl). split; [done|]. destruct Hl as (_ & _ & _ & _ & Hl & Hr).
  destruct (decide (j_lease_generation row' = j_lease_generation row)) as [E|E]; [|left; lia].
  destruct Hg as [Hg|[Hg Hs]]; [left; lia|]. right. split; [lia|]. intros H. by apply Hs, Hr.
Qed.

Lemma this_job_same (db : Db) job row row' : keyed_table job_conflicts (jobs db) -> In row (jobs db) -> In row' (jobs db) ->
  this_job job row = true -> this_job job row' = true -> row = row'.
Proof using Type.
  intros Hk H1 H2 T1 T2. apply (keyed_unique _ _ _ Hk H1 H2). unfold this_job, job_conflicts in *. rewrite !andb_true_iff, !String.eqb_eq in *.
  destruct T1 as [-> ->], T2 as [-> ->]. by rewrite !String.eqb_refl.
Qed.

Definition leases_in_order (f : floor) : Prop :=
  keyed_table job_conflicts (jobs (tables f))
  /\ (NoDup (map lease_of (held f)) /\ forall claimed, In claimed (held f) -> granted_to (tables f) claimed)
  /\ (NoDup (map lease_of (finished f)) /\ forall claimed, In claimed (finished f) -> past (tables f) claimed).

(** A lease whose job is elsewhere is not one of the list. *)
Lemma fresh_lease (leases : list ClaimedActivity) claimed : NoDup (map lease_of leases) ->
  (forall other, In other leases -> lease_of other = lease_of claimed -> False) -> NoDup (map lease_of (leases ++ [claimed])).
Proof using Type.
  intros Hn Hno. rewrite map_app. apply NoDup_app. split; [exact Hn|]. split; [|apply NoDup_singleton].
  intros l (other & E & Hin)%list_elem_of_In%in_map_iff Hl%list_elem_of_singleton. apply (Hno other Hin). congruence.
Qed.

Lemma same_lease claimed other row : lease_of other = lease_of claimed -> this_job (claimed_job other) row = this_job (claimed_job claimed) row.
Proof using Type. intros [= E _]. unfold this_job. by rewrite E. Qed.

Lemma this_job_self row : j_source row = runtime_source -> this_job row row = true.
Proof using Type. intros E. unfold this_job. by rewrite E, !String.eqb_refl. Qed.

Lemma held_lease job job' spec token claimed (db db' : Db) now : granted now db db' job job' spec token -> keyed_table job_conflicts (jobs db) ->
  claimed_job claimed = job' -> claimed_generation claimed = j_lease_generation job' ->
  granted_to db' claimed /\ forall other, granted_to db other -> lease_of other = lease_of claimed -> False.
Proof using Type.
  intros G Hk Hj Hg. destruct (granted_next _ _ _ _ _ _ _ G) as (attempt & s & t & Hnext & _). destruct (granted_in _ _ _ _ _ _ _ G) as [Hin Hs].
  assert (Hids : forall row, this_job job' row = this_job job row) by (intros row; by rewrite Hnext).
  split.
  - exists job'. split; [rewrite (granted_jobs _ _ _ _ _ _ _ G); apply in_map_iff; exists job; by rewrite this_job_self|].
    rewrite Hj, Hg. split; [|lia]. apply this_job_self. by rewrite Hnext.
  - intros other (row & Hrow & Ht & Hle) El. rewrite (same_lease _ _ _ El), Hj, Hids in Ht.
    assert (row = job) as -> by (eapply this_job_same; eauto using this_job_self). injection El as _ Eg. rewrite Eg, Hg, Hnext in Hle. cbn in Hle. lia.
Qed.

Lemma turn_leases f f' : floor_turn f f' -> leases_in_order f -> leases_in_order f'.
Proof using Type.
  intros Ht (Hk & [Hn Hh] & [Hf Hp]). pose proof (turn_keyed _ _ Ht Hk) as Hk'. pose proof (turn_jobs _ _ Ht Hk) as Hj. split; [exact Hk'|].
  assert (Hh' : forall c, In c (held f) -> granted_to (tables f') c) by (intros c Hc; by eapply granted_forward_to, Hh).
  assert (Hp' : forall c, In c (finished f) -> past (tables f') c) by (intros c Hc; by eapply past_forward, Hp).
  destruct Ht as [f locked now claim db Hc H|f now claimed a db Hc Hx H|f now claimed answer c db Hc Hx H|f now db Hc H]; cbn in *.
  - split; [|by split]. destruct claim as [[| | | |claimed]|e]; try by rewrite app_nil_r.
    eapply claim_cases in H as [[_ H]|(job & job' & spec & token & G & H)]; [by destruct (H claimed)| |exact Hk].
    destruct (H claimed eq_refl) as (Hcj & _ & _ & _ & Hcg). destruct (held_lease _ _ _ _ _ _ _ _ G Hk Hcj Hcg) as [Hnew Hno].
    split; [apply fresh_lease; [exact Hn|]; intros other Ho; by apply Hno, Hh|].
    intros c [Hin|[<-|[]]]%in_app_or; [by apply Hh'|exact Hnew].
  - by split.
  - split; [by split|]. apply complete_cases in H. destruct (is_stale c); [by rewrite app_nil_r|]. destruct H as [_ (job & job' & H1 & H2 & H3 & H4 & H5 & H6)].
    unfold holds_lease in H2. rewrite !andb_true_iff, bool_decide_eq_true, !Z.eqb_eq in H2. destruct H2 as ((((T & Hrun) & _) & Hgen) & _). split.
    + apply fresh_lease; [exact Hf|]. intros other Ho El. destruct (Hp other Ho) as (row & Hrow & Hto & Hpast).
      rewrite (same_lease _ _ _ El) in Hto. assert (row = job) as -> by exact (this_job_same _ _ _ _ Hk Hrow H1 Hto T). injection El as _ Eg.
      destruct Hpast as [Hpast|[_ Hpast]]; [lia|done].
    + intros c' [Hin|[<-|[]]]%in_app_or; [by apply Hp'|]. exists job'. split; [done|]. split; [done|]. right. by split.
  - by split.
Qed.

Lemma opened_leases f : opened f -> leases_in_order f.
Proof using Type. intros (Hk & _ & Hh & _ & Hf). unfold leases_in_order. rewrite Hh, Hf. split; [done|]. repeat split; constructor || done. Qed.

(** C8: No lease is handed out twice, and none is completed twice: of all the
    workers that believe to hold a job, one at most records an outcome under
    each generation of its lease. *)
Theorem a_lease_is_completed_once f f' : opened f -> rtc floor_turn f f' ->
  NoDup (map lease_of (held f')) /\ NoDup (map lease_of (finished f')).
Proof using Type. intros Ho H. destruct (always leases_in_order f f' turn_leases (opened_leases f Ho) H) as (_ & [? _] & [? _]). by split. Qed.

(** *** Capacity *)

(** How many activities of an operation may be under way, by what the deployed
    revisions say. *)
Variable limit : string -> string -> Z.
Hypothesis limit_nonnegative : forall c o, 0 <= limit c o.
Hypothesis limit_deployed : forall job spec, deployed_spec job spec -> maximum_in_flight spec <= limit (j_connector job) (j_operation job).

Definition within (rows : list ReservationRow) (bound : Z) : Prop :=
  Z.of_nat (List.length rows) <= bound /\ NoDup (omap r_serialization_key_hash rows).

Definition capacity_in_order (f : floor) : Prop :=
  keyed_table job_conflicts (jobs (tables f)) /\ forall t c o, clock f <= t -> within (actives t c o (tables f)) (limit c o).

Lemma sublist_omap {A B} (f : A -> option B) l l' : sublist l l' -> sublist (omap f l) (omap f l').
Proof using Type.
  intros H. induction H as [|x l l' H IH|x l l' H IH]; cbn; [done| |].
  - destruct (f x); [by apply sublist_skip|done].
  - destruct (f x); [by apply sublist_cons|done].
Qed.

Lemma within_sublist rows rows' bound : sublist rows rows' -> within rows' bound -> within rows bound.
Proof using Type.
  intros Hs [Hl Hn]. apply sublist_length in Hs as Hle. split; [lia|]. by eapply sublist_NoDup, sublist_omap.
Qed.

(** A reservation that is taken counts for its operation alone, and there was
    room for it. *)
Lemma granted_within now job job' spec token (db db' : Db) : granted now db db' job job' spec token ->
  (forall t c o, now <= t -> within (actives t c o db) (limit c o)) ->
  forall t c o, now <= t -> within (actives t c o db') (limit c o).
Proof using limit_deployed.
  intros G Hw t c o Ht. destruct (granted_room _ _ _ _ _ _ _ G) as (rows & row & Hres & Hsh & Hc & Ho & Hkey & Hroom & Hfree).
  pose proof (within_sublist _ _ _ (Hsh t c o) (Hw t c o Ht)) as [Hlen Hkeys]. pose proof (actives_later now t c o (with_reservations db rows) Ht) as Hlater.
  unfold actives in *. cbn in *. rewrite Hres, List.filter_app. cbn. destruct (active t c o row) eqn:Ea; [|rewrite app_nil_r; by split].
  unfold active in Ea. rewrite !andb_true_iff, !String.eqb_eq in Ea. destruct Ea as ((((_ & Ec) & Eo) & _) & _). rewrite Hc in Ec. rewrite Ho in Eo. subst c o.
  split.
  - rewrite length_app. cbn. apply sublist_length in Hlater. pose proof (limit_deployed _ _ (granted_spec _ _ _ _ _ _ _ G)). lia.
  - rewrite omap_snoc, Hkey. destruct (j_serialization_key_hash job) as [key|] eqn:Ek; cbn; [|by rewrite app_nil_r].
    apply NoDup_app. split; [exact Hkeys|]. split; [|apply NoDup_singleton]. intros k (r & Hr & Hrk)%list_elem_of_omap ->%list_elem_of_singleton.
    assert (Hnow : r ∈ List.filter (active now (j_connector job) (j_operation job)) rows) by by exact (elem_of_sublist _ _ _ Hr Hlater).
    apply list_elem_of_In, filter_In in Hnow as [Hin Ha]. specialize (Hfree r Hin Ha). unfold same_serialization in Hfree.
    rewrite Hrk, Ek in Hfree. cbn in Hfree. by rewrite String.eqb_refl in Hfree.
Qed.

Lemma turn_capacity f f' : floor_turn f f' -> capacity_in_order f -> capacity_in_order f'.
Proof using limit_deployed.
  intros Ht (Hk & Hw). pose proof (turn_keyed _ _ Ht Hk) as Hk'. split; [exact Hk'|].
  destruct Ht as [f locked now claim db Hc H|f now claimed a db Hc Hx H|f now claimed answer c db Hc Hx H|f now db Hc H]; cbn in *.
  - eapply claim_cases in H as [[T _]|(job & job' & spec & token & G & _)]; [| |exact Hk].
    + intros t cn o Ht. eapply within_sublist; [apply (tidy_reservations _ _ T)|]. apply Hw. lia.
    + eapply granted_within; [exact G|]. intros t cn o Ht. apply Hw. lia.
  - apply authorize_cases in H as [S _]. intros t cn o Ht. unfold actives. rewrite (sends_reservations _ _ S). apply Hw. lia.
  - apply complete_cases in H. assert (Hs : shrinks (tables f) db) by (destruct (is_stale c); apply H).
    intros t cn o Ht. eapply within_sublist; [apply Hs|]. apply Hw. lia.
  - intros t cn o Ht. unfold actives. rewrite (proj2 (other_leases _ _ H)). apply Hw. lia.
Qed.

Lemma opened_capacity f : opened f -> capacity_in_order f.
Proof using limit_nonnegative.
  intros (Hk & Hr & _). split; [done|]. intros t c o _. unfold actives, within. rewrite Hr. cbn. split; [apply limit_nonnegative|constructor].
Qed.

(** C9: The capacity of an operation is never exceeded: at any time from the last
    transaction on, the reservations that count are no more than the deployed
    revisions allow, and no two of them have the same serialization key. *)
Theorem capacity_is_never_exceeded f f' : opened f -> rtc floor_turn f f' ->
  forall t c o, clock f' <= t ->
    Z.of_nat (List.length (actives t c o (tables f'))) <= limit c o /\ NoDup (omap r_serialization_key_hash (actives t c o (tables f'))).
Proof using limit_nonnegative limit_deployed. intros Ho H. exact (proj2 (always capacity_in_order f f' turn_capacity (opened_capacity f Ho) H)). Qed.
End Floor.

(** ** Witnesses

    The payment is claimed, its send is authorized, a second authorization of
    the worker is refused, and its answer is recorded. *)

Definition charge_floor (n : Z) (db : Database (list string)) (held sent finished : list ClaimedActivity) : floor :=
  {| tables := db; clock := seconds n; held := held; sent := sent; finished := finished |}.

Abbreviation charge_turn := (floor_turn (runtime := charge_runtime) sample_uuid).

Lemma charge_opened : opened (charge_floor 0 charge_database [] [] []).
Proof. split; [apply keyed_short; cbn; lia|done]. Qed.

Lemma charge_turn_claim : charge_turn (charge_floor 0 charge_database [] [] []) (charge_floor 10 charge_claimed.2 [charge_lease] [] []).
Proof. apply (ClaimTurn (runtime := charge_runtime) sample_uuid (charge_floor 0 charge_database [] [] []) (fun _ => false) (seconds 10) charge_claimed.1); [done|]. exact charge_claims. Qed.

Lemma charge_turn_authorize : charge_turn (charge_floor 10 charge_claimed.2 [charge_lease] [] []) (charge_floor 11 charge_authorized [charge_lease] [charge_lease] []).
Proof.
  apply (AuthorizeTurn (runtime := charge_runtime) sample_uuid (charge_floor 10 charge_claimed.2 [charge_lease] [] []) (seconds 11) charge_lease (Authorized "l1" 20000));
    [done|by left|vm_compute; reflexivity].
Qed.

Lemma charge_turn_again : charge_turn (charge_floor 11 charge_authorized [charge_lease] [charge_lease] []) (charge_floor 12 charge_authorized [charge_lease] [charge_lease] []).
Proof.
  apply (AuthorizeTurn (runtime := charge_runtime) sample_uuid (charge_floor 11 charge_authorized [charge_lease] [charge_lease] []) (seconds 12) charge_lease
    (Refused (ConnectorFailure_new OfPermanent PROVIDER_SEND_AMBIGUOUS "an at-most-once provider send was already authorized and its outcome is unknown")));
    [done|by left|vm_compute; reflexivity].
Qed.

Lemma charge_turn_complete : charge_turn (charge_floor 12 charge_authorized [charge_lease] [charge_lease] [])
  (charge_floor 13 charge_completed [charge_lease] [charge_lease] [charge_lease]).
Proof.
  apply (CompleteTurn (runtime := charge_runtime) sample_uuid (charge_floor 12 charge_authorized [charge_lease] [charge_lease] []) (seconds 13) charge_lease
    charge_answer (ActivitySucceeded "i" "j1" 1 1)); [done|by left|vm_compute; reflexivity].
Qed.

Lemma charge_sent : rtc charge_turn (charge_floor 0 charge_database [] [] []) (charge_floor 12 charge_authorized [charge_lease] [charge_lease] []).
Proof.
  eapply rtc_l; [exact charge_turn_claim|]. eapply rtc_l; [exact charge_turn_authorize|]. eapply rtc_l; [exact charge_turn_again|]. apply rtc_refl.
Qed.

Lemma charge_done : rtc charge_turn (charge_floor 0 charge_database [] [] []) (charge_floor 13 charge_completed [charge_lease] [charge_lease] [charge_lease]).
Proof. eapply rtc_r; [exact charge_sent|exact charge_turn_complete]. Qed.

Lemma at_most_once_is_sent_at_most_once_witness : omap once_send [charge_lease] = [("l1", "charge")] /\ NoDup (omap once_send [charge_lease]).
Proof.
  split; [by vm_compute|].
  exact (at_most_once_is_sent_at_most_once (runtime := charge_runtime) sample_uuid _ (charge_floor 12 charge_authorized [charge_lease] [charge_lease] []) charge_opened charge_sent).
Defined.

Lemma a_lease_is_completed_once_witness : map lease_of [charge_lease] = [("j1", 1)] /\ NoDup (map lease_of [charge_lease]) /\ NoDup (map lease_of [charge_lease]).
Proof.
  split; [by vm_compute|].
  exact (a_lease_is_completed_once (runtime := charge_runtime) sample_uuid _ (charge_floor 13 charge_completed [charge_lease] [charge_lease] [charge_lease]) charge_opened charge_done).
Defined.

(** One payment at a time. *)
Lemma charge_limit job spec : deployed_spec (runtime := charge_runtime) job spec -> maximum_in_flight spec <= 1.
Proof.
  intros (name & rev & d & operation_ & dependency & Hr & _ & Hd & ->). unfold revision in Hr. cbn [deployed_catalog charge_runtime ProcessTransition.active live_retired] in Hr.
  cbn [bt_get km_get] in Hr. destruct (String.eqb name "welcome"); [|discriminate Hr]. destruct (String.eqb _ rev); [|discriminate Hr]. injection Hr as <-.
  cbn [definition_dependencies with_charge connector_operations km_get] in Hd. destruct (key_compare _ _); [|done..]. by injection Hd as <-.
Qed.

Lemma capacity_is_never_exceeded_witness :
  List.length (actives (runtime := charge_runtime) (seconds 12) "pay" "charge" charge_authorized) = 1%nat
  /\ Z.of_nat (List.length (actives (runtime := charge_runtime) (seconds 12) "pay" "charge" charge_authorized)) <= 1
  /\ NoDup (omap r_serialization_key_hash (actives (runtime := charge_runtime) (seconds 12) "pay" "charge" charge_authorized)).
Proof.
  split; [by vm_compute|].
  refine (capacity_is_never_exceeded (runtime := charge_runtime) sample_uuid (fun _ _ => 1) _ _ _
    (charge_floor 12 charge_authorized [charge_lease] [charge_lease] []) charge_opened charge_sent (seconds 12) "pay" "charge" _).
  - done.
  - exact charge_limit.
  - done.
Defined.
