(* ===== verification/ActivityOutcome.v ===== *)
(** * What becomes of an activity

    What the completion of a failure decides, and what a claim does about an
    activity whose worker is lost. *)
From S2P Require Import Prelude Json KeyedMap AbiIds RulesSyntax ValueContract ProcessSyntax ProcessActivity ProcessInfer ProcessEvaluate ProcessEvaluateSpec ProcessDependencies ProcessFingerprint ProcessDefinition ProcessStates ProcessCompile ProcessCompiled ProcessTyped ProcessTables ProcessTransition ProcessPrepare ProcessCommit ProcessConsume ProcessJournal ProcessSample ActivityClaim ActivityWork ActivitySpec ActivitySample ActivityFloor.
Set Warnings "-register-all".

Section Outcome.
Context {serde : Serde} {digest : Digest} {uuids : Uuids} {runtime : ProcessRuntime} {postgres : Postgres} {crates : ActivityCrates}.
Context {Application : Type}.
Abbreviation Db := (Database Application).
Abbreviation txn := (ProcessTables.txn Application).
Variable gen_random_uuid : Db -> Uuid.

(** ** Lost activities *)

(** A reservation of the job that was not given back. *)
Definition reserved (job : JobRow) (db : Db) : Prop :=
  exists row, In row (reservations db) /\ r_source row = runtime_source /\ r_job row = j_id job /\ r_released_at row = None.

Lemma release_needs_reservation now job (db db' : Db) u : release_abandoned_capacity now job db = Ok (u, db') -> reserved job db.
Proof using Type.
  unfold release_abandoned_capacity. intros H. run H. apply update_reservations_Ok in Hrun as [-> _].
  destruct (List.filter _ _) as [|row rest] eqn:Ef; [done|]. assert (Hin : In row (row :: rest)) by (by left). rewrite <- Ef in Hin.
  apply filter_In in Hin as [Hin Hp]. exists row. rewrite !andb_true_iff, !String.eqb_eq, negb_true_iff in Hp. split; [done|].
  destruct Hp as [[Hs Hj] Hr]. by destruct (r_released_at row).
Qed.

Lemma reserved_jobs job (db : Db) t : reserved job (with_jobs db t) -> reserved job db.
Proof using Type. done. Qed.

Lemma late_needs_reservation now job name rev state (db db' : Db) c :
  resolve_late_running_activity now gen_random_uuid job name rev state db = Ok (c, db') -> reserved job db.
Proof using Type.
  unfold resolve_late_running_activity. intros H. run H. branch H.
  - run H. repeat match goal with H : i64_milliseconds _ _ _ = _ |- _ => apply i64_milliseconds_Ok in H as [-> ->] end.
    match goal with H : update_checked_jobs _ _ _ = _ |- _ => apply update_checked_jobs_Ok in H as [_ ->] end.
    match goal with H : release_abandoned_capacity _ _ _ = _ |- _ => by apply release_needs_reservation, reserved_jobs in H end.
  - lazymatch type of H with (let '(_, _) := ?p in _) _ = Ok _ => destruct p as [kind error] end. run H.
    apply update_checked_jobs_Ok in Hrun as [_ ->]. by apply release_needs_reservation, reserved_jobs in Hrun0.
Qed.

(** C11: A lost activity is never resolved once its reservation was given back, and
    a claim gives back every reservation that is over before it looks for room:
    one that takes the activity over and finds no room has given back its own.
    When the time for a takeover ends before there is room, each claim that
    comes to the activity fails and leaves everything as it was, and the
    activity stays at the head of the queue of its source. *)
Theorem lost_activity_without_reservation_fails_every_claim execute now authorize_time complete_time locked (db : Db) job instance compiled state
    dependency start_to_close completion :
  claim_job now locked db = Some (job, instance) -> check_activity db job instance = Ok (compiled, state, dependency) ->
  j_status job = JRunning -> attempt_deadlines now job state = Ok (start_to_close, completion) -> completion < now -> ~ reserved job db ->
  exists e, consume_one_activity gen_random_uuid execute now authorize_time complete_time locked db = (Err e, db).
Proof using Type.
  intros Hc Ha Hs Hd Hlate Hno. unfold consume_one_activity, claim_one_activity, transaction.
  destruct (claim_transaction now gen_random_uuid locked db) as [[r db']|e] eqn:E; [|by exists e]. exfalso.
  unfold claim_transaction in E. run E. rewrite Hc in E. run E. rewrite Ha in E0. injection E0 as <-. rewrite Hs in E.
  rewrite (bool_decide_eq_false_2 (JRunning = JScheduled)), (bool_decide_eq_true_2 (JRunning = JRunning)) in E by done. cbn [andb] in E.
  run E. rewrite Hd in E0. injection E0 as <-. cbn iota beta in E. rewrite (proj2 (Z.ltb_lt _ _) Hlate) in E. run E.
  by apply late_needs_reservation in Hrun.
Qed.

(** ** Retries *)

Lemma jitter_bound logical attempt upper : 0 <= upper -> 0 <= deterministic_full_jitter_ms logical attempt upper <= upper.
Proof using Type.
  intros H. unfold deterministic_full_jitter_ms. assert (Hp : 0 < Z.min u64_max (upper + 1)) by (unfold u64_max; lia).
  pose proof (Z.mod_pos_bound (be_value (str_take 8 (sha256 ("donat.process.retry-jitter.v1" +:+ zero_byte +:+ logical +:+ zero_byte +:+ show_Z attempt)))) _ Hp). lia.
Qed.

(** The interval doubles with each attempt, up to its maximum. *)
Lemma retry_delay_upper_bound state attempt upper : 0 <= initial_retry_interval_ms (activity state) -> 0 <= maximum_retry_interval_ms (activity state) ->
  retry_delay_upper_ms state attempt = Ok upper ->
  0 <= upper <= maximum_retry_interval_ms (activity state)
  /\ (1 <= attempt <= 64 -> upper <= initial_retry_interval_ms (activity state) * 2 ^ (attempt - 1)).
Proof using Type.
  intros Hi Hm. unfold retry_delay_upper_ms. destruct (_ <? 0) eqn:En; [done|]. apply Z.ltb_ge in En. intros [= <-].
  assert (Hu : 0 < u64_max) by (by unfold u64_max). split.
  - assert (0 <= if attempt - 1 <? 64 then 2 ^ (attempt - 1) else u64_max) by (destruct (_ <? 64); [apply Z.pow_nonneg|]; lia). nia.
  - intros Ha. rewrite (proj2 (Z.ltb_lt _ _)) by lia. lia.
Qed.

(** The provider was sent to at most once, perhaps, and nobody knows. *)
Definition ambiguous (claimed : ClaimedActivity) (failure : ConnectorFailure) (send : SendOutcome) (db : Db) : bool :=
  at_most_once (activity (claimed_state claimed)) && send_outcome_is_unknown send (failure_class failure)
  && send_was_authorized (j_logical_activity_id (claimed_job claimed)) db.

(** What the provider asks to wait, in milliseconds. *)
Definition asked (failure : ConnectorFailure) : Z := match retry_after failure with Some ms => Z.min u64_max ms | None => 0 end.

(** The failure is one that the request retries, of a send that was tried, with
    attempts left, and the provider asks for no longer wait than the policy
    allows. *)
Definition may_retry (claimed : ClaimedActivity) (failure : ConnectorFailure) (send : SendOutcome) (db : Db) : Prop :=
  send <> NotAttempted /\ activity_failure_is_retryable (claimed_state claimed) (failure_class failure) = true
  /\ claimed_attempt claimed < max_attempts_of claimed /\ ambiguous claimed failure send db = false
  /\ exists upper, retry_delay_upper_ms (claimed_state claimed) (claimed_attempt claimed) = Ok upper /\ asked failure <= upper.

(** The rows under the lease, as they were left. *)
Definition leaves_rows (claimed : ClaimedActivity) (set : JobRow -> JobRow) (db db' : Db) : Prop :=
  jobs db' = map (fun row => if holds_lease claimed row then set row else row) (jobs db).

Definition ends (claimed : ClaimedActivity) (db db' : Db) : Prop :=
  exists error event, leaves_rows claimed (fail_job error) db db' /\ events db' = events db ++ [event]
    /\ e_instance event = j_instance (claimed_job claimed) /\ (e_kind event = "activity_failed" \/ e_kind event = "retry_exhausted").

Definition is_retry (consumption : ActivityConsumption) : bool :=
  match consumption with ActivityRetryScheduled _ _ _ _ => true | _ => false end.

Lemma release_capacity_Ok now claimed (db db' : Db) u : release_capacity now claimed db = Ok (u, db') -> exists t, db' = with_reservations db t.
Proof using Type. unfold release_capacity. intros H. run H. apply update_reservations_Ok in Hrun as [_ ->]. by eexists. Qed.

Lemma end_activity_ends now claimed failure cause exhausted (db db' : Db) c :
  end_activity now gen_random_uuid claimed failure cause exhausted db = Ok (c, db') -> is_retry c = false /\ ends claimed db db'.
Proof using Type.
  unfold end_activity. intros H. cbv zeta in H.
  lazymatch type of H with (let '(_, _) := ?p in _) _ = Ok _ => destruct p as [kind error] eqn:Ep end. run H.
  apply update_checked_jobs_Ok in Hrun as [_ ->]. apply release_capacity_Ok in Hrun0 as [t ->]. apply append_activity_event_Ok in Hrun1 as ->.
  apply append_activity_log_Ok in Hrun2 as [l ->]. split; [by destruct exhausted; run H|].
  assert (Hends : ends claimed db (with_logs (with_events (with_reservations (with_jobs db (map (fun r => if holds_lease claimed r then fail_job error r else r) (jobs db))) t)
     (events db ++ [activity_event now gen_random_uuid (claimed_job claimed) (claimed_process claimed) (claimed_revision claimed) kind
        (attempt_payload (claimed_job claimed) (claimed_attempt claimed) (claimed_generation claimed) (Some error))
        (attempt_key (claimed_job claimed) (claimed_attempt claimed) (claimed_generation claimed) kind)
        (with_reservations (with_jobs db (map (fun r => if holds_lease claimed r then fail_job error r else r) (jobs db))) t)])) l)).
  { exists error. eexists. split; [done|]. split; [done|]. split; [done|]. cbn. destruct exhausted; injection Ep as <- <-; auto. }
  by destruct exhausted; run H.
Qed.

Lemma ambiguous_recorded claimed failure send (db : Db) : 
  recorded_failure claimed failure send db
  = if ambiguous claimed failure send db
    then (ConnectorFailure_new OfPermanent PROVIDER_SEND_AMBIGUOUS "an at-most-once provider send was authorized and its outcome is unknown",
          Some (JObject (class_and_code failure)))
    else (failure, None).
Proof using Type. done. Qed.

Lemma permanent_is_final state : activity_failure_is_retryable state OfPermanent = false.
Proof using Type. unfold activity_failure_is_retryable. induction (retry_on (retry (activity state))) as [|[] kinds IH]; cbn; auto. Qed.

(** C10: A failed attempt under a current lease is tried again exactly when the
    policy of the request allows it: after a failure of a declared class, of a
    send that was tried, with attempts left, never when a send that may be made
    at most once may have been made, and for no longer wait than the provider
    asks and the policy bounds.  Else the activity ends, with one event to the
    instance. *)
Theorem a_failure_is_retried_within_its_policy now claimed failure send (db db' : Db) c :
  0 <= initial_retry_interval_ms (activity (claimed_state claimed)) -> 0 <= maximum_retry_interval_ms (activity (claimed_state claimed)) ->
  lock_current_activity_lease now claimed db = true ->
  complete_activity_failure_with_retry now gen_random_uuid claimed failure send db = Ok (c, db') ->
  (may_retry claimed failure send db
   /\ c = ActivityRetryScheduled (j_instance (claimed_job claimed)) (j_id (claimed_job claimed)) (claimed_attempt claimed) (claimed_attempt claimed + 1)
   /\ exists delay, asked failure <= delay /\ 0 <= delay <= maximum_retry_interval_ms (activity (claimed_state claimed))
        /\ leaves_rows claimed (retry_job (At (now + delay * 1000))
             (At (now + delay * 1000 + schedule_to_start_ms (activity (claimed_state claimed)) * 1000)) (connector_failure_json failure)) db db'
        /\ events db' = events db)
  \/ (~ may_retry claimed failure send db /\ is_retry c = false /\ ends claimed db db').
Proof using Type.
  intros Hi Hm Hcur. unfold complete_activity_failure_with_retry. intros H. run H. rewrite Hcur in H. cbn [negb] in H. run H.
  rewrite ambiguous_recorded in H. destruct (ambiguous claimed failure send db) eqn:Ea; cbv zeta in H; run H.
  { right. replace (match send with NotAttempted => false | _ => _ end) with false in H by (destruct send; cbn; by rewrite ?permanent_is_final).
    cbn [andb] in H. apply end_activity_ends in H as [Hr He]. split; [|by split]. intros (_ & _ & _ & Ha & _). congruence. }
  branch H.
  - apply andb_true_iff in Heqb as [Hretry Hleft%Z.ltb_lt]. run H. apply map_err_Ok in E0. unfold retry_delay in E0.
    apply bind_Ok in E0 as (upper & Hu & E0). cbv zeta in E0. destruct (retry_delay_upper_bound _ _ _ Hi Hm Hu) as [[Hu0 Hum] _].
    pose proof (jitter_bound (j_logical_activity_id (claimed_job claimed)) (claimed_attempt claimed) upper Hu0) as Hj. fold (asked failure) in E0.
    destruct (asked failure <=? upper) eqn:El; injection E0 as <-.
    + left. apply Z.leb_le in El. split.
      { split; [by destruct send|]. split; [by destruct send|]. split; [done|]. split; [done|]. by exists upper. }
      run H. apply map_err_Ok, ok_or_Ok in E0. unfold checked in E0. destruct (in_range _ _ _); [|done]. injection E0 as <-.
      split; [done|].
      exists (Z.max (deterministic_full_jitter_ms (j_logical_activity_id (claimed_job claimed)) (claimed_attempt claimed) upper) (asked failure)).
      split; [lia|]. split; [lia|].
      unfold reschedule_activity_retry in Hrun. run Hrun.
      repeat match goal with H : i64_milliseconds _ _ _ = _ |- _ => apply i64_milliseconds_Ok in H as [-> ->] end.
      match goal with H : update_checked_jobs _ _ _ = _ |- _ => apply update_checked_jobs_Ok in H as [_ ->] end. apply release_capacity_Ok in Hrun0 as [t ->]. by apply append_activity_log_Ok in Hrun1 as [l ->].
    + right. apply end_activity_ends in H as [Hr He]. split; [|by split]. intros (_ & _ & _ & _ & upper' & Hu' & Hle). rewrite Hu in Hu'. injection Hu' as <-.
      apply Z.leb_gt in El. lia.
  - right. apply end_activity_ends in H as [Hr He]. split; [|by split]. intros (Hs & Hret & Hl & _). apply andb_false_iff in Heqb as [Heqb|Heqb%Z.ltb_ge]; [|lia].
    by destruct send; congruence.
Qed.
End Outcome.

(** ** Witnesses *)

(** The connection is lost before the send was authorized: the payment is tried
    again.  After it, nobody knows, and it is not. *)
Lemma a_failure_is_retried_within_its_policy_witness :
  is_retry charge_retried.1 = true /\ is_retry charge_ambiguous.1 = false
  /\ may_retry charge_lease charge_lost Attempted charge_claimed.2
  /\ ends charge_lease charge_authorized charge_ambiguous.2.
Proof.
  split; [reflexivity|]. split; [reflexivity|]. split.
  - destruct (a_failure_is_retried_within_its_policy (runtime := charge_runtime) sample_uuid (seconds 13) charge_lease charge_lost Attempted
      charge_claimed.2 charge_retried.2 charge_retried.1) as [(H & _)|(_ & H & _)]; [done|done|vm_compute; reflexivity|vm_compute; reflexivity|exact H|done].
  - destruct (a_failure_is_retried_within_its_policy (runtime := charge_runtime) sample_uuid (seconds 13) charge_lease charge_lost Attempted
      charge_authorized charge_ambiguous.2 charge_ambiguous.1) as [(_ & H & _)|(_ & _ & H)]; [done|done|vm_compute; reflexivity|vm_compute; reflexivity|done|exact H].
Defined.

(** The payment that found no room to be taken over: at forty-six seconds the
    claim fails, and so does each one after it. *)
Lemma lost_activity_without_reservation_fails_every_claim_witness :
  (exists db, charge_claim 41 charge_claimed.2 = Ok (Ok (ClaimDeferred "j1"), db) /\ db = charge_waiting)
  /\ exists e, consume_one_activity (runtime := charge_runtime) sample_uuid (fun _ _ _ _ _ => Err charge_lost) (seconds 46) (seconds 47) (seconds 48)
       (fun _ => false) charge_waiting = (Err e, charge_waiting).
Proof.
  split; [exists charge_waiting; split; [exact charge_waits|done]|].
  eapply (lost_activity_without_reservation_fails_every_claim (runtime := charge_runtime) sample_uuid (fun _ _ _ _ _ => Err charge_lost)
    (seconds 46) (seconds 47) (seconds 48) (fun _ => false) charge_waiting).
  - vm_compute. reflexivity.
  - vm_compute. reflexivity.
  - reflexivity.
  - vm_compute. reflexivity.
  - done.
  - intros (row & [<-|[]] & _ & _ & H). done.
Defined.
